(* ===== verification/_CoqProject ===== *)
-Q . S2P
Prelude.v
MosaicStore.v
CompactMosaicMap.v
AccountBalances.v
BaseSetDelta.v
Streams.v
TreeNodePath.v
Trie.v
TreeNode.v
PatriciaTree.v
TreeStore.v
TreeSerializer.v
CacheTree.v
PatriciaCache.v
Notifications.v
AccountStates.v
AccountRegistration.v
NamespaceState.v
NamespaceCache.v
NamespaceSerializer.v
NamespaceObservers.v
NamespaceExpiry.v
NamespaceBackup.v
Multisig.v
MultisigGraph.v
MultisigState.v
MultisigPlugin.v
MultisigSerializer.v
Disruptor.v
ChainSync.v
BlockDifficulty.v
BlockElements.v
FileSystem.v
FileBlockStorage.v
BlockStorageCrash.v
BlockStorageRefinement.v
BlockStorageSpec.v
ChainStorage.v
BlockStorageCache.v
StorageLaws.v
StagingStorage.v
CatapultCache.v
MerkleHashBuilder.v
StatementBuilder.v
BlockExecution.v
AccountPlugin.v
Consumers.v
BlockChainSync.v
UtCache.v
UtUpdater.v
DeltaSetCaches.v
