(* ===== verification/Prelude.v ===== *)
(** * A verification of the core of the ProximaX Sirius chain server

    The program (src/) is a blockchain node derived from Catapult.  A node keeps
    a chain of blocks and a set of caches that hold the state the blocks lead
    to.  Blocks come from peers: the synchronizer compares chains and pulls
    block ranges, hands them to a disruptor, whose consumers check them, roll
    back the local blocks they replace, execute their transactions against a
    delta of the caches and commit state and blocks.  Each cache keeps its
    elements in delta sets, and the hash of its state in a Patricia tree that is
    brought up to date from the delta.  Plugins add caches, validators and
    observers of their own.

    ** Files, modules and what they model

    Shared:
    - Prelude: fixed-width integers, exceptions ([result], [Exec]), [std::map]
      as an ordered list, traces and simulations, the interface [InOrder].
    - Streams: the byte streams of catapult/io (Pod reading and writing).

    State of accounts (catapult/state, cache_core, plugins/coresystem):
    - MosaicStore: the interface between account balances and their container.
    - CompactMosaicMap (module MosaicMap): CompactMosaicMap.{h,cpp}, a map with
      an inline value, a five-slot array and an overflow map, with its
      iterators; it implements MosaicStore.
    - AccountBalances (module Balances): AccountBalances.{h,cpp}: credit, debit,
      snapshots, effective balance, clean-up, copies.
    - AccountStates: account states, the delta of their cache with its lookups by
      address and key, and the observers and the balance check of the core plugin
      (plugins/coresystem).  AccountRegistration: the account observers and what
      their rollback removes.  AccountPlugin: these observers as a plugin of
      BlockExecution, whose laws they meet.

    Caches (catapult/deltaset, catapult/tree, catapult/cache):
    - BaseSetDelta (module DeltaSet): base sets, their deltas, backups, commit.
    - TreeNodePath, TreeNode, PatriciaTree, TreeStore, TreeSerializer (modules
      Path, Node, Patricia, Store, TreeSerializer): packed nibble paths, nodes
      and their hashes, the tree with set, unset, lookup and proofs, saving to
      and loading from a data source, the byte format of nodes.  Trie holds the
      canonical tries the proofs compare trees with.
    - CacheTree, PatriciaCache: the mixin that applies a delta to the tree of a
      cache generation by generation (PatriciaTreeUtils.h), against the
      interface of a tree, and the Patricia tree as an instance of it.
    - CatapultCache: the aggregate of all sub caches with its views, attached and
      detached deltas, commit, height and merkle roots, against the interfaces
      [SubCacheView] and [SubCache] with their laws.

    Namespaces (plugins/txes/namespace/src):
    - NamespaceState (module Namespaces): lifetimes, aliases, paths, root
      namespaces and their histories, with the tables of children that
      registrations share as an explicit store.
    - NamespaceCache: the cache delta with its flat map, expiry groups and sizes.
    - NamespaceSerializer (module HistorySerializer): the serializers of histories.
    - NamespaceObservers: observers and stateful validators.
    - NamespaceExpiry: a renewal that expires before what it renews.
    - NamespaceBackup: backup and restoration of the cache delta.

    Multisig accounts (plugins/txes/multisig/src):
    - Multisig: entries, searches of the graph of accounts, the facade, observers,
      validators, the checkers of aggregate cosignatures, and the notifications of
      a modification, which run under the subscriber of Notifications.
    - MultisigGraph, MultisigState, MultisigPlugin: the graph, what the observers
      do to it, and the theorems.
    - MultisigSerializer: the serializer of entries.

    Unconfirmed transactions (catapult/cache_tx, catapult/chain/UtUpdater.cpp):
    - UtCache: the cache in memory with its account counters, the aggregate cache
      with the tracker of net changes, selections of transactions, the fee
      calculator; the interface [UtModifier] with its laws.
    - UtUpdater: the updater that keeps the cache and its own delta of the
      unconfirmed state in step, against the classes [BackupLaws] and
      [QuietPlugins], with a reference function for what becomes of a
      transaction.  Its module UtSample runs it.
    - DeltaSetCaches: caches over one delta set satisfy [BackupLaws].

    Blocks on disk (catapult/io, catapult/model, catapult/local/recovery):
    - BlockElements (module Elements): the binary layout of blocks, block
      elements and statements, and their serializers.
    - FileSystem: files and directories, every call that changes them as an
      operation, and the states a process that stops can leave behind; raw
      files and index files.
    - FileBlockStorage: the storage in chunk directories with its cached writers,
      rollback journal and recovery.  BlockStorageCrash, BlockStorageRefinement
      and BlockStorageSpec hold its lemmas, ChainStorage its contract: an
      abstract chain of blocks.
    - BlockStorageCache: the storage interface, the storage in memory, the
      aggregate, and the two-phase commit of BlockStorageCache.h.
    - StorageLaws: what a storage promises, as a class, its instances, and the
      two-phase commit proved against it.
    - StagingStorage: the storage of staged blocks and the recovery of them.

    Execution (catapult/validators, observers, chain, model, crypto):
    - Notifications: validation results and their aggregation, observer contexts,
      observers and their rollback order, the subscriber that validates,
      observes and undoes the notifications of an entity.
    - MerkleHashBuilder (module MerkleHash): the in-place merkle tree builder.
    - StatementBuilder: the builder of block statements with its sources.
    - BlockExecution: entity infos, BatchEntityProcessor, BlockExecutor,
      UndoBlock and BlockChainProcessor, against the classes [PluginLaws] (what
      committing needs) and [RollbackLaws] (observers may leave removals that are
      committed at the end of a block's rollback).

    Chain (catapult/chain, disruptor, consumers, cache_core, extensions/sync):
    - Disruptor (module Dispatcher): ConsumerDispatcher, Disruptor, barriers,
      elements and the circular buffer, as a state machine in which every access
      to shared state is a step of one thread.
    - ChainSync: CompareChains, LocalChainApi, ChainSynchronizer and
      UnprocessedElements; a round as a function of what the local storage reads
      and the remote answers, where a call may raise and a future may never
      complete, and the interleavings of rounds and completion handlers as a
      step relation.  It relies on the
      dispatcher through [InOrder] only.
    - BlockDifficulty (module Difficulty): the difficulty of the next block, the
      difficulty cache, the check of a chain part and chain scores.
    - Consumers: the consumers before the synchronization: hash calculation, hash
      check, chain check, stateless validation, forwarding of transactions.
    - BlockChainSync: the consumer that accepts chain parts, with the handlers of
      the sync extension; it composes the models of the caches, the storage, the
      execution and the difficulties.  Its module SyncSample is a small node on
      which all of it runs.

    Definitions keep the names of the source; state is a record with the fields
    of the class, an operation a function on it.  A function that may throw
    returns a [result] ([Ok] or [Throw] of the exception class), a member
    function that mutates is an [Exec]: an exception leaves in place what was
    changed before it.  Integers are [Z] with the wrap-around of their width
    written out; hypotheses of the theorems say where it must not happen.

    ** What the theorems show

    - The node as a whole: a chain part that is accepted leaves blocks, caches,
      height and score consistent, and with a better score if it was not cut at
      a change of configuration; one that is refused changes nothing; unwinding
      stops at the common block; every transaction that is reverted and not
      confirmed again is reported.
    - Refinement: CompactMosaicMap, base set and delta, Patricia tree, namespace
      history, difficulty cache, block storage and disruptor behave on every
      sequence of calls (every interleaving, for the disruptor) as a finite map,
      a committed map with a working copy, a map, a list of independent
      registrations, a stack of blocks, a chain of blocks and a sequential
      pipeline.
    - Unconfirmed transactions: the cache refines a bounded queue without
      repetitions; with caches that can be restored, after every update the
      unconfirmed state is what executing the cached transactions on the
      confirmed state gives, and each transaction gets the verdict of a reference
      function, for new transactions and when the cache is rebuilt after blocks;
      subscribers hear of net changes.
    - Multisig accounts: modifications keep the graph of accounts symmetric,
      without loops and within its limits, and settings that the cosignatories
      can meet; the checkers of cosignatures end and decide approval as the graph
      defines it; who is added as a cosigner has signed; a rollback restores the
      cache.
    - Accounts: an accepted transfer moves its amount and changes no supply, and
      its rollback moves it back; a block adds its fees and the inflation to the
      supply, whatever the share of the beneficiary; rolling back the
      registrations of a block leaves the accounts and keys that were there.
    - Execution: undoing a sequence of notifications, and rolling back a block,
      restore the state before them; processed blocks replay to the same state
      without validation; a detached delta of the caches can be locked until the
      next commit and never after it.
    - Crashes: a block storage that is stopped at any point of any operation, any
      number of times, opens as the chain before or after it, with the one
      exception of a drop to a chunk end that is not stored, whose journal blocks
      the storage; the two-phase commit of the block storage cache, for storages
      and staging storages that can take the blocks.
    - State hashes: the root hash of a tree, and the state hash of a cache, are
      determined by the contents, whatever the history of modifications; lookups
      come with linked proofs; saved trees load back; the merkle builder computes
      the padded tree over the hashes of the transactions.
    - Invariants and safety: the namespace cache stays consistent under all
      operations if registrations expire in order, which the validators ensure
      as long as the configured grace period does not shrink; the disruptor's
      lock-free buffer has no conflicting accesses; the synchronizer runs one
      round at a time, its handlers never throw and its queue stays bounded; the
      chain check accepts linked parts without repeated transactions only.
    - Liveness and termination: the disruptor completes every accepted element,
      the synchronizer starts a round again unless a read of the local storage
      failed in one, and then never again, pulling blocks ends after as many
      requests as the fork is deep, iteration, unwinding and purging end.
    - Effects and errors: credit, debit, snapshots and effective balances;
      failed cache operations change nothing; chain comparison reports a common
      block; difficulties stay in their band and their check agrees with a
      reference definition.
    - Round trips: credit/debit, tree nodes, namespace histories, blocks and
      statements and multisig entries through bytes, registration and rollback of namespaces and
      aliases, rollback of blocks.
    - Flaws, stated as theorems or examples: clean-up can raise the effective
      balance, assigning balances throws on a common mosaic, the grace period of
      a namespace is lost in storage, a synchronization round may restart at
      height 1, a difficulty below the first block is accepted, the staging
      storage cannot stage a reorganisation nor be recovered from, the cut of a
      chain part at a change of configuration may empty it, the restoration of a
      namespace cache breaks its lookup, an early expiry of a renewal loses the
      children of a namespace, a failing read of the local storage stops the
      synchronizer for good, the rollback of a removal of the last cosignatory
      leaves an account that approves anything.

    ** Bounds and fuel

    Recursion that is not structural carries fuel, and a theorem says how much
    is enough: one unit per nibble of a key for the Patricia tree (part of its
    refinement), [max 1 forkDepth] requests for pulling blocks, the number of
    blocks in the cache and one for a purge, one step per entry for iteration,
    the difference of heights and one for unwinding a chain, the number of
    elements for the loops of the merkle builder and for cutting a chain part,
    the number of entries and one for the searches of the multisig graph.
    The theorems on the disruptor are about executions of fewer than 2^62 steps,
    so that its 64-bit counters do not wrap.

    ** Parameters

    Hash functions, the answers of local and remote nodes, the consumers of the
    disruptor, the data source of a tree, Boost's conversion of wide integers,
    the transaction plugins with their publishers, validators and observers, the
    block hit predicate, the clock and the parser of configurations are
    arguments of the definitions, with the laws that are used as hypotheses or
    classes (a collision-free hash, [ProperObserver], [Reversible],
    [PluginLaws], [RollbackLaws], [SubCacheLaws], [BackupLaws], [QuietPlugins],
    [UtModifierLaws], for instance).  Each claim names the classes it needs.  The
    account observers meet [PluginLaws] and [RollbackLaws]; caches over one delta
    set meet [BackupLaws], the namespace cache does not.
    Parameters too are [std::sort] and the threshold of the spam throttle.  The configuration holder is a
    function of the height that does not change during a call.  Subscribers are
    recorded as lists of events.  The file system model is about the
    interruption of the process and not about loss of power: calls reach the
    files in order, and each is atomic but for writes of more than eight bytes.

    ** Not modelled

    Network I/O, threads and locks other than those of the disruptor, the
    synchronizer and the caches, serialization to RocksDB and MongoDB,
    cryptography, configuration parsing, the cache of partial transactions, the
    transaction plugins other than namespaces and multisig, the extensions (fast
    finality, harvesting, storage and others), tools and SDK; floating-point targets of block hits.  Within modelled
    components: iteration views of delta sets and the choice of memory or
    database containers, the disruptor's shutdown and logging, statistics of
    rollbacks, the files that record the steps of a commit, the consumers that
    audit inputs, validate blocks and forward new blocks, the multisig
    notifications that other plugins publish, serialization of account states,
    high value addresses and the core validators other than the balance check.
    The resolvers of mosaic ids and addresses are taken as applied, and keys are
    assumed to have distinct addresses where an account is removed.  The manifest lists
    each part.

    ** Plan

    Next are the serializer and importances of account states, the lock and mosaic
    plugins, partial transactions, and the fast-finality state machine. *)From stdpp Require Import base tactics numbers option list sorting gmap.

Declare Scope exec_scope.
Delimit Scope exec_scope with exec.

Create HintDb chain.

#[global] Arguments Z.eqb : simpl never.
#[global] Arguments Z.ltb : simpl never.
#[global] Arguments Z.leb : simpl never.

(** * Fixed-width unsigned integers *)

(** A w-bit unsigned value is a [Z]; [wrap w] writes out the wrap-around. *)
Definition wrap (w x : Z) : Z := (x mod 2 ^ w)%Z.

Abbreviation u8 := (wrap 8).
Abbreviation u16 := (wrap 16).
Abbreviation u32 := (wrap 32).
Abbreviation u64 := (wrap 64).

(** [BaseValue::operator+] and [operator-] on a 64-bit raw value. *)
Definition add64 (x y : Z) : Z := u64 (x + y).
Definition sub64 (x y : Z) : Z := u64 (x - y).

(** The range of a w-bit unsigned value. *)
Definition in_range (w x : Z) : Prop := (0 ≤ x < 2 ^ w)%Z.

#[global] Instance in_range_dec w x : Decision (in_range w x).
Proof. unfold in_range. apply _. Defined.

Definition max64 : Z := (2 ^ 64 - 1)%Z.

(** * Exceptions and stateful computations *)

(** The exception classes of catapult/exceptions.h.  [undefined_behaviour] is
    no exception: it marks the calls C++ gives no meaning to (a dereferenced
    null pointer, [back()] of an empty list), so that theorems can rule them
    out. *)
Inductive exn : Type :=
| runtime_error
| invalid_argument
| out_of_range
| file_io_error
| undefined_behaviour.

#[global] Instance exn_eq_dec : EqDecision exn.
Proof. solve_decision. Defined.

(** The outcome of a call that may throw. *)
Inductive result (A : Type) : Type :=
| Ok (a : A)
| Throw (e : exn).
Arguments Ok {A} a.
Arguments Throw {A} e.

#[global] Instance result_ret : MRet result := λ A a, Ok a.
#[global] Instance result_bind : MBind result :=
  λ A B f r, match r with Ok a => f a | Throw e => Throw e end.

(** A member function that mutates an object of type [S]: an exception leaves
    the mutations that preceded it in place, as a C++ exception does. *)
Definition Exec (S A : Type) : Type := S → S * result A.

#[global] Instance exec_ret S : MRet (Exec S) := λ A a s, (s, Ok a).
#[global] Instance exec_bind S : MBind (Exec S) :=
  λ A B f m s, match m s with (s', Ok a) => f a s' | (s', Throw e) => (s', Throw e) end.

Definition throw {S A} (e : exn) : Exec S A := λ s, (s, Throw e).
Definition gets {S A} (f : S → A) : Exec S A := λ s, (s, Ok (f s)).
Definition modify {S} (f : S → S) : Exec S unit := λ s, (f s, Ok tt).

(** Runs a computation on a member object and stores the object back. *)
Definition lift_member {S T} (get : S → T) (set : T → S → S) (f : T → result T) : Exec S unit :=
  λ s, match f (get s) with Ok t => (set t s, Ok tt) | Throw e => (s, Throw e) end.

Definition when {S} (b : bool) (m : Exec S unit) : Exec S unit :=
  if b then m else mret tt.

Fixpoint for_each {S A} (f : A → Exec S unit) (l : list A) : Exec S unit :=
  match l with
  | [] => mret tt
  | a :: l' => f a ≫= λ _, for_each f l'
  end.

(** Running the first part of a computation. *)
Lemma run_bind {S A B} (m : Exec S A) (f : A → Exec S B) st st' a : m st = (st', Ok a) → (m ≫= f) st = f a st'.
Proof. intros Hm. unfold mbind, exec_bind. by rewrite Hm. Qed.

Lemma run_throw {S A B} (m : Exec S A) (f : A → Exec S B) st st' e : m st = (st', Throw e) → (m ≫= f) st = (st', Throw e).
Proof. intros Hm. unfold mbind, exec_bind. by rewrite Hm. Qed.

Lemma for_each_app {S A} (f : A → Exec S unit) l1 l2 s :
  for_each f (l1 ++ l2) s = (for_each f l1 ≫= λ _, for_each f l2) s.
Proof.
  revert s. induction l1 as [|a l1 IH]; intros s; [done|]. simpl. unfold mbind, exec_bind.
  destruct (f a s) as [s' [[]|e]]; [|done]. apply IH.
Qed.

Lemma for_each_total {S X} (f : X → Exec S unit) l :
  (∀ x, x ∈ l → ∀ st, ∃ st', f x st = (st', Ok tt)) → ∀ st, ∃ st', for_each f l st = (st', Ok tt).
Proof.
  intros Hf. induction l as [|x l IH]; intros st; [by exists st|]. destruct (Hf x ltac:(by left) st) as [st1 H1].
  destruct (IH (λ y Hy, Hf y (list_elem_of_further _ _ _ Hy)) st1) as [st2 H2]. exists st2. cbn [for_each]. by rewrite (run_bind _ _ _ _ _ H1).
Qed.

Lemma for_each_elem {S X} (f : X → Exec S unit) l st st' :
  for_each f l st = (st', Ok tt) → ∀ x, x ∈ l → ∃ st1 st2, f x st1 = (st2, Ok tt).
Proof.
  revert st. induction l as [|x l IH]; intros st Hrun y Hy; [by apply elem_of_nil in Hy|].
  cbn [for_each] in Hrun. unfold mbind, exec_bind in Hrun. destruct (f x st) as [st1 [[]|]] eqn:Hx; [|done].
  apply elem_of_cons in Hy as [->|Hy]; [by exists st, st1|]. by eapply IH.
Qed.

Definition is_ok {A} (r : result A) : bool :=
  match r with Ok _ => true | Throw _ => false end.

(** * std::map and std::set with an integer key *)

(** A [std::map<K, V>] (or a [std::set] with a key projection) is the list of
    its entries in key order. *)
Section ordered_map.
Context {V : Type}.
Implicit Types (m : list (Z * V)) (k : Z) (v : V).

Fixpoint map_find (k : Z) (m : list (Z * V)) : option V :=
  match m with
  | [] => None
  | (k', v) :: m' => if decide (k = k') then Some v else map_find k m'
  end.

(** [std::map::insert]: an equivalent key keeps its old value. *)
Fixpoint map_insert (k : Z) (v : V) (m : list (Z * V)) : list (Z * V) :=
  match m with
  | [] => [(k, v)]
  | (k', v') :: m' =>
      if decide (k < k')%Z then (k, v) :: m
      else if decide (k = k') then m
      else (k', v') :: map_insert k v m'
  end.

Fixpoint map_erase (k : Z) (m : list (Z * V)) : list (Z * V) :=
  match m with
  | [] => []
  | (k', v') :: m' => if decide (k = k') then m' else (k', v') :: map_erase k m'
  end.

(** The position of the entry with key [k], what [std::map::find] points to. *)
Fixpoint map_position (k : Z) (m : list (Z * V)) : option nat :=
  match m with
  | [] => None
  | (k', _) :: m' => if decide (k = k') then Some 0%nat else S <$> map_position k m'
  end.

End ordered_map.

(** Entries in strictly increasing key order. *)
Definition key_sorted {V} (m : list (Z * V)) : Prop := StronglySorted Z.lt m.*1.

(** * Automation *)

(** Opens a [result] or [Exec] computation one step at a time. *)
Ltac exec_unfold :=
  unfold mbind, mret, exec_bind, exec_ret, result_bind, result_ret, gets, modify, throw in *;
  simpl in *.

(** Splits every conditional and match of the goal and of the hypotheses. *)
Ltac case_all :=
  repeat (case_match || case_decide); simplify_eq/=; try done.

(** Reduces boolean comparisons on [Z] to propositions. *)
Ltac zbool :=
  repeat match goal with
  | H : (_ <? _)%Z = true |- _ => apply Z.ltb_lt in H
  | H : (_ <? _)%Z = false |- _ => apply Z.ltb_ge in H
  | H : (_ <=? _)%Z = true |- _ => apply Z.leb_le in H
  | H : (_ <=? _)%Z = false |- _ => apply Z.leb_gt in H
  | H : (_ =? _)%Z = true |- _ => apply Z.eqb_eq in H
  | H : (_ =? _)%Z = false |- _ => apply Z.eqb_neq in H
  end.

(** * Lemmas on widths *)

Lemma wrap_small w x : in_range w x → wrap w x = x.
Proof. intros. by apply Z.mod_small. Qed.

Lemma wrap_range w x : (0 ≤ w)%Z → in_range w (wrap w x).
Proof. intros. apply Z.mod_pos_bound. by apply Z.pow_pos_nonneg. Qed.

Lemma add64_small x y : in_range 64 (x + y) → add64 x y = (x + y)%Z.
Proof. apply wrap_small. Qed.

Lemma sub64_small x y : in_range 64 x → in_range 64 y → (y ≤ x)%Z → sub64 x y = (x - y)%Z.
Proof. unfold in_range. intros. apply wrap_small. unfold in_range. lia. Qed.

Lemma add64_range x y : in_range 64 (add64 x y).
Proof. by apply wrap_range. Qed.

Lemma sub64_range x y : in_range 64 (sub64 x y).
Proof. by apply wrap_range. Qed.

Lemma lor_range w a b : in_range w a → in_range w b → in_range w (Z.lor a b).
Proof.
  unfold in_range. intros [Ha Ha'] [Hb Hb']. assert (0 ≤ Z.lor a b)%Z by (by apply Z.lor_nonneg).
  split; [done|]. destruct (decide (Z.lor a b = 0)%Z) as [->|]; [lia|].
  apply Z.log2_lt_pow2; [lia|]. rewrite Z.log2_lor by done.
  assert (∀ x, 0 ≤ x < 2 ^ w → x ≠ 0 → Z.log2 x < w)%Z as Hlog by (intros; apply Z.log2_lt_pow2; lia).
  assert (0 < w)%Z.
  { destruct (decide (0 < w)%Z) as [|Hw]; [done|]. assert (2 ^ w ≤ 1)%Z.
    { destruct (decide (w = 0)%Z) as [->|]; [done|]. rewrite Z.pow_neg_r; lia. }
    assert (a = 0)%Z as -> by lia. assert (b = 0)%Z as -> by lia. done. }
  destruct (decide (a = 0)%Z) as [->|], (decide (b = 0)%Z) as [->|]; try done;
    apply Z.max_lub_lt; auto; by apply Hlog.
Qed.

#[export] Hint Resolve wrap_range add64_range sub64_range : chain.

(** Two's-complement wrap-around makes addition and subtraction inverse. *)
Lemma sub64_add64 x y : in_range 64 x → sub64 (add64 x y) y = x.
Proof.
  intros Hx. unfold sub64, add64, wrap.
  rewrite Zminus_mod_idemp_l. replace (x + y - y)%Z with x by lia. by apply wrap_small.
Qed.

(** * Lemmas on ordered maps *)

Section ordered_map_lemmas.
Context {V : Type}.
Implicit Types (m : list (Z * V)) (k : Z) (v : V).

Lemma map_find_elem k m : is_Some (map_find k m) ↔ k ∈ m.*1.
Proof.
  induction m as [|[k' v'] m IH]; simpl.
  - split; [by intros [? ?]|]. by intros ?%not_elem_of_nil.
  - rewrite elem_of_cons. case_decide; naive_solver.
Qed.

Lemma map_find_Some_elem k m v : map_find k m = Some v → (k, v) ∈ m.
Proof.
  induction m as [|[k' v'] m IH]; simpl; [done|]. rewrite elem_of_cons. case_decide; [naive_solver|auto].
Qed.

Lemma map_find_None k m : map_find k m = None ↔ k ∉ m.*1.
Proof. rewrite <-map_find_elem, eq_None_not_Some. done. Qed.

(** Looking up in the ordered list is looking up in the finite map. *)
Lemma map_find_lookup k m : map_find k m = (list_to_map m : gmap Z V) !! k.
Proof.
  induction m as [|[k' v'] m IH]; simpl; [by rewrite lookup_empty|].
  rewrite lookup_insert. repeat case_decide; congruence.
Qed.

Lemma map_insert_head k v m : Forall (Z.lt k) m.*1 → map_insert k v m = (k, v) :: m.
Proof. destruct m as [|[k' v'] m]; [done|]. simpl. intros [? _]%Forall_cons. by rewrite decide_True. Qed.

Lemma map_insert_keys k v m x : x ∈ (map_insert k v m).*1 ↔ x = k ∨ x ∈ m.*1.
Proof.
  induction m as [|[k' v'] m IH]; simpl.
  - set_solver.
  - repeat case_decide; simpl; rewrite ?elem_of_cons; set_solver.
Qed.

Lemma map_insert_sorted k v m : key_sorted m → key_sorted (map_insert k v m).
Proof.
  unfold key_sorted. induction m as [|[k' v'] m IH]; simpl; intros Hs.
  - repeat constructor.
  - apply StronglySorted_inv in Hs as [Hs Hall].
    repeat case_decide; simpl.
    + constructor; [by constructor|]. constructor; [done|].
      eapply Forall_impl; [exact Hall|]. intros; simpl in *; lia.
    + by constructor.
    + constructor; [by apply IH|]. apply Forall_forall. intros x Hx.
      apply map_insert_keys in Hx as [->|Hx]; [lia|]. by eapply Forall_forall in Hall.
Qed.

Lemma map_insert_lookup k v m :
  map_find k m = None →
  (list_to_map (map_insert k v m) : gmap Z V) = <[k := v]> (list_to_map m).
Proof.
  induction m as [|[k' v'] m IH]; simpl; [done|].
  destruct (decide (k < k')%Z); [done|]. intros Hn.
  destruct (decide (k = k')); [done|]. simpl.
  rewrite IH by done. by rewrite insert_insert_ne by done.
Qed.

Lemma filter_neq_lt k l : Forall (Z.lt k) l → filter (λ x, x ≠ k) l = l.
Proof.
  induction 1 as [|x l Hx Hl IH]; [done|].
  rewrite filter_cons, decide_True by lia. by f_equal.
Qed.

Lemma map_erase_keys k m : key_sorted m → (map_erase k m).*1 = filter (λ x, x ≠ k) m.*1.
Proof.
  unfold key_sorted. induction m as [|[k' v'] m IH]; simpl; intros Hs; [done|].
  apply StronglySorted_inv in Hs as [Hs Hall]. rewrite filter_cons.
  case_decide; subst; simpl.
  - rewrite decide_False by naive_solver. by rewrite filter_neq_lt.
  - rewrite decide_True by done. f_equal. auto.
Qed.

(** An entry behind all others. *)
Lemma map_insert_last k v m : Forall (λ x, (x < k)%Z) m.*1 → map_insert k v m = m ++ [(k, v)].
Proof.
  induction m as [|[k' v'] m IH]; simpl; [done|]. intros [Hk Hm]%Forall_cons.
  rewrite !decide_False by lia. by rewrite IH.
Qed.

Lemma map_find_split k v m1 m2 : k ∉ m1.*1 → map_find k (m1 ++ (k, v) :: m2) = Some v.
Proof.
  induction m1 as [|[k' v'] m1 IH]; simpl; intros Hk; [by rewrite decide_True|].
  apply not_elem_of_cons in Hk as [Hk Hm]. rewrite decide_False by done. by apply IH.
Qed.

Lemma map_erase_split k v m1 m2 : k ∉ m1.*1 → map_erase k (m1 ++ (k, v) :: m2) = m1 ++ m2.
Proof.
  induction m1 as [|[k' v'] m1 IH]; simpl; intros Hk; [by rewrite decide_True|].
  apply not_elem_of_cons in Hk as [Hk Hm]. rewrite decide_False by done. by rewrite IH.
Qed.

End ordered_map_lemmas.

(** * Filters *)

Lemma filter_none {A} (P : A → Prop) `{!∀ x, Decision (P x)} (l : list A) :
  (∀ x, x ∈ l → ¬ P x) → filter P l = [].
Proof.
  induction l as [|x l IH]; intros Hl; [done|]. rewrite filter_cons, decide_False by (apply Hl; set_solver).
  apply IH. intros; apply Hl; set_solver.
Qed.

Lemma filter_all {A} (P : A → Prop) `{!∀ x, Decision (P x)} (l : list A) :
  (∀ x, x ∈ l → P x) → filter P l = l.
Proof.
  induction l as [|x l IH]; intros Hl; [done|]. rewrite filter_cons, decide_True by (apply Hl; set_solver).
  f_equal. apply IH. intros; apply Hl; set_solver.
Qed.

(** * Traces *)

(** Runs a sequence of operations and collects the responses. *)
Fixpoint trace {S O R} (step : S → O → S * R) (s : S) (ops : list O) : S * list R :=
  match ops with
  | [] => (s, [])
  | op :: ops =>
      let '(s', r) := step s op in
      let '(s'', rs) := trace step s' ops in (s'', r :: rs)
  end.

(** A step-wise simulation gives equal responses on every sequence. *)
Lemma trace_simulation {S A O R} (sim : S → A → Prop)
    (step : S → O → S * R) (spec : A → O → A * R) :
  (∀ s a o, sim s a → sim (fst (step s o)) (fst (spec a o)) ∧ snd (step s o) = snd (spec a o)) →
  ∀ ops s a, sim s a →
  sim (fst (trace step s ops)) (fst (trace spec a ops))
  ∧ snd (trace step s ops) = snd (trace spec a ops).
Proof.
  intros Hstep ops. induction ops as [|o ops IH]; intros s a Hs; [done|]. simpl.
  destruct (Hstep s a o Hs) as [Hs' Hr].
  destruct (step s o) as [s' r], (spec a o) as [a' r']. simpl in *.
  destruct (IH s' a' Hs') as [? ?].
  destruct (trace step s' ops), (trace spec a' ops). simpl in *. by subst.
Qed.

(** Every operation of the sequence is legal in the state it runs in. *)
Fixpoint trace_ok {A O R} (ok : A → O → Prop) (spec : A → O → A * R) (a : A) (ops : list O) : Prop :=
  match ops with
  | [] => True
  | o :: ops => ok a o ∧ trace_ok ok spec (fst (spec a o)) ops
  end.

Lemma trace_simulation_ok {S A O R} (sim : S → A → Prop) (ok : A → O → Prop)
    (step : S → O → S * R) (spec : A → O → A * R) :
  (∀ s a o, sim s a → ok a o → sim (fst (step s o)) (fst (spec a o)) ∧ snd (step s o) = snd (spec a o)) →
  ∀ ops s a, sim s a → trace_ok ok spec a ops →
  sim (fst (trace step s ops)) (fst (trace spec a ops))
  ∧ snd (trace step s ops) = snd (trace spec a ops).
Proof.
  intros Hstep ops. induction ops as [|o ops IH]; intros s a Hs Hok; [done|]. destruct Hok as [Ho Hok]. simpl.
  destruct (Hstep s a o Hs Ho) as [Hs' Hr].
  destruct (step s o) as [s' r], (spec a o) as [a' r']. simpl in *.
  destruct (IH s' a' Hs' Hok) as [? ?].
  destruct (trace step s' ops), (trace spec a' ops). simpl in *. by subst.
Qed.

(** * Components that finish their work in order *)

(** What a client of a dispatcher relies on: in its good states, each step of
    the dispatcher leaves the client's pending ids as they are, appends one, or
    finishes the first. *)
Class InOrder {D : Type} (step : D → D → Prop) (good : D → Prop) (pending : D → list Z) : Prop :=
  in_order : ∀ d d', good d → good d' → step d d' →
    pending d' = pending d ∨ (∃ id, pending d' = pending d ++ [id]) ∨ ∃ id, pending d = id :: pending d'.

(** * Sums over a finite map *)

Section map_sums.
Context `{Countable K} {V : Type} (f : V → Z).
Implicit Types m : gmap K V.

Definition msum m : Z := map_fold (λ _ v acc, f v + acc)%Z 0%Z m.

Lemma msum_empty : msum ∅ = 0%Z.
Proof. apply map_fold_empty. Qed.

Lemma msum_insert_new k v m : m !! k = None → msum (<[k := v]> m) = (f v + msum m)%Z.
Proof. intros Hk. unfold msum. rewrite map_fold_insert_L; [done| |done]. intros. lia. Qed.

Lemma msum_delete k v m : m !! k = Some v → msum m = (f v + msum (delete k m))%Z.
Proof.
  intros Hk. rewrite <-(msum_insert_new k v (delete k m)) by apply lookup_delete_eq.
  by rewrite insert_delete_id.
Qed.

Lemma msum_insert k v v' m : m !! k = Some v → msum (<[k := v']> m) = (msum m + f v' - f v)%Z.
Proof.
  intros Hk. rewrite <-insert_delete_eq, msum_insert_new by apply lookup_delete_eq.
  rewrite (msum_delete k v m) by done. lia.
Qed.

End map_sums.
