(* ===== verification/MosaicStore.v ===== *)
(** What the account balances rely on from their mosaic container: a class of
    operations and a class of laws that relate them to a finite map.  The
    container of catapult::state implements it, the balances are proved
    against it. *)
From stdpp Require Import base tactics numbers option list gmap.
From S2P Require Import Prelude.

Local Open Scope Z_scope.

(** The operations [AccountBalances] calls on [m_balances]. *)
Class MosaicStore (T : Type) := {
  store_new : T;
  store_get : T → Z → option Z;
  store_assign : Z → Z → T → T;
  store_insert : Z * Z → T → result T;
  store_erase : Z → T → T;
  store_optimize : Z → T → result T;
  store_size : T → Z;
  store_list : T → list (Z * Z)
}.

(** A mosaic may be inserted when its id is valid and not yet present. *)
Definition insertable (m : gmap Z Z) (id : Z) : Prop := id ≠ 0 ∧ m !! id = None.

#[global] Instance insertable_dec m id : Decision (insertable m id).
Proof. unfold insertable. apply _. Defined.

(** The finite-map reading of the operations. *)
Class MosaicStoreLaws (T : Type) `{MosaicStore T} := {
  store_wf : T → Prop;
  store_map : T → gmap Z Z;
  store_optimized : T → Z;
  store_new_spec : store_wf store_new ∧ store_map store_new = ∅ ∧ store_optimized store_new = 0;
  store_get_spec s id : store_wf s → store_get s id = store_map s !! id;
  store_valid s id : store_wf s → is_Some (store_map s !! id) → id ≠ 0;
  store_assign_spec s id v a : store_wf s → store_map s !! id = Some v →
    store_wf (store_assign id a s)
    ∧ store_map (store_assign id a s) = <[id := a]> (store_map s)
    ∧ store_optimized (store_assign id a s) = store_optimized s;
  store_insert_spec s id a : store_wf s →
    if decide (insertable (store_map s) id)
    then ∃ s', store_insert (id, a) s = Ok s' ∧ store_wf s'
           ∧ store_map s' = <[id := a]> (store_map s) ∧ store_optimized s' = store_optimized s
    else store_insert (id, a) s = Throw invalid_argument;
  store_erase_spec s id : store_wf s →
    store_wf (store_erase id s) ∧ store_map (store_erase id s) = delete id (store_map s)
    ∧ store_optimized (store_erase id s) = store_optimized s;
  store_optimize_spec s id : store_wf s →
    if decide (store_optimized s = 0 ∨ store_optimized s = id)
    then ∃ s', store_optimize id s = Ok s' ∧ store_wf s'
           ∧ store_map s' = store_map s ∧ store_optimized s' = id
    else store_optimize id s = Throw invalid_argument;
  store_size_spec s : store_wf s → store_size s = Z.of_nat (base.size (store_map s));
  store_list_spec s : store_wf s →
    NoDup (store_list s).*1 ∧ list_to_map (store_list s) = store_map s
}.
