(* ===== verification/CompactMosaicMap.v ===== *)
(** Model of catapult::state::CompactMosaicMap
    (src/catapult/state/CompactMosaicMap.{h,cpp}): a mosaic map with an inline
    first value, a five-slot array and an overflow [std::map], together with
    its iterators.  The theorems show that every operation keeps the storage
    well formed and implements a finite map from mosaic ids to amounts, and
    that iteration visits the entries once, optimized mosaic first. *)
From stdpp Require Import base tactics numbers option list sorting gmap.
From S2P Require Import Prelude MosaicStore.

Local Open Scope Z_scope.

Module MosaicMap.

(** * Data *)

(** [std::pair<MosaicId, Amount>]. *)
Abbreviation Mosaic := (Z * Z)%type.

Definition Array_Size : Z := 5.

(** [ArrayStorage] always has [Array_Size] slots; only the first [ArraySize]
    of them are live.  A null [pMapStorage] is [None]. *)
Record SecondLevelStorage := {
  ArrayStorage : list Mosaic;
  ArraySize : Z;
  pMapStorage : option (list Mosaic)
}.

Record FirstLevelStorage := {
  Value : Mosaic;
  pNextStorage : option SecondLevelStorage
}.

Record CompactMosaicMap := {
  m_storage : FirstLevelStorage;
  m_optimizedMosaicId : Z
}.

Definition new_CompactMosaicMap : CompactMosaicMap :=
  {| m_storage := {| Value := (0, 0); pNextStorage := None |}; m_optimizedMosaicId := 0 |}.

(** What [std::make_unique<SecondLevelStorage>()] value-initializes. *)
Definition new_SecondLevelStorage : SecondLevelStorage :=
  {| ArrayStorage := replicate (Z.to_nat Array_Size) (0, 0); ArraySize := 0; pMapStorage := None |}.

Definition set_storage (st : FirstLevelStorage) (s : CompactMosaicMap) : CompactMosaicMap :=
  {| m_storage := st; m_optimizedMosaicId := m_optimizedMosaicId s |}.
Definition set_value (v : Mosaic) (st : FirstLevelStorage) : FirstLevelStorage :=
  {| Value := v; pNextStorage := pNextStorage st |}.
Definition set_next (n : option SecondLevelStorage) (st : FirstLevelStorage) : FirstLevelStorage :=
  {| Value := Value st; pNextStorage := n |}.
Definition set_array (a : list Mosaic) (n : SecondLevelStorage) : SecondLevelStorage :=
  {| ArrayStorage := a; ArraySize := ArraySize n; pMapStorage := pMapStorage n |}.
Definition set_array_size (k : Z) (n : SecondLevelStorage) : SecondLevelStorage :=
  {| ArrayStorage := ArrayStorage n; ArraySize := k; pMapStorage := pMapStorage n |}.
Definition set_map (m : option (list Mosaic)) (n : SecondLevelStorage) : SecondLevelStorage :=
  {| ArrayStorage := ArrayStorage n; ArraySize := ArraySize n; pMapStorage := m |}.

(** * FirstLevelStorage *)

Definition hasValue (st : FirstLevelStorage) : bool := negb (Z.eqb 0 (fst (Value st))).

Definition hasArray (st : FirstLevelStorage) : bool :=
  match pNextStorage st with Some _ => true | None => false end.

Definition hasMap (st : FirstLevelStorage) : bool :=
  match pNextStorage st with
  | Some n => match pMapStorage n with Some _ => true | None => false end
  | None => false
  end.

(** The accessors dereference [pNextStorage]; callers test [hasArray] and
    [hasMap] first, the defaults are never reached from a well-formed map. *)
Definition next (st : FirstLevelStorage) : SecondLevelStorage :=
  default new_SecondLevelStorage (pNextStorage st).

Definition arraySize (st : FirstLevelStorage) : Z := ArraySize (next st).

Definition array (st : FirstLevelStorage) : list Mosaic := ArrayStorage (next st).

Definition map (st : FirstLevelStorage) : list Mosaic := default [] (pMapStorage (next st)).

Definition array_at (a : list Mosaic) (i : nat) : Mosaic := default (0, 0) (a !! i).

(** * Iterators *)

Inductive Stage := Stage_Start | Stage_Value | Stage_Array | Stage_Map | Stage_End.

#[global] Instance Stage_eq_dec : EqDecision Stage.
Proof. solve_decision. Defined.

(** [m_pCurrent] is determined by the stage and the two positions; a map
    iterator is the position of its entry. *)
Record basic_iterator := {
  m_stage : Stage;
  m_arrayIndex : nat;
  m_mapIterator : nat
}.

Inductive MosaicSource := Source_Value | Source_Array | Source_Map.

Record MosaicLocation := {
  Source : MosaicSource;
  ArrayIndex : nat;
  MapIterator : nat
}.

Definition setValueMosaic (it : basic_iterator) : basic_iterator :=
  {| m_stage := Stage_Value; m_arrayIndex := m_arrayIndex it; m_mapIterator := m_mapIterator it |}.
Definition setArrayMosaic (it : basic_iterator) : basic_iterator :=
  {| m_stage := Stage_Array; m_arrayIndex := m_arrayIndex it; m_mapIterator := m_mapIterator it |}.
Definition setMapMosaic (it : basic_iterator) : basic_iterator :=
  {| m_stage := Stage_Map; m_arrayIndex := m_arrayIndex it; m_mapIterator := m_mapIterator it |}.
Definition setEnd (it : basic_iterator) : basic_iterator :=
  {| m_stage := Stage_End; m_arrayIndex := m_arrayIndex it; m_mapIterator := m_mapIterator it |}.

Definition isEnd (it : basic_iterator) : bool :=
  match m_stage it with Stage_End => true | _ => false end.

Definition advance (st : FirstLevelStorage) (it : basic_iterator) : basic_iterator :=
  match m_stage it with
  | Stage_Start => if hasValue st then setValueMosaic it else setEnd it
  | Stage_Value =>
      let it := {| m_stage := m_stage it; m_arrayIndex := 0; m_mapIterator := m_mapIterator it |} in
      if hasArray st then setArrayMosaic it else setEnd it
  | Stage_Array =>
      let it := {| m_stage := m_stage it; m_arrayIndex := S (m_arrayIndex it);
                   m_mapIterator := m_mapIterator it |} in
      if negb (Z.of_nat (m_arrayIndex it) =? arraySize st) then setArrayMosaic it
      else if negb (hasMap st) then setEnd it
      else setMapMosaic {| m_stage := m_stage it; m_arrayIndex := m_arrayIndex it; m_mapIterator := 0 |}
  | Stage_Map =>
      let it := {| m_stage := m_stage it; m_arrayIndex := m_arrayIndex it;
                   m_mapIterator := S (m_mapIterator it) |} in
      if negb (Nat.eqb (length (map st)) (m_mapIterator it)) then setMapMosaic it else setEnd it
  | Stage_End => it
  end.

Definition iterator_at_stage (st : FirstLevelStorage) (stage : Stage) : basic_iterator :=
  advance st {| m_stage := stage; m_arrayIndex := 0; m_mapIterator := 0 |}.

Definition iterator_at_location (loc : MosaicLocation) : basic_iterator :=
  let it := {| m_stage := Stage_Start; m_arrayIndex := ArrayIndex loc;
               m_mapIterator := MapIterator loc |} in
  match Source loc with
  | Source_Value => setValueMosaic it
  | Source_Array => setArrayMosaic it
  | Source_Map => setMapMosaic it
  end.

Definition increment (st : FirstLevelStorage) (it : basic_iterator) : result basic_iterator :=
  if isEnd it then Throw out_of_range else Ok (advance st it).

(** The mosaic [m_pCurrent] points to. *)
Definition pCurrent (st : FirstLevelStorage) (it : basic_iterator) : option Mosaic :=
  match m_stage it with
  | Stage_Value => Some (Value st)
  | Stage_Array => array st !! m_arrayIndex it
  | Stage_Map => map st !! m_mapIterator it
  | Stage_Start | Stage_End => None
  end.

Definition current (st : FirstLevelStorage) (it : basic_iterator) : result Mosaic :=
  if isEnd it then Throw out_of_range
  else match pCurrent st it with Some p => Ok p | None => Throw out_of_range end.

(** [operator==] compares [m_pCurrent]: the pointed-to slots. *)
Definition iterator_eqb (it1 it2 : basic_iterator) : bool :=
  match m_stage it1, m_stage it2 with
  | Stage_Value, Stage_Value => true
  | Stage_Array, Stage_Array => Nat.eqb (m_arrayIndex it1) (m_arrayIndex it2)
  | Stage_Map, Stage_Map => Nat.eqb (m_mapIterator it1) (m_mapIterator it2)
  | Stage_End, Stage_End => true
  | _, _ => false
  end.

Definition begin_ (s : CompactMosaicMap) : basic_iterator := iterator_at_stage (m_storage s) Stage_Start.
Definition end_ (s : CompactMosaicMap) : basic_iterator := iterator_at_stage (m_storage s) Stage_End.

(** A range-based [for] over the map: the mosaics visited before [end()]. *)
Fixpoint traverse (fuel : nat) (s : CompactMosaicMap) (it : basic_iterator) : option (list Mosaic) :=
  match fuel with
  | O => None
  | S fuel =>
      if iterator_eqb it (end_ s) then Some []
      else match current (m_storage s) it, increment (m_storage s) it with
           | Ok p, Ok it' => cons p <$> traverse fuel s it'
           | _, _ => None
           end
  end.

(** * Queries *)

Definition empty (s : CompactMosaicMap) : bool := negb (hasValue (m_storage s)).

Definition size (s : CompactMosaicMap) : Z :=
  if empty s then 0
  else if hasArray (m_storage s)
       then 1 + arraySize (m_storage s)
            + (if hasMap (m_storage s) then Z.of_nat (length (map (m_storage s))) else 0)
       else 1.

(** The search loop over the live array slots. *)
Fixpoint find_in_array (a : list Mosaic) (id : Z) (i n : nat) : option nat :=
  match n with
  | O => None
  | S n => if Z.eqb id (fst (array_at a i)) then Some i else find_in_array a id (S i) n
  end.

Definition find_location (s : CompactMosaicMap) (id : Z) : option MosaicLocation :=
  let st := m_storage s in
  if empty s then None
  else if Z.eqb id (fst (Value st))
  then Some {| Source := Source_Value; ArrayIndex := 0; MapIterator := 0 |}
  else
    match (if hasArray st then find_in_array (array st) id 0 (Z.to_nat (arraySize st)) else None) with
    | Some i => Some {| Source := Source_Array; ArrayIndex := i; MapIterator := 0 |}
    | None =>
        match (if hasMap st then map_position id (map st) else None) with
        | Some i => Some {| Source := Source_Map; ArrayIndex := 0; MapIterator := i |}
        | None => None
        end
    end.

Definition find (s : CompactMosaicMap) (id : Z) : basic_iterator :=
  match find_location s id with
  | Some loc => iterator_at_location loc
  | None => end_ s
  end.

(** * Modifications *)

Definition IsLessThan (optimizedMosaicId lhs rhs : Z) : bool :=
  if lhs =? rhs then false
  else if (optimizedMosaicId =? lhs) || (optimizedMosaicId =? rhs) then optimizedMosaicId =? lhs
  else lhs <? rhs.

Definition insertIntoMap (pair : Mosaic) (n : SecondLevelStorage) : SecondLevelStorage :=
  let m := default [] (pMapStorage n) in
  set_map (Some (map_insert (fst pair) (snd pair) m)) n.

(** [for (i = from; i > index + 1; --i) array[i - 1] = array[i - 2]]. *)
Fixpoint shift_right (count i : nat) (a : list Mosaic) : list Mosaic :=
  match count with
  | O => a
  | S count => shift_right count (i - 1) (<[(i - 1)%nat := array_at a (i - 2)]> a)
  end.

(** [for (i = index; i < size - 1; ++i) array[i] = array[i + 1]]. *)
Fixpoint shift_left (count i : nat) (a : list Mosaic) : list Mosaic :=
  match count with
  | O => a
  | S count => shift_left count (S i) (<[i := array_at a (S i)]> a)
  end.

Definition insertIntoArray (index : nat) (pair : Mosaic) (n : SecondLevelStorage) : SecondLevelStorage :=
  let n :=
    if Array_Size =? ArraySize n
    then insertIntoMap (array_at (ArrayStorage n) (Z.to_nat Array_Size - 1)) n
    else set_array_size (u8 (ArraySize n + 1)) n in
  let from := Z.to_nat (ArraySize n) in
  let a := shift_right (from - (index + 1)) from (ArrayStorage n) in
  set_array (<[index := pair]> a) n.

Definition eraseFromArray (index : nat) (n : SecondLevelStorage) : SecondLevelStorage :=
  let a := shift_left (Z.to_nat (u32 (ArraySize n - 1)) - index) index (ArrayStorage n) in
  set_array_size (u8 (ArraySize n - 1)) (set_array a n).

(** [while (arraySize < Array_Size && !map.empty())]: every round takes the
    first map entry, so the length of the map bounds the rounds. *)
Fixpoint compact_loop (m : list Mosaic) (n : SecondLevelStorage) : SecondLevelStorage :=
  match m with
  | [] => set_map (Some []) n
  | p :: m' =>
      if ArraySize n <? Array_Size
      then compact_loop m' (set_array_size (u8 (ArraySize n + 1))
             (set_array (<[Z.to_nat (ArraySize n) := p]> (ArrayStorage n)) n))
      else set_map (Some m) n
  end.

Definition compact (st : FirstLevelStorage) : FirstLevelStorage :=
  match pNextStorage st with
  | None => st
  | Some n =>
      let n :=
        match pMapStorage n with
        | None => n
        | Some m =>
            let n := compact_loop m n in
            if decide (pMapStorage n = Some []) then set_map None n else n
        end in
      if 0 =? ArraySize n then set_next None st else set_next (Some n) st
  end.

(** The first live slot whose mosaic id exceeds [id], or the live size. *)
Fixpoint insert_index (a : list Mosaic) (id : Z) (i n : nat) : nat :=
  match n with
  | O => i
  | S n => if id <? fst (array_at a i) then i else insert_index a id (S i) n
  end.

Definition insert (pair : Mosaic) (s : CompactMosaicMap) : result CompactMosaicMap :=
  if 0 =? fst pair then Throw invalid_argument
  else if negb (iterator_eqb (end_ s) (find s (fst pair))) then Throw invalid_argument
  else
    let st := m_storage s in
    if empty s then Ok (set_storage (set_value pair st) s)
    else
      let n := if negb (hasArray st) then new_SecondLevelStorage else next st in
      if IsLessThan (m_optimizedMosaicId s) (fst pair) (fst (Value st))
      then Ok (set_storage {| Value := pair;
                              pNextStorage := Some (insertIntoArray 0 (Value st) n) |} s)
      else
        let arrayIndex := insert_index (ArrayStorage n) (fst pair) 0 (Z.to_nat (ArraySize n)) in
        if Z.of_nat arrayIndex <? Array_Size
        then Ok (set_storage (set_next (Some (insertIntoArray arrayIndex pair n)) st) s)
        else Ok (set_storage (set_next (Some (insertIntoMap pair n)) st) s).

Definition erase (id : Z) (s : CompactMosaicMap) : CompactMosaicMap :=
  match find_location s id with
  | None => s
  | Some loc =>
      let st := m_storage s in
      let st' :=
        match Source loc with
        | Source_Value =>
            if hasArray st
            then {| Value := array_at (array st) 0;
                    pNextStorage := Some (eraseFromArray 0 (next st)) |}
            else set_value (0, 0) st
        | Source_Array => set_next (Some (eraseFromArray (ArrayIndex loc) (next st))) st
        | Source_Map => set_next (Some (set_map (Some (map_erase id (map st))) (next st))) st
        end in
      set_storage (compact st') s
  end.

Definition optimize (id : Z) (s : CompactMosaicMap) : result CompactMosaicMap :=
  if id =? m_optimizedMosaicId s then Ok s
  else if negb (0 =? m_optimizedMosaicId s) then Throw invalid_argument
  else
    let s := {| m_storage := m_storage s; m_optimizedMosaicId := id |} in
    let iter := find s id in
    if iterator_eqb (end_ s) iter then Ok s
    else mosaicCopy ← current (m_storage s) iter;
         insert mosaicCopy (erase (fst mosaicCopy) s).

(** [iter->second = amount] through a non-const iterator. *)
Definition assign_second (amount : Z) (it : basic_iterator) (s : CompactMosaicMap) : CompactMosaicMap :=
  let st := m_storage s in
  let upd (p : Mosaic) := (fst p, amount) in
  match m_stage it with
  | Stage_Value => set_storage (set_value (upd (Value st)) st) s
  | Stage_Array =>
      set_storage (set_next (Some (set_array (alter upd (m_arrayIndex it) (array st)) (next st))) st) s
  | Stage_Map =>
      set_storage (set_next (Some (set_map (Some (alter upd (m_mapIterator it) (map st))) (next st))) st) s
  | Stage_Start | Stage_End => s
  end.

(** * Abstraction and invariant *)

(** The live slots of the array. *)
Definition live (n : SecondLevelStorage) : list Mosaic :=
  take (Z.to_nat (ArraySize n)) (ArrayStorage n).

Definition tail_list (st : FirstLevelStorage) : list Mosaic :=
  match pNextStorage st with
  | None => []
  | Some n => live n ++ default [] (pMapStorage n)
  end.

(** The entries in storage order. *)
Definition entries (s : CompactMosaicMap) : list Mosaic :=
  if empty s then [] else Value (m_storage s) :: tail_list (m_storage s).

(** The finite map a [CompactMosaicMap] stands for. *)
Definition to_map (s : CompactMosaicMap) : gmap Z Z := list_to_map (entries s).

(** The array is in use, and the overflow map only once the array is full. *)
Record next_wf (n : SecondLevelStorage) : Prop := {
  next_wf_length : length (ArrayStorage n) = 5%nat;
  next_wf_size : 1 ≤ ArraySize n ≤ 5;
  next_wf_map : ∀ m, pMapStorage n = Some m → m ≠ [] ∧ ArraySize n = 5
}.

Definition lessThan (opt a b : Z) : Prop := IsLessThan opt a b = true.

Record wf (s : CompactMosaicMap) : Prop := {
  wf_empty : empty s = true → pNextStorage (m_storage s) = None;
  wf_next : ∀ n, pNextStorage (m_storage s) = Some n → next_wf n;
  wf_sorted : StronglySorted (lessThan (m_optimizedMosaicId s)) (entries s).*1;
  wf_nonzero : Forall (λ id, id ≠ 0) (entries s).*1
}.

(** * Order *)

Lemma IsLessThan_spec opt a b :
  lessThan opt a b ↔ a ≠ b ∧ (a = opt ∨ (b ≠ opt ∧ a < b)).
Proof.
  unfold lessThan, IsLessThan.
  destruct (Z.eqb_spec a b), (Z.eqb_spec opt a), (Z.eqb_spec opt b), (Z.ltb_spec a b);
    simpl; split; try done; intros; destruct_and?; destruct_or?; try lia; try done; split; try lia.
Qed.

Lemma lessThan_trans opt a b c : lessThan opt a b → lessThan opt b c → lessThan opt a c.
Proof. rewrite !IsLessThan_spec. lia. Qed.

Lemma lessThan_total opt a b : a ≠ b → lessThan opt a b ∨ lessThan opt b a.
Proof. rewrite !IsLessThan_spec. lia. Qed.

Lemma lessThan_irrefl opt a : ¬ lessThan opt a a.
Proof. rewrite IsLessThan_spec. lia. Qed.

(** Behind the head of a sorted list the order is the order of the ids. *)
Lemma sorted_tail_lt opt a l :
  StronglySorted (lessThan opt) (a :: l) → StronglySorted Z.lt l.
Proof.
  intros [Hs Ha]%StronglySorted_inv.
  assert (Hopt : Forall (λ x, x ≠ opt) l).
  { eapply Forall_impl; [exact Ha|]. intros x. rewrite IsLessThan_spec. lia. }
  clear Ha. induction Hs as [|x l Hs IH Hx]; [constructor|].
  apply Forall_cons in Hopt as [Hxo Hopt]. constructor; [auto|].
  rewrite Forall_forall in *. intros y Hy. specialize (Hx y Hy).
  apply IsLessThan_spec in Hx. lia.
Qed.

Lemma sorted_nodup opt l : StronglySorted (lessThan opt) l → NoDup l.
Proof.
  induction 1 as [|x l Hs IH Hx]; constructor; [|done].
  intros Hin. eapply Forall_forall in Hx; [|exact Hin]. by apply lessThan_irrefl in Hx.
Qed.

(** * The array loops *)

Lemma array_five (a : list Mosaic) :
  length a = 5%nat → ∃ a0 a1 a2 a3 a4, a = [a0; a1; a2; a3; a4].
Proof.
  destruct a as [|a0 [|a1 [|a2 [|a3 [|a4 [|a5 a]]]]]]; try done. intros _. eauto 10.
Qed.

(** Names the five slots of the array of [n] and its live size. *)
Ltac split_array n :=
  destruct n as [?a ?sz ?mp]; simpl in *;
  match goal with
  | Hl : length ?a = 5%nat, Hs : ?lo ≤ ?sz ≤ ?hi |- _ =>
      destruct (array_five a Hl) as (?x & ?x & ?x & ?x & ?x & ->); clear Hl;
      let H := fresh in
      assert (sz = 0 ∨ sz = 1 ∨ sz = 2 ∨ sz = 3 ∨ sz = 4 ∨ sz = 5) as H by lia;
      destruct H as [H|[H|[H|[H|[H|H]]]]]; subst; try lia; clear Hs
  end.

Lemma live_insertIntoArray n i p :
  length (ArrayStorage n) = 5%nat → 0 ≤ ArraySize n ≤ 5 →
  (i ≤ Z.to_nat (ArraySize n))%nat → (i < 5)%nat →
  StronglySorted Z.lt (live n ++ default [] (pMapStorage n)).*1 →
  let n' := insertIntoArray i p n in
  live n' ++ default [] (pMapStorage n') =
    take i (live n) ++ p :: drop i (live n) ++ default [] (pMapStorage n)
  ∧ length (ArrayStorage n') = 5%nat
  ∧ ArraySize n' = Z.min 5 (ArraySize n + 1)
  ∧ (pMapStorage n' = pMapStorage n ∧ ArraySize n < 5
     ∨ ArraySize n = 5 ∧ ∃ m, pMapStorage n' = Some m ∧ m ≠ []).
Proof.
  intros Hl Hs Hi Hi5 Hsort n'.
  destruct (decide (ArraySize n = 5)) as [Hfull|Hfull].
  - split_array n. unfold live in *. simpl in *.
    assert (Hlast : Forall (Z.lt (fst x3)) (default [] mp).*1).
    { do 4 apply StronglySorted_inv in Hsort as [Hsort _]. by apply StronglySorted_inv in Hsort as [_ ?]. }
    destruct x3 as [k v]. simpl in Hlast.
    subst n'; unfold insertIntoArray, insertIntoMap; destruct i as [|[|[|[|[|i]]]]]; [..|lia];
      simpl; rewrite map_insert_head by done;
      (split; [done|]; split; [done|]; split; [done|]; right; eauto).
  - split_array n; destruct i as [|[|[|[|[|i]]]]]; simpl in *; try lia;
      (split; [reflexivity|]; split; [reflexivity|]; split; [reflexivity|]; left; split; [reflexivity|lia]).
Qed.

Lemma live_eraseFromArray n i :
  length (ArrayStorage n) = 5%nat → 1 ≤ ArraySize n ≤ 5 →
  (i < Z.to_nat (ArraySize n))%nat →
  live (eraseFromArray i n) = delete i (live n)
  ∧ length (ArrayStorage (eraseFromArray i n)) = 5%nat
  ∧ ArraySize (eraseFromArray i n) = ArraySize n - 1
  ∧ pMapStorage (eraseFromArray i n) = pMapStorage n.
Proof.
  intros Hl Hs Hi.
  split_array n; destruct i as [|[|[|[|[|i]]]]]; simpl in *; try lia; done.
Qed.

Lemma live_append n p :
  length (ArrayStorage n) = 5%nat → 0 ≤ ArraySize n < 5 →
  live (set_array_size (u8 (ArraySize n + 1))
    (set_array (<[Z.to_nat (ArraySize n) := p]> (ArrayStorage n)) n)) = live n ++ [p]
  ∧ u8 (ArraySize n + 1) = ArraySize n + 1.
Proof.
  intros Hl Hs. assert (Hs' : 0 ≤ ArraySize n ≤ 5) by lia.
  split_array n; done.
Qed.

(** Compaction moves the smallest overflow entries behind the live slots. *)
Lemma compact_loop_spec m n :
  length (ArrayStorage n) = 5%nat → 0 ≤ ArraySize n ≤ 5 →
  ∃ m', pMapStorage (compact_loop m n) = Some m'
    ∧ live (compact_loop m n) ++ m' = live n ++ m
    ∧ length (ArrayStorage (compact_loop m n)) = 5%nat
    ∧ ArraySize n ≤ ArraySize (compact_loop m n) ≤ 5
    ∧ (m' ≠ [] → ArraySize (compact_loop m n) = 5)
    ∧ (ArraySize n < 5 → m ≠ [] → ArraySize n < ArraySize (compact_loop m n)).
Proof.
  revert n. induction m as [|p m IH]; intros n Hl Hs; simpl.
  { exists []. unfold live; simpl. repeat split; auto; lia || done. }
  destruct (Z.ltb_spec (ArraySize n) Array_Size) as [Hlt|Hge].
  - destruct (live_append n p Hl ltac:(unfold Array_Size in *; lia)) as [Hlive Hu].
    set (n1 := set_array_size _ _) in *.
    assert (Hn1 : ArraySize n1 = ArraySize n + 1) by exact Hu.
    destruct (IH n1) as (m' & Hm & Happ & Hl' & Hs' & Hne & _).
    { simpl. by rewrite length_insert. }
    { rewrite Hn1. unfold Array_Size in *. lia. }
    exists m'. rewrite Hlive, <-app_assoc in Happ.
    repeat split; auto; lia.
  - exists (p :: m). unfold Array_Size in *. simpl. repeat split; auto; lia.
Qed.

Lemma compact_spec st n :
  pNextStorage st = Some n →
  length (ArrayStorage n) = 5%nat → 0 ≤ ArraySize n ≤ 5 →
  Value (compact st) = Value st
  ∧ tail_list (compact st) = tail_list st
  ∧ (∀ n', pNextStorage (compact st) = Some n' → next_wf n').
Proof.
  intros Hn Hl Hs. unfold compact, tail_list. rewrite Hn.
  destruct (pMapStorage n) as [m|] eqn:Em.
  - destruct (compact_loop_spec m n Hl Hs) as (m' & Hm & Happ & Hl' & Hs' & Hne & Hinc).
    rewrite Hm. destruct (decide (Some m' = Some [])) as [Hnil|Hnil].
    + simplify_eq. rewrite app_nil_r in Happ.
      destruct (Z.eqb_spec 0 (ArraySize (set_map None (compact_loop m n)))) as [E|E]; simpl in *.
      * split; [done|]. split; [|done]. rewrite <-Happ. unfold live. by rewrite <-E.
      * split; [done|]. split; [by rewrite app_nil_r|].
        intros n' ?; simplify_eq. split; simpl; [done|lia|done].
    + destruct (Z.eqb_spec 0 (ArraySize (compact_loop m n))) as [E|E]; simpl.
      * exfalso. rewrite Hne in E; [done|]. congruence.
      * split; [done|]. split; [by rewrite Hm|].
        intros n' ?; simplify_eq. split; [done|lia|]. rewrite Hm. intros m'' ?; simplify_eq.
        split; [congruence|]. apply Hne. congruence.
  - destruct (Z.eqb_spec 0 (ArraySize n)) as [E|E]; simpl.
    + split; [done|]. split; [|done]. unfold live. by rewrite <-E.
    + split; [done|]. split; [by rewrite Em|]. intros n' ?; simplify_eq.
      split; [done|lia|]. congruence.
Qed.

(** * Searching *)

(** The index in [entries] of the mosaic at a location. *)
Definition location_index (st : FirstLevelStorage) (loc : MosaicLocation) : nat :=
  match Source loc with
  | Source_Value => 0
  | Source_Array => S (ArrayIndex loc)
  | Source_Map => S (Z.to_nat (arraySize st) + MapIterator loc)
  end.

Lemma find_in_array_spec a id i n :
  (i + n ≤ length a)%nat →
  match find_in_array a id i n with
  | Some j => (i ≤ j < i + n)%nat ∧ ∃ v, a !! j = Some (id, v)
  | None => ∀ j p, (i ≤ j < i + n)%nat → a !! j = Some p → fst p ≠ id
  end.
Proof.
  revert i. induction n as [|n IH]; intros i Hi; simpl; [intros; lia|].
  unfold array_at. destruct (lookup_lt_is_Some_2 a i ltac:(lia)) as [[k v] Ha].
  rewrite Ha. simpl. destruct (Z.eqb_spec id k) as [->|Hne].
  - split; [lia|]. eauto.
  - specialize (IH (S i) ltac:(lia)). destruct (find_in_array a id (S i) n).
    + destruct IH as [? ?]. split; [lia|done].
    + intros j p Hj Hp. destruct (decide (j = i)); [by simplify_eq|]. eapply IH; [|done]. lia.
Qed.

Lemma map_position_spec {V} id (m : list (Z * V)) :
  match map_position id m with
  | Some i => ∃ v, m !! i = Some (id, v)
  | None => id ∉ m.*1
  end.
Proof.
  induction m as [|[k v] m IH]; simpl; [by apply not_elem_of_nil|].
  case_decide; [by subst; eauto|]. destruct (map_position id m); simpl; [done|].
  rewrite not_elem_of_cons. done.
Qed.

Lemma find_location_spec s id :
  wf s →
  match find_location s id with
  | Some loc => ∃ v, entries s !! location_index (m_storage s) loc = Some (id, v)
      ∧ pCurrent (m_storage s) (iterator_at_location loc) = Some (id, v)
  | None => id ∉ (entries s).*1
  end.
Proof.
  intros [_ Hn _ _]. unfold find_location, entries.
  destruct (empty s); [by apply not_elem_of_nil|].
  destruct s as [[v0 nx] opt]; simpl in *.
  destruct (Z.eqb_spec id (fst v0)) as [->|Hv].
  { destruct v0. exists z0. done. }
  unfold hasArray, hasMap, array, arraySize, map, next, tail_list, location_index. simpl.
  destruct nx as [n|]; simpl; [|set_solver].
  destruct (Hn n eq_refl) as [Hl Hs _].
  pose proof (find_in_array_spec (ArrayStorage n) id 0 (Z.to_nat (ArraySize n)) ltac:(lia)) as Ha.
  destruct (find_in_array _ _ _ _) as [i|].
  - destruct Ha as [Hi [v Hv']]. exists v. unfold pCurrent, array, next; simpl. split; [|done].
    unfold live. rewrite lookup_app_l by (rewrite length_take; lia).
    rewrite lookup_take, decide_True by lia. done.
  - destruct (pMapStorage n) as [m|] eqn:Em; simpl.
    + pose proof (map_position_spec id m) as Hm. destruct (map_position id m) as [i|].
      * destruct Hm as [v Hm]. exists v. unfold pCurrent, arraySize, map, next; simpl. rewrite Em. simpl. split; [|done].
        unfold live. rewrite lookup_app_r by (rewrite length_take; lia).
        rewrite length_take. replace (_ + i - _)%nat with i by lia. done.
      * rewrite fmap_app, not_elem_of_cons, not_elem_of_app. split; [done|]. split; [|done].
        unfold live. rewrite list_elem_of_fmap. intros ([k v] & Hk & Hin). simpl in *; subst.
        apply list_elem_of_lookup in Hin as [j Hj]. apply lookup_take_Some in Hj as [Hj ?].
        eapply Ha in Hj; [done|]. lia.
    + rewrite app_nil_r, not_elem_of_cons. split; [done|].
      unfold live. rewrite list_elem_of_fmap. intros ([k v] & Hk & Hin). simpl in *; subst.
      apply list_elem_of_lookup in Hin as [j Hj]. apply lookup_take_Some in Hj as [Hj ?].
      eapply Ha in Hj; [done|]. lia.
Qed.

(** * Modifications on the entry list *)

Lemma entries_nodup s : wf s → NoDup (entries s).*1.
Proof. intros [_ _ Hs _]. by eapply sorted_nodup. Qed.

Lemma to_map_lookup s id : to_map s !! id = map_find id (entries s).
Proof. unfold to_map. by rewrite map_find_lookup. Qed.

Lemma to_map_entry s i id v : wf s → entries s !! i = Some (id, v) → to_map s !! id = Some v.
Proof.
  intros Hwf Hi. apply elem_of_list_to_map; [by apply entries_nodup|].
  by eapply list_elem_of_lookup_2.
Qed.

Lemma entries_delete_perm s i id v :
  entries s !! i = Some (id, v) → entries s ≡ₚ (id, v) :: delete i (entries s).
Proof. intros Hi. by apply delete_Permutation. Qed.

Lemma StronglySorted_delete {A} (R : relation A) i l :
  StronglySorted R l → StronglySorted R (delete i l).
Proof.
  revert i. induction l as [|x l IH]; intros i Hs; [done|].
  apply StronglySorted_inv in Hs as [Hs Hx]. destruct i as [|i]; [done|].
  change (delete (S i) (x :: l)) with (x :: delete i l).
  constructor; [by apply IH|]. by apply Forall_delete.
Qed.

Lemma fmap_delete {A B} (f : A → B) i (l : list A) : f <$> delete i l = delete i (f <$> l).
Proof. revert i. induction l as [|x l IH]; intros [|i]; [done..|]. simpl. f_equal. apply IH. Qed.

Lemma map_erase_position {V} id (m : list (Z * V)) i :
  map_position id m = Some i → map_erase id m = delete i m.
Proof.
  revert i. induction m as [|[k v] m IH]; intros i; simpl; [done|].
  case_decide; [by intros; simplify_eq|].
  destruct (map_position id m) as [j|] eqn:E; simpl; intros; simplify_eq.
  simpl. f_equal. by apply IH.
Qed.

(** What a found location says about the storage it points into. *)
Lemma find_location_inv s id loc :
  wf s → find_location s id = Some loc →
  empty s = false ∧
  match Source loc with
  | Source_Value => fst (Value (m_storage s)) = id
  | Source_Array => ∃ n, pNextStorage (m_storage s) = Some n
      ∧ (ArrayIndex loc < Z.to_nat (ArraySize n))%nat
  | Source_Map => ∃ n m, pNextStorage (m_storage s) = Some n ∧ pMapStorage n = Some m
      ∧ map_position id m = Some (MapIterator loc)
  end.
Proof.
  intros Hwf. unfold find_location. destruct (empty s); [done|].
  destruct (Z.eqb_spec id (fst (Value (m_storage s)))); [by intros; simplify_eq|].
  unfold hasArray, hasMap, array, arraySize, map, next.
  destruct (pNextStorage (m_storage s)) as [n0|] eqn:En; simpl; [|done].
  destruct (wf_next _ Hwf _ En) as [Hl Hs _].
  pose proof (find_in_array_spec (ArrayStorage n0) id 0 (Z.to_nat (ArraySize n0)) ltac:(lia)) as Ha.
  destruct (find_in_array _ _ _ _) as [i|]; [intros; simplify_eq; simpl; naive_solver lia|].
  destruct (pMapStorage n0) as [m|] eqn:Em; simpl; [|done].
  destruct (map_position id m) eqn:Ep; intros; simplify_eq; simpl. naive_solver.
Qed.

Lemma delete_app_l {A} (l k : list A) i : (i < length l)%nat → delete i (l ++ k) = delete i l ++ k.
Proof. revert i. induction l as [|x l IH]; intros [|i]; simpl; intros; try lia; [done|]. f_equal. apply IH. lia. Qed.

Lemma delete_app_r {A} (l k : list A) i : delete (length l + i)%nat (l ++ k) = l ++ delete i k.
Proof. induction l as [|x l IH]; [done|]. simpl. by f_equal. Qed.

Lemma length_live n : next_wf n → length (live n) = Z.to_nat (ArraySize n).
Proof. intros [Hl Hs _]. unfold live. rewrite length_take. lia. Qed.

(** What the storage is after compaction, whatever the switch did to it. *)
Lemma compact_result s st n E :
  pNextStorage st = Some n → length (ArrayStorage n) = 5%nat → 0 ≤ ArraySize n ≤ 5 →
  E = Value st :: tail_list st → Forall (λ id, id ≠ 0) E.*1 →
  let s' := set_storage (compact st) s in
  entries s' = E
  ∧ (empty s' = true → pNextStorage (m_storage s') = None)
  ∧ (∀ n', pNextStorage (m_storage s') = Some n' → next_wf n')
  ∧ m_optimizedMosaicId s' = m_optimizedMosaicId s.
Proof.
  intros Hn Hl Hs -> [Hv _]%Forall_cons. destruct (compact_spec st n Hn Hl Hs) as (Hval & Htail & Hwf').
  assert (Hne : empty (set_storage (compact st) s) = false).
  { unfold empty, hasValue. simpl. rewrite Hval.
    destruct (Z.eqb_spec 0 (fst (Value st))); simpl in *; congruence. }
  unfold entries. rewrite Hne. simpl. rewrite Hval, Htail. split_and!; done.
Qed.

(** Erasing removes the entry at the located index. *)
Lemma entries_erase s id loc :
  wf s → find_location s id = Some loc →
  entries (erase id s) = delete (location_index (m_storage s) loc) (entries s)
  ∧ (empty (erase id s) = true → pNextStorage (m_storage (erase id s)) = None)
  ∧ (∀ n, pNextStorage (m_storage (erase id s)) = Some n → next_wf n)
  ∧ m_optimizedMosaicId (erase id s) = m_optimizedMosaicId s.
Proof.
  intros Hwf Hloc. destruct (find_location_inv _ _ _ Hwf Hloc) as [Hne Hinv].
  pose proof (wf_nonzero _ Hwf) as Hnz.
  assert (Hdel : Forall (λ id, id ≠ 0) (delete (location_index (m_storage s) loc) (entries s)).*1)
    by (rewrite fmap_delete; by apply Forall_delete).
  unfold erase. rewrite Hloc. revert Hdel Hnz. unfold entries at 1 2 4. rewrite Hne.
  destruct loc as [[] ai mi]; unfold location_index, arraySize, array, map, next, tail_list in *; simpl in *.
  - destruct (pNextStorage (m_storage s)) as [n|] eqn:En; intros Hdel Hnz.
    + unfold hasArray. rewrite En. change (default new_SecondLevelStorage (Some n)) with n.
      destruct (wf_next _ Hwf _ En) as [Hl Hs Hm].
      destruct (live_eraseFromArray n 0 Hl Hs ltac:(lia)) as (Hlive & Hl' & Hs' & Hm').
      assert (Hhd : live n = array_at (ArrayStorage n) 0 :: delete 0%nat (live n)).
      { clear Hlive Hl' Hs' Hm'. clear Hm Hdel Hnz En. split_array n; done. }
      eapply compact_result; [done|done|lia| |done].
      unfold tail_list. cbn [Value pNextStorage]. rewrite Hlive, Hm', (app_comm_cons (delete 0%nat (live n))), <-Hhd. done.
    + assert (hasArray (m_storage s) = false) as -> by (unfold hasArray; by rewrite En).
      assert (compact (set_value (0, 0) (m_storage s)) = set_value (0, 0) (m_storage s)) as ->
        by (unfold compact; simpl; by rewrite En).
      simpl. rewrite En. split_and!; done.
  - destruct Hinv as (n & En & Hi). rewrite En. intros Hdel Hnz.
    change (default new_SecondLevelStorage (Some n)) with n.
    destruct (wf_next _ Hwf _ En) as [Hl Hs Hm].
    destruct (live_eraseFromArray n ai Hl Hs Hi) as (Hlive & Hl' & Hs' & Hm').
    eapply compact_result; [done|done|lia| |done]. unfold tail_list. cbn [Value pNextStorage set_next].
    rewrite Hlive, Hm', <-delete_app_l by (rewrite length_live by done; lia). done.
  - destruct Hinv as (n & m & En & Em & Hp). rewrite En. simpl. rewrite Em. intros Hdel Hnz. simpl.
    pose proof (wf_next _ Hwf _ En) as [Hl Hs Hm].
    eapply compact_result; [done|done|simpl; lia| |done]. unfold tail_list; simpl.
    rewrite <-(length_live n) by (by apply (wf_next _ Hwf)). rewrite delete_app_r.
    by rewrite (map_erase_position _ _ _ Hp).
Qed.

Lemma find_end s id :
  wf s → iterator_eqb (end_ s) (find s id) = bool_decide (id ∉ (entries s).*1).
Proof.
  intros Hwf. unfold find. pose proof (find_location_spec s id Hwf) as Hspec.
  destruct (find_location s id) as [loc|].
  - destruct Hspec as (v & Hi & _). rewrite bool_decide_eq_false_2.
    + by destruct loc as [[] ? ?].
    + intros Hnin. apply Hnin. apply list_elem_of_fmap. exists (id, v). split; [done|].
      by eapply list_elem_of_lookup_2.
  - by rewrite bool_decide_eq_true_2.
Qed.

Lemma insert_index_spec a id i n :
  (i + n ≤ length a)%nat →
  let j := insert_index a id i n in
  (i ≤ j ≤ i + n)%nat
  ∧ (∀ k p, (i ≤ k < j)%nat → a !! k = Some p → fst p ≤ id)
  ∧ ((j < i + n)%nat → ∃ p, a !! j = Some p ∧ id < fst p).
Proof.
  revert i. induction n as [|n IH]; intros i Hi; simpl.
  { split; [lia|]. split; intros; lia. }
  unfold array_at. destruct (lookup_lt_is_Some_2 a i ltac:(lia)) as [p Ha].
  rewrite Ha. simpl. destruct (Z.ltb_spec id (fst p)).
  - split; [lia|]. split; [intros; lia|]. eauto.
  - destruct (IH (S i) ltac:(lia)) as (Hj & Hle & Hlt). split; [lia|]. split.
    + intros k q Hk Hq. destruct (decide (k = i)); [by simplify_eq|]. eapply Hle; [|done]. lia.
    + intros. apply Hlt. lia.
Qed.

Lemma StronglySorted_insert {A} (R : relation A) l1 x l2 :
  StronglySorted R (l1 ++ l2) → Forall (λ y, R y x) l1 → Forall (R x) l2 →
  StronglySorted R (l1 ++ x :: l2).
Proof.
  induction l1 as [|y l1 IH]; simpl; intros Hs Hl Hr; [by constructor|].
  apply StronglySorted_inv in Hs as [Hs Hy]. apply Forall_cons in Hl as [Hyx Hl].
  constructor; [by apply IH|]. rewrite Forall_app in *. destruct Hy. split; [done|]. by constructor.
Qed.

(** A [Z.lt]-sorted list without the optimized id behind a smaller head is
    sorted for the map's order. *)
Lemma sorted_lt_lessThan opt v l :
  Forall (lessThan opt v) l → StronglySorted Z.lt l → StronglySorted (lessThan opt) (v :: l).
Proof.
  intros Hv Hs. constructor; [|done]. induction Hs as [|x l Hs IH Hx]; [constructor|].
  apply Forall_cons in Hv as [Hvx Hv]. constructor; [auto|].
  rewrite Forall_forall in *. intros y Hy. specialize (Hx y Hy). specialize (Hv y Hy).
  rewrite IsLessThan_spec in *. lia.
Qed.

(** The second level an insertion works on. *)
Definition insert_next (st : FirstLevelStorage) : SecondLevelStorage :=
  if negb (hasArray st) then new_SecondLevelStorage else next st.

Lemma insert_next_spec s :
  wf s →
  length (ArrayStorage (insert_next (m_storage s))) = 5%nat
  ∧ 0 ≤ ArraySize (insert_next (m_storage s)) ≤ 5
  ∧ tail_list (m_storage s) = live (insert_next (m_storage s)) ++ default [] (pMapStorage (insert_next (m_storage s)))
  ∧ (∀ m, pMapStorage (insert_next (m_storage s)) = Some m → m ≠ [] ∧ ArraySize (insert_next (m_storage s)) = 5).
Proof.
  intros Hwf. unfold insert_next, hasArray, tail_list, next.
  destruct (pNextStorage (m_storage s)) as [n|] eqn:En; simpl.
  - destruct (wf_next _ Hwf _ En) as [Hl Hs Hm]. split_and!; try done; lia.
  - split_and!; done.
Qed.

Lemma wf_intro s v t opt n :
  s = {| m_storage := {| Value := v; pNextStorage := Some n |}; m_optimizedMosaicId := opt |} →
  next_wf n → t = live n ++ default [] (pMapStorage n) →
  StronglySorted (lessThan opt) (v :: t).*1 → Forall (λ id, id ≠ 0) (v :: t).*1 →
  wf s ∧ entries s = v :: t.
Proof.
  intros -> Hn -> Hs Hnz.
  assert (He : entries {| m_storage := {| Value := v; pNextStorage := Some n |}; m_optimizedMosaicId := opt |}
      = v :: live n ++ default [] (pMapStorage n)).
  { unfold entries, empty, hasValue. simpl. apply Forall_cons in Hnz as [Hnz _].
    destruct (Z.eqb_spec 0 (fst v)); [congruence|done]. }
  split; [|done]. constructor.
  - unfold empty, hasValue. simpl. apply Forall_cons in Hnz as [Hnz _].
    destruct (Z.eqb_spec 0 (fst v)); [congruence|done].
  - simpl. intros; by simplify_eq.
  - by rewrite He.
  - by rewrite He.
Qed.

(** Inserting at a sorted position of the array keeps the second level well
    formed and splices the mosaic into the tail. *)
Lemma insertIntoArray_spec n i p :
  length (ArrayStorage n) = 5%nat → 0 ≤ ArraySize n ≤ 5 →
  (∀ m, pMapStorage n = Some m → m ≠ [] ∧ ArraySize n = 5) →
  (i ≤ Z.to_nat (ArraySize n))%nat → (i < 5)%nat →
  StronglySorted Z.lt (live n ++ default [] (pMapStorage n)).*1 →
  next_wf (insertIntoArray i p n)
  ∧ live (insertIntoArray i p n) ++ default [] (pMapStorage (insertIntoArray i p n))
    = take i (live n) ++ p :: drop i (live n) ++ default [] (pMapStorage n).
Proof.
  intros Hl Hs Hm Hi Hi5 Hsort.
  destruct (live_insertIntoArray n i p Hl Hs Hi Hi5 Hsort) as (Happ & Hl' & Hs' & Hmap).
  split; [|done]. constructor; [done|lia|].
  intros m Hm'. destruct Hmap as [[Heq ?]|[? (m' & ? & ?)]].
  - rewrite Heq in Hm'. apply Hm in Hm'. lia.
  - simplify_eq. split; [done|lia].
Qed.

Lemma insert_front opt v l p :
  StronglySorted (lessThan opt) (v :: l) → lessThan opt p v →
  StronglySorted (lessThan opt) (p :: v :: l).
Proof.
  intros Hs Hp. constructor; [done|]. apply StronglySorted_inv in Hs as [_ Hv].
  constructor; [done|]. eapply Forall_impl; [exact Hv|]. intros x Hx. by eapply lessThan_trans.
Qed.

(** Behind the head, inserting among the ids in ascending order is sorted. *)
Lemma insert_behind opt v l1 p l2 :
  StronglySorted (lessThan opt) (v :: l1 ++ l2) → lessThan opt v p →
  Forall (λ y, y < p) l1 → Forall (Z.lt p) l2 →
  StronglySorted (lessThan opt) (v :: l1 ++ p :: l2).
Proof.
  intros Hs Hv H1 H2. pose proof (sorted_tail_lt _ _ _ Hs) as Hlt.
  apply StronglySorted_inv in Hs as [_ Hvl]. apply sorted_lt_lessThan.
  - rewrite Forall_app in *. destruct Hvl. split; [done|]. by constructor.
  - by apply StronglySorted_insert.
Qed.

(** The array part of the tail splits at the insertion index. *)
Lemma insert_index_split n id :
  length (ArrayStorage n) = 5%nat → 0 ≤ ArraySize n ≤ 5 →
  StronglySorted Z.lt (live n).*1 → id ∉ (live n).*1 →
  let j := insert_index (ArrayStorage n) id 0 (Z.to_nat (ArraySize n)) in
  (j ≤ Z.to_nat (ArraySize n))%nat
  ∧ Forall (λ y, y < id) (take j (live n)).*1 ∧ Forall (Z.lt id) (drop j (live n)).*1.
Proof.
  intros Hl Hs Hsort Hnin j.
  destruct (insert_index_spec (ArrayStorage n) id 0 (Z.to_nat (ArraySize n)) ltac:(lia))
    as (Hj & Hle & Hgt). fold j in Hj, Hle, Hgt. split; [lia|]. split.
  - apply Forall_forall. intros y Hy. apply list_elem_of_fmap in Hy as (p & -> & Hp).
    apply list_elem_of_lookup in Hp as [k Hk]. apply lookup_take_Some in Hk as [Hk Hkj].
    assert (fst p ≠ id).
    { intros <-. apply Hnin, list_elem_of_fmap. exists p. split; [done|]. by eapply list_elem_of_lookup_2. }
    apply lookup_take_Some in Hk as [Hk _]. specialize (Hle k p ltac:(lia) Hk). lia.
  - destruct (decide (j < Z.to_nat (ArraySize n))%nat) as [Hlt|].
    + destruct (Hgt ltac:(lia)) as (p & Hp & Hid).
      assert (Hlp : live n !! j = Some p) by (apply lookup_take_Some; split; [done|lia]).
      rewrite (drop_S _ _ _ Hlp). simpl. constructor; [done|].
      rewrite <-(take_drop_middle _ _ _ Hlp), fmap_app in Hsort.
      apply StronglySorted_app_1_r in Hsort. apply StronglySorted_inv in Hsort as [_ Hsort].
      eapply Forall_impl; [exact Hsort|]. simpl. intros; lia.
    + rewrite drop_ge; [constructor|]. unfold live. rewrite length_take. lia.
Qed.

Lemma perm_splice {A} (v p : A) l j m : v :: take j l ++ p :: drop j l ++ m ≡ₚ p :: v :: l ++ m.
Proof.
  rewrite <-Permutation_middle, app_assoc, take_drop. apply Permutation_swap.
Qed.

(** Past the insertion index no overflow entry is smaller. *)
Lemma overflow_above n j (p : Mosaic) :
  length (ArrayStorage n) = 5%nat →
  (∀ m, pMapStorage n = Some m → m ≠ [] ∧ ArraySize n = 5) →
  StronglySorted Z.lt (live n ++ default [] (pMapStorage n)).*1 →
  (j < 5)%nat → Forall (Z.lt (fst p)) (drop j (live n)).*1 →
  Forall (Z.lt (fst p)) (default [] (pMapStorage n)).*1.
Proof.
  intros Hl Hm Hlt Hj Hafter. destruct (pMapStorage n) as [m|] eqn:Em; [|constructor]. simpl in *.
  destruct (Hm m eq_refl) as [_ Hm5].
  destruct (drop j (live n)) as [|d l] eqn:Ed.
  { apply (f_equal length) in Ed. rewrite length_drop in Ed. unfold live in Ed.
    rewrite length_take in Ed. simpl in Ed. lia. }
  apply Forall_cons in Hafter as [Hd _]. apply Forall_forall. intros x Hx.
  rewrite fmap_app in Hlt. transitivity (fst d); [done|].
  eapply (StronglySorted_app_1_elem_of Z.lt); [exact Hlt| |done].
  apply list_elem_of_fmap. exists d. split; [done|]. rewrite <-(take_drop j (live n)), Ed. set_solver.
Qed.

Lemma map_insert_perm {V} k (v : V) m : map_find k m = None → map_insert k v m ≡ₚ (k, v) :: m.
Proof.
  induction m as [|[k' v'] m IH]; simpl; [done|].
  destruct (decide (k < k')); [done|]. destruct (decide (k = k')); [done|].
  intros Hn. rewrite IH by done. apply Permutation_swap.
Qed.

(** When every array id is smaller, inserting into the overflow map keeps the
    tail sorted. *)
Lemma overflow_insert_sorted n (p : Mosaic) :
  ArraySize n = 5 → StronglySorted Z.lt (live n).*1 → Forall (λ y, y < fst p) (live n).*1 →
  StronglySorted Z.lt (live n ++ default [] (pMapStorage n)).*1 →
  StronglySorted Z.lt (live n ++ map_insert (fst p) (snd p) (default [] (pMapStorage n))).*1.
Proof.
  intros Hfull Hl Hlp Hall. rewrite fmap_app in *. apply StronglySorted_app_2.
  - intros x y Hx Hy. apply map_insert_keys in Hy as [->|Hy].
    + eapply Forall_forall in Hlp; done.
    + eapply (StronglySorted_app_1_elem_of Z.lt); [exact Hall|done..].
  - done.
  - apply map_insert_sorted. by eapply StronglySorted_app_1_r.
Qed.

(** The branches of an insertion into a map that already holds a value. *)
Definition insert_nonempty (p : Mosaic) (s : CompactMosaicMap) : CompactMosaicMap :=
  let st := m_storage s in
  let n := insert_next st in
  if IsLessThan (m_optimizedMosaicId s) (fst p) (fst (Value st))
  then set_storage {| Value := p; pNextStorage := Some (insertIntoArray 0 (Value st) n) |} s
  else
    let arrayIndex := insert_index (ArrayStorage n) (fst p) 0 (Z.to_nat (ArraySize n)) in
    if Z.of_nat arrayIndex <? Array_Size
    then set_storage (set_next (Some (insertIntoArray arrayIndex p n)) st) s
    else set_storage (set_next (Some (insertIntoMap p n)) st) s.

Lemma insert_nonempty_ok s p :
  wf s → empty s = false → fst p ≠ 0 → fst p ∉ (entries s).*1 →
  wf (insert_nonempty p s) ∧ entries (insert_nonempty p s) ≡ₚ p :: entries s.
Proof.
  intros Hwf Hemp Hp Hnin.
  destruct (insert_next_spec s Hwf) as (Hl & Hs & Htail & Hm).
  pose proof (wf_sorted _ Hwf) as Hsort. pose proof (wf_nonzero _ Hwf) as Hnz.
  assert (He : entries s = Value (m_storage s) :: tail_list (m_storage s))
    by (unfold entries; by rewrite Hemp).
  rewrite He, Htail in *. unfold insert_nonempty.
  set (n := insert_next (m_storage s)) in *. set (v := Value (m_storage s)) in *.
  cbn [fmap list_fmap] in Hsort, Hnz, Hnin.
  pose proof (sorted_tail_lt _ _ _ Hsort) as Hlt.
  apply not_elem_of_cons in Hnin as [Hpv Hnin].
  pose proof Hnz as [Hvnz Htnz]%Forall_cons.
  destruct (IsLessThan _ (fst p) (fst v)) eqn:Hless.
  - destruct (insertIntoArray_spec n 0 v Hl Hs Hm ltac:(lia) ltac:(lia) Hlt) as [Hn' Happ].
    edestruct (wf_intro (set_storage {| Value := p; pNextStorage := Some (insertIntoArray 0 v n) |} s)
      p (v :: live n ++ default [] (pMapStorage n))) as [Hwf' ->]; [done|done|by rewrite Happ| |by constructor|done].
    by apply insert_front.
  - assert (Hvp : lessThan (m_optimizedMosaicId s) (fst v) (fst p)).
    { destruct (lessThan_total (m_optimizedMosaicId s) (fst v) (fst p)) as [|Hc]; [congruence|done|].
      unfold lessThan in Hc. congruence. }
    rewrite fmap_app in Hnin, Hlt. apply not_elem_of_app in Hnin as [Hnl Hnm].
    pose proof (StronglySorted_app_1_l _ _ _ Hlt) as Hltl.
    pose proof (StronglySorted_app_1_r _ _ _ Hlt) as Hltm.
    destruct (insert_index_split n (fst p) Hl Hs Hltl Hnl) as (Hj & Hbefore & Hafter).
    set (j := insert_index _ _ _ _) in *.
    destruct (Z.ltb_spec (Z.of_nat j) Array_Size) as [Hj5|Hj5]; unfold Array_Size in Hj5.
    + rewrite <-fmap_app in Hlt.
      destruct (insertIntoArray_spec n j p Hl Hs Hm Hj ltac:(lia) Hlt) as [Hn' Happ].
      assert (Hgt : Forall (Z.lt (fst p)) (drop j (live n) ++ default [] (pMapStorage n)).*1).
      { rewrite fmap_app. apply Forall_app. split; [done|].
        apply (overflow_above n j p Hl Hm Hlt); [lia|done]. }
      edestruct (wf_intro (set_storage (set_next (Some (insertIntoArray j p n)) (m_storage s)) s) v
        (take j (live n) ++ p :: drop j (live n) ++ default [] (pMapStorage n)))
        as [Hwf' ->]; [done|done|done| | |split; [done|]].
      * cbn [fmap list_fmap]. rewrite fmap_app. cbn [fmap list_fmap]. apply insert_behind; [|done..].
        by rewrite <-fmap_app, app_assoc, take_drop.
      * rewrite perm_splice. by repeat constructor.
      * apply perm_splice.
    + assert (Hfull : ArraySize n = 5) by lia. assert (Hj' : j = 5%nat) by lia.
      assert (Hperm : live n ++ map_insert (fst p) (snd p) (default [] (pMapStorage n))
          ≡ₚ p :: live n ++ default [] (pMapStorage n)).
      { rewrite map_insert_perm by (by apply map_find_None). destruct p. by rewrite Permutation_middle. }
      edestruct (wf_intro (set_storage (set_next (Some (insertIntoMap p n)) (m_storage s)) s) v
        (live n ++ map_insert (fst p) (snd p) (default [] (pMapStorage n))))
        as [Hwf' ->]; [done| |done| | |split; [done|]].
      * constructor; simpl; [done|lia|]. intros m ?; simplify_eq. split; [|done].
        by destruct (default [] _) as [|[? ?] ?]; simpl; repeat case_decide.
      * cbn [fmap list_fmap]. rewrite fmap_app.
        apply sorted_lt_lessThan; rewrite <-fmap_app.
        { rewrite Hperm. apply StronglySorted_inv in Hsort as [_ ?]. by constructor. }
        rewrite Hj', take_ge in Hbefore by (unfold live; rewrite length_take; lia).
        rewrite <-fmap_app in Hlt. by apply overflow_insert_sorted.
      * rewrite Hperm. by repeat constructor.
      * rewrite Hperm. apply Permutation_swap.
Qed.

Lemma insert_ok s p :
  wf s → fst p ≠ 0 → fst p ∉ (entries s).*1 →
  ∃ s', insert p s = Ok s' ∧ wf s' ∧ entries s' ≡ₚ p :: entries s
    ∧ m_optimizedMosaicId s' = m_optimizedMosaicId s.
Proof.
  intros Hwf Hp Hnin. unfold insert. rewrite find_end, bool_decide_eq_true_2 by done.
  destruct (Z.eqb_spec 0 (fst p)) as [?|_]; [congruence|]. simpl.
  destruct (empty s) eqn:Hemp.
  - eexists. split; [done|]. pose proof (wf_empty _ Hwf Hemp) as Hnext.
    assert (Hent : entries (set_storage (set_value p (m_storage s)) s) = [p]).
    { unfold entries, empty, hasValue, tail_list. simpl. rewrite Hnext.
      destruct (Z.eqb_spec 0 (fst p)); [congruence|done]. }
    split; [|split; [|done]].
    + constructor; rewrite ?Hent; simpl; rewrite ?Hnext; try done; repeat constructor; done.
    + rewrite Hent. unfold entries. by rewrite Hemp.
  - exists (insert_nonempty p s). destruct (insert_nonempty_ok s p Hwf Hemp Hp Hnin) as [Hwf' Hperm].
    split; [|split; [done|split; [done|]]]; unfold insert_nonempty, insert_next; cbv zeta;
      destruct (IsLessThan _ _ _); [done| |done|]; by destruct (Z.of_nat _ <? _).
Qed.

Lemma insert_throws s p :
  wf s → fst p = 0 ∨ fst p ∈ (entries s).*1 → insert p s = Throw invalid_argument.
Proof.
  intros Hwf Hor. unfold insert. rewrite find_end by done.
  destruct (Z.eqb_spec 0 (fst p)); [done|]. destruct Hor as [?|Hin]; [congruence|].
  rewrite bool_decide_eq_false_2 by naive_solver. done.
Qed.

Lemma erase_ok s id :
  wf s →
  wf (erase id s) ∧ to_map (erase id s) = delete id (to_map s)
  ∧ m_optimizedMosaicId (erase id s) = m_optimizedMosaicId s.
Proof.
  intros Hwf. destruct (find_location s id) as [loc|] eqn:Hloc.
  - destruct (entries_erase s id loc Hwf Hloc) as (He & Hemp & Hn & Hopt).
    pose proof (find_location_spec s id Hwf) as Hspec. rewrite Hloc in Hspec.
    destruct Hspec as (v & Hi & _). split; [|split; [|done]].
    + constructor; [done|done| |]; rewrite He, fmap_delete.
      * rewrite Hopt. apply StronglySorted_delete. by destruct Hwf.
      * apply Forall_delete. by destruct Hwf.
    + unfold to_map. rewrite He. pose proof (entries_nodup s Hwf) as Hnd.
      pose proof (entries_delete_perm _ _ _ _ Hi) as Hperm. rewrite Hperm in Hnd.
      rewrite (list_to_map_proper _ _ (entries_nodup s Hwf) Hperm). simpl.
      rewrite delete_insert_id; [done|]. apply not_elem_of_list_to_map_1. by apply NoDup_cons in Hnd as [? _].
  - pose proof (find_location_spec s id Hwf) as Hspec. rewrite Hloc in Hspec.
    unfold erase. rewrite Hloc. split; [done|]. split; [|done]. symmetry. apply delete_id.
    by apply not_elem_of_list_to_map_1.
Qed.

Lemma to_map_None s id : to_map s !! id = None ↔ id ∉ (entries s).*1.
Proof. rewrite to_map_lookup. apply map_find_None. Qed.

Lemma insert_map s s' p :
  wf s' → entries s' ≡ₚ p :: entries s → to_map s' = <[fst p := snd p]> (to_map s).
Proof.
  intros Hwf Hperm. unfold to_map.
  rewrite (list_to_map_proper _ _ (entries_nodup _ Hwf) Hperm). by destruct p.
Qed.

(** What dereferencing [find(id)] gives: the entry, or [end()]. *)
Lemma find_current s id :
  wf s →
  pCurrent (m_storage s) (find s id) = pair id <$> to_map s !! id.
Proof.
  intros Hwf. unfold find. pose proof (find_location_spec s id Hwf) as Hspec.
  destruct (find_location s id) as [loc|].
  - destruct Hspec as (v & Hi & ->). by rewrite (to_map_entry _ _ _ _ Hwf Hi).
  - apply to_map_None in Hspec. by rewrite Hspec.
Qed.

(** Overwriting an amount keeps every mosaic id. *)
Lemma alter_keys a i (l : list Mosaic) : (alter (λ p, (fst p, a)) i l).*1 = l.*1.
Proof.
  revert i. induction l as [|x l IH]; intros [|i]; [done..|].
  change (fst x :: (alter (λ p : Mosaic, (fst p, a)) i l).*1 = fst x :: l.*1). by rewrite IH.
Qed.

Lemma alter_map_entry a i (l : list Mosaic) id v :
  NoDup l.*1 → l !! i = Some (id, v) →
  (list_to_map (alter (λ p, (fst p, a)) i l) : gmap Z Z) = <[id := a]> (list_to_map l).
Proof.
  revert i. induction l as [|[k w] l IH]; intros i Hnd Hi; [done|].
  apply NoDup_cons in Hnd as [Hk Hnd]. destruct i as [|i]; simplify_eq/=.
  - by rewrite insert_insert_eq.
  - change (alter _ (S i) _) with ((k, w) :: alter (λ p : Mosaic, (fst p, a)) i l). simpl.
    rewrite (IH i) by done. apply insert_insert_ne. intros ->. apply Hk, list_elem_of_fmap.
    exists (id, v). split; [done|]. by eapply list_elem_of_lookup_2.
Qed.

Lemma entries_assign s id loc a :
  wf s → find_location s id = Some loc →
  let s' := assign_second a (iterator_at_location loc) s in
  entries s' = alter (λ p, (fst p, a)) (location_index (m_storage s) loc) (entries s)
  ∧ empty s' = false
  ∧ (∀ n, pNextStorage (m_storage s') = Some n → next_wf n)
  ∧ m_optimizedMosaicId s' = m_optimizedMosaicId s.
Proof.
  intros Hwf Hloc. destruct (find_location_inv _ _ _ Hwf Hloc) as [Hne Hinv].
  pose proof (wf_next _ Hwf) as Hn. unfold entries. rewrite Hne.
  unfold empty, hasValue, tail_list, assign_second, location_index, array, arraySize, map, next in *.
  destruct s as [[v0 nx] opt], loc as [[] ai mi]; simpl in *.
  - rewrite Hne. split_and!; done.
  - destruct Hinv as (n & -> & Hi). rewrite Hne. simpl. specialize (Hn n eq_refl). split_and!; [|done| |done].
    + unfold live. simpl. rewrite take_alter_lt by done. fold (live n).
      by rewrite <-alter_app_l by (rewrite length_live by done; lia).
    + intros n' ?; simplify_eq. destruct Hn. constructor; simpl; [by rewrite length_alter|done|done].
  - destruct Hinv as (n & m & -> & Em & Hp). rewrite Hne. simpl. specialize (Hn n eq_refl). rewrite Em. simpl.
    split_and!; [|done| |done].
    + change (live _) with (live n). by rewrite <-alter_app_r, length_live.
    + intros n' ?; simplify_eq. destruct Hn as [Hl Hs Hm]. constructor; simpl; [done|done|].
      intros m' ?; simplify_eq. destruct (Hm m Em). split; [|done].
      intros Hnil%(f_equal length). rewrite length_alter in Hnil. by destruct m.
Qed.

Lemma assign_ok s id v a :
  wf s → to_map s !! id = Some v →
  let s' := assign_second a (find s id) s in
  wf s' ∧ to_map s' = <[id := a]> (to_map s) ∧ m_optimizedMosaicId s' = m_optimizedMosaicId s.
Proof.
  intros Hwf Hid. unfold find. pose proof (find_location_spec s id Hwf) as Hspec.
  destruct (find_location s id) as [loc|] eqn:Hloc; [|by apply to_map_None in Hspec; rewrite Hspec in Hid].
  destruct Hspec as (w & Hi & _).
  destruct (entries_assign s id loc a Hwf Hloc) as (He & Hemp & Hn & Hopt).
  split; [|split; [|done]].
  - constructor; [by rewrite Hemp|done|rewrite Hopt|]; rewrite He, alter_keys; by destruct Hwf.
  - unfold to_map. rewrite He. eapply alter_map_entry; [by apply entries_nodup|done].
Qed.

(** * Size and iteration *)

Lemma size_entries s : wf s → size s = Z.of_nat (length (entries s)).
Proof.
  intros Hwf. unfold size, entries. destruct (empty s); [done|].
  unfold hasArray, hasMap, arraySize, map, next, tail_list.
  destruct (pNextStorage (m_storage s)) as [n|] eqn:En; [|done]. simpl.
  pose proof (wf_next _ Hwf _ En) as Hn. rewrite length_app, length_live by done.
  destruct Hn as [_ Hs _]. destruct (pMapStorage n); simpl; lia.
Qed.

Lemma size_map s : wf s → size s = Z.of_nat (base.size (to_map s)).
Proof.
  intros Hwf. rewrite size_entries by done. unfold to_map. f_equal.
  rewrite <-length_map_to_list, map_to_list_to_map by (by apply entries_nodup). done.
Qed.

(** The iterator stands on the [i]-th entry, or at the end behind the last. *)
Definition points (s : CompactMosaicMap) (it : basic_iterator) (i : nat) : Prop :=
  match m_stage it with
  | Stage_Start => False
  | Stage_Value => empty s = false ∧ i = 0%nat
  | Stage_Array => empty s = false ∧ i = S (m_arrayIndex it)
      ∧ ∃ n, pNextStorage (m_storage s) = Some n ∧ (m_arrayIndex it < Z.to_nat (ArraySize n))%nat
  | Stage_Map => empty s = false
      ∧ ∃ n m, pNextStorage (m_storage s) = Some n ∧ pMapStorage n = Some m
        ∧ (m_mapIterator it < length m)%nat ∧ i = S (Z.to_nat (ArraySize n) + m_mapIterator it)
  | Stage_End => i = length (entries s)
  end.

Lemma points_begin s : wf s → points s (begin_ s) 0.
Proof.
  intros Hwf. unfold points, begin_, iterator_at_stage, advance, entries, empty. simpl.
  by destruct (hasValue (m_storage s)).
Qed.

Lemma points_current s it i :
  wf s → points s it i →
  match entries s !! i with
  | Some p => iterator_eqb it (end_ s) = false ∧ current (m_storage s) it = Ok p
  | None => iterator_eqb it (end_ s) = true
  end.
Proof.
  intros Hwf Hpt. unfold points in Hpt.
  destruct it as [[] ai mi]; simpl in *; [done|..].
  - destruct Hpt as [Hne ->]. unfold entries. by rewrite Hne.
  - destruct Hpt as (Hne & -> & n & Hn & Hi). unfold entries, tail_list, current, pCurrent, array, next.
    rewrite Hne, Hn. simpl. pose proof (wf_next _ Hwf _ Hn) as Hnw.
    rewrite lookup_app_l by (rewrite length_live by done; lia).
    assert (Hlk : live n !! ai = ArrayStorage n !! ai) by (unfold live; apply lookup_take_lt; lia).
    rewrite Hlk. destruct Hnw as [Hl Hs _]. destruct (lookup_lt_is_Some_2 (ArrayStorage n) ai ltac:(lia)) as [p Hp].
    by rewrite Hp.
  - destruct Hpt as (Hne & n & m & Hn & Hm & Hmi & ->).
    unfold entries, tail_list, current, pCurrent, map, next. rewrite Hne, Hn. simpl. rewrite Hm. simpl.
    rewrite <-(length_live n) by (by apply (wf_next _ Hwf)).
    rewrite lookup_app_r by lia. replace (length (live n) + mi - length (live n))%nat with mi by lia.
    destruct (lookup_lt_is_Some_2 m mi Hmi) as [p Hp]. by rewrite Hp.
  - subst. rewrite lookup_ge_None_2 by done. done.
Qed.

Lemma points_advance s it i :
  wf s → points s it i → (i < length (entries s))%nat →
  increment (m_storage s) it = Ok (advance (m_storage s) it) ∧ points s (advance (m_storage s) it) (S i).
Proof.
  intros Hwf Hpt Hi. unfold points in Hpt.
  destruct it as [[] ai mi]; simpl in *; [done|..|lia]; (split; [done|]); unfold advance, points; simpl.
  - destruct Hpt as [Hne ->]. unfold hasArray. destruct (pNextStorage (m_storage s)) as [n|] eqn:Hn; simpl.
    + split; [done|]. split; [done|]. exists n. split; [done|].
      destruct (wf_next _ Hwf _ Hn) as [_ Hs _]. lia.
    + unfold entries, tail_list. by rewrite Hne, Hn.
  - destruct Hpt as (Hne & -> & n & Hn & Hai). unfold arraySize, hasMap, next. rewrite Hn. simpl.
    destruct (wf_next _ Hwf _ Hn) as [Hl Hs Hm]. cbn [m_arrayIndex].
    destruct (Z.eqb_spec (Z.of_nat (S ai)) (ArraySize n)) as [E|E]; simpl.
    + destruct (pMapStorage n) as [m|] eqn:Em; simpl.
      * split; [done|]. exists n, m. split_and!; [done|done| |lia].
        destruct (Hm m eq_refl) as [Hne' _]. destruct m; simpl; [done|lia].
      * unfold entries, tail_list. rewrite Hne, Hn. simpl. rewrite Em, app_nil_r. simpl.
        rewrite length_live by (by apply (wf_next _ Hwf)). lia.
    + split; [done|]. split; [done|]. exists n. split; [done|lia].
  - destruct Hpt as (Hne & n & m & Hn & Hm & Hmi & ->). unfold map, next. rewrite Hn. simpl. rewrite Hm. simpl.
    destruct (Nat.eqb_spec (length m) (S mi)) as [E|E]; simpl.
    + unfold entries, tail_list. rewrite Hne, Hn. simpl. rewrite Hm. simpl.
      rewrite length_app, length_live by (by apply (wf_next _ Hwf)). lia.
    + split; [done|]. exists n, m. split_and!; [done|done|lia|lia].
Qed.

Lemma traverse_from s fuel it i :
  wf s → points s it i → (length (entries s) - i < fuel)%nat →
  traverse fuel s it = Some (drop i (entries s)).
Proof.
  intros Hwf. revert it i. induction fuel as [|fuel IH]; intros it i Hpt Hf; [lia|]. simpl.
  pose proof (points_current s it i Hwf Hpt) as Hc.
  destruct (entries s !! i) as [p|] eqn:Hi.
  - destruct Hc as [-> ->]. pose proof (lookup_lt_Some _ _ _ Hi) as Hlt.
    destruct (points_advance s it i Hwf Hpt Hlt) as [-> Hpt'].
    rewrite (IH _ (S i)) by (done || lia). simpl. by rewrite (drop_S _ _ _ Hi).
  - rewrite Hc. rewrite drop_ge; [done|]. by apply lookup_ge_None.
Qed.

(** * Choosing the optimized mosaic *)

Lemma wf_reoptimize st id :
  wf {| m_storage := st; m_optimizedMosaicId := 0 |} →
  id ∉ (entries {| m_storage := st; m_optimizedMosaicId := 0 |}).*1 →
  wf {| m_storage := st; m_optimizedMosaicId := id |}.
Proof.
  intros [He Hn Hs Hnz] Hnin. constructor; [done|done| |done]. simpl in *.
  set (E := entries _) in *.
  change (entries {| m_storage := st; m_optimizedMosaicId := id |}) with E.
  clearbody E. clear He Hn.
  induction Hs as [|x l Hs IH Hx]; [constructor|].
  apply Forall_cons in Hnz as [Hxz Hnz]. apply not_elem_of_cons in Hnin as [Hxi Hnin].
  constructor; [by apply IH|]. rewrite Forall_forall in *. intros y Hy.
  specialize (Hx y Hy). specialize (Hnz y Hy). rewrite IsLessThan_spec in *.
  assert (y ≠ id) by congruence. lia.
Qed.

Lemma erase_optimized_irrelevant st id opt opt' :
  m_storage (erase id {| m_storage := st; m_optimizedMosaicId := opt |}) =
  m_storage (erase id {| m_storage := st; m_optimizedMosaicId := opt' |}).
Proof.
  unfold erase.
  change (find_location {| m_storage := st; m_optimizedMosaicId := opt' |} id)
    with (find_location {| m_storage := st; m_optimizedMosaicId := opt |} id).
  by destruct (find_location _ id).
Qed.

Lemma optimize_ok s id :
  wf s →
  if decide (m_optimizedMosaicId s = 0 ∨ m_optimizedMosaicId s = id)
  then ∃ s', optimize id s = Ok s' ∧ wf s' ∧ to_map s' = to_map s ∧ m_optimizedMosaicId s' = id
  else optimize id s = Throw invalid_argument.
Proof.
  intros Hwf. unfold optimize. destruct s as [st opt]; simpl.
  destruct (Z.eqb_spec id opt) as [->|Hne]; [rewrite decide_True by auto; eauto|].
  destruct (Z.eqb_spec 0 opt) as [<-|H0]; cbn [negb]; [|by rewrite decide_False by naive_solver].
  rewrite decide_True by auto.
  set (s := {| m_storage := st; m_optimizedMosaicId := 0 |}) in *.
  change (find {| m_storage := st; m_optimizedMosaicId := id |} id) with (find s id).
  change (end_ {| m_storage := st; m_optimizedMosaicId := id |}) with (end_ s).
  rewrite find_end by done. case_bool_decide as Hin.
  { eexists. split; [done|]. split; [by apply wf_reoptimize|]. done. }
  pose proof (find_current s id Hwf) as Hcur. unfold s in Hcur; simpl in Hcur; fold s in Hcur.
  destruct (to_map s !! id) as [v|] eqn:Hid; [|by apply to_map_None in Hid]. simpl in Hcur.
  unfold current. rewrite Hcur.
  assert (isEnd (find s id) = false) as -> by (unfold pCurrent in Hcur; by destruct (find s id) as [[] ? ?]).
  simpl. destruct (erase_ok s id Hwf) as (Hwf1 & Hmap1 & Hopt1).
  set (s1 := erase id {| m_storage := st; m_optimizedMosaicId := id |}).
  assert (Hs1 : s1 = {| m_storage := m_storage (erase id s); m_optimizedMosaicId := id |}).
  { unfold s, s1. rewrite (erase_optimized_irrelevant st id 0 id).
    unfold erase. by destruct (find_location _ id). }
  assert (Hnin : id ∉ (entries (erase id s)).*1).
  { apply to_map_None. rewrite Hmap1. apply lookup_delete_eq. }
  assert (Heta : erase id s = {| m_storage := m_storage (erase id s); m_optimizedMosaicId := 0 |}).
  { destruct (erase id s); simpl in *. by subst. }
  assert (Hwf2 : wf s1).
  { rewrite Hs1. apply wf_reoptimize; rewrite <-Heta; done. }
  assert (Hent1 : entries s1 = entries (erase id s)) by (rewrite Hs1; done).
  assert (Hnz : id ≠ 0).
  { pose proof (wf_nonzero _ Hwf) as Hnz. rewrite Forall_forall in Hnz. apply Hnz.
    apply map_find_elem. rewrite <-to_map_lookup, Hid. eauto. }
  destruct (insert_ok s1 (id, v) Hwf2 Hnz) as (s' & Hins & Hwf' & Hperm & Hopt'); [by rewrite Hent1|].
  exists s'. split; [done|]. split; [done|]. split; [|by rewrite Hopt', Hs1].
  rewrite (insert_map _ _ _ Hwf' Hperm). unfold to_map at 1. rewrite Hent1. fold (to_map (erase id s)).
  rewrite Hmap1. simpl. rewrite insert_delete_eq. by apply insert_id.
Qed.

(** * The finite-map specification *)

(** The container the balances see: [find(id)] dereferenced, assignment
    through the found iterator, and range-based iteration. *)
#[global] Instance MosaicMap_store : MosaicStore CompactMosaicMap := {|
  store_new := new_CompactMosaicMap;
  store_get s id := snd <$> pCurrent (m_storage s) (find s id);
  store_assign id a s := assign_second a (find s id) s;
  store_insert := insert;
  store_erase := erase;
  store_optimize := optimize;
  store_size := size;
  store_list s := default [] (traverse (S (Z.to_nat (size s))) s (begin_ s))
|}.

Lemma new_wf : wf new_CompactMosaicMap.
Proof. constructor; simpl; try done; constructor. Qed.

Lemma traverse_all s : wf s → traverse (S (Z.to_nat (size s))) s (begin_ s) = Some (entries s).
Proof.
  intros Hwf. rewrite (traverse_from s _ _ 0 Hwf (points_begin s Hwf)); [done|].
  rewrite size_entries by done. lia.
Qed.

Lemma insert_spec s id a :
  wf s →
  if decide (insertable (to_map s) id)
  then ∃ s', insert (id, a) s = Ok s' ∧ wf s' ∧ to_map s' = <[id := a]> (to_map s)
         ∧ m_optimizedMosaicId s' = m_optimizedMosaicId s
  else insert (id, a) s = Throw invalid_argument.
Proof.
  intros Hwf. unfold insertable. case_decide as Hi.
  - destruct Hi as [Hnz Hn%to_map_None].
    destruct (insert_ok s (id, a) Hwf Hnz Hn) as (s' & Hs' & Hwf' & Hperm & Hopt).
    exists s'. split_and!; try done. by rewrite (insert_map _ _ _ Hwf' Hperm).
  - apply insert_throws; [done|]. simpl. rewrite to_map_None in Hi.
    destruct (decide (id = 0)); [by left|]. right. apply dec_stable. naive_solver.
Qed.

#[global, refine] Instance MosaicMap_laws : MosaicStoreLaws CompactMosaicMap := {|
  store_wf := wf;
  store_map := to_map;
  store_optimized := m_optimizedMosaicId
|}.
Proof.
  - split; [apply new_wf|done].
  - intros s id Hwf. simpl. rewrite find_current by done. by destruct (to_map s !! id).
  - intros s id Hwf Hid. rewrite to_map_lookup in Hid. apply map_find_elem in Hid.
    pose proof (wf_nonzero _ Hwf) as Hnz. rewrite Forall_forall in Hnz. by apply Hnz.
  - intros s id v a. apply assign_ok.
  - intros s id a. apply insert_spec.
  - intros s id. apply erase_ok.
  - intros s id. apply optimize_ok.
  - intros s. apply size_map.
  - intros s Hwf. unfold store_list, MosaicMap_store. rewrite traverse_all by done. split; [by apply entries_nodup|done].
Defined.

(** The calls a client can make. *)
Inductive MapOp :=
| OpInsert (id amount : Z)
| OpErase (id : Z)
| OpOptimize (id : Z)
| OpAssign (id amount : Z)
| OpFind (id : Z)
| OpSize.

Inductive Response :=
| Done
| Thrown (e : exn)
| Found (amount : option Z)
| Counted (n : Z).

Definition respond {A} (old : A) (r : result A) : A * Response :=
  match r with Ok s => (s, Done) | Throw e => (old, Thrown e) end.

Definition run_op (s : CompactMosaicMap) (o : MapOp) : CompactMosaicMap * Response :=
  match o with
  | OpInsert id a => respond s (insert (id, a) s)
  | OpErase id => (erase id s, Done)
  | OpOptimize id => respond s (optimize id s)
  | OpAssign id a =>
      if iterator_eqb (end_ s) (find s id) then (s, Done)
      else (assign_second a (find s id) s, Done)
  | OpFind id => (s, Found (snd <$> pCurrent (m_storage s) (find s id)))
  | OpSize => (s, Counted (size s))
  end.

(** The same calls on a finite map and the id chosen for optimization. *)
Definition spec_op (s : gmap Z Z * Z) (o : MapOp) : (gmap Z Z * Z) * Response :=
  let '(m, opt) := s in
  match o with
  | OpInsert id a =>
      if decide (insertable m id) then ((<[id := a]> m, opt), Done) else (s, Thrown invalid_argument)
  | OpErase id => ((delete id m, opt), Done)
  | OpOptimize id =>
      if decide (opt = 0 ∨ opt = id) then ((m, id), Done) else (s, Thrown invalid_argument)
  | OpAssign id a => ((alter (λ _, a) id m, opt), Done)
  | OpFind id => (s, Found (m !! id))
  | OpSize => (s, Counted (Z.of_nat (base.size m)))
  end.

Fixpoint run {S} (step : S → MapOp → S * Response) (s : S) (ops : list MapOp) : S * list Response :=
  match ops with
  | [] => (s, [])
  | o :: ops =>
      let '(s1, r) := step s o in
      let '(s2, rs) := run step s1 ops in (s2, r :: rs)
  end.

(** The abstraction of a well-formed container. *)
Definition simulates (s : CompactMosaicMap) (a : gmap Z Z * Z) : Prop :=
  wf s ∧ a = (to_map s, m_optimizedMosaicId s).

Lemma run_op_simulates s a o :
  simulates s a →
  snd (run_op s o) = snd (spec_op a o) ∧ simulates (fst (run_op s o)) (fst (spec_op a o)).
Proof.
  intros [Hwf ->]. destruct o as [id am|id|id|id am|id|]; simpl.
  - pose proof (insert_spec s id am Hwf) as Hi. case_decide.
    + destruct Hi as (s' & -> & Hwf' & Hm & Ho). simpl. split; [done|]. split; [done|]. by rewrite Hm, Ho.
    + rewrite Hi. simpl. split; [done|]. by split.
  - destruct (erase_ok s id Hwf) as (Hwf' & Hm & Ho). split; [done|]. split; [done|]. by rewrite Hm, Ho.
  - pose proof (optimize_ok s id Hwf) as Hopt. case_decide.
    + destruct Hopt as (s' & -> & Hwf' & Hm & Ho). simpl. split; [done|]. split; [done|]. by rewrite Hm, Ho.
    + rewrite Hopt. simpl. split; [done|]. by split.
  - rewrite find_end by done. case_bool_decide as Hin.
    + split; [done|]. split; [done|]. simpl. rewrite alter_id; [done|].
      apply to_map_None in Hin. intros ? ?. congruence.
    + destruct (to_map s !! id) as [v|] eqn:Hid; [|by apply to_map_None in Hid].
      destruct (assign_ok s id v am Hwf Hid) as (Hwf' & Hm & Ho). simpl. split; [done|]. split; [done|].
      rewrite Hm, Ho. f_equal. apply map_eq. intros k. rewrite lookup_alter, lookup_insert.
      case_decide; simplify_eq; [|done]. by rewrite Hid.
  - rewrite find_current by done. split; [by destruct (to_map s !! id)|]. by split.
  - rewrite size_map by done. split; [done|]. by split.
Qed.

Lemma run_simulates s a ops :
  simulates s a →
  snd (run run_op s ops) = snd (run spec_op a ops)
  ∧ simulates (fst (run run_op s ops)) (fst (run spec_op a ops)).
Proof.
  revert s a. induction ops as [|o ops IH]; intros s a Hsim; simpl; [done|].
  pose proof (run_op_simulates s a o Hsim) as [Hr Hsim'].
  destruct (run_op s o) as [s1 r1], (spec_op a o) as [a1 r1']. simpl in *.
  specialize (IH s1 a1 Hsim'). destruct (run run_op s1 ops), (run spec_op a1 ops). simpl in *.
  destruct IH. by subst.
Qed.

(** C12. Every sequence of calls on a freshly constructed [CompactMosaicMap]
    answers exactly as the same calls on a finite map with an optimized id:
    the same lookups, sizes and exceptions, and the container stays well
    formed and stands for that finite map. *)
Theorem CompactMosaicMap_refines_map ops :
  snd (run run_op new_CompactMosaicMap ops) = snd (run spec_op (∅, 0) ops)
  ∧ wf (fst (run run_op new_CompactMosaicMap ops))
  ∧ fst (run spec_op (∅, 0) ops) =
      (to_map (fst (run run_op new_CompactMosaicMap ops)),
       m_optimizedMosaicId (fst (run run_op new_CompactMosaicMap ops))).
Proof. apply (run_simulates new_CompactMosaicMap (∅, 0) ops). split; [apply new_wf|done]. Qed.

(** Iterating a well-formed map with [begin()], [++] and [end()] takes
    one step per entry, never throws, and yields every entry exactly once,
    in the map's order: the optimized mosaic first, the others by id. *)
Theorem iteration_visits_entries s :
  wf s →
  ∃ l, traverse (S (Z.to_nat (size s))) s (begin_ s) = Some l
    ∧ l ≡ₚ map_to_list (to_map s)
    ∧ StronglySorted (λ p q, IsLessThan (m_optimizedMosaicId s) (fst p) (fst q) = true) l.
Proof.
  intros Hwf. exists (entries s). split; [by apply traverse_all|]. split.
  - unfold to_map. rewrite map_to_list_to_map by (by apply entries_nodup). done.
  - pose proof (wf_sorted _ Hwf) as Hs. induction (entries s) as [|p l IH]; [constructor|].
    apply StronglySorted_inv in Hs as [Hs Hp]. constructor; [by apply IH|]. exact (proj1 (Forall_fmap fst _ l) Hp).
Qed.

(** A map holding seven mosaics, more than the inline slots, optimized at 50. *)
Definition sample_ops : list MapOp :=
  [OpInsert 30 3; OpInsert 10 1; OpInsert 50 5; OpInsert 20 2; OpInsert 70 7;
   OpInsert 60 6; OpInsert 40 4; OpOptimize 50; OpErase 20; OpAssign 70 77].

Definition sample_map : CompactMosaicMap := fst (run run_op new_CompactMosaicMap sample_ops).

Lemma sample_map_wf : wf sample_map.
Proof. apply (run_simulates new_CompactMosaicMap (∅, 0)). split; [apply new_wf|done]. Qed.

Lemma iteration_visits_entries_witness :
  ∃ l, traverse (S (Z.to_nat (size sample_map))) sample_map (begin_ sample_map) = Some l
    ∧ l ≡ₚ map_to_list (to_map sample_map)
    ∧ StronglySorted (λ p q, IsLessThan (m_optimizedMosaicId sample_map) (fst p) (fst q) = true) l.
Proof. apply (iteration_visits_entries sample_map). exact sample_map_wf. Defined.

Example sample_map_order :
  traverse (S (Z.to_nat (size sample_map))) sample_map (begin_ sample_map)
  = Some [(50, 5); (10, 1); (30, 3); (40, 4); (60, 6); (70, 77)].
Proof. vm_compute. reflexivity. Qed.

End MosaicMap.
