(* ===== verification/AccountBalances.v ===== *)
(** Model of catapult::state::AccountBalances
    (src/catapult/state/AccountBalances.{h,cpp}): the mosaics an account owns
    and the snapshots of its tracked balance, committed ([m_localSnapshots])
    and pending ([m_remoteSnapshots]).  The theorems give the effect of every
    operation on balances and snapshots, exceptions included, and say what
    the effective balance is. *)
From stdpp Require Import base tactics numbers option list sorting gmap.
From S2P Require Import Prelude MosaicStore CompactMosaicMap.

Local Open Scope Z_scope.

Module Balances.

(** * Data *)

(** model::BalanceSnapshot. *)
Record BalanceSnapshot := Snapshot { Amount : Z; BalanceHeight : Z }.

#[global] Instance BalanceSnapshot_eq_dec : EqDecision BalanceSnapshot.
Proof. solve_decision. Defined.

(** [m_accountState] points to the owning account; the balances only read its
    [AddressHeight].  [m_balances] is any mosaic store. *)
Record AccountBalances (T : Type) := {
  m_localSnapshots : list BalanceSnapshot;
  m_remoteSnapshots : list BalanceSnapshot;
  m_accountState : option Z;
  m_balances : T;
  m_optimizedMosaicId : Z;
  m_trackedMosaicId : Z
}.
Arguments m_localSnapshots {T} _.
Arguments m_remoteSnapshots {T} _.
Arguments m_accountState {T} _.
Arguments m_balances {T} _.
Arguments m_optimizedMosaicId {T} _.
Arguments m_trackedMosaicId {T} _.

Section definitions.
Context {T : Type} `{MosaicStore T}.
Implicit Types s : AccountBalances T.

Definition new_AccountBalances (accountState : option Z) : AccountBalances T := {|
  m_localSnapshots := []; m_remoteSnapshots := []; m_accountState := accountState;
  m_balances := store_new; m_optimizedMosaicId := 0; m_trackedMosaicId := 0
|}.

Definition set_snapshots (l r : list BalanceSnapshot) s : AccountBalances T := {|
  m_localSnapshots := l; m_remoteSnapshots := r; m_accountState := m_accountState s;
  m_balances := m_balances s; m_optimizedMosaicId := m_optimizedMosaicId s;
  m_trackedMosaicId := m_trackedMosaicId s
|}.

Definition set_balances (b : T) s : AccountBalances T := {|
  m_localSnapshots := m_localSnapshots s; m_remoteSnapshots := m_remoteSnapshots s;
  m_accountState := m_accountState s; m_balances := b;
  m_optimizedMosaicId := m_optimizedMosaicId s; m_trackedMosaicId := m_trackedMosaicId s
|}.

Definition set_ids (account : option Z) (optimized tracked : Z) s : AccountBalances T := {|
  m_localSnapshots := m_localSnapshots s; m_remoteSnapshots := m_remoteSnapshots s;
  m_accountState := account; m_balances := m_balances s;
  m_optimizedMosaicId := optimized; m_trackedMosaicId := tracked
|}.

(** * Queries *)

Definition get s (mosaicId : Z) : Z := default 0 (store_get (m_balances s) mosaicId).

Definition snapshots s : list BalanceSnapshot := m_localSnapshots s.

(** [std::min_element] with the comparison of [minSnapshot]: an element no
    newer than the effective height always replaces the candidate. *)
Definition snapshot_less (effectiveHeight : Z) (l r : BalanceSnapshot) : bool :=
  (BalanceHeight l <=? effectiveHeight) || (Amount l <? Amount r).

Definition min_element (less : BalanceSnapshot → BalanceSnapshot → bool)
    (x : BalanceSnapshot) (l : list BalanceSnapshot) : BalanceSnapshot :=
  foldl (λ smallest y, if less y smallest then y else smallest) x l.

Definition effective_height (height importanceGrouping : Z) : Z :=
  if importanceGrouping <? height then sub64 height importanceGrouping else 0.

(** Only called on a non-empty list; [None] stands for [end()]. *)
Definition minSnapshot (l : list BalanceSnapshot) (height importanceGrouping : Z) : option BalanceSnapshot :=
  match l with
  | [] => None
  | x :: l => Some (min_element (snapshot_less (effective_height height importanceGrouping)) x l)
  end.

Definition min_amount (l : list BalanceSnapshot) (height importanceGrouping : Z) : Z :=
  default 0 (Amount <$> minSnapshot l height importanceGrouping).

Definition getEffectiveBalance s (height importanceGrouping : Z) : Z :=
  match m_localSnapshots s, m_remoteSnapshots s with
  | [], [] => default 0 (store_get (m_balances s) (m_trackedMosaicId s))
  | local, [] => min_amount local height importanceGrouping
  | [], remote => min_amount remote height importanceGrouping
  | local, remote => Z.min (min_amount local height importanceGrouping)
                           (min_amount remote height importanceGrouping)
  end.

(** * Snapshots *)

(** [while (!l.empty() && p(l.front())) l.pop_front()]. *)
Fixpoint pop_front_while (p : BalanceSnapshot → bool) (l : list BalanceSnapshot) : list BalanceSnapshot :=
  match l with
  | [] => []
  | x :: l' => if p x then pop_front_while p l' else l
  end.

(** [while (!l.empty() && p(l.back())) l.pop_back()]. *)
Definition pop_back_while (p : BalanceSnapshot → bool) (l : list BalanceSnapshot) : list BalanceSnapshot :=
  reverse (pop_front_while p (reverse l)).

Definition pushSnapshot (snapshot : BalanceSnapshot) (committed : bool) : Exec (AccountBalances T) unit :=
  account ← gets m_accountState;
  match account with
  | None => throw runtime_error
  | Some addressHeight =>
      if add64 (BalanceHeight snapshot) 1 <? addressHeight then throw runtime_error
      else if committed
      then modify (λ s, set_snapshots (m_localSnapshots s ++ [snapshot]) (m_remoteSnapshots s) s)
      else modify (λ s, set_snapshots (m_localSnapshots s) (m_remoteSnapshots s ++ [snapshot]) s)
  end.

Definition addSnapshot (snapshot : BalanceSnapshot) : Exec (AccountBalances T) unit :=
  pushSnapshot snapshot true.

Definition maybePushSnapshot (mosaicId amount height : Z) : Exec (AccountBalances T) unit :=
  tracked ← gets m_trackedMosaicId;
  if negb (mosaicId =? tracked) || (height =? 0) || (height =? max64) then mret tt
  else
    remote ← gets m_remoteSnapshots;
    match last remote with
    | None => pushSnapshot (Snapshot amount height) false
    | Some back =>
        if height <=? BalanceHeight back
        then modify (λ s, set_snapshots (m_localSnapshots s)
                       (pop_back_while (λ x, height <=? BalanceHeight x) (m_remoteSnapshots s)) s) ≫= λ _,
             pushSnapshot (Snapshot amount height) false
        else if BalanceHeight back <? height
        then pushSnapshot (Snapshot amount height) false
        else mret tt
    end.

Definition commitSnapshots : Exec (AccountBalances T) unit :=
  modify (λ s,
    match m_remoteSnapshots s with
    | [] => s
    | front :: _ =>
        let local := pop_back_while (λ x, BalanceHeight front <=? BalanceHeight x) (m_localSnapshots s) in
        let remote :=
          match last local with
          | None => m_remoteSnapshots s
          | Some back => pop_front_while (λ x, Amount back =? Amount x) (m_remoteSnapshots s)
          end in
        set_snapshots (local ++ remote) [] s
    end).

Definition cleanUpSnaphots : Exec (AccountBalances T) unit := modify (set_snapshots [] []).

(** [importanceGrouping] and [maxRollbackBlocks] come from the network
    configuration. *)
Definition maybeCleanUpSnapshots (height importanceGrouping maxRollbackBlocks : Z)
    : Exec (AccountBalances T) unit :=
  let unstableHeight := add64 importanceGrouping maxRollbackBlocks in
  if height <=? unstableHeight then mret tt
  else
    let stableHeight := sub64 height unstableHeight in
    modify (λ s, set_snapshots
      (pop_front_while (λ x, BalanceHeight x <=? stableHeight) (m_localSnapshots s))
      (m_remoteSnapshots s) s).

(** * Credit and debit *)

Definition insert_balance (mosaicId amount : Z) : Exec (AccountBalances T) unit :=
  lift_member m_balances set_balances (store_insert (mosaicId, amount)).

Definition has_no_snapshots s : bool :=
  match m_remoteSnapshots s, m_localSnapshots s with [], [] => true | _, _ => false end.

Definition internalCredit (mosaicId amount height : Z) : Exec (AccountBalances T) unit :=
  if amount =? 0 then mret tt
  else
    iter ← gets (λ s, store_get (m_balances s) mosaicId);
    untracked ← gets has_no_snapshots;
    match iter with
    | None =>
        when untracked (maybePushSnapshot mosaicId 0 (sub64 height 1)) ≫= λ _,
        insert_balance mosaicId amount ≫= λ _,
        maybePushSnapshot mosaicId amount height
    | Some balance =>
        when untracked (maybePushSnapshot mosaicId balance (sub64 height 1)) ≫= λ _,
        modify (λ s, set_balances (store_assign mosaicId (add64 balance amount) (m_balances s)) s) ≫= λ _,
        maybePushSnapshot mosaicId (add64 balance amount) height
    end.

Definition internalDebit (mosaicId amount height : Z) : Exec (AccountBalances T) unit :=
  if amount =? 0 then mret tt
  else
    iter ← gets (λ s, store_get (m_balances s) mosaicId);
    match iter with
    | None => throw runtime_error
    | Some balance =>
        if balance <? amount then throw runtime_error
        else
          modify (λ s, set_balances (store_assign mosaicId (sub64 balance amount) (m_balances s)) s) ≫= λ _,
          maybePushSnapshot mosaicId (sub64 balance amount) height ≫= λ _,
          if sub64 balance amount =? 0
          then modify (λ s, set_balances (store_erase mosaicId (m_balances s)) s)
          else mret tt
    end.

(** The overloads without a height. *)
Definition credit_untracked (mosaicId amount : Z) : Exec (AccountBalances T) unit :=
  internalCredit mosaicId amount 0.
Definition debit_untracked (mosaicId amount : Z) : Exec (AccountBalances T) unit :=
  internalDebit mosaicId amount 0.

Definition credit (mosaicId amount height : Z) : Exec (AccountBalances T) unit :=
  if height =? 0 then throw runtime_error else internalCredit mosaicId amount height.
Definition debit (mosaicId amount height : Z) : Exec (AccountBalances T) unit :=
  if height =? 0 then throw runtime_error else internalDebit mosaicId amount height.

(** * Configuration and copies *)

Definition optimize (id : Z) : Exec (AccountBalances T) unit :=
  lift_member m_balances set_balances (store_optimize id) ≫= λ _,
  modify (λ s, set_ids (m_accountState s) id (m_trackedMosaicId s) s).

Definition track (id : Z) : Exec (AccountBalances T) unit :=
  tracked ← gets m_trackedMosaicId;
  untracked ← gets has_no_snapshots;
  if negb (tracked =? id) && negb untracked then throw runtime_error
  else modify (λ s, set_ids (m_accountState s) (m_optimizedMosaicId s) id s).

(** Copy assignment from [source]. *)
Definition assign_copy (source : AccountBalances T) : Exec (AccountBalances T) unit :=
  modify (λ s, set_ids (m_accountState s) (m_optimizedMosaicId source) (m_trackedMosaicId source) s) ≫= λ _,
  lift_member m_balances set_balances (store_optimize (m_optimizedMosaicId source)) ≫= λ _,
  modify (λ s, set_ids (match m_accountState s with None => m_accountState source | a => a end)
                 (m_optimizedMosaicId s) (m_trackedMosaicId s) s) ≫= λ _,
  for_each (λ p, insert_balance (fst p) (snd p)) (store_list (m_balances source)) ≫= λ _,
  for_each (λ x, pushSnapshot x true) (m_localSnapshots source) ≫= λ _,
  for_each (λ x, pushSnapshot x false) (m_remoteSnapshots source).

(** The copy constructor assigns to a default-initialized object. *)
Definition copy (source : AccountBalances T) : AccountBalances T * result unit :=
  assign_copy source (new_AccountBalances None).

End definitions.

(** * Specifications *)

Section theorems.
Context {T : Type} `{MosaicStoreLaws T}.
Implicit Types s : AccountBalances T.

Definition balance_map s : gmap Z Z := store_map (m_balances s).

(** Snapshot heights are strictly increasing. *)
Definition sorted (l : list BalanceSnapshot) : Prop := StronglySorted Z.lt (BalanceHeight <$> l).

(** The type invariant: a well-formed store of 64-bit amounts. *)
Record wf s : Prop := {
  wf_store : store_wf (m_balances s);
  wf_range : ∀ id v, balance_map s !! id = Some v → in_range 64 v;
  wf_remote : sorted (m_remoteSnapshots s);
  wf_local : sorted (m_localSnapshots s)
}.

(** Everything but balances and pending snapshots is unchanged. *)
Definition same_frame s s' : Prop :=
  m_localSnapshots s' = m_localSnapshots s ∧ m_accountState s' = m_accountState s
  ∧ m_optimizedMosaicId s' = m_optimizedMosaicId s ∧ m_trackedMosaicId s' = m_trackedMosaicId s.

Lemma get_map s id : store_wf (m_balances s) → get s id = default 0 (balance_map s !! id).
Proof. intros. unfold get. by rewrite store_get_spec. Qed.

Lemma get_range s id : wf s → in_range 64 (get s id).
Proof.
  intros Hwf. rewrite get_map by apply Hwf. destruct (balance_map s !! id) eqn:E; simpl.
  - by eapply wf_range. - done.
Qed.

(** ** Lists of snapshots *)

Lemma pop_front_while_sorted h l :
  sorted l → pop_front_while (λ x, BalanceHeight x <=? h) l = filter (λ x, h < BalanceHeight x) l.
Proof.
  unfold sorted. induction l as [|x l IH]; [done|]. cbn [fmap list_fmap].
  intros [Hs Hx]%StronglySorted_inv. simpl. rewrite filter_cons.
  destruct (Z.leb_spec (BalanceHeight x) h).
  - rewrite decide_False by lia. by apply IH.
  - rewrite decide_True by lia. f_equal. symmetry. clear IH Hs.
    induction l as [|y l IH]; [done|]. cbn [fmap list_fmap] in Hx. apply Forall_cons in Hx as [Hy Hx].
    rewrite filter_cons, decide_True by lia. f_equal. by apply IH.
Qed.

Lemma sorted_app l1 l2 :
  sorted (l1 ++ l2) ↔
  sorted l1 ∧ sorted l2 ∧ ∀ x y, x ∈ l1 → y ∈ l2 → BalanceHeight x < BalanceHeight y.
Proof.
  unfold sorted. rewrite fmap_app. split.
  - intros Hs. split; [by eapply StronglySorted_app_1_l|]. split; [by eapply StronglySorted_app_1_r|].
    intros x y Hx Hy. eapply (StronglySorted_app_1_elem_of Z.lt); [exact Hs|..];
      by apply list_elem_of_fmap_2.
  - intros (H1 & H2 & Hlt). apply StronglySorted_app_2; [|done|done].
    intros a b (x & -> & Hx)%list_elem_of_fmap (y & -> & Hy)%list_elem_of_fmap. by apply Hlt.
Qed.

Lemma pop_back_while_sorted h l :
  sorted l → pop_back_while (λ x, h <=? BalanceHeight x) l = filter (λ x, BalanceHeight x < h) l.
Proof.
  unfold pop_back_while. induction l as [|x l IH] using rev_ind; [done|].
  intros (Hl & _ & Hlt)%sorted_app. rewrite reverse_snoc, filter_app. simpl. rewrite filter_cons, filter_nil.
  destruct (Z.leb_spec h (BalanceHeight x)).
  - rewrite decide_False by lia. rewrite app_nil_r. by apply IH.
  - rewrite decide_True by lia. rewrite reverse_cons, reverse_involutive. f_equal.
    symmetry. clear IH Hl. induction l as [|y l IH]; [done|].
    rewrite filter_cons, decide_True by (specialize (Hlt y x); set_solver by lia). f_equal.
    apply IH. intros a b Ha Hb. apply Hlt; set_solver.
Qed.

Lemma sorted_filter (P : BalanceSnapshot → Prop) `{∀ x, Decision (P x)} l : sorted l → sorted (filter P l).
Proof.
  unfold sorted. induction l as [|x l IH]; [done|]. cbn [fmap list_fmap].
  intros [Hs Hx]%StronglySorted_inv. rewrite filter_cons. case_decide; [|by apply IH].
  cbn [fmap list_fmap]. constructor; [by apply IH|]. rewrite Forall_forall in *.
  intros y (z & -> & [_ Hz]%list_elem_of_filter)%list_elem_of_fmap. apply Hx. by apply list_elem_of_fmap_2.
Qed.

Lemma sorted_snoc l x : sorted l → (∀ y, y ∈ l → BalanceHeight y < BalanceHeight x) → sorted (l ++ [x]).
Proof.
  intros Hl Hx. apply sorted_app. split; [done|]. split; [repeat constructor|].
  intros y z Hy ->%list_elem_of_singleton. by apply Hx.
Qed.

(** ** Pending snapshots *)

(** Whether a change of [mosaicId] at [height] is recorded. *)
Definition recorded s (mosaicId height : Z) : bool :=
  (mosaicId =? m_trackedMosaicId s) && negb (height =? 0) && negb (height =? max64).

(** The pending snapshots after a recorded change. *)
Definition push_remote s (mosaicId amount height : Z) : list BalanceSnapshot :=
  if recorded s mosaicId height
  then filter (λ x, BalanceHeight x < height) (m_remoteSnapshots s) ++ [Snapshot amount height]
  else m_remoteSnapshots s.

(** The owning account exists and is not younger than the change. *)
Definition attached s (height : Z) : Prop := ∃ ah, m_accountState s = Some ah ∧ ah ≤ height.

Lemma pop_back_while_last x h l :
  last l = Some x → BalanceHeight x < h → pop_back_while (λ y, h <=? BalanceHeight y) l = l.
Proof.
  intros [l' ->]%last_Some Hx. unfold pop_back_while. rewrite reverse_snoc. simpl.
  destruct (Z.leb_spec h (BalanceHeight x)); [lia|]. by rewrite <-reverse_snoc, reverse_involutive.
Qed.

Lemma maybePushSnapshot_spec s id a h :
  sorted (m_remoteSnapshots s) → in_range 64 h → (recorded s id h = true → attached s (h + 1)) →
  maybePushSnapshot id a h s = (set_snapshots (m_localSnapshots s) (push_remote s id a h) s, Ok tt).
Proof.
  intros Hs Hh. unfold maybePushSnapshot, push_remote, recorded. exec_unfold.
  destruct (Z.eqb_spec id (m_trackedMosaicId s)); simpl; [|by destruct s].
  destruct (Z.eqb_spec h 0); simpl; [by destruct s|].
  destruct (Z.eqb_spec h max64); simpl; [by destruct s|]. intros (ah & Hacc & Hah); [done|].
  assert (Hadd : add64 h 1 = h + 1) by (apply add64_small; unfold in_range, max64 in *; lia).
  assert (Hpush : ∀ s', m_accountState s' = Some ah →
    pushSnapshot (Snapshot a h) false s'
    = (set_snapshots (m_localSnapshots s') (m_remoteSnapshots s' ++ [Snapshot a h]) s', Ok tt)).
  { intros s' Hs'. unfold pushSnapshot. exec_unfold. rewrite Hs', Hadd.
    destruct (Z.ltb_spec (h + 1) ah); [lia|done]. }
  destruct (last (m_remoteSnapshots s)) as [b|] eqn:Hlast.
  - destruct (Z.leb_spec h (BalanceHeight b)).
    + rewrite Hpush by done. simpl. by rewrite pop_back_while_sorted.
    + destruct (Z.ltb_spec (BalanceHeight b) h); [|lia]. rewrite Hpush by done.
      by rewrite <-pop_back_while_sorted, (pop_back_while_last b) by (done || lia).
  - rewrite Hpush by done. apply last_None in Hlast. by rewrite Hlast.
Qed.

Lemma push_remote_sorted s id a h :
  sorted (m_remoteSnapshots s) → sorted (push_remote s id a h).
Proof.
  intros Hs. unfold push_remote. destruct (recorded s id h); [|done].
  apply sorted_snoc; [by apply sorted_filter|]. by intros y [? _]%list_elem_of_filter.
Qed.

(** The height just below a change is recorded under the same account. *)
Lemma attached_below s id h :
  in_range 64 h → (h ≠ 0 → attached s h) →
  recorded s id (sub64 h 1) = true → attached s (sub64 h 1 + 1).
Proof.
  unfold recorded. intros Hh Hatt Hrec. destruct (decide (h = 0)) as [->|Hne].
  - change (sub64 0 1) with max64 in Hrec. by destruct (_ =? _).
  - rewrite sub64_small by (unfold in_range in *; lia). replace (h - 1 + 1) with h by lia. auto.
Qed.

Lemma attached_at s id h :
  (h ≠ 0 → attached s h) → recorded s id h = true → attached s (h + 1).
Proof.
  unfold recorded. intros Hatt Hrec. destruct (Z.eqb_spec h 0); [by destruct (_ =? _)|].
  destruct Hatt as (ah & ? & ?); [done|]. exists ah. split; [done|lia].
Qed.

(** The baseline snapshot the first credit leaves behind. *)
Lemma baseline_spec s id v h :
  wf s → in_range 64 h → (h ≠ 0 → attached s h) →
  ∃ r, when (has_no_snapshots s) (maybePushSnapshot id v (sub64 h 1)) s
       = (set_snapshots (m_localSnapshots s) r s, Ok tt) ∧ sorted r.
Proof.
  intros Hwf Hh Hatt. destruct (has_no_snapshots s); simpl.
  - eexists. rewrite maybePushSnapshot_spec; [|apply Hwf|apply sub64_range|by apply attached_below].
    split; [done|]. apply push_remote_sorted, Hwf.
  - exists (m_remoteSnapshots s). split; [by destruct s|]. apply Hwf.
Qed.

Lemma wf_update s s' id v :
  wf s → in_range 64 v → store_wf (m_balances s') → balance_map s' = <[id := v]> (balance_map s) →
  sorted (m_remoteSnapshots s') → m_localSnapshots s' = m_localSnapshots s → wf s'.
Proof.
  intros Hwf Hv Hst Hmap Hr Hl. constructor; [done| |done|rewrite Hl; apply Hwf].
  intros k w. rewrite Hmap, lookup_insert. case_decide; intros; simplify_eq; [done|]. by eapply wf_range.
Qed.

Lemma internalCredit_spec s id amount h :
  wf s → in_range 64 amount → id ≠ 0 → in_range 64 h → (h ≠ 0 → attached s h) → amount ≠ 0 →
  ∃ s', internalCredit id amount h s = (s', Ok tt) ∧ wf s' ∧ same_frame s s'
    ∧ balance_map s' = <[id := add64 (get s id) amount]> (balance_map s).
Proof.
  intros Hwf Ha Hid Hh Hatt Hnz. unfold internalCredit, gets.
  destruct (Z.eqb_spec amount 0); [done|]. unfold mbind, exec_bind.
  rewrite store_get_spec by apply Hwf. rewrite get_map by apply Hwf. unfold balance_map.
  destruct (store_map (m_balances s) !! id) as [v|] eqn:Hv; simpl.
  - destruct (baseline_spec s id v h Hwf Hh Hatt) as (r & -> & Hr). unfold modify.
    set (s1 := set_balances _ _).
    rewrite maybePushSnapshot_spec; [|done|done|by apply (attached_at s1)].
    destruct (store_assign_spec (m_balances s) id v (add64 v amount)) as (Hst & Hmap & _); [apply Hwf|done|].
    eexists. split; [done|]. split; [|done].
    apply (wf_update s _ id (add64 v amount)); [done|apply add64_range|done|done|by apply push_remote_sorted|done].
  - destruct (baseline_spec s id 0 h Hwf Hh Hatt) as (r & -> & Hr).
    pose proof (store_insert_spec (m_balances s) id amount (wf_store _ Hwf)) as Hins.
    rewrite decide_True in Hins by (split; done). destruct Hins as (b & Hins & Hst & Hmap & _).
    unfold insert_balance, lift_member. simpl. rewrite Hins.
    set (s1 := set_balances _ _).
    rewrite maybePushSnapshot_spec; [|done|done|by apply (attached_at s1)].
    assert (Hadd : add64 0 amount = amount) by (by apply add64_small).
    eexists. split; [done|]. rewrite Hadd. split; [|done].
    apply (wf_update s _ id amount); [done|done|done|done|by apply push_remote_sorted|done].
Qed.

(** The balances after subtracting [amount] from the balance of [id]. *)
Definition debited (m : gmap Z Z) (id amount : Z) : gmap Z Z :=
  let v := default 0 (m !! id) in
  if decide (v = amount) then delete id m else <[id := v - amount]> m.

Lemma wf_delete s s' id :
  wf s → store_wf (m_balances s') → balance_map s' = delete id (balance_map s) →
  sorted (m_remoteSnapshots s') → m_localSnapshots s' = m_localSnapshots s → wf s'.
Proof.
  intros Hwf Hst Hmap Hr Hl. constructor; [done| |done|rewrite Hl; apply Hwf].
  intros k w. rewrite Hmap, lookup_delete. case_decide; intros; simplify_eq. by eapply wf_range.
Qed.

Lemma internalDebit_throws s id amount h :
  wf s → in_range 64 amount → get s id < amount →
  internalDebit id amount h s = (s, Throw runtime_error).
Proof.
  intros Hwf Ha Hlt. pose proof (get_range s id Hwf) as Hg.
  unfold internalDebit, gets. destruct (Z.eqb_spec amount 0); [unfold in_range in *; lia|].
  unfold mbind, exec_bind. rewrite get_map in Hlt by apply Hwf. rewrite store_get_spec by apply Hwf.
  unfold balance_map in *. destruct (store_map (m_balances s) !! id) as [v|]; simpl in *; [|done].
  destruct (Z.ltb_spec v amount); [done|lia].
Qed.

Lemma internalDebit_spec s id amount h :
  wf s → in_range 64 amount → in_range 64 h → (h ≠ 0 → attached s h) →
  amount ≠ 0 → amount ≤ get s id →
  ∃ s', internalDebit id amount h s = (s', Ok tt) ∧ wf s' ∧ same_frame s s'
    ∧ balance_map s' = debited (balance_map s) id amount.
Proof.
  intros Hwf Ha Hh Hatt Hnz Hle. unfold internalDebit, gets, debited.
  destruct (Z.eqb_spec amount 0); [done|]. unfold mbind, exec_bind.
  rewrite store_get_spec by apply Hwf. rewrite get_map in Hle by apply Hwf.
  pose proof (wf_range _ Hwf id) as Hrange. unfold balance_map in *.
  destruct (store_map (m_balances s) !! id) as [v|] eqn:Hv; simpl in *;
    [|unfold in_range in *; lia].
  specialize (Hrange v eq_refl). destruct (Z.ltb_spec v amount); [lia|].
  assert (Hsub : sub64 v amount = v - amount) by (by apply sub64_small). rewrite Hsub.
  destruct (store_assign_spec (m_balances s) id v (v - amount)) as (Hst & Hmap & _); [apply Hwf|done|].
  unfold modify. set (s1 := set_balances _ _).
  rewrite maybePushSnapshot_spec; [|apply Hwf|done|by apply (attached_at s1)].
  assert (Hr : sorted (push_remote s1 id (v - amount) h)) by (apply push_remote_sorted, Hwf).
  destruct (Z.eqb_spec (v - amount) 0), (decide (v = amount)); try lia.
  - destruct (store_erase_spec _ id Hst) as (Hst' & Hmap' & _).
    eexists. split; [done|]. simpl. rewrite Hmap', Hmap, delete_insert_eq. split; [|done].
    eapply (wf_delete s _ id); [done|done| |done|done]. simpl. unfold balance_map. simpl.
    by rewrite Hmap', Hmap, delete_insert_eq.
  - eexists. split; [done|]. split; [|done].
    eapply (wf_update s _ id (v - amount)); [done| |done|done|done|done]. unfold in_range in *. lia.
Qed.

(** A credit at a valid height always succeeds, adds the amount (modulo
    2^64) to the credited mosaic and to nothing else, keeps the type
    invariant, and touches neither committed snapshots nor configuration. *)
Theorem credit_effect s id amount h :
  wf s → in_range 64 amount → id ≠ 0 → in_range 64 h → h ≠ 0 → attached s h →
  ∃ s', credit id amount h s = (s', Ok tt) ∧ wf s' ∧ same_frame s s'
    ∧ ∀ k, get s' k = if decide (k = id) then add64 (get s id) amount else get s k.
Proof.
  intros Hwf Ha Hid Hh Hh0 Hatt. unfold credit. destruct (Z.eqb_spec h 0); [done|].
  destruct (decide (amount = 0)) as [->|Hnz].
  { exists s. split; [done|]. split; [done|]. split; [done|]. intros k. case_decide; [|done]. subst.
    pose proof (get_range s id Hwf). rewrite add64_small; rewrite Z.add_0_r; done. }
  destruct (internalCredit_spec s id amount h) as (s' & Hs' & Hwf' & Hf & Hmap); try done.
  exists s'. split; [done|]. split; [done|]. split; [done|]. intros k.
  rewrite !(get_map s) by apply Hwf. rewrite get_map by apply Hwf'. rewrite Hmap, lookup_insert.
  rewrite get_map by apply Hwf. repeat case_decide; simplify_eq; done.
Qed.

(** A debit succeeds exactly when the balance covers the amount; it then
    subtracts the amount from that mosaic only, and otherwise throws a
    runtime error without changing anything. *)
Theorem debit_effect s id amount h :
  wf s → in_range 64 amount → in_range 64 h → h ≠ 0 → attached s h →
  if decide (amount ≤ get s id)
  then ∃ s', debit id amount h s = (s', Ok tt) ∧ wf s' ∧ same_frame s s'
         ∧ ∀ k, get s' k = if decide (k = id) then get s id - amount else get s k
  else debit id amount h s = (s, Throw runtime_error).
Proof.
  intros Hwf Ha Hh Hh0 Hatt. unfold debit. destruct (Z.eqb_spec h 0); [done|].
  case_decide as Hle; [|by apply internalDebit_throws; [..|lia]].
  destruct (decide (amount = 0)) as [->|Hnz].
  { exists s. split; [done|]. split; [done|]. split; [done|]. intros k. case_decide; subst; lia. }
  destruct (internalDebit_spec s id amount h) as (s' & Hs' & Hwf' & Hf & Hmap); try done.
  exists s'. split; [done|]. split; [done|]. split; [done|]. intros k.
  rewrite !(get_map s) in * by apply Hwf. rewrite get_map by apply Hwf'. rewrite Hmap. unfold debited.
  destruct (decide (default 0 (balance_map s !! id) = amount)).
  - rewrite lookup_delete. repeat case_decide; simplify_eq/=; try done. lia.
  - rewrite lookup_insert. repeat case_decide; simplify_eq/=; done.
Qed.

(** No stored balance is zero. *)
Definition positive s : Prop := ∀ id v, balance_map s !! id = Some v → 0 < v.

(** Crediting and then debiting the same amount at the same height gives
    back the very same mosaic map, entries removed at zero included, as long
    as the sum fits in 64 bits: the observers' rollback undoes their commit. *)
Theorem credit_debit_roundtrip s id amount h :
  wf s → positive s → in_range 64 amount → id ≠ 0 → in_range 64 h → h ≠ 0 → attached s h →
  in_range 64 (get s id + amount) →
  ∃ s', (credit id amount h ≫= λ _, debit id amount h) s = (s', Ok tt)
    ∧ balance_map s' = balance_map s.
Proof.
  intros Hwf Hpos Ha Hid Hh Hh0 Hatt Hsum. unfold credit, debit, mbind, exec_bind.
  destruct (Z.eqb_spec h 0); [done|]. destruct (decide (amount = 0)) as [->|Hnz]; [by exists s|].
  destruct (internalCredit_spec s id amount h) as (s1 & -> & Hwf1 & (Hf1 & Hf2 & _) & Hmap1); try done.
  assert (Hget : get s1 id = get s id + amount).
  { rewrite get_map by apply Hwf1. rewrite Hmap1, lookup_insert_eq. simpl. by apply add64_small. }
  pose proof (get_range s id Hwf) as Hr.
  destruct (internalDebit_spec s1 id amount h) as (s2 & -> & Hwf2 & _ & Hmap2); try done.
  { intros _. destruct Hatt as (ah & ? & ?). exists ah. by rewrite Hf2. }
  { unfold in_range in *. lia. }
  exists s2. split; [done|]. rewrite Hmap2. unfold debited. rewrite Hmap1, lookup_insert_eq. simpl.
  rewrite add64_small by done. rewrite get_map in * by apply Hwf.
  destruct (balance_map s !! id) as [v|] eqn:Hv; simpl in *.
  - specialize (Hpos id v Hv). rewrite decide_False by lia. rewrite insert_insert_eq.
    replace (v + amount - amount) with v by lia. by apply insert_id.
  - rewrite decide_True by lia. by rewrite delete_insert_id.
Qed.

(** ** Effective balance *)

(** The recorded balance in force at height [h]. *)
Definition balance_at (l : list BalanceSnapshot) (h : Z) : option Z :=
  Amount <$> last (filter (λ x, BalanceHeight x ≤ h) l).

(** A sorted list splits at a height. *)
Lemma sorted_split l b :
  sorted l → ∃ old new, l = old ++ new ∧ (∀ x, x ∈ old → BalanceHeight x ≤ b)
    ∧ (∀ x, x ∈ new → b < BalanceHeight x) ∧ sorted new.
Proof.
  induction l as [|x l IH]; intros Hs; [exists [], []; set_solver|].
  pose proof Hs as (_ & Hs' & Hx)%(sorted_app [x] l).
  destruct (decide (BalanceHeight x ≤ b)).
  - destruct (IH Hs') as (old & new & -> & Ho & Hn & Hsn). exists (x :: old), new.
    split; [done|]. split; [|done]. intros y [->|Hy]%elem_of_cons; [done|]. by apply Ho.
  - exists [], (x :: l). split; [done|]. split; [set_solver|]. split; [|done].
    intros y [->|Hy]%elem_of_cons; [lia|]. pose proof (Hx x y ltac:(set_solver) Hy). lia.
Qed.

Lemma min_element_old eff x (l : list BalanceSnapshot) :
  (∀ y, y ∈ l → BalanceHeight y ≤ eff) → min_element (snapshot_less eff) x l = default x (last l).
Proof.
  unfold min_element. revert x. induction l as [|y l IH]; intros x Hl; [done|]. simpl.
  unfold snapshot_less at 2. destruct (Z.leb_spec (BalanceHeight y) eff); [|pose proof (Hl y ltac:(set_solver)); lia].
  simpl. rewrite IH by (intros; apply Hl; set_solver). rewrite last_cons. by destruct (last l).
Qed.

Lemma min_element_new eff x (l : list BalanceSnapshot) :
  (∀ y, y ∈ l → eff < BalanceHeight y) →
  min_element (snapshot_less eff) x l ∈ x :: l
  ∧ ∀ y, y ∈ x :: l → Amount (min_element (snapshot_less eff) x l) ≤ Amount y.
Proof.
  unfold min_element. revert x. induction l as [|y l IH]; intros x Hl; simpl.
  { split; [set_solver|]. intros y ->%list_elem_of_singleton. lia. }
  assert (Hl' : ∀ z, z ∈ l → eff < BalanceHeight z) by (intros; apply Hl; set_solver).
  unfold snapshot_less at 2 4. destruct (Z.leb_spec (BalanceHeight y) eff); [pose proof (Hl y ltac:(set_solver)); lia|].
  simpl. destruct (Z.ltb_spec (Amount y) (Amount x)).
  - destruct (IH y Hl') as [Hin Hle]. split; [set_solver|]. intros z [->|Hz]%elem_of_cons; [|by apply Hle].
    pose proof (Hle y ltac:(set_solver)). lia.
  - destruct (IH x Hl') as [Hin Hle]. split; [set_solver|].
    intros z [->|[->|Hz]%elem_of_cons]%elem_of_cons; [apply Hle; set_solver| |apply Hle; set_solver].
    pose proof (Hle x ltac:(set_solver)). lia.
Qed.

Lemma balance_at_member l (x : BalanceSnapshot) : sorted l → x ∈ l → balance_at l (BalanceHeight x) = Some (Amount x).
Proof.
  intros Hs (l1 & l2 & ->)%list_elem_of_split. apply sorted_app in Hs as (_ & Hs2 & H1).
  pose proof Hs2 as (_ & _ & H2)%(sorted_app [x] l2). unfold balance_at.
  rewrite filter_app, filter_cons, decide_True by lia.
  rewrite (filter_none _ l2), last_snoc; [done|]. intros y Hy. pose proof (H2 x y ltac:(set_solver) Hy). lia.
Qed.

(** The candidates for the minimum: the newest old snapshot and the new ones. *)
Lemma balance_at_candidates (old new : list BalanceSnapshot) eff h a :
  (∀ x, x ∈ old → BalanceHeight x ≤ eff) → eff ≤ h → balance_at (old ++ new) h = Some a →
  ∃ x, (last old = Some x ∨ x ∈ new) ∧ Amount x = a.
Proof.
  intros Ho Hh. unfold balance_at. rewrite filter_app, (filter_all _ old) by (intros x Hx; specialize (Ho x Hx); lia).
  rewrite last_app. destruct (last (filter _ new)) as [x|] eqn:E; simpl; intros Heq; simplify_eq.
  - exists x. split; [|done]. right. apply last_Some_elem_of, list_elem_of_filter in E. by destruct E.
  - destruct (last old) as [x|]; simplify_eq/=. exists x. auto.
Qed.

(** Only the newest of the old snapshots matters. *)
Lemma min_amount_old old new o height ig :
  (∀ x, x ∈ old → BalanceHeight x ≤ effective_height height ig) → last old = Some o →
  min_amount (old ++ new) height ig = Amount (min_element (snapshot_less (effective_height height ig)) o new).
Proof.
  intros Ho Hlast. destruct old as [|x old]; [done|]. unfold min_amount, minSnapshot. simpl.
  unfold min_element. rewrite foldl_app.
  fold (min_element (snapshot_less (effective_height height ig)) x old).
  rewrite min_element_old by (intros; apply Ho; set_solver).
  rewrite last_cons in Hlast. by destruct (last old); simplify_eq/=.
Qed.

Lemma min_amount_spec l height ig :
  sorted l → l ≠ [] →
  let eff := effective_height height ig in
  (∃ h, eff ≤ h ∧ balance_at l h = Some (min_amount l height ig))
  ∧ ∀ h a, eff ≤ h → balance_at l h = Some a → min_amount l height ig ≤ a.
Proof.
  intros Hs Hne eff. destruct (sorted_split l eff Hs) as (old & new & -> & Ho & Hn & Hsn).
  destruct (last old) as [o|] eqn:Hlast.
  - rewrite (min_amount_old _ _ o) by done. fold eff.
    destruct (min_element_new eff o new Hn) as [Hin Hle]. set (m := min_element _ o new) in *. split.
    + apply elem_of_cons in Hin as [Hm|Hin].
      * exists eff. split; [lia|]. unfold balance_at.
        rewrite filter_app, filter_all, (filter_none _ new), app_nil_r, Hlast by
          (intros y Hy; first [specialize (Ho y Hy)|specialize (Hn y Hy)]; lia). simpl. by rewrite Hm.
      * exists (BalanceHeight m). specialize (Hn m Hin). split; [lia|]. apply balance_at_member; [done|set_solver].
    + intros h a Hh (y & [Hy|Hy] & <-)%(balance_at_candidates old new eff); [| |done|done].
      * rewrite Hlast in Hy. simplify_eq. apply Hle. set_solver.
      * apply Hle. set_solver.
  - apply last_None in Hlast as ->. destruct new as [|x new]; [done|].
    unfold min_amount, minSnapshot. simpl. fold eff.
    destruct (min_element_new eff x new) as [Hin Hle]; [intros; apply Hn; set_solver|].
    set (m := min_element _ x new) in *. split.
    + exists (BalanceHeight m). specialize (Hn m Hin). split; [lia|]. by apply balance_at_member.
    + intros h a Hh (y & [Hy|Hy] & <-)%(balance_at_candidates [] _ eff); [done|by apply Hle|set_solver|done].
Qed.

Lemma effective_height_range height ig :
  in_range 64 height → in_range 64 ig → effective_height height ig = Z.max 0 (height - ig).
Proof.
  intros. unfold effective_height. destruct (Z.ltb_spec ig height).
  - rewrite sub64_small by (done || lia). lia.
  - lia.
Qed.

(** With snapshots recorded, the effective balance is the lowest balance
    in force at any height from [height - importanceGrouping] on, according
    to the committed and to the pending snapshots: it is attained, and no
    recorded balance in that window is lower. *)
Theorem effective_balance_is_window_minimum s height ig :
  wf s → in_range 64 height → in_range 64 ig →
  ¬ (m_localSnapshots s = [] ∧ m_remoteSnapshots s = []) →
  let eff := Z.max 0 (height - ig) in
  let e := getEffectiveBalance s height ig in
  (∃ l h, (l = m_localSnapshots s ∨ l = m_remoteSnapshots s) ∧ eff ≤ h ∧ balance_at l h = Some e)
  ∧ ∀ l h a, (l = m_localSnapshots s ∨ l = m_remoteSnapshots s) → eff ≤ h →
      balance_at l h = Some a → e ≤ a.
Proof.
  intros Hwf Hh Hig Hne eff e. unfold eff, e. rewrite <-effective_height_range by done. clear eff e.
  unfold getEffectiveBalance.
  pose proof (min_amount_spec _ height ig (wf_local _ Hwf)) as Hl.
  pose proof (min_amount_spec _ height ig (wf_remote _ Hwf)) as Hr.
  destruct (m_localSnapshots s) as [|x l] eqn:El, (m_remoteSnapshots s) as [|y r] eqn:Er; [tauto|..].
  - destruct Hr as [(h & ? & ?) Hle]; [done|]. split; [naive_solver|]. intros l h' a [->| ->]; [done|]. apply Hle.
  - destruct Hl as [(h & ? & ?) Hle]; [done|]. split; [naive_solver|]. intros k h' a [->| ->]; [|done]. apply Hle.
  - destruct Hr as [(hr & ? & ?) Hler]; [done|]. destruct Hl as [(hl & ? & ?) Hlel]; [done|]. split.
    + destruct (Z.min_spec (min_amount (x :: l) height ig) (min_amount (y :: r) height ig)) as [[_ ->]|[_ ->]];
        naive_solver.
    + intros k h' a [->| ->] Hh' Hb; [specialize (Hlel _ _ Hh' Hb)|specialize (Hler _ _ Hh' Hb)]; lia.
Qed.

(** ** Committing *)

Lemma pop_front_while_split p l :
  ∃ l1, l = l1 ++ pop_front_while p l ∧ ∀ x, x ∈ l1 → p x = true.
Proof.
  induction l as [|x l (l1 & Hl & Hp)]; [exists []; set_solver|]. simpl.
  destruct (p x) eqn:E; [|exists []; set_solver]. exists (x :: l1). split; [by rewrite Hl at 1|].
  intros y [->|Hy]%elem_of_cons; auto.
Qed.

Lemma balance_at_app_low l1 l2 h :
  (∀ y, y ∈ l2 → h < BalanceHeight y) → balance_at (l1 ++ l2) h = balance_at l1 h.
Proof.
  intros Hl. unfold balance_at. rewrite filter_app, (filter_none _ l2), app_nil_r; [done|].
  intros y Hy. specialize (Hl y Hy). lia.
Qed.

Lemma balance_at_app l1 l2 h :
  balance_at (l1 ++ l2) h = match balance_at l2 h with Some a => Some a | None => balance_at l1 h end.
Proof.
  unfold balance_at. rewrite filter_app, last_app. by destruct (last (filter _ l2)).
Qed.

Lemma sorted_ge_front f l x : sorted (f :: l) → x ∈ f :: l → BalanceHeight f ≤ BalanceHeight x.
Proof.
  intros (_ & _ & Hlt)%(sorted_app [f] l) [->|Hx]%elem_of_cons; [lia|].
  pose proof (Hlt f x ltac:(set_solver) Hx). lia.
Qed.

(** Dropping a prefix with the preceding amount does not change the history. *)
Lemma balance_at_skip base p l h :
  (∀ x, x ∈ base → BalanceHeight x ≤ h) →
  (∀ x, x ∈ p → ∃ back, last base = Some back ∧ Amount x = Amount back) →
  is_Some (balance_at (p ++ l) h) →
  balance_at (base ++ l) h = balance_at (p ++ l) h.
Proof.
  intros Hb Hp Hsome. rewrite !balance_at_app in *. destruct (balance_at l h) as [a|]; [done|].
  destruct Hsome as [a Ha]. rewrite Ha. unfold balance_at in Ha.
  destruct (last (filter _ p)) as [x|] eqn:E; simplify_eq/=.
  apply last_Some_elem_of, list_elem_of_filter in E as [_ Hx].
  destruct (Hp x Hx) as (back & Hlast & ->). unfold balance_at. rewrite filter_all by auto. by rewrite Hlast.
Qed.

Lemma balance_at_is_Some x l h : x ∈ l → BalanceHeight x ≤ h → is_Some (balance_at l h).
Proof.
  intros Hx Hh. unfold balance_at. apply fmap_is_Some. apply last_is_Some.
  intros Hnil. assert (Hin : x ∈ filter (λ y, BalanceHeight y ≤ h) l) by (by apply list_elem_of_filter).
  rewrite Hnil in Hin. set_solver.
Qed.

(** Committing merges the pending snapshots into the committed ones: the
    pending list becomes empty, the committed one stays strictly increasing,
    and its history is the pending history from the first pending height on
    and the old committed history before it; balances are untouched. *)
Theorem commitSnapshots_history s f r :
  wf s → m_remoteSnapshots s = f :: r →
  let s' := fst (commitSnapshots s) in
  wf s' ∧ m_remoteSnapshots s' = [] ∧ m_balances s' = m_balances s
  ∧ ∀ h, balance_at (m_localSnapshots s') h =
      if decide (h < BalanceHeight f) then balance_at (m_localSnapshots s) h
      else balance_at (m_remoteSnapshots s) h.
Proof.
  intros Hwf Hr. pose proof (wf_local _ Hwf) as Hl. pose proof (wf_remote _ Hwf) as Hrem.
  unfold commitSnapshots, modify. simpl. rewrite Hr in *.
  rewrite pop_back_while_sorted by done.
  set (base := filter (λ x, BalanceHeight x < BalanceHeight f) (m_localSnapshots s)).
  assert (Hbase : ∀ x, x ∈ base → BalanceHeight x < BalanceHeight f) by (by intros x [? _]%list_elem_of_filter).
  set (rest := match last base with None => _ | Some _ => _ end).
  assert (Hrest : ∃ p, f :: r = p ++ rest
    ∧ ∀ x, x ∈ p → ∃ back, last base = Some back ∧ Amount x = Amount back).
  { unfold rest. destruct (last base) as [back|]; [|exists []; set_solver].
    destruct (pop_front_while_split (λ x, Amount back =? Amount x) (f :: r)) as (p & Hp & Ha).
    exists p. split; [done|]. intros x Hx. exists back. split; [done|]. specialize (Ha x Hx). zbool. done. }
  destruct Hrest as (p & Hp & Hpa).
  assert (Hsr : sorted rest) by (rewrite Hp in Hrem; by apply sorted_app in Hrem as (_ & ? & _)).
  assert (Hge : ∀ x, x ∈ f :: r → BalanceHeight f ≤ BalanceHeight x) by (intros; by eapply sorted_ge_front).
  assert (Hsorted : sorted (base ++ rest)).
  { apply sorted_app. split; [by apply sorted_filter|]. split; [done|]. intros x y Hx Hy.
    specialize (Hbase x Hx). pose proof (Hge y ltac:(rewrite Hp; set_solver)). lia. }
  split; [|split; [done|split; [done|]]].
  { constructor; [apply Hwf|apply (wf_range _ Hwf)|constructor|done]. }
  intros h. simpl. case_decide as Hh.
  - rewrite balance_at_app_low.
    + unfold balance_at, base. rewrite list_filter_filter. do 2 f_equal. apply list_filter_iff. lia.
    + intros y Hy. pose proof (Hge y ltac:(rewrite Hp; set_solver)). lia.
  - rewrite Hp. apply balance_at_skip; [|done|].
    + intros x Hx. specialize (Hbase x Hx). lia.
    + rewrite <-Hp. apply (balance_at_is_Some f); [set_solver|lia].
Qed.

(** ** Clean-up *)

Lemma maybeCleanUp_spec s height ig mr :
  wf s → in_range 64 height → in_range 64 (ig + mr) → ig + mr < height →
  maybeCleanUpSnapshots height ig mr s =
    (set_snapshots (filter (λ x, height - (ig + mr) < BalanceHeight x) (m_localSnapshots s))
       (m_remoteSnapshots s) s, Ok tt).
Proof.
  intros Hwf Hh Hsum Hlt. unfold maybeCleanUpSnapshots. rewrite add64_small by done.
  destruct (Z.leb_spec height (ig + mr)); [lia|]. rewrite sub64_small by (done || lia).
  unfold modify. by rewrite pop_front_while_sorted by apply Hwf.
Qed.

(** Clean-up leaves the effective balance alone whenever a snapshot
    survives it that is old enough to be in force at the start of the
    importance window. *)
Theorem cleanup_keeps_effective_balance s height ig mr x :
  wf s → in_range 64 height → 0 ≤ ig → 0 ≤ mr → in_range 64 (ig + mr) → ig + mr < height →
  m_remoteSnapshots s = [] → x ∈ m_localSnapshots s →
  height - (ig + mr) < BalanceHeight x ≤ height - ig →
  getEffectiveBalance (fst (maybeCleanUpSnapshots height ig mr s)) height ig = getEffectiveBalance s height ig.
Proof.
  intros Hwf Hh Hig Hmr Hsum Hlt Hr Hx Hxh. rewrite maybeCleanUp_spec by done. simpl.
  assert (Heff : effective_height height ig = height - ig).
  { rewrite effective_height_range by (unfold in_range in *; lia). lia. }
  destruct (sorted_split (m_localSnapshots s) (height - ig) (wf_local _ Hwf)) as (old & new & Hl & Ho & Hn & _).
  assert (Hxo : x ∈ old).
  { rewrite Hl in Hx. apply elem_of_app in Hx as [?|Hxn]; [done|]. specialize (Hn x Hxn). lia. }
  destruct (last old) as [o|] eqn:Hlast; [|apply last_None in Hlast; set_solver].
  pose proof Hlast as [old' Hold]%last_Some.
  assert (Hso : sorted old).
  { pose proof (wf_local _ Hwf) as Hs. rewrite Hl in Hs. by apply sorted_app in Hs as (? & _ & _). }
  assert (Hoh : BalanceHeight x ≤ BalanceHeight o).
  { rewrite Hold in Hso, Hxo. apply sorted_app in Hso as (_ & _ & Hlt'). apply elem_of_app in Hxo as [Hxo|Hxo].
    - pose proof (Hlt' x o Hxo ltac:(set_solver)). lia.
    - set_unfold in Hxo. destruct_or? Hxo; subst; lia || done. }
  set (keep := λ x, height - (ig + mr) < BalanceHeight x).
  assert (Hf : filter keep (old ++ new) = filter keep old ++ new).
  { rewrite filter_app, (filter_all _ new); [done|]. intros y Hy. specialize (Hn y Hy). unfold keep. lia. }
  assert (Hlf : last (filter keep old) = Some o).
  { rewrite Hold, filter_app, filter_cons, decide_True by (unfold keep; lia). by rewrite filter_nil, last_snoc. }
  assert (Hne : ∀ l : list BalanceSnapshot, last l = Some o → l ++ new ≠ []) by (intros [|] ?; done).
  unfold getEffectiveBalance. simpl. rewrite Hr, Hl, Hf.
  destruct (filter keep old ++ new) as [|y1 l1] eqn:E1; [by apply Hne in E1|]. rewrite <-E1.
  destruct (old ++ new) as [|y2 l2] eqn:E2; [by apply Hne in E2|]. rewrite <-E2.
  rewrite !(min_amount_old _ _ o); try done; rewrite Heff; [done|].
  intros y [_ Hy]%list_elem_of_filter. by apply Ho.
Qed.

(** ** Copies *)

Lemma for_each_insert l s :
  store_wf (m_balances s) → NoDup l.*1 →
  (∀ id, id ∈ l.*1 → id ≠ 0 ∧ balance_map s !! id = None) →
  ∃ b, for_each (λ p, insert_balance (fst p) (snd p)) l s = (set_balances b s, Ok tt)
    ∧ store_wf b ∧ store_map b = list_to_map l ∪ balance_map s
    ∧ store_optimized b = store_optimized (m_balances s).
Proof.
  revert s. induction l as [|[id a] l IH]; intros s Hst Hnd Hfresh; simpl.
  { exists (m_balances s). split; [by destruct s|]. split; [done|]. split; [by rewrite map_empty_union|done]. }
  apply NoDup_cons in Hnd as [Hid Hnd]. destruct (Hfresh id) as [Hnz Hnone]; [set_solver|].
  pose proof (store_insert_spec (m_balances s) id a Hst) as Hins. rewrite decide_True in Hins by done.
  destruct Hins as (b1 & Hb1 & Hst1 & Hmap1 & Hopt1).
  unfold mbind, exec_bind, insert_balance at 1, lift_member. simpl. rewrite Hb1.
  destruct (IH (set_balances b1 s)) as (b & -> & Hst2 & Hmap2 & Hopt2); [done|done| |].
  { intros k Hk. destruct (Hfresh k) as [? ?]; [set_solver|]. split; [done|].
    unfold balance_map. simpl. rewrite Hmap1, lookup_insert_ne; [done|]. set_solver. }
  exists b. split; [done|]. split; [done|]. split; [|by rewrite Hopt2].
  rewrite Hmap2. unfold balance_map. simpl. rewrite Hmap1.
  rewrite <-insert_union_l, insert_union_r; [done|]. by apply not_elem_of_list_to_map_1.
Qed.

(** A snapshot the account accepts. *)
Definition acceptable (account : option Z) (x : BalanceSnapshot) : Prop :=
  ∃ ah, account = Some ah ∧ ah ≤ add64 (BalanceHeight x) 1.

Lemma for_each_push l committed s :
  (∀ x, x ∈ l → acceptable (m_accountState s) x) →
  for_each (λ x, pushSnapshot x committed) l s =
    (if committed then set_snapshots (m_localSnapshots s ++ l) (m_remoteSnapshots s) s
     else set_snapshots (m_localSnapshots s) (m_remoteSnapshots s ++ l) s, Ok tt).
Proof.
  revert s. induction l as [|x l IH]; intros s Hacc; simpl.
  { destruct s, committed; unfold set_snapshots; simpl; by rewrite app_nil_r. }
  destruct (Hacc x) as (ah & Hah & Hle); [set_solver|].
  unfold mbind, exec_bind, pushSnapshot at 1, gets. simpl. unfold mbind, exec_bind. rewrite Hah.
  destruct (Z.ltb_spec (add64 (BalanceHeight x) 1) ah); [lia|].
  destruct committed; unfold modify; rewrite IH by (intros; apply Hacc; set_solver);
    unfold set_snapshots; simpl; by rewrite <-app_assoc.
Qed.

(** The optimized id of the store is the recorded one, and the account
    accepts the snapshots it holds. *)
Record consistent s : Prop := {
  consistent_optimized : store_optimized (m_balances s) = m_optimizedMosaicId s;
  consistent_snapshots : ∀ x, x ∈ m_localSnapshots s ++ m_remoteSnapshots s → acceptable (m_accountState s) x
}.

(** The copy constructor succeeds and copies everything: balances, both
    snapshot lists, optimized and tracked mosaic and the owning account. *)
Theorem copy_is_deep s :
  wf s → consistent s →
  ∃ s', copy s = (s', Ok tt) ∧ wf s' ∧ consistent s'
    ∧ balance_map s' = balance_map s
    ∧ m_localSnapshots s' = m_localSnapshots s ∧ m_remoteSnapshots s' = m_remoteSnapshots s
    ∧ m_accountState s' = m_accountState s ∧ m_optimizedMosaicId s' = m_optimizedMosaicId s
    ∧ m_trackedMosaicId s' = m_trackedMosaicId s.
Proof.
  intros Hwf [Hopt Hsn]. destruct store_new_spec as (Hnew & Hnewm & Hnewo).
  pose proof (store_optimize_spec store_new (m_optimizedMosaicId s) Hnew) as Hopt1.
  rewrite decide_True in Hopt1 by auto. destruct Hopt1 as (b0 & Hb0 & Hst0 & Hm0 & Ho0).
  destruct (store_list_spec (m_balances s) (wf_store _ Hwf)) as [Hnd Hlist].
  unfold copy, assign_copy, mbind, exec_bind, modify, lift_member. simpl. rewrite Hb0.
  set (s1 := set_ids _ _ _ _).
  destruct (for_each_insert (store_list (m_balances s)) s1) as (b & -> & Hst & Hmap & Hopt2).
  { done. } { done. }
  { intros id Hid. unfold balance_map. simpl. rewrite Hm0, Hnewm. split; [|done].
    eapply store_valid; [apply (wf_store _ Hwf)|]. rewrite <-Hlist, <-map_find_lookup. by apply map_find_elem. }
  rewrite for_each_push by (intros x Hx; apply Hsn; set_solver). simpl.
  rewrite for_each_push by (intros x Hx; apply Hsn; set_solver). simpl.
  assert (Hbm : store_map b = balance_map s).
  { rewrite Hmap, Hlist. unfold balance_map. simpl. rewrite Hm0, Hnewm. apply map_union_empty. }
  eexists. split; [done|]. split.
  { constructor; simpl; [done| |apply Hwf|apply Hwf]. unfold balance_map. simpl. rewrite Hbm. apply (wf_range _ Hwf). }
  split; [|split; [done|done]]. constructor; [|done]. simpl. rewrite Hopt2. done.
Qed.

End theorems.

(** * Assignment over existing balances *)

Section assignment.
Context {T : Type} `{MosaicStoreLaws T}.
Implicit Types s : AccountBalances T.

Lemma for_each_insert_throws l s :
  store_wf (m_balances s) → NoDup l.*1 → (∀ id, id ∈ l.*1 → id ≠ 0) →
  (∃ id, id ∈ l.*1 ∧ is_Some (balance_map s !! id)) →
  snd (for_each (λ p, insert_balance (fst p) (snd p)) l s) = Throw invalid_argument.
Proof.
  revert s. induction l as [|[id a] l IH]; intros s Hst Hnd Hnz (k & Hk & Hsome); simpl; [set_solver|].
  apply NoDup_cons in Hnd as [Hid Hnd].
  pose proof (store_insert_spec (m_balances s) id a Hst) as Hins.
  unfold mbind, exec_bind, insert_balance at 1, lift_member. simpl.
  case_decide as Hi; [|by rewrite Hins].
  destruct Hins as (b1 & -> & Hst1 & Hmap1 & _).
  apply IH; [done|done|intros; apply Hnz; set_solver|]. exists k.
  assert (k ≠ id) by (intros ->; destruct Hi as [_ Hn]; unfold balance_map in *; destruct Hsome; congruence).
  split; [set_solver|]. unfold balance_map. simpl. by rewrite Hmap1, lookup_insert_ne.
Qed.

(** Copy assignment is not assignment to an arbitrary object: when the
    target already holds one of the source's mosaics, it throws. *)
Theorem assign_copy_rejects_common_mosaic source s id :
  wf source → store_wf (m_balances s) → store_optimized (m_balances s) = m_optimizedMosaicId source →
  is_Some (balance_map source !! id) → is_Some (balance_map s !! id) →
  snd (assign_copy source s) = Throw invalid_argument.
Proof.
  intros Hwf Hst Hopt Hsrc Htgt.
  pose proof (store_optimize_spec (m_balances s) (m_optimizedMosaicId source) Hst) as Hopt1.
  rewrite decide_True in Hopt1 by auto. destruct Hopt1 as (b0 & Hb0 & Hst0 & Hm0 & _).
  destruct (store_list_spec (m_balances source) (wf_store _ Hwf)) as [Hnd Hlist].
  assert (Hval : ∀ k, k ∈ (store_list (m_balances source)).*1 ↔ is_Some (balance_map source !! k)).
  { intros k. unfold balance_map. rewrite <-Hlist, <-map_find_lookup. by rewrite map_find_elem. }
  unfold assign_copy, mbind, exec_bind, modify, lift_member. simpl. rewrite Hb0.
  set (s1 := set_ids _ _ _ _).
  pose proof (for_each_insert_throws (store_list (m_balances source)) s1) as Hthrow.
  destruct (for_each _ _ s1) as [s2 [[]|e]]; simpl in *; [|apply Hthrow]; [exfalso; discriminate Hthrow|..];
    try done.
  all: try (intros k Hk; eapply store_valid; [apply (wf_store _ Hwf)|]; by apply Hval).
  all: exists id; split; [by apply Hval|]; unfold balance_map; simpl; by rewrite Hm0.
Qed.

End assignment.

(** * A concrete account *)

Abbreviation Balances := (AccountBalances MosaicMap.CompactMosaicMap).

(** An account created at height 1 that tracks mosaic 7. *)
Definition account0 : Balances := fst (track 7 (new_AccountBalances (Some 1))).

(** It receives 5 units at height 1 and 95 more at height 120. *)
Definition account1 : Balances := fst (credit 7 5 1 account0).
Definition account2 : Balances := fst (credit 7 95 120 account1).
Definition account3 : Balances := fst (commitSnapshots account2).

Lemma account0_wf : wf account0.
Proof.
  constructor; [apply MosaicMap.new_wf| |constructor..]. intros id v.
  assert (balance_map account0 = ∅) as -> by reflexivity. by rewrite lookup_empty.
Qed.

Lemma credit_wf (s s' : Balances) id amount h :
  wf s → credit id amount h s = (s', Ok tt) → in_range 64 amount → id ≠ 0 → in_range 64 h →
  attached s h → wf s'.
Proof.
  intros Hwf Hc Ha Hid Hh Hatt. unfold credit in Hc. destruct (Z.eqb_spec h 0); [done|].
  destruct (decide (amount = 0)) as [->|Hnz].
  { unfold internalCredit in Hc. rewrite Z.eqb_refl in Hc. by injection Hc as <-. }
  destruct (internalCredit_spec s id amount h) as (s1 & Hs1 & Hwf1 & _); try done. congruence.
Qed.

Lemma account1_wf : wf account1.
Proof.
  apply (credit_wf account0 _ 7 5 1); [apply account0_wf|reflexivity|done|done|done|].
  exists 1. split; [done|lia].
Qed.

Lemma account2_wf : wf account2.
Proof.
  apply (credit_wf account1 _ 7 95 120); [apply account1_wf|reflexivity|done|done|done|].
  exists 1. split; [done|lia].
Qed.

Lemma account3_sorted : sorted (m_localSnapshots account3).
Proof. unfold sorted. vm_compute. repeat constructor. Qed.

Lemma account3_wf : wf account3.
Proof.
  destruct account2_wf as [Hst Hr _ _]. constructor; [exact Hst|exact Hr|constructor|exact account3_sorted].
Qed.

Example account3_snapshots :
  m_localSnapshots account3 = [Snapshot 5 1; Snapshot 100 120] ∧ m_remoteSnapshots account3 = [].
Proof. vm_compute. split; reflexivity. Qed.

(** Clean-up can raise the effective balance: at height 200 with an
    importance grouping of 100 and 50 rollback blocks the account above has
    effective balance 5 (its balance at height 100), but clean-up drops that
    snapshot, no older one survives, and the effective balance becomes 100,
    which the account has held for 80 blocks only. *)
Theorem cleanup_can_raise_effective_balance :
  getEffectiveBalance account3 200 100 = 5
  ∧ getEffectiveBalance (fst (maybeCleanUpSnapshots 200 100 50 account3)) 200 100 = 100.
Proof. vm_compute. split; reflexivity. Qed.

(** * Witnesses *)

Lemma credit_effect_witness :
  ∃ s', credit 7 95 120 account1 = (s', Ok tt) ∧ wf s' ∧ same_frame account1 s'
    ∧ ∀ k, get s' k = if decide (k = 7) then add64 (get account1 7) 95 else get account1 k.
Proof.
  apply (credit_effect account1 7 95 120); [exact account1_wf|done|done|done|done|].
  exists 1. split; [reflexivity|lia].
Defined.

Lemma debit_effect_witness :
  if decide (60 ≤ get account2 7)
  then ∃ s', debit 7 60 130 account2 = (s', Ok tt) ∧ wf s' ∧ same_frame account2 s'
         ∧ ∀ k, get s' k = if decide (k = 7) then get account2 7 - 60 else get account2 k
  else debit 7 60 130 account2 = (account2, Throw runtime_error).
Proof.
  apply (debit_effect account2 7 60 130); [exact account2_wf|done|done|done|].
  exists 1. split; [reflexivity|lia].
Defined.

Lemma account1_positive : positive account1.
Proof.
  intros id v. unfold balance_map.
  assert (store_map (m_balances account1) = {[7 := 5]}) as -> by reflexivity.
  rewrite lookup_singleton_Some. lia.
Qed.

Lemma credit_debit_roundtrip_witness :
  ∃ s', (credit 7 95 120 ≫= λ _, debit 7 95 120) account1 = (s', Ok tt)
    ∧ balance_map s' = balance_map account1.
Proof.
  apply (credit_debit_roundtrip account1 7 95 120);
    [exact account1_wf|exact account1_positive|done|done|done|done| |done].
  exists 1. split; [reflexivity|lia].
Defined.

Lemma effective_balance_is_window_minimum_witness :
  let eff := Z.max 0 (200 - 100) in
  let e := getEffectiveBalance account3 200 100 in
  (∃ l h, (l = m_localSnapshots account3 ∨ l = m_remoteSnapshots account3) ∧ eff ≤ h ∧ balance_at l h = Some e)
  ∧ ∀ l h a, (l = m_localSnapshots account3 ∨ l = m_remoteSnapshots account3) → eff ≤ h →
      balance_at l h = Some a → e ≤ a.
Proof.
  apply (effective_balance_is_window_minimum account3 200 100); [exact account3_wf|done|done|].
  vm_compute. intros [? _]. discriminate.
Defined.

Lemma commitSnapshots_history_witness :
  let s' := fst (commitSnapshots account2) in
  wf s' ∧ m_remoteSnapshots s' = [] ∧ m_balances s' = m_balances account2
  ∧ ∀ h, balance_at (m_localSnapshots s') h =
      if decide (h < 1) then balance_at (m_localSnapshots account2) h
      else balance_at (m_remoteSnapshots account2) h.
Proof.
  apply (commitSnapshots_history account2 (Snapshot 5 1) [Snapshot 100 120]); [exact account2_wf|reflexivity].
Defined.

Lemma cleanup_keeps_effective_balance_witness :
  getEffectiveBalance (fst (maybeCleanUpSnapshots 270 100 60 account3)) 270 100
  = getEffectiveBalance account3 270 100.
Proof.
  apply (cleanup_keeps_effective_balance account3 270 100 60 (Snapshot 100 120));
    [exact account3_wf|done|lia|lia|done|lia|reflexivity|vm_compute; by right; left|simpl; lia].
Defined.

Lemma copy_is_deep_witness :
  ∃ s', copy account3 = (s', Ok tt) ∧ wf s' ∧ consistent s'
    ∧ balance_map s' = balance_map account3
    ∧ m_localSnapshots s' = m_localSnapshots account3 ∧ m_remoteSnapshots s' = m_remoteSnapshots account3
    ∧ m_accountState s' = m_accountState account3
    ∧ m_optimizedMosaicId s' = m_optimizedMosaicId account3
    ∧ m_trackedMosaicId s' = m_trackedMosaicId account3.
Proof.
  apply (copy_is_deep account3); [exact account3_wf|]. constructor; [reflexivity|].
  intros x Hx. exists 1. split; [reflexivity|].
  assert (Hx' : x ∈ [Snapshot 5 1; Snapshot 100 120]) by exact Hx.
  apply elem_of_cons in Hx' as [->|Hx']; [done|]. apply list_elem_of_singleton in Hx' as ->. done.
Defined.

Lemma assign_copy_rejects_common_mosaic_witness :
  snd (assign_copy account3 account1) = Throw invalid_argument.
Proof.
  apply (assign_copy_rejects_common_mosaic account3 account1 7); [exact account3_wf|apply account1_wf|reflexivity|..];
    vm_compute; eexists; reflexivity.
Defined.

End Balances.
