(* ===== verification/BaseSetDelta.v ===== *)
(** Model of catapult::deltaset (src/catapult/deltaset/BaseSetDelta.h,
    BaseSet.h, BaseSetCommitPolicy.h, OrderedSet.h, DeltaElements.h): a base
    set, the delta that records pending modifications against it, backups of
    the delta, and the commit that applies it.  The theorems show that the
    pair behaves as a committed finite map with a working copy. *)
From stdpp Require Import base tactics numbers option list gmap.
From S2P Require Import Prelude.

Local Open Scope Z_scope.

Module DeltaSet.

(** * Data *)

Inductive MutabilityTag := MutableTypeTag | ImmutableTypeTag.

Inductive InsertResult := Insert_Unremoved | Insert_Updated | Insert_Redundant | Insert_Inserted.

Inductive RemoveResult :=
  Remove_None | Remove_Unmodified_And_Removed | Remove_Uninserted | Remove_Redundant | Remove_Removed.

Section definitions.
(** The key and element types, and the key of an element
    ([SetStorageTraits] has [ToKey] the identity, [MapStorageTraits] calls the
    element-to-key converter). *)
Context {K V : Type} `{Countable K} (ToKey : V → K).

Record BaseSetDelta := {
  m_addedElements : gmap K V;
  m_removedElements : gmap K V;
  m_copiedElements : gmap K V;
  m_generationId : Z;
  m_keyGenerationIdMap : gmap K Z;
  m_addedElementsBackup : list (gmap K V);
  m_removedElementsBackup : list (gmap K V);
  m_copiedElementsBackup : list (gmap K V);
  m_keyGenerationIdMapBackup : list (gmap K Z)
}.

(** The original elements are held by reference: every operation that reads
    them takes them as [o]. *)
Implicit Types (o : gmap K V) (s : BaseSetDelta) (k : K).

Definition new_BaseSetDelta : BaseSetDelta := {|
  m_addedElements := ∅; m_removedElements := ∅; m_copiedElements := ∅;
  m_generationId := 1; m_keyGenerationIdMap := ∅;
  m_addedElementsBackup := []; m_removedElementsBackup := [];
  m_copiedElementsBackup := []; m_keyGenerationIdMapBackup := []
|}.

Definition set_elements (a r c : gmap K V) s : BaseSetDelta := {|
  m_addedElements := a; m_removedElements := r; m_copiedElements := c;
  m_generationId := m_generationId s; m_keyGenerationIdMap := m_keyGenerationIdMap s;
  m_addedElementsBackup := m_addedElementsBackup s;
  m_removedElementsBackup := m_removedElementsBackup s;
  m_copiedElementsBackup := m_copiedElementsBackup s;
  m_keyGenerationIdMapBackup := m_keyGenerationIdMapBackup s
|}.

Definition set_generations (g : Z) (m : gmap K Z) s : BaseSetDelta := {|
  m_addedElements := m_addedElements s; m_removedElements := m_removedElements s;
  m_copiedElements := m_copiedElements s;
  m_generationId := g; m_keyGenerationIdMap := m;
  m_addedElementsBackup := m_addedElementsBackup s;
  m_removedElementsBackup := m_removedElementsBackup s;
  m_copiedElementsBackup := m_copiedElementsBackup s;
  m_keyGenerationIdMapBackup := m_keyGenerationIdMapBackup s
|}.

(** [insert] of an associative container: an equivalent key keeps its element. *)
Definition std_insert (k : K) (v : V) (m : gmap K V) : gmap K V :=
  match m !! k with Some _ => m | None => <[k := v]> m end.

Definition Contains (m : gmap K V) (k : K) : bool := bool_decide (is_Some (m !! k)).

(** * Generations *)

Definition generationId_key s k : Z := default 0 (m_keyGenerationIdMap s !! k).

Definition incrementGenerationId s : BaseSetDelta :=
  set_generations (u32 (m_generationId s + 1)) (m_keyGenerationIdMap s) s.

Definition markKey k s : BaseSetDelta :=
  set_generations (m_generationId s) (<[k := m_generationId s]> (m_keyGenerationIdMap s)) s.

Definition clearKey k s : BaseSetDelta :=
  set_generations (m_generationId s) (delete k (m_keyGenerationIdMap s)) s.

(** * Queries *)

Definition size o s : Z :=
  u64 (u64 (Z.of_nat (base.size o) - Z.of_nat (base.size (m_removedElements s)))
       + Z.of_nat (base.size (m_addedElements s))).

Definition empty o s : bool := 0 =? size o s.

Definition contains o s k : bool :=
  negb (Contains (m_removedElements s) k)
  && (Contains (m_addedElements s) k || Contains o k).

(** An iterator is the container it points into, [None] when unset. *)
Inductive FindIterator := At_Original | At_Copied | At_Added.

Definition iterator_get o s k (it : FindIterator) : option V :=
  match it with
  | At_Original => o !! k
  | At_Copied => m_copiedElements s !! k
  | At_Added => m_addedElements s !! k
  end.

Definition find_original o k : option FindIterator :=
  if Contains o k then Some At_Original else None.

(** The [const] overloads of the tagged [find]. *)
Definition find_tagged_const (tag : MutabilityTag) o s k : option FindIterator :=
  match tag with
  | MutableTypeTag => if Contains (m_copiedElements s) k then Some At_Copied else find_original o k
  | ImmutableTypeTag => find_original o k
  end.

(** The modifying overload copies an original element on first access. *)
Definition find_tagged (tag : MutabilityTag) o s k : BaseSetDelta * option FindIterator :=
  match tag with
  | MutableTypeTag =>
      if Contains (m_copiedElements s) k then (s, Some At_Copied)
      else match o !! k with
           | None => (s, None)
           | Some v =>
               (set_elements (m_addedElements s) (m_removedElements s)
                  (std_insert (ToKey v) v (m_copiedElements s)) s, Some At_Copied)
           end
  | ImmutableTypeTag => (s, find_original o k)
  end.

Definition find_added s k : option FindIterator :=
  if Contains (m_addedElements s) k then Some At_Added else None.

Definition find_const (tag : MutabilityTag) o s k : option FindIterator :=
  if Contains (m_removedElements s) k then None
  else match find_tagged_const tag o s k with
       | Some it => Some it
       | None => find_added s k
       end.

Definition markFoundElement (tag : MutabilityTag) k s : BaseSetDelta :=
  match tag with MutableTypeTag => markKey k s | ImmutableTypeTag => s end.

Definition find (tag : MutabilityTag) o s k : BaseSetDelta * option FindIterator :=
  let '(s', it) :=
    if Contains (m_removedElements s) k then (s, None)
    else match find_tagged tag o s k with
         | (s', Some it) => (s', Some it)
         | (s', None) => (s', find_added s' k)
         end in
  match it with
  | Some it => (markFoundElement tag k s', Some it)
  | None => (s', None)
  end.

(** Assignment through the pointer of a modifiable iterator. *)
Definition iterator_write k (it : FindIterator) (v : V) s : BaseSetDelta :=
  match it with
  | At_Copied => set_elements (m_addedElements s) (m_removedElements s) (<[k := v]> (m_copiedElements s)) s
  | At_Added => set_elements (<[k := v]> (m_addedElements s)) (m_removedElements s) (m_copiedElements s) s
  | At_Original => s
  end.

(** * Insert and remove *)

Definition replace (k : K) (v : V) (m : gmap K V) : gmap K V := std_insert k v (delete k m).

Definition insert_mutable o (element : V) s : BaseSetDelta * InsertResult :=
  let k := ToKey element in
  let s := markKey k s in
  let a := m_addedElements s in
  let r := m_removedElements s in
  let c := m_copiedElements s in
  if Contains r k then
    (if Contains a k then set_elements (replace k element a) (delete k r) c s
     else set_elements a (delete k r) (replace k element c) s, Insert_Unremoved)
  else if Contains o k then (set_elements a r (replace k element c) s, Insert_Updated)
  else (set_elements (replace k element a) r c s,
        if Contains a k then Insert_Updated else Insert_Inserted).

Definition insert_immutable o (element : V) s : BaseSetDelta * InsertResult :=
  let k := ToKey element in
  let a := m_addedElements s in
  let r := m_removedElements s in
  let c := m_copiedElements s in
  if Contains r k then
    let s := if Contains a k then markKey k s else clearKey k s in
    (set_elements a (delete k r) c s, Insert_Unremoved)
  else if Contains o k || Contains a k then (s, Insert_Redundant)
  else (set_elements (std_insert k element a) r c (markKey k s), Insert_Inserted).

Definition insert (tag : MutabilityTag) o (element : V) s : BaseSetDelta * InsertResult :=
  match tag with
  | MutableTypeTag => insert_mutable o element s
  | ImmutableTypeTag => insert_immutable o element s
  end.

Definition remove_immutable o k s : BaseSetDelta * RemoveResult :=
  let a := m_addedElements s in
  let r := m_removedElements s in
  let c := m_copiedElements s in
  match a !! k with
  | Some v => (set_elements a (std_insert k v r) c (markKey k s), Remove_Uninserted)
  | None =>
      match o !! k with
      | Some v => (set_elements a (std_insert k v r) c (markKey k s), Remove_Removed)
      | None => (s, Remove_None)
      end
  end.

Definition remove_mutable o k s : BaseSetDelta * RemoveResult :=
  match m_copiedElements s !! k with
  | Some v =>
      (set_elements (m_addedElements s) (std_insert k v (m_removedElements s))
         (delete k (m_copiedElements s)) (markKey k s), Remove_Unmodified_And_Removed)
  | None => remove_immutable o k s
  end.

Definition remove (tag : MutabilityTag) o k s : BaseSetDelta * RemoveResult :=
  if Contains (m_removedElements s) k then (s, Remove_Redundant)
  else match tag with
       | MutableTypeTag => remove_mutable o k s
       | ImmutableTypeTag => remove_immutable o k s
       end.

(** * Backups *)

Definition backupChanges (replace : bool) s : BaseSetDelta :=
  let keep {A} (l : list A) := if replace then [] else l in
  {| m_addedElements := m_addedElements s; m_removedElements := m_removedElements s;
     m_copiedElements := m_copiedElements s;
     m_generationId := m_generationId s; m_keyGenerationIdMap := m_keyGenerationIdMap s;
     m_addedElementsBackup := keep (m_addedElementsBackup s) ++ [m_addedElements s];
     m_removedElementsBackup := keep (m_removedElementsBackup s) ++ [m_removedElements s];
     m_copiedElementsBackup := keep (m_copiedElementsBackup s) ++ [m_copiedElements s];
     m_keyGenerationIdMapBackup := keep (m_keyGenerationIdMapBackup s) ++ [m_keyGenerationIdMap s] |}.

(** Returns the restored elements and the remaining backups. *)
Definition RestoreElements {A} (backup : list (gmap K A)) : gmap K A * list (gmap K A) :=
  match last backup with
  | None => (∅, backup)
  | Some back => (back, removelast backup)
  end.

Definition restoreChanges s : BaseSetDelta :=
  {| m_addedElements := fst (RestoreElements (m_addedElementsBackup s));
     m_removedElements := fst (RestoreElements (m_removedElementsBackup s));
     m_copiedElements := fst (RestoreElements (m_copiedElementsBackup s));
     m_generationId := m_generationId s;
     m_keyGenerationIdMap := fst (RestoreElements (m_keyGenerationIdMapBackup s));
     m_addedElementsBackup := snd (RestoreElements (m_addedElementsBackup s));
     m_removedElementsBackup := snd (RestoreElements (m_removedElementsBackup s));
     m_copiedElementsBackup := snd (RestoreElements (m_copiedElementsBackup s));
     m_keyGenerationIdMapBackup := snd (RestoreElements (m_keyGenerationIdMapBackup s)) |}.

Definition reset s : BaseSetDelta := new_BaseSetDelta.

(** * Commit policies *)

(** The changed elements, each container in its iteration order. *)
Record DeltaElements := {
  Added : list (K * V);
  Removed : list (K * V);
  Copied : list (K * V)
}.

Definition deltas s : DeltaElements := {|
  Added := map_to_list (m_addedElements s);
  Removed := map_to_list (m_removedElements s);
  Copied := map_to_list (m_copiedElements s)
|}.

Definition HasChanges (d : DeltaElements) : bool :=
  negb (bool_decide (Added d = nil) && bool_decide (Copied d = nil) && bool_decide (Removed d = nil)).

Definition update_copied (element : K * V) : Exec (gmap K V) unit :=
  found ← gets (λ m, Contains m (fst element));
  if negb found then throw invalid_argument
  else modify (λ m, std_insert (fst element) (snd element) (delete (fst element) m)).

Definition UpdateSet (d : DeltaElements) : Exec (gmap K V) unit :=
  for_each (λ e, modify (std_insert (fst e) (snd e))) (Added d) ≫= λ _,
  for_each update_copied (Copied d) ≫= λ _,
  for_each (λ e, modify (delete (fst e))) (Removed d).

(** Erases the keys before [lower_bound(boundary)]. *)
Definition PruneBaseSet (lt : K → K → Prop) `{!RelDecision lt} (boundary : K) (m : gmap K V) : gmap K V :=
  filter (λ e, ¬ lt (fst e) boundary) m.

(** [BaseSetCommitPolicy::Update] is [UpdateSet]; the policy of ordered sets
    also prunes when a boundary is set. *)
Definition OrderedSetCommitPolicy_Update (lt : K → K → Prop) `{!RelDecision lt}
    (d : DeltaElements) (boundary : option K) : Exec (gmap K V) unit :=
  UpdateSet d ≫= λ _,
  match boundary with
  | None => mret tt
  | Some b => modify (PruneBaseSet lt b)
  end.

(** * The base set *)

(** [m_pWeakDelta] is [None] when no attached delta is alive. *)
Record BaseSet := {
  m_elements : gmap K V;
  m_pWeakDelta : option BaseSetDelta
}.

Definition set_delta (d : option BaseSetDelta) (b : BaseSet) : BaseSet :=
  {| m_elements := m_elements b; m_pWeakDelta := d |}.

Definition rebase : Exec BaseSet unit :=
  d ← gets m_pWeakDelta;
  match d with
  | Some _ => throw runtime_error
  | None => modify (set_delta (Some new_BaseSetDelta))
  end.

(** [update] is the commit policy; an exception leaves what it already
    changed and skips the reset. *)
Definition commit_delta (update : DeltaElements → Exec (gmap K V) unit) (pDelta : BaseSetDelta)
    : Exec BaseSet unit :=
  λ b, match update (deltas pDelta) (m_elements b) with
       | (m, Throw e) => ({| m_elements := m; m_pWeakDelta := Some pDelta |}, Throw e)
       | (m, Ok _) => ({| m_elements := m; m_pWeakDelta := Some (reset pDelta) |}, Ok tt)
       end.

Definition commit (update : DeltaElements → Exec (gmap K V) unit) : Exec BaseSet unit :=
  d ← gets m_pWeakDelta;
  match d with
  | None => throw runtime_error
  | Some pDelta => commit_delta update pDelta
  end.

End definitions.

Arguments BaseSetDelta K V {_ _}.
Arguments BaseSet K V {_ _}.
Arguments DeltaElements K V : clear implicits.
Arguments Build_DeltaElements {K V}.

(** * Specification *)

Section theorems.
Context {K V : Type} `{Countable K} (ToKey : V → K).
Implicit Types (o : gmap K V) (s : BaseSetDelta K V) (k : K) (tag : MutabilityTag).

(** What the delta makes of the original elements. *)
Definition view o s : gmap K V :=
  (m_copiedElements s ∪ (o ∪ m_addedElements s)) ∖ m_removedElements s.

(** Elements are stored under their own key. *)
Definition keyed (m : gmap K V) : Prop := ∀ k v, m !! k = Some v → ToKey v = k.

(** The type invariant of a delta, for the containers it is made of.  Only
    mutable elements are ever copied. *)
Record wf_elements tag o (a r c : gmap K V) : Prop := {
  wf_added_keyed : keyed a;
  wf_copied_keyed : keyed c;
  wf_original_keyed : keyed o;
  wf_added : ∀ k, is_Some (a !! k) → o !! k = None;
  wf_removed : ∀ k, is_Some (r !! k) → is_Some (o !! k) ∨ is_Some (a !! k);
  wf_copied : ∀ k, is_Some (c !! k) → is_Some (o !! k);
  wf_disjoint : ∀ k, is_Some (c !! k) → r !! k = None;
  wf_tag : tag = ImmutableTypeTag → c = ∅
}.

Abbreviation wf_current tag o s := (wf_elements tag o (m_addedElements s) (m_removedElements s) (m_copiedElements s)).

Lemma view_lookup o s k :
  view o s !! k =
  match m_removedElements s !! k with
  | Some _ => None
  | None => match m_copiedElements s !! k with
            | Some v => Some v
            | None => match o !! k with Some v => Some v | None => m_addedElements s !! k end
            end
  end.
Proof.
  unfold view. rewrite lookup_difference. destruct (m_removedElements s !! k); [done|].
  rewrite lookup_union. destruct (m_copiedElements s !! k), (o !! k) eqn:E;
    rewrite ?lookup_union, ?E; by destruct (m_addedElements s !! k).
Qed.

(** ** Elementary changes preserve the invariant *)

Ltac by_key k :=
  let k' := fresh "k'" in
  intros k'; destruct (decide (k' = k)) as [->|]; intros; simplify_map_eq/=;
  try match goal with Hn : is_Some None |- _ => destruct (is_Some_None Hn) end; eauto.

Lemma wf_insert_added tag o a r c k v :
  wf_elements tag o a r c → ToKey v = k → o !! k = None → wf_elements tag o (<[k := v]> a) r c.
Proof.
  intros [] ? ?; constructor; try done; by_key k.
Qed.

Lemma wf_insert_copied o a r c k v :
  wf_elements MutableTypeTag o a r c → ToKey v = k → is_Some (o !! k) → r !! k = None →
  wf_elements MutableTypeTag o a r (<[k := v]> c).
Proof. intros [] ? ? ?; constructor; try done; by_key k. Qed.

Lemma wf_insert_removed tag o a r c k v :
  wf_elements tag o a r c → is_Some (o !! k) ∨ is_Some (a !! k) → c !! k = None →
  wf_elements tag o a (<[k := v]> r) c.
Proof.
  intros [] ? Hc; constructor; try done; try by_key k.
  rewrite Hc in *. by destruct (is_Some_None (A := V)).
Qed.

Lemma wf_delete_removed tag o a r c k : wf_elements tag o a r c → wf_elements tag o a (delete k r) c.
Proof. intros []; constructor; try done; by_key k. Qed.

Lemma wf_delete_copied tag o a r c k : wf_elements tag o a r c → wf_elements tag o a r (delete k c).
Proof.
  intros []; constructor; try done; try by_key k.
  intros Ht. rewrite wf_tag0 by done. apply delete_empty.
Qed.

(** ** Each operation on the view *)

Lemma Contains_Some (m : gmap K V) k v : m !! k = Some v → Contains m k = true.
Proof. intros E. by apply bool_decide_true; rewrite E. Qed.

Lemma Contains_None (m : gmap K V) k : m !! k = None → Contains m k = false.
Proof. intros E. apply bool_decide_false. rewrite E. apply is_Some_None. Qed.

Ltac contains_cases :=
  repeat match goal with
  | |- context [Contains ?m ?k] =>
      let E := fresh "E" in
      destruct (m !! k) eqn:E;
      [rewrite !(Contains_Some m k _ E) | rewrite !(Contains_None m k E)]; simpl
  end.

Lemma std_insert_fresh k (v : V) m : m !! k = None → std_insert k v m = <[k := v]> m.
Proof. intros E. unfold std_insert. by rewrite E. Qed.

Lemma replace_insert k (v : V) m : replace k v m = <[k := v]> m.
Proof. unfold replace. rewrite std_insert_fresh by apply lookup_delete_eq. by rewrite insert_delete_eq. Qed.

Lemma find_const_spec tag o s k :
  wf_current tag o s →
  (it ← find_const tag o s k; iterator_get o s k it) = view o s !! k.
Proof.
  intros Hwf. pose proof (wf_tag _ _ _ _ _ Hwf) as Htag. rewrite view_lookup. unfold find_const, find_tagged_const, find_original, find_added.
  destruct tag; contains_cases; simplify_option_eq; try done.
  - by rewrite Htag, lookup_empty.
  - by rewrite Htag, lookup_empty.
  - by rewrite Htag, lookup_empty.
Qed.

Lemma contains_spec tag o s k :
  wf_current tag o s → contains o s k = bool_decide (is_Some (view o s !! k)).
Proof.
  intros Hwf. rewrite view_lookup. unfold contains. contains_cases; try done.
  - by destruct (m_copiedElements s !! k), (o !! k).
  - by destruct (m_copiedElements s !! k).
  - rewrite bool_decide_false; [done|]. destruct (m_copiedElements s !! k) eqn:Ec; [|by intros [? ?]].
    destruct (wf_copied _ _ _ _ _ Hwf k); [by eauto|congruence].
Qed.

Lemma view_size tag o s :
  wf_current tag o s →
  Z.of_nat (base.size (view o s))
  = Z.of_nat (base.size o) - Z.of_nat (base.size (m_removedElements s))
    + Z.of_nat (base.size (m_addedElements s)).
Proof.
  intros Hwf. rewrite <-!(size_dom (D := gset K)).
  assert (dom (view o s) = (dom o ∪ dom (m_addedElements s)) ∖ dom (m_removedElements s)) as ->.
  { unfold view. rewrite dom_difference_L, !dom_union_L. f_equal.
    assert (dom (m_copiedElements s) ⊆ dom o); [|set_solver].
    intros k. rewrite !elem_of_dom. apply (wf_copied _ _ _ _ _ Hwf). }
  assert (dom o ## dom (m_addedElements s)).
  { intros k. rewrite !elem_of_dom. intros Ho ?%(wf_added _ _ _ _ _ Hwf). destruct Ho; congruence. }
  assert (dom (m_removedElements s) ⊆ dom o ∪ dom (m_addedElements s)) as Hr.
  { intros k. rewrite elem_of_union, !elem_of_dom. apply (wf_removed _ _ _ _ _ Hwf). }
  rewrite size_difference by done. apply subseteq_size in Hr. rewrite size_union in * by done. lia.
Qed.

Lemma size_spec tag o s :
  wf_current tag o s → size o s = u64 (Z.of_nat (base.size (view o s))).
Proof.
  intros Hwf. rewrite (view_size _ _ _ Hwf). unfold size, wrap. by rewrite Zplus_mod_idemp_l.
Qed.

(** A modifying [find] answers like the [const] one, leaves the view alone
    and yields a pointer through which the element can be replaced. *)
Lemma delta_find_spec tag o s k :
  wf_current tag o s →
  wf_current tag o (fst (find ToKey tag o s k))
  ∧ view o (fst (find ToKey tag o s k)) = view o s
  ∧ (it ← snd (find ToKey tag o s k); iterator_get o (fst (find ToKey tag o s k)) k it) = view o s !! k.
Proof.
  intros Hwf. unfold find, find_tagged, find_original, find_added.
  pose proof (wf_tag _ _ _ _ _ Hwf) as Htag.
  destruct tag; rewrite view_lookup; contains_cases; simplify_eq/=; try done.
  2-4: assert (m_copiedElements s !! k = None) as -> by (rewrite Htag by done; apply lookup_empty); auto.
  destruct (o !! k) as [v|] eqn:Eo; simpl.
  - assert (ToKey v = k) as Hv by (by eapply wf_original_keyed).
    rewrite Hv, std_insert_fresh by done. split_and!; [by apply wf_insert_copied| |by simplify_map_eq].
    apply map_eq. intros k'. rewrite !view_lookup. simpl.
    destruct (decide (k' = k)) as [->|]; simplify_map_eq; [|done]. congruence.
  - contains_cases; simpl; auto.
Qed.

Lemma write_spec tag o s k it v v' :
  wf_current tag o s → tag = MutableTypeTag →
  find_const tag o s k = Some it → it ≠ At_Original →
  iterator_get o s k it = Some v → ToKey v' = k →
  wf_current tag o (iterator_write k it v' s)
  ∧ view o (iterator_write k it v' s) = <[k := v']> (view o s).
Proof.
  intros Hwf -> Hf Hit Hg Hk. unfold find_const, find_tagged_const, find_original, find_added in Hf.
  revert Hf. contains_cases; intros; simplify_eq/=.
  - split; [apply wf_insert_copied; eauto using wf_copied|].
    apply map_eq. intros k'. rewrite lookup_insert, !view_lookup. simpl.
    case_decide; subst; simplify_map_eq; congruence.
  - split; [by apply wf_insert_added|].
    apply map_eq. intros k'. rewrite lookup_insert, !view_lookup. simpl.
    case_decide; subst; simplify_map_eq; by rewrite ?E, ?E0, ?E1.
Qed.

Definition insert_was_new (r : InsertResult) : bool :=
  match r with Insert_Unremoved | Insert_Inserted => true | _ => false end.

Definition remove_found (r : RemoveResult) : bool :=
  match r with Remove_None | Remove_Redundant => false | _ => true end.

(** Elements of an immutable set with the same key are the same element. *)
Definition unique_elements tag : Prop := tag = ImmutableTypeTag → Inj (=) (=) ToKey.

Ltac view_eq :=
  apply map_eq; let k' := fresh "k'" in intros k';
  rewrite ?lookup_insert, ?lookup_delete, !view_lookup; simpl;
  case_decide; subst; simplify_map_eq; try done; by simplify_option_eq.

Lemma copied_None tag o a r c k : wf_elements tag o a r c → o !! k = None → c !! k = None.
Proof.
  intros Hwf Ho. destruct (c !! k) eqn:Ec; [|done].
  destruct (wf_copied _ _ _ _ _ Hwf k); [by eauto|congruence].
Qed.

Lemma insert_mutable_spec o s e :
  wf_current MutableTypeTag o s →
  let '(s', r) := insert_mutable ToKey o e s in
  wf_current MutableTypeTag o s'
  ∧ view o s' = <[ToKey e := e]> (view o s)
  ∧ insert_was_new r = negb (bool_decide (is_Some (view o s !! ToKey e))).
Proof.
  intros Hwf. unfold insert_mutable. simpl. rewrite view_lookup. contains_cases; rewrite ?replace_insert.
  - assert (o !! ToKey e = None) by (eapply wf_added; eauto).
    pose proof (copied_None _ _ _ _ _ (ToKey e) Hwf ltac:(done)).
    split_and!; [by apply wf_insert_added; [apply wf_delete_removed|..]|view_eq|done].
  - assert (is_Some (o !! ToKey e)) as [? ?].
    { edestruct (wf_removed _ _ _ _ _ Hwf) as [?|Ha]; [by eauto|done|]. rewrite E0 in Ha. by destruct Ha. }
    split_and!; [apply wf_insert_copied; eauto using wf_delete_removed; by simplify_map_eq|view_eq|done].
  - split_and!; [by apply wf_insert_copied; eauto|view_eq|]. by destruct (m_copiedElements s !! _).
  - pose proof (copied_None _ _ _ _ _ (ToKey e) Hwf ltac:(done)).
    split_and!; [by apply wf_insert_added|view_eq|]. by simplify_option_eq.
  - pose proof (copied_None _ _ _ _ _ (ToKey e) Hwf ltac:(done)).
    split_and!; [by apply wf_insert_added|view_eq|]. by simplify_option_eq.
Qed.

Lemma insert_immutable_spec o s e :
  Inj (=) (=) ToKey → wf_current ImmutableTypeTag o s →
  let '(s', r) := insert_immutable ToKey o e s in
  wf_current ImmutableTypeTag o s'
  ∧ view o s' = <[ToKey e := e]> (view o s)
  ∧ insert_was_new r = negb (bool_decide (is_Some (view o s !! ToKey e))).
Proof.
  intros Hinj Hwf. unfold insert_immutable. rewrite view_lookup.
  assert (m_copiedElements s !! ToKey e = None) as Hc by (rewrite (wf_tag _ _ _ _ _ Hwf) by done; apply lookup_empty).
  assert (∀ k e', k = ToKey e → o !! k = Some e' → e' = e) as Ho.
  { intros ? e' -> ?. apply Hinj. by eapply wf_original_keyed. }
  assert (∀ k e', k = ToKey e → m_addedElements s !! k = Some e' → e' = e) as Ha.
  { intros ? e' -> ?. apply Hinj. by eapply wf_added_keyed. }
  contains_cases; simplify_eq/=; rewrite ?Hc.
  - split_and!; [by apply wf_delete_removed| |done].
    assert (o !! ToKey e = None) by (eapply wf_added; eauto). pose proof (Ha _ _ eq_refl E0); subst. view_eq.
  - split_and!; [by apply wf_delete_removed| |done].
    edestruct (wf_removed _ _ _ _ _ Hwf) as [[e' Ho']|Ha']; [by eauto|..]; [|rewrite E0 in Ha'; by destruct Ha'].
    pose proof (Ho _ _ eq_refl Ho'); subst. view_eq.
  - split_and!; [done| |done]. pose proof (Ho _ _ eq_refl E0); subst. view_eq.
  - split_and!; [done| |done]. pose proof (Ha _ _ eq_refl E1); subst. view_eq.
  - rewrite std_insert_fresh by done. split_and!; [by apply wf_insert_added|view_eq|done].
Qed.

Lemma delta_insert_spec tag o s e :
  unique_elements tag → wf_current tag o s →
  let '(s', r) := insert ToKey tag o e s in
  wf_current tag o s'
  ∧ view o s' = <[ToKey e := e]> (view o s)
  ∧ insert_was_new r = negb (bool_decide (is_Some (view o s !! ToKey e))).
Proof.
  intros Hu Hwf. destruct tag; simpl; [by apply insert_mutable_spec|].
  apply insert_immutable_spec; auto.
Qed.

Lemma delta_remove_spec tag o s k :
  wf_current tag o s →
  let '(s', r) := remove tag o k s in
  wf_current tag o s'
  ∧ view o s' = delete k (view o s)
  ∧ remove_found r = bool_decide (is_Some (view o s !! k)).
Proof.
  intros Hwf. unfold remove. contains_cases; simpl.
  { rewrite view_lookup, E. split_and!; [done|view_eq|done]. }
  assert (m_copiedElements s !! k = None →
    let '(s', r) := remove_immutable o k s in
    wf_current tag o s' ∧ view o s' = delete k (view o s)
    ∧ remove_found r = bool_decide (is_Some (view o s !! k))) as Himm.
  { intros Hc. rewrite view_lookup, E, Hc. unfold remove_immutable.
    destruct (m_addedElements s !! k) eqn:Ea, (o !! k) eqn:Eo; rewrite ?std_insert_fresh by done;
      (split_and!; [try apply wf_insert_removed; eauto|view_eq|done]). }
  destruct tag; simpl.
  - unfold remove_mutable. destruct (m_copiedElements s !! k) eqn:Ec; [|by apply Himm].
    rewrite view_lookup, E, Ec, std_insert_fresh by done.
    split_and!; [|view_eq|done]. apply wf_insert_removed; [by apply wf_delete_copied| |apply lookup_delete_eq].
    left. eapply wf_copied; eauto.
  - apply Himm. rewrite (wf_tag _ _ _ _ _ Hwf) by done. apply lookup_empty.
Qed.

(** ** Committing *)

Lemma for_each_std_insert (l : list (K * V)) (m : gmap K V) :
  for_each (λ e, modify (std_insert (fst e) (snd e))) l m = (m ∪ list_to_map l, Ok tt).
Proof.
  revert m. induction l as [|[k v] l IH]; intros m; simpl.
  { by rewrite (right_id_L ∅ (∪)). }
  unfold mbind, exec_bind, modify. simpl. rewrite IH. f_equal.
  unfold std_insert. apply map_eq. intros k'. rewrite !lookup_union.
  destruct (decide (k' = k)) as [->|]; destruct (m !! k) eqn:E; simplify_map_eq;
    rewrite ?lookup_insert_eq, ?lookup_insert_ne by done; try done; by destruct (list_to_map l !! k).
Qed.

Lemma for_each_update (l : list (K * V)) (m : gmap K V) :
  NoDup l.*1 → (∀ k, k ∈ l.*1 → is_Some (m !! k)) →
  for_each update_copied l m = (list_to_map l ∪ m, Ok tt).
Proof.
  revert m. induction l as [|[k v] l IH]; intros m Hnd Hin; simpl.
  { by rewrite (left_id_L ∅ (∪)). }
  apply NoDup_cons in Hnd as [Hk Hnd].
  destruct (Hin k) as [v' Hv']; [simpl; set_solver|].
  unfold mbind, exec_bind, update_copied at 1, mbind, exec_bind, gets, modify.
  simpl. rewrite (Contains_Some _ _ _ Hv'). simpl.
  rewrite std_insert_fresh, insert_delete_eq by apply lookup_delete_eq. rewrite IH; [|done|].
  - f_equal. rewrite <-insert_union_r by (by apply not_elem_of_list_to_map_1). by rewrite insert_union_l.
  - intros k' Hk'. destruct (decide (k' = k)) as [->|]; simplify_map_eq; [done|]. apply Hin. simpl. set_solver.
Qed.

Lemma for_each_erase (l : list (K * V)) (m : gmap K V) :
  for_each (λ e, modify (delete (fst e))) l m = (m ∖ list_to_map l, Ok tt).
Proof.
  revert m. induction l as [|[k v] l IH]; intros m; simpl.
  { by rewrite map_difference_empty. }
  unfold mbind, exec_bind, modify. simpl. rewrite IH. f_equal.
  apply map_eq. intros k'. rewrite !lookup_difference.
  destruct (decide (k' = k)) as [->|]; simplify_map_eq; [|done]. by destruct (list_to_map l !! k).
Qed.

(** The containers may be enumerated in any order. *)
Definition enumerates (d : DeltaElements K V) s : Prop :=
  Added d ≡ₚ map_to_list (m_addedElements s)
  ∧ Removed d ≡ₚ map_to_list (m_removedElements s)
  ∧ Copied d ≡ₚ map_to_list (m_copiedElements s).

Lemma list_to_map_enum (l : list (K * V)) (m : gmap K V) :
  l ≡ₚ map_to_list m → NoDup l.*1 ∧ list_to_map l = m.
Proof.
  intros Hl. assert (NoDup l.*1) as Hnd by (rewrite Hl; apply NoDup_fst_map_to_list).
  split; [done|]. rewrite <-(list_to_map_to_list m). by apply list_to_map_proper.
Qed.

Lemma UpdateSet_spec tag o s d :
  wf_current tag o s → enumerates d s → UpdateSet d o = (view o s, Ok tt).
Proof.
  intros Hwf ([_ Ha]%list_to_map_enum & [_ Hr]%list_to_map_enum & Hc).
  pose proof (list_to_map_enum _ _ Hc) as [Hnd Hc'].
  unfold UpdateSet. unfold mbind at 1 2, exec_bind. rewrite for_each_std_insert, Ha, for_each_update, Hc'; [|done|].
  - by rewrite for_each_erase, Hr.
  - intros k Hk. rewrite lookup_union. rewrite Hc in Hk.
    apply list_elem_of_fmap in Hk as ([k' v] & -> & Hk%elem_of_map_to_list).
    destruct (wf_copied _ _ _ _ _ Hwf k') as [? E]; [by eauto|]. simpl. rewrite E.
    by destruct (m_addedElements s !! k').
Qed.

(** ** Backups *)

(** The four backup vectors hold the states [l] that were backed up. *)
Definition backups s (l : list (BaseSetDelta K V)) : Prop :=
  m_addedElementsBackup s = m_addedElements <$> l
  ∧ m_removedElementsBackup s = m_removedElements <$> l
  ∧ m_copiedElementsBackup s = m_copiedElements <$> l
  ∧ m_keyGenerationIdMapBackup s = m_keyGenerationIdMap <$> l.

Lemma RestoreElements_snoc {A B} (f : A → gmap K B) (l : list A) x :
  RestoreElements (f <$> (l ++ [x])) = (f x, f <$> l).
Proof. unfold RestoreElements. rewrite fmap_app. simpl. by rewrite last_snoc, removelast_last. Qed.

Lemma restore_empty o s : backups s [] → view o (restoreChanges s) = o ∧ backups (restoreChanges s) [].
Proof.
  intros (Ha & Hr & Hc & Hg). unfold restoreChanges. rewrite Ha, Hr, Hc, Hg. simpl.
  split; [|done]. unfold view. simpl.
  by rewrite map_difference_empty, (left_id_L ∅ (∪)), (right_id_L ∅ (∪)).
Qed.

Lemma restore_snoc o s l x :
  backups s (l ++ [x]) →
  view o (restoreChanges s) = view o x ∧ backups (restoreChanges s) l
  ∧ m_keyGenerationIdMap (restoreChanges s) = m_keyGenerationIdMap x.
Proof.
  intros (Ha & Hr & Hc & Hg). unfold restoreChanges, view, backups.
  by rewrite Ha, Hr, Hc, Hg, !RestoreElements_snoc.
Qed.

Lemma wf_empty tag o : keyed o → wf_elements tag o ∅ ∅ ∅.
Proof. intros. constructor; try done; intros k; rewrite ?lookup_empty; by try intros [? ?]. Qed.

(** ** The whole system *)

(** Calls on the set and on the delta its client holds. *)
Inductive SetOp :=
| OpFind (k : K)
| OpContains (k : K)
| OpModify (v : V)
| OpInsert (v : V)
| OpRemove (k : K)
| OpSize
| OpBackup (replace : bool)
| OpRestore
| OpNextGeneration
| OpRebase
| OpRelease
| OpCommit (boundary : option K).

Inductive Response :=
| R_Element (v : option V)
| R_Flag (b : bool)
| R_Size (n : Z)
| R_Unit
| R_Throw (e : exn)
| R_NoDelta.

(** The order of the keys, only used by pruning. *)
Context (lt : K → K → Prop) `{!RelDecision lt}.

Definition modify_found tag o (v : V) s : BaseSetDelta K V * Response :=
  let k := ToKey v in
  let '(s', it) := find ToKey tag o s k in
  let old := it ← it; iterator_get o s' k it in
  match tag, it with
  | MutableTypeTag, Some it => (iterator_write k it v s', R_Element old)
  | _, _ => (s', R_Element old)
  end.

Definition delta_op tag o (op : SetOp) s : BaseSetDelta K V * Response :=
  match op with
  | OpFind k => (s, R_Element (it ← find_const tag o s k; iterator_get o s k it))
  | OpContains k => (s, R_Flag (contains o s k))
  | OpModify v => modify_found tag o v s
  | OpInsert v => let '(s', r) := insert ToKey tag o v s in (s', R_Flag (insert_was_new r))
  | OpRemove k => let '(s', r) := remove tag o k s in (s', R_Flag (remove_found r))
  | OpSize => (s, R_Size (size o s))
  | OpBackup replace => (backupChanges replace s, R_Unit)
  | OpRestore => (restoreChanges s, R_Unit)
  | OpNextGeneration => (incrementGenerationId s, R_Unit)
  | OpRebase | OpRelease | OpCommit _ => (s, R_Unit)
  end.

Definition respond (r : result unit) : Response :=
  match r with Ok _ => R_Unit | Throw e => R_Throw e end.

Definition run_op tag (b : BaseSet K V) (op : SetOp) : BaseSet K V * Response :=
  match op with
  | OpRebase => let '(b', r) := rebase b in (b', respond r)
  | OpRelease => (set_delta None b, R_Unit)
  | OpCommit boundary =>
      let '(b', r) := commit (λ d, OrderedSetCommitPolicy_Update lt d boundary) b in (b', respond r)
  | _ => match m_pWeakDelta b with
         | None => (b, R_NoDelta)
         | Some s => let '(s', r) := delta_op tag (m_elements b) op s in (set_delta (Some s') b, r)
         end
  end.

(** The abstract machine: committed elements, and a working copy with a stack
    of saved working copies. *)
Record Spec := {
  committed : gmap K V;
  working : option (gmap K V * list (gmap K V))
}.

Definition spec_delta_op tag (c w : gmap K V) (bs : list (gmap K V)) (op : SetOp)
    : (gmap K V * list (gmap K V)) * Response :=
  match op with
  | OpFind k => ((w, bs), R_Element (w !! k))
  | OpContains k => ((w, bs), R_Flag (bool_decide (is_Some (w !! k))))
  | OpModify v =>
      ((match tag, w !! ToKey v with
        | MutableTypeTag, Some _ => <[ToKey v := v]> w
        | _, _ => w
        end, bs), R_Element (w !! ToKey v))
  | OpInsert v => ((<[ToKey v := v]> w, bs), R_Flag (negb (bool_decide (is_Some (w !! ToKey v)))))
  | OpRemove k => ((delete k w, bs), R_Flag (bool_decide (is_Some (w !! k))))
  | OpSize => ((w, bs), R_Size (u64 (Z.of_nat (base.size w))))
  | OpBackup replace => ((w, (if replace then [] else bs) ++ [w]), R_Unit)
  | OpRestore => (match last bs with None => (c, bs) | Some w' => (w', removelast bs) end, R_Unit)
  | _ => ((w, bs), R_Unit)
  end.

Definition spec_op tag (a : Spec) (op : SetOp) : Spec * Response :=
  match op, working a with
  | OpRebase, Some _ => (a, R_Throw runtime_error)
  | OpRebase, None => ({| committed := committed a; working := Some (committed a, []) |}, R_Unit)
  | OpRelease, _ => ({| committed := committed a; working := None |}, R_Unit)
  | OpCommit _, None => (a, R_Throw runtime_error)
  | OpCommit boundary, Some (w, _) =>
      let w' := match boundary with None => w | Some b => PruneBaseSet lt b w end in
      ({| committed := w'; working := Some (w', []) |}, R_Unit)
  | _, None => (a, R_NoDelta)
  | _, Some (w, bs) =>
      let '(w', r) := spec_delta_op tag (committed a) w bs op in
      ({| committed := committed a; working := Some w' |}, r)
  end.

Definition delta_simulates tag o s (w : gmap K V) (bs : list (gmap K V)) : Prop :=
  wf_current tag o s ∧ view o s = w
  ∧ ∃ l, backups s l ∧ bs = view o <$> l ∧ Forall (λ s', wf_current tag o s') l.

Definition simulates tag (b : BaseSet K V) (a : Spec) : Prop :=
  m_elements b = committed a ∧ keyed (committed a)
  ∧ match m_pWeakDelta b, working a with
    | None, None => True
    | Some s, Some (w, bs) => delta_simulates tag (m_elements b) s w bs
    | _, _ => False
    end.

(** Changes of the current elements leave the backups alone. *)
Definition same_backups s s' : Prop := ∀ l, backups s l → backups s' l.

Lemma find_backups tag o s k : same_backups s (fst (find ToKey tag o s k)).
Proof. intros l Hl. unfold find, find_tagged, find_original, find_added. by destruct tag; case_all. Qed.

Lemma insert_backups tag o s v : same_backups s (fst (insert ToKey tag o v s)).
Proof. intros l Hl. unfold insert, insert_mutable, insert_immutable. by destruct tag; case_all. Qed.

Lemma remove_backups tag o s k : same_backups s (fst (remove tag o k s)).
Proof. intros l Hl. unfold remove, remove_mutable, remove_immutable. by destruct tag; case_all. Qed.

Lemma find_iterator tag o s k :
  wf_current tag o s →
  snd (find ToKey tag o s k) = find_const tag o (fst (find ToKey tag o s k)) k
  ∧ (tag = MutableTypeTag → snd (find ToKey tag o s k) ≠ Some At_Original).
Proof.
  intros Hwf. unfold find, find_const, find_tagged, find_tagged_const, find_original, find_added.
  destruct (o !! k) as [v|] eqn:Eo.
  - assert (ToKey v = k) as Hv by (by eapply wf_original_keyed). rewrite Hv.
    destruct (m_copiedElements s !! k) eqn:Ec.
    + destruct tag; contains_cases; try done; congruence.
    + rewrite std_insert_fresh by done.
      destruct tag; contains_cases; try done; simplify_map_eq; congruence.
  - destruct tag; contains_cases; try done; congruence.
Qed.

Lemma modify_simulates tag o s v :
  wf_current tag o s →
  wf_current tag o (fst (modify_found tag o v s))
  ∧ view o (fst (modify_found tag o v s))
    = match tag, view o s !! ToKey v with
      | MutableTypeTag, Some _ => <[ToKey v := v]> (view o s)
      | _, _ => view o s
      end
  ∧ snd (modify_found tag o v s) = R_Element (view o s !! ToKey v)
  ∧ same_backups s (fst (modify_found tag o v s)).
Proof.
  intros Hwf. unfold modify_found.
  destruct (delta_find_spec tag o s (ToKey v) Hwf) as (Hwf' & Hview & Hget).
  destruct (find_iterator tag o s (ToKey v) Hwf) as [Hit Horig].
  pose proof (find_backups tag o s (ToKey v)) as Hb.
  destruct (find ToKey tag o s (ToKey v)) as [s' it]. simpl in *. rewrite <-Hget.
  destruct tag, it as [it|]; simpl in *; [|by split_and!..].
  assert (is_Some (iterator_get o s' (ToKey v) it)) as [v0 Hv0].
  { symmetry in Hit. revert Hit. unfold find_const, find_tagged_const, find_original, find_added.
    contains_cases; intros; simplify_eq/=; eauto. }
  rewrite Hv0. destruct (write_spec MutableTypeTag o s' (ToKey v) it v0 v) as [? Hw]; try done.
  { intros ->. by apply Horig. }
  split_and!; [done|by rewrite Hw, Hview|done|].
  intros l Hl. destruct it; by apply Hb.
Qed.

Lemma delta_op_simulates tag o s w bs op :
  unique_elements tag → keyed o → delta_simulates tag o s w bs →
  let '(s', r) := delta_op tag o op s in
  let '((w', bs'), r') := spec_delta_op tag o w bs op in
  delta_simulates tag o s' w' bs' ∧ r = r'.
Proof.
  intros Hu Hk (Hwf & <- & l & Hl & -> & Hall). destruct op; simpl.
  - rewrite find_const_spec by done. by split; [split_and!; eauto|].
  - rewrite (contains_spec tag) by done. by split; [split_and!; eauto|].
  - destruct (modify_simulates tag o s v Hwf) as (? & Hv & Hr & Hb).
    destruct (modify_found tag o v s). simpl in *. rewrite Hr. split; [split_and!; eauto|done].
  - pose proof (delta_insert_spec tag o s v Hu Hwf). pose proof (insert_backups tag o s v) as Hb.
    destruct (insert ToKey tag o v s). simpl in *. destruct_and!. split; [split_and!; eauto|congruence].
  - pose proof (delta_remove_spec tag o s k Hwf). pose proof (remove_backups tag o s k) as Hb.
    destruct (remove tag o k s). simpl in *. destruct_and!. split; [split_and!; eauto|congruence].
  - rewrite (size_spec tag) by done. by split; [split_and!; eauto|].
  - split; [split_and!; [done|done|]|done]. destruct Hl as (Ha & Hr & Hc & Hg). destruct replace0.
    + exists [s]. split_and!; try done. by constructor.
    + exists (l ++ [s]). unfold backups. rewrite !fmap_app. simpl. rewrite Ha, Hr, Hc, Hg.
      split_and!; try done. apply Forall_app. auto.
  - destruct l as [|x l _] using rev_ind; simpl.
    + destruct (restore_empty o s Hl) as [Hv Hb]. split; [|done]. split_and!; [|done|by exists []].
      destruct Hl as (Ha & Hr & Hc & Hg). unfold restoreChanges. rewrite Ha, Hr, Hc. by apply wf_empty.
    + destruct (restore_snoc o s l x Hl) as (Hv & Hb & _). rewrite fmap_app. simpl.
      rewrite last_snoc, removelast_last. apply Forall_app in Hall as [Hall [Hx _]%Forall_cons].
      split; [|done]. split_and!; [|done|by exists l].
      destruct Hl as (Ha & Hr & Hc & Hg). unfold restoreChanges.
      rewrite Ha, Hr, Hc, !RestoreElements_snoc. exact Hx.
  - by split; [split_and!; eauto|].
  - by split; [split_and!; eauto|].
  - by split; [split_and!; eauto|].
  - by split; [split_and!; eauto|].
Qed.

Lemma keyed_view tag o s : wf_current tag o s → keyed (view o s).
Proof.
  intros Hwf k v. rewrite view_lookup. intros ?. repeat case_match; simplify_eq.
  - by eapply (wf_copied_keyed _ _ _ _ _ Hwf).
  - by eapply (wf_original_keyed _ _ _ _ _ Hwf).
  - by eapply (wf_added_keyed _ _ _ _ _ Hwf).
Qed.

Lemma commit_simulates tag (b : BaseSet K V) s w bs boundary :
  m_pWeakDelta b = Some s → delta_simulates tag (m_elements b) s w bs →
  let w' := match boundary with None => w | Some k => PruneBaseSet lt k w end in
  commit (λ d, OrderedSetCommitPolicy_Update lt d boundary) b
    = ({| m_elements := w'; m_pWeakDelta := Some new_BaseSetDelta |}, Ok tt)
  ∧ keyed w'.
Proof.
  intros Hb (Hwf & <- & _). simpl. unfold commit, mbind, exec_bind, gets. rewrite Hb.
  unfold commit_delta, OrderedSetCommitPolicy_Update, mbind, exec_bind.
  rewrite (UpdateSet_spec tag _ s) by done.
  pose proof (keyed_view _ _ _ Hwf) as Hk. destruct boundary; simpl; (split; [done|]); [|done].
  intros k' v [Hv _]%map_lookup_filter_Some. by apply Hk.
Qed.

Lemma delta_simulates_new tag o : keyed o → delta_simulates tag o new_BaseSetDelta o [].
Proof.
  intros Hk. split_and!; [by apply wf_empty| |by exists []]. unfold view. simpl.
  by rewrite map_difference_empty, (left_id_L ∅ (∪)), (right_id_L ∅ (∪)).
Qed.

Lemma set_op_simulates tag b a op :
  unique_elements tag → simulates tag b a →
  simulates tag (fst (run_op tag b op)) (fst (spec_op tag a op))
  ∧ snd (run_op tag b op) = snd (spec_op tag a op).
Proof.
  intros Hu (Hm & Hk & Hd). unfold simulates.
  destruct b as [m d], a as [c w]. simpl in *. subst m.
  destruct d as [s|], w as [[w bs]|]; try done.
  - pose proof (delta_op_simulates tag c s w bs op Hu Hk Hd) as Hop.
    pose proof (λ bd, commit_simulates tag {| m_elements := c; m_pWeakDelta := Some s |} s w bs bd eq_refl Hd) as Hc.
    unfold run_op, spec_op. simpl.
    destruct (delta_op tag c op s) as [s' r], (spec_delta_op tag c w bs op) as [[w' bs'] r'].
    destruct Hop as [? ->]. destruct op; simpl; try done.
    destruct (Hc boundary) as [-> ?]. simpl. split_and!; auto. by apply delta_simulates_new.
  - destruct op; simpl; auto using delta_simulates_new.
Qed.

Definition new_BaseSet (elements : gmap K V) : BaseSet K V :=
  {| m_elements := elements; m_pWeakDelta := None |}.

(** C5. A base set and the delta attached to it behave as a committed finite
    map with a working copy and a stack of saved working copies: on every
    sequence of find, contains, in-place modification, insert, remove, size,
    backup, restore, rebase, release and commit (with or without a pruning
    boundary) they give the same responses, exceptions included, and end with
    the same committed elements.  In an immutable set elements must be
    determined by their key. *)
Theorem BaseSet_refines_working_copy tag (elements : gmap K V) (ops : list SetOp) :
  unique_elements tag → keyed elements →
  let concrete := trace (run_op tag) (new_BaseSet elements) ops in
  let abstract := trace (spec_op tag) {| committed := elements; working := None |} ops in
  snd concrete = snd abstract ∧ m_elements (fst concrete) = committed (fst abstract).
Proof.
  intros Hu Hk.
  destruct (trace_simulation (simulates tag) (run_op tag) (spec_op tag)
    (λ b a op Hsim, set_op_simulates tag b a op Hu Hsim) ops
    (new_BaseSet elements) {| committed := elements; working := None |}) as [(Hm & _) Hr]; done.
Qed.

(** Committing applies exactly the pending modifications, in whatever
    order the containers enumerate their elements, and never fails on a delta
    that was built by the delta's own operations. *)
Theorem UpdateSet_commits_view tag o s d :
  wf_current tag o s → enumerates d s →
  UpdateSet d o = (view o s, Ok tt)
  ∧ Z.of_nat (base.size (view o s))
    = Z.of_nat (base.size o) - Z.of_nat (base.size (m_removedElements s))
      + Z.of_nat (base.size (m_addedElements s)).
Proof. intros Hwf Hd. split; [by eapply UpdateSet_spec|by eapply view_size]. Qed.

End theorems.

(** * Examples *)

(** An unordered map of accounts-like elements: the key is the first field. *)
Definition sample_elements : gmap Z (Z * Z) := {[ 1 := (1, 10); 2 := (2, 20) ]}.

Definition sample_ops : list (SetOp (K := Z) (V := Z * Z)) :=
  [OpCommit None; OpRebase; OpRebase; OpInsert (3, 30); OpBackup false; OpRemove 1; OpRemove 3;
   OpModify (2, 21); OpFind 2; OpSize; OpRestore; OpFind 3; OpInsert (1, 11); OpCommit (Some 2);
   OpContains 1; OpRestore; OpSize; OpRelease; OpSize].

Lemma sample_keyed : keyed fst sample_elements.
Proof.
  intros k v Hk. unfold sample_elements in Hk.
  repeat (apply lookup_insert_Some in Hk as [[<- <-]|[_ Hk]]; [done|]).
  by apply lookup_singleton_Some in Hk as [<- <-].
Qed.

Lemma BaseSet_refines_working_copy_witness :
  snd (trace (run_op fst Z.lt MutableTypeTag) (new_BaseSet sample_elements) sample_ops)
  = [R_Throw runtime_error; R_Unit; R_Throw runtime_error; R_Flag true; R_Unit; R_Flag true; R_Flag true;
     R_Element (Some (2, 20)); R_Element (Some (2, 21)); R_Size 1; R_Unit; R_Element (Some (3, 30));
     R_Flag false; R_Unit; R_Flag false; R_Unit; R_Size 2; R_Unit; R_NoDelta].
Proof.
  destruct (BaseSet_refines_working_copy fst Z.lt MutableTypeTag sample_elements sample_ops) as [-> _].
  - by intros ?.
  - exact sample_keyed.
  - vm_compute. reflexivity.
Defined.

Definition sample_delta : BaseSetDelta Z (Z * Z) :=
  fst (remove MutableTypeTag sample_elements 1
    (fst (insert fst MutableTypeTag sample_elements (3, 30) new_BaseSetDelta))).

Lemma UpdateSet_commits_view_witness :
  map_to_list (fst (UpdateSet (deltas sample_delta) sample_elements)) = [(3, (3, 30)); (2, (2, 20))].
Proof.
  destruct (UpdateSet_commits_view fst MutableTypeTag sample_elements sample_delta (deltas sample_delta))
    as [-> _].
  - unfold sample_delta.
    pose proof (delta_insert_spec fst MutableTypeTag sample_elements new_BaseSetDelta (3, 30)
      (λ H, ltac:(discriminate H)) (wf_empty _ _ _ sample_keyed)) as Hi.
    pose proof (delta_remove_spec fst MutableTypeTag sample_elements
      (fst (insert fst MutableTypeTag sample_elements (3, 30) new_BaseSetDelta)) 1) as Hr.
    destruct (insert _ _ _ _ _) as [s r], Hi as [Hi _]. specialize (Hr Hi).
    destruct (remove _ _ _ _) as [s' r'], Hr as [Hr _]. exact Hr.
  - done.
  - vm_compute. reflexivity.
Defined.

End DeltaSet.
