(* ===== verification/Streams.v ===== *)
(** Model of the byte streams of catapult::io (BufferInputStreamAdapter.h,
    StringOutputStream.h, PodIoUtils.h): an input stream is the bytes not yet
    read, an output stream is the list of bytes written.  Integers are
    written in the little-endian order of the machine. *)
From stdpp Require Import base tactics numbers option list.
From S2P Require Import Prelude.

Local Open Scope Z_scope.

Module Stream.

(** * Integers as bytes *)

Fixpoint le_bytes (n : nat) (value : Z) : list Z :=
  match n with
  | O => []
  | S n => u8 value :: le_bytes n (Z.shiftr value 8)
  end.

Fixpoint le_value (bytes : list Z) : Z :=
  match bytes with
  | [] => 0
  | b :: bytes => b + 256 * le_value bytes
  end.

Definition Write8 (value : Z) : list Z := le_bytes 1 value.
Definition Write16 (value : Z) : list Z := le_bytes 2 value.
Definition Write32 (value : Z) : list Z := le_bytes 4 value.
Definition Write64 (value : Z) : list Z := le_bytes 8 value.

(** * Reading *)

Abbreviation Reader := (Exec (list Z)).

(** [BufferInputStreamAdapter::read]. *)
Definition read (n : nat) : Reader (list Z) :=
  λ input, if decide (length input < n)%nat then (input, Throw file_io_error)
           else (drop n input, Ok (take n input)).

Definition read_int (n : nat) : Reader Z :=
  bytes ← read n; mret (le_value bytes).

Definition Read8 : Reader Z := read_int 1.
Definition Read16 : Reader Z := read_int 2.
Definition Read32 : Reader Z := read_int 4.
Definition Read64 : Reader Z := read_int 8.

(** * Round trips *)

(** [reads m bytes a]: the reader consumes exactly [bytes] and yields [a]. *)
Definition reads {A} (m : Reader A) (bytes : list Z) (a : A) : Prop :=
  ∀ rest, m (bytes ++ rest) = (rest, Ok a).

Lemma reads_ret {A} (a : A) : reads (mret a) [] a.
Proof. done. Qed.

Lemma reads_bind {A B} (m : Reader A) (f : A → Reader B) b1 b2 a b :
  reads m b1 a → reads (f a) b2 b → reads (m ≫= f) (b1 ++ b2) b.
Proof. intros Hm Hf rest. unfold mbind, exec_bind. by rewrite <-app_assoc, Hm, Hf. Qed.

(** The last read of a sequence. *)
Lemma reads_bind_end {A B} (m : Reader A) (f : A → Reader B) b1 a b :
  reads m b1 a → reads (f a) [] b → reads (m ≫= f) b1 b.
Proof. intros Hm Hf. rewrite <-(app_nil_r b1). by eapply reads_bind. Qed.

Lemma reads_read bytes : reads (read (length bytes)) bytes bytes.
Proof.
  intros rest. unfold read. rewrite length_app, decide_False by lia.
  by rewrite drop_app_length, take_app_length.
Qed.

Lemma le_bytes_length n v : length (le_bytes n v) = n.
Proof. revert v. induction n as [|n IH]; intros v; simpl; [done|]. by rewrite IH. Qed.

Lemma le_bytes_range n v : Forall (in_range 8) (le_bytes n v).
Proof. revert v. induction n as [|n IH]; intros v; simpl; constructor; [by apply wrap_range|done]. Qed.

Lemma le_value_bytes n v : le_value (le_bytes n v) = wrap (8 * Z.of_nat n) v.
Proof.
  revert v. induction n as [|n IH]; intros v; simpl.
  { unfold wrap. change (2 ^ (8 * 0)) with 1. by rewrite Z.mod_1_r. }
  rewrite IH. unfold wrap. rewrite Z.shiftr_div_pow2 by lia.
  replace (8 * Z.of_nat (S n)) with (8 + 8 * Z.of_nat n) by lia.
  rewrite Z.pow_add_r by lia. change (2 ^ 8) with 256.
  rewrite Z.rem_mul_r by (try apply Z.pow_nonzero; lia). lia.
Qed.

Lemma reads_int n v : in_range (8 * Z.of_nat n) v → reads (read_int n) (le_bytes n v) v.
Proof.
  intros Hv rest. unfold read_int, mbind, exec_bind.
  rewrite <-(le_bytes_length n v) at 1. rewrite reads_read.
  by rewrite le_value_bytes, wrap_small.
Qed.

Lemma reads_Read8 v : in_range 8 v → reads Read8 (Write8 v) v.
Proof. apply (reads_int 1). Qed.

Lemma reads_Read16 v : in_range 16 v → reads Read16 (Write16 v) v.
Proof. apply (reads_int 2). Qed.

Lemma reads_Read32 v : in_range 32 v → reads Read32 (Write32 v) v.
Proof. apply (reads_int 4). Qed.

Lemma reads_Read64 v : in_range 64 v → reads Read64 (Write64 v) v.
Proof. apply (reads_int 8). Qed.

#[export] Hint Resolve reads_Read8 reads_Read16 reads_Read32 reads_Read64 reads_ret : chain.

End Stream.
