(* ===== verification/TreeNodePath.v ===== *)
(** Model of catapult::tree::TreeNodePath (src/catapult/tree/TreeNodePath.{h,cpp}):
    a path of nibbles packed into bytes, which may start at an odd nibble.
    The theorems relate every operation to the list of nibbles. *)
From stdpp Require Import base tactics numbers option list.
From S2P Require Import Prelude.

Local Open Scope Z_scope.

#[local] Arguments Nat.div : simpl never.
#[local] Arguments Nat.modulo : simpl never.
#[local] Arguments Nat.mul : simpl never.

Module Path.

(** * Data and operations *)

(** Sizes and offsets are nibble counts; [m_path] is a vector of bytes. *)
Record TreeNodePath := {
  m_size : nat;
  m_adjustment : nat;
  m_path : list Z
}.

#[global] Instance TreeNodePath_eq_dec : EqDecision TreeNodePath.
Proof. solve_decision. Defined.

Definition CalculateByteSize (offset size : nat) : nat :=
  (size / 2 + (if (offset mod 2 =? 0)%nat && (size mod 2 =? 0)%nat then 0 else 1))%nat.

Definition empty_path : TreeNodePath := {| m_size := 0; m_adjustment := 0; m_path := [] |}.

(** The constructor from the bytes of a key, most significant nibble first. *)
Definition path_of_bytes (key : list Z) : TreeNodePath :=
  {| m_size := 2 * length key; m_adjustment := 0; m_path := key |}.

(** The constructor from a scalar of [n] bytes stores them in big-endian order. *)
Fixpoint little_endian (n : nat) (value : Z) : list Z :=
  match n with
  | O => []
  | S n => u8 value :: little_endian n (Z.shiftr value 8)
  end.

Definition path_of_scalar (n : nat) (key : Z) : TreeNodePath :=
  {| m_size := 2 * n; m_adjustment := 0; m_path := reverse (little_endian n key) |}.

(** The private constructor; [memcpy] copies the bytes when the size is not zero. *)
Definition path_slice (path : list Z) (offset size : nat) : TreeNodePath := {|
  m_size := size;
  m_adjustment := (offset mod 2)%nat;
  m_path := let n := CalculateByteSize offset size in
            if decide (size = 0%nat) then replicate n 0 else take n (drop (offset / 2)%nat path)
|}.

Definition empty (p : TreeNodePath) : bool := (0 =? m_size p)%nat.

Definition size (p : TreeNodePath) : nat := m_size p.

Definition nibbleAt (p : TreeNodePath) (index : nat) : Z :=
  let index := (index + m_adjustment p)%nat in
  let byte := default 0 (m_path p !! (index / 2)%nat) in
  if (index mod 2 =? 0)%nat then Z.shiftr (Z.land byte 0xF0) 4 else Z.land byte 0x0F.

Fixpoint difference_loop (fuel : nat) (lhs rhs : TreeNodePath) (index : nat) : nat :=
  match fuel with
  | O => index
  | S fuel =>
      if (index <? size lhs)%nat && (index <? size rhs)%nat && (nibbleAt lhs index =? nibbleAt rhs index)
      then difference_loop fuel lhs rhs (S index) else index
  end.

(** The loop runs at most once per nibble of [lhs]. *)
Definition FindFirstDifferenceIndex (lhs rhs : TreeNodePath) : nat :=
  difference_loop (size lhs) lhs rhs 0.

Definition path_eqb (lhs rhs : TreeNodePath) : bool :=
  (size lhs =? size rhs)%nat && (size lhs =? FindFirstDifferenceIndex lhs rhs)%nat.

Definition subpath (p : TreeNodePath) (offset size : nat) : TreeNodePath :=
  path_slice (m_path p) (offset + m_adjustment p) size.

(** [offset] is at most the size of the path in every call. *)
Definition subpath_from (p : TreeNodePath) (offset : nat) : TreeNodePath :=
  subpath p offset (size p - offset).

(** JoinBuilder: the next nibble index and the bytes. *)
Definition JoinBuilder : Type := nat * list Z.

Definition addNibble (b : JoinBuilder) (nibble : Z) : JoinBuilder :=
  let '(index, path) := b in
  let byte := default 0 (path !! (index / 2)%nat) in
  let byte := Z.lor byte (if (index mod 2 =? 0)%nat then u8 (Z.shiftl nibble 4) else Z.land nibble 0x0F) in
  (S index, <[(index / 2)%nat := byte]> path).

Definition addNibbles (b : JoinBuilder) (p : TreeNodePath) : JoinBuilder :=
  foldl (λ b i, addNibble b (nibbleAt p i)) b (seq 0 (size p)).

Definition new_JoinBuilder (size : nat) : JoinBuilder := (0%nat, replicate size 0).

Definition Join (lhs rhs : TreeNodePath) : TreeNodePath :=
  let joinedPathSize := (size lhs + size rhs)%nat in
  let builder := new_JoinBuilder ((joinedPathSize + 1) / 2) in
  let builder := addNibbles builder lhs in
  let builder := addNibbles builder rhs in
  path_slice (snd builder) 0 joinedPathSize.

Definition Join_nibble (lhs : TreeNodePath) (nibble : Z) (rhs : TreeNodePath) : TreeNodePath :=
  let joinedPathSize := (size lhs + 1 + size rhs)%nat in
  let builder := new_JoinBuilder ((joinedPathSize + 1) / 2) in
  let builder := addNibbles builder lhs in
  let builder := addNibble builder nibble in
  let builder := addNibbles builder rhs in
  path_slice (snd builder) 0 joinedPathSize.

(** * Specification *)

(** The nibbles of a path. *)
Definition nibbles (p : TreeNodePath) : list Z := nibbleAt p <$> seq 0 (size p).

Definition is_byte (x : Z) : Prop := in_range 8 x.
Definition is_nibble (x : Z) : Prop := in_range 4 x.

(** The bytes hold all the nibbles. *)
Record wf (p : TreeNodePath) : Prop := {
  wf_bytes : Forall is_byte (m_path p);
  wf_adjustment : (m_adjustment p < 2)%nat;
  wf_length : (m_adjustment p + m_size p ≤ 2 * length (m_path p))%nat
}.

(** The nibbles packed in a vector of bytes. *)
Definition byte_nibble (bytes : list Z) (i : nat) : Z :=
  let byte := default 0 (bytes !! (i / 2)%nat) in
  if (i mod 2 =? 0)%nat then Z.shiftr (Z.land byte 0xF0) 4 else Z.land byte 0x0F.

Lemma nibbleAt_byte p i : nibbleAt p i = byte_nibble (m_path p) (i + m_adjustment p).
Proof. done. Qed.

Lemma nibbles_length p : length (nibbles p) = size p.
Proof. unfold nibbles. by rewrite length_fmap, length_seq. Qed.

Lemma nibbles_lookup p i : (i < size p)%nat → nibbles p !! i = Some (nibbleAt p i).
Proof. intros. unfold nibbles. rewrite list_lookup_fmap, lookup_seq_lt by done. done. Qed.

(** ** Nibbles of a byte *)

Definition high (b : Z) : Z := Z.shiftr (Z.land b 0xF0) 4.
Definition low (b : Z) : Z := Z.land b 0x0F.

Lemma high_lor a b : high (Z.lor a b) = Z.lor (high a) (high b).
Proof. unfold high. by rewrite Z.land_lor_distr_l, Z.shiftr_lor. Qed.

Lemma low_lor a b : low (Z.lor a b) = Z.lor (low a) (low b).
Proof. unfold low. by rewrite Z.land_lor_distr_l. Qed.

Lemma low_mod b : low b = b mod 16.
Proof. unfold low. change 0x0F with (Z.ones 4). by rewrite Z.land_ones. Qed.

Lemma high_div b : high b = (b / 16) mod 16.
Proof.
  unfold high. rewrite Z.shiftr_land. change (Z.shiftr 0xF0 4) with (Z.ones 4).
  by rewrite Z.land_ones, Z.shiftr_div_pow2.
Qed.

Lemma nibble_bits n : is_nibble n →
  high (u8 (Z.shiftl n 4)) = n ∧ low (u8 (Z.shiftl n 4)) = 0
  ∧ high (Z.land n 0x0F) = 0 ∧ low (Z.land n 0x0F) = n.
Proof.
  unfold is_nibble, in_range. intros Hn.
  change 0x0F with (Z.ones 4). rewrite !high_div, !low_mod, Z.land_ones, Z.shiftl_mul_pow2 by lia.
  unfold wrap. change (2 ^ 4) with 16 in *. change (2 ^ 8) with 256.
  split_and!; Z.div_mod_to_equations; lia.
Qed.

Lemma byte_nibble_cases bytes i :
  byte_nibble bytes i =
  let b := default 0 (bytes !! (i / 2)%nat) in
  if (i mod 2 =? 0)%nat then high b else low b.
Proof. done. Qed.

Lemma byte_nibble_range bytes i : is_nibble (byte_nibble bytes i).
Proof.
  rewrite byte_nibble_cases. simpl. unfold is_nibble, in_range.
  case_match; rewrite ?high_div, ?low_mod; apply Z.mod_pos_bound; lia.
Qed.

Lemma nibbleAt_range p i : is_nibble (nibbleAt p i).
Proof. apply byte_nibble_range. Qed.

Lemma nibbles_range p : Forall is_nibble (nibbles p).
Proof. apply Forall_fmap, Forall_forall. intros. apply nibbleAt_range. Qed.

(** ** Slices *)

Lemma path_slice_length (path : list Z) offset size :
  (offset + size ≤ 2 * length path)%nat →
  length (m_path (path_slice path offset size)) = CalculateByteSize offset size.
Proof.
  intros Hlen. unfold path_slice. cbn [m_path]. case_decide; [apply length_replicate|].
  rewrite length_take, length_drop. unfold CalculateByteSize.
  pose proof (Nat.div_mod_eq offset 2). pose proof (Nat.div_mod_eq size 2).
  pose proof (Nat.mod_upper_bound offset 2 ltac:(lia)). pose proof (Nat.mod_upper_bound size 2 ltac:(lia)).
  destruct (offset mod 2 =? 0)%nat eqn:E1, (size mod 2 =? 0)%nat eqn:E2;
    rewrite ?Nat.eqb_eq, ?Nat.eqb_neq in *; cbn [andb]; lia.
Qed.

Lemma nibbleAt_slice path offset size i :
  (offset + size ≤ 2 * length path)%nat → (i < size)%nat →
  nibbleAt (path_slice path offset size) i = byte_nibble path (offset + i).
Proof.
  intros Hlen Hi. rewrite nibbleAt_byte. simpl. rewrite decide_False by lia.
  pose proof (Nat.div_mod_eq offset 2) as Ho. pose proof (Nat.mod_upper_bound offset 2 ltac:(lia)) as Hm.
  assert ((offset + i) / 2 = offset / 2 + (i + offset mod 2) / 2)%nat as Hdiv.
  { rewrite Ho at 1. replace (2 * (offset / 2) + offset mod 2 + i)%nat
      with ((i + offset mod 2) + (offset / 2) * 2)%nat by lia. rewrite Nat.div_add by lia. lia. }
  assert ((offset + i) mod 2 = (i + offset mod 2) mod 2)%nat as Hmod.
  { rewrite Ho at 1. replace (2 * (offset / 2) + offset mod 2 + i)%nat
      with ((i + offset mod 2) + (offset / 2) * 2)%nat by lia. by rewrite Nat.Div0.mod_add. }
  assert (i + offset mod 2 < 2 * CalculateByteSize offset size)%nat as Hlt.
  { unfold CalculateByteSize.
    pose proof (Nat.div_mod_eq size 2). pose proof (Nat.mod_upper_bound size 2 ltac:(lia)).
    destruct (offset mod 2 =? 0)%nat eqn:E1, (size mod 2 =? 0)%nat eqn:E2;
      rewrite ?Nat.eqb_eq, ?Nat.eqb_neq in *; cbn [andb]; lia. }
  unfold byte_nibble. rewrite Hdiv, Hmod, lookup_take_lt, lookup_drop; [done|].
  by apply Nat.Div0.div_lt_upper_bound.
Qed.

Lemma slice_wf path offset size :
  Forall is_byte path → (offset + size ≤ 2 * length path)%nat → wf (path_slice path offset size).
Proof.
  intros Hb Hlen. pose proof (Nat.mod_upper_bound offset 2 ltac:(lia)).
  constructor; [|done|rewrite path_slice_length by done].
  - unfold path_slice. cbn [m_path]. case_decide.
    + by apply Forall_replicate.
    + by apply Forall_take, Forall_drop.
  - unfold path_slice, CalculateByteSize. cbn [m_adjustment m_size].
    pose proof (Nat.div_mod_eq size 2). pose proof (Nat.mod_upper_bound size 2 ltac:(lia)).
    destruct (offset mod 2 =? 0)%nat eqn:E1, (size mod 2 =? 0)%nat eqn:E2;
      rewrite ?Nat.eqb_eq, ?Nat.eqb_neq in *; cbn [andb]; lia.
Qed.

Lemma subpath_wf p offset n : wf p → (offset + n ≤ size p)%nat → wf (subpath p offset n).
Proof. intros [Hb Ha Hl] Hn. apply slice_wf; [done|]. unfold size in *. lia. Qed.

Lemma nibbles_subpath p offset n :
  wf p → (offset + n ≤ size p)%nat → nibbles (subpath p offset n) = take n (drop offset (nibbles p)).
Proof.
  intros [Hb Ha Hl] Hn. apply list_eq_same_length with n.
  - rewrite length_take, length_drop, nibbles_length. lia.
  - by rewrite nibbles_length.
  - intros i x y Hi. unfold size in *.
    rewrite nibbles_lookup by done. rewrite lookup_take_lt, lookup_drop, nibbles_lookup by (unfold size; lia).
    intros [= <-] [= <-]. unfold subpath. rewrite nibbleAt_slice by lia. rewrite nibbleAt_byte. f_equal. lia.
Qed.

Lemma subpath_from_wf p offset : wf p → (offset ≤ size p)%nat → wf (subpath_from p offset).
Proof. intros. apply subpath_wf; [done|lia]. Qed.

Lemma nibbles_subpath_from p offset :
  wf p → (offset ≤ size p)%nat → nibbles (subpath_from p offset) = drop offset (nibbles p).
Proof.
  intros. unfold subpath_from. rewrite nibbles_subpath by (done || lia).
  apply take_ge. rewrite length_drop, nibbles_length. lia.
Qed.

(** ** First difference and equality *)

(** The length of the longest common prefix. *)
Fixpoint lcp (l r : list Z) : nat :=
  match l, r with
  | x :: l', y :: r' => if x =? y then S (lcp l' r') else 0%nat
  | _, _ => 0%nat
  end.

Lemma difference_loop_lcp lhs rhs fuel i :
  (size lhs ≤ i + fuel)%nat →
  difference_loop fuel lhs rhs i = (i + lcp (drop i (nibbles lhs)) (drop i (nibbles rhs)))%nat.
Proof.
  revert i. induction fuel as [|fuel IH]; intros i Hf; simpl.
  { rewrite drop_ge by (rewrite nibbles_length; lia). simpl. lia. }
  destruct (Nat.ltb_spec i (size lhs)).
  2: { rewrite (drop_ge (nibbles lhs)) by (rewrite nibbles_length; lia). simpl. lia. }
  rewrite (drop_S (nibbles lhs) _ i) by (by apply nibbles_lookup).
  destruct (Nat.ltb_spec i (size rhs)); simpl.
  2: { rewrite (drop_ge (nibbles rhs)) by (rewrite nibbles_length; lia). simpl. lia. }
  rewrite (drop_S (nibbles rhs) _ i) by (by apply nibbles_lookup). simpl.
  destruct (nibbleAt lhs i =? nibbleAt rhs i); simpl; [|lia]. rewrite IH by lia. lia.
Qed.

Lemma FindFirstDifferenceIndex_lcp lhs rhs :
  FindFirstDifferenceIndex lhs rhs = lcp (nibbles lhs) (nibbles rhs).
Proof. unfold FindFirstDifferenceIndex. by rewrite difference_loop_lcp, !drop_0. Qed.

Lemma lcp_le_l l r : (lcp l r ≤ length l)%nat.
Proof. revert r. induction l as [|x l IH]; intros [|y r]; simpl; try lia. case_match; [|lia]. specialize (IH r). lia. Qed.

Lemma lcp_le_r l r : (lcp l r ≤ length r)%nat.
Proof. revert r. induction l as [|x l IH]; intros [|y r]; simpl; try lia. case_match; [|lia]. specialize (IH r). lia. Qed.

Lemma lcp_full_l l r : lcp l r = length l ↔ l `prefix_of` r.
Proof.
  revert r. induction l as [|x l IH]; intros r; simpl.
  { split; [intros; apply prefix_nil|by destruct r]. }
  destruct r as [|y r]; [split; [done|by intros ?%prefix_nil_not]|].
  destruct (Z.eqb_spec x y) as [->|].
  - split; [intros [= ?]; apply prefix_cons, IH; lia|].
    intros ?%prefix_cons_inv_2%IH. lia.
  - split; [done|]. by intros ?%prefix_cons_inv_1.
Qed.

Lemma lcp_comm l r : lcp l r = lcp r l.
Proof. revert r. induction l as [|x l IH]; intros [|y r]; simpl; try done. rewrite Z.eqb_sym, IH. done. Qed.

(** Two lists split at their first difference. *)
Lemma lcp_split l r :
  (lcp l r < length l)%nat → (lcp l r < length r)%nat →
  ∃ p x y l' r', l = p ++ x :: l' ∧ r = p ++ y :: r' ∧ x ≠ y ∧ length p = lcp l r.
Proof.
  revert r. induction l as [|x l IH]; intros [|y r]; simpl; try lia.
  destruct (Z.eqb_spec x y) as [->|]; intros H1 H2.
  - destruct (IH r) as (p & x' & y' & l' & r' & -> & -> & ? & ?); [lia..|].
    exists (y :: p), x', y', l', r'. simpl. auto.
  - by exists [], x, y, l, r.
Qed.

Lemma path_eqb_spec lhs rhs : path_eqb lhs rhs = true ↔ nibbles lhs = nibbles rhs.
Proof.
  unfold path_eqb. rewrite andb_true_iff, !Nat.eqb_eq, FindFirstDifferenceIndex_lcp, <-!nibbles_length.
  split.
  - intros [Hl Hp]. symmetry in Hp. apply lcp_full_l in Hp. by apply prefix_length_eq; [|lia].
  - intros ->. split; [done|]. symmetry. by apply lcp_full_l.
Qed.

(** ** Joins *)

Record builder_ok (b : JoinBuilder) (ns : list Z) (n : nat) : Prop := {
  builder_index : fst b = length ns;
  builder_length : length (snd b) = n;
  builder_bytes : Forall is_byte (snd b);
  builder_nibbles i : byte_nibble (snd b) i = default 0 (ns !! i)
}.

Lemma new_builder_ok n : builder_ok (new_JoinBuilder n) [] n.
Proof.
  constructor; simpl; [done|by rewrite length_replicate|by apply Forall_replicate|].
  intros i. unfold byte_nibble. destruct (replicate n 0 !! _) eqn:E.
  - apply lookup_replicate in E as [-> _]. by case_match.
  - by case_match.
Qed.

Lemma lor_byte a b : is_byte a → is_byte b → is_byte (Z.lor a b).
Proof. apply lor_range. Qed.

Lemma byte_nibble_insert bytes q b i :
  (q < length bytes)%nat →
  byte_nibble (<[q := b]> bytes) i
  = if decide (i / 2 = q)%nat then (if (i mod 2 =? 0)%nat then high b else low b) else byte_nibble bytes i.
Proof.
  intros Hq. rewrite byte_nibble_cases. cbv zeta. case_decide as Hi.
  - subst q. by rewrite list_lookup_insert_eq.
  - by rewrite list_lookup_insert_ne.
Qed.

Lemma nat_half_cases i j : (i / 2 = j / 2)%nat → i = j ∨ (i mod 2 = 0 ∧ j mod 2 = 1 ∧ j = S i)%nat ∨ (i mod 2 = 1 ∧ j mod 2 = 0 ∧ i = S j)%nat.
Proof.
  intros H. pose proof (Nat.div_mod_eq i 2). pose proof (Nat.div_mod_eq j 2).
  pose proof (Nat.mod_upper_bound i 2 ltac:(lia)). pose proof (Nat.mod_upper_bound j 2 ltac:(lia)). lia.
Qed.

Lemma addNibble_ok b ns n x :
  builder_ok b ns n → is_nibble x → (length ns < 2 * n)%nat → builder_ok (addNibble b x) (ns ++ [x]) n.
Proof.
  destruct b as [index path]. intros [Hi Hl Hb Hn] Hx Hlt. simpl in *. subst index.
  assert (length ns / 2 < length path)%nat as Hq by (apply Nat.Div0.div_lt_upper_bound; lia).
  destruct (nibble_bits x Hx) as (Hhh & Hhl & Hlh & Hll).
  set (c := if (length ns mod 2 =? 0)%nat then u8 (Z.shiftl x 4) else Z.land x 0x0F).
  assert (is_byte c) as Hc.
  { unfold c. case_match; [by apply wrap_range|]. change 0x0F with (Z.ones 4). rewrite Z.land_ones by lia.
    unfold is_byte, in_range. pose proof (Z.mod_pos_bound x (2 ^ 4)). lia. }
  constructor; simpl; [rewrite length_app; simpl; lia|by rewrite length_insert| |].
  - apply Forall_insert; [done|]. apply lor_byte; [|done].
    destruct (lookup_lt_is_Some_2 path (length ns / 2)) as [y Hy]; [done|]. rewrite Hy. by eapply Forall_lookup_1.
  - intros i. rewrite byte_nibble_insert by done. case_decide as Hd.
    + rewrite high_lor, low_lor.
      assert ((if (i mod 2 =? 0)%nat then high (default 0 (path !! (length ns / 2)%nat))
               else low (default 0 (path !! (length ns / 2)%nat))) = default 0 (ns !! i)) as Hold.
      { rewrite <-Hn, byte_nibble_cases. by rewrite Hd. }
      destruct (nat_half_cases _ _ Hd) as [->|[(Hm & Hm' & Hs)|(Hm & Hm' & Hs)]].
      * rewrite list_lookup_middle by done. rewrite (lookup_ge_None_2 ns) in Hold by lia. simpl in *.
        unfold c. by case_match; rewrite Hold, Z.lor_0_l.
      * rewrite lookup_app_l by lia. rewrite <-Hold. unfold c. rewrite Hm, Hm'. simpl. by rewrite Hlh, Z.lor_0_r.
      * rewrite (lookup_ge_None_2 (ns ++ _)) by (rewrite length_app; simpl; lia).
        rewrite (lookup_ge_None_2 ns) in Hold by lia. unfold c. rewrite Hm, Hm' in *. simpl in *.
        by rewrite Hold, Hhl.
    + rewrite Hn. destruct (decide (i < length ns)%nat).
      * by rewrite lookup_app_l.
      * rewrite !lookup_ge_None_2; [done|rewrite length_app; simpl|lia].
        assert (i ≠ length ns) by congruence. lia.
Qed.

Lemma addNibbles_loop_ok p l b ns n :
  builder_ok b ns n → (length ns + length l ≤ 2 * n)%nat →
  builder_ok (foldl (λ b i, addNibble b (nibbleAt p i)) b l) (ns ++ (nibbleAt p <$> l)) n.
Proof.
  revert b ns. induction l as [|i l IH]; intros b ns Hb Hl; simpl in *.
  { by rewrite app_nil_r. }
  rewrite cons_middle, app_assoc. apply IH; [|rewrite length_app; simpl; lia].
  apply addNibble_ok; [done|apply nibbleAt_range|lia].
Qed.

Lemma addNibbles_ok p b ns n :
  builder_ok b ns n → (length ns + size p ≤ 2 * n)%nat → builder_ok (addNibbles b p) (ns ++ nibbles p) n.
Proof. intros. apply addNibbles_loop_ok; [done|]. by rewrite length_seq. Qed.

Lemma builder_slice b ns n :
  builder_ok b ns n → (length ns ≤ 2 * n)%nat →
  wf (path_slice (snd b) 0 (length ns)) ∧ nibbles (path_slice (snd b) 0 (length ns)) = ns.
Proof.
  intros [Hi Hl Hb Hn] Hle. split; [apply slice_wf; [done|lia]|].
  apply list_eq_same_length with (length ns); [done|by rewrite nibbles_length|].
  intros i x y Hlt. rewrite nibbles_lookup by done. rewrite nibbleAt_slice by lia.
  rewrite Nat.add_0_l, Hn. intros [= <-] ->. done.
Qed.

Lemma half_up n : (n ≤ 2 * ((n + 1) / 2))%nat.
Proof. pose proof (Nat.div_mod_eq (n + 1) 2). pose proof (Nat.mod_upper_bound (n + 1) 2 ltac:(lia)). lia. Qed.

Lemma Join_spec lhs rhs :
  wf (Join lhs rhs) ∧ nibbles (Join lhs rhs) = nibbles lhs ++ nibbles rhs.
Proof.
  unfold Join. pose proof (half_up (size lhs + size rhs)).
  pose proof (addNibbles_ok lhs _ _ _ (new_builder_ok ((size lhs + size rhs + 1) / 2)) ltac:(simpl; lia)) as Hb.
  apply (addNibbles_ok rhs) in Hb; [|simpl; rewrite nibbles_length; lia]. simpl in Hb.
  pose proof (builder_slice _ _ _ Hb) as Hs. rewrite length_app, !nibbles_length in Hs. apply Hs. lia.
Qed.

Lemma Join_nibble_spec lhs x rhs :
  is_nibble x →
  wf (Join_nibble lhs x rhs) ∧ nibbles (Join_nibble lhs x rhs) = nibbles lhs ++ x :: nibbles rhs.
Proof.
  intros Hx. unfold Join_nibble. pose proof (half_up (size lhs + 1 + size rhs)).
  pose proof (addNibbles_ok lhs _ _ _ (new_builder_ok ((size lhs + 1 + size rhs + 1) / 2)) ltac:(simpl; lia)) as Hb.
  simpl in Hb. apply (addNibble_ok _ _ _ x) in Hb; [|done|rewrite nibbles_length; lia].
  apply (addNibbles_ok rhs) in Hb; [|rewrite length_app, nibbles_length; simpl; lia].
  pose proof (builder_slice _ _ _ Hb) as Hs. rewrite !length_app, !nibbles_length in Hs. simpl in Hs.
  rewrite <-app_assoc in Hs. simpl in Hs. apply Hs. lia.
Qed.

Lemma path_of_bytes_wf key : Forall is_byte key → wf (path_of_bytes key).
Proof. intros. constructor; simpl; [done|lia|lia]. Qed.

Lemma empty_path_wf : wf empty_path.
Proof. constructor; simpl; [constructor|lia|lia]. Qed.

(** A path is determined by its key. *)
Lemma path_of_bytes_inj key1 key2 :
  Forall is_byte key1 → Forall is_byte key2 →
  nibbles (path_of_bytes key1) = nibbles (path_of_bytes key2) → key1 = key2.
Proof.
  intros H1 H2 Heq. assert (length key1 = length key2) as Hl.
  { apply (f_equal length) in Heq. rewrite !nibbles_length in Heq. unfold size in Heq. simpl in Heq. lia. }
  apply list_eq_same_length with (length key1); [done|done|].
  intros i x y Hi Hx Hy.
  assert (∀ j, (j < 2 * length key1)%nat → byte_nibble key1 j = byte_nibble key2 j) as Hn.
  { intros j Hj. apply (f_equal (lookup j)) in Heq.
    rewrite !nibbles_lookup in Heq by (unfold size; simpl; lia).
    rewrite !nibbleAt_byte in Heq. simpl in Heq. rewrite Nat.add_0_r in Heq. congruence. }
  pose proof (Hn (2 * i)%nat ltac:(lia)) as Hh. pose proof (Hn (1 + i * 2)%nat ltac:(lia)) as Hlo.
  rewrite !byte_nibble_cases in *. replace (2 * i)%nat with (i * 2)%nat in Hh by lia.
  rewrite Nat.div_mul, Nat.Div0.mod_mul in Hh by lia.
  rewrite Nat.div_add, Nat.Div0.mod_add in Hlo by lia. simpl in *. rewrite Hx, Hy in *. simpl in *.
  rewrite !high_div in Hh. rewrite !low_mod in Hlo.
  rewrite Forall_lookup in H1, H2. specialize (H1 _ _ Hx). specialize (H2 _ _ Hy).
  unfold is_byte, in_range in *. change (2 ^ 8) with 256 in *. Z.div_mod_to_equations. lia.
Qed.

#[export] Hint Resolve subpath_wf subpath_from_wf empty_path_wf path_of_bytes_wf nibbles_range nibbleAt_range : chain.

(** Operations on packed paths are operations on lists of nibbles: slicing
    (from an odd or an even nibble), joining with and without a nibble in
    between, equality and the index of the first difference. *)
Theorem path_operations p q offset n x :
  wf p → (offset + n ≤ size p)%nat → is_nibble x →
  nibbles (subpath p offset n) = take n (drop offset (nibbles p))
  ∧ nibbles (Join p q) = nibbles p ++ nibbles q
  ∧ nibbles (Join_nibble p x q) = nibbles p ++ x :: nibbles q
  ∧ (path_eqb p q = true ↔ nibbles p = nibbles q)
  ∧ FindFirstDifferenceIndex p q = lcp (nibbles p) (nibbles q).
Proof.
  intros. split_and!; [by apply nibbles_subpath|apply Join_spec|by apply Join_nibble_spec|
    apply path_eqb_spec|apply FindFirstDifferenceIndex_lcp].
Qed.

Lemma path_operations_witness :
  nibbles (subpath (path_of_bytes [0x12; 0x34; 0x56]) 1 3) = [2; 3; 4]
  ∧ nibbles (Join_nibble (path_of_bytes [0x12; 0x34; 0x56]) 7 empty_path) = [1; 2; 3; 4; 5; 6; 7].
Proof.
  destruct (path_operations (path_of_bytes [0x12; 0x34; 0x56]) empty_path 1 3 7) as (-> & _ & -> & _).
  - apply path_of_bytes_wf. repeat constructor; discriminate.
  - vm_compute. lia.
  - split; [discriminate|reflexivity].
  - split; reflexivity.
Defined.

End Path.
