(* ===== verification/Trie.v ===== *)
(** The abstract radix trie the Patricia tree implements: keys are lists of
    nibbles of one length, inner nodes have a shared path and at least two of
    sixteen children.  The trie is canonical: it is determined by its contents. *)
From stdpp Require Import base tactics numbers option list.
From S2P Require Import Prelude TreeNodePath.

Local Open Scope Z_scope.

Module Trie.
Import Path.

Section trie.
Context {V : Type}.

Inductive trie :=
| TLeaf (p : list Z) (v : V)
| TBranch (p : list Z) (cs : list (option trie)).

(** [tmem t k v]: the trie stores [v] under [k]. *)
Inductive tmem : trie → list Z → V → Prop :=
| tmem_leaf p v : tmem (TLeaf p v) p v
| tmem_branch p cs i t k v :
    cs !! i = Some (Some t) → tmem t k v → tmem (TBranch p cs) (p ++ Z.of_nat i :: k) v.

Definition two_children (cs : list (option trie)) : Prop :=
  ∃ i j t u, i ≠ j ∧ cs !! i = Some (Some t) ∧ cs !! j = Some (Some u).

(** [twf d t]: all keys have length [d], all nibbles are in range, and every
    branch has sixteen slots of which at least two are used. *)
Inductive twf : nat → trie → Prop :=
| twf_leaf p v : Forall is_nibble p → twf (length p) (TLeaf p v)
| twf_branch d p cs :
    Forall is_nibble p → length cs = 16%nat → two_children cs →
    (∀ i t, cs !! i = Some (Some t) → twf d t) →
    twf (length p + S d) (TBranch p cs).

Implicit Types (t u : trie) (k : list Z) (v : V).

Lemma twf_nonempty d t : twf d t → ∃ k v, tmem t k v.
Proof.
  induction 1 as [p v|d p cs Hp Hl (i & j & t & u & Hij & Hi & Hj) Hc IH].
  - exists p, v. constructor.
  - destruct (IH i t Hi) as (k & v & Hk). exists (p ++ Z.of_nat i :: k), v. by econstructor.
Qed.

Lemma tmem_key d t k v : twf d t → tmem t k v → length k = d ∧ Forall is_nibble k.
Proof.
  intros Hwf. revert k v. induction Hwf as [p v'|d p cs Hp Hl Hcs Hc IH]; intros k v Hk; inversion Hk; subst.
  - done.
  - destruct (IH _ _ ltac:(eassumption) _ _ ltac:(eassumption)) as [<- Hf].
    rewrite length_app. split; [done|]. apply Forall_app. split; [done|]. constructor; [|done].
    assert (i < 16)%nat by (rewrite <-Hl; by eapply lookup_lt_Some). unfold is_nibble, in_range. simpl. lia.
Qed.

Lemma tmem_leaf_inv p v k v' : tmem (TLeaf p v) k v' ↔ k = p ∧ v' = v.
Proof. split; [by inversion 1|]. intros [-> ->]. constructor. Qed.

Lemma tmem_branch_inv p cs k v :
  tmem (TBranch p cs) k v ↔
  ∃ i t k', k = p ++ Z.of_nat i :: k' ∧ cs !! i = Some (Some t) ∧ tmem t k' v.
Proof.
  split; [inversion 1; subst; naive_solver|]. intros (i & t & k' & -> & ? & ?). by econstructor.
Qed.

(** Below one child of a branch. *)
Lemma tmem_child p cs i k v :
  tmem (TBranch p cs) (p ++ Z.of_nat i :: k) v ↔ ∃ t, cs !! i = Some (Some t) ∧ tmem t k v.
Proof.
  rewrite tmem_branch_inv. split.
  - intros (i' & t & k' & Heq & ? & ?). apply app_inv_head in Heq. simplify_eq. eauto.
  - intros (t & ? & ?). exists i, t, k. auto.
Qed.

Lemma tmem_functional d t k v v' : twf d t → tmem t k v → tmem t k v' → v = v'.
Proof.
  intros Hwf. revert k v v'. induction Hwf as [p v0|d p cs Hp Hl Hcs Hc IH]; intros k v v' H1 H2.
  - apply tmem_leaf_inv in H1 as [-> ->]. by apply tmem_leaf_inv in H2 as [_ ->].
  - apply tmem_branch_inv in H1 as (i & t & k' & -> & Hi & H1).
    apply tmem_child in H2 as (t' & Ht' & H2). simplify_eq. eauto.
Qed.

(** ** Canonicity *)

(** Two keys of a branch that differ right after its path. *)
Lemma branch_diverges d p cs :
  twf d (TBranch p cs) →
  ∃ i j k k' v v', i ≠ j ∧ tmem (TBranch p cs) (p ++ Z.of_nat i :: k) v
                   ∧ tmem (TBranch p cs) (p ++ Z.of_nat j :: k') v'.
Proof.
  inversion 1 as [|d' p' cs' Hp Hl (i & j & t & u & Hij & Hi & Hj) Hc]; subst.
  destruct (twf_nonempty _ _ (Hc i t Hi)) as (k & v & Hk).
  destruct (twf_nonempty _ _ (Hc j u Hj)) as (k' & v' & Hk').
  exists i, j, k, k', v, v'. split_and!; [done|by econstructor..].
Qed.

Lemma prefix_same_next {A} (p q : list A) x y l l' :
  q `prefix_of` p ++ x :: l → q `prefix_of` p ++ y :: l' → (length p < length q)%nat → x = y.
Proof.
  intros [r Hr] [r' Hr'] Hlt.
  assert (q !! length p = Some x) as Hx.
  { rewrite <-(lookup_app_l q r) by done. rewrite <-Hr. by apply list_lookup_middle. }
  assert (q !! length p = Some y) as Hy.
  { rewrite <-(lookup_app_l q r') by done. rewrite <-Hr'. by apply list_lookup_middle. }
  congruence.
Qed.

Lemma branch_path_prefix p cs k v : tmem (TBranch p cs) k v → p `prefix_of` k.
Proof. intros (i & t & k' & -> & _)%tmem_branch_inv. by apply prefix_app_r. Qed.

(** The shared path of a branch is determined by the keys below it. *)
Lemma branch_path_le d d' p q cs cs' :
  twf d (TBranch p cs) → (∀ k v, tmem (TBranch p cs) k v → tmem (TBranch q cs') k v) →
  twf d' (TBranch q cs') → (length q ≤ length p)%nat.
Proof.
  intros (i & j & k & k' & v & v' & Hij & Hi & Hj)%branch_diverges Hsub _.
  destruct (decide (length p < length q)%nat) as [Hlt|]; [|lia].
  apply Hsub, branch_path_prefix in Hi. apply Hsub, branch_path_prefix in Hj.
  pose proof (prefix_same_next p q _ _ _ _ Hi Hj Hlt). lia.
Qed.

Lemma branch_not_leaf d p cs q v :
  twf d (TBranch p cs) → ¬ (∀ k v', tmem (TBranch p cs) k v' → tmem (TLeaf q v) k v').
Proof.
  intros (i & j & k & k' & w & w' & Hij & Hi & Hj)%branch_diverges Hsub.
  apply Hsub, tmem_leaf_inv in Hi as [Hi _]. apply Hsub, tmem_leaf_inv in Hj as [Hj _].
  rewrite <-Hj in Hi. apply app_inv_head in Hi. by simplify_eq.
Qed.

Definition same_contents t u : Prop := ∀ k v, tmem t k v ↔ tmem u k v.

Lemma trie_canonical d t u : twf d t → twf d u → same_contents t u → t = u.
Proof.
  intros Ht. revert u. induction Ht as [p v Hp|d p cs Hp Hl Hcs Hc IH]; intros u Hu Hsame.
  - destruct u as [q w|q cs'].
    + pose proof (proj1 (Hsame p v) (tmem_leaf p v)) as [-> ->]%tmem_leaf_inv. done.
    + exfalso. eapply branch_not_leaf; [exact Hu|]. intros. by apply Hsame.
  - assert (twf (length p + S d) (TBranch p cs)) as Ht by by constructor.
    destruct u as [q w|q cs'].
    { exfalso. eapply branch_not_leaf; [exact Ht|]. intros. by apply Hsame. }
    assert (length p = length q) as Hpq.
    { apply Nat.le_antisymm; eapply branch_path_le; eauto; intros; by apply Hsame. }
    assert (p = q) as <-.
    { destruct (twf_nonempty _ _ Ht) as (k & v & Hk).
      destruct (branch_path_prefix _ _ _ _ Hk) as [r Hr].
      apply Hsame, branch_path_prefix in Hk as [r' Hr']. rewrite Hr in Hr'.
      by apply app_inj_1 in Hr' as [? _]. }
    inversion Hu as [|d' p' cs'' _ Hl' _ Hc' Hd]; subst. assert (d' = d) as -> by lia.
    f_equal. apply list_eq_same_length with 16%nat; [done..|].
    intros i x y Hi Hx Hy.
    assert (∀ k v, (∃ t, cs !! i = Some (Some t) ∧ tmem t k v)
                   ↔ ∃ t, cs' !! i = Some (Some t) ∧ tmem t k v) as Hchild.
    { intros k v. rewrite <-!(tmem_child p). apply Hsame. }
    destruct x as [t|], y as [u|]; [f_equal; apply (IH i); eauto| | |done].
    + intros k v. specialize (Hchild k v). rewrite Hx, Hy in Hchild. naive_solver.
    + destruct (twf_nonempty _ _ (Hc _ _ Hx)) as (k & v & Hk).
      destruct (proj1 (Hchild k v)) as (u & ? & _); [by eauto|]. congruence.
    + destruct (twf_nonempty _ _ (Hc' _ _ Hy)) as (k & v & Hk).
      destruct (proj2 (Hchild k v)) as (t & ? & _); [by eauto|]. congruence.
Qed.

(** ** Changing the path of the top node *)

Definition tpath t : list Z := match t with TLeaf p _ => p | TBranch p _ => p end.

Definition with_path t (p : list Z) : trie :=
  match t with TLeaf _ v => TLeaf p v | TBranch _ cs => TBranch p cs end.

Lemma tmem_with_path t p k v :
  tmem (with_path t p) k v ↔ ∃ k', k = p ++ k' ∧ tmem t (tpath t ++ k') v.
Proof.
  destruct t as [q w|q cs]; simpl.
  - rewrite tmem_leaf_inv. setoid_rewrite tmem_leaf_inv. split.
    + intros [-> ->]. exists []. by rewrite !app_nil_r.
    + intros (k' & -> & Hk & ->). rewrite <-(app_nil_r q) in Hk at 2. apply app_inv_head in Hk as ->.
      by rewrite app_nil_r.
  - setoid_rewrite tmem_branch_inv. split.
    + intros (i & t & k' & -> & ? & ?). exists (Z.of_nat i :: k'). split; [done|]. naive_solver.
    + intros (k' & -> & i & t & k'' & Heq & ? & ?). apply app_inv_head in Heq as ->. naive_solver.
Qed.

Lemma twf_with_path d t (p q : list Z) :
  twf (length (tpath t) + d) t → length p = length q → Forall is_nibble p →
  twf (length q + d) (with_path t p).
Proof.
  intros Hwf Hlen Hp. rewrite <-Hlen. destruct t as [r v|r cs]; simpl in *.
  - inversion Hwf; subst. assert (d = 0%nat) as -> by lia. rewrite Nat.add_0_r. by constructor.
  - inversion Hwf as [|d' ? ? ? ? ? ? Hd]; subst. assert (d = S d') as -> by lia. by constructor.
Qed.

Lemma twf_tpath d t : twf d t → Forall is_nibble (tpath t) ∧ (length (tpath t) ≤ d)%nat.
Proof. inversion 1; subst; simpl; split; auto; lia. Qed.

Lemma tmem_tpath t k v : tmem t k v → ∃ k', k = tpath t ++ k'.
Proof. inversion 1; subst; simpl; [exists []; by rewrite app_nil_r|eauto]. Qed.

(** ** Updates *)

Definition updated t k v t' : Prop :=
  ∀ k' v', tmem t' k' v' ↔ (k' = k ∧ v' = v) ∨ (k' ≠ k ∧ tmem t k' v').

Definition removed t k t' : Prop := ∀ k' v', tmem t' k' v' ↔ k' ≠ k ∧ tmem t k' v'.

Lemma updated_leaf p v v' : updated (TLeaf p v) p v' (TLeaf p v').
Proof. intros k w. rewrite !tmem_leaf_inv. naive_solver. Qed.

Lemma updated_child p cs i t k v t' :
  cs !! i = Some (Some t) → updated t k v t' →
  updated (TBranch p cs) (p ++ Z.of_nat i :: k) v (TBranch p (<[i := Some t']> cs)).
Proof.
  intros Hi Ht k' v'. assert (i < length cs)%nat by (by eapply lookup_lt_Some).
  rewrite !tmem_branch_inv. split.
  - intros (j & u & k'' & -> & Hj & Hm). destruct (decide (j = i)) as [->|].
    + rewrite list_lookup_insert_eq in Hj by done. simplify_eq. apply Ht in Hm as [[-> ->]|[? ?]]; [by left|].
      right. split; [|naive_solver]. intros Heq. apply app_inv_head in Heq. by simplify_eq.
    + rewrite list_lookup_insert_ne in Hj by done. right. split; [|naive_solver].
      intros Heq. apply app_inv_head in Heq. by simplify_eq.
  - intros [[-> ->]|[Hne (j & u & k'' & -> & Hj & Hm)]].
    + exists i, t', k. rewrite list_lookup_insert_eq by done. split_and!; [done..|]. apply Ht. auto.
    + destruct (decide (j = i)) as [->|].
      * exists i, t', k''. rewrite list_lookup_insert_eq by done. simplify_eq. split_and!; [done..|].
        apply Ht. right. split; [|done]. intros ->. done.
      * exists j, u, k''. by rewrite list_lookup_insert_ne.
Qed.

Lemma updated_new_child p cs i k v :
  cs !! i = Some None →
  updated (TBranch p cs) (p ++ Z.of_nat i :: k) v (TBranch p (<[i := Some (TLeaf k v)]> cs)).
Proof.
  intros Hi k' v'. assert (i < length cs)%nat by (by eapply lookup_lt_Some).
  rewrite !tmem_branch_inv. split.
  - intros (j & u & k'' & -> & Hj & Hm). destruct (decide (j = i)) as [->|].
    + rewrite list_lookup_insert_eq in Hj by done. simplify_eq. apply tmem_leaf_inv in Hm as [-> ->]. by left.
    + rewrite list_lookup_insert_ne in Hj by done. right. split; [|naive_solver].
      intros Heq. apply app_inv_head in Heq. by simplify_eq.
  - intros [[-> ->]|[Hne (j & u & k'' & -> & Hj & Hm)]].
    + exists i, (TLeaf k v), k. rewrite list_lookup_insert_eq by done. split_and!; [done..|constructor].
    + destruct (decide (j = i)) as [->|]; [congruence|].
      exists j, u, k''. by rewrite list_lookup_insert_ne.
Qed.

Lemma two_children_insert cs i t :
  two_children cs → (i < length cs)%nat → two_children (<[i := Some t]> cs).
Proof.
  intros (a & b & u & w & Hab & Ha & Hb) Hi.
  assert (∀ j u, cs !! j = Some (Some u) → ∃ u', <[i := Some t]> cs !! j = Some (Some u')) as Hins.
  { intros j u' Hj. destruct (decide (j = i)) as [->|].
    - exists t. by apply list_lookup_insert_eq.
    - exists u'. by rewrite list_lookup_insert_ne. }
  destruct (Hins a u Ha) as [u1 ?], (Hins b w Hb) as [u2 ?]. by exists a, b, u1, u2.
Qed.

Lemma twf_insert_child d p cs i t :
  twf (length p + S d) (TBranch p cs) → twf d t → (i < 16)%nat →
  twf (length p + S d) (TBranch p (<[i := Some t]> cs)).
Proof.
  inversion 1 as [|d' ? ? Hp Hl H2 Hc Hd]; subst. assert (d' = d) as -> by lia. intros Ht Hi.
  constructor; [done|by rewrite length_insert|apply two_children_insert; [done|lia]|].
  intros j u Hj. destruct (decide (j = i)) as [->|].
  - rewrite list_lookup_insert_eq in Hj by lia. by simplify_eq.
  - rewrite list_lookup_insert_ne in Hj by done. eauto.
Qed.

(** ** Splitting a node *)

(** Exactly the children [i] and [j] are used. *)
Definition pair_children (cs : list (option trie)) i j t u : Prop :=
  length cs = 16%nat ∧ i ≠ j ∧ cs !! i = Some (Some t) ∧ cs !! j = Some (Some u)
  ∧ ∀ n w, cs !! n = Some (Some w) → n = i ∨ n = j.

Lemma pair_children_insert i j t u :
  (i < 16)%nat → (j < 16)%nat → i ≠ j →
  pair_children (<[j := Some u]> (<[i := Some t]> (replicate 16 None))) i j t u.
Proof.
  intros Hi Hj Hij. assert (∀ n (w : trie), replicate 16 (@None trie) !! n ≠ Some (Some w)) as Hnone.
  { intros n w Hn. by apply lookup_replicate in Hn as [? _]. }
  split_and!; [by rewrite !length_insert, length_replicate|done| | |].
  - rewrite list_lookup_insert_ne by done. apply list_lookup_insert_eq. by rewrite length_replicate.
  - apply list_lookup_insert_eq. by rewrite length_insert, length_replicate.
  - intros n w Hn. destruct (decide (n = j)); [by right|]. rewrite list_lookup_insert_ne in Hn by done.
    destruct (decide (n = i)); [by left|]. rewrite list_lookup_insert_ne in Hn by done. by apply Hnone in Hn.
Qed.

Lemma pair_children_sym cs i j t u : pair_children cs i j t u → pair_children cs j i u t.
Proof. intros (? & ? & ? & ? & Hall). split_and!; try done. intros n w Hn. destruct (Hall n w Hn); auto. Qed.

Lemma twf_pair d p cs i j t u :
  pair_children cs i j t u → Forall is_nibble p → twf d t → twf d u → twf (length p + S d) (TBranch p cs).
Proof.
  intros (Hl & Hij & Hi & Hj & Hall) Hp Ht Hu. constructor; [done|done|by exists i, j, t, u|].
  intros n w Hn. destruct (Hall n w Hn) as [-> | ->]; by simplify_eq.
Qed.

(** A node whose path is [p], a nibble [i] and [l] becomes a child of a new
    branch at [p]; the new key leaves the path at nibble [j]. *)
Lemma updated_split t p i l j r v cs :
  tpath t = p ++ Z.of_nat i :: l → pair_children cs i j (with_path t l) (TLeaf r v) →
  updated t (p ++ Z.of_nat j :: r) v (TBranch p cs).
Proof.
  intros Ht (Hl & Hij & Hi & Hj & Hall) k' v'. rewrite tmem_branch_inv. split.
  - intros (n & w & k'' & -> & Hn & Hm). destruct (Hall n w Hn) as [-> | ->]; simplify_eq.
    + apply tmem_with_path in Hm as (k3 & -> & Hm). right. rewrite Ht, <-app_assoc in Hm. split; [|done].
      intros Heq. apply app_inv_head in Heq. simplify_eq.
    + apply tmem_leaf_inv in Hm as [-> ->]. by left.
  - intros [[-> ->]|[Hne Hm]].
    + exists j, (TLeaf r v), r. split_and!; [done..|constructor].
    + destruct (tmem_tpath _ _ _ Hm) as [k3 ->]. exists i, (with_path t l), (l ++ k3).
      split_and!; [by rewrite Ht, <-app_assoc|done|]. apply tmem_with_path. eauto.
Qed.

Lemma twf_split d t p i l j r v cs :
  twf (length (p ++ Z.of_nat i :: l) + d) t → tpath t = p ++ Z.of_nat i :: l →
  length r = (length l + d)%nat → Forall is_nibble r →
  pair_children cs i j (with_path t l) (TLeaf r v) →
  twf (length (p ++ Z.of_nat i :: l) + d) (TBranch p cs).
Proof.
  intros Hwf Hp Hr Hnr Hcs. destruct (twf_tpath _ _ Hwf) as [Hn _]. rewrite Hp in Hn.
  apply Forall_app in Hn as [Hnp [_ Hnl]%Forall_cons].
  replace (length (p ++ Z.of_nat i :: l) + d)%nat with (length p + S (length l + d))%nat
    by (rewrite length_app; simpl; lia).
  eapply twf_pair; [done|done| |rewrite <-Hr; by constructor].
  apply twf_with_path; [by rewrite Hp|done..].
Qed.

(** ** Removal *)

Lemma removed_absent t k : (∀ v, ¬ tmem t k v) → removed t k t.
Proof. intros Hn k' v'. split; [|naive_solver]. intros Hm. split; [|done]. intros ->. naive_solver. Qed.

Lemma removed_child p cs i t k t' :
  cs !! i = Some (Some t) → removed t k t' →
  removed (TBranch p cs) (p ++ Z.of_nat i :: k) (TBranch p (<[i := Some t']> cs)).
Proof.
  intros Hi Ht k' v'. assert (i < length cs)%nat by (by eapply lookup_lt_Some).
  rewrite !tmem_branch_inv. split.
  - intros (j & u & k'' & -> & Hj & Hm). destruct (decide (j = i)) as [->|].
    + rewrite list_lookup_insert_eq in Hj by done. simplify_eq. apply Ht in Hm as [? ?].
      split; [|naive_solver]. intros Heq. apply app_inv_head in Heq. by simplify_eq.
    + rewrite list_lookup_insert_ne in Hj by done. split; [|naive_solver].
      intros Heq. apply app_inv_head in Heq. by simplify_eq.
  - intros [Hne (j & u & k'' & -> & Hj & Hm)]. destruct (decide (j = i)) as [->|].
    + exists i, t', k''. rewrite list_lookup_insert_eq by done. simplify_eq. split_and!; [done..|].
      apply Ht. split; [|done]. intros ->. done.
    + exists j, u, k''. by rewrite list_lookup_insert_ne.
Qed.

(** Dropping a leaf child. *)
Lemma removed_leaf_child p cs i k v :
  cs !! i = Some (Some (TLeaf k v)) →
  removed (TBranch p cs) (p ++ Z.of_nat i :: k) (TBranch p (<[i := None]> cs)).
Proof.
  intros Hi k' v'. assert (i < length cs)%nat by (by eapply lookup_lt_Some).
  rewrite !tmem_branch_inv. split.
  - intros (j & u & k'' & -> & Hj & Hm). destruct (decide (j = i)) as [->|].
    + by rewrite list_lookup_insert_eq in Hj.
    + rewrite list_lookup_insert_ne in Hj by done. split; [|naive_solver].
      intros Heq. apply app_inv_head in Heq. by simplify_eq.
  - intros [Hne (j & u & k'' & -> & Hj & Hm)]. destruct (decide (j = i)) as [->|].
    + simplify_eq. apply tmem_leaf_inv in Hm as [-> ->]. done.
    + exists j, u, k''. by rewrite list_lookup_insert_ne.
Qed.

(** A branch with one child holds the same keys as the child with the joined path. *)
Lemma merge_contents p cs j u :
  cs !! j = Some (Some u) → (∀ n w, cs !! n = Some (Some w) → n = j) →
  same_contents (TBranch p cs) (with_path u (p ++ Z.of_nat j :: tpath u)).
Proof.
  intros Hj Hall k v. rewrite tmem_branch_inv, tmem_with_path. split.
  - intros (n & w & k' & -> & Hn & Hm). assert (n = j) as -> by eauto. simplify_eq.
    destruct (tmem_tpath _ _ _ Hm) as [k3 ->]. exists k3. by rewrite <-app_assoc.
  - intros (k' & -> & Hm). exists j, u, (tpath u ++ k'). by rewrite <-app_assoc.
Qed.

End trie.
Arguments trie V : clear implicits.

End Trie.
