(* ===== verification/TreeNode.v ===== *)
(** Model of the tree nodes of catapult::tree (src/catapult/tree/TreeNode.{h,cpp}):
    leaves, branches with sixteen links held as a hash or as a node in
    memory, and the hash of a node.  The hash function is a parameter.

    [BranchTreeNode] caches its hash in [m_hash] and recomputes it when
    [m_isDirty]; every function that changes a path or a link sets the flag,
    so the model computes the hash where the code reads it. *)
From stdpp Require Import base tactics numbers option list.
From S2P Require Import Prelude TreeNodePath.

Local Open Scope Z_scope.

#[local] Arguments Nat.div : simpl never.
#[local] Arguments Nat.modulo : simpl never.

Module Node.
Import Path.

(** * Data *)

(** A hash is its bytes. *)
Abbreviation Hash256 := (list Z).

Definition Hash256_Size : nat := 32.
Definition Hash256_zero : Hash256 := replicate Hash256_Size 0.

Definition Max_Links : nat := 16.

(** Slot [i] holds [m_links[i]] and [m_linkedNodes[i]]; [b_linkSet] is the bit set. *)
Record BranchTreeNode (N : Type) := {
  b_path : TreeNodePath;
  b_slots : list (Hash256 * option N);
  b_linkSet : Z
}.
Arguments b_path {N} _.
Arguments b_slots {N} _.
Arguments b_linkSet {N} _.
Arguments Build_BranchTreeNode {N} _ _ _.

Inductive TreeNode :=
| EmptyNode
| LeafNode (path : TreeNodePath) (value : Hash256)
| BranchNode (branch : BranchTreeNode TreeNode).

Abbreviation Branch := (BranchTreeNode TreeNode).

(** * Keys *)

(** Writes the bytes of the nibble pairs from nibble [i] on. *)
Fixpoint encode_pairs (fuel : nat) (nibbleAt : nat → Z) (n i : nat) (key : list Z) : list Z :=
  match fuel with
  | O => key
  | S fuel =>
      if (i <? n)%nat
      then encode_pairs fuel nibbleAt n (i + 2)
             (<[(i / 2 + 1)%nat := u8 (Z.shiftl (nibbleAt i) 4 + nibbleAt (i + 1)%nat)]> key)
      else key
  end.

Definition encode (n : nat) (nibbleAt : nat → Z) (isLeaf : bool) : list Z :=
  let flag := if isLeaf then 0x20 else 0 in
  let odd := (n mod 2 =? 1)%nat in
  let first := if odd then Z.lor (Z.lor flag 0x10) (nibbleAt 0%nat) else flag in
  encode_pairs n nibbleAt n (if odd then 1 else 0)%nat (<[0%nat := first]> (replicate (n / 2 + 1) 0)).

Definition EncodeKey (path : TreeNodePath) (isLeaf : bool) : list Z :=
  encode (size path) (nibbleAt path) isLeaf.

Section operations.
(** crypto::Sha3_256_Builder: the digest of the concatenated updates. *)
Context (sha3_256 : list Z → Hash256).

Definition CalculateLeafTreeNodeHash (path : TreeNodePath) (value : Hash256) : Hash256 :=
  sha3_256 (EncodeKey path true ++ value).

(** ** Hashes *)

Fixpoint hash (node : TreeNode) : Hash256 :=
  match node with
  | EmptyNode => Hash256_zero
  | LeafNode path value => CalculateLeafTreeNodeHash path value
  | BranchNode {| b_path := path; b_slots := slots |} =>
      sha3_256 (EncodeKey path false
        ++ concat (map (λ slot, match snd slot with Some node => hash node | None => fst slot end) slots))
  end.

(** ** Branches *)

Definition new_BranchTreeNode (path : TreeNodePath) : Branch :=
  {| b_path := path; b_slots := replicate Max_Links (Hash256_zero, None); b_linkSet := 0 |}.

Definition numLinks (b : Branch) : nat :=
  length (filter (λ i, Z.testbit (b_linkSet b) (Z.of_nat i) = true) (seq 0 Max_Links)).

Definition hasLink (b : Branch) (index : nat) : bool := Z.testbit (b_linkSet b) (Z.of_nat index).

Definition slot (b : Branch) (index : nat) : Hash256 * option TreeNode :=
  default (Hash256_zero, None) (b_slots b !! index).

Definition link (b : Branch) (index : nat) : Hash256 :=
  match snd (slot b index) with Some node => hash node | None => fst (slot b index) end.

Definition linkedNode (b : Branch) (index : nat) : option TreeNode := snd (slot b index).

(** utils::Log2 on an unsigned 64-bit value. *)
Definition Log2 (value : Z) : Z := if value =? 0 then max64 else Z.log2 value.

Definition highestLinkIndex (b : Branch) : Z := u8 (Log2 (b_linkSet b)).

Definition setPath_branch (b : Branch) (path : TreeNodePath) : Branch :=
  {| b_path := path; b_slots := b_slots b; b_linkSet := b_linkSet b |}.

Definition set_slot (b : Branch) (index : nat) (s : Hash256 * option TreeNode) (set : Z) : Branch :=
  {| b_path := b_path b; b_slots := <[index := s]> (b_slots b); b_linkSet := set |}.

Definition setLink_hash (b : Branch) (l : Hash256) (index : nat) : Branch :=
  set_slot b index (l, None) (Z.setbit (b_linkSet b) (Z.of_nat index)).

Definition setLink_node (b : Branch) (node : TreeNode) (index : nat) : Branch :=
  set_slot b index (fst (slot b index), Some node) (Z.setbit (b_linkSet b) (Z.of_nat index)).

Definition clearLink (b : Branch) (index : nat) : Branch :=
  let b := setLink_hash b Hash256_zero index in
  {| b_path := b_path b; b_slots := b_slots b; b_linkSet := Z.clearbit (b_linkSet b) (Z.of_nat index) |}.

Definition compact_slot (s : Hash256 * option TreeNode) : Hash256 * option TreeNode :=
  match snd s with Some node => (hash node, None) | None => s end.

Definition compactLinks (b : Branch) : Branch :=
  {| b_path := b_path b; b_slots := map compact_slot (b_slots b); b_linkSet := b_linkSet b |}.

(** ** Nodes *)

Definition node_empty (node : TreeNode) : bool := match node with EmptyNode => true | _ => false end.
Definition isLeaf (node : TreeNode) : bool := match node with LeafNode _ _ => true | _ => false end.
Definition isBranch (node : TreeNode) : bool := match node with BranchNode _ => true | _ => false end.

Definition path (node : TreeNode) : TreeNodePath :=
  match node with
  | EmptyNode => empty_path
  | LeafNode p _ => p
  | BranchNode b => b_path b
  end.

Definition setPath (node : TreeNode) (p : TreeNodePath) : result TreeNode :=
  match node with
  | EmptyNode => Throw runtime_error
  | LeafNode _ value => Ok (LeafNode p value)
  | BranchNode b => Ok (BranchNode (setPath_branch b p))
  end.

(** * Lemmas *)

Lemma branch_hash b :
  length (b_slots b) = Max_Links →
  hash (BranchNode b) = sha3_256 (EncodeKey (b_path b) false ++ concat (link b <$> seq 0 Max_Links)).
Proof.
  intros Hl. destruct b as [p slots ls]. cbn [b_slots b_path hash] in *. do 3 f_equal.
  match goal with |- map ?f ?l = _ => change (map f l) with (f <$> l) end.
  apply list_eq_same_length with Max_Links; [by rewrite length_fmap, length_seq|by rewrite length_fmap|].
  intros i x y Hi. rewrite !list_lookup_fmap, lookup_seq_lt by done. unfold link, slot. simpl.
  destruct (slots !! i) as [s|] eqn:Es; simpl; [congruence|done].
Qed.

Lemma slot_set_slot b i s set j :
  (i < length (b_slots b))%nat → slot (set_slot b i s set) j = if decide (j = i) then s else slot b j.
Proof.
  intros Hi. unfold slot, set_slot. simpl. case_decide; subst.
  - by rewrite list_lookup_insert_eq.
  - by rewrite list_lookup_insert_ne.
Qed.

Lemma link_setLink_node b node i j :
  (i < length (b_slots b))%nat →
  link (setLink_node b node i) j = (if decide (j = i) then hash node else link b j)
  ∧ linkedNode (setLink_node b node i) j = (if decide (j = i) then Some node else linkedNode b j).
Proof.
  intros Hi. unfold link, linkedNode, setLink_node. rewrite !slot_set_slot by done. by case_decide.
Qed.

Lemma link_setLink_hash b l i j :
  (i < length (b_slots b))%nat →
  link (setLink_hash b l i) j = (if decide (j = i) then l else link b j)
  ∧ linkedNode (setLink_hash b l i) j = (if decide (j = i) then None else linkedNode b j).
Proof.
  intros Hi. unfold link, linkedNode, setLink_hash. rewrite !slot_set_slot by done. by case_decide.
Qed.

Lemma link_clearLink b i j :
  (i < length (b_slots b))%nat →
  link (clearLink b i) j = (if decide (j = i) then Hash256_zero else link b j)
  ∧ linkedNode (clearLink b i) j = (if decide (j = i) then None else linkedNode b j).
Proof. apply link_setLink_hash. Qed.

Lemma hasLink_setLink b s i j :
  hasLink (set_slot b i s (Z.setbit (b_linkSet b) (Z.of_nat i))) j = (if decide (j = i) then true else hasLink b j).
Proof.
  unfold hasLink. simpl. rewrite Z.setbit_eqb by lia. case_decide; subst; [by rewrite Z.eqb_refl|].
  by rewrite (proj2 (Z.eqb_neq _ _)) by lia.
Qed.

Lemma hasLink_clearLink b i j :
  hasLink (clearLink b i) j = (if decide (j = i) then false else hasLink b j).
Proof.
  unfold hasLink, clearLink. simpl. rewrite Z.clearbit_eqb by lia.
  case_decide; subst; [by rewrite Z.eqb_refl, andb_false_r|].
  rewrite Z.setbit_eqb, (proj2 (Z.eqb_neq _ _)) by lia. by rewrite andb_true_r.
Qed.

Lemma slot_compactLinks b i : slot (compactLinks b) i = compact_slot (slot b i).
Proof. unfold slot, compactLinks. simpl. rewrite list_lookup_fmap. by destruct (b_slots b !! i). Qed.

Lemma link_compactLinks b i : link (compactLinks b) i = link b i.
Proof. unfold link. rewrite slot_compactLinks. unfold compact_slot. by destruct (slot b i) as [? [?|]]. Qed.

(** Pruning the nodes in memory does not change the hash. *)
Lemma hash_compactLinks b :
  length (b_slots b) = Max_Links → hash (BranchNode (compactLinks b)) = hash (BranchNode b).
Proof.
  intros Hl. rewrite !branch_hash by (unfold compactLinks; cbn [b_slots]; by rewrite ?length_map).
  do 3 f_equal. apply list_fmap_ext. intros. apply link_compactLinks.
Qed.

End operations.

(** ** Encoded keys *)

(** The encoding reads the path only through its nibbles. *)
Lemma encode_pairs_ext fuel n i key at1 at2 :
  (∀ j, (j < n)%nat → at1 j = at2 j) → (n mod 2 = i mod 2)%nat →
  encode_pairs fuel at1 n i key = encode_pairs fuel at2 n i key.
Proof.
  intros Hat. revert i key. induction fuel as [|fuel IH]; intros i key Hm; simpl; [done|].
  destruct (Nat.ltb_spec i n); [|done].
  assert (i + 1 < n)%nat.
  { destruct (decide (i + 1 = n)%nat) as [<-|]; [|lia].
    pose proof (Nat.div_mod_eq i 2). pose proof (Nat.div_mod_eq (i + 1) 2). lia. }
  rewrite !Hat by lia. apply IH. rewrite Hm. replace (i + 2)%nat with (i + 1 * 2)%nat by lia.
  by rewrite Nat.Div0.mod_add.
Qed.

Lemma encode_ext n at1 at2 isLeaf :
  (∀ j, (j < n)%nat → at1 j = at2 j) → encode n at1 isLeaf = encode n at2 isLeaf.
Proof.
  intros Hat. unfold encode. destruct (n mod 2 =? 1)%nat eqn:E.
  - apply Nat.eqb_eq in E. destruct n; [done|]. rewrite (Hat 0%nat) by lia.
    apply encode_pairs_ext; [done|]. by rewrite E.
  - apply Nat.eqb_neq in E. pose proof (Nat.mod_upper_bound n 2 ltac:(lia)).
    apply encode_pairs_ext; [done|]. change (0 mod 2)%nat with 0%nat. lia.
Qed.

Definition encode_nibbles (ns : list Z) (isLeaf : bool) : list Z :=
  encode (length ns) (λ i, default 0 (ns !! i)) isLeaf.

Lemma EncodeKey_nibbles p isLeaf : EncodeKey p isLeaf = encode_nibbles (nibbles p) isLeaf.
Proof.
  unfold EncodeKey, encode_nibbles. rewrite nibbles_length. apply encode_ext.
  intros j Hj. by rewrite nibbles_lookup.
Qed.

Lemma pair_byte a b :
  is_nibble a → is_nibble b →
  high (u8 (Z.shiftl a 4 + b)) = a ∧ low (u8 (Z.shiftl a 4 + b)) = b.
Proof.
  unfold is_nibble, in_range. intros Ha Hb. rewrite high_div, low_mod, Z.shiftl_mul_pow2 by lia.
  unfold wrap. change (2 ^ 4) with 16 in *. change (2 ^ 8) with 256.
  split; Z.div_mod_to_equations; lia.
Qed.

Lemma half_split i : ∃ c, (i = 2 * (i / 2) + c)%nat ∧ (c < 2)%nat ∧ (i mod 2 = c)%nat.
Proof.
  exists (i mod 2)%nat. pose proof (Nat.div_mod_eq i 2). pose proof (Nat.mod_upper_bound i 2 ltac:(lia)). lia.
Qed.

(** After the loop nibble [k] of the path sits right after the two header
    nibbles (one of them for an odd path), and nothing else has changed. *)
Lemma encode_pairs_spec fuel at_ n i key :
  (n ≤ i + 2 * fuel)%nat → (n mod 2 = i mod 2)%nat → (n / 2 + 1 ≤ length key)%nat →
  (∀ j, is_nibble (at_ j)) →
  let r := encode_pairs fuel at_ n i key in
  length r = length key
  ∧ (∀ k, (i ≤ k < n)%nat → byte_nibble r (k + 2 - i mod 2) = at_ k)
  ∧ (∀ j, (j < i + 2 - i mod 2)%nat → byte_nibble r j = byte_nibble key j).
Proof.
  intros Hf Hm Hl Hat. revert i key Hf Hm Hl. induction fuel as [|fuel IH]; intros i key Hf Hm Hl; simpl.
  { split_and!; [done|lia|done]. }
  destruct (Nat.ltb_spec i n); [|by split_and!; [|lia|]].
  destruct (half_split i) as (c & Hi & Hc & Hmi). destruct (half_split n) as (c' & Hn & Hc' & Hmn).
  assert ((i + 2) mod 2 = i mod 2)%nat as Hm2.
  { replace (i + 2)%nat with (i + 1 * 2)%nat by lia. apply Nat.Div0.mod_add. }
  set (q := (i / 2 + 1)%nat) in *.
  set (b := u8 (Z.shiftl (at_ i) 4 + at_ (i + 1)%nat)).
  destruct (IH (i + 2)%nat (<[q := b]> key)) as (Hlen & Hin & Hout); [lia|lia|by rewrite length_insert|].
  rewrite length_insert in Hlen. rewrite Hm2 in *. rewrite Hmi in *.
  destruct (pair_byte (at_ i) (at_ (i + 1)%nat) (Hat _) (Hat _)) as [Hh Hlo].
  split_and!; [done| |].
  - intros k Hk. destruct (decide (i + 2 ≤ k)%nat); [apply Hin; lia|].
    rewrite Hout, byte_nibble_insert by lia.
    assert (k = i ∨ k = i + 1)%nat as [-> | ->] by lia.
    + replace (i + 2 - c)%nat with (q * 2)%nat by lia. rewrite Nat.div_mul, Nat.Div0.mod_mul by lia.
      by rewrite decide_True.
    + replace (i + 1 + 2 - c)%nat with (1 + q * 2)%nat by lia. rewrite Nat.div_add, Nat.Div0.mod_add by lia.
      by rewrite decide_True.
  - intros j Hj. rewrite Hout, byte_nibble_insert by lia. rewrite decide_False; [done|].
    destruct (half_split j) as (cj & ? & ? & ?). lia.
Qed.

(** The nibbles of an encoded key: flags, filler or not, and the path. *)
Definition hp_nibbles (ns : list Z) (isLeaf : bool) : list Z :=
  let odd := (length ns mod 2 =? 1)%nat in
  ((if isLeaf then 2 else 0) + (if odd then 1 else 0)) :: (if odd then ns else 0 :: ns).

Lemma encode_nibbles_spec ns isLeaf :
  Forall is_nibble ns →
  length (encode_nibbles ns isLeaf) = (length ns / 2 + 1)%nat
  ∧ ∀ j, (j < length (hp_nibbles ns isLeaf))%nat →
      hp_nibbles ns isLeaf !! j = Some (byte_nibble (encode_nibbles ns isLeaf) j).
Proof.
  intros Hns. unfold encode_nibbles, encode, hp_nibbles. cbv zeta.
  assert (∀ j, is_nibble (default 0 (ns !! j))) as Hat.
  { intros j. destruct (ns !! j) eqn:E; [by eapply Forall_lookup_1|]. done. }
  set (at_ := λ i, default 0 (ns !! i)) in *.
  set (n := length ns). destruct (half_split n) as (c & Hn & Hc & Hmn).
  fold n. rewrite !Hmn. change (default 0 (ns !! 0%nat)) with (at_ 0%nat).
  set (first := if (c =? 1)%nat then Z.lor (Z.lor (if isLeaf then 32 else 0) 16) (at_ 0%nat)
                else if isLeaf then 32 else 0).
  set (key := <[0%nat := first]> (replicate (n / 2 + 1) 0)).
  assert (length key = n / 2 + 1)%nat as Hkey by (unfold key; by rewrite length_insert, length_replicate).
  assert (∀ j, (j < 2)%nat → byte_nibble key j = if (j =? 0)%nat then high first else low first) as Hk.
  { intros j Hj. unfold key. rewrite byte_nibble_insert by (rewrite length_replicate; lia).
    destruct j as [|[|j]]; [done|done|lia]. }
  destruct (encode_pairs_spec n at_ n (if (c =? 1)%nat then 1 else 0)%nat key) as (Hlen & Hin & Hout);
    [lia|by destruct c as [|[|]]; [..|lia]|lia|done|].
  split; [by rewrite Hlen|]. intros j Hj.
  assert (is_nibble (at_ 0%nat)) as Hat0 by apply Hat.
  destruct c as [|[|]]; [..|lia]; simpl in *.
  - destruct j as [|[|j]]; simpl.
    + rewrite Hout, Hk by lia. unfold first. by destruct isLeaf.
    + rewrite Hout, Hk by lia. unfold first. by destruct isLeaf.
    + replace (S (S j)) with (j + 2 - 0 mod 2)%nat by (change (0 mod 2)%nat with 0%nat; lia).
      rewrite Hin by lia. unfold at_. destruct (lookup_lt_is_Some_2 ns j) as [x ->]; [lia|done].
  - destruct (nibble_bits (at_ 0%nat) Hat0) as (_ & _ & Hlh & Hll).
    assert (Z.land (at_ 0%nat) 15 = at_ 0%nat) as Ha.
    { change 15 with (Z.ones 4). rewrite Z.land_ones by lia. apply Z.mod_small, Hat0. }
    rewrite Ha in Hlh, Hll. destruct j as [|[|j]]; simpl.
    + rewrite Hout, Hk by (change (1 mod 2)%nat with 1%nat; lia). unfold first. simpl.
      rewrite !high_lor, Hlh. by destruct isLeaf.
    + rewrite Hout, Hk by (change (1 mod 2)%nat with 1%nat; lia). unfold first. simpl.
      rewrite !low_lor, Hll. unfold at_. destruct (lookup_lt_is_Some_2 ns 0) as [x ->]; [lia|]. by destruct isLeaf.
    + replace (S (S j)) with (S j + 2 - 1 mod 2)%nat by (change (1 mod 2)%nat with 1%nat; lia).
      rewrite Hin by lia. unfold at_. destruct (lookup_lt_is_Some_2 ns (S j)) as [x ->]; [lia|done].
Qed.

Lemma hp_nibbles_length ns isLeaf : length (hp_nibbles ns isLeaf) = (2 * (length ns / 2 + 1))%nat.
Proof.
  unfold hp_nibbles. destruct (half_split (length ns)) as (c & Hn & Hc & ->).
  destruct c as [|[|]]; simpl; lia.
Qed.

Lemma hp_nibbles_inj ns ms f g : hp_nibbles ns f = hp_nibbles ms g → ns = ms ∧ f = g.
Proof.
  unfold hp_nibbles. destruct (_ =? _)%nat, (_ =? _)%nat, f, g; intros; by simplify_eq.
Qed.

(** The encoding of a node's path in its hash pre-image is injective: it
    determines the nibbles and whether the node is a leaf. *)
Theorem EncodeKey_injective p q f g :
  EncodeKey p f = EncodeKey q g → nibbles p = nibbles q ∧ f = g.
Proof.
  rewrite !EncodeKey_nibbles. intros Heq.
  destruct (encode_nibbles_spec (nibbles p) f) as [Hlp Hp]; [apply nibbles_range|].
  destruct (encode_nibbles_spec (nibbles q) g) as [Hlq Hq]; [apply nibbles_range|].
  apply hp_nibbles_inj. rewrite Heq in *. rewrite Hlq in Hlp.
  apply list_eq_same_length with (length (hp_nibbles (nibbles p) f)); [|done|].
  - rewrite !hp_nibbles_length. lia.
  - intros j x y Hj. rewrite Hp, Hq; [congruence| |done]. rewrite hp_nibbles_length in *. lia.
Qed.

Lemma EncodeKey_injective_witness :
  nibbles (path_of_bytes [0x12]) = nibbles (subpath (path_of_bytes [0x01; 0x20]) 1 2) ∧ true = true.
Proof. apply EncodeKey_injective. reflexivity. Defined.

End Node.
