(* ===== verification/PatriciaTree.v ===== *)
(** Model of catapult::tree::PatriciaTree (src/catapult/tree/PatriciaTree.h) on
    the nodes of TreeNode.v: set, unset and lookup of a key, saving and
    loading.  The theorems show that the tree implements a map, that the
    recursion ends within one step per nibble of the key, and that the root
    hash is determined by the contents of the tree. *)
From stdpp Require Import base tactics numbers option list gmap.
From S2P Require Import Prelude TreeNodePath Trie TreeNode.

Local Open Scope Z_scope.

#[local] Arguments Nat.div : simpl never.
#[local] Arguments Nat.modulo : simpl never.

Module Patricia.
Import Path Trie Node.

Section tree.
Context (sha3_256 : list Z → Hash256).
(** [TDataSource::get]. *)
Context (dataSource_get : Hash256 → option TreeNode).

(** * Operations *)

(** The recursive functions take a bound on the depth of the recursion;
    [None] is the bound exceeded (or a null pointer dereferenced). *)

Definition getLinkedNode (b : Branch) (index : nat) : option TreeNode :=
  match linkedNode b index with
  | Some node => Some node
  | None => dataSource_get (link sha3_256 b index)
  end.

Definition nibble_index (p : TreeNodePath) (i : nat) : nat := Z.to_nat (nibbleAt p i).

(** ** set *)

Definition branchLeafNode (leafPath : TreeNodePath) (leafValue : Hash256)
    (newPath : TreeNodePath) (newValue : Hash256) : Branch :=
  let differenceIndex := FindFirstDifferenceIndex leafPath newPath in
  let sharedPath := subpath leafPath 0 differenceIndex in
  let node1 := LeafNode (subpath_from leafPath (differenceIndex + 1)) leafValue in
  let node2 := LeafNode (subpath_from newPath (differenceIndex + 1)) newValue in
  let branchNode := new_BranchTreeNode sharedPath in
  let branchNode := setLink_node branchNode node1 (nibble_index leafPath differenceIndex) in
  setLink_node branchNode node2 (nibble_index newPath differenceIndex).

Definition insertNewPairIntoBranch (set_rec : TreeNode → TreeNodePath → Hash256 → option TreeNode)
    (branchNode : Branch) (branchPath : TreeNodePath) (differenceIndex : nat)
    (newPath : TreeNodePath) (newValue : Hash256) : option Branch :=
  let isBranchPathConsumed := empty branchPath in
  let pNextNode := if isBranchPathConsumed then getLinkedNode branchNode (nibble_index newPath 0) else None in
  let nextNode := default EmptyNode pNextNode in
  updatedNextNode ← set_rec nextNode (subpath_from newPath (differenceIndex + 1)) newValue;
  Some (if isBranchPathConsumed then setLink_node branchNode updatedNextNode (nibble_index newPath 0)
        else
          let newBranchNode := new_BranchTreeNode (subpath branchPath 0 differenceIndex) in
          let newBranchNode := setLink_node newBranchNode updatedNextNode (nibble_index newPath differenceIndex) in
          let branchLinkIndex := nibble_index branchPath differenceIndex in
          let branchNode := setPath_branch branchNode (subpath_from branchPath (differenceIndex + 1)) in
          setLink_node newBranchNode (BranchNode branchNode) branchLinkIndex).

Definition updateBranchLink_set (set_rec : TreeNode → TreeNodePath → Hash256 → option TreeNode)
    (branchNode : Branch) (newPath : TreeNodePath) (newValue : Hash256) : option Branch :=
  let branchPath := b_path branchNode in
  let differenceIndex := FindFirstDifferenceIndex branchPath newPath in
  if negb (empty branchPath) && (differenceIndex =? size branchPath)%nat
  then insertNewPairIntoBranch set_rec branchNode empty_path 0 (subpath_from newPath differenceIndex) newValue
  else insertNewPairIntoBranch set_rec branchNode branchPath differenceIndex newPath newValue.

Fixpoint set_node (fuel : nat) (node : TreeNode) (newPath : TreeNodePath) (newValue : Hash256) : option TreeNode :=
  match fuel with
  | O => None
  | S fuel =>
      match node with
      | EmptyNode => Some (LeafNode newPath newValue)
      | LeafNode leafPath leafValue =>
          if path_eqb leafPath newPath then Some (LeafNode newPath newValue)
          else Some (BranchNode (branchLeafNode leafPath leafValue newPath newValue))
      | BranchNode b => BranchNode <$> updateBranchLink_set (set_node fuel) b newPath newValue
      end
  end.

(** [keyPath] is the path of the encoded key. *)
Definition set (root : TreeNode) (keyPath : TreeNodePath) (value : Hash256) : option TreeNode :=
  set_node (size keyPath + 1) root keyPath value.

(** ** unset *)

Definition unsetBranchLink (branchNode : Branch) (linkIndex : nat) : option TreeNode :=
  let branchNode := clearLink branchNode linkIndex in
  if negb (numLinks branchNode =? 1)%nat then Some (BranchNode branchNode)
  else
    let lastLinkIndex := highestLinkIndex branchNode in
    referencedNode ← getLinkedNode branchNode (Z.to_nat lastLinkIndex);
    let mergedPath := Join_nibble (b_path branchNode) lastLinkIndex (path referencedNode) in
    match setPath referencedNode mergedPath with
    | Ok node => Some node
    | Throw _ => None
    end.

Definition updateBranchLink (branchNode : Branch) (linkIndex : nat) (node : TreeNode) : TreeNode :=
  BranchNode (setLink_node branchNode node linkIndex).

(** [Some None] is [false]; otherwise the updated node and the new [canMerge]. *)
Fixpoint unset_node (fuel : nat) (node : TreeNode) (keyPath : TreeNodePath) (canMerge : bool)
    : option (option (TreeNode * bool)) :=
  match fuel with
  | O => None
  | S fuel =>
      if node_empty node then Some None
      else
        let differenceIndex := FindFirstDifferenceIndex (path node) keyPath in
        if (differenceIndex =? size keyPath)%nat then Some (Some (EmptyNode, canMerge))
        else
          match node with
          | BranchNode branchNode =>
              let nodeLinkIndex := nibble_index keyPath differenceIndex in
              match getLinkedNode branchNode nodeLinkIndex with
              | None => Some None
              | Some nextNode =>
                  match unset_node fuel nextNode (subpath_from keyPath (differenceIndex + 1)) canMerge with
                  | None => None
                  | Some None => Some None
                  | Some (Some (updatedNextNode, canMerge')) =>
                      let updated := if canMerge' then unsetBranchLink branchNode nodeLinkIndex
                                     else Some (updateBranchLink branchNode nodeLinkIndex updatedNextNode) in
                      match updated with
                      | None => None
                      | Some updatedNode => Some (Some (updatedNode, false))
                      end
                  end
              end
          | _ => Some None
          end
  end.

Definition unset (root : TreeNode) (keyPath : TreeNodePath) : option (TreeNode * bool) :=
  r ← unset_node (size keyPath + 1) root keyPath true;
  Some (match r with None => (root, false) | Some (node, _) => (node, true) end).

(** ** lookup *)

Definition LookupNotFoundResult : Hash256 * bool := (Hash256_zero, false).

(** Returns the value and the visited nodes. *)
Fixpoint lookup_node (fuel : nat) (node : TreeNode) (keyPath : TreeNodePath) (nodePath : list TreeNode)
    : option ((Hash256 * bool) * list TreeNode) :=
  match fuel with
  | O => None
  | S fuel =>
      if node_empty node then Some (LookupNotFoundResult, nodePath)
      else
        let nodePath := nodePath ++ [node] in
        let differenceIndex := FindFirstDifferenceIndex (path node) keyPath in
        match node with
        | BranchNode branchNode =>
            match getLinkedNode branchNode (nibble_index keyPath differenceIndex) with
            | None => Some (LookupNotFoundResult, nodePath)
            | Some nextNode => lookup_node fuel nextNode (subpath_from keyPath (differenceIndex + 1)) nodePath
            end
        | LeafNode _ value =>
            Some (if (differenceIndex =? size keyPath)%nat then (value, true) else LookupNotFoundResult, nodePath)
        | EmptyNode => Some (LookupNotFoundResult, nodePath)
        end
  end.

Definition lookup (root : TreeNode) (keyPath : TreeNodePath) : option ((Hash256 * bool) * list TreeNode) :=
  lookup_node (size keyPath + 1) root keyPath [].

(** * The trie a node stands for *)

(** A data source never returns a node for the hash of the empty tree. *)
Hypothesis get_zero : dataSource_get Hash256_zero = None.

Abbreviation htrie := (trie Hash256).

Fixpoint thash (t : htrie) : Hash256 :=
  match t with
  | TLeaf p v => sha3_256 (encode_nibbles p true ++ v)
  | TBranch p cs =>
      sha3_256 (encode_nibbles p false
        ++ concat (map (λ o, match o with Some t => thash t | None => Hash256_zero end) cs))
  end.

Definition has_child (cs : list (option htrie)) (i : nat) : bool :=
  match cs !! i with Some (Some _) => true | _ => false end.

(** A node represents a trie when its links lead, in memory or through the
    data source, to nodes that represent the children. *)
Inductive repr : TreeNode → htrie → Prop :=
| repr_leaf p v : wf p → repr (LeafNode p v) (TLeaf (nibbles p) v)
| repr_branch b cs :
    wf (b_path b) → length (b_slots b) = Max_Links → length cs = Max_Links → 0 ≤ b_linkSet b →
    (∀ i, hasLink b i = has_child cs i) →
    (∀ i, cs !! i = Some None → link sha3_256 b i = Hash256_zero ∧ linkedNode b i = None) →
    (∀ i t, cs !! i = Some (Some t) →
       link sha3_256 b i = thash t ∧ ∃ n, getLinkedNode b i = Some n ∧ repr n t) →
    repr (BranchNode b) (TBranch (nibbles (b_path b)) cs).

Implicit Types (t u : htrie) (n : TreeNode) (b : Branch) (p : TreeNodePath).

Lemma repr_hash n t : repr n t → hash sha3_256 n = thash t.
Proof.
  intros Hr. destruct Hr as [p v Hp|b cs Hp Hl Hc Hls Hset Hnone Hsome]; simpl.
  - unfold CalculateLeafTreeNodeHash. by rewrite EncodeKey_nibbles.
  - change (hash sha3_256 (BranchNode b) = thash (TBranch (nibbles (b_path b)) cs)).
    rewrite branch_hash by done. cbn [thash]. rewrite EncodeKey_nibbles. do 3 f_equal.
    match goal with |- _ = map ?f ?l => change (map f l) with (f <$> l) end.
    apply list_eq_same_length with Max_Links; [by rewrite length_fmap|by rewrite length_fmap, length_seq|].
    intros i x y Hi. rewrite !list_lookup_fmap, lookup_seq_lt by done. simpl.
    destruct (lookup_lt_is_Some_2 cs i) as [[t|] E]; [lia|..]; rewrite E; simpl; intros [= <-] [= <-].
    + by apply Hsome.
    + by apply Hnone.
Qed.

Lemma repr_path n t : repr n t → nibbles (path n) = tpath t ∧ wf (path n) ∧ node_empty n = false.
Proof. by destruct 1. Qed.

Lemma has_child_insert cs i o j :
  (i < length cs)%nat →
  has_child (<[i := o]> cs) j = if decide (j = i) then (match o with Some _ => true | None => false end) else has_child cs j.
Proof.
  intros Hi. unfold has_child. case_decide; subst.
  - by rewrite list_lookup_insert_eq.
  - by rewrite list_lookup_insert_ne.
Qed.

Lemma setbit_nonneg a i : 0 ≤ a → 0 ≤ Z.setbit a (Z.of_nat i).
Proof. intros. rewrite Z.setbit_spec'. apply Z.lor_nonneg. split; [done|]. apply Z.pow_nonneg. lia. Qed.

Lemma clearbit_nonneg a i : 0 ≤ a → 0 ≤ Z.clearbit a (Z.of_nat i).
Proof. intros. rewrite Z.clearbit_spec'. apply Z.ldiff_nonneg. by left. Qed.

Lemma repr_new p : wf p → repr (BranchNode (new_BranchTreeNode p)) (TBranch (nibbles p) (replicate 16 None)).
Proof.
  intros Hp. apply (repr_branch (new_BranchTreeNode p)); try done.
  - intros i. unfold hasLink, has_child. simpl. rewrite Z.testbit_0_l.
    change [None; None; None; None; None; None; None; None; None; None; None; None; None; None; None; None]
      with (replicate 16 (@None htrie)).
    destruct (replicate 16 None !! i) as [[?|]|] eqn:E; try done.
    by apply lookup_replicate in E as [? _].
  - intros i Hi. apply lookup_lt_Some in Hi. unfold link, linkedNode, slot, new_BranchTreeNode. simpl in *.
    do 16 (destruct i as [|i]; [done|]). lia.
  - intros i t Hi. exfalso. revert Hi. do 16 (destruct i as [|i]; [done|]). done.
Qed.

Lemma repr_setLink b q cs n t i :
  repr (BranchNode b) (TBranch q cs) → repr n t → (i < 16)%nat →
  repr (BranchNode (setLink_node b n i)) (TBranch q (<[i := Some t]> cs)).
Proof.
  intros Hr Hn Hi. inversion Hr as [|b' cs' Hp Hl Hc Hls Hset Hnone Hsome]; subst.
  assert (i < length (b_slots b))%nat as Hib by (rewrite Hl; done).
  assert (i < length cs)%nat as Hic by (rewrite Hc; done).
  apply (repr_branch (setLink_node b n i)); try done; simpl; rewrite ?length_insert; try done.
  - by apply setbit_nonneg.
  - intros j. unfold setLink_node. rewrite hasLink_setLink, has_child_insert by done. case_decide; [done|apply Hset].
  - intros j Hj. destruct (link_setLink_node sha3_256 b n i j Hib) as [-> ->].
    case_decide; subst; [by rewrite list_lookup_insert_eq in Hj|].
    rewrite list_lookup_insert_ne in Hj by done. by apply Hnone.
  - intros j u Hj. unfold getLinkedNode. destruct (link_setLink_node sha3_256 b n i j Hib) as [-> ->].
    case_decide; subst.
    + rewrite list_lookup_insert_eq in Hj by done. simplify_eq. split; [by apply repr_hash|eauto].
    + rewrite list_lookup_insert_ne in Hj by done. by apply Hsome.
Qed.

Lemma repr_clearLink b q cs i :
  repr (BranchNode b) (TBranch q cs) → (i < 16)%nat →
  repr (BranchNode (clearLink b i)) (TBranch q (<[i := None]> cs)).
Proof.
  intros Hr Hi. inversion Hr as [|b' cs' Hp Hl Hc Hls Hset Hnone Hsome]; subst.
  assert (i < length (b_slots b))%nat as Hib by (rewrite Hl; done).
  assert (i < length cs)%nat as Hic by (rewrite Hc; done).
  apply (repr_branch (clearLink b i)); try done; simpl; rewrite ?length_insert; try done.
  - by apply clearbit_nonneg, setbit_nonneg.
  - intros j. rewrite hasLink_clearLink, has_child_insert by done. case_decide; [done|apply Hset].
  - intros j Hj. destruct (link_clearLink sha3_256 b i j Hib) as [-> ->]. case_decide; subst; [done|].
    rewrite list_lookup_insert_ne in Hj by done. by apply Hnone.
  - intros j u Hj. unfold getLinkedNode. destruct (link_clearLink sha3_256 b i j Hib) as [-> ->].
    case_decide; subst; [by rewrite list_lookup_insert_eq in Hj|].
    rewrite list_lookup_insert_ne in Hj by done. by apply Hsome.
Qed.

Lemma repr_setPath n t p :
  repr n t → wf p → ∃ n', setPath n p = Ok n' ∧ repr n' (with_path t (nibbles p)).
Proof.
  intros Hr Hp. destruct Hr as [q v Hq|b cs Hq Hl Hc Hls Hset Hnone Hsome]; simpl.
  - eexists. split; [done|]. by constructor.
  - eexists. split; [done|]. by apply (repr_branch (setPath_branch b p)).
Qed.

(** ** Paths at a nibble *)

Record path_at p (s : list Z) (i : nat) (l : list Z) : Prop := {
  at_prefix : nibbles (subpath p 0 (length s)) = s;
  at_prefix_wf : wf (subpath p 0 (length s));
  at_suffix : nibbles (subpath_from p (length s + 1)) = l;
  at_suffix_wf : wf (subpath_from p (length s + 1));
  at_index : nibble_index p (length s) = i;
  at_bound : (i < 16)%nat;
  at_size : size p = (length s + 1 + length l)%nat;
  at_suffix_size : size (subpath_from p (length s + 1)) = length l
}.

Lemma path_at_split p s x l :
  wf p → nibbles p = s ++ x :: l → ∃ i, x = Z.of_nat i ∧ path_at p s i l.
Proof.
  intros Hp Hn. assert (size p = length s + 1 + length l)%nat as Hs.
  { rewrite <-nibbles_length, Hn, length_app. simpl. lia. }
  assert (nibbleAt p (length s) = x) as Hx.
  { assert (nibbles p !! length s = Some x) as Hx by (rewrite Hn; by apply list_lookup_middle).
    rewrite nibbles_lookup in Hx by lia. congruence. }
  pose proof (nibbleAt_range p (length s)) as Hr. rewrite Hx in Hr. unfold is_nibble, in_range in Hr.
  exists (Z.to_nat x). split; [lia|]. constructor; try done; try lia.
  - rewrite nibbles_subpath by (done || lia). by rewrite drop_0, Hn, take_app_length.
  - apply subpath_wf; [done|lia].
  - rewrite nibbles_subpath_from by (done || lia). rewrite Hn, <-drop_drop, drop_app_length. done.
  - apply subpath_from_wf; [done|lia].
  - unfold nibble_index. by rewrite Hx.
  - unfold subpath_from, subpath, path_slice, size in *. simpl in *. lia.
Qed.

(** ** set *)

Lemma repr_child b q cs i :
  repr (BranchNode b) (TBranch q cs) → (i < 16)%nat →
  match cs !! i with
  | Some (Some t) => ∃ n, getLinkedNode b i = Some n ∧ repr n t
  | _ => getLinkedNode b i = None ∧ cs !! i = Some None
  end.
Proof.
  intros Hr Hi. inversion Hr as [|b' cs' Hp Hl Hc Hls Hset Hnone Hsome]; subst.
  destruct (lookup_lt_is_Some_2 cs i) as [[t|] E]; [rewrite Hc; done|..]; rewrite E.
  - by apply Hsome.
  - destruct (Hnone _ E) as [Hz Hm]. unfold getLinkedNode. by rewrite Hm, Hz.
Qed.

Lemma repr_link b q cs i t :
  repr (BranchNode b) (TBranch q cs) → cs !! i = Some (Some t) → link sha3_256 b i = thash t.
Proof. intros Hr Hi. inversion Hr as [|b' cs' Hp Hl Hc Hls Hset Hnone Hsome]; subst. by apply Hsome. Qed.

Lemma branchLeafNode_spec d lp lv p v :
  wf lp → wf p → size lp = d → size p = d → nibbles lp ≠ nibbles p →
  ∃ t', repr (BranchNode (branchLeafNode lp lv p v)) t' ∧ twf d t'
    ∧ updated (TLeaf (nibbles lp) lv) (nibbles p) v t'.
Proof.
  intros Hlp Hp Hd Hd' Hne. unfold branchLeafNode. rewrite FindFirstDifferenceIndex_lcp.
  assert (lcp (nibbles lp) (nibbles p) < d)%nat as Hlt.
  { pose proof (lcp_le_l (nibbles lp) (nibbles p)) as Hle. rewrite nibbles_length in Hle.
    destruct (decide (lcp (nibbles lp) (nibbles p) = d)) as [Heq|]; [|lia]. exfalso. apply Hne.
    rewrite <-Hd, <-(nibbles_length lp) in Heq. apply lcp_full_l in Heq.
    apply prefix_length_eq; [done|]. rewrite !nibbles_length. lia. }
  destruct (lcp_split (nibbles lp) (nibbles p)) as (s & x & y & l & r & Hl & Hr & Hxy & <-);
    [rewrite nibbles_length; lia..|].
  destruct (path_at_split _ _ _ _ Hlp Hl) as (i & -> & [E1 E2 E3 E4 E5 E6 E7 _]).
  destruct (path_at_split _ _ _ _ Hp Hr) as (j & -> & [F1 F2 F3 F4 F5 F6 F7 _]). rewrite E5, F5.
  assert (i ≠ j) as Hij by congruence.
  eexists. split; [|split].
  - apply repr_setLink; [apply repr_setLink; [by apply repr_new| |done]| |done]; by constructor.
  - rewrite E1, E3, F3.
    replace d with (length (s ++ Z.of_nat i :: l) + 0)%nat by (rewrite length_app; simpl; lia).
    eapply (twf_split 0 (TLeaf (s ++ Z.of_nat i :: l) lv) s i l j r v).
    + rewrite Nat.add_0_r. constructor. rewrite <-Hl. apply nibbles_range.
    + done.
    + lia.
    + pose proof (nibbles_range p) as Hnr. rewrite Hr in Hnr. by apply Forall_app in Hnr as [_ [_ ?]%Forall_cons].
    + by apply pair_children_insert.
  - rewrite E1, E3, F3, Hr, Hl. eapply updated_split; [done|]. by apply pair_children_insert.
Qed.

(** What one recursive call promises on a child of depth [d]. *)
Definition set_ok (d : nat) (set_rec : TreeNode → TreeNodePath → Hash256 → option TreeNode)
    n t : Prop :=
  ∀ p v, wf p → size p = d →
  ∃ n' t', set_rec n p v = Some n' ∧ repr n' t' ∧ twf d t' ∧ updated t (nibbles p) v t'.

(** The new pair goes below child [i] of a branch whose path is consumed. *)
Lemma insert_into_child set_rec b q cs d branchPath p v x r :
  repr (BranchNode b) (TBranch q cs) → twf (length q + S d) (TBranch q cs) →
  empty branchPath = true → wf p → nibbles p = x :: r → length r = d →
  (∀ i n t, cs !! i = Some (Some t) → repr n t → set_ok d set_rec n t) →
  (∀ p v, set_rec EmptyNode p v = Some (LeafNode p v)) →
  ∃ b' t', insertNewPairIntoBranch set_rec b branchPath 0 p v = Some b'
    ∧ repr (BranchNode b') t' ∧ twf (length q + S d) t' ∧ updated (TBranch q cs) (q ++ x :: r) v t'.
Proof.
  intros Hr Hwf He Hp Hn Hlen Hrec Hempty.
  destruct (path_at_split p [] x r Hp Hn) as (i & -> & [_ _ E3 E4 E5 E6 E7 E8]). cbn [length Nat.add] in *.
  unfold insertNewPairIntoBranch. rewrite He, E5.
  pose proof (repr_child b q cs i Hr E6) as Hc.
  destruct (cs !! i) as [[t|]|] eqn:Ei.
  - destruct Hc as (n & -> & Hnt). simpl.
    destruct (Hrec i n t Ei Hnt (subpath_from p 1) v E4) as (n' & t' & Hset & Hr' & Hw' & Hu'); [congruence|]. cbn [Nat.add]. rewrite Hset.
    simpl. eexists _, _. split; [done|]. split; [by apply repr_setLink|]. rewrite E3 in Hu'.
    split; [by apply twf_insert_child|by apply updated_child with t].
  - destruct Hc as [-> _]. simpl. rewrite Hempty. simpl.
    eexists _, _. split; [done|]. split; [apply repr_setLink; [done|by constructor|done]|].
    rewrite E3. split; [|by apply updated_new_child].
    apply twf_insert_child; [done| |done]. rewrite <-Hlen. constructor.
    pose proof (nibbles_range p) as Hnr. rewrite Hn in Hnr. by apply Forall_cons in Hnr as [_ ?].
  - destruct Hc as [_ Hc]. done.
Qed.

(** The new pair leaves the branch path before its end. *)
Lemma insert_splits_branch set_rec b q cs d p v s x y l r :
  repr (BranchNode b) (TBranch q cs) → twf (length q + S d) (TBranch q cs) →
  wf p → q = s ++ x :: l → nibbles p = s ++ y :: r → x ≠ y → length r = (length l + S d)%nat →
  (∀ p v, set_rec EmptyNode p v = Some (LeafNode p v)) →
  ∃ b' t', insertNewPairIntoBranch set_rec b (b_path b) (length s) p v = Some b'
    ∧ repr (BranchNode b') t' ∧ twf (length q + S d) t' ∧ updated (TBranch q cs) (nibbles p) v t'.
Proof.
  intros Hr Hwf Hp Hq Hn Hxy Hlen Hempty.
  destruct (repr_path _ _ Hr) as (Hbp & Hwb & _). simpl in Hbp, Hwb.
  destruct (path_at_split (b_path b) s x l Hwb) as (i & -> & [E1 E2 E3 E4 E5 E6 E7 _]); [congruence|].
  destruct (path_at_split p s y r Hp Hn) as (j & -> & [F1 F2 F3 F4 F5 F6 F7 F8]).
  assert (i ≠ j) as Hij by congruence.
  unfold insertNewPairIntoBranch. assert (empty (b_path b) = false) as ->.
  { apply Nat.eqb_neq. unfold size in E7. lia. }
  simpl. rewrite Hempty. simpl. rewrite E5, F5.
  destruct (repr_setPath _ _ _ Hr E4) as (n' & [= <-] & Hn'). simpl in Hn'. rewrite E3 in Hn'.
  eexists _, _. split; [done|]. split; [|split].
  - apply repr_setLink; [|exact Hn'|done]. apply repr_setLink; [by apply repr_new|by constructor|done].
  - rewrite E1, F3. subst q. eapply (twf_split _ (TBranch (s ++ Z.of_nat i :: l) cs) s i l j r v); [done|done|done| |].
    + pose proof (nibbles_range p) as Hnr. rewrite Hn in Hnr. by apply Forall_app in Hnr as [_ [_ ?]%Forall_cons].
    + by apply pair_children_sym, pair_children_insert.
  - rewrite E1, F3, Hn. subst q. eapply updated_split; [done|].
    by apply pair_children_sym, pair_children_insert.
Qed.

Lemma set_spec d t : twf d t → ∀ fuel n, repr n t → (d < fuel)%nat → set_ok d (set_node fuel) n t.
Proof.
  induction 1 as [q v0 Hq|d q cs Hq Hl H2 Hc IH]; intros fuel n Hr Hf p v Hp Hs.
  - inversion Hr as [lp lv Hlp Heq1 Heq2|]; subst. destruct fuel as [|fuel]; [lia|]. simpl.
    rewrite nibbles_length in *. destruct (path_eqb lp p) eqn:E.
    + apply path_eqb_spec in E. eexists _, _. split; [done|]. split; [by constructor|]. rewrite E.
      split; [rewrite <-Hs, <-nibbles_length; constructor; apply nibbles_range|apply updated_leaf].
    + destruct (branchLeafNode_spec (size lp) lp v0 p v) as (t' & ? & ? & ?); try done.
      { intros Heq. apply path_eqb_spec in Heq. congruence. }
      by eexists _, _.
  - assert (twf (length q + S d) (TBranch q cs)) as Hwf by by constructor.
    destruct n as [| |b]; [by inversion Hr..|]. destruct fuel as [|fuel]; [lia|]. simpl.
    destruct (repr_path _ _ Hr) as (Hbp & Hwb & _). simpl in Hbp, Hwb.
    assert (∀ p v, set_node fuel EmptyNode p v = Some (LeafNode p v)) as Hempty by (destruct fuel; [lia|done]).
    assert (∀ i n t, cs !! i = Some (Some t) → repr n t → set_ok d (set_node fuel) n t) as Hrec.
    { intros i n t Hi Hn. apply (IH i t Hi); [done|lia]. }
    assert (∃ b' t', updateBranchLink_set (set_node fuel) b p v = Some b'
      ∧ repr (BranchNode b') t' ∧ twf (length q + S d) t' ∧ updated (TBranch q cs) (nibbles p) v t') as Hmain.
    2: { destruct Hmain as (b' & t' & -> & ? & ? & ?). by eexists _, _. }
    unfold updateBranchLink_set. rewrite FindFirstDifferenceIndex_lcp, Hbp.
    pose proof (lcp_le_l q (nibbles p)) as Hle.
    assert (size (b_path b) = length q) as Hbs by (by rewrite <-nibbles_length, Hbp).
    destruct (decide (lcp q (nibbles p) = length q)) as [Hfull|Hpart].
    + rewrite Hfull, Hbs, Nat.eqb_refl, andb_true_r.
      apply lcp_full_l in Hfull as [[|x r] Hnp].
      { apply (f_equal length) in Hnp. rewrite nibbles_length, length_app in Hnp. simpl in Hnp. lia. }
      assert (length r = d) as Hr'.
      { apply (f_equal length) in Hnp. rewrite nibbles_length, length_app in Hnp. simpl in Hnp. lia. }
      rewrite Hnp. destruct (empty (b_path b)) eqn:He; simpl.
      * apply Nat.eqb_eq in He. unfold size in Hbs. destruct q; [|simpl in *; lia]. simpl in *.
        apply (insert_into_child _ b [] cs); try done. by apply Nat.eqb_eq.
      * apply insert_into_child; try done.
        -- apply subpath_from_wf; [done|lia].
        -- rewrite nibbles_subpath_from by (done || lia). by rewrite Hnp, drop_app_length.
    + rewrite Hbs, (proj2 (Nat.eqb_neq _ _) Hpart), andb_false_r.
      destruct (lcp_split q (nibbles p)) as (s & x & y & l & r & Hqs & Hps & Hxy & <-);
        [lia|rewrite nibbles_length; lia|].
      eapply insert_splits_branch; try done.
      apply (f_equal length) in Hps, Hqs. rewrite nibbles_length, length_app in *. simpl in *. lia.
Qed.

(** ** lookup *)

(** A proof path: every node is linked, by its hash, from the one before. *)
Fixpoint linked_path (nodes : list TreeNode) : Prop :=
  match nodes with
  | n :: ((n' :: _) as rest) =>
      (∃ b i, n = BranchNode b ∧ link sha3_256 b i = hash sha3_256 n') ∧ linked_path rest
  | _ => True
  end.

Definition lookup_answer t (k : list Z) (r : Hash256 * bool) : Prop :=
  (∃ v, r = (v, true) ∧ tmem t k v) ∨ (r = LookupNotFoundResult ∧ ∀ v, ¬ tmem t k v).

(** A key no shorter than the depth leaves the path of a branch at a nibble:
    either it follows the whole path, or no key of the trie agrees with it. *)
Lemma branch_step b q cs d p :
  repr (BranchNode b) (TBranch q cs) → twf (length q + S d) (TBranch q cs) → wf p →
  (length q + S d ≤ size p)%nat →
  ∃ s i r, nibbles p = s ++ Z.of_nat i :: r ∧ path_at p s i r
    ∧ FindFirstDifferenceIndex (b_path b) p = length s
    ∧ (s = q ∧ (d ≤ length r)%nat
       ∨ (d < length r)%nat ∧ ∀ v, ¬ tmem (TBranch q cs) (nibbles p) v).
Proof.
  intros Hr Hwf Hp Hs. destruct (repr_path _ _ Hr) as (Hbp & Hwb & _). simpl in Hbp, Hwb.
  rewrite FindFirstDifferenceIndex_lcp, Hbp. pose proof (lcp_le_l q (nibbles p)) as Hle.
  destruct (decide (lcp q (nibbles p) = length q)) as [Hfull|Hpart].
  - rewrite Hfull. apply lcp_full_l in Hfull as [[|x r] Hnp].
    { apply (f_equal length) in Hnp. rewrite nibbles_length, length_app in Hnp. simpl in Hnp. lia. }
    destruct (path_at_split _ _ _ _ Hp Hnp) as (i & -> & Hat).
    exists q, i, r. split_and!; [done..|]. left. split; [done|]. destruct Hat. lia.
  - destruct (lcp_split q (nibbles p)) as (s & x & y & l & r & Hqs & Hps & Hxy & <-);
      [lia|rewrite nibbles_length; lia|].
    destruct (path_at_split _ _ _ _ Hp Hps) as (i & -> & Hat).
    exists s, i, r. split_and!; [done..|]. right. split.
    + apply (f_equal length) in Hqs. rewrite length_app in Hqs. simpl in Hqs. destruct Hat. lia.
    + intros v Hm. apply branch_path_prefix in Hm as [z Hz]. rewrite Hps, Hqs, <-app_assoc in Hz.
      apply app_inv_head in Hz. simpl in Hz. simplify_eq.
Qed.

Lemma lookup_spec d t :
  twf d t → ∀ fuel n p acc, repr n t → wf p → (d ≤ size p)%nat → (d < fuel)%nat →
  ∃ r rest, lookup_node fuel n p acc = Some (r, acc ++ n :: rest)
    ∧ lookup_answer t (nibbles p) r ∧ linked_path (n :: rest).
Proof.
  induction 1 as [q v0 Hq|d q cs Hq Hl H2 Hc IH]; intros fuel n p acc Hr Hp Hs Hf;
    (destruct fuel as [|fuel]; [lia|]); simpl.
  - inversion Hr as [lp lv Hlp Heq1 Heq2|]; subst. simpl. rewrite nibbles_length in *.
    eexists _, []. split; [done|]. split; [|done]. rewrite FindFirstDifferenceIndex_lcp.
    unfold lookup_answer. setoid_rewrite tmem_leaf_inv.
    destruct (Nat.eqb_spec (lcp (nibbles lp) (nibbles p)) (size p)) as [E|E].
    + left. exists v0. split; [done|]. split; [|done]. pose proof (lcp_le_l (nibbles lp) (nibbles p)) as Hle.
      rewrite nibbles_length in Hle. rewrite <-(nibbles_length p), lcp_comm in E. apply lcp_full_l in E.
      apply prefix_length_eq; [done|]. rewrite !nibbles_length. lia.
    + right. split; [done|]. intros v [Heq ->]. apply E. rewrite <-Heq, <-nibbles_length. by apply lcp_full_l.
  - assert (twf (length q + S d) (TBranch q cs)) as Hwf by by constructor.
    destruct n as [| |b]; [by inversion Hr..|]. simpl.
    destruct (branch_step b q cs d p Hr Hwf Hp Hs) as (s & i & r & Hn & [_ _ E3 E4 E5 E6 E7 E8] & -> & Hcase).
    rewrite E5. pose proof (repr_child b q cs i Hr E6) as Hchild.
    destruct (cs !! i) as [[t|]|] eqn:Ei.
    + destruct Hchild as (n' & Hget & Hn'). rewrite Hget.
      destruct (IH i t Ei fuel n' (subpath_from p (length s + 1)) (acc ++ [BranchNode b])) as (res & rest & -> & Hans & Hlink);
        [done|done|rewrite E8; destruct Hcase; lia|lia|].
      exists res, (n' :: rest). rewrite <-app_assoc. split; [done|]. split.
      * rewrite E3 in Hans. unfold lookup_answer in *.
        destruct Hcase as [[-> _]|[Hlt Hno]].
        -- rewrite Hn. setoid_rewrite tmem_child. naive_solver.
        -- right. split; [|done]. destruct Hans as [(v & -> & Hv)|[-> _]]; [|done].
           apply (tmem_key d) in Hv as [? _]; [lia|by eapply Hc].
      * split; [|done]. exists b, i. split; [done|]. rewrite (repr_link _ _ _ _ _ Hr Ei).
        symmetry. by apply repr_hash.
    + destruct Hchild as [-> _]. eexists _, []. split; [done|]. split; [|done]. right. split; [done|].
      destruct Hcase as [[-> _]|[_ Hno]]; [|done]. rewrite Hn. intros v (t & ? & _)%tmem_child. congruence.
    + destruct Hchild as [_ Hchild]. done.
Qed.

(** ** unset *)

Lemma repr_links b q cs :
  repr (BranchNode b) (TBranch q cs) →
  0 ≤ b_linkSet b ∧ length cs = 16%nat ∧ ∀ i, Z.testbit (b_linkSet b) (Z.of_nat i) = has_child cs i.
Proof. intros Hr. by inversion Hr. Qed.

Lemma has_child_true cs i : has_child cs i = true ↔ ∃ t, cs !! i = Some (Some t).
Proof. unfold has_child. destruct (cs !! i) as [[t|]|]; naive_solver. Qed.

Definition link_indexes b : list nat :=
  filter (λ i, Z.testbit (b_linkSet b) (Z.of_nat i) = true) (seq 0 Max_Links).

Lemma link_indexes_elem b q cs i :
  repr (BranchNode b) (TBranch q cs) → i ∈ link_indexes b ↔ ∃ t, cs !! i = Some (Some t).
Proof.
  intros (_ & Hl & Hb)%repr_links. unfold link_indexes.
  rewrite list_elem_of_filter, elem_of_seq, Hb, has_child_true. split; [naive_solver|].
  intros [t Ht]. split; [eauto|]. apply lookup_lt_Some in Ht. unfold Max_Links. lia.
Qed.

Lemma numLinks_one b q cs :
  repr (BranchNode b) (TBranch q cs) → numLinks b = 1%nat →
  ∃ j t, cs !! j = Some (Some t) ∧ (j < 16)%nat ∧ highestLinkIndex b = Z.of_nat j
    ∧ ∀ m w, cs !! m = Some (Some w) → m = j.
Proof.
  intros Hr Hn. pose proof (λ i, link_indexes_elem b q cs i Hr) as Hin.
  unfold numLinks in Hn. fold (link_indexes b) in Hn.
  destruct (link_indexes b) as [|j [|? ?]]; [done| |done].
  destruct (proj1 (Hin j)) as [t Ht]; [set_solver|].
  destruct (repr_links _ _ _ Hr) as (Hnn & Hl & Hbits).
  assert (j < 16)%nat as Hj by (rewrite <-Hl; by eapply lookup_lt_Some).
  assert (∀ m w, cs !! m = Some (Some w) → m = j) as Hall.
  { intros m w Hw. assert (m ∈ [j]) by (apply Hin; eauto). set_solver. }
  exists j, t. split_and!; [done|done| |done].
  assert (b_linkSet b = 2 ^ Z.of_nat j) as Hset.
  { apply Z.bits_inj'. intros i Hi. rewrite Z.pow2_bits_eqb by lia.
    rewrite <-(Z2Nat.id i Hi), Hbits. destruct (has_child cs (Z.to_nat i)) eqn:E.
    - apply has_child_true in E as [w Hw]. apply Hall in Hw as ->. by rewrite Z.eqb_refl.
    - symmetry. apply Z.eqb_neq. intros Heq. apply Nat2Z.inj in Heq. subst j.
      assert (has_child cs (Z.to_nat i) = true) by (apply has_child_true; eauto). congruence. }
  unfold highestLinkIndex, Log2. rewrite Hset, (proj2 (Z.eqb_neq _ _)), Z.log2_pow2 by lia.
  apply wrap_small. unfold in_range. lia.
Qed.

Lemma numLinks_many b q cs i t :
  repr (BranchNode b) (TBranch q cs) → numLinks b ≠ 1%nat → cs !! i = Some (Some t) → two_children cs.
Proof.
  intros Hr Hn Hi. pose proof (λ i, link_indexes_elem b q cs i Hr) as Hin.
  assert (NoDup (link_indexes b)) as Hnd by apply NoDup_filter, NoDup_seq.
  unfold numLinks in Hn. fold (link_indexes b) in Hn.
  destruct (link_indexes b) as [|j [|k l]]; [|done|].
  - exfalso. destruct (not_elem_of_nil i). apply Hin. eauto.
  - destruct (proj1 (Hin j)) as [u Hu]; [set_solver|]. destruct (proj1 (Hin k)) as [w Hw]; [set_solver|].
    exists j, k, u, w. split_and!; [|done..]. apply NoDup_cons in Hnd as [Hnd _]. set_solver.
Qed.

(** Removing a leaf below a branch: the link is dropped, and a branch left
    with one child is merged into it. *)
Lemma unsetBranchLink_spec b q cs d i r v :
  repr (BranchNode b) (TBranch q cs) → twf (length q + S d) (TBranch q cs) →
  cs !! i = Some (Some (TLeaf r v)) →
  ∃ n' t', unsetBranchLink b i = Some n' ∧ repr n' t' ∧ twf (length q + S d) t'
    ∧ removed (TBranch q cs) (q ++ Z.of_nat i :: r) t'.
Proof.
  intros Hr Hwf Hi. inversion Hwf as [|d' ? ? Hq Hl H2 Hc Hd]; subst. assert (d' = d) as -> by lia.
  assert (i < 16)%nat as Hi16 by (rewrite <-Hl; by eapply lookup_lt_Some).
  pose proof (repr_clearLink b q cs i Hr Hi16) as Hr'.
  pose proof (removed_leaf_child q cs i r v Hi) as Hrem.
  set (cs' := <[i := None]> cs) in *.
  assert (∀ j t, cs' !! j = Some (Some t) → cs !! j = Some (Some t)) as Hsub.
  { intros j t Hj. unfold cs' in Hj. destruct (decide (j = i)) as [->|].
    - rewrite list_lookup_insert_eq in Hj by lia. done.
    - by rewrite list_lookup_insert_ne in Hj. }
  assert (∃ j t, cs' !! j = Some (Some t)) as (j0 & t0 & Hj0).
  { destruct H2 as (x & y & t & u & Hxy & Hx & Hy).
    destruct (decide (x = i)) as [->|]; [exists y, u|exists x, t]; unfold cs'; by rewrite list_lookup_insert_ne. }
  unfold unsetBranchLink. destruct (Nat.eqb_spec (numLinks (clearLink b i)) 1) as [Hone|Hmany]; simpl.
  - destruct (numLinks_one _ _ _ Hr' Hone) as (j & u & Hj & Hj16 & Hhigh & Hall).
    pose proof (repr_child _ _ _ j Hr' Hj16) as Hch. rewrite Hj in Hch. destruct Hch as (n & Hget & Hn).
    rewrite Hhigh, Nat2Z.id, Hget. simpl.
    destruct (repr_path _ _ Hn) as (Hpn & Hwn & _). destruct (repr_path _ _ Hr) as (Hpb & Hwb & _). simpl in Hpb.
    destruct (Join_nibble_spec (b_path b) (Z.of_nat j) (path n)) as [Hwj Hnj].
    { unfold is_nibble, in_range. lia. }
    destruct (repr_setPath n u _ Hn Hwj) as (n' & -> & Hn'). rewrite Hnj, Hpb, Hpn in Hn'.
    eexists _, _. split; [done|]. split; [done|]. pose proof (Hc j u (Hsub _ _ Hj)) as Hwu.
    destruct (twf_tpath _ _ Hwu) as [Hnu Hlu]. split.
    + replace (length q + S d)%nat with (length (q ++ Z.of_nat j :: tpath u) + (d - length (tpath u)))%nat
        by (rewrite length_app; simpl; lia).
      apply twf_with_path; [|done|].
      * by replace (length (tpath u) + (d - length (tpath u)))%nat with d by lia.
      * apply Forall_app. split; [done|]. constructor; [unfold is_nibble, in_range; lia|done].
    + intros k w. rewrite <-(merge_contents q cs' j u Hj Hall k w). apply Hrem.
  - eexists _, _. split; [done|]. split; [done|]. split; [|done].
    constructor; [done|unfold cs'; by rewrite length_insert|by eapply numLinks_many|]. eauto.
Qed.

(** Absent; the node itself is the leaf to remove; or updated below. *)
Definition unset_answer d t (k : list Z) (r : option (option (TreeNode * bool))) : Prop :=
  (r = Some None ∧ ∀ v, ¬ tmem t k v)
  ∨ (∃ v, t = TLeaf k v ∧ r = Some (Some (EmptyNode, true)))
  ∨ (∃ n' t' v, r = Some (Some (n', false)) ∧ tmem t k v ∧ repr n' t' ∧ twf d t' ∧ removed t k t').

Lemma unset_spec d t :
  twf d t → ∀ fuel n p, repr n t → wf p → (d ≤ size p)%nat → (d < fuel)%nat →
  unset_answer d t (nibbles p) (unset_node fuel n p true).
Proof.
  induction 1 as [q v0 Hq|d q cs Hq Hl H2 Hc IH]; intros fuel n p Hr Hp Hs Hf;
    (destruct fuel as [|fuel]; [lia|]); simpl.
  - inversion Hr as [lp lv Hlp Heq1 Heq2|]; subst. simpl. rewrite nibbles_length in *.
    rewrite FindFirstDifferenceIndex_lcp.
    destruct (Nat.eqb_spec (lcp (nibbles lp) (nibbles p)) (size p)) as [E|E].
    + right; left. exists v0. split; [|done]. f_equal. pose proof (lcp_le_l (nibbles lp) (nibbles p)) as Hle.
      rewrite nibbles_length in Hle. rewrite <-(nibbles_length p), lcp_comm in E. apply lcp_full_l in E.
      symmetry. apply prefix_length_eq; [done|]. rewrite !nibbles_length. lia.
    + left. split; [done|]. intros v [Heq ->]%tmem_leaf_inv. apply E.
      rewrite <-Heq, <-nibbles_length. by apply lcp_full_l.
  - assert (twf (length q + S d) (TBranch q cs)) as Hwf by by constructor.
    destruct n as [| |b]; [by inversion Hr..|]. simpl.
    destruct (branch_step b q cs d p Hr Hwf Hp Hs) as (s & i & r & Hn & [_ _ E3 E4 E5 E6 E7 E8] & -> & Hcase).
    destruct (Nat.eqb_spec (length s) (size p)) as [E|_]; [lia|].
    rewrite E5. pose proof (repr_child b q cs i Hr E6) as Hchild.
    assert (∀ t v, cs !! i = Some (Some t) → tmem t r v → s = q) as Hsq.
    { intros t v Hi Hv. destruct Hcase as [[-> _]|[Hlt _]]; [done|].
      apply (tmem_key d) in Hv as [? _]; [lia|by eapply Hc]. }
    destruct (cs !! i) as [[t|]|] eqn:Ei.
    + destruct Hchild as (n' & Hget & Hn'). rewrite Hget.
      pose proof (IH i t Ei fuel n' (subpath_from p (length s + 1)) Hn' E4
        ltac:(rewrite E8; destruct Hcase; lia) ltac:(lia)) as Hans. rewrite E3 in Hans.
      destruct Hans as [[-> Hno]|[(v & -> & ->)|(n2 & t2 & v & -> & Hv & Hr2 & Hw2 & Hrem)]].
      * left. split; [done|]. intros v Hv. destruct Hcase as [[-> _]|[_ Hno']]; [|by apply Hno' in Hv].
        rewrite Hn in Hv. apply tmem_child in Hv as (t' & ? & Hv). simplify_eq. by apply Hno in Hv.
      * assert (s = q) as -> by (eapply Hsq; [done|constructor]).
        destruct (unsetBranchLink_spec b q cs d i r v Hr Hwf Ei) as (n'' & t'' & -> & ? & ? & ?).
        right; right. exists n'', t'', v. rewrite Hn. split_and!; try done.
        apply tmem_child. eexists. split; [done|constructor].
      * assert (s = q) as -> by (by eapply Hsq). right; right.
        eexists _, _, v. rewrite Hn. split; [done|]. split; [apply tmem_child; eauto|].
        split; [by apply repr_setLink|]. split; [by apply twf_insert_child|by eapply removed_child].
    + destruct Hchild as [-> _]. left. split; [done|]. destruct Hcase as [[-> _]|[_ Hno]]; [|done].
      rewrite Hn. intros v (t & ? & _)%tmem_child. congruence.
    + destruct Hchild as [_ Hchild]. done.
Qed.

(** * The tree as a map *)

(** The root of a tree of keys of [d] nibbles that stores the entries of [m]. *)
Definition tree_repr (d : nat) (root : TreeNode) (m : gmap (list Z) Hash256) : Prop :=
  (root = EmptyNode ∧ m = ∅)
  ∨ ∃ t, repr root t ∧ twf d t ∧ ∀ k v, tmem t k v ↔ m !! k = Some v.

Lemma set_tree d root m p v :
  tree_repr d root m → wf p → size p = d →
  ∃ root', set root p v = Some root' ∧ tree_repr d root' (<[nibbles p := v]> m).
Proof.
  intros [[-> ->]|(t & Hr & Hwf & Hm)] Hp Hs; unfold set; rewrite Nat.add_1_r.
  - eexists. split; [done|]. right. exists (TLeaf (nibbles p) v). split; [by constructor|].
    split; [rewrite <-Hs, <-nibbles_length; constructor; apply nibbles_range|].
    intros k w. rewrite tmem_leaf_inv, lookup_insert_Some, lookup_empty. naive_solver.
  - destruct (set_spec d t Hwf (S (size p)) root Hr ltac:(lia) p v Hp Hs) as (n' & t' & -> & Hr' & Hw' & Hu).
    eexists. split; [done|]. right. exists t'. split_and!; [done|done|].
    intros k w. rewrite (Hu k w), lookup_insert_Some, Hm. naive_solver.
Qed.

Lemma unset_tree d root m p :
  tree_repr d root m → wf p → size p = d →
  ∃ root', unset root p = Some (root', bool_decide (is_Some (m !! nibbles p)))
    ∧ tree_repr d root' (delete (nibbles p) m).
Proof.
  intros [[-> ->]|(t & Hr & Hwf & Hm)] Hp Hs; unfold unset; rewrite Nat.add_1_r.
  - eexists. split; [done|]. left. split; [done|]. apply delete_empty.
  - destruct (unset_spec d t Hwf (S (size p)) root p Hr Hp ltac:(lia) ltac:(lia))
      as [[-> Hno]|[(v & -> & ->)|(n' & t' & v & -> & Hv & Hr' & Hw' & Hrem)]]; simpl.
    + assert (m !! nibbles p = None) as Hnone.
      { destruct (m !! nibbles p) eqn:E; [|done]. by apply Hm, Hno in E. }
      rewrite Hnone. eexists. split; [done|]. right. exists t. split_and!; [done|done|].
      by rewrite delete_id by done.
    + assert (m !! nibbles p = Some v) as Hv by (apply Hm; constructor).
      rewrite Hv. eexists. split; [done|]. left. split; [done|]. apply map_eq. intros k.
      rewrite lookup_delete, lookup_empty. case_decide; [done|]. destruct (m !! k) eqn:E; [|done].
      apply Hm, tmem_leaf_inv in E as [-> _]. done.
    + apply Hm in Hv. rewrite Hv. eexists. split; [done|]. right. exists t'. split_and!; [done|done|].
      intros k w. rewrite (Hrem k w), lookup_delete_Some, Hm. naive_solver.
Qed.

Lemma lookup_tree d root m p :
  tree_repr d root m → wf p → size p = d →
  ∃ nodes, lookup root p
    = Some (match m !! nibbles p with Some v => (v, true) | None => LookupNotFoundResult end, nodes)
    ∧ linked_path nodes ∧ (root ≠ EmptyNode → head nodes = Some root).
Proof.
  intros [[-> ->]|(t & Hr & Hwf & Hm)] Hp Hs; unfold lookup; rewrite Nat.add_1_r.
  - exists []. by rewrite lookup_empty.
  - destruct (lookup_spec d t Hwf (S (size p)) root p [] Hr Hp ltac:(lia) ltac:(lia))
      as (r & rest & -> & Hans & Hlink).
    exists (root :: rest). split; [|done]. do 2 f_equal.
    destruct Hans as [(v & -> & Hv)|[-> Hno]].
    + apply Hm in Hv. by rewrite Hv.
    + destruct (m !! nibbles p) eqn:E; [|done]. by apply Hm, Hno in E.
Qed.

End tree.

(** * Sequences of operations *)

Section theorems.
Context (sha3_256 : list Z → Hash256).

(** The contents determine the root hash, whatever the data sources hold. *)
Lemma tree_repr_hash get1 get2 d root1 root2 m :
  tree_repr sha3_256 get1 d root1 m → tree_repr sha3_256 get2 d root2 m →
  hash sha3_256 root1 = hash sha3_256 root2.
Proof.
  assert (∀ get root, tree_repr sha3_256 get d root ∅ → root = EmptyNode) as Hempty.
  { intros get root [[-> _]|(t & _ & Hwf & Hm)]; [done|].
    destruct (twf_nonempty _ _ Hwf) as (k & v & Hk). by apply Hm, lookup_empty_Some in Hk. }
  intros H1 H2. pose proof H1 as H1'. pose proof H2 as H2'.
  destruct H1 as [[-> ->]|(t1 & Hr1 & Hw1 & Hm1)]; [by apply Hempty in H2' as ->|].
  destruct H2 as [[-> ->]|(t2 & Hr2 & Hw2 & Hm2)]; [by apply Hempty in H1' as ->|].
  rewrite (repr_hash _ _ _ _ Hr1), (repr_hash _ _ _ _ Hr2).
  f_equal. eapply trie_canonical; [done..|]. intros k v. by rewrite Hm1, Hm2.
Qed.

(** The public interface; keys are their encoded bytes. *)
Inductive TreeOp :=
| Op_set (key : list Z) (value : Hash256)
| Op_unset (key : list Z)
| Op_lookup (key : list Z).

Inductive Response :=
| R_done
| R_removed (b : bool)
| R_found (r : Hash256 * bool)
| R_undefined.

Definition op_key (op : TreeOp) : list Z :=
  match op with Op_set k _ | Op_unset k | Op_lookup k => k end.

(** Keys of one length, made of bytes. *)
Definition valid_op (len : nat) (op : TreeOp) : Prop :=
  length (op_key op) = len ∧ Forall is_byte (op_key op).

Definition run_op (dataSource_get : Hash256 → option TreeNode) (root : TreeNode) (op : TreeOp)
    : TreeNode * Response :=
  match op with
  | Op_set key value =>
      match set sha3_256 dataSource_get root (path_of_bytes key) value with
      | Some root' => (root', R_done)
      | None => (root, R_undefined)
      end
  | Op_unset key =>
      match unset sha3_256 dataSource_get root (path_of_bytes key) with
      | Some (root', b) => (root', R_removed b)
      | None => (root, R_undefined)
      end
  | Op_lookup key =>
      match lookup sha3_256 dataSource_get root (path_of_bytes key) with
      | Some (r, _) => (root, R_found r)
      | None => (root, R_undefined)
      end
  end.

(** The map has the nibbles of the key as its key. *)
Definition spec_op (m : gmap (list Z) Hash256) (op : TreeOp) : gmap (list Z) Hash256 * Response :=
  match op with
  | Op_set key value => (<[nibbles (path_of_bytes key) := value]> m, R_done)
  | Op_unset key =>
      (delete (nibbles (path_of_bytes key)) m,
       R_removed (bool_decide (is_Some (m !! nibbles (path_of_bytes key)))))
  | Op_lookup key =>
      (m, R_found (match m !! nibbles (path_of_bytes key) with
                   | Some v => (v, true) | None => LookupNotFoundResult end))
  end.

Section one_tree.
Context (dataSource_get : Hash256 → option TreeNode) (len : nat).
Hypothesis get_zero : dataSource_get Hash256_zero = None.

Lemma tree_op_simulates root m op :
  valid_op len op → tree_repr sha3_256 dataSource_get (2 * len) root m →
  tree_repr sha3_256 dataSource_get (2 * len)
    (fst (run_op dataSource_get root op)) (fst (spec_op m op))
  ∧ snd (run_op dataSource_get root op) = snd (spec_op m op).
Proof.
  intros [Hlen Hb] Ht.
  assert (wf (path_of_bytes (op_key op)) ∧ size (path_of_bytes (op_key op)) = (2 * len)%nat) as [Hp Hs].
  { split; [by apply path_of_bytes_wf|]. unfold size, path_of_bytes. simpl. by rewrite Hlen. }
  destruct op as [key v|key|key]; simpl in *.
  - by destruct (set_tree sha3_256 dataSource_get get_zero _ root m _ v Ht Hp Hs) as (root' & -> & ?).
  - by destruct (unset_tree sha3_256 dataSource_get get_zero _ root m _ Ht Hp Hs) as (root' & -> & ?).
  - by destruct (lookup_tree sha3_256 dataSource_get get_zero _ root m _ Ht Hp Hs) as (nodes & -> & ?).
Qed.

Lemma tree_trace_simulates ops :
  Forall (valid_op len) ops →
  ∀ root m, tree_repr sha3_256 dataSource_get (2 * len) root m →
  tree_repr sha3_256 dataSource_get (2 * len)
    (fst (trace (run_op dataSource_get) root ops)) (fst (trace spec_op m ops))
  ∧ snd (trace (run_op dataSource_get) root ops) = snd (trace spec_op m ops).
Proof.
  induction 1 as [|op ops Hop Hops IH]; intros root m Ht; [done|]. simpl.
  destruct (tree_op_simulates root m op Hop Ht) as [Ht' Hr].
  destruct (run_op dataSource_get root op) as [root' r], (spec_op m op) as [m' r']. simpl in *.
  destruct (IH root' m' Ht') as [? ?].
  destruct (trace (run_op dataSource_get) root' ops), (trace spec_op m' ops). simpl in *. by subst.
Qed.

Lemma empty_tree : tree_repr sha3_256 dataSource_get (2 * len) EmptyNode ∅.
Proof. by left. Qed.

(** C3. A Patricia tree over keys of one length answers every sequence of
    set, unset and lookup as a finite map does: in particular no call runs
    deeper than the number of nibbles of the key, and lookup and unset find
    exactly the keys that were set although they do not compare the whole
    path of a branch. *)
Theorem PatriciaTree_refines_map ops :
  Forall (valid_op len) ops →
  snd (trace (run_op dataSource_get) EmptyNode ops) = snd (trace spec_op ∅ ops).
Proof. intros Hops. apply tree_trace_simulates; [done|apply empty_tree]. Qed.

(** The proof a lookup returns starts at the root and each of its nodes
    is linked by its hash from the node before. *)
Theorem lookup_proof_is_linked ops key root :
  Forall (valid_op len) ops → root = fst (trace (run_op dataSource_get) EmptyNode ops) →
  valid_op len (Op_lookup key) → root ≠ EmptyNode →
  ∃ r nodes, lookup sha3_256 dataSource_get root (path_of_bytes key) = Some (r, root :: nodes)
    ∧ linked_path sha3_256 (root :: nodes).
Proof.
  intros Hops -> [Hlen Hb] Hne. destruct (tree_trace_simulates ops Hops _ _ empty_tree) as [Ht _].
  destruct (lookup_tree sha3_256 dataSource_get get_zero _ _ _ (path_of_bytes key) Ht) as (nodes & Hl & Hlink & Hhd).
  - by apply path_of_bytes_wf.
  - unfold size, path_of_bytes. simpl in *. lia.
  - specialize (Hhd Hne). destruct nodes as [|n nodes]; simplify_eq/=. eauto.
Qed.

End one_tree.

(** The root hash is determined by the contents of the tree: two trees
    that went through different sequences of operations, over different data
    sources, have the same root hash as soon as they store the same entries. *)
Theorem root_hash_determined_by_contents get1 get2 len ops1 ops2 :
  get1 Hash256_zero = None → get2 Hash256_zero = None →
  Forall (valid_op len) ops1 → Forall (valid_op len) ops2 →
  fst (trace spec_op ∅ ops1) = fst (trace spec_op ∅ ops2) →
  hash sha3_256 (fst (trace (run_op get1) EmptyNode ops1))
  = hash sha3_256 (fst (trace (run_op get2) EmptyNode ops2)).
Proof.
  intros Hz1 Hz2 H1 H2 Heq.
  destruct (tree_trace_simulates get1 len Hz1 ops1 H1 _ _ (empty_tree get1 len)) as [Ht1 _].
  destruct (tree_trace_simulates get2 len Hz2 ops2 H2 _ _ (empty_tree get2 len)) as [Ht2 _].
  rewrite Heq in Ht1. by eapply tree_repr_hash.
Qed.

End theorems.

(** * Examples *)

(** A stand-in for the hash function and an empty data source. *)
Definition sample_hash (l : list Z) : Hash256 :=
  [foldr (λ x a, (x + 257 * a + 11) mod (2 ^ 61 - 1)) 5 l].
Definition no_source (h : Hash256) : option TreeNode := None.

Definition sample_ops : list TreeOp :=
  [Op_set [0x12; 0x34] [1]; Op_set [0x12; 0x44] [2]; Op_set [0x12; 0x35] [3]; Op_lookup [0x12; 0x34];
   Op_lookup [0x52; 0x34]; Op_set [0xA2; 0x35] [4]; Op_unset [0x12; 0x36]; Op_unset [0x12; 0x44];
   Op_lookup [0x12; 0x35]; Op_set [0x12; 0x34] [9]; Op_unset [0x12; 0x35]].

(** The same two entries reached directly. *)
Definition sample_ops_direct : list TreeOp := [Op_set [0xA2; 0x35] [4]; Op_set [0x12; 0x34] [9]].

Lemma sample_ops_valid : Forall (valid_op 2) sample_ops ∧ Forall (valid_op 2) sample_ops_direct.
Proof. split; repeat constructor; discriminate. Qed.

Lemma PatriciaTree_refines_map_witness :
  snd (trace (run_op sample_hash no_source) EmptyNode sample_ops)
  = [R_done; R_done; R_done; R_found ([1], true); R_found LookupNotFoundResult; R_done; R_removed false;
     R_removed true; R_found ([3], true); R_done; R_removed true].
Proof.
  rewrite (PatriciaTree_refines_map sample_hash no_source 2 eq_refl sample_ops (proj1 sample_ops_valid)).
  vm_compute. reflexivity.
Defined.

Lemma lookup_proof_is_linked_witness :
  ∃ r nodes, lookup sample_hash no_source
      (fst (trace (run_op sample_hash no_source) EmptyNode sample_ops)) (path_of_bytes [0x12; 0x34])
    = Some (r, fst (trace (run_op sample_hash no_source) EmptyNode sample_ops) :: nodes)
    ∧ linked_path sample_hash (fst (trace (run_op sample_hash no_source) EmptyNode sample_ops) :: nodes).
Proof.
  apply (lookup_proof_is_linked sample_hash no_source 2 eq_refl sample_ops); [apply sample_ops_valid|done| |].
  - repeat constructor; discriminate.
  - vm_compute. discriminate.
Defined.

Lemma root_hash_determined_by_contents_witness :
  hash sample_hash (fst (trace (run_op sample_hash no_source) EmptyNode sample_ops))
  = hash sample_hash (fst (trace (run_op sample_hash no_source) EmptyNode sample_ops_direct)).
Proof.
  apply (root_hash_determined_by_contents sample_hash no_source no_source 2);
    [done|done|apply sample_ops_valid|apply sample_ops_valid|vm_compute; reflexivity].
Defined.

End Patricia.
