(* ===== verification/TreeStore.v ===== *)
(** Model of the data sources of catapult::tree (MemoryDataSource.{h,cpp},
    ReadThroughMemoryDataSource.h) and of saving and loading a tree
    (PatriciaTree::saveAll, tryLoad, setRoot, clear).  The theorem shows that a
    saved tree can be loaded back from its root hash. *)
From stdpp Require Import base tactics numbers option list gmap.
From S2P Require Import Prelude TreeNodePath Trie TreeNode PatriciaTree.

Local Open Scope Z_scope.

Module Store.
Import Path Trie Node Patricia.

Abbreviation htrie := (trie Hash256).

Section store.
Context (sha3_256 : list Z → Hash256).

(** * Data sources *)

(** [m_nodes]. *)
Abbreviation MemoryDataSource := (gmap Hash256 TreeNode).

Definition memory_get (m : MemoryDataSource) (h : Hash256) : option TreeNode := m !! h.

(** [save] emplaces the node under its hash: an entry that is there stays. *)
Definition memory_set (node : TreeNode) (m : MemoryDataSource) : MemoryDataSource :=
  match m !! hash sha3_256 node with
  | Some _ => m
  | None => <[hash sha3_256 node := node]> m
  end.

Definition memory_size (m : MemoryDataSource) : nat := base.size m.

Definition memory_clear (m : MemoryDataSource) : MemoryDataSource := ∅.

(** ReadThroughMemoryDataSource: memory first, then the backing data source. *)
Definition read_through_get (m : MemoryDataSource) (backing : Hash256 → option TreeNode) (h : Hash256)
    : option TreeNode :=
  match memory_get m h with Some node => Some node | None => backing h end.

(** * Saving and loading *)

(** The nodes [saveAll] passes to the data source, in order. *)
Fixpoint saveAll_node (node : TreeNode) : list TreeNode :=
  match node with
  | BranchNode ({| b_slots := slots |} as branch) =>
      concat (map (λ slot, match snd slot with Some linked => saveAll_node linked | None => [] end) slots)
        ++ [BranchNode (compactLinks sha3_256 branch)]
  | _ => [node]
  end.

Definition saveAll (root : TreeNode) (m : MemoryDataSource) : MemoryDataSource :=
  if node_empty root then m else foldl (λ m node, memory_set node m) m (saveAll_node root).

(** Returns the new root and whether the hash was found. *)
Definition tryLoad (get : Hash256 → option TreeNode) (root : TreeNode) (rootHash : Hash256) : TreeNode * bool :=
  match get rootHash with
  | Some node => (node, true)
  | None => (root, false)
  end.

Definition setRoot (rootNode : TreeNode) : TreeNode := rootNode.

Definition clear : TreeNode := EmptyNode.

(** * What is saved *)

Definition compact_node (n : TreeNode) : TreeNode :=
  match n with BranchNode b => BranchNode (compactLinks sha3_256 b) | _ => n end.

(** Nodes reachable from a node without the data source. *)
Inductive in_memory : TreeNode → TreeNode → Prop :=
| in_memory_refl n : in_memory n n
| in_memory_link b i n n' : linkedNode b i = Some n → in_memory n n' → in_memory (BranchNode b) n'.

Lemma linkedNode_slot (b : Branch) i n : linkedNode b i = Some n ↔ ∃ h, b_slots b !! i = Some (h, Some n).
Proof.
  unfold linkedNode, slot. destruct (b_slots b !! i) as [[h o]|]; simpl; naive_solver.
Qed.

Lemma saveAll_branch b :
  saveAll_node (BranchNode b)
  = concat (map (λ slot, match snd slot with Some linked => saveAll_node linked | None => [] end) (b_slots b))
      ++ [BranchNode (compactLinks sha3_256 b)].
Proof. by destruct b. Qed.

Lemma saveAll_complete n n' : in_memory n n' → compact_node n' ∈ saveAll_node n.
Proof.
  induction 1 as [n|b i n n' Hi Hn IH].
  - destruct n as [| |b]; [set_solver..|]. rewrite saveAll_branch. apply elem_of_app. right. set_solver.
  - rewrite saveAll_branch. apply elem_of_app. left. apply linkedNode_slot in Hi as [h Hi].
    apply list_elem_of_In, in_concat. exists (saveAll_node n). split; [|by apply list_elem_of_In].
    apply in_map_iff. exists (h, Some n). split; [done|]. by eapply list_elem_of_In, list_elem_of_lookup_2.
Qed.

(** The subtries of a trie. *)
Inductive subtrie : htrie → htrie → Prop :=
| subtrie_refl t : subtrie t t
| subtrie_child u q cs i c : cs !! i = Some (Some c) → subtrie u c → subtrie u (TBranch q cs).

Implicit Types (t u : htrie) (n : TreeNode).

Lemma subtrie_trans t1 t2 t3 : subtrie t1 t2 → subtrie t2 t3 → subtrie t1 t3.
Proof. intros H1 H2. induction H2; [done|econstructor; eauto]. Qed.

Lemma subtrie_twf d t u : twf d t → subtrie u t → ∃ d', twf d' u.
Proof.
  intros Hwf Hs. revert d Hwf. induction Hs as [t|u q cs i c Hi Hs IH]; intros d Hwf; [eauto|].
  inversion Hwf; subst. eauto.
Qed.

Lemma repr_in_memory_child get b q cs i n :
  repr sha3_256 get (BranchNode b) (TBranch q cs) → linkedNode b i = Some n →
  ∃ c, cs !! i = Some (Some c) ∧ repr sha3_256 get n c.
Proof.
  intros Hr Hi. inversion Hr as [|b' cs' Hp Hl Hc Hls Hset Hnone Hsome]; subst.
  destruct (proj1 (linkedNode_slot b i n) Hi) as [h Hs].
  assert (i < length cs)%nat as Hlt by (rewrite Hc, <-Hl; by eapply lookup_lt_Some).
  destruct (lookup_lt_is_Some_2 cs i Hlt) as [[c|] E].
  - exists c. split; [done|]. destruct (Hsome i c E) as [_ (n' & Hg & Hn')].
    unfold getLinkedNode in Hg. rewrite Hi in Hg. by simplify_eq.
  - destruct (Hnone i E) as [_ Hm]. congruence.
Qed.

Lemma saveAll_sound get d t :
  twf d t → ∀ n m, repr sha3_256 get n t → m ∈ saveAll_node n →
  ∃ n' u, in_memory n n' ∧ m = compact_node n' ∧ repr sha3_256 get n' u ∧ subtrie u t.
Proof.
  induction 1 as [q v Hq|d q cs Hq Hl H2 Hc IH]; intros n m Hr Hm.
  - inversion Hr; subst. simpl in Hm. assert (m = LeafNode p v) as -> by set_solver.
    eexists _, _. split_and!; [constructor|done|done|constructor].
  - destruct n as [| |b]; [by inversion Hr..|]. rewrite saveAll_branch in Hm.
    apply elem_of_app in Hm as [Hm|Hm].
    + apply list_elem_of_In, in_concat in Hm as (l & Hl' & Hm%list_elem_of_In).
      apply in_map_iff in Hl' as ([h o] & <- & Ho%list_elem_of_In). simpl in Hm.
      destruct o as [n|]; [|by apply not_elem_of_nil in Hm].
      apply list_elem_of_lookup in Ho as [i Hi].
      assert (linkedNode b i = Some n) as Hlk by (apply linkedNode_slot; eauto).
      destruct (repr_in_memory_child _ _ _ _ _ _ Hr Hlk) as (c & Ec & Hn).
      destruct (IH i c Ec n m Hn Hm) as (n' & u & ? & -> & ? & ?).
      exists n', u. split_and!; [by econstructor|done|done|by econstructor].
    + assert (m = BranchNode (compactLinks sha3_256 b)) as -> by set_solver.
      eexists (BranchNode b), _. split_and!; [constructor|done|done|constructor].
Qed.

Lemma compact_hash get n t : repr sha3_256 get n t → hash sha3_256 (compact_node n) = thash sha3_256 t.
Proof.
  intros Hr. rewrite <-(repr_hash _ _ _ _ Hr). destruct n as [| |b]; [done..|]. simpl.
  apply hash_compactLinks. by inversion Hr.
Qed.

(** What a fold of [memory_set] leaves under a hash. *)
Lemma memory_fold l m h :
  foldl (λ m node, memory_set node m) m l !! h =
  match m !! h with
  | Some n => Some n
  | None => list_find (λ node, hash sha3_256 node = h) l ≫= λ p, Some (snd p)
  end.
Proof.
  revert m. induction l as [|n l IH]; intros m; simpl; [by destruct (m !! h)|].
  rewrite IH. unfold memory_set. case_decide as E.
  - subst h. destruct (m !! hash sha3_256 n) eqn:Em; [by rewrite Em|]. by rewrite lookup_insert_eq.
  - assert ((match m !! hash sha3_256 n with Some _ => m | None => <[hash sha3_256 n:=n]> m end) !! h = m !! h) as ->.
    { case_match; [done|]. by rewrite lookup_insert_ne. }
    destruct (m !! h); [done|]. by destruct (list_find _ l) as [[? ?]|].
Qed.

(** * Loading what was saved *)

Lemma in_memory_step n b i n' : in_memory n (BranchNode b) → linkedNode b i = Some n' → in_memory n n'.
Proof.
  intros Hm Hi. remember (BranchNode b) as nb eqn:Hb. revert b Hb Hi.
  induction Hm as [n|b' j n0 n1 Hj Hm IH]; intros b Hb Hi; subst.
  - econstructor; [done|constructor].
  - econstructor; eauto.
Qed.

Lemma linkedNode_compactLinks b i : linkedNode (compactLinks sha3_256 b) i = None.
Proof. unfold linkedNode. rewrite slot_compactLinks. unfold compact_slot. by destruct (slot b i) as [? [?|]]. Qed.

(** A node keeps its trie when every child stays reachable. *)
Lemma repr_change_source get get' b q cs :
  repr sha3_256 get (BranchNode b) (TBranch q cs) →
  (∀ i c n, cs !! i = Some (Some c) → linkedNode b i = Some n → repr sha3_256 get' n c) →
  (∀ i c, cs !! i = Some (Some c) → linkedNode b i = None →
     ∃ n', get' (thash sha3_256 c) = Some n' ∧ repr sha3_256 get' n' c) →
  repr sha3_256 get' (BranchNode b) (TBranch q cs).
Proof.
  intros Hr Hmem Hds. inversion Hr as [|b' cs' Hp Hl Hc Hls Hset Hnone Hsome]; subst.
  constructor; try done. intros i c Hi. destruct (Hsome i c Hi) as [Hlink _]. split; [done|].
  unfold getLinkedNode. rewrite Hlink. destruct (linkedNode b i) as [n|] eqn:E; [|by apply (Hds i c)].
  exists n. split; [done|]. by eapply Hmem.
Qed.

Lemma repr_compact get get' b q cs :
  repr sha3_256 get (BranchNode b) (TBranch q cs) →
  (∀ i c, cs !! i = Some (Some c) → ∃ n', get' (thash sha3_256 c) = Some n' ∧ repr sha3_256 get' n' c) →
  repr sha3_256 get' (BranchNode (compactLinks sha3_256 b)) (TBranch q cs).
Proof.
  intros Hr Hds. inversion Hr as [|b' cs' Hp Hl Hc Hls Hset Hnone Hsome]; subst.
  apply (repr_branch _ _ (compactLinks sha3_256 b)); try done.
  - unfold compactLinks. cbn [b_slots]. by rewrite length_map.
  - intros i Hi. rewrite link_compactLinks, linkedNode_compactLinks. split; [|done]. by apply Hnone.
  - intros i c Hi. destruct (Hsome i c Hi) as [Hlink _]. rewrite link_compactLinks. split; [done|].
    unfold getLinkedNode. rewrite linkedNode_compactLinks, link_compactLinks, Hlink. by apply (Hds i c).
Qed.

Section load.
Context (mem : MemoryDataSource) (backing : Hash256 → option TreeNode) (root : TreeNode) (t : htrie) (d : nat).

Abbreviation get := (read_through_get mem backing).
Abbreviation get' := (read_through_get (saveAll root mem) backing).

Hypothesis root_repr : repr sha3_256 get root t.
Hypothesis root_wf : twf d t.
(** No two different subtrees have the same hash, ... *)
Hypothesis no_collision : ∀ u1 u2, subtrie u1 t → subtrie u2 t →
  thash sha3_256 u1 = thash sha3_256 u2 → u1 = u2.
(** ... and what the data source holds under the hash of a subtree is that subtree. *)
Hypothesis source_sound : ∀ u n, subtrie u t → get (thash sha3_256 u) = Some n → repr sha3_256 get n u.

Definition available u : Prop :=
  is_Some (get (thash sha3_256 u)) ∨ ∃ n, in_memory root n ∧ repr sha3_256 get n u.

Lemma get_saved h :
  (get' h = get h ∧ (∀ m, m ∈ saveAll_node root → hash sha3_256 m = h → is_Some (get h)))
  ∨ ∃ m, m ∈ saveAll_node root ∧ hash sha3_256 m = h ∧ get' h = Some m.
Proof.
  destruct (repr_path _ _ _ _ root_repr) as (_ & _ & Hne).
  unfold read_through_get, memory_get, saveAll. rewrite Hne, memory_fold.
  destruct (mem !! h) as [n|] eqn:Em; [left; split; [done|eauto]|].
  destruct (list_find _ _) as [[i m]|] eqn:E; simpl.
  - right. apply list_find_Some in E as (Hi & Hh & _). exists m. split; [by eapply list_elem_of_lookup_2|done].
  - left. split; [done|]. intros m Hm Hh. apply list_find_None in E.
    rewrite Forall_forall in E. by destruct (E m Hm).
Qed.

(** Under the hash of an available subtree there is the node that was there
    before, or a saved copy of a node in memory. *)
Lemma get_available u :
  subtrie u t → available u →
  (∃ n, get' (thash sha3_256 u) = Some n ∧ repr sha3_256 get n u)
  ∨ (∃ n, get' (thash sha3_256 u) = Some (compact_node n) ∧ in_memory root n ∧ repr sha3_256 get n u).
Proof.
  intros Hsub Hav. destruct (get_saved (thash sha3_256 u)) as [[Heq Hnone]|(m & Hm & Hh & ->)].
  - left. assert (is_Some (get (thash sha3_256 u))) as [n Hn].
    { destruct Hav as [?|(n & Hn & Hr)]; [done|].
      apply (Hnone (compact_node n)); [by apply saveAll_complete|by eapply compact_hash]. }
    rewrite Heq, Hn. exists n. split; [done|]. by apply source_sound.
  - right. destruct (saveAll_sound get d t root_wf root m root_repr Hm) as (n0 & u0 & Hn0 & -> & Hr0 & Hs0).
    rewrite (compact_hash _ _ _ Hr0) in Hh. apply no_collision in Hh as ->; [|done..]. eauto.
Qed.

(** A child that is not in memory comes from the data source. *)
Lemma repr_source_child b q cs i c :
  repr sha3_256 get (BranchNode b) (TBranch q cs) → cs !! i = Some (Some c) → linkedNode b i = None →
  is_Some (get (thash sha3_256 c)).
Proof.
  intros Hr Hi Hlk. inversion Hr as [|b' cs' _ _ _ _ _ _ Hsome]; subst.
  destruct (Hsome i c Hi) as [Hlink (n & Hg & _)]. unfold getLinkedNode in Hg.
  rewrite Hlk, Hlink in Hg. eauto.
Qed.

Lemma saved_subtries d' u :
  twf d' u → subtrie u t →
  (∀ n, repr sha3_256 get n u → repr sha3_256 get' n u)
  ∧ (available u → ∃ n', get' (thash sha3_256 u) = Some n' ∧ repr sha3_256 get' n' u).
Proof.
  induction 1 as [q v Hq|d' q cs Hq Hl H2 Hc IH]; intros Hsub.
  - assert (∀ n, repr sha3_256 get n (TLeaf q v) → repr sha3_256 get' n (TLeaf q v)) as HA.
    { intros n Hn. inversion Hn; subst. by constructor. }
    split; [done|]. intros Hav.
    destruct (get_available _ Hsub Hav) as [(n & Hg & Hn)|(n & Hg & _ & Hn)]; [eauto|].
    exists (compact_node n). split; [done|]. inversion Hn; subst. by constructor.
  - assert (∀ i c, cs !! i = Some (Some c) → subtrie c t) as Hcs.
    { intros i c Hi. eapply subtrie_trans; [|exact Hsub]. econstructor; [done|constructor]. }
    assert (∀ n, repr sha3_256 get n (TBranch q cs) → repr sha3_256 get' n (TBranch q cs)) as HA.
    { intros n Hn. destruct n as [| |b]; [by inversion Hn..|].
      eapply repr_change_source; [exact Hn|..].
      - intros i c n Hi Hlk. destruct (repr_in_memory_child _ _ _ _ _ _ Hn Hlk) as (c' & Hc' & Hr').
        simplify_eq. eapply (IH i c); eauto.
      - intros i c Hi Hlk. apply (IH i c); eauto. left. by eapply repr_source_child. }
    split; [done|]. intros Hav.
    destruct (get_available _ Hsub Hav) as [(n & Hg & Hn)|(n & Hg & Hin & Hn)]; [eauto|].
    exists (compact_node n). split; [done|]. destruct n as [| |b]; [by inversion Hn..|].
    eapply repr_compact; [exact Hn|]. intros i c Hi. apply (IH i c); eauto.
    destruct (linkedNode b i) as [n|] eqn:Hlk; [right|left; by eapply repr_source_child].
    exists n. split; [by eapply in_memory_step|].
    destruct (repr_in_memory_child _ _ _ _ _ _ Hn Hlk) as (c' & Hc' & Hr'). by simplify_eq.
Qed.

(** After [saveAll] the tree is unchanged as a map over the updated data
    source, and loading its root hash from that data source succeeds with a
    node that stores the same entries and has the same hash.  Two collision
    hypotheses on the subtrees of this tree stand for the strength of the hash. *)
Theorem saveAll_then_tryLoad (m : gmap (list Z) Hash256) other :
  (∀ k v, tmem t k v ↔ m !! k = Some v) →
  tree_repr sha3_256 get' d root m
  ∧ ∃ root', tryLoad get' other (hash sha3_256 root) = (root', true)
      ∧ tree_repr sha3_256 get' d root' m ∧ hash sha3_256 root' = hash sha3_256 root.
Proof.
  intros Hm. destruct (saved_subtries d t root_wf (subtrie_refl t)) as [HA HB].
  pose proof (HA root root_repr) as Hroot. split; [right; eauto|].
  rewrite (repr_hash _ _ _ _ Hroot).
  destruct HB as (n' & Hg & Hn'); [right; exists root; split; [constructor|done]|].
  exists n'. unfold tryLoad. rewrite Hg. split; [done|]. split; [right; eauto|]. by eapply repr_hash.
Qed.

End load.

End store.

(** * Example *)

(** A tree of two keys, all of it in memory. *)
Definition sample_path (b : Z) : TreeNodePath := subpath_from (path_of_bytes [b]) 2.

Definition sample_root : TreeNode :=
  BranchNode (setLink_node (setLink_node (new_BranchTreeNode (subpath (path_of_bytes [0x12]) 0 1))
    (LeafNode (sample_path 0x12) [7]) 2) (LeafNode (sample_path 0x13) [8]) 3).

Definition sample_trie : htrie :=
  TBranch [1] (<[3%nat := Some (TLeaf [] [8])]> (<[2%nat := Some (TLeaf [] [7])]> (replicate 16 None))).

Lemma sample_children i c :
  <[3%nat := Some (TLeaf [] [8])]> (<[2%nat := Some (TLeaf [] [7])]> (replicate 16 (@None htrie))) !! i = Some (Some c) →
  (i = 3%nat ∧ c = TLeaf [] [8]) ∨ (i = 2%nat ∧ c = TLeaf [] [7]).
Proof. do 16 (destruct i as [|i]; [naive_solver|]). done. Qed.

Lemma sample_repr get : repr sample_hash get sample_root sample_trie.
Proof.
  assert (∀ b, is_byte b → wf (sample_path b)) as Hp.
  { intros b Hb. apply subpath_from_wf; [|done]. apply path_of_bytes_wf. by constructor. }
  assert (is_byte 0x12) by done. assert (is_byte 0x13) by done.
  apply repr_setLink; [apply repr_setLink; [| |lia]| |lia].
  - apply (repr_new _ _ (subpath (path_of_bytes [0x12]) 0 1)). apply subpath_wf; [|vm_compute; lia].
    apply path_of_bytes_wf. by constructor.
  - apply (repr_leaf _ _ (sample_path 0x12)). by apply Hp.
  - apply (repr_leaf _ _ (sample_path 0x13)). by apply Hp.
Qed.

Lemma sample_twf : twf 2 sample_trie.
Proof.
  apply (twf_branch 0 [1]); [by repeat constructor|done| |].
  - by exists 2%nat, 3%nat, (TLeaf [] [7]), (TLeaf [] [8]).
  - intros i c [[_ ->] | [_ ->]]%sample_children; by apply (twf_leaf []).
Qed.

Lemma sample_subtries u : subtrie u sample_trie → u = sample_trie ∨ u = TLeaf [] [8] ∨ u = TLeaf [] [7].
Proof.
  inversion 1 as [|? ? ? i c Hi Hs]; subst; [auto|]. right.
  apply sample_children in Hi as [[-> ->] | [-> ->]]; inversion Hs; auto.
Qed.

Lemma saveAll_then_tryLoad_witness :
  snd (tryLoad (read_through_get (saveAll sample_hash sample_root ∅) no_source) EmptyNode
        (hash sample_hash sample_root)) = true.
Proof.
  destruct (saveAll_then_tryLoad sample_hash ∅ no_source sample_root sample_trie 2)
    with (m := {[ [1; 2] := [7]; [1; 3] := [8] ]} : gmap (list Z) Hash256) (other := EmptyNode)
    as (_ & root' & -> & _); [apply sample_repr|apply sample_twf| | | |done].
  - intros u1 u2 [->|[->| ->]]%sample_subtries [->|[->| ->]]%sample_subtries;
      first [intros _; reflexivity|intros Heq; exfalso; revert Heq; vm_compute; discriminate].
  - intros u n _ Hn. done.
  - intros k v. unfold sample_trie. rewrite tmem_branch_inv, lookup_insert_Some, lookup_singleton_Some. split.
    + intros (i & c & k' & -> & [[-> ->]|[-> ->]]%sample_children & [-> ->]%tmem_leaf_inv); [right|left]; done.
    + intros [[<- <-]|[Hne [<- <-]]].
      * exists 2%nat, (TLeaf [] [7]), []. split_and!; [done|done|constructor].
      * exists 3%nat, (TLeaf [] [8]), []. split_and!; [done|done|constructor].
Defined.

End Store.
