(* ===== verification/TreeSerializer.v ===== *)
(** Model of catapult::tree::PatriciaTreeSerializer
    (src/catapult/tree/PatriciaTreeSerializer.cpp) with its round trip. *)
From stdpp Require Import base tactics numbers option list sets.
From S2P Require Import Prelude Streams TreeNodePath TreeNode.

Local Open Scope Z_scope.

#[local] Arguments Nat.div : simpl never.
#[local] Arguments Nat.modulo : simpl never.

Module TreeSerializer.
Import Stream Path Node.

Section serializer.
Context (sha3_256 : list Z → Hash256).

(** * Serialization *)

(** One step of the loop on the bytes written and the current byte. *)
Definition serialize_nibble (path : TreeNodePath) (st : list Z * Z) (i : nat) : list Z * Z :=
  let '(out, byte) := st in
  if (i mod 2 =? 0)%nat then (out, u8 (Z.shiftl (nibbleAt path i) 4))
  else let byte := Z.lor byte (nibbleAt path i) in (out ++ Write8 byte, byte).

Definition SerializePath (path : TreeNodePath) : list Z :=
  let '(out, byte) := foldl (serialize_nibble path) ([], 0) (seq 0 (size path)) in
  Write8 (u8 (Z.of_nat (size path)))
  ++ out ++ (if (size path mod 2 =? 1)%nat then Write8 byte else []).

Definition SerializeLeaf (path : TreeNodePath) (value : Hash256) : list Z :=
  Write8 0xFF ++ SerializePath path ++ value.

(** [GetNumBits<LinksMaskType>()]. *)
Definition LinksMask_bits : nat := 16.

Definition linksMask (node : Branch) : Z :=
  foldl (λ mask i, Z.lor mask (u16 (Z.shiftl (if hasLink node i then 1 else 0) (Z.of_nat i))))
    0 (seq 0 LinksMask_bits).

Definition serialize_links (node : Branch) : list Z :=
  concat (map (λ i, if hasLink node i then link sha3_256 node i else []) (seq 0 LinksMask_bits)).

Definition SerializeBranch (node : Branch) : list Z :=
  Write8 0x00 ++ SerializePath (b_path node) ++ Write16 (linksMask node) ++ serialize_links node.

Definition SerializeValue (value : TreeNode) : result (list Z) :=
  match value with
  | EmptyNode => Throw invalid_argument
  | LeafNode path v => Ok (SerializeLeaf path v)
  | BranchNode b => Ok (SerializeBranch b)
  end.

(** * Deserialization *)

Definition DeserializePath : Reader TreeNodePath :=
  numNibbles ← Read8;
  let numNibbles := Z.to_nat numNibbles in
  let n := ((numNibbles + 1) / 2)%nat in
  if (n =? 0)%nat then mret empty_path
  else
    alignedPath ← read n;
    let path := path_of_bytes alignedPath in
    if (numNibbles mod 2 =? 1)%nat && negb (nibbleAt path (size path - 1) =? 0)
    then throw runtime_error
    else mret (subpath path 0 numNibbles).

Definition DeserializeLeaf : Reader TreeNode :=
  path ← DeserializePath;
  value ← read Hash256_Size;
  mret (LeafNode path value).

Fixpoint deserialize_links (links : Z) (indexes : list nat) (branch : Branch) : Reader Branch :=
  match indexes with
  | [] => mret branch
  | i :: indexes =>
      if negb (Z.land links (Z.shiftl 1 (Z.of_nat i)) =? 0)
      then link ← read Hash256_Size; deserialize_links links indexes (setLink_hash branch link i)
      else deserialize_links links indexes branch
  end.

Definition DeserializeBranch : Reader TreeNode :=
  path ← DeserializePath;
  links ← Read16;
  branch ← deserialize_links links (seq 0 LinksMask_bits) (new_BranchTreeNode path);
  mret (BranchNode branch).

Definition DeserializeValue : Reader TreeNode :=
  nodeMarker ← Read8;
  if nodeMarker =? 0xFF then DeserializeLeaf
  else if nodeMarker =? 0x00 then DeserializeBranch
  else throw invalid_argument.

(** * Round trip *)

(** The bytes of a path, two nibbles to a byte. *)
Definition path_bytes (path : TreeNodePath) : list Z :=
  let '(out, byte) := foldl (serialize_nibble path) ([], 0) (seq 0 (size path)) in
  out ++ (if (size path mod 2 =? 1)%nat then Write8 byte else []).

Lemma nat_even_odd n : (∃ m, n = 2 * m ∧ n mod 2 = 0)%nat ∨ (∃ m, n = 2 * m + 1 ∧ n mod 2 = 1)%nat.
Proof.
  pose proof (Nat.div_mod_eq n 2). pose proof (Nat.mod_upper_bound n 2 ltac:(lia)).
  destruct (n mod 2)%nat as [|[|]] eqn:E; [left|right|lia]; exists (n / 2)%nat; lia.
Qed.

Lemma byte_nibble_snoc bytes b j :
  (j < 2 * length bytes)%nat → byte_nibble (bytes ++ [b]) j = byte_nibble bytes j.
Proof.
  intros Hj. unfold byte_nibble. rewrite lookup_app_l; [done|]. apply Nat.Div0.div_lt_upper_bound. lia.
Qed.

Lemma byte_nibble_last bytes b c :
  (c < 2)%nat → byte_nibble (bytes ++ [b]) (2 * length bytes + c) = if (c =? 0)%nat then high b else low b.
Proof.
  intros Hc. rewrite byte_nibble_cases. cbv zeta.
  replace (2 * length bytes + c)%nat with (c + length bytes * 2)%nat by lia.
  rewrite Nat.div_add, Nat.Div0.mod_add, Nat.div_small, Nat.mod_small, Nat.add_0_l by lia.
  by rewrite list_lookup_middle.
Qed.

Lemma seq_snoc n : seq 0 (S n) = seq 0 n ++ [n].
Proof. by rewrite seq_S. Qed.

Lemma Write8_byte b : is_byte b → Write8 b = [b].
Proof. intros Hb. unfold Write8. simpl. by rewrite wrap_small. Qed.

Lemma serialize_loop path m :
  ∃ out byte, foldl (serialize_nibble path) ([], 0) (seq 0 (2 * m)) = (out, byte)
    ∧ length out = m ∧ Forall is_byte out
    ∧ ∀ j, (j < 2 * m)%nat → byte_nibble out j = nibbleAt path j.
Proof.
  induction m as [|m (out & byte & Hf & Hl & Hb & Hn)].
  { exists [], 0. split_and!; [done|done|constructor|lia]. }
  replace (2 * S m)%nat with (S (S (2 * m))) by lia.
  rewrite !seq_snoc, !foldl_app, Hf. simpl. unfold serialize_nibble.
  replace (m + (m + 0))%nat with (m * 2)%nat by lia.
  replace (S (m * 2)) with (1 + m * 2)%nat by lia.
  rewrite Nat.Div0.mod_mul, Nat.Div0.mod_add. simpl.
  destruct (nibble_bits (nibbleAt path (m * 2)) (nibbleAt_range _ _)) as (Hhh & Hhl & _ & _).
  destruct (nibble_bits (nibbleAt path (1 + m * 2)) (nibbleAt_range _ _)) as (_ & _ & Hlh & Hll).
  assert (Z.land (nibbleAt path (1 + m * 2)) 15 = nibbleAt path (1 + m * 2)) as Hid.
  { change 15 with (Z.ones 4). rewrite Z.land_ones by lia. apply Z.mod_small, nibbleAt_range. }
  rewrite Hid in Hlh, Hll.
  set (b := Z.lor (u8 (Z.shiftl (nibbleAt path (m * 2)) 4)) (nibbleAt path (1 + m * 2))).
  assert (is_byte b) as Hbyte.
  { apply lor_byte; [by apply wrap_range|]. pose proof (nibbleAt_range path (1 + m * 2)).
    unfold is_nibble, is_byte, in_range in *. lia. }
  exists (out ++ [b]), b. rewrite Write8_byte by done. split_and!.
  - done.
  - rewrite length_app. simpl. lia.
  - by apply Forall_app_2; [|constructor].
  - intros j Hj. destruct (decide (j < 2 * m)%nat).
    + rewrite byte_nibble_snoc by lia. by apply Hn.
    + assert (∃ c, (c < 2)%nat ∧ j = (2 * length out + c)%nat) as (c & Hc & ->).
      { exists (j - 2 * m)%nat. lia. }
      rewrite byte_nibble_last by done. unfold b. rewrite high_lor, low_lor, Hhh, Hhl, Hlh, Hll, Z.lor_0_r, Z.lor_0_l.
      rewrite Hl. destruct c as [|[|]]; [..|lia]; simpl; f_equal; lia.
Qed.

Lemma path_bytes_spec path :
  length (path_bytes path) = ((size path + 1) / 2)%nat ∧ Forall is_byte (path_bytes path)
  ∧ ∀ j, byte_nibble (path_bytes path) j = if (j <? size path)%nat then nibbleAt path j else 0.
Proof.
  assert (∀ out j, (2 * length out ≤ j)%nat → byte_nibble out j = 0) as Hz.
  { intros out j Hj. unfold byte_nibble. rewrite lookup_ge_None_2; [by case_match|].
    apply Nat.div_le_lower_bound; lia. }
  unfold path_bytes. destruct (nat_even_odd (size path)) as [(m & Hs & Hm)|(m & Hs & Hm)]; rewrite Hm.
  - destruct (serialize_loop path m) as (out & byte & Hf & Hl & Hb & Hn). rewrite Hs, Hf. simpl.
    rewrite app_nil_r. split_and!; [|done|].
    + rewrite Hl. replace (m + (m + 0) + 1)%nat with (1 + m * 2)%nat by lia. by rewrite Nat.div_add by lia.
    + intros j. destruct (Nat.ltb_spec j (m + (m + 0))); [apply Hn; lia|apply Hz; lia].
  - destruct (serialize_loop path m) as (out & byte & Hf & Hl & Hb & Hn).
    rewrite Hs, Nat.add_1_r, seq_snoc, foldl_app, Hf. cbn [foldl]. unfold serialize_nibble.
    replace (2 * m)%nat with (m * 2)%nat in * by lia. rewrite Nat.Div0.mod_mul. simpl.
    set (b := u8 (Z.shiftl (nibbleAt path (m * 2)) 4)).
    assert (is_byte b) as Hbyte by (by apply wrap_range). rewrite Write8_byte by done.
    destruct (nibble_bits (nibbleAt path (m * 2)) (nibbleAt_range _ _)) as (Hhh & Hhl & _ & _).
    split_and!.
    + rewrite length_app, Hl. simpl. replace (S (m * 2 + 1)) with (0 + (m + 1) * 2)%nat by lia.
      by rewrite Nat.div_add by lia.
    + by apply Forall_app_2; [|constructor].
    + intros j. destruct (decide (j < m * 2)%nat).
      { rewrite byte_nibble_snoc, Hn by lia. by rewrite (proj2 (Nat.ltb_lt _ _)) by lia. }
      destruct (decide (j < m * 2 + 2)%nat).
      * assert (∃ c, (c < 2)%nat ∧ j = (2 * length out + c)%nat) as (c & Hc & ->).
        { exists (j - m * 2)%nat. lia. }
        rewrite byte_nibble_last by done. unfold b. rewrite Hhh, Hhl, Hl.
        destruct c as [|[|]]; [..|lia]; simpl.
        -- rewrite (proj2 (Nat.ltb_lt _ _)) by lia. f_equal. lia.
        -- by rewrite (proj2 (Nat.ltb_ge _ _)) by lia.
      * rewrite Hz by (rewrite length_app; simpl; lia). by rewrite (proj2 (Nat.ltb_ge _ _)) by lia.
Qed.

(** ** Paths *)

Definition restored_path (path : TreeNodePath) : TreeNodePath :=
  if (size path =? 0)%nat then empty_path else subpath (path_of_bytes (path_bytes path)) 0 (size path).

Lemma restored_path_spec path : wf (restored_path path) ∧ nibbles (restored_path path) = nibbles path.
Proof.
  destruct (path_bytes_spec path) as (Hl & Hb & Hn). unfold restored_path.
  assert (size path ≤ size (path_of_bytes (path_bytes path)))%nat as Hle.
  { unfold size at 2. simpl. rewrite Hl. pose proof (half_up (size path)). lia. }
  destruct (Nat.eqb_spec (size path) 0) as [Hz|Hz].
  - split; [apply empty_path_wf|]. unfold nibbles. by rewrite Hz.
  - split; [by apply subpath_wf; [apply path_of_bytes_wf|]|].
    rewrite nibbles_subpath by (done || by apply path_of_bytes_wf). rewrite drop_0.
    apply list_eq_same_length with (size path); [by rewrite nibbles_length| |].
    + rewrite length_take, nibbles_length. lia.
    + intros i x y Hi. rewrite lookup_take_lt, !nibbles_lookup by lia. rewrite !nibbleAt_byte. simpl.
      rewrite Nat.add_0_r, Hn, (proj2 (Nat.ltb_lt _ _)), nibbleAt_byte by lia. congruence.
Qed.

Lemma reads_path path :
  (size path < 256)%nat → reads DeserializePath (SerializePath path) (restored_path path).
Proof.
  intros Hs. destruct (path_bytes_spec path) as (Hl & Hb & Hn).
  assert (SerializePath path = Write8 (u8 (Z.of_nat (size path))) ++ path_bytes path) as ->.
  { unfold SerializePath, path_bytes. by destruct (foldl _ _ _). }
  assert (in_range 8 (Z.of_nat (size path))) as Hr by (unfold in_range; lia).
  rewrite wrap_small by done. eapply reads_bind; [by apply reads_Read8|].
  cbv beta zeta. rewrite Nat2Z.id, <-Hl. unfold restored_path.
  destruct (Nat.eqb_spec (length (path_bytes path)) 0) as [Hz|Hz].
  - rewrite (nil_length_inv _ Hz). assert (size path = 0)%nat as ->.
    { pose proof (half_up (size path)). lia. } apply reads_ret.
  - eapply reads_bind_end; [apply reads_read|]. cbv zeta.
    destruct (Nat.eqb_spec (size path) 0) as [Hz'|_].
    { exfalso. apply Hz. rewrite Hl, Hz'. done. }
    assert ((size path mod 2 =? 1)%nat
      && negb (nibbleAt (path_of_bytes (path_bytes path)) (size (path_of_bytes (path_bytes path)) - 1) =? 0) = false) as ->;
      [|apply reads_ret].
    rewrite nibbleAt_byte. unfold size at 2. simpl. rewrite Nat.add_0_r, Hn, Hl.
    destruct (nat_even_odd (size path)) as [(m & Hsz & ->)|(m & Hsz & ->)]; [done|].
    rewrite Hsz. replace (2 * m + 1 + 1)%nat with (0 + (m + 1) * 2)%nat by lia.
    rewrite Nat.div_add by lia. rewrite (proj2 (Nat.ltb_ge _ _)); [done|]. simpl. lia.
Qed.

(** ** Links *)

Lemma u16_bit (b : bool) i : (i < 16)%nat → u16 (Z.shiftl (if b then 1 else 0) (Z.of_nat i)) = if b then 2 ^ Z.of_nat i else 0.
Proof.
  intros Hi. destruct b; [|by rewrite Z.shiftl_0_l]. rewrite Z.shiftl_1_l. apply wrap_small.
  unfold in_range. split; [apply Z.pow_nonneg; lia|apply Z.pow_lt_mono_r; lia].
Qed.

Lemma mask_loop (p : nat → bool) l m :
  Forall (λ i, (i < 16)%nat) l → in_range 16 m →
  let r := foldl (λ mask i, Z.lor mask (u16 (Z.shiftl (if p i then 1 else 0) (Z.of_nat i)))) m l in
  in_range 16 r ∧ ∀ j : nat, Z.testbit r (Z.of_nat j) = Z.testbit m (Z.of_nat j) || (bool_decide (j ∈ l) && p j).
Proof.
  intros Hl. revert m. induction Hl as [|i l Hi Hl IH]; intros m Hm; cbn [foldl]; cbv zeta.
  { split; [done|]. intros j. rewrite bool_decide_false by set_solver. by rewrite orb_false_r. }
  destruct (IH (Z.lor m (u16 (Z.shiftl (if p i then 1 else 0) (Z.of_nat i))))) as [Hr Hb].
  { apply lor_range; [done|by apply wrap_range]. }
  split; [done|]. intros j. rewrite Hb, u16_bit, Z.lor_spec by done. rewrite <-orb_assoc. f_equal.
  destruct (decide (j = i)) as [->|Hne].
  - rewrite (bool_decide_true (i ∈ i :: l)) by set_solver. destruct (p i); simpl.
    + rewrite Z.pow2_bits_true by lia. done.
    + by rewrite Z.testbit_0_l, andb_false_r.
  - rewrite (bool_decide_ext (j ∈ i :: l) (j ∈ l)) by set_solver. destruct (p i); simpl; [|by rewrite Z.testbit_0_l].
    by rewrite Z.pow2_bits_false by lia.
Qed.

Lemma linksMask_spec node :
  in_range 16 (linksMask node) ∧ ∀ j, (j < 16)%nat → Z.testbit (linksMask node) (Z.of_nat j) = hasLink node j.
Proof.
  destruct (mask_loop (hasLink node) (seq 0 LinksMask_bits) 0) as [Hr Hb].
  { apply Forall_forall. intros i Hi. apply elem_of_seq in Hi. unfold LinksMask_bits in Hi. lia. }
  { done. }
  split; [exact Hr|]. intros j Hj. unfold linksMask. rewrite Hb, Z.testbit_0_l, bool_decide_true; [done|].
  apply elem_of_seq. unfold LinksMask_bits. lia.
Qed.

Lemma land_bit x i : negb (Z.land x (Z.shiftl 1 (Z.of_nat i)) =? 0) = Z.testbit x (Z.of_nat i).
Proof.
  rewrite Z.shiftl_1_l. destruct (Z.testbit x (Z.of_nat i)) eqn:E.
  - apply negb_true_iff, Z.eqb_neq. intros Hz. apply (f_equal (λ y, Z.testbit y (Z.of_nat i))) in Hz.
    rewrite Z.land_spec, E, Z.pow2_bits_true, Z.testbit_0_l in Hz by lia. done.
  - apply negb_false_iff, Z.eqb_eq, Z.bits_inj'. intros j Hj. rewrite Z.land_spec, Z.testbit_0_l, Z.pow2_bits_eqb by lia.
    destruct (Z.eqb_spec (Z.of_nat i) j) as [<-|]; [by rewrite E|apply andb_false_r].
Qed.

(** The branch that is built from the links of [node] at [indexes]. *)
Definition restore_links (node : Branch) (indexes : list nat) (b : Branch) : Branch :=
  foldl (λ b i, if hasLink node i then setLink_hash b (link sha3_256 node i) i else b) b indexes.

Definition sized_links (node : Branch) : Prop :=
  ∀ i, (i < 16)%nat → hasLink node i = true → length (link sha3_256 node i) = Hash256_Size.

Lemma reads_links node l b :
  sized_links node → Forall (λ i, (i < 16)%nat) l →
  reads (deserialize_links (linksMask node) l b)
    (concat (map (λ i, if hasLink node i then link sha3_256 node i else []) l)) (restore_links node l b).
Proof.
  intros Hsize Hl. destruct (linksMask_spec node) as [_ Hmask]. revert b.
  induction Hl as [|i l Hi Hl IH]; intros b; [apply reads_ret|]. simpl. rewrite land_bit, Hmask by done.
  destruct (hasLink node i) eqn:E; [|apply IH].
  eapply reads_bind; [|apply IH]. rewrite <-(Hsize i Hi E). apply reads_read.
Qed.

Lemma restore_links_spec node l b :
  NoDup l → Forall (λ i, (i < 16)%nat) l → length (b_slots b) = 16%nat →
  let r := restore_links node l b in
  length (b_slots r) = 16%nat ∧ b_path r = b_path b
  ∧ ∀ j, link sha3_256 r j = (if bool_decide (j ∈ l) && hasLink node j then link sha3_256 node j else link sha3_256 b j)
       ∧ hasLink r j = (bool_decide (j ∈ l) && hasLink node j || hasLink b j).
Proof.
  intros Hnd Hl. revert b. induction Hl as [|i l Hi Hl IH]; intros b Hlen.
  { cbv zeta. split_and!; [done..|]. intros j. rewrite bool_decide_false by set_solver. done. }
  apply NoDup_cons in Hnd as [Hni Hnd]. cbn [restore_links foldl]. cbv zeta.
  set (b' := if hasLink node i then setLink_hash b (link sha3_256 node i) i else b).
  assert (length (b_slots b') = 16%nat ∧ b_path b' = b_path b) as [Hlen' Hp'].
  { unfold b'. destruct (hasLink node i); [|done]. simpl. by rewrite length_insert. }
  destruct (IH Hnd b' Hlen') as (? & ? & Hj). fold (restore_links node l b'). split_and!; [done|congruence|].
  intros j. destruct (Hj j) as [-> ->].
  destruct (decide (j = i)) as [->|Hne].
  - rewrite (bool_decide_false (i ∈ l)) by done. rewrite (bool_decide_true (i ∈ i :: l)) by set_solver.
    simpl. unfold b'. destruct (hasLink node i) eqn:E; [|done].
    destruct (link_setLink_hash sha3_256 b (link sha3_256 node i) i i) as [-> _]; [lia|].
    unfold setLink_hash. rewrite hasLink_setLink. by rewrite !decide_True.
  - rewrite (bool_decide_ext (j ∈ i :: l) (j ∈ l)) by set_solver. unfold b'.
    destruct (hasLink node i) eqn:E; [|done].
    destruct (link_setLink_hash sha3_256 b (link sha3_256 node i) i j) as [-> _]; [lia|].
    unfold setLink_hash. rewrite hasLink_setLink. by rewrite !decide_False.
Qed.

(** ** Nodes *)

(** What the serializer relies on: paths of less than 256 nibbles, hashes of
    the right size, and unused links that are zero. *)
Definition serializable (node : TreeNode) : Prop :=
  match node with
  | EmptyNode => False
  | LeafNode p v => (size p < 256)%nat ∧ length v = Hash256_Size
  | BranchNode b =>
      (size (b_path b) < 256)%nat ∧ length (b_slots b) = Max_Links ∧ sized_links b
      ∧ ∀ i, (i < 16)%nat → hasLink b i = false → link sha3_256 b i = Hash256_zero
  end.

Definition same_kind (n n' : TreeNode) : Prop :=
  match n, n' with
  | LeafNode _ v, LeafNode _ v' => v = v'
  | BranchNode b, BranchNode b' => ∀ i, (i < 16)%nat → hasLink b' i = hasLink b i ∧ link sha3_256 b' i = link sha3_256 b i
  | _, _ => False
  end.

Lemma serialize_leaf_roundtrip p v :
  serializable (LeafNode p v) → reads DeserializeValue (SerializeLeaf p v) (LeafNode (restored_path p) v).
Proof.
  intros [Hs Hv]. unfold SerializeLeaf. eapply reads_bind; [by apply reads_Read8|]. simpl.
  eapply reads_bind; [by apply reads_path|]. rewrite <-Hv.
  eapply reads_bind_end; [apply reads_read|apply reads_ret].
Qed.

Lemma serialize_branch_roundtrip b :
  serializable (BranchNode b) →
  reads DeserializeValue (SerializeBranch b)
    (BranchNode (restore_links b (seq 0 16) (new_BranchTreeNode (restored_path (b_path b))))).
Proof.
  intros (Hs & Hl & Hsize & _). unfold SerializeBranch. eapply reads_bind; [by apply reads_Read8|].
  change (0x00 =? 0xFF) with false. change (0x00 =? 0x00) with true. cbv beta iota.
  eapply reads_bind; [by apply reads_path|].
  eapply reads_bind; [apply reads_Read16, linksMask_spec|].
  eapply reads_bind_end; [|apply reads_ret]. apply reads_links; [done|].
  apply Forall_forall. intros i Hi%elem_of_seq. unfold LinksMask_bits in Hi. lia.
Qed.

(** Deserializing a serialized node consumes its bytes exactly and yields
    a node of the same kind with the same path, value, links and hash. *)
Theorem serializer_roundtrip node :
  serializable node →
  ∃ bytes node', SerializeValue node = Ok bytes ∧ reads DeserializeValue bytes node'
    ∧ same_kind node node' ∧ nibbles (path node') = nibbles (path node)
    ∧ hash sha3_256 node' = hash sha3_256 node.
Proof.
  intros Hser. destruct node as [|p v|b]; [done|..].
  - eexists _, _. split; [done|]. split; [by apply serialize_leaf_roundtrip|]. simpl.
    destruct (restored_path_spec p) as [_ Hn]. split_and!; [done|done|].
    unfold CalculateLeafTreeNodeHash. by rewrite !EncodeKey_nibbles, Hn.
  - eexists _, _. split; [done|]. split; [by apply serialize_branch_roundtrip|].
    destruct Hser as (_ & Hl & _ & Hzero). destruct (restored_path_spec (b_path b)) as [_ Hn].
    destruct (restore_links_spec b (seq 0 16) (new_BranchTreeNode (restored_path (b_path b)))) as (Hl' & Hp' & Hj);
      [apply NoDup_seq| |done|].
    { apply Forall_forall. intros i Hi%elem_of_seq. lia. }
    assert (∀ i, (i < 16)%nat →
      hasLink (restore_links b (seq 0 16) (new_BranchTreeNode (restored_path (b_path b)))) i = hasLink b i
      ∧ link sha3_256 (restore_links b (seq 0 16) (new_BranchTreeNode (restored_path (b_path b)))) i = link sha3_256 b i) as Hsame.
    { intros i Hi. destruct (Hj i) as [-> ->]. rewrite bool_decide_true by (apply elem_of_seq; lia).
      assert (hasLink (new_BranchTreeNode (restored_path (b_path b))) i = false) as -> by apply Z.testbit_0_l.
      rewrite orb_false_r. split; [done|]. simpl andb.
      destruct (hasLink b i) eqn:E; [done|]. rewrite Hzero by done.
      do 16 (destruct i as [|i]; [done|]). lia. }
    split_and!; [exact Hsame|cbn [path]; by rewrite Hp'|].
    rewrite !branch_hash by done. rewrite Hp', !EncodeKey_nibbles.
    cbn [b_path new_BranchTreeNode]. rewrite Hn. do 3 f_equal.
    apply list_fmap_ext. intros i x Hx. apply lookup_seq in Hx as [-> Hx]. by apply Hsame.
Qed.

End serializer.

(** * Example *)

Definition sample_leaf : TreeNode := LeafNode (subpath (path_of_bytes [0x12; 0x34]) 1 3) (replicate 32 7).

Lemma serializer_roundtrip_witness :
  ∃ bytes node', SerializeValue id sample_leaf = Ok bytes ∧ reads DeserializeValue bytes node'
    ∧ same_kind id sample_leaf node' ∧ nibbles (path node') = [2; 3; 4]
    ∧ hash id node' = hash id sample_leaf.
Proof.
  destruct (serializer_roundtrip id sample_leaf) as (bytes & node' & ? & ? & ? & Hn & ?).
  - split; [vm_compute; lia|reflexivity].
  - exists bytes, node'. split_and!; assumption.
Defined.

End TreeSerializer.
