(* ===== verification/CacheTree.v ===== *)
(** Model of catapult::cache PatriciaTreeUtils.h (ApplyDeltasToTree) and
    PatriciaTreeCacheMixins.h (PatriciaTreeDeltaMixin): the Patricia tree of a
    cache is brought up to date from the pending modifications, generation by
    generation.  The theorem shows that after an update the tree stores
    exactly the active elements of the cache. *)
From stdpp Require Import base tactics numbers option list gmap relations.
From S2P Require Import Prelude BaseSetDelta.

Local Open Scope Z_scope.

Module CacheTree.
Import DeltaSet.

(** * The tree a cache relies on *)

Class KeyValueTree (T K V : Type) := {
  tree_set : K → V → T → T;
  tree_unset : K → T → T;
  tree_checkpoint : T → T
}.

(** Its contents as a finite map of encoded values. *)
Class KeyValueTreeLaws (T K V H : Type) `{Countable K} `{!KeyValueTree T K V} := {
  tree_encode : V → H;
  tree_models : T → gmap K H → Prop;
  tree_set_models k v t m : tree_models t m → tree_models (tree_set k v t) (<[k := tree_encode v]> m);
  tree_unset_models k t m : tree_models t m → tree_models (tree_unset k t) (delete k m);
  tree_checkpoint_models t m : tree_models t m → tree_models (tree_checkpoint t) m
}.

Section definitions.
Context {T K V : Type} `{Countable K} `{!KeyValueTree T K V} (ToKey : V → K).
(** [IsActiveAdapter::IsActive]: constantly true for elements without a
    lifetime, otherwise the element's own [isActive]. *)
Context (IsActive : V → Z → bool).
Implicit Types (s : BaseSetDelta K V) (k : K) (t : T).

(** * Operations *)

Definition needsApplication s (minGenerationId : Z) k : bool :=
  let generationId := generationId_key s k in
  (minGenerationId <=? generationId) && (generationId <=? m_generationId s).

Definition handleModification (height : Z) (p : K * V) t : T :=
  if IsActive (snd p) height then tree_set (fst p) (snd p) t else tree_unset (fst p) t.

(** One of the loops over the changed elements. *)
Definition apply_loop (needs : K → bool) (f : K * V → T → T) (l : list (K * V)) t : T :=
  foldl (λ t p, if needs (fst p) then f p t else t) t l.

Definition ApplyDeltasToTree t s (minGenerationId height : Z) : T :=
  let needs := needsApplication s minGenerationId in
  let d := deltas s in
  let t := apply_loop needs (handleModification height) (Added d) t in
  let t := apply_loop needs (handleModification height) (Copied d) t in
  apply_loop needs (λ p, tree_unset (fst p)) (Removed d) t.

(** PatriciaTreeDeltaMixin and the delta set it refers to. *)
Record PatriciaTreeDeltaMixin := {
  m_set : BaseSetDelta K V;
  m_pTree : option T;
  m_nextGenerationId : Z
}.

Definition new_PatriciaTreeDeltaMixin s (pTree : option T) : PatriciaTreeDeltaMixin :=
  {| m_set := s; m_pTree := pTree; m_nextGenerationId := m_generationId s |}.

Definition supportsMerkleRoot (x : PatriciaTreeDeltaMixin) : bool := bool_decide (is_Some (m_pTree x)).

Definition setApplyCheckpoint s t : PatriciaTreeDeltaMixin :=
  let s := incrementGenerationId s in
  {| m_set := s; m_pTree := Some (tree_checkpoint t); m_nextGenerationId := m_generationId s |}.

Definition updateMerkleRoot (height : Z) (x : PatriciaTreeDeltaMixin) : PatriciaTreeDeltaMixin :=
  match m_pTree x with
  | None => x
  | Some t => setApplyCheckpoint (m_set x) (ApplyDeltasToTree t (m_set x) (m_nextGenerationId x) height)
  end.

End definitions.

Arguments PatriciaTreeDeltaMixin T K V {_ _}.

(** * The tree follows the cache *)

Section theorems.
Context {T K V H : Type} `{Countable K} `{!KeyValueTree T K V} `{!KeyValueTreeLaws T K V H}.
Context (ToKey : V → K) (IsActive : V → Z → bool) (o : gmap K V).
Implicit Types (s : BaseSetDelta K V) (k : K) (t : T) (x : PatriciaTreeDeltaMixin T K V).

(** What the tree should store for a key. *)
Definition active_entry (height : Z) (v : option V) : option H :=
  v ← v; if IsActive v height then Some (tree_encode v) else None.

Definition in_deltas s k : Prop :=
  is_Some (m_addedElements s !! k) ∨ is_Some (m_removedElements s !! k) ∨ is_Some (m_copiedElements s !! k).

(** ** One update *)

Lemma apply_loop_models (needs : K → bool) (f : K * V → T → T) (g : V → option H) (l : gmap K V) :
  (∀ p t m, tree_models t m → tree_models (f p t) (partial_alter (λ _, g (snd p)) (fst p) m)) →
  ∀ t m, tree_models t m →
  ∃ m', tree_models (apply_loop needs f (map_to_list l) t) m'
    ∧ ∀ k, m' !! k = match l !! k with Some v => if needs k then g v else m !! k | None => m !! k end.
Proof.
  intros Hf. assert (∀ (es : list (K * V)) t m, NoDup es.*1 → tree_models t m →
    ∃ m', tree_models (apply_loop needs f es t) m'
      ∧ ∀ k, m' !! k = match (list_to_map es : gmap K V) !! k with
                       | Some v => if needs k then g v else m !! k | None => m !! k end) as Hes.
  { intros es. induction es as [|[k0 v0] es IH]; intros t m Hnd Ht; simpl.
    { exists m. split; [done|]. intros k. by rewrite lookup_empty. }
    apply NoDup_cons in Hnd as [Hk0 Hnd]. unfold apply_loop in *. simpl.
    destruct (IH (if needs k0 then f (k0, v0) t else t)
      (if needs k0 then partial_alter (λ _, g v0) k0 m else m) Hnd) as (m' & Hm' & Hk).
    { destruct (needs k0); [|done]. by apply (Hf (k0, v0)). }
    exists m'. split; [done|]. intros k. rewrite Hk, lookup_insert. case_decide as E.
    - subst k0. rewrite not_elem_of_list_to_map_1 by done. destruct (needs k) eqn:En; [|done].
      by rewrite lookup_partial_alter_eq.
    - assert ((if needs k0 then partial_alter (λ _, g v0) k0 m else m) !! k = m !! k) as ->; [|done].
      destruct (needs k0); [|done]. by rewrite lookup_partial_alter_ne. }
  intros t m Ht. destruct (Hes (map_to_list l) t m (NoDup_fst_map_to_list l) Ht) as (m' & ? & Hk).
  exists m'. split; [done|]. intros k. by rewrite Hk, list_to_map_to_list.
Qed.

Lemma handleModification_models height (p : K * V) t m :
  tree_models t m →
  tree_models (handleModification IsActive height p t)
    (partial_alter (λ _, active_entry height (Some (snd p))) (fst p) m).
Proof.
  intros Ht. unfold handleModification, active_entry. simpl.
  destruct (IsActive (snd p) height); [by apply tree_set_models|by apply tree_unset_models].
Qed.

Lemma ApplyDeltas_models t m s minId height :
  wf_elements ToKey MutableTypeTag o (m_addedElements s) (m_removedElements s) (m_copiedElements s) →
  tree_models t m →
  ∃ m', tree_models (ApplyDeltasToTree IsActive t s minId height) m'
    ∧ ∀ k, m' !! k = if needsApplication s minId k && bool_decide (in_deltas s k)
                     then active_entry height (view o s !! k) else m !! k.
Proof.
  intros Hwf Ht. unfold ApplyDeltasToTree, deltas. simpl.
  set (needs := needsApplication s minId).
  destruct (apply_loop_models needs _ (λ v, active_entry height (Some v)) (m_addedElements s) (handleModification_models height) _ _ Ht) as (m1 & Ht1 & H1).
  destruct (apply_loop_models needs _ (λ v, active_entry height (Some v)) (m_copiedElements s) (handleModification_models height) _ _ Ht1) as (m2 & Ht2 & H2).
  destruct (apply_loop_models needs (λ p, tree_unset (fst p)) (λ _, None) (m_removedElements s)
    ltac:(intros p t' m' Ht'; by apply tree_unset_models) _ _ Ht2) as (m3 & Ht3 & H3).
  exists m3. split; [done|]. intros k. rewrite H3, H2, H1, view_lookup. unfold in_deltas.
  pose proof (wf_added _ _ _ _ _ _ Hwf k) as Ha. destruct (needs k); simpl.
  - destruct (m_removedElements s !! k) eqn:Er; [by rewrite bool_decide_true by eauto|].
    destruct (m_copiedElements s !! k) eqn:Ec; [by rewrite bool_decide_true by eauto|].
    destruct (m_addedElements s !! k) eqn:Ea.
    + rewrite bool_decide_true by eauto. by rewrite Ha by eauto.
    + rewrite bool_decide_false; [done|]. intros [[? ?]|[[? ?]|[? ?]]]; congruence.
  - by destruct (m_removedElements s !! k), (m_copiedElements s !! k), (m_addedElements s !! k).
Qed.

(** ** Modifications mark the keys they touch *)

Definition same_at s s' k : Prop :=
  generationId_key s' k = generationId_key s k
  ∧ m_addedElements s' !! k = m_addedElements s !! k
  ∧ m_removedElements s' !! k = m_removedElements s !! k
  ∧ m_copiedElements s' !! k = m_copiedElements s !! k.

(** Every key is left alone, or marked and part of the deltas. *)
Definition marks s s' : Prop :=
  m_generationId s' = m_generationId s
  ∧ ∀ k, same_at s s' k ∨ (generationId_key s' k = m_generationId s ∧ in_deltas s' k).

Lemma marks_refl s : marks s s.
Proof. split; [done|]. intros k. left. by split_and!. Qed.

Lemma marks_one s s' k0 :
  m_generationId s' = m_generationId s → (∀ k, k ≠ k0 → same_at s s' k) →
  generationId_key s' k0 = m_generationId s → in_deltas s' k0 → marks s s'.
Proof. intros Hg Hne Hk0 Hd. split; [done|]. intros k. destruct (decide (k = k0)) as [->|]; auto. Qed.

Ltac marks_tac k0 :=
  apply (marks_one _ _ k0);
  [done
  |intros ? ?; unfold same_at, generationId_key; simpl; by rewrite ?lookup_insert_ne, ?lookup_delete_ne by done
  |unfold generationId_key; simpl; by rewrite lookup_insert_eq
  |unfold in_deltas; simpl; rewrite ?lookup_insert_eq; eauto].

Abbreviation wf_set s :=
  (wf_elements ToKey MutableTypeTag o (m_addedElements s) (m_removedElements s) (m_copiedElements s)).

Lemma insert_marks s v : marks s (fst (insert ToKey MutableTypeTag o v s)).
Proof.
  simpl. unfold insert_mutable. simpl. rewrite !replace_insert. repeat case_match; simpl; marks_tac (ToKey v).
Qed.

Lemma remove_marks s k : marks s (fst (remove MutableTypeTag o k s)).
Proof.
  unfold remove, remove_mutable, remove_immutable, Contains.
  case_bool_decide as Hr; [apply marks_refl|].
  apply eq_None_not_Some in Hr.
  repeat case_match; rewrite ?std_insert_fresh by done; simpl; try apply marks_refl; marks_tac k.
Qed.

Lemma find_marks s k : wf_set s → marks s (fst (find ToKey MutableTypeTag o s k)).
Proof.
  intros Hwf. unfold find, find_tagged, find_added, Contains.
  case_bool_decide as Hr; [apply marks_refl|].
  case_bool_decide as Hc; simpl; [marks_tac k|]. apply eq_None_not_Some in Hc.
  destruct (o !! k) as [v|] eqn:Eo.
  - assert (ToKey v = k) as Hv by (by eapply wf_original_keyed). rewrite Hv, std_insert_fresh by done.
    simpl. marks_tac k.
  - case_bool_decide as Ha; simpl; [marks_tac k|apply marks_refl].
Qed.

Lemma find_marked s k :
  wf_set s → is_Some (snd (find ToKey MutableTypeTag o s k)) →
  generationId_key (fst (find ToKey MutableTypeTag o s k)) k = m_generationId s.
Proof.
  intros Hwf. unfold find, find_tagged, find_added, Contains, generationId_key.
  repeat case_match; simplify_eq/=; intros [? ?]; simplify_eq/=; by rewrite lookup_insert_eq.
Qed.

Lemma modify_marks s v : wf_set s → marks s (fst (modify_found ToKey MutableTypeTag o v s)).
Proof.
  intros Hwf. pose proof (find_marks s (ToKey v) Hwf) as [Hg Hm].
  pose proof (find_marked s (ToKey v) Hwf) as Hk. pose proof (find_iterator ToKey MutableTypeTag o s (ToKey v) Hwf) as [_ Ho].
  unfold modify_found. destruct (find ToKey MutableTypeTag o s (ToKey v)) as [s' [it|]]; simpl in *; [|done].
  specialize (Hk ltac:(eauto)). split; [by destruct it|]. intros k.
  destruct (decide (k = ToKey v)) as [->|Hne].
  - right. split; [by destruct it|].
    destruct it; [by destruct Ho|..]; unfold in_deltas; simpl; rewrite lookup_insert_eq; eauto.
  - specialize (Hm k). destruct it; [done|..]; unfold same_at, in_deltas, generationId_key in *; simpl;
      by rewrite lookup_insert_ne by done.
Qed.

(** ** Reachable states *)

(** The modifications of one chain part: everything but restoring a backup. *)
Definition is_modification (op : SetOp (K := K) (V := V)) : Prop :=
  match op with
  | OpFind _ | OpContains _ | OpModify _ | OpInsert _ | OpRemove _ | OpSize => True
  | _ => False
  end.

Lemma delta_op_marks s op :
  wf_set s → is_modification op →
  marks s (fst (delta_op ToKey MutableTypeTag o op s))
  ∧ wf_set (fst (delta_op ToKey MutableTypeTag o op s)).
Proof.
  intros Hwf Hop. destruct op as [k|k|v|v|k| | | | | | |]; simpl; try done.
  1, 2, 6: split; [apply marks_refl|done].
  - split; [by apply modify_marks|]. by apply (modify_simulates ToKey MutableTypeTag).
  - pose proof (insert_marks s v). pose proof (delta_insert_spec ToKey MutableTypeTag o s v ltac:(done) Hwf) as Hi.
    simpl in *. destruct (insert_mutable ToKey o v s). by destruct Hi.
  - pose proof (remove_marks s k). pose proof (delta_remove_spec ToKey MutableTypeTag o s k Hwf) as Hi.
    destruct (remove MutableTypeTag o k s). by destruct Hi.
Qed.

(** Keys that were not touched since the last update are in step. *)
Record synced x (h : Z) : Prop := {
  synced_wf : wf_set (m_set x);
  synced_next : m_nextGenerationId x = m_generationId (m_set x);
  synced_range : 0 ≤ m_generationId (m_set x);
  synced_marked k : generationId_key (m_set x) k ≤ m_generationId (m_set x);
  synced_deltas k : generationId_key (m_set x) k = m_generationId (m_set x) → in_deltas (m_set x) k;
  synced_tree : ∃ t m, m_pTree x = Some t ∧ tree_models t m
    ∧ ∀ k, generationId_key (m_set x) k < m_generationId (m_set x) →
        m !! k = active_entry h (view o (m_set x) !! k)
}.

Lemma view_same_at s s' k : same_at s s' k → view o s' !! k = view o s !! k.
Proof. intros (_ & Ha & Hr & Hc). rewrite !view_lookup. by rewrite Ha, Hr, Hc. Qed.

Lemma modify_synced x h op :
  is_modification op → synced x h →
  synced {| m_set := fst (delta_op ToKey MutableTypeTag o op (m_set x));
            m_pTree := m_pTree x; m_nextGenerationId := m_nextGenerationId x |} h.
Proof.
  intros Hop [Hwf Hnext Hr Hle Hd Ht]. destruct (delta_op_marks (m_set x) op Hwf Hop) as [[Hg Hm] Hwf'].
  constructor; simpl; rewrite ?Hg; try done.
  - intros k. destruct (Hm k) as [(-> & _)|[-> _]]; [apply Hle|lia].
  - intros k Hk. destruct (Hm k) as [Hs|[_ ?]]; [|done].
    destruct Hs as (Hgk & Ha & Hrm & Hc). unfold in_deltas. rewrite Ha, Hrm, Hc. apply Hd. by rewrite <-Hgk.
  - destruct Ht as (t & m & Htree & Hmod & Ht). exists t, m. split_and!; [done|done|].
    intros k Hk. destruct (Hm k) as [Hs|[Heq _]]; [|lia].
    rewrite (view_same_at _ _ _ Hs). apply Ht. by rewrite <-(proj1 Hs).
Qed.

Lemma generation_increment s k : generationId_key (incrementGenerationId s) k = generationId_key s k.
Proof. done. Qed.

(** Elements that were not touched since the last update are as active as then. *)
Definition untouched_stable x (h h' : Z) : Prop :=
  ∀ k v, generationId_key (m_set x) k < m_nextGenerationId x → view o (m_set x) !! k = Some v →
    IsActive v h' = IsActive v h.

Definition tree_stores (x : PatriciaTreeDeltaMixin T K V) (e : K → option H) : Prop :=
  ∃ t m, m_pTree x = Some t ∧ tree_models t m ∧ ∀ k, m !! k = e k.

Lemma update_contents x h h' :
  synced x h → untouched_stable x h h' →
  tree_stores (updateMerkleRoot IsActive h' x) (λ k, active_entry h' (view o (m_set x) !! k)).
Proof.
  intros [Hwf Hnext Hr Hle Hd (t & m & Htree & Hmod & Ht)] Hstable. unfold updateMerkleRoot. rewrite Htree.
  destruct (ApplyDeltas_models t m (m_set x) (m_nextGenerationId x) h' Hwf Hmod) as (m' & Hm' & Hk).
  eexists _, m'. split; [done|]. split; [by apply tree_checkpoint_models|]. intros k. rewrite Hk.
  unfold needsApplication, untouched_stable in *. rewrite Hnext in *.
  destruct (decide (generationId_key (m_set x) k = m_generationId (m_set x))) as [E|E].
  - rewrite E, (proj2 (Z.leb_le _ _)) by lia. simpl. rewrite bool_decide_true; [done|]. by apply Hd.
  - specialize (Hle k). rewrite (proj2 (Z.leb_gt (m_generationId (m_set x)) _)) by lia. simpl.
    rewrite Ht by lia. unfold active_entry. destruct (view o (m_set x) !! k) as [v|] eqn:Ev; [|done].
    simpl. by rewrite (Hstable k v) by (done || lia).
Qed.

Lemma update_synced x h h' :
  synced x h → m_generationId (m_set x) + 1 < 2 ^ 32 → untouched_stable x h h' →
  synced (updateMerkleRoot IsActive h' x) h'.
Proof.
  intros Hs Hlt Hstable. destruct (update_contents x h h' Hs Hstable) as (t' & m' & Ht' & Hm' & Hk).
  destruct Hs as [Hwf Hnext Hr Hle Hd (t & m & Htree & Hmod & Ht)].
  assert (u32 (m_generationId (m_set x) + 1) = m_generationId (m_set x) + 1) as Hu.
  { apply wrap_small. unfold in_range. lia. }
  revert Ht'. unfold updateMerkleRoot. rewrite Htree. unfold setApplyCheckpoint. simpl. intros [= <-].
  constructor; simpl; rewrite ?Hu; try done; try lia.
  - intros k. specialize (Hle k). unfold generationId_key in *. simpl. lia.
  - intros k. specialize (Hle k). unfold generationId_key in *. simpl. lia.
  - eexists _, m'. split_and!; [done|done|]. intros k _. apply Hk.
Qed.

(** Steps of the mixin, with the height of the last update. *)
Inductive step : PatriciaTreeDeltaMixin T K V * Z → PatriciaTreeDeltaMixin T K V * Z → Prop :=
| step_modify x h op :
    is_modification op →
    step (x, h) ({| m_set := fst (delta_op ToKey MutableTypeTag o op (m_set x));
                    m_pTree := m_pTree x; m_nextGenerationId := m_nextGenerationId x |}, h)
| step_update x h h' :
    m_generationId (m_set x) + 1 < 2 ^ 32 → untouched_stable x h h' →
    step (x, h) (updateMerkleRoot IsActive h' x, h').

Lemma reachable_synced y z : rtc step y z → synced (fst y) (snd y) → synced (fst z) (snd z).
Proof.
  induction 1 as [|y1 y2 y3 Hstep _ IH]; [done|]. intros Hs. apply IH.
  destruct Hstep; simpl in *; [by apply modify_synced|by eapply update_synced].
Qed.

Lemma initial_synced t m h :
  keyed ToKey o → tree_models t m → (∀ k, m !! k = active_entry h (o !! k)) →
  synced (new_PatriciaTreeDeltaMixin new_BaseSetDelta (Some t)) h.
Proof.
  intros Hk Ht Hm. constructor; simpl; try done.
  - by apply wf_empty.
  - exists t, m. split_and!; [done|done|]. intros k _. rewrite Hm. f_equal.
    by rewrite (proj1 (proj2 (delta_simulates_new ToKey MutableTypeTag o Hk))).
Qed.

(** Starting from a tree that stores the active original elements, after
    any sequence of modifications of the delta and updates of the tree, one
    more update makes the tree store exactly the active elements of the
    delta's view: applying only the keys marked since the last update loses
    nothing.  Elements must not change activity without being touched, and
    the generation counter must not wrap. *)
Theorem updateMerkleRoot_tracks_view t m h0 x h h' :
  keyed ToKey o → tree_models t m → (∀ k, m !! k = active_entry h0 (o !! k)) →
  rtc step (new_PatriciaTreeDeltaMixin new_BaseSetDelta (Some t), h0) (x, h) →
  untouched_stable x h h' →
  tree_stores (updateMerkleRoot IsActive h' x) (λ k, active_entry h' (view o (m_set x) !! k)).
Proof.
  intros Hk Ht Hm Hreach Hstable. eapply update_contents; [|done].
  apply (reachable_synced _ _ Hreach). by eapply initial_synced.
Qed.

End theorems.

(** * Example *)

(** A finite map is such a tree. *)
#[global] Instance map_tree {K V} `{Countable K} : KeyValueTree (gmap K V) K V := {|
  tree_set k v t := <[k := v]> t; tree_unset k t := delete k t; tree_checkpoint t := t
|}.

#[global] Program Instance map_tree_laws {K V} `{Countable K} : KeyValueTreeLaws (gmap K V) K V V := {|
  tree_encode v := v; tree_models t m := t = m
|}.
Next Obligation. by intros * ->. Qed.
Next Obligation. by intros * ->. Qed.
Next Obligation. done. Qed.

(** Elements with a zero second field are inactive. *)
Definition sample_active (v : Z * Z) (height : Z) : bool := negb (snd v =? 0).

Definition sample_originals : gmap Z (Z * Z) := {[ 1 := (1, 10); 2 := (2, 20) ]}.

Definition sample_start : PatriciaTreeDeltaMixin (gmap Z (Z * Z)) Z (Z * Z) :=
  new_PatriciaTreeDeltaMixin new_BaseSetDelta (Some sample_originals).

Definition sample_modify (op : SetOp (K := Z) (V := Z * Z)) (x : PatriciaTreeDeltaMixin (gmap Z (Z * Z)) Z (Z * Z)) :=
  {| m_set := fst (delta_op fst MutableTypeTag sample_originals op (m_set x));
     m_pTree := m_pTree x; m_nextGenerationId := m_nextGenerationId x |}.

(** Insert, update, then remove the element inserted before the update,
    deactivate one and modify another. *)
Definition sample_state : PatriciaTreeDeltaMixin (gmap Z (Z * Z)) Z (Z * Z) :=
  sample_modify (OpModify (2, 21)) (sample_modify (OpInsert (1, 0)) (sample_modify (OpRemove 3)
    (updateMerkleRoot sample_active 5 (sample_modify (OpInsert (3, 30)) sample_start)))).

Lemma updateMerkleRoot_tracks_view_witness :
  tree_stores (H := Z * Z) (updateMerkleRoot sample_active 6 sample_state)
    (λ k, active_entry (T := gmap Z (Z * Z)) (K := Z) (H := Z * Z) sample_active 6 (view sample_originals (m_set sample_state) !! k)).
Proof.
  apply (updateMerkleRoot_tracks_view fst sample_active sample_originals sample_originals sample_originals 4 sample_state 5 6).
  - intros k v Hk. unfold sample_originals in Hk.
    apply lookup_insert_Some in Hk as [[<- <-]|[_ Hk]]; [done|]. by apply lookup_singleton_Some in Hk as [<- <-].
  - reflexivity.
  - intros k. unfold active_entry, sample_active. destruct (sample_originals !! k) as [v|] eqn:E; [|done]. simpl.
    unfold sample_originals in E. apply lookup_insert_Some in E as [[_ <-]|[_ E]]; [done|].
    by apply lookup_singleton_Some in E as [_ <-].
  - apply (rtc_l _ _ (sample_modify (OpInsert (3, 30)) sample_start, 4)); [by constructor|].
    eapply rtc_l; [by apply (step_update _ _ _ _ 4 5)|].
    eapply rtc_l; [by apply (step_modify _ _ _ _ 5 (OpRemove 3))|].
    eapply rtc_l; [by apply (step_modify _ _ _ _ 5 (OpInsert (1, 0)))|].
    eapply rtc_l; [by apply (step_modify _ _ _ _ 5 (OpModify (2, 21)))|]. apply rtc_refl.
  - intros k v _ _. reflexivity.
Defined.

Example sample_state_tree :
  (map_to_list <$> m_pTree (updateMerkleRoot sample_active 6 sample_state)) = Some [(2, (2, 21))].
Proof. vm_compute. reflexivity. Qed.

End CacheTree.
