(* ===== verification/PatriciaCache.v ===== *)
(** The Patricia tree as the tree of a cache: it implements the interface of
    CacheTree.v, so that the state hash of a cache is determined by the active
    elements of the cache. *)
From stdpp Require Import base tactics numbers option list gmap relations countable.
From S2P Require Import Prelude BaseSetDelta TreeNodePath Trie TreeNode PatriciaTree CacheTree.

Local Open Scope Z_scope.

Module PatriciaCache.
Import DeltaSet Path Trie Node CacheTree.

(** Keys of [len] bytes. *)
Definition valid_key (len : nat) (l : list Z) : Prop := length l = len ∧ Forall is_byte l.

#[global] Instance valid_key_dec len l : Decision (valid_key len l).
Proof. unfold valid_key, is_byte. apply _. Defined.

Definition Key (len : nat) : Type := dsig (valid_key len).

#[global] Instance Key_eq_dec len : EqDecision (Key len).
Proof. unfold Key. apply _. Defined.

#[global] Instance Key_countable len : Countable (Key len).
Proof. unfold Key. apply _. Defined.

Definition key_path {len} (k : Key len) : TreeNodePath := path_of_bytes (proj1_sig k).
Definition key_nibbles {len} (k : Key len) : list Z := nibbles (key_path k).

Lemma key_valid {len} (k : Key len) : wf (key_path k) ∧ size (key_path k) = (2 * len)%nat.
Proof.
  destruct (proj2_dsig k) as [Hl Hb]. split; [by apply path_of_bytes_wf|].
  unfold key_path, path_of_bytes, size. cbn [m_size]. by rewrite Hl.
Qed.

#[global] Instance key_nibbles_inj len : Inj (=) (=) (@key_nibbles len).
Proof.
  intros k1 k2 Heq. apply dsig_eq. destruct (proj2_dsig k1), (proj2_dsig k2). by apply path_of_bytes_inj.
Qed.

Section instance.
Context (sha3_256 : list Z → Hash256) (dataSource_get : Hash256 → option TreeNode) (len : nat).
Context {V : Type} (EncodeValue : V → Hash256).
Hypothesis get_zero : dataSource_get Hash256_zero = None.

(** The root node of the delta tree.  A checkpoint saves nodes that stay in
    memory, so it leaves the root as it is. *)
Definition PatriciaRoot : Type := TreeNode.

#[global] Instance PatriciaRoot_tree : KeyValueTree PatriciaRoot (Key len) V := {|
  tree_set k v root := default root (Patricia.set sha3_256 dataSource_get root (key_path k) (EncodeValue v));
  tree_unset k root :=
    match Patricia.unset sha3_256 dataSource_get root (key_path k) with Some (root', _) => root' | None => root end;
  tree_checkpoint root := root
|}.

#[global] Program Instance PatriciaRoot_laws : KeyValueTreeLaws PatriciaRoot (Key len) V Hash256 := {|
  tree_encode := EncodeValue;
  tree_models root m := Patricia.tree_repr sha3_256 dataSource_get (2 * len) root (kmap key_nibbles m)
|}.
Next Obligation.
  simpl. intros k v t m Ht. destruct (key_valid k) as [Hp Hs].
  destruct (Patricia.set_tree sha3_256 dataSource_get get_zero _ t _ (key_path k) (EncodeValue v) Ht Hp Hs)
    as (root' & -> & Hr). simpl. by rewrite (kmap_insert key_nibbles).
Qed.
Next Obligation.
  simpl. intros k t m Ht. destruct (key_valid k) as [Hp Hs].
  destruct (Patricia.unset_tree sha3_256 dataSource_get get_zero _ t _ (key_path k) Ht Hp Hs)
    as (root' & -> & Hr). by rewrite (kmap_delete key_nibbles).
Qed.
Next Obligation. done. Qed.

End instance.

Section state_hash.
Context (sha3_256 : list Z → Hash256) (len : nat).
Context {V : Type} (EncodeValue : V → Hash256) (ToKey : V → Key len) (IsActive : V → Z → bool).

(** A cache over original elements [o] whose tree started in step with them
    and was updated last at [h]. *)
Record tracked (get : Hash256 → option TreeNode) (Hz : get Hash256_zero = None)
    (o : gmap (Key len) V) (x : PatriciaTreeDeltaMixin PatriciaRoot (Key len) V) (h : Z) : Prop := {
  tracked_keyed : keyed ToKey o;
  tracked_start : ∃ root m h0,
    Patricia.tree_repr sha3_256 get (2 * len) root (kmap key_nibbles m)
    ∧ (∀ k, m !! k = v ← o !! k; if IsActive v h0 then Some (EncodeValue v) else None)
    ∧ rtc (@step _ _ _ _ _ (PatriciaRoot_tree sha3_256 get len EncodeValue) ToKey IsActive o)
        (new_PatriciaTreeDeltaMixin new_BaseSetDelta (Some root), h0) (x, h)
}.

Definition update get := @updateMerkleRoot _ _ _ _ _ (PatriciaRoot_tree sha3_256 get len EncodeValue) IsActive.

(** After an update the root stores the active elements of the view. *)
Lemma tracked_update get Hz o x h h' root :
  tracked get Hz o x h → untouched_stable IsActive o x h h' →
  m_pTree (update get h' x) = Some root →
  ∃ m, Patricia.tree_repr sha3_256 get (2 * len) root (kmap key_nibbles m)
    ∧ ∀ k, m !! k = v ← view o (m_set x) !! k; if IsActive v h' then Some (EncodeValue v) else None.
Proof.
  intros [Hk (r & m & g & Ht & Hm & Hs)] Hst Hr.
  pose (L := PatriciaRoot_laws sha3_256 get len EncodeValue Hz).
  assert (synced (KeyValueTreeLaws0 := L) ToKey IsActive o x h) as Hsync.
  { apply (reachable_synced (KeyValueTreeLaws0 := L) ToKey IsActive o _ _ Hs). simpl.
    apply (initial_synced (KeyValueTreeLaws0 := L) ToKey IsActive o r m g Hk); [exact Ht|exact Hm]. }
  destruct (update_contents (KeyValueTreeLaws0 := L) ToKey IsActive o x h h' Hsync Hst) as (t & n & E & T & N).
  unfold update in Hr. rewrite Hr in E. simplify_eq. exists n. split; [exact T|exact N].
Qed.

(** C15. The state hash of a cache is determined by its active elements: two
    caches with different original elements, histories of modifications and
    updates of the root, and data sources have the same Patricia root hash after
    an update at the same height, as soon as their views agree.  The condition
    [untouched_stable], here and at every update before, is that an element whose
    activity differs between the heights of two updates was touched in between;
    it holds for all caches whose elements do not expire, and for the others it
    is what touching the elements that expire at a height is for.  Backups and
    restores, which serve unconfirmed transactions, are not among the steps. *)
Theorem state_hash_determined_by_view get1 get2 Hz1 Hz2 o1 o2 x1 x2 h1 h2 h root1 root2 :
  tracked get1 Hz1 o1 x1 h1 → tracked get2 Hz2 o2 x2 h2 →
  untouched_stable IsActive o1 x1 h1 h → untouched_stable IsActive o2 x2 h2 h →
  view o1 (m_set x1) = view o2 (m_set x2) →
  m_pTree (update get1 h x1) = Some root1 → m_pTree (update get2 h x2) = Some root2 →
  hash sha3_256 root1 = hash sha3_256 root2.
Proof.
  intros Ht1 Ht2 Hst1 Hst2 Hv Hr1 Hr2.
  destruct (tracked_update _ _ _ _ _ _ _ Ht1 Hst1 Hr1) as (m1 & T1 & N1).
  destruct (tracked_update _ _ _ _ _ _ _ Ht2 Hst2 Hr2) as (m2 & T2 & N2).
  assert (m1 = m2) as -> by (apply map_eq; intros k; by rewrite N1, N2, Hv).
  by eapply Patricia.tree_repr_hash.
Qed.

End state_hash.

(** * Example *)

Lemma sample_key_valid : valid_key 1 [0x12].
Proof. split; [done|]. by repeat constructor. Qed.

Definition sample_key : Key 1 := dexist [0x12] sample_key_valid.

Abbreviation Element := (Key 1 * Z)%type.

Definition sample_encode (v : Element) : Hash256 := [snd v].
Definition always_active (v : Element) (height : Z) : bool := true.
Definition sample_element : Element := (sample_key, 7).

(** One cache starts with the element, the other one inserts it. *)
Definition originals1 : gmap (Key 1) Element := {[ sample_key := sample_element ]}.
Definition cache1 : PatriciaTreeDeltaMixin PatriciaRoot (Key 1) Element :=
  new_PatriciaTreeDeltaMixin new_BaseSetDelta (Some (LeafNode (key_path sample_key) [7])).

Definition originals2 : gmap (Key 1) Element := ∅.
Definition start2 : PatriciaTreeDeltaMixin PatriciaRoot (Key 1) Element :=
  new_PatriciaTreeDeltaMixin new_BaseSetDelta (Some EmptyNode).
Definition cache2 : PatriciaTreeDeltaMixin PatriciaRoot (Key 1) Element :=
  {| m_set := fst (delta_op fst MutableTypeTag originals2 (OpInsert sample_element) (m_set start2));
     m_pTree := m_pTree start2; m_nextGenerationId := m_nextGenerationId start2 |}.

Lemma cache1_tracked :
  tracked Patricia.sample_hash 1 sample_encode fst always_active Patricia.no_source eq_refl originals1 cache1 1.
Proof.
  constructor; [intros k v Hk; unfold originals1 in Hk; by apply lookup_singleton_Some in Hk as [<- <-]|].
  exists (LeafNode (key_path sample_key) [7]), {[ sample_key := [7] ]}, 1. split_and!; [|
    intros k; unfold originals1; rewrite !lookup_singleton; by case_decide|apply rtc_refl].
  destruct (key_valid sample_key) as [Hp Hs]. rewrite (kmap_singleton key_nibbles). right.
  exists (TLeaf (key_nibbles sample_key) [7]). split_and!.
  - by apply Patricia.repr_leaf.
  - rewrite <-Hs, <-nibbles_length. apply (twf_leaf (nibbles (key_path sample_key))), nibbles_range.
  - intros k v. rewrite tmem_leaf_inv, lookup_singleton_Some. naive_solver.
Qed.

Lemma cache2_tracked :
  tracked Patricia.sample_hash 1 sample_encode fst always_active Patricia.no_source eq_refl originals2 cache2 1.
Proof.
  constructor; [intros k v Hk; unfold originals2 in Hk; by apply lookup_empty_Some in Hk|].
  exists EmptyNode, ∅, 1. split_and!; [by left; rewrite kmap_empty|intros k; by rewrite lookup_empty|].
  eapply rtc_l; [|apply rtc_refl]. by apply (step_modify _ _ _ start2 1 (OpInsert sample_element)).
Qed.

Lemma state_hash_determined_by_view_witness :
  ∃ root1 root2,
    m_pTree (update Patricia.sample_hash 1 sample_encode always_active Patricia.no_source 2 cache1) = Some root1
    ∧ m_pTree (update Patricia.sample_hash 1 sample_encode always_active Patricia.no_source 2 cache2) = Some root2
    ∧ hash Patricia.sample_hash root1 = hash Patricia.sample_hash root2.
Proof.
  eexists _, _. split; [reflexivity|]. split; [reflexivity|].
  eapply (state_hash_determined_by_view Patricia.sample_hash 1 sample_encode fst always_active
    Patricia.no_source Patricia.no_source eq_refl eq_refl originals1 originals2 cache1 cache2 1 1 2);
    [exact cache1_tracked|exact cache2_tracked|by intros ?|by intros ?| |reflexivity|reflexivity].
  reflexivity.
Defined.

End PatriciaCache.
