(* ===== verification/Notifications.v ===== *)
(** Model of the notification framework: validation results
    (catapult/validators/ValidationResult.h, AggregateValidationResult.cpp,
    AggregateValidatorBuilder.h), observers and their contexts
    (catapult/observers), and the subscriber that validates and observes the
    notifications of an entity and can undo them
    (catapult/chain/ProcessingNotificationSubscriber.cpp and
    ProcessingUndoNotificationSubscriber.cpp).

    A notification, the caches, the state and the receipts builder are
    parameters: the plugins define them.  Validators and observers are functions
    on them; the interfaces [ProperObserver] and [Reversible] state what the
    framework needs of the observers of the plugins, and the theorems show what
    it makes of them: observers run in the opposite order on a rollback, so that
    undoing a sequence of notifications restores the state before it. *)
From stdpp Require Import base tactics numbers option list.
From S2P Require Import Prelude.

Local Open Scope Z_scope.

Module Notifications.

(** * Validation results *)

Definition Severity_Success : Z := 0.
Definition Severity_Neutral : Z := 1.
Definition Severity_Failure : Z := 2.

Definition Success : Z := 0.
Definition Neutral : Z := 0x40000000.
Definition Failure : Z := 0x80000000.

Definition MakeValidationResult (severity facility code flags : Z) : Z :=
  Z.lor (Z.lor (Z.lor (Z.shiftl (Z.land severity 0x03) 30) (Z.shiftl (Z.land flags 0x3F) 24)) (Z.shiftl facility 16)) code.

Definition GetSeverity (result : Z) : Z := Z.shiftr result 30.
Definition IsValidationResultSuccess (result : Z) : bool := Severity_Success =? GetSeverity result.
Definition IsValidationResultFailure (result : Z) : bool := Severity_Failure =? GetSeverity result.

(** Only a greater severity changes the aggregate. *)
Definition AggregateValidationResult (aggregate value : Z) : Z :=
  if GetSeverity value <=? GetSeverity aggregate then aggregate else value.

(** * Channels *)

Definition Channel_Validator : Z := 0x01.
Definition Channel_Observer : Z := 0x02.

Definition MakeNotificationType (channel facility code : Z) : Z :=
  Z.lor (Z.lor (Z.shiftl channel 24) (Z.shiftl facility 16)) code.

Definition IsSet (type channel : Z) : bool := channel =? Z.land channel (Z.shiftr type 24).

(** The size of the common header of notifications. *)
Definition sizeof_Notification : Z := 16.

Inductive NotifyMode := Commit | Rollback.

#[global] Instance NotifyMode_eq_dec : EqDecision NotifyMode.
Proof. solve_decision. Defined.

#[global] Arguments GetSeverity : simpl never.
#[global] Arguments IsValidationResultSuccess : simpl never.
#[global] Arguments IsValidationResultFailure : simpl never.
#[global] Arguments AggregateValidationResult : simpl never.
#[global] Arguments IsSet : simpl never.

Section framework.
Context {Notification CacheDelta CatapultState StatementBuilder Config : Type}.
Context (NotificationType NotificationSize : Notification → Z).

(** * Contexts *)

Record ValidatorContext := { vc_Config : Config; vc_Height : Z; vc_BlockTime : Z }.

(** What an observer can change.  In the code the parts are objects that an
    [ObserverState] refers to; the statement builder is attached or not. *)
Record ObserverState := {
  os_Cache : CacheDelta;
  os_State : CatapultState;
  os_BlockStatementBuilder : StatementBuilder;
  os_Notifications : list Notification;
}.

(** The two flags tell whether receipts are recorded, and whether the resolvers
    record resolutions. *)
Record ObserverContext := {
  oc_Config : Config;
  oc_Height : Z;
  oc_Timestamp : Z;
  oc_Mode : NotifyMode;
  oc_HasStatementBuilder : bool;
  oc_BoundResolvers : bool;
}.

Definition new_ObserverContext (hasBuilder : bool) (config : Config) (height timestamp : Z) (mode : NotifyMode)
    (resolversAreBound : bool) : ObserverContext :=
  {| oc_Config := config; oc_Height := height; oc_Timestamp := timestamp; oc_Mode := mode;
     oc_HasStatementBuilder := hasBuilder; oc_BoundResolvers := resolversAreBound || hasBuilder |}.

Definition Validator : Type := ValidatorContext → Notification → CacheDelta → result Z.
Definition Observer : Type := ObserverContext → Notification → Exec ObserverState unit.

(** * Aggregates *)

(** [m_handlers[type].push_back(handler)]. *)
Fixpoint builder_add {A} (type : Z) (handler : A) (m : list (Z * list A)) : list (Z * list A) :=
  match m with
  | [] => [(type, [handler])]
  | (t, l) :: m' =>
      if type <? t then (type, [handler]) :: m
      else if type =? t then (t, l ++ [handler]) :: m'
      else (t, l) :: builder_add type handler m'
  end.

Fixpoint validate_all (isSuppressedFailure : Z → bool) (context : ValidatorContext) (notification : Notification)
    (cache : CacheDelta) (validators : list Validator) (aggregateResult : Z) : result Z :=
  match validators with
  | [] => Ok aggregateResult
  | validator :: rest =>
      result ← validator context notification cache;
      if isSuppressedFailure result then validate_all isSuppressedFailure context notification cache rest aggregateResult
      else if IsValidationResultFailure result then Ok result
      else validate_all isSuppressedFailure context notification cache rest
             (AggregateValidationResult aggregateResult result)
  end.

Definition AggregateValidator (validators : list (Z * list Validator)) (isSuppressedFailure : Z → bool) : Validator :=
  λ context notification cache,
    match map_find (NotificationType notification) validators with
    | None => Ok Success
    | Some l => validate_all isSuppressedFailure context notification cache l Success
    end.

Definition AggregateObserver (observers : list (Z * list Observer)) : Observer := λ context notification,
  match map_find (NotificationType notification) observers with
  | None => mret tt
  | Some l =>
      for_each (λ observer : Observer, observer context notification)
        (match oc_Mode context with Commit => l | Rollback => reverse l end)
  end.

(** * The processing subscriber *)

Record Subscriber := {
  m_aggregateResult : Z;
  m_isUndoEnabled : bool;
  m_notificationBuffers : list Notification;
}.

Definition new_Subscriber : Subscriber :=
  {| m_aggregateResult := Success; m_isUndoEnabled := false; m_notificationBuffers := [] |}.

Definition enableUndo (sub : Subscriber) : Subscriber :=
  {| m_aggregateResult := m_aggregateResult sub; m_isUndoEnabled := true;
     m_notificationBuffers := m_notificationBuffers sub |}.

Section subscriber.
Context (validator : Validator) (validatorContext : ValidatorContext).
Context (observer : Observer) (observerContext : ObserverContext).

Definition Processing : Type := Subscriber * ObserverState.

Definition sub_validate (notification : Notification) : Exec Processing unit := λ '(sub, s),
  if negb (IsSet (NotificationType notification) Channel_Validator) then ((sub, s), Ok tt)
  else match validator validatorContext notification (os_Cache s) with
       | Throw e => ((sub, s), Throw e)
       | Ok result =>
           (({| m_aggregateResult := AggregateValidationResult (m_aggregateResult sub) result;
                m_isUndoEnabled := m_isUndoEnabled sub; m_notificationBuffers := m_notificationBuffers sub |}, s), Ok tt)
       end.

(** [ProcessingUndoNotificationSubscriber::notify] keeps a copy. *)
Definition undo_notify (notification : Notification) : Exec Processing unit := λ '(sub, s),
  if NotificationSize notification <? sizeof_Notification then ((sub, s), Throw invalid_argument)
  else if negb (IsSet (NotificationType notification) Channel_Observer) then ((sub, s), Ok tt)
  else (({| m_aggregateResult := m_aggregateResult sub; m_isUndoEnabled := m_isUndoEnabled sub;
            m_notificationBuffers := m_notificationBuffers sub ++ [notification] |}, s), Ok tt).

Definition sub_observe (notification : Notification) : Exec Processing unit := λ '(sub, s),
  if negb (IsSet (NotificationType notification) Channel_Observer) then ((sub, s), Ok tt)
  else match observer observerContext notification s with
       | (s', Throw e) => ((sub, s'), Throw e)
       | (s', Ok _) => if negb (m_isUndoEnabled sub) then ((sub, s'), Ok tt) else undo_notify notification (sub, s')
       end.

Definition sub_notify (notification : Notification) : Exec Processing unit :=
  if NotificationSize notification <? sizeof_Notification then throw invalid_argument
  else
    ok ← gets (λ st : Processing, IsValidationResultSuccess (m_aggregateResult (fst st)));
    if negb ok then mret tt
    else
      sub_validate notification ≫= λ _,
      ok ← gets (λ st : Processing, IsValidationResultSuccess (m_aggregateResult (fst st)));
      if negb ok then mret tt else sub_observe notification.

(** The context of an undo: the opposite mode, no receipts, the same resolvers. *)
Definition undo_context : ObserverContext :=
  new_ObserverContext false (oc_Config observerContext) (oc_Height observerContext) (oc_Timestamp observerContext)
    (match oc_Mode observerContext with Commit => Rollback | Rollback => Commit end) (oc_BoundResolvers observerContext).

(** The observers of an undo get a vector of their own for notifications. *)
Definition undo : Exec Processing unit := λ '(sub, s),
  if negb (m_isUndoEnabled sub) then ((sub, s), Throw runtime_error)
  else
    let own := {| os_Cache := os_Cache s; os_State := os_State s;
                  os_BlockStatementBuilder := os_BlockStatementBuilder s; os_Notifications := [] |} in
    let '(s', r) := for_each (observer undo_context) (reverse (m_notificationBuffers sub)) own in
    let merged := {| os_Cache := os_Cache s'; os_State := os_State s';
                     os_BlockStatementBuilder := os_BlockStatementBuilder s'; os_Notifications := os_Notifications s |} in
    match r with
    | Throw e => ((sub, merged), Throw e)
    | Ok _ => (({| m_aggregateResult := m_aggregateResult sub; m_isUndoEnabled := m_isUndoEnabled sub;
                   m_notificationBuffers := [] |}, merged), Ok tt)
    end.

End subscriber.

(** * Observing entities *)

Section adapters.
Context {EntityInfo : Type}.
(** A publisher raises notifications and may throw after some. *)
Context (publish : EntityInfo → list Notification * result unit).
Context (observer : Observer).

Definition ends {S} (r : result unit) : Exec S unit := λ s, (s, r).

Definition ObservingSubscriber_notify (context : ObserverContext) (notification : Notification) : Exec ObserverState unit :=
  if negb (IsSet (NotificationType notification) Channel_Observer) then mret tt else observer context notification.

Definition NotificationObserverAdapter (entityInfo : EntityInfo) (context : ObserverContext) : Exec ObserverState unit :=
  let '(notifications, r) := publish entityInfo in
  for_each (ObservingSubscriber_notify context) notifications ≫= λ _, ends r.

(** Publishes everything first, then observes in reverse. *)
Definition ReverseNotificationObserverAdapter (entityInfo : EntityInfo) (context : ObserverContext)
    : Exec ObserverState unit :=
  let '(notifications, r) := publish entityInfo in
  ends r ≫= λ _,
  for_each (observer context)
    (reverse (filter (λ n, IsSet (NotificationType n) Channel_Observer = true) notifications)).

End adapters.

(** * What the framework needs of observers *)

Context `{Hequiv : Equiv CacheDelta, !Equivalence (≡@{CacheDelta})}.

(** States in which the caches agree; receipts and notifications that were
    recorded do not count. *)
#[export] Instance ObserverState_equiv : Equiv ObserverState := λ s t,
  os_Cache s ≡ os_Cache t ∧ os_State s = os_State t.

#[export] Instance ObserverState_equivalence : Equivalence (≡@{ObserverState}).
Proof.
  split.
  - intros s. by split.
  - intros s t [H1 H2]. by split; symmetry.
  - intros s t u [H1 H2] [H3 H4]. split; [by transitivity (os_Cache t)|congruence].
Qed.

(** Outcomes that agree. *)
Definition agree {A} (x y : ObserverState * result A) : Prop := fst x ≡ fst y ∧ snd x = snd y.

(** Observers do the same in states that agree. *)
Class ProperObserver (observer : Observer) :=
  observer_proper context notification s t : s ≡ t → agree (observer context notification s) (observer context notification t).

(** Contexts that differ at most in what they record. *)
Definition same_place (c1 c2 : ObserverContext) : Prop :=
  oc_Config c1 = oc_Config c2 ∧ oc_Height c1 = oc_Height c2 ∧ oc_Timestamp c1 = oc_Timestamp c2.

(** Where [P] holds, a rollback at the same place undoes a commit. *)
Class Reversible (P : ObserverContext → Notification → ObserverState → Prop) (observer : Observer) :=
  observer_reversible c1 c2 notification s s' :
    P c1 notification s → same_place c1 c2 → oc_Mode c1 = Commit → oc_Mode c2 = Rollback →
    observer c1 notification s = (s', Ok tt) → ∃ t, observer c2 notification s' = (t, Ok tt) ∧ t ≡ s.

(** * Sequences of notifications *)

Lemma agree_bind {A B} (m1 m2 : ObserverState * result A) (f : A → Exec ObserverState B) :
  agree m1 m2 → (∀ a s t, s ≡ t → agree (f a s) (f a t)) →
  agree (match m1 with (s, Ok a) => f a s | (s, Throw e) => (s, Throw e) end)
        (match m2 with (s, Ok a) => f a s | (s, Throw e) => (s, Throw e) end).
Proof. destruct m1 as [s [a|e]], m2 as [t [b|e']]; intros [Hs Hr] Hf; simpl in *; simplify_eq; [by apply Hf|by split]. Qed.

Lemma for_each_agree {A} (f : A → Exec ObserverState unit) l s t :
  (∀ a s t, s ≡ t → agree (f a s) (f a t)) → s ≡ t → agree (for_each f l s) (for_each f l t).
Proof.
  intros Hf. revert s t. induction l as [|a l IH]; intros s t Hst; [by split|].
  exact (agree_bind _ _ (λ _, for_each f l) (Hf a s t Hst) (λ _, IH)).
Qed.

Section sequences.
Context (P : ObserverContext → Notification → ObserverState → Prop) (observer : Observer).

(** Notifications that were committed one after the other, each where [P] holds. *)
Inductive committed (c : ObserverContext) : list Notification → ObserverState → ObserverState → Prop :=
| committed_nil s : committed c [] s s
| committed_cons n l s s' s'' :
    P c n s → observer c n s = (s', Ok tt) → committed c l s' s'' → committed c (n :: l) s s''.

Lemma committed_app c l1 l2 s s' s'' : committed c l1 s s' → committed c l2 s' s'' → committed c (l1 ++ l2) s s''.
Proof. induction 1 as [|n l u u' u'' Hp Hn Hl IH]; [done|]. intros. simpl. eapply committed_cons; eauto. Qed.

Lemma committed_run c l s s' : committed c l s s' → for_each (observer c) l s = (s', Ok tt).
Proof. induction 1 as [|n l u u' u'' Hp Hn Hl IH]; [done|]. simpl. by rewrite (run_bind _ _ _ _ _ Hn). Qed.

(** Rolling back in reverse order restores the state. *)
Lemma rollback_committed `{!ProperObserver observer, !Reversible P observer} c1 c2 l s s' :
  committed c1 l s s' → same_place c1 c2 → oc_Mode c1 = Commit → oc_Mode c2 = Rollback →
  ∀ t, t ≡ s' → ∃ t', for_each (observer c2) (reverse l) t = (t', Ok tt) ∧ t' ≡ s.
Proof.
  induction 1 as [s|n l s s1 s'' Hp Hn Hl IH]; intros Hplace Hc Hr t Ht; [by exists t|].
  destruct (IH Hplace Hc Hr t Ht) as (t1 & H1 & Ht1). destruct (observer_reversible c1 c2 n s s1 Hp Hplace Hc Hr Hn) as (u & Hu & Hus).
  pose proof (observer_proper c2 n t1 s1 Ht1) as Hag. rewrite Hu in Hag. destruct (observer c2 n t1) as [t2 r] eqn:Ht2.
  destruct Hag as [Hag1 Hag2]. cbn [fst snd] in Hag1, Hag2. subst r.
  exists t2. split; [|by transitivity u]. rewrite reverse_cons, for_each_app, (run_bind _ _ _ _ _ H1). simpl. by rewrite (run_bind _ _ _ _ _ Ht2).
Qed.

End sequences.

(** * Aggregates of observers *)

(** What each observer of a sequence needs, where it is called. *)
Fixpoint holds_along (Q : Observer → ObserverContext → Notification → ObserverState → Prop) (observers : list Observer)
    (c : ObserverContext) (n : Notification) (s : ObserverState) : Prop :=
  match observers with
  | [] => True
  | o :: rest => Q o c n s ∧ holds_along Q rest c n (fst (o c n s))
  end.

Lemma sequence_rollback Q observers c1 c2 n s s' :
  Forall (λ o, ProperObserver o ∧ Reversible (Q o) o) observers →
  holds_along Q observers c1 n s → same_place c1 c2 → oc_Mode c1 = Commit → oc_Mode c2 = Rollback →
  for_each (λ o : Observer, o c1 n) observers s = (s', Ok tt) →
  ∀ t, t ≡ s' → ∃ t', for_each (λ o : Observer, o c2 n) (reverse observers) t = (t', Ok tt) ∧ t' ≡ s.
Proof.
  intros Hall Hq Hp Hc Hr. revert s Hq. induction Hall as [|o os [Ho Hrev] Hall IH]; intros s Hq Hrun t Ht.
  { simpl in Hrun. injection Hrun as <-. by exists t. }
  destruct Hq as [Hq Hqs]. simpl in Hrun. unfold mbind, exec_bind in Hrun.
  destruct (o c1 n s) as [s1 [[]|e]] eqn:Hs1; [|done]. cbn [fst] in Hqs.
  destruct (IH s1 Hqs Hrun t Ht) as (t1 & H1 & Ht1). destruct (Hrev c1 c2 n s s1 Hq Hp Hc Hr Hs1) as (u & Hu & Hus).
  pose proof (Ho c2 n t1 s1 Ht1) as Hag. rewrite Hu in Hag. destruct (o c2 n t1) as [t2 r] eqn:Ht2.
  destruct Hag as [Hag1 Hag2]. cbn [fst snd] in Hag1, Hag2. subst r.
  exists t2. split; [|by transitivity u]. rewrite reverse_cons, for_each_app, (run_bind _ _ _ _ _ H1). simpl. by rewrite (run_bind _ _ _ _ _ Ht2).
Qed.

(** An aggregate of proper, reversible observers is proper and reversible. *)
#[export] Instance AggregateObserver_proper observers :
  Forall (λ p, Forall ProperObserver (snd p)) observers → ProperObserver (AggregateObserver observers).
Proof.
  intros Hall c n s t Hst. unfold AggregateObserver. destruct (map_find _ observers) as [l|] eqn:Hl; [|by split].
  assert (Forall ProperObserver l) as Hl'.
  { apply map_find_Some_elem in Hl. rewrite Forall_forall in Hall. by apply (Hall _ Hl). }
  assert (∀ l', Forall ProperObserver l' → agree (for_each (λ o : Observer, o c n) l' s) (for_each (λ o : Observer, o c n) l' t)) as Hgen.
  { clear -Hst. intros l' Hl'. revert s t Hst. induction Hl' as [|o l' Ho _ IH]; intros s t Hst; [by split|].
    exact (agree_bind _ _ (λ _, for_each (λ o : Observer, o c n) l') (Ho c n s t Hst) (λ _, IH)). }
  destruct (oc_Mode c); apply Hgen; [done|]. by apply Forall_reverse.
Qed.

#[export] Instance AggregateObserver_reversible Q observers :
  Forall (λ p, Forall (λ o, ProperObserver o ∧ Reversible (Q o) o) (snd p)) observers →
  Reversible (λ c n s, ∀ l, map_find (NotificationType n) observers = Some l → holds_along Q l c n s) (AggregateObserver observers).
Proof.
  intros Hall c1 c2 n s s' Hq Hp Hc Hr. unfold AggregateObserver. destruct (map_find _ observers) as [l|] eqn:Hl.
  - rewrite Hc, Hr. intros Hrun. apply map_find_Some_elem in Hl as Hin. rewrite Forall_forall in Hall.
    exact (sequence_rollback Q l c1 c2 n s s' (Hall _ Hin) (Hq l eq_refl) Hp Hc Hr Hrun s' ltac:(reflexivity)).
  - intros Hrun. simpl in Hrun. injection Hrun as <-. by exists s.
Qed.

(** * Processing *)

(** Validators and observers fit together: where the invariant holds, what the
    validators do not refuse can be undone and keeps the invariant. *)
Class Admissible (validator : Validator) (observer : Observer)
    (P : ObserverContext → Notification → ObserverState → Prop) (inv : ObserverState → Prop) := {
  admitted v c n s :
    vc_Config v = oc_Config c → vc_Height v = oc_Height c → vc_BlockTime v = oc_Timestamp c → inv s →
    (IsSet (NotificationType n) Channel_Validator = true →
       ∃ r, validator v n (os_Cache s) = Ok r ∧ GetSeverity r ≤ Severity_Success) →
    P c n s;
  preserved c n s s' : inv s → P c n s → oc_Mode c = Commit → observer c n s = (s', Ok tt) → inv s';
}.

Definition observed (l : list Notification) : list Notification :=
  filter (λ n, IsSet (NotificationType n) Channel_Observer = true) l.

Section processing.
Context (validator : Validator) (v : ValidatorContext) (observer : Observer) (c : ObserverContext).
Context (P : ObserverContext → Notification → ObserverState → Prop) (inv : ObserverState → Prop).
Context `{!Admissible validator observer P inv}.
Context (Hconfig : vc_Config v = oc_Config c) (Hheight : vc_Height v = oc_Height c) (Htime : vc_BlockTime v = oc_Timestamp c).
Context (Hmode : oc_Mode c = Commit).
Abbreviation notify := (sub_notify validator v observer c).
Abbreviation succeeded sub := (IsValidationResultSuccess (m_aggregateResult sub) = true).

(** What notifying does: it commits a list of notifications, which are all that
    are observed if no validator refuses one; they are kept for an undo. *)
Record processed (ns : list Notification) (sub : Subscriber) (s : ObserverState) (sub' : Subscriber) (s' : ObserverState)
    (l : list Notification) : Prop := {
  processed_committed : committed P observer c l s s';
  processed_inv : inv s';
  processed_undo : m_isUndoEnabled sub' = m_isUndoEnabled sub;
  processed_kept : m_notificationBuffers sub' = m_notificationBuffers sub ++ (if m_isUndoEnabled sub then l else []);
  processed_all : succeeded sub' → succeeded sub ∧ l = observed ns;
}.

Lemma processed_nothing ns sub s : inv s → (succeeded sub → observed ns = []) → processed ns sub s sub s [].
Proof.
  intros Hi Hns. constructor; [constructor|done|done|by destruct (m_isUndoEnabled sub); rewrite app_nil_r|].
  intros Hs. split; [done|]. by rewrite Hns.
Qed.

Lemma sub_validate_run n sub s sub' s' :
  succeeded sub → sub_validate validator v n (sub, s) = ((sub', s'), Ok tt) →
  s' = s ∧ m_isUndoEnabled sub' = m_isUndoEnabled sub ∧ m_notificationBuffers sub' = m_notificationBuffers sub
  ∧ (succeeded sub' → IsSet (NotificationType n) Channel_Validator = true →
       ∃ r, validator v n (os_Cache s) = Ok r ∧ GetSeverity r ≤ Severity_Success).
Proof.
  intros Hok. unfold sub_validate. destruct (IsSet _ Channel_Validator); simpl.
  - destruct (validator v n (os_Cache s)) as [r|e] eqn:Hr; [|done]. intros [= <- <-]. split_and!; try done.
    intros Hs _. exists r. split; [done|]. simpl in Hs. unfold AggregateValidationResult, IsValidationResultSuccess in *.
    apply Z.eqb_eq in Hok. destruct (Z.leb_spec (GetSeverity r) (GetSeverity (m_aggregateResult sub))); [lia|].
    apply Z.eqb_eq in Hs. lia.
  - intros [= <- <-]. done.
Qed.

Lemma sub_notify_run n sub s sub' s' :
  inv s → notify n (sub, s) = ((sub', s'), Ok tt) → ∃ l, processed [n] sub s sub' s' l.
Proof.
  intros Hi. unfold sub_notify. destruct (NotificationSize n <? sizeof_Notification) eqn:Hsize; [done|].
  unfold mbind, exec_bind, gets. cbv beta iota zeta. cbn [fst].
  destruct (IsValidationResultSuccess (m_aggregateResult sub)) eqn:Hok; cbn [negb].
  2: { intros [= <- <-]. exists []. apply processed_nothing; [done|]. by rewrite Hok. }
  destruct (sub_validate validator v n (sub, s)) as [[sub1 s1] [[]|e]] eqn:Hv; [|done].
  destruct (sub_validate_run _ _ _ _ _ Hok Hv) as (-> & Hu & Hb & Hadm). cbn [fst].
  destruct (IsValidationResultSuccess (m_aggregateResult sub1)) eqn:Hok1; cbn [negb].
  2: { intros [= <- <-]. exists []. constructor; [constructor|done|done| |by rewrite Hok1].
       rewrite Hb. by destruct (m_isUndoEnabled sub); rewrite app_nil_r. }
  specialize (Hadm eq_refl). pose proof (admitted v c n s Hconfig Hheight Htime Hi Hadm) as HP.
  unfold sub_observe, observed. destruct (IsSet (NotificationType n) Channel_Observer) eqn:Hch; cbn [negb].
  2: { intros [= <- <-]. exists []. constructor; [constructor|done|done|by rewrite Hb; destruct (m_isUndoEnabled sub); rewrite app_nil_r|].
       intros _. split; [done|]. unfold observed. by rewrite filter_cons, decide_False by (by rewrite Hch). }
  destruct (observer c n s) as [s2 [[]|e]] eqn:Hobs; [|done].
  assert (committed P observer c [n] s s2) as Hcom by (eapply committed_cons; [done..|constructor]).
  pose proof (preserved c n s s2 Hi HP Hmode Hobs) as Hi2. rewrite Hu. intros Hrun. exists [n].
  assert (observed [n] = [n]) as Hn by (unfold observed; by rewrite filter_cons, decide_True).
  destruct (m_isUndoEnabled sub) eqn:Hundo; cbn [negb] in Hrun.
  - unfold undo_notify in Hrun. rewrite Hsize, Hch in Hrun. injection Hrun as <- <-. constructor; simpl; try done; [congruence|].
    by rewrite Hb, Hundo.
  - injection Hrun as <- <-. constructor; [done|done|congruence|by rewrite Hb, Hundo, app_nil_r|by rewrite Hn].
Qed.

Lemma processed_trans ns1 ns2 sub s sub1 s1 sub2 s2 l1 l2 :
  processed ns1 sub s sub1 s1 l1 → processed ns2 sub1 s1 sub2 s2 l2 → processed (ns1 ++ ns2) sub s sub2 s2 (l1 ++ l2).
Proof.
  intros [C1 I1 U1 K1 A1] [C2 I2 U2 K2 A2]. constructor; [by eapply committed_app|done|congruence| |].
  - rewrite K2, K1, U1. by destruct (m_isUndoEnabled sub); rewrite <-app_assoc.
  - intros Hs. destruct (A2 Hs) as [Hs1 ->]. destruct (A1 Hs1) as [Hs0 ->]. split; [done|].
    unfold observed. by rewrite filter_app.
Qed.

Lemma for_each_notify_run ns sub s sub' s' :
  inv s → for_each notify ns (sub, s) = ((sub', s'), Ok tt) → ∃ l, processed ns sub s sub' s' l.
Proof.
  revert sub s. induction ns as [|n ns IH]; intros sub s Hi Hrun; simpl in Hrun.
  { injection Hrun as <- <-. exists []. by apply processed_nothing. }
  unfold mbind, exec_bind in Hrun. destruct (notify n (sub, s)) as [[sub1 s1] [[]|e]] eqn:Hn; [|done].
  destruct (sub_notify_run _ _ _ _ _ Hi Hn) as [l1 H1]. destruct (IH _ _ (processed_inv _ _ _ _ _ _ H1) Hrun) as [l2 H2].
  exists (l1 ++ l2). exact (processed_trans [n] ns _ _ _ _ _ _ _ _ H1 H2).
Qed.

End processing.

(** * Verdicts *)

Section verdicts.
Context (validator : Validator) (v : ValidatorContext) (observer : Observer) (c : ObserverContext).
Abbreviation notify := (sub_notify validator v observer c).
Abbreviation succeeded sub := (IsValidationResultSuccess (m_aggregateResult sub) = true).

(** Most validators accept or refuse. *)
Definition verdict (r : Z) : Prop := r = Success ∨ IsValidationResultFailure r = true.

Lemma validate_all_verdict (validators : list Validator) n cache :
  Forall (λ f : Validator, ∃ r, f v n cache = Ok r ∧ verdict r) validators →
  ∃ r, validate_all (λ _, false) v n cache validators Success = Ok r ∧ verdict r
  ∧ (r = Success → Forall (λ f : Validator, f v n cache = Ok Success) validators).
Proof.
  induction 1 as [|f fs (r & Hr & Hv) _ IH]; [exists Success; split_and!; [done|by left|done]|].
  cbn [validate_all]. rewrite Hr. cbn. destruct Hv as [->|Hv].
  - destruct IH as (r' & ? & ? & Hs). exists r'. split_and!; [done..|]. intros ?. constructor; auto.
  - rewrite Hv. exists r. split_and!; [done|by right|]. by intros ->.
Qed.

Lemma aggregate_verdict a r :
  IsValidationResultSuccess a = true → verdict r → IsValidationResultSuccess (AggregateValidationResult a r) = true → r = Success.
Proof.
  unfold verdict, IsValidationResultSuccess, IsValidationResultFailure, AggregateValidationResult.
  intros Ha%Z.eqb_eq [->|Hr%Z.eqb_eq]; [done|]. rewrite <- Ha, <- Hr. simpl. by rewrite <- Hr.
Qed.

Lemma notify_failed n sub s : ¬ succeeded sub → NotificationSize n <? sizeof_Notification = false → notify n (sub, s) = ((sub, s), Ok tt).
Proof.
  intros Hs%not_true_is_false Hsize. unfold sub_notify. rewrite Hsize. unfold mbind, exec_bind, gets. cbv beta iota zeta. cbn [fst]. by rewrite Hs.
Qed.

(** A notification is refused, or accepted and observed. *)
Lemma notify_spec n sub s :
  succeeded sub → NotificationSize n <? sizeof_Notification = false → (∃ r, validator v n (os_Cache s) = Ok r ∧ verdict r) →
  (∃ sub', notify n (sub, s) = ((sub', s), Ok tt) ∧ ¬ succeeded sub')
  ∨ (IsSet (NotificationType n) Channel_Validator = true → validator v n (os_Cache s) = Ok Success)
    ∧ ∀ s', observer c n s = (s', Ok tt) → IsSet (NotificationType n) Channel_Observer = true ∨ s' = s →
        ∃ sub', notify n (sub, s) = ((sub', s'), Ok tt) ∧ succeeded sub'.
Proof.
  intros Hsub Hsize (r & Hr & Hverdict).
  assert (∃ sub', sub_validate validator v n (sub, s) = ((sub', s), Ok tt)
    ∧ (succeeded sub' → IsSet (NotificationType n) Channel_Validator = true → r = Success)) as (sub1 & Hval & Hs1).
  { unfold sub_validate. destruct (IsSet _ _); cbn [negb]; [rewrite Hr|by exists sub]. eexists. split; [done|]. intros Hs1 _. exact (aggregate_verdict _ _ Hsub Hverdict Hs1). }
  unfold sub_notify. rewrite Hsize. unfold mbind, exec_bind, gets. cbv beta iota zeta. cbn [fst]. rewrite Hsub. cbn [negb]. rewrite Hval. cbn [fst].
  destruct (IsValidationResultSuccess (m_aggregateResult sub1)) eqn:Hok; cbn [negb].
  - right. split; [intros Hset; by rewrite Hr, (Hs1 eq_refl Hset)|]. intros s' Hobs Hset. unfold sub_observe. rewrite Hobs.
    destruct (IsSet (NotificationType n) Channel_Observer) eqn:Hset'; cbn [negb].
    + destruct (m_isUndoEnabled sub1); cbn [negb]; [unfold undo_notify; rewrite Hsize, Hset'|]; eexists; by split.
    + destruct Hset as [?| ->]; [done|]. exists sub1. by split.
  - left. exists sub1. split; [done|]. by rewrite Hok.
Qed.

(** After a refusal the other notifications are ignored. *)
Lemma for_each_notify_failed ns sub s :
  ¬ succeeded sub → Forall (λ n, NotificationSize n <? sizeof_Notification = false) ns → for_each notify ns (sub, s) = ((sub, s), Ok tt).
Proof.
  intros Hs. induction 1 as [|n ns Hn _ IH]; [done|]. cbn [for_each]. by rewrite (run_bind _ _ _ _ _ (notify_failed n sub s Hs Hn)).
Qed.

End verdicts.

(** Undoing restores the state.  A subscriber that has undo enabled and no
    notifications kept is given notifications and throws nothing; whether a
    validator refused one or not, [undo] then succeeds, and leaves caches and
    state as they were before the first of them, and no notifications kept. *)
Theorem undo_restores validator v observer c P inv ns sub s sub' s' :
  ProperObserver observer → Reversible P observer → Admissible validator observer P inv →
  vc_Config v = oc_Config c → vc_Height v = oc_Height c → vc_BlockTime v = oc_Timestamp c → oc_Mode c = Commit →
  inv s → m_isUndoEnabled sub = true → m_notificationBuffers sub = [] →
  for_each (sub_notify validator v observer c) ns (sub, s) = ((sub', s'), Ok tt) →
  ∃ sub'' t, undo observer c (sub', s') = ((sub'', t), Ok tt) ∧ t ≡ s ∧ m_notificationBuffers sub'' = []
    ∧ m_aggregateResult sub'' = m_aggregateResult sub'.
Proof.
  intros Hprop Hrev Hadm H1 H2 H3 H4 Hi Hu Hb Hrun.
  destruct (for_each_notify_run validator v observer c P inv H1 H2 H3 H4 ns sub s sub' s' Hi Hrun) as [l [Hc _ Hu' Hk _]].
  rewrite Hu, Hb in *. simpl in Hk. unfold undo. rewrite Hu', Hk. simpl.
  destruct (rollback_committed P observer c (undo_context c) l s s' Hc) with
    (t := {| os_Cache := os_Cache s'; os_State := os_State s'; os_BlockStatementBuilder := os_BlockStatementBuilder s';
             os_Notifications := [] |}) as (t & Ht & Hts); [done|done|by unfold undo_context; rewrite H4|by split|].
  rewrite Ht. eexists _, _. split_and!; [done| |done|done]. exact Hts.
Qed.

End framework.

Arguments ValidatorContext : clear implicits.
Arguments ObserverContext : clear implicits.
Arguments ObserverState : clear implicits.
Arguments Subscriber : clear implicits.
Arguments Processing : clear implicits.
Arguments Validator : clear implicits.
Arguments Observer : clear implicits.

(** * Example *)

(** The cache is a number, a notification adds to it; the sum may not exceed 100. *)
Definition sample_type : Z := MakeNotificationType 3 0xFF 1.
Definition sample_validator : Validator Z Z unit := λ _ n cache, Ok (if cache + n <=? 100 then Success else Failure).
Definition sample_observer : Observer Z Z unit unit unit := λ c n,
  modify (λ s, {| os_Cache := match oc_Mode c with Commit => os_Cache s + n | Rollback => os_Cache s - n end; os_State := tt;
                  os_BlockStatementBuilder := tt; os_Notifications := os_Notifications s ++ [n] |}).
Definition sample_state (cache : Z) (ns : list Z) : ObserverState Z Z unit unit :=
  {| os_Cache := cache; os_State := tt; os_BlockStatementBuilder := tt; os_Notifications := ns |}.
Definition sample_context : ObserverContext unit := new_ObserverContext true tt 1 2 Commit false.
Definition sample_validator_context : ValidatorContext unit := {| vc_Config := tt; vc_Height := 1; vc_BlockTime := 2 |}.

#[local] Instance sample_cache_equiv : Equiv Z := eq.

Lemma sample_proper : ProperObserver sample_observer.
Proof. intros c n s t [H1 H2]. split; [|done]. split; [|done]. simpl. unfold equiv, sample_cache_equiv in *. by rewrite H1. Qed.

Lemma sample_reversible : Reversible (λ _ _ _, True) sample_observer.
Proof.
  intros c1 c2 n s s' _ _ Hc Hr. unfold sample_observer, modify. rewrite Hc, Hr. intros [= <-]. eexists. split; [done|].
  split; simpl; [|by destruct (os_State s)]. unfold equiv, sample_cache_equiv. lia.
Qed.

Lemma sample_admissible : Admissible (λ _, sample_type) sample_validator sample_observer (λ _ _ _, True) (λ _, True).
Proof. by split. Qed.

(** The third notification is refused; the first two are undone. *)
Lemma undo_restores_witness :
  ∃ sub'' t, undo sample_observer sample_context
    ({| m_aggregateResult := Failure; m_isUndoEnabled := true; m_notificationBuffers := [30; 40] |}, sample_state 80 [30; 40])
    = ((sub'', t), Ok tt) ∧ os_Cache t = 10.
Proof.
  destruct (undo_restores (λ _, sample_type) (λ _, 16) sample_validator sample_validator_context sample_observer sample_context
    (λ _ _ _, True) (λ _, True) [30; 40; 50; 1] (enableUndo new_Subscriber) (sample_state 10 [])
    {| m_aggregateResult := Failure; m_isUndoEnabled := true; m_notificationBuffers := [30; 40] |} (sample_state 80 [30; 40])
    sample_proper sample_reversible sample_admissible eq_refl eq_refl eq_refl eq_refl I eq_refl eq_refl eq_refl)
    as (sub'' & t & Hrun & [Ht _] & _).
  exists sub'', t. split; [exact Hrun|exact Ht].
Defined.

End Notifications.
