(* ===== verification/AccountStates.v ===== *)
(** Model of account states and their cache (catapult/state/AccountState.h,
    catapult/cache_core/AccountStateCacheDelta.cpp), and of the observers and
    validators of the core plugin that add accounts and move balances
    (plugins/coresystem/src/observers and validators).

    The cache finds an account by its address, and by its public key through a
    second map.  Balances are those of AccountBalances.v over any mosaic store.
    The theorems: a transfer moves a balance and its rollback moves it back, and
    at the end of a block the supply grows by its fees and the inflation, whatever
    the share of the beneficiary.  Registrations of accounts and their rollback
    are in AccountRegistration.v. *)
From stdpp Require Import base tactics numbers option list gmap.
From S2P Require Import Prelude MosaicStore CompactMosaicMap AccountBalances Notifications.

Local Open Scope Z_scope.

Module AccountStates.
Import Balances Notifications.

Abbreviation Address := (list Z).
Abbreviation Key := (list Z).

(** * Account states *)

Inductive AccountType := Unlinked | Main | Remote | Remote_Unlinked.

#[global] Instance AccountType_eq_dec : EqDecision AccountType.
Proof. solve_decision. Defined.

Definition IsRemote (t : AccountType) : bool := match t with Remote | Remote_Unlinked => true | _ => false end.

(** The default key. *)
Definition zero_key : Key := replicate 32 0.

Record AccountState (T : Type) := {
  a_Address : Address;
  a_AddressHeight : Z;
  a_PublicKey : Key;
  a_PublicKeyHeight : Z;
  a_AccountType : AccountType;
  a_LinkedAccountKey : Key;
  a_Balances : AccountBalances T;
}.
Arguments a_Address {T}. Arguments a_AddressHeight {T}. Arguments a_PublicKey {T}. Arguments a_PublicKeyHeight {T}.
Arguments a_AccountType {T}. Arguments a_LinkedAccountKey {T}. Arguments a_Balances {T}.

(** The delta of the cache, as the working copies of its two delta sets, and
    the queued removals. *)
Record AccountStateCacheDelta (T : Type) := {
  m_stateByAddress : gmap Address (AccountState T);
  m_keyToAddress : gmap Key Address;
  m_queuedRemoveByAddress : gset (Z * Address);
  m_queuedRemoveByPublicKey : gset (Z * Key);
}.
Arguments m_stateByAddress {T}. Arguments m_keyToAddress {T}. Arguments m_queuedRemoveByAddress {T}. Arguments m_queuedRemoveByPublicKey {T}.

Section definitions.
Context {T : Type} `{MosaicStore T}.
(** Addresses depend on the network. *)
Context (PublicKeyToAddress : Key → Address).
Context (CurrencyMosaicId HarvestingMosaicId : Z).
Implicit Types (d : AccountStateCacheDelta T).

Definition new_AccountState (address : Address) (addressHeight : Z) : AccountState T :=
  {| a_Address := address; a_AddressHeight := addressHeight; a_PublicKey := zero_key; a_PublicKeyHeight := 0; a_AccountType := Unlinked;
     a_LinkedAccountKey := zero_key; a_Balances := new_AccountBalances (Some addressHeight) |}.

Definition set_Balances (b : AccountBalances T) (a : AccountState T) : AccountState T :=
  {| a_Address := a_Address a; a_AddressHeight := a_AddressHeight a; a_PublicKey := a_PublicKey a; a_PublicKeyHeight := a_PublicKeyHeight a;
     a_AccountType := a_AccountType a; a_LinkedAccountKey := a_LinkedAccountKey a; a_Balances := b |}.

Definition set_PublicKey (key : Key) (height : Z) (a : AccountState T) : AccountState T :=
  {| a_Address := a_Address a; a_AddressHeight := a_AddressHeight a; a_PublicKey := key; a_PublicKeyHeight := height;
     a_AccountType := a_AccountType a; a_LinkedAccountKey := a_LinkedAccountKey a; a_Balances := a_Balances a |}.

(** [RequireLinkedRemoteAndMainAccounts]. *)
Definition RequireLinkedRemoteAndMainAccounts (remote main : AccountState T) : result unit :=
  if negb (bool_decide (a_AccountType remote = Remote)) then Throw runtime_error
  else if negb (bool_decide (a_AccountType main = Main)) then Throw runtime_error
  else if bool_decide (a_LinkedAccountKey main = a_PublicKey remote) && bool_decide (a_LinkedAccountKey remote = a_PublicKey main)
  then Ok tt else Throw runtime_error.

(** * The cache *)

Definition set_states (m : gmap Address (AccountState T)) d : AccountStateCacheDelta T :=
  {| m_stateByAddress := m; m_keyToAddress := m_keyToAddress d; m_queuedRemoveByAddress := m_queuedRemoveByAddress d;
     m_queuedRemoveByPublicKey := m_queuedRemoveByPublicKey d |}.
Definition set_keys (m : gmap Key Address) d : AccountStateCacheDelta T :=
  {| m_stateByAddress := m_stateByAddress d; m_keyToAddress := m; m_queuedRemoveByAddress := m_queuedRemoveByAddress d;
     m_queuedRemoveByPublicKey := m_queuedRemoveByPublicKey d |}.
Definition set_queues (byAddress : gset (Z * Address)) (byKey : gset (Z * Key)) d : AccountStateCacheDelta T :=
  {| m_stateByAddress := m_stateByAddress d; m_keyToAddress := m_keyToAddress d; m_queuedRemoveByAddress := byAddress;
     m_queuedRemoveByPublicKey := byKey |}.

Definition find_address d (address : Address) : option (AccountState T) := m_stateByAddress d !! address.

(** [ComposedLookupAdapter]. *)
Definition find_key d (publicKey : Key) : option (AccountState T) := address ← m_keyToAddress d !! publicKey; m_stateByAddress d !! address.

(** The map from keys is immutable: a key that is there keeps its address. *)
Definition emplace_key (publicKey : Key) (address : Address) d : AccountStateCacheDelta T :=
  match m_keyToAddress d !! publicKey with Some _ => d | None => set_keys (<[publicKey := address]> (m_keyToAddress d)) d end.

Definition getAddress (publicKey : Key) d : Address * AccountStateCacheDelta T :=
  match m_keyToAddress d !! publicKey with
  | Some address => (address, d)
  | None => let address := PublicKeyToAddress publicKey in (address, emplace_key publicKey address d)
  end.

(** Runs an operation on the balances of an account that was found. *)
Definition on_balances (address : Address) (f : Exec (AccountBalances T) unit) : Exec (AccountStateCacheDelta T) unit := λ d,
  match find_address d address with
  | None => (d, Throw invalid_argument)
  | Some a => let '(b, r) := f (a_Balances a) in (set_states (<[address := set_Balances b a]> (m_stateByAddress d)) d, r)
  end.

Definition addAccount_state (a : AccountState T) : Exec (AccountStateCacheDelta T) unit := λ d,
  match find_address d (a_Address a) with
  | Some _ => (d, Ok tt)
  | None =>
      let d := if negb (a_PublicKeyHeight a =? 0) then emplace_key (a_PublicKey a) (a_Address a) d else d in
      let d := set_states (<[a_Address a := a]> (m_stateByAddress d)) d in
      (on_balances (a_Address a) (optimize CurrencyMosaicId) ≫= λ _, on_balances (a_Address a) (track HarvestingMosaicId)) d
  end.

Definition addAccount_address (address : Address) (height : Z) : Exec (AccountStateCacheDelta T) unit := λ d,
  match find_address d address with Some _ => (d, Ok tt) | None => addAccount_state (new_AccountState address height) d end.

Definition addAccount_key (publicKey : Key) (height : Z) : Exec (AccountStateCacheDelta T) unit := λ d,
  let '(address, d) := getAddress publicKey d in
  match addAccount_address address height d with
  | (d, Throw e) => (d, Throw e)
  | (d, Ok _) =>
      match find_address d address with
      | None => (d, Throw invalid_argument)
      | Some a =>
          if negb (a_PublicKeyHeight a =? 0) then (d, Ok tt)
          else (set_states (<[address := set_PublicKey publicKey height a]> (m_stateByAddress d)) d, Ok tt)
      end
  end.

Definition remove_address (address : Address) (height : Z) d : AccountStateCacheDelta T :=
  match find_address d address with
  | None => d
  | Some a =>
      if negb (height =? a_AddressHeight a) then d
      else
        let d := if negb (a_PublicKeyHeight a =? 0) then set_keys (delete (a_PublicKey a) (m_keyToAddress d)) d else d in
        set_states (delete address (m_stateByAddress d)) d
  end.

Definition remove_key (publicKey : Key) (height : Z) d : AccountStateCacheDelta T :=
  match find_key d publicKey with
  | None => d
  | Some a =>
      if negb (height =? a_PublicKeyHeight a) then d
      else
        let d := set_keys (delete (a_PublicKey a) (m_keyToAddress d)) d in
        if a_PublicKeyHeight a =? a_AddressHeight a then set_states (delete (a_Address a) (m_stateByAddress d)) d
        else set_states (<[a_Address a := set_PublicKey zero_key 0 a]> (m_stateByAddress d)) d
  end.

Definition queueRemove_address (address : Address) (height : Z) d : AccountStateCacheDelta T :=
  set_queues ({[ (height, address) ]} ∪ m_queuedRemoveByAddress d) (m_queuedRemoveByPublicKey d) d.
Definition queueRemove_key (publicKey : Key) (height : Z) d : AccountStateCacheDelta T :=
  set_queues (m_queuedRemoveByAddress d) ({[ (height, publicKey) ]} ∪ m_queuedRemoveByPublicKey d) d.

Definition commitRemovals d : AccountStateCacheDelta T :=
  let d1 := foldl (λ d p, remove_address (snd p) (fst p) d) d (elements (m_queuedRemoveByAddress d)) in
  let d2 := foldl (λ d p, remove_key (snd p) (fst p) d) d1 (elements (m_queuedRemoveByPublicKey d)) in
  set_queues ∅ ∅ d2.

(** * Observers of the core plugin *)

(** [DefaultAccountVisitor::notify], for addresses and for keys. *)
Definition AccountAddressObserver (mode : NotifyMode) (height : Z) (address : Address) : Exec (AccountStateCacheDelta T) unit :=
  match mode with Commit => addAccount_address address height | Rollback => modify (queueRemove_address address height) end.
Definition AccountPublicKeyObserver (mode : NotifyMode) (height : Z) (publicKey : Key) : Exec (AccountStateCacheDelta T) unit :=
  match mode with Commit => addAccount_key publicKey height | Rollback => modify (queueRemove_key publicKey height) end.

Definition on_key (publicKey : Key) (f : Exec (AccountBalances T) unit) : Exec (AccountStateCacheDelta T) unit := λ d,
  match m_keyToAddress d !! publicKey with None => (d, Throw invalid_argument) | Some address => on_balances address f d end.

(** Mosaic ids and amounts are those that the resolvers yield. *)
Definition BalanceDebitObserver (mode : NotifyMode) (height : Z) (sender : Key) (mosaicId amount : Z) : Exec (AccountStateCacheDelta T) unit :=
  on_key sender (match mode with Commit => debit mosaicId amount height | Rollback => credit mosaicId amount height end).
Definition BalanceCreditObserver (mode : NotifyMode) (height : Z) (sender : Key) (mosaicId amount : Z) : Exec (AccountStateCacheDelta T) unit :=
  on_key sender (match mode with Commit => credit mosaicId amount height | Rollback => debit mosaicId amount height end).

(** Both accounts are looked up before a balance changes; they may be the same. *)
Definition BalanceTransferObserver (mode : NotifyMode) (height : Z) (sender : Key) (recipient : Address) (mosaicId amount : Z)
    : Exec (AccountStateCacheDelta T) unit := λ d,
  match find_key d sender, find_address d recipient with
  | Some senderState, Some recipientState =>
      let '(debitState, creditState) :=
        match mode with
        | Commit => (a_Address senderState, a_Address recipientState)
        | Rollback => (a_Address recipientState, a_Address senderState)
        end in
      (on_balances debitState (debit mosaicId amount height) ≫= λ _, on_balances creditState (credit mosaicId amount height)) d
  | _, _ => (d, Throw invalid_argument)
  end.

(** A receipt for a change of a balance, or for inflation. *)
Record Receipt := { r_Type : Z; r_Account : option Key; r_MosaicId : Z; r_Amount : Z }.

Definition MakeReceiptType (basicReceiptType facilityCode code : Z) : Z :=
  Z.lor (Z.lor (Z.shiftl (Z.land basicReceiptType 0x0F) 12) (Z.shiftl (Z.land code 0xF) 8)) (Z.land facilityCode 0xFF).
Definition Receipt_Type_Harvest_Fee : Z := MakeReceiptType 0x2 0x43 1.
Definition Receipt_Type_Inflation : Z := MakeReceiptType 0x5 0x43 1.

(** The receipts of an observer are its value. *)
Definition ApplyFee_account (a : AccountState T) (mode : NotifyMode) (mosaicId amount height : Z) : Exec (AccountStateCacheDelta T) (list Receipt) :=
  match mode with
  | Rollback => on_balances (a_Address a) (debit mosaicId amount height) ≫= λ _, mret []
  | Commit =>
      on_balances (a_Address a) (credit mosaicId amount height) ≫= λ _,
      mret [{| r_Type := Receipt_Type_Harvest_Fee; r_Account := Some (a_PublicKey a); r_MosaicId := mosaicId; r_Amount := amount |}]
  end.

Definition ApplyFee (publicKey : Key) (mode : NotifyMode) (mosaicId amount height : Z) : Exec (AccountStateCacheDelta T) (list Receipt) := λ d,
  match find_key d publicKey with
  | None => (d, Throw invalid_argument)
  | Some a =>
      if negb (bool_decide (a_AccountType a = Remote)) then ApplyFee_account a mode mosaicId amount height d
      else match find_key d (a_LinkedAccountKey a) with
           | None => (d, Throw invalid_argument)
           | Some linked =>
               match RequireLinkedRemoteAndMainAccounts a linked with
               | Throw e => (d, Throw e)
               | Ok _ => ApplyFee_account linked mode mosaicId amount height d
               end
           end
  end.

Definition ShouldShareFees (signer harvesterBeneficiary : Key) (harvestBeneficiaryPercentage : Z) : bool :=
  (0 <? harvestBeneficiaryPercentage) && negb (bool_decide (harvesterBeneficiary = zero_key)) && negb (bool_decide (signer = harvesterBeneficiary)).

(** [getSpotAmount] is that of the inflation calculator. *)
Definition HarvestFeeObserver (getSpotAmount : Z → Z) (percentage : Z) (mode : NotifyMode) (height : Z) (signer beneficiary : Key) (totalFee : Z)
    : Exec (AccountStateCacheDelta T) (list Receipt) :=
  let inflationAmount := getSpotAmount height in
  let totalAmount := add64 totalFee inflationAmount in
  let beneficiaryAmount := if ShouldShareFees signer beneficiary percentage then u64 (totalAmount * percentage) / 100 else 0 in
  let harvesterAmount := sub64 totalAmount beneficiaryAmount in
  r1 ← ApplyFee signer mode CurrencyMosaicId harvesterAmount height;
  r2 ← (if negb (beneficiaryAmount =? 0) then ApplyFee beneficiary mode CurrencyMosaicId beneficiaryAmount height else mret []);
  mret (r1 ++ r2 ++
    (if negb (inflationAmount =? 0) && bool_decide (mode = Commit)
     then [{| r_Type := Receipt_Type_Inflation; r_Account := None; r_MosaicId := CurrencyMosaicId; r_Amount := inflationAmount |}] else [])).

(** * Validators of balances *)

Definition Failure_Core_Insufficient_Balance : Z := MakeValidationResult Severity_Failure 0x43 5 0.

Definition FindAccountBalance d (publicKey : Key) (mosaicId : Z) : option Z :=
  match find_key d publicKey with
  | Some a => Some (get (a_Balances a) mosaicId)
  | None => (λ a, get (a_Balances a) mosaicId) <$> find_address d (PublicKeyToAddress publicKey)
  end.

Definition CheckBalance d (sender : Key) (mosaicId amount : Z) : Z :=
  match FindAccountBalance d sender mosaicId with
  | Some balance => if amount <=? balance then Success else Failure_Core_Insufficient_Balance
  | None => Failure_Core_Insufficient_Balance
  end.

End definitions.

(** * Supply *)

Section supply.
Context {T : Type} `{MosaicStoreLaws T}.
Implicit Types (d : AccountStateCacheDelta T).

(** What all accounts together hold of a mosaic. *)
Definition supply d (mosaicId : Z) : Z := map_fold (λ _ a total, get (a_Balances a) mosaicId + total) 0 (m_stateByAddress d).

(** Accounts at their addresses, with balances attached to them, none younger
    than the given height; keys lead to accounts. *)
Record states_wf (height : Z) d : Prop := {
  awf_address x a : m_stateByAddress d !! x = Some a → a_Address a = x;
  awf_balances x a : m_stateByAddress d !! x = Some a → Balances.wf (a_Balances a);
  awf_attached x a : m_stateByAddress d !! x = Some a → m_accountState (a_Balances a) = Some (a_AddressHeight a);
  awf_height x a : m_stateByAddress d !! x = Some a → a_AddressHeight a ≤ height;
}.

Record accounts_wf (height : Z) d : Prop := {
  awf_states : states_wf height d;
  awf_keys k x : m_keyToAddress d !! k = Some x → is_Some (m_stateByAddress d !! x);
}.

Lemma supply_delete d x a mosaicId :
  m_stateByAddress d !! x = Some a →
  supply d mosaicId = get (a_Balances a) mosaicId + supply (set_states (delete x (m_stateByAddress d)) d) mosaicId.
Proof.
  intros Hx. unfold supply. cbn [m_stateByAddress set_states]. rewrite (map_fold_delete_L _ _ x a); [done| |done].
  intros. lia.
Qed.

Lemma supply_insert d x a a' mosaicId :
  m_stateByAddress d !! x = Some a →
  supply (set_states (<[x := a']> (m_stateByAddress d)) d) mosaicId
  = supply d mosaicId - get (a_Balances a) mosaicId + get (a_Balances a') mosaicId.
Proof.
  intros Hx. rewrite (supply_delete d x a) by done.
  rewrite (supply_delete (set_states (<[x := a']> (m_stateByAddress d)) d) x a') by (cbn; by rewrite lookup_insert_eq).
  cbn [m_stateByAddress set_states]. rewrite delete_insert_eq. unfold supply. cbn [m_stateByAddress set_states]. lia.
Qed.

Lemma supply_new d x a mosaicId :
  m_stateByAddress d !! x = None →
  supply (set_states (<[x := a]> (m_stateByAddress d)) d) mosaicId = supply d mosaicId + get (a_Balances a) mosaicId.
Proof.
  intros Hx. rewrite (supply_delete (set_states (<[x := a]> (m_stateByAddress d)) d) x a) by (cbn; by rewrite lookup_insert_eq).
  cbn [m_stateByAddress set_states]. rewrite delete_insert_id by done. unfold supply. cbn [m_stateByAddress set_states]. lia.
Qed.

Lemma supply_nonneg d mosaicId : (∀ x a, m_stateByAddress d !! x = Some a → Balances.wf (a_Balances a)) → 0 ≤ supply d mosaicId.
Proof.
  intros Hb. unfold supply. revert Hb. generalize (m_stateByAddress d). intros m.
  induction m as [|x a m Hx Hfold IH] using map_first_key_ind; [by rewrite map_fold_empty|]. intros Hb.
  rewrite map_fold_insert_L; [|intros; lia|done]. pose proof (get_range (a_Balances a) mosaicId) as Hr.
  assert (Balances.wf (a_Balances a)) as Ha by (apply (Hb x); by rewrite lookup_insert_eq). specialize (Hr Ha).
  assert (0 ≤ map_fold (λ _ a total, get (a_Balances a) mosaicId + total) 0 m) by (apply IH; intros y b Hy; apply (Hb y); rewrite lookup_insert_ne; [done|congruence]).
  unfold in_range in Hr. lia.
Qed.

Lemma balance_le_supply height d x a mosaicId :
  states_wf height d → m_stateByAddress d !! x = Some a → get (a_Balances a) mosaicId ≤ supply d mosaicId.
Proof.
  intros Hwf Hx. rewrite (supply_delete d x a) by done.
  assert (0 ≤ supply (set_states (delete x (m_stateByAddress d)) d) mosaicId); [|lia]. apply supply_nonneg.
  cbn. intros y b [_ Hy]%lookup_delete_Some. by eapply awf_balances.
Qed.

(** Only balances differ. *)
Definition same_accounts d d' : Prop :=
  m_keyToAddress d' = m_keyToAddress d ∧ ∀ b x, set_Balances b <$> m_stateByAddress d' !! x = set_Balances b <$> m_stateByAddress d !! x.

Lemma same_accounts_trans d1 d2 d3 : same_accounts d1 d2 → same_accounts d2 d3 → same_accounts d1 d3.
Proof. intros [K12 S12] [K23 S23]. split; [congruence|]. intros b x. by rewrite S23. Qed.

Lemma same_accounts_Some d d' x : same_accounts d d' → is_Some (m_stateByAddress d' !! x) ↔ is_Some (m_stateByAddress d !! x).
Proof. intros [_ Hs]. specialize (Hs (new_AccountBalances None) x). destruct (m_stateByAddress d !! x), (m_stateByAddress d' !! x); naive_solver. Qed.

Lemma set_balances_wf height d x a b :
  accounts_wf height d → m_stateByAddress d !! x = Some a → Balances.wf b → m_accountState b = m_accountState (a_Balances a) →
  let d' := set_states (<[x := set_Balances b a]> (m_stateByAddress d)) d in
  accounts_wf height d' ∧ same_accounts d d' ∧ ∀ m, supply d' m = supply d m - get (a_Balances a) m + get b m.
Proof.
  intros [[H1 H2 H3 H4] H5] Hx Hb Hacc. split_and!.
  - split; [split|]; cbn [m_stateByAddress set_states m_keyToAddress].
    1-4: intros y a' [[<- <-]|[_ Hy]]%lookup_insert_Some; cbn; eauto.
    + by rewrite Hacc, (H3 x a).
    + intros k y Hy. apply H5 in Hy. destruct (decide (y = x)) as [->|]; [rewrite lookup_insert_eq|rewrite lookup_insert_ne by done]; eauto.
  - split; [done|]. intros b' y. cbn [m_stateByAddress set_states]. destruct (decide (y = x)) as [->|]; [by rewrite lookup_insert_eq, Hx|by rewrite lookup_insert_ne].
  - intros m. by rewrite (supply_insert d x a).
Qed.

Context (height : Z) (Hheight : in_range 64 height) (Hpositive : height ≠ 0).

Lemma awf_attached_at d x a : states_wf height d → m_stateByAddress d !! x = Some a → attached (a_Balances a) height.
Proof. intros Hwf Hx. exists (a_AddressHeight a). split; [by eapply awf_attached|by eapply awf_height]. Qed.

(** What one account holds of a mosaic. *)
Definition balance d (x : Address) (mosaicId : Z) : Z := from_option (λ a, get (a_Balances a) mosaicId) 0 (m_stateByAddress d !! x).

Lemma balance_Some d x a m : m_stateByAddress d !! x = Some a → balance d x m = get (a_Balances a) m.
Proof. unfold balance. by intros ->. Qed.

Lemma balance_insert d x a y m :
  balance (set_states (<[x := a]> (m_stateByAddress d)) d) y m = if decide (y = x) then get (a_Balances a) m else balance d y m.
Proof. unfold balance. cbn. case_decide; [subst y; by rewrite lookup_insert_eq|by rewrite lookup_insert_ne]. Qed.

(** The balances and the supply after one account gained an amount of a mosaic. *)
Record gained d (x : Address) (id amount : Z) d' : Prop := {
  gained_wf : accounts_wf height d';
  gained_same : same_accounts d d';
  gained_balance y m : balance d' y m = balance d y m + if decide (y = x ∧ m = id) then amount else 0;
  gained_supply m : supply d' m = supply d m + if decide (m = id) then amount else 0;
}.

Lemma set_balances_gained d x a b id amount :
  accounts_wf height d → m_stateByAddress d !! x = Some a → Balances.wf b → m_accountState b = m_accountState (a_Balances a) →
  (∀ m, get b m = get (a_Balances a) m + if decide (m = id) then amount else 0) →
  gained d x id amount (set_states (<[x := set_Balances b a]> (m_stateByAddress d)) d).
Proof.
  intros Hwf Hx Hb Hacc Hget. destruct (set_balances_wf height d x a b Hwf Hx Hb Hacc) as (? & ? & Hs). split; [done|done| |].
  - intros y m. rewrite balance_insert. cbn [set_Balances a_Balances]. rewrite Hget. repeat case_decide; naive_solver (subst; rewrite ?(balance_Some d x a) by done; lia).
  - intros m. rewrite Hs, Hget. case_decide; lia.
Qed.

Lemma get_zero_id (b : AccountBalances T) : Balances.wf b → get b 0 = 0.
Proof.
  intros Hb. rewrite get_map by apply Hb. destruct (balance_map b !! 0) eqn:Hz; [|done]. exfalso.
  by apply (store_valid (m_balances b) 0); [apply Hb|exists z|].
Qed.

Lemma on_balances_credit d x id amount :
  accounts_wf height d → is_Some (m_stateByAddress d !! x) → in_range 64 amount → (amount ≠ 0 → id ≠ 0) → supply d id + amount < 2 ^ 64 →
  ∃ d', on_balances x (credit id amount height) d = (d', Ok tt) ∧ gained d x id amount d'.
Proof.
  intros Hwf [a Hx] Ha Hid Hsum. pose proof (awf_states _ _ Hwf) as Hst. unfold on_balances, find_address. rewrite Hx.
  pose proof (awf_balances _ _ Hst x a Hx) as Hb.
  assert (∃ b, credit id amount height (a_Balances a) = (b, Ok tt) ∧ Balances.wf b ∧ m_accountState b = m_accountState (a_Balances a)
    ∧ ∀ m, get b m = get (a_Balances a) m + if decide (m = id) then amount else 0) as (b & -> & Hb' & Hacc & Hget).
  { destruct (decide (amount = 0)) as [->|Hnz].
    { exists (a_Balances a). split_and!; [|done|done|intros m; case_decide; lia]. unfold credit. by destruct (Z.eqb_spec height 0). }
    destruct (credit_effect (a_Balances a) id amount height) as (b & Hrun & Hb' & (_ & Hacc & _) & Hget);
      [done|done|by auto|done|done|by eapply awf_attached_at|].
    exists b. split_and!; [done..|]. intros m. rewrite Hget. case_decide as Hm; [subst m|lia].
    pose proof (balance_le_supply height d x a id Hst Hx). pose proof (get_range (a_Balances a) id Hb).
    rewrite add64_small by (unfold in_range in *; lia). done. }
  eexists. split; [done|]. by apply set_balances_gained.
Qed.

Lemma on_balances_debit d x a id amount :
  accounts_wf height d → m_stateByAddress d !! x = Some a → in_range 64 amount → amount ≤ get (a_Balances a) id →
  ∃ d', on_balances x (debit id amount height) d = (d', Ok tt) ∧ gained d x id (- amount) d'.
Proof.
  intros Hwf Hx Ha Hle. pose proof (awf_states _ _ Hwf) as Hst. unfold on_balances, find_address. rewrite Hx.
  pose proof (debit_effect (a_Balances a) id amount height) as Hd. rewrite decide_True in Hd by done.
  destruct Hd as (b & -> & Hb & (_ & Hacc & _) & Hget); [by eapply awf_balances|done|done|done|by eapply awf_attached_at|].
  eexists. split; [done|]. apply set_balances_gained; [done..|]. intros m. rewrite Hget. case_decide; [subst m|]; lia.
Qed.

Context (PublicKeyToAddress : Key → Address) (CurrencyMosaicId HarvestingMosaicId : Z).

(** ** Transfers *)

(** An amount of a mosaic went from one account to another. *)
Record moved d (from to : Address) (id amount : Z) d' : Prop := {
  moved_wf : accounts_wf height d';
  moved_same : same_accounts d d';
  moved_balance y m :
    balance d' y m = balance d y m - (if decide (y = from ∧ m = id) then amount else 0) + if decide (y = to ∧ m = id) then amount else 0;
  moved_supply m : supply d' m = supply d m;
}.

Lemma supply_balance d x m : accounts_wf height d → balance d x m ≤ supply d m.
Proof.
  intros Hwf. unfold balance. destruct (m_stateByAddress d !! x) as [a|] eqn:Hx; cbn.
  - by apply (balance_le_supply height d x a), Hx; apply Hwf.
  - apply supply_nonneg. intros y b. apply (awf_balances height d), Hwf.
Qed.

(** A debit that is covered, then a credit. *)
Lemma transfer_run d from to id amount :
  accounts_wf height d → is_Some (m_stateByAddress d !! from) → is_Some (m_stateByAddress d !! to) → in_range 64 amount →
  amount ≤ balance d from id → supply d id < 2 ^ 64 →
  ∃ d', (on_balances from (debit id amount height) ≫= λ _, on_balances to (credit id amount height)) d = (d', Ok tt)
  ∧ moved d from to id amount d'.
Proof.
  intros Hwf [a Hfrom] Hto Ha Hle Hsum. rewrite (balance_Some d from a) in Hle by done.
  destruct (on_balances_debit d from a id amount Hwf Hfrom Ha Hle) as (d1 & H1 & [Hwf1 Hsame1 Hbal1 Hsup1]).
  destruct (on_balances_credit d1 to id amount) as (d2 & H2 & [Hwf2 Hsame2 Hbal2 Hsup2]); [done|by apply (same_accounts_Some d)|done| | |].
  - intros Hnz ->. pose proof (get_zero_id (a_Balances a) (awf_balances _ _ (awf_states _ _ Hwf) from a Hfrom)). unfold in_range in Ha. lia.
  - rewrite Hsup1, decide_True by done. lia.
  - exists d2. split; [by rewrite (run_bind _ _ _ _ _ H1)|]. split; [done|by eapply same_accounts_trans| |].
    + intros y m. rewrite Hbal2, Hbal1. repeat case_decide; lia.
    + intros m. rewrite Hsup2, Hsup1. case_decide; lia.
Qed.

Lemma find_key_Some d k a : accounts_wf height d → find_key d k = Some a → m_stateByAddress d !! a_Address a = Some a.
Proof.
  intros Hwf. unfold find_key. destruct (m_keyToAddress d !! k) as [x|]; [|done]. cbn. intros Hx.
  by rewrite (awf_address _ _ (awf_states _ _ Hwf) x a Hx).
Qed.

(** Lookups find the same accounts, up to their balances. *)
Lemma find_key_same d d' k a :
  accounts_wf height d → same_accounts d d' → find_key d k = Some a →
  ∃ b, find_key d' k = Some (set_Balances b a) ∧ m_stateByAddress d' !! a_Address a = Some (set_Balances b a).
Proof.
  intros Hwf [Hkeys Hstates]. unfold find_key. rewrite Hkeys. destruct (m_keyToAddress d !! k) as [x|]; [|done]. cbn. intros Hx.
  rewrite (awf_address _ _ (awf_states _ _ Hwf) x a Hx). pose proof (Hstates (a_Balances a) x) as Hs. rewrite Hx in Hs.
  destruct (m_stateByAddress d' !! x) as [a'|]; [|done]. exists (a_Balances a'). injection Hs as E1 E2 E3 E4 E5 E6.
  assert (set_Balances (a_Balances a') a = a') as -> by (destruct a, a'; cbn in *; by subst). done.
Qed.

Lemma CheckBalance_Success d k a id amount :
  accounts_wf height d → find_key d k = Some a → CheckBalance PublicKeyToAddress d k id amount = Success → amount ≤ balance d (a_Address a) id.
Proof.
  intros Hwf Hk. unfold CheckBalance, FindAccountBalance. rewrite Hk, (balance_Some d _ a) by (by eapply find_key_Some).
  destruct (Z.leb_spec amount (get (a_Balances a) id)); [done|]. done.
Qed.

(** ** Fees *)

(** The account that is paid for a key: the main account of a remote one. *)
Definition payee d (k : Key) : option Address :=
  a ← find_key d k;
  if negb (bool_decide (a_AccountType a = Remote)) then Some (a_Address a)
  else
    linked ← find_key d (a_LinkedAccountKey a);
    match RequireLinkedRemoteAndMainAccounts a linked with Ok _ => Some (a_Address linked) | Throw _ => None end.

Lemma payee_same d d' k x : accounts_wf height d → same_accounts d d' → payee d k = Some x → payee d' k = Some x.
Proof.
  intros Hwf Hsame. unfold payee. destruct (find_key d k) as [a|] eqn:Hk; [|done]. cbn.
  destruct (find_key_same d d' k a Hwf Hsame Hk) as (b & -> & _). cbn. destruct (bool_decide _); cbn; [|done].
  destruct (find_key d (a_LinkedAccountKey a)) as [l|] eqn:Hl; [|done]. cbn.
  by destruct (find_key_same d d' _ l Hwf Hsame Hl) as (b' & -> & _).
Qed.

(** A credit of a fee, with its receipt. *)
Lemma ApplyFee_run d k x id amount :
  accounts_wf height d → payee d k = Some x → in_range 64 amount → (amount ≠ 0 → id ≠ 0) → supply d id + amount < 2 ^ 64 →
  ∃ d' r, ApplyFee k Commit id amount height d = (d', Ok [r]) ∧ gained d x id amount d'
  ∧ r_Type r = Receipt_Type_Harvest_Fee ∧ r_Amount r = amount ∧ r_MosaicId r = id.
Proof.
  intros Hwf Hp Ha Hid Hsum. unfold payee in Hp. unfold ApplyFee. destruct (find_key d k) as [a|] eqn:Hk; [|done]. cbn in Hp.
  assert (∀ a', find_key d k = Some a' ∨ find_key d (a_LinkedAccountKey a) = Some a' → a_Address a' = x →
    ∃ d' r, ApplyFee_account a' Commit id amount height d = (d', Ok [r]) ∧ gained d x id amount d'
      ∧ r_Type r = Receipt_Type_Harvest_Fee ∧ r_Amount r = amount ∧ r_MosaicId r = id) as Hpay.
  { intros a' Hf <-. destruct (on_balances_credit d (a_Address a') id amount) as (d' & Hrun & Hg); [done| |done|done|done|].
    { destruct Hf as [Hf|Hf]; eexists; by eapply find_key_Some. }
    eexists d', _. unfold ApplyFee_account. rewrite (run_bind _ _ _ _ _ Hrun). done. }
  destruct (bool_decide (a_AccountType a = Remote)); cbn [negb] in *; [|apply Hpay; [by left|congruence]].
  destruct (find_key d (a_LinkedAccountKey a)) as [l|]; [|done]. cbn in Hp.
  destruct (RequireLinkedRemoteAndMainAccounts a l); [|done]. apply Hpay; [by right|congruence].
Qed.

(** The share of a beneficiary never exceeds the amount, even when the product
    with the percentage does not fit in 64 bits. *)
Lemma share_bounds amount percentage : 0 ≤ amount → 0 ≤ percentage ≤ 100 → 0 ≤ u64 (amount * percentage) / 100 ≤ amount.
Proof.
  intros Ha Hp. assert (0 ≤ u64 (amount * percentage) ≤ amount * percentage) as [H1 H2].
  { unfold wrap. split; [apply Z.mod_pos_bound; lia|]. apply Z.mod_le; lia. }
  split; [apply Z.div_pos; lia|]. apply Z.div_le_upper_bound; nia.
Qed.

(** ** New accounts *)

Abbreviation add_address := (addAccount_address CurrencyMosaicId HarvestingMosaicId).
Abbreviation add_key := (addAccount_key PublicKeyToAddress CurrencyMosaicId HarvestingMosaicId).

(** Accounts stay, with their balances; their keys may become known. *)
Definition grows d d' : Prop :=
  (∀ x a, m_stateByAddress d !! x = Some a → ∃ a', m_stateByAddress d' !! x = Some a' ∧ a_Balances a' = a_Balances a)
  ∧ ∀ k x, m_keyToAddress d !! k = Some x → m_keyToAddress d' !! k = Some x.

Lemma grows_trans d1 d2 d3 : grows d1 d2 → grows d2 d3 → grows d1 d3.
Proof.
  intros [S12 K12] [S23 K23]. split; [|by auto]. intros x a Ha. destruct (S12 x a Ha) as (a2 & H2 & Hb2). destruct (S23 x a2 H2) as (a3 & H3 & Hb3).
  exists a3. split; [done|congruence].
Qed.

Lemma grows_find d d' k : grows d d' → is_Some (find_key d k) → is_Some (find_key d' k).
Proof.
  intros [Hs Hk] [a Ha]. unfold find_key in *. destruct (m_keyToAddress d !! k) as [x|] eqn:Hx; [|done]. simpl in Ha.
  rewrite (Hk k x Hx). simpl. destruct (Hs x a Ha) as (a' & ? & _). by eexists.
Qed.

(** A new account is configured and empty. *)
Lemma new_balances_configured h :
  ∃ b1 b2, optimize CurrencyMosaicId (new_AccountBalances (T := T) (Some h)) = (b1, Ok tt) ∧ track HarvestingMosaicId b1 = (b2, Ok tt)
  ∧ Balances.wf b2 ∧ m_accountState b2 = Some h ∧ ∀ m, get b2 m = 0.
Proof.
  destruct store_new_spec as (Hwf & Hmap & Hopt). unfold optimize, lift_member, new_AccountBalances. exec_unfold. cbn [m_balances].
  pose proof (store_optimize_spec store_new CurrencyMosaicId Hwf) as Ho. rewrite decide_True in Ho by (by left).
  destruct Ho as (st & -> & Hst & Hm & _). eexists _, _. split; [done|]. split.
  { unfold track. exec_unfold. cbn. rewrite andb_false_r. done. }
  split_and!; [|done|].
  - split; cbn; [done| |constructor..]. unfold balance_map. cbn. intros id v. rewrite Hm, Hmap, lookup_empty. done.
  - intros m. unfold get. cbn. by rewrite store_get_spec, Hm, Hmap, lookup_empty.
Qed.

Lemma addAccount_address_new d x h :
  m_stateByAddress d !! x = None →
  ∃ b, add_address x h d = (set_states (<[x := set_Balances b (new_AccountState x h)]> (m_stateByAddress d)) d, Ok tt)
  ∧ Balances.wf b ∧ m_accountState b = Some h ∧ ∀ m, get b m = 0.
Proof.
  intros Hx. unfold addAccount_address, addAccount_state, find_address. rewrite Hx.
  cbn [new_AccountState a_Address a_PublicKeyHeight]. rewrite Hx. cbn [Z.eqb negb].
  destruct (new_balances_configured h) as (b1 & b2 & Ho & Ht & Hwf2 & Hacc & Hget).
  unfold mbind, exec_bind, on_balances, find_address. cbn [m_stateByAddress set_states]. rewrite lookup_insert_eq. cbn [a_Balances new_AccountState]. rewrite Ho.
  cbn [m_stateByAddress set_states]. rewrite lookup_insert_eq. cbn [a_Balances set_Balances]. rewrite Ht. rewrite !insert_insert_eq.
  exists b2. done.
Qed.

Lemma addAccount_address_spec d x :
  states_wf height d →
  ∃ d', add_address x height d = (d', Ok tt) ∧ states_wf height d' ∧ is_Some (m_stateByAddress d' !! x) ∧ grows d d'
  ∧ m_keyToAddress d' = m_keyToAddress d ∧ ∀ m, supply d' m = supply d m.
Proof.
  intros Hwf. destruct (m_stateByAddress d !! x) as [a|] eqn:Hx.
  { exists d. unfold addAccount_address, find_address. rewrite Hx. split_and!; [done|done|by eexists|split; [eauto|done]|done|done]. }
  destruct (addAccount_address_new d x height Hx) as (b2 & -> & Hwf2 & Hacc & Hget). eexists. split; [done|]. destruct Hwf as [H1 H2 H3 H4].
  split_and!; [split; cbn [m_stateByAddress set_states m_keyToAddress]| |split| |].
  1-4: intros y a' [[<- <-]|[_ Hy]]%lookup_insert_Some; cbn; eauto; done || lia.
  - cbn. by rewrite lookup_insert_eq.
  - intros y a' Hy. cbn. rewrite lookup_insert_ne by (intros ->; congruence). eauto.
  - done.
  - done.
  - intros m. rewrite supply_new by done. cbn. rewrite Hget. lia.
Qed.

Lemma addAccount_key_spec d k :
  accounts_wf height d →
  ∃ d', add_key k height d = (d', Ok tt) ∧ accounts_wf height d' ∧ is_Some (find_key d' k) ∧ grows d d' ∧ ∀ m, supply d' m = supply d m.
Proof.
  intros Hwf. unfold addAccount_key.
  assert (∃ x d1, getAddress PublicKeyToAddress k d = (x, d1) ∧ m_stateByAddress d1 = m_stateByAddress d ∧ m_keyToAddress d1 !! k = Some x
    ∧ (∀ k' x', m_keyToAddress d !! k' = Some x' → m_keyToAddress d1 !! k' = Some x')
    ∧ (∀ k' x', m_keyToAddress d1 !! k' = Some x' → m_keyToAddress d !! k' = Some x' ∨ x' = x)) as (x & d1 & -> & Hs1 & Hk1 & Hold & Hnew).
  { unfold getAddress. destruct (m_keyToAddress d !! k) as [x|] eqn:Hk; [exists x, d; split_and!; by auto|].
    eexists _, _. split; [done|]. unfold emplace_key. rewrite Hk. cbn. split_and!; [done|by rewrite lookup_insert_eq| |].
    - intros k' x' Hk'. rewrite lookup_insert_ne by (intros ->; congruence). done.
    - intros k' x' [[_ <-]|[_ ?]]%lookup_insert_Some; auto. }
  destruct (addAccount_address_spec d1 x) as (d2 & -> & Hwf2 & [a Hx] & [Hg2 _] & Hk2 & Hsup2).
  { destruct (awf_states _ _ Hwf) as [H1 H2 H3 H4]. by split; rewrite Hs1. }
  unfold find_address. rewrite Hx. rewrite Hs1 in Hg2.
  assert (∀ m, supply d1 m = supply d m) as Hsup1 by (intros m; unfold supply; by rewrite Hs1).
  set (d' := if negb (a_PublicKeyHeight a =? 0) then d2 else set_states (<[x := set_PublicKey k height a]> (m_stateByAddress d2)) d2).
  exists d'. split; [unfold d'; by destruct (negb _)|].
  assert (m_keyToAddress d' = m_keyToAddress d1) as Hk' by (unfold d'; by destruct (negb _)).
  assert (∀ y b, m_stateByAddress d2 !! y = Some b → ∃ b', m_stateByAddress d' !! y = Some b' ∧ a_Balances b' = a_Balances b) as Hg'.
  { unfold d'. intros y b Hy. destruct (negb _); [eauto|]. cbn. destruct (decide (y = x)) as [->|]; [|rewrite lookup_insert_ne by done; eauto].
    rewrite lookup_insert_eq. eexists. split; [done|]. cbn. congruence. }
  assert (∀ y b', m_stateByAddress d' !! y = Some b' → ∃ b, m_stateByAddress d2 !! y = Some b ∧ a_Address b' = a_Address b
    ∧ a_Balances b' = a_Balances b ∧ a_AddressHeight b' = a_AddressHeight b) as Hback.
  { unfold d'. intros y b' Hy. destruct (negb _); [by exists b'|]. cbn in Hy. apply lookup_insert_Some in Hy as [[<- <-]|[_ Hy]]; [by exists a|by exists b']. }
  split_and!.
  - destruct Hwf2 as [H1 H2 H3 H4]. split; [split|].
    1-4: intros y b' (b & Hb & E1 & E2 & E3)%Hback; rewrite ?E1, ?E2, ?E3; eauto.
    intros k' y. rewrite Hk'. intros [Hy| ->]%Hnew.
    + apply (awf_keys _ _ Hwf) in Hy as [b Hb]. destruct (Hg2 y b Hb) as (b2 & Hb2 & _). destruct (Hg' y b2 Hb2) as (b' & ? & _). by eexists.
    + destruct (Hg' x a Hx) as (b' & ? & _). by eexists.
  - unfold find_key. rewrite Hk', Hk1. cbn. destruct (Hg' x a Hx) as (b' & ? & _). by eexists.
  - split; [|intros k' y Hy; rewrite Hk'; by apply Hold]. intros y b Hb. destruct (Hg2 y b Hb) as (b2 & Hb2 & E2).
    destruct (Hg' y b2 Hb2) as (b' & Hb' & E'). exists b'. split; [done|congruence].
  - intros m. rewrite <- Hsup1, <- Hsup2. unfold d'. destruct (negb _); [done|]. rewrite (supply_insert d2 x a) by done. cbn. lia.
Qed.

End supply.

(** * Theorems *)

Section theorems.
Context {T : Type} `{MosaicStoreLaws T}.
Implicit Types (d : AccountStateCacheDelta T).

(** C29. A transfer of a mosaic that the balance check accepts moves the amount
    from the sender to the recipient, who may be the sender, and changes no
    other balance and not the supply.  Rolling it back gives every account the
    balances that it had. *)
Theorem transfer_moves_balance PublicKeyToAddress height d sender a recipient id amount :
  in_range 64 height → height ≠ 0 → accounts_wf height d → find_key d sender = Some a → is_Some (find_address d recipient) →
  in_range 64 amount → supply d id < 2 ^ 64 → CheckBalance PublicKeyToAddress d sender id amount = Success →
  ∃ d', BalanceTransferObserver Commit height sender recipient id amount d = (d', Ok tt)
    ∧ accounts_wf height d' ∧ same_accounts d d'
    ∧ (∀ x m, balance d' x m = balance d x m - (if decide (x = a_Address a ∧ m = id) then amount else 0)
                               + (if decide (x = recipient ∧ m = id) then amount else 0))
    ∧ (∀ m, supply d' m = supply d m)
    ∧ ∃ d'', BalanceTransferObserver Rollback height sender recipient id amount d' = (d'', Ok tt) ∧ ∀ x m, balance d'' x m = balance d x m.
Proof.
  intros Hh Hh0 Hwf Hs [r Hr] Ha Hsum Hcheck. unfold find_address in Hr.
  pose proof (CheckBalance_Success height PublicKeyToAddress d sender a id amount Hwf Hs Hcheck) as Hle.
  pose proof (find_key_Some height d sender a Hwf Hs) as Hx. pose proof (awf_address _ _ (awf_states _ _ Hwf) _ _ Hr) as Ear.
  destruct (transfer_run height Hh Hh0 d (a_Address a) recipient id amount) as (d' & Hrun & [Hwf' Hsame Hbal Hsup]); [by eauto..|].
  exists d'. unfold BalanceTransferObserver, find_address. rewrite Hs, Hr, Ear. split_and!; [done..|].
  destruct (find_key_same height d d' sender a Hwf Hsame Hs) as (b & -> & Hx').
  destruct (proj2 (same_accounts_Some d d' recipient Hsame)) as [r' Hr']; [by eexists|]. rewrite Hr'.
  rewrite (awf_address _ _ (awf_states _ _ Hwf') _ _ Hr'). cbn [set_Balances a_Address].
  destruct (transfer_run height Hh Hh0 d' recipient (a_Address a) id amount) as (d'' & -> & [_ _ Hbal' _]); [by eauto..| |by rewrite Hsup|].
  - rewrite Hbal. rewrite (decide_True (P := recipient = recipient ∧ id = id)) by done.
    assert (∀ x, 0 ≤ balance d x id) as Hpos.
    { intros x. unfold balance. destruct (m_stateByAddress d !! x) as [c|] eqn:Hc; [|done]. cbn.
      pose proof (get_range (a_Balances c) id (awf_balances _ _ (awf_states _ _ Hwf) x c Hc)) as [? _]. done. }
    case_decide as Hd; [destruct Hd as [-> _]; lia|]. pose proof (Hpos recipient). lia.
  - exists d''. split; [done|]. intros x m. rewrite Hbal', Hbal. repeat case_decide; lia.
Qed.

(** The amounts of the receipts for fees. *)
Definition fees_paid (receipts : list Receipt) : Z :=
  foldr (λ r, Z.add (r_Amount r)) 0 (filter (λ r, r_Type r = Receipt_Type_Harvest_Fee) receipts).

(** C30. At the end of a block, the supply of the currency mosaic grows by exactly
    the fees of the block and the inflation, and no other supply changes.  The
    harvester, or the main account of a remote harvester, gets all of it but the
    beneficiary's share, which never exceeds it for a percentage up to 100; the
    receipts for fees add up to the amount paid. *)
Theorem harvest_fee_conserves CurrencyMosaicId getSpotAmount percentage height d signer beneficiary totalFee x :
  in_range 64 height → height ≠ 0 → accounts_wf height d → 0 ≤ percentage ≤ 100 → CurrencyMosaicId ≠ 0 →
  payee d signer = Some x → (ShouldShareFees signer beneficiary percentage = true → is_Some (payee d beneficiary)) →
  0 ≤ totalFee → 0 ≤ getSpotAmount height → supply d CurrencyMosaicId + totalFee + getSpotAmount height < 2 ^ 64 →
  let amount := totalFee + getSpotAmount height in
  let share := if ShouldShareFees signer beneficiary percentage then u64 (amount * percentage) / 100 else 0 in
  ∃ d' receipts, HarvestFeeObserver CurrencyMosaicId getSpotAmount percentage Commit height signer beneficiary totalFee d = (d', Ok receipts)
    ∧ accounts_wf height d' ∧ 0 ≤ share ≤ amount
    ∧ (∀ m, supply d' m = supply d m + if decide (m = CurrencyMosaicId) then amount else 0)
    ∧ (∀ y, balance d' y CurrencyMosaicId = balance d y CurrencyMosaicId + (if decide (y = x) then amount - share else 0)
                                           + (if decide (payee d beneficiary = Some y) then share else 0))
    ∧ fees_paid receipts = amount.
Proof.
  intros Hh Hh0 Hwf Hp Hc Hx Hy Hfee Hspot Hsum amount share.
  assert (0 ≤ share ≤ amount) as Hshare.
  { unfold share. destruct (ShouldShareFees _ _ _); [|lia]. apply share_bounds; lia. }
  pose proof (supply_nonneg d CurrencyMosaicId (awf_balances _ _ (awf_states _ _ Hwf))) as Hsupply.
  unfold HarvestFeeObserver. rewrite add64_small by (unfold in_range; lia). fold amount. fold share.
  rewrite sub64_small by (unfold in_range; lia).
  destruct (ApplyFee_run height Hh Hh0 d signer x CurrencyMosaicId (amount - share)) as (d1 & r1 & H1 & [Hwf1 Hsame1 Hbal1 Hsup1] & T1 & A1 & _);
    [done|done|unfold in_range; lia|done|lia|].
  rewrite (run_bind _ _ _ _ _ H1).
  assert (∃ d2 rs, (if negb (share =? 0) then ApplyFee beneficiary Commit CurrencyMosaicId share height else mret []) d1 = (d2, Ok rs)
    ∧ accounts_wf height d2 ∧ fees_paid rs = share
    ∧ (∀ m, supply d2 m = supply d1 m + if decide (m = CurrencyMosaicId) then share else 0)
    ∧ ∀ y, balance d2 y CurrencyMosaicId = balance d1 y CurrencyMosaicId + if decide (payee d beneficiary = Some y) then share else 0)
    as (d2 & rs & H2 & Hwf2 & Hpaid & Hsup2 & Hbal2).
  { destruct (Z.eqb_spec share 0) as [Hs|Hs]; cbn [negb].
    { exists d1, []. rewrite Hs. split_and!; [done|done|done|..]; intros ?; case_decide; lia. }
    destruct (ShouldShareFees signer beneficiary percentage) eqn:Hshould; [|done]. destruct (Hy eq_refl) as [y Hy'].
    destruct (ApplyFee_run height Hh Hh0 d1 beneficiary y CurrencyMosaicId share) as (d2 & r2 & H2 & [Hwf2 _ Hbal2 Hsup2] & T2 & A2 & _);
      [done|exact (payee_same height d d1 beneficiary y Hwf Hsame1 Hy')|unfold in_range; lia|done|rewrite Hsup1, decide_True by done; lia|].
    exists d2, [r2]. split_and!; [done|done| |done|].
    - unfold fees_paid. rewrite filter_cons, decide_True by done. cbn. lia.
    - intros z. rewrite Hbal2, Hy'. destruct (decide (z = y)) as [->|]; [by rewrite !decide_True|by rewrite !decide_False by naive_solver]. }
  rewrite (run_bind _ _ _ _ _ H2). eexists d2, _. split; [done|]. split_and!; [done|lia|lia|..].
  - intros m. rewrite Hsup2, Hsup1. case_decide; lia.
  - intros y. rewrite Hbal2, Hbal1. repeat case_decide; naive_solver lia.
  - unfold fees_paid in *. rewrite !filter_app, !foldr_app. cbn [app]. rewrite filter_cons, decide_True by done. cbn [foldr].
    assert (filter (λ r, r_Type r = Receipt_Type_Harvest_Fee)
      (if negb (getSpotAmount height =? 0) && bool_decide (Commit = Commit)
       then [{| r_Type := Receipt_Type_Inflation; r_Account := None; r_MosaicId := CurrencyMosaicId; r_Amount := getSpotAmount height |}] else []) = [])
      as -> by (by destruct (_ && _)). cbn [foldr]. rewrite Hpaid, filter_nil. cbn [foldr]. lia.
Qed.

End theorems.

(** * Example *)

Definition sample_address (k : Key) : Address := 9 :: k.

(** Two accounts, of which the first holds 100 of the currency mosaic. *)
Definition no_accounts : AccountStateCacheDelta MosaicMap.CompactMosaicMap :=
  {| m_stateByAddress := ∅; m_keyToAddress := ∅; m_queuedRemoveByAddress := ∅; m_queuedRemoveByPublicKey := ∅ |}.
Definition one_account := fst (addAccount_key sample_address 7 8 [1] 1 no_accounts).
Definition two_accounts := fst (addAccount_key sample_address 7 8 [2] 1 one_account).
Definition funded_accounts := fst (on_balances [9; 1] (credit 7 100 1) two_accounts).

Lemma no_accounts_wf : accounts_wf 1 no_accounts.
Proof. split; [split|]; cbn; intros *; by rewrite lookup_empty. Qed.

Lemma two_accounts_wf : accounts_wf 1 two_accounts.
Proof.
  destruct (addAccount_key_spec 1 sample_address 7 8 no_accounts [1] no_accounts_wf) as (d1 & E1 & H1 & _).
  assert (d1 = one_account) as -> by (unfold one_account; by rewrite E1).
  destruct (addAccount_key_spec 1 sample_address 7 8 one_account [2] H1) as (d2 & E2 & H2 & _).
  assert (d2 = two_accounts) as <- by (unfold two_accounts; by rewrite E2). done.
Qed.

Lemma funded_accounts_wf : accounts_wf 1 funded_accounts.
Proof.
  destruct (on_balances_credit 1 ltac:(done) ltac:(done) two_accounts [9; 1] 7 100) as (d & E & Hd);
    [exact two_accounts_wf|by eexists|done|done|by vm_compute|].
  assert (d = funded_accounts) as <- by (unfold funded_accounts; by rewrite E). apply Hd.
Qed.

Lemma accounts_wf_later {T} `{MosaicStoreLaws T} h h' (d : AccountStateCacheDelta T) : h ≤ h' → accounts_wf h d → accounts_wf h' d.
Proof. intros Hle [[H1 H2 H3 H4] H5]. split; [split|]; try done. intros x a Hx. specialize (H4 x a Hx). lia. Qed.

Definition funded_sender : AccountState MosaicMap.CompactMosaicMap := default (new_AccountState [] 0) (find_key funded_accounts [1]).

Lemma funded_sender_address : a_Address funded_sender = [9; 1].
Proof. vm_compute. reflexivity. Qed.

Lemma funded_balances : balance funded_accounts [9; 1] 7 = 100 ∧ balance funded_accounts [9; 2] 7 = 0 ∧ supply funded_accounts 7 = 100.
Proof. vm_compute. done. Qed.

Lemma transfer_moves_balance_witness :
  ∃ d', BalanceTransferObserver Commit 5 [1] [9; 2] 7 40 funded_accounts = (d', Ok tt)
    ∧ balance d' [9; 1] 7 = 60 ∧ balance d' [9; 2] 7 = 40 ∧ supply d' 7 = 100.
Proof.
  destruct (transfer_moves_balance sample_address 5 funded_accounts [1] funded_sender [9; 2] 7 40) as (d' & Hrun & _ & _ & Hbal & Hsup & _);
    [done|done|apply (accounts_wf_later 1); [lia|exact funded_accounts_wf]|by vm_compute|by eexists|done|by vm_compute|by vm_compute|].
  exists d'. split; [exact Hrun|]. destruct funded_balances as (E1 & E2 & E3). rewrite !Hbal, Hsup, E1, E2, E3, funded_sender_address.
  split_and!; reflexivity.
Defined.

Lemma harvest_fee_conserves_witness :
  ∃ d' receipts, HarvestFeeObserver 7 (λ _, 10) 25 Commit 5 [1] [2] 90 funded_accounts = (d', Ok receipts)
    ∧ supply d' 7 = 200 ∧ balance d' [9; 1] 7 = 175 ∧ balance d' [9; 2] 7 = 25 ∧ fees_paid receipts = 100.
Proof.
  destruct (harvest_fee_conserves 7 (λ _, 10) 25 5 funded_accounts [1] [2] 90 [9; 1]) as (d' & rs & Hrun & _ & _ & Hsup & Hbal & Hpaid);
    [done|done|apply (accounts_wf_later 1); [lia|exact funded_accounts_wf]|lia|done|by vm_compute|by eexists|lia|lia|by vm_compute|].
  destruct funded_balances as (E1 & E2 & E3). exists d', rs. split; [exact Hrun|].
  assert (payee funded_accounts [2] = Some [9; 2]) as Ep by (by vm_compute).
  rewrite Hsup, !Hbal, Hpaid, Ep, E1, E2, E3. split_and!; reflexivity.
Defined.

End AccountStates.
