(* ===== verification/AccountRegistration.v ===== *)
(** Registration of accounts and its rollback: the account observers of the
    core plugin (plugins/coresystem/src/observers/AccountObserver.cpp) over the
    cache of AccountStates.v.  The theorem shows that the removals that a
    rollback queues, once committed, leave the accounts and the known keys as
    they were before the registrations. *)
From stdpp Require Import base tactics numbers option list gmap.
From S2P Require Import Prelude MosaicStore CompactMosaicMap AccountBalances Notifications AccountStates.

Local Open Scope Z_scope.

Module AccountRegistration.
Import Balances Notifications AccountStates.

(** What a notification names. *)
Inductive AccountId := ById_Address (address : Address) | ById_Key (publicKey : Key).

#[global] Instance AccountId_eq_dec : EqDecision AccountId.
Proof. solve_decision. Defined.

Section registration.
Context {T : Type} `{MosaicStoreLaws T}.
Context (PublicKeyToAddress : Key → Address) (CurrencyMosaicId HarvestingMosaicId : Z).
Implicit Types (d : AccountStateCacheDelta T).

(** [DefaultAccountVisitor]. *)
Definition visit (mode : NotifyMode) (height : Z) (id : AccountId) : Exec (AccountStateCacheDelta T) unit :=
  match id with
  | ById_Address address => AccountAddressObserver CurrencyMosaicId HarvestingMosaicId mode height address
  | ById_Key publicKey => AccountPublicKeyObserver PublicKeyToAddress CurrencyMosaicId HarvestingMosaicId mode height publicKey
  end.

Definition registered d (id : AccountId) : Prop :=
  match id with ById_Address x => is_Some (find_address d x) | ById_Key k => is_Some (find_key d k) end.

(** The two maps agree: the keys of the accounts are the keys that are known. *)
Record keys_wf d : Prop := {
  kwf_address x a : m_stateByAddress d !! x = Some a → a_Address a = x;
  kwf_known x a : m_stateByAddress d !! x = Some a → a_PublicKeyHeight a ≠ 0 → m_keyToAddress d !! a_PublicKey a = Some x;
  kwf_unknown x a : m_stateByAddress d !! x = Some a → a_PublicKeyHeight a = 0 → a_PublicKey a = zero_key;
  kwf_state k x : m_keyToAddress d !! k = Some x → ∃ a, m_stateByAddress d !! x = Some a ∧ a_PublicKey a = k ∧ a_PublicKeyHeight a ≠ 0;
  kwf_derived k x : m_keyToAddress d !! k = Some x → x = PublicKeyToAddress k;
}.

Context (height : Z) (Hheight : height ≠ 0).

(** All accounts and keys are older than the block. *)
Definition older d : Prop := ∀ x a, m_stateByAddress d !! x = Some a → a_AddressHeight a < height ∧ a_PublicKeyHeight a < height.

Context (ids : list AccountId) (d0 : AccountStateCacheDelta T) (Hkeys : keys_wf d0) (Holder : older d0).
(** No two of the keys have the same address. *)
Context (Hcollision : ∀ k1 k2, ById_Key k1 ∈ ids ∨ is_Some (m_keyToAddress d0 !! k1) → ById_Key k2 ∈ ids ∨ is_Some (m_keyToAddress d0 !! k2) →
                        PublicKeyToAddress k1 = PublicKeyToAddress k2 → k1 = k2).

(** A key that was registered for the account at an address. *)
Definition fresh_key d (k : Key) (x : Address) : Prop :=
  ById_Key k ∈ ids ∧ m_keyToAddress d0 !! k = None ∧ m_keyToAddress d !! k = Some x.

(** What registrations and removals at the height make of the delta. *)
Record between d : Prop := {
  bt_old x a : m_stateByAddress d0 !! x = Some a →
    m_stateByAddress d !! x = Some a
    ∨ a_PublicKeyHeight a = 0 ∧ ∃ k, fresh_key d k x ∧ m_stateByAddress d !! x = Some (set_PublicKey k height a);
  bt_new x a : m_stateByAddress d0 !! x = None → m_stateByAddress d !! x = Some a →
    a_Address a = x ∧ a_AddressHeight a = height
    ∧ (a_PublicKeyHeight a = 0 ∧ a_PublicKey a = zero_key ∧ ById_Address x ∈ ids ∨ a_PublicKeyHeight a = height ∧ fresh_key d (a_PublicKey a) x);
  bt_keys k x : m_keyToAddress d0 !! k = Some x → m_keyToAddress d !! k = Some x;
  bt_newkey k x : m_keyToAddress d0 !! k = None → m_keyToAddress d !! k = Some x →
    ById_Key k ∈ ids ∧ x = PublicKeyToAddress k
    ∧ ∃ a, m_stateByAddress d !! x = Some a ∧ a_PublicKey a = k ∧ a_PublicKeyHeight a = height;
}.

Lemma between_refl : between d0.
Proof. split; [by left|congruence|done|congruence]. Qed.

(** Key and account lead to each other, as in the beginning. *)
Lemma between_known d k x : between d → m_keyToAddress d !! k = Some x →
  x = PublicKeyToAddress k ∧ (ById_Key k ∈ ids ∨ is_Some (m_keyToAddress d0 !! k))
  ∧ ∃ a, m_stateByAddress d !! x = Some a ∧ a_PublicKey a = k ∧ a_PublicKeyHeight a ≠ 0.
Proof.
  intros Hb Hk. destruct (m_keyToAddress d0 !! k) as [y|] eqn:Hk0.
  - assert (y = x) as -> by (pose proof (bt_keys _ Hb k y Hk0); congruence). split; [by apply (kwf_derived _ Hkeys)|]. split; [right; by eexists|].
    destruct (kwf_state _ Hkeys k x Hk0) as (a & Ha & <- & Hnz). exists a. destruct (bt_old _ Hb x a Ha) as [?|[? _]]; done.
  - destruct (bt_newkey _ Hb k x Hk0 Hk) as (Hin & -> & a & Ha & Hak & Hh). split_and!; [done|by left|]. exists a. split_and!; [done|done|congruence].
Qed.

Lemma between_account d x a : between d → m_stateByAddress d !! x = Some a →
  a_Address a = x ∧ (a_PublicKeyHeight a ≠ 0 → m_keyToAddress d !! a_PublicKey a = Some x).
Proof.
  intros Hb Hx. destruct (m_stateByAddress d0 !! x) as [a0|] eqn:Hx0.
  - pose proof (kwf_address _ Hkeys x a0 Hx0). destruct (bt_old _ Hb x a0 Hx0) as [Ha|(_ & k & (_ & _ & Hk) & Ha)]; rewrite Ha in Hx; injection Hx as <-.
    + split; [done|]. intros Hnz. by apply (bt_keys _ Hb), (kwf_known _ Hkeys).
    + by split.
  - destruct (bt_new _ Hb x a Hx0 Hx) as (? & _ & [[? _]|[_ (_ & _ & ?)]]); by split.
Qed.

(** ** Registrations *)

Definition same_queues d d' : Prop :=
  m_queuedRemoveByAddress d' = m_queuedRemoveByAddress d ∧ m_queuedRemoveByPublicKey d' = m_queuedRemoveByPublicKey d.

(** Accounts and keys that are known stay. *)
Definition keeps d d' : Prop :=
  (∀ x, is_Some (m_stateByAddress d !! x) → is_Some (m_stateByAddress d' !! x))
  ∧ ∀ k x, m_keyToAddress d !! k = Some x → m_keyToAddress d' !! k = Some x.

Lemma keeps_registered d d' id : keeps d d' → registered d id → registered d' id.
Proof.
  intros [Hs Hk]. destruct id as [x|k]; cbn; [apply Hs|]. unfold find_key. destruct (m_keyToAddress d !! k) as [x|] eqn:Hx; cbn; [|by intros []].
  rewrite (Hk k x Hx). apply Hs.
Qed.

(** A new account, whose key may be known already. *)
Lemma between_insert_new d x a :
  between d → m_stateByAddress d !! x = None → a_Address a = x → a_AddressHeight a = height → a_PublicKeyHeight a = 0 →
  a_PublicKey a = zero_key → ById_Address x ∈ ids →
  between (set_states (<[x := a]> (m_stateByAddress d)) d).
Proof.
  intros Hb Hx Hax Hah Hak Haz Hin. split; cbn.
  - intros y c Hy. destruct (decide (y = x)) as [->|]; [|rewrite lookup_insert_ne by done; by apply Hb].
    exfalso. destruct (bt_old _ Hb x c Hy) as [?|(_ & k & _ & ?)]; congruence.
  - intros y c Hy [[<- <-]|[_ Hc]]%lookup_insert_Some; [split_and!; by auto|]. by apply Hb.
  - apply Hb.
  - intros k y Hk0 Hk. destruct (bt_newkey _ Hb k y Hk0 Hk) as (? & ? & c & Hc & ?). split_and!; [done..|].
    exists c. rewrite lookup_insert_ne by congruence. done.
Qed.

(** An account whose key becomes known. *)
Lemma between_announce d k x a :
  between d → m_keyToAddress d !! k = None → x = PublicKeyToAddress k → ById_Key k ∈ ids →
  (m_stateByAddress d !! x = Some a ∨ m_stateByAddress d !! x = None ∧ a_Address a = x ∧ a_AddressHeight a = height) →
  a_PublicKeyHeight a = 0 →
  between (set_states (<[x := set_PublicKey k height a]> (m_stateByAddress d)) (set_keys (<[k := x]> (m_keyToAddress d)) d)).
Proof.
  intros Hb Hk Hx Hin Ha Hz.
  assert (m_keyToAddress d0 !! k = None) as Hk0.
  { destruct (m_keyToAddress d0 !! k) as [y|] eqn:Hy; [|done]. pose proof (bt_keys _ Hb k y Hy). congruence. }
  assert (∀ k' y, m_keyToAddress d !! k' = Some y → <[k := x]> (m_keyToAddress d) !! k' = Some y) as Hstay.
  { intros k' y Hk'. rewrite lookup_insert_ne by congruence. done. }
  assert (∀ k' y, fresh_key d k' y → ById_Key k' ∈ ids ∧ m_keyToAddress d0 !! k' = None ∧ <[k := x]> (m_keyToAddress d) !! k' = Some y) as Hfresh.
  { intros k' y (? & ? & ?). auto. }
  split; unfold fresh_key; cbn.
  - intros y c Hy. destruct (decide (y = x)) as [->|].
    + right. rewrite lookup_insert_eq. destruct (bt_old _ Hb x c Hy) as [Hc|(_ & k' & _ & Hc)].
      * destruct Ha as [Ha|[Ha _]]; [|congruence]. assert (c = a) as -> by congruence. split; [done|]. exists k. rewrite lookup_insert_eq. done.
      * destruct Ha as [Ha|[Ha _]]; [|congruence]. exfalso. assert (a = set_PublicKey k' height c) as -> by congruence. done.
    + rewrite lookup_insert_ne by done. destruct (bt_old _ Hb y c Hy) as [?|(? & k' & Hk' & ?)]; [by left|]. right. split; [done|]. exists k'. auto.
  - intros y c Hy [[<- <-]|[_ Hc]]%lookup_insert_Some.
    + assert (a_Address a = x ∧ a_AddressHeight a = height) as [? ?] by (destruct Ha as [Ha|(_ & ? & ?)]; [by destruct (bt_new _ Hb x a Hy Ha) as (? & ? & _)|done]).
      split_and!; [done|done|]. right. cbn. by rewrite lookup_insert_eq.
    + destruct (bt_new _ Hb y c Hy Hc) as (? & ? & [?|[? ?]]); split_and!; auto.
  - intros k' y Hk'. by apply Hstay, Hb.
  - intros k' y Hk'0 [[<- <-]|[Hne Hk']]%lookup_insert_Some; [split_and!; [done..|]; eexists; rewrite lookup_insert_eq; done|].
    destruct (bt_newkey _ Hb k' y Hk'0 Hk') as (? & ? & c & Hc & Hck & Hch). split_and!; [done..|]. exists c.
    rewrite lookup_insert_ne; [done|]. intros <-. destruct Ha as [Ha|[Ha _]]; [|congruence]. assert (c = a) as -> by congruence. congruence.
Qed.

Lemma register_address d x :
  between d → ById_Address x ∈ ids →
  ∃ d', visit Commit height (ById_Address x) d = (d', Ok tt) ∧ between d' ∧ registered d' (ById_Address x) ∧ keeps d d' ∧ same_queues d d'.
Proof.
  intros Hb Hin. cbn. destruct (m_stateByAddress d !! x) as [a|] eqn:Hx.
  { exists d. unfold addAccount_address, find_address. rewrite Hx. split_and!; [done|done|by eexists|by split|done]. }
  destruct (addAccount_address_new CurrencyMosaicId HarvestingMosaicId d x height Hx) as (b & -> & _). eexists. split; [done|].
  split_and!; [by apply between_insert_new|eexists; apply lookup_insert_eq|split; [|done]|done]. intros y Hy. cbn.
  destruct (decide (y = x)) as [->|]; [eexists; apply lookup_insert_eq|by rewrite lookup_insert_ne].
Qed.

Lemma register_key d k :
  between d → ById_Key k ∈ ids →
  ∃ d', visit Commit height (ById_Key k) d = (d', Ok tt) ∧ between d' ∧ registered d' (ById_Key k) ∧ keeps d d' ∧ same_queues d d'.
Proof.
  intros Hb Hin. cbn. unfold addAccount_key, getAddress. destruct (m_keyToAddress d !! k) as [x|] eqn:Hk.
  { destruct (between_known d k x Hb Hk) as (_ & _ & a & Hx & _ & Hnz). exists d. cbv beta iota zeta. unfold addAccount_address, find_address. rewrite Hx.
    cbv beta iota. rewrite Hx. apply Z.eqb_neq in Hnz as ->. split_and!; [done|done|cbn; unfold find_key; rewrite Hk; by eexists|by split|done]. }
  set (x := PublicKeyToAddress k). unfold emplace_key. rewrite Hk. set (d1 := set_keys _ d).
  assert (∃ a d2, addAccount_address CurrencyMosaicId HarvestingMosaicId x height d1 = (d2, Ok tt) ∧ m_stateByAddress d2 !! x = Some a
    ∧ (m_stateByAddress d !! x = Some a ∨ m_stateByAddress d !! x = None ∧ a_Address a = x ∧ a_AddressHeight a = height)
    ∧ a_PublicKeyHeight a = 0 ∧ ∀ c, set_states (<[x := c]> (m_stateByAddress d2)) d2 = set_states (<[x := c]> (m_stateByAddress d)) d1)
    as (a & d2 & -> & Hx2 & Hor & Hz & Hset).
  { destruct (m_stateByAddress d !! x) as [a|] eqn:Hx.
    - exists a, d1. unfold addAccount_address, find_address. replace (m_stateByAddress d1 !! x) with (Some a). split_and!; [done|done|by left| |done].
      destruct (decide (a_PublicKeyHeight a = 0)) as [|Hnz]; [done|]. exfalso. destruct (between_account d x a Hb Hx) as [_ Ha]. specialize (Ha Hnz).
      destruct (between_known d _ x Hb Ha) as (Hpx & Hknown & _). assert (a_PublicKey a = k); [|congruence].
      apply Hcollision; [done|by left|done].
    - destruct (addAccount_address_new CurrencyMosaicId HarvestingMosaicId d1 x height Hx) as (b & -> & _). eexists _, _.
      split; [done|]. cbn. rewrite lookup_insert_eq. split_and!; [done|by right|done|]. intros c. unfold set_states at 1. cbn. by rewrite insert_insert_eq. }
  unfold find_address. rewrite Hx2, Hz. cbn [Z.eqb negb]. rewrite Hset. eexists. split; [done|]. split_and!.
  - by apply between_announce.
  - cbn. unfold find_key. cbn. rewrite lookup_insert_eq. cbn. rewrite lookup_insert_eq. by eexists.
  - split; cbn.
    + intros y Hy. destruct (decide (y = x)) as [->|]; [eexists; apply lookup_insert_eq|by rewrite lookup_insert_ne].
    + intros k' y Hk'. rewrite lookup_insert_ne by congruence. done.
  - done.
Qed.

(** ** Removals *)

(** Nothing is added. *)
Definition shrinks d d' : Prop :=
  (∀ x, is_Some (m_stateByAddress d' !! x) → is_Some (m_stateByAddress d !! x))
  ∧ ∀ k, is_Some (m_keyToAddress d' !! k) → is_Some (m_keyToAddress d !! k).

Lemma shrinks_delete d x ks :
  (∀ k, is_Some (ks !! k) → is_Some (m_keyToAddress d !! k)) → shrinks d (set_states (delete x (m_stateByAddress d)) (set_keys ks d)).
Proof. intros Hks. split; cbn; [|done]. intros y [c [_ Hc]%lookup_delete_Some]. by eexists. Qed.

(** The account at a new address goes, and its key if it has one. *)
Lemma between_delete_new d x a ks :
  between d → m_stateByAddress d0 !! x = None → m_stateByAddress d !! x = Some a →
  ks = (if negb (a_PublicKeyHeight a =? 0) then delete (a_PublicKey a) (m_keyToAddress d) else m_keyToAddress d) →
  between (set_states (delete x (m_stateByAddress d)) (set_keys ks d)).
Proof.
  intros Hb Hx0 Hx Hks. destruct (bt_new _ Hb x a Hx0 Hx) as (_ & _ & Hka).
  assert (∀ k y, m_keyToAddress d !! k = Some y → y ≠ x → ks !! k = Some y) as Hstay.
  { intros k y Hk Hne. rewrite Hks. destruct Hka as [[-> _]|[Hh (_ & _ & Hka)]]; [done|]. rewrite Hh. apply Z.eqb_neq in Hheight as ->. cbn.
    rewrite lookup_delete_ne; [done|]. congruence. }
  assert (∀ k y, ks !! k = Some y → m_keyToAddress d !! k = Some y) as Hold.
  { intros k y. rewrite Hks. destruct (negb _); [|done]. intros [_ ?]%lookup_delete_Some. done. }
  split; unfold fresh_key; cbn.
  - intros y c Hy. assert (y ≠ x) by congruence. rewrite lookup_delete_ne by done.
    destruct (bt_old _ Hb y c Hy) as [?|(? & k & (? & ? & ?) & ?)]; [by left|]. right. split; [done|]. exists k. split_and!; auto.
  - intros y c Hy [Hne Hc]%lookup_delete_Some. destruct (bt_new _ Hb y c Hy Hc) as (? & ? & [?|[? (? & ? & ?)]]); split_and!; auto. right. split_and!; auto.
  - intros k y Hk. apply Hstay; [by apply Hb|]. destruct (kwf_state _ Hkeys k y Hk) as (c & Hc & _). congruence.
  - intros k y Hk0 Hk. destruct (bt_newkey _ Hb k y Hk0 (Hold k y Hk)) as (? & ? & c & Hc & Hck & Hch). split_and!; [done..|]. exists c.
    rewrite lookup_delete_ne; [done|]. intros <-. assert (c = a) as -> by congruence. rewrite Hks, Hch in Hk.
    apply Z.eqb_neq in Hheight as Hh. rewrite Hh in Hk. cbn in Hk. by rewrite Hck, lookup_delete_eq in Hk.
Qed.

(** An account that was there before loses the key that it was given. *)
Lemma between_reset d k x a :
  between d → m_stateByAddress d0 !! x = Some a → fresh_key d k x → m_stateByAddress d !! x = Some (set_PublicKey k height a) →
  between (set_states (<[x := a]> (m_stateByAddress d)) (set_keys (delete k (m_keyToAddress d)) d)).
Proof.
  intros Hb Hx0 (Hin & Hk0 & Hk) Hx.
  assert (∀ k' y, m_keyToAddress d !! k' = Some y → y ≠ x → delete k (m_keyToAddress d) !! k' = Some y) as Hstay.
  { intros k' y Hk' Hne. rewrite lookup_delete_ne; [done|]. congruence. }
  split; unfold fresh_key; cbn.
  - intros y c Hy. destruct (decide (y = x)) as [->|]; [left; rewrite lookup_insert_eq; congruence|]. rewrite lookup_insert_ne by done.
    destruct (bt_old _ Hb y c Hy) as [?|(? & k' & (? & ? & ?) & ?)]; [by left|]. right. split; [done|]. exists k'. split_and!; auto.
  - intros y c Hy [[<- _]|[Hne Hc]]%lookup_insert_Some; [congruence|].
    destruct (bt_new _ Hb y c Hy Hc) as (? & ? & [?|[? (? & ? & ?)]]); split_and!; auto. right. split_and!; auto.
  - intros k' y Hk'. rewrite lookup_delete_ne by congruence. by apply Hb.
  - intros k' y Hk'0 [Hne Hk']%lookup_delete_Some. destruct (bt_newkey _ Hb k' y Hk'0 Hk') as (? & ? & c & Hc & Hck & Hch). split_and!; [done..|].
    exists c. rewrite lookup_insert_ne; [done|]. intros <-. assert (c = set_PublicKey k height a) as -> by congruence. done.
Qed.

Lemma set_keys_same d m : set_states m (set_keys (m_keyToAddress d) d) = set_states m d.
Proof. by destruct d. Qed.

Lemma remove_address_between d x :
  between d → let d' := remove_address x height d in
  between d' ∧ shrinks d d' ∧ (m_stateByAddress d0 !! x = None → m_stateByAddress d' !! x = None).
Proof.
  intros Hb. unfold remove_address, find_address. destruct (m_stateByAddress d !! x) as [a|] eqn:Hx; [|by split_and!].
  destruct (m_stateByAddress d0 !! x) as [a0|] eqn:Hx0.
  - destruct (Holder x a0 Hx0) as [Hlt _]. assert (a_AddressHeight a = a_AddressHeight a0) as Ea.
    { destruct (bt_old _ Hb x a0 Hx0) as [?|(_ & k & _ & ?)]; [congruence|]. assert (a = set_PublicKey k height a0) as -> by congruence. done. }
    destruct (Z.eqb_spec height (a_AddressHeight a)); [lia|]. by split_and!.
  - destruct (bt_new _ Hb x a Hx0 Hx) as (_ & -> & _). rewrite Z.eqb_refl. cbn [negb].
    set (ks := if negb (a_PublicKeyHeight a =? 0) then delete (a_PublicKey a) (m_keyToAddress d) else m_keyToAddress d).
    assert (∀ d1, d1 = (if negb (a_PublicKeyHeight a =? 0) then set_keys (delete (a_PublicKey a) (m_keyToAddress d)) d else d) →
      set_states (delete x (m_stateByAddress d1)) d1 = set_states (delete x (m_stateByAddress d)) (set_keys ks d)) as Hd.
    { intros d1 ->. unfold ks. destruct (negb _); [done|]. by rewrite set_keys_same. }
    cbv zeta. rewrite (Hd _ eq_refl). split_and!.
    + by eapply between_delete_new.
    + apply shrinks_delete. intros k [y Hy]. unfold ks in Hy. destruct (negb _); [apply lookup_delete_Some in Hy as [_ Hy]|]; by eexists.
    + intros _. cbn. by rewrite lookup_delete_eq.
Qed.

Lemma remove_key_between d k :
  between d → let d' := remove_key k height d in
  between d' ∧ shrinks d d' ∧ (m_keyToAddress d0 !! k = None → m_keyToAddress d' !! k = None).
Proof.
  intros Hb. unfold remove_key, find_key. destruct (m_keyToAddress d !! k) as [x|] eqn:Hk; cbn [mbind option_bind]; [|by split_and!].
  destruct (between_known d k x Hb Hk) as (_ & _ & a & Hx & Hak & Hnz). rewrite Hx. destruct (m_keyToAddress d0 !! k) as [y|] eqn:Hk0.
  { assert (y = x) as -> by (pose proof (bt_keys _ Hb k y Hk0); congruence). destruct (kwf_state _ Hkeys k x Hk0) as (a0 & Hx0 & _ & Hnz0).
    destruct (bt_old _ Hb x a0 Hx0) as [?|[? _]]; [|done]. assert (a0 = a) as -> by congruence. destruct (Holder x a Hx0) as [_ Hlt].
    destruct (Z.eqb_spec height (a_PublicKeyHeight a)); [lia|]. by split_and!. }
  destruct (bt_newkey _ Hb k x Hk0 Hk) as (Hin & _ & a' & Hx' & _ & Hh). assert (a' = a) as -> by congruence. rewrite Hh, Z.eqb_refl, Hak. cbn [negb].
  rewrite (proj1 (between_account d x a Hb Hx)). cbv zeta.
  assert (∀ k', is_Some (delete k (m_keyToAddress d) !! k') → is_Some (m_keyToAddress d !! k')) as Hsub.
  { intros k' [y [_ Hy]%lookup_delete_Some]. by eexists. }
  destruct (m_stateByAddress d0 !! x) as [a0|] eqn:Hx0.
  - destruct (Holder x a0 Hx0) as [Hlt1 Hlt2]. destruct (bt_old _ Hb x a0 Hx0) as [?|(Hz & k' & Hfresh & Hx1)]; [assert (a0 = a) as -> by congruence; lia|].
    assert (a = set_PublicKey k' height a0) as -> by congruence. cbn in Hak. subst k'. cbn [a_AddressHeight set_PublicKey].
    destruct (Z.eqb_spec height (a_AddressHeight a0)); [lia|].
    assert (set_PublicKey zero_key 0 (set_PublicKey k height a0) = a0) as ->.
    { pose proof (kwf_unknown _ Hkeys x a0 Hx0 Hz) as Hz'. destruct a0. cbn in *. by subst. }
    split_and!; [by apply (between_reset d k x a0)| |cbn; by rewrite lookup_delete_eq]. split; cbn; [|done].
    intros y Hy. destruct (decide (y = x)) as [->|]; [by eexists|by rewrite lookup_insert_ne in Hy].
  - destruct (bt_new _ Hb x a Hx0 Hx) as (_ & -> & _). rewrite Z.eqb_refl.
    split_and!; [apply (between_delete_new d x a); [done..|]|by apply (shrinks_delete d x)|cbn; by rewrite lookup_delete_eq].
    rewrite Hh, Hak. by apply Z.eqb_neq in Hheight as ->.
Qed.

(** Removals, one after the other. *)
Lemma fold_removals {A} (f : A → AccountStateCacheDelta T → AccountStateCacheDelta T) (gone : A → AccountStateCacheDelta T → Prop) l d :
  (∀ a d, a ∈ l → between d → between (f a d) ∧ shrinks d (f a d) ∧ gone a (f a d)) →
  (∀ a d d', shrinks d d' → gone a d → gone a d') → between d →
  let d' := foldl (λ d a, f a d) d l in between d' ∧ shrinks d d' ∧ ∀ a, a ∈ l → gone a d'.
Proof.
  intros Hf Hgone. revert d. induction l as [|a l IH]; intros d Hb; cbn [foldl]; [split_and!; [done|by split|by intros a ?%not_elem_of_nil]|].
  destruct (Hf a d ltac:(left) Hb) as (Hb1 & [S1 K1] & G1).
  destruct (IH ltac:(intros a' e Ha'; apply Hf; by right) (f a d) Hb1) as (Hb2 & [S2 K2] & G2).
  split_and!; [done|split; auto|]. intros a' [->|Ha']%elem_of_cons; [|auto]. eapply Hgone; [|done]. by split.
Qed.

(** Nothing is left when every registration was removed. *)
Lemma between_cleared d :
  between d → (∀ x, ById_Address x ∈ ids → m_stateByAddress d0 !! x = None → m_stateByAddress d !! x = None) →
  (∀ k, ById_Key k ∈ ids → m_keyToAddress d0 !! k = None → m_keyToAddress d !! k = None) →
  m_stateByAddress d = m_stateByAddress d0 ∧ m_keyToAddress d = m_keyToAddress d0.
Proof.
  intros Hb Hx Hk. assert (∀ k x, fresh_key d k x → False) as Hfresh by (intros k x (Hin & Hk0 & Hk1); rewrite (Hk k Hin Hk0) in Hk1; done).
  split; apply map_eq; [intros x|intros k].
  - destruct (m_stateByAddress d0 !! x) as [a|] eqn:Hx0.
    + destruct (bt_old _ Hb x a Hx0) as [?|(_ & k & ? & _)]; [done|]. by destruct (Hfresh k x).
    + destruct (m_stateByAddress d !! x) as [a|] eqn:Hxd; [|done]. exfalso.
      destruct (bt_new _ Hb x a Hx0 Hxd) as (_ & _ & [(_ & _ & Hin)|[_ Hf]]); [|by eapply Hfresh]. rewrite (Hx x Hin Hx0) in Hxd. done.
  - destruct (m_keyToAddress d0 !! k) as [x|] eqn:Hk0; [by apply Hb|]. destruct (m_keyToAddress d !! k) as [x|] eqn:Hkd; [|done].
    destruct (bt_newkey _ Hb k x Hk0 Hkd) as (Hin & _). rewrite (Hk k Hin Hk0) in Hkd. done.
Qed.

(** The removals that a rollback has queued. *)
Definition queued (l : list AccountId) d d' : Prop :=
  m_stateByAddress d' = m_stateByAddress d ∧ m_keyToAddress d' = m_keyToAddress d
  ∧ (∀ p, p ∈ m_queuedRemoveByAddress d' ↔ p ∈ m_queuedRemoveByAddress d ∨ fst p = height ∧ ById_Address (snd p) ∈ l)
  ∧ ∀ p, p ∈ m_queuedRemoveByPublicKey d' ↔ p ∈ m_queuedRemoveByPublicKey d ∨ fst p = height ∧ ById_Key (snd p) ∈ l.

Lemma rollback_queues l d : ∃ d', for_each (visit Rollback height) l d = (d', Ok tt) ∧ queued l d d'.
Proof.
  clear Hcollision Holder Hkeys Hheight. revert d. induction l as [|id l IH]; intros d; [exists d; split; [done|]; unfold queued; set_solver|]. cbn [for_each].
  assert (∃ d1, visit Rollback height id d = (d1, Ok tt) ∧ queued [id] d d1) as (d1 & H1 & Q1).
  { destruct id as [x|k]; eexists; (split; [done|]); unfold queued; cbn; split_and!; try done; intros [h y]; cbn; set_solver. }
  rewrite (run_bind _ _ _ _ _ H1). destruct (IH d1) as (d2 & -> & Q2). exists d2. split; [done|].
  destruct Q1 as (S1 & K1 & A1 & P1), Q2 as (S2 & K2 & A2 & P2). split_and!; [congruence|congruence|..].
  - intros p. rewrite A2, A1, elem_of_cons. set_solver.
  - intros p. rewrite P2, P1, elem_of_cons. set_solver.
Qed.

Lemma commitRemovals_clears d d1 ids' :
  between d → m_queuedRemoveByAddress d = ∅ → m_queuedRemoveByPublicKey d = ∅ → (∀ id, id ∈ ids' ↔ id ∈ ids) → queued ids' d d1 →
  commitRemovals d1 = set_queues ∅ ∅ d0.
Proof.
  intros Hb Ha Hk Hids (HS & HK & HA & HP).
  assert (between d1) as Hb1 by (destruct Hb as [B1 B2 B3 B4]; split; unfold fresh_key; rewrite ?HS, ?HK; done).
  unfold commitRemovals. set (qa := elements (m_queuedRemoveByAddress d1)). set (qk := elements (m_queuedRemoveByPublicKey d1)).
  destruct (fold_removals (λ p d, remove_address (snd p) (fst p) d) (λ p d, m_stateByAddress d0 !! snd p = None → m_stateByAddress d !! snd p = None) qa d1)
    as (Hb2 & _ & G2); [| |done|].
  { intros [h x] e [Hin|[-> Hin]]%elem_of_elements%HA He; [set_solver|]. by apply remove_address_between. }
  { intros [h x] e e' [S _] G Hn. specialize (G Hn). cbn in *. destruct (m_stateByAddress e' !! x) as [c|] eqn:Hc; [|done].
    destruct (S x) as [? ?]; [by eexists|congruence]. }
  set (d2 := foldl _ d1 qa) in *.
  destruct (fold_removals (λ p d, remove_key (snd p) (fst p) d) (λ p d, m_keyToAddress d0 !! snd p = None → m_keyToAddress d !! snd p = None) qk d2)
    as (Hb3 & [S3 _] & G3); [| |done|].
  { intros [h k] e [Hin|[-> Hin]]%elem_of_elements%HP He; [set_solver|]. by apply remove_key_between. }
  { intros [h k] e e' [_ K] G Hn. specialize (G Hn). cbn in *. destruct (m_keyToAddress e' !! k) as [c|] eqn:Hc; [|done].
    destruct (K k) as [? ?]; [by eexists|congruence]. }
  set (d3 := foldl _ d2 qk) in *. destruct (between_cleared d3 Hb3) as [E1 E2].
  - intros x Hin Hx0. destruct (m_stateByAddress d3 !! x) as [c|] eqn:Hc; [|done]. destruct (S3 x) as [e He]; [by eexists|].
    assert ((height, x) ∈ qa) as Hq by (apply elem_of_elements, HA; right; by rewrite Hids). pose proof (G2 _ Hq Hx0) as Hnone. cbn in Hnone. congruence.
  - intros k Hin. apply (G3 (height, k)). apply elem_of_elements, HP. right. by rewrite Hids.
  - unfold set_queues. cbn. by rewrite E1, E2.
Qed.

Lemma register_all l d :
  between d → (∀ id, id ∈ l → id ∈ ids) →
  ∃ d', for_each (visit Commit height) l d = (d', Ok tt) ∧ between d' ∧ (∀ id, id ∈ l → registered d' id) ∧ keeps d d' ∧ same_queues d d'.
Proof.
  revert d. induction l as [|id l IH]; intros d Hb Hl; [exists d; split_and!; [done|done|by intros id ?%not_elem_of_nil|by split|done]|]. cbn [for_each].
  assert (∃ d1, visit Commit height id d = (d1, Ok tt) ∧ between d1 ∧ registered d1 id ∧ keeps d d1 ∧ same_queues d d1) as (d1 & H1 & Hb1 & R1 & [S1 K1] & [A1 P1]).
  { destruct id; [apply register_address|apply register_key]; auto; apply Hl; by left. }
  rewrite (run_bind _ _ _ _ _ H1). destruct (IH d1 Hb1) as (d2 & H2 & Hb2 & R2 & [S2 K2] & [A2 P2]); [intros id' ?; apply Hl; by right|]. exists d2.
  split_and!; [done|done| |split; auto|split; congruence]. intros id' [->|Hin]%elem_of_cons; [|auto]. eapply keeps_registered; [|done]. by split.
Qed.

End registration.

(** C31. Rolling back registrations restores the cache.  Accounts and keys are
    registered in a block, in any order and any number of times; each of them can
    be found afterwards.  When the block is rolled back, the removals that the
    observers queue, in whatever order, and that are then committed, leave the
    accounts, their keys and the lookup by keys exactly as they were: accounts
    that existed keep their balances and lose only keys that the block gave them. *)
Theorem rollback_unregisters {T} `{MosaicStoreLaws T} PublicKeyToAddress CurrencyMosaicId HarvestingMosaicId height
    (d : AccountStateCacheDelta T) ids ids' :
  let visit := visit PublicKeyToAddress CurrencyMosaicId HarvestingMosaicId in
  height ≠ 0 → keys_wf PublicKeyToAddress d → older height d → m_queuedRemoveByAddress d = ∅ → m_queuedRemoveByPublicKey d = ∅ →
  (∀ k1 k2, ById_Key k1 ∈ ids ∨ is_Some (m_keyToAddress d !! k1) → ById_Key k2 ∈ ids ∨ is_Some (m_keyToAddress d !! k2) →
     PublicKeyToAddress k1 = PublicKeyToAddress k2 → k1 = k2) →
  (∀ id, id ∈ ids' ↔ id ∈ ids) →
  ∃ d1 d2, for_each (visit Commit height) ids d = (d1, Ok tt) ∧ (∀ id, id ∈ ids → registered d1 id)
    ∧ for_each (visit Rollback height) ids' d1 = (d2, Ok tt) ∧ commitRemovals d2 = d.
Proof.
  intros visit Hh Hkeys Hold Ha Hk Hcol Hids.
  destruct (register_all PublicKeyToAddress CurrencyMosaicId HarvestingMosaicId height Hh ids d Hkeys Hcol ids d) as (d1 & H1 & Hb & R & _ & [A1 P1]);
    [apply between_refl|done|].
  destruct (rollback_queues PublicKeyToAddress CurrencyMosaicId HarvestingMosaicId height ids' d1) as (d2 & H2 & Q).
  exists d1, d2. split_and!; [done|done|done|].
  rewrite (commitRemovals_clears PublicKeyToAddress height Hh ids d Hkeys Hold Hcol d1 d2 ids') by (done || congruence).
  destruct d. cbn in *. by subst.
Qed.

(** * Example *)

(** One account, known by its address since height 3. *)
Definition known_by_address : AccountStateCacheDelta MosaicMap.CompactMosaicMap :=
  {| m_stateByAddress := {[ [9; 1] := new_AccountState [9; 1] 3 ]}; m_keyToAddress := ∅;
     m_queuedRemoveByAddress := ∅; m_queuedRemoveByPublicKey := ∅ |}.

(** Its key becomes known, a second account is registered by its address and
    then its key, a third by its key. *)
Definition sample_ids : list AccountId := [ById_Key [1]; ById_Address [9; 2]; ById_Key [2]; ById_Key [3]].

Lemma rollback_unregisters_witness :
  ∃ d1 d2, for_each (visit sample_address 7 8 Commit 5) sample_ids known_by_address = (d1, Ok tt)
    ∧ (∀ id, id ∈ sample_ids → registered d1 id)
    ∧ for_each (visit sample_address 7 8 Rollback 5) (reverse sample_ids) d1 = (d2, Ok tt) ∧ commitRemovals d2 = known_by_address.
Proof.
  apply (rollback_unregisters sample_address 7 8 5 known_by_address sample_ids (reverse sample_ids)).
  - done.
  - split; cbn; intros x a; try (by rewrite lookup_empty); by intros [<- <-]%lookup_singleton_Some.
  - intros x a. cbn. intros [<- <-]%lookup_singleton_Some. cbn. lia.
  - done.
  - done.
  - by intros k1 k2 _ _ [=].
  - intros id. by rewrite elem_of_reverse.
Defined.

End AccountRegistration.
