(* ===== verification/NamespaceState.v ===== *)
(** Model of the state of the namespace plugin
    (plugins/txes/namespace/src/state): [NamespaceLifetime], [NamespaceAlias],
    [Namespace] paths, [RootNamespace] and [RootNamespaceHistory].

    The registrations of one root namespace by the same owner share one table
    of children through a [std::shared_ptr].  The sharing is explicit: a
    history owns a store of tables ([m_store]), a root namespace holds the
    index of its table ([m_pChildren]), and adding a child to the last
    registration changes every registration that holds the same index.  The
    file shows that the sharing follows the runs of equal owners, which makes
    [activeOwnerHistoryDepth] the number of registrations a change of the
    children is visible in, and that the copy constructor rebuilds it. *)
From stdpp Require Import base tactics numbers option list sorting gmap.
From S2P Require Import Prelude.

Local Open Scope Z_scope.

Module Namespaces.

(** * Namespaces *)

Abbreviation NamespaceId := Z (only parsing).
Abbreviation Height := Z (only parsing).
Abbreviation Key := (list Z) (only parsing).
Abbreviation Path := (list Z) (only parsing).

Definition Namespace_Max_Depth : nat := 3.
Definition Namespace_Base_Id : NamespaceId := 0.

(** [CheckedArray::push_back]. *)
Definition push_id (path : Path) (id : NamespaceId) : result Path :=
  if decide (Namespace_Max_Depth ≤ length path)%nat then Throw out_of_range else Ok (path ++ [id]).

(** [Namespace::Namespace]; a namespace is its path. *)
Definition new_Namespace (path : Path) : result Path :=
  if decide (path = []) then Throw out_of_range else Ok path.

Definition ns_id (path : Path) : NamespaceId := default 0 (path !! (length path - 1)%nat).
Definition parentId (path : Path) : NamespaceId :=
  if decide (length path = 1%nat) then Namespace_Base_Id else default 0 (path !! (length path - 2)%nat).
Definition rootId (path : Path) : NamespaceId := default 0 (path !! 0%nat).
Definition isRoot (path : Path) : bool := bool_decide (length path = 1%nat).

Definition createChild (path : Path) (id : NamespaceId) : result Path :=
  if decide (Namespace_Max_Depth = length path) then Throw out_of_range
  else childPath ← push_id path id; new_Namespace childPath.

(** * Lifetimes *)

Record NamespaceLifetime := {
  Start : Height;
  End : Height;
  GracePeriodEnd : Height
}.

#[global] Instance NamespaceLifetime_eq_dec : EqDecision NamespaceLifetime.
Proof. solve_decision. Defined.

Definition new_NamespaceLifetime (start end_ : Height) (gracePeriodDuration : Z) : result NamespaceLifetime :=
  let graceEnd := if decide (end_ = max64) then end_ else add64 end_ gracePeriodDuration in
  if end_ <=? start then Throw invalid_argument
  else if graceEnd <? end_ then Throw invalid_argument
  else Ok {| Start := start; End := end_; GracePeriodEnd := graceEnd |}.

Definition isActiveAndUnlocked (l : NamespaceLifetime) (height : Height) : bool :=
  (Start l <=? height) && (height <? End l).

Definition isActiveOrGracePeriod (l : NamespaceLifetime) (height : Height) : bool :=
  (Start l <=? height) && (height <? GracePeriodEnd l).

(** * Aliases *)

Inductive AliasType : Type := Alias_None | Alias_Mosaic | Alias_Address.

#[global] Instance AliasType_eq_dec : EqDecision AliasType.
Proof. solve_decision. Defined.

(** The tagged union of [NamespaceAlias]. *)
Inductive NamespaceAlias : Type :=
| UnsetAlias
| MosaicAlias (mosaicId : Z)
| AddressAlias (address : list Z).

#[global] Instance NamespaceAlias_eq_dec : EqDecision NamespaceAlias.
Proof. solve_decision. Defined.

Definition alias_type (a : NamespaceAlias) : AliasType :=
  match a with UnsetAlias => Alias_None | MosaicAlias _ => Alias_Mosaic | AddressAlias _ => Alias_Address end.

Definition alias_mosaicId (a : NamespaceAlias) : result Z :=
  match a with MosaicAlias m => Ok m | _ => Throw runtime_error end.

Definition alias_address (a : NamespaceAlias) : result (list Z) :=
  match a with AddressAlias x => Ok x | _ => Throw runtime_error end.

(** * Root namespaces *)

Record ChildNamespaceData := { child_path : Path; child_alias : NamespaceAlias }.

Abbreviation Children := (gmap Z ChildNamespaceData).

(** The tables of children that are alive. *)
Abbreviation Store := (list (gmap Z ChildNamespaceData)).

Record RootNamespace := {
  m_id : NamespaceId;
  m_alias : NamespaceAlias;
  m_owner : Key;
  m_lifetime : NamespaceLifetime;
  m_pChildren : nat
}.

Definition children (σ : Store) (r : RootNamespace) : Children := default ∅ (σ !! m_pChildren r).
Definition root_size (σ : Store) (r : RootNamespace) : Z := Z.of_nat (size (children σ r)).
Definition root_empty (σ : Store) (r : RootNamespace) : bool := bool_decide (children σ r = ∅).

(** [RootNamespace::child]. *)
Definition child (σ : Store) (r : RootNamespace) (id : NamespaceId) : result Path :=
  match children σ r !! id with
  | None => Throw invalid_argument
  | Some data => new_Namespace (child_path data)
  end.

(** [RootNamespace::alias]. *)
Definition alias (σ : Store) (r : RootNamespace) (id : NamespaceId) : result NamespaceAlias :=
  if decide (m_id r = id) then Ok (m_alias r)
  else match children σ r !! id with
       | None => Throw invalid_argument
       | Some data => Ok (child_alias data)
       end.

(** Writes through the shared pointer. *)
Definition update_children (f : Children → Children) (r : RootNamespace) (σ : Store) : Store :=
  alter f (m_pChildren r) σ.

Definition add (ns : Path) (r : RootNamespace) (σ : Store) : result Store :=
  let pChildren := children σ r in
  let insert_child := Ok (update_children <[ns_id ns := {| child_path := ns; child_alias := UnsetAlias |}]> r σ) in
  if decide (is_Some (pChildren !! ns_id ns)) then Throw invalid_argument
  else if decide (m_id r = parentId ns) then
    if decide (m_id r = rootId ns) then insert_child else Throw invalid_argument
  else match pChildren !! parentId ns with
       | None => Throw invalid_argument
       | Some parent =>
           if decide (length (child_path parent) ≠ length ns - 1)%nat then Throw invalid_argument
           else if decide (m_id r = rootId ns) then insert_child else Throw invalid_argument
       end.

(** The path runs through [id], which sits at [level]. *)
Definition descends (level : nat) (id : NamespaceId) (data : ChildNamespaceData) : bool :=
  bool_decide (level < length (child_path data))%nat
  && bool_decide (child_path data !! (level - 1)%nat = Some id).

Definition hasDescendents (level : nat) (id : NamespaceId) (pChildren : Children) : bool :=
  existsb (λ pair, descends level id (snd pair)) (map_to_list pChildren).

Definition remove (id : NamespaceId) (r : RootNamespace) (σ : Store) : result Store :=
  match children σ r !! id with
  | None => Throw invalid_argument
  | Some data =>
      if hasDescendents (length (child_path data)) id (children σ r) then Throw invalid_argument
      else Ok (update_children (delete id) r σ)
  end.

Definition with_alias (a : NamespaceAlias) (r : RootNamespace) : RootNamespace :=
  {| m_id := m_id r; m_alias := a; m_owner := m_owner r; m_lifetime := m_lifetime r; m_pChildren := m_pChildren r |}.

Definition set_child_alias (a : NamespaceAlias) (data : ChildNamespaceData) : ChildNamespaceData :=
  {| child_path := child_path data; child_alias := a |}.

Definition setAlias (id : NamespaceId) (a : NamespaceAlias) (r : RootNamespace) (σ : Store)
    : result (RootNamespace * Store) :=
  if decide (m_id r = id) then Ok (with_alias a r, σ)
  else match children σ r !! id with
       | None => Throw invalid_argument
       | Some _ => Ok (r, update_children (alter (set_child_alias a) id) r σ)
       end.

(** The constructor with a table of children of its own. *)
Definition new_RootNamespace (id : NamespaceId) (owner : Key) (l : NamespaceLifetime) (pChildren : nat) : RootNamespace :=
  {| m_id := id; m_alias := UnsetAlias; m_owner := owner; m_lifetime := l; m_pChildren := pChildren |}.

(** [RootNamespace::renew]: the new registration holds the same pointer. *)
Definition renew (newLifetime : NamespaceLifetime) (setAliasOnRenew : bool) (r : RootNamespace) : RootNamespace :=
  let rn := new_RootNamespace (m_id r) (m_owner r) newLifetime (m_pChildren r) in
  if setAliasOnRenew then with_alias (m_alias r) rn else rn.

(** [RootNamespace::operator==]. *)
Definition root_eqb (lhs rhs : RootNamespace) : bool :=
  bool_decide (m_id lhs = m_id rhs) && bool_decide (m_owner lhs = m_owner rhs).

(** * Histories *)

Record RootNamespaceHistory := {
  m_historyId : NamespaceId;
  m_rootHistory : list RootNamespace;
  m_store : Store
}.

Definition new_RootNamespaceHistory (id : NamespaceId) : RootNamespaceHistory :=
  {| m_historyId := id; m_rootHistory := []; m_store := [] |}.

(** The loop shared by the copy constructor and the assignment operator:
    [pChildren] is null until the first owner that differs from [owner]. *)
Fixpoint copy_roots (roots : list RootNamespace) (from : Store) (owner : Key) (pChildren : option nat)
    (σ : Store) : result (list RootNamespace * Store) :=
  match roots with
  | [] => Ok ([], σ)
  | root :: roots =>
      let '(pChildren, σ) :=
        if decide (owner ≠ m_owner root) then (Some (length σ), σ ++ [children from root])
        else (pChildren, σ) in
      match pChildren with
      | None => Throw undefined_behaviour
      | Some p =>
          let copied := with_alias (m_alias root) (new_RootNamespace (m_id root) (m_owner root) (m_lifetime root) p) in
          '(rest, σ) ← copy_roots roots from (m_owner root) (Some p) σ;
          Ok (copied :: rest, σ)
      end
  end.

(** [Key()]. *)
Definition zero_key : Key := replicate 32 0.

Definition copy_RootNamespaceHistory (history : RootNamespaceHistory) : result RootNamespaceHistory :=
  '(roots, σ) ← copy_roots (m_rootHistory history) (m_store history) zero_key None [];
  Ok {| m_historyId := m_historyId history; m_rootHistory := roots; m_store := σ |}.

(** [RootNamespaceHistory::operator=]. *)
Definition assign (self history : RootNamespaceHistory) : result RootNamespaceHistory :=
  '(roots, σ) ← copy_roots (m_rootHistory history) (m_store history) zero_key None (m_store self);
  Ok {| m_historyId := m_historyId history; m_rootHistory := m_rootHistory self ++ roots; m_store := σ |}.

Definition history_empty (h : RootNamespaceHistory) : bool := bool_decide (m_rootHistory h = []).
Definition historyDepth (h : RootNamespaceHistory) : Z := Z.of_nat (length (m_rootHistory h)).
Definition back (h : RootNamespaceHistory) : option RootNamespace := last (m_rootHistory h).

(** Counts the leading registrations of [activeOwner], last registration first. *)
Fixpoint owner_run (activeOwner : Key) (reversed : list RootNamespace) : nat :=
  match reversed with
  | [] => 0
  | r :: rest => if decide (activeOwner ≠ m_owner r) then 0 else S (owner_run activeOwner rest)
  end.

Definition activeOwnerHistoryDepth (h : RootNamespaceHistory) : Z :=
  match back h with
  | None => 0
  | Some r => Z.of_nat (owner_run (m_owner r) (reverse (m_rootHistory h)))
  end.

Definition numActiveRootChildren (h : RootNamespaceHistory) : Z :=
  match back h with None => 0 | Some r => root_size (m_store h) r end.

Definition sum_sizes (σ : Store) (roots : list RootNamespace) : Z :=
  foldr (λ r acc, root_size σ r + acc) 0 roots.

Definition numAllHistoricalChildren (h : RootNamespaceHistory) : Z := sum_sizes (m_store h) (m_rootHistory h).

Definition push_back (owner : Key) (l : NamespaceLifetime) (setAliasOnRenew : bool)
    (h : RootNamespaceHistory) : RootNamespaceHistory :=
  let fresh :=
    {| m_historyId := m_historyId h;
       m_rootHistory := m_rootHistory h ++ [new_RootNamespace (m_historyId h) owner l (length (m_store h))];
       m_store := m_store h ++ [∅] |} in
  match back h with
  | Some previous =>
      if decide (m_owner previous = owner) then
        {| m_historyId := m_historyId h;
           m_rootHistory := m_rootHistory h ++ [renew l setAliasOnRenew previous];
           m_store := m_store h |}
      else fresh
  | None => fresh
  end.

Definition pop_back (h : RootNamespaceHistory) : RootNamespaceHistory :=
  {| m_historyId := m_historyId h;
     m_rootHistory := take (length (m_rootHistory h) - 1) (m_rootHistory h);
     m_store := m_store h |}.

(** Runs an operation on [back()]. *)
Definition on_back (f : RootNamespace → Store → result Store) (h : RootNamespaceHistory)
    : result RootNamespaceHistory :=
  match back h with
  | None => Throw undefined_behaviour
  | Some r =>
      σ ← f r (m_store h);
      Ok {| m_historyId := m_historyId h; m_rootHistory := m_rootHistory h; m_store := σ |}
  end.

Definition back_setAlias (id : NamespaceId) (a : NamespaceAlias) (h : RootNamespaceHistory)
    : result RootNamespaceHistory :=
  match back h with
  | None => Throw undefined_behaviour
  | Some r =>
      '(r', σ) ← setAlias id a r (m_store h);
      Ok {| m_historyId := m_historyId h;
            m_rootHistory := take (length (m_rootHistory h) - 1) (m_rootHistory h) ++ [r'];
            m_store := σ |}
  end.

Definition AddAllIds (ids : gset Z) (c : Children) : gset Z := ids ∪ dom c.
Definition RemoveAllIds (ids : gset Z) (c : Children) : gset Z := ids ∖ dom c.

Fixpoint prune_roots (height : Height) (σ : Store) (ids : gset Z) (roots : list RootNamespace)
    : gset Z * list RootNamespace :=
  match roots with
  | [] => (ids, [])
  | r :: roots =>
      if GracePeriodEnd (m_lifetime r) <=? height
      then prune_roots height σ (AddAllIds ids (children σ r)) roots
      else let '(ids, kept) := prune_roots height σ (RemoveAllIds ids (children σ r)) roots in (ids, r :: kept)
  end.

Definition history_prune (height : Height) (h : RootNamespaceHistory) : RootNamespaceHistory * gset Z :=
  let '(ids, kept) := prune_roots height (m_store h) ∅ (m_rootHistory h) in
  ({| m_historyId := m_historyId h; m_rootHistory := kept; m_store := m_store h |},
   if decide (kept = []) then {[ m_historyId h ]} ∪ ids else ids).

Definition history_isActiveAndUnlocked (h : RootNamespaceHistory) (height : Height) : bool :=
  match back h with None => false | Some r => isActiveAndUnlocked (m_lifetime r) height end.

Definition history_isActive (h : RootNamespaceHistory) (height : Height) : bool :=
  match back h with None => false | Some r => isActiveOrGracePeriod (m_lifetime r) height end.

(** * What a history promises *)

(** A registration as a value: the children are not shared but repeated. *)
Record Registration := {
  reg_id : NamespaceId;
  reg_alias : NamespaceAlias;
  reg_owner : Key;
  reg_lifetime : NamespaceLifetime;
  reg_children : Children
}.

Definition registration (σ : Store) (r : RootNamespace) : Registration :=
  {| reg_id := m_id r; reg_alias := m_alias r; reg_owner := m_owner r; reg_lifetime := m_lifetime r;
     reg_children := children σ r |}.

(** The registrations, last one first. *)
Definition newest (h : RootNamespaceHistory) : list RootNamespace := reverse (m_rootHistory h).
Definition registrations (h : RootNamespaceHistory) : list Registration := registration (m_store h) <$> newest h.

Definition map_children (f : Children → Children) (g : Registration) : Registration :=
  {| reg_id := reg_id g; reg_alias := reg_alias g; reg_owner := reg_owner g; reg_lifetime := reg_lifetime g;
     reg_children := f (reg_children g) |}.

(** Changes the children of the leading registrations of [owner]. *)
Fixpoint update_run (f : Children → Children) (owner : Key) (l : list Registration) : list Registration :=
  match l with
  | [] => []
  | g :: rest => if decide (owner ≠ reg_owner g) then l else map_children f g :: update_run f owner rest
  end.

(** Equal owners hold the same table, a change of owner starts a younger one. *)
Fixpoint linked (l : list RootNamespace) : Prop :=
  match l with
  | r2 :: (r1 :: _) as rest =>
      (m_owner r1 = m_owner r2 → m_pChildren r1 = m_pChildren r2)
      ∧ (m_owner r1 ≠ m_owner r2 → m_pChildren r1 < m_pChildren r2)%nat
      ∧ linked rest
  | _ => True
  end.

Record history_wf (h : RootNamespaceHistory) : Prop := {
  hwf_linked : linked (newest h);
  hwf_alloc : Forall (λ r, m_pChildren r < length (m_store h))%nat (newest h);
  hwf_ids : Forall (λ r, m_id r = m_historyId h) (newest h)
}.

(** * Lists read from their end *)

Lemma reverse_removelast {A} (l : list A) : reverse (take (length l - 1) l) = tail (reverse l).
Proof.
  destruct l as [|x l _] using rev_ind; [done|].
  rewrite length_app, take_app_le by (simpl; lia). simpl.
  replace (length l + 1 - 1)%nat with (length l) by lia. by rewrite firstn_all, reverse_snoc.
Qed.

Lemma back_newest h : back h = head (newest h).
Proof. unfold back, newest. by rewrite head_reverse. Qed.

Lemma newest_pop h : newest (pop_back h) = tail (newest h).
Proof. apply reverse_removelast. Qed.

Lemma sum_sizes_app σ l1 l2 : sum_sizes σ (l1 ++ l2) = sum_sizes σ l1 + sum_sizes σ l2.
Proof. induction l1 as [|r l1 IH]; simpl; [done|]. unfold sum_sizes in *. lia. Qed.

Lemma sum_sizes_reverse σ l : sum_sizes σ (reverse l) = sum_sizes σ l.
Proof.
  induction l as [|r l IH]; [done|]. rewrite reverse_cons, sum_sizes_app, IH. simpl.
  unfold sum_sizes. simpl. lia.
Qed.

(** * The store *)

Lemma children_update f r r' σ :
  (m_pChildren r < length σ)%nat →
  children (update_children f r σ) r'
  = if decide (m_pChildren r' = m_pChildren r) then f (children σ r) else children σ r'.
Proof.
  intros Hb. unfold children, update_children. case_decide as He.
  - rewrite He, list_lookup_alter_eq.
    destruct (lookup_lt_is_Some_2 σ (m_pChildren r) Hb) as [c Hc]. by rewrite Hc.
  - by rewrite list_lookup_alter_ne by done.
Qed.

Lemma children_alloc c σ r : (m_pChildren r < length σ)%nat → children (σ ++ [c]) r = children σ r.
Proof. intros Hb. unfold children. by rewrite lookup_app_l. Qed.

Lemma children_fresh c σ r : m_pChildren r = length σ → children (σ ++ [c]) r = c.
Proof.
  intros Hb. unfold children. rewrite Hb, lookup_app_r by done. by rewrite Nat.sub_diag.
Qed.

Lemma update_children_length f r σ : length (update_children f r σ) = length σ.
Proof. apply length_alter. Qed.

(** * Runs *)

Lemma linked_tail r l : linked (r :: l) → linked l.
Proof. destruct l; [done|]. by intros (_ & _ & ?). Qed.

(** Below a registration of another owner every table is an older one. *)
Lemma linked_below r l : linked (r :: l) → Forall (λ x, m_pChildren x ≤ m_pChildren r)%nat l.
Proof.
  revert r. induction l as [|x l IH]; intros r; [constructor|].
  intros (He & Hn & Hl). assert (m_pChildren x ≤ m_pChildren r)%nat.
  { destruct (decide (m_owner x = m_owner r)); [rewrite He by done; lia|]. specialize (Hn n). lia. }
  constructor; [done|]. eapply Forall_impl; [exact (IH x Hl)|]. intros; simpl in *; lia.
Qed.

Lemma registration_unchanged f r σ l :
  (m_pChildren r < length σ)%nat → Forall (λ x, m_pChildren x < m_pChildren r)%nat l →
  registration (update_children f r σ) <$> l = registration σ <$> l.
Proof.
  intros Hb Hl. apply list_fmap_ext. intros i x Hx. unfold registration.
  assert (m_pChildren x < m_pChildren r)%nat by (by eapply Forall_lookup_1 in Hl).
  rewrite children_update, decide_False by lia. done.
Qed.

(** A write through the pointer of [b] changes exactly the leading run of
    registrations of the same owner. *)
Lemma update_shared f b σ l :
  (m_pChildren b < length σ)%nat → linked (b :: l) →
  registration (update_children f b σ) <$> l = update_run f (m_owner b) (registration σ <$> l).
Proof.
  intros Hb. assert (∀ b', m_owner b' = m_owner b → m_pChildren b' = m_pChildren b → linked (b' :: l) →
    registration (update_children f b σ) <$> l = update_run f (m_owner b) (registration σ <$> l)) as Hg.
  { induction l as [|x l IH]; intros b' Ho Hp Hl; [done|].
    pose proof Hl as (He & Hn & Hl'). cbn [fmap list_fmap update_run reg_owner registration].
    destruct (decide (m_owner b ≠ m_owner x)) as [Hd|Hd].
    - pose proof (linked_below _ _ Hl'). specialize (Hn ltac:(congruence)).
      rewrite (registration_unchanged f b σ l Hb) by (eapply Forall_impl; [done|]; intros; simpl in *; lia).
      f_equal. unfold registration. by rewrite children_update, decide_False by lia.
    - apply dec_stable in Hd. assert (m_pChildren x = m_pChildren b) by (rewrite <-Hp; apply He; congruence).
      f_equal; [|by apply (IH x)]. unfold registration, map_children. simpl.
      rewrite children_update, decide_True by done. unfold children. by rewrite H. }
  intros Hl. by apply (Hg b).
Qed.

Lemma update_shared_head f b σ l :
  (m_pChildren b < length σ)%nat → linked (b :: l) →
  registration (update_children f b σ) <$> (b :: l)
  = update_run f (m_owner b) (registration σ <$> (b :: l)).
Proof.
  intros Hb Hl. cbn [fmap list_fmap update_run reg_owner registration].
  rewrite decide_False by naive_solver. rewrite <-update_shared by done. f_equal.
  unfold registration, map_children. simpl. by rewrite children_update, decide_True by done.
Qed.

(** * The abstract history: a list of registrations, last one first *)

Definition spec_push (id : NamespaceId) (owner : Key) (l : NamespaceLifetime) (setAliasOnRenew : bool)
    (regs : list Registration) : list Registration :=
  let fresh := {| reg_id := id; reg_alias := UnsetAlias; reg_owner := owner; reg_lifetime := l; reg_children := ∅ |} in
  match regs with
  | g :: _ =>
      if decide (reg_owner g = owner) then
        {| reg_id := reg_id g; reg_alias := if setAliasOnRenew then reg_alias g else UnsetAlias;
           reg_owner := reg_owner g; reg_lifetime := l; reg_children := reg_children g |} :: regs
      else fresh :: regs
  | [] => [fresh]
  end.

(** A new child needs an unused id, the root of its path, and a known parent
    one level up. *)
Definition can_add (ns : Path) (g : Registration) : bool :=
  bool_decide (reg_children g !! ns_id ns = None)
  && bool_decide (reg_id g = rootId ns)
  && (bool_decide (reg_id g = parentId ns)
      || match reg_children g !! parentId ns with
         | None => false
         | Some parent => bool_decide (length (child_path parent) = length ns - 1)%nat
         end).

Definition can_remove (id : NamespaceId) (g : Registration) : bool :=
  match reg_children g !! id with
  | None => false
  | Some data => negb (hasDescendents (length (child_path data)) id (reg_children g))
  end.

(** Changes the children of the active registration and of its run. *)
Definition spec_change (guard : Registration → bool) (f : Children → Children) (regs : list Registration)
    : result (list Registration) :=
  match regs with
  | [] => Throw undefined_behaviour
  | g :: _ => if guard g then Ok (update_run f (reg_owner g) regs) else Throw invalid_argument
  end.

Definition spec_add (ns : Path) : list Registration → result (list Registration) :=
  spec_change (can_add ns) <[ns_id ns := {| child_path := ns; child_alias := UnsetAlias |}]>.

Definition spec_remove (id : NamespaceId) : list Registration → result (list Registration) :=
  spec_change (can_remove id) (delete id).

Definition reg_with_alias (a : NamespaceAlias) (g : Registration) : Registration :=
  {| reg_id := reg_id g; reg_alias := a; reg_owner := reg_owner g; reg_lifetime := reg_lifetime g;
     reg_children := reg_children g |}.

Definition spec_setAlias (id : NamespaceId) (a : NamespaceAlias) (regs : list Registration)
    : result (list Registration) :=
  match regs with
  | [] => Throw undefined_behaviour
  | g :: rest =>
      if decide (reg_id g = id) then Ok (reg_with_alias a g :: rest)
      else spec_change (λ g, bool_decide (is_Some (reg_children g !! id))) (alter (set_child_alias a) id) regs
  end.

(** ** Every operation implements its abstract version *)

Lemma history_eta h : {| m_historyId := m_historyId h; m_rootHistory := m_rootHistory h; m_store := m_store h |} = h.
Proof. by destruct h. Qed.

Lemma newest_push h x σ : newest {| m_historyId := m_historyId h; m_rootHistory := m_rootHistory h ++ [x]; m_store := σ |}
  = x :: newest h.
Proof. unfold newest. simpl. by rewrite reverse_snoc. Qed.

Lemma registration_alloc c σ l :
  Forall (λ r, m_pChildren r < length σ)%nat l → registration (σ ++ [c]) <$> l = registration σ <$> l.
Proof.
  intros Hl. apply list_fmap_ext. intros i r Hr. eapply Forall_lookup_1 in Hl; [|done].
  unfold registration. by rewrite children_alloc.
Qed.

Lemma push_fresh_wf h owner l :
  history_wf h → (∀ g rest, newest h = g :: rest → m_owner g ≠ owner) →
  let h' := {| m_historyId := m_historyId h;
     m_rootHistory := m_rootHistory h ++ [new_RootNamespace (m_historyId h) owner l (length (m_store h))];
     m_store := m_store h ++ [∅] |} in
  history_wf h' ∧ registrations h'
    = {| reg_id := m_historyId h; reg_alias := UnsetAlias; reg_owner := owner; reg_lifetime := l; reg_children := ∅ |}
      :: registrations h.
Proof.
  intros [Hl Ha Hi] Hd h'. split.
  - split; unfold h'; rewrite newest_push; simpl.
    + destruct (newest h) as [|g rest] eqn:E; [done|]. split_and!; [|intros _|done].
      * intros He. by apply (Hd g rest) in He.
      * by apply Forall_cons in Ha as [? _].
    + rewrite length_app. simpl. constructor; [simpl; lia|]. eapply Forall_impl; [exact Ha|]. simpl. lia.
    + by constructor.
  - unfold registrations, h'. rewrite newest_push. cbn [fmap list_fmap m_store].
    rewrite registration_alloc by done. f_equal. unfold registration. by rewrite children_fresh.
Qed.

Lemma push_back_refines h owner l b :
  history_wf h →
  history_wf (push_back owner l b h) ∧ m_historyId (push_back owner l b h) = m_historyId h
  ∧ registrations (push_back owner l b h) = spec_push (m_historyId h) owner l b (registrations h).
Proof.
  intros Hwf. unfold push_back. rewrite back_newest. unfold registrations at 2.
  destruct (newest h) as [|g rest] eqn:E.
  { cbn [head]. destruct (push_fresh_wf h owner l Hwf) as [? Hr]; [by rewrite E|].
    split_and!; [done|done|]. rewrite Hr. unfold registrations. by rewrite E. }
  cbn [head fmap list_fmap spec_push registration reg_owner]. case_decide as Ho.
  - split_and!; [|done|].
    + destruct Hwf as [Hl Ha Hi]. rewrite E in Hl, Ha, Hi.
      split; rewrite newest_push, E; cbn [m_store m_historyId].
      * split_and!; [by destruct b|by destruct b|done].
      * constructor; [|done]. apply Forall_cons in Ha as [? _]. by destruct b.
      * constructor; [|done]. apply Forall_cons in Hi as [? _]. by destruct b.
    + unfold registrations. rewrite newest_push, E. cbn [fmap list_fmap m_store]. f_equal. by destruct b.
  - destruct (push_fresh_wf h owner l Hwf) as [? Hr]; [by rewrite E; intros ?? [= <- <-]|].
    split_and!; [done|done|]. rewrite Hr. unfold registrations. by rewrite E.
Qed.

Lemma pop_back_refines h :
  history_wf h → history_wf (pop_back h) ∧ registrations (pop_back h) = tail (registrations h).
Proof.
  intros [Hl Ha Hi]. unfold registrations. rewrite newest_pop. split; [|by destruct (newest h)].
  split; rewrite newest_pop; destruct (newest h) as [|g rest]; simpl in *; try done.
  - by eapply linked_tail.
  - by apply Forall_cons in Ha as [_ ?].
  - by apply Forall_cons in Hi as [_ ?].
Qed.

Lemma store_wf h σ : length σ = length (m_store h) → history_wf h →
  history_wf {| m_historyId := m_historyId h; m_rootHistory := m_rootHistory h; m_store := σ |}.
Proof. intros Hs [Hl Ha Hi]. split; unfold newest in *; simpl; [done|by rewrite Hs|done]. Qed.

(** An operation on [back()] that writes the children when its guard holds. *)
Lemma on_back_refines h (op : RootNamespace → Store → result Store) (guard : Registration → bool)
    (f : Children → Children) :
  history_wf h →
  (∀ r σ, op r σ = if guard (registration σ r) then Ok (update_children f r σ) else Throw invalid_argument) →
  match on_back op h, spec_change guard f (registrations h) with
  | Ok h', Ok regs => history_wf h' ∧ m_historyId h' = m_historyId h ∧ registrations h' = regs
  | Throw e, Throw e' => e = e'
  | _, _ => False
  end.
Proof.
  intros Hwf Hop. unfold on_back, registrations. rewrite back_newest.
  destruct (newest h) as [|g rest] eqn:E; [done|]. cbn [head fmap list_fmap spec_change].
  rewrite Hop. destruct (guard _); [|done].
  cbn [mbind result_bind]. pose proof Hwf as [Hl Ha _]. rewrite E in Hl, Ha.
  apply Forall_cons in Ha as [Ha _]. split_and!; [|done|].
  - apply store_wf; [|done]. apply update_children_length.
  - transitivity (registration (update_children f g (m_store h)) <$> newest h); [done|].
    rewrite E. by apply update_shared_head.
Qed.

Lemma add_guard ns r σ :
  add ns r σ = if can_add ns (registration σ r)
    then Ok (update_children <[ns_id ns := {| child_path := ns; child_alias := UnsetAlias |}]> r σ)
    else Throw invalid_argument.
Proof.
  unfold add, can_add. cbn [reg_children reg_id registration].
  destruct (children σ r !! ns_id ns) as [d|] eqn:E1.
  { rewrite decide_True by done. by rewrite bool_decide_false. }
  rewrite decide_False by (by intros [? ?]). rewrite bool_decide_true by done. simpl.
  destruct (decide (m_id r = parentId ns)) as [->|Hp].
  - rewrite (bool_decide_true (parentId ns = parentId ns)) by done. simpl.
    rewrite andb_true_r. case_decide; case_bool_decide; done.
  - rewrite (bool_decide_false (m_id r = parentId ns)) by done. simpl.
    destruct (children σ r !! parentId ns) as [d|] eqn:E2; [|by rewrite andb_false_r].
    destruct (decide (length (child_path d) = length ns - 1)%nat) as [Hn|Hn].
    + rewrite decide_False by (by intros ?). rewrite (bool_decide_true (length _ = _)) by done.
      rewrite andb_true_r. case_decide; case_bool_decide; done.
    + rewrite decide_True by done. rewrite (bool_decide_false (length _ = _)) by done. by rewrite andb_false_r.
Qed.

Lemma remove_guard id r σ :
  remove id r σ = if can_remove id (registration σ r) then Ok (update_children (delete id) r σ) else Throw invalid_argument.
Proof.
  unfold remove, can_remove. cbn [reg_children registration].
  destruct (children σ r !! id) as [d|]; [|done]. by destruct (hasDescendents _ _ _).
Qed.

Lemma back_setAlias_refines h id a :
  history_wf h →
  match back_setAlias id a h, spec_setAlias id a (registrations h) with
  | Ok h', Ok regs => history_wf h' ∧ m_historyId h' = m_historyId h ∧ registrations h' = regs
  | Throw e, Throw e' => e = e'
  | _, _ => False
  end.
Proof.
  intros Hwf.
  destruct (newest h) as [|g rest] eqn:E.
  { unfold back_setAlias, registrations. by rewrite back_newest, E. }
  assert (∀ g', reverse (take (length (m_rootHistory h) - 1) (m_rootHistory h) ++ [g']) = g' :: rest) as Hrev.
  { intros g'. rewrite reverse_snoc, reverse_removelast. fold (newest h). by rewrite E. }
  destruct (decide (m_id g = id)) as [He|He].
  - unfold back_setAlias, registrations, setAlias. rewrite back_newest, E. cbn [head fmap list_fmap spec_setAlias].
    rewrite decide_True by done. cbn [mbind result_bind reg_id registration]. rewrite decide_True by done.
    pose proof Hwf as [Hl Ha Hi]. rewrite E in Hl, Ha, Hi.
    assert (∀ x, newest {| m_historyId := m_historyId h; m_rootHistory :=
      take (length (m_rootHistory h) - 1) (m_rootHistory h) ++ [x]; m_store := m_store h |} = x :: rest) as Hn
      by (intros x; by apply Hrev).
    split_and!; [|done|].
    + split; rewrite Hn; cbn [m_store m_historyId].
      * by destruct rest.
      * apply Forall_cons in Ha as [? ?]. by constructor.
      * apply Forall_cons in Hi as [? ?]. by constructor.
    + rewrite Hn. done.
  - pose proof (on_back_refines h (λ r σ, if bool_decide (is_Some (children σ r !! id))
        then Ok (update_children (alter (set_child_alias a) id) r σ) else Throw invalid_argument)
      (λ g, bool_decide (is_Some (reg_children g !! id))) (alter (set_child_alias a) id) Hwf ltac:(done)) as Hr.
    assert (spec_setAlias id a (registrations h) = spec_change (λ g, bool_decide (is_Some (reg_children g !! id)))
      (alter (set_child_alias a) id) (registrations h)) as ->.
    { unfold registrations. rewrite E. cbn [fmap list_fmap spec_setAlias reg_id registration]. by rewrite decide_False. }
    replace (back_setAlias id a h) with (on_back (λ r σ, if bool_decide (is_Some (children σ r !! id))
        then Ok (update_children (alter (set_child_alias a) id) r σ) else Throw invalid_argument) h); [exact Hr|].
    unfold on_back, back_setAlias, setAlias. rewrite back_newest, E. cbn [head]. rewrite decide_False by done.
    destruct (children (m_store h) g !! id) as [d|]; [|done].
    rewrite bool_decide_true by done. cbn [mbind result_bind]. do 2 f_equal.
    rewrite <-(reverse_involutive (m_rootHistory h)) at 1. fold (newest h). rewrite E.
    by rewrite <-(Hrev g), reverse_involutive.
Qed.

(** ** Counting *)

Fixpoint run_length (owner : Key) (regs : list Registration) : nat :=
  match regs with
  | [] => 0
  | g :: rest => if decide (owner ≠ reg_owner g) then 0 else S (run_length owner rest)
  end.

Definition child_count (g : Registration) : Z := Z.of_nat (size (reg_children g)).
Definition total_children (regs : list Registration) : Z := foldr (λ g acc, child_count g + acc) 0 regs.
Definition active_run (regs : list Registration) : Z :=
  match regs with [] => 0 | g :: _ => Z.of_nat (run_length (reg_owner g) regs) end.
Definition active_children (regs : list Registration) : Children :=
  match regs with [] => ∅ | g :: _ => reg_children g end.

Lemma owner_run_length σ owner l : owner_run owner l = run_length owner (registration σ <$> l).
Proof. induction l as [|r l IH]; [done|]. simpl. by rewrite IH. Qed.

Lemma activeOwnerHistoryDepth_eq h : activeOwnerHistoryDepth h = active_run (registrations h).
Proof.
  unfold activeOwnerHistoryDepth, registrations. rewrite back_newest. fold (newest h).
  destruct (newest h) as [|r l] eqn:E; [done|]. cbn [head]. by rewrite (owner_run_length (m_store h)).
Qed.

Lemma numAllHistoricalChildren_eq h : numAllHistoricalChildren h = total_children (registrations h).
Proof.
  unfold numAllHistoricalChildren, registrations, newest. rewrite <-sum_sizes_reverse.
  induction (reverse (m_rootHistory h)) as [|r l IH]; [done|].
  unfold sum_sizes, total_children in *. simpl. by rewrite IH.
Qed.

Lemma numActiveRootChildren_eq h : numActiveRootChildren h = Z.of_nat (size (active_children (registrations h))).
Proof. unfold numActiveRootChildren, registrations. rewrite back_newest. by destruct (newest h). Qed.

Lemma historyDepth_eq h : historyDepth h = Z.of_nat (length (registrations h)).
Proof. unfold historyDepth, registrations, newest. by rewrite length_fmap, length_reverse. Qed.

Lemma history_empty_eq h : history_empty h = bool_decide (registrations h = []).
Proof.
  unfold history_empty, registrations, newest. apply bool_decide_ext.
  destruct (m_rootHistory h) as [|r l]; [done|]. rewrite reverse_cons. split; [done|].
  by destruct (reverse l).
Qed.

(** The children of a run are those of its first registration. *)
Fixpoint run_uniform (owner : Key) (c : Children) (regs : list Registration) : Prop :=
  match regs with
  | [] => True
  | g :: rest => owner = reg_owner g → reg_children g = c ∧ run_uniform owner c rest
  end.

Lemma registrations_uniform σ r l :
  linked (r :: l) → run_uniform (m_owner r) (children σ r) (registration σ <$> l).
Proof.
  revert r. induction l as [|x l IH]; intros r; [done|]. intros (He & _ & Hl) Ho. simpl in Ho.
  specialize (He (eq_sym Ho)). assert (children σ x = children σ r) as Hc by (unfold children; by rewrite He).
  split; [done|]. rewrite Ho, <-Hc. by apply IH.
Qed.

Lemma update_run_length f owner regs : length (update_run f owner regs) = length regs.
Proof. induction regs as [|g l IH]; [done|]. simpl. case_decide; simpl; [done|]. by rewrite IH. Qed.

(** A change of the active children counts once per registration of the run. *)
Lemma update_run_total f owner c regs :
  run_uniform owner c regs →
  total_children (update_run f owner regs)
  = total_children regs + (Z.of_nat (size (f c)) - Z.of_nat (size c)) * Z.of_nat (run_length owner regs).
Proof.
  induction regs as [|g l IH]; intros Hu; [simpl; lia|]. simpl.
  destruct (decide (owner ≠ reg_owner g)) as [|Ho%dec_stable]; [simpl; lia|].
  destruct (Hu Ho) as [Hc Hl]. simpl. rewrite IH by done. unfold child_count. simpl. rewrite Hc. lia.
Qed.

(** ** Copies *)

Lemma linked_app_r l1 l2 : linked (l1 ++ l2) → linked l2.
Proof. induction l1 as [|r l1 IH]; [done|]. intros H. by apply linked_tail in H as ?%IH. Qed.

(** The state of the copy loop: [prev] are the registrations read and [done]
    their copies, last one first. *)
Record copied (from σ : Store) (prev done : list RootNamespace) (owner : Key) (p : option nat) : Prop := {
  copied_equal : registration from <$> prev = registration σ <$> done;
  copied_linked : linked done;
  copied_alloc : Forall (λ r, m_pChildren r < length σ)%nat done;
  copied_last : match done with
                | [] => owner = zero_key ∧ p = None
                | d :: _ => owner = m_owner d ∧ p = Some (m_pChildren d)
                end
}.

Definition copy_of (r : RootNamespace) (p : nat) : RootNamespace :=
  with_alias (m_alias r) (new_RootNamespace (m_id r) (m_owner r) (m_lifetime r) p).

Lemma copied_fresh from σ prev done owner p r :
  copied from σ prev done owner p → owner ≠ m_owner r →
  copied from (σ ++ [children from r]) (r :: prev) (copy_of r (length σ) :: done) (m_owner r) (Some (length σ)).
Proof.
  intros [He Hl Ha Hp] Ho. split.
  - cbn [fmap list_fmap]. rewrite registration_alloc by done. f_equal; [|done].
    unfold registration. simpl. f_equal. symmetry. by apply children_fresh.
  - destruct done as [|d done]; [done|]. destruct Hp as [-> _]. split_and!; [done| |done].
    intros _. by apply Forall_cons in Ha as [? _].
  - rewrite length_app. simpl. constructor; [simpl; lia|]. eapply Forall_impl; [exact Ha|]. simpl. lia.
  - done.
Qed.

Lemma copied_renewed from σ prev d done p r :
  copied from σ prev (d :: done) (m_owner r) p → linked (r :: prev) →
  p = Some (m_pChildren d)
  ∧ copied from σ (r :: prev) (copy_of r (m_pChildren d) :: d :: done) (m_owner r) (Some (m_pChildren d)).
Proof.
  intros [He Hl Ha [Ho Hp]] Hlr. split; [done|]. split.
  - destruct prev as [|x prev]; [done|]. pose proof He as He'. injection He' as Hx Ho' Hal Hli Hc Hrest.
    rewrite (fmap_cons _ r), He, (fmap_cons _ (copy_of _ _)). f_equal.
    unfold registration. simpl. f_equal. transitivity (children σ d); [|done].
    destruct Hlr as [Heq _]. rewrite <-Hc. unfold children. rewrite Heq; [done|congruence].
  - split_and!; [done| |done]. intros Hn. simpl in Hn. congruence.
  - constructor; [|done]. by apply Forall_cons in Ha as [? _].
  - done.
Qed.

Lemma copy_roots_copied roots : ∀ from σ prev done owner p,
  copied from σ prev done owner p → linked (reverse roots ++ prev) →
  Forall (λ r, m_owner r ≠ zero_key) roots →
  ∃ roots' extra, copy_roots roots from owner p σ = Ok (roots', σ ++ extra)
    ∧ ∃ owner' p', copied from (σ ++ extra) (reverse roots ++ prev) (reverse roots' ++ done) owner' p'.
Proof.
  induction roots as [|r roots IH]; intros from σ prev done owner p Hc Hl Hz.
  { exists [], []. rewrite app_nil_r. split; [done|]. by exists owner, p. }
  rewrite reverse_cons, <-app_assoc in Hl. apply Forall_cons in Hz as [Hz Hzs].
  assert (∃ p' σ0, copied from (σ ++ σ0) (r :: prev) (copy_of r p' :: done) (m_owner r) (Some p')
    ∧ copy_roots (r :: roots) from owner p σ
      = ('(rest, σ') ← copy_roots roots from (m_owner r) (Some p') (σ ++ σ0); Ok (copy_of r p' :: rest, σ')))
    as (p' & σ0 & Hc' & Heq).
  { cbn [copy_roots]. destruct (decide (owner ≠ m_owner r)) as [Ho|Ho%dec_stable].
    - exists (length σ), [children from r]. split; [by eapply copied_fresh|done].
    - destruct done as [|d done]; [by destruct (copied_last _ _ _ _ _ _ Hc); congruence|]. rewrite Ho in Hc.
      apply copied_renewed in Hc as [-> Hc]; [|by eapply linked_app_r].
      exists (m_pChildren d), []. rewrite app_nil_r. split; [done|done]. }
  destruct (IH _ _ _ _ _ _ Hc' Hl Hzs) as (roots' & extra & Hr & owner' & p'' & Hcc).
  exists (copy_of r p' :: roots'), (σ0 ++ extra). rewrite Heq, Hr, !app_assoc. split; [done|].
  exists owner', p''. by rewrite !reverse_cons, <-!app_assoc, app_assoc.
Qed.

Lemma copied_init from σ : copied from σ [] [] zero_key None.
Proof. by split. Qed.

Lemma copied_ids from σ l done owner p id :
  copied from σ l done owner p → Forall (λ r, m_id r = id) l → Forall (λ r, m_id r = id) done.
Proof.
  intros [He _ _ _] Hi. apply Forall_lookup. intros i d Hd.
  assert ((registration from <$> l) !! i = Some (registration σ d)) as Hr by (by rewrite He, list_lookup_fmap, Hd).
  rewrite list_lookup_fmap_Some in Hr. destruct Hr as (r & Hr & Hlr). eapply Forall_lookup_1 in Hi; [|done].
  by injection Hr as ->.
Qed.

(** The copy constructor yields an equal history with the same sharing. *)
Lemma copy_refines h :
  history_wf h → Forall (λ r, m_owner r ≠ zero_key) (newest h) →
  ∃ h', copy_RootNamespaceHistory h = Ok h' ∧ history_wf h' ∧ m_historyId h' = m_historyId h
    ∧ registrations h' = registrations h.
Proof.
  intros [Hl Ha Hi] Hz. unfold newest in Hz. rewrite Forall_reverse in Hz.
  destruct (copy_roots_copied (m_rootHistory h) (m_store h) [] [] [] zero_key None (copied_init _ _))
    as (roots' & extra & Hr & o & p & Hc); [by rewrite app_nil_r|done|].
  rewrite !app_nil_r in Hc. simpl in Hr, Hc. unfold copy_RootNamespaceHistory. rewrite Hr.
  eexists. split; [done|]. pose proof Hc as [He Hl' Ha' _].
  split_and!; [|done|by symmetry]. split; [done|done|]. by eapply copied_ids.
Qed.

(** ** Pruning *)

(** Registrations expire in the order they were made. *)
Definition expires_after (g1 g2 : Registration) : Prop :=
  GracePeriodEnd (reg_lifetime g2) < GracePeriodEnd (reg_lifetime g1).
Definition expiry_sorted (regs : list Registration) : Prop := StronglySorted expires_after regs.

Definition kept (height : Height) (regs : list Registration) : list Registration :=
  filter (λ g, height < GracePeriodEnd (reg_lifetime g)) regs.
Definition expired (height : Height) (regs : list Registration) : list Registration :=
  filter (λ g, GracePeriodEnd (reg_lifetime g) ≤ height) regs.

(** The ids of the children of some registrations. *)
Definition child_ids (regs : list Registration) : gset Z := ⋃ ((λ g, dom (reg_children g)) <$> regs).

Lemma elem_of_child_ids x regs : x ∈ child_ids regs ↔ ∃ g, g ∈ regs ∧ is_Some (reg_children g !! x).
Proof.
  unfold child_ids. rewrite elem_of_union_list. setoid_rewrite list_elem_of_fmap. split.
  - intros (X & (g & -> & Hg) & Hx). exists g. by apply elem_of_dom in Hx.
  - intros (g & Hg & Hx). exists (dom (reg_children g)). split; [by exists g|]. by apply elem_of_dom.
Qed.

(** The ids [RootNamespaceHistory::prune] returns. *)
Definition pruned_ids (height : Height) (id : NamespaceId) (regs : list Registration) : gset Z :=
  let ids := child_ids (expired height regs) ∖ child_ids (kept height regs) in
  if decide (kept height regs = []) then {[ id ]} ∪ ids else ids.

(** Once a registration is kept, so are the younger ones. *)
Lemma prune_roots_kept height σ roots : ∀ ids,
  Forall (λ r, height < GracePeriodEnd (m_lifetime r)) roots →
  prune_roots height σ ids roots = (ids ∖ child_ids (registration σ <$> roots), roots).
Proof.
  induction roots as [|r roots IH]; intros ids Hk; simpl.
  { f_equal. unfold child_ids. set_solver. }
  apply Forall_cons in Hk as [Hr Hk]. destruct (_ <=? _) eqn:E; zbool; [lia|]. rewrite IH by done.
  f_equal. unfold RemoveAllIds, child_ids. simpl. set_solver.
Qed.

Lemma expired_cons height g regs :
  GracePeriodEnd (reg_lifetime g) ≤ height →
  expired height (g :: regs) = g :: expired height regs ∧ kept height (g :: regs) = kept height regs.
Proof. intros Hg. unfold kept, expired. by rewrite !filter_cons, decide_True, decide_False by lia. Qed.

Lemma kept_Forall height regs :
  Forall (λ g, height < GracePeriodEnd (reg_lifetime g)) regs → kept height regs = regs ∧ expired height regs = [].
Proof.
  unfold kept, expired. induction 1 as [|g regs Hg _ [IH1 IH2]]; [done|].
  rewrite !filter_cons, decide_True, decide_False, IH1, IH2 by lia. done.
Qed.

Lemma prune_roots_spec height σ roots : ∀ ids,
  StronglySorted (λ r1 r2, GracePeriodEnd (m_lifetime r1) < GracePeriodEnd (m_lifetime r2)) roots →
  let regs := registration σ <$> roots in
  ∃ pruned rest, roots = pruned ++ rest
    ∧ prune_roots height σ ids roots = ((ids ∪ child_ids (expired height regs)) ∖ child_ids (kept height regs), rest)
    ∧ kept height regs = registration σ <$> rest ∧ expired height regs = registration σ <$> pruned.
Proof.
  induction roots as [|r roots IH]; intros ids Hs regs.
  { exists [], []. split_and!; try done. simpl. f_equal. unfold child_ids. set_solver. }
  apply StronglySorted_inv in Hs as [Hs Hall].
  destruct (decide (GracePeriodEnd (m_lifetime r) ≤ height)) as [Hr|Hr].
  - destruct (IH (AddAllIds ids (children σ r)) Hs) as (pruned & rest & -> & Hp & Hk & He).
    exists (r :: pruned), rest. split; [done|]. simpl.
    rewrite (proj2 (Z.leb_le _ _)) by done. rewrite Hp. unfold regs. rewrite fmap_cons.
    destruct (expired_cons height (registration σ r) (registration σ <$> pruned ++ rest)) as [-> ->]; [done|].
    split_and!; [|done|by rewrite He]. f_equal. unfold AddAllIds, child_ids. simpl. set_solver.
  - assert (Forall (λ x, height < GracePeriodEnd (m_lifetime x)) (r :: roots)) as Hf.
    { constructor; [lia|]. eapply Forall_impl; [exact Hall|]. simpl. lia. }
    exists [], (r :: roots). split; [done|]. rewrite prune_roots_kept by done.
    destruct (kept_Forall height regs) as [-> ->]; [by apply Forall_fmap|].
    split_and!; [|done|done]. f_equal. unfold child_ids. set_solver.
Qed.

Lemma StronglySorted_reverse {A} (R : A → A → Prop) (l : list A) :
  StronglySorted R l → StronglySorted (flip R) (reverse l).
Proof.
  induction 1 as [|x l _ IH Hall]; [constructor|]. rewrite reverse_cons, StronglySorted_app.
  split_and!; [|done|repeat constructor]. intros y z Hy Hz. apply list_elem_of_singleton in Hz as ->. rewrite elem_of_reverse in Hy.
  apply list_elem_of_lookup in Hy as [i Hy]. exact (Forall_lookup_1 _ _ _ _ Hall Hy).
Qed.

Lemma linked_app_l l1 l2 : linked (l1 ++ l2) → linked l1.
Proof.
  induction l1 as [|r l1 IH]; [done|]. destruct l1 as [|x l1]; [done|].
  intros (He & Hn & Hl). split_and!; [done|done|by apply IH].
Qed.

Lemma filter_reverse {A} (P : A → Prop) `{!∀ x, Decision (P x)} (l : list A) :
  filter P (reverse l) = reverse (filter P l).
Proof.
  induction l as [|x l IH]; [done|]. rewrite reverse_cons, filter_app, IH, !filter_cons.
  case_decide; by rewrite ?reverse_cons, ?filter_nil, ?app_nil_r.
Qed.

Lemma child_ids_reverse regs : child_ids (reverse regs) = child_ids regs.
Proof. apply set_eq. intros x. rewrite !elem_of_child_ids. setoid_rewrite elem_of_reverse. done. Qed.

Lemma fmap_nil_kept {A B} (f : A → B) l : f <$> l = [] ↔ l = [].
Proof. by destruct l. Qed.

Lemma history_prune_refines h height :
  history_wf h → expiry_sorted (registrations h) →
  history_wf (fst (history_prune height h)) ∧ m_historyId (fst (history_prune height h)) = m_historyId h
  ∧ registrations (fst (history_prune height h)) = kept height (registrations h)
  ∧ snd (history_prune height h) = pruned_ids height (m_historyId h) (registrations h).
Proof.
  intros [Hl Ha Hi] Hs.
  assert (registrations h = reverse (registration (m_store h) <$> m_rootHistory h)) as Hr
    by (unfold registrations, newest; by rewrite fmap_reverse).
  destruct (prune_roots_spec height (m_store h) (m_rootHistory h) ∅) as (pruned & rest & Hsplit & Hp & Hk & He).
  { rewrite Hr in Hs. apply StronglySorted_reverse in Hs. rewrite reverse_involutive in Hs.
    clear -Hs. induction (m_rootHistory h) as [|r l IH]; [constructor|].
    rewrite fmap_cons in Hs. apply StronglySorted_inv in Hs as [Hs Hall]. constructor; [by apply IH|].
    rewrite Forall_fmap in Hall. exact Hall. }
  unfold history_prune. rewrite Hp. cbn [fst snd m_historyId].
  assert (newest h = reverse rest ++ reverse pruned) as Hn by (unfold newest; by rewrite Hsplit, reverse_app).
  rewrite Hn in Hl, Ha, Hi. apply linked_app_l in Hl.
  apply Forall_app in Ha as [Ha _]. apply Forall_app in Hi as [Hi _].
  split_and!; [by split|done| |].
  - rewrite Hr. unfold kept. rewrite filter_reverse. fold (kept height (registration (m_store h) <$> m_rootHistory h)).
    rewrite Hk. unfold registrations, newest. simpl. by rewrite fmap_reverse.
  - unfold pruned_ids. rewrite Hr. unfold kept, expired. rewrite !filter_reverse, !child_ids_reverse.
    fold (kept height (registration (m_store h) <$> m_rootHistory h)).
    fold (expired height (registration (m_store h) <$> m_rootHistory h)). rewrite union_empty_l_L.
    rewrite Hk. destruct rest as [|r rest]; [done|]. rewrite fmap_cons, reverse_cons.
    rewrite decide_False by done. rewrite decide_False; [done|].
    intros Hx%(f_equal length). rewrite length_app in Hx. simpl in Hx. lia.
Qed.

(** ** Refinement of whole runs *)

Inductive HistoryOp :=
| PushBack (owner : Key) (l : NamespaceLifetime) (setAliasOnRenew : bool)
| PopBack
| AddChild (ns : Path)
| RemoveChild (id : NamespaceId)
| SetAlias (id : NamespaceId) (a : NamespaceAlias)
| Prune (height : Height)
| CopyHistory.

(** What a caller sees of an operation: its outcome and the counters. *)
Definition Observation : Type := result (gset Z) * (Z * Z * Z * Z).

Definition observe (h : RootNamespaceHistory) : Z * Z * Z * Z :=
  (historyDepth h, activeOwnerHistoryDepth h, numActiveRootChildren h, numAllHistoricalChildren h).

Definition settle (h : RootNamespaceHistory) (r : result RootNamespaceHistory) : RootNamespaceHistory * Observation :=
  match r with
  | Ok h' => (h', (Ok ∅, observe h'))
  | Throw e => (h, (Throw e, observe h))
  end.

Definition history_step (h : RootNamespaceHistory) (op : HistoryOp) : RootNamespaceHistory * Observation :=
  match op with
  | PushBack owner l b => settle h (Ok (push_back owner l b h))
  | PopBack => settle h (if history_empty h then Throw undefined_behaviour else Ok (pop_back h))
  | AddChild ns => settle h (on_back (add ns) h)
  | RemoveChild id => settle h (on_back (remove id) h)
  | SetAlias id a => settle h (back_setAlias id a h)
  | Prune height => let '(h', ids) := history_prune height h in (h', (Ok ids, observe h'))
  | CopyHistory => settle h (copy_RootNamespaceHistory h)
  end.

Definition spec_observe (regs : list Registration) : Z * Z * Z * Z :=
  (Z.of_nat (length regs), active_run regs, Z.of_nat (size (active_children regs)), total_children regs).

Definition spec_settle (regs : list Registration) (r : result (list Registration)) : list Registration * Observation :=
  match r with
  | Ok regs' => (regs', (Ok ∅, spec_observe regs'))
  | Throw e => (regs, (Throw e, spec_observe regs))
  end.

Definition spec_step (id : NamespaceId) (regs : list Registration) (op : HistoryOp) : list Registration * Observation :=
  match op with
  | PushBack owner l b => spec_settle regs (Ok (spec_push id owner l b regs))
  | PopBack => spec_settle regs (match regs with [] => Throw undefined_behaviour | _ :: rest => Ok rest end)
  | AddChild ns => spec_settle regs (spec_add ns regs)
  | RemoveChild id => spec_settle regs (spec_remove id regs)
  | SetAlias id a => spec_settle regs (spec_setAlias id a regs)
  | Prune height => (kept height regs, (Ok (pruned_ids height id regs), spec_observe (kept height regs)))
  | CopyHistory => spec_settle regs (Ok regs)
  end.

(** Owners are real keys and a registration expires after the previous one. *)
Definition op_ok (regs : list Registration) (op : HistoryOp) : Prop :=
  match op with
  | PushBack owner l _ =>
      owner ≠ zero_key
      ∧ match regs with [] => True | g :: _ => GracePeriodEnd (reg_lifetime g) < GracePeriodEnd l end
  | _ => True
  end.

Definition owned (regs : list Registration) : Prop := Forall (λ g, reg_owner g ≠ zero_key) regs.

Record history_sim (id : NamespaceId) (h : RootNamespaceHistory) (regs : list Registration) : Prop := {
  sim_wf : history_wf h;
  sim_id : m_historyId h = id;
  sim_regs : registrations h = regs;
  sim_sorted : expiry_sorted regs;
  sim_owned : owned regs
}.

Lemma observe_eq h : observe h = spec_observe (registrations h).
Proof.
  unfold observe, spec_observe.
  by rewrite historyDepth_eq, activeOwnerHistoryDepth_eq, numActiveRootChildren_eq, numAllHistoricalChildren_eq.
Qed.

(** Operations that leave owners and lifetimes alone. *)
Definition same_frame (regs regs' : list Registration) : Prop :=
  Forall2 (λ g g', reg_owner g' = reg_owner g ∧ reg_lifetime g' = reg_lifetime g ∧ reg_id g' = reg_id g) regs regs'.

Lemma same_frame_refl regs : same_frame regs regs.
Proof. by apply Forall_Forall2_diag, Forall_true. Qed.

Lemma update_run_frame f owner regs : same_frame regs (update_run f owner regs).
Proof.
  induction regs as [|g regs IH]; [constructor|]. simpl.
  case_decide; [apply same_frame_refl|]. by constructor.
Qed.

Lemma frame_sorted regs regs' : same_frame regs regs' → expiry_sorted regs → expiry_sorted regs'.
Proof.
  intros Hf. induction Hf as [|g g' regs regs' (Ho & Hl & _) Hf IH]; [done|].
  intros [Hs Hall]%StronglySorted_inv. constructor; [by apply IH|]. clear IH.
  induction Hf as [|x x' xs xs' (_ & Hx & _) Hf IH]; [constructor|]. apply Forall_cons in Hall as [Ha Hall].
  constructor; [|by apply IH; [by apply StronglySorted_inv in Hs as [? _]|]].
  unfold expires_after in *. by rewrite Hl, Hx.
Qed.

Lemma frame_owned regs regs' : same_frame regs regs' → owned regs → owned regs'.
Proof.
  intros Hf. induction Hf as [|g g' regs regs' (Ho & _ & _) Hf IH]; [done|].
  intros [? ?]%Forall_cons. constructor; [by rewrite Ho|by apply IH].
Qed.

Lemma settle_sim id h regs r spec :
  history_sim id h regs →
  match r, spec with
  | Ok h', Ok regs' => history_wf h' ∧ m_historyId h' = m_historyId h ∧ registrations h' = regs'
  | Throw e, Throw e' => e = e'
  | _, _ => False
  end →
  (∀ regs', spec = Ok regs' → expiry_sorted regs' ∧ owned regs') →
  history_sim id (fst (settle h r)) (fst (spec_settle regs spec))
  ∧ snd (settle h r) = snd (spec_settle regs spec).
Proof.
  intros Hsim Hm Hk. destruct r as [h'|e], spec as [regs'|e']; simpl; try done.
  - destruct Hm as (Hwf & Hid & Hr). destruct (Hk regs' eq_refl). rewrite observe_eq, Hr.
    split; [|done]. split; try done. by rewrite Hid, (sim_id _ _ _ Hsim).
  - subst. by rewrite observe_eq, (sim_regs _ _ _ Hsim).
Qed.

Lemma spec_change_frame guard f regs regs' : spec_change guard f regs = Ok regs' → same_frame regs regs'.
Proof. destruct regs as [|g regs]; simpl; [done|]. case_match; [|done]. intros [= <-]. apply (update_run_frame f _ (g :: regs)). Qed.

Lemma spec_setAlias_frame id a regs regs' : spec_setAlias id a regs = Ok regs' → same_frame regs regs'.
Proof.
  destruct regs as [|g regs]; [done|]. unfold spec_setAlias. case_decide; [|by apply spec_change_frame].
  intros [= <-]. constructor; [done|apply same_frame_refl].
Qed.

Lemma Forall_kept (P : Registration → Prop) height regs : Forall P regs → Forall P (kept height regs).
Proof.
  unfold kept. induction 1 as [|g regs Hg _ IH]; [constructor|]. rewrite filter_cons.
  case_decide; [by constructor|done].
Qed.

Lemma filter_sublist_sorted height regs : expiry_sorted regs → expiry_sorted (kept height regs).
Proof.
  unfold kept. induction 1 as [|g regs Hs IH Hall]; [constructor|]. rewrite filter_cons.
  case_decide; [|done]. constructor; [done|]. by apply Forall_kept.
Qed.

Lemma spec_push_ok id owner l b regs :
  op_ok regs (PushBack owner l b) → expiry_sorted regs → owned regs →
  expiry_sorted (spec_push id owner l b regs) ∧ owned (spec_push id owner l b regs).
Proof.
  intros [Hz Hl] Hs Ho. destruct regs as [|g regs]; simpl; [by repeat constructor|].
  assert (∀ g', reg_lifetime g' = l → Forall (expires_after g') (g :: regs)) as Hf.
  { intros g' Hg'. apply StronglySorted_inv in Hs as [_ Hall]. unfold expires_after in *. rewrite Hg'.
    constructor; [done|]. eapply Forall_impl; [exact Hall|]. simpl. lia. }
  case_decide as He; split; constructor; try done; try by apply Hf. simpl. congruence.
Qed.

Lemma history_step_refines id h regs op :
  history_sim id h regs → op_ok regs op →
  history_sim id (fst (history_step h op)) (fst (spec_step id regs op))
  ∧ snd (history_step h op) = snd (spec_step id regs op).
Proof.
  intros Hsim Hok. pose proof Hsim as [Hwf Hid Hr Hs Ho].
  assert (∀ regs' r, same_frame regs r → r = regs' → expiry_sorted regs' ∧ owned regs') as Hframe.
  { intros regs' r Hf <-. split; [by eapply frame_sorted|by eapply frame_owned]. }
  destruct op as [owner l b| |ns|cid|cid a|height|]; cbn [history_step spec_step].
  - apply settle_sim; [done| |].
    + rewrite <-Hid, <-Hr. by apply push_back_refines.
    + intros ? [= <-]. by apply (spec_push_ok id owner l b).
  - apply settle_sim; [done| |].
    + rewrite history_empty_eq, Hr. destruct regs as [|g regs]; [done|]. simpl.
      destruct (pop_back_refines h Hwf) as [? Ht]. split_and!; [done|done|]. by rewrite Ht, Hr.
    + intros regs' Hx. destruct regs as [|g regs]; simplify_eq.
      apply StronglySorted_inv in Hs as [? _]. by apply Forall_cons in Ho as [_ ?].
  - apply settle_sim; [done| |].
    + rewrite <-Hr. apply on_back_refines; [done|apply add_guard].
    + intros regs' Hx. eapply Hframe; [|done]. by eapply spec_change_frame.
  - apply settle_sim; [done| |].
    + rewrite <-Hr. apply on_back_refines; [done|apply remove_guard].
    + intros regs' Hx. eapply Hframe; [|done]. by eapply spec_change_frame.
  - apply settle_sim; [done| |].
    + rewrite <-Hr. by apply back_setAlias_refines.
    + intros regs' Hx. eapply Hframe; [|done]. by eapply spec_setAlias_frame.
  - rewrite <-Hr in Hs. destruct (history_prune_refines h height Hwf Hs) as (Hwf' & Hid' & Hr' & Hids).
    destruct (history_prune height h) as [h' ids]. simpl in *. rewrite observe_eq, Hr', Hids, Hr, Hid.
    split; [|done]. split; [done|congruence|congruence| |].
    + rewrite <-Hr. by apply filter_sublist_sorted.
    + by apply Forall_kept.
  - apply settle_sim; [done| |by intros ? [= <-]].
    destruct (copy_refines h Hwf) as (h' & -> & Hwf' & Hid' & Hr'); [|by rewrite Hr', Hr].
    rewrite <-Hr in Ho. unfold owned, registrations in Ho. by rewrite Forall_fmap in Ho.
Qed.

(** C13. A [RootNamespaceHistory], whose registrations of one owner share a
    table of children, behaves as a list of independent registrations in
    which a change of the active children is applied to the whole trailing
    run of the active owner: every sequence of [push_back], [pop_back],
    [add], [remove], [setAlias], [prune] and copy construction gives the same
    outcomes, pruned ids and counters (depth, depth of the active owner,
    active children, historical children) as on the list, for real owner keys
    and registrations that expire in order. *)
Theorem RootNamespaceHistory_refines_registrations id ops :
  trace_ok op_ok (spec_step id) [] ops →
  snd (trace history_step (new_RootNamespaceHistory id) ops) = snd (trace (spec_step id) [] ops)
  ∧ registrations (fst (trace history_step (new_RootNamespaceHistory id) ops)) = fst (trace (spec_step id) [] ops).
Proof.
  intros Hok.
  destruct (trace_simulation_ok (history_sim id) op_ok history_step (spec_step id)
    (history_step_refines id) ops (new_RootNamespaceHistory id) []) as [Hs Hr].
  - by split; [split| | |constructor|constructor].
  - done.
  - split; [done|]. apply (sim_regs _ _ _ Hs).
Qed.

(** Two registrations of one owner, a child added to the second one, a new
    owner, and pruning of the first two. *)
Definition sample_ops : list HistoryOp :=
  let life a b := {| Start := a; End := b; GracePeriodEnd := b + 5 |} in
  [PushBack [1] (life 1 10) true; AddChild [7; 8]; PushBack [1] (life 1 20) true; AddChild [7; 8; 9];
   RemoveChild 8; CopyHistory; SetAlias 8 (MosaicAlias 3); PushBack [2] (life 30 40) true; Prune 25].

Lemma RootNamespaceHistory_refines_registrations_witness :
  snd (trace history_step (new_RootNamespaceHistory 7) sample_ops) = snd (trace (spec_step 7) [] sample_ops)
  ∧ registrations (fst (trace history_step (new_RootNamespaceHistory 7) sample_ops))
    = fst (trace (spec_step 7) [] sample_ops).
Proof.
  apply (RootNamespaceHistory_refines_registrations 7 sample_ops).
  vm_compute. repeat split; done.
Defined.

End Namespaces.
