(* ===== verification/NamespaceCache.v ===== *)
(** Model of the namespace cache delta
    (plugins/txes/namespace/src/cache/NamespaceCacheDelta.cpp,
    NamespaceCacheMixins.h, catapult/cache/IdentifierGroupCacheUtils.h).

    A delta keeps the histories by root id, a flat map from every active
    namespace to its path, the root ids grouped by the height their
    registrations expire at, and two counters.  The three sets are the
    working copies of their delta sets (module DeltaSet); the copy a delta
    set makes of a history before it is changed has the same registrations
    (module Namespaces).  The file shows that the flat map, the groups and the
    counters stay consistent with the histories under every operation, that
    failed operations change nothing, and that removal undoes insertion. *)
From stdpp Require Import base tactics numbers option list sorting gmap.
From S2P Require Import Prelude NamespaceState.

Local Open Scope Z_scope.

Module NamespaceCache.
Import Namespaces.

(** * State *)

Record NamespaceCacheDelta := {
  m_pHistoryById : gmap Z RootNamespaceHistory;
  m_pNamespaceById : gmap Z (list Z);
  m_pRootNamespaceIdsByExpiryHeight : gmap Z (gset Z);
  Active : Z;
  Deep : Z;
  m_height : Z
}.

Definition set_histories (m : gmap Z RootNamespaceHistory) (c : NamespaceCacheDelta) : NamespaceCacheDelta :=
  {| m_pHistoryById := m; m_pNamespaceById := m_pNamespaceById c;
     m_pRootNamespaceIdsByExpiryHeight := m_pRootNamespaceIdsByExpiryHeight c;
     Active := Active c; Deep := Deep c; m_height := m_height c |}.
Definition set_flat (m : gmap Z (list Z)) (c : NamespaceCacheDelta) : NamespaceCacheDelta :=
  {| m_pHistoryById := m_pHistoryById c; m_pNamespaceById := m;
     m_pRootNamespaceIdsByExpiryHeight := m_pRootNamespaceIdsByExpiryHeight c;
     Active := Active c; Deep := Deep c; m_height := m_height c |}.
Definition set_groups (m : gmap Z (gset Z)) (c : NamespaceCacheDelta) : NamespaceCacheDelta :=
  {| m_pHistoryById := m_pHistoryById c; m_pNamespaceById := m_pNamespaceById c;
     m_pRootNamespaceIdsByExpiryHeight := m; Active := Active c; Deep := Deep c; m_height := m_height c |}.
Definition set_sizes (active deep : Z) (c : NamespaceCacheDelta) : NamespaceCacheDelta :=
  {| m_pHistoryById := m_pHistoryById c; m_pNamespaceById := m_pNamespaceById c;
     m_pRootNamespaceIdsByExpiryHeight := m_pRootNamespaceIdsByExpiryHeight c;
     Active := active; Deep := deep; m_height := m_height c |}.

(** [NamespaceDeepSizeMixin]. *)
Definition incrementActiveSize (delta : Z) c := set_sizes (add64 (Active c) delta) (Deep c) c.
Definition decrementActiveSize (delta : Z) c := set_sizes (sub64 (Active c) delta) (Deep c) c.
Definition incrementDeepSize (delta : Z) c := set_sizes (Active c) (add64 (Deep c) delta) c.
Definition decrementDeepSize (delta : Z) c := set_sizes (Active c) (sub64 (Deep c) delta) c.

(** * Groups of identifiers by height *)

Definition AddIdentifierWithGroup (key id : Z) (groups : gmap Z (gset Z)) : gmap Z (gset Z) :=
  let groups := if decide (is_Some (groups !! key)) then groups else <[key := ∅]> groups in
  alter (λ group, {[ id ]} ∪ group) key groups.

Definition RemoveIdentifierWithGroup (key id : Z) (groups : gmap Z (gset Z)) : gmap Z (gset Z) :=
  match groups !! key with
  | None => groups
  | Some group =>
      let group := group ∖ {[ id ]} in
      if decide (group = ∅) then delete key groups else <[key := group]> groups
  end.

(** The identifiers [ForEachIdentifierWithGroup] visits. *)
Definition GetAllIdentifiersWithGroup (groups : gmap Z (gset Z)) (key : Z) : gset Z :=
  default ∅ (groups !! key).

(** * Flat map *)

Definition AddAll (namespaceById : gmap Z (list Z)) (c : gmap Z ChildNamespaceData) : gmap Z (list Z) :=
  foldr (λ pair m, <[ns_id (child_path (snd pair)) := child_path (snd pair)]> m) namespaceById (map_to_list c).

Definition RemoveAll (namespaceById : gmap Z (list Z)) (c : gmap Z ChildNamespaceData) : gmap Z (list Z) :=
  foldr (λ pair m, delete (fst pair) m) namespaceById (map_to_list c).

(** * Operations *)

(** 1.2.0.0 *)
Definition AliasFixVersion : Z :=
  Z.lor (Z.lor (Z.lor (Z.shiftl 1 48) (Z.shiftl 2 32)) (Z.shiftl 0 16)) 0.

Section operations.
(** The grace period in blocks and the blockchain version that the
    configuration holder returns for a height. *)
Context (NamespaceGracePeriodDuration Version : Z → Z).
Implicit Types c : NamespaceCacheDelta.

Definition contains c (id : Z) : bool := bool_decide (is_Some (m_pNamespaceById c !! id)).

(** [NamespaceLookupMixin::find]: the path and the active root of [id] with
    the children it points to; [None] when the namespace is unknown. *)
Definition find (id : Z) : Exec NamespaceCacheDelta (option (list Z * Registration)) := λ c,
  match m_pNamespaceById c !! id with
  | None => (c, Ok None)
  | Some path =>
      match m_pHistoryById c !! rootId path with
      | None => (c, Throw undefined_behaviour)
      | Some h =>
          match back h with
          | None => (c, Throw undefined_behaviour)
          | Some r =>
              if decide (rootId path ≠ m_id r) then (c, Throw invalid_argument)
              else (c, Ok (Some (path, registration (m_store h) r)))
          end
      end
  end.

(** [NamespaceLookupMixin::isActive]. *)
Definition isActive c (id height : Z) : result bool :=
  match m_pNamespaceById c !! id with
  | None => Ok false
  | Some path =>
      match m_pHistoryById c !! rootId path with
      | None => Throw runtime_error
      | Some h => Ok (history_isActiveAndUnlocked h height)
      end
  end.

(** [insert(const RootNamespace&)]. *)
Definition insertRoot (id : Z) (owner : list Z) (l : NamespaceLifetime) : Exec NamespaceCacheDelta unit := λ c,
  match new_NamespaceLifetime (Start l) (End l) (NamespaceGracePeriodDuration (m_height c)) with
  | Throw e => (c, Throw e)
  | Ok nsLifetimeWithGracePeriod =>
      let c := set_groups (AddIdentifierWithGroup (GracePeriodEnd nsLifetimeWithGracePeriod) id
        (m_pRootNamespaceIdsByExpiryHeight c)) c in
      let setAliasOnRenew := AliasFixVersion <=? Version (m_height c) in
      match m_pHistoryById c !! id with
      | Some history =>
          match back history with
          | None => (c, Throw undefined_behaviour)
          | Some previous =>
              let activeChildren := children (m_store history) previous in
              let numChildren := Z.of_nat (size activeChildren) in
              let c :=
                if decide (m_owner previous ≠ owner)
                then decrementActiveSize numChildren (set_flat (RemoveAll (m_pNamespaceById c) activeChildren) c)
                else incrementDeepSize numChildren c in
              let history := push_back owner nsLifetimeWithGracePeriod setAliasOnRenew history in
              let c := set_histories (<[id := history]> (m_pHistoryById c)) c in
              (incrementDeepSize 1 c, Ok tt)
          end
      | None =>
          let history := push_back owner nsLifetimeWithGracePeriod setAliasOnRenew (new_RootNamespaceHistory id) in
          let c := set_histories (<[id := history]> (m_pHistoryById c)) c in
          let c := incrementDeepSize 1 (incrementActiveSize 1 c) in
          (set_flat (<[id := [id]]> (m_pNamespaceById c)) c, Ok tt)
      end
  end.

(** [insert(const Namespace&)]. *)
Definition insertChild (ns : list Z) : Exec NamespaceCacheDelta unit := λ c,
  match m_pHistoryById c !! rootId ns with
  | None => (c, Throw invalid_argument)
  | Some history =>
      match on_back (add ns) history with
      | Throw e => (c, Throw e)
      | Ok history =>
          let c := set_histories (<[rootId ns := history]> (m_pHistoryById c)) c in
          let c := incrementDeepSize (activeOwnerHistoryDepth history) (incrementActiveSize 1 c) in
          (set_flat (<[ns_id ns := ns]> (m_pNamespaceById c)) c, Ok tt)
      end
  end.

Definition setAlias (id : Z) (a : NamespaceAlias) : Exec NamespaceCacheDelta unit := λ c,
  match m_pNamespaceById c !! id with
  | None => (c, Throw invalid_argument)
  | Some path =>
      match m_pHistoryById c !! rootId path with
      | None => (c, Throw undefined_behaviour)
      | Some history =>
          match back_setAlias id a history with
          | Throw e => (c, Throw e)
          | Ok history => (set_histories (<[rootId path := history]> (m_pHistoryById c)) c, Ok tt)
          end
      end
  end.

Definition removeRoot (id : Z) : Exec NamespaceCacheDelta unit := λ c,
  match m_pHistoryById c !! id with
  | None => (c, Throw undefined_behaviour)
  | Some history =>
      match back history with
      | None => (c, Throw undefined_behaviour)
      | Some removedRoot =>
          let removedChildren := children (m_store history) removedRoot in
          if bool_decide (historyDepth history = 1) && negb (root_empty (m_store history) removedRoot)
          then (c, Throw runtime_error)
          else
            let history := pop_back history in
            let c := set_histories (<[id := history]> (m_pHistoryById c)) c in
            let c := set_groups (RemoveIdentifierWithGroup (GracePeriodEnd (m_lifetime removedRoot)) id
              (m_pRootNamespaceIdsByExpiryHeight c)) c in
            match back history with
            | None =>
                let c := set_histories (delete id (m_pHistoryById c)) c in
                let c := set_flat (delete id (m_pNamespaceById c)) c in
                (decrementDeepSize 1 (decrementActiveSize 1 c), Ok tt)
            | Some currentRoot =>
                let currentChildren := children (m_store history) currentRoot in
                let numRemovedChildren := Z.of_nat (size removedChildren) in
                let numRemovedChildrenAndRoot := 1 + numRemovedChildren in
                let c :=
                  if decide (m_owner removedRoot ≠ m_owner currentRoot) then
                    let c := set_flat (RemoveAll (m_pNamespaceById c) removedChildren) c in
                    let c := decrementActiveSize numRemovedChildren c in
                    let c := set_flat (AddAll (m_pNamespaceById c) currentChildren) c in
                    incrementActiveSize (Z.of_nat (size currentChildren)) c
                  else c in
                (decrementDeepSize numRemovedChildrenAndRoot c, Ok tt)
            end
      end
  end.

Definition removeChild (ns : list Z) : Exec NamespaceCacheDelta unit := λ c,
  match m_pHistoryById c !! rootId ns with
  | None => (c, Throw undefined_behaviour)
  | Some history =>
      match on_back (Namespaces.remove (ns_id ns)) history with
      | Throw e => (c, Throw e)
      | Ok history =>
          let c := set_histories (<[rootId ns := history]> (m_pHistoryById c)) c in
          let c := set_flat (delete (ns_id ns) (m_pNamespaceById c)) c in
          (decrementDeepSize (activeOwnerHistoryDepth history) (decrementActiveSize 1 c), Ok tt)
      end
  end.

Definition remove (id : Z) : Exec NamespaceCacheDelta unit := λ c,
  match m_pNamespaceById c !! id with
  | None => (c, Throw invalid_argument)
  | Some ns => if decide (rootId ns = id) then removeRoot id c else removeChild ns c
  end.

Record NamespaceSizes := { sizes_Active : Z; sizes_Deep : Z }.

Definition GetNamespaceSizes (history : RootNamespaceHistory) : NamespaceSizes :=
  {| sizes_Active := (if history_empty history then 0 else 1) + numActiveRootChildren history;
     sizes_Deep := historyDepth history + numAllHistoricalChildren history |}.

(** The action [prune] runs on the history of [id]. *)
Definition prune_history (height id : Z) (collectedIds : gset Z) c : NamespaceCacheDelta * gset Z :=
  match m_pHistoryById c !! id with
  | None => (c, collectedIds)
  | Some history =>
      let originalSizes := GetNamespaceSizes history in
      let '(history, removedIds) := history_prune height history in
      let newSizes := GetNamespaceSizes history in
      let c := set_histories (<[id := history]> (m_pHistoryById c)) c in
      let c := set_flat (foldr delete (m_pNamespaceById c) (elements removedIds)) c in
      let c := if history_empty history
        then set_histories (delete (m_historyId history) (m_pHistoryById c)) c else c in
      let c := decrementActiveSize (sub64 (sizes_Active originalSizes) (sizes_Active newSizes)) c in
      let c := decrementDeepSize (sub64 (sizes_Deep originalSizes) (sizes_Deep newSizes)) c in
      (c, collectedIds ∪ removedIds)
  end.

Definition prune (height : Z) : Exec NamespaceCacheDelta (gset Z) := λ c,
  let '(c, collectedIds) :=
    foldr (λ id '(c, ids), prune_history height id ids c) (c, ∅)
      (elements (GetAllIdentifiersWithGroup (m_pRootNamespaceIdsByExpiryHeight c) height)) in
  (c, Ok collectedIds).

(** [HeightBasedTouchMixin::touch]: the registrations that end at [height]. *)
Definition touch c (height : Z) : gset Z :=
  filter (λ id, match m_pHistoryById c !! id with
                | None => false
                | Some h => negb (history_isActive h height) && history_isActive h (sub64 height 1)
                end = true)
    (GetAllIdentifiersWithGroup (m_pRootNamespaceIdsByExpiryHeight c) height).

End operations.

(** * Consistency *)

(** The number of active namespaces and of all registered namespaces that a
    history stands for. *)
Definition active_size (h : RootNamespaceHistory) : Z := 1 + Z.of_nat (size (active_children (registrations h))).
Definition deep_size (h : RootNamespaceHistory) : Z :=
  Z.of_nat (length (registrations h)) + total_children (registrations h).

Section consistency.
(** Ids are hashes of the parent id and the name: an id stands for one path. *)
Context (path_of : Z → list Z).

(** Children are stored under their id, below this root, and below a parent
    one level up. *)
Definition children_ok (id : Z) (ch : gmap Z ChildNamespaceData) : Prop := ∀ x d, ch !! x = Some d →
  child_path d = path_of x ∧ rootId (path_of x) = id ∧ ns_id (path_of x) = x ∧ (2 ≤ length (path_of x))%nat
  ∧ (parentId (path_of x) = id
     ∨ ∃ d', ch !! parentId (path_of x) = Some d' ∧ length (child_path d') = (length (path_of x) - 1)%nat).

Record history_ok (id : Z) (h : RootNamespaceHistory) : Prop := {
  ho_wf : history_wf h;
  ho_id : m_historyId h = id;
  ho_path : path_of id = [id];
  ho_nonzero : id ≠ Namespace_Base_Id;
  ho_nonempty : registrations h ≠ [];
  ho_sorted : expiry_sorted (registrations h);
  ho_children : Forall (λ g, children_ok id (reg_children g)) (registrations h)
}.

(** The namespaces the histories make active. *)
Definition registered (hs : gmap Z RootNamespaceHistory) (x : Z) : Prop :=
  ∃ h, hs !! rootId (path_of x) = Some h
    ∧ (x = rootId (path_of x) ∨ is_Some (active_children (registrations h) !! x)).

Record cache_wf (c : NamespaceCacheDelta) : Prop := {
  cw_histories : ∀ id h, m_pHistoryById c !! id = Some h → history_ok id h;
  cw_flat : ∀ x p, m_pNamespaceById c !! x = Some p ↔ p = path_of x ∧ registered (m_pHistoryById c) x;
  cw_expiry : ∀ id h g, m_pHistoryById c !! id = Some h → g ∈ registrations h →
    id ∈ GetAllIdentifiersWithGroup (m_pRootNamespaceIdsByExpiryHeight c) (GracePeriodEnd (reg_lifetime g));
  cw_active : Active c = u64 (msum active_size (m_pHistoryById c));
  cw_deep : Deep c = u64 (msum deep_size (m_pHistoryById c))
}.

(** ** Sets *)

Lemma RemoveAll_lookup m ch x : RemoveAll m ch !! x = if decide (is_Some (ch !! x)) then None else m !! x.
Proof.
  unfold RemoveAll. assert (∀ l, (foldr (λ (pair : Z * ChildNamespaceData) m, delete (fst pair) m) m l) !! x
    = if decide (x ∈ l.*1) then None else m !! x) as ->.
  { induction l as [|[k v] l IH]; [done|]. simpl. rewrite lookup_delete, IH.
    repeat case_decide; rewrite ?elem_of_cons in *; naive_solver. }
  apply decide_ext. rewrite list_elem_of_fmap. split.
  - intros ([k v] & -> & Hk). apply elem_of_map_to_list in Hk. by exists v.
  - intros [v Hv]. exists (x, v). by rewrite elem_of_map_to_list.
Qed.

Lemma AddAll_lookup id m ch x :
  children_ok id ch → AddAll m ch !! x = if decide (is_Some (ch !! x)) then Some (path_of x) else m !! x.
Proof.
  intros Hok. unfold AddAll. pose proof (NoDup_fst_map_to_list ch) as Hnd.
  assert (∀ y d, (y, d) ∈ map_to_list ch → child_path d = path_of y ∧ ns_id (path_of y) = y) as Hp.
  { intros y d Hy%elem_of_map_to_list. by apply Hok in Hy as (? & _ & ? & _). }
  assert (is_Some (ch !! x) ↔ x ∈ (map_to_list ch).*1) as Hx.
  { rewrite list_elem_of_fmap. split.
    - intros [v Hv]. exists (x, v). by rewrite elem_of_map_to_list.
    - intros ([k v] & -> & Hk). apply elem_of_map_to_list in Hk. by exists v. }
  rewrite (decide_ext _ _ _ _ Hx). clear Hok Hx Hnd.
  induction (map_to_list ch) as [|[k v] l IH]; [done|]. cbn [foldr snd fmap list_fmap fst].
  destruct (Hp k v) as [-> ->]; [by left|]. rewrite lookup_insert, IH by (intros; apply Hp; by right).
  repeat case_decide; rewrite ?elem_of_cons in *; subst; naive_solver.
Qed.

Lemma delete_all_lookup {A} (m : gmap Z A) (X : gset Z) x :
  foldr delete m (elements X) !! x = if decide (x ∈ X) then None else m !! x.
Proof.
  rewrite (decide_ext (x ∈ X) (x ∈ elements X)) by (by rewrite elem_of_elements).
  induction (elements X) as [|k l IH]; [done|]. simpl. rewrite lookup_delete, IH.
  repeat case_decide; rewrite ?elem_of_cons in *; naive_solver.
Qed.

Abbreviation group := GetAllIdentifiersWithGroup.

Lemma add_group key id groups k :
  group (AddIdentifierWithGroup key id groups) k = if decide (k = key) then {[ id ]} ∪ group groups k else group groups k.
Proof.
  unfold GetAllIdentifiersWithGroup, AddIdentifierWithGroup. rewrite lookup_alter.
  destruct (decide (k = key)) as [->|Hk].
  - rewrite decide_True by done. case_decide as Hs.
    + by destruct Hs as [X ->].
    + rewrite lookup_insert_eq. apply eq_None_not_Some in Hs. by rewrite Hs.
  - rewrite decide_False by done. case_decide; [done|]. by rewrite lookup_insert_ne.
Qed.

Lemma remove_group key id groups k :
  group (RemoveIdentifierWithGroup key id groups) k = if decide (k = key) then group groups k ∖ {[ id ]} else group groups k.
Proof.
  unfold GetAllIdentifiersWithGroup, RemoveIdentifierWithGroup.
  destruct (decide (k = key)) as [->|Hk]; destruct (groups !! key) as [X|] eqn:E; rewrite ?E; simpl; try done; [|set_solver|].
  - case_decide as He; [by rewrite lookup_delete_eq|by rewrite lookup_insert_eq].
  - case_decide; [by rewrite lookup_delete_ne|by rewrite lookup_insert_ne].
Qed.

(** ** Sizes *)

Lemma add64_u64 a b : add64 (u64 a) b = u64 (a + b).
Proof. unfold add64, wrap. by rewrite Zplus_mod_idemp_l. Qed.

Lemma sub64_u64 a b : sub64 (u64 a) b = u64 (a - b).
Proof. unfold sub64, wrap. by rewrite Zminus_mod_idemp_l. Qed.

Lemma sub64_u64_sub64 a b d : sub64 (u64 a) (sub64 b d) = u64 (a - b + d).
Proof. rewrite sub64_u64. unfold sub64, wrap. rewrite Zminus_mod_idemp_r. f_equal. lia. Qed.

Lemma GetNamespaceSizes_ok h : registrations h ≠ [] →
  GetNamespaceSizes h = {| sizes_Active := active_size h; sizes_Deep := deep_size h |}.
Proof.
  intros Hn. unfold GetNamespaceSizes, active_size, deep_size.
  by rewrite history_empty_eq, bool_decide_false, numActiveRootChildren_eq, historyDepth_eq, numAllHistoricalChildren_eq.
Qed.

(** ** Replacing and removing one history *)

(** What a new flat map must say about the namespaces of root [id]. *)
Definition flat_updated (c : NamespaceCacheDelta) (flat : gmap Z (list Z)) (id : Z) (active : Z → Prop) : Prop :=
  ∀ x, (rootId (path_of x) ≠ id → flat !! x = m_pNamespaceById c !! x)
     ∧ (rootId (path_of x) = id → (active x → flat !! x = Some (path_of x)) ∧ (¬ active x → flat !! x = None)).

Definition active_in (id : Z) (h : RootNamespaceHistory) (x : Z) : Prop :=
  x = id ∨ is_Some (active_children (registrations h) !! x).

#[global] Instance active_in_dec id h x : Decision (active_in id h x).
Proof. unfold active_in. apply _. Defined.

Lemma wf_replace c c' id h :
  cache_wf c → history_ok id h →
  m_pHistoryById c' = <[id := h]> (m_pHistoryById c) →
  flat_updated c (m_pNamespaceById c') id (active_in id h) →
  (∀ i k, i ≠ id → i ∈ group (m_pRootNamespaceIdsByExpiryHeight c) k → i ∈ group (m_pRootNamespaceIdsByExpiryHeight c') k) →
  (∀ g, g ∈ registrations h → id ∈ group (m_pRootNamespaceIdsByExpiryHeight c') (GracePeriodEnd (reg_lifetime g))) →
  Active c' = u64 (msum active_size (<[id := h]> (m_pHistoryById c))) →
  Deep c' = u64 (msum deep_size (<[id := h]> (m_pHistoryById c))) →
  cache_wf c'.
Proof.
  intros Hwf Hok Hh Hflat Hg1 Hg2 Ha Hd. split; rewrite ?Hh; try done.
  - intros i h' [[-> ->]|[Hne Hi]]%lookup_insert_Some; [done|]. by apply (cw_histories c).
  - intros x p. unfold registered. destruct (Hflat x) as [Ho Hs].
    destruct (decide (rootId (path_of x) = id)) as [He|He].
    + destruct (Hs He) as [Hy Hn]. setoid_rewrite lookup_insert_Some. rewrite He.
      destruct (decide (active_in id h x)) as [Hd'|Hd'].
      * rewrite Hy by done. split; [intros [= <-]|naive_solver]. split; [done|]. exists h. split; [by left|].
        by destruct Hd'; [left|right].
      * rewrite Hn by done. split; [done|]. intros (_ & h' & [[_ <-]|[? _]] & Hx); [|done].
        exfalso. apply Hd'. by destruct Hx; [left|right].
    + rewrite Ho by done. rewrite lookup_insert_ne by done. apply (cw_flat c Hwf).
  - intros i h' g [[-> ->]|[Hne Hi]]%lookup_insert_Some Hg; [by apply Hg2|].
    apply Hg1; [done|]. by eapply (cw_expiry c).
Qed.

Lemma wf_forget c c' id :
  cache_wf c →
  m_pHistoryById c' = delete id (m_pHistoryById c) →
  flat_updated c (m_pNamespaceById c') id (λ _, False) →
  (∀ i k, i ≠ id → i ∈ group (m_pRootNamespaceIdsByExpiryHeight c) k → i ∈ group (m_pRootNamespaceIdsByExpiryHeight c') k) →
  Active c' = u64 (msum active_size (delete id (m_pHistoryById c))) →
  Deep c' = u64 (msum deep_size (delete id (m_pHistoryById c))) →
  cache_wf c'.
Proof.
  intros Hwf Hh Hflat Hg1 Ha Hd. split; rewrite ?Hh; try done.
  - intros i h' [Hne Hi]%lookup_delete_Some. by apply (cw_histories c).
  - intros x p. unfold registered. destruct (Hflat x) as [Ho Hs].
    destruct (decide (rootId (path_of x) = id)) as [He|He].
    + destruct (Hs He) as [_ Hn]. rewrite Hn by tauto. split; [done|].
      intros (_ & h' & [? _]%lookup_delete_Some & _). congruence.
    + rewrite Ho by done. rewrite lookup_delete_ne by done. apply (cw_flat c Hwf).
  - intros i h' g [Hne Hi]%lookup_delete_Some Hg. apply Hg1; [done|]. by eapply (cw_expiry c).
Qed.

(** The flat map of a consistent cache. *)
Lemma flat_lookup c x : cache_wf c →
  (registered (m_pHistoryById c) x → m_pNamespaceById c !! x = Some (path_of x))
  ∧ (¬ registered (m_pHistoryById c) x → m_pNamespaceById c !! x = None).
Proof.
  intros Hwf. split; intros Hx.
  - by apply (cw_flat c Hwf).
  - destruct (m_pNamespaceById c !! x) as [p|] eqn:E; [|done]. by apply (cw_flat c Hwf) in E as [_ ?].
Qed.

Lemma flat_of_root c id h x : cache_wf c → m_pHistoryById c !! id = Some h → rootId (path_of x) = id →
  m_pNamespaceById c !! x = if decide (active_in id h x) then Some (path_of x) else None.
Proof.
  intros Hwf Hh Hx. destruct (flat_lookup c x Hwf) as [Hy Hn]. case_decide as Ha.
  - apply Hy. exists h. rewrite Hx. split; [done|]. by destruct Ha; [left|right].
  - apply Hn. intros (h' & Hh' & Hor). rewrite Hx in Hh', Hor. simplify_eq. apply Ha. by destruct Hor; [left|right].
Qed.

(** ** Insertion of a root *)

Lemma back_registration h g rest : registrations h = g :: rest →
  ∃ r, back h = Some r ∧ registration (m_store h) r = g.
Proof.
  unfold registrations. rewrite back_newest. destruct (newest h) as [|r l]; [done|].
  intros [= <- _]. by exists r.
Qed.

Lemma back_None h : registrations h = [] → back h = None.
Proof. unfold registrations. rewrite back_newest. by destruct (newest h). Qed.

Lemma spec_push_children id owner l b regs g : g ∈ spec_push id owner l b regs →
  g ∈ regs ∨ reg_children g = ∅ ∨ ∃ g', g' ∈ regs ∧ reg_children g = reg_children g'.
Proof.
  destruct regs as [|g0 regs]; simpl; [by intros ->%list_elem_of_singleton; auto|].
  case_decide; intros [->|?]%elem_of_cons; auto. right. right. exists g0. split; [by left|done].
Qed.

(** The registration expires after the present ones. *)
Definition expires_last (h : RootNamespaceHistory) (l : NamespaceLifetime) : Prop :=
  match registrations h with [] => True | g :: _ => GracePeriodEnd (reg_lifetime g) < GracePeriodEnd l end.

Lemma push_history_ok id h owner l b :
  history_wf h → m_historyId h = id → path_of id = [id] → id ≠ Namespace_Base_Id →
  expiry_sorted (registrations h) → Forall (λ g, children_ok id (reg_children g)) (registrations h) →
  expires_last h l → history_ok id (push_back owner l b h).
Proof.
  intros Hwf Hid Hp Hz Hs Hc Hl. destruct (push_back_refines h owner l b Hwf) as (Hwf' & Hid' & Hr).
  split; rewrite ?Hr; try done; [congruence| | |].
  - destruct (registrations h); simpl; [done|]. by case_decide.
  - unfold expires_last in Hl. destruct (registrations h) as [|g regs] eqn:E; simpl; [by repeat constructor|].
    assert (∀ g', reg_lifetime g' = l → Forall (expires_after g') (g :: regs)) as Hf.
    { intros g' Hg'. apply StronglySorted_inv in Hs as [_ Hall]. unfold expires_after in *. rewrite Hg'.
      constructor; [done|]. eapply Forall_impl; [exact Hall|]. simpl. lia. }
    case_decide; constructor; try done; by apply Hf.
  - apply Forall_forall. intros g Hg. apply spec_push_children in Hg as [Hg|[->|(g' & Hg & ->)]].
    + rewrite Forall_forall in Hc. by apply Hc.
    + by intros ?? ?.
    + rewrite Forall_forall in Hc. by apply Hc.
Qed.

Section insert_root.
Context (NamespaceGracePeriodDuration Version : Z → Z).

(** What a registration of a root must satisfy: [id] is the id of a root, and
    the registration expires after the present ones. *)
Definition root_insertable (c : NamespaceCacheDelta) (id : Z) (l : NamespaceLifetime) : Prop :=
  path_of id = [id] ∧ id ≠ Namespace_Base_Id
  ∧ ∀ h l', m_pHistoryById c !! id = Some h →
      new_NamespaceLifetime (Start l) (End l) (NamespaceGracePeriodDuration (m_height c)) = Ok l' → expires_last h l'.

Lemma insertRoot_new c id owner l l' :
  cache_wf c → root_insertable c id l → m_pHistoryById c !! id = None →
  new_NamespaceLifetime (Start l) (End l) (NamespaceGracePeriodDuration (m_height c)) = Ok l' →
  cache_wf (fst (insertRoot NamespaceGracePeriodDuration Version id owner l c)).
Proof.
  intros Hwf (Hp & Hz & _) Hh Hl. unfold insertRoot. rewrite Hl.
  cbn [set_groups m_pHistoryById m_height m_pNamespaceById]. rewrite Hh. cbn [fst].
  set (h := push_back _ _ _ _).
  assert (registrations h = [{| reg_id := id; reg_alias := UnsetAlias; reg_owner := owner; reg_lifetime := l';
    reg_children := ∅ |}]) as Hr.
  { destruct (push_back_refines (new_RootNamespaceHistory id) owner l'
      (AliasFixVersion <=? Version (m_height c))) as (_ & _ & Hr); [by split|]. done. }
  apply (wf_replace c _ id h Hwf); cbn [set_flat set_histories set_groups set_sizes m_pHistoryById m_pNamespaceById
    m_pRootNamespaceIdsByExpiryHeight Active Deep incrementActiveSize incrementDeepSize].
  - by apply push_history_ok; try done; constructor.
  - done.
  - intros x. split; intros Hx.
    + rewrite lookup_insert_ne; [done|]. intros <-. by rewrite Hp in Hx.
    + unfold active_in. rewrite Hr. simpl. rewrite lookup_empty. split.
      * intros [->|[? [=]]]. by rewrite lookup_insert_eq, Hp.
      * intros Hn. rewrite lookup_insert_ne by naive_solver. apply flat_lookup; [done|].
        intros (h' & Hh' & _). rewrite Hx in Hh'. congruence.
  - intros i k _ Hi. rewrite add_group. case_decide; set_solver.
  - intros g. rewrite Hr. intros ->%list_elem_of_singleton. simpl. rewrite add_group, decide_True by done. set_solver.
  - rewrite (cw_active c Hwf), add64_u64, msum_insert_new by done. unfold active_size at 2. rewrite Hr. simpl.
    f_equal. rewrite map_size_empty. lia.
  - rewrite (cw_deep c Hwf), add64_u64, msum_insert_new by done. unfold deep_size at 2. rewrite Hr. simpl.
    f_equal. unfold child_count. simpl. rewrite map_size_empty. lia.
Qed.

(** The active registration of a history and the flat map below its root. *)
Lemma active_registration c id h :
  cache_wf c → m_pHistoryById c !! id = Some h →
  ∃ r g rest, back h = Some r ∧ registrations h = g :: rest
    ∧ children (m_store h) r = reg_children g ∧ m_owner r = reg_owner g ∧ m_id r = reg_id g
    ∧ m_lifetime r = reg_lifetime g
    ∧ (∀ x, is_Some (reg_children g !! x) → rootId (path_of x) = id ∧ x ≠ id)
    ∧ (∀ x, rootId (path_of x) = id → m_pNamespaceById c !! x
         = if decide (x = id ∨ is_Some (reg_children g !! x)) then Some (path_of x) else None).
Proof.
  intros Hwf Hh. pose proof (cw_histories c Hwf id h Hh) as [Hhwf Hid Hp _ Hne Hs Hc].
  destruct (registrations h) as [|g rest] eqn:E; [done|].
  destruct (back_registration h g rest E) as (r & Hb & Hr).
  exists r, g, rest. split_and!; try (by rewrite <-Hr); try done.
  - intros x [d Hd]. apply Forall_cons in Hc as [Hc _]. apply Hc in Hd as (_ & Hri & _ & Hlen & _).
    split; [done|]. intros ->. rewrite Hp in Hlen. simpl in Hlen. lia.
  - intros x Hx. rewrite (flat_of_root c id h x) by done.
    apply decide_ext. unfold active_in. by rewrite E.
Qed.

Lemma insertRoot_renew c id owner l l' h :
  cache_wf c → root_insertable c id l → m_pHistoryById c !! id = Some h →
  new_NamespaceLifetime (Start l) (End l) (NamespaceGracePeriodDuration (m_height c)) = Ok l' →
  cache_wf (fst (insertRoot NamespaceGracePeriodDuration Version id owner l c)).
Proof.
  intros Hwf (Hp & Hz & Hins) Hh Hl. specialize (Hins h l' Hh Hl). unfold insertRoot. rewrite Hl.
  cbn [set_groups m_pHistoryById m_height m_pNamespaceById]. rewrite Hh.
  pose proof (cw_histories c Hwf id h Hh) as [Hhwf Hid _ _ _ Hs Hc].
  destruct (active_registration c id h Hwf Hh) as (r & g & rest & Hb & E & Hrc & Hro & _ & _ & Hroot & Hflat).
  rewrite Hb, Hrc, Hro. cbn [fst]. set (b := AliasFixVersion <=? Version (m_height c)).
  destruct (push_back_refines h owner l' b Hhwf) as (_ & _ & Hregs). rewrite E in Hregs. simpl in Hregs.
  assert (∀ g', g' ∈ registrations (push_back owner l' b h) → id ∈ group (AddIdentifierWithGroup (GracePeriodEnd l') id
    (m_pRootNamespaceIdsByExpiryHeight c)) (GracePeriodEnd (reg_lifetime g'))) as Hexp.
  { intros g' Hg'. rewrite add_group.
    destruct (decide (GracePeriodEnd (reg_lifetime g') = GracePeriodEnd l')) as [_|Hne']; [set_solver|].
    rewrite Hregs in Hg'. destruct (decide (reg_owner g = owner)); (apply elem_of_cons in Hg' as [->|Hg']; [done|]);
      eapply (cw_expiry c Hwf); try done; by rewrite E. }
  assert (∀ i k, i ∈ group (m_pRootNamespaceIdsByExpiryHeight c) k →
    i ∈ group (AddIdentifierWithGroup (GracePeriodEnd l') id (m_pRootNamespaceIdsByExpiryHeight c)) k) as Hgrp.
  { intros i k Hi. rewrite add_group. destruct (decide (k = _)); set_solver. }
  pose proof (msum_insert active_size id h (push_back owner l' b h) _ Hh) as Hma.
  pose proof (msum_insert deep_size id h (push_back owner l' b h) _ Hh) as Hmd.
  unfold active_size at 3 4 in Hma. unfold deep_size at 3 4 in Hmd. rewrite Hregs, E in Hma, Hmd.
  assert (history_ok id (push_back owner l' b h)) as Hok by (by apply push_history_ok).
  destruct (decide (reg_owner g = owner)) as [He|He]; cbn -[Z.of_nat] in Hma, Hmd;
    unfold child_count in Hmd; cbn -[Z.of_nat] in Hmd;
    [rewrite decide_False by tauto|rewrite decide_True by done];
    apply (wf_replace c _ id (push_back owner l' b h) Hwf Hok); cbn; try done.
  - intros x. split; [done|]. intros Hx. unfold active_in. rewrite Hregs. cbn. rewrite (Hflat x Hx). by case_decide.
  - intros i k _. apply Hgrp.
  - rewrite Hma, (cw_active c Hwf). f_equal. lia.
  - rewrite Hmd, (cw_deep c Hwf), !add64_u64. f_equal. lia.
  - intros x. rewrite RemoveAll_lookup. split; intros Hx; [by rewrite decide_False by (by intros [? _]%Hroot)|].
    unfold active_in. rewrite Hregs. cbn. rewrite (Hflat x Hx), lookup_empty.
    repeat case_decide; split; naive_solver.
  - intros i k _. apply Hgrp.
  - rewrite Hma, (cw_active c Hwf), sub64_u64, map_size_empty. f_equal. lia.
  - rewrite Hmd, (cw_deep c Hwf), add64_u64, map_size_empty. f_equal. lia.
Qed.

Lemma insertRoot_wf c id owner l :
  cache_wf c → root_insertable c id l →
  cache_wf (fst (insertRoot NamespaceGracePeriodDuration Version id owner l c)).
Proof.
  intros Hwf Hins.
  destruct (new_NamespaceLifetime (Start l) (End l) (NamespaceGracePeriodDuration (m_height c))) as [l'|e] eqn:El.
  - destruct (m_pHistoryById c !! id) as [h|] eqn:Eh; [by eapply insertRoot_renew|by eapply insertRoot_new].
  - unfold insertRoot. by rewrite El.
Qed.

End insert_root.

(** ** Changes of the active children *)

Lemma same_frame_run regs regs' : same_frame regs regs' → ∀ owner, run_length owner regs' = run_length owner regs.
Proof. induction 1 as [|g g' regs regs' (Ho & _) _ IH]; intros owner; [done|]. simpl. by rewrite Ho, IH. Qed.

Lemma same_frame_active_run regs regs' : same_frame regs regs' → active_run regs' = active_run regs.
Proof.
  intros Hf. pose proof (same_frame_run _ _ Hf) as Hr. destruct Hf as [|g g' regs regs' (Ho & _) Hf]; [done|].
  unfold active_run. by rewrite Hr, Ho.
Qed.

Lemma history_uniform h g rest : history_wf h → registrations h = g :: rest →
  run_uniform (reg_owner g) (reg_children g) (g :: rest).
Proof.
  intros [Hl _ _]. unfold registrations. destruct (newest h) as [|r l]; [done|].
  intros [= <- <-] _. split; [done|]. by apply registrations_uniform.
Qed.

Lemma update_run_children (P : gmap Z ChildNamespaceData → Prop) f owner ch regs :
  run_uniform owner ch regs → P (f ch) → Forall (λ g, P (reg_children g)) regs →
  Forall (λ g, P (reg_children g)) (update_run f owner regs).
Proof.
  intros Hu Hf. induction regs as [|g regs IH]; [constructor|]. intros [Hg Hrest]%Forall_cons. simpl.
  destruct (decide (owner ≠ reg_owner g)) as [|Ho%dec_stable]; [by constructor|].
  destruct (Hu Ho) as [Hc Hu']. constructor; [simpl; by rewrite Hc|by apply IH].
Qed.

(** What a change [f] of the active children does to a history. *)
Record changed (f : gmap Z ChildNamespaceData → gmap Z ChildNamespaceData) (h h' : RootNamespaceHistory) (g : Registration)
    (rest : list Registration) : Prop := {
  ch_before : registrations h = g :: rest;
  ch_after : registrations h' = update_run f (reg_owner g) (g :: rest)
}.

Lemma update_run_head f g rest :
  update_run f (reg_owner g) (g :: rest) = map_children f g :: update_run f (reg_owner g) rest.
Proof. simpl. rewrite decide_False; [done|]. by intros []. Qed.

Lemma changed_active f h h' g rest :
  changed f h h' g rest → active_children (registrations h') = f (reg_children g).
Proof. intros [_ ->]. by rewrite update_run_head. Qed.

Lemma changed_sizes f h h' g rest :
  history_wf h → changed f h h' g rest →
  let delta := Z.of_nat (size (f (reg_children g))) - Z.of_nat (size (reg_children g)) in
  active_size h' = active_size h + delta ∧ deep_size h' = deep_size h + delta * activeOwnerHistoryDepth h'.
Proof.
  intros Hwf Hch delta. pose proof Hch as [Hb Ha]. pose proof (history_uniform h g rest Hwf Hb) as Hu. split.
  - unfold active_size. rewrite (changed_active f h h' g rest Hch), Hb. simpl. lia.
  - rewrite activeOwnerHistoryDepth_eq. unfold deep_size.
    rewrite Ha, (same_frame_active_run _ _ (update_run_frame _ _ _)), update_run_length, Hb.
    rewrite (update_run_total _ _ _ _ Hu). unfold active_run, delta. lia.
Qed.

Lemma changed_ok id f h h' g rest :
  history_ok id h → changed f h h' g rest → history_wf h' → m_historyId h' = m_historyId h →
  children_ok id (f (reg_children g)) → history_ok id h'.
Proof.
  intros [Hwf Hid Hp Hz Hne Hs Hc] [Hb Ha] Hwf' Hid' Hf.
  pose proof (update_run_frame f (reg_owner g) (registrations h)) as Hfr. rewrite Hb in Hfr.
  split; try done; [congruence| | |]; rewrite Ha.
  - by rewrite update_run_head.
  - eapply frame_sorted; [exact Hfr|]. by rewrite <-Hb.
  - apply (update_run_children (children_ok id) f _ (reg_children g));
      [by apply (history_uniform h)|done|by rewrite <-Hb].
Qed.

Lemma on_back_changed h h' op (guard : Registration → bool) (f : gmap Z ChildNamespaceData → gmap Z ChildNamespaceData) :
  history_wf h →
  (∀ r σ, op r σ = if guard (registration σ r) then Ok (update_children f r σ) else Throw invalid_argument) →
  on_back op h = Ok h' →
  history_wf h' ∧ m_historyId h' = m_historyId h ∧ ∃ g rest, changed f h h' g rest ∧ guard g = true.
Proof.
  intros Hwf Hop Hr. pose proof (on_back_refines h op guard f Hwf Hop) as H. rewrite Hr in H.
  unfold spec_change in H. destruct (registrations h) as [|g rest] eqn:E; [done|].
  destruct (guard g) eqn:Eg; [|done]. destruct H as (? & ? & ?). split_and!; try done. by exists g, rest.
Qed.

(** Replacing a history by one with changed children keeps owners, lifetimes
    and therefore the groups. *)
Lemma wf_changed c c' id h h' f g rest :
  cache_wf c → m_pHistoryById c !! id = Some h → history_ok id h' → changed f h h' g rest →
  m_pHistoryById c' = <[id := h']> (m_pHistoryById c) →
  m_pRootNamespaceIdsByExpiryHeight c' = m_pRootNamespaceIdsByExpiryHeight c →
  (∀ x, rootId (path_of x) ≠ id → m_pNamespaceById c' !! x = m_pNamespaceById c !! x) →
  (∀ x, rootId (path_of x) = id → m_pNamespaceById c' !! x
     = if decide (x = id ∨ is_Some (f (reg_children g) !! x)) then Some (path_of x) else None) →
  Active c' = u64 (msum active_size (m_pHistoryById c) + (active_size h' - active_size h)) →
  Deep c' = u64 (msum deep_size (m_pHistoryById c) + (deep_size h' - deep_size h)) →
  cache_wf c'.
Proof.
  intros Hwf Hh Hok Hch Hhs Hgs Ho Hi Ha Hd. apply (wf_replace c c' id h' Hwf Hok Hhs); rewrite ?Hgs.
  - intros x. split; [apply Ho|]. intros Hx. unfold active_in. rewrite (changed_active f h h' g rest Hch).
    rewrite (Hi x Hx). by case_decide.
  - done.
  - intros g' Hg'. destruct Hch as [Hb Haf]. rewrite Haf, list_elem_of_lookup in Hg'. destruct Hg' as [i Hg'].
    destruct (Forall2_lookup_r _ _ _ _ _ (update_run_frame f (reg_owner g) (g :: rest)) Hg') as (g0 & Hg0 & _ & -> & _).
    eapply (cw_expiry c Hwf); [done|]. rewrite Hb. by eapply list_elem_of_lookup_2.
  - rewrite Ha. f_equal. rewrite (msum_insert _ _ h) by done. lia.
  - rewrite Hd. f_equal. rewrite (msum_insert _ _ h) by done. lia.
Qed.

(** ** Insertion and removal of a child *)

Lemma insert_children_ok id ns g :
  id ≠ Namespace_Base_Id → reg_id g = id → ns = path_of (ns_id ns) → children_ok id (reg_children g) →
  can_add ns g = true → children_ok id (<[ns_id ns := {| child_path := ns; child_alias := UnsetAlias |}]> (reg_children g)).
Proof.
  intros Hz Hid Hns Hc Hadd. unfold can_add in Hadd. rewrite !andb_true_iff in Hadd.
  destruct Hadd as [[Hnew%bool_decide_eq_true Hroot%bool_decide_eq_true] Hpar].
  assert (parentId ns = id ∧ (2 ≤ length ns)%nat ∨ (∃ d', reg_children g !! parentId ns = Some d'
    ∧ length (child_path d') = (length ns - 1)%nat) ∧ (2 ≤ length ns)%nat) as Hpar'.
  { apply orb_true_iff in Hpar as [Hpar%bool_decide_eq_true|Hpar].
    - left. split; [congruence|]. destruct ns as [|a [|b ns]]; simpl; [|exfalso|lia].
      + simpl in Hroot. unfold rootId in Hroot. simpl in Hroot. unfold Namespace_Base_Id in Hz. congruence.
      + unfold parentId in Hpar. simpl in Hpar. congruence.
    - right. destruct (reg_children g !! parentId ns) as [d'|] eqn:E; [|done]. apply bool_decide_eq_true in Hpar.
      split; [by exists d'|]. apply Hc in E as (Hp & _ & _ & Hl & _). rewrite Hp in Hpar. lia. }
  intros x d Hx. apply lookup_insert_Some in Hx as [[<- <-]|[Hne Hx]].
  - rewrite <-Hns. split_and!; [done|congruence|done|by destruct Hpar' as [[]|[]]|].
    destruct Hpar' as [[]|[(d' & Hd' & Hl) _]]; [by left|]. right. exists d'. split; [|done].
    rewrite lookup_insert_ne; [done|]. intros Hx. congruence.
  - apply Hc in Hx as (Hp & Hr & Hi & Hl & Hor). split_and!; try done.
    destruct Hor as [|(d' & Hd' & Hl')]; [by left|]. right. exists d'. split; [|done].
    rewrite lookup_insert_ne; [done|]. intros Hx. congruence.
Qed.

Lemma descendent_blocks id x y d d' ch :
  children_ok id ch → ch !! x = Some d → ch !! y = Some d' → parentId (path_of y) = x →
  length (child_path d) = (length (path_of y) - 1)%nat →
  hasDescendents (length (child_path d)) x ch = true.
Proof.
  intros Hc Hx Hy Hp Hl. unfold hasDescendents. apply existsb_exists. exists (y, d').
  split; [by apply list_elem_of_In, elem_of_map_to_list|]. simpl. unfold descends.
  pose proof (Hc y d' Hy) as (Hpy & _ & _ & Hly & _). rewrite Hpy.
  apply andb_true_iff. split; [apply bool_decide_true; lia|]. apply bool_decide_true.
  unfold parentId in Hp. rewrite decide_False in Hp by lia.
  replace (length (child_path d) - 1)%nat with (length (path_of y) - 2)%nat by lia.
  destruct (lookup_lt_is_Some_2 (path_of y) (length (path_of y) - 2)) as [v Hv]; [lia|].
  rewrite Hv in Hp |- *. simpl in Hp. congruence.
Qed.

Lemma remove_children_ok id x g :
  path_of id = [id] → children_ok id (reg_children g) → can_remove x g = true →
  children_ok id (delete x (reg_children g)).
Proof.
  intros Hid Hc Hrem. unfold can_remove in Hrem. destruct (reg_children g !! x) as [d|] eqn:Ex; [|done].
  apply negb_true_iff in Hrem. intros y d' [Hne Hy]%lookup_delete_Some.
  pose proof (Hc y d' Hy) as (Hp & Hr & Hi & Hl & Hor). split_and!; try done.
  destruct Hor as [|(p & Hp' & Hlp)]; [by left|]. right. exists p. split; [|done].
  apply lookup_delete_Some. split; [|done]. intros Heq. rewrite <-Heq, Ex in Hp'. injection Hp' as <-.
  by rewrite (descendent_blocks id x y d d' (reg_children g)) in Hrem.
Qed.

Lemma insert_run_size (ch : gmap Z ChildNamespaceData) x d : ch !! x = None →
  Z.of_nat (size (<[x := d]> ch)) - Z.of_nat (size ch) = 1.
Proof. intros Hx. rewrite map_size_insert, Hx. simpl. lia. Qed.

Lemma delete_run_size (ch : gmap Z ChildNamespaceData) x : is_Some (ch !! x) →
  Z.of_nat (size (delete x ch)) - Z.of_nat (size ch) = -1.
Proof.
  intros [d Hx]. rewrite <-(insert_delete_id ch x d Hx) at 2.
  rewrite map_size_insert, lookup_delete_eq. simpl. lia.
Qed.

Lemma can_add_new ns g : can_add ns g = true → reg_children g !! ns_id ns = None.
Proof. unfold can_add. rewrite !andb_true_iff. by intros [[?%bool_decide_eq_true _] _]. Qed.

Lemma can_remove_old x g : can_remove x g = true → is_Some (reg_children g !! x).
Proof. unfold can_remove. by destruct (reg_children g !! x). Qed.

Lemma registrations_ids h : history_wf h → Forall (λ g, reg_id g = m_historyId h) (registrations h).
Proof. intros [_ _ Hi]. unfold registrations. by apply Forall_fmap. Qed.

Lemma insertChild_wf c ns :
  cache_wf c → ns = path_of (ns_id ns) → cache_wf (fst (insertChild ns c)).
Proof.
  intros Hwf Hns. unfold insertChild. destruct (m_pHistoryById c !! rootId ns) as [h|] eqn:Hh; [|done].
  destruct (on_back (add ns) h) as [h'|e] eqn:Eb; [|done].
  pose proof (cw_histories c Hwf _ _ Hh) as Hok. pose proof Hok as [Hhwf Hid Hp Hz _ _ Hc].
  destruct (on_back_changed h h' (add ns) (can_add ns) _ Hhwf (add_guard ns) Eb) as (Hwf' & Hid' & g & rest & Hch & Hg).
  pose proof Hch as [Hb Ha]. destruct (active_registration c _ h Hwf Hh) as (r & g0 & rest0 & _ & E & _ & _ & _ & _ & Hroot & Hflat).
  rewrite Hb in E. injection E as <- <-. rewrite Hb in Hc. apply Forall_cons in Hc as [Hc _].
  assert (children_ok (rootId ns) (<[ns_id ns := {| child_path := ns; child_alias := UnsetAlias |}]> (reg_children g))) as Hcok.
  { apply insert_children_ok; try done. pose proof (registrations_ids h Hhwf) as Hi. rewrite Hb, Hid in Hi.
    by apply Forall_cons in Hi as [? _]. }
  pose proof (changed_sizes _ _ _ _ _ Hhwf Hch) as [Hsa Hsd].
  rewrite insert_run_size in Hsa, Hsd by (by apply can_add_new).
  apply (wf_changed c _ (rootId ns) h h' _ g rest Hwf Hh (changed_ok _ _ _ _ _ _ Hok Hch Hwf' Hid' Hcok) Hch); cbn; try done.
  - intros x Hx. rewrite lookup_insert_ne; [done|]. intros <-. by rewrite <-Hns in Hx.
  - intros x Hx. destruct (decide (x = ns_id ns)) as [->|Hne].
    + rewrite lookup_insert_eq, decide_True by (right; by rewrite lookup_insert_eq). by rewrite <-Hns.
    + rewrite lookup_insert_ne, (Hflat x Hx) by done. apply decide_ext. by rewrite lookup_insert_ne.
  - rewrite (cw_active c Hwf), add64_u64, Hsa. f_equal. lia.
  - rewrite (cw_deep c Hwf), add64_u64, Hsd. f_equal. lia.
Qed.

Lemma removeChild_wf c x ns :
  cache_wf c → m_pNamespaceById c !! x = Some ns → rootId ns ≠ x → cache_wf (fst (removeChild ns c)).
Proof.
  intros Hwf Hf Hne. unfold removeChild. destruct (m_pHistoryById c !! rootId ns) as [h|] eqn:Hh; [|done].
  destruct (on_back _ h) as [h'|e] eqn:Eb; [|done].
  pose proof (cw_histories c Hwf _ _ Hh) as Hok. pose proof Hok as [Hhwf Hid Hp Hz _ _ Hc].
  destruct (on_back_changed h h' _ (can_remove (ns_id ns)) _ Hhwf (remove_guard (ns_id ns)) Eb)
    as (Hwf' & Hid' & g & rest & Hch & Hg).
  pose proof Hch as [Hb Ha]. destruct (active_registration c _ h Hwf Hh) as (r & g0 & rest0 & _ & E & _ & _ & _ & _ & Hroot & Hflat).
  rewrite Hb in E. injection E as <- <-. rewrite Hb in Hc. apply Forall_cons in Hc as [Hc _].
  pose proof (remove_children_ok _ _ _ Hp Hc Hg) as Hcok.
  pose proof (changed_sizes _ _ _ _ _ Hhwf Hch) as [Hsa Hsd].
  rewrite delete_run_size in Hsa, Hsd by (by apply can_remove_old).
  destruct (Hroot (ns_id ns)) as [Hrid Hnid]; [by apply can_remove_old|].
  apply (wf_changed c _ (rootId ns) h h' _ g rest Hwf Hh (changed_ok _ _ _ _ _ _ Hok Hch Hwf' Hid' Hcok) Hch); cbn; try done.
  - intros y Hy. rewrite lookup_delete_ne; [done|]. intros <-. congruence.
  - intros y Hy. destruct (decide (y = ns_id ns)) as [->|Hney].
    + rewrite lookup_delete_eq, decide_False; [done|]. rewrite lookup_delete_eq. by intros [?|[? [=]]].
    + rewrite lookup_delete_ne, (Hflat y Hy) by done. apply decide_ext. by rewrite lookup_delete_ne.
  - rewrite (cw_active c Hwf), sub64_u64, Hsa. f_equal. lia.
  - rewrite (cw_deep c Hwf), sub64_u64, Hsd. f_equal. lia.
Qed.

(** ** Aliases *)

Lemma set_alias_lookup x a (ch : gmap Z ChildNamespaceData) k d : ch !! k = Some d →
  ∃ d', alter (set_child_alias a) x ch !! k = Some d' ∧ child_path d' = child_path d.
Proof.
  intros Hk. rewrite lookup_alter. case_decide as Hx; [|by exists d].
  exists (set_child_alias a d). subst. by rewrite Hk.
Qed.

Lemma set_alias_size x a (ch : gmap Z ChildNamespaceData) : size (alter (set_child_alias a) x ch) = size ch.
Proof. rewrite <-!size_dom. by rewrite dom_alter_L. Qed.

Lemma set_alias_children_ok id x a ch : children_ok id ch → children_ok id (alter (set_child_alias a) x ch).
Proof.
  intros Hc y d Hy. apply lookup_alter_Some in Hy as [(_ & d0 & Hy & ->)|[Hne Hy]];
    apply Hc in Hy as (Hp & Hr & Hi & Hl & Hor); split_and!; try done.
  all: destruct Hor as [|(p & Hp' & Hlp)]; [by left|]; right.
  all: destruct (set_alias_lookup x a ch _ _ Hp') as (d' & Hd' & Hpath); exists d'; by rewrite Hpath.
Qed.

Lemma setAlias_wf c id a : cache_wf c → cache_wf (fst (setAlias id a c)).
Proof.
  intros Hwf. unfold setAlias. destruct (m_pNamespaceById c !! id) as [path|] eqn:Ef; [|done].
  destruct (m_pHistoryById c !! rootId path) as [h|] eqn:Hh; [|done].
  pose proof (cw_histories c Hwf _ _ Hh) as Hok. pose proof Hok as [Hhwf Hid Hp Hz Hne Hs Hc].
  pose proof (back_setAlias_refines h id a Hhwf) as Hr.
  destruct (back_setAlias id a h) as [h'|e]; [|done].
  destruct (spec_setAlias id a (registrations h)) as [regs'|e] eqn:Es; [|done].
  destruct Hr as (Hwf' & Hid' & Hr). pose proof (spec_setAlias_frame _ _ _ _ Es) as Hfr.
  destruct (active_registration c _ h Hwf Hh) as (r & g & rest & _ & E & _ & _ & _ & _ & Hroot & Hflat).
  rewrite E in Es, Hs, Hc, Hfr. unfold spec_setAlias in Es. destruct (decide (reg_id g = id)) as [He|He].
  - injection Es as <-. apply (wf_replace c _ (rootId path) h' Hwf); cbn.
    + split; rewrite ?Hr; try done; [congruence|by eapply frame_sorted|].
      apply Forall_cons in Hc as [? ?]. by constructor.
    + done.
    + intros x. split; [done|]. intros Hx. unfold active_in. rewrite Hr. cbn. rewrite (Hflat x Hx). by case_decide.
    + done.
    + intros g' Hg'. rewrite Hr in Hg'. assert (∃ g0, g0 ∈ g :: rest ∧ reg_lifetime g0 = reg_lifetime g') as (g0 & Hg0 & <-).
      { apply elem_of_cons in Hg' as [->|Hg']; [exists g|exists g']; (split; [|done]); [by left|by right]. }
      eapply (cw_expiry c Hwf); [done|]. by rewrite E.
    + rewrite (cw_active c Hwf), (msum_insert _ _ h) by done. unfold active_size at 3 4. rewrite Hr, E. cbn. f_equal. lia.
    + rewrite (cw_deep c Hwf), (msum_insert _ _ h) by done. unfold deep_size at 3 4. rewrite Hr, E. cbn.
      unfold child_count. cbn. f_equal. lia.
  - unfold spec_change in Es. destruct (bool_decide (is_Some (reg_children g !! id))); [|done]. injection Es as Es.
    assert (changed (alter (set_child_alias a) id) h h' g rest) as Hch by (split; [done|by rewrite Hr, <-Es]).
    pose proof Hc as [Hcg _]%Forall_cons.
    pose proof (changed_sizes _ _ _ _ _ Hhwf Hch) as [Hsa Hsd]. rewrite set_alias_size in Hsa, Hsd.
    apply (wf_changed c _ (rootId path) h h' _ g rest Hwf Hh
      (changed_ok _ _ _ _ _ _ Hok Hch Hwf' Hid' (set_alias_children_ok _ id a _ Hcg)) Hch); cbn; try done.
    + intros x Hx. rewrite (Hflat x Hx). apply decide_ext. by rewrite lookup_alter_is_Some.
    + rewrite (cw_active c Hwf), Hsa. f_equal. lia.
    + rewrite (cw_deep c Hwf), Hsd. f_equal. lia.
Qed.

(** ** Removal of a root *)

Lemma removeRoot_last c id h g :
  cache_wf c → m_pHistoryById c !! id = Some h → registrations h = [g] →
  cache_wf (fst (removeRoot id c)).
Proof.
  intros Hwf Hh E. unfold removeRoot. rewrite Hh.
  pose proof (cw_histories c Hwf _ _ Hh) as [Hhwf Hid Hp Hz Hne Hs Hc].
  destruct (active_registration c id h Hwf Hh) as (r & g0 & rest & Hb & E' & Hrc & _ & _ & _ & Hroot & Hflat).
  rewrite E in E'. injection E' as <- <-. rewrite Hb. rewrite historyDepth_eq, E.
  rewrite (bool_decide_true (Z.of_nat (length [g]) = 1)) by done. simpl.
  unfold root_empty. rewrite Hrc. case_bool_decide as He; [|done]. simpl.
  destruct (pop_back_refines h Hhwf) as [_ Hpop]. rewrite E in Hpop.
  rewrite (back_None (pop_back h) Hpop). apply (wf_forget c _ id Hwf); cbn.
  - by rewrite delete_insert_eq.
  - intros x. split; intros Hx.
    + rewrite lookup_delete_ne; [done|]. intros <-. by rewrite Hp in Hx.
    + split; [done|]. intros _. rewrite lookup_delete. case_decide as Hd; [done|].
      rewrite (Hflat x Hx), decide_False; [done|]. rewrite He, lookup_empty. intros [->|[? [=]]]. done.
  - intros i k Hi Hin. rewrite remove_group. case_decide; set_solver.
  - rewrite (cw_active c Hwf), sub64_u64, (msum_delete _ id h) by done. unfold active_size at 1. rewrite E. cbn.
    rewrite He, map_size_empty. f_equal. lia.
  - rewrite (cw_deep c Hwf), sub64_u64, (msum_delete _ id h) by done. unfold deep_size at 1. rewrite E. cbn.
    unfold child_count. rewrite He, map_size_empty. f_equal. lia.
Qed.

Lemma removeRoot_previous c id h g g2 rest :
  cache_wf c → m_pHistoryById c !! id = Some h → registrations h = g :: g2 :: rest →
  cache_wf (fst (removeRoot id c)).
Proof.
  intros Hwf Hh E. unfold removeRoot. rewrite Hh.
  pose proof (cw_histories c Hwf _ _ Hh) as [Hhwf Hid Hp Hz Hne Hs Hc].
  destruct (active_registration c id h Hwf Hh) as (r & g0 & rest0 & Hb & E' & Hrc & Hro & _ & Hrl & Hroot & Hflat).
  rewrite E in E'. injection E' as <- <-. rewrite Hb. rewrite historyDepth_eq, E.
  rewrite (bool_decide_false (Z.of_nat _ = 1)) by (simpl; lia). cbn [andb].
  destruct (pop_back_refines h Hhwf) as [Hwf' Hpop]. rewrite E in Hpop. cbn [tail] in Hpop.
  destruct (back_registration _ _ _ Hpop) as (r2 & Hb2 & Hr2). rewrite Hb2.
  assert (children (m_store (pop_back h)) r2 = reg_children g2) as Hrc2 by (by rewrite <-Hr2).
  assert (m_owner r2 = reg_owner g2) as Hro2 by (by rewrite <-Hr2). rewrite Hrc, Hro, Hrl, Hrc2, Hro2.
  rewrite E in Hs, Hc. apply StronglySorted_inv in Hs as [Hs Hall]. pose proof Hc as [Hcg Hc']%Forall_cons.
  pose proof Hc' as [Hcg2 _]%Forall_cons.
  assert (history_ok id (pop_back h)) as Hok by (by split; rewrite ?Hpop).
  pose proof (history_uniform h g (g2 :: rest) Hhwf E) as Hu.
  pose proof (msum_insert active_size id h (pop_back h) _ Hh) as Hma.
  pose proof (msum_insert deep_size id h (pop_back h) _ Hh) as Hmd.
  unfold active_size at 3 4 in Hma. unfold deep_size at 3 4 in Hmd. rewrite Hpop, E in Hma, Hmd.
  cbn -[Z.of_nat] in Hma, Hmd. unfold child_count in Hmd.
  assert (∀ i k, i ≠ id → i ∈ group (m_pRootNamespaceIdsByExpiryHeight c) k →
    i ∈ group (RemoveIdentifierWithGroup (GracePeriodEnd (reg_lifetime g)) id (m_pRootNamespaceIdsByExpiryHeight c)) k) as Hg1.
  { intros i k Hi Hin. rewrite remove_group. case_decide; set_solver. }
  assert (∀ g', g' ∈ registrations (pop_back h) → id ∈ group (RemoveIdentifierWithGroup (GracePeriodEnd (reg_lifetime g)) id
    (m_pRootNamespaceIdsByExpiryHeight c)) (GracePeriodEnd (reg_lifetime g'))) as Hg2.
  { intros g' Hg'. rewrite Hpop in Hg'. rewrite remove_group, decide_False.
    - eapply (cw_expiry c Hwf); [done|]. rewrite E. by right.
    - rewrite Forall_forall in Hall. apply Hall in Hg'. unfold expires_after in Hg'. lia. }
  destruct (decide (reg_owner g ≠ reg_owner g2)) as [Hd|Hd%dec_stable];
    apply (wf_replace c _ id (pop_back h) Hwf Hok); cbn -[Z.of_nat]; try done.
  - intros x. rewrite (AddAll_lookup id), RemoveAll_lookup by done. split; intros Hx.
    + rewrite !decide_False; [done| |]; [by intros [? _]%Hroot|]. intros [d Hd']. by apply Hcg2 in Hd' as (_ & ? & _).
    + unfold active_in. rewrite Hpop, (Hflat x Hx). cbn. repeat case_decide; split; naive_solver.
  - rewrite Hma, (cw_active c Hwf), sub64_u64, add64_u64. f_equal. lia.
  - rewrite Hmd, (cw_deep c Hwf), sub64_u64. f_equal. lia.
  - intros x. split; [done|]. intros Hx. unfold active_in. rewrite Hpop, (Hflat x Hx). cbn.
    destruct (Hu eq_refl) as [_ Hu']. destruct (Hu' Hd) as [-> _]. by case_decide.
  - rewrite Hma, (cw_active c Hwf). destruct (Hu eq_refl) as [_ Hu']. destruct (Hu' Hd) as [-> _]. f_equal. lia.
  - rewrite Hmd, (cw_deep c Hwf), sub64_u64. f_equal. lia.
Qed.

Lemma remove_wf c id : cache_wf c → cache_wf (fst (remove id c)).
Proof.
  intros Hwf. unfold remove. destruct (m_pNamespaceById c !! id) as [ns|] eqn:Ef; [|done].
  case_decide as Hr; [|by eapply removeChild_wf]. destruct (m_pHistoryById c !! id) as [h|] eqn:Hh;
    [|unfold removeRoot; by rewrite Hh].
  destruct (registrations h) as [|g [|g2 rest]] eqn:E; [|by eapply removeRoot_last|by eapply removeRoot_previous].
  by destruct (ho_nonempty _ _ (cw_histories c Hwf id h Hh)).
Qed.

(** ** Pruning *)

(** Pruning keeps the active registration or none. *)
Lemma kept_head height g rest :
  expiry_sorted (g :: rest) →
  kept height (g :: rest) = [] ∧ expired height (g :: rest) = g :: rest
  ∨ kept height (g :: rest) = g :: kept height rest.
Proof.
  intros [Hs Hall]%StronglySorted_inv. unfold kept, expired. rewrite !filter_cons.
  destruct (decide (height < GracePeriodEnd (reg_lifetime g))) as [|Hg]; [by right|]. left.
  rewrite decide_True by lia.
  assert (Forall (λ g', GracePeriodEnd (reg_lifetime g') ≤ height) rest) as Hf.
  { eapply Forall_impl; [exact Hall|]. unfold expires_after. lia. }
  clear -Hf. induction Hf as [|x l Hx _ [IH1 IH2]]; [done|].
  rewrite !filter_cons, decide_False, (decide_True (P := _ ≤ _)), IH1 by lia. by injection IH2 as ->.
Qed.

Lemma pruned_ids_root height id regs x :
  Forall (λ g, children_ok id (reg_children g)) regs → path_of id = [id] →
  x ∈ pruned_ids height id regs → rootId (path_of x) = id.
Proof.
  intros Hc Hp. assert (x ∈ child_ids (expired height regs) → rootId (path_of x) = id) as Hch.
  { rewrite elem_of_child_ids. intros (g & Hg & d & Hd). unfold expired in Hg.
    apply list_elem_of_filter in Hg as [_ Hg]. rewrite Forall_forall in Hc. by apply (Hc g) in Hd as (_ & ? & _). }
  unfold pruned_ids. case_decide; [|set_solver]. intros [->%elem_of_singleton|?]%elem_of_union; [by rewrite Hp|set_solver].
Qed.

Lemma prune_history_wf c height id ids : cache_wf c → cache_wf (fst (prune_history height id ids c)).
Proof.
  intros Hwf. unfold prune_history. destruct (m_pHistoryById c !! id) as [h|] eqn:Hh; [|done].
  pose proof (cw_histories c Hwf _ _ Hh) as [Hhwf Hid Hp Hz Hne Hs Hc].
  destruct (history_prune_refines h height Hhwf Hs) as (Hwf' & Hid' & Hr & Hids).
  destruct (history_prune height h) as [h' removed]. cbn [fst snd] in *.
  destruct (active_registration c id h Hwf Hh) as (r & g & rest & _ & E & _ & _ & _ & _ & Hroot & Hflat).
  rewrite GetNamespaceSizes_ok by done. rewrite history_empty_eq, Hr, Hid'.
  assert (∀ x, x ∈ removed → rootId (path_of x) = id) as Hrem.
  { intros x Hx. rewrite Hids, Hid in Hx. by eapply pruned_ids_root. }
  pose proof (msum_delete active_size id h _ Hh) as Hda. pose proof (msum_delete deep_size id h _ Hh) as Hdd.
  rewrite E in Hs, Hr, Hids, Hc. destruct (kept_head height g rest Hs) as [[Hk Hx]|Hk]; rewrite E, Hk.
  - rewrite bool_decide_true by done. rewrite Hid, Hk in *. cbn [fst].
    assert (GetNamespaceSizes h' = {| sizes_Active := 0; sizes_Deep := 0 |}) as ->.
    { unfold GetNamespaceSizes. rewrite history_empty_eq, numActiveRootChildren_eq, historyDepth_eq,
        numAllHistoricalChildren_eq, Hr. done. }
    apply (wf_forget c _ id Hwf); cbn; [by rewrite delete_insert_eq| |done| |].
    + intros x. rewrite delete_all_lookup. split; intros Hx'.
      * rewrite decide_False; [done|]. by intros ?%Hrem.
      * split; [done|]. intros _. case_decide as Hin; [done|]. rewrite (Hflat x Hx'), decide_False; [done|].
        intros Ha. apply Hin. rewrite Hids. unfold pruned_ids. rewrite Hk, decide_True, Hx by done.
        destruct Ha as [->|Ha]; [set_solver|]. apply elem_of_union. right.
        apply elem_of_difference. rewrite !elem_of_child_ids. split; [exists g; split; [by left|done]|].
        intros (g' & Hg' & _). by apply not_elem_of_nil in Hg'.
    + rewrite (cw_active c Hwf), sub64_u64_sub64, Hda. f_equal. lia.
    + rewrite (cw_deep c Hwf), sub64_u64_sub64, Hdd. f_equal. lia.
  - rewrite bool_decide_false by done. cbn [fst]. rewrite Hk in Hr.
    assert (history_ok id h') as Hok.
    { split; rewrite ?Hr; try done; [congruence| |].
      - rewrite <-Hk. by apply filter_sublist_sorted.
      - rewrite <-Hk. by apply Forall_kept. }
    rewrite GetNamespaceSizes_ok by (by rewrite Hr).
    apply (wf_replace c _ id h' Hwf Hok); cbn; [done| |done| | |].
    + intros x. rewrite delete_all_lookup. split; intros Hx'.
      * rewrite decide_False; [done|]. by intros ?%Hrem.
      * unfold active_in. rewrite Hr, (Hflat x Hx'). cbn [active_children]. rewrite Hids. unfold pruned_ids. rewrite Hk.
        rewrite (decide_False (P := _ = [])) by done.
        split; intros Ha; [|by repeat case_decide]. rewrite decide_False, decide_True; [done|done|].
        rewrite elem_of_difference, !elem_of_child_ids. intros [(g' & Hg' & d & Hd) Hn]. destruct Ha as [->|Ha].
        -- unfold expired in Hg'. apply list_elem_of_filter in Hg' as [_ Hg']. rewrite Forall_forall in Hc.
           apply (Hc g') in Hd as (_ & _ & _ & Hl & _); [|done]. rewrite Hp in Hl. simpl in Hl. lia.
        -- apply Hn. exists g. split; [by left|done].
    + intros g' Hg'. eapply (cw_expiry c Hwf); [done|]. rewrite E. rewrite Hr, <-Hk in Hg'.
      by apply list_elem_of_filter in Hg' as [_ ?].
    + rewrite (cw_active c Hwf), sub64_u64_sub64, (msum_insert _ _ h) by done. cbn. f_equal. lia.
    + rewrite (cw_deep c Hwf), sub64_u64_sub64, (msum_insert _ _ h) by done. cbn. f_equal. lia.
Qed.

Lemma prune_ok c height : ∃ ids, snd (prune height c) = Ok ids.
Proof. unfold prune. destruct (foldr _ _ _) as [c' ids]. by exists ids. Qed.

Lemma prune_wf c height : cache_wf c → cache_wf (fst (prune height c)).
Proof.
  intros Hwf. unfold prune. generalize (elements (group (m_pRootNamespaceIdsByExpiryHeight c) height)). intros l.
  assert (cache_wf (fst (foldr (λ id '(c, ids), prune_history height id ids c) (c, ∅) l))) as H.
  { induction l as [|id l IH]; [done|]. simpl. destruct (foldr _ _ l) as [c' ids]. by apply prune_history_wf. }
  by destruct (foldr _ _ l).
Qed.

(** ** Caches with the same registrations *)

Definition cache_registrations (c : NamespaceCacheDelta) (id : Z) : option (list Registration) :=
  registrations <$> m_pHistoryById c !! id.

(** Equality up to the tables no registration points to. *)
Record cache_equiv (c1 c2 : NamespaceCacheDelta) : Prop := {
  ce_registrations : ∀ id, cache_registrations c1 id = cache_registrations c2 id;
  ce_flat : m_pNamespaceById c1 = m_pNamespaceById c2;
  ce_groups : ∀ k, group (m_pRootNamespaceIdsByExpiryHeight c1) k = group (m_pRootNamespaceIdsByExpiryHeight c2) k;
  ce_active : Active c1 = Active c2;
  ce_deep : Deep c1 = Deep c2
}.

Lemma msum_determined (f : RootNamespaceHistory → Z) (F : list Registration → Z) :
  (∀ h, f h = F (registrations h)) → ∀ m1 m2 : gmap Z RootNamespaceHistory,
  (∀ k, registrations <$> m1 !! k = registrations <$> m2 !! k) → msum f m1 = msum f m2.
Proof.
  intros Hf m1. induction m1 as [|k h m1 Hk IH] using map_ind; intros m2 He.
  - assert (m2 = ∅) as ->; [|done]. apply map_eq. intros k. specialize (He k). rewrite lookup_empty in *.
    by destruct (m2 !! k).
  - pose proof (He k) as Hkk. rewrite lookup_insert_eq in Hkk. destruct (m2 !! k) as [h2|] eqn:E2; [|done].
    injection Hkk as Hkk. rewrite msum_insert_new, (msum_delete f k h2 m2), !Hf, Hkk by done. f_equal.
    apply IH. intros k'. destruct (decide (k' = k)) as [->|Hne].
    + by rewrite Hk, lookup_delete_eq.
    + rewrite lookup_delete_ne, <-He, lookup_insert_ne by done. done.
Qed.

(** The registrations determine the flat map and the sizes. *)
Lemma wf_equiv c1 c2 :
  cache_wf c1 → cache_wf c2 → (∀ id, cache_registrations c1 id = cache_registrations c2 id) →
  (∀ k, group (m_pRootNamespaceIdsByExpiryHeight c1) k = group (m_pRootNamespaceIdsByExpiryHeight c2) k) →
  cache_equiv c1 c2.
Proof.
  intros H1 H2 Hr Hg. split; try done.
  - apply map_eq. intros x. apply option_eq. intros p. rewrite (cw_flat c1 H1), (cw_flat c2 H2).
    assert (registered (m_pHistoryById c1) x ↔ registered (m_pHistoryById c2) x) as ->; [|done].
    specialize (Hr (rootId (path_of x))). unfold cache_registrations, registered in *.
    destruct (m_pHistoryById c1 !! _) as [h1|], (m_pHistoryById c2 !! _) as [h2|]; try done.
    injection Hr as Hr. split; intros (h & [= <-] & Hx); [exists h2|exists h1]; (split; [done|]);
      [by rewrite <-Hr|by rewrite Hr].
  - rewrite (cw_active c1 H1), (cw_active c2 H2). f_equal.
    by apply (msum_determined _ (λ l, 1 + Z.of_nat (size (active_children l)))).
  - rewrite (cw_deep c1 H1), (cw_deep c2 H2). f_equal.
    by apply (msum_determined _ (λ l, Z.of_nat (length l) + total_children l)).
Qed.

Lemma empty_wf : cache_wf {| m_pHistoryById := ∅; m_pNamespaceById := ∅; m_pRootNamespaceIdsByExpiryHeight := ∅;
  Active := 0; Deep := 0; m_height := 0 |}.
Proof.
  split; cbn; try done.
  intros x p. rewrite lookup_empty. split; [done|]. intros (_ & h & Hh & _). by rewrite lookup_empty in Hh.
Qed.

(** ** Sequences of operations *)

Section runs.
Context (NamespaceGracePeriodDuration Version : Z → Z).

Inductive CacheOp :=
| OpInsertRoot (id : Z) (owner : list Z) (l : NamespaceLifetime)
| OpInsertChild (ns : list Z)
| OpSetAlias (id : Z) (a : NamespaceAlias)
| OpRemove (id : Z)
| OpPrune (height : Z)
| OpSetHeight (height : Z).

Definition setHeight (height : Z) (c : NamespaceCacheDelta) : NamespaceCacheDelta :=
  {| m_pHistoryById := m_pHistoryById c; m_pNamespaceById := m_pNamespaceById c;
     m_pRootNamespaceIdsByExpiryHeight := m_pRootNamespaceIdsByExpiryHeight c;
     Active := Active c; Deep := Deep c; m_height := height |}.

Definition cache_run (op : CacheOp) : Exec NamespaceCacheDelta unit :=
  match op with
  | OpInsertRoot id owner l => insertRoot NamespaceGracePeriodDuration Version id owner l
  | OpInsertChild ns => insertChild ns
  | OpSetAlias id a => setAlias id a
  | OpRemove id => remove id
  | OpPrune height => prune height ≫= λ _, mret tt
  | OpSetHeight height => modify (setHeight height)
  end.

(** A root expires after its present registrations, which the cache does not
    check, and a child carries its own path. *)
Definition legal (c : NamespaceCacheDelta) (op : CacheOp) : Prop :=
  match op with
  | OpInsertRoot id owner l => root_insertable NamespaceGracePeriodDuration c id l
  | OpInsertChild ns => ns = path_of (ns_id ns)
  | _ => True
  end.

Inductive cache_step : NamespaceCacheDelta → NamespaceCacheDelta → Prop :=
| step_run c op : legal c op → cache_step c (fst (cache_run op c)).

Lemma prune_run c height : fst (cache_run (OpPrune height) c) = fst (prune height c)
  ∧ snd (cache_run (OpPrune height) c) = Ok tt.
Proof.
  unfold cache_run, mbind, exec_bind, prune. by destruct (foldr _ _ _) as [c' ids].
Qed.

Lemma cache_step_wf c c' : cache_step c c' → cache_wf c → cache_wf c'.
Proof.
  intros [c0 op Hl] Hwf. destruct op as [id owner l|ns|id a|id|height|height]; simpl in Hl.
  - by apply insertRoot_wf.
  - by apply insertChild_wf.
  - by apply setAlias_wf.
  - by apply remove_wf.
  - destruct (prune_run c0 height) as [-> _]. by apply prune_wf.
  - destruct Hwf as [Hh Hf He Ha Hd]. by split.
Qed.

(** C9. In every namespace cache that [legal] operations reach from the empty
    cache the flat map holds exactly the roots and the children of their active
    registrations, each under its own path; every registration is in the group of
    the height it expires at; and the active and deep sizes are the number of
    active namespaces and of namespaces over all registrations, counted modulo
    2^64.  An operation is legal when a root it registers has an id that stands
    for a root and expires after the present registrations of that root, and when
    a child it registers carries its own path; all other operations, pruning at
    any height and operations that fail included, are unrestricted.  The cache
    itself does not check the order of expiry: validated registrations have it
    while the configured grace period does not shrink, and when it shrinks the
    consistency is lost (see [early_renewal_loses_children]). *)
Theorem reachable_cache_consistent c :
  rtc cache_step {| m_pHistoryById := ∅; m_pNamespaceById := ∅; m_pRootNamespaceIdsByExpiryHeight := ∅;
    Active := 0; Deep := 0; m_height := 0 |} c → cache_wf c.
Proof.
  intros H. assert (∀ c0, rtc cache_step c0 c → cache_wf c0 → cache_wf c) as Hind.
  { induction 1 as [|x y z Hxy _ IH]; [done|]. intros Hx. by eapply IH, cache_step_wf. }
  eapply Hind; [exact H|]. apply empty_wf.
Qed.

(** ** Failures *)

Lemma spec_change_error guard f g rest e :
  spec_change guard f (g :: rest) = Throw e → e = invalid_argument.
Proof. simpl. case_match; [done|]. by intros [= <-]. Qed.

Lemma on_back_error id h op (guard : Registration → bool) (f : gmap Z ChildNamespaceData → gmap Z ChildNamespaceData) e :
  history_ok id h →
  (∀ r σ, op r σ = if guard (registration σ r) then Ok (update_children f r σ) else Throw invalid_argument) →
  on_back op h = Throw e → e = invalid_argument.
Proof.
  intros Hok Hop He. pose proof (on_back_refines h op guard f (ho_wf _ _ Hok) Hop) as H. rewrite He in H.
  destruct (spec_change _ _ _) as [|e'] eqn:Es; [done|]. subst e'.
  destruct (registrations h) as [|g rest] eqn:E; [by destruct (ho_nonempty _ _ Hok)|].
  by eapply spec_change_error.
Qed.

(** A failed call: nothing changed, and the behaviour is a C++ exception. *)
Definition clean {A} (c : NamespaceCacheDelta) (r : NamespaceCacheDelta * result A) : Prop :=
  ∀ e, snd r = Throw e → fst r = c ∧ e ≠ undefined_behaviour.

Lemma history_of_flat c x p : cache_wf c → m_pNamespaceById c !! x = Some p →
  p = path_of x ∧ ∃ h, m_pHistoryById c !! rootId p = Some h.
Proof. intros Hwf Hx. apply (cw_flat c Hwf) in Hx as [-> (h & Hh & _)]. split; [done|by exists h]. Qed.

Lemma insertRoot_clean c id owner l : cache_wf c → clean c (insertRoot NamespaceGracePeriodDuration Version id owner l c).
Proof.
  intros Hwf e. unfold insertRoot. destruct (new_NamespaceLifetime _ _ _) as [l'|e'] eqn:El; cbn.
  - destruct (m_pHistoryById c !! id) as [h|] eqn:Hh; [|done].
    destruct (active_registration c id h Hwf Hh) as (r & g & rest & -> & _). done.
  - intros [= <-]. split; [done|]. unfold new_NamespaceLifetime in El.
    repeat (destruct (_ <=? _) || destruct (_ <? _)); congruence.
Qed.

Lemma setAlias_clean c id a : cache_wf c → clean c (setAlias id a c).
Proof.
  intros Hwf e. unfold setAlias. destruct (m_pNamespaceById c !! id) as [p|] eqn:Ef; [|by intros [= <-]].
  destruct (history_of_flat c id p Hwf Ef) as (_ & h & Hh). rewrite Hh.
  pose proof (cw_histories c Hwf _ _ Hh) as Hok. pose proof (back_setAlias_refines h id a (ho_wf _ _ Hok)) as Hr.
  destruct (back_setAlias id a h) as [h'|e']; [done|]. intros [= <-]. split; [done|].
  destruct (spec_setAlias _ _ _) as [|e''] eqn:Es; [done|]. subst e''.
  destruct (registrations h) as [|g rest] eqn:E; [by destruct (ho_nonempty _ _ Hok)|].
  unfold spec_setAlias in Es. case_decide; [done|]. apply spec_change_error in Es. congruence.
Qed.

Lemma remove_clean c id : cache_wf c → clean c (remove id c).
Proof.
  intros Hwf e. unfold remove. destruct (m_pNamespaceById c !! id) as [p|] eqn:Ef; [|by intros [= <-]].
  destruct (history_of_flat c id p Hwf Ef) as (_ & h & Hh). case_decide as Hr.
  - unfold removeRoot. rewrite Hr in Hh. rewrite Hh.
    destruct (active_registration c id h Hwf Hh) as (r & g & rest & -> & _).
    destruct (_ && _); [by intros [= <-]|]. by destruct (back (pop_back h)).
  - unfold removeChild. rewrite Hh. destruct (on_back _ h) as [h'|e'] eqn:Eb; [done|]. intros [= <-].
    split; [done|]. apply (on_back_error _ h _ _ _ _ (cw_histories c Hwf _ _ Hh) (remove_guard (ns_id p))) in Eb. congruence.
Qed.

(** On a consistent cache no operation runs into undefined behaviour (no
    null history or empty history is dereferenced), and an operation that
    throws leaves the cache as it was. *)
Theorem failed_operation_changes_nothing c op c' e :
  cache_wf c → cache_run op c = (c', Throw e) → c' = c ∧ e ≠ undefined_behaviour.
Proof.
  intros Hwf Hr. enough (clean c (cache_run op c)) as Hc by (specialize (Hc e); rewrite Hr in Hc; by apply Hc). clear Hr.
  destruct op as [id owner l|ns|id a|id|height|height].
  - by apply insertRoot_clean.
  - intros e'. cbn [cache_run]. unfold insertChild.
    destruct (m_pHistoryById c !! rootId ns) as [h|] eqn:Hh; [|by intros [= <-]].
    destruct (on_back (add ns) h) as [h'|e''] eqn:Eb; [done|]. intros [= <-]. split; [done|].
    apply (on_back_error _ h _ _ _ _ (cw_histories c Hwf _ _ Hh) (add_guard ns)) in Eb. congruence.
  - by apply setAlias_clean.
  - by apply remove_clean.
  - intros e'. by destruct (prune_run c height) as [_ ->].
  - done.
Qed.

(** ** Rollback *)

(** A registration of a root, seen from the histories. *)
Lemma insertRoot_effect c id owner l c1 :
  cache_wf c → insertRoot NamespaceGracePeriodDuration Version id owner l c = (c1, Ok tt) →
  ∃ l' h' g' , new_NamespaceLifetime (Start l) (End l) (NamespaceGracePeriodDuration (m_height c)) = Ok l'
    ∧ m_pHistoryById c1 = <[id := h']> (m_pHistoryById c)
    ∧ registrations h' = g' :: default [] (cache_registrations c id)
    ∧ reg_lifetime g' = l' ∧ (m_pHistoryById c !! id = None → reg_children g' = ∅)
    ∧ m_pRootNamespaceIdsByExpiryHeight c1
      = AddIdentifierWithGroup (GracePeriodEnd l') id (m_pRootNamespaceIdsByExpiryHeight c).
Proof.
  intros Hwf. unfold insertRoot, cache_registrations.
  destruct (new_NamespaceLifetime _ _ _) as [l'|e'] eqn:El; [|done]. cbn.
  destruct (m_pHistoryById c !! id) as [h|] eqn:Hh.
  - destruct (active_registration c id h Hwf Hh) as (r & g & rest & -> & E & _). intros [= <-].
    pose proof (cw_histories c Hwf _ _ Hh) as [Hhwf _ _ _ _ _ _].
    destruct (push_back_refines h owner l' (AliasFixVersion <=? Version (m_height c)) Hhwf) as (_ & _ & Hr).
    exists l'. eexists _. rewrite Hr, E. cbn. rewrite E.
    destruct (decide (reg_owner g = owner)); eexists; split_and!; try done; by case_decide.
  - intros [= <-]. exists l'. eexists _, _. split_and!; done.
Qed.

(** Rolling back the registration of a root restores the cache: after
    [insert(RootNamespace)] succeeds, [remove] of the same id succeeds and
    leaves the registrations, the flat map, the expiry groups and both sizes
    as they were, whether the namespace was new, was renewed by its owner, or
    was taken over by another owner (whose predecessor's children come back). *)
Theorem remove_undoes_insertRoot c id owner l c1 :
  cache_wf c → root_insertable NamespaceGracePeriodDuration c id l →
  insertRoot NamespaceGracePeriodDuration Version id owner l c = (c1, Ok tt) →
  (∀ l', new_NamespaceLifetime (Start l) (End l) (NamespaceGracePeriodDuration (m_height c)) = Ok l' →
     id ∉ group (m_pRootNamespaceIdsByExpiryHeight c) (GracePeriodEnd l')) →
  ∃ c2, remove id c1 = (c2, Ok tt) ∧ cache_equiv c2 c.
Proof.
  intros Hwf Hins Hi Hgrp. pose proof (insertRoot_wf NamespaceGracePeriodDuration Version c id owner l Hwf Hins) as Hwf1.
  rewrite Hi in Hwf1. cbn [fst] in Hwf1.
  destruct (insertRoot_effect c id owner l c1 Hwf Hi) as (l' & h' & g' & Hl & Hh & Hr & Hgl & Hnew & Hg).
  specialize (Hgrp l' Hl). pose proof (remove_wf c1 id Hwf1) as Hwf2. destruct Hins as (Hp & _ & _).
  assert (m_pHistoryById c1 !! id = Some h') as Hh1 by (by rewrite Hh, lookup_insert_eq).
  assert (m_pNamespaceById c1 !! id = Some [id]) as Hf.
  { rewrite <-Hp. apply (flat_lookup c1 id Hwf1). exists h'. rewrite Hp. by split; [|left]. }
  assert (∃ c2, remove id c1 = (c2, Ok tt) ∧ m_pRootNamespaceIdsByExpiryHeight c2
      = RemoveIdentifierWithGroup (GracePeriodEnd l') id (m_pRootNamespaceIdsByExpiryHeight c1)
    ∧ ∀ k, cache_registrations c2 k = cache_registrations c k) as (c2 & Hc2 & Hg2 & Hr2).
  { unfold remove. rewrite Hf, decide_True by done. unfold removeRoot. rewrite Hh1.
    destruct (back_registration h' g' _ Hr) as (r & Hb & Hrr). rewrite Hb.
    assert (m_lifetime r = l') as -> by (by rewrite <-Hgl, <-Hrr).
    assert (children (m_store h') r = reg_children g') as Hrc by (by rewrite <-Hrr).
    destruct (pop_back_refines h' (ho_wf _ _ (cw_histories c1 Hwf1 _ _ Hh1))) as [_ Hpop]. rewrite Hr in Hpop. cbn [tail] in Hpop.
    assert (∀ k, k ≠ id → m_pHistoryById c1 !! k = m_pHistoryById c !! k) as Hother
      by (intros; rewrite Hh; by apply lookup_insert_ne).
    unfold cache_registrations in *. destruct (m_pHistoryById c !! id) as [h|] eqn:Hhc; cbn [fmap option_fmap option_map default] in Hr, Hpop.
    - destruct (registrations h) as [|g rest] eqn:E; [by destruct (ho_nonempty _ _ (cw_histories c Hwf _ _ Hhc))|].
      rewrite historyDepth_eq, Hr, bool_decide_false by (simpl; lia). cbn [andb].
      destruct (back_registration _ _ _ Hpop) as (r2 & -> & _). eexists. split; [reflexivity|].
      split; [by case_decide|]. intros k. destruct (decide (k = id)) as [->|Hk].
      + transitivity (Some (registrations (pop_back h'))); [case_decide; cbn; by rewrite Hh, lookup_insert_eq|].
        by rewrite Hhc, Hpop, <-E.
      + rewrite <-Hother by done. case_decide; cbn; by rewrite lookup_insert_ne.
    - unfold root_empty. rewrite Hrc, Hnew, (bool_decide_true (∅ = ∅)) by done. rewrite andb_false_r.
      rewrite (back_None _ Hpop). eexists. split; [reflexivity|]. split; [done|].
      intros k. cbn [decrementDeepSize decrementActiveSize set_sizes set_flat set_histories set_groups m_pHistoryById].
      rewrite Hh, insert_insert_eq, delete_insert_id by done. done. }
  exists c2. split; [done|]. rewrite Hc2 in Hwf2. apply wf_equiv; try done.
  intros k. rewrite Hg2, Hg, remove_group, add_group. case_decide; [|done]. subst. set_solver.
Qed.

End runs.

(** A child without children of its own has no descendents. *)
Lemma new_child_childless id x d ch :
  children_ok id ch → ch !! x = None → x ≠ id → child_path d = path_of x → (2 ≤ length (path_of x))%nat →
  (∀ y, length (path_of y) ≤ Namespace_Max_Depth)%nat →
  hasDescendents (length (path_of x)) x (<[x := d]> ch) = false.
Proof.
  intros Hc Hx Hid Hd Hl Hmax. apply not_true_iff_false. unfold hasDescendents. rewrite existsb_exists.
  intros ([y d'] & Hy & Hdesc). apply list_elem_of_In, elem_of_map_to_list in Hy. unfold descends in Hdesc.
  apply andb_true_iff in Hdesc as [Hlen%bool_decide_eq_true Hat%bool_decide_eq_true]. cbn [snd] in *.
  apply lookup_insert_Some in Hy as [[<- <-]|[Hne Hy]]; [rewrite Hd in Hlen; lia|].
  pose proof (Hc y d' Hy) as (Hp & _ & _ & _ & Hor). rewrite Hp in Hlen, Hat.
  specialize (Hmax y). unfold Namespace_Max_Depth in Hmax.
  assert (parentId (path_of y) = x) as Hpar.
  { unfold parentId. rewrite decide_False by lia.
    replace (length (path_of y) - 2)%nat with (length (path_of x) - 1)%nat by lia. by rewrite Hat. }
  rewrite Hpar in Hor. destruct Hor as [|(p & Hp' & _)]; congruence.
Qed.

Lemma update_run_inverse f1 f2 owner ch regs :
  run_uniform owner ch regs → f2 (f1 ch) = ch → update_run f2 owner (update_run f1 owner regs) = regs.
Proof.
  intros Hu Hf. induction regs as [|g regs IH]; [done|]. simpl.
  destruct (decide (owner ≠ reg_owner g)) as [Ho|Ho%dec_stable]; simpl.
  - by rewrite decide_True.
  - rewrite decide_False by (simpl; tauto). destruct (Hu Ho) as [Hc Hu']. f_equal; [|by apply IH].
    destruct g. unfold map_children. simpl in *. by rewrite Hc, Hf.
Qed.

(** Rolling back the registration of a child restores the cache: after
    [insert(Namespace)] succeeds, [remove] of the child's id succeeds (the new
    child has no descendents) and leaves registrations, flat map, groups and
    sizes as they were.  Paths have at most [Namespace_Max_Depth] parts. *)
Theorem remove_undoes_insertChild c ns c1 :
  cache_wf c → ns = path_of (ns_id ns) → (∀ x, length (path_of x) ≤ Namespace_Max_Depth)%nat →
  insertChild ns c = (c1, Ok tt) →
  ∃ c2, remove (ns_id ns) c1 = (c2, Ok tt) ∧ cache_equiv c2 c.
Proof.
  intros Hwf Hns Hmax Hi. pose proof (insertChild_wf c ns Hwf Hns) as Hwf1. rewrite Hi in Hwf1. cbn [fst] in Hwf1.
  unfold insertChild in Hi. destruct (m_pHistoryById c !! rootId ns) as [h|] eqn:Hh; [|done].
  destruct (on_back (add ns) h) as [h'|e] eqn:Eb; [|done]. injection Hi as Hc1.
  pose proof (cw_histories c Hwf _ _ Hh) as Hok. pose proof Hok as [Hhwf Hid Hp Hz _ _ Hc].
  destruct (on_back_changed h h' (add ns) (can_add ns) _ Hhwf (add_guard ns) Eb) as (Hwf' & Hid' & g & rest & [Hb Ha] & Hg).
  apply can_add_new in Hg. rewrite Hb in Hc. apply Forall_cons in Hc as [Hc _].
  assert (m_pHistoryById c1 = <[rootId ns := h']> (m_pHistoryById c)) as Hh1 by (by rewrite <-Hc1).
  assert (m_pNamespaceById c1 !! ns_id ns = Some ns) as Hf by (rewrite <-Hc1; cbn; by rewrite lookup_insert_eq).
  pose proof (cw_histories c1 Hwf1 (rootId ns) h' ltac:(by rewrite Hh1, lookup_insert_eq)) as Hok'.
  set (f1 := <[ns_id ns := {| child_path := ns; child_alias := UnsetAlias |}]>) in *.
  assert (children_ok (rootId ns) (f1 (reg_children g))) as Hcok.
  { pose proof (ho_children _ _ Hok') as H. rewrite Ha, update_run_head in H. by apply Forall_cons in H as [? _]. }
  destruct (Hcok (ns_id ns) {| child_path := ns; child_alias := UnsetAlias |}) as (_ & _ & _ & Hlen & _);
    [apply lookup_insert_eq|].
  assert (rootId ns ≠ ns_id ns) as Hne.
  { intros He. rewrite He, <-Hns in Hp. rewrite <-Hns in Hlen. rewrite Hp in Hlen. simpl in Hlen. lia. }
  assert (can_remove (ns_id ns) (map_children f1 g) = true) as Hcan.
  { unfold can_remove, map_children. cbn [reg_children]. unfold f1 at 1. rewrite lookup_insert_eq. cbn [child_path].
    apply negb_true_iff. rewrite Hns at 1. by apply (new_child_childless (rootId ns)). }
  pose proof (on_back_refines h' _ _ _ Hwf' (remove_guard (ns_id ns))) as Hr.
  assert (spec_change (can_remove (ns_id ns)) (delete (ns_id ns)) (registrations h') = Ok (registrations h)) as Hs.
  { rewrite Ha, update_run_head. cbn [spec_change]. rewrite Hcan. f_equal.
    change (reg_owner (map_children f1 g)) with (reg_owner g). rewrite <-(update_run_head f1 g rest), Hb.
    apply (update_run_inverse _ _ _ (reg_children g)); [by apply (history_uniform h)|]. by apply delete_insert_id. }
  rewrite Hs in Hr. destruct (on_back _ h') as [h''|e] eqn:Er; [|done]. destruct Hr as (_ & _ & Hreg).
  pose proof (remove_wf c1 (ns_id ns) Hwf1) as Hwf2.
  unfold remove in *. rewrite Hf, decide_False in * by done. unfold removeChild in *.
  rewrite Hh1, lookup_insert_eq, Er in *. eexists. split; [reflexivity|]. cbn [fst] in Hwf2.
  apply wf_equiv; [done|done| |by rewrite <-Hc1]. intros k. unfold cache_registrations. cbn -[registrations].
  destruct (decide (k = rootId ns)) as [->|Hk]; rewrite ?lookup_insert_eq, ?lookup_insert_ne by done; [|done].
  rewrite Hh. change (Some (registrations h'') = Some (registrations h)). by rewrite Hreg.
Qed.

(** ** Expiry *)

Lemma prune_history_registrations c height id ids k :
  cache_wf c →
  cache_registrations (fst (prune_history height id ids c)) k
  = if decide (k = id) then regs ← cache_registrations c k;
      (if decide (kept height regs = []) then None else Some (kept height regs))
    else cache_registrations c k.
Proof.
  intros Hwf. unfold prune_history, cache_registrations. destruct (m_pHistoryById c !! id) as [h|] eqn:Hh.
  - pose proof (cw_histories c Hwf _ _ Hh) as [Hhwf Hid Hp Hz Hne Hs Hc].
    destruct (history_prune_refines h height Hhwf Hs) as (_ & Hid' & Hr & _).
    destruct (history_prune height h) as [h' removed]. cbn [fst snd] in *. rewrite Hid', Hid, history_empty_eq, Hr.
    destruct (decide (k = id)) as [->|Hk].
    + rewrite Hh. cbn -[registrations]. destruct (decide (kept height (registrations h) = [])) as [He|He];
        [rewrite bool_decide_true by done|rewrite bool_decide_false by done]; cbn -[registrations].
      * by rewrite lookup_delete_eq.
      * by rewrite lookup_insert_eq, <-Hr.
    + case_bool_decide; cbn -[registrations].
      * by rewrite lookup_delete_ne, lookup_insert_ne.
      * by rewrite lookup_insert_ne.
  - cbn [fst]. case_decide as Hk; [|done]. subst. by rewrite Hh.
Qed.

Lemma kept_idemp height regs : kept height (kept height regs) = kept height regs.
Proof. apply kept_Forall. unfold kept. apply Forall_forall. by intros g [? _]%list_elem_of_filter. Qed.

(** Pruning at a height removes, from the namespaces grouped at that
    height and from no other, exactly the registrations whose grace period has
    ended, and forgets a namespace when none is left.  As every registration
    is in the group of its end, no registration outlives its grace period when
    the cache is pruned at every height: if nothing expired before [height],
    nothing that expires at [height] or before is left. *)
Theorem prune_removes_expired c height c' ids :
  cache_wf c → prune height c = (c', Ok ids) →
  (∀ id, cache_registrations c' id
     = if decide (id ∈ group (m_pRootNamespaceIdsByExpiryHeight c) height)
       then regs ← cache_registrations c id; (if decide (kept height regs = []) then None else Some (kept height regs))
       else cache_registrations c id)
  ∧ ((∀ id regs g, cache_registrations c id = Some regs → g ∈ regs → height ≤ GracePeriodEnd (reg_lifetime g)) →
     ∀ id regs g, cache_registrations c' id = Some regs → g ∈ regs → height < GracePeriodEnd (reg_lifetime g)).
Proof.
  intros Hwf Hp. unfold prune in Hp.
  assert (∀ id, cache_registrations c' id
     = if decide (id ∈ group (m_pRootNamespaceIdsByExpiryHeight c) height)
       then regs ← cache_registrations c id; (if decide (kept height regs = []) then None else Some (kept height regs))
       else cache_registrations c id) as Hall.
  { intros id. rewrite (decide_ext _ (id ∈ elements (group (m_pRootNamespaceIdsByExpiryHeight c) height)))
      by (by rewrite elem_of_elements).
    revert Hp. generalize (elements (group (m_pRootNamespaceIdsByExpiryHeight c) height)). intros l.
    revert c' ids. induction l as [|i l IH]; intros c' ids; cbn [foldr]; [by intros [= <- _]|].
    destruct (foldr _ _ l) as [c0 ids0] eqn:El. specialize (IH c0 ids0 eq_refl).
    assert (cache_wf c0) as Hwf0.
    { assert (cache_wf (fst (foldr (λ id '(c, ids), prune_history height id ids c) (c, ∅) l))) as H; [|by rewrite El in H].
      clear -Hwf. induction l as [|j l IHl]; [done|]. simpl. destruct (foldr _ _ l). by apply prune_history_wf. }
    pose proof (prune_history_registrations c0 height i ids0 id Hwf0) as Hone.
    destruct (prune_history height i ids0 c0) as [c1 ids1]. intros [= <- <-]. cbn [fst] in Hone. rewrite Hone, IH.
    destruct (decide (id = i)) as [->|Hne]; [rewrite (decide_True (P := i ∈ i :: l)) by (by left)|].
    - case_decide; [|done]. destruct (cache_registrations c i) as [regs|]; [|done]. cbn.
      case_decide; [done|]. cbn. by rewrite kept_idemp, decide_False.
    - apply decide_ext. rewrite elem_of_cons. naive_solver. }
  split; [done|]. intros Hold id regs g Hr Hg. rewrite Hall in Hr. case_decide as Hin.
  - destruct (cache_registrations c id) as [regs0|] eqn:E; [|done]. cbn in Hr. case_decide; [done|].
    injection Hr as <-. unfold kept in Hg. by apply list_elem_of_filter in Hg as [? _].
  - pose proof (Hold id regs g Hr Hg). destruct (decide (height = GracePeriodEnd (reg_lifetime g))) as [He|]; [|lia].
    exfalso. apply Hin. rewrite He. unfold cache_registrations in Hr.
    destruct (m_pHistoryById c !! id) as [h|] eqn:Hh; [|done]. injection Hr as <-. by eapply (cw_expiry c Hwf).
Qed.


End consistency.

(** * Examples *)

(** Root 7 with the child 8 and the grandchild 9; any other id is a root. *)
Definition sample_path (x : Z) : list Z :=
  if decide (x = 8) then [7; 8] else if decide (x = 9) then [7; 8; 9] else [x].

Definition sample_grace (height : Z) : Z := 5.
Definition sample_version (height : Z) : Z := AliasFixVersion.
Definition sample_life (start end_ : Z) : NamespaceLifetime := {| Start := start; End := end_; GracePeriodEnd := end_ |}.

Definition sample_empty : NamespaceCacheDelta :=
  {| m_pHistoryById := ∅; m_pNamespaceById := ∅; m_pRootNamespaceIdsByExpiryHeight := ∅;
     Active := 0; Deep := 0; m_height := 0 |}.

Definition sample_run (op : CacheOp) (c : NamespaceCacheDelta) : NamespaceCacheDelta :=
  fst (cache_run sample_grace sample_version op c).

Definition sample1 : NamespaceCacheDelta := sample_run (OpInsertRoot 7 [1] (sample_life 1 10)) sample_empty.
Definition sample2 : NamespaceCacheDelta := sample_run (OpInsertChild [7; 8]) sample1.
Definition sample3 : NamespaceCacheDelta := sample_run (OpInsertRoot 7 [2] (sample_life 20 30)) sample2.

Ltac sample_legal :=
  split_and!; [reflexivity|discriminate|];
  let h := fresh "h" in let l := fresh "l" in let Hh := fresh "Hh" in let Hl := fresh "Hl" in
  intros h l Hh Hl; vm_compute in Hh, Hl;
  first [discriminate Hh | injection Hh as <-; injection Hl as <-; vm_compute; reflexivity].

Lemma sample_steps : rtc (cache_step sample_path sample_grace sample_version) sample_empty sample3.
Proof.
  eapply (rtc_l _ _ sample1); [apply (step_run _ _ _ _ (OpInsertRoot 7 [1] (sample_life 1 10))); sample_legal|].
  eapply (rtc_l _ _ sample2); [apply (step_run _ _ _ _ (OpInsertChild [7; 8])); reflexivity|].
  eapply (rtc_l _ _ sample3); [apply (step_run _ _ _ _ (OpInsertRoot 7 [2] (sample_life 20 30))); sample_legal|].
  apply rtc_refl.
Qed.

Lemma sample_prefix : rtc (cache_step sample_path sample_grace sample_version) sample_empty sample2.
Proof.
  eapply (rtc_l _ _ sample1); [apply (step_run _ _ _ _ (OpInsertRoot 7 [1] (sample_life 1 10))); sample_legal|].
  eapply (rtc_l _ _ sample2); [apply (step_run _ _ _ _ (OpInsertChild [7; 8])); reflexivity|].
  apply rtc_refl.
Qed.

Lemma rtc_wf c : rtc (cache_step sample_path sample_grace sample_version) sample_empty c → cache_wf sample_path c.
Proof.
  intros H. assert (cache_wf sample_path sample_empty) as He by apply empty_wf. revert He.
  induction H as [|x y z Hxy _ IH]; [done|]. intros Hx. by eapply IH, cache_step_wf.
Qed.

Lemma sample_max x : (length (sample_path x) ≤ Namespace_Max_Depth)%nat.
Proof. unfold sample_path, Namespace_Max_Depth. repeat case_decide; simpl; lia. Qed.

Lemma reachable_cache_consistent_witness :
  cache_wf sample_path sample3 ∧ Active sample3 = 1 ∧ Deep sample3 = 3.
Proof.
  split; [|by split; vm_compute].
  apply (reachable_cache_consistent sample_path sample_grace sample_version). exact sample_steps.
Defined.

Lemma failed_operation_changes_nothing_witness :
  snd (cache_run sample_grace sample_version (OpRemove 7) sample2) = Throw runtime_error
  ∧ fst (cache_run sample_grace sample_version (OpRemove 7) sample2) = sample2.
Proof.
  assert (cache_run sample_grace sample_version (OpRemove 7) sample2 = (sample2, Throw runtime_error)) as Hr
    by (vm_compute; reflexivity).
  split; [by rewrite Hr|]. rewrite Hr.
  apply (failed_operation_changes_nothing sample_path sample_grace sample_version sample2 (OpRemove 7) sample2 runtime_error);
    [apply rtc_wf, sample_prefix|exact Hr].
Defined.

(** The takeover of root 7 is rolled back: the child 8 comes back. *)
Lemma remove_undoes_insertRoot_witness :
  contains sample3 8 = false ∧ contains (fst (remove 7 sample3)) 8 = true
  ∧ ∃ c2, remove 7 sample3 = (c2, Ok tt) ∧ cache_equiv c2 sample2.
Proof.
  split; [by vm_compute|]. split; [by vm_compute|].
  apply (remove_undoes_insertRoot sample_path sample_grace sample_version sample2 7 [2] (sample_life 20 30) sample3).
  - apply rtc_wf, sample_prefix.
  - sample_legal.
  - vm_compute. reflexivity.
  - intros l Hl. vm_compute in Hl. injection Hl as <-. by vm_compute.
Defined.

Lemma remove_undoes_insertChild_witness :
  ∃ c2, remove 9 (sample_run (OpInsertChild [7; 8; 9]) sample2) = (c2, Ok tt) ∧ cache_equiv c2 sample2.
Proof.
  apply (remove_undoes_insertChild sample_path sample2 [7; 8; 9]);
    [apply rtc_wf, sample_prefix|reflexivity|apply sample_max|vm_compute; reflexivity].
Defined.

Lemma prune_removes_expired_witness :
  cache_registrations (fst (prune 35 sample3)) 7 = None ∧ cache_registrations sample3 7 ≠ None.
Proof.
  split; [|by vm_compute].
  destruct (prune 35 sample3) as [c' r] eqn:Ep. cbn [fst].
  destruct (prune_ok sample3 35) as [ids Hids]. rewrite Ep in Hids. cbn [snd] in Hids. subst r.
  destruct (prune_removes_expired sample_path sample3 35 c' ids) as [Hall _];
    [apply rtc_wf, sample_steps|exact Ep|].
  rewrite Hall. vm_compute. reflexivity.
Defined.

End NamespaceCache.
