(* ===== verification/NamespaceSerializer.v ===== *)
(** Model of the serializers of root namespace histories
    (plugins/txes/namespace/src/state/RootNamespaceHistorySerializer.cpp).

    A saved history holds, per registration, the owner, the start and end of
    its lifetime, the alias of the root and, where the owner changes, the
    children in the lexicographic order of their paths.  The file shows that
    loading gives back every saved history but for its grace periods, which
    are not written: a loaded registration ends its grace period where its
    lifetime ends. *)
From stdpp Require Import base tactics numbers option list sorting gmap.
From S2P Require Import Prelude Streams NamespaceState NamespaceCache.

Local Open Scope Z_scope.

Module HistorySerializer.
Import Stream Namespaces.

(** * Saving *)

Inductive HeaderMode := Include_History_Depth | Exclude_History_Depth.

#[global] Instance HeaderMode_eq_dec : EqDecision HeaderMode.
Proof. solve_decision. Defined.

Definition SaveHeader (history : RootNamespaceHistory) (headerMode : HeaderMode) (version : Z) : list Z :=
  Write32 version
  ++ (if decide (Include_History_Depth = headerMode) then Write64 (historyDepth history) else [])
  ++ Write64 (m_historyId history).

Definition alias_code (a : NamespaceAlias) : Z :=
  match alias_type a with Alias_None => 0 | Alias_Mosaic => 1 | Alias_Address => 2 end.

Definition SaveAlias (a : NamespaceAlias) : list Z :=
  Write8 (alias_code a)
  ++ match a with
     | MosaicAlias mosaicId => Write64 mosaicId
     | AddressAlias address => address
     | UnsetAlias => []
     end.

(** [std::lexicographical_compare]. *)
Fixpoint path_ltb (lhs rhs : list Z) : bool :=
  match lhs, rhs with
  | _, [] => false
  | [], _ :: _ => true
  | a :: lhs, b :: rhs => if a <? b then true else if b <? a then false else path_ltb lhs rhs
  end.

(** [std::set::insert] with that comparer. *)
Fixpoint path_insert (path : list Z) (paths : list (list Z)) : list (list Z) :=
  match paths with
  | [] => [path]
  | q :: rest =>
      if path_ltb path q then path :: paths
      else if path_ltb q path then q :: path_insert path rest else paths
  end.

Definition sortedChildPaths (σ : list (gmap Z ChildNamespaceData)) (r : RootNamespace) : list (list Z) :=
  foldr (λ child, path_insert (child_path (snd child))) [] (map_to_list (children σ r)).

(** The parts after the root, padded to the capacity of a path. *)
Definition SavePath (path : list Z) : list Z :=
  concat (Write64 <$> drop 1 path) ++ concat (replicate (Namespace_Max_Depth - length path) (Write64 0)).

Fixpoint save_children (σ : list (gmap Z ChildNamespaceData)) (root : RootNamespace) (paths : list (list Z))
    : result (list Z) :=
  match paths with
  | [] => Ok []
  | path :: paths =>
      a ← alias σ root (ns_id path);
      rest ← save_children σ root paths;
      Ok (SavePath path ++ SaveAlias a ++ rest)
  end.

Definition SaveChildren (σ : list (gmap Z ChildNamespaceData)) (root : RootNamespace) : result (list Z) :=
  let paths := sortedChildPaths σ root in
  bytes ← save_children σ root paths;
  Ok (Write64 (Z.of_nat (length paths)) ++ bytes).

Definition SaveRootNamespace (σ : list (gmap Z ChildNamespaceData)) (root : RootNamespace) (pLastOwner : option (list Z))
    : result (list Z) :=
  a ← alias σ root (m_id root);
  bytes ← (if decide (pLastOwner = Some (m_owner root)) then Ok (Write64 0) else SaveChildren σ root);
  Ok (m_owner root ++ Write64 (Start (m_lifetime root)) ++ Write64 (End (m_lifetime root)) ++ SaveAlias a ++ bytes).

(** [RootNamespaceHistoryNonHistoricalSerializer::Save]. *)
Definition NonHistorical_Save (history : RootNamespaceHistory) : result (list Z) :=
  match back history with
  | None => Throw runtime_error
  | Some r =>
      bytes ← SaveRootNamespace (m_store history) r None;
      Ok (SaveHeader history Exclude_History_Depth 1 ++ bytes)
  end.

Fixpoint save_roots (σ : list (gmap Z ChildNamespaceData)) (pLastOwner : option (list Z)) (roots : list RootNamespace)
    : result (list Z) :=
  match roots with
  | [] => Ok []
  | root :: roots =>
      bytes ← SaveRootNamespace σ root pLastOwner;
      rest ← save_roots σ (Some (m_owner root)) roots;
      Ok (bytes ++ rest)
  end.

(** [RootNamespaceHistorySerializer::Save]. *)
Definition Save (history : RootNamespaceHistory) : result (list Z) :=
  bytes ← save_roots (m_store history) None (m_rootHistory history);
  Ok (SaveHeader history Include_History_Depth 1 ++ bytes).

(** * Loading *)

Record Header := { header_Version : Z; header_HistoryDepth : Z; header_Id : Z }.

Definition ReadHeader (headerMode : HeaderMode) : Reader Header :=
  version ← Read32;
  depth ← (if decide (headerMode = Include_History_Depth) then Read64 else mret 0);
  id ← Read64;
  mret {| header_Version := version; header_HistoryDepth := depth; header_Id := id |}.

Fixpoint load_parts (n : nat) (path : list Z) : Reader (list Z) :=
  match n with
  | O => mret path
  | S n => idPart ← Read64; load_parts n (if decide (0 = idPart) then path else path ++ [idPart])
  end.

Definition LoadPath (rootId : Z) : Reader (list Z) := load_parts (Namespace_Max_Depth - 1) [rootId].

Definition LoadAlias : Reader NamespaceAlias :=
  aliasType ← Read8;
  if decide (aliasType = 1) then mosaicId ← Read64; mret (MosaicAlias mosaicId)
  else if decide (aliasType = 2) then address ← read 25; mret (AddressAlias address)
  else mret UnsetAlias.

Fixpoint LoadChildren (rootId : Z) (numChildren : nat) : Reader (list (list Z * NamespaceAlias)) :=
  match numChildren with
  | O => mret []
  | S n => path ← LoadPath rootId; a ← LoadAlias; rest ← LoadChildren rootId n; mret ((path, a) :: rest)
  end.

(** A call that may throw, in the middle of reading. *)
Definition call {A} (r : result A) : Reader A := λ input, (input, r).

Fixpoint add_children (pairs : list (list Z * NamespaceAlias)) (history : RootNamespaceHistory)
    : result RootNamespaceHistory :=
  match pairs with
  | [] => Ok history
  | (path, a) :: pairs =>
      ns ← new_Namespace path;
      history ← on_back (add ns) history;
      history ← back_setAlias (ns_id ns) a history;
      add_children pairs history
  end.

Definition LoadRootNamespace (history : RootNamespaceHistory) : Reader RootNamespaceHistory :=
  owner ← read 32;
  lifetimeStart ← Read64;
  lifetimeEnd ← Read64;
  l ← call (new_NamespaceLifetime lifetimeStart lifetimeEnd 0);
  let history := push_back owner l false history in
  a ← LoadAlias;
  history ← call (back_setAlias (m_historyId history) a history);
  numChildren ← Read64;
  pairs ← LoadChildren (m_historyId history) (Z.to_nat numChildren);
  call (add_children pairs history).

(** [RootNamespaceHistoryNonHistoricalSerializer::Load]. *)
Definition NonHistorical_Load : Reader RootNamespaceHistory :=
  header ← ReadHeader Exclude_History_Depth;
  LoadRootNamespace (new_RootNamespaceHistory (header_Id header)).

Fixpoint load_roots (n : nat) (history : RootNamespaceHistory) : Reader RootNamespaceHistory :=
  match n with
  | O => mret history
  | S n => history ← LoadRootNamespace history; load_roots n history
  end.

(** [RootNamespaceHistorySerializer::Load]. *)
Definition Load : Reader RootNamespaceHistory :=
  header ← ReadHeader Include_History_Depth;
  load_roots (Z.to_nat (header_HistoryDepth header)) (new_RootNamespaceHistory (header_Id header)).

(** * Ordered paths *)

Definition path_lt (p q : list Z) : Prop := path_ltb p q = true.

Lemma path_ltb_cons a p q : path_ltb (a :: p) (a :: q) = path_ltb p q.
Proof. simpl. by rewrite Z.ltb_irrefl. Qed.

Lemma path_lt_trans p q r : path_lt p q → path_lt q r → path_lt p r.
Proof.
  unfold path_lt. revert q r. induction p as [|a p IH]; intros [|b q] [|c r]; simpl; try done.
  destruct (a <? b) eqn:E1, (b <? a) eqn:E1', (b <? c) eqn:E2, (c <? b) eqn:E2', (a <? c) eqn:E3, (c <? a) eqn:E3';
    zbool; try done; try lia. apply IH.
Qed.

Lemma path_lt_total p q : path_lt p q ∨ p = q ∨ path_lt q p.
Proof.
  unfold path_lt. revert q. induction p as [|a p IH]; intros [|b q]; simpl; auto.
  destruct (a <? b) eqn:E1, (b <? a) eqn:E2; zbool; auto. assert (a = b) as -> by lia.
  destruct (IH q) as [|[->|]]; auto.
Qed.

Lemma path_lt_snoc p a : path_lt p (p ++ [a]).
Proof. unfold path_lt. induction p as [|b p IH]; [done|]. simpl. by rewrite Z.ltb_irrefl. Qed.

Lemma path_insert_elem p l x : x ∈ path_insert p l ↔ x = p ∨ x ∈ l.
Proof.
  induction l as [|q l IH]; simpl; [set_solver|].
  destruct (path_ltb p q) eqn:E1; [set_solver|]. destruct (path_ltb q p) eqn:E2; [set_solver|].
  destruct (path_lt_total p q) as [H|[->|H]]; unfold path_lt in *; try congruence. set_solver.
Qed.

Lemma path_insert_sorted p l : StronglySorted path_lt l → StronglySorted path_lt (path_insert p l).
Proof.
  induction 1 as [|q l Hs IH Hall]; simpl; [repeat constructor|].
  destruct (path_ltb p q) eqn:E1.
  { repeat (constructor; try done). eapply Forall_impl; [exact Hall|]. intros. by eapply path_lt_trans. }
  destruct (path_ltb q p) eqn:E2; [|by constructor]. constructor; [done|]. apply Forall_forall. intros x Hx.
  apply path_insert_elem in Hx as [->|Hx]; [done|]. rewrite Forall_forall in Hall. by apply Hall.
Qed.

Lemma sorted_paths_spec (ch : gmap Z ChildNamespaceData) :
  let l := foldr (λ child : Z * ChildNamespaceData, path_insert (child_path (snd child))) [] (map_to_list ch) in
  StronglySorted path_lt l ∧ ∀ p, p ∈ l ↔ ∃ x d, ch !! x = Some d ∧ child_path d = p.
Proof.
  intros l. split.
  - unfold l. induction (map_to_list ch) as [|c cs IH]; [constructor|]. by apply path_insert_sorted.
  - intros p. unfold l. transitivity (∃ c, c ∈ map_to_list ch ∧ child_path (snd c) = p).
    + induction (map_to_list ch) as [|c cs IH]; simpl; [set_solver|].
      rewrite path_insert_elem, IH. setoid_rewrite elem_of_cons. split; [|naive_solver].
      intros [->|(c' & ? & ?)]; [exists c|exists c']; auto.
    + split; [intros ([x d] & Hc & <-)|intros (x & d & Hx & <-)].
      * exists x, d. by apply elem_of_map_to_list in Hc.
      * exists (x, d). by rewrite elem_of_map_to_list.
Qed.

Lemma path_lt_irrefl p : ¬ path_lt p p.
Proof. unfold path_lt. induction p as [|a p IH]; simpl; [done|]. by rewrite Z.ltb_irrefl. Qed.

(** * Fields *)

Definition alias_ok (a : NamespaceAlias) : Prop :=
  match a with
  | UnsetAlias => True
  | MosaicAlias m => in_range 64 m
  | AddressAlias x => length x = 25%nat
  end.

Lemma reads_alias a : alias_ok a → reads LoadAlias (SaveAlias a) a.
Proof.
  intros Ha. unfold LoadAlias, SaveAlias.
  eapply reads_bind; [apply reads_Read8; by destruct a|]. destruct a as [|m|x]; simpl in *.
  - apply reads_ret.
  - eapply reads_bind_end; [by apply reads_Read64|apply reads_ret].
  - eapply reads_bind_end; [|apply reads_ret]. rewrite <-Ha. apply reads_read.
Qed.

(** A path below the root: one or two parts, none of them zero. *)
Definition part_ok (x : Z) : Prop := in_range 64 x ∧ x ≠ 0.

Lemma reads_child_path id parts :
  (1 ≤ length parts ≤ 2)%nat → Forall part_ok parts → reads (LoadPath id) (SavePath (id :: parts)) (id :: parts).
Proof.
  intros Hl Hp. destruct parts as [|a [|b [|c parts]]]; simpl in Hl; try lia.
  - apply Forall_cons in Hp as [[Ha Hz] _]. unfold SavePath, LoadPath. cbn [Namespace_Max_Depth length Nat.sub].
    cbn [drop fmap list_fmap concat replicate app]. rewrite !app_nil_r.
    eapply reads_bind; [by apply reads_Read64|]. rewrite decide_False by done.
    eapply reads_bind_end; [by apply reads_Read64|]. by apply reads_ret.
  - apply Forall_cons in Hp as [[Ha Hz] Hp]. apply Forall_cons in Hp as [[Hb Hzb] _].
    unfold SavePath, LoadPath. cbn [Namespace_Max_Depth length Nat.sub].
    cbn [drop fmap list_fmap concat replicate app]. rewrite !app_nil_r.
    eapply reads_bind; [by apply reads_Read64|]. rewrite decide_False by done.
    eapply reads_bind_end; [by apply reads_Read64|]. rewrite decide_False by done. by apply reads_ret.
Qed.

Lemma reads_call {A} (r : result A) a : r = Ok a → reads (call r) [] a.
Proof. by intros -> rest. Qed.

Lemma reads_call_bind {A B} (r : result A) (f : A → Reader B) a bytes b :
  r = Ok a → reads (f a) bytes b → reads (call r ≫= f) bytes b.
Proof. intros -> Hf rest. apply Hf. Qed.

(** * Children *)

(** The active registration is the only one of its run. *)
Definition fresh_run (g : Registration) (rest : list Registration) : Prop :=
  match rest with [] => True | g2 :: _ => reg_owner g2 ≠ reg_owner g end.

Lemma update_fresh_run f g rest : fresh_run g rest → update_run f (reg_owner g) (g :: rest) = map_children f g :: rest.
Proof.
  intros Hf. rewrite NamespaceCache.update_run_head. f_equal. destruct rest as [|g2 rest]; [done|].
  simpl in *. by rewrite decide_True.
Qed.

Lemma on_back_fresh h op (guard : Registration → bool) (f : gmap Z ChildNamespaceData → gmap Z ChildNamespaceData) g rest :
  history_wf h → registrations h = g :: rest → fresh_run g rest → guard g = true →
  (∀ r σ, op r σ = if guard (registration σ r) then Ok (update_children f r σ) else Throw invalid_argument) →
  ∃ h', on_back op h = Ok h' ∧ history_wf h' ∧ m_historyId h' = m_historyId h ∧ registrations h' = map_children f g :: rest.
Proof.
  intros Hwf Hr Hf Hg Hop. pose proof (on_back_refines h op guard f Hwf Hop) as H. rewrite Hr in H.
  cbn [spec_change] in H. rewrite Hg, update_fresh_run in H by done.
  destruct (on_back op h) as [h'|]; [|done]. by exists h'.
Qed.

Lemma setAlias_fresh h x a g rest :
  history_wf h → registrations h = g :: rest → fresh_run g rest → reg_id g ≠ x → is_Some (reg_children g !! x) →
  ∃ h', back_setAlias x a h = Ok h' ∧ history_wf h' ∧ m_historyId h' = m_historyId h
    ∧ registrations h' = map_children (alter (set_child_alias a) x) g :: rest.
Proof.
  intros Hwf Hr Hf Hid Hx. pose proof (back_setAlias_refines h x a Hwf) as H. rewrite Hr in H.
  unfold spec_setAlias, spec_change in H. rewrite decide_False, bool_decide_true, update_fresh_run in H by done.
  destruct (back_setAlias x a h) as [h'|]; [|done]. by exists h'.
Qed.

Definition rebuild (ch : gmap Z ChildNamespaceData) (pairs : list (list Z * NamespaceAlias)) : gmap Z ChildNamespaceData :=
  foldl (λ ch pair, <[ns_id (fst pair) := {| child_path := fst pair; child_alias := snd pair |}]> ch) ch pairs.

(** Every child comes after its parent. *)
Fixpoint addable (id : Z) (ch : gmap Z ChildNamespaceData) (pairs : list (list Z * NamespaceAlias)) : Prop :=
  match pairs with
  | [] => True
  | (p, a) :: pairs =>
      p ≠ [] ∧ ch !! ns_id p = None ∧ rootId p = id ∧ ns_id p ≠ id
      ∧ (parentId p = id ∨ ∃ d, ch !! parentId p = Some d ∧ length (child_path d) = (length p - 1)%nat)
      ∧ addable id (<[ns_id p := {| child_path := p; child_alias := a |}]> ch) pairs
  end.

Lemma add_children_rebuild pairs : ∀ h g rest,
  history_wf h → registrations h = g :: rest → fresh_run g rest → addable (reg_id g) (reg_children g) pairs →
  ∃ h', add_children pairs h = Ok h' ∧ history_wf h' ∧ m_historyId h' = m_historyId h
    ∧ registrations h' = map_children (λ ch, rebuild ch pairs) g :: rest.
Proof.
  induction pairs as [|[p a] pairs IH]; intros h g rest Hwf Hr Hf Hadd.
  { exists h. split_and!; try done. rewrite Hr. by destruct g. }
  destruct Hadd as (Hne & Hnew & Hroot & Hid & Hpar & Hrest).
  assert (can_add p g = true) as Hcan.
  { unfold can_add. rewrite !bool_decide_true by done. simpl. apply orb_true_iff.
    destruct Hpar as [Hpar|(d & Hd & Hl)]; [left; by apply bool_decide_true|right]. rewrite Hd. by apply bool_decide_true. }
  destruct (on_back_fresh h (add p) _ _ g rest Hwf Hr Hf Hcan (add_guard p)) as (h1 & E1 & Hwf1 & Hid1 & Hr1).
  set (ins := <[ns_id p := {| child_path := p; child_alias := UnsetAlias |}]>) in *.
  destruct (setAlias_fresh h1 (ns_id p) a (map_children ins g) rest Hwf1 Hr1 Hf) as (h2 & E2 & Hwf2 & Hid2 & Hr2);
    [done|unfold ins; cbn; by rewrite lookup_insert_eq|].
  set (g2 := map_children (alter (set_child_alias a) (ns_id p)) (map_children ins g)) in *.
  assert (reg_children g2 = <[ns_id p := {| child_path := p; child_alias := a |}]> (reg_children g)) as Hg2.
  { unfold g2, ins. cbn. by rewrite alter_insert_eq. }
  destruct (IH h2 g2 rest Hwf2 Hr2 Hf) as (h3 & E3 & Hwf3 & Hid3 & Hr3); [by rewrite Hg2|].
  exists h3. split_and!; try done; [|congruence|].
  - cbn [add_children]. unfold new_Namespace. rewrite decide_False by done. cbn [mbind result_bind].
    rewrite E1. cbn [mbind result_bind]. rewrite E2. exact E3.
  - rewrite Hr3. f_equal. unfold map_children. rewrite Hg2. done.
Qed.

(** The children of a registration in the order they are saved. *)
Definition listing (ch : gmap Z ChildNamespaceData) (paths : list (list Z)) : list (list Z * NamespaceAlias) :=
  (λ p, (p, default UnsetAlias (child_alias <$> ch !! ns_id p))) <$> paths.

Section children.
Context (path_of : Z → list Z) (id : Z) (ch : gmap Z ChildNamespaceData).
Context (Hok : NamespaceCache.children_ok path_of id ch).
Context (Hroot : path_of id = [id]).
Context (Hmax : ∀ x, (length (path_of x) ≤ Namespace_Max_Depth)%nat).
Context (Hprefix : ∀ x r a, path_of x = [r; a; x] → path_of a = [r; a]).

(** A path of two or three parts is determined by its ends and its middle. *)
Lemma child_path_shape x d : ch !! x = Some d →
  child_path d = [id; x] ∨ ∃ a d', child_path d = [id; a; x] ∧ ch !! a = Some d' ∧ child_path d' = [id; a].
Proof.
  intros Hx. pose proof (Hok x d Hx) as (Hp & Hr & Hi & Hl & Hor). pose proof (Hmax x) as Hm.
  unfold Namespace_Max_Depth in Hm. rewrite Hp. unfold rootId, ns_id, parentId in *.
  destruct (path_of x) as [|r [|a [|b [|c q]]]] eqn:E; simpl in *; try lia; subst.
  - by left.
  - right. destruct Hor as [->|(d' & Hd' & Hl')].
    + apply Hprefix in E. congruence.
    + exists a, d'. split_and!; try done. pose proof (Hok a d' Hd') as (Hp' & Hr' & Hi' & _). rewrite Hp' in Hl' |- *.
      unfold rootId, ns_id in *. destruct (path_of a) as [|r [|a' [|c q]]] eqn:E'; simpl in *; try lia. by subst.
Qed.

Lemma child_key x d : ch !! x = Some d → ns_id (child_path d) = x.
Proof. intros Hx. by pose proof (Hok x d Hx) as (-> & _ & ? & _). Qed.

Definition paths_of (paths : list (list Z)) : Prop := ∀ p, p ∈ paths → ∃ d, ch !! ns_id p = Some d ∧ child_path d = p.

(** The children whose paths have been read. *)
Definition part_of (done : list (list Z)) (c : gmap Z ChildNamespaceData) : Prop :=
  ∀ x, c !! x = d ← ch !! x; if decide (child_path d ∈ done) then Some d else None.

Lemma part_of_snoc done c p d :
  part_of done c → ch !! ns_id p = Some d → child_path d = p →
  part_of (done ++ [p]) (<[ns_id p := {| child_path := p; child_alias := child_alias d |}]> c).
Proof.
  intros Hc Hd Hp x. destruct (decide (x = ns_id p)) as [->|Hne].
  - rewrite lookup_insert_eq, Hd. cbn. rewrite decide_True by set_solver. destruct d; cbn in *; by subst.
  - rewrite lookup_insert_ne, Hc by done. destruct (ch !! x) as [d'|] eqn:Ex; [|done]. cbn. apply decide_ext.
    rewrite elem_of_app, list_elem_of_singleton. split; [by left|]. intros [?|He]; [done|].
    apply child_key in Ex. congruence.
Qed.

Lemma listing_addable paths : ∀ done c,
  paths_of (done ++ paths) → StronglySorted path_lt (done ++ paths) → (∀ x d, ch !! x = Some d → child_path d ∈ done ++ paths) →
  part_of done c →
  addable id c (listing ch paths) ∧ part_of (done ++ paths) (rebuild c (listing ch paths)).
Proof.
  induction paths as [|p paths IH]; intros done c Hp Hs Hall Hc; [by rewrite app_nil_r in *|].
  destruct (Hp p) as (d & Hd & Hpd); [set_solver|].
  destruct (IH (done ++ [p]) (<[ns_id p := {| child_path := p; child_alias := child_alias d |}]> c)) as [IH1 IH2];
    [by rewrite <-app_assoc|by rewrite <-app_assoc|by rewrite <-app_assoc|by apply part_of_snoc|].
  rewrite <-app_assoc in IH2. unfold listing in *. cbn [fmap list_fmap addable rebuild foldl fst snd]. rewrite Hd.
  cbn [fmap option_fmap option_map default]. split; [|exact IH2].
  pose proof (Hok _ _ Hd) as (Hpath & Hr & Hi & Hl & _). rewrite Hpd in Hpath.
  assert (p ∉ done) as Hnot.
  { intros Hin. apply (path_lt_irrefl p). eapply StronglySorted_app_1_elem_of; [exact Hs|done|by left]. }
  split_and!.
  - intros ->. rewrite <-Hpath in Hl. simpl in Hl. lia.
  - rewrite Hc, Hd. cbn. by rewrite decide_False by (by rewrite Hpd).
  - by rewrite Hpath.
  - intros He. rewrite He, Hroot in Hl. simpl in Hl. lia.
  - destruct (child_path_shape _ _ Hd) as [Hsh|(a & d' & Hsh & Ha & Hpa)]; rewrite Hpd in Hsh; rewrite Hsh; [by left|right].
    exists d'. unfold parentId. simpl. split; [|by rewrite Hpa]. rewrite Hc, Ha. cbn. apply decide_True.
    pose proof (Hall a d' Ha) as Hin. apply elem_of_app in Hin as [|Hin]; [done|exfalso]. rewrite Hpa in Hin.
    assert (path_lt [id; a] p) as Hlt by (rewrite Hsh; apply (path_lt_snoc [id; a])).
    apply elem_of_cons in Hin as [He|Hin]; [rewrite He in Hlt; by apply (path_lt_irrefl p)|].
    apply StronglySorted_app_1_r, StronglySorted_inv in Hs as [_ Hfa]. rewrite Forall_forall in Hfa.
    apply (path_lt_irrefl p). eapply path_lt_trans; [by apply Hfa|done].
  - exact IH1.
Qed.

(** Reading all children in order rebuilds the table. *)
Lemma listing_rebuilds :
  let paths := foldr (λ child : Z * ChildNamespaceData, path_insert (child_path (snd child))) [] (map_to_list ch) in
  addable id ∅ (listing ch paths) ∧ rebuild ∅ (listing ch paths) = ch ∧ paths_of paths.
Proof.
  intros paths. destruct (sorted_paths_spec ch) as [Hs Hin]. fold paths in Hs, Hin.
  assert (paths_of paths) as Hp.
  { intros p (x & d & Hx & <-)%Hin. exists d. by rewrite (child_key x d Hx). }
  destruct (listing_addable paths [] ∅) as [Ha Hb]; try done.
  - intros x d Hx. apply Hin. by exists x, d.
  - intros x. rewrite lookup_empty. by destruct (ch !! x).
  - split_and!; try done. apply map_eq. intros x. rewrite Hb. destruct (ch !! x) as [d|] eqn:Ex; [|done]. cbn.
    apply decide_True. apply Hin. by exists x, d.
Qed.

(** Children that fit their serialized form. *)
Definition children_savable : Prop := ∀ x d, ch !! x = Some d →
  alias_ok (child_alias d) ∧ Forall part_ok (drop 1 (child_path d)).

Lemma reads_children paths :
  children_savable → paths_of paths →
  reads (LoadChildren id (length paths))
    (concat ((λ pair, SavePath (fst pair) ++ SaveAlias (snd pair)) <$> listing ch paths)) (listing ch paths).
Proof.
  intros Hsav. induction paths as [|p paths IH]; intros Hp; [apply reads_ret|].
  destruct (Hp p) as (d & Hd & Hpd); [by left|]. destruct (Hsav _ _ Hd) as [Ha Hparts]. rewrite Hpd in Hparts.
  cbn [length LoadChildren listing fmap list_fmap concat fst snd]. rewrite <-app_assoc. rewrite Hd.
  eapply reads_bind with (a := p).
  { pose proof (Hok _ _ Hd) as (Hpath & Hr & _ & Hl & _). rewrite Hpd in Hpath.
    pose proof (Hmax (ns_id p)) as Hm. unfold Namespace_Max_Depth in Hm. rewrite <-Hpath in Hr, Hl, Hm.
    destruct p as [|r parts]; [simpl in Hl; lia|]. unfold rootId in Hr. simpl in Hr, Hl, Hm, Hparts. subst r.
    rewrite drop_0 in Hparts. apply reads_child_path; [lia|done]. }
  eapply reads_bind; [by apply reads_alias|]. eapply reads_bind_end; [|apply reads_ret].
  apply IH. intros q Hq. apply Hp. by right.
Qed.

End children.

(** * Registrations *)

Lemma save_children_listing path_of id σ r paths :
  NamespaceCache.children_ok path_of id (children σ r) → path_of id = [id] → m_id r = id →
  paths_of (children σ r) paths →
  save_children σ r paths
  = Ok (concat ((λ pair, SavePath (fst pair) ++ SaveAlias (snd pair)) <$> listing (children σ r) paths)).
Proof.
  intros Hok Hroot Hid. induction paths as [|p paths IH]; intros Hp; [done|].
  destruct (Hp p) as (d & Hd & Hpd); [by left|]. cbn [save_children listing fmap list_fmap concat fst snd].
  rewrite Hd. unfold alias. rewrite decide_False.
  - rewrite Hd. cbn [mbind result_bind]. rewrite IH by (intros q Hq; apply Hp; by right).
    cbn [mbind result_bind fmap option_fmap option_map default]. by rewrite <-app_assoc.
  - intros He. pose proof (Hok _ _ Hd) as (_ & _ & _ & Hl & _). rewrite <-He, Hid, Hroot in Hl. simpl in Hl. lia.
Qed.

(** What loading makes of a registration: the grace period is not stored. *)
Definition without_grace (l : NamespaceLifetime) : NamespaceLifetime :=
  {| Start := Start l; End := End l; GracePeriodEnd := End l |}.
Definition reload (g : Registration) : Registration :=
  {| reg_id := reg_id g; reg_alias := reg_alias g; reg_owner := reg_owner g;
     reg_lifetime := without_grace (reg_lifetime g); reg_children := reg_children g |}.

Section histories.
(** An id stands for one path of at most three parts, and the parent of a
    path is the path of the parent. *)
Context (path_of : Z → list Z).
Context (Hmax : ∀ x, (length (path_of x) ≤ Namespace_Max_Depth)%nat).
Context (Hprefix : ∀ x r a, path_of x = [r; a; x] → path_of a = [r; a]).

Record reg_savable (id : Z) (g : Registration) : Prop := {
  rs_id : reg_id g = id;
  rs_owner : length (reg_owner g) = 32%nat;
  rs_start : in_range 64 (Start (reg_lifetime g));
  rs_end : in_range 64 (End (reg_lifetime g));
  rs_positive : Start (reg_lifetime g) < End (reg_lifetime g);
  rs_alias : alias_ok (reg_alias g);
  rs_children : NamespaceCache.children_ok path_of id (reg_children g);
  rs_savable : children_savable (reg_children g);
  rs_count : in_range 64 (Z.of_nat (length (foldr (λ child : Z * ChildNamespaceData, path_insert (child_path (snd child))) []
    (map_to_list (reg_children g)))))
}.

Lemma lifetime_reloads l : in_range 64 (End l) → Start l < End l →
  new_NamespaceLifetime (Start l) (End l) 0 = Ok (without_grace l).
Proof.
  intros He Hs. unfold new_NamespaceLifetime. rewrite add64_small, Z.add_0_r by (by rewrite Z.add_0_r).
  destruct (End l <=? Start l) eqn:E1; zbool; [lia|].
  assert ((if decide (End l = max64) then End l else End l) = End l) as -> by (by case_decide).
  by rewrite Z.ltb_irrefl.
Qed.

(** [push_back] and [setAlias] of a loaded registration. *)
Lemma load_prologue hl id owner l a :
  history_wf hl → m_historyId hl = id → Forall (λ g, reg_id g = id) (registrations hl) →
  let shared := match registrations hl with
                | g :: _ => if decide (reg_owner g = owner) then reg_children g else ∅
                | [] => ∅
                end in
  ∃ h', back_setAlias id a (push_back owner l false hl) = Ok h' ∧ history_wf h' ∧ m_historyId h' = id
    ∧ registrations h' = {| reg_id := id; reg_alias := a; reg_owner := owner; reg_lifetime := l; reg_children := shared |}
        :: registrations hl.
Proof.
  intros Hwf Hid Hids shared. destruct (push_back_refines hl owner l false Hwf) as (Hwf1 & Hid1 & Hr1).
  pose proof (back_setAlias_refines (push_back owner l false hl) id a Hwf1) as H. rewrite Hr1 in H. unfold spec_push in H.
  unfold shared in *. destruct (registrations hl) as [|g rest].
  - cbn [spec_setAlias reg_id] in H. rewrite decide_True in H by done.
    destruct (back_setAlias id a _) as [h'|]; [|done]. destruct H as (? & ? & Hr). exists h'. split_and!; [done|done|congruence|by rewrite Hr, Hid].
  - apply Forall_cons in Hids as [Hg _]. case_decide as Ho; cbn [spec_setAlias reg_id] in H; rewrite decide_True in H by done.
    all: destruct (back_setAlias id a _) as [h'|]; [|done]; destruct H as (? & ? & Hr); exists h'.
    all: split_and!; [done|done|congruence|]; rewrite Hr; unfold reg_with_alias; cbn; by rewrite ?Hg, ?Ho, ?Hid.
Qed.

Lemma reads_root σ r prev hl id :
  let g := registration σ r in
  linked (r :: prev) → path_of id = [id] → reg_savable id g →
  history_wf hl → m_historyId hl = id → registrations hl = reload <$> (registration σ <$> prev) →
  Forall (λ x, m_id x = id) prev →
  ∃ bytes h', SaveRootNamespace σ r (m_owner <$> head prev) = Ok bytes ∧ reads (LoadRootNamespace hl) bytes h'
    ∧ history_wf h' ∧ m_historyId h' = id ∧ registrations h' = reload g :: registrations hl.
Proof.
  intros g Hl Hroot [Hgid Ho Hs He Hse Ha Hc Hsav Hn] Hwf Hid Hr Hids. cbn in *.
  destruct (listing_rebuilds path_of id (children σ r) Hc Hroot Hmax Hprefix) as (Hadd & Hreb & Hpaths).
  unfold SaveRootNamespace. unfold alias. rewrite (decide_True (P := m_id r = m_id r)) by done. cbn [mbind result_bind].
  destruct (load_prologue hl id (m_owner r) (without_grace (m_lifetime r)) (m_alias r) Hwf Hid) as (h1 & E1 & Hwf1 & Hid1 & Hr1).
  { rewrite Hr, !Forall_fmap. exact Hids. }
  assert (∀ bytes h', reads (numChildren ← Read64; pairs ← LoadChildren (m_historyId h1) (Z.to_nat numChildren);
      call (add_children pairs h1)) bytes h' →
    reads (LoadRootNamespace hl) (m_owner r ++ Write64 (Start (m_lifetime r)) ++ Write64 (End (m_lifetime r))
      ++ SaveAlias (m_alias r) ++ bytes) h') as Hread.
  { intros bytes h' Hb. unfold LoadRootNamespace. rewrite <-Ho.
    eapply reads_bind; [apply reads_read|]. eapply reads_bind; [by apply reads_Read64|].
    eapply reads_bind; [by apply reads_Read64|].
    eapply reads_call_bind; [by apply lifetime_reloads|].
    eapply reads_bind; [by apply reads_alias|].
    eapply reads_call_bind; [|exact Hb].
    destruct (push_back_refines hl (m_owner r) (without_grace (m_lifetime r)) false Hwf) as (_ & -> & _). by rewrite Hid. }
  destruct (decide (m_owner <$> head prev = Some (m_owner r))) as [Hsame|Hdiff].
  - eexists _, h1. split; [reflexivity|]. split_and!; try done.
    + apply Hread. change (Write64 0) with (Write64 0 ++ [] ++ []).
      eapply reads_bind; [by apply reads_Read64|]. eapply reads_bind; [apply reads_ret|]. by apply reads_call.
    + rewrite Hr1. f_equal. unfold reload, g. cbn. rewrite Hgid. f_equal. rewrite Hr.
      destruct prev as [|x prev]; [done|]. cbn in *. injection Hsame as Hsame. rewrite decide_True by done.
      destruct Hl as [Hl _]. unfold children. by rewrite Hl.
  - destruct (add_children_rebuild (listing (children σ r) (sortedChildPaths σ r)) h1 _ _ Hwf1 Hr1) as (h' & E2 & Hwf2 & Hid2 & Hr2).
    + rewrite Hr. destruct prev as [|x prev]; [done|]. cbn in *. congruence.
    + cbn. rewrite Hr. destruct prev as [|x prev]; cbn; [exact Hadd|].
      rewrite decide_False by (cbn in Hdiff; congruence). exact Hadd.
    + unfold SaveChildren. rewrite (save_children_listing path_of id) by done. cbn [mbind result_bind].
      eexists _, h'. split; [reflexivity|]. split_and!; try done; [|congruence|].
      * apply Hread. eapply reads_bind; [by apply reads_Read64|].
        rewrite Nat2Z.id, Hid1. eapply reads_bind_end; [by apply (reads_children path_of)|]. by apply reads_call.
      * rewrite Hr2. f_equal. unfold reload, map_children, g. cbn. rewrite Hgid. f_equal.
        rewrite Hr. destruct prev as [|x prev]; cbn; [exact Hreb|]. rewrite decide_False by (cbn in Hdiff; congruence). exact Hreb.
Qed.

Lemma reads_roots σ id roots : path_of id = [id] → ∀ prev hl,
  linked (reverse roots ++ prev) → Forall (λ r, reg_savable id (registration σ r)) roots →
  history_wf hl → m_historyId hl = id → registrations hl = reload <$> (registration σ <$> prev) →
  Forall (λ x, m_id x = id) prev →
  ∃ bytes h', save_roots σ (m_owner <$> head prev) roots = Ok bytes ∧ reads (load_roots (length roots) hl) bytes h'
    ∧ history_wf h' ∧ m_historyId h' = id ∧ registrations h' = reload <$> (registration σ <$> (reverse roots ++ prev)).
Proof.
  intros Hroot. induction roots as [|r roots IH]; intros prev hl Hl Hs Hwf Hid Hr Hids.
  { exists [], hl. by split_and!. }
  rewrite reverse_cons, <-app_assoc in Hl. apply Forall_cons in Hs as [Hs Hss]. pose proof Hs as [Hrid _ _ _ _ _ _ _ _].
  destruct (reads_root σ r prev hl id (linked_app_r _ _ Hl) Hroot Hs Hwf Hid Hr Hids) as (b1 & h1 & Es & Hb & Hwf1 & Hid1 & Hr1).
  destruct (IH (r :: prev) h1 Hl Hss Hwf1 Hid1 ltac:(by rewrite Hr1, Hr) ltac:(by constructor))
    as (b2 & h2 & Es2 & Hb2 & Hwf2 & Hid2 & Hr2).
  exists (b1 ++ b2), h2. cbn [save_roots length load_roots]. rewrite Es. cbn [mbind result_bind].
  cbn [fmap option_fmap option_map head] in Es2. rewrite Es2. split_and!; try done.
  - by eapply reads_bind.
  - rewrite Hr2, reverse_cons, <-app_assoc. done.
Qed.

(** A history that fits its serialized form. *)
Record history_savable (h : RootNamespaceHistory) : Prop := {
  hs_wf : history_wf h;
  hs_id : in_range 64 (m_historyId h);
  hs_path : path_of (m_historyId h) = [m_historyId h];
  hs_depth : in_range 64 (historyDepth h);
  hs_regs : Forall (reg_savable (m_historyId h)) (registrations h)
}.

(** C38. Saving never fails on a well-formed history, and loading what was
    saved consumes exactly those bytes and gives back the history with every
    owner, lifetime start and end, alias and child, and with the sharing of
    children, but with each grace period cut off at the end of the lifetime;
    the non-historical serializer does so for the last registration alone. *)
Theorem history_save_load h :
  history_savable h →
  (∃ bytes h', Save h = Ok bytes ∧ reads Load bytes h' ∧ history_wf h' ∧ m_historyId h' = m_historyId h
     ∧ registrations h' = reload <$> registrations h)
  ∧ (registrations h ≠ [] → ∃ bytes h' g, NonHistorical_Save h = Ok bytes ∧ reads NonHistorical_Load bytes h'
     ∧ m_historyId h' = m_historyId h ∧ head (registrations h) = Some g ∧ registrations h' = [reload g]).
Proof.
  intros [Hwf Hid Hp Hd Hs]. pose proof Hwf as [Hl _ _].
  assert (Forall (λ r, reg_savable (m_historyId h) (registration (m_store h) r)) (m_rootHistory h)) as Hs'.
  { unfold registrations, newest in Hs. by rewrite Forall_fmap, Forall_reverse in Hs. }
  assert (history_wf (new_RootNamespaceHistory (m_historyId h))) as Hnew by (by split; constructor). split.
  - destruct (reads_roots (m_store h) (m_historyId h) (m_rootHistory h) Hp [] (new_RootNamespaceHistory (m_historyId h)))
      as (bytes & h' & Es & Hb & Hwf' & Hid' & Hr'); try done; [by rewrite app_nil_r|].
    rewrite app_nil_r in Hr'. cbn [head fmap option_fmap option_map] in Es. unfold Save. rewrite Es.
    eexists _, h'. split; [reflexivity|]. split_and!; try done.
    unfold Load, ReadHeader, SaveHeader. rewrite decide_True by done.
    intros rest. rewrite <-!app_assoc. unfold mbind, exec_bind.
    rewrite (reads_Read32 1) by done. rewrite (reads_Read64 (historyDepth h)) by done.
    rewrite (reads_Read64 (m_historyId h)) by done. cbn [mret exec_ret header_HistoryDepth header_Id].
    unfold historyDepth. rewrite Nat2Z.id. apply Hb.
  - intros Hne. destruct (registrations h) as [|g rest] eqn:E; [done|].
    destruct (NamespaceCache.back_registration h g rest E) as (r & Hb & Hr).
    destruct (reads_root (m_store h) r [] (new_RootNamespaceHistory (m_historyId h)) (m_historyId h))
      as (bytes & h' & Es & Hrd & Hwf' & Hid' & Hr'); try done.
    { rewrite Hr. by apply Forall_cons in Hs as [? _]. }
    cbn [head fmap option_fmap option_map] in Es. unfold NonHistorical_Save. rewrite Hb, Es. eexists _, h', g. split; [reflexivity|]. split_and!; try done; [|by rewrite Hr', Hr].
    unfold NonHistorical_Load, ReadHeader, SaveHeader. rewrite decide_False by done.
    intros rest'. rewrite <-!app_assoc. unfold mbind, exec_bind. rewrite (reads_Read32 1) by done. rewrite decide_False by done.
    cbn [mret exec_ret app]. rewrite (reads_Read64 (m_historyId h)) by done. apply Hrd.
Qed.

End histories.

(** * Examples *)

Definition sample_owner : list Z := replicate 32 1.

(** Root 7 with a child 8, renewed once; the lifetime ends at 20 and the
    grace period at 25. *)
Definition sample_history : RootNamespaceHistory :=
  let life a b := {| Start := a; End := b; GracePeriodEnd := b + 5 |} in
  fst (trace history_step (new_RootNamespaceHistory 7)
    [PushBack sample_owner (life 1 10) true; AddChild [7; 8]; SetAlias 8 (MosaicAlias 3);
     PushBack sample_owner (life 1 20) true]).

Definition sample_registration (end_ : Z) : Registration :=
  {| reg_id := 7; reg_alias := UnsetAlias; reg_owner := sample_owner;
     reg_lifetime := {| Start := 1; End := end_; GracePeriodEnd := end_ + 5 |};
     reg_children := {[ 8 := {| child_path := [7; 8]; child_alias := MosaicAlias 3 |} ]} |}.

Lemma sample_registrations : registrations sample_history = [sample_registration 20; sample_registration 10].
Proof. vm_compute. reflexivity. Qed.

Lemma sample_path_prefix x r a : NamespaceCache.sample_path x = [r; a; x] → NamespaceCache.sample_path a = [r; a].
Proof. unfold NamespaceCache.sample_path. repeat case_decide; intros; simplify_eq. done. Qed.

Lemma sample_registration_savable end_ : in_range 64 end_ → 1 < end_ →
  reg_savable NamespaceCache.sample_path 7 (sample_registration end_).
Proof.
  intros He Hs. split; cbn [sample_registration reg_id reg_owner reg_lifetime reg_alias reg_children Start End];
    try done.
  - intros x d Hx. apply lookup_singleton_Some in Hx as [<- <-]. split_and!; try done. by left.
  - intros x d Hx. apply lookup_singleton_Some in Hx as [<- <-]. split; [done|]. by repeat constructor.
Qed.

Lemma sample_savable : history_savable NamespaceCache.sample_path sample_history.
Proof.
  split; try done.
  - split; [vm_compute; repeat split; done|repeat constructor; vm_compute; lia|by repeat constructor].
  - rewrite sample_registrations. apply Forall_cons. split; [by apply sample_registration_savable|].
    apply Forall_cons. split; [by apply sample_registration_savable|done].
Qed.

Lemma history_save_load_witness :
  ∃ bytes h', Save sample_history = Ok bytes ∧ reads Load bytes h' ∧ historyDepth h' = 2
    ∧ numAllHistoricalChildren h' = 2.
Proof.
  destruct (history_save_load NamespaceCache.sample_path NamespaceCache.sample_max sample_path_prefix sample_history sample_savable)
    as [(bytes & h' & Hs & Hl & Hwf & _ & Hr) _].
  exists bytes, h'. split_and!; [done|done| |].
  - rewrite historyDepth_eq, Hr. vm_compute. reflexivity.
  - rewrite numAllHistoricalChildren_eq, Hr. vm_compute. reflexivity.
Defined.

(** The grace period of a namespace does not survive storage: a history
    that is in its grace period at height 22 (so only its owner may register
    the name) is saved and loaded without error as a history that is not, so
    that the owner has lost the reserved name. *)
Theorem grace_period_lost_on_reload :
  ∃ bytes h', Save sample_history = Ok bytes ∧ snd (Load bytes) = Ok h'
    ∧ history_isActive sample_history 22 = true ∧ history_isActive h' 22 = false
    ∧ history_isActive h' 19 = true.
Proof.
  eexists _, _. split; [vm_compute; reflexivity|]. split; [vm_compute; reflexivity|]. split_and!; vm_compute; reflexivity.
Qed.

End HistorySerializer.
