(* ===== verification/NamespaceObservers.v ===== *)
(** Model of the observers and stateful validators of the namespace plugin
    (plugins/txes/namespace/src/observers and src/validators): registration of
    root and child namespaces, aliases, and the checks a notification passes
    before the observers run.  The file shows that what the validators accept
    is what the consistency of the cache needs, and that rolling back an
    alias change that was validated restores the cache. *)
From stdpp Require Import base tactics numbers option list sorting gmap.
From S2P Require Import Prelude Streams Notifications NamespaceState NamespaceCache.

Local Open Scope Z_scope.

Module NamespaceObservers.
Import Namespaces NamespaceCache.
Import Notifications (NotifyMode (..)).

(** * Results *)

Inductive ValidationResult :=
| Success
| Failure_Namespace_Invalid_Duration
| Failure_Namespace_Invalid_Name
| Failure_Namespace_Name_Id_Mismatch
| Failure_Namespace_Expired
| Failure_Namespace_Owner_Conflict
| Failure_Namespace_Id_Mismatch
| Failure_Namespace_Plugin_Config_Malformed
| Failure_Namespace_Invalid_Namespace_Type
| Failure_Namespace_Root_Name_Reserved
| Failure_Namespace_Too_Deep
| Failure_Namespace_Parent_Unknown
| Failure_Namespace_Already_Exists
| Failure_Namespace_Already_Active
| Failure_Namespace_Eternal_After_Nemesis_Block
| Failure_Namespace_Max_Children_Exceeded
| Failure_Namespace_Alias_Invalid_Action
| Failure_Namespace_Alias_Namespace_Unknown
| Failure_Namespace_Alias_Already_Exists
| Failure_Namespace_Alias_Does_Not_Exist
| Failure_Namespace_Alias_Owner_Conflict
| Failure_Namespace_Alias_Unlink_Type_Inconsistency
| Failure_Namespace_Alias_Unlink_Data_Inconsistency
| Failure_Namespace_Alias_Invalid_Address
| Failure_Namespace_Unknown.

#[global] Instance ValidationResult_eq_dec : EqDecision ValidationResult.
Proof. solve_decision. Defined.

Inductive AliasAction := Link | Unlink.

#[global] Instance AliasAction_eq_dec : EqDecision AliasAction.
Proof. solve_decision. Defined.

Definition ShouldLink (action : AliasAction) (mode : NotifyMode) : bool :=
  match mode with Commit => bool_decide (Link = action) | Rollback => bool_decide (Unlink = action) end.

Definition Eternal_Artifact_Duration : Z := 0.

(** [cache.find(id).get()]. *)
Definition get_entry (id : Z) (c : NamespaceCacheDelta) : result (list Z * Registration) :=
  match snd (find id c) with
  | Ok (Some entry) => Ok entry
  | Ok None => Throw invalid_argument
  | Throw e => Throw e
  end.

(** [cache.find(id).tryGet()]. *)
Definition try_entry (id : Z) (c : NamespaceCacheDelta) : result (option (list Z * Registration)) := snd (find id c).

(** [RootNamespace::alias] of the root an entry holds. *)
Definition entry_alias (g : Registration) (id : Z) : result NamespaceAlias :=
  if decide (reg_id g = id) then Ok (reg_alias g)
  else match reg_children g !! id with None => Throw invalid_argument | Some d => Ok (child_alias d) end.

(** * Observers *)

Record RootNamespaceNotification := { root_Signer : list Z; root_NamespaceId : Z; root_Duration : Z }.
Record ChildNamespaceNotification := { child_Signer : list Z; child_NamespaceId : Z; child_ParentId : Z }.

(** 1.0.0.0, the version RootNamespaceObserver.cpp compares with. *)
Definition AliasFixVersion : Z :=
  Z.lor (Z.lor (Z.lor (Z.shiftl 1 48) (Z.shiftl 0 32)) (Z.shiftl 0 16)) 0.

Definition IsRenewal (root : Registration) (n : RootNamespaceNotification) (height : Z) : bool :=
  isActiveOrGracePeriod (reg_lifetime root) height && bool_decide (reg_owner root = root_Signer n).

Definition LifetimeEnd (height duration : Z) : Z :=
  if decide (Eternal_Artifact_Duration = duration) then max64 else add64 height duration.

Section observers.
Context (NamespaceGracePeriodDuration Version : Z → Z).
Abbreviation insertRoot := (insertRoot NamespaceGracePeriodDuration Version).

(** The lifetime and alias a committed registration gets. *)
Definition registration_terms (n : RootNamespaceNotification) (height : Z) (c : NamespaceCacheDelta)
    : result (NamespaceLifetime * NamespaceAlias) :=
  l ← new_NamespaceLifetime height (LifetimeEnd height (root_Duration n)) 0;
  if contains c (root_NamespaceId n) then
    '(_, root) ← get_entry (root_NamespaceId n) c;
    if IsRenewal root n height then
      let l' := {| Start := Start (reg_lifetime root);
                   End := LifetimeEnd (End (reg_lifetime root)) (root_Duration n);
                   GracePeriodEnd := GracePeriodEnd (reg_lifetime root) |} in
      if AliasFixVersion <=? Version height
      then a ← entry_alias root (root_NamespaceId n); Ok (l', a)
      else Ok (l', UnsetAlias)
    else Ok (l, UnsetAlias)
  else Ok (l, UnsetAlias).

Definition RootNamespaceObserver (n : RootNamespaceNotification) (mode : NotifyMode) (height : Z)
    : Exec NamespaceCacheDelta unit := λ c,
  match mode with
  | Rollback => remove (root_NamespaceId n) c
  | Commit =>
      match registration_terms n height c with
      | Throw e => (c, Throw e)
      | Ok (l, a) =>
          (insertRoot (root_NamespaceId n) (root_Signer n) l ≫= λ _,
           match a with
           | AddressAlias address => setAlias (root_NamespaceId n) (AddressAlias address)
           | MosaicAlias mosaicId => setAlias (root_NamespaceId n) (MosaicAlias mosaicId)
           | UnsetAlias => mret tt
           end) c
      end
  end.

Definition ChildNamespaceObserver (n : ChildNamespaceNotification) (mode : NotifyMode)
    : Exec NamespaceCacheDelta unit := λ c,
  match mode with
  | Rollback => remove (child_NamespaceId n) c
  | Commit =>
      match ('(parentPath, _) ← get_entry (child_ParentId n) c;
             childPath ← push_id parentPath (child_NamespaceId n);
             new_Namespace childPath) with
      | Throw e => (c, Throw e)
      | Ok ns => insertChild ns c
      end
  end.

(** [AliasedObserverHandler], with the alias the notification carries. *)
Definition AliasedObserverHandler (id : Z) (action : AliasAction) (aliasedData : NamespaceAlias) (mode : NotifyMode)
    : Exec NamespaceCacheDelta unit :=
  if ShouldLink action mode then setAlias id aliasedData else setAlias id UnsetAlias.

(** * Validators *)

Definition IsEternal (l : NamespaceLifetime) : bool := bool_decide (max64 = End l).

Definition RootNamespaceAvailability (networkKey : list Z) (n : RootNamespaceNotification) (height : Z)
    (c : NamespaceCacheDelta) : result ValidationResult :=
  let isEternalDurationSignedByNotNetworkPublicKey :=
    bool_decide (Eternal_Artifact_Duration = root_Duration n) && bool_decide (root_Signer n ≠ networkKey) in
  if bool_decide (1 ≠ height) && isEternalDurationSignedByNotNetworkPublicKey
  then Ok Failure_Namespace_Eternal_After_Nemesis_Block
  else if negb (contains c (root_NamespaceId n)) then Ok Success
  else
    '(_, root) ← get_entry (root_NamespaceId n) c;
    if IsEternal (reg_lifetime root) || isEternalDurationSignedByNotNetworkPublicKey
    then Ok Failure_Namespace_Invalid_Duration
    else if negb (isActiveOrGracePeriod (reg_lifetime root) height) then Ok Success
    else Ok (if decide (reg_owner root = root_Signer n) then Success else Failure_Namespace_Owner_Conflict).

Definition AddOverflows (height duration : Z) : bool := add64 height duration <? height.

Definition CalculateMaxLifetimeEnd (height duration : Z) : Z :=
  if AddOverflows height duration then max64 else add64 height duration.

Definition NamespaceDurationOverflow (maxNamespaceDuration : Z) (n : RootNamespaceNotification) (height : Z)
    (c : NamespaceCacheDelta) : result ValidationResult :=
  if AddOverflows height (root_Duration n) then Ok Failure_Namespace_Invalid_Duration
  else if negb (contains c (root_NamespaceId n)) then Ok Success
  else
    '(_, root) ← get_entry (root_NamespaceId n) c;
    if negb (isActiveOrGracePeriod (reg_lifetime root) height) then Ok Success
    else if AddOverflows (End (reg_lifetime root)) (root_Duration n) then Ok Failure_Namespace_Invalid_Duration
    else
      let newLifetimeEnd := add64 (End (reg_lifetime root)) (root_Duration n) in
      let maxLifetimeEnd := CalculateMaxLifetimeEnd height maxNamespaceDuration in
      Ok (if maxLifetimeEnd <? newLifetimeEnd then Failure_Namespace_Invalid_Duration else Success).

(** [maxDuration] in blocks, from the plugin configuration. *)
Definition RootNamespaceValidator (maxDuration : Z) (n : RootNamespaceNotification) : ValidationResult :=
  if maxDuration <? root_Duration n then Failure_Namespace_Invalid_Duration else Success.

Definition ChildNamespaceAvailability (n : ChildNamespaceNotification) (height : Z) (c : NamespaceCacheDelta)
    : result ValidationResult :=
  if contains c (child_NamespaceId n) then Ok Failure_Namespace_Already_Exists
  else if negb (contains c (child_ParentId n)) then Ok Failure_Namespace_Parent_Unknown
  else
    '(parentPath, root) ← get_entry (child_ParentId n) c;
    if decide (length parentPath = Namespace_Max_Depth) then Ok Failure_Namespace_Too_Deep
    else if negb (isActiveAndUnlocked (reg_lifetime root) height) then Ok Failure_Namespace_Expired
    else if decide (reg_owner root ≠ child_Signer n) then Ok Failure_Namespace_Owner_Conflict
    else Ok Success.

Definition RootNamespaceMaxChildren (maxChildNamespaces : Z) (n : ChildNamespaceNotification) (c : NamespaceCacheDelta)
    : result ValidationResult :=
  '(_, root) ← get_entry (child_ParentId n) c;
  Ok (if maxChildNamespaces <=? Z.of_nat (size (reg_children root)) then Failure_Namespace_Max_Children_Exceeded else Success).

Definition RequiredNamespace (owner : list Z) (id height : Z) (c : NamespaceCacheDelta) : result ValidationResult :=
  entry ← try_entry id c;
  match entry with
  | None => Ok Failure_Namespace_Unknown
  | Some (_, root) =>
      if negb (isActiveOrGracePeriod (reg_lifetime root) height) then Ok Failure_Namespace_Expired
      else Ok (if decide (reg_owner root = owner) then Success else Failure_Namespace_Owner_Conflict)
  end.

Definition AliasAvailability (owner : list Z) (id : Z) (action : AliasAction) (height : Z) (c : NamespaceCacheDelta)
    : result ValidationResult :=
  entry ← try_entry id c;
  match entry with
  | None => Ok Failure_Namespace_Alias_Namespace_Unknown
  | Some (_, root) =>
      if negb (isActiveAndUnlocked (reg_lifetime root) height) then Ok Failure_Namespace_Expired
      else
        a ← entry_alias root id;
        if decide (Link = action ∧ Alias_None ≠ alias_type a) then Ok Failure_Namespace_Alias_Already_Exists
        else if decide (Unlink = action ∧ Alias_None = alias_type a) then Ok Failure_Namespace_Alias_Does_Not_Exist
        else Ok (if decide (reg_owner root = owner) then Success else Failure_Namespace_Alias_Owner_Conflict)
  end.

(** [UnlinkAliasedDataConsistencyValidator]: [aliasedData] has the type of the
    validator's traits. *)
Definition UnlinkAliasedDataConsistency (id : Z) (action : AliasAction) (aliasedData : NamespaceAlias)
    (c : NamespaceCacheDelta) : result ValidationResult :=
  if decide (Unlink ≠ action) then Ok Success
  else
    entry ← try_entry id c;
    match entry with
    | None => Ok Failure_Namespace_Alias_Namespace_Unknown
    | Some (_, root) =>
        a ← entry_alias root id;
        if decide (alias_type aliasedData ≠ alias_type a) then Ok Failure_Namespace_Alias_Unlink_Type_Inconsistency
        else Ok (if decide (a ≠ aliasedData) then Failure_Namespace_Alias_Unlink_Data_Inconsistency else Success)
    end.

(** The stateless validators of the raw enumeration values. *)
Definition AliasActionValidator (rawAction : Z) : ValidationResult :=
  if rawAction <=? 1 then Success else Failure_Namespace_Alias_Invalid_Action.
Definition NamespaceTypeValidator (rawType : Z) : ValidationResult :=
  if rawType <=? 1 then Success else Failure_Namespace_Invalid_Namespace_Type.

End observers.

(** * Names *)

Definition IsAlphaNumeric (ch : Z) : bool := (97 <=? ch) && (ch <=? 122) || (48 <=? ch) && (ch <=? 57).
Definition IsValidChar (ch : Z) : bool := IsAlphaNumeric ch || (45 =? ch) || (95 =? ch).

Definition IsValidName (name : list Z) : bool :=
  match name with [] => false | ch :: rest => IsAlphaNumeric ch && forallb IsValidChar rest end.

Section names.
(** SHA3-256 as a function on bytes. *)
Context (sha3_256 : list Z → list Z).

(** The first eight bytes of the hash with the high bit set. *)
Definition GenerateNamespaceId (parentId : Z) (name : list Z) : Z :=
  Z.lor (Streams.Stream.le_value (take 8 (sha3_256 (Streams.Stream.le_bytes 8 parentId ++ name)))) (Z.shiftl 1 63).

Definition GenerateRootNamespaceId (name : list Z) : Z := GenerateNamespaceId Namespace_Base_Id name.

Record NamespaceNameNotification := { name_Signer : list Z; name_NamespaceId : Z; name_ParentId : Z; name_Name : list Z }.

Definition NamespaceName (maxNameSize : Z) (reservedRootNamespaceNames : list (list Z)) (networkKey : list Z)
    (n : NamespaceNameNotification) : ValidationResult :=
  let reservedRootIds := GenerateNamespaceId Namespace_Base_Id <$> reservedRootNamespaceNames in
  if (maxNameSize <? Z.of_nat (length (name_Name n))) || negb (IsValidName (name_Name n))
  then Failure_Namespace_Invalid_Name
  else if decide (name_NamespaceId n ≠ GenerateNamespaceId (name_ParentId n) (name_Name n))
  then Failure_Namespace_Name_Id_Mismatch
  else
    let namespaceId := if decide (Namespace_Base_Id = name_ParentId n) then name_NamespaceId n else name_ParentId n in
    if decide (namespaceId ∈ reservedRootIds ∧ name_Signer n ≠ networkKey)
    then Failure_Namespace_Root_Name_Reserved
    else Success.

End names.

(** * Validated registrations *)

Section validated.
Context (path_of : Z → list Z) (NamespaceGracePeriodDuration Version : Z → Z).

Lemma find_registered c id p :
  cache_wf path_of c → m_pNamespaceById c !! id = Some p →
  ∃ h g rest, m_pHistoryById c !! rootId p = Some h ∧ registrations h = g :: rest ∧ reg_id g = rootId p
    ∧ p = path_of id ∧ snd (find id c) = Ok (Some (p, g)).
Proof.
  intros Hwf Hf. destruct (history_of_flat path_of c id p Hwf Hf) as (Hp & h & Hh).
  pose proof (cw_histories _ c Hwf _ _ Hh) as [Hhwf Hid _ _ Hne _ _].
  destruct (registrations h) as [|g rest] eqn:E; [done|].
  destruct (back_registration h g rest E) as (r & Hb & Hr).
  assert (reg_id g = rootId p) as Hrid.
  { pose proof (registrations_ids h Hhwf) as Hi. rewrite E, Hid in Hi. by apply Forall_cons in Hi as [? _]. }
  exists h, g, rest. split_and!; try done. unfold find. rewrite Hf, Hh, Hb, decide_False by (rewrite <-Hr in Hrid; cbn in Hrid; congruence).
  cbn. by rewrite Hr.
Qed.

(** The root entry of a contained root. *)
Lemma root_entry c id :
  cache_wf path_of c → path_of id = [id] → contains c id = true →
  ∃ h g rest, m_pHistoryById c !! id = Some h ∧ registrations h = g :: rest ∧ reg_id g = id
    ∧ get_entry id c = Ok ([id], g).
Proof.
  intros Hwf Hp [p Hf]%bool_decide_eq_true.
  destruct (find_registered c id p Hwf Hf) as (h & g & rest & Hh & E & Hid & -> & Hfind).
  rewrite Hp in Hh, Hid, Hfind. exists h, g, rest. split_and!; try done. unfold get_entry. by rewrite Hfind.
Qed.

Lemma not_contained c id : cache_wf path_of c → path_of id = [id] → contains c id = false → m_pHistoryById c !! id = None.
Proof.
  intros Hwf Hp Hc%bool_decide_eq_false. destruct (m_pHistoryById c !! id) as [h|] eqn:Hh; [|done].
  exfalso. apply Hc. exists [id]. apply (cw_flat _ c Hwf). split; [done|]. exists h. rewrite Hp. split; [done|by left].
Qed.

Lemma lifetime_grace start end_ grace l : in_range 64 end_ → in_range 64 grace →
  new_NamespaceLifetime start end_ grace = Ok l →
  start < end_ ∧ Start l = start ∧ End l = end_
  ∧ GracePeriodEnd l = (if decide (end_ = max64) then max64 else end_ + grace).
Proof.
  intros He Hg. unfold new_NamespaceLifetime. destruct (end_ <=? start) eqn:E1; [done|]. zbool.
  destruct (_ <? end_) eqn:E2; [done|]. zbool. intros [= <-]. split_and!; try done. cbn.
  case_decide as Hm; [done|]. unfold in_range, max64 in *.
  destruct (decide (end_ + grace < 2 ^ 64)) as [Hlt|Hge]; [apply add64_small; unfold in_range; lia|exfalso].
  unfold add64, wrap in E2. rewrite <-(Z.mod_add _ (-1)), Z.mod_small in E2 by lia. lia.
Qed.

Lemma AddOverflows_false h d : in_range 64 h → in_range 64 d → AddOverflows h d = false → add64 h d = h + d ∧ h + d < 2 ^ 64.
Proof.
  unfold AddOverflows, in_range. intros Hh Hd Ho. zbool.
  destruct (decide (h + d < 2 ^ 64)) as [Hlt|Hge]; [split; [apply add64_small; unfold in_range; lia|done]|exfalso].
  unfold add64, wrap in Ho. rewrite <-(Z.mod_add _ (-1)), Z.mod_small in Ho by lia. lia.
Qed.

(** The registration of a namespace, if any, as the chain sees it: it has
    started, its fields are heights, and its grace period is no longer than
    the one configured now. *)
Definition registration_sane (c : NamespaceCacheDelta) (id height : Z) : Prop :=
  ∀ h g rest, m_pHistoryById c !! id = Some h → registrations h = g :: rest →
    Start (reg_lifetime g) ≤ height ∧ in_range 64 (End (reg_lifetime g))
    ∧ GracePeriodEnd (reg_lifetime g) < max64
    ∧ GracePeriodEnd (reg_lifetime g) ≤ End (reg_lifetime g) + NamespaceGracePeriodDuration height.

(** A validated duration moves the end of a lifetime forward. *)
Lemma LifetimeEnd_forward h d :
  in_range 64 h → in_range 64 d → AddOverflows h d = false →
  in_range 64 (LifetimeEnd h d) ∧ (LifetimeEnd h d = max64 ∨ LifetimeEnd h d = h + d ∧ 0 < d).
Proof.
  intros Hh Hd Ho. destruct (AddOverflows_false h d Hh Hd Ho) as [He Hlt]. unfold LifetimeEnd, Eternal_Artifact_Duration.
  unfold in_range in *. case_decide as H0; [unfold max64; split; [lia|by left]|]. rewrite He. split; [lia|right; lia].
Qed.

Lemma terms_insertable networkKey maxDuration c n height l a :
  let id := root_NamespaceId n in
  cache_wf path_of c → path_of id = [id] → id ≠ Namespace_Base_Id → m_height c = height →
  in_range 64 height → in_range 64 (root_Duration n) → in_range 64 (NamespaceGracePeriodDuration height) →
  registration_sane c id height →
  RootNamespaceAvailability networkKey n height c = Ok Success →
  NamespaceDurationOverflow maxDuration n height c = Ok Success →
  registration_terms Version n height c = Ok (l, a) →
  root_insertable path_of NamespaceGracePeriodDuration c id l.
Proof.
  intros id Hwf Hp Hz Hheight Hhr Hdr Hgr Hsane Hav Hdo Hterms. split_and!; [done|done|].
  intros h l' Hh Hl'. rewrite Hheight in Hl'. fold id in Hterms.
  assert (contains c id = true) as Hc.
  { destruct (contains c id) eqn:E; [done|]. apply not_contained in E; [congruence|done|done]. }
  destruct (root_entry c id Hwf Hp Hc) as (h0 & g & rest & Hh0 & Eg & Hgid & Hget).
  rewrite Hh in Hh0. injection Hh0 as <-. destruct (Hsane h g rest Hh Eg) as (Hst & Her & Hgm & Hgg).
  unfold expires_last. rewrite Eg. unfold registration_terms in Hterms. unfold NamespaceDurationOverflow in Hdo.
  unfold RootNamespaceAvailability in Hav. fold id in Hterms, Hdo, Hav. rewrite Hc, Hget in *. cbn [negb] in *.
  destruct (AddOverflows height (root_Duration n)) eqn:Eo; [done|].
  destruct (LifetimeEnd_forward _ _ Hhr Hdr Eo) as [Hlr Hlf].
  destruct (new_NamespaceLifetime height _ 0) as [l0|] eqn:E0; [|done]. cbn [mbind result_bind] in *.
  destruct (lifetime_grace _ _ 0 _ Hlr ltac:(done) E0) as (_ & Hs0 & He0 & _).
  destruct (IsRenewal g n height) eqn:Er.
  - unfold IsRenewal in Er. apply andb_true_iff in Er as [Eact Eown]. rewrite Eact in Hdo. cbn [negb] in Hdo.
    destruct (AddOverflows (End (reg_lifetime g)) (root_Duration n)) eqn:Eo2; [done|].
    destruct (LifetimeEnd_forward _ _ Her Hdr Eo2) as [Hlr2 Hlf2].
    assert (End l = LifetimeEnd (End (reg_lifetime g)) (root_Duration n)) as Hel.
    { destruct (AliasFixVersion <=? Version height); [|by injection Hterms as <- _].
      destruct (entry_alias g id); [|done]. by injection Hterms as <- _. }
    rewrite Hel in Hl'. destruct (lifetime_grace _ _ _ _ Hlr2 Hgr Hl') as (_ & _ & _ & ->).
    unfold in_range in *. destruct (decide (LifetimeEnd _ _ = max64)); [lia|]. destruct Hlf2 as [|[-> ?]]; [done|]. lia.
  - injection Hterms as <- _. rewrite He0, Hs0 in Hl'.
    destruct (lifetime_grace _ _ _ _ Hlr Hgr Hl') as (Hpos & _ & _ & ->).
    assert (GracePeriodEnd (reg_lifetime g) ≤ height) as Hend.
    { destruct (IsEternal (reg_lifetime g) || _); [by destruct (bool_decide (1 ≠ height) && _)|].
      destruct (isActiveOrGracePeriod (reg_lifetime g) height) eqn:Eact.
      - exfalso. unfold IsRenewal in Er. rewrite Eact in Er. cbn in Er. apply bool_decide_eq_false in Er.
        cbn [negb] in Hav. rewrite decide_False in Hav by done. by destruct (bool_decide (1 ≠ height) && _).
      - unfold isActiveOrGracePeriod in Eact. apply andb_false_iff in Eact as [?|?]; zbool; lia. }
    unfold in_range in *. destruct (decide (LifetimeEnd _ _ = max64)); lia.
Qed.

(** C37. A root registration that passes [RootNamespaceAvailability] and
    [NamespaceDurationOverflow] keeps the cache consistent when the observer
    commits it, provided the present registration of the namespace, if any, has
    started and has a grace period that is finite and not longer than the one
    configured at this height ([registration_sane]; the code does not ensure this
    when the configuration changes).  A renewal by the owner keeps the start of
    the present registration and adds its duration to the end; a new owner only
    follows after the grace period: so registrations of a namespace expire in the
    order they were made. *)
Theorem validated_registration_keeps_consistency networkKey maxDuration c n height :
  let id := root_NamespaceId n in
  cache_wf path_of c → path_of id = [id] → id ≠ Namespace_Base_Id → m_height c = height →
  in_range 64 height → in_range 64 (root_Duration n) → in_range 64 (NamespaceGracePeriodDuration height) →
  registration_sane c id height →
  RootNamespaceAvailability networkKey n height c = Ok Success →
  NamespaceDurationOverflow maxDuration n height c = Ok Success →
  cache_wf path_of (fst (RootNamespaceObserver NamespaceGracePeriodDuration Version n Commit height c)).
Proof.
  intros id Hwf Hp Hz Hheight Hhr Hdr Hgr Hsane Hav Hdo. unfold RootNamespaceObserver.
  destruct (registration_terms Version n height c) as [[l a]|e] eqn:Et; [|done].
  pose proof (terms_insertable networkKey maxDuration c n height l a Hwf Hp Hz Hheight Hhr Hdr Hgr Hsane Hav Hdo Et) as Hins.
  pose proof (insertRoot_wf path_of NamespaceGracePeriodDuration Version c _ (root_Signer n) l Hwf Hins) as Hwf1.
  unfold mbind, exec_bind. fold id in Hwf1 |- *.
  destruct (insertRoot _ _ id (root_Signer n) l c) as [c1 [[]|e]]; [|done]. cbn [fst] in Hwf1.
  destruct a; [done|by apply setAlias_wf|by apply setAlias_wf].
Qed.

(** * Aliases *)

(** Setting an alias back, on the registrations. *)
Lemma spec_setAlias_restore id a prev g rest :
  run_uniform (reg_owner g) (reg_children g) (g :: rest) → entry_alias g id = Ok prev →
  ∃ regs, spec_setAlias id a (g :: rest) = Ok regs ∧ spec_setAlias id prev regs = Ok (g :: rest).
Proof.
  intros Hu Ha. unfold spec_setAlias, entry_alias in *. destruct (decide (reg_id g = id)) as [He|He].
  - eexists. split; [done|]. cbn [reg_id reg_with_alias]. rewrite decide_True by done. injection Ha as <-.
    by destruct g.
  - destruct (reg_children g !! id) as [d|] eqn:Ed; [|done]. injection Ha as <-.
    unfold spec_change. rewrite Ed, bool_decide_true by done. eexists. split; [done|].
    rewrite update_run_head. cbn [reg_id reg_children reg_owner map_children]. rewrite decide_False by done.
    rewrite lookup_alter_eq, Ed. cbn. f_equal.
    change (update_run (alter (set_child_alias (child_alias d)) id) (reg_owner g)
      (map_children (alter (set_child_alias a) id) g :: update_run (alter (set_child_alias a) id) (reg_owner g) rest)
      = g :: rest).
    rewrite <-(update_run_head (alter (set_child_alias a) id) g rest).
    apply (update_run_inverse _ _ _ (reg_children g)); [done|]. apply map_eq. intros x.
    destruct (decide (id = x)) as [<-|Hx]; [|by rewrite !lookup_alter_ne].
    rewrite !lookup_alter_eq, Ed. cbn. by destruct d.
Qed.

Lemma setAlias_restore c id a prev p g :
  cache_wf path_of c → snd (find id c) = Ok (Some (p, g)) → entry_alias g id = Ok prev →
  ∃ c1 c2, setAlias id a c = (c1, Ok tt) ∧ setAlias id prev c1 = (c2, Ok tt) ∧ cache_equiv c2 c.
Proof.
  intros Hwf Hfind Ha. destruct (m_pNamespaceById c !! id) as [p'|] eqn:Hf; [|unfold find in Hfind; by rewrite Hf in Hfind].
  destruct (find_registered c id p' Hwf Hf) as (h & g' & rest & Hh & Eg & _ & Hp & Hfind'). rewrite Hfind in Hfind'.
  injection Hfind' as <- <-. pose proof (cw_histories _ c Hwf _ _ Hh) as [Hhwf _ _ _ _ _ _].
  destruct (spec_setAlias_restore id a prev g rest (history_uniform h g rest Hhwf Eg) Ha) as (regs & E1 & E2).
  pose proof (back_setAlias_refines h id a Hhwf) as R1. rewrite Eg, E1 in R1.
  destruct (back_setAlias id a h) as [h1|] eqn:B1; [|done]. destruct R1 as (Hwf1 & _ & Hr1).
  pose proof (back_setAlias_refines h1 id prev Hwf1) as R2. rewrite Hr1, E2 in R2.
  destruct (back_setAlias id prev h1) as [h2|] eqn:B2; [|done]. destruct R2 as (Hwf2 & _ & Hr2).
  set (c1 := set_histories (<[rootId p := h1]> (m_pHistoryById c)) c).
  assert (setAlias id a c = (c1, Ok tt)) as S1 by (unfold setAlias; by rewrite Hf, Hh, B1).
  set (c2 := set_histories (<[rootId p := h2]> (m_pHistoryById c1)) c1).
  assert (setAlias id prev c1 = (c2, Ok tt)) as S2.
  { unfold setAlias, c1. cbn [set_histories m_pNamespaceById m_pHistoryById]. by rewrite Hf, lookup_insert_eq, B2. }
  exists c1, c2. split_and!; try done.
  pose proof (setAlias_wf path_of c id a Hwf) as W1. rewrite S1 in W1. cbn [fst] in W1.
  pose proof (setAlias_wf path_of c1 id prev W1) as W2. rewrite S2 in W2. cbn [fst] in W2.
  apply (wf_equiv path_of); try done. intros k. unfold cache_registrations, c2, c1.
  cbn [set_histories m_pHistoryById]. rewrite insert_insert_eq. destruct (decide (k = rootId p)) as [->|Hk].
  - rewrite lookup_insert_eq, Hh. change (Some (registrations h2) = Some (registrations h)). by rewrite Hr2, Eg.
  - by rewrite lookup_insert_ne.
Qed.

(** An alias notification that passes [AliasAvailability] and
    [UnlinkAliasedDataConsistency] is committed without error and its
    rollback restores the cache: a link sets an alias where there was none,
    and an unlink can be undone because it names the alias it removes. *)
Theorem alias_rollback_restores owner id action data height c :
  cache_wf path_of c →
  AliasAvailability owner id action height c = Ok Success →
  UnlinkAliasedDataConsistency id action data c = Ok Success →
  ∃ c1 c2, AliasedObserverHandler id action data Commit c = (c1, Ok tt)
    ∧ AliasedObserverHandler id action data Rollback c1 = (c2, Ok tt) ∧ cache_equiv c2 c.
Proof.
  intros Hwf Hav Hun. unfold AliasAvailability, UnlinkAliasedDataConsistency, try_entry in *.
  destruct (snd (find id c)) as [[[p g]|]|e] eqn:Hfind; [|done|done]. cbn [mbind result_bind] in *.
  destruct (negb (isActiveAndUnlocked _ _)); [done|].
  destruct (entry_alias g id) as [prev|] eqn:Ha; [|done]. cbn [mbind result_bind] in *.
  destruct (setAlias_restore c id (if decide (action = Link) then data else UnsetAlias) prev p g Hwf Hfind Ha)
    as (c1 & c2 & S1 & S2 & He).
  exists c1, c2. unfold AliasedObserverHandler. destruct action; cbn in *.
  - split_and!; [done| |done]. destruct prev; cbn in *; [done|done|done].
  - split_and!; [done| |done]. rewrite decide_False in Hun by (by intros []).
    destruct (decide (alias_type data ≠ alias_type prev)); [done|].
    destruct (decide (prev ≠ data)) as [|Hd%dec_stable]; [done|]. by subst.
Qed.

End validated.

(** * Examples *)

Definition sample_register : RootNamespaceNotification :=
  {| root_Signer := [1]; root_NamespaceId := 7; root_Duration := 10 |}.

(** Root 7 of [sample2] ends at 10 with a grace period up to 15; it is
    renewed at height 12. *)
Definition sample_at_12 : NamespaceCacheDelta := setHeight 12 sample2.

Lemma sample_at_12_wf : cache_wf sample_path sample_at_12.
Proof. destruct (rtc_wf sample2 sample_prefix) as [Hh Hf He Ha Hd]. by split. Qed.

Lemma validated_registration_keeps_consistency_witness :
  cache_wf sample_path (fst (RootNamespaceObserver sample_grace sample_version sample_register Commit 12 sample_at_12))
  ∧ isActive (fst (RootNamespaceObserver sample_grace sample_version sample_register Commit 12 sample_at_12)) 8 19 = Ok true.
Proof.
  split; [|by vm_compute].
  apply (validated_registration_keeps_consistency sample_path sample_grace sample_version [9] 100); try done.
  - apply sample_at_12_wf.
  - intros h g rest Hh Hr. vm_compute in Hh. injection Hh as <-. vm_compute in Hr. injection Hr as <- <-.
    unfold in_range, max64, sample_grace. cbn. lia.
Defined.

Lemma alias_rollback_restores_witness :
  ∃ c1 c2, AliasedObserverHandler 8 Link (MosaicAlias 5) Commit sample2 = (c1, Ok tt)
    ∧ AliasedObserverHandler 8 Link (MosaicAlias 5) Rollback c1 = (c2, Ok tt) ∧ cache_equiv c2 sample2.
Proof.
  apply (alias_rollback_restores sample_path [1] 8 Link (MosaicAlias 5) 5 sample2).
  - apply (rtc_wf sample2 sample_prefix).
  - vm_compute. reflexivity.
  - vm_compute. reflexivity.
Defined.

End NamespaceObservers.
