(* ===== verification/NamespaceExpiry.v ===== *)
(** What a shrinking grace period does to the namespace cache.

    A registration keeps the grace period that was configured when it was made
    (insert of plugins/txes/namespace/src/cache/NamespaceCacheDelta.cpp reads the
    configuration of the current height), while RootNamespaceHistory::prune
    expects the registrations of a namespace to expire in the order they were
    made.  The file shows what follows when a renewal expires before the
    registration it renews. *)
From stdpp Require Import base tactics numbers option list gmap sets.
From S2P Require Import Prelude Notifications NamespaceState NamespaceCache NamespaceObservers.

Local Open Scope Z_scope.

Module NamespaceExpiry.
Import Notifications Namespaces NamespaceCache NamespaceObservers.

(** * Pruning one history among others *)

Definition ids_kept (c : NamespaceCacheDelta) : Prop := ∀ i h, m_pHistoryById c !! i = Some h → m_historyId h = i.

Section pruning.
Context (height id : Z).

Lemma prune_other i collected c :
  ids_kept c → i ≠ id → let c' := fst (prune_history height i collected c) in
  ids_kept c' ∧ m_pHistoryById c' !! id = m_pHistoryById c !! id ∧ ∀ x, m_pNamespaceById c !! x = None → m_pNamespaceById c' !! x = None.
Proof.
  intros Hk Hne. unfold prune_history. destruct (m_pHistoryById c !! i) as [h|] eqn:Hh; [|cbn; by split_and!].
  destruct (history_prune height h) as [h' removed] eqn:Hp.
  assert (m_historyId h' = i) as Hid.
  { unfold history_prune in Hp. destruct (prune_roots _ _ _ _). injection Hp as <- _. cbn. by apply Hk. }
  cbn. destruct (history_empty h'); cbn; rewrite ?Hid.
  - split_and!; [|by rewrite lookup_delete_ne, lookup_insert_ne|intros x Hx; rewrite (delete_all_lookup (λ _, [])); by destruct (decide (x ∈ removed))].
    intros j h0 Hj0. cbn in Hj0. apply lookup_delete_Some in Hj0 as [Hj Hj']. rewrite lookup_insert_ne in Hj' by done. by apply Hk.
  - split_and!; [|by rewrite lookup_insert_ne|intros x Hx; rewrite (delete_all_lookup (λ _, [])); by destruct (decide (x ∈ removed))].
    intros j h0 Hj0. cbn in Hj0. apply lookup_insert_Some in Hj0 as [[<- <-]|[_ Hj]]; [done|]. by apply Hk.
Qed.

Lemma prune_this collected c h h' removed :
  ids_kept c → m_pHistoryById c !! id = Some h → history_prune height h = (h', removed) → history_empty h' = false →
  let c' := fst (prune_history height id collected c) in
  ids_kept c' ∧ m_pHistoryById c' !! id = Some h' ∧ ∀ x, x ∈ removed → m_pNamespaceById c' !! x = None.
Proof.
  intros Hk Hh Hp He. unfold prune_history. rewrite Hh, Hp, He.
  assert (m_historyId h' = id) as Hid.
  { unfold history_prune in Hp. destruct (prune_roots _ _ _ _). injection Hp as <- _. cbn. by apply Hk. }
  cbn. split_and!; [|apply lookup_insert_eq|intros x Hx; rewrite (delete_all_lookup (λ _, [])); by destruct (decide (x ∈ removed))].
  intros j h0 Hj0. cbn in Hj0. apply lookup_insert_Some in Hj0 as [[<- <-]|[_ Hj]]; [done|]. by apply Hk.
Qed.

Lemma prune_effect c h h' removed :
  ids_kept c → m_pHistoryById c !! id = Some h →
  id ∈ GetAllIdentifiersWithGroup (m_pRootNamespaceIdsByExpiryHeight c) height →
  history_prune height h = (h', removed) → history_empty h' = false →
  m_pHistoryById (fst (prune height c)) !! id = Some h' ∧ ∀ x, x ∈ removed → m_pNamespaceById (fst (prune height c)) !! x = None.
Proof.
  intros Hk Hh Hin%elem_of_elements Hp He. unfold prune. pose proof (NoDup_elements (GetAllIdentifiersWithGroup (m_pRootNamespaceIdsByExpiryHeight c) height)) as Hnd.
  set (l := elements _) in *. set (f := λ i '(c, ids), prune_history height i ids c).
  assert (let c' := fst (foldr f (c, ∅) l) in ids_kept c' ∧ (id ∉ l → m_pHistoryById c' !! id = Some h)
    ∧ (id ∈ l → m_pHistoryById c' !! id = Some h' ∧ ∀ x, x ∈ removed → m_pNamespaceById c' !! x = None)) as (_ & _ & H).
  { clear Hin. induction Hnd as [|i l Hi Hnd IH]; cbn [foldr]; [split_and!; [done|done|by intros ?%not_elem_of_nil]|].
    destruct (foldr f (c, ∅) l) as [c1 ids]. cbn [f fst] in *. destruct IH as (I1 & I2 & I3). destruct (decide (i = id)) as [->|Hne].
    - destruct (prune_this ids c1 h h' removed I1 (I2 Hi) Hp He) as (J1 & J2 & J3). split_and!; [done| |done]. set_solver.
    - destruct (prune_other i ids c1 I1 Hne) as (J1 & J2 & J3). split_and!; [done| |].
      + intros Hnot. rewrite J2. apply I2. set_solver.
      + intros Hid. destruct I3 as [K1 K2]; [set_solver|]. rewrite J2. split; [done|]. intros x Hx. by apply J3, K2. }
  specialize (H Hin). fold f. by destruct (foldr f (c, ∅) l).
Qed.

End pruning.

(** * A renewal that expires first *)

Section renewal.
Context (path_of : Z → list Z) (NamespaceGracePeriodDuration Version : Z → Z).

(** The history of a renewed namespace: two registrations with one table of children. *)
Record renewed (id : Z) (r : RootNamespace) (σ : Store) (l' : NamespaceLifetime) (h : RootNamespaceHistory) : Prop := {
  rn_id : m_historyId h = id;
  rn_store : m_store h = σ;
  rn_roots : ∃ r', m_rootHistory h = [r; r'] ∧ m_id r' = m_id r ∧ m_lifetime r' = l' ∧ m_pChildren r' = m_pChildren r;
}.

Lemma renewed_prune id r σ l' h :
  renewed id r σ l' h → GracePeriodEnd l' < GracePeriodEnd (m_lifetime r) →
  ∃ h', history_prune (GracePeriodEnd l') h = (h', dom (children σ r)) ∧ m_rootHistory h' = [r] ∧ m_store h' = σ.
Proof.
  intros [Hid Hs (r' & Hr & _ & Hl & Hc)] Hlt. unfold history_prune. rewrite Hr, Hs. cbn [prune_roots].
  rewrite (proj2 (Z.leb_gt _ _)) by lia. rewrite Hl, Z.leb_refl. cbn [prune_roots]. rewrite decide_False by done.
  exists {| m_historyId := m_historyId h; m_rootHistory := [r]; m_store := σ |}. split; [|done].
  f_equal. unfold AddAllIds, RemoveAllIds, children. rewrite Hc. set_solver.
Qed.

Lemma renewed_setAlias id r σ l' h a :
  renewed id r σ l' h → m_id r = id → ∃ h', back_setAlias id a h = Ok h' ∧ renewed id r σ l' h'.
Proof.
  intros [Hid Hs (r' & Hr & Hr' & Hl & Hc)] Hrid. unfold back_setAlias, back. rewrite Hr. cbn [last].
  unfold Namespaces.setAlias. rewrite decide_True by congruence. cbn [mbind result_bind]. eexists. split; [done|]. split; [done|done|].
  exists (with_alias a r'). by split_and!.
Qed.

Lemma single_root h g : registrations h = [g] → ∃ r, m_rootHistory h = [r] ∧ registration (m_store h) r = g.
Proof.
  unfold registrations, newest. intros Hg. apply (f_equal length) in Hg as Hlen. rewrite length_fmap, length_reverse in Hlen.
  destruct (m_rootHistory h) as [|r [|? ?]]; [done| |done]. cbn in Hg. injection Hg as Hg. by exists r.
Qed.

(** What committing a renewal leaves. *)
Lemma renewal_effect c n height h g l' c1 :
  let id := root_NamespaceId n in
  cache_wf path_of c → path_of id = [id] → m_height c = height → m_pHistoryById c !! id = Some h → registrations h = [g] →
  IsRenewal g n height = true →
  new_NamespaceLifetime (Start (reg_lifetime g)) (LifetimeEnd (End (reg_lifetime g)) (root_Duration n)) (NamespaceGracePeriodDuration height) = Ok l' →
  RootNamespaceObserver NamespaceGracePeriodDuration Version n Commit height c = (c1, Ok tt) →
  ids_kept c1 ∧ id ∈ GetAllIdentifiersWithGroup (m_pRootNamespaceIdsByExpiryHeight c1) (GracePeriodEnd l')
  ∧ ∃ r h1, registration (m_store h) r = g ∧ m_pHistoryById c1 !! id = Some h1 ∧ renewed id r (m_store h) l' h1.
Proof.
  intros id Hwf Hp Hheight Hh Hg Hren Hl' Hrun. destruct (single_root h g Hg) as (r & Hr & Hrg).
  pose proof (cw_histories _ c Hwf id h Hh) as [Hhwf Hhid _ _ _ _ _].
  assert (m_id r = id) as Hrid.
  { pose proof (registrations_ids h Hhwf) as Hi. rewrite Hg, Hhid in Hi. apply Forall_cons in Hi as [Hi _]. rewrite <-Hrg in Hi. exact Hi. }
  assert (ids_kept c) as Hk by (intros i h0 Hi; apply (cw_histories _ c Hwf i h0 Hi)).
  assert (m_pNamespaceById c !! id = Some [id]) as Hflat.
  { apply (cw_flat _ c Hwf). split; [done|]. exists h. rewrite Hp. split; [done|by left]. }
  assert (contains c id = true) as Hc by (apply bool_decide_eq_true; by eexists).
  destruct (root_entry path_of c id Hwf Hp Hc) as (h0 & g0 & rest & Hh0 & Eg & _ & Hget).
  assert (h0 = h) as -> by congruence. rewrite Hg in Eg. injection Eg as <- <-.
  assert (m_owner r = root_Signer n) as Hown.
  { unfold IsRenewal in Hren. apply andb_true_iff in Hren as [_ Hown%bool_decide_eq_true]. by rewrite <-Hrg in Hown. }
  unfold RootNamespaceObserver, registration_terms in Hrun. fold id in Hrun.
  destruct (new_NamespaceLifetime height _ 0) as [l0|]; [|done]. cbn [mbind result_bind] in Hrun. rewrite Hc, Hget in Hrun.
  cbn [mbind result_bind] in Hrun. rewrite Hren in Hrun. set (l := {| Start := _ |}) in Hrun.
  set (h1 := push_back (root_Signer n) l' (NamespaceCache.AliasFixVersion <=? Version height) h).
  assert (renewed id r (m_store h) l' h1) as Hren1.
  { unfold h1, push_back, back. rewrite Hr. cbn [last]. rewrite decide_True by done. split; cbn; [by rewrite <-Hhid|done|].
    eexists. split; [done|]. unfold renew. by destruct (NamespaceCache.AliasFixVersion <=? _). }
  assert (∃ c0, insertRoot NamespaceGracePeriodDuration Version id (root_Signer n) l c = (c0, Ok tt)
    ∧ m_pHistoryById c0 = <[id := h1]> (m_pHistoryById c) ∧ m_pNamespaceById c0 = m_pNamespaceById c
    ∧ id ∈ GetAllIdentifiersWithGroup (m_pRootNamespaceIdsByExpiryHeight c0) (GracePeriodEnd l')) as (c0 & Hins & E1 & E2 & E3).
  { unfold insertRoot, l. cbn [Start End]. rewrite Hheight, Hl'. cbn [m_pHistoryById set_groups m_height]. rewrite Hh, Hheight.
    unfold back. rewrite Hr. cbn [last]. rewrite decide_False by (by intros []). eexists. split; [done|]. cbn.
    split_and!; [done|done|]. unfold set_groups. cbn. rewrite add_group, decide_True by done. set_solver. }
  assert (ids_kept c0) as Hk0.
  { intros i h' Hi. rewrite E1 in Hi. apply lookup_insert_Some in Hi as [[<- <-]|[_ Hi]]; [apply (rn_id _ _ _ _ _ Hren1)|by apply Hk]. }
  assert (∀ a, ∃ h2, setAlias id a c0 = (set_histories (<[id := h2]> (m_pHistoryById c0)) c0, Ok tt) ∧ renewed id r (m_store h) l' h2) as Halias.
  { intros a. destruct (renewed_setAlias id r _ _ h1 a Hren1 Hrid) as (h2 & Hs & Hr2). exists h2. split; [|done].
    unfold NamespaceCache.setAlias. rewrite E2, Hflat. cbn [rootId hd]. rewrite E1, lookup_insert_eq, Hs. done. }
  assert (∃ h2, c1 = set_histories (<[id := h2]> (m_pHistoryById c0)) c0 ∧ renewed id r (m_store h) l' h2) as (h2 & -> & Hr2).
  { assert (c0 = set_histories (<[id := h1]> (m_pHistoryById c0)) c0) as Hsame.
    { rewrite E1, insert_insert_eq, <-E1. by destruct c0. }
    destruct (AliasFixVersion <=? Version height); [destruct (entry_alias g id) as [a|]; [|done]|]; cbn [mbind result_bind] in Hrun;
      unfold mbind, exec_bind in Hrun; rewrite Hins in Hrun;
      [|injection Hrun as <-; by exists h1].
    destruct a as [|x|x]; [injection Hrun as <-; by exists h1|..]; edestruct Halias as (h2 & Hs & H2); rewrite Hs in Hrun;
      injection Hrun as <-; by exists h2. }
  split_and!.
  - intros i h' Hi. cbn in Hi. apply lookup_insert_Some in Hi as [[<- <-]|[_ Hi]]; [apply (rn_id _ _ _ _ _ Hr2)|by apply Hk0].
  - exact E3.
  - exists r, h2. split_and!; [done|apply lookup_insert_eq|done].
Qed.

(** C34. A renewal that expires before the registration it renews loses the
    children.  A namespace with one registration is renewed by its owner at a
    height at which the configured grace period is so much shorter that the grace
    period of the renewal ends before that of the present registration (which the
    validators do not look at).  When the renewal expires and is pruned, the older
    registration is active again and still holds all children, but the flat map
    has lost them: the cache does not contain any of them, says that they are not
    active, and is inconsistent if there is one. *)
Theorem early_renewal_loses_children c n height h g l' c1 :
  let id := root_NamespaceId n in
  cache_wf path_of c → path_of id = [id] → m_height c = height → m_pHistoryById c !! id = Some h → registrations h = [g] →
  IsRenewal g n height = true →
  new_NamespaceLifetime (Start (reg_lifetime g)) (LifetimeEnd (End (reg_lifetime g)) (root_Duration n)) (NamespaceGracePeriodDuration height) = Ok l' →
  RootNamespaceObserver NamespaceGracePeriodDuration Version n Commit height c = (c1, Ok tt) →
  GracePeriodEnd l' < GracePeriodEnd (reg_lifetime g) →
  let c2 := fst (prune (GracePeriodEnd l') c1) in
  cache_registrations c2 id = Some [g]
  ∧ ∀ x d, reg_children g !! x = Some d →
      contains c2 x = false ∧ (∀ k, isActive c2 x k = Ok false) ∧ ¬ cache_wf path_of c2.
Proof.
  intros id Hwf Hp Hheight Hh Hg Hren Hl' Hrun Hlt c2.
  destruct (renewal_effect c n height h g l' c1 Hwf Hp Hheight Hh Hg Hren Hl' Hrun) as (Hk & Hin & r & h1 & Hrg & Hh1 & Hr1).
  assert (GracePeriodEnd l' < GracePeriodEnd (m_lifetime r)) as Hlt' by (by rewrite <-Hrg in Hlt).
  destruct (renewed_prune id r _ l' h1 Hr1 Hlt') as (h2 & Hprune & Hroots & Hstore).
  destruct (prune_effect _ id c1 h1 h2 _ Hk Hh1 Hin Hprune) as [Hh2 Hgone]; [unfold history_empty; by rewrite Hroots|].
  fold c2 in Hh2, Hgone.
  assert (registrations h2 = [g]) as Hreg by (unfold registrations, newest; rewrite Hroots, Hstore; cbn; by rewrite Hrg).
  split; [unfold cache_registrations; rewrite Hh2; cbn; by rewrite Hreg|]. intros x d Hx.
  assert (m_pNamespaceById c2 !! x = None) as Hno.
  { apply Hgone, elem_of_dom. rewrite <-Hrg in Hx. by exists d. }
  split_and!.
  - apply bool_decide_eq_false. rewrite Hno. by intros [].
  - intros k. unfold isActive. by rewrite Hno.
  - intros Hwf2. pose proof (cw_histories _ c Hwf id h Hh) as [_ _ _ _ _ _ Hch]. rewrite Hg in Hch. apply Forall_cons in Hch as [Hch _].
    destruct (Hch x d Hx) as (_ & Hroot & _).
    assert (m_pNamespaceById c2 !! x = Some (path_of x)); [|congruence]. apply (cw_flat _ c2 Hwf2). split; [done|].
    exists h2. rewrite Hroot. split; [done|]. right. rewrite Hreg. cbn. by exists d.
Qed.

End renewal.

(** * Example *)

(** The grace period is shortened from 5 to 1 at height 12, and root 7, whose
    grace period ends at 15, is renewed there by 2: up to 12, with a grace period
    that ends at 13.  The validators accept this. *)
Definition shrinking_grace (height : Z) : Z := if height <? 12 then 5 else 1.
Definition short_renewal : RootNamespaceNotification := {| root_Signer := [1]; root_NamespaceId := 7; root_Duration := 2 |}.
Definition renewed_at_12 : NamespaceCacheDelta :=
  fst (RootNamespaceObserver shrinking_grace sample_version short_renewal Commit 12 sample_at_12).

Lemma early_renewal_loses_children_witness :
  RootNamespaceAvailability [9] short_renewal 12 sample_at_12 = Ok Success
  ∧ NamespaceDurationOverflow 100 short_renewal 12 sample_at_12 = Ok Success
  ∧ contains renewed_at_12 8 = true ∧ contains (fst (prune 13 renewed_at_12)) 8 = false
  ∧ ¬ cache_wf sample_path (fst (prune 13 renewed_at_12)).
Proof.
  split; [by vm_compute|]. split; [by vm_compute|]. split; [by vm_compute|].
  destruct (m_pHistoryById sample_at_12 !! 7) as [h|] eqn:Hh; [|by vm_compute in Hh].
  destruct (registrations h) as [|g [|]] eqn:Hg; try (vm_compute in Hh; injection Hh as <-; by vm_compute in Hg).
  assert (reg_lifetime g = {| Start := 1; End := 10; GracePeriodEnd := 15 |} ∧ reg_owner g = [1] ∧ is_Some (reg_children g !! 8)) as (Hlife & Hown & d & Hd).
  { vm_compute in Hh. injection Hh as <-. vm_compute in Hg. injection Hg as <-. split; [reflexivity|]. split; [reflexivity|]. by eexists. }
  destruct (early_renewal_loses_children sample_path shrinking_grace sample_version sample_at_12 short_renewal 12 h g
    {| Start := 1; End := 12; GracePeriodEnd := 13 |} renewed_at_12) as [_ Hlost].
  - exact sample_at_12_wf.
  - reflexivity.
  - reflexivity.
  - exact Hh.
  - exact Hg.
  - unfold IsRenewal. rewrite Hlife, Hown. reflexivity.
  - rewrite Hlife. reflexivity.
  - vm_compute. reflexivity.
  - rewrite Hlife. reflexivity.
  - destruct (Hlost 8 d Hd) as (H1 & _ & H2). split; [exact H1|exact H2].
Defined.

End NamespaceExpiry.
