(* ===== verification/NamespaceBackup.v ===== *)
(** Model of the backups of a namespace cache delta: DeltaElementsMixin.h
    (catapult/deltaset) as NamespaceCacheDelta.h uses it.

    Unconfirmed transactions are executed on a detached delta of the caches, and
    one that is refused is taken back by restoring a backup.  The mixin of the
    namespace cache delta backs up the set of histories; the flat map, the
    groups of expiring namespaces and the counters have no backup.  The file
    shows what this means for a registration that is taken back. *)
From stdpp Require Import base tactics numbers option list gmap.
From S2P Require Import Prelude Notifications NamespaceState NamespaceCache NamespaceObservers.

Local Open Scope Z_scope.

Module NamespaceBackup.
Import Notifications(NotifyMode(..)) Namespaces NamespaceCache NamespaceObservers.

(** A delta with the histories its delta set is based on and those it backed
    up, the latest last. *)
Record BackedDelta := {
  bd_committed : gmap Z RootNamespaceHistory;
  bd_delta : NamespaceCacheDelta;
  bd_backups : list (gmap Z RootNamespaceHistory);
}.

Definition on_delta (c : NamespaceCacheDelta) (b : BackedDelta) : BackedDelta :=
  {| bd_committed := bd_committed b; bd_delta := c; bd_backups := bd_backups b |}.

Definition backupChanges (replace : bool) (b : BackedDelta) : BackedDelta :=
  {| bd_committed := bd_committed b; bd_delta := bd_delta b;
     bd_backups := (if replace then [] else bd_backups b) ++ [m_pHistoryById (bd_delta b)] |}.

(** Without a backup the pending changes are dropped. *)
Definition restoreChanges (b : BackedDelta) : BackedDelta :=
  {| bd_committed := bd_committed b;
     bd_delta := set_histories (default (bd_committed b) (last (bd_backups b))) (bd_delta b);
     bd_backups := removelast (bd_backups b) |}.

Lemma removelast_snoc {A} (l : list A) x : removelast (l ++ [x]) = l.
Proof. rewrite removelast_app by done. apply app_nil_r. Qed.

(** Restoring gives back the histories of the last backup. *)
Lemma restore_backup replace c b :
  restoreChanges (on_delta c (backupChanges replace b))
  = {| bd_committed := bd_committed b; bd_delta := set_histories (m_pHistoryById (bd_delta b)) c;
       bd_backups := if replace then [] else bd_backups b |}.
Proof. unfold restoreChanges, on_delta, backupChanges. cbn [bd_committed bd_delta bd_backups]. by rewrite last_snoc, removelast_snoc. Qed.

Section registration.
Context (path_of : Z → list Z) (NamespaceGracePeriodDuration Version : Z → Z).

(** A new root is entered in the histories and in the flat map. *)
Lemma new_root_effect c n height c1 :
  cache_wf path_of c → path_of (root_NamespaceId n) = [root_NamespaceId n] → contains c (root_NamespaceId n) = false →
  RootNamespaceObserver NamespaceGracePeriodDuration Version n Commit height c = (c1, Ok tt) →
  m_pHistoryById c !! root_NamespaceId n = None ∧ m_pNamespaceById c1 !! root_NamespaceId n = Some [root_NamespaceId n].
Proof.
  intros Hwf Hp Hc. pose proof (not_contained path_of c _ Hwf Hp Hc) as Hh. unfold RootNamespaceObserver, registration_terms.
  destruct (new_NamespaceLifetime height _ 0) as [l|e]; [|done]. cbn [mbind result_bind]. rewrite Hc.
  unfold mbind, exec_bind, insertRoot. destruct (new_NamespaceLifetime _ _ _) as [l'|e]; [|done].
  cbn [m_pHistoryById set_groups]. rewrite Hh. intros [= <-]. split; [done|]. apply lookup_insert_eq.
Qed.

(** C33. A registration that is taken back leaves the namespace cache broken.
    A transaction registers a new root namespace and is then refused (another
    part of it fails), so that the changes are restored from the backup: the
    histories are those from before, but the flat map keeps the namespace.  From
    then on the cache says that it contains the namespace, looking it up
    dereferences a null pointer, asking whether it is active throws, and the
    validator of the next registration of the same namespace runs into the
    undefined lookup instead of accepting it. *)
Theorem restored_registration_breaks_lookup networkKey committed backups replace c n height c1 :
  cache_wf path_of c → path_of (root_NamespaceId n) = [root_NamespaceId n] → contains c (root_NamespaceId n) = false →
  RootNamespaceObserver NamespaceGracePeriodDuration Version n Commit height c = (c1, Ok tt) →
  let b := {| bd_committed := committed; bd_delta := c; bd_backups := backups |} in
  let c' := bd_delta (restoreChanges (on_delta c1 (backupChanges replace b))) in
  m_pHistoryById c' = m_pHistoryById c
  ∧ contains c' (root_NamespaceId n) = true
  ∧ snd (find (root_NamespaceId n) c') = Throw undefined_behaviour
  ∧ (∀ h, isActive c' (root_NamespaceId n) h = Throw runtime_error)
  ∧ (∀ n' h, root_NamespaceId n' = root_NamespaceId n → root_Duration n' ≠ Eternal_Artifact_Duration →
       RootNamespaceAvailability networkKey n' h c = Ok Success
       ∧ RootNamespaceAvailability networkKey n' h c' = Throw undefined_behaviour)
  ∧ ¬ cache_wf path_of c'.
Proof.
  intros Hwf Hp Hc Hrun b c'. destruct (new_root_effect c n height c1 Hwf Hp Hc Hrun) as [Hh Hf].
  assert (c' = set_histories (m_pHistoryById c) c1) as -> by (unfold c'; by rewrite restore_backup).
  set (c' := set_histories _ c1). assert (contains c' (root_NamespaceId n) = true) as Hc'.
  { unfold contains. apply bool_decide_eq_true. cbn. by rewrite Hf. }
  assert (snd (find (root_NamespaceId n) c') = Throw undefined_behaviour) as Hfind.
  { unfold find. cbn. rewrite Hf. cbn. by rewrite Hh. }
  split_and!; [done|done|done| | |].
  - intros h. unfold isActive. cbn. rewrite Hf. cbn. by rewrite Hh.
  - intros n' h Hn' Hd. unfold RootNamespaceAvailability, get_entry. rewrite Hn', Hc, Hc', Hfind, (bool_decide_false (Eternal_Artifact_Duration = _)) by done.
    cbn [andb]. by rewrite andb_false_r.
  - intros Hwf'. destruct (cw_flat _ _ Hwf' (root_NamespaceId n) [root_NamespaceId n]) as [H _].
    destruct (H Hf) as [_ (h & Hh' & _)]. rewrite Hp in Hh'. cbn in Hh'. congruence.
Qed.

End registration.

(** * Example *)

(** Root 12 is new to the sample cache. *)
Definition sample_new : RootNamespaceNotification := {| root_Signer := [1]; root_NamespaceId := 12; root_Duration := 10 |}.

Lemma restored_registration_breaks_lookup_witness :
  contains sample_at_12 12 = false
  ∧ let c1 := fst (RootNamespaceObserver sample_grace sample_version sample_new Commit 12 sample_at_12) in
    let b := {| bd_committed := ∅; bd_delta := sample_at_12; bd_backups := [] |} in
    let c' := bd_delta (restoreChanges (on_delta c1 (backupChanges true b))) in
    isActive c' 12 13 = Throw runtime_error ∧ RootNamespaceAvailability [5] sample_new 13 c' = Throw undefined_behaviour.
Proof.
  split; [by vm_compute|].
  destruct (restored_registration_breaks_lookup sample_path sample_grace sample_version [5] ∅ [] true sample_at_12 sample_new 12
    (fst (RootNamespaceObserver sample_grace sample_version sample_new Commit 12 sample_at_12))) as (_ & _ & _ & Ha & Hv & _).
  - apply sample_at_12_wf.
  - by vm_compute.
  - by vm_compute.
  - by vm_compute.
  - split; [apply Ha|]. by apply Hv.
Defined.

End NamespaceBackup.
