(* ===== verification/Multisig.v ===== *)
(** Model of the multisig plugin (plugins/txes/multisig/src): entries and cache
    (state/MultisigEntry.h, cache/MultisigCacheUtils.cpp), observers with
    MultisigAccountFacade.h, validators, and the notifications of a modification
    (plugins/ModifyMultisigAccountTransactionPlugin.cpp, MultisigPlugin.cpp).

    An account may have cosignatories, which may be multisig accounts
    themselves: entries form a graph.  The cache delta is the working copy of
    its delta set (module DeltaSet), a finite map.  The validators and observers
    run under the subscriber of Notifications.v, as plugins of the node do.  The
    lemmas on the graph are in MultisigGraph.v, those on the observers in
    MultisigState.v, the theorems in MultisigPlugin.v. *)
From stdpp Require Import base tactics numbers option list gmap relations.
From S2P Require Import Prelude Notifications.

Local Open Scope Z_scope.

Module Multisig.
Import Notifications.

Abbreviation Key := (list Z).

(** * Entries *)

Record MultisigEntry := {
  m_key : Key;
  m_cosignatories : gset Key;
  m_minApproval : Z;
  m_minRemoval : Z;
  m_multisigAccounts : gset Key;
}.

Definition new_MultisigEntry (key : Key) : MultisigEntry :=
  {| m_key := key; m_cosignatories := ∅; m_minApproval := 0; m_minRemoval := 0; m_multisigAccounts := ∅ |}.

Definition hasCosignatory (e : MultisigEntry) (key : Key) : bool := bool_decide (key ∈ m_cosignatories e).

Definition set_cosignatories (s : gset Key) (e : MultisigEntry) : MultisigEntry :=
  {| m_key := m_key e; m_cosignatories := s; m_minApproval := m_minApproval e; m_minRemoval := m_minRemoval e;
     m_multisigAccounts := m_multisigAccounts e |}.
Definition set_multisigAccounts (s : gset Key) (e : MultisigEntry) : MultisigEntry :=
  {| m_key := m_key e; m_cosignatories := m_cosignatories e; m_minApproval := m_minApproval e; m_minRemoval := m_minRemoval e;
     m_multisigAccounts := s |}.
Definition setMin (minApproval minRemoval : Z) (e : MultisigEntry) : MultisigEntry :=
  {| m_key := m_key e; m_cosignatories := m_cosignatories e; m_minApproval := minApproval; m_minRemoval := minRemoval;
     m_multisigAccounts := m_multisigAccounts e |}.

Abbreviation MultisigCacheDelta := (gmap Key MultisigEntry).
Implicit Types (c : MultisigCacheDelta).

Definition contains c (key : Key) : bool := bool_decide (is_Some (c !! key)).

(** * Ancestors and descendants *)

Section find.
Context (GetKeySet : MultisigEntry → gset Key).

(** The loop over the linked keys; the result does not depend on their order. *)
Fixpoint find_linked (FindAll : Key → gset Key → option (Z * gset Key)) (links : list Key) (numLevels : Z) (keySet : gset Key)
    : option (Z * gset Key) :=
  match links with
  | [] => Some (numLevels, keySet)
  | linkedKey :: links =>
      '(levels, keySet) ← FindAll linkedKey ({[ linkedKey ]} ∪ keySet);
      find_linked FindAll links (Z.max numLevels (levels + 1)) keySet
  end.

(** The recursion ends in a graph without cycles; [None] is a stack overflow. *)
Fixpoint FindAll (fuel : nat) c (publicKey : Key) (keySet : gset Key) : option (Z * gset Key) :=
  match fuel with
  | O => None
  | S fuel =>
      match c !! publicKey with
      | None => Some (0, keySet)
      | Some multisigEntry => find_linked (FindAll fuel c) (elements (GetKeySet multisigEntry)) 0 keySet
      end
  end.
End find.

(** One call for each entry of a path and one behind it. *)
Definition find_fuel c : nat := S (size c).

Definition FindAncestors c : Key → gset Key → option (Z * gset Key) := FindAll m_multisigAccounts (find_fuel c) c.
Definition FindDescendants c : Key → gset Key → option (Z * gset Key) := FindAll m_cosignatories (find_fuel c) c.

(** The keys below an account, without their levels (MultisigPlugin.cpp). *)
Fixpoint extract_linked (extract : Key → gset Key → option (gset Key)) (links : list Key) (result : gset Key) : option (gset Key) :=
  match links with
  | [] => Some result
  | cosignatory :: links => result ← extract cosignatory ({[ cosignatory ]} ∪ result); extract_linked extract links result
  end.

Fixpoint extractCosigners (fuel : nat) c (publicKey : Key) (result : gset Key) : option (gset Key) :=
  match fuel with
  | O => None
  | S fuel =>
      match c !! publicKey with
      | None => Some result
      | Some multisigEntry => extract_linked (extractCosigners fuel c) (elements (m_cosignatories multisigEntry)) result
      end
  end.

Definition publicKeysExtractor c (key : Key) : option (gset Key) := extractCosigners (find_fuel c) c key {[ key ]}.

(** * The facade of an account *)

Definition GetMultisigEntry (key : Key) c : MultisigCacheDelta := if contains c key then c else <[key := new_MultisigEntry key]> c.

(** The facade holds a reference to the entry of its account; without the entry
    the reference dangles. *)
Definition addCosignatory (account cosignatory : Key) : Exec MultisigCacheDelta unit := λ c,
  let c := alter (λ e, set_multisigAccounts ({[ account ]} ∪ m_multisigAccounts e) e) cosignatory (GetMultisigEntry cosignatory c) in
  if contains c account
  then (alter (λ e, set_cosignatories ({[ cosignatory ]} ∪ m_cosignatories e) e) account c, Ok tt)
  else (c, Throw undefined_behaviour).

Definition removeIfEmpty (key : Key) : Exec MultisigCacheDelta unit := λ c,
  match c !! key with
  | None => (c, Throw undefined_behaviour)
  | Some e =>
      if bool_decide (m_cosignatories e = ∅) && bool_decide (m_multisigAccounts e = ∅) then (delete key c, Ok tt) else (c, Ok tt)
  end.

Definition removeCosignatory (account cosignatory : Key) : Exec MultisigCacheDelta unit := λ c,
  if negb (contains c account) then (c, Throw undefined_behaviour)
  else
    let c := alter (λ e, set_cosignatories (m_cosignatories e ∖ {[ cosignatory ]}) e) account c in
    if negb (contains c cosignatory) then (c, Throw invalid_argument)
    else removeIfEmpty cosignatory (alter (λ e, set_multisigAccounts (m_multisigAccounts e ∖ {[ account ]}) e) cosignatory c).

(** The loop runs over a copy of the set. *)
Definition removeCosignatories (account : Key) : Exec MultisigCacheDelta unit := λ c,
  match c !! account with
  | None => (c, Throw undefined_behaviour)
  | Some e => for_each (removeCosignatory account) (elements (m_cosignatories e)) c
  end.

(** * Notifications *)

(** [Add] is 0, [Del] is 1; other bytes can be received. *)
Definition ModificationType_Add : Z := 0.
Definition ModificationType_Del : Z := 1.

Record CosignatoryModification := { ModificationType : Z; CosignatoryPublicKey : Key }.

Record CosignersNotification := {
  cn_Signer : Key; cn_Modifications : list CosignatoryModification; cn_AllowMultipleRemove : bool }.
Record NewCosignerNotification := { nc_MultisigAccountKey : Key; nc_CosignatoryKey : Key }.
Record SettingsNotification := { sn_Signer : Key; sn_MinRemovalDelta : Z; sn_MinApprovalDelta : Z; sn_ModificationsCount : Z }.

(** The notifications of a modification; the last two are those of the core. *)
Inductive MultisigNotification :=
| ModifyCosigners (n : CosignersNotification)
| NewCosigner (n : NewCosignerNotification)
| ModifySettings (n : SettingsNotification)
| AccountPublicKey (key : Key)
| AddressInteraction (source : Key) (participants : gset Key).

Definition Facility_Multisig : Z := 0x55.
Definition Channel_All : Z := 0xFF.
Definition Modify_Cosigners_v1 : Z := MakeNotificationType Channel_All Facility_Multisig 0x0001.
Definition Modify_New_Cosigner_v1 : Z := MakeNotificationType Channel_Validator Facility_Multisig 0x0002.
Definition Modify_Settings_v1 : Z := MakeNotificationType Channel_All Facility_Multisig 0x1001.
Definition Facility_Core : Z := 0x43.
Definition Core_Register_Account_Public_Key_v1 : Z := MakeNotificationType Channel_Observer Facility_Core 0x0002.
Definition Core_Address_Interaction_v1 : Z := MakeNotificationType Channel_Validator Facility_Core 0x0009.

Definition NotificationType (n : MultisigNotification) : Z :=
  match n with
  | ModifyCosigners _ => Modify_Cosigners_v1
  | NewCosigner _ => Modify_New_Cosigner_v1
  | ModifySettings _ => Modify_Settings_v1
  | AccountPublicKey _ => Core_Register_Account_Public_Key_v1
  | AddressInteraction _ _ => Core_Address_Interaction_v1
  end.

(** * Observers *)

Definition modify_cosigner (mode : NotifyMode) (account : Key) (m : CosignatoryModification) : Exec MultisigCacheDelta unit :=
  let isNotificationAdd := bool_decide (ModificationType_Add = ModificationType m) in
  let isNotificationForward := bool_decide (Commit = mode) in
  if eqb isNotificationAdd isNotificationForward
  then addCosignatory account (CosignatoryPublicKey m) else removeCosignatory account (CosignatoryPublicKey m).

(** The destructor of the facade runs in any case. *)
Definition ModifyMultisigCosignersObserver (n : CosignersNotification) (mode : NotifyMode) : Exec MultisigCacheDelta unit := λ c,
  let '(c, r) := for_each (modify_cosigner mode (cn_Signer n)) (cn_Modifications n) (GetMultisigEntry (cn_Signer n) c) in
  let '(c, r') := removeIfEmpty (cn_Signer n) c in
  (c, match r with Ok _ => r' | Throw e => Throw e end).

(** The sum is a byte; a delta is a signed byte. *)
Definition AddDelta (value delta : Z) : Z := u8 (value + delta).

Definition ModifyMultisigSettingsObserver (n : SettingsNotification) (mode : NotifyMode) (c : MultisigCacheDelta) : MultisigCacheDelta :=
  let isNotContained := negb (contains c (sn_Signer n)) in
  if isNotContained && bool_decide (Commit = mode) then c
  else if isNotContained && bool_decide (Rollback = mode) && (sn_ModificationsCount n =? 0) then c
  else
    let c := if isNotContained then <[sn_Signer n := new_MultisigEntry (sn_Signer n)]> c else c in
    let direction := match mode with Commit => 1 | Rollback => -1 end in
    alter (λ e, setMin (AddDelta (m_minApproval e) (direction * sn_MinApprovalDelta n))
                  (AddDelta (m_minRemoval e) (direction * sn_MinRemovalDelta n)) e) (sn_Signer n) c.

(** * Validators *)

Definition multisig_failure (code : Z) : Z := MakeValidationResult Severity_Failure Facility_Multisig code 0.
Definition Failure_Multisig_Modify_Account_In_Both_Sets : Z := multisig_failure 1.
Definition Failure_Multisig_Modify_Multiple_Deletes : Z := multisig_failure 2.
Definition Failure_Multisig_Modify_Redundant_Modifications : Z := multisig_failure 3.
Definition Failure_Multisig_Modify_Unknown_Multisig_Account : Z := multisig_failure 4.
Definition Failure_Multisig_Modify_Not_A_Cosigner : Z := multisig_failure 5.
Definition Failure_Multisig_Modify_Already_A_Cosigner : Z := multisig_failure 6.
Definition Failure_Multisig_Modify_Min_Setting_Out_Of_Range : Z := multisig_failure 7.
Definition Failure_Multisig_Modify_Min_Setting_Larger_Than_Num_Cosignatories : Z := multisig_failure 8.
Definition Failure_Multisig_Modify_Unsupported_Modification_Type : Z := multisig_failure 9.
Definition Failure_Multisig_Modify_Max_Cosigned_Accounts : Z := multisig_failure 10.
Definition Failure_Multisig_Modify_Max_Cosigners : Z := multisig_failure 11.
Definition Failure_Multisig_Modify_Loop : Z := multisig_failure 12.
Definition Failure_Multisig_Modify_Max_Multisig_Depth : Z := multisig_failure 13.
Definition Failure_Multisig_Operation_Not_Permitted_By_Account : Z := multisig_failure 0x0800.

Record MultisigConfiguration := {
  MaxMultisigDepth : Z; MaxCosignersPerAccount : Z; MaxCosignedAccountsPerAccount : Z; NewCosignersMustApprove : bool }.

(** The loop of the stateless validator: the accounts, or a failure. *)
Fixpoint sort_modifications (modifications : list CosignatoryModification) (addedAccounts removedAccounts : gset Key)
    : Z + gset Key * gset Key :=
  match modifications with
  | [] => inr (addedAccounts, removedAccounts)
  | m :: modifications =>
      let key := CosignatoryPublicKey m in
      if negb (bool_decide (ModificationType_Add = ModificationType m) || bool_decide (ModificationType_Del = ModificationType m))
      then inl Failure_Multisig_Modify_Unsupported_Modification_Type
      else if bool_decide (ModificationType_Add = ModificationType m) then
        if bool_decide (key ∈ removedAccounts) then inl Failure_Multisig_Modify_Account_In_Both_Sets
        else sort_modifications modifications ({[ key ]} ∪ addedAccounts) removedAccounts
      else
        if bool_decide (key ∈ addedAccounts) then inl Failure_Multisig_Modify_Account_In_Both_Sets
        else sort_modifications modifications addedAccounts ({[ key ]} ∪ removedAccounts)
  end.

Definition ModifyMultisigCosigners (n : CosignersNotification) : Z :=
  match sort_modifications (cn_Modifications n) ∅ ∅ with
  | inl failure => failure
  | inr (addedAccounts, removedAccounts) =>
      if (1 <? Z.of_nat (size removedAccounts)) && negb (cn_AllowMultipleRemove n) then Failure_Multisig_Modify_Multiple_Deletes
      else if negb (Z.of_nat (length (cn_Modifications n)) =? Z.of_nat (size addedAccounts + size removedAccounts))
      then Failure_Multisig_Modify_Redundant_Modifications
      else Success
  end.

Definition ModifyMultisigInvalidCosigners (n : CosignersNotification) c : Z :=
  match c !! cn_Signer n with
  | None =>
      if existsb (λ m, bool_decide (ModificationType_Del = ModificationType m)) (cn_Modifications n)
      then Failure_Multisig_Modify_Unknown_Multisig_Account else Success
  | Some multisigEntry =>
      (fix check (modifications : list CosignatoryModification) : Z :=
         match modifications with
         | [] => Success
         | m :: modifications =>
             let isCosignatory := hasCosignatory multisigEntry (CosignatoryPublicKey m) in
             let isEnablingCosignatory := bool_decide (ModificationType_Add = ModificationType m) in
             if negb isEnablingCosignatory && negb isCosignatory then Failure_Multisig_Modify_Not_A_Cosigner
             else if isEnablingCosignatory && isCosignatory then Failure_Multisig_Modify_Already_A_Cosigner
             else check modifications
         end) (cn_Modifications n)
  end.

Definition ModifyMultisigInvalidSettings (n : SettingsNotification) c : Z :=
  match c !! sn_Signer n with
  | None =>
      if negb (sn_MinRemovalDelta n =? sn_MinApprovalDelta n) then Failure_Multisig_Modify_Min_Setting_Out_Of_Range else Success
  | Some multisigEntry =>
      let newMinRemoval := m_minRemoval multisigEntry + sn_MinRemovalDelta n in
      let newMinApproval := m_minApproval multisigEntry + sn_MinApprovalDelta n in
      if (newMinRemoval <? 0) || (newMinApproval <? 0)
         || negb (bool_decide (m_cosignatories multisigEntry = ∅)) && ((newMinRemoval =? 0) || (newMinApproval =? 0))
      then Failure_Multisig_Modify_Min_Setting_Out_Of_Range
      else
        let maxValue := Z.of_nat (size (m_cosignatories multisigEntry)) in
        if (maxValue <? newMinRemoval) || (maxValue <? newMinApproval)
        then Failure_Multisig_Modify_Min_Setting_Larger_Than_Num_Cosignatories else Success
  end.

(** [LoopAndLevelChecker::validate]. *)
Definition ModifyMultisigLoopAndLevel (config : MultisigConfiguration) (n : NewCosignerNotification) c : result Z :=
  match FindAncestors c (nc_MultisigAccountKey n) {[ nc_MultisigAccountKey n ]},
        FindDescendants c (nc_CosignatoryKey n) {[ nc_CosignatoryKey n ]} with
  | Some (numTopLevels, ancestorKeys), Some (numBottomLevels, descendantKeys) =>
      if MaxMultisigDepth config <? numTopLevels + numBottomLevels + 1 then Ok Failure_Multisig_Modify_Max_Multisig_Depth
      else Ok (if existsb (λ key, bool_decide (key ∈ descendantKeys)) (elements ancestorKeys)
               then Failure_Multisig_Modify_Loop else Success)
  | _, _ => Throw undefined_behaviour
  end.

Definition ModifyMultisigMaxCosignedAccounts (config : MultisigConfiguration) (n : NewCosignerNotification) c : Z :=
  match c !! nc_CosignatoryKey n with
  | None => Success
  | Some cosignatoryEntry =>
      if MaxCosignedAccountsPerAccount config <=? Z.of_nat (size (m_multisigAccounts cosignatoryEntry))
      then Failure_Multisig_Modify_Max_Cosigned_Accounts else Success
  end.

Definition count_cosigners (numCosignatories : Z) (modifications : list CosignatoryModification) : Z :=
  foldl (λ n m, if bool_decide (ModificationType_Add = ModificationType m) then u64 (n + 1) else u64 (n - 1)) numCosignatories modifications.

Definition ModifyMultisigMaxCosigners (config : MultisigConfiguration) (n : CosignersNotification) c : Z :=
  let numCosignatories := match c !! cn_Signer n with None => 0 | Some e => Z.of_nat (size (m_cosignatories e)) end in
  if MaxCosignersPerAccount config <? count_cosigners numCosignatories (cn_Modifications n)
  then Failure_Multisig_Modify_Max_Cosigners else Success.

Definition MultisigPermittedOperation (signer : Key) c : Z :=
  match c !! signer with
  | None => Success
  | Some e => if bool_decide (m_cosignatories e = ∅) then Success else Failure_Multisig_Operation_Not_Permitted_By_Account
  end.

(** * Cosignatures of aggregate transactions *)

Section cosignatures.
Context (c : MultisigCacheDelta).

(** [findEligibleCosigners] marks the keys that may cosign. *)
Fixpoint mark_all (findEligible : Key → gmap Key bool → option (gmap Key bool)) (keys : list Key) (cosigners : gmap Key bool)
    : option (gmap Key bool) :=
  match keys with
  | [] => Some cosigners
  | key :: keys => cosigners ← findEligible key cosigners; mark_all findEligible keys cosigners
  end.

Definition markEligible (key : Key) (cosigners : gmap Key bool) : gmap Key bool :=
  match cosigners !! key with Some _ => <[key := true]> cosigners | None => cosigners end.

Fixpoint findEligibleCosigners (fuel : nat) (publicKey : Key) (cosigners : gmap Key bool) : option (gmap Key bool) :=
  match fuel with
  | O => None
  | S fuel =>
      match c !! publicKey with
      | None => Some (markEligible publicKey cosigners)
      | Some multisigEntry =>
          if bool_decide (m_cosignatories multisigEntry = ∅) then Some (markEligible publicKey cosigners)
          else mark_all (findEligibleCosigners fuel) (elements (m_cosignatories multisigEntry)) cosigners
      end
  end.

(** [publicKeys]: the signers of the embedded transactions and the accounts
    that have to approve them. *)
Definition hasIneligibleCosigners (strictSigner : bool) (signer : Key) (cosignatures publicKeys : list Key) : option bool :=
  let cosigners := (if strictSigner then {[ signer := false ]} else ∅) ∪ list_to_map ((λ key, (key, false)) <$> cosignatures) in
  cosigners ← mark_all (findEligibleCosigners (find_fuel c)) publicKeys cosigners;
  Some (existsb (λ p, negb (snd p)) (map_to_list cosigners)).

Inductive OperationType := Operation_Normal | Operation_Removal | Operation_Max.

(** For a transaction that modifies a multisig account. *)
Definition GetOperationType (modifications : list CosignatoryModification) : OperationType :=
  let hasAdds := existsb (λ m, bool_decide (ModificationType_Add = ModificationType m)) modifications in
  let hasDeletes := existsb (λ m, bool_decide (ModificationType_Del = ModificationType m)) modifications in
  if hasDeletes then if hasAdds then Operation_Max else Operation_Removal else Operation_Normal.

Definition GetMinRequiredCosigners (e : MultisigEntry) (operationType : OperationType) : Z :=
  match operationType with
  | Operation_Max => Z.max (m_minRemoval e) (m_minApproval e)
  | Operation_Removal => m_minRemoval e
  | Operation_Normal => m_minApproval e
  end.

Section sufficient.
Context (cosigners : gset Key) (operationType : OperationType).

Fixpoint count_approvers (isSatisfied : Key → option bool) (keys : list Key) (numApprovers : Z) : option Z :=
  match keys with
  | [] => Some numApprovers
  | key :: keys => b ← isSatisfied key; count_approvers isSatisfied keys (numApprovers + if (b : bool) then 1 else 0)
  end.

Fixpoint isSatisfied (fuel : nat) (publicKey : Key) : option bool :=
  match fuel with
  | O => None
  | S fuel =>
      match c !! publicKey with
      | None => Some (bool_decide (publicKey ∈ cosigners))
      | Some multisigEntry =>
          if bool_decide (m_cosignatories multisigEntry = ∅) then Some (bool_decide (publicKey ∈ cosigners))
          else
            numApprovers ← count_approvers (isSatisfied fuel) (elements (m_cosignatories multisigEntry)) 0;
            Some (GetMinRequiredCosigners multisigEntry operationType <=? numApprovers)
      end
  end.

(** [std::all_of] stops at the first key that is not satisfied. *)
Fixpoint hasSufficientCosigners (requiredPublicKeys : list Key) : option bool :=
  match requiredPublicKeys with
  | [] => Some true
  | key :: keys => b ← isSatisfied (find_fuel c) key; if (b : bool) then hasSufficientCosigners keys else Some false
  end.

End sufficient.
End cosignatures.

(** * The plugin *)

Section plugin.
Context {CatapultState StatementBuilder : Type}.
Abbreviation State := (ObserverState MultisigNotification MultisigCacheDelta CatapultState StatementBuilder).
Abbreviation MultisigValidator := (Validator MultisigNotification MultisigCacheDelta MultisigConfiguration).
Abbreviation MultisigObserver := (Observer MultisigNotification MultisigCacheDelta CatapultState StatementBuilder MultisigConfiguration).

(** A handler is called with notifications of its type. *)
Definition cosigners_validator (f : MultisigConfiguration → CosignersNotification → MultisigCacheDelta → Z) : MultisigValidator :=
  λ context n cache, match n with ModifyCosigners n => Ok (f (vc_Config context) n cache) | _ => Ok Success end.
Definition new_cosigner_validator (f : MultisigConfiguration → NewCosignerNotification → MultisigCacheDelta → result Z) : MultisigValidator :=
  λ context n cache, match n with NewCosigner n => f (vc_Config context) n cache | _ => Ok Success end.
Definition settings_validator (f : SettingsNotification → MultisigCacheDelta → Z) : MultisigValidator :=
  λ context n cache, match n with ModifySettings n => Ok (f n cache) | _ => Ok Success end.

(** The order of [addStatefulValidatorHook], for the notifications of a
    modification. *)
Definition multisig_validators : list (Z * list MultisigValidator) :=
  builder_add Modify_New_Cosigner_v1 (new_cosigner_validator ModifyMultisigLoopAndLevel)
  (builder_add Modify_Settings_v1 (settings_validator ModifyMultisigInvalidSettings)
  (builder_add Modify_Cosigners_v1 (cosigners_validator (λ _, ModifyMultisigInvalidCosigners))
  (builder_add Modify_Cosigners_v1 (cosigners_validator ModifyMultisigMaxCosigners)
  (builder_add Modify_New_Cosigner_v1 (new_cosigner_validator (λ config n c, Ok (ModifyMultisigMaxCosignedAccounts config n c))) [])))).

Definition on_multisig_cache (f : Exec MultisigCacheDelta unit) : Exec State unit := λ s,
  let '(cache, r) := f (os_Cache s) in
  ({| os_Cache := cache; os_State := os_State s; os_BlockStatementBuilder := os_BlockStatementBuilder s;
      os_Notifications := os_Notifications s |}, r).

Definition cosigners_observer : MultisigObserver := λ context n,
  match n with ModifyCosigners n => on_multisig_cache (ModifyMultisigCosignersObserver n (oc_Mode context)) | _ => mret tt end.
Definition settings_observer : MultisigObserver := λ context n,
  match n with ModifySettings n => on_multisig_cache (modify (ModifyMultisigSettingsObserver n (oc_Mode context))) | _ => mret tt end.

(** The order of [addObserverHook]. *)
Definition multisig_observers : list (Z * list MultisigObserver) :=
  builder_add Modify_Settings_v1 settings_observer (builder_add Modify_Cosigners_v1 cosigners_observer []).

Record ModifyMultisigAccountTransaction := {
  tx_EntityVersion : Z; tx_Signer : Key; tx_MinRemovalDelta : Z; tx_MinApprovalDelta : Z; tx_Modifications : list CosignatoryModification }.

(** The notifications of one modification. *)
Definition publish_modification (signer : Key) (m : CosignatoryModification) : list MultisigNotification :=
  (if bool_decide (ModificationType_Add = ModificationType m)
   then [NewCosigner {| nc_MultisigAccountKey := signer; nc_CosignatoryKey := CosignatoryPublicKey m |}] else [])
  ++ [AccountPublicKey (CosignatoryPublicKey m)].

Definition added_keys (modifications : list CosignatoryModification) : list Key :=
  CosignatoryPublicKey <$> filter (λ m, ModificationType_Add = ModificationType m) modifications.

Definition Publish (tx : ModifyMultisigAccountTransaction) : list MultisigNotification :=
  if negb (tx_EntityVersion tx =? 3) then []
  else
    (match tx_Modifications tx with
     | [] => []
     | modifications =>
         concat (publish_modification (tx_Signer tx) <$> modifications)
         ++ [ModifyCosigners {| cn_Signer := tx_Signer tx; cn_Modifications := modifications; cn_AllowMultipleRemove := false |}]
     end)
    ++ (match added_keys (tx_Modifications tx) with
        | [] => []
        | added => [AddressInteraction (tx_Signer tx) (list_to_set added)]
        end)
    ++ [ModifySettings {| sn_Signer := tx_Signer tx; sn_MinRemovalDelta := tx_MinRemovalDelta tx;
                          sn_MinApprovalDelta := tx_MinApprovalDelta tx;
                          sn_ModificationsCount := Z.of_nat (length (tx_Modifications tx)) |}].

(** Accounts that must approve a modification besides its signer. *)
Definition ExtractAdditionalRequiredCosigners (config : MultisigConfiguration) (tx : ModifyMultisigAccountTransaction) : gset Key :=
  if negb (NewCosignersMustApprove config) then ∅ else list_to_set (added_keys (tx_Modifications tx)).

(** [MultisigAggregateSufficientCosigners] on a modification in an aggregate
    with the given signer and cosignatures. *)
Definition modification_sufficiently_cosigned (config : MultisigConfiguration) (c : MultisigCacheDelta)
    (tx : ModifyMultisigAccountTransaction) (signer : Key) (cosignatures : list Key) : option bool :=
  hasSufficientCosigners c ({[ signer ]} ∪ list_to_set cosignatures) (GetOperationType (tx_Modifications tx))
    (elements ({[ tx_Signer tx ]} ∪ ExtractAdditionalRequiredCosigners config tx)).

(** The transaction is processed by a subscriber, on its own. *)
Definition process_transaction (v : ValidatorContext MultisigConfiguration) (context : ObserverContext MultisigConfiguration)
    (tx : ModifyMultisigAccountTransaction)
    : Exec (Processing MultisigNotification MultisigCacheDelta CatapultState StatementBuilder) unit :=
  for_each (sub_notify NotificationType (λ _, sizeof_Notification) (AggregateValidator NotificationType multisig_validators (λ _, false)) v
              (AggregateObserver NotificationType multisig_observers) context) (Publish tx).

End plugin.

End Multisig.
