(* ===== verification/MultisigGraph.v ===== *)
(** The graph of multisig accounts: what the searches of MultisigCacheUtils.cpp
    and the cosignature checkers compute on a cache without loops. *)
From stdpp Require Import base tactics numbers option list gmap relations.
From S2P Require Import Prelude Notifications Multisig.

Local Open Scope Z_scope.

Module MultisigGraph.
Import Notifications Multisig.
Implicit Types (c : MultisigCacheDelta).

(** * Paths *)

Lemma tc_first {A} (R : relation A) x y : tc R x y ↔ ∃ z, R x z ∧ rtc R z y.
Proof.
  split.
  - destruct 1 as [x y|x z y Hxz Hzy]; [by exists y|]. exists z. auto using tc_rtc.
  - intros (z & ? & ?). by eapply tc_rtc_r; [apply tc_once|].
Qed.

Section linked.
Context (GetKeySet : MultisigEntry → gset Key).

Definition linked c (a b : Key) : Prop := ∃ e, c !! a = Some e ∧ b ∈ GetKeySet e.

Definition acyclic c : Prop := ∀ a, ¬ tc (linked c) a a.

(** The nodes of a path have entries and differ. *)
Lemma path_nodes c n x y :
  acyclic c → nsteps (linked c) n x y → ∃ X : gset Key, X ⊆ dom c ∧ size X = n ∧ ∀ z, z ∈ X → rtc (linked c) x z.
Proof.
  intros Hac. induction 1 as [x|n x y z Hxy _ (X & Hdom & Hsize & HX)].
  { exists ∅. split_and!; [set_solver|by rewrite size_empty|set_solver]. }
  exists ({[ x ]} ∪ X). destruct Hxy as (e & He & Hy).
  assert (linked c x y) as Hxy by (by exists e). split_and!.
  - apply union_subseteq. split; [|done]. intros k ->%elem_of_singleton. apply elem_of_dom. by exists e.
  - rewrite size_union, size_singleton, Hsize; [done|]. apply disjoint_singleton_l. intros Hx%HX.
    apply (Hac x), tc_first. by exists y.
  - intros k [->%elem_of_singleton|Hk]%elem_of_union; [done|]. eapply rtc_l; [done|]. by apply HX.
Qed.

Lemma path_bound c n x y : acyclic c → nsteps (linked c) n x y → (n < find_fuel c)%nat.
Proof.
  intros Hac (X & Hdom & <- & _)%path_nodes; [|done]. apply subseteq_size in Hdom. rewrite size_dom in Hdom. by apply Nat.lt_succ_r.
Qed.

(** * The search *)

Section search.
Context (c : MultisigCacheDelta).
Abbreviation R := (linked c).

(** The result of a search from some accounts: the longest path, and the
    accounts reached. *)
Record found (from : list Key) (s : gset Key) (levels : nat) (s' : gset Key) : Prop := {
  found_keys y : y ∈ s' ↔ y ∈ s ∨ ∃ k, k ∈ from ∧ rtc R k y;
  found_bound n k y : k ∈ from → nsteps R n k y → (n < levels)%nat;
  found_path : levels ≠ O → ∃ k y, k ∈ from ∧ nsteps R (pred levels) k y;
}.

Lemma find_linked_spec (find : Key → gset Key → option (Z * gset Key)) links done l s0 s :
  (∀ k s, k ∈ links → ∃ l s', find k s = Some (Z.of_nat l, s') ∧ (∀ y, y ∈ s' ↔ y ∈ s ∨ tc R k y)
     ∧ (∀ n y, nsteps R n k y → (n ≤ l)%nat) ∧ ∃ y, nsteps R l k y) →
  found done s0 l s →
  ∃ l' s', find_linked find links (Z.of_nat l) s = Some (Z.of_nat l', s') ∧ found (done ++ links) s0 l' s'.
Proof.
  revert done l s. induction links as [|k links IH]; intros done l s Hfind Hf.
  { exists l, s. by rewrite app_nil_r. }
  destruct (Hfind k ({[ k ]} ∪ s)) as (m & s1 & Hs1 & Hkeys & Hbound & (z & Hz)); [by left|].
  destruct (IH (done ++ [k]) (Nat.max l (S m)) s1) as (l' & s' & Hrun & Hf').
  - intros k' s2 Hk'. apply Hfind. by right.
  - destruct Hf as [Hk Hb Hp]. split.
    + intros y. rewrite Hkeys, elem_of_union, elem_of_singleton, Hk. setoid_rewrite elem_of_app. setoid_rewrite list_elem_of_singleton. split.
      * intros [[->|[?|(k' & ? & ?)]]|?%tc_rtc]; [right; exists k|left|right; exists k'|right; exists k]; eauto using rtc_refl.
      * intros [?|(k' & [Hk'| ->] & Hy)]; [by auto|left; right; right; by eauto|].
        apply rtc_tc in Hy as [->|?]; auto.
    + intros n k' y [Hk'| ->%list_elem_of_singleton]%elem_of_app Hn; [specialize (Hb _ _ _ Hk' Hn); lia|specialize (Hbound _ _ Hn); lia].
    + intros _. destruct (decide (l ≤ S m)%nat).
      * exists k, z. split; [set_solver|]. by replace (pred (Nat.max l (S m))) with m by lia.
      * destruct Hp as (k' & y & Hk' & Hy); [lia|]. exists k', y. split; [set_solver|]. by replace (Nat.max l (S m)) with l by lia.
  - exists l', s'. rewrite <- (assoc_L (++)) in Hf'. split; [|done]. cbn [find_linked]. rewrite Hs1. cbn [mbind option_bind].
    by replace (Z.max (Z.of_nat l) (Z.of_nat m + 1)) with (Z.of_nat (Nat.max l (S m))) by lia.
Qed.

Lemma FindAll_spec fuel k s :
  (∀ n y, nsteps R n k y → (n < fuel)%nat) →
  ∃ l s', FindAll GetKeySet fuel c k s = Some (Z.of_nat l, s') ∧ (∀ y, y ∈ s' ↔ y ∈ s ∨ tc R k y)
    ∧ (∀ n y, nsteps R n k y → (n ≤ l)%nat) ∧ ∃ y, nsteps R l k y.
Proof.
  revert k s. induction fuel as [|fuel IH]; intros k s Hfuel; [specialize (Hfuel 0%nat k (nsteps_O _ _)); lia|].
  simpl. destruct (c !! k) as [e|] eqn:Hk; last first.
  { exists 0%nat, s. split_and!; [done| | |by exists k; constructor].
    - intros y. split; [by left|]. intros [?|(z & (e & He & _) & _)%tc_first]; [done|]. simplify_eq.
    - intros n y Hn. destruct Hn as [|n x z y (e & He & _) _]; [done|]. simplify_eq. }
  assert (∀ z, R k z ↔ z ∈ elements (GetKeySet e)) as HR.
  { intros z. rewrite elem_of_elements. split; [by intros (e' & ? & ?); simplify_eq|]. by exists e. }
  destruct (find_linked_spec (FindAll GetKeySet fuel c) (elements (GetKeySet e)) [] 0 s s) as (l & s' & Hrun & [Hkeys Hbound Hpath]).
  - intros k' s1 Hk'%HR. apply IH. intros n y Hn. specialize (Hfuel (S n) y (nsteps_l _ _ _ _ _ Hk' Hn)). lia.
  - split; [|by intros ??? ?%not_elem_of_nil|done]. intros y. split; [by left|]. by intros [?|(? & ?%not_elem_of_nil & _)].
  - exists l, s'. rewrite app_nil_l in *. split_and!; [done| | |].
    + intros y. rewrite Hkeys, tc_first. by setoid_rewrite HR.
    + intros n y Hn. destruct Hn as [|n x z y Hxz Hn]; [lia|]. apply HR in Hxz. specialize (Hbound _ _ _ Hxz Hn). lia.
    + destruct l as [|l]; [by exists k; constructor|]. destruct Hpath as (k' & y & Hk'%HR & Hy); [done|]. exists y. by eapply nsteps_l.
Qed.

End search.
End linked.

(** * Well-formed caches *)

(** From a multisig account to a cosignatory, and back. *)
Abbreviation edge := (linked m_cosignatories).
Abbreviation parent := (linked m_multisigAccounts).

(** Every entry is part of a link, which both of its ends know. *)
Record graph_wf c : Prop := {
  wf_key k e : c !! k = Some e → m_key e = k;
  wf_symmetric a b : edge c a b ↔ parent c b a;
  wf_used k e : c !! k = Some e → m_cosignatories e ≠ ∅ ∨ m_multisigAccounts e ≠ ∅;
}.

(** No chain of cosignatories is longer than [depth]. *)
Definition bounded (depth : Z) c : Prop := ∀ n x y, nsteps (edge c) n x y → Z.of_nat n ≤ depth.

Lemma nsteps_converse {A} (R R' : relation A) n x y : (∀ a b, R a b → R' b a) → nsteps R n x y → nsteps R' n y x.
Proof. intros HR. induction 1 as [|n x y z Hxy _ IH]; [constructor|]. eapply nsteps_r; [done|]. by apply HR. Qed.

Lemma parent_nsteps c n x y : graph_wf c → nsteps (parent c) n x y ↔ nsteps (edge c) n y x.
Proof. intros Hwf. split; apply nsteps_converse; intros a b; apply (wf_symmetric c Hwf). Qed.

Lemma parent_rtc c x y : graph_wf c → rtc (parent c) x y ↔ rtc (edge c) y x.
Proof. intros Hwf. rewrite !rtc_nsteps. by setoid_rewrite (λ n, parent_nsteps c n x y Hwf). Qed.

Lemma bounded_acyclic depth c : bounded depth c → acyclic m_cosignatories c.
Proof.
  intros Hb a (n & Hn & Ha)%tc_nsteps.
  assert (∀ i, nsteps (edge c) (i * n) a a) as Hi by (induction i; [constructor|by eapply nsteps_trans]).
  specialize (Hb _ _ _ (Hi (S (Z.to_nat depth)))). nia.
Qed.

Lemma parent_acyclic c : graph_wf c → acyclic m_cosignatories c → acyclic m_multisigAccounts c.
Proof.
  intros Hwf Hac a (n & Hn & Ha)%tc_nsteps. apply (Hac a), tc_nsteps. exists n. split; [done|]. by apply parent_nsteps.
Qed.

(** * Loop and level *)

(** The search from an account, which is in the set of keys. *)
Lemma search_spec GetKeySet c k :
  acyclic GetKeySet c →
  ∃ l s, FindAll GetKeySet (find_fuel c) c k {[ k ]} = Some (Z.of_nat l, s) ∧ (∀ y, y ∈ s ↔ rtc (linked GetKeySet c) k y)
    ∧ (∀ n y, nsteps (linked GetKeySet c) n k y → (n ≤ l)%nat) ∧ ∃ y, nsteps (linked GetKeySet c) l k y.
Proof.
  intros Hac. destruct (FindAll_spec GetKeySet c (find_fuel c) k {[ k ]}) as (l & s & Hrun & Hs & Hl); [eauto using path_bound|].
  exists l, s. split_and!; [done| |by apply Hl..]. intros y. rewrite Hs, elem_of_singleton, rtc_tc. naive_solver.
Qed.

(** The extractor of public keys is the search for descendants without levels. *)
Lemma extractCosigners_FindAll fuel c k s : extractCosigners fuel c k s = snd <$> FindAll m_cosignatories fuel c k s.
Proof.
  revert k s. induction fuel as [|fuel IH]; intros k s; [done|]. simpl. destruct (c !! k) as [e|]; [|done].
  generalize 0. revert s. induction (elements (m_cosignatories e)) as [|x l IHl]; intros s n; [done|]. cbn [extract_linked find_linked].
  rewrite IH. destruct (FindAll m_cosignatories fuel c x _) as [[m s1]|]; [|done]. cbn. by rewrite <- IHl.
Qed.

Lemma publicKeysExtractor_spec c k :
  acyclic m_cosignatories c → ∃ s, publicKeysExtractor c k = Some s ∧ ∀ y, y ∈ s ↔ rtc (edge c) k y.
Proof.
  intros Hac. destruct (search_spec m_cosignatories c k Hac) as (l & s & Hrun & Hs & _). exists s. split; [|done].
  unfold publicKeysExtractor. by rewrite extractCosigners_FindAll, Hrun.
Qed.

(** The checker accepts a new cosignatory where the link makes no loop and no
    chain that is too long. *)
Lemma LoopAndLevel_spec config n c :
  graph_wf c → acyclic m_cosignatories c →
  ∃ r, ModifyMultisigLoopAndLevel config n c = Ok r
  ∧ (r = Success ↔
       (∀ i j x y, nsteps (edge c) i x (nc_MultisigAccountKey n) → nsteps (edge c) j (nc_CosignatoryKey n) y →
          Z.of_nat (i + 1 + j) ≤ MaxMultisigDepth config)
       ∧ ¬ rtc (edge c) (nc_CosignatoryKey n) (nc_MultisigAccountKey n)).
Proof.
  intros Hwf Hac. destruct n as [top bottom]. cbn [nc_MultisigAccountKey nc_CosignatoryKey].
  destruct (search_spec m_multisigAccounts c top) as (l1 & s1 & Hrun1 & Hs1 & Hl1 & (y1 & Hy1)); [by apply parent_acyclic|].
  destruct (search_spec m_cosignatories c bottom) as (l2 & s2 & Hrun2 & Hs2 & Hl2 & (y2 & Hy2)); [done|].
  unfold ModifyMultisigLoopAndLevel, FindAncestors, FindDescendants. cbn [nc_MultisigAccountKey nc_CosignatoryKey]. rewrite Hrun1, Hrun2.
  destruct (Z.ltb_spec (MaxMultisigDepth config) (Z.of_nat l1 + Z.of_nat l2 + 1)) as [Hd|Hd]; eexists; (split; [done|]).
  { split; [done|]. intros [Hall _]. rewrite parent_nsteps in Hy1 by done. specialize (Hall _ _ _ _ Hy1 Hy2). lia. }
  destruct (existsb _ _) eqn:Hex; (split; [|]).
  - done.
  - intros [_ []]. apply existsb_exists in Hex as (k & Hk & Hk2). apply list_elem_of_In, elem_of_elements, Hs1, parent_rtc in Hk; [|done].
    apply bool_decide_eq_true, Hs2 in Hk2. by transitivity k.
  - intros _. split.
    + intros i j x y Hi Hj. rewrite <- parent_nsteps in Hi by done. specialize (Hl1 _ _ Hi). specialize (Hl2 _ _ Hj). lia.
    + intros Hloop. apply not_true_iff_false in Hex. apply Hex, existsb_exists. exists top. split.
      * apply list_elem_of_In, elem_of_elements, Hs1. done.
      * by apply bool_decide_eq_true, Hs2.
  - done.
Qed.

(** * Approval *)

(** An account without cosignatories signs for itself. *)
Definition plain c (k : Key) : Prop := ∀ y, ¬ edge c k y.

(** The plain accounts below an account. *)
Definition signs_for c (k y : Key) : Prop := rtc (edge c) k y ∧ plain c y.

(** What it means that an account approves: it signed, or enough of its
    cosignatories approve. *)
Inductive approves c (cosigners : gset Key) (operationType : OperationType) (k : Key) : Prop :=
| approves_plain : plain c k → k ∈ cosigners → approves c cosigners operationType k
| approves_multisig e (X : gset Key) :
    c !! k = Some e → m_cosignatories e ≠ ∅ → X ⊆ m_cosignatories e → GetMinRequiredCosigners e operationType ≤ Z.of_nat (size X) →
    (∀ x, x ∈ X → approves c cosigners operationType x) → approves c cosigners operationType k.

Lemma plain_lookup c k : plain c k ↔ ∀ e, c !! k = Some e → m_cosignatories e = ∅.
Proof.
  split.
  - intros Hp e He. apply set_eq. intros y. split; [|set_solver]. intros Hy. destruct (Hp y). by exists e.
  - intros He y (e & Hk & Hy). rewrite (He e Hk) in Hy. set_solver.
Qed.

Lemma approves_plain_inv c cosigners op k : plain c k → approves c cosigners op k → k ∈ cosigners.
Proof. intros Hp [|e X He Hne]; [done|]. destruct Hne. by apply (proj1 (plain_lookup c k)). Qed.

(** Both checkers branch on whether an account is plain. *)
Lemma plain_or_multisig c k :
  (plain c k ∧ ∀ e, c !! k = Some e → bool_decide (m_cosignatories e = ∅) = true)
  ∨ ∃ e, c !! k = Some e ∧ m_cosignatories e ≠ ∅ ∧ bool_decide (m_cosignatories e = ∅) = false
      ∧ ∀ y, edge c k y ↔ y ∈ elements (m_cosignatories e).
Proof.
  destruct (c !! k) as [e|] eqn:Hk; [destruct (decide (m_cosignatories e = ∅)) as [He|He]|].
  - left. split; [apply plain_lookup|]; intros e' ?; simplify_eq; [done|by apply bool_decide_eq_true].
  - right. exists e. split_and!; [done..|by apply bool_decide_eq_false|]. intros y. rewrite elem_of_elements.
    split; [by intros (e' & ? & ?); simplify_eq|]. by exists e.
  - left. split; [apply plain_lookup|]; by intros e ?; simplify_eq.
Qed.

Section checks.
Context (c : MultisigCacheDelta) (Hac : acyclic m_cosignatories c).

(** The accounts of a list that approve are counted. *)
Lemma count_approvers_spec (satisfied : Key → option bool) (P : Key → Prop) keys n :
  NoDup keys → (∀ k, k ∈ keys → ∃ b, satisfied k = Some b ∧ (b = true ↔ P k)) →
  ∃ X : gset Key, count_approvers satisfied keys n = Some (n + Z.of_nat (size X)) ∧ ∀ x, x ∈ X ↔ x ∈ keys ∧ P x.
Proof.
  intros Hnd. revert n. induction Hnd as [|k keys Hk Hnd IH]; intros n Hs.
  { exists ∅. rewrite size_empty. simpl. split; [f_equal; lia|set_solver]. }
  destruct (Hs k) as (b & Hb & HP); [by left|]. simpl. rewrite Hb. simpl.
  destruct (IH (n + if b then 1 else 0)) as (X & -> & HX); [intros k' ?; apply Hs; by right|].
  destruct b.
  - exists ({[ k ]} ∪ X). split.
    + rewrite size_union, size_singleton by (apply disjoint_singleton_l; rewrite HX; tauto). f_equal. lia.
    + intros x. rewrite elem_of_union, elem_of_singleton, HX, elem_of_cons. naive_solver.
  - exists X. split; [f_equal; lia|]. intros x. rewrite HX, elem_of_cons. naive_solver.
Qed.

Lemma isSatisfied_spec cosigners op fuel k :
  (∀ n y, nsteps (edge c) n k y → (n < fuel)%nat) →
  ∃ b, isSatisfied c cosigners op fuel k = Some b ∧ (b = true ↔ approves c cosigners op k).
Proof.
  revert k. induction fuel as [|fuel IH]; intros k Hfuel; [specialize (Hfuel 0%nat k (nsteps_O _ _)); lia|].
  cbn [isSatisfied]. destruct (plain_or_multisig c k) as [[Hp He]|(e & He & Hne & Hb & Hedge)].
  - exists (bool_decide (k ∈ cosigners)). split.
    + destruct (c !! k) as [e|]; [|done]. by rewrite (He e eq_refl).
    + rewrite bool_decide_eq_true. split; [by apply approves_plain|by apply approves_plain_inv].
  - rewrite He, Hb. destruct (count_approvers_spec (isSatisfied c cosigners op fuel) (approves c cosigners op)
      (elements (m_cosignatories e)) 0) as (X & -> & HX); [apply NoDup_elements| |].
    { intros x Hx%Hedge. apply IH. intros n y Hn. specialize (Hfuel _ _ (nsteps_l _ _ _ _ _ Hx Hn)). lia. }
    eexists. split; [done|]. rewrite Z.leb_le. split.
    + intros Hmin. eapply (approves_multisig _ _ _ _ e X); [done..| |lia|intros x Hx; by apply HX].
      intros x Hx. apply elem_of_elements. by apply HX.
    + intros [Hp|e' Y ? _ HY Hmin Happ]; [by destruct Hne; apply (proj1 (plain_lookup c k))|]. simplify_eq.
      assert (Y ⊆ X) as ?%subseteq_size; [|lia]. intros y Hy. apply HX. split; [apply elem_of_elements|]; auto.
Qed.

Lemma hasSufficientCosigners_spec cosigners op keys :
  ∃ b, hasSufficientCosigners c cosigners op keys = Some b ∧ (b = true ↔ ∀ k, k ∈ keys → approves c cosigners op k).
Proof.
  induction keys as [|k keys (b & Hb & IH)]; [exists true; split; [done|]; split; [by intros _ k ?%not_elem_of_nil|done]|].
  destruct (isSatisfied_spec cosigners op (find_fuel c) k) as (b' & Hb' & Happ); [eauto using path_bound|].
  cbn [hasSufficientCosigners]. rewrite Hb'. simpl. setoid_rewrite elem_of_cons. destruct b'.
  - exists b. split; [done|]. rewrite IH. naive_solver.
  - exists false. split; [done|]. split; [done|]. intros Hall. apply Happ, Hall. by left.
Qed.

(** * Eligible cosigners *)

(** The keys of a map that are marked, besides those marked before. *)
Definition marked (P : Key → Prop) (m m' : gmap Key bool) : Prop :=
  ∀ k, (is_Some (m' !! k) ↔ is_Some (m !! k)) ∧ (m' !! k = Some true ↔ m !! k = Some true ∨ (is_Some (m !! k) ∧ P k)).

Lemma marked_union P Q m1 m2 m3 : marked P m1 m2 → marked Q m2 m3 → marked (λ k, P k ∨ Q k) m1 m3.
Proof. intros H12 H23 k. specialize (H12 k). specialize (H23 k). naive_solver. Qed.

Lemma marked_proper P Q m m' : (∀ k, P k ↔ Q k) → marked P m m' → marked Q m m'.
Proof. intros HPQ Hm k. specialize (Hm k). by rewrite <- HPQ. Qed.

Lemma markEligible_spec key m : marked (λ k, k = key) m (markEligible key m).
Proof.
  intros k. unfold markEligible. destruct (m !! key) as [b|] eqn:Hkey.
  - destruct (decide (k = key)) as [->|]; [rewrite lookup_insert_eq|rewrite lookup_insert_ne by done]; rewrite ?Hkey; naive_solver.
  - split; [done|]. split; [by left|]. intros [?|[[? ?] ->]]; [done|]. congruence.
Qed.

Lemma mark_all_spec find (P : Key → Key → Prop) keys m :
  (∀ k m, k ∈ keys → ∃ m', find k m = Some m' ∧ marked (P k) m m') →
  ∃ m', mark_all find keys m = Some m' ∧ marked (λ x, ∃ k, k ∈ keys ∧ P k x) m m'.
Proof.
  revert m. induction keys as [|k keys IH]; intros m Hfind.
  { exists m. split; [done|]. intros x. split; [done|]. split; [by left|]. intros [?|(_ & k & ?%not_elem_of_nil & _)]; done. }
  destruct (Hfind k m) as (m1 & H1 & Hm1); [by left|]. destruct (IH m1) as (m2 & H2 & Hm2); [intros ?? ?; apply Hfind; by right|].
  exists m2. cbn [mark_all]. rewrite H1. split; [done|]. eapply marked_proper; [|by eapply marked_union].
  intros x. simpl. setoid_rewrite elem_of_cons. naive_solver.
Qed.

Lemma findEligibleCosigners_spec fuel k m :
  (∀ n y, nsteps (edge c) n k y → (n < fuel)%nat) →
  ∃ m', findEligibleCosigners c fuel k m = Some m' ∧ marked (signs_for c k) m m'.
Proof.
  revert k m. induction fuel as [|fuel IH]; intros k m Hfuel; [specialize (Hfuel 0%nat k (nsteps_O _ _)); lia|].
  cbn [findEligibleCosigners]. destruct (plain_or_multisig c k) as [[Hp He]|(e & He & Hne & Hb & Hedge)].
  - exists (markEligible k m). split.
    + destruct (c !! k) as [e|]; [|done]. by rewrite (He e eq_refl).
    + eapply marked_proper; [|apply markEligible_spec]. intros y. split; [by intros ->|].
      intros [[->|(z & Hkz & _)]%rtc_inv _]; [done|]. by destruct (Hp z).
  - rewrite He, Hb. destruct (mark_all_spec (findEligibleCosigners c fuel) (signs_for c) (elements (m_cosignatories e)) m) as (m' & -> & Hm').
    { intros x m1 Hx%Hedge. apply IH. intros n y Hn. specialize (Hfuel _ _ (nsteps_l _ _ _ _ _ Hx Hn)). lia. }
    exists m'. split; [done|]. eapply marked_proper; [|done]. intros y. setoid_rewrite <- Hedge. split.
    + intros (x & Hx & Hy & Hp). split; [|done]. by eapply rtc_l.
    + intros [[->|(z & Hkz & Hz)]%rtc_inv Hp]; [|by exists z].
      destruct Hne. by apply (proj1 (plain_lookup c y)).
Qed.

Lemma hasIneligibleCosigners_spec strictSigner signer cosignatures keys :
  ∃ b, hasIneligibleCosigners c strictSigner signer cosignatures keys = Some b
  ∧ (b = false ↔ ∀ x, (strictSigner = true ∧ x = signer) ∨ x ∈ cosignatures → ∃ k, k ∈ keys ∧ signs_for c k x).
Proof.
  unfold hasIneligibleCosigners. set (m := _ ∪ list_to_map _).
  assert (∀ x, m !! x = Some false ∨ m !! x = None) as Hfalse.
  { intros x. destruct (m !! x) as [[]|] eqn:Hx; [|by auto..]. exfalso.
    apply lookup_union_Some_raw in Hx as [Hx|[_ Hx]].
    - destruct strictSigner; [apply lookup_singleton_Some in Hx as [_ ?]|]; simplify_map_eq.
    - by apply elem_of_list_to_map_2, list_elem_of_fmap in Hx as (? & ? & ?). }
  assert (∀ x, is_Some (m !! x) ↔ (strictSigner = true ∧ x = signer) ∨ x ∈ cosignatures) as Hdom.
  { intros x. unfold m. rewrite <- elem_of_dom, dom_union_L, elem_of_union, dom_list_to_map_L, elem_of_list_to_set, <- list_fmap_compose, list_fmap_id.
    destruct strictSigner; [rewrite dom_singleton_L|rewrite dom_empty_L]; set_solver. }
  destruct (mark_all_spec (findEligibleCosigners c (find_fuel c)) (signs_for c) keys m) as (m' & -> & Hm').
  { intros k m1 _. apply findEligibleCosigners_spec. eauto using path_bound. }
  eexists. split; [done|]. rewrite <- not_true_iff_false, existsb_exists. setoid_rewrite <- Hdom. split.
  - intros Hno x Hx. destruct (Hm' x) as [Hin Htrue]. destruct (m' !! x) as [[]|] eqn:Hx'.
    + destruct (proj1 Htrue eq_refl) as [Ht|[_ ?]]; [|done]. destruct (Hfalse x); congruence.
    + destruct Hno. exists (x, false). split; [|done]. apply list_elem_of_In, elem_of_map_to_list. done.
    + destruct (proj2 Hin Hx) as [? ?]. done.
  - intros Hall ((x & b) & Hx & Hb). apply list_elem_of_In, elem_of_map_to_list in Hx. destruct b; [done|].
    destruct (Hm' x) as [Hin Htrue]. assert (is_Some (m !! x)) as Hs by (apply Hin; by eexists).
    assert (m' !! x = Some true) by (apply Htrue; right; auto). congruence.
Qed.

End checks.

End MultisigGraph.
