(* ===== verification/MultisigState.v ===== *)
(** What the observers of the multisig plugin do to the graph of accounts, and
    the theorems on whole transactions: an accepted modification keeps the cache
    well-formed, approvals are decided by the graph, and a rollback restores the
    cache except where an entry was removed. *)
From stdpp Require Import base tactics numbers option list gmap relations.
From S2P Require Import Prelude Notifications Multisig MultisigGraph.

Local Open Scope Z_scope.

Module MultisigState.
Import Notifications Multisig MultisigGraph.
Implicit Types (c : MultisigCacheDelta).

(** * Caches in which the entry of one account is open *)

Definition mins c (k : Key) : Z * Z := from_option (λ e, (m_minApproval e, m_minRemoval e)) (0, 0) (c !! k).

(** While the observers work on [account], its entry may be unused. *)
Record wf_but (account : Key) c : Prop := {
  but_key k e : c !! k = Some e → m_key e = k;
  but_symmetric a b : edge c a b ↔ parent c b a;
  but_used k e : c !! k = Some e → k ≠ account → m_cosignatories e ≠ ∅ ∨ m_multisigAccounts e ≠ ∅;
  but_idle k : k ≠ account → plain c k → mins c k = (0, 0);
}.

(** Accounts without cosignatories have no settings. *)
Definition idle c : Prop := ∀ k, plain c k → mins c k = (0, 0).

Lemma graph_wf_but account c : graph_wf c → idle c → wf_but account c.
Proof. intros [] Hi. split; eauto. Qed.

Lemma lookup_GetMultisigEntry key c k :
  GetMultisigEntry key c !! k = if decide (k = key) then Some (default (new_MultisigEntry key) (c !! key)) else c !! k.
Proof.
  unfold GetMultisigEntry, contains. destruct (bool_decide_reflect (is_Some (c !! key))) as [[e He]|Hn%eq_None_not_Some].
  - destruct (decide (k = key)) as [->|]; [by rewrite He|done].
  - destruct (decide (k = key)) as [->|]; [by rewrite lookup_insert_eq, Hn|by rewrite lookup_insert_ne].
Qed.

(** A link is known from the entry of an account. *)
Lemma linked_lookup G c a b : linked G c a b ↔ b ∈ from_option G ∅ (c !! a).
Proof. unfold linked. destruct (c !! a) as [e|]; simpl; set_solver. Qed.

(** The lookups of a cache after one step, as a function of those before. *)
Lemma add_lookup account cosignatory c :
  account ≠ cosignatory → is_Some (c !! account) →
  ∃ c', addCosignatory account cosignatory c = (c', Ok tt) ∧ ∀ k,
    c' !! k = if decide (k = account) then (λ e, set_cosignatories ({[ cosignatory ]} ∪ m_cosignatories e) e) <$> c !! account
              else if decide (k = cosignatory)
              then Some (let e := default (new_MultisigEntry cosignatory) (c !! cosignatory) in
                         set_multisigAccounts ({[ account ]} ∪ m_multisigAccounts e) e)
              else c !! k.
Proof.
  intros Hne [e He]. unfold addCosignatory. set (c1 := alter _ cosignatory _).
  assert (c1 !! account = Some e) as Hc1.
  { unfold c1. rewrite lookup_alter_ne, lookup_GetMultisigEntry by done. by rewrite decide_False. }
  unfold contains. rewrite bool_decide_true by by eexists. eexists. split; [done|]. intros k.
  destruct (decide (k = account)) as [->|]; [by rewrite lookup_alter_eq, Hc1, He|]. rewrite lookup_alter_ne by done. unfold c1.
  destruct (decide (k = cosignatory)) as [->|].
  - by rewrite lookup_alter_eq, lookup_GetMultisigEntry, decide_True.
  - by rewrite lookup_alter_ne, lookup_GetMultisigEntry, decide_False.
Qed.

Lemma addCosignatory_spec account cosignatory c :
  account ≠ cosignatory → is_Some (c !! account) → wf_but account c →
  ∃ c', addCosignatory account cosignatory c = (c', Ok tt) ∧ wf_but account c' ∧ is_Some (c' !! account)
  ∧ (∀ x y, edge c' x y ↔ edge c x y ∨ (x = account ∧ y = cosignatory)) ∧ (∀ k, mins c' k = mins c k).
Proof.
  intros Hne Hacc [Hkey Hsym Hused Hidle]. destruct (add_lookup account cosignatory c Hne Hacc) as (c' & Hrun & Hc').
  destruct Hacc as [e He]. exists c'. split; [done|].
  assert (∀ x y, edge c' x y ↔ edge c x y ∨ (x = account ∧ y = cosignatory)) as Hedge.
  { intros x y. rewrite !linked_lookup, Hc'. destruct (decide (x = account)) as [->|]; [rewrite He; set_solver|].
    destruct (decide (x = cosignatory)) as [->|]; [destruct (c !! cosignatory); set_solver|set_solver]. }
  assert (∀ x y, parent c' y x ↔ parent c y x ∨ (x = account ∧ y = cosignatory)) as Hparent.
  { intros x y. rewrite !linked_lookup, Hc'. destruct (decide (y = account)) as [->|]; [rewrite He; set_solver|].
    destruct (decide (y = cosignatory)) as [->|]; [destruct (c !! cosignatory); set_solver|set_solver]. }
  assert (∀ k, mins c' k = mins c k) as Hmins.
  { intros k. unfold mins. rewrite Hc'. destruct (decide (k = account)) as [->|]; [by rewrite He|].
    destruct (decide (k = cosignatory)) as [->|]; [by destruct (c !! cosignatory)|done]. }
  split_and!; [split| |done..].
  - intros k e'. rewrite Hc'. destruct (decide (k = account)) as [->|]; [rewrite He; intros [= <-]; by apply Hkey in He|].
    destruct (decide (k = cosignatory)) as [->|]; [|by apply Hkey]. intros [= <-]. destruct (c !! cosignatory) as [e'|] eqn:He'; [|done]. by apply Hkey in He'.
  - intros a b. by rewrite Hedge, Hparent, Hsym.
  - intros k e'. rewrite Hc'. intros Hk Hka. rewrite decide_False in Hk by done.
    destruct (decide (k = cosignatory)) as [->|]; [simplify_eq; right; set_solver|by eapply Hused].
  - intros k Hk Hp. rewrite Hmins. apply Hidle; [done|]. intros y Hy. apply (Hp y), Hedge. by left.
  - rewrite Hc', decide_True, He by done. by eexists.
Qed.

Lemma removeIfEmpty_lookup key c e :
  c !! key = Some e →
  ∃ c', removeIfEmpty key c = (c', Ok tt) ∧ ∀ k,
    c' !! k = if decide (k = key) then if decide (m_cosignatories e = ∅ ∧ m_multisigAccounts e = ∅) then None else Some e else c !! k.
Proof.
  intros He. unfold removeIfEmpty. rewrite He, <- bool_decide_and. case_bool_decide as Hempty; eexists; (split; [done|]); intros k.
  - destruct (decide (k = key)) as [->|]; [by rewrite lookup_delete_eq, decide_True|by rewrite lookup_delete_ne].
  - destruct (decide (k = key)) as [->|]; [by rewrite decide_False|done].
Qed.

Lemma remove_lookup account cosignatory c ea eb :
  account ≠ cosignatory → c !! account = Some ea → c !! cosignatory = Some eb →
  ∃ c', removeCosignatory account cosignatory c = (c', Ok tt) ∧ ∀ k,
    c' !! k = if decide (k = account) then Some (set_cosignatories (m_cosignatories ea ∖ {[ cosignatory ]}) ea)
              else if decide (k = cosignatory)
              then let accounts := m_multisigAccounts eb ∖ {[ account ]} in
                   if decide (m_cosignatories eb = ∅ ∧ accounts = ∅) then None else Some (set_multisigAccounts accounts eb)
              else c !! k.
Proof.
  intros Hne Ha Hb. unfold removeCosignatory, contains. rewrite bool_decide_true by by eexists. cbn [negb].
  rewrite bool_decide_true by (rewrite lookup_alter_ne by done; by eexists). cbn [negb].
  destruct (removeIfEmpty_lookup cosignatory
    (alter (λ e, set_multisigAccounts (m_multisigAccounts e ∖ {[ account ]}) e) cosignatory
       (alter (λ e, set_cosignatories (m_cosignatories e ∖ {[ cosignatory ]}) e) account c))
    (set_multisigAccounts (m_multisigAccounts eb ∖ {[ account ]}) eb)) as (c' & -> & Hc').
  { by rewrite lookup_alter_eq, lookup_alter_ne, Hb. }
  exists c'. split; [done|]. intros k. rewrite Hc'.
  destruct (decide (k = account)) as [->|]; [by rewrite decide_False, lookup_alter_ne, lookup_alter_eq, Ha|].
  destruct (decide (k = cosignatory)) as [->|]; [done|]. by rewrite !lookup_alter_ne.
Qed.

Lemma removeCosignatory_spec account cosignatory c :
  account ≠ cosignatory → edge c account cosignatory → wf_but account c →
  ∃ c', removeCosignatory account cosignatory c = (c', Ok tt) ∧ wf_but account c' ∧ is_Some (c' !! account)
  ∧ (∀ x y, edge c' x y ↔ edge c x y ∧ ¬ (x = account ∧ y = cosignatory)) ∧ (∀ k, mins c' k = mins c k).
Proof.
  intros Hne Hab [Hkey Hsym Hused Hidle]. destruct (proj1 (Hsym _ _) Hab) as (eb & Hb & Hba). destruct Hab as (ea & Ha & Hab).
  destruct (remove_lookup account cosignatory c ea eb Hne Ha Hb) as (c' & Hrun & Hc'). exists c'. split; [done|]. cbn zeta in Hc'.
  assert (∀ x y, edge c' x y ↔ edge c x y ∧ ¬ (x = account ∧ y = cosignatory)) as Hedge.
  { intros x y. rewrite !linked_lookup, Hc'. destruct (decide (x = account)) as [->|]; [rewrite Ha; set_solver|].
    destruct (decide (x = cosignatory)) as [->|]; [rewrite Hb; case_decide; set_solver|set_solver]. }
  assert (∀ x y, parent c' y x ↔ parent c y x ∧ ¬ (x = account ∧ y = cosignatory)) as Hparent.
  { intros x y. rewrite !linked_lookup, Hc'. destruct (decide (y = account)) as [->|]; [rewrite Ha; set_solver|].
    destruct (decide (y = cosignatory)) as [->|]; [rewrite Hb; case_decide; set_solver|set_solver]. }
  assert (∀ k, mins c' k = mins c k) as Hmins.
  { intros k. unfold mins. rewrite Hc'. destruct (decide (k = account)) as [->|]; [by rewrite Ha|].
    destruct (decide (k = cosignatory)) as [->|]; [|done]. rewrite Hb. case_decide as Hempty; [|done]. symmetry.
    specialize (Hidle cosignatory (not_eq_sym Hne)). unfold mins in Hidle. rewrite Hb in Hidle. apply Hidle, plain_lookup.
    intros e' ?. simplify_eq. by apply Hempty. }
  split_and!; [split| |done..].
  - intros k e'. rewrite Hc'. destruct (decide (k = account)) as [->|]; [intros [= <-]; by apply Hkey in Ha|].
    destruct (decide (k = cosignatory)) as [->|]; [|by apply Hkey]. case_decide; [done|]. intros [= <-]. by apply Hkey in Hb.
  - intros a b. by rewrite Hedge, Hparent, Hsym.
  - intros k e'. rewrite Hc'. intros Hk Hka. rewrite decide_False in Hk by done.
    destruct (decide (k = cosignatory)) as [->|]; [|by eapply Hused]. case_decide as Hempty; [done|]. simplify_eq. simpl.
    destruct (decide (m_cosignatories eb = ∅)); [right; intros ?; by apply Hempty|by left].
  - intros k Hk Hp. rewrite Hmins. apply Hidle; [done|]. intros y Hy. apply (Hp y), Hedge. split; [done|]. by intros [? _].
  - rewrite Hc', decide_True by done. by eexists.
Qed.

(** All cosignatories are removed at once. *)
Lemma removeCosignatories_spec account c :
  is_Some (c !! account) → ¬ edge c account account → wf_but account c →
  ∃ c', removeCosignatories account c = (c', Ok tt) ∧ wf_but account c'
  ∧ (∀ x y, edge c' x y ↔ edge c x y ∧ x ≠ account) ∧ (∀ k, mins c' k = mins c k).
Proof.
  intros [e He] Hself Hwf. unfold removeCosignatories. rewrite He.
  assert (∀ l c0, NoDup l → account ∉ l → wf_but account c0 → (∀ y, y ∈ l → edge c0 account y) →
    ∃ c', for_each (removeCosignatory account) l c0 = (c', Ok tt) ∧ wf_but account c'
    ∧ (∀ x y, edge c' x y ↔ edge c0 x y ∧ ¬ (x = account ∧ y ∈ l)) ∧ (∀ k, mins c' k = mins c0 k)) as Hloop.
  { clear. induction l as [|y l IH]; intros c0 Hnd Hacc Hwf Hl; [exists c0; split_and!; [done..|set_solver|done]|].
    apply NoDup_cons in Hnd as [Hy Hnd]. apply not_elem_of_cons in Hacc as [Hne Hacc].
    destruct (removeCosignatory_spec account y c0) as (c1 & H1 & Hwf1 & _ & He1 & Hm1); [done|apply Hl; by left|done|].
    destruct (IH c1) as (c' & H' & Hwf' & He' & Hm'); [done..| |].
    { intros z Hz. apply He1. split; [apply Hl; by right|]. by intros [_ ->]. }
    exists c'. cbn [for_each]. rewrite (run_bind _ _ _ _ _ H1). split_and!; [done..| |by intros k; rewrite Hm'].
    intros x z. rewrite He', He1, elem_of_cons. tauto. }
  assert (∀ y, y ∈ elements (m_cosignatories e) ↔ edge c account y) as Hin by (intros y; by rewrite linked_lookup, He, elem_of_elements).
  destruct (Hloop (elements (m_cosignatories e)) c) as (c' & Hrun & Hwf' & He' & Hm'); [apply NoDup_elements|by rewrite Hin|done|intros y; apply Hin|].
  exists c'. split_and!; [done..| |done]. intros x y. rewrite He', Hin. split; [|tauto]. intros [Hxy Hno]. split; [done|]. intros ->. tauto.
Qed.

(** * The observer of cosignatories *)

(** Both directions of a modification toggle a link. *)
Definition toggled (account : Key) (keys : list Key) c c' : Prop :=
  ∀ x y, edge c' x y ↔ (x = account ∧ y ∈ keys ∧ ¬ edge c x y) ∨ (edge c x y ∧ ¬ (x = account ∧ y ∈ keys)).

Definition is_add (mode : NotifyMode) (m : CosignatoryModification) : Prop :=
  eqb (bool_decide (ModificationType_Add = ModificationType m)) (bool_decide (Commit = mode)) = true.

Abbreviation keys_of modifications := (CosignatoryPublicKey <$> modifications).

(** What validation ensures of the modifications of an account. *)
Record applicable (mode : NotifyMode) (account : Key) (modifications : list CosignatoryModification) c : Prop := {
  applicable_distinct : NoDup (keys_of modifications);
  applicable_other : account ∉ keys_of modifications;
  applicable_link m : m ∈ modifications → is_add mode m ↔ ¬ edge c account (CosignatoryPublicKey m);
}.

#[global] Instance edge_dec c a b : Decision (edge c a b).
Proof. refine (cast_if (decide (b ∈ from_option m_cosignatories ∅ (c !! a)))); by rewrite linked_lookup. Defined.

Lemma modify_cosigner_spec mode account m c :
  account ≠ CosignatoryPublicKey m → is_Some (c !! account) → wf_but account c → (is_add mode m ↔ ¬ edge c account (CosignatoryPublicKey m)) →
  ∃ c', modify_cosigner mode account m c = (c', Ok tt) ∧ wf_but account c' ∧ is_Some (c' !! account)
  ∧ toggled account [CosignatoryPublicKey m] c c' ∧ (∀ k, mins c' k = mins c k).
Proof.
  intros Hne Hacc Hwf Hadd. unfold is_add, modify_cosigner in *. destruct (eqb _ _).
  - destruct (addCosignatory_spec account (CosignatoryPublicKey m) c) as (c' & ? & ? & ? & Hedge & ?); [done..|].
    exists c'. split_and!; [done..| |done]. intros x y. rewrite Hedge, list_elem_of_singleton. assert (¬ edge c account (CosignatoryPublicKey m)) by tauto. naive_solver.
  - destruct (decide (edge c account (CosignatoryPublicKey m))) as [He|]; [|by destruct Hadd as [_ ?%(λ H, H ltac:(done))]].
    destruct (removeCosignatory_spec account (CosignatoryPublicKey m) c) as (c' & ? & ? & ? & Hedge & ?); [done..|].
    exists c'. split_and!; [done..| |done]. intros x y. rewrite Hedge, list_elem_of_singleton. naive_solver.
Qed.

Lemma modify_cosigners_spec mode account modifications c :
  is_Some (c !! account) → wf_but account c → applicable mode account modifications c →
  ∃ c', for_each (modify_cosigner mode account) modifications c = (c', Ok tt) ∧ wf_but account c' ∧ is_Some (c' !! account)
  ∧ toggled account (keys_of modifications) c c' ∧ (∀ k, mins c' k = mins c k).
Proof.
  revert c. induction modifications as [|m modifications IH]; intros c Hacc Hwf [Hnd Hother Hlink].
  { exists c. split_and!; [done..| |done]. intros x y. simpl. set_solver. }
  apply NoDup_cons in Hnd as [Hm Hnd]. apply not_elem_of_cons in Hother as [Hne Hother].
  destruct (modify_cosigner_spec mode account m c) as (c1 & H1 & Hwf1 & Hacc1 & Ht1 & Hmins1); [done..|apply Hlink; by left|].
  destruct (IH c1) as (c' & H' & Hwf' & Hacc' & Ht' & Hmins'); [done..| |].
  { split; [done..|]. intros m' Hm'. rewrite Hlink by (by right). rewrite (Ht1 account), list_elem_of_singleton.
    assert (CosignatoryPublicKey m' ≠ CosignatoryPublicKey m); [|tauto]. intros Heq. apply Hm. rewrite <- Heq. by apply list_elem_of_fmap_2. }
  exists c'. split_and!; [cbn [for_each]; by rewrite (run_bind _ _ _ _ _ H1)|done..| |by intros k; rewrite Hmins'].
  intros x y. rewrite (Ht' x y), !(Ht1 x y), list_elem_of_singleton, fmap_cons, elem_of_cons.
  destruct (decide (y = CosignatoryPublicKey m)) as [->|]; [|tauto]. tauto.
Qed.

(** Changes that keep the links. *)
Definition same_links c c' : Prop := ∀ k, from_option m_cosignatories ∅ (c' !! k) = from_option m_cosignatories ∅ (c !! k)
  ∧ from_option m_multisigAccounts ∅ (c' !! k) = from_option m_multisigAccounts ∅ (c !! k).

Lemma same_links_edge c c' x y : same_links c c' → edge c' x y ↔ edge c x y.
Proof. intros H. rewrite !linked_lookup. by rewrite (proj1 (H x)). Qed.

Lemma same_links_wf account c c' :
  same_links c c' → (∀ k e, c' !! k = Some e → m_key e = k) → (∀ k, k ≠ account → c' !! k = c !! k) → wf_but account c → wf_but account c'.
Proof.
  intros Hl Hk Hc [Hkey Hsym Hused Hidle]. split; [done|..].
  - intros a b. rewrite (same_links_edge c c') by done. rewrite Hsym, !linked_lookup. by rewrite (proj2 (Hl b)).
  - intros k e He Hka. rewrite Hc in He by done. eauto.
  - intros k Hka Hp. unfold mins. rewrite Hc by done. apply Hidle; [done|]. intros y. rewrite <- (same_links_edge c c') by done. apply Hp.
Qed.

Lemma GetMultisigEntry_spec account c :
  wf_but account c → wf_but account (GetMultisigEntry account c) ∧ is_Some (GetMultisigEntry account c !! account)
  ∧ same_links c (GetMultisigEntry account c) ∧ (∀ k, mins (GetMultisigEntry account c) k = mins c k).
Proof.
  intros Hwf. assert (same_links c (GetMultisigEntry account c)) as Hl.
  { intros k. rewrite lookup_GetMultisigEntry. destruct (decide (k = account)) as [->|]; [by destruct (c !! account)|done]. }
  split_and!; [|rewrite lookup_GetMultisigEntry, decide_True by done; by eexists|done|].
  - apply same_links_wf with c; [done|..|done]; [|by intros k ?; rewrite lookup_GetMultisigEntry, decide_False].
    intros k e. rewrite lookup_GetMultisigEntry. destruct (decide (k = account)) as [->|]; [|by apply Hwf].
    intros [= <-]. destruct (c !! account) eqn:He; [by eapply but_key|done].
  - intros k. unfold mins. rewrite lookup_GetMultisigEntry. destruct (decide (k = account)) as [->|]; [by destruct (c !! account)|done].
Qed.

(** Settings survive where the entry does. *)
Definition mins_kept (account : Key) c c' : Prop := ∀ k, k ≠ account ∨ is_Some (c' !! account) → mins c' k = mins c k.

Lemma removeIfEmpty_spec account c :
  wf_but account c → is_Some (c !! account) →
  ∃ c', removeIfEmpty account c = (c', Ok tt) ∧ wf_but account c' ∧ graph_wf c' ∧ same_links c c' ∧ mins_kept account c c'.
Proof.
  intros Hwf [e He]. destruct (removeIfEmpty_lookup account c e He) as (c' & Hrun & Hc'). exists c'.
  assert (same_links c c') as Hl.
  { intros k. rewrite Hc'. destruct (decide (k = account)) as [->|]; [|done]. rewrite He. case_decide as Hempty; [|done].
    simpl. by destruct Hempty as [-> ->]. }
  assert (wf_but account c') as Hwf'.
  { apply same_links_wf with c; [done|..|done]; [|by intros k ?; rewrite Hc', decide_False].
    intros k e'. rewrite Hc'. destruct (decide (k = account)) as [->|]; [|by apply Hwf].
    case_decide; [done|]. intros [= <-]. by eapply but_key. }
  split_and!; [done..| |done|].
  - split; [apply Hwf'|apply Hwf'|]. intros k e' Hk. destruct (decide (k = account)) as [->|]; [|by eapply but_used].
    rewrite Hc', decide_True in Hk by done. case_decide as Hempty; [done|]. simplify_eq.
    destruct (decide (m_cosignatories e' = ∅)); [right; intros ?; by apply Hempty|by left].
  - intros k Hk. unfold mins. rewrite Hc'. destruct (decide (k = account)) as [->|]; [|done]. destruct Hk as [|Hk]; [done|].
    rewrite Hc', decide_True in Hk by done. rewrite He. case_decide; [by destruct Hk|done].
Qed.

Lemma cosigners_observer_spec mode n c :
  wf_but (cn_Signer n) c → applicable mode (cn_Signer n) (cn_Modifications n) c →
  ∃ c', ModifyMultisigCosignersObserver n mode c = (c', Ok tt) ∧ wf_but (cn_Signer n) c' ∧ graph_wf c'
  ∧ toggled (cn_Signer n) (keys_of (cn_Modifications n)) c c' ∧ mins_kept (cn_Signer n) c c'.
Proof.
  intros Hwf [Hnd Hother Hlink]. destruct n as [A mods allow]. cbn [cn_Signer cn_Modifications] in *. unfold ModifyMultisigCosignersObserver. cbn [cn_Signer cn_Modifications].
  destruct (GetMultisigEntry_spec A c Hwf) as (Hwf1 & Hacc1 & Hl1 & Hm1).
  destruct (modify_cosigners_spec mode A mods (GetMultisigEntry A c)) as (c2 & -> & Hwf2 & Hacc2 & Ht2 & Hm2); [done..| |].
  { split; [done..|]. intros m Hm. rewrite (same_links_edge c) by done. by apply Hlink. }
  destruct (removeIfEmpty_spec A c2 Hwf2 Hacc2) as (c3 & -> & Hwf3 & Hg3 & Hl3 & Hm3).
  exists c3. split_and!; [done..| |].
  - intros x y. rewrite (same_links_edge c2) by done. rewrite (Ht2 x y). by rewrite !(same_links_edge c) by done.
  - intros k Hk. by rewrite Hm3, Hm2, Hm1.
Qed.

(** * The observer of settings *)

Definition settings_changed (n : SettingsNotification) (direction : Z) (m : Z * Z) : Z * Z :=
  (AddDelta m.1 (direction * sn_MinApprovalDelta n), AddDelta m.2 (direction * sn_MinRemovalDelta n)).

Lemma settings_commit_spec n c :
  ModifyMultisigSettingsObserver n Commit c
  = alter (λ e, setMin (AddDelta (m_minApproval e) (sn_MinApprovalDelta n)) (AddDelta (m_minRemoval e) (sn_MinRemovalDelta n)) e) (sn_Signer n) c.
Proof.
  unfold ModifyMultisigSettingsObserver, contains. case_bool_decide as Hc; cbn [negb andb].
  - by rewrite !Z.mul_1_l.
  - apply eq_None_not_Some in Hc. symmetry. by apply alter_id'.
Qed.

(** Caches are determined by their links and settings. *)
Lemma graph_wf_ext c c' : graph_wf c → graph_wf c' → (∀ x y, edge c x y ↔ edge c' x y) → (∀ k, mins c k = mins c' k) → c = c'.
Proof.
  assert (∀ c c' k e, graph_wf c → graph_wf c' → (∀ x y, edge c x y ↔ edge c' x y) → (∀ k, mins c k = mins c' k) →
    c !! k = Some e → c' !! k = Some e) as Hhalf.
  { clear. intros c c' k e Hwf Hwf' Hedge Hmins He.
    assert (∀ y, edge c k y ↔ y ∈ m_cosignatories e) as Hout by (intros y; by rewrite linked_lookup, He).
    assert (∀ y, edge c y k ↔ y ∈ m_multisigAccounts e) as Hin by (intros y; by rewrite (wf_symmetric c Hwf), linked_lookup, He).
    assert (is_Some (c' !! k)) as [e' He'].
    { destruct (wf_used c Hwf k e He) as [Hne|Hne]; apply set_choose_L in Hne as [y Hy].
      - apply Hout, Hedge in Hy as (e' & ? & _). by eexists.
      - apply Hin, Hedge, (wf_symmetric c' Hwf') in Hy as (e' & ? & _). by eexists. }
    rewrite He'. f_equal. destruct e as [key cs ma mr ms], e' as [key' cs' ma' mr' ms'].
    pose proof (wf_key c Hwf k _ He) as Hkey. pose proof (wf_key c' Hwf' k _ He') as Hkey'. simpl in *. subst.
    specialize (Hmins k). unfold mins in Hmins. rewrite He, He' in Hmins. simpl in Hmins. simplify_eq. f_equal; apply set_eq; intros y.
    - by rewrite <- Hout, Hedge, linked_lookup, He'.
    - by rewrite <- Hin, Hedge, (wf_symmetric c' Hwf'), linked_lookup, He'. }
  intros Hwf Hwf' Hedge Hmins. apply map_eq. intros k. destruct (c !! k) as [e|] eqn:He; [symmetry; exact (Hhalf c c' k e Hwf Hwf' Hedge Hmins He)|].
  destruct (c' !! k) as [e'|] eqn:He'; [|done]. rewrite <- He. by apply (Hhalf c' c k e' Hwf' Hwf).
Qed.

(** * The invariant of the cache *)

Definition cosignatories_of c (k : Key) : gset Key := from_option m_cosignatories ∅ (c !! k).
Definition multisigAccounts_of c (k : Key) : gset Key := from_option m_multisigAccounts ∅ (c !! k).

(** An account needs approvals of some, and not more than all, cosignatories. *)
Definition settings_ok (m : Z * Z) (cosignatories : gset Key) : Prop :=
  if decide (cosignatories = ∅) then m = (0, 0)
  else 1 ≤ m.1 ≤ Z.of_nat (size cosignatories) ∧ 1 ≤ m.2 ≤ Z.of_nat (size cosignatories).

Record links_wf (config : MultisigConfiguration) c : Prop := {
  links_graph : graph_wf c;
  links_depth : bounded (MaxMultisigDepth config) c;
  links_cosigners k : Z.of_nat (size (cosignatories_of c k)) ≤ MaxCosignersPerAccount config;
  links_cosigned k : Z.of_nat (size (multisigAccounts_of c k)) ≤ MaxCosignedAccountsPerAccount config;
}.

Record multisig_wf (config : MultisigConfiguration) c : Prop := {
  wf_links : links_wf config c;
  wf_settings k : settings_ok (mins c k) (cosignatories_of c k);
}.

(** The number of cosigners is a byte; a limit of no cosigned accounts would not
    be enforced for accounts without an entry. *)
Definition config_ok (config : MultisigConfiguration) : Prop :=
  MaxCosignersPerAccount config ≤ 255 ∧ 1 ≤ MaxCosignedAccountsPerAccount config.

Lemma plain_cosignatories c k : plain c k ↔ cosignatories_of c k = ∅.
Proof. rewrite plain_lookup. unfold cosignatories_of. destruct (c !! k); simpl; naive_solver. Qed.

Lemma wf_idle config c : multisig_wf config c → idle c.
Proof. intros [_ Hs] k Hk%plain_cosignatories. specialize (Hs k). unfold settings_ok in Hs. by rewrite decide_True in Hs. Qed.

(** * New links *)

(** A path through a new link has one new link only. *)
Lemma path_split c c' A (new : Key → Prop) n x y :
  (∀ x y, edge c' x y → edge c x y ∨ (x = A ∧ new y)) → (∀ y, new y → ¬ rtc (edge c) y A) →
  nsteps (edge c') n x y →
  nsteps (edge c) n x y ∨ ∃ i j b, new b ∧ nsteps (edge c) i x A ∧ nsteps (edge c) j b y ∧ n = (i + 1 + j)%nat.
Proof.
  intros Hedge Hloop. induction 1 as [x|n x z y Hxz _ IH]; [left; constructor|].
  destruct (Hedge _ _ Hxz) as [Hold|[-> Hz]].
  - destruct IH as [IH|(i & j & b & Hb & Hi & Hj & ->)]; [left; by eapply nsteps_l|right].
    exists (S i), j, b. split_and!; [done|by eapply nsteps_l|done|lia].
  - destruct IH as [IH|(i & j & b & Hb & Hi & Hj & ->)].
    + right. exists 0%nat, n, z. split_and!; [done|constructor|done|lia].
    + destruct (Hloop z Hz). by eapply rtc_nsteps_2.
Qed.

(** The conditions of the checker of loops and levels. *)
Definition link_allowed (depth : Z) c (A b : Key) : Prop :=
  (∀ i j x y, nsteps (edge c) i x A → nsteps (edge c) j b y → Z.of_nat (i + 1 + j) ≤ depth) ∧ ¬ rtc (edge c) b A.

Lemma toggled_bounded depth A keys c c' :
  bounded depth c → toggled A keys c c' → (∀ b, b ∈ keys → ¬ edge c A b → link_allowed depth c A b) → bounded depth c'.
Proof.
  intros Hb Ht Hall n x y Hn. eapply (path_split c c' A (λ b, b ∈ keys ∧ ¬ edge c A b)) in Hn as [Hn|(i & j & b & [Hk Hne] & Hi & Hj & ->)].
  - by apply Hb in Hn.
  - by eapply Hall.
  - intros a b Hab%Ht. naive_solver.
  - intros b [Hk Hne]. by apply Hall.
Qed.

Lemma is_add_commit m : is_add Commit m ↔ ModificationType_Add = ModificationType m.
Proof. unfold is_add. rewrite (bool_decide_true (Commit = Commit)) by done. by case_bool_decide. Qed.

(** The validator of the number of cosigners counts the cosignatories to come. *)
Lemma count_cosigners_spec (modifications : list CosignatoryModification) (X : gset Key) :
  NoDup (keys_of modifications) → (∀ m, m ∈ modifications → is_add Commit m ↔ CosignatoryPublicKey m ∉ X) →
  Z.of_nat (size X) + Z.of_nat (length modifications) < 2 ^ 64 →
  ∃ X' : gset Key, count_cosigners (Z.of_nat (size X)) modifications = Z.of_nat (size X')
  ∧ ∀ y, y ∈ X' ↔ (y ∈ keys_of modifications ∧ y ∉ X) ∨ (y ∈ X ∧ y ∉ keys_of modifications).
Proof.
  revert X. induction modifications as [|m modifications IH]; intros X Hnd Hadd Hsize; [exists X; split; [done|set_solver]|].
  apply NoDup_cons in Hnd as [Hm Hnd]. pose proof (Hadd m ltac:(by left)) as Hadd1. rewrite is_add_commit in Hadd1. cbn [length] in Hsize.
  set (X1 := if bool_decide (ModificationType_Add = ModificationType m) then {[ CosignatoryPublicKey m ]} ∪ X else X ∖ {[ CosignatoryPublicKey m ]}).
  assert (Z.of_nat (size X1) = (if bool_decide (ModificationType_Add = ModificationType m) then u64 (Z.of_nat (size X) + 1) else u64 (Z.of_nat (size X) - 1))
    ∧ Z.of_nat (size X1) ≤ Z.of_nat (size X) + 1) as [Hs1 Hle].
  { unfold X1, u64. case_bool_decide.
    - rewrite size_union, size_singleton by (apply disjoint_singleton_l; tauto). rewrite Z.mod_small by lia. lia.
    - assert (CosignatoryPublicKey m ∈ X) as Hin by (destruct (decide (CosignatoryPublicKey m ∈ X)); tauto).
      assert (size X ≠ O) by (intros ?%size_empty_inv; set_solver).
      rewrite size_difference, size_singleton by set_solver. rewrite Z.mod_small by lia. lia. }
  destruct (IH X1) as (X' & HX' & Hy); [done| |lia|].
  - intros m' Hm'. rewrite Hadd by (by right). assert (CosignatoryPublicKey m' ≠ CosignatoryPublicKey m).
    { intros Heq. apply Hm. rewrite <- Heq. by apply list_elem_of_fmap_2. }
    unfold X1. case_bool_decide; set_solver.
  - exists X'. split.
    + unfold count_cosigners in *. cbn [foldl]. by rewrite <- Hs1.
    + intros y. rewrite Hy, fmap_cons, elem_of_cons. unfold X1. case_bool_decide; destruct (decide (y = CosignatoryPublicKey m)) as [->|]; set_solver.
Qed.

(** * What the validators ensure *)

Lemma sort_modifications_spec (modifications : list CosignatoryModification) (a r a' r' : gset Key) :
  sort_modifications modifications a r = inr (a', r') →
  Forall (λ m, ModificationType m = ModificationType_Add ∨ ModificationType m = ModificationType_Del) modifications
  ∧ (size a' + size r' ≤ size a + size r + length modifications)%nat
  ∧ ((size a' + size r' = size a + size r + length modifications)%nat →
       NoDup (keys_of modifications) ∧ ∀ k, k ∈ keys_of modifications → k ∉ a ∪ r).
Proof.
  revert a r. induction modifications as [|m modifications IH]; intros a r; cbn [sort_modifications].
  { intros [= <- <-]. split_and!; [constructor|simpl; lia|]. intros _. split; [constructor|by intros ? ?%not_elem_of_nil]. }
  destruct (negb _) eqn:Htype; [done|]. apply negb_false_iff, orb_true_iff in Htype. rewrite !bool_decide_eq_true in Htype.
  set (k := CosignatoryPublicKey m).
  assert (∀ a1 r1 : gset Key, sort_modifications modifications a1 r1 = inr (a', r') →
    (size a1 + size r1 ≤ S (size a + size r))%nat → a1 ∪ r1 = {[ k ]} ∪ (a ∪ r) → (k ∈ a ∪ r → (size a1 + size r1 ≤ size a + size r)%nat) →
    Forall (λ m, ModificationType m = ModificationType_Add ∨ ModificationType m = ModificationType_Del) (m :: modifications)
    ∧ (size a' + size r' ≤ size a + size r + length (m :: modifications))%nat
    ∧ ((size a' + size r' = size a + size r + length (m :: modifications))%nat →
         NoDup (keys_of (m :: modifications)) ∧ ∀ k, k ∈ keys_of (m :: modifications) → k ∉ a ∪ r)) as Hstep.
  { intros a1 r1 (Hall & Hle & Heq)%IH Hs Hu Hfresh. cbn [length]. split_and!; [constructor; [naive_solver|done]|lia|].
    intros Hsum. destruct Heq as [Hnd Hnew]; [lia|]. assert (k ∉ a ∪ r) as Hk by (intros ?%Hfresh; lia).
    rewrite Hu in Hnew. rewrite fmap_cons. split; [constructor; [|done]; intros ?%Hnew; set_solver|]. intros k' [->|Hk']%elem_of_cons; [done|].
    apply Hnew in Hk'. set_solver. }
  assert (∀ X : gset Key, (size ({[ k ]} ∪ X) ≤ S (size X))%nat ∧ (k ∈ X → size ({[ k ]} ∪ X) = size X)) as Hsize.
  { intros X. split; [|intros ?; f_equal; set_solver]. rewrite size_union_alt, size_singleton.
    assert (size (X ∖ {[ k ]}) ≤ size X)%nat by (apply subseteq_size; set_solver). lia. }
  destruct (Hsize a) as [Ha Ha'], (Hsize r) as [Hr Hr']. destruct (bool_decide (_ = _));
    (case_bool_decide as Hin; [done|]); intros Hsort; apply (Hstep _ _ Hsort); [lia|by rewrite (assoc_L (∪))| |lia|by rewrite !(assoc_L (∪)), (comm_L (∪) a)| ].
  - intros [Hk|?]%elem_of_union; [|done]. by rewrite (Ha' Hk).
  - intros [?|Hk]%elem_of_union; [done|]. by rewrite (Hr' Hk).
Qed.

(** The stateless validator accepts modifications of distinct accounts only. *)
Lemma ModifyMultisigCosigners_success n :
  ModifyMultisigCosigners n = Success →
  NoDup (keys_of (cn_Modifications n))
  ∧ Forall (λ m, ModificationType m = ModificationType_Add ∨ ModificationType m = ModificationType_Del) (cn_Modifications n).
Proof.
  unfold ModifyMultisigCosigners. destruct (sort_modifications _ _ _) as [failure|[a r]] eqn:Hsort.
  { intros ->. exfalso. revert Hsort. generalize (∅ : gset Key) at 1. generalize (∅ : gset Key). generalize (cn_Modifications n).
    induction l as [|m l IH]; intros r a; cbn [sort_modifications]; [done|]. repeat case_match; eauto; done. }
  apply sort_modifications_spec in Hsort as (Hall & _ & Heq). rewrite size_empty in Heq.
  destruct (_ && _); [done|]. destruct (negb _) eqn:Hlen; [done|]. intros _. apply negb_false_iff, Z.eqb_eq in Hlen.
  split; [|done]. apply Heq. lia.
Qed.

Lemma ModifyMultisigInvalidCosigners_success n c :
  Forall (λ m, ModificationType m = ModificationType_Add ∨ ModificationType m = ModificationType_Del) (cn_Modifications n) →
  ModifyMultisigInvalidCosigners n c = Success →
  ∀ m, m ∈ cn_Modifications n → is_add Commit m ↔ ¬ edge c (cn_Signer n) (CosignatoryPublicKey m).
Proof.
  intros Htypes Hs m Hm. rewrite is_add_commit, linked_lookup. unfold ModifyMultisigInvalidCosigners in Hs. destruct (c !! cn_Signer n) as [e|].
  - clear Htypes. revert Hs Hm. induction (cn_Modifications n) as [|m' l IH]; intros Hs Hm; [by apply not_elem_of_nil in Hm|].
    cbn in Hs. destruct (negb _ && negb _) eqn:H1; [done|]. destruct (_ && _) eqn:H2 in Hs; [done|].
    apply elem_of_cons in Hm as [->|Hm]; [|by apply IH]. clear -H1 H2. unfold hasCosignatory in *. simpl.
    do 2 case_bool_decide; simpl in *; naive_solver.
  - destruct (existsb _ _) eqn:Hex; [done|]. apply not_true_iff_false in Hex. split; [set_solver|]. intros _.
    rewrite Forall_forall in Htypes. destruct (Htypes m Hm) as [|Hdel]; [done|]. destruct Hex. apply existsb_exists.
    exists m. split; [by apply list_elem_of_In|by apply bool_decide_eq_true].
Qed.

Lemma LoopAndLevel_verdict config n c r : ModifyMultisigLoopAndLevel config n c = Ok r → verdict r.
Proof. unfold ModifyMultisigLoopAndLevel, verdict. repeat case_match; intros [= <-]; auto. Qed.

Lemma MaxCosignedAccounts_verdict config n c : verdict (ModifyMultisigMaxCosignedAccounts config n c).
Proof. unfold ModifyMultisigMaxCosignedAccounts, verdict. repeat case_match; auto. Qed.

Lemma MaxCosigners_verdict config n c : verdict (ModifyMultisigMaxCosigners config n c).
Proof. unfold ModifyMultisigMaxCosigners, verdict. repeat case_match; auto. Qed.

Lemma InvalidCosigners_verdict n c : verdict (ModifyMultisigInvalidCosigners n c).
Proof.
  unfold ModifyMultisigInvalidCosigners, verdict. destruct (c !! _) as [e|]; [|case_match; auto].
  induction (cn_Modifications n) as [|m l IH]; [by left|]. cbn. do 2 (case_match; [by right|]). done.
Qed.

Lemma InvalidSettings_verdict n c : verdict (ModifyMultisigInvalidSettings n c).
Proof. unfold ModifyMultisigInvalidSettings, verdict. repeat case_match; auto. Qed.

(** * Processing *)

Section process.
Context {CatapultState StatementBuilder : Type}.
Abbreviation State := (ObserverState MultisigNotification MultisigCacheDelta CatapultState StatementBuilder).
Context (v : ValidatorContext MultisigConfiguration) (context : ObserverContext MultisigConfiguration) (Hmode : oc_Mode context = Commit).
Implicit Types (s : State) (sub : Subscriber MultisigNotification).

Abbreviation validate := (AggregateValidator NotificationType multisig_validators (λ _, false)).
Abbreviation observe := (AggregateObserver NotificationType (multisig_observers (CatapultState := CatapultState) (StatementBuilder := StatementBuilder))).
Abbreviation notify := (sub_notify NotificationType (λ _, sizeof_Notification) validate v observe context).
Abbreviation succeeded sub := (IsValidationResultSuccess (m_aggregateResult sub) = true).

(** What the validators of each notification say. *)
Lemma validate_new_cosigner n c :
  graph_wf c → acyclic m_cosignatories c →
  ∃ r, validate v (NewCosigner n) c = Ok r ∧ verdict r ∧
    (r = Success → ModifyMultisigMaxCosignedAccounts (vc_Config v) n c = Success ∧ ModifyMultisigLoopAndLevel (vc_Config v) n c = Ok Success).
Proof.
  intros Hwf Hac. destruct (validate_all_verdict v
    [new_cosigner_validator (λ config n c, Ok (ModifyMultisigMaxCosignedAccounts config n c)); new_cosigner_validator ModifyMultisigLoopAndLevel]
    (NewCosigner n) c) as (r & Hr & Hv & Hs).
  - destruct (LoopAndLevel_spec (vc_Config v) n c Hwf Hac) as (r & Hr & _).
    repeat constructor; eexists; (split; [done|]); [apply MaxCosignedAccounts_verdict|by eapply LoopAndLevel_verdict].
  - exists r. split_and!; [exact Hr|done|]. intros [H1 [H2 _]%Forall_cons]%Hs%Forall_cons. by injection H1.
Qed.

Lemma validate_cosigners n c :
  ∃ r, validate v (ModifyCosigners n) c = Ok r ∧ verdict r ∧
    (r = Success → ModifyMultisigMaxCosigners (vc_Config v) n c = Success ∧ ModifyMultisigInvalidCosigners n c = Success).
Proof.
  destruct (validate_all_verdict v
    [cosigners_validator ModifyMultisigMaxCosigners; cosigners_validator (λ _, ModifyMultisigInvalidCosigners)] (ModifyCosigners n) c) as (r & Hr & Hv & Hs).
  - repeat constructor; eexists; (split; [done|]); [apply MaxCosigners_verdict|apply InvalidCosigners_verdict].
  - exists r. split_and!; [exact Hr|done|]. intros [H1 [H2 _]%Forall_cons]%Hs%Forall_cons. injection H1. injection H2. done.
Qed.

Lemma validate_settings n c :
  ∃ r, validate v (ModifySettings n) c = Ok r ∧ verdict r ∧ (r = Success → ModifyMultisigInvalidSettings n c = Success).
Proof.
  destruct (validate_all_verdict v [settings_validator ModifyMultisigInvalidSettings] (ModifySettings n) c) as (r & Hr & Hv & Hs).
  - repeat constructor; eexists; (split; [done|]); apply InvalidSettings_verdict.
  - exists r. split_and!; [exact Hr|done|]. intros [H1 _]%Hs%Forall_cons. by injection H1.
Qed.

Definition with_cache (c : MultisigCacheDelta) s : State :=
  {| os_Cache := c; os_State := os_State s; os_BlockStatementBuilder := os_BlockStatementBuilder s; os_Notifications := os_Notifications s |}.

Lemma observe_cosigners (ctx : ObserverContext MultisigConfiguration) n s c' :
  ModifyMultisigCosignersObserver n (oc_Mode ctx) (os_Cache s) = (c', Ok tt) →
  observe ctx (ModifyCosigners n) s = (with_cache c' s, Ok tt).
Proof.
  intros Hrun. assert (cosigners_observer ctx (ModifyCosigners n) s = (with_cache c' s, Ok tt)) as Hon.
  { unfold cosigners_observer, on_multisig_cache. by rewrite Hrun. }
  transitivity (for_each (λ o, o ctx (ModifyCosigners n)) [cosigners_observer] s); [unfold AggregateObserver; by destruct (oc_Mode ctx)|].
  cbn [for_each]. by rewrite (run_bind _ _ _ _ _ Hon).
Qed.

Lemma observe_settings (ctx : ObserverContext MultisigConfiguration) n s :
  observe ctx (ModifySettings n) s = (with_cache (ModifyMultisigSettingsObserver n (oc_Mode ctx) (os_Cache s)) s, Ok tt).
Proof.
  transitivity (for_each (λ o, o ctx (ModifySettings n)) [settings_observer] s); [unfold AggregateObserver; by destruct (oc_Mode ctx)|done].
Qed.

(** A notification that no observer of the plugin handles. *)
Definition quiet (n : MultisigNotification) : bool := match n with ModifyCosigners _ | ModifySettings _ => false | _ => true end.

Lemma observe_quiet ctx n s : quiet n = true → observe ctx n s = (s, Ok tt).
Proof. by destruct n. Qed.

Lemma notify_ignored ns sub s : ¬ succeeded sub → for_each notify ns (sub, s) = ((sub, s), Ok tt).
Proof. intros Hs. apply for_each_notify_failed; [done|]. by apply Forall_forall. Qed.

Lemma notify_quiet ns sub s :
  succeeded sub → Forall (λ n, quiet n = true ∧ ∃ r, validate v n (os_Cache s) = Ok r ∧ verdict r) ns →
  ∃ sub', for_each notify ns (sub, s) = ((sub', s), Ok tt)
  ∧ (succeeded sub' → ∀ n, n ∈ ns → IsSet (NotificationType n) Channel_Validator = true → validate v n (os_Cache s) = Ok Success).
Proof.
  intros Hsub Hall. revert sub Hsub. induction Hall as [|n ns [Hq Hr] _ IH]; intros sub Hsub; [exists sub; split; [done|]; by intros _ n ?%not_elem_of_nil|].
  cbn [for_each]. destruct (notify_spec NotificationType (λ _, sizeof_Notification) validate v observe context n sub s Hsub eq_refl Hr) as [(sub1 & H1 & Hf)|[Hpass Hobs]].
  - exists sub1. rewrite (run_bind _ _ _ _ _ H1), notify_ignored by done. by split.
  - destruct (Hobs s (observe_quiet context n s Hq) (or_intror eq_refl)) as (sub1 & H1 & Hs1). destruct (IH sub1 Hs1) as (sub' & H' & Hall').
    exists sub'. rewrite (run_bind _ _ _ _ _ H1). split; [done|]. intros Hs' n' [->|Hn]%elem_of_cons; [done|]. by apply Hall'.
Qed.

End process.

(** * Accepted modifications *)

Section accepted.
Context (config : MultisigConfiguration) (n : CosignersNotification) (c : MultisigCacheDelta).
Abbreviation A := (cn_Signer n).
Abbreviation modifications := (cn_Modifications n).

(** The verdicts of all validators on the modifications of a transaction. *)
Record cosigners_accepted : Prop := {
  accepted_config : config_ok config;
  accepted_wf : links_wf config c;
  accepted_count : Z.of_nat (length modifications) ≤ 255;
  accepted_stateless : ModifyMultisigCosigners n = Success;
  accepted_new m : m ∈ modifications → is_add Commit m →
    let link := {| nc_MultisigAccountKey := A; nc_CosignatoryKey := CosignatoryPublicKey m |} in
    ModifyMultisigMaxCosignedAccounts config link c = Success ∧ ModifyMultisigLoopAndLevel config link c = Ok Success;
  accepted_max : ModifyMultisigMaxCosigners config n c = Success;
  accepted_cosigners : ModifyMultisigInvalidCosigners n c = Success;
}.

Context (Hacc : cosigners_accepted).

Lemma accepted_acyclic : acyclic m_cosignatories c.
Proof. eapply bounded_acyclic, links_depth. apply Hacc. Qed.

Lemma accepted_link m :
  m ∈ modifications → is_add Commit m ↔ ¬ edge c A (CosignatoryPublicKey m).
Proof. apply ModifyMultisigInvalidCosigners_success; [|apply Hacc]. apply ModifyMultisigCosigners_success, Hacc. Qed.

Lemma accepted_allowed m : m ∈ modifications → is_add Commit m → link_allowed (MaxMultisigDepth config) c A (CosignatoryPublicKey m).
Proof.
  intros Hm Hadd. destruct (accepted_new Hacc m Hm Hadd) as [_ Hloop].
  destruct (LoopAndLevel_spec config {| nc_MultisigAccountKey := A; nc_CosignatoryKey := CosignatoryPublicKey m |} c) as (r & Hr & Hs).
  - apply (links_graph config), Hacc.
  - apply accepted_acyclic.
  - cbn zeta in Hloop. rewrite Hr in Hloop. injection Hloop as ->. by apply Hs.
Qed.

Lemma accepted_applicable : applicable Commit A modifications c.
Proof.
  split; [apply ModifyMultisigCosigners_success, Hacc| |apply accepted_link].
  intros (m & Hm & Hin)%list_elem_of_fmap. destruct (decide (edge c A (CosignatoryPublicKey m))) as [He|He].
  - apply (accepted_acyclic A). rewrite <- Hm in He. by apply tc_once.
  - apply accepted_link in He; [|done]. destruct (accepted_allowed m Hin He) as [_ []]. by rewrite Hm.
Qed.

Lemma toggled_size c' :
  graph_wf c' → toggled A (keys_of modifications) c c' → ∀ k, Z.of_nat (size (cosignatories_of c' k)) ≤ MaxCosignersPerAccount config.
Proof.
  intros Hwf Ht k. pose proof (accepted_wf Hacc) as Hlinks. destruct (decide (k = A)) as [->|Hk]; last first.
  { replace (cosignatories_of c' k) with (cosignatories_of c k); [by apply Hlinks|]. apply set_eq. intros y.
    unfold cosignatories_of. rewrite <- !linked_lookup, (Ht k y). tauto. }
  destruct (count_cosigners_spec modifications (cosignatories_of c A)) as (X & HX & Hin).
  - apply accepted_applicable.
  - intros m Hm. rewrite accepted_link by done. by rewrite linked_lookup.
  - pose proof (links_cosigners _ _ Hlinks A). pose proof (accepted_count Hacc). destruct (accepted_config Hacc). lia.
  - replace (cosignatories_of c' A) with X.
    + pose proof (accepted_max Hacc) as Hmax. unfold ModifyMultisigMaxCosigners in Hmax.
      replace (match c !! A with Some e => Z.of_nat (size (m_cosignatories e)) | None => 0 end) with (Z.of_nat (size (cosignatories_of c A))) in Hmax
        by (unfold cosignatories_of; by destruct (c !! A)).
      rewrite HX in Hmax. destruct (Z.ltb_spec (MaxCosignersPerAccount config) (Z.of_nat (size X))); [done|lia].
    + apply set_eq. intros y. rewrite Hin. unfold cosignatories_of. rewrite <- !linked_lookup, (Ht A y). tauto.
Qed.

Lemma toggled_cosigned c' :
  graph_wf c' → toggled A (keys_of modifications) c c' → ∀ k, Z.of_nat (size (multisigAccounts_of c' k)) ≤ MaxCosignedAccountsPerAccount config.
Proof.
  intros Hwf Ht k. pose proof (accepted_wf Hacc) as Hlinks. pose proof (links_cosigned _ _ Hlinks k) as Hk.
  assert (∀ y, y ∈ multisigAccounts_of c' k → y ∈ multisigAccounts_of c k ∨ (y = A ∧ k ∈ keys_of modifications ∧ ¬ edge c A k)) as Hnew.
  { intros y. unfold multisigAccounts_of. rewrite <- !linked_lookup, <- !wf_symmetric by (done || apply Hlinks). rewrite (Ht y k). naive_solver. }
  destruct (decide (k ∈ keys_of modifications ∧ ¬ edge c A k)) as [[(m & -> & Hm)%list_elem_of_fmap Hne]|Hno].
  - assert (multisigAccounts_of c' (CosignatoryPublicKey m) ⊆ {[ A ]} ∪ multisigAccounts_of c (CosignatoryPublicKey m)) as Hsub%subseteq_size.
    { intros y [?|[-> _]]%Hnew; set_solver. }
    assert (size ({[ A ]} ∪ multisigAccounts_of c (CosignatoryPublicKey m)) ≤ S (size (multisigAccounts_of c (CosignatoryPublicKey m))))%nat as Hs.
    { rewrite size_union_alt, size_singleton. assert (size (multisigAccounts_of c (CosignatoryPublicKey m) ∖ {[ A ]}) ≤ size (multisigAccounts_of c (CosignatoryPublicKey m)))%nat
        by (apply subseteq_size; set_solver). lia. }
    destruct (accepted_new Hacc m Hm) as [Hmax _]; [by apply accepted_link|]. unfold ModifyMultisigMaxCosignedAccounts in Hmax.
    cbn [nc_CosignatoryKey] in Hmax. unfold multisigAccounts_of in *. destruct (c !! CosignatoryPublicKey m) as [e|]; cbn [from_option] in *.
    + destruct (Z.leb_spec (MaxCosignedAccountsPerAccount config) (Z.of_nat (size (m_multisigAccounts e)))); [done|lia].
    + rewrite size_empty in Hs. destruct (accepted_config Hacc). lia.
  - assert (multisigAccounts_of c' k ⊆ multisigAccounts_of c k) as Hsub%subseteq_size; [|lia]. intros y [?|[-> ?]]%Hnew; [done|]. tauto.
Qed.

(** The observer succeeds and keeps the links well-formed. *)
Lemma accepted_observed :
  idle c → ∃ c', ModifyMultisigCosignersObserver n Commit c = (c', Ok tt) ∧ links_wf config c' ∧ wf_but A c'
  ∧ toggled A (keys_of modifications) c c' ∧ mins_kept A c c'.
Proof.
  intros Hidle. destruct (cosigners_observer_spec Commit n c) as (c' & Hrun & Hbut & Hgraph & Ht & Hkept).
  - apply graph_wf_but; [|done]. apply (links_graph config), Hacc.
  - apply accepted_applicable.
  - exists c'. split_and!; [done| |done..]. split; [done| |by apply toggled_size|by apply toggled_cosigned].
    apply (toggled_bounded _ A (keys_of modifications) c); [apply Hacc|done|].
    intros b (m & -> & Hm)%list_elem_of_fmap Hne. apply accepted_allowed; [done|]. by apply accepted_link.
Qed.

End accepted.

(** * Whole transactions *)

Definition tx_cosigners (tx : ModifyMultisigAccountTransaction) : CosignersNotification :=
  {| cn_Signer := tx_Signer tx; cn_Modifications := tx_Modifications tx; cn_AllowMultipleRemove := false |}.
Definition tx_settings (tx : ModifyMultisigAccountTransaction) : SettingsNotification :=
  {| sn_Signer := tx_Signer tx; sn_MinRemovalDelta := tx_MinRemovalDelta tx; sn_MinApprovalDelta := tx_MinApprovalDelta tx;
     sn_ModificationsCount := Z.of_nat (length (tx_Modifications tx)) |}.

(** The parts of its notifications. *)
Definition cosigner_part (tx : ModifyMultisigAccountTransaction) : list MultisigNotification :=
  match tx_Modifications tx with
  | [] => []
  | _ => concat (publish_modification (tx_Signer tx) <$> tx_Modifications tx) ++ [ModifyCosigners (tx_cosigners tx)]
  end.
Definition interaction_part (tx : ModifyMultisigAccountTransaction) : list MultisigNotification :=
  match added_keys (tx_Modifications tx) with [] => [] | added => [AddressInteraction (tx_Signer tx) (list_to_set added)] end.

Lemma Publish_parts tx :
  tx_EntityVersion tx = 3 → Publish tx = cosigner_part tx ++ interaction_part tx ++ [ModifySettings (tx_settings tx)].
Proof.
  intros Hv. unfold Publish, cosigner_part, interaction_part. rewrite Hv. cbn [Z.eqb Pos.eqb negb]. f_equal.
  unfold tx_cosigners. by destruct (tx_Modifications tx).
Qed.

(** What validation without the caches checks of a transaction that was
    received: the number of modifications is a byte. *)
Record received (tx : ModifyMultisigAccountTransaction) : Prop := {
  received_count : Z.of_nat (length (tx_Modifications tx)) ≤ 255;
  received_valid n : ModifyCosigners n ∈ Publish tx → ModifyMultisigCosigners n = Success;
}.

(** The changes of a transaction that is accepted. *)
Record changes (config : MultisigConfiguration) (tx : ModifyMultisigAccountTransaction) c c1 c2 : Prop := {
  changes_cosigners : (tx_Modifications tx = [] ∧ c1 = c)
    ∨ (tx_Modifications tx ≠ [] ∧ cosigners_accepted config (tx_cosigners tx) c ∧ ModifyMultisigCosignersObserver (tx_cosigners tx) Commit c = (c1, Ok tt));
  changes_valid : ModifyMultisigInvalidSettings (tx_settings tx) c1 = Success;
  changes_settings : c2 = ModifyMultisigSettingsObserver (tx_settings tx) Commit c1;
}.

Lemma changes_links config tx c c1 c2 :
  multisig_wf config c → changes config tx c c1 c2 →
  links_wf config c1 ∧ wf_but (tx_Signer tx) c1 ∧ toggled (tx_Signer tx) (keys_of (tx_Modifications tx)) c c1 ∧ mins_kept (tx_Signer tx) c c1.
Proof.
  intros Hwf [Hcos _ _]. pose proof (wf_idle config c Hwf) as Hidle. destruct Hcos as [[-> ->]|(_ & Hacc & Hrun)].
  - split_and!; [apply Hwf|apply graph_wf_but; [apply (links_graph config), Hwf|done]| |done]. intros x y. simpl. set_solver.
  - destruct (accepted_observed config _ c Hacc Hidle) as (c' & Hrun' & ?). rewrite Hrun in Hrun'. by injection Hrun' as <-.
Qed.

(** ** Settings *)

Lemma same_links_links config c c' :
  same_links c c' → (∀ k e', c' !! k = Some e' → ∃ e, c !! k = Some e ∧ m_key e' = m_key e) → links_wf config c → links_wf config c'.
Proof.
  intros Hl Hc [[Hkey Hsym Hused] Hdepth Hcos Hms]. split; [split|..].
  - intros k e' (e & He & ->)%Hc. by apply Hkey.
  - intros a b. rewrite (same_links_edge c c'), Hsym, !linked_lookup by done. by rewrite (proj2 (Hl b)).
  - intros k e' Hk. destruct (Hc k e' Hk) as (e & He & _). destruct (Hl k) as [H1 H2]. rewrite Hk, He in H1, H2. simpl in *. rewrite H1, H2. eauto.
  - intros i x y Hi. apply (Hdepth i x y). refine (nsteps_congruence id (edge c) i x y _ Hi). intros a b. apply (same_links_edge c c' a b Hl).
  - intros k. unfold cosignatories_of. rewrite (proj1 (Hl k)). apply Hcos.
  - intros k. unfold multisigAccounts_of. rewrite (proj2 (Hl k)). apply Hms.
Qed.

Definition set_mins (account : Key) (m : Z * Z) c : MultisigCacheDelta := alter (setMin m.1 m.2) account c.

Lemma set_mins_links account m c : same_links c (set_mins account m c).
Proof.
  intros k. unfold set_mins. destruct (decide (k = account)) as [->|]; [rewrite lookup_alter_eq; by destruct (c !! account)|by rewrite lookup_alter_ne].
Qed.

Lemma set_mins_mins account m c k : mins (set_mins account m c) k = if decide (k = account ∧ is_Some (c !! account)) then m else mins c k.
Proof.
  unfold set_mins, mins. destruct (decide (k = account)) as [->|]; [|rewrite lookup_alter_ne, decide_False by naive_solver; done].
  rewrite lookup_alter_eq. destruct (c !! account); simpl; [rewrite decide_True by eauto; by destruct m|]. by rewrite decide_False by (intros [_ [? ?]]; done).
Qed.

Lemma set_mins_key account m c k e' : set_mins account m c !! k = Some e' → ∃ e, c !! k = Some e ∧ m_key e' = m_key e.
Proof.
  unfold set_mins. destruct (decide (k = account)) as [->|]; [rewrite lookup_alter_eq|rewrite lookup_alter_ne by done; by eauto].
  destruct (c !! account) as [e|]; [|done]. intros [= <-]. by exists e.
Qed.

Lemma settings_commit n c :
  ModifyMultisigSettingsObserver n Commit c = set_mins (sn_Signer n) (settings_changed n 1 (mins c (sn_Signer n))) c.
Proof.
  rewrite settings_commit_spec. unfold set_mins, settings_changed. rewrite !Z.mul_1_l. apply alter_ext. intros e He.
  unfold mins. by rewrite He.
Qed.

Lemma InvalidSettings_success n c e :
  ModifyMultisigInvalidSettings n c = Success → c !! sn_Signer n = Some e → Z.of_nat (size (m_cosignatories e)) ≤ 255 →
  settings_changed n 1 (mins c (sn_Signer n)) = (m_minApproval e + sn_MinApprovalDelta n, m_minRemoval e + sn_MinRemovalDelta n)
  ∧ settings_ok (settings_changed n 1 (mins c (sn_Signer n))) (m_cosignatories e).
Proof.
  intros Hs He Hsize. unfold ModifyMultisigInvalidSettings in Hs. rewrite He in Hs. cbn zeta in Hs.
  destruct (_ || _) eqn:Hrange in Hs; [done|]. destruct (_ || _) eqn:Hmax in Hs; [done|].
  apply orb_false_iff in Hrange as [[Hr%Z.ltb_ge Ha%Z.ltb_ge]%orb_false_iff Hzero], Hmax as [Hr'%Z.ltb_ge Ha'%Z.ltb_ge].
  assert (settings_changed n 1 (mins c (sn_Signer n)) = (m_minApproval e + sn_MinApprovalDelta n, m_minRemoval e + sn_MinRemovalDelta n)) as ->.
  { unfold settings_changed, mins, AddDelta, u8. rewrite He. simpl. rewrite !Z.mul_1_l, !Z.mod_small by lia. done. }
  split; [done|]. unfold settings_ok. simpl. destruct (decide (m_cosignatories e = ∅)) as [Hempty|Hne].
  - rewrite Hempty, size_empty in Hr', Ha'. f_equal; lia.
  - rewrite bool_decide_false in Hzero by done. cbn [negb andb] in Hzero. apply orb_false_iff in Hzero as [?%Z.eqb_neq ?%Z.eqb_neq]. lia.
Qed.

(** An accepted transaction keeps the whole invariant. *)
Lemma changes_wf config tx c c1 c2 : config_ok config → multisig_wf config c → changes config tx c c1 c2 → multisig_wf config c2.
Proof.
  intros Hconfig Hwf Hch. destruct (changes_links _ _ _ _ _ Hwf Hch) as (Hlinks & Hbut & Ht & Hkept). destruct Hch as [_ Hvalid ->].
  rewrite settings_commit. cbn [tx_settings sn_Signer]. set (A := tx_Signer tx) in *. split.
  { eapply same_links_links; [apply set_mins_links|apply set_mins_key|done]. }
  intros k. rewrite set_mins_mins. replace (cosignatories_of (set_mins _ _ _) k) with (cosignatories_of c1 k) by (symmetry; apply set_mins_links).
  case_decide as Hk.
  - destruct Hk as [-> [e He]]. unfold cosignatories_of. rewrite He. eapply (InvalidSettings_success (tx_settings tx)); [done..|].
    pose proof (links_cosigners _ _ Hlinks A) as Hc. unfold cosignatories_of in Hc. rewrite He in Hc. destruct Hconfig. simpl in Hc. lia.
  - destruct (decide (k = A)) as [->|Hne].
    + destruct (c1 !! A) eqn:HA; [destruct Hk; eauto|]. unfold mins, cosignatories_of. by rewrite HA.
    + rewrite (Hkept k) by auto. replace (cosignatories_of c1 k) with (cosignatories_of c k); [apply Hwf|].
      apply set_eq. intros y. unfold cosignatories_of. rewrite <- !linked_lookup, (Ht k y). naive_solver.
Qed.

(** ** The notifications *)

Section transactions.
Context {CatapultState StatementBuilder : Type}.
Abbreviation State := (ObserverState MultisigNotification MultisigCacheDelta CatapultState StatementBuilder).
Context (v : ValidatorContext MultisigConfiguration) (context : ObserverContext MultisigConfiguration) (Hmode : oc_Mode context = Commit).
Context (Hconfig : config_ok (vc_Config v)).
Implicit Types (s : State) (sub : Subscriber MultisigNotification).
Abbreviation validate := (AggregateValidator NotificationType multisig_validators (λ _, false)).
Abbreviation observe := (AggregateObserver NotificationType (multisig_observers (CatapultState := CatapultState) (StatementBuilder := StatementBuilder))).
Abbreviation notify := (sub_notify NotificationType (λ _, sizeof_Notification) validate v observe context).
Abbreviation succeeded sub := (IsValidationResultSuccess (m_aggregateResult sub) = true).

(** The notifications before the modification of the cosignatories. *)
Lemma notify_new_cosigners signer modifications sub s :
  succeeded sub → links_wf (vc_Config v) (os_Cache s) →
  ∃ sub', for_each notify (concat (publish_modification signer <$> modifications)) (sub, s) = ((sub', s), Ok tt)
  ∧ (succeeded sub' → ∀ m, m ∈ modifications → is_add Commit m →
       let link := {| nc_MultisigAccountKey := signer; nc_CosignatoryKey := CosignatoryPublicKey m |} in
       ModifyMultisigMaxCosignedAccounts (vc_Config v) link (os_Cache s) = Success ∧ ModifyMultisigLoopAndLevel (vc_Config v) link (os_Cache s) = Ok Success).
Proof.
  intros Hsub Hlinks. assert (acyclic m_cosignatories (os_Cache s)) as Hac by (eapply bounded_acyclic, links_depth; done).
  destruct (notify_quiet v context (concat (publish_modification signer <$> modifications)) sub s Hsub) as (sub' & Hrun & Hpass).
  - rewrite Forall_concat, Forall_fmap. apply Forall_forall. intros m _. unfold publish_modification. simpl. apply Forall_app. split.
    + case_bool_decide; constructor; [|done]. split; [done|].
      destruct (validate_new_cosigner v {| nc_MultisigAccountKey := signer; nc_CosignatoryKey := CosignatoryPublicKey m |} (os_Cache s)) as (r & Hr & Hv & _);
        [apply Hlinks|done|by exists r].
    + constructor; [|done]. split; [done|]. exists Success. split; [done|by left].
  - exists sub'. split; [done|]. intros Hs m Hm Hadd link.
    destruct (validate_new_cosigner v link (os_Cache s)) as (r & Hr & _ & Hok); [apply Hlinks|done|]. apply Hok.
    assert (NewCosigner link ∈ concat (publish_modification signer <$> modifications)) as Hin.
    { apply list_elem_of_In, in_concat. exists (publish_modification signer m). rewrite <- !list_elem_of_In. split; [by apply list_elem_of_fmap_2|].
      unfold publish_modification. rewrite bool_decide_true by (by apply is_add_commit). by left. }
    specialize (Hpass Hs _ Hin eq_refl). rewrite Hr in Hpass. by injection Hpass.
Qed.

Lemma notify_cosigners n sub s :
  succeeded sub → multisig_wf (vc_Config v) (os_Cache s) → Z.of_nat (length (cn_Modifications n)) ≤ 255 → ModifyMultisigCosigners n = Success →
  ∃ sub' s',
    for_each notify (concat (publish_modification (cn_Signer n) <$> cn_Modifications n) ++ [ModifyCosigners n]) (sub, s) = ((sub', s'), Ok tt)
    ∧ (¬ succeeded sub' ∧ s' = s
       ∨ succeeded sub' ∧ cosigners_accepted (vc_Config v) n (os_Cache s)
         ∧ ∃ c', ModifyMultisigCosignersObserver n Commit (os_Cache s) = (c', Ok tt) ∧ s' = with_cache c' s).
Proof.
  intros Hsub Hwf Hcount Hstateless. destruct (notify_new_cosigners (cn_Signer n) (cn_Modifications n) sub s Hsub) as (sub1 & H1 & Hnew); [apply Hwf|].
  setoid_rewrite for_each_app. setoid_rewrite (run_bind _ _ _ _ _ H1).
  destruct (decide (succeeded sub1)) as [Hs1|Hs1]; [|exists sub1, s; rewrite notify_ignored by done; by auto].
  cbn [for_each].   destruct (validate_cosigners v n (os_Cache s)) as (r & Hr & Hv & Hok).
  destruct (notify_spec NotificationType (λ _, sizeof_Notification) validate v observe context (ModifyCosigners n) sub1 s Hs1 eq_refl) as [(sub2 & H2 & Hf)|[Hpass Hobs]].
  - by exists r.
  - exists sub2, s. rewrite (run_bind _ _ _ _ _ H2). auto.
  - specialize (Hpass eq_refl). rewrite Hr in Hpass. injection Hpass as ->. destruct (Hok eq_refl) as [Hmax Hinv].
    assert (cosigners_accepted (vc_Config v) n (os_Cache s)) as Hacc by (split; [done|apply Hwf|done|done|by apply Hnew|done|done]).
    destruct (accepted_observed _ n _ Hacc (wf_idle _ _ Hwf)) as (c' & Hrun & _).
    destruct (Hobs (with_cache c' s)) as (sub2 & H2 & Hs2); [apply observe_cosigners; by rewrite Hmode|by left|].
    exists sub2, (with_cache c' s). rewrite (run_bind _ _ _ _ _ H2). split; [done|]. right. eauto.
Qed.

Lemma notify_settings n sub s :
  succeeded sub → ∃ sub' s', for_each notify [ModifySettings n] (sub, s) = ((sub', s'), Ok tt)
  ∧ (¬ succeeded sub' ∧ s' = s
     ∨ succeeded sub' ∧ ModifyMultisigInvalidSettings n (os_Cache s) = Success
       ∧ s' = with_cache (ModifyMultisigSettingsObserver n Commit (os_Cache s)) s).
Proof.
  intros Hsub. cbn [for_each]. destruct (validate_settings v n (os_Cache s)) as (r & Hr & Hv & Hok).
  destruct (notify_spec NotificationType (λ _, sizeof_Notification) validate v observe context (ModifySettings n) sub s Hsub eq_refl) as [(sub1 & H1 & Hf)|[Hpass Hobs]].
  - by exists r.
  - exists sub1, s. rewrite (run_bind _ _ _ _ _ H1). auto.
  - specialize (Hpass eq_refl). rewrite Hr in Hpass. injection Hpass as ->.
    destruct (Hobs _ (observe_settings context n s) (or_introl eq_refl)) as (sub1 & H1 & Hs1). rewrite Hmode in H1.
    eexists sub1, _. rewrite (run_bind _ _ _ _ _ H1). split; [done|]. right. auto.
Qed.

Lemma notify_cosigner_part tx sub s :
  received tx → tx_EntityVersion tx = 3 → succeeded sub → multisig_wf (vc_Config v) (os_Cache s) →
  ∃ sub' s', for_each notify (cosigner_part tx) (sub, s) = ((sub', s'), Ok tt)
    ∧ (¬ succeeded sub' ∧ s' = s
       ∨ succeeded sub' ∧ ∃ c1, s' = with_cache c1 s
         ∧ ((tx_Modifications tx = [] ∧ c1 = os_Cache s)
            ∨ (tx_Modifications tx ≠ [] ∧ cosigners_accepted (vc_Config v) (tx_cosigners tx) (os_Cache s)
               ∧ ModifyMultisigCosignersObserver (tx_cosigners tx) Commit (os_Cache s) = (c1, Ok tt)))).
Proof.
  intros [Hcount Hstateless] Hversion Hsub Hwf. rewrite Publish_parts in Hstateless by done. unfold cosigner_part in *.
  destruct (tx_Modifications tx) as [|m l] eqn:Hmods.
  - exists sub, s. split; [done|]. right. split; [done|]. exists (os_Cache s). split; [by destruct s|by left].
  - rewrite <- Hmods in *. destruct (notify_cosigners (tx_cosigners tx) sub s) as (sub1 & s1 & Hrun & Hcase); [done..|apply Hstateless; set_solver|].
    exists sub1, s1. split; [exact Hrun|]. destruct Hcase as [?|(? & ? & c1 & ? & ?)]; [by left|right]. split; [done|]. exists c1. rewrite Hmods. auto.
Qed.

(** A transaction runs to its end; the links stay well-formed; when it is
    accepted, its changes are made. *)
Lemma process_spec tx sub s :
  received tx → succeeded sub → multisig_wf (vc_Config v) (os_Cache s) →
  ∃ sub' s', process_transaction v context tx (sub, s) = ((sub', s'), Ok tt) ∧ links_wf (vc_Config v) (os_Cache s')
  ∧ (succeeded sub' → if decide (tx_EntityVersion tx = 3) then ∃ c1, changes (vc_Config v) tx (os_Cache s) c1 (os_Cache s') else s' = s).
Proof.
  intros Hreceived Hsub Hwf. unfold process_transaction. destruct (decide (tx_EntityVersion tx = 3)) as [Hversion|Hversion]; last first.
  { exists sub, s. unfold Publish. apply Z.eqb_neq in Hversion as ->. split_and!; [done|apply Hwf|done]. }
  destruct (notify_cosigner_part tx sub s Hreceived Hversion Hsub Hwf) as (sub1 & s1 & H1 & Hcase).
  setoid_rewrite Publish_parts; [|done]. setoid_rewrite for_each_app. setoid_rewrite (run_bind _ _ _ _ _ H1).
  destruct Hcase as [[Hf ->]|(Hs1 & c1 & -> & Hc1)].
  { exists sub1, s. rewrite notify_ignored by done. split_and!; [done|apply Hwf|done]. }
  assert (links_wf (vc_Config v) c1) as Hlinks.
  { destruct Hc1 as [[_ ->]|(_ & Hacc & Hrun)]; [apply Hwf|]. destruct (accepted_observed _ _ _ Hacc (wf_idle _ _ Hwf)) as (c' & Hrun' & ? & _).
    rewrite Hrun in Hrun'. by injection Hrun' as <-. }
  destruct (notify_quiet v context (interaction_part tx) sub1 (with_cache c1 s) Hs1) as (sub2 & H2 & _).
  { unfold interaction_part. destruct (added_keys _); constructor; [|done]. split; [done|]. exists Success. split; [done|by left]. }
  setoid_rewrite for_each_app. setoid_rewrite (run_bind _ _ _ _ _ H2). destruct (decide (succeeded sub2)) as [Hs2|Hs2].
  - destruct (notify_settings (tx_settings tx) sub2 (with_cache c1 s) Hs2) as (sub3 & s3 & H3 & Hcase). exists sub3, s3. split; [done|].
    destruct Hcase as [[Hf ->]|(Hs3 & Hvalid & ->)]; [done|]. split.
    + cbn [os_Cache with_cache]. rewrite settings_commit. eapply same_links_links; [apply set_mins_links|apply set_mins_key|done].
    + intros _. exists c1. by split.
  - exists sub2, (with_cache c1 s). rewrite notify_ignored by done. done.
Qed.

End transactions.

(** * Rollback *)

Lemma AddDelta_inverse x d : 0 ≤ x < 256 → AddDelta (AddDelta x (1 * d)) (-1 * d) = x.
Proof. intros Hx. unfold AddDelta, u8. rewrite Z.add_mod_idemp_l by done. replace (x + 1 * d + -1 * d) with x by lia. by apply Z.mod_small. Qed.

Lemma wf_bytes config c k : config_ok config → multisig_wf config c → 0 ≤ (mins c k).1 < 256 ∧ 0 ≤ (mins c k).2 < 256.
Proof.
  intros [Hmax _] Hwf. pose proof (wf_settings _ _ Hwf k) as Hs. pose proof (links_cosigners _ _ (wf_links _ _ Hwf) k).
  unfold settings_ok in Hs. case_decide; [by rewrite Hs|lia].
Qed.

(** Rolling back the settings of an account with an entry. *)
Lemma settings_rollback_spec n c e :
  c !! sn_Signer n = Some e →
  ModifyMultisigSettingsObserver n Rollback c = set_mins (sn_Signer n) (settings_changed n (-1) (mins c (sn_Signer n))) c.
Proof.
  intros He. unfold ModifyMultisigSettingsObserver, contains. rewrite bool_decide_true by by eexists. cbn [negb andb].
  unfold set_mins, settings_changed, mins. rewrite He. apply alter_ext. intros e' He'. by simplify_eq.
Qed.

Lemma is_add_rollback m : is_add Rollback m ↔ ¬ is_add Commit m.
Proof. unfold is_add. rewrite (bool_decide_false (Commit = Rollback)), (bool_decide_true (Commit = Commit)) by done. by case_bool_decide. Qed.

Lemma applicable_back A modifications c c1 :
  applicable Commit A modifications c → toggled A (keys_of modifications) c c1 → applicable Rollback A modifications c1.
Proof.
  intros [Hnd Hother Hlink] Ht. split; [done..|]. intros m Hm. rewrite is_add_rollback, Hlink by done. rewrite (Ht A).
  assert (CosignatoryPublicKey m ∈ keys_of modifications) by (by apply list_elem_of_fmap_2).
  destruct (decide (edge c A (CosignatoryPublicKey m))); tauto.
Qed.

(** The cosignatories of a rollback, from a cache in which the settings were
    rolled back. *)
Lemma cosigners_rollback config n c c1 c1' :
  multisig_wf config c → applicable Commit (cn_Signer n) (cn_Modifications n) c →
  toggled (cn_Signer n) (keys_of (cn_Modifications n)) c c1 → same_links c1 c1' → wf_but (cn_Signer n) c1' → (∀ k, mins c1' k = mins c k) →
  ModifyMultisigCosignersObserver n Rollback c1' = (c, Ok tt).
Proof.
  intros Hwf Happ Ht Hl Hbut Hmins.
  destruct (cosigners_observer_spec Rollback n c1') as (c0 & -> & Hbut0 & Hgraph0 & Ht0 & Hkept0); [done| |].
  { destruct (applicable_back _ _ _ _ Happ Ht) as [? ? Hlink]. split; [done..|]. intros m Hm. rewrite Hlink by done. by rewrite (same_links_edge c1 c1') by done. }
  f_equal. assert (∀ x y, edge c0 x y ↔ edge c x y) as Hedge.
  { intros x y. rewrite (Ht0 x y), !(same_links_edge c1 c1') by done. rewrite !(Ht x y).
    destruct (decide (edge c x y)), (decide (x = cn_Signer n)), (decide (y ∈ keys_of (cn_Modifications n))); tauto. }
  apply graph_wf_ext; [done|apply (links_graph config), Hwf|done|]. intros k. destruct (decide (k = cn_Signer n)) as [->|Hk]; [|by rewrite Hkept0, Hmins by auto].
  destruct (c0 !! cn_Signer n) as [e|] eqn:He; [by rewrite Hkept0, Hmins by (rewrite He; eauto)|].
  unfold mins at 1. rewrite He. symmetry. apply (wf_idle config c Hwf). intros y. rewrite <- Hedge, linked_lookup, He. set_solver.
Qed.

(** The entry of the signer is there afterwards, or its settings were cleared
    with it. *)
Definition settings_recoverable (tx : ModifyMultisigAccountTransaction) c c2 : Prop :=
  is_Some (c2 !! tx_Signer tx) ∨ tx_Modifications tx = [] ∨ mins c (tx_Signer tx) = (- tx_MinApprovalDelta tx, - tx_MinRemovalDelta tx).

(** The settings rolled back where the entry is there. *)
Lemma settings_back_kept n c c1 :
  let A := sn_Signer n in let c2 := set_mins A (settings_changed n 1 (mins c1 A)) c1 in let c1' := ModifyMultisigSettingsObserver n Rollback c2 in
  wf_but A c1 → mins_kept A c c1 → is_Some (c1 !! A) → 0 ≤ (mins c A).1 < 256 → 0 ≤ (mins c A).2 < 256 →
  same_links c1 c1' ∧ wf_but A c1' ∧ (∀ k, mins c1' k = mins c k).
Proof.
  intros A c2 c1' Hbut Hkept [e He] Hb1 Hb2.
  assert (∃ e2, c2 !! A = Some e2) as [e2 He2] by (unfold c2, set_mins; rewrite lookup_alter_eq, He; by eexists).
  unfold c1'. rewrite (settings_rollback_spec n c2 e2 He2). fold A. set (m := settings_changed n (-1) _).
  assert (same_links c1 (set_mins A m c2)) as Hl.
  { intros k. destruct (set_mins_links A m c2 k) as [-> ->]. apply set_mins_links. }
  split_and!; [done| |].
  - apply same_links_wf with c1; [done| | |done].
    + intros k e' (e2' & (e1 & He1 & ->)%set_mins_key & ->)%set_mins_key. by eapply but_key.
    + intros k Hk. unfold c2, set_mins. by rewrite !lookup_alter_ne.
  - intros k. rewrite set_mins_mins. destruct (decide (k = A)) as [->|Hk].
    + rewrite decide_True by (rewrite He2; eauto). unfold m, c2. rewrite set_mins_mins, decide_True by (rewrite He; eauto).
      rewrite (Hkept A) by (rewrite He; eauto). unfold settings_changed. cbn [fst snd]. rewrite !AddDelta_inverse by done. by destruct (mins c A).
    + unfold c2. rewrite set_mins_mins, !decide_False by (by intros [? _]). apply Hkept. by left.
Qed.

(** The settings rolled back where the entry has been removed. *)
Lemma settings_back_removed n c c1 :
  let A := sn_Signer n in let c1' := ModifyMultisigSettingsObserver n Rollback c1 in
  wf_but A c1 → mins_kept A c c1 → c1 !! A = None → sn_ModificationsCount n ≠ 0 →
  0 ≤ (mins c A).1 < 256 → 0 ≤ (mins c A).2 < 256 → mins c A = (- sn_MinApprovalDelta n, - sn_MinRemovalDelta n) →
  same_links c1 c1' ∧ wf_but A c1' ∧ (∀ k, mins c1' k = mins c k).
Proof.
  intros A c1' Hbut Hkept He Hcount Hb1 Hb2 Hdeltas. set (e := setMin (mins c A).1 (mins c A).2 (new_MultisigEntry A)).
  assert (c1' = <[ A := e ]> c1) as ->.
  { unfold c1', ModifyMultisigSettingsObserver, contains. fold A. rewrite He, (bool_decide_false (is_Some None)) by (by intros [? ?]).
    rewrite (bool_decide_false (Commit = Rollback)), (bool_decide_true (Rollback = Rollback)) by done. apply Z.eqb_neq in Hcount as ->. cbn [negb andb].
    rewrite alter_insert_eq. f_equal. unfold e. rewrite Hdeltas in *. cbn [fst snd] in *. unfold new_MultisigEntry, setMin, AddDelta, u8.
    cbn -[Z.modulo Z.mul Z.opp]. rewrite !Z.mod_small by lia. f_equal; lia. }
  split_and!.
  - intros k. destruct (decide (k = A)) as [->|]; [by rewrite lookup_insert_eq, He|by rewrite lookup_insert_ne].
  - apply same_links_wf with c1; [| | |done].
    + intros k. destruct (decide (k = A)) as [->|]; [by rewrite lookup_insert_eq, He|by rewrite lookup_insert_ne].
    + intros k e' [[<- <-]|[_ Hk]]%lookup_insert_Some; [done|]. by eapply but_key.
    + intros k Hk. by rewrite lookup_insert_ne.
  - intros k. unfold mins at 1. destruct (decide (k = A)) as [->|]; [rewrite lookup_insert_eq; by destruct (mins c A)|].
    rewrite lookup_insert_ne by done. apply Hkept. by left.
Qed.

Lemma settings_rollback_none n c : c !! sn_Signer n = None → sn_ModificationsCount n = 0 → ModifyMultisigSettingsObserver n Rollback c = c.
Proof.
  intros He Hcount. unfold ModifyMultisigSettingsObserver, contains. by rewrite He, (bool_decide_false (is_Some None)), Hcount by (by intros [? ?]).
Qed.

(** Without modifications only the settings change. *)
Lemma settings_undone n c :
  0 ≤ (mins c (sn_Signer n)).1 < 256 → 0 ≤ (mins c (sn_Signer n)).2 < 256 → sn_ModificationsCount n = 0 →
  ModifyMultisigSettingsObserver n Rollback (ModifyMultisigSettingsObserver n Commit c) = c.
Proof.
  intros Hb1 Hb2 Hcount. rewrite settings_commit. set (A := sn_Signer n) in *. destruct (c !! A) as [e|] eqn:He.
  - assert (mins c A = (m_minApproval e, m_minRemoval e)) as Hm by (unfold mins; by rewrite He). rewrite Hm in *. cbn [fst snd] in *.
    set (m := settings_changed n 1 _). assert (set_mins A m c !! A = Some (setMin m.1 m.2 e)) as He' by (unfold set_mins; by rewrite lookup_alter_eq, He).
    rewrite (settings_rollback_spec n _ _ He'). fold A. rewrite set_mins_mins, decide_True by (rewrite He; eauto).
    unfold set_mins, m, settings_changed. cbn [fst snd]. rewrite !AddDelta_inverse by done. rewrite alter_alter_eq. apply alter_id.
    intros e' He1. rewrite He in He1. injection He1 as <-. by destruct e.
  - assert (set_mins A (settings_changed n 1 (mins c A)) c = c) as -> by (by apply alter_id'). by apply settings_rollback_none.
Qed.

Lemma changes_settings_back config tx c c1 c2 :
  config_ok config → multisig_wf config c → changes config tx c c1 c2 → settings_recoverable tx c c2 →
  let c1' := ModifyMultisigSettingsObserver (tx_settings tx) Rollback c2 in
  same_links c1 c1' ∧ wf_but (tx_Signer tx) c1' ∧ (∀ k, mins c1' k = mins c k).
Proof.
  intros Hconfig Hwf Hch Hrec. destruct (changes_links _ _ _ _ _ Hwf Hch) as (Hlinks & Hbut & Ht & Hkept).
  pose proof (wf_bytes config c (tx_Signer tx) Hconfig Hwf) as [Hb1 Hb2].
  destruct Hch as [Hcos Hvalid ->]. rewrite settings_commit in *. destruct (c1 !! tx_Signer tx) as [e|] eqn:He.
  - apply (settings_back_kept (tx_settings tx)); [done|done|by exists e|done|done].
  - assert (set_mins (sn_Signer (tx_settings tx)) (settings_changed (tx_settings tx) 1 (mins c1 (sn_Signer (tx_settings tx)))) c1 = c1) as Hc1 by (by apply alter_id').
    rewrite Hc1 in *. destruct Hrec as [[? ?]|Hrec]; [congruence|].
    destruct Hcos as [[Hnil ->]|(Hne & Hacc & Hrun)].
    + cbn zeta. rewrite settings_rollback_none by (done || cbn; by rewrite Hnil). by split_and!.
    + destruct Hrec as [?|Hdeltas]; [done|]. apply (settings_back_removed (tx_settings tx)); [done|done|done| |done|done|done].
      cbn. destruct (tx_Modifications tx); [done|]. cbn [length]. lia.
Qed.

(** All of the transaction. *)
Lemma changes_back config tx c c1 c2 :
  config_ok config → multisig_wf config c → changes config tx c c1 c2 → settings_recoverable tx c c2 →
  let c1' := ModifyMultisigSettingsObserver (tx_settings tx) Rollback c2 in
  if decide (tx_Modifications tx = []) then c1' = c else ModifyMultisigCosignersObserver (tx_cosigners tx) Rollback c1' = (c, Ok tt).
Proof.
  intros Hconfig Hwf Hch Hrec. destruct (changes_settings_back _ _ _ _ _ Hconfig Hwf Hch Hrec) as (Hl & Hbut & Hmins). cbn zeta in *.
  destruct (changes_links _ _ _ _ _ Hwf Hch) as (_ & _ & Ht & _). destruct Hch as [[[Hnil ->]|(Hne & Hacc & _)] _ ->].
  - rewrite decide_True by done. pose proof (wf_bytes config c (tx_Signer tx) Hconfig Hwf) as [Hb1 Hb2]. apply settings_undone; [done..|]. cbn. by rewrite Hnil.
  - rewrite decide_False by done. eapply cosigners_rollback; [done|by eapply accepted_applicable|done..].
Qed.

End MultisigState.
