(* ===== verification/MultisigPlugin.v ===== *)
(** The theorems on the multisig plugin: transactions keep the cache
    well-formed, the cosignature checkers decide approval, an accepted
    modification was signed for, a rollback restores the cache, and where it
    does not. *)
From stdpp Require Import base tactics numbers option list gmap relations.
From S2P Require Import Prelude Notifications Multisig MultisigGraph MultisigState.

Local Open Scope Z_scope.

Module MultisigPlugin.
Import Notifications Multisig MultisigGraph MultisigState.
Implicit Types (c : MultisigCacheDelta).

Abbreviation succeeded sub := (IsValidationResultSuccess (m_aggregateResult sub) = true).

(** * Approval in well-formed caches *)

Lemma min_required config c k e op :
  multisig_wf config c → c !! k = Some e → m_cosignatories e ≠ ∅ → 1 ≤ GetMinRequiredCosigners e op ≤ Z.of_nat (size (m_cosignatories e)).
Proof.
  intros Hwf He Hne. pose proof (wf_settings _ _ Hwf k) as Hs. unfold settings_ok, mins, cosignatories_of in Hs. rewrite He in Hs. simpl in Hs.
  rewrite decide_False in Hs by done. destruct op; simpl; lia.
Qed.

(** Someone signed for every account that approves. *)
Lemma approves_signed config c cosigners op k :
  multisig_wf config c → approves c cosigners op k → ∃ y, signs_for c k y ∧ y ∈ cosigners.
Proof.
  intros Hwf. induction 1 as [k Hp Hk|k e X He Hne HX Hmin _ IH]; [by exists k|].
  pose proof (min_required _ _ _ _ op Hwf He Hne). destruct (decide (X = ∅)) as [->|[x Hx]%set_choose_L]; [rewrite size_empty in Hmin; lia|].
  destruct (IH x Hx) as (y & [Hxy Hy] & Hin). exists y. split; [split; [|done]|done]. eapply rtc_l; [|done]. exists e. auto.
Qed.

(** If everyone below an account signs, it approves. *)
Lemma signed_approves config c cosigners op k :
  multisig_wf config c → (∀ y, signs_for c k y → y ∈ cosigners) → approves c cosigners op k.
Proof.
  intros Hwf. assert (∀ n y, nsteps (edge c) n k y → (n < find_fuel c)%nat) as Hfuel.
  { intros n y. apply path_bound. eapply bounded_acyclic, links_depth. apply Hwf. }
  revert Hfuel. generalize (find_fuel c) as fuel. intros fuel. revert k. induction fuel as [|fuel IH]; intros k Hfuel Hall.
  { specialize (Hfuel 0%nat k (nsteps_O _ _)). lia. }
  destruct (plain_or_multisig c k) as [[Hp _]|(e & He & Hne & _ & Hedge)]; [apply approves_plain; [done|]; by apply Hall|].
  apply (approves_multisig _ _ _ _ e (m_cosignatories e)); [done..|by eapply min_required|]. intros x Hx%elem_of_elements%Hedge. apply IH.
  - intros n y Hn. specialize (Hfuel _ _ (nsteps_l _ _ _ _ _ Hx Hn)). lia.
  - intros y [Hy Hp]. apply Hall. split; [|done]. by eapply rtc_l.
Qed.

(** * Rolling back a transaction *)

Section rollback.
Context {CatapultState StatementBuilder : Type}.
Abbreviation State := (ObserverState MultisigNotification MultisigCacheDelta CatapultState StatementBuilder).
Implicit Types (s : State).
Abbreviation observe := (AggregateObserver NotificationType (multisig_observers (CatapultState := CatapultState) (StatementBuilder := StatementBuilder))).

(** What rolls back the transactions of a block. *)
Definition rollback_transaction (tx : ModifyMultisigAccountTransaction) (context : ObserverContext MultisigConfiguration) : Exec State unit :=
  ReverseNotificationObserverAdapter NotificationType (λ tx, (Publish tx, Ok tt)) observe tx context.

Lemma observe_all_quiet context ns s : Forall (λ n, quiet n = true) ns → for_each (observe context) ns s = (s, Ok tt).
Proof.
  induction 1 as [|n ns Hn _ IH]; [done|]. cbn [for_each]. by rewrite (run_bind _ _ _ _ _ (observe_quiet context n s Hn)).
Qed.

(** The notifications that are observed, last first. *)
Lemma observed_parts tx :
  tx_EntityVersion tx = 3 →
  ∃ ns, Forall (λ n, quiet n = true) ns
  ∧ reverse (filter (λ n, IsSet (NotificationType n) Channel_Observer = true) (Publish tx))
    = ModifySettings (tx_settings tx) :: (if decide (tx_Modifications tx = []) then [] else [ModifyCosigners (tx_cosigners tx)]) ++ ns.
Proof.
  intros Hv. rewrite Publish_parts by done.
  set (P := λ n, IsSet (NotificationType n) Channel_Observer = true). rewrite !filter_app, !reverse_app.
  assert (filter P (interaction_part tx) = []) as -> by (unfold interaction_part; by destruct (added_keys _)).
  exists (if decide (tx_Modifications tx = []) then [] else reverse (filter P (concat (publish_modification (tx_Signer tx) <$> tx_Modifications tx)))). split.
  - case_decide; [done|]. assert (Forall (λ n, quiet n = true) (concat (publish_modification (tx_Signer tx) <$> tx_Modifications tx))) as Hall.
    { apply Forall_concat, Forall_fmap, Forall_forall. intros m _. unfold publish_modification. simpl. by case_bool_decide; repeat constructor. }
    rewrite Forall_forall in Hall. apply Forall_reverse, Forall_forall. intros n [_ Hn]%list_elem_of_filter. by apply Hall.
  - unfold cosigner_part. destruct (tx_Modifications tx) eqn:Hm; [done|]. rewrite filter_app, reverse_app. done.
Qed.

Lemma rollback_changes config context tx s c c1 :
  oc_Mode context = Rollback → config_ok config → tx_EntityVersion tx = 3 →
  multisig_wf config c → changes config tx c c1 (os_Cache s) → settings_recoverable tx c (os_Cache s) →
  ∃ t, rollback_transaction tx context s = (t, Ok tt) ∧ os_Cache t = c.
Proof.
  intros Hmode Hconfig Hv Hwf Hch Hrec. destruct (observed_parts tx Hv) as (ns & Hns & Hlist).
  pose proof (changes_back _ _ _ _ _ Hconfig Hwf Hch Hrec) as Hback. cbn zeta in Hback.
  unfold rollback_transaction, ReverseNotificationObserverAdapter. unfold ends, mbind at 1, exec_bind at 1. rewrite Hlist. cbn [for_each].
  pose proof (observe_settings context (tx_settings tx) s) as Hs. rewrite Hmode in Hs. rewrite (run_bind _ _ _ _ _ Hs).
  destruct (decide (tx_Modifications tx = [])) as [Hnil|Hne].
  - cbn [app]. rewrite observe_all_quiet by done. eexists. split; [done|]. done.
  - cbn [app for_each]. eassert (observe context (ModifyCosigners (tx_cosigners tx)) (with_cache _ s) = _) as Hc.
    { apply observe_cosigners. rewrite Hmode. exact Hback. }
    rewrite (run_bind _ _ _ _ _ Hc), observe_all_quiet by done. eexists. split; [done|]. done.
Qed.

End rollback.

(** * A sample *)

(** One account with one cosignatory. *)
Definition alice : Key := [1].
Definition bob : Key := [2].
Definition carol : Key := [3].

Definition sample_config : MultisigConfiguration :=
  {| MaxMultisigDepth := 3; MaxCosignersPerAccount := 10; MaxCosignedAccountsPerAccount := 5; NewCosignersMustApprove := true |}.

Definition sample_cache : MultisigCacheDelta :=
  <[ alice := {| m_key := alice; m_cosignatories := {[ bob ]}; m_minApproval := 1; m_minRemoval := 1; m_multisigAccounts := ∅ |} ]>
  (<[ bob := {| m_key := bob; m_cosignatories := ∅; m_minApproval := 0; m_minRemoval := 0; m_multisigAccounts := {[ alice ]} |} ]> ∅).

Definition sample_state : ObserverState MultisigNotification MultisigCacheDelta unit unit :=
  {| os_Cache := sample_cache; os_State := tt; os_BlockStatementBuilder := tt; os_Notifications := [] |}.
Definition sample_v : ValidatorContext MultisigConfiguration := {| vc_Config := sample_config; vc_Height := 1; vc_BlockTime := 2 |}.
Definition sample_context (mode : NotifyMode) : ObserverContext MultisigConfiguration := new_ObserverContext false sample_config 1 2 mode false.

(** Carol becomes a second cosignatory, and both have to approve. *)
Definition sample_addition : ModifyMultisigAccountTransaction :=
  {| tx_EntityVersion := 3; tx_Signer := alice; tx_MinRemovalDelta := 0; tx_MinApprovalDelta := 1;
     tx_Modifications := [{| ModificationType := ModificationType_Add; CosignatoryPublicKey := carol |}] |}.

(** The only cosignatory is removed, with deltas that are zero. *)
Definition sample_removal : ModifyMultisigAccountTransaction :=
  {| tx_EntityVersion := 3; tx_Signer := alice; tx_MinRemovalDelta := 0; tx_MinApprovalDelta := 0;
     tx_Modifications := [{| ModificationType := ModificationType_Del; CosignatoryPublicKey := bob |}] |}.

Lemma sample_edges x y : edge sample_cache x y ↔ x = alice ∧ y = bob.
Proof.
  rewrite linked_lookup. unfold sample_cache. destruct (decide (x = alice)) as [->|Ha]; [rewrite lookup_insert_eq; set_solver|].
  rewrite lookup_insert_ne by done. destruct (decide (x = bob)) as [->|Hb]; [rewrite lookup_insert_eq|rewrite lookup_insert_ne, lookup_empty by done]; set_solver.
Qed.

Lemma sample_parents x y : parent sample_cache y x ↔ x = alice ∧ y = bob.
Proof.
  rewrite linked_lookup. unfold sample_cache. destruct (decide (y = alice)) as [->|Ha]; [rewrite lookup_insert_eq; set_solver|].
  rewrite lookup_insert_ne by done. destruct (decide (y = bob)) as [->|Hb]; [rewrite lookup_insert_eq|rewrite lookup_insert_ne, lookup_empty by done]; set_solver.
Qed.

(** A property of all accounts holds for the two and for the others. *)
Lemma sample_cases (P : Key → Prop) : P alice → P bob → (∀ k, sample_cache !! k = None → P k) → ∀ k, P k.
Proof.
  intros Ha Hb Hother k. destruct (decide (k = alice)) as [->|]; [done|]. destruct (decide (k = bob)) as [->|]; [done|].
  apply Hother. unfold sample_cache. by rewrite !lookup_insert_ne.
Qed.

Lemma sample_wf : multisig_wf sample_config sample_cache.
Proof.
  split; [split; [split|..]|].
  - apply (sample_cases (λ k, ∀ e, sample_cache !! k = Some e → m_key e = k)); intros e He; try congruence; vm_compute in He; by injection He as <-.
  - intros a b. by rewrite sample_edges, sample_parents.
  - apply (sample_cases (λ k, ∀ e, sample_cache !! k = Some e → m_cosignatories e ≠ ∅ ∨ m_multisigAccounts e ≠ ∅)); intros e He; try congruence;
      vm_compute in He; injection He as <-; [by left|by right].
  - intros n x y Hn. destruct Hn as [|n x z y Hxz Hn]; [done|]. destruct Hn as [|n z w y Hzw Hn]; [done|].
    apply sample_edges in Hxz as [_ ->], Hzw as [? _]. done.
  - apply sample_cases; [done..|]. intros k Hk. unfold cosignatories_of. by rewrite Hk.
  - apply sample_cases; [done..|]. intros k Hk. unfold multisigAccounts_of. by rewrite Hk.
  - apply sample_cases; [by vm_compute; intuition|done|]. intros k Hk. unfold mins, cosignatories_of. by rewrite Hk.
Qed.

Lemma sample_config_ok : config_ok sample_config.
Proof. done. Qed.

Lemma sample_received tx : tx = sample_addition ∨ tx = sample_removal → received tx.
Proof.
  intros [-> | ->]; (split; [done|]); intros n; unfold Publish; simpl; intros Hn;
    repeat (apply elem_of_cons in Hn as [Hn|Hn]; [by (injection Hn as -> || discriminate Hn)|]); by apply not_elem_of_nil in Hn.
Qed.

(** * Theorems *)

(** C23. On a well-formed multisig cache, processing a modification that passed
    stateless validation never throws nor recurses without end, whatever the
    validators say.  Links between accounts and cosignatories stay symmetric,
    every entry is in use, no account is below itself, no chain is longer than
    [MaxMultisigDepth], and the limits on cosigners and cosigned accounts hold.
    If the transaction is accepted, moreover every multisig account needs at
    least one and at most all of its cosignatories. *)
Theorem transaction_keeps_multisig_wf {CatapultState StatementBuilder} (v : ValidatorContext MultisigConfiguration)
    (context : ObserverContext MultisigConfiguration) (tx : ModifyMultisigAccountTransaction) (sub : Subscriber MultisigNotification)
    (s : ObserverState MultisigNotification MultisigCacheDelta CatapultState StatementBuilder) :
  oc_Mode context = Commit → config_ok (vc_Config v) → received tx → succeeded sub → multisig_wf (vc_Config v) (os_Cache s) →
  ∃ sub' s', process_transaction v context tx (sub, s) = ((sub', s'), Ok tt)
  ∧ links_wf (vc_Config v) (os_Cache s') ∧ (succeeded sub' → multisig_wf (vc_Config v) (os_Cache s')).
Proof.
  intros Hmode Hconfig Hreceived Hsub Hwf. destruct (process_spec v context Hmode Hconfig tx sub s Hreceived Hsub Hwf) as (sub' & s' & Hrun & Hlinks & Hs).
  exists sub', s'. split_and!; [done..|]. intros Hok%Hs. case_decide; [|by subst]. destruct Hok as [c1 Hch]. by eapply changes_wf.
Qed.

Lemma transaction_keeps_multisig_wf_witness :
  multisig_wf sample_config sample_cache
  ∧ (∃ sub' s', process_transaction sample_v (sample_context Commit) sample_addition (new_Subscriber, sample_state) = ((sub', s'), Ok tt)
     ∧ links_wf sample_config (os_Cache s') ∧ (succeeded sub' → multisig_wf sample_config (os_Cache s')))
  ∧ succeeded (fst (fst (process_transaction sample_v (sample_context Commit) sample_addition (new_Subscriber, sample_state)))).
Proof.
  split; [exact sample_wf|]. split; [|vm_compute; reflexivity].
  apply (transaction_keeps_multisig_wf sample_v (sample_context Commit) sample_addition new_Subscriber sample_state);
    [reflexivity|exact sample_config_ok|apply sample_received; left; reflexivity|reflexivity|exact sample_wf].
Defined.

(** C25. On a well-formed multisig cache the checkers of aggregate cosignatures
    end and decide what they should.  [hasSufficientCosigners] says yes when
    every required account approves: a plain account by its own signature, a
    multisig account by approvals of as many cosignatories as the kind of
    operation needs.  [hasIneligibleCosigners] says no when every cosigner is a
    plain account at the end of a chain from a required one.  The extractor of
    public keys yields the accounts below a key. *)
Theorem cosigner_checks_decide config c cosigners op requiredKeys strictSigner signer cosignatures publicKeys key :
  multisig_wf config c →
  (∃ b, hasSufficientCosigners c cosigners op requiredKeys = Some b ∧ (b = true ↔ ∀ k, k ∈ requiredKeys → approves c cosigners op k))
  ∧ (∃ b, hasIneligibleCosigners c strictSigner signer cosignatures publicKeys = Some b
     ∧ (b = false ↔ ∀ x, (strictSigner = true ∧ x = signer) ∨ x ∈ cosignatures → ∃ k, k ∈ publicKeys ∧ signs_for c k x))
  ∧ (∃ s, publicKeysExtractor c key = Some s ∧ ∀ y, y ∈ s ↔ rtc (edge c) key y).
Proof.
  intros Hwf. assert (acyclic m_cosignatories c) as Hac by (eapply bounded_acyclic, links_depth; apply Hwf).
  split_and!; [by apply hasSufficientCosigners_spec|by apply hasIneligibleCosigners_spec|by apply publicKeysExtractor_spec].
Qed.

Lemma cosigner_checks_decide_witness :
  hasSufficientCosigners sample_cache {[ bob ]} Operation_Normal [alice] = Some true
  ∧ hasSufficientCosigners sample_cache {[ alice ]} Operation_Normal [alice] = Some false
  ∧ ((∃ b, hasSufficientCosigners sample_cache {[ bob ]} Operation_Normal [alice] = Some b
        ∧ (b = true ↔ ∀ k, k ∈ [alice] → approves sample_cache {[ bob ]} Operation_Normal k))
     ∧ (∃ b, hasIneligibleCosigners sample_cache true bob [] [alice] = Some b
        ∧ (b = false ↔ ∀ x, (true = true ∧ x = bob) ∨ x ∈ [] → ∃ k, k ∈ [alice] ∧ signs_for sample_cache k x))
     ∧ (∃ s, publicKeysExtractor sample_cache alice = Some s ∧ ∀ y, y ∈ s ↔ rtc (edge sample_cache) alice y)).
Proof.
  split; [vm_compute; reflexivity|]. split; [vm_compute; reflexivity|].
  exact (cosigner_checks_decide sample_config sample_cache {[ bob ]} Operation_Normal [alice] true bob [] [alice] alice sample_wf).
Defined.

(** C24. On a well-formed multisig cache ([multisig_wf]: every multisig account
    needs at least one and at most all of its cosignatories, and links are
    symmetric and acyclic), a modification in an aggregate has sufficient
    cosigners only if some plain account below its signer signed and, where new
    cosigners must approve, some plain account below each added account, the
    account itself if it is plain.  If all of these sign, it does have sufficient
    cosigners: no account is out of reach of its cosignatories.  Accepted
    transactions keep the cache well-formed; the rollback of a removal of the last
    cosignatory whose deltas do not take back its settings does not (see
    [rolled_back_removal_loses_settings]), and then nobody needs to sign. *)
Theorem modification_signed config c tx signer cosignatures :
  multisig_wf config c →
  let required k := k = tx_Signer tx ∨ (NewCosignersMustApprove config = true ∧ k ∈ added_keys (tx_Modifications tx)) in
  (modification_sufficiently_cosigned config c tx signer cosignatures = Some true →
     ∀ k, required k → ∃ y, signs_for c k y ∧ y ∈ signer :: cosignatures)
  ∧ ((∀ k y, required k → signs_for c k y → y ∈ signer :: cosignatures) →
     modification_sufficiently_cosigned config c tx signer cosignatures = Some true).
Proof.
  intros Hwf required. assert (acyclic m_cosignatories c) as Hac by (eapply bounded_acyclic, links_depth; apply Hwf).
  assert (∀ y, y ∈ ({[ signer ]} ∪ list_to_set cosignatures : gset Key) ↔ y ∈ signer :: cosignatures) as Hcos by set_solver.
  assert (∀ k, k ∈ elements ({[ tx_Signer tx ]} ∪ ExtractAdditionalRequiredCosigners config tx) ↔ required k) as Hreq.
  { intros k. unfold required, ExtractAdditionalRequiredCosigners. rewrite elem_of_elements, elem_of_union, elem_of_singleton.
    destruct (NewCosignersMustApprove config); cbn [negb]; [rewrite elem_of_list_to_set|rewrite elem_of_empty]; naive_solver. }
  unfold modification_sufficiently_cosigned. destruct (hasSufficientCosigners_spec c Hac ({[ signer ]} ∪ list_to_set cosignatures)
    (GetOperationType (tx_Modifications tx)) (elements ({[ tx_Signer tx ]} ∪ ExtractAdditionalRequiredCosigners config tx))) as (b & -> & Hb).
  setoid_rewrite Hreq in Hb. split.
  - intros [= ->] k Hk. destruct (approves_signed config c _ _ k Hwf (proj1 Hb eq_refl k Hk)) as (y & ? & ?). exists y. by rewrite <- Hcos.
  - intros Hall. f_equal. apply Hb. intros k Hk. eapply signed_approves; [done|]. intros y Hy. apply Hcos. by eapply Hall.
Qed.

Lemma modification_signed_witness :
  (modification_sufficiently_cosigned sample_config sample_cache sample_addition bob [carol] = Some true
   ∧ modification_sufficiently_cosigned sample_config sample_cache sample_addition bob [] = Some false)
  ∧ ((modification_sufficiently_cosigned sample_config sample_cache sample_addition bob [carol] = Some true →
      ∀ k, k = alice ∨ (true = true ∧ k ∈ [carol]) → ∃ y, signs_for sample_cache k y ∧ y ∈ [bob; carol])
     ∧ ((∀ k y, k = alice ∨ (true = true ∧ k ∈ [carol]) → signs_for sample_cache k y → y ∈ [bob; carol]) →
        modification_sufficiently_cosigned sample_config sample_cache sample_addition bob [carol] = Some true)).
Proof.
  split; [split; vm_compute; reflexivity|].
  exact (modification_signed sample_config sample_cache sample_addition bob [carol] sample_wf).
Defined.

(** C26. Rolling back an accepted modification restores the multisig cache,
    entry by entry, provided that the entry of the signer is still there or the
    deltas took back its settings. *)
Theorem multisig_rollback_restores {CatapultState StatementBuilder} (v : ValidatorContext MultisigConfiguration)
    (context context' : ObserverContext MultisigConfiguration) (tx : ModifyMultisigAccountTransaction) (sub sub' : Subscriber MultisigNotification)
    (s s' : ObserverState MultisigNotification MultisigCacheDelta CatapultState StatementBuilder) :
  oc_Mode context = Commit → oc_Mode context' = Rollback → config_ok (vc_Config v) → received tx → succeeded sub →
  multisig_wf (vc_Config v) (os_Cache s) →
  process_transaction v context tx (sub, s) = ((sub', s'), Ok tt) → succeeded sub' → settings_recoverable tx (os_Cache s) (os_Cache s') →
  ∃ t, rollback_transaction tx context' s' = (t, Ok tt) ∧ os_Cache t = os_Cache s.
Proof.
  intros Hmode Hmode' Hconfig Hreceived Hsub Hwf Hrun Hsub' Hrec.
  destruct (process_spec v context Hmode Hconfig tx sub s Hreceived Hsub Hwf) as (sub1 & s1 & Hrun1 & _ & Hok). rewrite Hrun in Hrun1. injection Hrun1 as <- <-.
  specialize (Hok Hsub'). case_decide as Hversion; [destruct Hok as [c1 Hch]; by eapply rollback_changes|]. subst s'. exists s. split; [|done].
  unfold rollback_transaction, ReverseNotificationObserverAdapter, Publish. by apply Z.eqb_neq in Hversion as ->.
Qed.

Lemma multisig_rollback_restores_witness :
  let final := fst (process_transaction sample_v (sample_context Commit) sample_addition (new_Subscriber, sample_state)) in
  ∃ t, rollback_transaction sample_addition (sample_context Rollback) (snd final) = (t, Ok tt) ∧ os_Cache t = sample_cache.
Proof.
  intros final.
  apply (multisig_rollback_restores sample_v (sample_context Commit) (sample_context Rollback) sample_addition new_Subscriber (fst final) sample_state (snd final));
    [reflexivity|reflexivity|exact sample_config_ok|apply sample_received; left; reflexivity|reflexivity|exact sample_wf|vm_compute; reflexivity|vm_compute; reflexivity|].
  left. vm_compute. eexists. reflexivity.
Defined.

(** Without that provision it does not.  The removal of the only cosignatory with
    deltas of zero is accepted, since the validator only compares the deltas; when
    its block is rolled back, the entry comes back without its settings, and the
    account then approves anything without a signature. *)
Example rolled_back_removal_loses_settings :
  let '(sub, s, r) := process_transaction sample_v (sample_context Commit) sample_removal (new_Subscriber, sample_state) in
  let '(t, r') := rollback_transaction sample_removal (sample_context Rollback) s in
  multisig_wf sample_config sample_cache ∧ received sample_removal
  ∧ r = Ok tt ∧ succeeded sub ∧ r' = Ok tt
  ∧ mins sample_cache alice = (1, 1) ∧ mins (os_Cache t) alice = (0, 0) ∧ (∀ x y, edge (os_Cache t) x y ↔ edge sample_cache x y)
  ∧ hasSufficientCosigners sample_cache ∅ Operation_Normal [alice] = Some false
  ∧ hasSufficientCosigners (os_Cache t) ∅ Operation_Normal [alice] = Some true.
Proof.
  destruct (process_transaction _ _ _ _) as [[sub s] r] eqn:Hrun. vm_compute in Hrun. injection Hrun as <- <- <-.
  destruct (rollback_transaction _ _ _) as [t r'] eqn:Hback. vm_compute in Hback. injection Hback as <- <-.
  split; [exact sample_wf|]. split; [apply sample_received; by right|]. split_and!; try (vm_compute; reflexivity).
  intros x y. apply (same_links_edge sample_cache (set_mins alice (0, 0) sample_cache) x y (set_mins_links alice (0, 0) sample_cache)).
Qed.

End MultisigPlugin.
