(* ===== verification/MultisigSerializer.v ===== *)
(** Model of the serializer of multisig entries
    (plugins/txes/multisig/src/state/MultisigEntrySerializer.cpp).  An entry is
    written with its keys in the order of [std::set]; what is saved is loaded
    again. *)
From stdpp Require Import base tactics numbers option list sorting gmap.
From S2P Require Import Prelude Streams NamespaceSerializer Multisig.

Local Open Scope Z_scope.

Module MultisigSerializer.
Import Stream HistorySerializer Multisig.

Definition Key_Size : nat := 32.

(** The keys in the order of [std::set], which is that of the paths of
    NamespaceSerializer.v. *)
Definition sorted_keys (keySet : gset Key) : list Key := foldr path_insert [] (elements keySet).

Definition SaveKeySet (keySet : gset Key) : list Z := Write64 (Z.of_nat (size keySet)) ++ concat (sorted_keys keySet).

Definition MultisigEntry_Save (entry : MultisigEntry) : list Z :=
  Write32 1 ++ Write8 (m_minApproval entry) ++ Write8 (m_minRemoval entry) ++ m_key entry
  ++ SaveKeySet (m_cosignatories entry) ++ SaveKeySet (m_multisigAccounts entry).

Fixpoint load_keys (numKeys : nat) (keySet : gset Key) : Reader (gset Key) :=
  match numKeys with
  | O => mret keySet
  | S numKeys => key ← read Key_Size; load_keys numKeys ({[ key ]} ∪ keySet)
  end.

Definition LoadKeySet : Reader (gset Key) := numKeys ← Read64; load_keys (Z.to_nat numKeys) ∅.

Definition MultisigEntry_Load : Reader MultisigEntry :=
  version ← Read32;
  if 1 <? version then throw runtime_error
  else
    minApproval ← Read8;
    minRemoval ← Read8;
    key ← read Key_Size;
    cosignatories ← LoadKeySet;
    multisigAccounts ← LoadKeySet;
    mret {| m_key := key; m_cosignatories := cosignatories; m_minApproval := minApproval; m_minRemoval := minRemoval;
            m_multisigAccounts := multisigAccounts |}.

(** * Round trip *)

Lemma sorted_keys_spec keySet : StronglySorted path_lt (sorted_keys keySet) ∧ ∀ k, k ∈ sorted_keys keySet ↔ k ∈ keySet.
Proof.
  unfold sorted_keys. split.
  - induction (elements keySet) as [|k l IH]; [constructor|]. by apply path_insert_sorted.
  - intros k. rewrite <- elem_of_elements. induction (elements keySet) as [|k' l IH]; [done|]. simpl. by rewrite path_insert_elem, elem_of_cons, IH.
Qed.

Lemma sorted_NoDup l : StronglySorted path_lt l → NoDup l.
Proof.
  induction 1 as [|k l _ IH Hall]; constructor; [|done]. intros Hk. rewrite Forall_forall in Hall. specialize (Hall k Hk). by apply path_lt_irrefl in Hall.
Qed.

Lemma sorted_keys_length keySet : length (sorted_keys keySet) = size keySet.
Proof.
  destruct (sorted_keys_spec keySet) as [Hs%sorted_NoDup Hin]. rewrite <- (size_list_to_set (C := gset Key)) by done. f_equal. apply set_eq. intros k.
  by rewrite elem_of_list_to_set.
Qed.

Definition keys_ok (keySet : gset Key) : Prop := in_range 64 (Z.of_nat (size keySet)) ∧ ∀ k, k ∈ keySet → length k = Key_Size.

Lemma reads_load_keys l keySet :
  Forall (λ k : Key, length k = Key_Size) l → reads (load_keys (length l) keySet) (concat l) (keySet ∪ list_to_set l).
Proof.
  intros Hl. revert keySet. induction Hl as [|k l Hk _ IH]; intros keySet.
  - replace (keySet ∪ list_to_set []) with keySet by set_solver. apply reads_ret.
  - cbn [load_keys concat length]. apply reads_bind with k; [rewrite <- Hk; apply reads_read|].
    replace (keySet ∪ list_to_set (k :: l)) with ({[ k ]} ∪ keySet ∪ list_to_set l) by (rewrite list_to_set_cons; set_solver). apply IH.
Qed.

Lemma reads_LoadKeySet keySet : keys_ok keySet → reads LoadKeySet (SaveKeySet keySet) keySet.
Proof.
  intros [Hsize Hkeys]. unfold LoadKeySet, SaveKeySet. apply reads_bind with (Z.of_nat (size keySet)); [by apply reads_Read64|].
  destruct (sorted_keys_spec keySet) as [_ Hin]. rewrite Nat2Z.id, <- sorted_keys_length.
  assert (∅ ∪ list_to_set (sorted_keys keySet) = keySet) as Heq by (apply set_eq; intros k; rewrite elem_of_union, elem_of_list_to_set, Hin; set_solver).
  rewrite <- Heq at 3. apply reads_load_keys, Forall_forall. intros k Hk%Hin. by apply Hkeys.
Qed.

(** Loading a saved entry yields the entry and consumes what was saved. *)
Theorem multisig_entry_roundtrip e :
  length (m_key e) = Key_Size → in_range 8 (m_minApproval e) → in_range 8 (m_minRemoval e) → keys_ok (m_cosignatories e) → keys_ok (m_multisigAccounts e) →
  reads MultisigEntry_Load (MultisigEntry_Save e) e.
Proof.
  intros Hkey Ha Hr Hc Hm. unfold MultisigEntry_Load, MultisigEntry_Save.
  apply reads_bind with 1; [by apply reads_Read32|]. change (1 <? 1) with false. cbv iota.
  apply reads_bind with (m_minApproval e); [by apply reads_Read8|]. apply reads_bind with (m_minRemoval e); [by apply reads_Read8|].
  apply reads_bind with (m_key e); [rewrite <- Hkey; apply reads_read|]. apply reads_bind with (m_cosignatories e); [by apply reads_LoadKeySet|].
  apply reads_bind_end with (m_multisigAccounts e); [by apply reads_LoadKeySet|]. destruct e. apply reads_ret.
Qed.

End MultisigSerializer.
