(* ===== verification/Disruptor.v ===== *)
(** Model of the disruptor that feeds block and transaction ranges to their
    consumers (catapult/disruptor: ConsumerDispatcher.cpp, Disruptor.cpp,
    DisruptorElement.h, DisruptorBarrier(s), ConsumerEntry.h, DisruptorTypes.h,
    and catapult/utils/CircularBuffer.h).

    The dispatcher runs one thread per consumer, and callers of
    [processElement] one at a time (they hold [m_addMutex]).  The threads share
    the circular buffer and the barriers, without locks.  The model is a state
    machine in which every access to shared state is a step of its own, so that
    all interleavings are executions of [step]. *)
From stdpp Require Import base tactics numbers option list relations.
From S2P Require Import Prelude.

Local Open Scope Z_scope.

Module Dispatcher.

(** * Results *)

Inductive CompletionStatus := Aborted | Normal | Consumed.

#[global] Instance CompletionStatus_eq_dec : EqDecision CompletionStatus.
Proof. solve_decision. Defined.

Record ConsumerResult := { consumer_Status : CompletionStatus; consumer_Code : Z }.

Definition Abort (code : Z) : ConsumerResult := {| consumer_Status := Aborted; consumer_Code := code |}.
Definition Continue : ConsumerResult := {| consumer_Status := Normal; consumer_Code := 0 |}.
Definition Complete (code : Z) : ConsumerResult := {| consumer_Status := Consumed; consumer_Code := code |}.

Record ConsumerCompletionResult := { Status : CompletionStatus; Code : Z; FinalConsumerPosition : Z }.

Definition newConsumerCompletionResult : ConsumerCompletionResult :=
  {| Status := Normal; Code := 0; FinalConsumerPosition := max64 |}.

(** * The circular buffer *)

Section circular_buffer.
Context {T : Type}.

Record CircularBuffer := { m_capacity : Z; m_buffer : list T; m_next : Z }.

Definition newCircularBuffer (default : T) (size : Z) : CircularBuffer :=
  {| m_capacity := size; m_buffer := replicate (Z.to_nat size) default; m_next := 0 |}.

Definition truncateIndex (b : CircularBuffer) (index : Z) : nat := Z.to_nat (index mod m_capacity b).

Definition push_back (element : T) (b : CircularBuffer) : CircularBuffer :=
  {| m_capacity := m_capacity b; m_buffer := <[truncateIndex b (m_next b) := element]> (m_buffer b);
     m_next := u64 (m_next b + 1) |}.

Definition buffer_size (b : CircularBuffer) : Z := if m_next b <? m_capacity b then m_next b else m_capacity b.

(** [operator[]] for reading and for writing through the reference. *)
Definition at_index (b : CircularBuffer) (index : Z) : option T := m_buffer b !! truncateIndex b index.
Definition update_at (f : T → T) (index : Z) (b : CircularBuffer) : CircularBuffer :=
  {| m_capacity := m_capacity b; m_buffer := alter f (truncateIndex b index) (m_buffer b); m_next := m_next b |}.

(** Two positions less than a capacity apart have slots of their own. *)
Lemma truncateIndex_inj b p q :
  0 < m_capacity b → 0 ≤ p → 0 ≤ q → - m_capacity b < p - q < m_capacity b →
  truncateIndex b p = truncateIndex b q → p = q.
Proof.
  unfold truncateIndex. intros Hc Hp Hq Hd Heq.
  pose proof (Z.mod_pos_bound p _ Hc). pose proof (Z.mod_pos_bound q _ Hc).
  assert (p mod m_capacity b = q mod m_capacity b) as He by lia.
  pose proof (Z.div_mod p (m_capacity b) ltac:(lia)). pose proof (Z.div_mod q (m_capacity b) ltac:(lia)).
  destruct (Z.lt_trichotomy (p / m_capacity b) (q / m_capacity b)) as [|[|]]; nia.
Qed.

Lemma at_index_update f p b : at_index (update_at f p b) p = f <$> at_index b p.
Proof. unfold at_index, update_at, truncateIndex. simpl. apply list_lookup_alter_eq. Qed.

Lemma at_index_update_ne f p q b :
  0 < m_capacity b → 0 ≤ p → 0 ≤ q → - m_capacity b < p - q < m_capacity b → p ≠ q →
  at_index (update_at f p b) q = at_index b q.
Proof.
  intros. unfold at_index, update_at. simpl. unfold truncateIndex at 1. simpl. fold (truncateIndex b q).
  apply list_lookup_alter_ne. intros ?. eauto using truncateIndex_inj.
Qed.

Lemma at_index_push x b :
  0 < m_capacity b → length (m_buffer b) = Z.to_nat (m_capacity b) → at_index (push_back x b) (m_next b) = Some x.
Proof.
  intros Hc Hl. unfold at_index, push_back. simpl. unfold truncateIndex at 1. simpl. fold (truncateIndex b (m_next b)).
  apply list_lookup_insert_eq. rewrite Hl. unfold truncateIndex.
  pose proof (Z.mod_pos_bound (m_next b) _ Hc). lia.
Qed.

Lemma at_index_push_ne x b q :
  0 < m_capacity b → 0 ≤ m_next b → 0 ≤ q → - m_capacity b < m_next b - q < m_capacity b → m_next b ≠ q →
  at_index (push_back x b) q = at_index b q.
Proof.
  intros. unfold at_index, push_back. simpl. unfold truncateIndex at 2. simpl. fold (truncateIndex b q).
  apply list_lookup_insert_ne. intros ?. eauto using truncateIndex_inj.
Qed.

End circular_buffer.
Arguments CircularBuffer : clear implicits.

(** * Elements and the disruptor *)

Section dispatcher.
(** The ranges ([ConsumerInput]) and completion handlers are opaque. *)
Context {Input Handler : Type}.

Record DisruptorElement := {
  m_input : Input;
  m_id : Z;
  m_processingComplete : Handler;
  m_result : ConsumerCompletionResult
}.

Definition newDisruptorElement (input : Input) (id : Z) (h : Handler) : DisruptorElement :=
  {| m_input := input; m_id := id; m_processingComplete := h; m_result := newConsumerCompletionResult |}.

Definition element_isSkipped (e : DisruptorElement) : bool := bool_decide (Aborted = Status (m_result e)).

Definition element_markSkipped (position code : Z) (e : DisruptorElement) : DisruptorElement :=
  {| m_input := m_input e; m_id := m_id e; m_processingComplete := m_processingComplete e;
     m_result := {| Status := Aborted; Code := code; FinalConsumerPosition := position |} |}.

Definition set_input (input : Input) (e : DisruptorElement) : DisruptorElement :=
  {| m_input := input; m_id := m_id e; m_processingComplete := m_processingComplete e; m_result := m_result e |}.

Record Disruptor := { m_container : CircularBuffer DisruptorElement; m_allElementsCount : Z }.

Definition disruptor_add (input : Input) (h : Handler) (d : Disruptor) : Disruptor * Z :=
  let count := u64 (m_allElementsCount d + 1) in
  ({| m_container := push_back (newDisruptorElement input count h) (m_container d); m_allElementsCount := count |}, count).

Definition update_element (f : DisruptorElement → DisruptorElement) (position : Z) (d : Disruptor) : Disruptor :=
  {| m_container := update_at f position (m_container d); m_allElementsCount := m_allElementsCount d |}.

Definition markSkipped (position code : Z) : Disruptor → Disruptor :=
  update_element (element_markSkipped position code) position.

Definition elementAt (d : Disruptor) (position : Z) : option DisruptorElement := at_index (m_container d) position.

(** * The dispatcher *)

(** Where the thread of a consumer is: in [tryNext], before it reads the
    barrier or with an element in reach; about to call its consumer; about to
    mark an aborted element; about to call [advance]; and, behind [advance] on
    the last level, about to run the inspector and the completion handler of
    the element at a position. *)
Inductive consumer_pc :=
| Polling
| Checking
| Running
| Marking (code : Z)
| Advancing
| Inspecting (position : Z)
| Completing (position : Z).

(** [ConsumerEntry]; its level is the index of the thread. *)
Record ConsumerEntry := { m_position : Z; pc : consumer_pc }.

(** Where the call of [processElement] that holds [m_addMutex] is. *)
Inductive producer_pc :=
| NoCall
| Locked (input : Input) (h : Handler)
| ReadMin (input : Input) (h : Handler) (minPosition : Z)
| Adding (input : Input) (h : Handler)
| Added (id : Z).

(** [accepted], [responses], [inspected] and [completed] record what happened:
    the elements added, the results of [processElement], the calls of the
    inspector and the calls of completion handlers. *)
Record ConsumerDispatcher := {
  m_barriers : list Z;
  m_disruptor : Disruptor;
  m_numActiveElements : Z;
  m_threads : list ConsumerEntry;
  producer : producer_pc;
  accepted : list (Input * Handler);
  responses : list (result Z);
  inspected : list (Input * ConsumerCompletionResult);
  completed : list (Handler * Z * ConsumerCompletionResult)
}.

Record ConsumerDispatcherOptions := { DisruptorSize : Z; ShouldThrowWhenFull : bool }.

Context (options : ConsumerDispatcherOptions) (consumers : list (Input → Input * ConsumerResult)).
Context (input_empty : Input → bool).

(** [ConsumerDispatcher::ConsumerDispatcher], [CheckOptions] included. *)
Definition newConsumerDispatcher (default : DisruptorElement) : result ConsumerDispatcher :=
  if 0 =? DisruptorSize options then Throw invalid_argument
  else Ok {|
    m_barriers := replicate (S (length consumers)) 0;
    m_disruptor := {| m_container := newCircularBuffer default (DisruptorSize options); m_allElementsCount := 0 |};
    m_numActiveElements := 0;
    m_threads := replicate (length consumers) {| m_position := 0; pc := Polling |};
    producer := NoCall; accepted := []; responses := []; inspected := []; completed := []
  |}.

Definition canProcessNextElement (minPosition maxPosition : Z) : bool :=
  let requiredCapacity := u64 (maxPosition - minPosition + 1 + 1) in
  if requiredCapacity <? DisruptorSize options then true else requiredCapacity =? DisruptorSize options.

Definition set_producer (p : producer_pc) (rs : list (result Z)) (d : ConsumerDispatcher) : ConsumerDispatcher :=
  {| m_barriers := m_barriers d; m_disruptor := m_disruptor d; m_numActiveElements := m_numActiveElements d;
     m_threads := m_threads d; producer := p; accepted := accepted d; responses := responses d ++ rs;
     inspected := inspected d; completed := completed d |}.

(** [processElement], entered with an input and a handler. *)
Definition processElement (input : Input) (h : Handler) (d : ConsumerDispatcher) : option ConsumerDispatcher :=
  match producer d with
  | NoCall => Some (if input_empty input then set_producer NoCall [Ok 0] d else set_producer (Locked input h) [] d)
  | _ => None
  end.

(** The next access to shared state of the call that holds the mutex. *)
Definition producer_step (d : ConsumerDispatcher) : option ConsumerDispatcher :=
  match producer d with
  | NoCall => None
  | Locked input h =>
      minPosition ← m_barriers d !! (length (m_barriers d) - 1)%nat;
      Some (set_producer (ReadMin input h minPosition) [] d)
  | ReadMin input h minPosition =>
      maxPosition ← m_barriers d !! 0%nat;
      Some (if canProcessNextElement minPosition maxPosition then set_producer (Adding input h) [] d
            else set_producer NoCall [if ShouldThrowWhenFull options then Throw runtime_error else Ok 0] d)
  | Adding input h =>
      let '(dis, id) := disruptor_add input h (m_disruptor d) in
      Some {| m_barriers := m_barriers d; m_disruptor := dis; m_numActiveElements := u64 (m_numActiveElements d + 1);
              m_threads := m_threads d; producer := Added id; accepted := accepted d ++ [(input, h)];
              responses := responses d; inspected := inspected d; completed := completed d |}
  | Added id =>
      Some {| m_barriers := alter (λ p, u64 (p + 1)) 0%nat (m_barriers d); m_disruptor := m_disruptor d;
              m_numActiveElements := m_numActiveElements d; m_threads := m_threads d; producer := NoCall;
              accepted := accepted d; responses := responses d ++ [Ok id];
              inspected := inspected d; completed := completed d |}
  end.

Definition set_thread (level : nat) (t : ConsumerEntry) (d : ConsumerDispatcher) : ConsumerDispatcher :=
  {| m_barriers := m_barriers d; m_disruptor := m_disruptor d; m_numActiveElements := m_numActiveElements d;
     m_threads := <[level := t]> (m_threads d); producer := producer d; accepted := accepted d;
     responses := responses d; inspected := inspected d; completed := completed d |}.

Definition set_disruptor (dis : Disruptor) (d : ConsumerDispatcher) : ConsumerDispatcher :=
  {| m_barriers := m_barriers d; m_disruptor := dis; m_numActiveElements := m_numActiveElements d;
     m_threads := m_threads d; producer := producer d; accepted := accepted d;
     responses := responses d; inspected := inspected d; completed := completed d |}.

(** [ConsumerDispatcher::advance] up to the test for the last level. *)
Definition advance (level : nat) (position : Z) (d : ConsumerDispatcher) : ConsumerDispatcher :=
  let next := if decide (level + 1 ≠ length (m_barriers d) - 1)%nat then Polling else Inspecting position in
  let d' := set_thread level {| m_position := u64 (position + 1); pc := next |} d in
  {| m_barriers := alter (λ p, u64 (p + 1)) (level + 1)%nat (m_barriers d'); m_disruptor := m_disruptor d';
     m_numActiveElements := m_numActiveElements d'; m_threads := m_threads d'; producer := producer d';
     accepted := accepted d'; responses := responses d'; inspected := inspected d'; completed := completed d' |}.

(** The next step of the thread of the consumer at [level]; [None] when it
    waits for its barrier. *)
Definition consumer_step (level : nat) (d : ConsumerDispatcher) : option ConsumerDispatcher :=
  t ← m_threads d !! level;
  let position := m_position t in
  let goto pc := set_thread level {| m_position := position; pc := pc |} in
  match pc t with
  | Polling =>
      barrierPosition ← m_barriers d !! level;
      if decide (position = barrierPosition) then None else Some (goto Checking d)
  | Checking =>
      element ← elementAt (m_disruptor d) position;
      Some (goto (if element_isSkipped element then Advancing else Running) d)
  | Running =>
      consumer ← consumers !! level;
      element ← elementAt (m_disruptor d) position;
      let '(input, r) := consumer (m_input element) in
      Some (goto (if decide (Aborted = consumer_Status r) then Marking (consumer_Code r) else Advancing)
              (set_disruptor (update_element (set_input input) position (m_disruptor d)) d))
  | Marking code => Some (goto Advancing (set_disruptor (markSkipped position code (m_disruptor d)) d))
  | Advancing => Some (advance level position d)
  | Inspecting p =>
      element ← elementAt (m_disruptor d) p;
      let d := goto (Completing p) d in
      Some {| m_barriers := m_barriers d; m_disruptor := m_disruptor d; m_numActiveElements := m_numActiveElements d;
              m_threads := m_threads d; producer := producer d; accepted := accepted d; responses := responses d;
              inspected := inspected d ++ [(m_input element, m_result element)]; completed := completed d |}
  | Completing p =>
      element ← elementAt (m_disruptor d) p;
      let d := goto Polling d in
      Some {| m_barriers := m_barriers d; m_disruptor := m_disruptor d; m_numActiveElements := u64 (m_numActiveElements d - 1);
              m_threads := m_threads d; producer := producer d; accepted := accepted d; responses := responses d;
              inspected := inspected d;
              completed := completed d ++ [(m_processingComplete element, m_id element, m_result element)] |}
  end.

(** Any thread may take the next step. *)
Inductive step : ConsumerDispatcher → ConsumerDispatcher → Prop :=
| step_call input h d d' : processElement input h d = Some d' → step d d'
| step_producer d d' : producer_step d = Some d' → step d d'
| step_consumer level d d' : consumer_step level d = Some d' → step d d'.

(** * What each element goes through *)

(** The consumers one after the other, until one of them aborts. *)
Definition run_consumer (p : Z) (s : Input * ConsumerCompletionResult) (consumer : Input → Input * ConsumerResult)
    : Input * ConsumerCompletionResult :=
  if decide (Aborted = Status (snd s)) then s
  else let '(input, r) := consumer (fst s) in
    (input, if decide (Aborted = consumer_Status r)
            then {| Status := Aborted; Code := consumer_Code r; FinalConsumerPosition := p |} else snd s).

Definition processed (p : Z) (levels : nat) (input : Input) : Input * ConsumerCompletionResult :=
  foldl (run_consumer p) (input, newConsumerCompletionResult) (take levels consumers).

Notation L := (length consumers).

(** The completion of the element at position [p]. *)
Definition inspection (p : nat) (a : Input * Handler) : Input * ConsumerCompletionResult :=
  processed (Z.of_nat p) L (fst a).
Definition completion (p : nat) (a : Input * Handler) : Handler * Z * ConsumerCompletionResult :=
  (snd a, Z.of_nat p + 1, snd (processed (Z.of_nat p) L (fst a))).

Lemma processed_S p i input consumer :
  consumers !! i = Some consumer → processed p (S i) input = run_consumer p (processed p i input) consumer.
Proof. intros Hc. unfold processed. by rewrite (take_S_r _ _ _ Hc), foldl_app. Qed.

(** ** The invariant *)

Definition bar (d : ConsumerDispatcher) (i : nat) : Z := default 0 (m_barriers d !! i).
Definition count (d : ConsumerDispatcher) : Z := Z.of_nat (length (accepted d)).
Notation cap := (DisruptorSize options).

(** Level [i] is the next to process the positions from [lower] to [upper];
    behind the last level are those that all have processed. *)
Definition lower (d : ConsumerDispatcher) (i : nat) : Z := if decide (i = L) then 0 else bar d (S i).
Definition upper (d : ConsumerDispatcher) (i : nat) : Z := if decide (i = 0%nat) then count d else bar d i.

(** The element at position [p] while level [i], with thread [t], is next. *)
Definition stage_element (t : option ConsumerEntry) (i : nat) (p : Z) (a : Input * Handler) : DisruptorElement :=
  let make s := {| m_input := fst s; m_id := p + 1; m_processingComplete := snd a; m_result := snd s |} in
  match t with
  | Some t =>
      if decide (m_position t = p) then
        match pc t with
        | Marking _ => make (fst (processed p (S i) (fst a)), snd (processed p i (fst a)))
        | Advancing => make (processed p (S i) (fst a))
        | _ => make (processed p i (fst a))
        end
      else make (processed p i (fst a))
  | None => make (processed p i (fst a))
  end.

Definition active (q : consumer_pc) : bool :=
  match q with Checking | Running | Marking _ | Advancing => true | _ => false end.

(** What a thread has found out about its element. *)
Definition pc_ok (d : ConsumerDispatcher) (i : nat) (t : ConsumerEntry) : Prop :=
  let p := m_position t in
  ∀ a, accepted d !! Z.to_nat p = Some a →
  match pc t with
  | Running => Aborted ≠ Status (snd (processed p i (fst a)))
  | Marking code => snd (processed p (S i) (fst a)) = {| Status := Aborted; Code := code; FinalConsumerPosition := p |}
  | _ => True
  end.

Definition thread_ok (d : ConsumerDispatcher) (i : nat) (t : ConsumerEntry) : Prop :=
  bar d (S i) = m_position t ∧ m_position t ≤ bar d i
  ∧ (active (pc t) = true → m_position t < bar d i)
  ∧ (∀ q, pc t = Inspecting q ∨ pc t = Completing q → S i = L ∧ m_position t = q + 1 ∧ 0 ≤ q)
  ∧ pc_ok d i t.

(** Elements behind the last level whose inspection or completion is due. *)
Definition to_inspect (q : consumer_pc) : Z := match q with Inspecting _ => 1 | _ => 0 end.
Definition to_complete (q : consumer_pc) : Z := match q with Inspecting _ | Completing _ => 1 | _ => 0 end.

Definition producer_ok (d : ConsumerDispatcher) : Prop :=
  match producer d with
  | ReadMin _ _ minPosition => 0 ≤ minPosition ≤ bar d L
  | Adding _ _ => count d + 2 ≤ bar d L + cap
  | Added id => id = count d ∧ 1 ≤ count d
  | _ => True
  end.

Definition last_pc (d : ConsumerDispatcher) : consumer_pc :=
  match last (m_threads d) with Some t => pc t | None => Polling end.

Record inv (d : ConsumerDispatcher) : Prop := {
  inv_levels : length (m_barriers d) = S L ∧ length (m_threads d) = L;
  inv_buffer : m_capacity (m_container (m_disruptor d)) = cap ∧ length (m_buffer (m_container (m_disruptor d))) = Z.to_nat cap;
  inv_counts : m_next (m_container (m_disruptor d)) = count d ∧ m_allElementsCount (m_disruptor d) = count d;
  inv_first : bar d 0 = count d - (match producer d with Added _ => 1 | _ => 0 end) ∧ 0 ≤ bar d L;
  inv_threads : ∀ i t, m_threads d !! i = Some t → thread_ok d i t;
  inv_window : count d - bar d L ≤ cap - 1;
  inv_producer : producer_ok d;
  inv_content : ∀ i p a, (i ≤ L)%nat → lower d i ≤ p < upper d i → 0 ≤ p → count d - cap ≤ p →
    accepted d !! Z.to_nat p = Some a → elementAt (m_disruptor d) p = Some (stage_element (m_threads d !! i) i p a);
  inv_inspected : inspected d = take (Z.to_nat (bar d L - to_inspect (last_pc d))) (imap inspection (accepted d));
  inv_completed : completed d = take (Z.to_nat (bar d L - to_complete (last_pc d))) (imap completion (accepted d));
  inv_active : m_numActiveElements d = count d - (bar d L - to_complete (last_pc d))
}.

Context (Hcap : 0 < cap < 2 ^ 62) (HL : (0 < L)%nat).

Lemma bar_step d i : inv d → (i < L)%nat → bar d (S i) ≤ bar d i.
Proof.
  intros Hinv Hi. destruct (inv_levels d Hinv) as [_ Hl].
  destruct (lookup_lt_is_Some_2 (m_threads d) i) as [t Ht]; [lia|].
  destruct (inv_threads d Hinv i t Ht) as (-> & ? & _). done.
Qed.

Lemma bar_mono d i j : inv d → (i ≤ j ≤ L)%nat → bar d j ≤ bar d i.
Proof.
  intros Hinv [Hij Hj]. induction Hij as [|j Hij IH]; [lia|].
  pose proof (bar_step d j Hinv ltac:(lia)). specialize (IH ltac:(lia)). lia.
Qed.

Lemma bar_bounds d i : inv d → (i ≤ L)%nat → 0 ≤ bar d L ≤ bar d i ∧ bar d i ≤ count d.
Proof.
  intros Hinv Hi. pose proof (bar_mono d i L Hinv ltac:(lia)). pose proof (bar_mono d 0 i Hinv ltac:(lia)).
  destruct (inv_first d Hinv) as [H1 H2]. destruct (producer d); lia.
Qed.

(** The position of an active thread: its element is in the buffer, and its
    level is the next to process it. *)
Lemma active_position d i t :
  inv d → m_threads d !! i = Some t → active (pc t) = true →
  (i < L)%nat ∧ lower d i ≤ m_position t < upper d i ∧ 0 ≤ m_position t ∧ count d - cap < m_position t
  ∧ (∃ a, accepted d !! Z.to_nat (m_position t) = Some a
        ∧ elementAt (m_disruptor d) (m_position t) = Some (stage_element (Some t) i (m_position t) a)).
Proof.
  intros Hinv Ht Ha. assert (i < L)%nat as Hi.
  { apply lookup_lt_Some in Ht. destruct (inv_levels d Hinv). lia. }
  destruct (inv_threads d Hinv i t Ht) as (Hb & Hle & Hlt & _ & _). specialize (Hlt Ha).
  pose proof (bar_bounds d i Hinv ltac:(lia)). pose proof (bar_bounds d (S i) Hinv ltac:(lia)).
  pose proof (inv_window d Hinv).
  assert (lower d i ≤ m_position t < upper d i) as Hlu.
  { unfold lower, upper. rewrite decide_False by lia. destruct (decide (i = 0%nat)); subst; lia. }
  split_and!; [done|lia|lia|lia|lia|].
  destruct (lookup_lt_is_Some_2 (accepted d) (Z.to_nat (m_position t))) as [a Hacc]; [unfold count in *; lia|].
  exists a. split; [done|]. rewrite (inv_content d Hinv i _ a); [by rewrite Ht|lia|done|lia|lia|done].
Qed.

(** ** Steps of a consumer that keep its position *)

(** [dis'] differs from [dis] at position [p] only, where it has [e]. *)
Definition changes_only (p : Z) (e : DisruptorElement) (dis dis' : Disruptor) : Prop :=
  m_capacity (m_container dis') = m_capacity (m_container dis)
  ∧ length (m_buffer (m_container dis')) = length (m_buffer (m_container dis))
  ∧ m_next (m_container dis') = m_next (m_container dis) ∧ m_allElementsCount dis' = m_allElementsCount dis
  ∧ elementAt dis' p = Some e
  ∧ ∀ q, 0 ≤ q → - m_capacity (m_container dis) < p - q < m_capacity (m_container dis) → p ≠ q →
      elementAt dis' q = elementAt dis q.

Lemma changes_nothing p e dis : elementAt dis p = Some e → changes_only p e dis dis.
Proof. intros. unfold changes_only. by split_and!. Qed.

Lemma changes_update p e f dis :
  0 < m_capacity (m_container dis) → 0 ≤ p → elementAt dis p = Some e → changes_only p (f e) dis (update_element f p dis).
Proof.
  intros Hc Hp He. unfold changes_only, elementAt in *. simpl. split_and!; try done.
  - apply length_alter.
  - by rewrite at_index_update, He.
  - intros. by apply at_index_update_ne.
Qed.

Lemma last_pc_set d i t :
  inv d → last_pc (set_thread i t d) = if decide (S i = L) then pc t else last_pc d.
Proof.
  intros Hinv. destruct (inv_levels d Hinv) as [_ Hl]. unfold last_pc. simpl. rewrite !last_lookup, length_insert, Hl.
  destruct (decide (S i = L)) as [E|]; simpl.
  - rewrite <-E. simpl. by rewrite list_lookup_insert_eq by lia.
  - by rewrite list_lookup_insert_ne by lia.
Qed.

Lemma last_pc_lookup d i t : inv d → m_threads d !! i = Some t → S i = L → last_pc d = pc t.
Proof.
  intros Hinv Ht Hi. destruct (inv_levels d Hinv) as [_ Hl]. unfold last_pc. rewrite last_lookup, Hl, <-Hi. simpl. by rewrite Ht.
Qed.

(** The positions between two barriers belong to one level. *)
Lemma level_unique d i j p :
  inv d → (i < L)%nat → (j ≤ L)%nat → bar d (S i) ≤ p < bar d i → lower d j ≤ p < upper d j → i = j.
Proof.
  intros Hinv Hi Hj Hp. unfold lower, upper. intros Hq. destruct (lt_eq_lt_dec i j) as [[Hlt|]|Hgt]; [|done|].
  - rewrite (decide_False (P := j = 0%nat)) in Hq by lia. pose proof (bar_mono d (S i) j Hinv ltac:(lia)). lia.
  - rewrite (decide_False (P := j = L)) in Hq by lia. pose proof (bar_mono d (S j) i Hinv ltac:(lia)). lia.
Qed.

Lemma stage_element_other t t' i p a :
  m_position t ≠ p → m_position t' ≠ p → stage_element (Some t) i p a = stage_element (Some t') i p a.
Proof. intros. unfold stage_element. by rewrite !decide_False. Qed.

Lemma inv_local d i t q dis' a :
  inv d → m_threads d !! i = Some t → m_position t < bar d i → to_complete (pc t) = 0 → active q = true →
  let t' := {| m_position := m_position t; pc := q |} in
  accepted d !! Z.to_nat (m_position t) = Some a → pc_ok d i t' →
  changes_only (m_position t) (stage_element (Some t') i (m_position t) a) (m_disruptor d) dis' →
  inv (set_thread i t' (set_disruptor dis' d)).
Proof.
  intros Hinv Ht Hlt Hpc Hq t' Ha Hok (Hc & Hlen & Hn & Hcnt & He & Hother). pose proof Hinv as Hinv0.
  assert (i < L)%nat as Hi by (apply lookup_lt_Some in Ht; destruct (inv_levels d Hinv); lia).
  assert (∀ f : consumer_pc → Z, (f = to_inspect ∨ f = to_complete) →
    f (last_pc (set_thread i t' (set_disruptor dis' d))) = f (last_pc d)) as Hlast.
  { intros f Hf. change (last_pc (set_thread i t' (set_disruptor dis' d))) with (last_pc (set_thread i t' d)).
    rewrite last_pc_set by done. destruct (decide (S i = L)); [|done]. rewrite (last_pc_lookup d i t) by done.
    destruct Hf as [-> | ->]; destruct (pc t); try done; by destruct q. }
  destruct (inv_threads d Hinv i t Ht) as (Hb & Hle & _).
  destruct Hinv as [[Hl1 Hl2] [Hb1 Hb2] [Hn1 Hn2] Hf Hth Hw Hp Hco Hins Hcom Hact].
  constructor; try done; simpl.
  - by rewrite length_insert.
  - by rewrite Hc, Hlen.
  - by rewrite Hn, Hcnt.
  - intros j tj. destruct (decide (i = j)) as [<-|Hne].
    + rewrite list_lookup_insert_eq by lia. intros [= <-]. unfold thread_ok; simpl. split_and!; try done.
      intros r [-> | ->]; done.
    + rewrite list_lookup_insert_ne by done. intros Htj. apply Hth in Htj. done.
  - intros j p b Hj Hlu Hp0 Hcc Hacc. change (lower _ j) with (lower d j) in Hlu. change (upper _ j) with (upper d j) in Hlu.
    change (count _) with (count d) in Hcc.
    destruct (decide (p = m_position t)) as [->|Hne].
    + assert (i = j) as <- by (eapply level_unique; [done|done|done| |exact Hlu]; lia).
      rewrite list_lookup_insert_eq by lia. rewrite Ha in Hacc. by injection Hacc as <-.
    + pose proof (bar_bounds d j Hinv0 Hj). pose proof (bar_bounds d i Hinv0 ltac:(lia)).
      pose proof (bar_bounds d (S i) Hinv0 ltac:(lia)).
      assert (upper d j ≤ count d) by (unfold upper; case_decide; lia).
      rewrite Hother; [|lia|rewrite Hb1; unfold bar in *; lia|done].
      destruct (decide (i = j)) as [<-|Hne'].
      * rewrite list_lookup_insert_eq by lia. rewrite (Hco i p b) by done. rewrite Ht. f_equal. by apply stage_element_other.
      * rewrite list_lookup_insert_ne by done. by apply Hco.
  - rewrite Hlast by auto. done.
  - rewrite Hlast by auto. done.
  - rewrite Hlast by auto. done.
Qed.

Lemma inv_local_same d i t q a :
  inv d → m_threads d !! i = Some t → m_position t < bar d i → to_complete (pc t) = 0 → active q = true →
  let t' := {| m_position := m_position t; pc := q |} in
  accepted d !! Z.to_nat (m_position t) = Some a → pc_ok d i t' →
  elementAt (m_disruptor d) (m_position t) = Some (stage_element (Some t') i (m_position t) a) →
  inv (set_thread i t' d).
Proof.
  intros Hinv Ht Hlt Hpc Hq t' Ha Hok He.
  replace (set_thread i t' d) with (set_thread i t' (set_disruptor (m_disruptor d) d)) by (by destruct d).
  eapply inv_local; eauto using changes_nothing.
Qed.

(** ** Steps that advance a level *)

Lemma bar_alter (d d' : ConsumerDispatcher) f i j :
  m_barriers d' = alter f i (m_barriers d) → (i < length (m_barriers d))%nat →
  bar d' j = if decide (i = j) then f (bar d i) else bar d j.
Proof.
  intros E Hi. unfold bar. rewrite E. destruct (decide (i = j)) as [<-|].
  - rewrite list_lookup_alter_eq. by destruct (lookup_lt_is_Some_2 _ _ Hi) as [x ->].
  - by rewrite list_lookup_alter_ne.
Qed.

(** A thread that waits at its barrier has not touched the next element. *)
Lemma stage_element_waiting d i p a :
  inv d → bar d i ≤ p →
  stage_element (m_threads d !! i) i p a =
    {| m_input := fst (processed p i (fst a)); m_id := p + 1; m_processingComplete := snd a;
       m_result := snd (processed p i (fst a)) |}.
Proof.
  intros Hinv Hp. unfold stage_element. destruct (m_threads d !! i) as [t|] eqn:Ht; [|done].
  destruct (inv_threads d Hinv i t Ht) as (_ & _ & Hact & _). destruct (decide (m_position t = p)); [|done].
  destruct (pc t); try done; specialize (Hact eq_refl); lia.
Qed.

(** What [advance] changes. *)
Section advance.
Context (d : ConsumerDispatcher) (i : nat) (t : ConsumerEntry).
Context (Hinv : inv d) (Ht : m_threads d !! i = Some t) (Hpc : pc t = Advancing) (Hsmall : count d < 2 ^ 63).
Let p := m_position t.
Let d' := advance i p d.
Let next := if decide (S i = L) then Inspecting p else Polling.

Lemma advance_level : (i < L)%nat ∧ 0 ≤ p < bar d i ∧ bar d i ≤ count d ∧ bar d (S i) = p.
Proof.
  destruct (active_position d i t Hinv Ht) as (Hi & _ & Hp0 & _); [by rewrite Hpc|].
  destruct (inv_threads d Hinv i t Ht) as (Hb & _ & Hlt & _). rewrite Hpc in Hlt. specialize (Hlt eq_refl).
  pose proof (bar_bounds d i Hinv ltac:(lia)). unfold p. split_and!; done || lia.
Qed.

Lemma advance_threads : m_threads d' = <[i := {| m_position := p + 1; pc := next |}]> (m_threads d).
Proof.
  destruct advance_level as (Hi & Hp & Hc & _). destruct (inv_levels d Hinv) as [Hl _]. unfold d', next. simpl.
  rewrite wrap_small by (unfold in_range; lia). do 2 f_equal.
  destruct (decide (S i = L)); [rewrite decide_False by lia|rewrite decide_True by lia]; done.
Qed.

Lemma advance_bar j : bar d' j = if decide (S i = j) then p + 1 else bar d j.
Proof.
  destruct advance_level as (Hi & Hp & Hc & Hb). destruct (inv_levels d Hinv) as [Hl _].
  rewrite (bar_alter d d' (λ p, u64 (p + 1)) (i + 1)%nat j) by (simpl; (done || lia)).
  replace (i + 1)%nat with (S i) by lia. rewrite Hb. by rewrite wrap_small by (unfold in_range; lia).
Qed.

Lemma advance_due (f : consumer_pc → Z) :
  f = to_inspect ∨ f = to_complete → bar d' L - f (last_pc d') = bar d L - f (last_pc d).
Proof.
  intros Hf. destruct advance_level as (Hi & Hp & Hc & Hb).
  assert (last_pc d' = if decide (S i = L) then Inspecting p else last_pc d) as ->.
  { transitivity (last_pc (set_thread i {| m_position := p + 1; pc := next |} d)).
    - unfold last_pc. by rewrite advance_threads.
    - rewrite last_pc_set by done. unfold next. by destruct (decide (S i = L)). }
  rewrite advance_bar. destruct (decide (S i = L)) as [E|]; [|done].
  rewrite (last_pc_lookup d i t), Hpc, <-E, Hb by done. destruct Hf as [-> | ->]; simpl; lia.
Qed.

Lemma next_inactive : active next = false.
Proof. unfold next. by case_decide. Qed.

Lemma advance_thread_ok j tj : m_threads d' !! j = Some tj → thread_ok d' j tj.
Proof.
  destruct advance_level as (Hi & Hp & Hc & Hb). destruct (inv_levels d Hinv) as [_ Hl]. rewrite advance_threads.
  destruct (decide (i = j)) as [<-|Hne].
  - rewrite list_lookup_insert_eq by lia. intros [= <-]. unfold thread_ok. simpl.
    rewrite !advance_bar, decide_True, (decide_False (P := S i = i)), next_inactive by lia.
    split_and!; [done|lia|done| |intros ??; simpl; clear; unfold next; by case_decide].
    intros q. unfold next. destruct (decide (S i = L)); intros [Hq|Hq]; try done. injection Hq as <-. split_and!; done || lia.
  - rewrite list_lookup_insert_ne by done. intros Htj. destruct (inv_threads d Hinv j tj Htj) as (Hj1 & Hj2 & Hj3 & Hj4 & Hj5).
    unfold thread_ok. rewrite !advance_bar, (decide_False (P := S i = S j)) by lia.
    split_and!; [done| | |done|done]; destruct (decide (S i = j)) as [<-|]; try done; [lia|].
    intros Hac. specialize (Hj3 Hac). lia.
Qed.

Lemma advance_content j q b :
  (j ≤ L)%nat → lower d' j ≤ q < upper d' j → 0 ≤ q → count d - cap ≤ q → accepted d !! Z.to_nat q = Some b →
  elementAt (m_disruptor d) q = Some (stage_element (m_threads d' !! j) j q b).
Proof.
  intros Hj Hq Hq0 Hqw Hqa. destruct advance_level as (Hi & Hp & Hc & Hb). destruct (inv_levels d Hinv) as [_ Hl].
  pose proof (inv_content d Hinv) as Hco. unfold lower, upper in Hq. change (count d') with (count d) in Hq.
  rewrite !advance_bar in Hq. rewrite advance_threads. destruct (decide (i = j)) as [<-|Hne].
  - rewrite decide_False, decide_True, (decide_False (P := S i = i)) in Hq by lia.
    rewrite (Hco i q b), Ht, list_lookup_insert_eq; [|lia|lia| |done|done|done].
    + f_equal. unfold stage_element. simpl. fold p. rewrite (decide_False (P := p = q)) by lia.
      destruct (decide (p + 1 = q)); [|done]. clear. unfold next. by case_decide.
    + unfold lower, upper. rewrite decide_False by lia. lia.
  - rewrite list_lookup_insert_ne by done. rewrite (decide_False (P := S i = S j)) in Hq by lia.
    destruct (decide (S i = j)) as [<-|]; [|by apply Hco].
    rewrite (decide_False (P := S i = 0%nat)) in Hq by lia. destruct (decide (q = p)) as [->|].
    + destruct (active_position d i t Hinv Ht) as (_ & _ & _ & _ & a & Ha & He); [by rewrite Hpc|]. fold p in Ha, He.
      rewrite Ha in Hqa. injection Hqa as <-. rewrite He. rewrite stage_element_waiting by (done || lia).
      unfold stage_element. fold p. by rewrite decide_True, Hpc.
    + apply Hco; try done. unfold lower, upper. rewrite (decide_False (P := S i = 0%nat)) by lia. lia.
Qed.

Lemma inv_advance : inv d'.
Proof.
  destruct advance_level as (Hi & Hp & Hc & Hb).
  assert (bar d L ≤ bar d' L) as HbL by (rewrite advance_bar; case_decide as E; [rewrite <-E; lia|lia]).
  pose proof (inv_levels d Hinv) as [Hl1 Hl2]. pose proof (inv_first d Hinv) as [Hf1 Hf2].
  constructor.
  - simpl. by rewrite length_alter, length_insert.
  - apply Hinv.
  - apply Hinv.
  - rewrite advance_bar, decide_False by lia. split; [done|lia].
  - apply advance_thread_ok.
  - change (count d') with (count d). pose proof (inv_window d Hinv). lia.
  - pose proof (inv_producer d Hinv) as Hpr. unfold producer_ok in *. change (producer d') with (producer d).
    change (count d') with (count d). destruct (producer d); lia || done.
  - apply advance_content.
  - rewrite advance_due by auto. apply Hinv.
  - rewrite advance_due by auto. apply Hinv.
  - rewrite advance_due by auto. apply Hinv.
Qed.

End advance.

(** ** Steps behind the last level *)

(** The element whose inspection or completion is due is still in the buffer,
    as the last consumer has left it. *)
Lemma due_element d i t q :
  inv d → m_threads d !! i = Some t → pc t = Inspecting q ∨ pc t = Completing q →
  S i = L ∧ last_pc d = pc t ∧ 0 ≤ q ∧ bar d L = q + 1 ∧ ∃ a, accepted d !! Z.to_nat q = Some a
    ∧ elementAt (m_disruptor d) q = Some
        {| m_input := fst (processed q L (fst a)); m_id := q + 1; m_processingComplete := snd a;
           m_result := snd (processed q L (fst a)) |}.
Proof.
  intros Hinv Ht Hpc. destruct (inv_threads d Hinv i t Ht) as (Hb & _ & _ & Hq & _).
  destruct (Hq q Hpc) as (Hi & Hpos & Hq0). rewrite Hi, Hpos in Hb.
  pose proof (bar_bounds d L Hinv ltac:(lia)). pose proof (inv_window d Hinv).
  destruct (lookup_lt_is_Some_2 (accepted d) (Z.to_nat q)) as [a Ha]; [unfold count in *; lia|].
  split_and!; [done|by eapply last_pc_lookup|done|done|]. exists a. split; [done|].
  rewrite (inv_content d Hinv L q a); [| |unfold lower, upper; rewrite decide_True, decide_False by lia; lia|lia|lia|done].
  - rewrite lookup_ge_None_2; [done|]. destruct (inv_levels d Hinv). lia.
  - lia.
Qed.

Lemma take_imap_snoc {A B} (f : nat → A → B) l q a :
  0 ≤ q → l !! Z.to_nat q = Some a → take (Z.to_nat q) (imap f l) ++ [f (Z.to_nat q) a] = take (Z.to_nat (q + 1)) (imap f l).
Proof.
  intros Hq Ha. replace (Z.to_nat (q + 1)) with (S (Z.to_nat q)) by lia.
  symmetry. apply take_S_r. by rewrite list_lookup_imap, Ha.
Qed.

(** Going on to another place behind the last level. *)
Lemma inv_threads_behind d i t q' :
  inv d → m_threads d !! i = Some t → active q' = false →
  (∀ q, q' = Inspecting q ∨ q' = Completing q → S i = L ∧ m_position t = q + 1 ∧ 0 ≤ q) →
  let t' := {| m_position := m_position t; pc := q' |} in
  (∀ j tj, <[i := t']> (m_threads d) !! j = Some tj → thread_ok d j tj)
  ∧ ∀ j p a, to_complete (pc t) = 1 → stage_element (<[i := t']> (m_threads d) !! j) j p a = stage_element (m_threads d !! j) j p a.
Proof.
  intros Hinv Ht Ha Hq' t'. assert (i < length (m_threads d))%nat as Hi by (by eapply lookup_lt_Some). split.
  - intros j tj. destruct (decide (i = j)) as [<-|]; [|rewrite list_lookup_insert_ne by done; apply Hinv].
    rewrite list_lookup_insert_eq by done. intros [= <-]. destruct (inv_threads d Hinv i t Ht) as (Hb & Hle & _).
    unfold thread_ok. simpl. rewrite Ha. split_and!; [done|done|done|done|].
    unfold pc_ok. simpl. intros ? _. by destruct q'.
  - intros j p a Hc. destruct (decide (i = j)) as [<-|]; [|by rewrite list_lookup_insert_ne].
    rewrite list_lookup_insert_eq, Ht by done. unfold stage_element. simpl.
    destruct (decide (m_position t = p)); [|done]. destruct (pc t); try done; by destruct q'.
Qed.

Lemma inv_inspect d i t q d' :
  inv d → m_threads d !! i = Some t → pc t = Inspecting q → consumer_step i d = Some d' → inv d'.
Proof.
  intros Hinv Ht Hpc. unfold consumer_step. rewrite Ht. simpl. rewrite Hpc.
  destruct (due_element d i t q Hinv Ht (or_introl Hpc)) as (Hi & Hlast & Hq & Hb & a & Ha & He). rewrite He. simpl.
  intros [= <-]. destruct (inv_threads_behind d i t (Completing q) Hinv Ht eq_refl) as [Hth' Hst'].
  { intros r [[=]|[= <-]]. destruct (inv_threads d Hinv i t Ht) as (_ & _ & _ & Hr & _). apply Hr. auto. }
  destruct (inv_levels d Hinv). assert (i < length (m_threads d))%nat by lia.
  destruct Hinv as [? ? ? ? Hth ? ? Hco Hins Hcom Hact].
  assert (last (<[i := {| m_position := m_position t; pc := Completing q |}]> (m_threads d)) =
    Some {| m_position := m_position t; pc := Completing q |}) as Hl.
  { rewrite last_lookup, length_insert. replace (Init.Nat.pred _) with i by lia. by apply list_lookup_insert_eq. }
  rewrite Hlast, Hpc in Hins, Hcom, Hact. constructor; try done; simpl.
  - by rewrite length_insert.
  - intros j p b. rewrite Hst' by (by rewrite Hpc). apply Hco.
  - unfold last_pc. simpl. rewrite Hl, Hins. simpl. change (bar _ L) with (bar d L). rewrite Hb, Z.add_simpl_r, Z.sub_0_r.
    rewrite <-(take_imap_snoc inspection _ q a) by done. f_equal.
    unfold inspection. rewrite Z2Nat.id by done. by destruct (processed q L (fst a)).
  - unfold last_pc. simpl. by rewrite Hl.
  - unfold last_pc. simpl. by rewrite Hl.
Qed.

Lemma inv_complete d i t q d' :
  inv d → m_threads d !! i = Some t → pc t = Completing q → count d < 2 ^ 63 → consumer_step i d = Some d' → inv d'.
Proof.
  intros Hinv Ht Hpc Hsmall. unfold consumer_step. rewrite Ht. simpl. rewrite Hpc.
  destruct (due_element d i t q Hinv Ht (or_intror Hpc)) as (Hi & Hlast & Hq & Hb & a & Ha & He). rewrite He. simpl.
  intros [= <-]. destruct (inv_threads_behind d i t Polling Hinv Ht eq_refl) as [Hth' Hst'].
  { intros r [[=]|[=]]. }
  destruct (inv_levels d Hinv). assert (i < length (m_threads d))%nat by lia.
  pose proof (bar_bounds d L Hinv ltac:(lia)).
  destruct Hinv as [? ? ? ? Hth ? ? Hco Hins Hcom Hact].
  assert (last (<[i := {| m_position := m_position t; pc := Polling |}]> (m_threads d)) =
    Some {| m_position := m_position t; pc := Polling |}) as Hl.
  { rewrite last_lookup, length_insert. replace (Init.Nat.pred _) with i by lia. by apply list_lookup_insert_eq. }
  rewrite Hlast, Hpc in Hins, Hcom, Hact. constructor; try done; simpl.
  - by rewrite length_insert.
  - intros j p b. rewrite Hst' by (by rewrite Hpc). apply Hco.
  - unfold last_pc. simpl. by rewrite Hl.
  - unfold last_pc. simpl. rewrite Hl, Hcom. simpl. change (bar _ L) with (bar d L). rewrite Hb, Z.add_simpl_r, Z.sub_0_r.
    rewrite <-(take_imap_snoc completion _ q a) by done. f_equal. unfold completion. by rewrite Z2Nat.id by done.
  - unfold last_pc. simpl. rewrite Hl, Hact. simpl. change (bar _ L) with (bar d L). change (count _) with (count d).
    rewrite wrap_small by (unfold in_range; lia). lia.
Qed.

(** ** All steps *)

Lemma status_stage t i p a :
  element_isSkipped (stage_element (Some t) i p a) = true → pc t = Checking → m_position t = p →
  Status (snd (processed p i (fst a))) = Aborted.
Proof.
  unfold element_isSkipped, stage_element. intros Hs%bool_decide_eq_true Hpc Hp. rewrite decide_True, Hpc in Hs by done. by simpl in Hs.
Qed.

Lemma processed_skipped p i input :
  Status (snd (processed p i input)) = Aborted → (i < L)%nat → processed p (S i) input = processed p i input.
Proof.
  intros Hs Hi. destruct (lookup_lt_is_Some_2 consumers i Hi) as [c Hc].
  rewrite (processed_S p i input c Hc). unfold run_consumer. by rewrite decide_True.
Qed.

Lemma inv_poll d i t d' :
  inv d → m_threads d !! i = Some t → pc t = Polling → consumer_step i d = Some d' → inv d'.
Proof.
  intros Hinv Ht Hpc. unfold consumer_step. rewrite Ht. simpl. rewrite Hpc.
  destruct (m_barriers d !! i) as [bi|] eqn:Eb; [|done]. simpl. destruct (decide _) as [|Hne]; [done|]. intros [= <-].
  destruct (inv_threads d Hinv i t Ht) as (Hb & Hle & _). assert (bar d i = bi) as Hbi by (unfold bar; by rewrite Eb).
  assert (i < L)%nat as Hi by (apply lookup_lt_Some in Ht; destruct (inv_levels d Hinv); lia).
  pose proof (bar_bounds d i Hinv ltac:(lia)). pose proof (bar_bounds d (S i) Hinv ltac:(lia)). pose proof (inv_window d Hinv).
  destruct (lookup_lt_is_Some_2 (accepted d) (Z.to_nat (m_position t))) as [a Ha]; [unfold count in *; lia|].
  eapply inv_local_same; [done|done|lia|by rewrite Hpc|done|exact Ha|by intros ??|].
  rewrite (inv_content _ Hinv i _ a); try done; [|lia| |lia|lia].
  - rewrite Ht. unfold stage_element. by rewrite Hpc.
  - unfold lower, upper. rewrite decide_False by lia. destruct (decide (i = 0%nat)); subst; lia.
Qed.

Lemma inv_active_step d i t d' :
  inv d → m_threads d !! i = Some t → active (pc t) = true → count d < 2 ^ 63 → consumer_step i d = Some d' → inv d'.
Proof.
  intros Hinv Ht Hact Hsmall. destruct (active_position d i t Hinv Ht Hact) as (Hi & Hlu & Hp0 & Hwin & a & Ha & He).
  destruct (inv_threads d Hinv i t Ht) as (Hb & Hle & Hlt & _ & Hok). specialize (Hlt Hact). specialize (Hok a Ha).
  destruct (inv_buffer d Hinv) as [Hcp _].
  destruct (lookup_lt_is_Some_2 consumers i Hi) as [c Hc].
  pose proof (processed_S (m_position t) i (fst a) c Hc) as HS. set (p := m_position t) in *.
  unfold consumer_step. rewrite Ht. simpl. fold p. destruct (pc t) eqn:Hpc; try done.
  - rewrite He. simpl. intros [= <-]. set (q := if element_isSkipped _ then Advancing else Running).
    assert (active q = true) as Hq by (unfold q; by destruct (element_isSkipped _)).
    eapply inv_local_same; [done|done|done|by rewrite Hpc|done|exact Ha| |].
    + intros b Hb'. simpl in *. fold p in Hb'. rewrite Ha in Hb'. injection Hb' as <-. unfold q.
      destruct (element_isSkipped _) eqn:E; [done|]. intros Hs. unfold element_isSkipped, stage_element in E.
      rewrite decide_True, Hpc in E by done. by apply bool_decide_eq_false in E.
    + fold p. rewrite He. f_equal. unfold q. destruct (element_isSkipped _) eqn:E.
      * apply status_stage in E; [|done|done]. unfold stage_element. simpl. rewrite !decide_True, Hpc by done.
        by rewrite processed_skipped.
      * unfold stage_element. simpl. by rewrite !decide_True, Hpc by done.
  - rewrite Hc. cbn [mbind option_bind]. rewrite He. cbn [mbind option_bind].
    replace (m_input (stage_element (Some t) i p a)) with (fst (processed p i (fst a)))
      by (unfold stage_element; by rewrite decide_True, Hpc).
    destruct (c (fst (processed p i (fst a)))) as [input r] eqn:Er. intros [= <-].
    unfold run_consumer in HS. rewrite decide_False, Er in HS by done.
    assert (processed p (S i) (fst a) = (input, if decide (Aborted = consumer_Status r)
      then {| Status := Aborted; Code := consumer_Code r; FinalConsumerPosition := p |} else snd (processed p i (fst a)))) as HS' by done.
    eapply inv_local; [done|done|done|by rewrite Hpc|by case_decide|exact Ha| |].
    + intros b Hb'. simpl in *. fold p in Hb'. rewrite Ha in Hb'. injection Hb' as <-. fold p.
      case_decide; [|done]. by rewrite HS'.
    + fold p. replace (stage_element _ i p a) with (set_input input (stage_element (Some t) i p a)).
      { apply changes_update; [lia|done|done]. }
      unfold stage_element, set_input. simpl. rewrite !decide_True, Hpc by done. simpl. rewrite HS'.
      by case_decide.
  - intros [= <-]. eapply inv_local; [done|done|done|by rewrite Hpc|done|exact Ha|by intros ??|].
    fold p. replace (stage_element _ i p a) with (element_markSkipped p code (stage_element (Some t) i p a)).
    { apply changes_update; [lia|done|done]. }
    unfold stage_element, element_markSkipped. simpl. rewrite !decide_True, Hpc by done. simpl. by rewrite Hok.
  - intros [= <-]. by apply inv_advance.
Qed.

Lemma consumer_step_inv d i d' : inv d → count d < 2 ^ 63 → consumer_step i d = Some d' → inv d'.
Proof.
  intros Hinv Hs Hst. destruct (m_threads d !! i) as [t|] eqn:Ht; [|unfold consumer_step in Hst; by rewrite Ht in Hst].
  destruct (pc t) eqn:Hpc; eauto using inv_poll, inv_inspect, inv_complete; eapply inv_active_step; eauto; by rewrite Hpc.
Qed.

Definition is_Added (p : producer_pc) : bool := match p with Added _ => true | _ => false end.

Lemma inv_set_producer d p rs :
  inv d → is_Added (producer d) = false → is_Added p = false → producer_ok (set_producer p rs d) → inv (set_producer p rs d).
Proof.
  intros [? ? ? [Hf ?] ? ? ? ? ? ? ?] H1 H2 Hok. constructor; try done. split; [|done].
  change (bar _ 0) with (bar d 0). change (count _) with (count d). rewrite Hf. simpl. by destruct (producer d), p.
Qed.

Lemma processElement_inv d input h d' : inv d → processElement input h d = Some d' → inv d'.
Proof.
  intros Hinv. unfold processElement. destruct (producer d) eqn:E; try done.
  destruct (input_empty input); intros [= <-]; apply inv_set_producer; rewrite ?E; done.
Qed.

Lemma inv_read_min d input h minPosition :
  inv d → producer d = Locked input h → m_barriers d !! (length (m_barriers d) - 1)%nat = Some minPosition →
  inv (set_producer (ReadMin input h minPosition) [] d).
Proof.
  intros Hinv E Hb. apply inv_set_producer; [done|by rewrite E|done|]. unfold producer_ok. simpl.
  destruct (inv_levels d Hinv) as [Hl _]. rewrite Hl in Hb. replace (S L - 1)%nat with L in Hb by lia.
  pose proof (bar_bounds d L Hinv ltac:(lia)). change (bar _ L) with (bar d L). unfold bar in *. rewrite Hb in *. simpl in *. lia.
Qed.

(** Room for one more element, and one slot for the element that is being
    inspected. *)
Lemma inv_read_max d input h minPosition maxPosition :
  inv d → count d < 2 ^ 63 → producer d = ReadMin input h minPosition → m_barriers d !! 0%nat = Some maxPosition →
  canProcessNextElement minPosition maxPosition = true → inv (set_producer (Adding input h) [] d).
Proof.
  intros Hinv Hs E Hb Hcan. apply inv_set_producer; [done|by rewrite E|done|]. unfold producer_ok. simpl.
  change (count _) with (count d). change (bar _ L) with (bar d L).
  pose proof (inv_producer d Hinv) as Hp. unfold producer_ok in Hp. rewrite E in Hp.
  destruct (inv_first d Hinv) as [Hf _]. rewrite E in Hf. unfold bar at 1 in Hf. rewrite Hb in Hf. simpl in Hf.
  pose proof (bar_bounds d L Hinv ltac:(lia)). unfold canProcessNextElement in Hcan.
  rewrite wrap_small in Hcan by (unfold in_range; lia).
  destruct (_ <? _) eqn:E1; zbool; lia.
Qed.

Lemma take_imap_app {A B} (f : nat → A → B) l l' n : (n ≤ length l)%nat → take n (imap f (l ++ l')) = take n (imap f l).
Proof. intros. rewrite imap_app, take_app_le; [done|]. by rewrite length_imap. Qed.

Lemma inv_add d input h d' :
  inv d → count d < 2 ^ 62 → producer d = Adding input h → producer_step d = Some d' → inv d'.
Proof.
  intros Hinv Hs E. unfold producer_step. rewrite E. destruct (inv_counts d Hinv) as [Hn Hcnt]. destruct (inv_buffer d Hinv) as [Hcp Hlen].
  unfold disruptor_add. rewrite Hcnt, (wrap_small 64) by (unfold in_range, count in *; lia). intros [= <-].
  pose proof (inv_producer d Hinv) as Hp. unfold producer_ok in Hp. rewrite E in Hp.
  destruct (inv_first d Hinv) as [Hf Hf']. rewrite E in Hf.
  set (d' := {| m_barriers := _ |}). assert (count d' = count d + 1) as Hc'.
  { unfold count. simpl. rewrite length_app. simpl. lia. }
  assert (∀ i, bar d' i = bar d i) as Hb by done. pose proof (bar_bounds d L Hinv ltac:(lia)).
  assert (0 ≤ to_complete (last_pc d) ≤ 1 ∧ 0 ≤ to_inspect (last_pc d)) by (by destruct (last_pc d)).
  constructor.
  - apply Hinv.
  - simpl. by rewrite length_insert.
  - rewrite Hc'. simpl. split; [|done]. rewrite Hn. apply wrap_small. unfold in_range, count in *. lia.
  - rewrite Hc', !Hb. simpl. lia.
  - intros i t Ht. destruct (inv_threads d Hinv i t Ht) as (H1 & H2 & H3 & H4 & Hok). split_and!; [done|done|done|done|].
    intros a Ha. assert (i < L)%nat as Hi by (apply lookup_lt_Some in Ht; destruct (inv_levels d Hinv); simpl in Ht; lia).
    pose proof (bar_bounds d i Hinv ltac:(lia)). pose proof (bar_bounds d (S i) Hinv ltac:(lia)).
    assert (active (pc t) = true → accepted d !! Z.to_nat (m_position t) = Some a) as Hold.
    { intros Hact. specialize (H3 Hact). simpl in Ha. rewrite lookup_app_l in Ha; [done|]. unfold count in *. lia. }
    specialize (Hok a). destruct (pc t); try done; apply Hok, Hold; done.
  - rewrite Hc', Hb. lia.
  - unfold producer_ok. rewrite Hc'. simpl. unfold count. lia.
  - intros i p a Hi Hlu Hp0 Hw Ha. rewrite Hc' in Hw. change (m_threads d') with (m_threads d).
    destruct (decide (p = count d)) as [->|Hne].
    + assert (i = 0%nat) as ->.
      { unfold upper in Hlu. destruct (decide (i = 0%nat)); [done|]. rewrite Hb in Hlu. pose proof (bar_bounds d i Hinv Hi). lia. }
      rewrite stage_element_waiting; [|done|lia]. unfold elementAt. simpl.
      pose proof (at_index_push (newDisruptorElement input (count d + 1) h) (m_container (m_disruptor d))) as Hpush.
      rewrite Hn in Hpush. rewrite Hpush by (lia || congruence).
      simpl in Ha. unfold count in Ha. rewrite Nat2Z.id, lookup_app_r, Nat.sub_diag in Ha by lia. by injection Ha as <-.
    + assert (upper d' i ≤ count d + 1) as Hup.
      { unfold upper. destruct (decide (i = 0%nat)); [lia|]. rewrite Hb. pose proof (bar_bounds d i Hinv Hi). lia. }
      unfold elementAt. simpl. rewrite at_index_push_ne by (rewrite ?Hn, ?Hcp; unfold count in *; lia).
      apply (inv_content d Hinv); [done| |done|lia|].
      * unfold upper in *. destruct (decide (i = 0%nat)); [|done]. change (lower d' i) with (lower d i) in Hlu. lia.
      * simpl in Ha. by rewrite lookup_app_l in Ha by (unfold count in *; lia).
  - change (last_pc d') with (last_pc d). rewrite Hb. simpl. rewrite take_imap_app by (unfold count in *; lia). apply Hinv.
  - change (last_pc d') with (last_pc d). rewrite Hb. simpl. rewrite take_imap_app by (unfold count in *; lia). apply Hinv.
  - change (last_pc d') with (last_pc d). rewrite Hb, Hc'. simpl. rewrite (inv_active d Hinv).
    rewrite wrap_small; [lia|]. unfold in_range. lia.
Qed.

Lemma inv_publish d id d' :
  inv d → count d < 2 ^ 63 → producer d = Added id → producer_step d = Some d' → inv d'.
Proof.
  intros Hinv Hs E. unfold producer_step. rewrite E. intros [= <-]. destruct (inv_levels d Hinv) as [Hl _].
  destruct (inv_first d Hinv) as [Hf Hf']. rewrite E in Hf. pose proof (bar_bounds d 0 Hinv ltac:(lia)).
  set (d' := {| m_barriers := _ |}).
  assert (∀ j, bar d' j = if decide (0%nat = j) then count d else bar d j) as Hb.
  { intros j. rewrite (bar_alter d d' (λ p, u64 (p + 1)) 0 j) by (done || lia). rewrite Hf.
    replace (count d - 1 + 1) with (count d) by lia. by rewrite wrap_small by (unfold in_range; lia). }
  assert (∀ j, bar d' (S j) = bar d (S j)) as HbS by (intros; by rewrite Hb, decide_False).
  assert (bar d' L = bar d L) as HbL by (by rewrite Hb, decide_False by lia).
  destruct Hinv as [Hlv ? ? ? Hth Hw Hpr Hco Hins Hcom Hact].
  constructor; rewrite ?HbL; try done.
  - split; [simpl; by rewrite length_alter|apply Hlv].
  - change (count d') with (count d). rewrite Hb, decide_True by done. simpl. lia.
  - intros i t Ht. destruct (Hth i t Ht) as (H1 & H2 & H3 & H4 & H5). unfold thread_ok. rewrite HbS, Hb.
    split_and!; [done| | |done|done]; destruct (decide (0%nat = i)) as [<-|]; try done; [lia|].
    intros Ha. specialize (H3 Ha). lia.
  - intros i p a Hi Hlu. apply Hco; [done|]. unfold lower, upper in *. change (count d') with (count d) in Hlu.
    rewrite HbS, Hb in Hlu. destruct (decide (i = 0%nat)); [done|]. by rewrite (decide_False (P := 0%nat = i)) in Hlu by lia.
Qed.

Lemma producer_step_inv d d' : inv d → count d < 2 ^ 62 → producer_step d = Some d' → inv d'.
Proof.
  intros Hinv Hs Hst. pose proof Hst as Hst0. unfold producer_step in Hst. destruct (producer d) eqn:E; try done.
  - destruct (_ !! _) as [mn|] eqn:Eb; [|done]. injection Hst as <-. by apply inv_read_min.
  - destruct (_ !! _) as [mx|] eqn:Eb; [|done]. simpl in Hst. destruct (canProcessNextElement _ _) eqn:Ec; injection Hst as <-.
    + eapply inv_read_max; try done. lia.
    + by apply inv_set_producer; rewrite ?E.
  - by eapply inv_add.
  - eapply inv_publish; try done. lia.
Qed.

Lemma consumer_step_frame i d d' : consumer_step i d = Some d' → producer d' = producer d ∧ accepted d' = accepted d.
Proof.
  unfold consumer_step. intros H.
  repeat (cbn [mbind option_bind] in H;
    first [discriminate H | case_match | match type of H with context [mbind _ ?x] => destruct x end]); by simplify_eq/=.
Qed.

(** Each step accepts one element at most. *)
Lemma step_count d d' : step d d' → count d' ≤ count d + 1.
Proof.
  unfold count. intros [input h d0 d1 H|d0 d1 H|i d0 d1 H].
  - unfold processElement in H. destruct (producer d0); try done. destruct (input_empty input); simplify_eq/=; lia.
  - unfold producer_step in H. destruct (producer d0); try done; try (destruct (_ !! _); [|done]); simplify_eq/=; try lia.
    + destruct (canProcessNextElement _ _); simpl; lia.
    + rewrite length_app. simpl. lia.
  - apply consumer_step_frame in H as [_ ->]. lia.
Qed.

Lemma init_inv default d : newConsumerDispatcher default = Ok d → inv d.
Proof.
  unfold newConsumerDispatcher. destruct (_ =? _); [done|]. intros Heq. injection Heq as Heq.
  assert (∀ i, bar d i = 0) as Hb.
  { intros i. unfold bar. rewrite <-Heq. cbn [m_barriers]. destruct (_ !! i) as [x|] eqn:E; [|done].
    by apply (lookup_replicate (S L) 0 x i) in E as [-> _]. }
  assert (last_pc d = Polling) as Hlast.
  { unfold last_pc. rewrite <-Heq. cbn [m_threads]. rewrite last_lookup. destruct (_ !! _) as [x|] eqn:E; [|done].
    by apply lookup_replicate in E as [-> _]. }
  rewrite <-Heq in Hb, Hlast |- *. constructor; rewrite ?Hlast, ?Hb; try done; simpl.
  - by rewrite !length_replicate.
  - by rewrite length_replicate.
  - intros i t [-> Hi]%lookup_replicate. unfold thread_ok. rewrite !Hb. simpl. split_and!; try done. naive_solver.
  - unfold count. simpl. lia.
Qed.

Lemma dispatcher_reachable_inv default d0 n d :
  newConsumerDispatcher default = Ok d0 → nsteps step n d0 d → Z.of_nat n < 2 ^ 62 → inv d ∧ count d ≤ Z.of_nat n.
Proof.
  intros H0. revert d. induction n as [|n IH]; intros d Hn Hsmall.
  - inversion Hn; subst. split; [by eapply init_inv|]. unfold newConsumerDispatcher in H0. destruct (_ =? _); [done|].
    by injection H0 as <-.
  - apply nsteps_inv_r in Hn as (d' & Hn & Hst). destruct (IH d' Hn) as [Hinv Hc]; [lia|].
    pose proof (step_count _ _ Hst). split; [|lia]. destruct Hst as [input h d' d Hs|d' d Hs|i d' d Hs].
    + by eapply processElement_inv.
    + eapply producer_step_inv; [done|lia|done].
    + eapply consumer_step_inv; [done|lia|done].
Qed.

(** ** The ids callers get *)

Definition accepted_ids (rs : list (result Z)) : list Z :=
  omap (λ r, match r with Ok id => if decide (id = 0) then None else Some id | Throw _ => None end) rs.

Lemma responses_step d d' :
  inv d → step d d' → accepted_ids (responses d) = Z.of_nat <$> seq 1 (Z.to_nat (bar d 0)) → count d < 2 ^ 63 →
  accepted_ids (responses d') = Z.of_nat <$> seq 1 (Z.to_nat (bar d' 0)).
Proof.
  intros Hinv Hst Hr Hsmall. destruct Hst as [input h d d' Hs|d d' Hs|i d d' Hs].
  - unfold processElement in Hs. destruct (producer d); try done. destruct (input_empty input); injection Hs as <-; simpl;
      unfold accepted_ids; rewrite omap_app; simpl; by rewrite app_nil_r.
  - unfold producer_step in Hs. destruct (producer d) as [| | | |id] eqn:E; try done.
    + destruct (_ !! _); [|done]. injection Hs as <-. simpl. by rewrite app_nil_r.
    + destruct (_ !! _); [|done]. simpl in Hs. destruct (canProcessNextElement _ _), (ShouldThrowWhenFull options);
        injection Hs as <-; simpl; unfold accepted_ids; rewrite omap_app; simpl; by rewrite app_nil_r.
    + by injection Hs as <-.
    + injection Hs as <-. destruct (inv_levels d Hinv) as [Hl _]. destruct (inv_first d Hinv) as [Hf _]. rewrite E in Hf.
      pose proof (inv_producer d Hinv) as Hp. unfold producer_ok in Hp. rewrite E in Hp. destruct Hp as [-> Hp].
      set (d' := {| m_barriers := _ |}). rewrite (bar_alter d d' (λ p, u64 (p + 1)) 0 0), decide_True by (done || lia).
      simpl. unfold accepted_ids. rewrite omap_app. simpl. rewrite decide_False by lia. fold accepted_ids.
      fold (accepted_ids (responses d)). rewrite Hr, Hf, wrap_small by (unfold in_range; lia).
      replace (Z.to_nat (count d - 1 + 1)) with (S (Z.to_nat (count d - 1))) by lia.
      rewrite seq_S, fmap_app, list_fmap_singleton. do 2 f_equal. lia.
  - assert (responses d' = responses d ∧ bar d' 0 = bar d 0) as [-> ->]; [|done].
    unfold consumer_step in Hs.
    repeat (cbn [mbind option_bind] in Hs;
      first [discriminate Hs | case_match | match type of Hs with context [mbind _ ?x] => destruct x end]); simplify_eq/=;
      (split; [done|]); try done. unfold bar. simpl. by rewrite list_lookup_alter_ne by lia.
Qed.

(** * Correctness *)

(** C6. The dispatcher behaves as if each element went through all consumers
    at once, in order of acceptance.  However its threads interleave, the
    inspector and the completion handlers have been called once per element, in
    order of acceptance, for a prefix of the accepted elements, each with its
    own id and with what the consumers one after the other make of it (all
    after the first that aborts are skipped); the ids that [processElement]
    returned are 1, 2, 3 ..., and the elements that are active are those not
    completed. *)
Theorem disruptor_refines_pipeline default d0 n d :
  newConsumerDispatcher default = Ok d0 → nsteps step n d0 d → Z.of_nat n < 2 ^ 62 →
  inspected d `prefix_of` imap inspection (accepted d)
  ∧ completed d `prefix_of` imap completion (accepted d)
  ∧ (∃ k, (k ≤ length (accepted d))%nat ∧ accepted_ids (responses d) = Z.of_nat <$> seq 1 k)
  ∧ m_numActiveElements d = Z.of_nat (length (accepted d)) - Z.of_nat (length (completed d)).
Proof.
  intros H0 Hn Hsmall. destruct (dispatcher_reachable_inv default d0 n d H0 Hn Hsmall) as [Hinv Hc].
  assert (accepted_ids (responses d) = Z.of_nat <$> seq 1 (Z.to_nat (bar d 0))) as Hr.
  { clear Hinv Hc. revert d Hn. induction n as [|n IH]; intros d Hn.
    - inversion Hn; subst. unfold newConsumerDispatcher in H0. destruct (_ =? _); [done|]. by injection H0 as <-.
    - apply nsteps_inv_r in Hn as (d' & Hn & Hst). destruct (dispatcher_reachable_inv default d0 n d' H0 Hn ltac:(lia)) as [Hinv Hc].
      eapply responses_step; [done|done|by apply IH; [lia|]|lia]. }
  pose proof (bar_bounds d 0 Hinv ltac:(lia)) as Hb0. pose proof (bar_bounds d L Hinv ltac:(lia)).
  split_and!.
  - rewrite (inv_inspected d Hinv). apply prefix_take.
  - rewrite (inv_completed d Hinv). apply prefix_take.
  - exists (Z.to_nat (bar d 0)). split; [unfold count in *; lia|done].
  - rewrite (inv_active d Hinv), (inv_completed d Hinv), length_take, length_imap. unfold count in *.
    assert (to_complete (last_pc d) ≤ bar d L); [|destruct (last_pc d); simpl in *; lia].
    unfold last_pc. destruct (last (m_threads d)) as [t|] eqn:El; [|simpl; lia]. rewrite last_lookup in El.
    destruct (pc t) eqn:Hpc; simpl; try lia; edestruct due_element as (_ & _ & ? & -> & _); eauto; lia.
Qed.

(** ** What a client sees *)

(** The ids of [l] that belong to the handler of one client. *)
Definition owned (mine : Handler → bool) (l : list (Handler * Z * ConsumerCompletionResult)) : list Z :=
  omap (λ '(h, id, _), if mine h then Some id else None) l.

(** The ids accepted from a client and not completed yet, in order. *)
Definition pending (mine : Handler → bool) (d : ConsumerDispatcher) : list Z :=
  owned mine (drop (length (completed d)) (imap completion (accepted d))).

Lemma step_history d d' :
  step d d' →
  (accepted d' = accepted d ∧ (completed d' = completed d ∨ ∃ x, completed d' = completed d ++ [x]))
  ∨ (completed d' = completed d ∧ ∃ a, accepted d' = accepted d ++ [a]).
Proof.
  intros [input h d0 d1 H|d0 d1 H|i d0 d1 H].
  - left. unfold processElement in H. destruct (producer d0); try done. destruct (input_empty input); simplify_eq/=; auto.
  - unfold producer_step in H. destruct (producer d0); try done; try (destruct (_ !! _); [|done]); simplify_eq/=; eauto.
    destruct (canProcessNextElement _ _); simpl; auto.
  - left. split; [by apply consumer_step_frame in H as [_ ->]|]. unfold consumer_step in H.
    repeat (cbn [mbind option_bind] in H;
      first [discriminate H | case_match | match type of H with context [mbind _ ?x] => destruct x end]); simplify_eq/=; eauto.
Qed.

Lemma completed_prefix d : inv d → (length (completed d) ≤ length (accepted d))%nat.
Proof. intros Hinv. rewrite (inv_completed d Hinv), length_take, length_imap. lia. Qed.

#[global] Instance dispatcher_in_order mine : InOrder step inv (pending mine).
Proof.
  intros d d' Hinv Hinv' Hst. pose proof (completed_prefix d Hinv). pose proof (completed_prefix d' Hinv'). unfold pending.
  destruct (step_history d d' Hst) as [[Ha [->|[x Hc]]]|[-> [a Ha]]].
  - left. by rewrite Ha.
  - rewrite Ha in *. rewrite Hc, length_app in *. simpl in *.
    destruct (lookup_lt_is_Some_2 (imap completion (accepted d)) (length (completed d))) as [y Hy]; [rewrite length_imap; lia|].
    rewrite (drop_S _ y (length (completed d))) by done. replace (length (completed d) + 1)%nat with (S (length (completed d))) by lia.
    destruct y as [[h id] r]. simpl. destruct (mine h); [right; right; by exists id|by left].
  - rewrite Ha, imap_app, drop_app_le by (rewrite length_imap; lia). unfold owned. rewrite omap_app. simpl.
    destruct (mine _); [right; left; eauto|left; by rewrite app_nil_r].
Qed.

(** ** Slots *)

(** The position whose slot a thread is about to read or write. *)
Definition accesses (t : ConsumerEntry) : option Z :=
  match pc t with
  | Checking | Running | Marking _ => Some (m_position t)
  | Inspecting p | Completing p => Some p
  | Polling | Advancing => None
  end.

Lemma accesses_window d i t p :
  inv d → m_threads d !! i = Some t → accesses t = Some p →
  (i < L)%nat ∧ 0 ≤ p ∧ count d - cap ≤ p < bar d i ∧ (bar d (S i) ≤ p ∨ S i = L ∧ p = bar d L - 1).
Proof.
  intros Hinv Ht Hacc. destruct (active (pc t)) eqn:Ea.
  - destruct (active_position d i t Hinv Ht Ea) as (Hi & _ & Hp & Hw & _).
    destruct (inv_threads d Hinv i t Ht) as (Hb & _ & Hlt & _). specialize (Hlt Ea).
    assert (p = m_position t) as -> by (unfold accesses in Hacc; by destruct (pc t); simplify_eq/=). split_and!; lia.
  - assert (pc t = Inspecting p ∨ pc t = Completing p) as Hpc.
    { unfold accesses in Hacc. destruct (pc t); simplify_eq/=; auto. }
    destruct (due_element d i t p Hinv Ht Hpc) as (Hi & _ & Hq & Hb & _). pose proof (inv_window d Hinv).
    pose proof (bar_bounds d i Hinv ltac:(lia)). split_and!; lia.
Qed.

(** C14. The circular buffer needs no locks: in every state the threads can
    reach, two consumers never access the same slot, and the slot that
    [processElement] is about to overwrite is none that a consumer, the
    inspector or a completion handler is still using (the last barrier has
    moved on before they run: the spare slot that [canProcessNextElement]
    keeps is theirs). *)
Theorem disruptor_race_free default d0 n d :
  newConsumerDispatcher default = Ok d0 → nsteps step n d0 d → Z.of_nat n < 2 ^ 62 →
  let slot := truncateIndex (m_container (m_disruptor d)) in
  (∀ i j t t' p q, i ≠ j → m_threads d !! i = Some t → m_threads d !! j = Some t' →
     accesses t = Some p → accesses t' = Some q → slot p ≠ slot q)
  ∧ (∀ input h i t p, producer d = Adding input h → m_threads d !! i = Some t → accesses t = Some p →
       slot (m_next (m_container (m_disruptor d))) ≠ slot p).
Proof.
  intros H0 Hn Hsmall. destruct (dispatcher_reachable_inv default d0 n d H0 Hn Hsmall) as [Hinv Hc]. intros slot.
  destruct (inv_buffer d Hinv) as [Hcp _]. split.
  - assert (∀ i j t t' p q, (i < j)%nat → m_threads d !! i = Some t → m_threads d !! j = Some t' →
     accesses t = Some p → accesses t' = Some q → slot p ≠ slot q) as Hlt.
    { intros i j t t' p q Hij Ht Ht' Hp Hq. destruct (accesses_window d i t p Hinv Ht Hp) as (Hi & Hp0 & Hpw & Hpb).
      destruct (accesses_window d j t' q Hinv Ht' Hq) as (Hj & Hq0 & Hqw & _).
      pose proof (bar_mono d (S i) j Hinv ltac:(lia)). pose proof (bar_bounds d i Hinv ltac:(lia)).
      destruct Hpb as [Hpb|[]]; [|lia]. intros Heq. apply truncateIndex_inj in Heq; lia. }
    intros i j t t' p q Hij Ht Ht' Hp Hq. destruct (decide (i < j)%nat); [by apply (Hlt i j t t')|].
    intros Heq. apply (Hlt j i t' t q p); try done. lia.
  - intros input h i t p Hpr Ht Hp. destruct (accesses_window d i t p Hinv Ht Hp) as (Hi & Hp0 & Hpw & Hpb).
    pose proof (inv_producer d Hinv) as Hok. unfold producer_ok in Hok. rewrite Hpr in Hok.
    pose proof (bar_bounds d i Hinv ltac:(lia)). pose proof (bar_bounds d (S i) Hinv ltac:(lia)).
    rewrite (proj1 (inv_counts d Hinv)). intros Heq. apply truncateIndex_inj in Heq; unfold count in *; lia.
Qed.

(** ** Draining *)

Definition consumers_step (d d' : ConsumerDispatcher) : Prop := ∃ i, consumer_step i d = Some d'.

(** The steps thread [t] takes until it has processed [n] elements. *)
Definition thread_rank (n : Z) (t : ConsumerEntry) : Z :=
  7 * (n - m_position t) +
  match pc t with
  | Polling => 0 | Checking => -1 | Running => -2 | Marking _ => -3 | Advancing => -4
  | Inspecting _ => 2 | Completing _ => 1
  end.

Definition remaining (d : ConsumerDispatcher) : nat :=
  sum_list_with (λ t, Z.to_nat (thread_rank (count d) t)) (m_threads d).

Lemma thread_rank_nonneg d i t : inv d → m_threads d !! i = Some t → 0 ≤ thread_rank (count d) t.
Proof.
  intros Hinv Ht. assert (i < L)%nat by (apply lookup_lt_Some in Ht; destruct (inv_levels d Hinv); lia).
  destruct (inv_threads d Hinv i t Ht) as (_ & Hle & Hlt & _). pose proof (bar_bounds d i Hinv ltac:(lia)).
  unfold thread_rank. destruct (pc t); try specialize (Hlt eq_refl); lia.
Qed.

Lemma sum_list_with_insert {A} (f : A → nat) l i x y :
  l !! i = Some x → (sum_list_with f (<[i := y]> l) + f x = sum_list_with f l + f y)%nat.
Proof.
  revert i. induction l as [|a l IH]; intros [|i]; simpl; intros Hi; simplify_eq/=; [lia|]. specialize (IH _ Hi). lia.
Qed.

(** Every step of a consumer changes its own thread, and makes progress. *)
Lemma consumer_step_rank i d d' :
  inv d → consumer_step i d = Some d' →
  ∃ t t', m_threads d !! i = Some t ∧ m_threads d' = <[i := t']> (m_threads d) ∧ count d' = count d
    ∧ (count d < 2 ^ 63 → thread_rank (count d) t' < thread_rank (count d) t).
Proof.
  intros Hinv Hs. destruct (m_threads d !! i) as [t|] eqn:Ht; [|unfold consumer_step in Hs; by rewrite Ht in Hs].
  destruct (consumer_step_frame _ _ _ Hs) as [_ Hacc]. assert (count d' = count d) as Hc by (unfold count; by rewrite Hacc).
  pose proof (inv_threads d Hinv i t Ht) as (_ & Hle & Hlt & _).
  assert (i < L)%nat by (apply lookup_lt_Some in Ht; destruct (inv_levels d Hinv); lia).
  pose proof (bar_bounds d i Hinv ltac:(lia)). pose proof (bar_bounds d (S i) Hinv ltac:(lia)) as Hb.
  rewrite (proj1 (inv_threads d Hinv i t Ht)) in Hb.
  unfold consumer_step in Hs. rewrite Ht in Hs. cbn [mbind option_bind] in Hs.
  destruct (pc t) eqn:Hpc; repeat (cbn [mbind option_bind] in Hs;
    first [discriminate Hs | injection Hs as <- | case_match | match type of Hs with context [mbind _ ?x] => destruct x end]);
    (eexists t, _; split_and!; [done|reflexivity|done|intros Hsm]); unfold thread_rank; rewrite Hpc; simpl; repeat case_match;
    simplify_eq/=; try lia; rewrite (wrap_small 64 (m_position t + 1)) by (unfold in_range; lia); lia.
Qed.

Lemma consumers_step_decreases d d' :
  inv d → count d < 2 ^ 63 → consumers_step d d' → (remaining d' < remaining d)%nat ∧ inv d' ∧ count d' = count d.
Proof.
  intros Hinv Hsm [i Hs]. pose proof (consumer_step_inv d i d' Hinv Hsm Hs) as Hinv'.
  destruct (consumer_step_rank i d d' Hinv Hs) as (t & t' & Ht & Hth & Hc & Hrank). specialize (Hrank Hsm).
  split_and!; [|done|done]. unfold remaining. rewrite Hth, Hc.
  pose proof (sum_list_with_insert (λ t, Z.to_nat (thread_rank (count d) t)) (m_threads d) i t t' Ht) as Hsum. simpl in Hsum.
  assert (m_threads d' !! i = Some t') as Ht' by (rewrite Hth; apply list_lookup_insert_eq; by eapply lookup_lt_Some).
  pose proof (thread_rank_nonneg d' i t' Hinv' Ht') as Hpos. rewrite Hc in Hpos. lia.
Qed.

(** A thread that cannot step waits for an element its predecessor has not
    processed. *)
Lemma stuck_waits d i t :
  inv d → m_threads d !! i = Some t → consumer_step i d = None → pc t = Polling ∧ bar d (S i) = bar d i.
Proof.
  intros Hinv Ht Hs. destruct (inv_threads d Hinv i t Ht) as (Hb & _).
  assert (i < L)%nat as Hi by (apply lookup_lt_Some in Ht; destruct (inv_levels d Hinv); lia).
  unfold consumer_step in Hs. rewrite Ht in Hs. cbn [mbind option_bind] in Hs.
  destruct (pc t) eqn:Hpc.
  - split; [done|]. destruct (lookup_lt_is_Some_2 (m_barriers d) i) as [b Eb]; [destruct (inv_levels d Hinv); lia|].
    rewrite Eb in Hs. cbn [mbind option_bind] in Hs. destruct (decide _) as [E|]; [|done]. rewrite Hb, E. unfold bar. by rewrite Eb.
  - destruct (active_position d i t Hinv Ht) as (_ & _ & _ & _ & a & _ & He); [by rewrite Hpc|]. by rewrite He in Hs.
  - destruct (active_position d i t Hinv Ht) as (_ & _ & _ & _ & a & _ & He); [by rewrite Hpc|].
    destruct (lookup_lt_is_Some_2 consumers i Hi) as [c Hc]. rewrite Hc in Hs. cbn [mbind option_bind] in Hs. rewrite He in Hs.
    cbn [mbind option_bind] in Hs. by case_match.
  - done.
  - done.
  - destruct (due_element d i t position Hinv Ht) as (_ & _ & _ & _ & a & _ & He); [auto|]. by rewrite He in Hs.
  - destruct (due_element d i t position Hinv Ht) as (_ & _ & _ & _ & a & _ & He); [auto|]. by rewrite He in Hs.
Qed.

(** C35. Every accepted element is processed.  From every state the threads
    can reach, the consumers take at most [remaining d] steps before all of
    them wait, in whatever order they run; and when they all wait, with no call
    of [processElement] half done, the inspector and the completion handler of
    every accepted element have run. *)
Theorem disruptor_drains default d0 n d :
  newConsumerDispatcher default = Ok d0 → nsteps step n d0 d → Z.of_nat n < 2 ^ 62 →
  (∀ m d', nsteps consumers_step m d d' → (m ≤ remaining d)%nat)
  ∧ ∀ d', rtc consumers_step d d' → producer d' = NoCall → (∀ i, consumer_step i d' = None) →
      inspected d' = imap inspection (accepted d') ∧ completed d' = imap completion (accepted d')
      ∧ accepted d' = accepted d ∧ m_numActiveElements d' = 0.
Proof.
  intros H0 Hn Hsmall. destruct (dispatcher_reachable_inv default d0 n d H0 Hn Hsmall) as [Hinv Hc]. clear H0 Hn.
  assert (count d < 2 ^ 63) as Hsm by lia. clear Hc Hsmall. split.
  - intros m d' Hm. revert Hinv Hsm. induction Hm as [|m d d1 d' Hs Hm IH]; intros Hinv Hsm; [lia|].
    destruct (consumers_step_decreases d d1 Hinv Hsm Hs) as (Hlt & Hinv1 & Hc1). specialize (IH Hinv1 ltac:(lia)). lia.
  - intros d' Hst Hp Hstuck.
    assert (inv d' ∧ accepted d' = accepted d) as [Hinv' Hacc].
    { clear Hp Hstuck. revert Hinv Hsm. induction Hst as [|d d1 d' Hs Hst IH]; intros Hinv Hsm; [done|].
      destruct (consumers_step_decreases d d1 Hinv Hsm Hs) as (_ & Hinv1 & Hc1). destruct (IH Hinv1 ltac:(lia)) as [Hi' Ha'].
      split; [done|]. rewrite Ha'. destruct Hs as [i Hs]. by apply consumer_step_frame in Hs as [_ ->]. }
    assert (∀ i, (i ≤ L)%nat → bar d' i = count d') as Hbar.
    { induction i as [|i IH]; intros Hi; [pose proof (inv_first d' Hinv') as [Hf _]; rewrite Hp in Hf; lia|].
      destruct (lookup_lt_is_Some_2 (m_threads d') i) as [t Ht]; [destruct (inv_levels d' Hinv'); lia|].
      destruct (stuck_waits d' i t Hinv' Ht (Hstuck i)) as [_ ->]. apply IH. lia. }
    assert (last_pc d' = Polling) as Hlast.
    { unfold last_pc. destruct (last (m_threads d')) as [t|] eqn:El; [|done]. rewrite last_lookup in El.
      by destruct (stuck_waits d' _ t Hinv' El (Hstuck _)). }
    pose proof (inv_active d' Hinv') as Hact.
    rewrite (inv_inspected d' Hinv'), (inv_completed d' Hinv'), Hlast, (Hbar L) by done. rewrite Hlast, (Hbar L) in Hact by done.
    simpl in *. split_and!; [| |done|lia]; apply take_ge; rewrite length_imap; unfold count; lia.
Qed.

(** ** Schedules *)

Inductive action :=
| Call (input : Input) (h : Handler)
| Produce
| Consume (level : nat).

Definition act (a : action) (d : ConsumerDispatcher) : option ConsumerDispatcher :=
  match a with Call input h => processElement input h d | Produce => producer_step d | Consume level => consumer_step level d end.

Fixpoint schedule (l : list action) (d : ConsumerDispatcher) : option ConsumerDispatcher :=
  match l with [] => Some d | a :: l => act a d ≫= schedule l end.

Lemma schedule_nsteps l d d' : schedule l d = Some d' → nsteps step (length l) d d'.
Proof.
  revert d. induction l as [|a l IH]; simpl; intros d; [intros [= <-]; constructor|].
  destruct (act a d) as [d1|] eqn:E; [|done]. simpl. intros H. econstructor; [|by apply IH].
  destruct a; simpl in E; eauto using step.
Qed.

End dispatcher.

(** Two consumers; the second aborts on 6. *)
Definition example_consumers : list (Z → Z * ConsumerResult) :=
  [λ n, (n + 1, Continue); λ n, (2 * n, if decide (n = 6) then Abort 9 else Continue)].
Definition example_options : ConsumerDispatcherOptions := {| DisruptorSize := 3; ShouldThrowWhenFull := false |}.
Definition example_default : DisruptorElement (Input := Z) (Handler := Z) := newDisruptorElement 0 max64 0.
Definition example_run (l : list (action (Input := Z) (Handler := Z))) : option ConsumerDispatcher :=
  match newConsumerDispatcher example_options example_consumers example_default with
  | Ok d => schedule example_options example_consumers (λ n, bool_decide (n = 0)) l d
  | Throw _ => None
  end.

Lemma example_reached l d :
  example_run l = Some d →
  ∃ d0, newConsumerDispatcher example_options example_consumers example_default = Ok d0
    ∧ nsteps (step example_options example_consumers (λ n, bool_decide (n = 0))) (length l) d0 d.
Proof.
  unfold example_run. destruct (newConsumerDispatcher _ _ _) as [d0|]; [|done]. intros H. exists d0. split; [done|].
  by apply schedule_nsteps.
Qed.

(** The first element waits for the inspector while the second is with the
    first consumer and a third is about to be added. *)
Definition example_schedule : list action :=
  [Call 4 100; Produce; Produce; Produce; Produce; Consume 0; Consume 0; Consume 0; Consume 0;
   Call 5 200; Produce; Produce; Produce; Produce; Consume 1; Consume 1; Consume 1; Consume 1;
   Consume 0; Consume 0; Call 7 300; Produce; Produce].

(** All three elements have been added, and the second is aborted. *)
Definition example_schedule_2 : list action :=
  example_schedule ++ [Produce; Produce; Consume 1; Consume 1; Consume 0; Consume 0; Consume 1; Consume 1; Consume 1; Consume 1;
   Consume 1; Consume 1; Consume 1].

Lemma disruptor_refines_pipeline_witness :
  match example_run example_schedule_2 with
  | Some d => completed d `prefix_of` imap (completion example_consumers) (accepted d)
      ∧ completed d = [(100, 1, newConsumerCompletionResult); (200, 2, {| Status := Aborted; Code := 9; FinalConsumerPosition := 1 |})]
  | None => False
  end.
Proof.
  destruct (example_run example_schedule_2) as [d|] eqn:E; [|by vm_compute in E].
  destruct (example_reached _ _ E) as (d0 & H0 & Hn). split.
  - refine (proj1 (proj2 (disruptor_refines_pipeline example_options example_consumers _ _ _ _ _ _ _ H0 Hn _)));
      simpl; lia.
  - vm_compute in E. by injection E as <-.
Defined.

Lemma disruptor_race_free_witness :
  match example_run example_schedule with
  | Some d => producer d = Adding 7 300 ∧ m_threads d !! 1%nat = Some {| m_position := 1; pc := Inspecting 0 |}
      ∧ truncateIndex (m_container (m_disruptor d)) (m_next (m_container (m_disruptor d))) ≠ truncateIndex (m_container (m_disruptor d)) 0
  | None => False
  end.
Proof.
  destruct (example_run example_schedule) as [d|] eqn:E; [|by vm_compute in E].
  destruct (example_reached _ _ E) as (d0 & H0 & Hn).
  assert (producer d = Adding 7 300 ∧ m_threads d !! 1%nat = Some {| m_position := 1; pc := Inspecting 0 |}) as [Hp Ht].
  { vm_compute in E. by injection E as <-. }
  split_and!; [done|done|].
  refine (proj2 (disruptor_race_free example_options example_consumers _ _ _ _ _ _ _ H0 Hn _) 7 300 1%nat _ 0 Hp Ht eq_refl);
    simpl; lia.
Defined.

Lemma disruptor_drains_witness :
  match example_run example_schedule_2 with
  | Some d => remaining d = 14%nat ∧ ∀ m d', nsteps (consumers_step example_consumers) m d d' → (m ≤ remaining d)%nat
  | None => False
  end.
Proof.
  destruct (example_run example_schedule_2) as [d|] eqn:E; [|by vm_compute in E].
  destruct (example_reached _ _ E) as (d0 & H0 & Hn). split.
  - vm_compute in E. by injection E as <-.
  - refine (proj1 (disruptor_drains example_options example_consumers _ _ _ _ _ _ _ H0 Hn _)); simpl; lia.
Defined.

End Dispatcher.
