(* ===== verification/ChainSync.v ===== *)
(** Model of chain comparison and chain synchronization
    (catapult/chain/CompareChains.cpp, ChainComparisonCode.cpp,
    ChainSynchronizer.cpp, and [FindFirstDifferenceIndex] of
    catapult/model/EntityRange.h).

    What the local storage reads and what the remote node answers are
    parameters: each gives a value or an exception.  A remote request always
    gives a future, which completes; a call of the local node may also raise
    before there is a future ([call]).  Futures run one after the other, so
    that a round of synchronization is a function of the answers;
    what may interleave are rounds and the completion handlers of block ranges
    handed to the disruptor.  They share an [UnprocessedElements] object whose
    operations hold its lock, hence are atomic steps: the section on
    interleavings treats them as a step relation. *)
From stdpp Require Import base tactics numbers option list relations.
From S2P Require Import Prelude Disruptor.

Local Open Scope Z_scope.

Module ChainSync.

(** * Chain comparison *)

Inductive ChainComparisonCode :=
| Remote_Reported_Equal_Chain_Score
| Remote_Reported_Lower_Chain_Score
| Local_Chain_Score_Zero
| Local_Hashes_Is_Zero
| Remote_Is_Too_Far_Behind
| Remote_Is_Not_Synced
| Remote_Returned_Too_Many_Hashes
| Remote_Is_Forked
| Remote_Lied_About_Chain_Score.

#[global] Instance ChainComparisonCode_eq_dec : EqDecision ChainComparisonCode.
Proof. solve_decision. Defined.

Definition Remote_Is_Out_Of_Sync_Flag : Z := 0x40000000.
Definition Remote_Is_Evil_Flag : Z := 0x80000000.

(** [utils::to_underlying_type]. *)
Definition underlying (code : ChainComparisonCode) : Z :=
  match code with
  | Remote_Reported_Equal_Chain_Score => 1
  | Remote_Reported_Lower_Chain_Score => 2
  | Local_Chain_Score_Zero => 3
  | Local_Hashes_Is_Zero => 4
  | Remote_Is_Too_Far_Behind => Z.lor Remote_Is_Out_Of_Sync_Flag 1
  | Remote_Is_Not_Synced => Z.lor Remote_Is_Out_Of_Sync_Flag 2
  | Remote_Returned_Too_Many_Hashes => Z.lor Remote_Is_Evil_Flag 1
  | Remote_Is_Forked => Z.lor Remote_Is_Evil_Flag 2
  | Remote_Lied_About_Chain_Score => Z.lor Remote_Is_Evil_Flag 3
  end.

Definition IsRemoteOutOfSync (code : ChainComparisonCode) : bool :=
  bool_decide (0 ≠ Z.land Remote_Is_Out_Of_Sync_Flag (underlying code)).
Definition IsRemoteEvil (code : ChainComparisonCode) : bool :=
  bool_decide (0 ≠ Z.land Remote_Is_Evil_Flag (underlying code)).

Record CompareChainsOptions := { MaxBlocksToAnalyze : Z; MaxBlocksToRewrite : Z }.

Definition CalculateMaxHashesToAnalyze (options : CompareChainsOptions) : Z :=
  Z.max (MaxBlocksToAnalyze options) (u32 (MaxBlocksToRewrite options + 2)).

Record CompareChainsResult := { Code : ChainComparisonCode; CommonBlockHeight : Z; ForkDepth : Z }.

(** [api::ChainInfo] *)
Record ChainInfo := { info_Height : Z; info_Score : Z }.

Section comparison.
Context {Hash : Type} `{!EqDecision Hash}.

(** The calls of [api::ChainApi] that comparison makes. *)
Record ChainApi := {
  chainInfo : result ChainInfo;
  hashesFrom : Z → Z → result (list Hash)
}.

Fixpoint FindFirstDifferenceIndex (lhs rhs : list Hash) : nat :=
  match lhs, rhs with
  | l :: lhs, r :: rhs => if decide (l ≠ r) then 0 else S (FindFirstDifferenceIndex lhs rhs)
  | _, _ => 0
  end.

(** The heights a [CompareChainsContext] keeps. *)
Record Context := { m_localHeight : Z; m_commonBlockHeight : Z }.

(** [static_cast<int64_t>]. *)
Definition to_int64 (x : Z) : Z := if decide (x < 2 ^ 63) then x else x - 2 ^ 64.

Definition isRemoteTooFarBehind (options : CompareChainsOptions) (localHeight remoteHeight : Z) : bool :=
  MaxBlocksToRewrite options <? to_int64 (sub64 localHeight remoteHeight).

(** [None] is [Incomplete_Chain_Comparison_Code]. *)
Definition compareChainInfos_infos (options : CompareChainsOptions) (localInfo remoteInfo : ChainInfo) (c : Context)
    : option ChainComparisonCode * Context :=
  if decide (0 = info_Score localInfo) then (Some Local_Chain_Score_Zero, c)
  else if isRemoteTooFarBehind options (info_Height localInfo) (info_Height remoteInfo)
  then (Some Remote_Is_Too_Far_Behind, c)
  else if info_Score localInfo <? info_Score remoteInfo
  then (None, {| m_localHeight := info_Height localInfo; m_commonBlockHeight := m_commonBlockHeight c |})
  else (Some (if decide (info_Score localInfo = info_Score remoteInfo)
              then Remote_Reported_Equal_Chain_Score else Remote_Reported_Lower_Chain_Score), c).

Definition compareChainInfos (options : CompareChainsOptions) (local remote : ChainApi) (c : Context)
    : result (option ChainComparisonCode * Context) :=
  localInfo ← chainInfo local;
  remoteInfo ← chainInfo remote;
  Ok (compareChainInfos_infos options localInfo remoteInfo c).

Definition compareHashes_ranges (options : CompareChainsOptions) (startingHeight : Z) (localHashes remoteHashes : list Hash)
    (c : Context) : option ChainComparisonCode * Context :=
  if decide (length localHashes = 0%nat) then (Some Local_Hashes_Is_Zero, c)
  else
    let maxHashesToAnalyze := CalculateMaxHashesToAnalyze options in
    if maxHashesToAnalyze <? Z.of_nat (length remoteHashes) then (Some Remote_Returned_Too_Many_Hashes, c)
    else
      let firstDifferenceIndex := FindFirstDifferenceIndex localHashes remoteHashes in
      if decide (0%nat = firstDifferenceIndex) then (Some Remote_Is_Forked, c)
      else if decide (length remoteHashes = firstDifferenceIndex) then (Some Remote_Lied_About_Chain_Score, c)
      else
        (Some Remote_Is_Not_Synced,
         {| m_localHeight := add64 startingHeight (u64 (Z.of_nat (length localHashes) - 1));
            m_commonBlockHeight := u64 (startingHeight + Z.of_nat firstDifferenceIndex - 1) |}).

Definition startingHeight_of (options : CompareChainsOptions) (localHeight : Z) : Z :=
  if MaxBlocksToRewrite options <? localHeight then localHeight - MaxBlocksToRewrite options else 1.

Definition compareHashes (options : CompareChainsOptions) (local remote : ChainApi) (c : Context)
    : result (option ChainComparisonCode * Context) :=
  let startingHeight := startingHeight_of options (m_localHeight c) in
  let maxHashes := CalculateMaxHashesToAnalyze options in
  localHashes ← hashesFrom local startingHeight maxHashes;
  remoteHashes ← hashesFrom remote startingHeight maxHashes;
  Ok (compareHashes_ranges options startingHeight localHashes remoteHashes c).

(** [isFutureChainComplete]: [None] when the next comparison must run. *)
Definition complete (r : option ChainComparisonCode * Context) : option CompareChainsResult :=
  let '(code, c) := r in
  match code with
  | None => None
  | Some code =>
      let forkDepth := sub64 (m_localHeight c) (m_commonBlockHeight c) in
      Some (if decide (Remote_Is_Not_Synced = code)
            then {| Code := code; CommonBlockHeight := m_commonBlockHeight c; ForkDepth := forkDepth |}
            else {| Code := code; CommonBlockHeight := max64; ForkDepth := 0 |})
  end.

Definition CompareChains (local remote : ChainApi) (options : CompareChainsOptions) : result CompareChainsResult :=
  r ← compareChainInfos options local remote {| m_localHeight := 0; m_commonBlockHeight := 0 |};
  match complete r with
  | Some result => Ok result
  | None =>
      r ← compareHashes options local remote (snd r);
      match complete r with
      | Some result => Ok result
      | None => Throw undefined_behaviour (* no third comparison function *)
      end
  end.

(** ** The common block *)

Lemma first_difference lhs rhs :
  let i := FindFirstDifferenceIndex lhs rhs in
  (i ≤ length lhs)%nat ∧ (i ≤ length rhs)%nat ∧ take i lhs = take i rhs
  ∧ ∀ l r, lhs !! i = Some l → rhs !! i = Some r → l ≠ r.
Proof.
  revert rhs. induction lhs as [|l lhs IH]; intros [|r rhs]; simpl; try (split_and!; by try lia).
  destruct (decide (l ≠ r)) as [Hd|Hd%dec_stable]; simpl.
  - split_and!; [lia|lia|done|]. by intros ?? [= <-] [= <-].
  - subst. destruct (IH rhs) as (H1 & H2 & H3 & H4). split_and!; [lia|lia|by rewrite H3|done].
Qed.

(** An api that serves the chain with the hashes [chain] (height 1 first). *)
Definition serves (api : ChainApi) (chain : list Hash) : Prop :=
  (∃ score, chainInfo api = Ok {| info_Height := Z.of_nat (length chain); info_Score := score |})
  ∧ ∀ height max, 1 ≤ height → hashesFrom api height max = Ok (take (Z.to_nat max) (drop (Z.to_nat height - 1) chain)).

Lemma starting_height_bounds options n :
  0 ≤ n → 0 ≤ MaxBlocksToRewrite options →
  1 ≤ startingHeight_of options n ≤ Z.max 1 n ∧ n - startingHeight_of options n ≤ MaxBlocksToRewrite options.
Proof. intros. unfold startingHeight_of. destruct (_ <? _) eqn:E; zbool; lia. Qed.

(** The local node returns all hashes up to its last block. *)
Lemma local_hashes_complete options (chain : list Hash) :
  0 ≤ MaxBlocksToRewrite options < 2 ^ 32 - 2 → in_range 32 (MaxBlocksToAnalyze options) →
  let start := startingHeight_of options (Z.of_nat (length chain)) in
  take (Z.to_nat (CalculateMaxHashesToAnalyze options)) (drop (Z.to_nat start - 1) chain) = drop (Z.to_nat start - 1) chain.
Proof.
  intros Hrw Han start. destruct (starting_height_bounds options (Z.of_nat (length chain))) as [H1 H2]; [lia|lia|].
  fold start in H1, H2. apply take_ge. rewrite length_drop. unfold CalculateMaxHashesToAnalyze.
  rewrite (wrap_small 32) by (unfold in_range; lia). lia.
Qed.

(** What [compareHashes] has found when it reports a remote to sync with. *)
Lemma compareHashes_not_synced options start localHashes remoteHashes c c' :
  1 ≤ start → start + Z.of_nat (length localHashes) < 2 ^ 64 →
  compareHashes_ranges options start localHashes remoteHashes c = (Some Remote_Is_Not_Synced, c') →
  let i := FindFirstDifferenceIndex localHashes remoteHashes in
  (1 ≤ i ≤ length localHashes)%nat ∧ (i < length remoteHashes)%nat
  ∧ m_localHeight c' = start + Z.of_nat (length localHashes) - 1 ∧ m_commonBlockHeight c' = start + Z.of_nat i - 1.
Proof.
  intros Hs Hb. unfold compareHashes_ranges. destruct (first_difference localHashes remoteHashes) as (H1 & H2 & _).
  destruct (decide (length localHashes = _)); [done|]. destruct (_ <? _); [done|].
  destruct (decide (0%nat = _)); [done|]. destruct (decide (length remoteHashes = _)); [done|].
  intros Heq. injection Heq as <-. simpl.
  split_and!; try lia.
  - unfold add64. rewrite (wrap_small 64 (Z.of_nat _ - 1)) by (unfold in_range; lia).
    rewrite wrap_small by (unfold in_range; lia). lia.
  - apply wrap_small. unfold in_range. lia.
Qed.

Lemma complete_other code c r (k : result CompareChainsResult) :
  match complete (Some code, c) with Some x => Ok x | None => k end = Ok r →
  code ≠ Remote_Is_Not_Synced → Code r ≠ Remote_Is_Not_Synced.
Proof. cbn. intros Hr Hne. rewrite decide_False in Hr by congruence. by injection Hr as <-. Qed.

(** C36. When comparison says that blocks must be pulled from the remote, the
    common block it reports is a block both nodes have: it is on the local
    chain, the remote reported the same hashes from the first analyzed height
    up to it, and the remote has a next block there that the local chain does
    not have.  The fork depth is the number of local blocks above the common
    block, and it never exceeds [MaxBlocksToRewrite]. *)
Theorem CompareChains_common_block local remote options chain r :
  serves local chain → Z.of_nat (length chain) < 2 ^ 63 →
  0 ≤ MaxBlocksToRewrite options < 2 ^ 32 - 2 → in_range 32 (MaxBlocksToAnalyze options) →
  CompareChains local remote options = Ok r → Code r = Remote_Is_Not_Synced →
  let height := Z.of_nat (length chain) in
  let start := startingHeight_of options height in
  1 ≤ start ≤ CommonBlockHeight r ∧ CommonBlockHeight r ≤ height
  ∧ ForkDepth r = height - CommonBlockHeight r ∧ ForkDepth r ≤ MaxBlocksToRewrite options
  ∧ ∃ remoteHashes, hashesFrom remote start (CalculateMaxHashesToAnalyze options) = Ok remoteHashes
    ∧ (∀ h, start ≤ h ≤ CommonBlockHeight r → ∃ hash,
         chain !! Z.to_nat (h - 1) = Some hash ∧ remoteHashes !! Z.to_nat (h - start) = Some hash)
    ∧ ∃ hash, remoteHashes !! Z.to_nat (CommonBlockHeight r + 1 - start) = Some hash
        ∧ chain !! Z.to_nat (CommonBlockHeight r) ≠ Some hash.
Proof.
  intros [[score Hinfo] Hserve] Hn Hrw Han Hr Hcode height start. unfold CompareChains, compareChainInfos in Hr.
  rewrite Hinfo in Hr. cbn [mbind result_bind] in Hr. destruct (chainInfo remote) as [rinfo|]; [|done].
  cbn [mbind result_bind] in Hr. fold height in Hr.
  unfold compareChainInfos_infos in Hr. destruct (decide (0 = _)); [by apply complete_other in Hr|].
  destruct (isRemoteTooFarBehind _ _ _); [by apply complete_other in Hr|].
  destruct (_ <? _); cbn [snd] in Hr; [|case_decide; by apply complete_other in Hr].
  unfold compareHashes in Hr. cbn [m_localHeight info_Height] in Hr. fold start in Hr.
  destruct (starting_height_bounds options height) as [[Hst Hst'] Hdepth]; [lia|lia|]. fold start in Hst, Hst', Hdepth.
  rewrite Hserve in Hr by done. cbn [mbind result_bind] in Hr.
  pose proof (local_hashes_complete options chain Hrw Han) as Hlh. cbv zeta in Hlh. fold height start in Hlh.
  rewrite Hlh in Hr. clear Hlh.
  destruct (hashesFrom remote start (CalculateMaxHashesToAnalyze options)) as [remoteHashes|]; [|done].
  cbn [mbind result_bind] in Hr.
  set (lh := drop (Z.to_nat start - 1) chain) in *. set (i := FindFirstDifferenceIndex lh remoteHashes).
  assert (length lh = (length chain - (Z.to_nat start - 1))%nat) as Hlen by apply length_drop.
  destruct (compareHashes_ranges options start lh remoteHashes _) as [code c'] eqn:Ec.
  assert (code = Some Remote_Is_Not_Synced) as ->.
  { destruct code as [code|]; [|done]. destruct (decide (code = Remote_Is_Not_Synced)) as [->|Hne]; [done|].
    change (match complete (Some code, c') with Some x => Ok x | None => Throw undefined_behaviour end = Ok r) in Hr.
    by apply complete_other in Hr. }
  cbn [complete] in Hr. rewrite decide_True in Hr by done. injection Hr as <-. cbn [CommonBlockHeight ForkDepth].
  destruct (compareHashes_not_synced options start lh remoteHashes _ c' Hst ltac:(lia) Ec) as (Hi & Hir & -> & ->). fold i in Hi, Hir |- *.
  destruct (first_difference lh remoteHashes) as (_ & _ & Htake & Hdiff). fold i in Htake, Hdiff.
  rewrite (sub64_small (start + Z.of_nat (length lh) - 1)) by (unfold in_range; lia).
  split_and!; [lia|lia|lia|lia|lia|]. exists remoteHashes. split; [done|]. split.
  - intros h Hh. set (k := Z.to_nat (h - start)). assert (k < i)%nat as Hk by lia.
    destruct (lookup_lt_is_Some_2 lh k) as [hash Hhash]; [lia|]. exists hash. split.
    + unfold lh in Hhash. rewrite lookup_drop in Hhash. by replace (Z.to_nat (h - 1)) with (Z.to_nat start - 1 + k)%nat by lia.
    + fold k. rewrite <-(lookup_take_lt _ i) by done. rewrite <-Htake. by rewrite lookup_take_lt.
  - destruct (lookup_lt_is_Some_2 remoteHashes i) as [hash Hhash]; [done|]. exists hash.
    replace (Z.to_nat (start + Z.of_nat i - 1 + 1 - start)) with i by lia. split; [done|]. intros Hc.
    apply (Hdiff hash hash); [|done|done]. unfold lh. rewrite lookup_drop.
    by replace (Z.to_nat start - 1 + i)%nat with (Z.to_nat (start + Z.of_nat i - 1)) by lia.
Qed.

End comparison.

(** A local chain of five blocks and a remote that forked after the third. *)
Lemma CompareChains_common_block_witness :
  let options := {| MaxBlocksToAnalyze := 10; MaxBlocksToRewrite := 3 |} in
  let chain := [1; 2; 3; 4; 5] in
  let api (chain : list Z) (score : Z) := {|
    chainInfo := Ok {| info_Height := Z.of_nat (length chain); info_Score := score |};
    hashesFrom := λ height max, Ok (take (Z.to_nat max) (drop (Z.to_nat height - 1) chain)) |} in
  CompareChains (api chain 50) (api [1; 2; 3; 14; 15; 16] 60) options
    = Ok {| Code := Remote_Is_Not_Synced; CommonBlockHeight := 3; ForkDepth := 2 |}
  ∧ 3 ≤ Z.of_nat (length chain).
Proof.
  split; [reflexivity|].
  refine (proj1 (proj2 (CompareChains_common_block (Hash := Z)
    {| chainInfo := Ok {| info_Height := 5; info_Score := 50 |};
       hashesFrom := λ height max, Ok (take (Z.to_nat max) (drop (Z.to_nat height - 1) [1; 2; 3; 4; 5])) |}
    {| chainInfo := Ok {| info_Height := 6; info_Score := 60 |};
       hashesFrom := λ height max, Ok (take (Z.to_nat max) (drop (Z.to_nat height - 1) [1; 2; 3; 14; 15; 16])) |}
    {| MaxBlocksToAnalyze := 10; MaxBlocksToRewrite := 3 |} [1; 2; 3; 4; 5]
    {| Code := Remote_Is_Not_Synced; CommonBlockHeight := 3; ForkDepth := 2 |} _ _ _ _ _ _)));
    [|done|simpl; lia|done|reflexivity|reflexivity].
  split; [by exists 50|done].
Defined.

(** * Block ranges handed to the disruptor *)

Record Block := { block_Height : Z; block_Size : Z }.

(** [model::BlockRange]: its entities, and the size of the buffer they lie in. *)
Record BlockRange := { range_blocks : list Block; totalSize : Z }.

(** Emptiness is decided by the size of the buffer. *)
Definition range_empty (range : BlockRange) : bool := 0 =? totalSize range.
Definition range_size (range : BlockRange) : Z := Z.of_nat (length (range_blocks range)).

(** [(--range.cend())->Height] *)
Definition range_endHeight (range : BlockRange) : option Z := block_Height <$> last (range_blocks range).

Definition MergeRanges (ranges : list BlockRange) : BlockRange :=
  {| range_blocks := concat (map range_blocks ranges);
     totalSize := foldl (λ acc range, u64 (acc + totalSize range)) 0 ranges |}.

Abbreviation CompletionStatus := Dispatcher.CompletionStatus.
Abbreviation Normal := Dispatcher.Normal.

Record ElementInfo := { Id : Z; EndHeight : Z; NumBytes : Z }.

(** The queue [m_elements] front first.  The lock is not a field: every
    operation below holds it from beginning to end. *)
Record UnprocessedElements := {
  m_elements : list ElementInfo;
  m_maxSize : Z;
  m_numBytes : Z;
  m_hasPendingSync : bool;
  m_dirty : bool
}.

Definition newUnprocessedElements (maxSize : Z) : UnprocessedElements :=
  {| m_elements := []; m_maxSize := maxSize; m_numBytes := 0; m_hasPendingSync := false; m_dirty := false |}.

Definition numBytes (u : UnprocessedElements) : Z := m_numBytes u.
Definition empty (u : UnprocessedElements) : bool := 0 =? numBytes u.

Definition hasPendingOperation (u : UnprocessedElements) : bool := negb (0 =? m_numBytes u) || m_hasPendingSync u.

Definition set_pending_dirty (pending dirty : bool) (u : UnprocessedElements) : UnprocessedElements :=
  {| m_elements := m_elements u; m_maxSize := m_maxSize u; m_numBytes := m_numBytes u;
     m_hasPendingSync := pending; m_dirty := dirty |}.

Definition shouldStartSync (u : UnprocessedElements) : UnprocessedElements * bool :=
  if (m_maxSize u <=? m_numBytes u) || m_hasPendingSync u || m_dirty u then (u, false)
  else (set_pending_dirty true (m_dirty u) u, true).

Definition maxHeight (u : UnprocessedElements) : Z :=
  match last (m_elements u) with None => 0 | Some info => EndHeight info end.

(** [consumer] is the answer of [m_blockRangeConsumer]: the id of the new
    disruptor element, 0 when the disruptor is full, or an exception. *)
Definition add (consumer : BlockRange → result Z) (range : BlockRange) : Exec UnprocessedElements bool := λ u,
  if m_dirty u then (u, Ok false)
  else match range_endHeight range with
  | None => (u, Throw undefined_behaviour)
  | Some endHeight =>
      match consumer range with
      | Throw e => (u, Throw e)
      | Ok newId =>
          if 0 =? newId then (u, Ok false)
          else
            let info := {| Id := newId; EndHeight := endHeight; NumBytes := totalSize range |} in
            ({| m_elements := m_elements u ++ [info]; m_maxSize := m_maxSize u;
                m_numBytes := u64 (m_numBytes u + NumBytes info);
                m_hasPendingSync := m_hasPendingSync u; m_dirty := m_dirty u |}, Ok true)
      end
  end.

Definition remove (id : Z) (status : CompletionStatus) : Exec UnprocessedElements unit := λ u,
  match m_elements u with
  | [] => (u, Throw undefined_behaviour)
  | info :: rest =>
      if decide (Id info ≠ id) then (u, Throw invalid_argument)
      else
        let u' := {| m_elements := rest; m_maxSize := m_maxSize u; m_numBytes := u64 (m_numBytes u - NumBytes info);
                     m_hasPendingSync := m_hasPendingSync u; m_dirty := m_dirty u |} in
        (set_pending_dirty (m_hasPendingSync u') (hasPendingOperation u' && bool_decide (Normal ≠ status)) u', Ok tt)
  end.

Definition clearPendingSync (u : UnprocessedElements) : UnprocessedElements :=
  let u' := set_pending_dirty false (m_dirty u) u in
  if m_dirty u' then set_pending_dirty false (hasPendingOperation u') u' else u'.

(** * A round of synchronization *)

Inductive NodeInteractionResultCode := None_ | Neutral | Success | Failure.

Definition ToNodeInteractionResultCode (code : ChainComparisonCode) : NodeInteractionResultCode :=
  if IsRemoteOutOfSync code || IsRemoteEvil code then Failure else Neutral.

Record RangeAggregator := { m_numBlocks : Z; m_ranges : list BlockRange }.

Definition newRangeAggregator : RangeAggregator := {| m_numBlocks := 0; m_ranges := [] |}.
Definition aggregator_add (range : BlockRange) (a : RangeAggregator) : RangeAggregator :=
  {| m_numBlocks := u64 (m_numBlocks a + range_size range); m_ranges := m_ranges a ++ [range] |}.
Definition aggregator_merge (a : RangeAggregator) : BlockRange := MergeRanges (m_ranges a).
Definition aggregator_empty (a : RangeAggregator) : bool := 0 =? m_numBlocks a.

(** [catch (const catapult_runtime_error&)]: file i/o errors derive from it. *)
Definition is_runtime_error (e : exn) : bool :=
  match e with runtime_error | file_io_error => true | _ => false end.

Definition catch_runtime_error {S A} (m : Exec S A) (handler : A) : Exec S A := λ s,
  match m s with
  | (s', Throw e) => if is_runtime_error e then (s', Ok handler) else (s', Throw e)
  | r => r
  end.

Definition CompleteChainBlocksFrom (consumer : BlockRange → result Z) (a : RangeAggregator)
    : Exec UnprocessedElements NodeInteractionResultCode :=
  if aggregator_empty a then mret Neutral
  else
    added ← add consumer (aggregator_merge a);
    mret (if added : bool then Success else Neutral).

(** [supplier] answers a request for blocks.  The recursion asks the remote
    again and again: [None] is a round that is still asking after [fuel]
    answers. *)
Fixpoint ChainBlocksFrom (fuel : nat) (supplier : Z → result BlockRange) (consumer : BlockRange → result Z)
    (height forkDepth : Z) (a : RangeAggregator) (u : UnprocessedElements)
    : option (UnprocessedElements * result NodeInteractionResultCode) :=
  match fuel with
  | O => None
  | S fuel =>
      match supplier height with
      | Throw e => Some (catch_runtime_error (throw e) Failure u)
      | Ok range =>
          if range_empty range then Some (catch_runtime_error (CompleteChainBlocksFrom consumer a) Failure u)
          else match range_endHeight range with
          | None => Some (u, Throw undefined_behaviour)
          | Some endHeight =>
              let a := aggregator_add range a in
              if forkDepth <=? m_numBlocks a
              then Some (catch_runtime_error (CompleteChainBlocksFrom consumer a) Failure u)
              else ChainBlocksFrom fuel supplier consumer (add64 endHeight 1) forkDepth a u
          end
      end
  end.

Section synchronizer.
Context {Hash : Type} `{!EqDecision Hash}.

(** The outcome of a call that gives a future: the future completes, the call
    itself raises an exception, or the future never completes. *)
Inductive call (A : Type) : Type :=
| Returns (future : result A)
| Raises (e : exn)
| Pends.
#[global] Arguments Returns {_} _.
#[global] Arguments Raises {_} _.
#[global] Arguments Pends {_}.

(** What the local node's api reads: the chain height and the hashes in the
    storage, either of which may throw, and the score. *)
Record LocalNode := {
  storage_chainHeight : result Z;
  storage_loadHashesFrom : Z → Z → result (list Hash);
  chainScoreSupplier : Z
}.

(** [LocalChainApi]: the storage is read before the future is made. *)
Definition local_chainInfo (n : LocalNode) : call ChainInfo :=
  match storage_chainHeight n with
  | Throw e => Raises e
  | Ok height => Returns (Ok {| info_Height := height; info_Score := chainScoreSupplier n |})
  end.

Definition local_hashesFrom (n : LocalNode) (height maxHashes : Z) : call (list Hash) :=
  match storage_loadHashesFrom n height maxHashes with
  | Throw e => Raises e
  | Ok [] => Returns (Throw runtime_error)
  | Ok hashes => Returns (Ok hashes)
  end.

(** The values of its futures, for the comparison functions. *)
Definition future_value {A} (c : call A) : result A :=
  match c with Returns r => r | Raises e => Throw e | Pends => Throw undefined_behaviour end.

Definition LocalChainApi (n : LocalNode) : ChainApi (Hash := Hash) :=
  {| chainInfo := future_value (local_chainInfo n);
     hashesFrom := λ height maxHashes, future_value (local_hashesFrom n height maxHashes) |}.

(** [CompareChainsContext::compare].  The first comparison function runs in the
    call of [compare], so what the local node raises leaves it.  The second one
    runs in a continuation whose future nobody keeps: what the local node
    raises there is dropped with it, and the promise is never fulfilled. *)
Definition startCompare (local : LocalNode) (remote : ChainApi (Hash := Hash)) (options : CompareChainsOptions)
    : call CompareChainsResult :=
  match local_chainInfo local with
  | Raises e => Raises e
  | Pends => Pends
  | Returns _ =>
      match compareChainInfos options (LocalChainApi local) remote {| m_localHeight := 0; m_commonBlockHeight := 0 |} with
      | Ok (None, c) =>
          match local_hashesFrom local (startingHeight_of options (m_localHeight c)) (CalculateMaxHashesToAnalyze options) with
          | Returns _ => Returns (CompareChains (LocalChainApi local) remote options)
          | Raises _ | Pends => Pends
          end
      | _ => Returns (CompareChains (LocalChainApi local) remote options)
      end
  end.

(** [MaxBlocksPerSyncAttempt] and [MaxRollbackBlocks] are read from the
    configuration at every round. *)
Record SyncContext := {
  local_api : LocalNode;
  remote_api : ChainApi (Hash := Hash);
  blocksFrom : Z → result BlockRange;
  blockRangeConsumer : BlockRange → result Z;
  options : CompareChainsOptions
}.

Definition compareChains (ctx : SyncContext) (u : UnprocessedElements) : call CompareChainsResult :=
  if empty u then startCompare (local_api ctx) (remote_api ctx) (options ctx)
  else Returns (Ok {| Code := Remote_Is_Not_Synced; CommonBlockHeight := maxHeight u; ForkDepth := 0 |}).

Definition syncWithPeer (fuel : nat) (ctx : SyncContext) (compareResult : CompareChainsResult) (u : UnprocessedElements)
    : option (UnprocessedElements * result NodeInteractionResultCode) :=
  if decide (Code compareResult = Remote_Is_Not_Synced)
  then ChainBlocksFrom fuel (blocksFrom ctx) (blockRangeConsumer ctx)
         (add64 (CommonBlockHeight compareResult) 1) (ForkDepth compareResult) newRangeAggregator u
  else Some (u, Ok (ToNodeInteractionResultCode (Code compareResult))).

(** [DefaultChainSynchronizer::operator()] with no other round or completion
    handler in between.  Only a comparison that gives a future which completes
    is followed by [clearPendingSync]: [compareChains] is called outside the
    [try] block, and nothing runs after a future that never completes. *)
Definition synchronize (fuel : nat) (ctx : SyncContext) (u : UnprocessedElements)
    : option (UnprocessedElements * call NodeInteractionResultCode) :=
  match shouldStartSync u with
  | (u, false) => Some (u, Returns (Ok Neutral))
  | (u, true) =>
      match compareChains ctx u with
      | Raises e => Some (u, Raises e)
      | Pends => Some (u, Pends)
      | Returns future =>
          match future with
          | Throw e => Some (catch_runtime_error (throw e) Failure u)
          | Ok compareResult => syncWithPeer fuel ctx compareResult u
          end ≫= λ '(u, r), Some (clearPendingSync u, Returns r)
      end
  end.

(** The reads of the storage a round makes succeed. *)
Definition reads_succeed (n : LocalNode) : Prop :=
  (∃ height, storage_chainHeight n = Ok height)
  ∧ ∀ height maxHashes, ∃ hashes, storage_loadHashesFrom n height maxHashes = Ok hashes.

Lemma reads_complete local remote options :
  reads_succeed local → ∃ r, startCompare local remote options = Returns r.
Proof.
  intros [[h Hh] Hl]. unfold startCompare, local_chainInfo. rewrite Hh.
  destruct (compareChainInfos _ _ _ _) as [[[code|] c]|e]; [by eexists| |by eexists].
  unfold local_hashesFrom. destruct (Hl (startingHeight_of options (m_localHeight c)) (CalculateMaxHashesToAnalyze options)) as [hs ->].
  destruct hs; by eexists.
Qed.

End synchronizer.

(** [DefaultChainSynchronizer::DefaultChainSynchronizer]: the product is taken in 32 bits. *)
Definition newSynchronizerElements (maxChainBytesPerSyncAttempt : Z) : UnprocessedElements :=
  newUnprocessedElements (u32 (3 * maxChainBytesPerSyncAttempt)).

(** ** The pulled blocks *)

(** Blocks with consecutive heights from [height] on. *)
Definition heights_from (height : Z) (blocks : list Block) : Prop :=
  ∀ i b, blocks !! i = Some b → block_Height b = height + Z.of_nat i.

(** What a remote is asked for: blocks from [height] on.  A packet has a 32-bit
    size, so it holds fewer than 2^32 blocks. *)
Definition answers (height : Z) (range : BlockRange) : Prop :=
  (totalSize range = 0 ↔ range_blocks range = []) ∧ range_size range < 2 ^ 32 ∧ heights_from height (range_blocks range).

Lemma heights_from_app height xs ys :
  heights_from height xs → heights_from (height + Z.of_nat (length xs)) ys → heights_from height (xs ++ ys).
Proof.
  intros Hx Hy i b [Hi|[Hl Hi]]%lookup_app_Some; [by apply Hx|]. rewrite (Hy _ _ Hi). lia.
Qed.

Lemma heights_from_endHeight height range :
  heights_from height (range_blocks range) → range_blocks range ≠ [] →
  range_endHeight range = Some (height + range_size range - 1).
Proof.
  unfold range_endHeight, range_size. intros Hh Hne.
  destruct (exists_last Hne) as (bs & b & E). rewrite E in Hh |- *. rewrite last_snoc, length_app. simpl.
  rewrite (Hh (length bs) b) by (by rewrite lookup_app_r, Nat.sub_diag by lia). f_equal. lia.
Qed.

(** The aggregator has collected the blocks from [height] on. *)
Definition pulled (height : Z) (a : RangeAggregator) : Prop :=
  heights_from height (range_blocks (aggregator_merge a)) ∧ m_numBlocks a = range_size (aggregator_merge a).

Lemma merge_add range a :
  range_blocks (aggregator_merge (aggregator_add range a)) = range_blocks (aggregator_merge a) ++ range_blocks range.
Proof. unfold aggregator_merge. simpl. by rewrite map_app, concat_app; simpl; rewrite app_nil_r. Qed.

Lemma pulled_add height a range :
  pulled height a → answers (height + m_numBlocks a) range → m_numBlocks a + range_size range < 2 ^ 64 →
  pulled height (aggregator_add range a) ∧ m_numBlocks (aggregator_add range a) = m_numBlocks a + range_size range.
Proof.
  unfold pulled, answers, range_size. intros [Hh Hn] (_ & _ & Hr) Hb. rewrite merge_add, length_app.
  assert (m_numBlocks (aggregator_add range a) = m_numBlocks a + Z.of_nat (length (range_blocks range))) as ->.
  { simpl. apply wrap_small. unfold in_range, range_size. lia. }
  split_and!; [|lia|lia]. apply heights_from_app; [done|]. unfold range_size in Hn. by rewrite <-Hn.
Qed.

(** How a round that has collected [a] ends. *)
Definition round_outcome (consumer : BlockRange → result Z) (height : Z) (stopped : Z → Prop) (u u' : UnprocessedElements)
    (r : result NodeInteractionResultCode) : Prop :=
  (u' = u ∧ r ≠ Ok Success ∧ r ≠ Throw undefined_behaviour)
  ∨ ∃ range id, r = Ok Success ∧ heights_from height (range_blocks range) ∧ range_blocks range ≠ []
      ∧ stopped (range_size range) ∧ consumer range = Ok id ∧ id ≠ 0 ∧ m_dirty u = false
      ∧ u' = {| m_elements := m_elements u ++ [{| Id := id; EndHeight := height + range_size range - 1;
                                                   NumBytes := totalSize range |}];
                m_maxSize := m_maxSize u; m_numBytes := u64 (m_numBytes u + totalSize range);
                m_hasPendingSync := m_hasPendingSync u; m_dirty := false |}.

Lemma CompleteChainBlocksFrom_outcome consumer height (stopped : Z → Prop) a u u' r :
  (∀ range, consumer range ≠ Throw undefined_behaviour) → pulled height a → stopped (m_numBlocks a) →
  catch_runtime_error (CompleteChainBlocksFrom consumer a) Failure u = (u', r) →
  round_outcome consumer height stopped u u' r.
Proof.
  intros Hub [Hh Hn] Hst. unfold catch_runtime_error, CompleteChainBlocksFrom, aggregator_empty.
  destruct (0 =? _) eqn:E0; zbool; [intros [= <- <-]; by left|]. unfold add. exec_unfold.
  destruct (m_dirty u) eqn:Ed; [intros [= <- <-]; by left|].
  assert (range_blocks (aggregator_merge a) ≠ []) as Hne.
  { intros E. rewrite Hn in E0. unfold range_size in E0. by rewrite E in E0. }
  rewrite (heights_from_endHeight height) by done.
  pose proof (Hub (aggregator_merge a)). destruct (consumer (aggregator_merge a)) as [id|e] eqn:Ec.
  - destruct (0 =? id) eqn:E; zbool; intros [= <- <-]; [by left|]. right. exists (aggregator_merge a), id.
    rewrite <-Hn. by split_and!.
  - destruct (is_runtime_error e); intros [= <- <-]; left; split_and!; congruence.
Qed.

(** The rounds of the recursion, with [n] requests left. *)
Lemma ChainBlocksFrom_outcome supplier consumer height forkDepth n a u :
  (∀ h range, supplier h = Ok range → answers h range) →
  (∀ h, supplier h ≠ Throw undefined_behaviour) → (∀ range, consumer range ≠ Throw undefined_behaviour) →
  0 ≤ height < 2 ^ 62 → forkDepth < 2 ^ 62 → pulled height a → m_numBlocks a ≤ Z.max 0 (forkDepth - 1) →
  (1 ≤ n)%nat → forkDepth ≤ m_numBlocks a + Z.of_nat n →
  ∃ u' r, ChainBlocksFrom n supplier consumer (height + m_numBlocks a) forkDepth a u = Some (u', r)
    ∧ round_outcome consumer height
        (λ k, forkDepth ≤ k ∨ ∃ range, supplier (height + k) = Ok range ∧ range_empty range = true) u u' r.
Proof.
  intros Hans Hubs Hubc Hh Hf. revert a. induction n as [|n IH]; intros a Ha Hlow Hn Hfuel; [lia|]. cbn [ChainBlocksFrom].
  set (stopped := λ k, forkDepth ≤ k ∨ _). destruct (supplier _) as [range|e] eqn:Es.
  2: { unfold catch_runtime_error, throw. destruct (is_runtime_error e); do 2 eexists; (split; [done|]); left; [done|].
       split_and!; [done|done|]. intros [= ->]. by apply Hubs in Es. }
  destruct (range_empty range) eqn:Ee.
  { destruct (catch_runtime_error _ _ _) as [u' r] eqn:Ec. do 2 eexists. split; [done|].
    eapply CompleteChainBlocksFrom_outcome; eauto. right. eauto. }
  pose proof (Hans _ _ Es) as Hr. pose proof Hr as (Hz & Hk & Hrh). unfold range_empty in Ee. zbool.
  assert (range_blocks range ≠ []) as Hne by (intros E; apply Ee; symmetry; by apply Hz).
  assert (1 ≤ range_size range) by (unfold range_size; destruct (range_blocks range); [done|simpl; lia]).
  assert (0 ≤ m_numBlocks a) by (destruct Ha as [_ ->]; unfold range_size; lia).
  rewrite (heights_from_endHeight (height + m_numBlocks a)) by done. cbv zeta.
  destruct (pulled_add height a range) as [Ha' Hcount]; [done|done|lia|].
  rewrite Hcount. destruct (_ <=? _) eqn:Ef; zbool.
  { destruct (catch_runtime_error _ _ _) as [u' r] eqn:Ec. do 2 eexists. split; [done|].
    eapply CompleteChainBlocksFrom_outcome; eauto. left. lia. }
  unfold add64. rewrite (wrap_small 64) by (unfold in_range; lia).
  replace (height + m_numBlocks a + range_size range - 1 + 1) with (height + m_numBlocks (aggregator_add range a)) by lia.
  apply IH; [done|lia|lia|lia].
Qed.

(** Pulling blocks from a remote that answers with blocks of the
    requested heights terminates: the round is over after at most
    [max 1 forkDepth] requests, since each answer that does not end it brings
    at least one block.  It then either has left the queue as it is (an
    exception, a remote without blocks, a full disruptor, a dirty queue), or it
    has handed one merged range to the disruptor and queued its element: the
    range has consecutive heights from [height] on, and holds [forkDepth]
    blocks at least unless the remote had no more. *)
Theorem ChainBlocksFrom_terminates supplier consumer height forkDepth u :
  (∀ h range, supplier h = Ok range → answers h range) →
  (∀ h, supplier h ≠ Throw undefined_behaviour) → (∀ range, consumer range ≠ Throw undefined_behaviour) →
  0 ≤ height < 2 ^ 62 → forkDepth < 2 ^ 62 →
  ∃ u' r, ChainBlocksFrom (Z.to_nat (Z.max 1 forkDepth)) supplier consumer height forkDepth newRangeAggregator u = Some (u', r)
    ∧ round_outcome consumer height
        (λ k, forkDepth ≤ k ∨ ∃ range, supplier (height + k) = Ok range ∧ range_empty range = true) u u' r.
Proof.
  intros Hans Hubs Hubc Hh Hf.
  pose proof (ChainBlocksFrom_outcome supplier consumer height forkDepth (Z.to_nat (Z.max 1 forkDepth)) newRangeAggregator u) as H.
  cbn [m_numBlocks newRangeAggregator] in H. rewrite Z.add_0_r in H. apply H; try done; lia.
Qed.

(** Two blocks per answer, from a remote with the heights 1 to 7. *)
Definition example_supplier (h : Z) : result BlockRange :=
  let bs := filter (λ b, block_Height b ≤ 7) [{| block_Height := h; block_Size := 10 |}; {| block_Height := h + 1; block_Size := 10 |}] in
  Ok {| range_blocks := bs; totalSize := 10 * Z.of_nat (length bs) |}.

Lemma example_supplier_answers h range : example_supplier h = Ok range → answers h range.
Proof.
  unfold example_supplier. rewrite !filter_cons, filter_nil. simpl. intros [= <-]. unfold answers, range_size. simpl.
  destruct (decide (h ≤ 7)), (decide (h + 1 ≤ 7)); try lia; simpl; (split_and!; [split; intros; first [done|lia]|lia|]);
    intros [|[|i]] b; simpl; intros; simplify_eq/=; lia.
Qed.

Lemma ChainBlocksFrom_terminates_witness :
  ∃ u' r, ChainBlocksFrom 3 example_supplier (λ _, Ok 9) 3 3 newRangeAggregator (newSynchronizerElements 100) = Some (u', r)
    ∧ round_outcome (λ _, Ok 9) 3
        (λ k, 3 ≤ k ∨ ∃ range, example_supplier (3 + k) = Ok range ∧ range_empty range = true) (newSynchronizerElements 100) u' r.
Proof.
  apply (ChainBlocksFrom_terminates example_supplier (λ _, Ok 9) 3 3); [|done|done|lia|lia].
  apply example_supplier_answers.
Defined.

(** * Interleavings *)

(** How far a round is.  [Expanding] has found the queue not empty, and will
    read the height of its last element next: the two reads take the lock one
    after the other.  [Abandoned] has left without [clearPendingSync]. *)
Inductive round :=
| Starting
| Comparing
| Expanding
| Pulling (height forkDepth : Z)
| Finishing
| Abandoned.

(** The queue, the rounds that have started, and the ids the disruptor has
    accepted for this queue and not completed yet, in order of acceptance. *)
Record system := { queue : UnprocessedElements; rounds : list round; accepted : list Z }.

Section interleavings.
(** [locals] are the conditions the local node may be in when a round reads its
    storage; [maxRangeSize] bounds the size of a merged range. *)
Context {Hash : Type} `{!EqDecision Hash} (locals : LocalNode (Hash := Hash) → Prop) (maxRangeSize : Z).

(** What a round that has started, the disruptor and the completion handlers
    may do.  The answers of the remote nodes are arbitrary; the disruptor
    completes its elements in order of acceptance, with any status. *)
Inductive internal_step : system → system → Prop :=
| step_empty u l1 l2 ids :
    internal_step {| queue := u; rounds := l1 ++ Starting :: l2; accepted := ids |}
                  {| queue := u; rounds := l1 ++ (if empty u then Comparing else Expanding) :: l2; accepted := ids |}
| step_maxHeight u l1 l2 ids :
    internal_step {| queue := u; rounds := l1 ++ Expanding :: l2; accepted := ids |}
                  {| queue := u; rounds := l1 ++ Pulling (add64 (maxHeight u) 1) 0 :: l2; accepted := ids |}
| step_compared u l1 l2 ids local remote options r :
    locals local → startCompare local remote options = Returns (Ok r) → Code r = Remote_Is_Not_Synced →
    internal_step {| queue := u; rounds := l1 ++ Comparing :: l2; accepted := ids |}
                  {| queue := u; rounds := l1 ++ Pulling (add64 (CommonBlockHeight r) 1) (ForkDepth r) :: l2; accepted := ids |}
| step_compared_stop u l1 l2 ids local remote options r :
    locals local → startCompare local remote options = Returns r →
    (∀ r', r = Ok r' → Code r' ≠ Remote_Is_Not_Synced) →
    internal_step {| queue := u; rounds := l1 ++ Comparing :: l2; accepted := ids |}
                  {| queue := u; rounds := l1 ++ Finishing :: l2; accepted := ids |}
| step_abandoned u l1 l2 ids local remote options :
    locals local → (∀ r, startCompare local remote options ≠ Returns r) →
    internal_step {| queue := u; rounds := l1 ++ Comparing :: l2; accepted := ids |}
                  {| queue := u; rounds := l1 ++ Abandoned :: l2; accepted := ids |}
| step_pull_stop u l1 l2 ids height forkDepth :
    internal_step {| queue := u; rounds := l1 ++ Pulling height forkDepth :: l2; accepted := ids |}
                  {| queue := u; rounds := l1 ++ Finishing :: l2; accepted := ids |}
| step_add u u' l1 l2 ids height forkDepth a newId b :
    aggregator_empty a = false → 0 < totalSize (aggregator_merge a) ≤ maxRangeSize →
    newId ≠ 0 → add (λ _, Ok newId) (aggregator_merge a) u = (u', Ok b) →
    internal_step {| queue := u; rounds := l1 ++ Pulling height forkDepth :: l2; accepted := ids |}
                  {| queue := u'; rounds := l1 ++ Finishing :: l2; accepted := if b : bool then ids ++ [newId] else ids |}
| step_finish u l1 l2 ids :
    internal_step {| queue := u; rounds := l1 ++ Finishing :: l2; accepted := ids |}
                  {| queue := clearPendingSync u; rounds := l1 ++ l2; accepted := ids |}
| step_complete u u' l id ids status r :
    remove id status u = (u', r) →
    internal_step {| queue := u; rounds := l; accepted := id :: ids |} {| queue := u'; rounds := l; accepted := ids |}.

(** A call of [operator()]: it starts a round or is refused. *)
Inductive step : system → system → Prop :=
| step_call u u' b l ids :
    shouldStartSync u = (u', b) →
    step {| queue := u; rounds := l; accepted := ids |}
         {| queue := u'; rounds := if b : bool then Starting :: l else l; accepted := ids |}
| step_internal s s' : internal_step s s' → step s s'.

Definition initial (maxChainBytes : Z) : system :=
  {| queue := newSynchronizerElements maxChainBytes; rounds := []; accepted := [] |}.

Definition reachable (maxChainBytes : Z) (s : system) : Prop := rtc step (initial maxChainBytes) s.

Definition total_bytes (elements : list ElementInfo) : Z := foldr (λ info acc, NumBytes info + acc) 0 elements.

(** A round that may still add a range. *)
Definition may_add (r : round) : bool := match r with Finishing | Abandoned => false | _ => true end.

Record sync_inv (maxSize : Z) (s : system) : Prop := {
  inv_maxSize : m_maxSize (queue s) = maxSize;
  inv_ids : Id <$> m_elements (queue s) = accepted s;
  inv_sizes : Forall (λ info, 0 < NumBytes info) (m_elements (queue s));
  inv_numBytes : m_numBytes (queue s) = total_bytes (m_elements (queue s));
  inv_rounds : length (rounds s) = if m_hasPendingSync (queue s) then 1%nat else 0%nat;
  inv_dirty : m_dirty (queue s) = true → hasPendingOperation (queue s) = true;
  inv_bound : m_numBytes (queue s) < maxSize + maxRangeSize;
  inv_capacity : Forall (λ r, may_add r = true → m_numBytes (queue s) < maxSize) (rounds s)
}.

Lemma total_bytes_app xs ys : total_bytes (xs ++ ys) = total_bytes xs + total_bytes ys.
Proof. induction xs as [|x xs IH]; simpl; [done|]. rewrite IH. lia. Qed.

Lemma total_bytes_nonneg xs : Forall (λ info, 0 < NumBytes info) xs → 0 ≤ total_bytes xs.
Proof. induction 1; simpl; lia. Qed.

Context (maxSize : Z) (Hmax : 0 < maxSize < 2 ^ 32) (Hrange : 0 ≤ maxRangeSize < 2 ^ 63).

Lemma inv_empty s : sync_inv maxSize s → empty (queue s) = true ↔ m_elements (queue s) = [].
Proof.
  intros [_ _ Hs Hn _ _ _ _]. unfold empty, numBytes. rewrite Hn, Z.eqb_eq.
  destruct Hs as [|x l Hx Hs]; [done|]. simpl. apply total_bytes_nonneg in Hs. split; [lia|done].
Qed.

Lemma remove_inv u u' l id ids status r :
  sync_inv maxSize {| queue := u; rounds := l; accepted := id :: ids |} → remove id status u = (u', r) →
  r = Ok tt ∧ sync_inv maxSize {| queue := u'; rounds := l; accepted := ids |}.
Proof.
  intros [Hm Hid Hs Hn Hr Hd Hb Hc]; simpl in *. unfold remove.
  destruct (m_elements u) as [|info rest]; simplify_eq/=.
  rewrite decide_False by (by intros []). intros Heq. injection Heq as <- <-. split; [done|].
  apply Forall_cons in Hs as [Hi Hs]. pose proof (total_bytes_nonneg _ Hs).
  assert (u64 (m_numBytes u - NumBytes info) = total_bytes rest) as Hw.
  { rewrite wrap_small by (unfold in_range; lia). lia. }
  rewrite Hw. constructor; simpl; try done.
  - intros [? _]%andb_true_iff. done.
  - lia.
  - eapply Forall_impl; [exact Hc|]. simpl. intros x Hx Ha. specialize (Hx Ha). lia.
Qed.

Lemma shouldStartSync_inv u u' b l ids :
  sync_inv maxSize {| queue := u; rounds := l; accepted := ids |} → shouldStartSync u = (u', b) →
  sync_inv maxSize {| queue := u'; rounds := if b : bool then Starting :: l else l; accepted := ids |}.
Proof.
  intros Hinv. unfold shouldStartSync. destruct (_ || _) eqn:E; intros Heq; injection Heq as <- <-; [done|].
  destruct Hinv as [Hm Hid Hs Hn Hr Hd Hb Hc]; simpl in *. apply orb_false_iff in E as [[E1 E2]%orb_false_iff E3]. zbool.
  rewrite E2 in Hr. destruct l; [|done]. constructor; simpl; try done.
  - intros. unfold hasPendingOperation. simpl. by rewrite orb_true_r.
  - constructor; [|done]. intros _. lia.
Qed.

(** One round at most: what the others in the list say. *)
Lemma one_round {l1 l2 : list round} {r} {n} :
  length (l1 ++ r :: l2) = (if n : bool then 1 else 0)%nat → l1 = [] ∧ l2 = [] ∧ n = true.
Proof. rewrite length_app. destruct l1, l2, n; simpl; intros; (done || lia). Qed.

Lemma inv_change_round u l1 l2 r r' ids :
  sync_inv maxSize {| queue := u; rounds := l1 ++ r :: l2; accepted := ids |} →
  (may_add r' = true → may_add r = true) →
  sync_inv maxSize {| queue := u; rounds := l1 ++ r' :: l2; accepted := ids |}.
Proof.
  intros [Hm Hid Hs Hn Hr Hd Hb Hc] Himp; simpl in *. destruct (one_round Hr) as (-> & -> & Hp).
  constructor; simpl in *; try done. rewrite Forall_singleton in Hc. apply Forall_singleton. intros Ha. apply Hc, Himp, Ha.
Qed.

Lemma add_inv u u' l1 l2 ids height forkDepth range newId b :
  sync_inv maxSize {| queue := u; rounds := l1 ++ Pulling height forkDepth :: l2; accepted := ids |} →
  0 < totalSize range ≤ maxRangeSize → newId ≠ 0 →
  add (λ _, Ok newId) range u = (u', Ok b) →
  sync_inv maxSize {| queue := u'; rounds := l1 ++ Finishing :: l2; accepted := if b : bool then ids ++ [newId] else ids |}.
Proof.
  intros Hinv Hsz Hid. unfold add. destruct (m_dirty u) eqn:Ed.
  { intros Heq. injection Heq as <- <-. by eapply inv_change_round. }
  destruct (range_endHeight _) as [eh|]; [|done]. destruct (0 =? newId) eqn:E0; zbool; [done|].
  intros Heq. injection Heq as <- <-. destruct Hinv as [Hm Hids Hs Hn Hr Hd Hb Hc]; simpl in *.
  destruct (one_round Hr) as (-> & -> & Hp). simpl in Hc. rewrite Forall_singleton in Hc. specialize (Hc eq_refl).
  pose proof (total_bytes_nonneg _ Hs).
  assert (u64 (m_numBytes u + totalSize range) = m_numBytes u + totalSize range) as Hw.
  { apply wrap_small. unfold in_range. lia. }
  rewrite Hw. constructor; simpl; try done.
  - by rewrite fmap_app, Hids.
  - apply Forall_app. split; [done|]. apply Forall_singleton. simpl. lia.
  - rewrite total_bytes_app. simpl. lia.
  - lia.
  - by apply Forall_singleton.
Qed.

Lemma clearPendingSync_inv u l1 l2 ids :
  sync_inv maxSize {| queue := u; rounds := l1 ++ Finishing :: l2; accepted := ids |} →
  sync_inv maxSize {| queue := clearPendingSync u; rounds := l1 ++ l2; accepted := ids |}.
Proof.
  intros [Hm Hid Hs Hn Hr Hd Hb Hc]; simpl in *. destruct (one_round Hr) as (-> & -> & Hp).
  unfold clearPendingSync. simpl. destruct (m_dirty u) eqn:E; constructor; simpl; by rewrite ?E.
Qed.

Lemma step_inv s s' : sync_inv maxSize s → step s s' → sync_inv maxSize s'.
Proof.
  intros Hinv Hs. destruct Hs as [u u' b l ids Hc|s s' Hs]; [by eapply shouldStartSync_inv|].
  destruct Hs; eauto using clearPendingSync_inv, add_inv; try (by eapply inv_change_round).
  by eapply remove_inv in Hinv as [_ ?].
Qed.

Lemma initial_inv maxChainBytes : maxSize = u32 (3 * maxChainBytes) → sync_inv maxSize (initial maxChainBytes).
Proof. intros ->. constructor; simpl; try done. lia. Qed.

Lemma reachable_inv maxChainBytes s :
  maxSize = u32 (3 * maxChainBytes) → reachable maxChainBytes s → sync_inv maxSize s.
Proof.
  intros Hm Hr. pose proof (initial_inv _ Hm) as Hi.
  unfold reachable in Hr. induction Hr as [|s s' s'' Hs Hr IH]; [done|]. eauto using step_inv.
Qed.

(** The steps that are left when no new round starts. *)
Definition round_rank (r : round) : nat :=
  match r with Starting => 5 | Comparing | Expanding => 4 | Pulling _ _ => 3 | Finishing => 1 | Abandoned => 0 end.

Definition remaining (s : system) : nat := sum_list (round_rank <$> rounds s) + length (accepted s).

Lemma internal_step_decreases s s' : internal_step s s' → (remaining s' < remaining s)%nat.
Proof.
  unfold remaining. destruct 1; simpl; rewrite ?fmap_app, ?sum_list_with_app, ?fmap_cons; simpl;
    try (rewrite !sum_list_with_app; simpl); try lia.
  - destruct (empty u); simpl; lia.
  - destruct b; rewrite ?length_app; simpl; lia.
Qed.

Lemma internal_step_progress local s :
  locals local → sync_inv maxSize s → (∀ s', ¬ internal_step s s') →
  (rounds s = [] ∨ rounds s = [Abandoned]) ∧ accepted s = [].
Proof.
  destruct s as [u l ids]. simpl. intros Hl Hinv Hstuck. destruct ids as [|id ids].
  2: { destruct (remove id Normal u) as [u' r] eqn:E. by edestruct Hstuck; eapply step_complete. }
  split; [|done]. pose proof (inv_rounds _ _ Hinv) as Hlen. simpl in Hlen. destruct l as [|r l]; [by left|]. right.
  destruct (@one_round [] l r _ Hlen) as (_ & -> & _). destruct r; [| | | | |done]; exfalso.
  - eapply Hstuck, (step_empty u [] []).
  - set (remote := {| chainInfo := Throw runtime_error; hashesFrom := λ _ _, Throw runtime_error |} : ChainApi (Hash := Hash)).
    set (options := {| MaxBlocksToAnalyze := 0; MaxBlocksToRewrite := 0 |}).
    destruct (startCompare local remote options) as [[r|e]|e|] eqn:E.
    + destruct (decide (Code r = Remote_Is_Not_Synced)).
      * by eapply Hstuck, (step_compared u [] []).
      * eapply Hstuck, (step_compared_stop u [] []); [done|done|]. by intros ? [= <-].
    + by eapply Hstuck, (step_compared_stop u [] []).
    + eapply Hstuck, (step_abandoned u [] [] _ local remote options); [done|]. by rewrite E.
    + eapply Hstuck, (step_abandoned u [] [] _ local remote options); [done|]. by rewrite E.
  - eapply Hstuck, (step_maxHeight u [] []).
  - eapply Hstuck, (step_pull_stop u [] []).
  - eapply Hstuck, (step_finish u [] []).
Qed.

(** A round is abandoned only when a read of the storage fails. *)
Lemma step_abandons s s' :
  (∀ n, locals n → reads_succeed n) → Abandoned ∉ rounds s → step s s' → Abandoned ∉ rounds s'.
Proof.
  intros Hl Ha Hs. destruct Hs as [u u' b l ids Hc|s s' Hs]; [destruct b; simpl in *; set_solver|].
  destruct Hs; simpl in *; try set_solver.
  - destruct (empty u); set_solver.
  - match goal with H : ∀ r, startCompare ?n ?remote ?opts ≠ Returns r |- _ =>
      destruct (reads_complete n remote opts) as [r Hr]; [by apply Hl|by apply H in Hr] end.
Qed.

(** An abandoned round keeps the flag set: it has no step, and no other round
    may start. *)
Lemma step_stays_abandoned s s' :
  sync_inv maxSize s → rounds s = [Abandoned] → step s s' → rounds s' = [Abandoned].
Proof.
  intros Hinv Ha Hs. pose proof (inv_rounds _ _ Hinv) as Hp. rewrite Ha in Hp.
  destruct Hs as [u u' b l ids Hc|s s' Hs].
  - simpl in *. unfold shouldStartSync in Hc. destruct (m_hasPendingSync u); [|done]. rewrite orb_true_r in Hc.
    by injection Hc as <- <-.
  - destruct Hs; simpl in *;
      try match goal with H : ?l1 ++ _ :: _ = [_] |- _ => destruct l1 as [|? [|]]; simplify_eq/= end; done.
Qed.

Lemma abandoned_refuses s : sync_inv maxSize s → Abandoned ∈ rounds s → snd (shouldStartSync (queue s)) = false.
Proof.
  intros Hinv Ha. pose proof (inv_rounds _ _ Hinv) as Hp. unfold shouldStartSync.
  destruct (m_hasPendingSync _); [by rewrite orb_true_r|]. apply nil_length_inv in Hp. rewrite Hp in Ha. set_solver.
Qed.

End interleavings.

Lemma maxSize_positive maxChainBytes : 0 < maxChainBytes < 2 ^ 32 → 0 < u32 (3 * maxChainBytes) < 2 ^ 32.
Proof.
  intros H. pose proof (wrap_range 32 (3 * maxChainBytes) ltac:(lia)) as Hr. unfold in_range in Hr.
  enough (u32 (3 * maxChainBytes) ≠ 0) by lia. unfold wrap. intros Hz.
  apply Z.mod_divide in Hz as [k Hk]; [|lia]. assert (k = 0 ∨ k = 1 ∨ k = 2) by lia. lia.
Qed.

(** * The synchronizer with its dispatcher *)

Section coupled.
Context {Hash : Type} `{!EqDecision Hash} (locals : LocalNode (Hash := Hash) → Prop).
Context {D : Type} (dispatcher_step : D → D → Prop) (good : D → Prop) (pending : D → list Z).
Context `{!InOrder dispatcher_step good pending} (maxRangeSize : Z).

(** A call of [add] that is accepted is a step of both, and so is the call of
    a completion handler; in all other steps one of the two stands still. *)
Inductive coupled_step : system * D → system * D → Prop :=
| coupled_client s s' d :
    step locals maxRangeSize s s' → accepted s' = accepted s → coupled_step (s, d) (s', d)
| coupled_dispatcher s d d' :
    dispatcher_step d d' → pending d' = pending d → coupled_step (s, d) (s, d')
| coupled_accept s s' d d' id :
    dispatcher_step d d' → pending d' = pending d ++ [id] →
    step locals maxRangeSize s s' → accepted s' = accepted s ++ [id] → coupled_step (s, d) (s', d')
| coupled_complete u u' l ids d d' id status r :
    dispatcher_step d d' → pending d = id :: pending d' → remove id status u = (u', r) →
    coupled_step ({| queue := u; rounds := l; accepted := ids |}, d) ({| queue := u'; rounds := l; accepted := tail ids |}, d').

(** The queue's view of the dispatcher is right, so that the coupled system
    goes through reachable states of the synchronizer only. *)
Lemma coupled_reachable maxChainBytes d0 s d :
  pending d0 = [] → rtc coupled_step (initial maxChainBytes, d0) (s, d) →
  accepted s = pending d ∧ reachable locals maxRangeSize maxChainBytes s.
Proof.
  intros Hd0 Hr.
  refine (rtc_ind_r (λ sd, accepted (fst sd) = pending (snd sd) ∧ reachable locals maxRangeSize maxChainBytes (fst sd)) _ _ _ (s, d) Hr).
  { split; [done|apply rtc_refl]. }
  intros sd sd' _ Hs [Ha Hre]. destruct Hs; simpl in *.
  - split; [congruence|]. by eapply rtc_r.
  - split; [congruence|done].
  - split; [congruence|]. by eapply rtc_r.
  - subst ids. match goal with H : pending _ = _ :: _ |- _ => rewrite H in Hre |- * end.
    split; [done|]. eapply rtc_r; [exact Hre|]. by eapply step_internal, step_complete.
Qed.

(** Nothing the dispatcher does blocks: a step of it is a step of the coupled
    system, but for those that accept a new range. *)
Lemma coupled_total s d d' (status : CompletionStatus) :
  accepted s = pending d → good d → good d' → dispatcher_step d d' →
  (∃ id, pending d' = pending d ++ [id]) ∨ ∃ s', coupled_step (s, d) (s', d').
Proof.
  intros Ha Hg Hg' Hs. destruct s as [u l ids]. simpl in Ha. destruct (in_order d d' Hg Hg' Hs) as [Hp|[[id Hp]|[id Hp]]].
  - right. eexists. by eapply coupled_dispatcher.
  - left. by exists id.
  - right. destruct (remove id status u) as [u' r] eqn:E. eexists. by eapply (coupled_complete u).
Qed.

End coupled.

(** However rounds and completion handlers interleave: at most one round
    runs at a time; the queue holds the elements the disruptor has accepted and
    not completed, in order, so a completion handler never throws; [m_numBytes]
    is the sum of their sizes, hence [empty()] tells whether there are any; and
    it stays below [m_maxSize] plus the size of one merged range. *)
Theorem synchronizer_invariant {Hash} `{!EqDecision Hash} (locals : LocalNode (Hash := Hash) → Prop) maxRangeSize maxChainBytes s :
  0 < maxChainBytes < 2 ^ 32 → 0 ≤ maxRangeSize < 2 ^ 63 → reachable locals maxRangeSize maxChainBytes s →
  (length (rounds s) ≤ 1)%nat
  ∧ Id <$> m_elements (queue s) = accepted s
  ∧ (∀ id ids status, accepted s = id :: ids → snd (remove id status (queue s)) = Ok tt)
  ∧ m_numBytes (queue s) = total_bytes (m_elements (queue s))
  ∧ (empty (queue s) = true ↔ m_elements (queue s) = [])
  ∧ m_numBytes (queue s) < u32 (3 * maxChainBytes) + maxRangeSize.
Proof.
  intros Hc Hr Hs. pose proof (maxSize_positive _ Hc) as Hm.
  pose proof (reachable_inv _ _ _ Hm Hr _ _ eq_refl Hs) as Hinv.
  split_and!; try apply Hinv.
  - rewrite (inv_rounds _ _ _ Hinv). destruct (m_hasPendingSync _); lia.
  - destruct s as [u l ids0]. simpl. intros id ids status ->. destruct (remove id status u) as [u' r] eqn:E.
    by destruct (remove_inv _ _ Hm Hr _ _ _ _ _ _ _ Hinv E) as [-> _].
  - by eapply inv_empty.
Qed.

Section recovery.
Context {Hash : Type} `{!EqDecision Hash} (locals : LocalNode (Hash := Hash) → Prop) (maxRangeSize maxChainBytes : Z).
Context (Hc : 0 < maxChainBytes < 2 ^ 32) (Hr : 0 ≤ maxRangeSize < 2 ^ 63).
Let inv := sync_inv maxRangeSize (u32 (3 * maxChainBytes)).

Lemma steps_inv s s' : inv s → rtc (step locals maxRangeSize) s s' → inv s'.
Proof.
  pose proof (maxSize_positive _ Hc). intros Hi Hs. induction Hs as [|s s' s'' Hst Hs IH]; [done|].
  apply IH. by eapply step_inv.
Qed.

Lemma internal_steps s s' : rtc (internal_step locals maxRangeSize) s s' → rtc (step locals maxRangeSize) s s'.
Proof. induction 1; [done|]. eapply rtc_l; [by apply step_internal|done]. Qed.

(** At rest with no round in progress, a call starts one. *)
Lemma rest_starts s : inv s → rounds s = [] → accepted s = [] → snd (shouldStartSync (queue s)) = true.
Proof.
  pose proof (maxSize_positive _ Hc). intros [Hmx Hid _ Hn Hro Hd _ _] Hl Hi. rewrite Hi in Hid. apply fmap_nil_inv in Hid.
  rewrite Hid in Hn. simpl in Hn. rewrite Hl in Hro.
  assert (m_hasPendingSync (queue s) = false) as Hp by (by destruct (m_hasPendingSync _)).
  unfold hasPendingOperation in Hd. rewrite Hn, Hp in Hd. simpl in Hd.
  unfold shouldStartSync. rewrite Hmx, Hn, Hp. destruct (m_dirty _); [by specialize (Hd eq_refl)|].
  destruct (_ <=? _) eqn:E; zbool; [lia|done].
Qed.

Lemma abandoned_steps s s' :
  inv s → rounds s = [Abandoned] → rtc (step locals maxRangeSize) s s' → rounds s' = [Abandoned].
Proof.
  pose proof (maxSize_positive _ Hc). intros Hi Ha Hs. induction Hs as [|s s' s'' Hst Hs IH]; [done|].
  apply IH; [by eapply step_inv|by eapply step_stays_abandoned].
Qed.

End recovery.

(** C19. When a node that synchronizes starts a round again, and when it never
    does.  From every state the synchronizer can reach:
    - the round in progress and the completions of accepted elements take at
      most [remaining s] steps, whatever order they come in and whatever the
      remote nodes answer;
    - when none of them is left, either the next call starts a round (neither a
      pending flag nor the dirty flag of an aborted element survives), or a
      round has been abandoned;
    - a round is abandoned only if a read of the local storage throws;
    - after that no call ever starts a round again, since nothing clears the
      pending flag: [compareChains] is called outside the [try] block of
      [operator()], and the second comparison in a continuation whose result is
      dropped.
    Remote requests are assumed to complete, with a value or an error; [locals]
    are the conditions of the local storage that rounds may meet, one at
    least, and the sizes are those a node can have. *)
Theorem synchronizer_recovers {Hash} `{!EqDecision Hash} (locals : LocalNode (Hash := Hash) → Prop) local
    maxRangeSize maxChainBytes s :
  0 < maxChainBytes < 2 ^ 32 → 0 ≤ maxRangeSize < 2 ^ 63 → locals local → reachable locals maxRangeSize maxChainBytes s →
  (∀ n s', nsteps (internal_step locals maxRangeSize) n s s' → (n ≤ remaining s)%nat)
  ∧ (∀ s', rtc (internal_step locals maxRangeSize) s s' → (∀ s'', ¬ internal_step locals maxRangeSize s' s'') →
      snd (shouldStartSync (queue s')) = true ∨ Abandoned ∈ rounds s')
  ∧ ((∀ n, locals n → reads_succeed n) → Abandoned ∉ rounds s)
  ∧ (Abandoned ∈ rounds s → ∀ s', rtc (step locals maxRangeSize) s s' →
      snd (shouldStartSync (queue s')) = false ∧ Abandoned ∈ rounds s').
Proof.
  intros Hc Hr Hl Hs. pose proof (maxSize_positive _ Hc) as Hm.
  pose proof (reachable_inv _ _ _ Hm Hr _ _ eq_refl Hs) as Hinv. split_and!.
  - intros n s' Hn. clear Hinv Hs. induction Hn as [|n s s' s'' Hst Hn IH]; [lia|].
    apply internal_step_decreases in Hst. lia.
  - intros s' Hst%internal_steps Hstuck. pose proof (steps_inv _ _ _ Hc Hr _ _ Hinv Hst) as Hinv'.
    destruct (internal_step_progress _ _ _ _ s' Hl Hinv' Hstuck) as [[Hro|Hro] Hi].
    + left. by eapply (rest_starts maxRangeSize maxChainBytes).
    + right. rewrite Hro. set_solver.
  - intros Hreads. clear Hinv. unfold reachable in Hs. refine (rtc_ind_r (λ s, Abandoned ∉ rounds s) _ _ _ s Hs).
    + simpl. set_solver.
    + intros s' s'' _ Hst Ha. by eapply step_abandons.
  - intros Ha s' Hst. pose proof (steps_inv _ _ _ Hc Hr _ _ Hinv Hst) as Hinv'.
    assert (rounds s' = [Abandoned]) as Hro.
    { refine (abandoned_steps locals _ _ Hc Hr s s' Hinv _ Hst). pose proof (inv_rounds _ _ _ Hinv) as Hlen.
      destruct (rounds s) as [|r [|]], (m_hasPendingSync _); try done; [set_solver|]. f_equal. set_solver. }
    assert (Abandoned ∈ rounds s') by (rewrite Hro; set_solver). split; [|done]. by eapply abandoned_refuses.
Qed.

(** One accepted range (heights 4 and 5) that has not been processed yet. *)
Definition example_aggregator : RangeAggregator :=
  aggregator_add {| range_blocks := [{| block_Height := 4; block_Size := 10 |}; {| block_Height := 5; block_Size := 10 |}];
                    totalSize := 20 |} newRangeAggregator.

Definition example_state (l : list round) (pending : bool) (ids : list Z) : system :=
  {| queue := {| m_elements := (λ id, {| Id := id; EndHeight := 5; NumBytes := 20 |}) <$> ids; m_maxSize := 300;
                 m_numBytes := 20 * Z.of_nat (length ids); m_hasPendingSync := pending; m_dirty := false |};
     rounds := l; accepted := ids |}.

(** A local chain of four blocks and a remote whose block 4 is another one; the
    same node when the index file of its storage, or its file of hashes, cannot
    be read. *)
Definition example_node : LocalNode (Hash := Z) :=
  {| storage_chainHeight := Ok 4; chainScoreSupplier := 50;
     storage_loadHashesFrom := λ height max, Ok (take (Z.to_nat max) (drop (Z.to_nat height - 1) [1; 2; 3; 4])) |}.
Definition example_unreadable_index : LocalNode (Hash := Z) :=
  {| storage_chainHeight := Throw file_io_error; chainScoreSupplier := 50;
     storage_loadHashesFrom := λ _ _, Throw file_io_error |}.
Definition example_unreadable_hashes : LocalNode (Hash := Z) :=
  {| storage_chainHeight := Ok 4; chainScoreSupplier := 50; storage_loadHashesFrom := λ _ _, Throw file_io_error |}.
Definition example_locals (n : LocalNode (Hash := Z)) : Prop :=
  n = example_node ∨ n = example_unreadable_index ∨ n = example_unreadable_hashes.

Definition example_remote : ChainApi (Hash := Z) :=
  {| chainInfo := Ok {| info_Height := 5; info_Score := 60 |};
     hashesFrom := λ height max, Ok (take (Z.to_nat max) (drop (Z.to_nat height - 1) [1; 2; 3; 14; 15])) |}.
Definition example_options : CompareChainsOptions := {| MaxBlocksToAnalyze := 10; MaxBlocksToRewrite := 3 |}.

(** A round in each of the three conditions: it queues a range and clears its
    flag; the call throws with the flag set; its future never completes, with
    the flag set. *)
Example synchronize_outcomes :
  let ctx local := {| local_api := local; remote_api := example_remote; blocksFrom := example_supplier;
                      blockRangeConsumer := λ _, Ok 7; options := example_options |} in
  let u := newSynchronizerElements 100 in
  let pending := set_pending_dirty true false u in
  synchronize 5 (ctx example_node) u
    = Some ({| m_elements := [{| Id := 7; EndHeight := 5; NumBytes := 20 |}]; m_maxSize := 300; m_numBytes := 20;
               m_hasPendingSync := false; m_dirty := false |}, Returns (Ok Success))
  ∧ synchronize 5 (ctx example_unreadable_index) u = Some (pending, Raises file_io_error)
  ∧ synchronize 5 (ctx example_unreadable_hashes) u = Some (pending, Pends).
Proof. by vm_compute. Qed.

Lemma example_reachable : reachable example_locals 100 100 (example_state [] false [7]).
Proof.
  eapply rtc_l; [eapply (step_call _ 100 _ _ true); reflexivity|].
  eapply rtc_l; [eapply step_internal, (step_empty _ 100 _ [] [])|]. simpl.
  eapply rtc_l; [eapply step_internal, (step_compared _ 100 _ [] [] _ example_node example_remote example_options);
    [by left|vm_compute; reflexivity|reflexivity]|]. simpl.
  eapply rtc_l; [eapply step_internal, (step_add _ 100 _ (queue (example_state [] true [7])) [] [] [] _ _ example_aggregator 7 true);
    (reflexivity || (cbv; split; congruence) || done)|]. simpl.
  eapply rtc_l; [eapply step_internal, (step_finish _ 100 _ [] [])|]. apply rtc_refl.
Qed.

(** The first round ends while the index file cannot be read. *)
Lemma example_abandoned : reachable example_locals 100 100 (example_state [Abandoned] true []).
Proof.
  eapply rtc_l; [eapply (step_call _ 100 _ _ true); reflexivity|].
  eapply rtc_l; [eapply step_internal, (step_empty _ 100 _ [] [])|]. simpl.
  eapply rtc_l; [eapply step_internal, (step_abandoned _ 100 _ [] [] _ example_unreadable_index example_remote example_options);
    [by right; left|done]|]. apply rtc_refl.
Qed.

Lemma synchronizer_invariant_witness :
  m_numBytes (queue (example_state [] false [7])) = 20
  ∧ Id <$> m_elements (queue (example_state [] false [7])) = accepted (example_state [] false [7]).
Proof. split; [reflexivity|]. apply (synchronizer_invariant example_locals 100 100 _ ltac:(lia) ltac:(lia) example_reachable). Defined.

Lemma synchronizer_recovers_witness :
  remaining (example_state [] false [7]) = 1%nat
  ∧ (∀ s', rtc (internal_step example_locals 100) (example_state [] false [7]) s' →
       (∀ s'', ¬ internal_step example_locals 100 s' s'') →
       snd (shouldStartSync (queue s')) = true ∨ Abandoned ∈ rounds s')
  ∧ (∀ s', rtc (step example_locals 100) (example_state [Abandoned] true []) s' →
       snd (shouldStartSync (queue s')) = false ∧ Abandoned ∈ rounds s').
Proof.
  split; [reflexivity|]. split.
  - apply (synchronizer_recovers example_locals example_node 100 100 _ ltac:(lia) ltac:(lia) (or_introl eq_refl) example_reachable).
  - apply (synchronizer_recovers example_locals example_node 100 100 _ ltac:(lia) ltac:(lia) (or_introl eq_refl) example_abandoned).
    left.
Defined.

(** The two reads of a round that expands the queue are not one: when the last
    element completes in between, the round asks for blocks from height 1 on,
    though the element it meant to expand ended at height 5. *)
Example expanding_round_restarts_at_genesis :
  rtc (step example_locals 100) (example_state [] false [7]) (example_state [Pulling 1 0] true []).
Proof.
  eapply rtc_l; [eapply (step_call _ 100 _ _ true); reflexivity|].
  eapply rtc_l; [eapply step_internal, (step_empty _ 100 _ [] [])|]. simpl.
  eapply rtc_l; [eapply step_internal, (step_complete _ 100 _ _ [Expanding] 7 [] Normal); reflexivity|].
  eapply rtc_l; [eapply step_internal, (step_maxHeight _ 100 _ [] [])|]. apply rtc_refl.
Qed.

End ChainSync.
