(* ===== verification/BlockDifficulty.v ===== *)
(** Model of block difficulties (catapult/chain: BlockDifficultyScorer.cpp,
    BlockScorer.cpp, ChainUtils.cpp; catapult/cache_core:
    BlockDifficultyCacheView.cpp, BlockDifficultyCacheDelta.cpp,
    BlockDifficultyCacheStorage.cpp; the difficulty observer of the core plugin).

    A [std::set] of difficulty infos, ordered by height, is the list of its
    elements with their heights (the ordered maps of the prelude).  128-bit
    arithmetic is that of Boost's [uint128_t], modulo 2^128; the conversion of
    a 128-bit value to 64 bits is a parameter, of which only the documented
    case of a value that fits is used. *)
From stdpp Require Import base tactics numbers option list sorting.
From S2P Require Import Prelude.

Local Open Scope Z_scope.

Module Difficulty.

Record BlockDifficultyInfo := { BlockHeight : Z; BlockTimestamp : Z; BlockDifficulty : Z }.

Definition info_of_height (height : Z) : BlockDifficultyInfo :=
  {| BlockHeight := height; BlockTimestamp := 0; BlockDifficulty := 0 |}.

(** The settings of [model::NetworkConfiguration] that matter here. *)
Record NetworkConfiguration := {
  BlockGenerationTargetTime : Z; (* in milliseconds *)
  BlockTimeSmoothingFactor : Z;
  MaxRollbackBlocks : Z;
  MaxDifficultyBlocks : Z
}.

(** [TimeSpan] keeps milliseconds in a signed 64-bit integer. *)
Definition to_int64 (x : Z) : Z := if decide (x < 2 ^ 63) then x else x - 2 ^ 64.
Definition FromDifference (end_ start : Z) : Z := sub64 end_ start.
Definition seconds (millis : Z) : Z := u64 (Z.quot (to_int64 millis) 1000).

(** * The difficulty of the next block *)

Definition GAMMA_NUMERATOR : Z := 64.
Definition GAMMA_DENOMINATOR : Z := 100.
Definition SMOOTHING_FACTOR_DENOMINATOR : Z := 1000.
Definition MILLISECONDS_PER_SECOND : Z := 1000.

Abbreviation u128 := (wrap 128).

Section difficulty.
(** [convert_to<uint64_t>] of a 128-bit value. *)
Context (convert_to_uint64 : Z → Z).

Definition CalculateDifficulty (difficultyInfos : list BlockDifficultyInfo) (nextBlockInfo : BlockDifficultyInfo)
    (config : NetworkConfiguration) : result Z :=
  if decide (BlockGenerationTargetTime config = 0) then Ok max64
  else match difficultyInfos, last difficultyInfos with
  | first :: _, Some lastInfo =>
      let historySize := Z.of_nat (length difficultyInfos) in
      if decide (BlockDifficulty lastInfo = 0) then Throw invalid_argument
      else if decide (u64 (BlockHeight lastInfo + 1) ≠ BlockHeight nextBlockInfo) then Throw invalid_argument
      else
        let timeDiff := FromDifference (BlockTimestamp nextBlockInfo) (BlockTimestamp first) in
        let Tp := BlockDifficulty lastInfo in
        let S := timeDiff / u64 (historySize * MILLISECONDS_PER_SECOND) in
        let RATIO := seconds (BlockGenerationTargetTime config) in
        if decide (RATIO ≤ 0) then Throw invalid_argument
        else
          let factor := BlockTimeSmoothingFactor config / SMOOTHING_FACTOR_DENOMINATOR in
          let MINRATIO := u64 (RATIO - factor) in
          let MAXRATIO := u64 (RATIO + factor) in
          let Tb := if RATIO <? S then u128 (Tp * Z.min S MAXRATIO) / RATIO
                    else u128 (Tp - u128 (u128 (Tp * GAMMA_NUMERATOR) * u64 (RATIO - Z.max S MINRATIO)) / GAMMA_DENOMINATOR / RATIO) in
          Ok (convert_to_uint64 Tb)
  | _, _ => Ok 0
  end.

(** The average block time in the window, in seconds. *)
Definition average_time (infos : list BlockDifficultyInfo) (next : BlockDifficultyInfo) : Z :=
  match infos with
  | first :: _ => FromDifference (BlockTimestamp next) (BlockTimestamp first) / u64 (Z.of_nat (length infos) * MILLISECONDS_PER_SECOND)
  | [] => 0
  end.

(** ** Bounds *)

Context (Hconvert : ∀ x, in_range 64 x → convert_to_uint64 x = x).

(** The part a short average time takes off. *)
Lemma reduction_bounds Tp R f k :
  0 < Tp → 0 < R → 0 ≤ k ≤ f → f ≤ R →
  0 ≤ Tp * 64 * k / 100 / R ≤ Tp * 64 * f / (100 * R) ∧ Tp * 64 * f / (100 * R) < Tp.
Proof.
  intros HT HR Hk Hf. rewrite Z.div_div by lia. split.
  - split; [apply Z.div_pos; nia|]. apply Z.div_le_mono; nia.
  - apply Z.div_lt_upper_bound; nia.
Qed.

Lemma seconds_small millis : in_range 63 millis → seconds millis = millis / 1000.
Proof.
  unfold in_range. intros Hm. unfold seconds, to_int64. rewrite decide_True by lia. rewrite Z.quot_div_nonneg by lia.
  apply wrap_small. unfold in_range. split; [apply Z.div_pos; lia|]. apply Z.div_lt_upper_bound; lia.
Qed.

(** The difficulty of the next block follows the block times without ever
    leaving its band, and arithmetic does not overflow.  With a smoothing
    factor that is at most the target time (both in seconds), the new
    difficulty is positive; it is not above the last one when the average block
    time of the window is at most the target, not below it otherwise, and the
    smoothing factor bounds the change in both directions. *)
Theorem CalculateDifficulty_bounds infos lastInfo next config :
  let R := BlockGenerationTargetTime config / 1000 in
  let f := BlockTimeSmoothingFactor config / 1000 in
  last infos = Some lastInfo → 0 < BlockDifficulty lastInfo →
  BlockHeight next = u64 (BlockHeight lastInfo + 1) →
  in_range 63 (BlockGenerationTargetTime config) → 1 ≤ R → 0 ≤ f ≤ R →
  BlockDifficulty lastInfo * (R + f) / R < 2 ^ 64 → Z.of_nat (length infos) < 2 ^ 32 →
  ∃ d, CalculateDifficulty infos next config = Ok d
    ∧ 0 < d ∧ BlockDifficulty lastInfo - BlockDifficulty lastInfo * 64 * f / (100 * R) ≤ d
    ∧ d ≤ BlockDifficulty lastInfo * (R + f) / R
    ∧ (average_time infos next ≤ R → d ≤ BlockDifficulty lastInfo)
    ∧ (R < average_time infos next → BlockDifficulty lastInfo ≤ d).
Proof.
  intros R f Hlast HTp Hh Hms HR Hf Hfit Hlen. set (Tp := BlockDifficulty lastInfo) in *.
  unfold CalculateDifficulty. unfold in_range in Hms.
  destruct (decide (BlockGenerationTargetTime config = 0)) as [E|_]; [unfold R in HR; by rewrite E in HR|].
  destruct infos as [|first infos]; [done|]. rewrite Hlast. fold Tp.
  rewrite (decide_False (P := Tp = 0)) by lia. rewrite (decide_False (P := _ ≠ _)) by (by intros []).
  rewrite (seconds_small (BlockGenerationTargetTime config)) by done. fold R. rewrite (decide_False (P := R ≤ 0)) by lia.
  unfold SMOOTHING_FACTOR_DENOMINATOR. fold f. fold (average_time (first :: infos) next). set (S := average_time _ _).
  assert (R < 2 ^ 54) by (apply Z.div_lt_upper_bound; lia).
  assert (0 ≤ S) as HS.
  { apply Z_div_nonneg_nonneg; apply wrap_range; lia. }
  assert (Tp ≤ Tp * (R + f) / R) by (apply Z.div_le_lower_bound; nia).
  rewrite (wrap_small 64 (R - f)), (wrap_small 64 (R + f)) by (unfold in_range; lia).
  destruct (R <? S) eqn:E; zbool.
  - assert (R ≤ Z.min S (R + f) ≤ R + f) by lia.
    rewrite (wrap_small 128) by (unfold in_range; nia).
    assert (Tp ≤ Tp * Z.min S (R + f) / R) by (apply Z.div_le_lower_bound; nia).
    assert (Tp * Z.min S (R + f) / R ≤ Tp * (R + f) / R) by (apply Z.div_le_mono; nia).
    exists (Tp * Z.min S (R + f) / R). rewrite Hconvert by (unfold in_range; lia).
    pose proof (reduction_bounds Tp R f f ltac:(lia) ltac:(lia) ltac:(lia) ltac:(lia)).
    split_and!; try lia. done.
  - assert (0 ≤ R - Z.max S (R - f) ≤ f) by lia.
    rewrite (wrap_small 64 (R - Z.max S (R - f))) by (unfold in_range; lia).
    unfold GAMMA_NUMERATOR, GAMMA_DENOMINATOR.
    rewrite (wrap_small 128 (Tp * 64)) by (unfold in_range; lia).
    rewrite (wrap_small 128 (Tp * 64 * _)) by (unfold in_range; nia).
    pose proof (reduction_bounds Tp R f (R - Z.max S (R - f)) ltac:(lia) ltac:(lia) ltac:(lia) ltac:(lia)) as Hred.
    rewrite wrap_small by (unfold in_range; lia).
    exists (Tp - Tp * 64 * (R - Z.max S (R - f)) / 100 / R). rewrite Hconvert by (unfold in_range; lia).
    split_and!; try lia. done.
Qed.

End difficulty.
(** * Sets of difficulty infos *)

(** The set with the elements of [l], which are in order of height. *)
Abbreviation DifficultySet := (list (Z * BlockDifficultyInfo)).
Definition keyed (l : list BlockDifficultyInfo) : DifficultySet := (λ info, (BlockHeight info, info)) <$> l.

Definition set_insert (info : BlockDifficultyInfo) (s : DifficultySet) : DifficultySet := map_insert (BlockHeight info) info s.

(** [BasicBlockDifficultyCacheView::difficultyInfos]: the range from one
    iterator to another; a range that starts behind the end is no range. *)
Definition difficultyInfos (m_difficultyInfos : DifficultySet) (height count : Z) : result (list BlockDifficultyInfo) :=
  match m_difficultyInfos with
  | [] => Throw runtime_error
  | (_, firstSetElement) :: _ =>
      if decide (0 = height ∨ 0 = count) then Throw invalid_argument
      else match map_position height m_difficultyInfos with
      | None => Throw invalid_argument
      | Some lastIter =>
          let first := if u64 (height - BlockHeight firstSetElement) <? u64 (count - 1)
                       then BlockHeight firstSetElement else sub64 height (u64 (count - 1)) in
          match map_position first m_difficultyInfos with
          | None => Throw undefined_behaviour
          | Some firstIter => Ok (drop firstIter (take (S lastIter) m_difficultyInfos)).*2
          end
      end
  end.

(** ** Contiguous sets *)

(** Infos of consecutive heights from [start] on. *)
Definition contiguous (start : Z) (l : list BlockDifficultyInfo) : Prop :=
  ∀ i info, l !! i = Some info → BlockHeight info = start + Z.of_nat i.

(** The last [n] elements. *)
Definition lastn {A} (n : nat) (l : list A) : list A := drop (length l - n) l.

Lemma contiguous_cons start x l : contiguous start (x :: l) ↔ BlockHeight x = start ∧ contiguous (start + 1) l.
Proof.
  unfold contiguous. split.
  - intros H. split; [specialize (H 0%nat x eq_refl); lia|]. intros i info Hi. specialize (H (S i) info Hi). lia.
  - intros [Hx H] [|i] info Hi; simplify_eq/=; [lia|]. apply H in Hi. lia.
Qed.

Lemma contiguous_app start l l' : contiguous start (l ++ l') ↔ contiguous start l ∧ contiguous (start + Z.of_nat (length l)) l'.
Proof.
  revert start. induction l as [|x l IH]; intros start; simpl.
  - rewrite Z.add_0_r. split; [|tauto]. intros H. split; [|done]. by intros i info ?.
  - rewrite !contiguous_cons, IH. replace (start + Z.of_nat (S (length l))) with (start + 1 + Z.of_nat (length l)) by lia. tauto.
Qed.

Lemma contiguous_drop start l n : contiguous start l → (n ≤ length l)%nat → contiguous (start + Z.of_nat n) (drop n l).
Proof.
  intros H Hn. rewrite <-(take_drop n l) in H. apply contiguous_app in H as [_ H]. by rewrite length_take, Nat.min_l in H by lia.
Qed.

Lemma contiguous_take start l n : contiguous start l → contiguous start (take n l).
Proof. intros H. rewrite <-(take_drop n l) in H. by apply contiguous_app in H as [H _]. Qed.

Lemma contiguous_heights start l :
  contiguous start l → Forall (λ x, start ≤ BlockHeight x < start + Z.of_nat (length l)) l.
Proof.
  revert start. induction l as [|x l IH]; intros start; [by constructor|]. rewrite contiguous_cons. intros [Hx Hl].
  constructor; simpl; [lia|]. eapply Forall_impl; [by apply IH|]. simpl. lia.
Qed.

Lemma keyed_position start l height :
  contiguous start l → start ≤ height < start + Z.of_nat (length l) → map_position height (keyed l) = Some (Z.to_nat (height - start)).
Proof.
  revert start. induction l as [|x l IH]; intros start; simpl; [lia|]. rewrite contiguous_cons. intros [Hx Hl] Hh.
  destruct (decide (height = _)); [f_equal; lia|]. rewrite (IH (start + 1)) by (done || lia). simpl. f_equal. lia.
Qed.

Lemma keyed_position_None start l height :
  contiguous start l → ¬ start ≤ height < start + Z.of_nat (length l) → map_position height (keyed l) = None.
Proof.
  revert start. induction l as [|x l IH]; intros start; simpl; [done|]. rewrite contiguous_cons. intros [Hx Hl] Hh.
  rewrite decide_False by lia. by rewrite (IH (start + 1)) by (done || lia).
Qed.

(** A set gets an info that belongs behind [p] and before [s]. *)
Lemma insert_middle p x s :
  Forall (λ y, BlockHeight y < BlockHeight x) p → Forall (λ y, BlockHeight x < BlockHeight y) s →
  set_insert x (keyed (p ++ s)) = keyed (p ++ x :: s).
Proof.
  intros Hp Hs. unfold set_insert. induction Hp as [|y p Hy Hp IH]; simpl.
  - apply (map_insert_head (BlockHeight x) x). unfold keyed. rewrite <-list_fmap_compose. by apply Forall_fmap.
  - rewrite decide_False, decide_False by lia. by rewrite IH.
Qed.

Lemma insert_range start p l s :
  contiguous start (p ++ l ++ s) → foldl (λ acc x, set_insert x acc) (keyed (p ++ s)) l = keyed (p ++ l ++ s).
Proof.
  revert p. induction l as [|x l IH]; intros p; simpl; [done|]. intros H.
  specialize (IH (p ++ [x])). rewrite <-!app_assoc in IH. simpl in IH. rewrite <-IH by done. f_equal.
  apply contiguous_app in H as [Hp H]. apply contiguous_cons in H as [Hx H]. apply contiguous_app in H as [_ Hs].
  apply insert_middle.
  - eapply Forall_impl; [by apply contiguous_heights|]. simpl. lia.
  - eapply Forall_impl; [by apply contiguous_heights|]. simpl. lia.
Qed.

Lemma insert_last start l x : contiguous start (l ++ [x]) → set_insert x (keyed l) = keyed (l ++ [x]).
Proof.
  intros [Hl [Hx _]%contiguous_cons]%contiguous_app. rewrite <-(app_nil_r l) at 1. apply insert_middle; [|by constructor].
  eapply Forall_impl; [by apply contiguous_heights|]. simpl. lia.
Qed.

Lemma keyed_range l i j : (drop i (take j (keyed l))).*2 = drop i (take j l).
Proof. unfold keyed. rewrite <-fmap_take, <-fmap_drop, <-list_fmap_compose. apply list_fmap_id. Qed.

(** The window of a view: the [count] infos up to [height]. *)
Lemma difficultyInfos_spec start l height count :
  contiguous start l → 1 ≤ start → start + Z.of_nat (length l) < 2 ^ 63 → 1 ≤ count < 2 ^ 63 →
  start ≤ height < start + Z.of_nat (length l) →
  difficultyInfos (keyed l) height count = Ok (lastn (Z.to_nat count) (take (Z.to_nat (height - start) + 1) l)).
Proof.
  intros Hl Hs Hb Hc Hh. unfold difficultyInfos. destruct (keyed l) as [|[k x] s] eqn:E.
  { destruct l; [simpl in *; lia|done]. }
  rewrite <-E. destruct l as [|y l']; [done|]. injection E as <- <- Es. set (l := y :: l') in *.
  assert (BlockHeight y = start) as Hy by (by apply contiguous_cons in Hl as [? _]).
  rewrite decide_False by lia. rewrite (keyed_position start) by done. rewrite Hy.
  rewrite (wrap_small 64 (height - start)), (wrap_small 64 (count - 1)) by (unfold in_range; lia).
  assert (length (take (Z.to_nat (height - start) + 1) l) = (Z.to_nat (height - start) + 1)%nat) as Hlen by (rewrite length_take; lia).
  unfold lastn. rewrite Hlen. destruct (_ <? _) eqn:Ec; zbool.
  - rewrite (keyed_position start) by (done || lia). rewrite keyed_range. do 2 f_equal; [lia|]. f_equal. lia.
  - rewrite sub64_small by (unfold in_range; lia). rewrite (keyed_position start) by (done || lia).
    rewrite keyed_range. do 2 f_equal; [lia|]. f_equal. lia.
Qed.

(** * The difficulty cache *)

Record BlockDifficultyCacheDelta := {
  m_pOrderedDelta : DifficultySet;
  m_startHeight : Z;
  m_pruningBoundary : option Z
}.

Definition newBlockDifficultyCacheDelta (set : DifficultySet) : BlockDifficultyCacheDelta :=
  {| m_pOrderedDelta := set;
     m_startHeight := match set with [] => 1 | (_, info) :: _ => BlockHeight info end;
     m_pruningBoundary := None |}.

Definition set_delta (set : DifficultySet) (start : Z) (d : BlockDifficultyCacheDelta) : BlockDifficultyCacheDelta :=
  {| m_pOrderedDelta := set; m_startHeight := start; m_pruningBoundary := m_pruningBoundary d |}.

Definition delta_empty (d : BlockDifficultyCacheDelta) : bool := bool_decide (m_pOrderedDelta d = []).
Definition contains (d : BlockDifficultyCacheDelta) (height : Z) : bool := bool_decide (is_Some (map_find height (m_pOrderedDelta d))).
Definition nextHeight (d : BlockDifficultyCacheDelta) : Z := u64 (m_startHeight d + Z.of_nat (length (m_pOrderedDelta d))).

Definition checkInsert (height : Z) : Exec BlockDifficultyCacheDelta unit := λ d,
  if delta_empty d then (set_delta (m_pOrderedDelta d) height d, Ok tt)
  else if decide (nextHeight d ≠ height ∧ nextHeight d < height) then (d, Throw invalid_argument)
  else (d, Ok tt).

Definition erase (height : Z) (d : BlockDifficultyCacheDelta) : BlockDifficultyCacheDelta :=
  set_delta (map_erase height (m_pOrderedDelta d)) (m_startHeight d) d.

(** The delta set replaces an element of the same height. *)
Definition insert (info : BlockDifficultyInfo) : Exec BlockDifficultyCacheDelta unit := λ d,
  let d := if negb (delta_empty d) && (BlockHeight info <? nextHeight d) then erase (BlockHeight info) d else d in
  (checkInsert (BlockHeight info) ≫= λ _,
   modify (λ d, set_delta (set_insert info (map_erase (BlockHeight info) (m_pOrderedDelta d))) (m_startHeight d) d)) d.

Definition checkRemove (height : Z) (d : BlockDifficultyCacheDelta) : result unit :=
  if delta_empty d then Throw runtime_error
  else if decide (nextHeight d ≠ add64 height 1) then Throw invalid_argument
  else Ok tt.

Definition remove (height : Z) : Exec BlockDifficultyCacheDelta unit := λ d,
  match checkRemove height d with Throw e => (d, Throw e) | Ok _ => (erase height d, Ok tt) end.

Definition remove_info (info : BlockDifficultyInfo) : Exec BlockDifficultyCacheDelta unit := λ d,
  match checkRemove (BlockHeight info) d with Throw e => (d, Throw e) | Ok _ => remove (BlockHeight info) d end.

(** The sum is taken in 32 bits. *)
Definition CalculateDifficultyHistorySize (config : NetworkConfiguration) : Z :=
  u32 (MaxRollbackBlocks config + MaxDifficultyBlocks config).

Definition prune (config : NetworkConfiguration) (height : Z) (d : BlockDifficultyCacheDelta) : BlockDifficultyCacheDelta :=
  let heightDifference := CalculateDifficultyHistorySize config in
  if heightDifference <? height
  then {| m_pOrderedDelta := m_pOrderedDelta d; m_startHeight := m_startHeight d;
          m_pruningBoundary := Some (height - heightDifference) |}
  else d.

(** What a commit does with the boundary. *)
Fixpoint PruneBaseSet (boundary : Z) (set : DifficultySet) : DifficultySet :=
  match set with
  | [] => []
  | (height, info) :: rest => if height <? boundary then PruneBaseSet boundary rest else set
  end.

(** The observer of [BlockNotification]. *)
Definition BlockDifficultyObserver (commit : bool) (height timestamp difficulty : Z) : Exec BlockDifficultyCacheDelta unit :=
  let info := {| BlockHeight := height; BlockTimestamp := timestamp; BlockDifficulty := difficulty |} in
  if commit then insert info else remove_info info.

(** ** Purging *)

(** The loops of [BlockDifficultyCacheStorage::Purge]; [None] is a loop that
    has not ended after [fuel] turns. *)
Fixpoint purge_max (fuel : nat) (d : BlockDifficultyCacheDelta) (maxHeight : Z) : option Z :=
  match fuel with
  | O => None
  | S fuel => if contains d (add64 maxHeight 1) then purge_max fuel d (add64 maxHeight 1) else Some maxHeight
  end.

Fixpoint purge_remove (fuel : nat) (first height : Z) (d : BlockDifficultyCacheDelta)
    : option (BlockDifficultyCacheDelta * result unit) :=
  match fuel with
  | O => None
  | S fuel =>
      if first <=? height then
        match remove height d with
        | (d, Ok _) => purge_remove fuel first (sub64 height 1) d
        | (d, Throw e) => Some (d, Throw e)
        end
      else Some (d, Ok tt)
  end.

Definition Purge (fuel : nat) (info : BlockDifficultyInfo) (d : BlockDifficultyCacheDelta)
    : option (BlockDifficultyCacheDelta * result unit) :=
  if negb (contains d (BlockHeight info)) then Some (d, Ok tt)
  else maxHeight ← purge_max fuel d (BlockHeight info); purge_remove fuel (BlockHeight info) maxHeight d.

(** ** The cache is a stack of blocks *)

(** The specification: infos of consecutive heights, the first of which has
    height [start].  Blocks are pushed, popped, or replaced in place. *)
Definition stack : Type := Z * list BlockDifficultyInfo.

Inductive cache_op :=
| Insert (info : BlockDifficultyInfo)
| Remove (info : BlockDifficultyInfo)
| PurgeFrom (info : BlockDifficultyInfo).

Definition next (s : stack) : Z := fst s + Z.of_nat (length (snd s)).

Definition stack_step (s : stack) (op : cache_op) : stack * result unit :=
  let '(start, l) := s in
  match op with
  | Insert info =>
      let h := BlockHeight info in
      if decide (l = []) then ((h, [info]), Ok tt)
      else if decide (next s < h) then (s, Throw invalid_argument)
      else ((start, take (Z.to_nat (h - start)) l ++ info :: drop (Z.to_nat (h - start) + 1) l), Ok tt)
  | Remove info =>
      if decide (l = []) then (s, Throw runtime_error)
      else if decide (next s ≠ BlockHeight info + 1) then (s, Throw invalid_argument)
      else ((start, take (length l - 1) l), Ok tt)
  | PurgeFrom info =>
      if decide (start ≤ BlockHeight info < next s) then ((start, take (Z.to_nat (BlockHeight info - start)) l), Ok tt)
      else (s, Ok tt)
  end.

Definition cache_step (d : BlockDifficultyCacheDelta) (op : cache_op) : BlockDifficultyCacheDelta * result unit :=
  match op with
  | Insert info => insert info d
  | Remove info => remove_info info d
  | PurgeFrom info =>
      match Purge (S (length (m_pOrderedDelta d))) info d with Some r => r | None => (d, Throw undefined_behaviour) end
  end.

(** Heights are positive and far from 2^64, and nothing is inserted below the
    first block of the cache. *)
Definition op_info (op : cache_op) : BlockDifficultyInfo := match op with Insert i | Remove i | PurgeFrom i => i end.
Definition op_ok (s : stack) (op : cache_op) : Prop :=
  1 ≤ BlockHeight (op_info op) < 2 ^ 62 ∧ next s < 2 ^ 62
  ∧ match op with Insert info => snd s = [] ∨ fst s ≤ BlockHeight info | _ => True end.

Definition represents (d : BlockDifficultyCacheDelta) (s : stack) : Prop :=
  m_pOrderedDelta d = keyed (snd s) ∧ m_startHeight d = fst s ∧ contiguous (fst s) (snd s) ∧ 0 ≤ fst s.

Lemma keyed_erase start l h :
  contiguous start l → start ≤ h → map_erase h (keyed l) = keyed (take (Z.to_nat (h - start)) l ++ drop (Z.to_nat (h - start) + 1) l).
Proof.
  revert start. induction l as [|x l IH]; intros start; simpl; [by rewrite take_nil, drop_nil|].
  rewrite contiguous_cons. intros [Hx Hl] Hh. destruct (decide (h = BlockHeight x)) as [->|Hne].
  - rewrite Hx, Z.sub_diag. simpl. done.
  - rewrite (IH (start + 1)) by (done || lia).
    replace (Z.to_nat (h - start)) with (S (Z.to_nat (h - (start + 1)))) by lia. done.
Qed.

Lemma keyed_erase_absent l h : Forall (λ x, BlockHeight x ≠ h) l → map_erase h (keyed l) = keyed l.
Proof. induction 1 as [|x l Hx Hl IH]; [done|]. simpl. rewrite decide_False by done. by rewrite IH. Qed.

Lemma keyed_empty l : bool_decide (keyed l = []) = bool_decide (l = []).
Proof. apply bool_decide_ext. by destruct l. Qed.

Lemma length_keyed l : length (keyed l) = length l.
Proof. apply length_fmap. Qed.

Lemma keyed_contains start l d h :
  m_pOrderedDelta d = keyed l → contiguous start l → contains d h = bool_decide (start ≤ h < start + Z.of_nat (length l)).
Proof.
  intros E Hl. unfold contains. rewrite E. apply bool_decide_ext. rewrite map_find_elem. unfold keyed.
  rewrite <-list_fmap_compose, list_elem_of_fmap. simpl. split.
  - intros (x & -> & Hx). pose proof (contiguous_heights _ _ Hl) as Hf. by eapply Forall_forall in Hf.
  - intros Hh. destruct (lookup_lt_is_Some_2 l (Z.to_nat (h - start))) as [x Hx]; [lia|].
    exists x. split; [|by eapply list_elem_of_lookup_2]. rewrite (Hl _ _ Hx). lia.
Qed.

(** Replacing or appending keeps the heights consecutive. *)
Lemma contiguous_replace start l x h :
  contiguous start l → BlockHeight x = h → start ≤ h ≤ start + Z.of_nat (length l) →
  contiguous start (take (Z.to_nat (h - start)) l ++ x :: drop (Z.to_nat (h - start) + 1) l).
Proof.
  intros Hl Hx Hh. apply contiguous_app. split; [by apply contiguous_take|].
  rewrite length_take, Nat.min_l by lia. apply contiguous_cons. split; [lia|].
  destruct (decide (h < start + Z.of_nat (length l))).
  - replace (start + Z.of_nat (Z.to_nat (h - start)) + 1) with (start + Z.of_nat (Z.to_nat (h - start) + 1)) by lia.
    apply contiguous_drop; [done|lia].
  - rewrite drop_ge by lia. by intros i info ?.
Qed.

Lemma insert_refines d s info :
  represents d s → op_ok s (Insert info) →
  represents (fst (insert info d)) (fst (stack_step s (Insert info))) ∧ snd (insert info d) = snd (stack_step s (Insert info)).
Proof.
  destruct s as [start l]. intros (Hd & Hst & Hl & H0) (Hh & Hn & Hlow). simpl in *. unfold next in *. simpl in *.
  unfold insert, checkInsert, delta_empty, nextHeight. set (h := BlockHeight info) in *. rewrite Hd, Hst, keyed_empty, length_keyed.
  rewrite (wrap_small 64 (start + _)) by (unfold in_range; lia).
  destruct (decide (l = [])) as [->|Hne].
  { exec_unfold. unfold delta_empty. rewrite Hd. simpl. split; [|done]. unfold represents. simpl.
    split_and!; [done|done| |lia]. apply contiguous_cons. split; [done|]. by intros i x ?. }
  destruct Hlow as [|Hlow]; [done|]. rewrite bool_decide_eq_false_2 by done. simpl.
  destruct (h <? start + Z.of_nat (length l)) eqn:E; zbool.
  - set (p := take (Z.to_nat (h - start)) l). set (q := drop (Z.to_nat (h - start) + 1) l).
    assert (erase h d = set_delta (keyed (p ++ q)) start d) as ->.
    { unfold erase. rewrite Hd, Hst. by rewrite (keyed_erase start). }
    pose proof (contiguous_replace start l info h Hl eq_refl ltac:(lia)) as Hc. fold p q in Hc.
    pose proof Hc as Hc'. apply contiguous_app in Hc' as [Hp Hq]. apply contiguous_cons in Hq as [Hx Hq]. fold h in Hx.
    assert (length p = Z.to_nat (h - start)) as Hpl by (unfold p; rewrite length_take; lia).
    assert (length q = (length l - (Z.to_nat (h - start) + 1))%nat) as Hql by (unfold q; apply length_drop).
    apply contiguous_heights in Hp as Hph. apply contiguous_heights in Hq as Hqh.
    assert (map_erase h (keyed (p ++ q)) = keyed (p ++ q)) as Herase.
    { apply keyed_erase_absent. apply Forall_app. split; (eapply Forall_impl; [eassumption|]); simpl; lia. }
    assert (set_insert info (keyed (p ++ q)) = keyed (p ++ info :: q)) as Hins.
    { apply insert_middle; (eapply Forall_impl; [eassumption|]); simpl; fold h; lia. }
    exec_unfold. unfold delta_empty. simpl. rewrite keyed_empty. rewrite (decide_False (P := _ < h)) by lia. fold p q.
    destruct (decide (p ++ q = [])) as [Ee|Ene].
    + rewrite bool_decide_eq_true_2 by done. simpl. rewrite Herase, Hins. split; [|done]. unfold represents. simpl.
      apply app_eq_nil in Ee as [Ep Eq]. rewrite Ep in Hpl. simpl in Hpl. split_and!; [done|lia|done|done].
    + rewrite bool_decide_eq_false_2 by done. rewrite decide_False; [simpl; rewrite Herase, Hins; split; [|done]; by split_and!|].
      unfold nextHeight. simpl. rewrite length_keyed, length_app, Hpl, Hql, wrap_small by (unfold in_range; lia). lia.
  - exec_unfold. unfold delta_empty. rewrite Hd, keyed_empty, bool_decide_eq_false_2 by done. rewrite Hst, length_keyed.
    rewrite wrap_small by (unfold in_range; lia). destruct (decide (start + Z.of_nat (length l) < h)).
    + rewrite decide_True by lia. simpl. by split.
    + rewrite decide_False by lia. simpl. rewrite Hd, Hst.
      assert (h = start + Z.of_nat (length l)) as Heq by lia.
      pose proof (contiguous_replace start l info h Hl eq_refl ltac:(lia)) as Hc.
      rewrite take_ge, drop_ge in Hc |- * by lia.
      rewrite keyed_erase_absent by (eapply Forall_impl; [by apply contiguous_heights|]; simpl; lia).
      rewrite (insert_last start) by done. split; [|done]. by split_and!.
Qed.

Lemma checkRemove_stack d start l h :
  represents d (start, l) → 0 ≤ h < 2 ^ 62 → next (start, l) < 2 ^ 62 →
  checkRemove h d = if decide (l = []) then Throw runtime_error
                    else if decide (next (start, l) ≠ h + 1) then Throw invalid_argument else Ok tt.
Proof.
  intros (Hd & Hst & Hl & H0) Hh Hn. unfold next in *. simpl in *. unfold checkRemove, delta_empty, nextHeight.
  rewrite Hd, Hst, keyed_empty, length_keyed. unfold add64. rewrite !wrap_small by (unfold in_range; lia).
  destruct (decide (l = [])) as [->|]; [done|]. by rewrite bool_decide_eq_false_2.
Qed.

Lemma remove_last d start l :
  represents d (start, l) → l ≠ [] → next (start, l) < 2 ^ 62 →
  ∃ d', remove (next (start, l) - 1) d = (d', Ok tt) ∧ represents d' (start, take (length l - 1) l).
Proof.
  intros Hr Hne Hn. pose proof Hr as (Hd & Hst & Hl & H0). unfold next in *. simpl in *.
  assert (0 < length l)%nat by (destruct l; [done|simpl; lia]).
  unfold remove. rewrite (checkRemove_stack d start l) by (done || unfold next; simpl; lia).
  rewrite decide_False by done. rewrite decide_False by (unfold next; simpl; lia). eexists. split; [done|].
  unfold represents. simpl. split_and!; [|done|by apply contiguous_take|done]. rewrite Hd, (keyed_erase start) by (done || lia).
  rewrite (drop_ge l) by lia. rewrite app_nil_r. do 2 f_equal. lia.
Qed.

Lemma remove_refines d s info :
  represents d s → op_ok s (Remove info) →
  represents (fst (remove_info info d)) (fst (stack_step s (Remove info)))
  ∧ snd (remove_info info d) = snd (stack_step s (Remove info)).
Proof.
  destruct s as [start l]. intros Hr (Hh & Hn & _). cbn [op_info] in Hh. unfold remove_info. cbn [stack_step].
  rewrite (checkRemove_stack d start l) by (done || lia). destruct (decide (l = [])) as [|Hne]; [by split|].
  destruct (decide (next (start, l) ≠ _)) as [|Heq%dec_stable]; [by split|].
  destruct (remove_last d start l Hr Hne Hn) as (d' & Hrem & Hr').
  replace (BlockHeight info) with (next (start, l) - 1) by lia. by rewrite Hrem.
Qed.

Lemma purge_max_spec fuel d start l h :
  represents d (start, l) → next (start, l) < 2 ^ 62 → start ≤ h < next (start, l) →
  (Z.to_nat (next (start, l) - h) ≤ fuel)%nat → purge_max fuel d h = Some (next (start, l) - 1).
Proof.
  intros Hr Hn. pose proof Hr as (Hd & _ & Hl & H0). revert h. induction fuel as [|fuel IH]; intros h Hh Hf; [lia|]. simpl.
  unfold add64. rewrite (wrap_small 64 (h + 1)) by (simpl in H0; unfold in_range; lia).
  rewrite (keyed_contains start l) by done. unfold next in *. simpl in *. case_bool_decide.
  - apply IH; lia.
  - f_equal. lia.
Qed.

Lemma purge_remove_spec fuel d start l first :
  represents d (start, l) → next (start, l) < 2 ^ 62 → 1 ≤ first → start ≤ first ≤ next (start, l) →
  (Z.to_nat (next (start, l) - first) < fuel)%nat →
  ∃ d', purge_remove fuel first (next (start, l) - 1) d = Some (d', Ok tt)
    ∧ represents d' (start, take (Z.to_nat (first - start)) l).
Proof.
  revert d l. induction fuel as [|fuel IH]; intros d l Hr Hn H1 Hh Hf; [lia|]. cbn [purge_remove].
  destruct (first <=? next (start, l) - 1) eqn:E; zbool.
  - assert (l ≠ []) as Hne by (intros ->; unfold next in *; simpl in *; lia).
    destruct (remove_last d start l Hr Hne Hn) as (d' & -> & Hr').
    set (l' := take (length l - 1) l) in *. assert (next (start, l') = next (start, l) - 1) as Hl'.
    { unfold next, l'. simpl. rewrite length_take. destruct l; [done|]. simpl. lia. }
    rewrite sub64_small by (unfold in_range; lia). destruct (IH d' l' Hr') as (d'' & Hp & Hr''); [lia|lia|lia|lia|].
    rewrite Hl' in Hp. rewrite Hp. exists d''. split; [done|].
    unfold l' in Hr''. rewrite take_take, Nat.min_l in Hr''; [done|]. unfold next in *. simpl in *. lia.
  - exists d. split; [done|]. rewrite take_ge; [done|]. unfold next in *. simpl in *. lia.
Qed.

Lemma purge_refines d s info :
  represents d s → op_ok s (PurgeFrom info) →
  represents (fst (cache_step d (PurgeFrom info))) (fst (stack_step s (PurgeFrom info)))
  ∧ snd (cache_step d (PurgeFrom info)) = snd (stack_step s (PurgeFrom info)).
Proof.
  destruct s as [start l]. intros Hr (Hh & Hn & _). cbn [op_info] in Hh. cbn [cache_step stack_step]. unfold Purge.
  pose proof Hr as (Hd & _ & Hl & H0). rewrite (keyed_contains start l) by done. rewrite Hd, length_keyed. cbn [fst snd] in Hl, H0 |- *.
  destruct (decide (start ≤ BlockHeight info < next (start, l))) as [Hin|Hout].
  - rewrite bool_decide_eq_true_2 by done. simpl negb. cbn iota.
    rewrite (purge_max_spec _ d start l) by (done || unfold next in *; simpl in *; lia). cbn [mbind option_bind].
    destruct (purge_remove_spec (S (length l)) d start l (BlockHeight info)) as (d' & -> & Hr');
      [done|done|lia|lia|unfold next in *; simpl in *; lia|]. done.
  - rewrite bool_decide_eq_false_2 by done. by split.
Qed.

(** The difficulty cache is a stack of the last blocks.  On every sequence
    of insertions (none below the first block), removals and purges it answers
    as a list of infos of consecutive heights does: an insertion pushes the
    next block, replaces a block of the cache, or is refused with a gap; only
    the last block can be removed; and a purge terminates, within as many turns
    as the cache has blocks and one, having removed a block and all above. *)
Theorem difficulty_cache_is_stack ops d s :
  represents d s → trace_ok op_ok stack_step s ops →
  represents (fst (trace cache_step d ops)) (fst (trace stack_step s ops))
  ∧ snd (trace cache_step d ops) = snd (trace stack_step s ops).
Proof.
  intros Hr Hok. apply (trace_simulation_ok represents op_ok cache_step stack_step); [|done|done].
  clear. intros d s [info|info|info] Hr Hok; [by apply insert_refines|by apply remove_refines|by apply purge_refines].
Qed.

Definition example_info (h : Z) : BlockDifficultyInfo := {| BlockHeight := h; BlockTimestamp := 1000 * h; BlockDifficulty := 50 + h |}.

Lemma difficulty_cache_is_stack_witness :
  let ops := Insert <$> (example_info <$> [5; 6; 7; 6; 9]) in
  let ops := ops ++ [Remove (example_info 6); PurgeFrom (example_info 6); Remove (example_info 5); Insert (example_info 8)] in
  snd (trace cache_step (newBlockDifficultyCacheDelta []) ops) = snd (trace stack_step (1, []) ops)
  ∧ snd (trace stack_step (1, []) ops) =
      [Ok tt; Ok tt; Ok tt; Ok tt; Throw invalid_argument; Throw invalid_argument; Ok tt; Ok tt; Ok tt].
Proof.
  split; [|reflexivity]. apply (difficulty_cache_is_stack _ (newBlockDifficultyCacheDelta []) (1, [])).
  - split_and!; [done|done|by intros ???|done].
  - simpl. unfold op_ok, next. simpl. split_and!; (lia || by left || by right).
Defined.

(** An info below the first block is accepted, though the comment of
    [checkInsert] excludes it: it leaves a cache with a gap, whose next height
    is wrong. *)
Example insert_below_start :
  let '(d, r) := insert (example_info 3) (newBlockDifficultyCacheDelta (keyed [example_info 5; example_info 6])) in
  r = Ok tt ∧ m_pOrderedDelta d = keyed [example_info 3; example_info 5; example_info 6] ∧ nextHeight d = 8.
Proof. by vm_compute. Qed.

(** * Checking and scoring chain parts *)

Record Block := { Height : Z; Timestamp : Z; Difficulty : Z; PreviousBlockHash : Z }.

Definition info_of_block (block : Block) : BlockDifficultyInfo :=
  {| BlockHeight := Height block; BlockTimestamp := Timestamp block; BlockDifficulty := Difficulty block |}.

Definition IsChainLink (parent : Block) (parentHash : Z) (child : Block) : bool :=
  if decide (add64 (Height parent) 1 ≠ Height child ∨ parentHash ≠ PreviousBlockHash child) then false
  else Timestamp parent <? Timestamp child.

Definition LoadDifficulties (set cache : DifficultySet) (height numBlocks : Z) : result DifficultySet :=
  range ← difficultyInfos cache height numBlocks;
  Ok (foldl (λ acc x, set_insert x acc) set range).

(** [std::map::lower_bound], as a position. *)
Fixpoint lower_bound {V} (k : Z) (m : list (Z * V)) : nat :=
  match m with
  | [] => 0
  | (k', _) :: m => if k' <? k then S (lower_bound k m) else 0
  end.

(** [None] is [remoteConfigs.end()]. *)
Definition FindConfig (remoteConfigs : list (Z * NetworkConfiguration)) (height : Z) : option NetworkConfiguration :=
  let iter := lower_bound height remoteConfigs in
  match remoteConfigs !! iter with
  | Some (key, config) =>
      if decide (key ≠ height) then
        match iter with O => None | S iter => snd <$> remoteConfigs !! iter end
      else Some config
  | None => match iter with O => None | S iter => snd <$> remoteConfigs !! iter end
  end.

Section check.
Context (convert_to_uint64 : Z → Z).
(** [pConfigHolder->Config(height).Network] *)
Context (localConfig : Z → NetworkConfiguration).

Definition config_at (remoteConfigs : list (Z * NetworkConfiguration)) (height : Z) : NetworkConfiguration :=
  default (localConfig height) (FindConfig remoteConfigs height).

Fixpoint check_loop (cache : DifficultySet) (remoteConfigs : list (Z * NetworkConfiguration)) (firstHeight : Z)
    (blocks : list Block) (difficulties : DifficultySet) : result Z :=
  match blocks with
  | [] => Ok 0
  | block :: blocks =>
      let config := config_at remoteConfigs (Height block) in
      let size := Z.of_nat (length difficulties) in
      difficulties ←
        (if size <? MaxDifficultyBlocks config then
           let startHeight := match difficulties with [] => firstHeight | (_, info) :: _ => BlockHeight info end in
           if 1 <? startHeight then LoadDifficulties difficulties cache (sub64 startHeight 1) (u32 (MaxDifficultyBlocks config - size))
           else Ok difficulties
         else Ok difficulties);
      let window := if MaxDifficultyBlocks config <? Z.of_nat (length difficulties)
                    then drop (length difficulties - Z.to_nat (MaxDifficultyBlocks config)) difficulties else difficulties in
      difficulty ← CalculateDifficulty convert_to_uint64 window.*2 (info_of_block block) config;
      if decide (difficulty ≠ Difficulty block) then Ok 0
      else
        n ← check_loop cache remoteConfigs firstHeight blocks (set_insert (info_of_block block) difficulties);
        Ok (n + 1)
  end.

(** The number of leading blocks with the right difficulty. *)
Definition CheckDifficulties (cache : DifficultySet) (blocks : list Block) (remoteConfigs : list (Z * NetworkConfiguration))
    : result Z :=
  match blocks with
  | [] => Ok 0
  | first :: _ => check_loop cache remoteConfigs (Height first) blocks []
  end.

(** 2^64 over the difficulty, in 256 bits. *)
Definition CalculateScore (parentBlock currentBlock : Block) : result Z :=
  if Timestamp currentBlock <=? Timestamp parentBlock then Ok 0
  else if decide (Difficulty currentBlock = 0) then Throw invalid_argument
  else Ok (convert_to_uint64 (2 ^ 64 / Difficulty currentBlock)).

Fixpoint CalculatePartialChainScore (parent : Block) (blocks : list Block) : result Z :=
  match blocks with
  | [] => Ok 0
  | block :: blocks =>
      score ← CalculateScore parent block;
      rest ← CalculatePartialChainScore block blocks;
      Ok (wrap 128 (score + rest))
  end.

(** ** A reference definition of the check *)

(** The difficulty of each block from the last blocks before it, those of the
    cache and those of the chain part alike. *)
Fixpoint check_reference (config_of : Z → NetworkConfiguration) (history : list BlockDifficultyInfo)
    (blocks : list Block) : result Z :=
  match blocks with
  | [] => Ok 0
  | block :: blocks =>
      let config := config_of (Height block) in
      difficulty ← CalculateDifficulty convert_to_uint64 (lastn (Z.to_nat (MaxDifficultyBlocks config)) history)
                     (info_of_block block) config;
      if decide (difficulty ≠ Difficulty block) then Ok 0
      else n ← check_reference config_of (history ++ [info_of_block block]) blocks; Ok (n + 1)
  end.

(** The configuration in force at a height: the last one of the chain part at
    or below it, or else the local one. *)
Definition config_in_force (remoteConfigs : list (Z * NetworkConfiguration)) (height : Z) : NetworkConfiguration :=
  match last (filter (λ e, e.1 ≤ height) remoteConfigs) with Some (_, config) => config | None => localConfig height end.

End check.

(** The configuration that holds at a height is the last one at or below it. *)
Lemma lower_bound_split {V} k (m : list (Z * V)) :
  key_sorted m → ∃ m1 m2, m = m1 ++ m2 ∧ lower_bound k m = length m1
    ∧ Forall (λ e, e.1 < k) m1 ∧ Forall (λ e, k ≤ e.1) m2.
Proof.
  unfold key_sorted. induction m as [|[k' v] m IH]; simpl; intros Hs; [by exists [], []|].
  apply StronglySorted_inv in Hs as [Hs Hall]. destruct (k' <? k) eqn:E; zbool.
  - destruct (IH Hs) as (m1 & m2 & -> & -> & H1 & H2). exists ((k', v) :: m1), m2. by repeat constructor.
  - exists [], ((k', v) :: m). split_and!; [done|done|done|]. constructor; [done|].
    rewrite Forall_fmap in Hall. eapply Forall_impl; [exact Hall|]. intros [] ?. simpl in *. lia.
Qed.

Lemma FindConfig_spec remoteConfigs height :
  key_sorted remoteConfigs → FindConfig remoteConfigs height = snd <$> last (filter (λ e, e.1 ≤ height) remoteConfigs).
Proof.
  intros Hs. destruct (lower_bound_split height remoteConfigs Hs) as (m1 & m2 & E & Hlb & H1 & H2).
  unfold FindConfig. rewrite Hlb.
  assert (match length m1 with 0%nat => None | S iter => snd <$> remoteConfigs !! iter end = snd <$> last m1) as Hback.
  { rewrite last_lookup. destruct m1 as [|e m1]; [done|]. rewrite E. simpl length. f_equal. apply lookup_app_l. simpl. lia. }
  rewrite Forall_forall in H1.
  rewrite !Hback. clear Hback. rewrite E in Hs |- *. rewrite lookup_app_r, Nat.sub_diag, filter_app, (filter_all _ m1) by
    (done || (intros e He; specialize (H1 e He); lia)).
  destruct m2 as [|[key config] m2]; [by rewrite filter_nil, app_nil_r|]. cbn [lookup list_lookup].
  apply Forall_cons in H2 as [Hk H2]. simpl in Hk. unfold key_sorted in Hs. rewrite fmap_app in Hs. simpl in Hs.
  apply StronglySorted_app in Hs as (_ & _ & Hs). apply StronglySorted_inv in Hs as [_ Hs]. rewrite Forall_fmap, Forall_forall in Hs.
  destruct (decide (key ≠ height)) as [Hne|Heq%dec_stable].
  - rewrite filter_none, app_nil_r; [done|]. intros e [->|He]%elem_of_cons; simpl; [lia|]. specialize (Hs e He). simpl in Hs. lia.
  - rewrite filter_cons_True by (simpl; lia). rewrite filter_none, last_snoc; [done|].
    intros e He. specialize (Hs e He). simpl in Hs. lia.
Qed.

Section lastn.
Context {A : Type}.
Implicit Types (l : list A) (m n : nat).

Lemma length_lastn n l : length (lastn n l) = Nat.min n (length l).
Proof. unfold lastn. rewrite length_drop. lia. Qed.

Lemma lastn_all n l : (length l ≤ n)%nat → lastn n l = l.
Proof. intros. unfold lastn. by replace (length l - n)%nat with 0%nat by lia. Qed.

Lemma lastn_snoc n l x : (n ≤ length l)%nat → lastn n l ++ [x] = lastn (S n) (l ++ [x]).
Proof. intros. unfold lastn. rewrite length_app. simpl. rewrite drop_app_le by lia. do 2 f_equal. lia. Qed.

Lemma lastn_lastn m n l : (n ≤ m)%nat → (m ≤ length l)%nat → drop (m - n) (lastn m l) = lastn n l.
Proof. intros. unfold lastn. rewrite drop_drop. f_equal. lia. Qed.

Lemma lastn_extend m n l : (m ≤ length l)%nat → lastn n (take (length l - m) l) ++ lastn m l = lastn (n + m) l.
Proof.
  intros. unfold lastn. rewrite length_take, Nat.min_l by lia.
  replace (drop (length l - (n + m)) l) with (drop (length l - (n + m)) (take (length l - m) l ++ drop (length l - m) l))
    by (by rewrite take_drop).
  rewrite drop_app_le by (rewrite length_take; lia). do 2 f_equal. lia.
Qed.

End lastn.

Section check_equivalence.
Context (convert_to_uint64 : Z → Z) (localConfig : Z → NetworkConfiguration).
Context (remoteConfigs : list (Z * NetworkConfiguration)) (history above : list BlockDifficultyInfo) (start : Z).

Let max_at (height : Z) : Z := MaxDifficultyBlocks (config_at localConfig remoteConfigs height).
Context (Hmax : ∀ h, in_range 32 (max_at h)) (Hstart : 1 ≤ start).
(** The cache goes on above the parent of the first block. *)
Context (Hcache : contiguous start (history ++ above)) (Hsize : start + Z.of_nat (length (history ++ above)) < 2 ^ 62).

(** What is loaded for a block: afterwards the set holds as many of the last
    infos as the configuration asks for, or all there are. *)
Lemma load_window H m M :
  contiguous start H → history `prefix_of` H → start + Z.of_nat (length H) < 2 ^ 62 →
  (length H - length history ≤ m ≤ length H)%nat → in_range 32 M →
  (start = 1 ∨ M ≤ Z.of_nat (length H)) →
  let difficulties := keyed (lastn m H) in
  let startHeight := match difficulties with [] => start + Z.of_nat (length history) | (_, info) :: _ => BlockHeight info end in
  ∃ m', (m ≤ m' ≤ length H)%nat ∧ (M ≤ Z.of_nat m' ∨ m' = length H) ∧
    (if Z.of_nat (length difficulties) <? M then
       if 1 <? startHeight
       then LoadDifficulties difficulties (keyed (history ++ above)) (sub64 startHeight 1) (u32 (M - Z.of_nat (length difficulties)))
       else Ok difficulties
     else Ok difficulties) = Ok (keyed (lastn m' H)).
Proof.
  intros HH Hpre Hb Hm HM Hdepth difficulties startHeight. unfold in_range in HM.
  assert (length difficulties = m) as Hlen by (unfold difficulties; rewrite length_keyed, length_lastn; lia).
  assert (startHeight = start + Z.of_nat (length H - m)) as Hsh.
  { unfold startHeight. destruct difficulties as [|[k x] rest] eqn:E.
    - simpl in Hlen. subst m. apply prefix_length in Hpre. lia.
    - unfold difficulties, lastn in E. destruct (drop (length H - m) H) as [|y l] eqn:Ed; [done|]. injection E as _ <- _.
      apply (HH (length H - m)%nat). rewrite <-(Nat.add_0_r (length H - m)), <-lookup_drop, Ed. done. }
  rewrite Hlen, Hsh. destruct (Z.of_nat m <? M) eqn:E; zbool; [|by exists m; split_and!; try lia].
  destruct (1 <? _) eqn:E1; zbool; [|exists m; split_and!; try lia; done].
  exists (Nat.min (Z.to_nat M) (length H)). split_and!; [lia|lia|lia|].
  assert (1 ≤ length H - m)%nat by lia.
  unfold LoadDifficulties. rewrite sub64_small, (wrap_small 32) by (unfold in_range; lia).
  destruct Hpre as [P EH]. assert (length H = (length history + length P)%nat) as HlH by (by rewrite EH, length_app).
  rewrite (difficultyInfos_spec start (history ++ above)); [|done|done|lia|lia|rewrite length_app; lia].
  simpl. f_equal. set (k := (length H - m)%nat) in *.
  replace (Z.to_nat (start + Z.of_nat k - 1 - start) + 1)%nat with k by lia.
  assert (take k (history ++ above) = take k H) as -> by (rewrite EH, !take_app_le by lia; done).
  pose proof (insert_range (start + Z.of_nat (k - Z.to_nat (M - Z.of_nat m))) [] (lastn (Z.to_nat (M - Z.of_nat m)) (take k H)) (lastn m H)) as Hins.
  simpl in Hins. unfold difficulties. rewrite Hins.
  - f_equal. unfold k. rewrite lastn_extend by lia. unfold lastn. f_equal. lia.
  - unfold k. rewrite lastn_extend by lia. unfold lastn.
    replace (length H - m - Z.to_nat (M - Z.of_nat m))%nat with (length H - (Z.to_nat (M - Z.of_nat m) + m))%nat by lia.
    apply contiguous_drop; [done|lia].
Qed.

Lemma check_loop_reference blocks H m :
  contiguous start (H ++ (info_of_block <$> blocks)) → history `prefix_of` H →
  start + Z.of_nat (length H + length blocks) < 2 ^ 62 → (length H - length history ≤ m ≤ length H)%nat →
  (start = 1 ∨ ∀ i b, blocks !! i = Some b → max_at (Height b) ≤ Z.of_nat (length H + i)) →
  check_loop convert_to_uint64 localConfig (keyed (history ++ above)) remoteConfigs (start + Z.of_nat (length history)) blocks (keyed (lastn m H))
  = check_reference convert_to_uint64 (config_at localConfig remoteConfigs) H blocks.
Proof.
  revert H m. induction blocks as [|block blocks IH]; intros H m HH Hpre Hb Hm Hdepth; [done|].
  cbn [check_loop check_reference]. set (config := config_at localConfig remoteConfigs (Height block)).
  change (MaxDifficultyBlocks config) with (max_at (Height block)). set (M := max_at (Height block)).
  assert (in_range 32 M) as HM by apply Hmax. unfold in_range in HM.
  pose proof HH as HH'. apply contiguous_app in HH' as [HHH _]. simpl in Hb.
  destruct (load_window H m M HHH Hpre ltac:(lia) Hm HM) as (m' & Hm' & HmM & Hload).
  { destruct Hdepth as [|Hdepth]; [by left|right]. specialize (Hdepth 0%nat block eq_refl). unfold M. lia. }
  rewrite Hload. cbn [mbind result_bind]. rewrite length_keyed, length_lastn, Nat.min_l by lia.
  assert (((if M <? Z.of_nat m' then drop (m' - Z.to_nat M) (keyed (lastn m' H)) else keyed (lastn m' H)).*2 : list BlockDifficultyInfo)
    = lastn (Z.to_nat M) H) as ->.
  { pose proof (keyed_range (lastn m' H) (m' - Z.to_nat M) (length (lastn m' H))) as Hr.
    rewrite !take_ge in Hr by (rewrite ?length_keyed; lia). destruct (M <? Z.of_nat m') eqn:E; zbool.
    - rewrite Hr. apply lastn_lastn; lia.
    - replace (m' - Z.to_nat M)%nat with 0%nat in Hr by lia. rewrite !drop_0 in Hr. rewrite Hr.
      destruct HmM as [|Heq]; [f_equal; lia|]. rewrite !lastn_all by lia. done. }
  destruct (CalculateDifficulty _ _ _ _) as [difficulty|]; [|done]. cbn [mbind result_bind].
  destruct (decide (difficulty ≠ _)); [done|]. f_equal.
  rewrite (insert_last (start + Z.of_nat (length H - m'))).
  - rewrite lastn_snoc by lia. apply IH.
    + by rewrite <-app_assoc.
    + by apply prefix_app_r.
    + rewrite length_app. simpl. lia.
    + rewrite length_app. simpl. lia.
    + destruct Hdepth as [|Hdepth]; [by left|right]. intros i b Hi. specialize (Hdepth (S i) b Hi). rewrite length_app. simpl. lia.
  - rewrite lastn_snoc by lia. unfold lastn. rewrite length_app. simpl.
    replace (length H + 1 - S m')%nat with (length H - m')%nat by lia. apply contiguous_drop; [|rewrite length_app; simpl; lia].
    simpl in HH. rewrite cons_middle, app_assoc in HH. by apply contiguous_app in HH as [? _].
Qed.

Lemma check_reference_ext f g H blocks :
  (∀ h, f h = g h) → check_reference convert_to_uint64 f H blocks = check_reference convert_to_uint64 g H blocks.
Proof.
  intros Hfg. revert H. induction blocks as [|block blocks IH]; intros H; simpl; [done|]. rewrite Hfg.
  destruct (CalculateDifficulty _ _ _ _); [|done]. simpl. by rewrite IH.
Qed.

Lemma config_at_in_force h : key_sorted remoteConfigs → config_at localConfig remoteConfigs h = config_in_force localConfig remoteConfigs h.
Proof. intros Hs. unfold config_at, config_in_force. rewrite FindConfig_spec by done. by destruct (last _) as [[? ?]|]. Qed.

End check_equivalence.

(** C18. [CheckDifficulties] computes what it should.  It loads difficulties
    from the cache lazily and keeps them in a set that grows over the blocks;
    the result is that of the reference definition, which takes for each block
    the configuration in force at its height and the difficulty that follows
    from the last blocks before it, whether they come from the cache or from
    the chain part, and counts the leading blocks that have it (and throws
    where the reference throws).  The cache holds consecutive heights from [start]
    on: [history] up to the parent of the first block, and [above] those of the
    local blocks that the chain part is to replace, since the local chain is
    unwound only later; these have no influence.  The blocks of the part have
    consecutive heights, the configurations are sorted by height, heights are
    below 2^62, and the cache must reach back far enough for the configured
    windows, or to the first block. *)
Theorem CheckDifficulties_reference convert_to_uint64 localConfig remoteConfigs history above start blocks :
  key_sorted remoteConfigs →
  (∀ h, in_range 32 (MaxDifficultyBlocks (config_in_force localConfig remoteConfigs h))) →
  1 ≤ start → contiguous start (history ++ above) → start + Z.of_nat (length (history ++ above)) < 2 ^ 62 →
  contiguous start (history ++ (info_of_block <$> blocks)) →
  start + Z.of_nat (length history + length blocks) < 2 ^ 62 →
  (start = 1 ∨ ∀ i b, blocks !! i = Some b →
     MaxDifficultyBlocks (config_in_force localConfig remoteConfigs (Height b)) ≤ Z.of_nat (length history + i)) →
  CheckDifficulties convert_to_uint64 localConfig (keyed (history ++ above)) blocks remoteConfigs
  = check_reference convert_to_uint64 (config_in_force localConfig remoteConfigs) history blocks.
Proof.
  intros Hs Hmax Hst Hcache Hsize Hc Hb Hdepth. pose proof (λ h, config_at_in_force localConfig remoteConfigs h Hs) as Hcfg.
  rewrite <-(check_reference_ext convert_to_uint64 _ _ history blocks Hcfg).
  unfold CheckDifficulties. destruct blocks as [|block blocks]; [done|].
  assert (Height block = start + Z.of_nat (length history)) as ->.
  { apply contiguous_app in Hc as [_ Hc]. by apply contiguous_cons in Hc as [? _]. }
  change [] with (keyed []). replace (@nil BlockDifficultyInfo) with (lastn 0 history) by (unfold lastn; by rewrite Nat.sub_0_r, drop_all).
  apply check_loop_reference; [|done|done|done|done|done|done|lia|].
  - intros h. rewrite Hcfg. apply Hmax.
  - destruct Hdepth as [|Hdepth]; [by left|right]. intros i b Hi. rewrite Hcfg. by apply Hdepth.
Qed.

Definition example_config : NetworkConfiguration :=
  {| BlockGenerationTargetTime := 15000; BlockTimeSmoothingFactor := 3000; MaxRollbackBlocks := 100; MaxDifficultyBlocks := 3 |}.
Definition example_history : list BlockDifficultyInfo :=
  (λ h, {| BlockHeight := h; BlockTimestamp := 15000 * h; BlockDifficulty := 1000000 |}) <$> [7; 8; 9; 10].
Definition example_block (h timestamp difficulty : Z) : Block :=
  {| Height := h; Timestamp := timestamp; Difficulty := difficulty; PreviousBlockHash := 0 |}.

(** Two local blocks, with other timestamps and difficulties, are to be replaced. *)
Definition example_above : list BlockDifficultyInfo :=
  (λ h, {| BlockHeight := h; BlockTimestamp := 20000 * h; BlockDifficulty := 7000000 |}) <$> [11; 12].

Lemma CheckDifficulties_reference_witness :
  let blocks := [example_block 11 200000 1200000; example_block 12 201000 1440000; example_block 13 230000 5] in
  CheckDifficulties u64 (λ _, example_config) (keyed (example_history ++ example_above)) blocks []
    = check_reference u64 (config_in_force (λ _, example_config) []) example_history blocks
  ∧ check_reference u64 (config_in_force (λ _, example_config) []) example_history blocks = Ok 2.
Proof.
  split; [|by vm_compute]. apply (CheckDifficulties_reference u64 (λ _, example_config) [] example_history example_above 7).
  - constructor.
  - intros h. by vm_compute.
  - lia.
  - unfold example_history, example_above. simpl. repeat (apply contiguous_cons; split; [simpl; lia|]). by intros i info ?.
  - simpl. lia.
  - unfold example_history. simpl. repeat (apply contiguous_cons; split; [simpl; lia|]). by intros i info ?.
  - simpl. lia.
  - right. simpl. intros i b _. unfold config_in_force. simpl. lia.
Defined.

Lemma CalculateDifficulty_bounds_witness :
  ∃ d, CalculateDifficulty u64 (lastn 3 example_history) {| BlockHeight := 11; BlockTimestamp := 140000; BlockDifficulty := 0 |} example_config = Ok d
    ∧ 0 < d ∧ 1000000 - 1000000 * 64 * 3 / (100 * 15) ≤ d ∧ d ≤ 1000000 * (15 + 3) / 15.
Proof.
  destruct (CalculateDifficulty_bounds u64 (λ x, wrap_small 64 x) (lastn 3 example_history)
    {| BlockHeight := 10; BlockTimestamp := 150000; BlockDifficulty := 1000000 |}
    {| BlockHeight := 11; BlockTimestamp := 140000; BlockDifficulty := 0 |} example_config) as (d & Hd & H1 & H2 & H3 & _).
  - reflexivity.
  - simpl. lia.
  - reflexivity.
  - unfold in_range. simpl. lia.
  - by vm_compute.
  - by vm_compute.
  - by vm_compute.
  - simpl. lia.
  - exists d. split_and!; [exact Hd|exact H1|exact H2|exact H3].
Defined.

End Difficulty.
