(* ===== verification/BlockElements.v ===== *)
(** Model of blocks as the storage sees them: the binary layout of a block
    (catapult/model/Block.{h,cpp}, TransactionContainer.h,
    ContiguousEntityContainer.h), block elements and block statements
    (model/Elements.h, BlockStatement.h, Statement.h, ResolutionStatement.h)
    and their serializers (catapult/io/BlockElementSerializer.cpp,
    BlockStatementSerializer.cpp).

    An entity is the list of its bytes; its fields are read at the offsets of
    the packed structs.  Writers yield the buffers they hand to the output
    stream, one per call of [write], so that a client can tell the calls
    apart.  The file shows that what is written is read back. *)
From stdpp Require Import base tactics numbers option list sorting sets.
From S2P Require Import Prelude Streams.

Local Open Scope Z_scope.

Module Elements.
Import Stream.

(** * Entities *)

(** The little-endian field of [size] bytes at [offset]. *)
Definition field (offset size : nat) (entity : list Z) : Z := le_value (take size (drop offset entity)).

(** Sizes of the packed structs: VerifiableEntity is Size, Signature, Signer,
    Version and Type. *)
Definition Hash256_Size : nat := 32.
Definition sizeof_VerifiableEntity : Z := 4 + 64 + 32 + 4 + 2.
Definition sizeof_Transaction : Z := sizeof_VerifiableEntity + 8 + 8.
Definition sizeof_BlockHeader : Z := sizeof_VerifiableEntity + 8 + 8 + 8 + 4 + 5 * 32 + 4 + 4.
Definition sizeof_BlockHeaderV4 : Z := sizeof_BlockHeader + 8 + 8 + 4.
Definition sizeof_Block : Z := sizeof_BlockHeader.
Definition sizeof_Receipt : Z := 4 + 4 + 2.

Definition Size (entity : list Z) : Z := field 0 4 entity.
Definition Version (entity : list Z) : Z := field 100 4 entity.
Definition Block_Height (block : list Z) : Z := field 106 8 block.
Definition TransactionPayloadSize (block : list Z) : Z := field 318 4 block.
Definition Receipt_Type (receipt : list Z) : Z := field 8 2 receipt.

Definition ENTITY_VERSION_MASK : Z := Z.shiftr (2 ^ 32 - 1) 8.
Definition EntityVersion (entity : list Z) : Z := Z.land (Version entity) ENTITY_VERSION_MASK.

Definition GetHeaderSize (block : list Z) : Z :=
  if EntityVersion block =? 3 then sizeof_BlockHeader else sizeof_BlockHeaderV4.

Definition GetTransactionPayloadSize (block : list Z) : Z :=
  if EntityVersion block =? 3 then u64 (Size block - sizeof_BlockHeader) else TransactionPayloadSize block.

(** Iteration over the entities in [size] bytes of memory that start at
    [memory]: the entities before an error, and the error.  Every entity is at
    least [minSize] long, the size of its type, so that the length of the memory
    bounds the steps.  Reading past the memory of the block has no meaning. *)
Fixpoint iterate_entities (minSize : Z) (fuel : nat) (memory : list Z) (size : Z) : list (list Z) * result unit :=
  match fuel with
  | O => ([], Throw undefined_behaviour)
  | S fuel =>
      if size =? 0 then ([], Ok tt)
      else if size <? 4 then ([], Throw runtime_error)
      else if Z.of_nat (length memory) <? 4 then ([], Throw undefined_behaviour)
      else
        let entitySize := Size memory in
        if (size <? entitySize) || (entitySize <? minSize) then ([], Throw runtime_error)
        else if Z.of_nat (length memory) <? entitySize then ([], Throw undefined_behaviour)
        else
          let '(rest, r) := iterate_entities minSize fuel (drop (Z.to_nat entitySize) memory) (size - entitySize) in
          (take (Z.to_nat entitySize) memory :: rest, r)
  end.

(** [TransactionsPtr] is null when nothing follows the header, and a container
    around a null pointer is empty. *)
Definition Transactions (block : list Z) : result (list (list Z)) :=
  if Size block <=? GetHeaderSize block then Ok []
  else
    let '(transactions, r) := iterate_entities sizeof_Transaction (S (length block))
                                (drop (Z.to_nat (GetHeaderSize block)) block) (GetTransactionPayloadSize block) in
    match r with Ok _ => Ok transactions | Throw e => Throw e end.

(** * Statements *)

Record ReceiptSource := { PrimaryId : Z; SecondaryId : Z }.

#[global] Instance ReceiptSource_eq_dec : EqDecision ReceiptSource.
Proof. solve_decision. Defined.

Definition ReceiptSource_ltb (lhs rhs : ReceiptSource) : bool :=
  (PrimaryId lhs <? PrimaryId rhs)
  || ((PrimaryId lhs =? PrimaryId rhs) && (SecondaryId lhs <? SecondaryId rhs)).

(** [std::array] compares lexicographically. *)
Fixpoint bytes_ltb (lhs rhs : list Z) : bool :=
  match lhs, rhs with
  | _, [] => false
  | [], _ :: _ => true
  | a :: lhs, b :: rhs => if a <? b then true else if b <? a then false else bytes_ltb lhs rhs
  end.

(** Collection of receipts scoped to a source; a receipt is its bytes. *)
Record Statement := { statement_source : ReceiptSource; statement_receipts : list (list Z) }.

Record ResolutionStatement (K R : Type) := {
  unresolved : K;
  resolution_entries : list (R * ReceiptSource);
}.
Arguments unresolved {K R}. Arguments resolution_entries {K R}.

Record BlockStatement := {
  TransactionStatements : list (ReceiptSource * Statement);
  AddressResolutionStatements : list (list Z * ResolutionStatement (list Z) (list Z));
  MosaicResolutionStatements : list (Z * ResolutionStatement Z Z);
  PublicKeyStatements : list (ReceiptSource * Statement);
}.

Definition empty_BlockStatement : BlockStatement := {|
  TransactionStatements := [];
  AddressResolutionStatements := [];
  MosaicResolutionStatements := [];
  PublicKeyStatements := [];
|}.

(** Insertion behind the receipts of the same or a smaller type. *)
Fixpoint insert_receipt (receipt : list Z) (receipts : list (list Z)) : list (list Z) :=
  match receipts with
  | [] => [receipt]
  | r :: rest =>
      if Receipt_Type receipt <? Receipt_Type r then receipt :: receipts
      else r :: insert_receipt receipt rest
  end.

Definition addReceipt (receipt : list Z) (s : Statement) : result Statement :=
  if Size receipt <? sizeof_Receipt then Throw invalid_argument
  else Ok {| statement_source := statement_source s;
             statement_receipts := insert_receipt receipt (statement_receipts s) |}.

Definition addResolution {K R} (resolved : R) (source : ReceiptSource) (s : ResolutionStatement K R)
    : ResolutionStatement K R :=
  {| unresolved := unresolved s; resolution_entries := resolution_entries s ++ [(resolved, source)] |}.

(** * Elements *)

Record TransactionElement := {
  te_Transaction : list Z;
  te_EntityHash : list Z;
  te_MerkleComponentHash : list Z;
  te_OptionalExtractedAddresses : option (list (list Z));
}.

Record BlockElement := {
  be_Block : list Z;
  be_EntityHash : list Z;
  be_GenerationHash : list Z;
  be_SubCacheMerkleRoots : list (list Z);
  be_Transactions : list TransactionElement;
  be_OptionalStatement : option BlockStatement;
}.

Definition be_Height (e : BlockElement) : Z := Block_Height (be_Block e).

Definition set_OptionalStatement (s : option BlockStatement) (e : BlockElement) : BlockElement := {|
  be_Block := be_Block e;
  be_EntityHash := be_EntityHash e;
  be_GenerationHash := be_GenerationHash e;
  be_SubCacheMerkleRoots := be_SubCacheMerkleRoots e;
  be_Transactions := be_Transactions e;
  be_OptionalStatement := s;
|}.

(** * Writing *)

(** An output stream: the buffers written so far. *)
Abbreviation Writer := (Exec (list (list Z))).

Definition write (buffer : list Z) : Writer unit := modify (λ out, out ++ [buffer]).

(** [checked_cast<size_t, uint32_t>]. *)
Definition checked_cast32 (value : Z) : Writer Z :=
  if 2 ^ 32 - 1 <? value then throw runtime_error else mret value.

Definition WriteTransactionHashes (transactionElements : list TransactionElement) : Writer unit :=
  let numTransactions := u32 (Z.of_nat (length transactionElements)) in
  let hashes := concat ((λ t, te_EntityHash t ++ te_MerkleComponentHash t) <$> transactionElements) in
  write (Write32 numTransactions) ≫= λ _,
  if u32 (2 * numTransactions) <? 2 * Z.of_nat (length transactionElements) then throw undefined_behaviour
  else write hashes.

Definition WriteSubCacheMerkleRoots (subCacheMerkleRoots : list (list Z)) : Writer unit :=
  let numHashes := u32 (Z.of_nat (length subCacheMerkleRoots)) in
  write (Write32 numHashes) ≫= λ _,
  write (take (Z.to_nat numHashes * Hash256_Size) (concat subCacheMerkleRoots)).

Definition WriteBlockElement (blockElement : BlockElement) : Writer unit :=
  write (take (Z.to_nat (Size (be_Block blockElement))) (be_Block blockElement)) ≫= λ _,
  write (be_EntityHash blockElement) ≫= λ _,
  write (be_GenerationHash blockElement) ≫= λ _,
  WriteTransactionHashes (be_Transactions blockElement) ≫= λ _,
  WriteSubCacheMerkleRoots (be_SubCacheMerkleRoots blockElement).

Definition ReceiptSource_bytes (source : ReceiptSource) : list Z :=
  Write32 (PrimaryId source) ++ Write32 (SecondaryId source).

Definition WriteStatement (key : ReceiptSource) (statement : Statement) : Writer unit :=
  write (ReceiptSource_bytes key) ≫= λ _,
  n ← checked_cast32 (Z.of_nat (length (statement_receipts statement)));
  write (Write32 n) ≫= λ _,
  for_each (λ receipt, write (take (Z.to_nat (Size receipt)) receipt)) (statement_receipts statement).

(** Unresolved keys and resolved values are written as their bytes, [to_bytes]. *)
Definition WriteResolutionStatement {K R} (key_bytes : K → list Z) (value_bytes : R → list Z)
    (key : K) (statement : ResolutionStatement K R) : Writer unit :=
  write (key_bytes key) ≫= λ _,
  n ← checked_cast32 (Z.of_nat (length (resolution_entries statement)));
  write (Write32 n) ≫= λ _,
  for_each (λ entry, write (value_bytes (fst entry) ++ ReceiptSource_bytes (snd entry)))
    (resolution_entries statement).

Definition WriteStatements {K V} (write_statement : K → V → Writer unit) (statements : list (K * V)) : Writer unit :=
  n ← checked_cast32 (Z.of_nat (length statements));
  write (Write32 n) ≫= λ _,
  for_each (λ pair, write_statement (fst pair) (snd pair)) statements.

Definition WriteBlockStatement (s : BlockStatement) : Writer unit :=
  WriteStatements WriteStatement (TransactionStatements s) ≫= λ _,
  WriteStatements (WriteResolutionStatement id id) (AddressResolutionStatements s) ≫= λ _,
  WriteStatements (WriteResolutionStatement Write64 Write64) (MosaicResolutionStatements s) ≫= λ _,
  WriteStatements WriteStatement (PublicKeyStatements s).

(** * Reading *)

(** Repeats a reader [n] times, threading a value. *)
Fixpoint read_times {A} (n : nat) (f : A → Reader A) (a : A) : Reader A :=
  match n with
  | O => mret a
  | S n => a' ← f a; read_times n f a'
  end.

(** Cuts hashes of [Hash256_Size] bytes out of a buffer. *)
Fixpoint split_hashes (n : nat) (buffer : list Z) : list (list Z) :=
  match n with
  | O => []
  | S n => take Hash256_Size buffer :: split_hashes n (drop Hash256_Size buffer)
  end.

Definition ReadBlockElementImpl : Reader BlockElement :=
  size ← Read32;
  if size <? sizeof_Block then throw invalid_argument
  else
    tail ← read (Z.to_nat size - 4);
    entityHash ← read Hash256_Size;
    generationHash ← read Hash256_Size;
    mret {| be_Block := Write32 size ++ tail;
            be_EntityHash := entityHash;
            be_GenerationHash := generationHash;
            be_SubCacheMerkleRoots := [];
            be_Transactions := [];
            be_OptionalStatement := None |}.

(** Pairs every transaction with its two hashes; indexing past the hashes has no
    meaning. *)
Fixpoint attach_hashes (transactions hashes : list (list Z)) : result (list TransactionElement) :=
  match transactions, hashes with
  | [], _ => Ok []
  | t :: transactions, h1 :: h2 :: hashes =>
      rest ← attach_hashes transactions hashes;
      Ok ({| te_Transaction := t; te_EntityHash := h1; te_MerkleComponentHash := h2;
             te_OptionalExtractedAddresses := None |} :: rest)
  | _ :: _, _ => Throw undefined_behaviour
  end.

Definition lift_result {S A} (r : result A) : Exec S A := λ s, (s, r).

Definition ReadTransactionHashes (e : BlockElement) : Reader BlockElement :=
  numTransactions ← Read32;
  let numHashes := Z.to_nat (u32 (2 * numTransactions)) in
  buffer ← read (numHashes * Hash256_Size);
  transactions ← lift_result (Transactions (be_Block e));
  elements ← lift_result (attach_hashes transactions (split_hashes numHashes buffer));
  mret {| be_Block := be_Block e;
          be_EntityHash := be_EntityHash e;
          be_GenerationHash := be_GenerationHash e;
          be_SubCacheMerkleRoots := be_SubCacheMerkleRoots e;
          be_Transactions := elements;
          be_OptionalStatement := be_OptionalStatement e |}.

Definition ReadSubCacheMerkleRoots : Reader (list (list Z)) :=
  numHashes ← Read32;
  buffer ← read (Z.to_nat numHashes * Hash256_Size);
  mret (split_hashes (Z.to_nat numHashes) buffer).

Definition ReadBlockElement : Reader BlockElement :=
  e ← ReadBlockElementImpl;
  e ← ReadTransactionHashes e;
  roots ← ReadSubCacheMerkleRoots;
  mret {| be_Block := be_Block e;
          be_EntityHash := be_EntityHash e;
          be_GenerationHash := be_GenerationHash e;
          be_SubCacheMerkleRoots := roots;
          be_Transactions := be_Transactions e;
          be_OptionalStatement := be_OptionalStatement e |}.

Definition ReadReceiptSource : Reader ReceiptSource :=
  primary ← Read32;
  secondary ← Read32;
  mret {| PrimaryId := primary; SecondaryId := secondary |}.

(** A receipt shorter than its size field makes the size of the buffer to read
    wrap around, which passes the bounds check of the stream. *)
Definition read_receipt (statement : Statement) : Reader Statement :=
  receiptSize ← Read32;
  if receiptSize <? 4 then throw undefined_behaviour
  else
    tail ← read (Z.to_nat receiptSize - 4);
    lift_result (addReceipt (Write32 receiptSize ++ tail) statement).

(** [std::map::emplace]: an equivalent key keeps its old value. *)
Fixpoint map_emplace {K V} (ltb : K → K → bool) (k : K) (v : V) (m : list (K * V)) : list (K * V) :=
  match m with
  | [] => [(k, v)]
  | (k', v') :: rest =>
      if ltb k k' then (k, v) :: m
      else if ltb k' k then (k', v') :: map_emplace ltb k v rest
      else m
  end.

Definition ReadStatement (statements : list (ReceiptSource * Statement))
    : Reader (list (ReceiptSource * Statement)) :=
  key ← ReadReceiptSource;
  numReceipts ← Read32;
  statement ← read_times (Z.to_nat numReceipts) read_receipt
                {| statement_source := key; statement_receipts := [] |};
  mret (map_emplace ReceiptSource_ltb key statement statements).

Definition ReadResolutionStatement {K R} (ltb : K → K → bool) (read_key : Reader K) (read_value : Reader R)
    (statements : list (K * ResolutionStatement K R)) : Reader (list (K * ResolutionStatement K R)) :=
  key ← read_key;
  numEntries ← Read32;
  statement ← read_times (Z.to_nat numEntries)
    (λ s, value ← read_value; source ← ReadReceiptSource; mret (addResolution value source s))
    {| unresolved := key; resolution_entries := [] |};
  mret (map_emplace ltb key statement statements).

Definition ReadStatements {A} (read_statement : list A → Reader (list A)) : Reader (list A) :=
  numStatements ← Read32;
  read_times (Z.to_nat numStatements) read_statement [].

Definition Address_Decoded_Size : nat := 25.

Definition ReadBlockStatement : Reader BlockStatement :=
  transactionStatements ← ReadStatements ReadStatement;
  addressStatements ← ReadStatements
    (ReadResolutionStatement bytes_ltb (read Address_Decoded_Size) (read Address_Decoded_Size));
  mosaicStatements ← ReadStatements (ReadResolutionStatement Z.ltb Read64 Read64);
  publicKeyStatements ← ReadStatements ReadStatement;
  mret {| TransactionStatements := transactionStatements;
          AddressResolutionStatements := addressStatements;
          MosaicResolutionStatements := mosaicStatements;
          PublicKeyStatements := publicKeyStatements |}.

(** * Well-formed data *)

Abbreviation bytes := (Forall (in_range 8)).

(** The size field of an entity is the number of its bytes. *)
Definition sized (entity : list Z) : Prop := bytes entity ∧ Z.of_nat (length entity) = Size entity.

Definition is_hash (hash : list Z) : Prop := length hash = Hash256_Size.

Definition wf_ReceiptSource (s : ReceiptSource) : Prop := in_range 32 (PrimaryId s) ∧ in_range 32 (SecondaryId s).

Definition wf_receipt (receipt : list Z) : Prop := sized receipt ∧ sizeof_Receipt ≤ Size receipt.

(** Receipts are kept in the order of their types. *)
Record wf_Statement (s : Statement) : Prop := {
  wf_statement_source : wf_ReceiptSource (statement_source s);
  wf_statement_receipts : Forall wf_receipt (statement_receipts s);
  wf_statement_sorted : StronglySorted (λ a b, Receipt_Type a ≤ Receipt_Type b) (statement_receipts s);
  wf_statement_size : Z.of_nat (length (statement_receipts s)) < 2 ^ 32;
}.

Record wf_Resolution {K R} (wf_key : K → Prop) (wf_value : R → Prop) (s : ResolutionStatement K R) : Prop := {
  wf_resolution_key : wf_key (unresolved s);
  wf_resolution_entries : Forall (λ e, wf_value (fst e) ∧ wf_ReceiptSource (snd e)) (resolution_entries s);
  wf_resolution_size : Z.of_nat (length (resolution_entries s)) < 2 ^ 32;
}.

(** A [std::map]: keys in strictly increasing order, every value the one its key names. *)
Record wf_map {K V} (ltb : K → K → bool) (key_of : V → K) (wf_value : V → Prop) (m : list (K * V)) : Prop := {
  wf_map_sorted : StronglySorted (λ a b, ltb a b = true) m.*1;
  wf_map_values : Forall (λ p, fst p = key_of (snd p) ∧ wf_value (snd p)) m;
  wf_map_size : Z.of_nat (length m) < 2 ^ 32;
}.

Definition is_address (a : list Z) : Prop := length a = Address_Decoded_Size.

Record wf_BlockStatement (s : BlockStatement) : Prop := {
  wf_TransactionStatements : wf_map ReceiptSource_ltb statement_source wf_Statement (TransactionStatements s);
  wf_AddressResolutionStatements :
    wf_map bytes_ltb unresolved (wf_Resolution is_address is_address) (AddressResolutionStatements s);
  wf_MosaicResolutionStatements :
    wf_map Z.ltb unresolved (wf_Resolution (in_range 64) (in_range 64)) (MosaicResolutionStatements s);
  wf_PublicKeyStatements : wf_map ReceiptSource_ltb statement_source wf_Statement (PublicKeyStatements s);
}.

(** The transaction elements of a block element refer to the transactions of its block. *)
Record wf_BlockElement (e : BlockElement) : Prop := {
  wf_block_sized : sized (be_Block e);
  wf_block_size : sizeof_Block ≤ Size (be_Block e);
  wf_block_hashes : is_hash (be_EntityHash e) ∧ is_hash (be_GenerationHash e);
  wf_block_roots : Forall is_hash (be_SubCacheMerkleRoots e) ∧ Z.of_nat (length (be_SubCacheMerkleRoots e)) < 2 ^ 32;
  wf_block_transactions : Transactions (be_Block e) = Ok (te_Transaction <$> be_Transactions e);
  wf_block_transaction_hashes : Forall (λ t, is_hash (te_EntityHash t) ∧ is_hash (te_MerkleComponentHash t)) (be_Transactions e);
  wf_block_transaction_count : Z.of_nat (length (be_Transactions e)) < 2 ^ 31;
}.

(** What a serialized element keeps: neither the extracted addresses nor the
    statement, which has a format of its own. *)
Definition persisted (e : BlockElement) : BlockElement := {|
  be_Block := be_Block e;
  be_EntityHash := be_EntityHash e;
  be_GenerationHash := be_GenerationHash e;
  be_SubCacheMerkleRoots := be_SubCacheMerkleRoots e;
  be_Transactions := (λ t, {| te_Transaction := te_Transaction t; te_EntityHash := te_EntityHash t;
                              te_MerkleComponentHash := te_MerkleComponentHash t;
                              te_OptionalExtractedAddresses := None |}) <$> be_Transactions e;
  be_OptionalStatement := None;
|}.

(** * Writers *)

(** [writes m buffers]: the writer hands exactly [buffers] to the stream. *)
Definition writes (m : Writer unit) (buffers : list (list Z)) : Prop := ∀ out, m out = (out ++ buffers, Ok tt).

Lemma writes_ret : writes (mret tt) [].
Proof. intros out. by rewrite app_nil_r. Qed.

Lemma writes_write b : writes (write b) [b].
Proof. done. Qed.

Lemma writes_bind (m n : Writer unit) b1 b2 :
  writes m b1 → writes n b2 → writes (m ≫= λ _, n) (b1 ++ b2).
Proof. intros Hm Hn out. unfold mbind, exec_bind. by rewrite Hm, Hn, app_assoc. Qed.

Lemma writes_cast v (n : Z → Writer unit) b :
  v < 2 ^ 32 → writes (n v) b → writes (checked_cast32 v ≫= n) b.
Proof.
  intros Hv Hn. unfold checked_cast32. destruct (Z.ltb_spec (2 ^ 32 - 1) v); [lia|].
  intros out. unfold mbind, exec_bind, mret, exec_ret. apply Hn.
Qed.

Lemma writes_for_each {A} (f : A → Writer unit) (enc : A → list (list Z)) l :
  (∀ x, x ∈ l → writes (f x) (enc x)) → writes (for_each f l) (concat (enc <$> l)).
Proof.
  induction l as [|x l IH]; intros Hl; simpl; [apply writes_ret|].
  apply writes_bind; [apply Hl; set_solver|]. apply IH. intros; apply Hl; set_solver.
Qed.

Create HintDb writer.
#[export] Hint Resolve writes_ret writes_write writes_bind : writer.

(** * Reading what was written *)

(** The writer [m] and the reader [r] are inverse at [a]. *)
Definition roundtrips {A} (m : Writer unit) (r : Reader A) (a : A) : Prop :=
  ∃ buffers, writes m buffers ∧ reads r (concat buffers) a.

Lemma roundtrips_bind {A B} m n (r : Reader A) (f : A → Reader B) a b :
  roundtrips m r a → roundtrips n (f a) b → roundtrips (m ≫= λ _, n) (r ≫= f) b.
Proof.
  intros (b1 & Hm & Hr) (b2 & Hn & Hf). exists (b1 ++ b2). split; [by apply writes_bind|].
  rewrite concat_app. by eapply reads_bind.
Qed.

Lemma roundtrips_end {A B} m (r : Reader A) (f : A → B) a :
  roundtrips m r a → roundtrips m (r ≫= λ x, mret (f x)) (f a).
Proof. intros (b & Hm & Hr). exists b. split; [done|]. by eapply reads_bind_end. Qed.

Lemma roundtrips_write {A} bytes (r : Reader A) a : reads r bytes a → roundtrips (write bytes) r a.
Proof. intros Hr. exists [bytes]. split; [apply writes_write|]. simpl. by rewrite app_nil_r. Qed.

Lemma roundtrips_cast {A} v n (r : Reader A) a :
  v < 2 ^ 32 → roundtrips (n v) r a → roundtrips (checked_cast32 v ≫= n) r a.
Proof. intros Hv (b & Hn & Hr). exists b. split; [by apply writes_cast|done]. Qed.

(** A loop that reads what a loop wrote. *)
Lemma roundtrips_times {A B} (g : A → B → A) (f : A → Reader A) (w : B → Writer unit) l a b :
  (∀ a x, x ∈ l → roundtrips (w x) (f a) (g a x)) → foldl g a l = b →
  roundtrips (for_each w l) (read_times (length l) f a) b.
Proof.
  intros Hl <-. revert a Hl. induction l as [|x l IH]; intros a Hl; simpl.
  { exists []. split; [apply writes_ret|apply reads_ret]. }
  apply (roundtrips_bind (w x) (for_each w l) (f a) (read_times (length l) f) (g a x)); [apply Hl; set_solver|].
  apply IH. intros; apply Hl; set_solver.
Qed.

Lemma le_bytes_of_value l : bytes l → le_bytes (length l) (le_value l) = l.
Proof.
  induction 1 as [|b l Hb Hl IH]; simpl; [done|]. unfold in_range in Hb. f_equal.
  - unfold wrap. change (2 ^ 8) with 256 in *. rewrite Z.mul_comm, Z.mod_add by lia. by apply Z.mod_small.
  - rewrite Z.shiftr_div_pow2 by lia. change (2 ^ 8) with 256 in *.
    replace (b + 256 * le_value l) with (b + le_value l * 256) by lia.
    rewrite Z.div_add, Z.div_small by lia. done.
Qed.

Lemma le_value_range l : bytes l → in_range (8 * Z.of_nat (length l)) (le_value l).
Proof. intros Hl. rewrite <-(le_bytes_of_value l Hl) at 2. rewrite le_value_bytes. apply wrap_range. lia. Qed.

(** A sized entity is its size followed by the rest. *)
Lemma sized_split e : sized e → 4 ≤ Size e → e = Write32 (Size e) ++ drop 4 e ∧ in_range 32 (Size e).
Proof.
  intros [Hb Hlen] H4. assert (length (take 4 e) = 4%nat) as Ht by (rewrite length_take; lia).
  assert (bytes (take 4 e)) as Hbt by (by apply Forall_take).
  unfold Write32, Size, field. rewrite drop_0. split.
  - pose proof (le_bytes_of_value _ Hbt) as Heq. rewrite Ht in Heq. by rewrite Heq, take_drop.
  - replace 32 with (8 * Z.of_nat (length (take 4 e))) by (by rewrite Ht). by apply le_value_range.
Qed.

Lemma take_sized e : sized e → take (Z.to_nat (Size e)) e = e.
Proof. intros [_ Hlen]. apply take_ge. lia. Qed.

(** * Statements *)

Lemma reads_ReceiptSource s : wf_ReceiptSource s → reads ReadReceiptSource (ReceiptSource_bytes s) s.
Proof.
  intros [H1 H2]. unfold ReadReceiptSource, ReceiptSource_bytes.
  eapply reads_bind; [by apply reads_Read32|]. eapply reads_bind_end; [by apply reads_Read32|].
  destruct s; apply reads_ret.
Qed.

Lemma insert_receipt_last r l :
  Forall (λ x, Receipt_Type x ≤ Receipt_Type r) l → insert_receipt r l = l ++ [r].
Proof.
  induction 1 as [|x l Hx Hl IH]; simpl; [done|].
  destruct (Z.ltb_spec (Receipt_Type r) (Receipt_Type x)); [lia|]. by rewrite IH.
Qed.

Lemma map_emplace_last {K V} (ltb : K → K → bool) k (v : V) m :
  (∀ a b, ltb a b = true → ltb b a = false) →
  Forall (λ a, ltb a k = true) m.*1 → map_emplace ltb k v m = m ++ [(k, v)].
Proof.
  intros Hasym. induction m as [|[k' v'] m IH]; simpl; [done|].
  intros [Hk Hm]%Forall_cons. rewrite (Hasym _ _ Hk), Hk. by rewrite IH.
Qed.

(** Inserting the elements of a sorted list one after the other appends them. *)
Lemma foldl_snoc {A B} (key : B → A) (R : A → A → Prop) (ins : list B → B → list B) l acc :
  (∀ acc x, Forall (λ y, R (key y) (key x)) acc → ins acc x = acc ++ [x]) →
  StronglySorted R (key <$> acc ++ l) → foldl ins acc l = acc ++ l.
Proof.
  intros Hins. revert acc. induction l as [|x l IH]; intros acc Hs; simpl; [by rewrite app_nil_r|].
  rewrite fmap_app, fmap_cons in Hs. rewrite Hins.
  - rewrite IH; [by rewrite <-app_assoc|]. by rewrite <-app_assoc, fmap_app.
  - apply Forall_forall. intros y Hy. eapply StronglySorted_app_1_elem_of; [exact Hs| |constructor].
    by apply list_elem_of_fmap_2.
Qed.

Lemma roundtrips_receipt s r :
  wf_receipt r →
  roundtrips (write (take (Z.to_nat (Size r)) r)) (read_receipt s)
    {| statement_source := statement_source s; statement_receipts := insert_receipt r (statement_receipts s) |}.
Proof.
  intros [Hs Hmin]. unfold sizeof_Receipt in Hmin. rewrite take_sized by done.
  destruct (sized_split r Hs) as [Hr Hrange]; [lia|].
  assert (length (drop 4 r) = Z.to_nat (Size r) - 4)%nat as Hlen by (destruct Hs as [_ Hs]; rewrite length_drop; lia).
  apply roundtrips_write. rewrite Hr at 1. unfold read_receipt. eapply reads_bind; [by apply reads_Read32|].
  destruct (Z.ltb_spec (Size r) 4); [lia|]. rewrite <-Hlen.
  eapply reads_bind_end; [apply reads_read|]. rewrite <-Hr.
  intros rest. unfold lift_result, addReceipt, sizeof_Receipt. destruct (Z.ltb_spec (Size r) (4 + 4 + 2)); [lia|done].
Qed.

Lemma foldl_receipts s l :
  foldl (λ s r, {| statement_source := statement_source s; statement_receipts := insert_receipt r (statement_receipts s) |}) s l
  = {| statement_source := statement_source s;
       statement_receipts := foldl (λ acc r, insert_receipt r acc) (statement_receipts s) l |}.
Proof. revert s. induction l as [|r l IH]; intros s; simpl; [by destruct s|]. by rewrite IH. Qed.

Lemma roundtrips_Statement m s :
  wf_Statement s →
  roundtrips (WriteStatement (statement_source s) s) (ReadStatement m) (map_emplace ReceiptSource_ltb (statement_source s) s m).
Proof.
  intros Hs. unfold WriteStatement, ReadStatement.
  eapply roundtrips_bind; [apply roundtrips_write, reads_ReceiptSource, Hs|]. simpl.
  apply roundtrips_cast; [apply Hs|].
  eapply roundtrips_bind; [apply roundtrips_write, reads_Read32; unfold in_range; split; [lia|apply Hs]|]. simpl.
  rewrite Nat2Z.id. apply (roundtrips_end _ _ (λ st, map_emplace ReceiptSource_ltb (statement_source s) st m)).
  apply (roundtrips_times (λ s r, {| statement_source := statement_source s;
    statement_receipts := insert_receipt r (statement_receipts s) |})).
  - intros st r Hr. apply roundtrips_receipt.
    destruct Hs as [_ Hs _ _]. by eapply Forall_forall in Hs.
  - rewrite foldl_receipts; simpl. rewrite (foldl_snoc Receipt_Type Z.le); [by destruct s| |].
    + intros acc x Hx. by apply insert_receipt_last.
    + simpl. destruct Hs as [_ _ Hs _]. clear -Hs. induction Hs as [|x l Hs IH Hx]; simpl; constructor; [done|].
      by apply Forall_fmap.
Qed.

Lemma foldl_resolutions {K R} (s : ResolutionStatement K R) l :
  foldl (λ s e, addResolution (fst e) (snd e) s) s l
  = {| unresolved := unresolved s; resolution_entries := resolution_entries s ++ l |}.
Proof.
  revert s. induction l as [|[r src] l IH]; intros s; simpl; [rewrite app_nil_r; by destruct s|].
  rewrite IH. simpl. by rewrite <-app_assoc.
Qed.

(** Resolution statements, for every way of writing keys and values. *)
Section resolutions.
Context {K R : Type} (ltb : K → K → bool).
Context (wf_key : K → Prop) (wf_value : R → Prop).
Context (key_bytes : K → list Z) (value_bytes : R → list Z) (read_key : Reader K) (read_value : Reader R).
Hypothesis reads_key : ∀ k, wf_key k → reads read_key (key_bytes k) k.
Hypothesis reads_value : ∀ v, wf_value v → reads read_value (value_bytes v) v.

Lemma roundtrips_Resolution m (s : ResolutionStatement K R) :
  wf_Resolution wf_key wf_value s →
  roundtrips (WriteResolutionStatement key_bytes value_bytes (unresolved s) s)
    (ReadResolutionStatement ltb read_key read_value m) (map_emplace ltb (unresolved s) s m).
Proof.
  intros Hs. unfold WriteResolutionStatement, ReadResolutionStatement.
  eapply roundtrips_bind; [apply roundtrips_write, reads_key, Hs|]. simpl.
  apply roundtrips_cast; [apply Hs|].
  eapply roundtrips_bind; [apply roundtrips_write, reads_Read32; unfold in_range; split; [lia|apply Hs]|]. simpl.
  rewrite Nat2Z.id. apply (roundtrips_end _ _ (λ st, map_emplace ltb (unresolved s) st m)).
  apply (roundtrips_times (λ s e, addResolution (fst e) (snd e) s)); [|rewrite foldl_resolutions; by destruct s].
  intros st [v src] He. apply roundtrips_write. simpl.
  destruct Hs as [_ Hs _]. eapply Forall_forall in Hs as [Hv Hsrc]; [|exact He]. simpl in *.
  eapply reads_bind; [by apply reads_value|]. eapply reads_bind_end; [by apply reads_ReceiptSource|]. apply reads_ret.
Qed.

End resolutions.

Lemma roundtrips_Statements {K V} (ltb : K → K → bool) (key_of : V → K) wf_value
    (w : K → V → Writer unit) (r : list (K * V) → Reader (list (K * V))) m :
  (∀ a b, ltb a b = true → ltb b a = false) →
  (∀ acc v, wf_value v → roundtrips (w (key_of v) v) (r acc) (map_emplace ltb (key_of v) v acc)) →
  wf_map ltb key_of wf_value m → roundtrips (WriteStatements w m) (ReadStatements r) m.
Proof.
  intros Hasym Hr [Hsorted Hall Hsize]. unfold WriteStatements, ReadStatements.
  apply roundtrips_cast; [done|].
  eapply roundtrips_bind; [apply roundtrips_write, reads_Read32; unfold in_range; lia|]. simpl. rewrite Nat2Z.id.
  apply (roundtrips_times (λ acc p, map_emplace ltb (fst p) (snd p) acc)).
  - intros acc [k v] Hin. simpl.
    eapply Forall_forall in Hall as [Hk Hv]; [|exact Hin]. simpl in *. subst k. by apply Hr.
  - rewrite (foldl_snoc fst (λ a b, ltb a b = true)); [done| |done].
    intros acc [k v] Hacc. apply map_emplace_last; [done|]. by apply Forall_fmap.
Qed.

Lemma ReceiptSource_ltb_asym a b : ReceiptSource_ltb a b = true → ReceiptSource_ltb b a = false.
Proof.
  unfold ReceiptSource_ltb. destruct a as [a1 a2], b as [b1 b2]; simpl.
  rewrite orb_true_iff, orb_false_iff, andb_true_iff, andb_false_iff, !Z.ltb_lt, !Z.ltb_ge, Z.eqb_eq, Z.eqb_neq. lia.
Qed.

Lemma bytes_ltb_asym a b : bytes_ltb a b = true → bytes_ltb b a = false.
Proof.
  revert b. induction a as [|x a IH]; intros [|y b]; simpl; try done.
  destruct (Z.ltb_spec x y), (Z.ltb_spec y x); try done; try lia. apply IH.
Qed.

Lemma reads_address a : is_address a → reads (read Address_Decoded_Size) a a.
Proof. unfold is_address. intros <-. apply reads_read. Qed.

(** Statements are read back as they were written. *)
Lemma BlockStatement_roundtrips s : wf_BlockStatement s → roundtrips (WriteBlockStatement s) ReadBlockStatement s.
Proof.
  intros [H1 H2 H3 H4]. unfold WriteBlockStatement, ReadBlockStatement.
  eapply roundtrips_bind.
  { eapply roundtrips_Statements; [apply ReceiptSource_ltb_asym|apply roundtrips_Statement|exact H1]. }
  eapply roundtrips_bind.
  { eapply roundtrips_Statements; [apply bytes_ltb_asym| |exact H2].
    intros acc v Hv. eapply roundtrips_Resolution; [apply reads_address..|done]. }
  eapply roundtrips_bind.
  { eapply roundtrips_Statements; [|  |exact H3].
    - intros a b. rewrite Z.ltb_lt, Z.ltb_ge. lia.
    - intros acc v Hv. eapply roundtrips_Resolution; [apply reads_Read64..|done]. }
  destruct s as [s1 s2 s3 s4]. simpl in *. apply (roundtrips_end _ _ (λ p, Build_BlockStatement s1 s2 s3 p)).
  eapply roundtrips_Statements; [apply ReceiptSource_ltb_asym|apply roundtrips_Statement|exact H4].
Qed.

(** * Block elements *)

Lemma split_hashes_concat l : Forall is_hash l → split_hashes (length l) (concat l) = l.
Proof.
  induction 1 as [|h l Hh Hl IH]; simpl; [done|]. unfold is_hash in Hh.
  rewrite <-Hh. rewrite take_app_length, drop_app_length. by rewrite IH.
Qed.

Lemma concat_hashes_length l : Forall is_hash l → length (concat l) = (length l * Hash256_Size)%nat.
Proof.
  induction 1 as [|h l Hh Hl IH]; [done|]. cbn [concat length]. rewrite length_app, IH, Hh. unfold Hash256_Size. lia.
Qed.

(** The two hashes of every transaction, in order. *)
Definition transaction_hashes (l : list TransactionElement) : list (list Z) :=
  concat ((λ t, [te_EntityHash t; te_MerkleComponentHash t]) <$> l).

Lemma transaction_hashes_facts l :
  Forall (λ t, is_hash (te_EntityHash t) ∧ is_hash (te_MerkleComponentHash t)) l →
  Forall is_hash (transaction_hashes l) ∧ length (transaction_hashes l) = (2 * length l)%nat
  ∧ concat (transaction_hashes l) = concat ((λ t, te_EntityHash t ++ te_MerkleComponentHash t) <$> l).
Proof.
  induction 1 as [|t l [H1 H2] Hl (IH1 & IH2 & IH3)]; [done|]. unfold transaction_hashes in *. cbn.
  split; [by repeat constructor|]. split; [rewrite IH2; lia|]. by rewrite IH3, <-app_assoc.
Qed.

Lemma attach_transaction_hashes l :
  attach_hashes (te_Transaction <$> l) (transaction_hashes l)
  = Ok ((λ t, {| te_Transaction := te_Transaction t; te_EntityHash := te_EntityHash t;
                 te_MerkleComponentHash := te_MerkleComponentHash t;
                 te_OptionalExtractedAddresses := None |}) <$> l).
Proof.
  induction l as [|t l IH]; [done|]. unfold transaction_hashes in *. cbn. by rewrite IH.
Qed.

Lemma roundtrips_TransactionHashes e b :
  wf_BlockElement e → be_Block b = be_Block e →
  roundtrips (WriteTransactionHashes (be_Transactions e)) (ReadTransactionHashes b)
    {| be_Block := be_Block b; be_EntityHash := be_EntityHash b; be_GenerationHash := be_GenerationHash b;
       be_SubCacheMerkleRoots := be_SubCacheMerkleRoots b;
       be_Transactions := be_Transactions (persisted e); be_OptionalStatement := be_OptionalStatement b |}.
Proof.
  intros He Hb. unfold WriteTransactionHashes, ReadTransactionHashes.
  destruct (transaction_hashes_facts _ (wf_block_transaction_hashes _ He)) as (Hh & Hlen & Hcat).
  pose proof (wf_block_transaction_count _ He) as Hn. change (2 ^ 31) with 2147483648 in Hn. rewrite <-Hcat.
  set (hs := transaction_hashes (be_Transactions e)) in *. set (n := length (be_Transactions e)) in *.
  rewrite (wrap_small 32 (Z.of_nat n)) by (unfold in_range; change (2 ^ 32) with 4294967296; lia).
  rewrite (wrap_small 32 (2 * Z.of_nat n)) by (unfold in_range; change (2 ^ 32) with 4294967296; lia).
  destruct (Z.ltb_spec (2 * Z.of_nat n) (2 * Z.of_nat n)); [lia|].
  eapply roundtrips_bind; [apply roundtrips_write, reads_Read32; unfold in_range; lia|]. cbv beta zeta.
  rewrite (wrap_small 32 (2 * Z.of_nat n)) by (unfold in_range; change (2 ^ 32) with 4294967296; lia).
  replace (Z.to_nat (2 * Z.of_nat n)) with (length hs) by lia.
  apply roundtrips_write. rewrite <-concat_hashes_length by done.
  eapply reads_bind_end; [apply reads_read|]. cbv beta. rewrite split_hashes_concat by done.
  intros rest. unfold mbind, exec_bind, lift_result. rewrite Hb, (wf_block_transactions _ He).
  unfold hs. by rewrite attach_transaction_hashes.
Qed.

Lemma reads_hash h : is_hash h → reads (read Hash256_Size) h h.
Proof. unfold is_hash. intros <-. apply reads_read. Qed.

Lemma roundtrips_SubCacheMerkleRoots roots :
  Forall is_hash roots → Z.of_nat (length roots) < 2 ^ 32 →
  roundtrips (WriteSubCacheMerkleRoots roots) ReadSubCacheMerkleRoots roots.
Proof.
  intros Hr Hn. unfold WriteSubCacheMerkleRoots, ReadSubCacheMerkleRoots.
  rewrite wrap_small by (unfold in_range; lia).
  eapply roundtrips_bind; [apply roundtrips_write, reads_Read32; unfold in_range; lia|]. cbv beta.
  rewrite Nat2Z.id, <-concat_hashes_length by done. rewrite take_ge by done.
  apply roundtrips_write. rewrite concat_hashes_length, <-concat_hashes_length by done.
  eapply reads_bind_end; [apply reads_read|]. rewrite split_hashes_concat by done. apply reads_ret.
Qed.

Lemma reads_block b h1 h2 :
  sized b → sizeof_Block ≤ Size b → is_hash h1 → is_hash h2 →
  reads ReadBlockElementImpl ((b ++ h1) ++ h2) (Build_BlockElement b h1 h2 [] [] None).
Proof.
  intros Hs Hmin H1 H2. assert (4 ≤ Size b) as H4 by (change sizeof_Block with 302 in Hmin; lia).
  destruct (sized_split _ Hs H4) as [Hb Hrange]. destruct Hs as [_ Hlen].
  unfold ReadBlockElementImpl. rewrite Hb at 1. rewrite <-!app_assoc.
  eapply reads_bind; [by apply reads_Read32|]. cbv beta. destruct (Z.ltb_spec (Size b) sizeof_Block); [lia|].
  eapply reads_bind.
  { replace (Z.to_nat (Size b) - 4)%nat with (length (drop 4 b)) by (rewrite length_drop; lia). apply reads_read. }
  eapply reads_bind; [by apply reads_hash|]. eapply reads_bind_end; [by apply reads_hash|].
  rewrite <-Hb. apply reads_ret.
Qed.

(** The parts of a serialized element: the block comes first. *)
Lemma WriteBlockElement_parts e :
  wf_BlockElement e →
  ∃ b4 b5, writes (WriteBlockElement e) ([be_Block e] ++ [be_EntityHash e] ++ [be_GenerationHash e] ++ b4 ++ b5)
    ∧ reads (ReadTransactionHashes (Build_BlockElement (be_Block e) (be_EntityHash e) (be_GenerationHash e) [] [] None)) (concat b4)
        (Build_BlockElement (be_Block e) (be_EntityHash e) (be_GenerationHash e) [] (be_Transactions (persisted e)) None)
    ∧ reads ReadSubCacheMerkleRoots (concat b5) (be_SubCacheMerkleRoots e).
Proof.
  intros He. unfold WriteBlockElement. rewrite take_sized by apply He. destruct (wf_block_roots _ He) as [Hr Hn].
  set (base := Build_BlockElement (be_Block e) (be_EntityHash e) (be_GenerationHash e) [] [] None).
  destruct (roundtrips_TransactionHashes e base He eq_refl) as (b4 & Hw4 & Hr4).
  destruct (roundtrips_SubCacheMerkleRoots _ Hr Hn) as (b5 & Hw5 & Hr5).
  exists b4, b5. split_and!; [auto 10 with writer|done|done].
Qed.

(** A block element is read back as it was written. *)
Lemma BlockElement_roundtrips e :
  wf_BlockElement e → roundtrips (WriteBlockElement e) ReadBlockElement (persisted e).
Proof.
  intros He. pose proof (wf_block_sized _ He) as Hs. pose proof (wf_block_size _ He) as Hmin.
  destruct (wf_block_hashes _ He) as [Hh1 Hh2]. destruct (WriteBlockElement_parts e He) as (b4 & b5 & Hw & Hr4 & Hr5).
  eexists. split; [exact Hw|]. unfold ReadBlockElement. rewrite !concat_app, app_assoc, app_assoc. simpl concat. rewrite !app_nil_r.
  eapply reads_bind; [apply reads_block; auto; lia|].
  eapply reads_bind; [exact Hr4|]. eapply reads_bind_end; [exact Hr5|]. apply reads_ret.
Qed.

(** Blocks and their statements are read back as they were written: from the
    bytes the serializer of elements writes, followed by anything, the block,
    its hashes, its roots and the hashes of its transactions are read, and
    nothing of what follows; and likewise for the statement, with its maps and
    the order of its receipts. *)
Theorem serialized_elements_roundtrip e s rest :
  wf_BlockElement e → wf_BlockStatement s →
  ReadBlockElement (concat (fst (WriteBlockElement e [])) ++ rest) = (rest, Ok (persisted e))
  ∧ ReadBlockStatement (concat (fst (WriteBlockStatement s [])) ++ rest) = (rest, Ok s).
Proof.
  intros He Hs. destruct (BlockElement_roundtrips e He) as (b1 & W1 & R1), (BlockStatement_roundtrips s Hs) as (b2 & W2 & R2).
  rewrite (W1 []), (W2 []). by split.
Qed.

End Elements.
