(* ===== verification/FileSystem.v ===== *)
(** Model of the directory a block storage keeps its files in, of the calls
    that change it, and of the file classes of catapult/io on top of them
    (RawFile.{h,cpp}, IndexFile.cpp, FilesystemUtils.cpp).

    A data directory holds files and chunk directories of files.  Every call
    that changes it is an operation of the type [FsOp]; a program issues
    operations, which act at once and are logged.  The log is not part of the
    program: it says in which states the directory can be found when the
    process stops in the middle ([crashed]).  Operations are atomic, but for
    writes of more than eight bytes, of which any prefix may have reached the
    file.  The directory exists, and no call fails for want of space or
    permission. *)
From stdpp Require Import base tactics numbers option list gmap strings.
From S2P Require Import Prelude Streams.

Local Open Scope Z_scope.

Module FileSystem.
Import Stream.

(** * Directories *)

Inductive path :=
| RootFile (name : string)
| ChunkFile (directory name : string).

#[global] Instance path_eq_dec : EqDecision path.
Proof. solve_decision. Defined.

Record Directory := {
  root_files : gmap string (list Z);
  chunk_directories : gmap string (gmap string (list Z));
}.

Definition empty_Directory : Directory := {| root_files := ∅; chunk_directories := ∅ |}.

Definition get_file (s : Directory) (p : path) : option (list Z) :=
  match p with
  | RootFile name => root_files s !! name
  | ChunkFile directory name => chunk_directories s !! directory ≫= λ d, d !! name
  end.

(** [is_regular_file]. *)
Definition is_regular_file (s : Directory) (p : path) : bool := bool_decide (is_Some (get_file s p)).

Definition has_parent (s : Directory) (p : path) : bool :=
  match p with
  | RootFile _ => true
  | ChunkFile directory _ => bool_decide (is_Some (chunk_directories s !! directory))
  end.

(** Changes a file of an existing directory. *)
Definition alter_file (f : option (list Z) → option (list Z)) (p : path) (s : Directory) : Directory :=
  match p with
  | RootFile name => {| root_files := partial_alter f name (root_files s); chunk_directories := chunk_directories s |}
  | ChunkFile directory name =>
      {| root_files := root_files s;
         chunk_directories := alter (partial_alter f name) directory (chunk_directories s) |}
  end.

(** * Operations *)

Inductive FsOp :=
| OpCreate (p : path)
| OpWrite (p : path) (offset : nat) (data : list Z)
| OpResize (p : path) (size : nat)
| OpRemove (p : path)
| OpRename (from to : string)
| OpLink (from to : string)
| OpMakeDirectory (directory : string)
| OpRemoveDirectory (directory : string).

(** A write leaves a hole of zeros when it starts behind the end. *)
Definition file_write (offset : nat) (data content : list Z) : list Z :=
  take offset (content ++ replicate (offset - length content) 0) ++ data ++ drop (offset + length data) content.

Definition file_resize (size : nat) (content : list Z) : list Z :=
  take size content ++ replicate (size - length content) 0.

Definition apply_op (op : FsOp) (s : Directory) : Directory :=
  match op with
  | OpCreate p => alter_file (λ c, Some (default [] c)) p s
  | OpWrite p offset data => alter_file (fmap (file_write offset data)) p s
  | OpResize p size => alter_file (fmap (file_resize size)) p s
  | OpRemove p => alter_file (λ _, None) p s
  | OpRename from to =>
      {| root_files := match root_files s !! from with
                       | Some c => <[to := c]> (delete from (root_files s))
                       | None => root_files s
                       end;
         chunk_directories := chunk_directories s |}
  | OpLink from to =>
      {| root_files := match root_files s !! from, root_files s !! to with
                       | Some c, None => <[to := c]> (root_files s)
                       | _, _ => root_files s
                       end;
         chunk_directories := chunk_directories s |}
  | OpMakeDirectory directory =>
      {| root_files := root_files s;
         chunk_directories := partial_alter (λ d, Some (default ∅ d)) directory (chunk_directories s) |}
  | OpRemoveDirectory directory =>
      {| root_files := root_files s; chunk_directories := delete directory (chunk_directories s) |}
  end.

Definition replay (ops : list FsOp) (s : Directory) : Directory := foldl (λ s op, apply_op op s) s ops.

(** * Interruptions *)

Definition Atomic_Write_Size : nat := 8.

(** What an interrupted operation may leave: a prefix of a long write. *)
Inductive torn : FsOp → Directory → Directory → Prop :=
| torn_write p offset data k s :
    (Atomic_Write_Size < length data)%nat →
    torn (OpWrite p offset data) s (apply_op (OpWrite p offset (take k data)) s).

(** [crashed s ops s']: a process that issues [ops] from [s] may be stopped in [s']. *)
Inductive crashed : Directory → list FsOp → Directory → Prop :=
| crashed_here s ops : crashed s ops s
| crashed_torn s op ops s' : torn op s s' → crashed s (op :: ops) s'
| crashed_later s op ops s' : crashed (apply_op op s) ops s' → crashed s (op :: ops) s'.

(** * Programs *)

(** The directory with the operations issued so far. *)
Record Disk := { content : Directory; log : list FsOp }.

Abbreviation IO := (Exec Disk).

Definition issue (op : FsOp) : IO unit :=
  λ d, ({| content := apply_op op (content d); log := log d ++ [op] |}, Ok tt).

Definition disk_gets {A} (f : Directory → A) : IO A := gets (λ d, f (content d)).

(** * RawFile *)

Inductive OpenMode := Read_Only | Read_Write | Read_Append.

#[global] Instance OpenMode_eq_dec : EqDecision OpenMode.
Proof. solve_decision. Defined.

(** An open file: its name, and the size and position the object keeps. *)
Record RawFile := { m_pathname : path; m_fileSize : nat; m_position : nat }.

(** The constructor: [O_CREAT] and [O_TRUNC] as the mode says. *)
Definition open (p : path) (mode : OpenMode) : IO RawFile :=
  existing ← disk_gets (λ s, get_file s p);
  parent ← disk_gets (λ s, has_parent s p);
  match existing, mode with
  | Some c, Read_Write =>
      issue (OpResize p 0) ≫= λ _, mret {| m_pathname := p; m_fileSize := 0; m_position := 0 |}
  | Some c, _ => mret {| m_pathname := p; m_fileSize := length c; m_position := 0 |}
  | None, Read_Only => throw file_io_error
  | None, _ =>
      if (parent : bool) then
        issue (OpCreate p) ≫= λ _, mret {| m_pathname := p; m_fileSize := 0; m_position := 0 |}
      else throw file_io_error
  end.

Definition rf_write (data : list Z) (f : RawFile) : IO RawFile :=
  issue (OpWrite (m_pathname f) (m_position f) data) ≫= λ _,
  let position := (m_position f + length data)%nat in
  mret {| m_pathname := m_pathname f;
          m_fileSize := Nat.max (m_fileSize f) position;
          m_position := position |}.

(** The bytes at [offset] of a file, when there are [n] of them. *)
Definition slice (offset n : nat) (c : list Z) : option (list Z) :=
  if decide (offset + n ≤ length c)%nat then Some (take n (drop offset c)) else None.

Definition rf_read (n : nat) (f : RawFile) : IO (list Z * RawFile) :=
  c ← disk_gets (λ s, get_file s (m_pathname f));
  match c ≫= slice (m_position f) n with
  | Some bytes =>
      mret (bytes, {| m_pathname := m_pathname f; m_fileSize := m_fileSize f; m_position := m_position f + n |})
  | None => throw file_io_error
  end.

(** Seeking past the end is refused. *)
Definition rf_seek (position : nat) (f : RawFile) : IO RawFile :=
  if decide (m_fileSize f < position)%nat then throw file_io_error
  else mret {| m_pathname := m_pathname f; m_fileSize := m_fileSize f; m_position := position |}.

(** * IndexFile *)

Definition index_exists (p : path) : IO bool := disk_gets (λ s, is_regular_file s p).

Definition index_get (p : path) : IO Z :=
  indexFile ← open p Read_Only;
  if decide (8%nat = m_fileSize indexFile) then
    r ← rf_read 8 indexFile; mret (le_value (fst r))
  else mret 0.

Definition index_set (p : path) (value : Z) : IO unit :=
  indexFile ← open p Read_Append;
  indexFile ← rf_seek 0 indexFile;
  rf_write (Write64 value) indexFile ≫= λ _, mret tt.

Definition index_increment (p : path) : IO Z :=
  e ← index_exists p;
  if negb e then index_set p 0 ≫= λ _, mret 0
  else
    indexFile ← open p Read_Append;
    r ← rf_read 8 indexFile;
    let value := add64 (le_value (fst r)) 1 in
    indexFile ← rf_seek 0 (snd r);
    rf_write (Write64 value) indexFile ≫= λ _, mret value.

(** * FilesystemUtils *)

(** [remove_all] of a directory: its files in the order of the iteration, then
    the directory itself. *)
Definition remove_directory (order : list string → list string) (directory : string) : IO unit :=
  files ← disk_gets (λ s, order (map_to_list (default ∅ (chunk_directories s !! directory))).*1);
  for_each (λ name, issue (OpRemove (ChunkFile directory name))) files ≫= λ _,
  issue (OpRemoveDirectory directory).

(** [remove_all] of an entry of the data directory. *)
Definition remove_all (order : list string → list string) (name : string) : IO unit :=
  file ← disk_gets (λ s, is_regular_file s (RootFile name));
  (if (file : bool) then issue (OpRemove (RootFile name)) else mret tt) ≫= λ _,
  directory ← disk_gets (λ s, bool_decide (is_Some (chunk_directories s !! name)));
  if (directory : bool) then remove_directory order name else mret tt.

Definition PurgeDirectory (order : list string → list string) : IO unit :=
  entries ← disk_gets (λ s, order ((map_to_list (root_files s)).*1 ++ (map_to_list (chunk_directories s)).*1));
  for_each (remove_all order) entries.

(** * Files after an operation *)

Lemma get_file_parent s p c : get_file s p = Some c → has_parent s p = true.
Proof.
  destruct p as [name|directory name]; simpl; [done|].
  by destruct (chunk_directories s !! directory).
Qed.

Lemma get_file_alter f p s :
  has_parent s p = true → get_file (alter_file f p s) p = f (get_file s p).
Proof.
  destruct p as [name|directory name]; simpl; intros Hp.
  - by rewrite lookup_partial_alter_eq.
  - apply bool_decide_eq_true in Hp as [d Hd]. rewrite lookup_alter_eq, Hd. simpl.
    by rewrite lookup_partial_alter_eq.
Qed.

Lemma get_file_alter_ne f p q s : p ≠ q → get_file (alter_file f p s) q = get_file s q.
Proof.
  destruct p as [name|directory name], q as [name'|directory' name']; simpl; intros Hne; try done.
  - by rewrite lookup_partial_alter_ne by congruence.
  - destruct (decide (directory = directory')) as [->|]; [|by rewrite lookup_alter_ne].
    rewrite lookup_alter_eq. destruct (chunk_directories s !! directory') as [d|]; simpl; [|done].
    by rewrite lookup_partial_alter_ne by congruence.
Qed.

Lemma chunk_directories_alter f p s directory :
  is_Some (chunk_directories (alter_file f p s) !! directory) ↔ is_Some (chunk_directories s !! directory).
Proof.
  destruct p as [name|directory' name]; simpl; [done|].
  destruct (decide (directory = directory')) as [->|]; [|by rewrite lookup_alter_ne].
  rewrite lookup_alter_eq. by rewrite fmap_is_Some.
Qed.

Lemma is_regular_file_true s p c : get_file s p = Some c → is_regular_file s p = true.
Proof. intros Hc. apply bool_decide_eq_true. eauto. Qed.

Lemma is_regular_file_false s p : get_file s p = None → is_regular_file s p = false.
Proof. intros Hc. apply bool_decide_eq_false. rewrite Hc. by intros [? ?]. Qed.

(** * Contents *)

Lemma file_write_inside offset data c :
  (offset ≤ length c)%nat → file_write offset data c = take offset c ++ data ++ drop (offset + length data) c.
Proof.
  intros Ho. unfold file_write. rewrite take_app_le by done. done.
Qed.

Lemma file_write_end data c : file_write (length c) data c = c ++ data.
Proof. rewrite file_write_inside by done. rewrite take_ge, drop_ge, app_nil_r by lia. done. Qed.

Lemma file_write_prefix n offset data c :
  (n ≤ offset)%nat → (offset ≤ length c)%nat → take n (file_write offset data c) = take n c.
Proof.
  intros Hn Ho. rewrite file_write_inside by done.
  rewrite take_app_le by (rewrite length_take; lia). rewrite take_take. f_equal. lia.
Qed.

Lemma file_write_length offset data c :
  (offset ≤ length c)%nat → length (file_write offset data c) = Nat.max (length c) (offset + length data).
Proof.
  intros Ho. rewrite file_write_inside by done. rewrite !length_app, length_take, length_drop. lia.
Qed.

Lemma file_resize_take n c : (n ≤ length c)%nat → file_resize n c = take n c.
Proof. intros Hn. unfold file_resize. replace (n - length c)%nat with 0%nat by lia. simpl. by rewrite app_nil_r. Qed.

Lemma slice_prefix offset n k c c' :
  (offset + n ≤ k)%nat → (k ≤ length c)%nat → (k ≤ length c')%nat → take k c = take k c' → slice offset n c = slice offset n c'.
Proof.
  intros Hk Hc Hc' Heq. unfold slice. rewrite !decide_True by lia. f_equal.
  rewrite <-(take_drop k c), <-(take_drop k c'), Heq.
  rewrite !drop_app_le by (rewrite length_take; lia).
  rewrite !take_app_le by (rewrite length_drop, length_take; lia). done.
Qed.

Lemma slice_app_end c data rest : slice (length c) (length data) (c ++ data ++ rest) = Some data.
Proof.
  unfold slice. rewrite decide_True by (rewrite !length_app; lia). by rewrite drop_app_length, take_app_length.
Qed.

Lemma slice_length offset n c b : slice offset n c = Some b → length b = n ∧ (offset + n ≤ length c)%nat.
Proof. unfold slice. case_decide; [|done]. intros [= <-]. rewrite length_take, length_drop. lia. Qed.

(** * Weakest preconditions with crash conditions *)

(** The state of a program that works on a directory. *)
Class HasDisk (S : Type) := the_disk : S → Disk.
#[export] Instance Disk_HasDisk : HasDisk Disk := id.

(** [wp m Q C st]: from [st] the program ends in a state that satisfies [Q], and
    wherever it is stopped the directory satisfies [C]. *)
Definition wp {St : Type} `{!HasDisk St} {A} (m : Exec St A) (Q : result A → St → Prop) (C : Directory → Prop) (st : St) : Prop :=
  ∃ ops,
    log (the_disk (fst (m st))) = log (the_disk st) ++ ops
    ∧ content (the_disk (fst (m st))) = replay ops (content (the_disk st))
    ∧ Q (snd (m st)) (fst (m st))
    ∧ ∀ s, crashed (content (the_disk st)) ops s → C s.

Lemma crashed_nil s s' : crashed s [] s' → s' = s.
Proof. by inversion 1. Qed.

Lemma crashed_app s ops1 ops2 s' :
  crashed s (ops1 ++ ops2) s' → crashed s ops1 s' ∨ crashed (replay ops1 s) ops2 s'.
Proof.
  revert s. induction ops1 as [|op ops1 IH]; intros s; simpl; [by right|].
  inversion 1; subst.
  - left. constructor.
  - left. by apply crashed_torn.
  - match goal with H : crashed _ (_ ++ _) _ |- _ => apply IH in H as [|] end; [left; by apply crashed_later|by right].
Qed.

Lemma crashed_end s ops : crashed s ops (replay ops s).
Proof. revert s. induction ops as [|op ops IH]; intros s; simpl; [constructor|]. apply crashed_later, IH. Qed.

Section wp.
Context {St : Type} `{!HasDisk St}.
Implicit Types (st : St) (C : Directory → Prop).

Lemma wp_pure {A} (m : Exec St A) Q C st :
  the_disk (fst (m st)) = the_disk st → C (content (the_disk st)) → Q (snd (m st)) (fst (m st)) → wp m Q C st.
Proof.
  intros Hd HC HQ. exists []. rewrite Hd, app_nil_r. split_and!; [done..|]. intros s ->%crashed_nil. done.
Qed.

Lemma wp_ret {A} (a : A) Q C st : C (content (the_disk st)) → Q (Ok a) st → wp (mret a) Q C st.
Proof. intros. by apply wp_pure. Qed.

Lemma wp_throw {A} e (Q : result A → St → Prop) C st : C (content (the_disk st)) → Q (Throw e) st → wp (throw e) Q C st.
Proof. intros. by apply wp_pure. Qed.

Lemma wp_gets {A} (f : St → A) Q C st : C (content (the_disk st)) → Q (Ok (f st)) st → wp (gets f) Q C st.
Proof. intros. by apply wp_pure. Qed.

Lemma wp_bind {A B} (m : Exec St A) (f : A → Exec St B) Q C st :
  wp m (λ r st', match r with Ok a => wp (f a) Q C st' | Throw e => Q (Throw e) st' end) C st →
  wp (m ≫= f) Q C st.
Proof.
  intros (ops & Hlog & Hcontent & HQ & HC). unfold wp, mbind, exec_bind.
  destruct (m st) as [st' [a|e]]; simpl in *.
  - destruct HQ as (ops' & Hlog' & Hcontent' & HQ & HC'). exists (ops ++ ops').
    rewrite Hlog', Hlog, Hcontent', Hcontent, app_assoc. split_and!; [done| |done|].
    + unfold replay. by rewrite foldl_app.
    + intros s [Hs|Hs]%crashed_app; [by apply HC|]. apply HC'. by rewrite Hcontent.
  - exists ops. done.
Qed.

Lemma wp_mono {A} (m : Exec St A) (Q Q' : result A → St → Prop) C C' st :
  wp m Q C st → (∀ r st', Q r st' → C (content (the_disk st')) → Q' r st') → (∀ s, C s → C' s) → wp m Q' C' st.
Proof.
  intros (ops & Hlog & Hcontent & HQ & HC) Hq Hc. exists ops. split_and!; [done..| |auto].
  apply Hq; [done|]. rewrite Hcontent. apply HC, crashed_end.
Qed.

(** The final state is one the program may be stopped in. *)
Lemma wp_end {A} (m : Exec St A) Q C st : wp m Q C st → Q (snd (m st)) (fst (m st)) ∧ C (content (the_disk (fst (m st)))).
Proof. intros (ops & _ & Hcontent & HQ & HC). split; [done|]. rewrite Hcontent. apply HC, crashed_end. Qed.

(** A loop, with an invariant on what is left to do. *)
Lemma wp_for_each {B} (f : B → Exec St unit) (I : list B → St → Prop) Q C l st :
  (∀ x l st, I (x :: l) st → wp (f x) (λ r st', r = Ok tt ∧ I l st') C st) →
  (∀ st, I [] st → C (content (the_disk st)) ∧ Q (Ok tt) st) →
  I l st → wp (for_each f l) Q C st.
Proof.
  intros Hstep Hend. revert st. induction l as [|x l IH]; intros st HI; simpl.
  - destruct (Hend st HI). by apply wp_ret.
  - apply wp_bind. eapply wp_mono; [by apply Hstep| |done]. intros r st' [-> HI'] _. by apply IH.
Qed.

End wp.

Lemma wp_disk_gets {A} (f : Directory → A) Q C (d : Disk) :
  C (content d) → Q (Ok (f (content d))) d → wp (disk_gets f) Q C d.
Proof. intros. by apply (wp_gets (St := Disk)). Qed.

Lemma wp_issue op Q C (d : Disk) :
  C (content d) → C (apply_op op (content d)) → (∀ s, torn op (content d) s → C s) →
  Q (Ok tt) {| content := apply_op op (content d); log := log d ++ [op] |} → wp (issue op) Q C d.
Proof.
  intros H0 H1 Ht HQ. exists [op]. split_and!; [done..|].
  intros s Hs. inversion Hs; subst; [done|by apply Ht|]. match goal with H : crashed _ [] _ |- _ => apply crashed_nil in H as -> end.
  done.
Qed.

(** Operations other than long writes are atomic. *)
Definition atomic (op : FsOp) : Prop :=
  match op with OpWrite _ _ data => (length data ≤ Atomic_Write_Size)%nat | _ => True end.

Lemma wp_issue_atomic op Q C (d : Disk) :
  atomic op → C (content d) → C (apply_op op (content d)) →
  Q (Ok tt) {| content := apply_op op (content d); log := log d ++ [op] |} → wp (issue op) Q C d.
Proof.
  intros Ha H0 H1 HQ. apply wp_issue; try done. intros s Hs. destruct Hs. simpl in Ha. lia.
Qed.

End FileSystem.
