(* ===== verification/FileBlockStorage.v ===== *)
(** Model of the file based block storage
    (catapult/io/FileBlockStorage.{h,cpp}): chunk directories of 65536 blocks
    with their index, block, statement and hash files, the cached file handles
    of the writers, the rollback journal with its validation and the recovery
    of an interrupted rollback.  Files of the format before chunks (one file
    per block) are read where a block has no chunk index entry.

    The calling process holds the mutex of the storage, so that its operations
    run one after the other; another process may hold the lock file.  The
    theorems are in BlockStorageCrash and BlockStorageRefinement. *)
From stdpp Require Import base tactics numbers option list gmap strings.
From S2P Require Import Prelude Streams BlockElements FileSystem.

Local Open Scope Z_scope.

Module FileBlockStorage.
Import Stream Elements FileSystem.

Definition Unset_Directory_Id : Z := 2 ^ 64 - 1.
Definition Files_Per_Directory : Z := 65536.

(** * Names *)

Definition digit (d : Z) : Ascii.ascii := Ascii.ascii_of_nat (48 + Z.to_nat d).

(** Decimal digits; twenty are enough for 64 bits. *)
Fixpoint decimal (fuel : nat) (n : Z) (acc : string) : string :=
  match fuel with
  | O => acc
  | S fuel =>
      let acc := String (digit (n mod 10)) acc in
      if n / 10 =? 0 then acc else decimal fuel (n / 10) acc
  end.

Definition to_string (n : Z) : string := decimal 20 n EmptyString.

Fixpoint zeros (n : nat) (s : string) : string :=
  match n with O => s | S n => String (digit 0) (zeros n s) end.

(** [sprintf] with the format of five digits. *)
Definition sprintf_05 (n : Z) : string := let s := to_string n in zeros (5 - String.length s) s.

Definition GetDirectoryPath (height : Z) : string := sprintf_05 (height / Files_Per_Directory).
Definition GetBlocksDatPath (height : Z) : path := ChunkFile (GetDirectoryPath height) "blocks.dat".
Definition GetStatementsDatPath (height : Z) : path := ChunkFile (GetDirectoryPath height) "statements.dat".
Definition GetBlocksIdxPath (height : Z) : path := ChunkFile (GetDirectoryPath height) "blocks.idx".
Definition GetHashFilePath (height : Z) : path := ChunkFile (GetDirectoryPath height) "hashes.dat".

Definition GetBlockPath (height : Z) (extension : string) : path :=
  ChunkFile (GetDirectoryPath height) (sprintf_05 (height mod Files_Per_Directory) +:+ extension).
Definition Block_File_Extension : string := ".dat".
Definition Block_Statement_File_Extension : string := ".stmt".
Definition GetBlockStatementPath (height : Z) : path := GetBlockPath height Block_Statement_File_Extension.

Definition index_dat : path := RootFile "index.dat".
Definition rollback_journal : path := RootFile "rollback.journal".
Definition rollback_lock : path := RootFile "rollback.lock".

Definition isdigit (c : Ascii.ascii) : bool :=
  let n := Z.of_nat (Ascii.nat_of_ascii c) in (48 <=? n) && (n <=? 57).

Fixpoint all_digits (s : string) : bool :=
  match s with EmptyString => true | String c s => isdigit c && all_digits s end.

Fixpoint stoull (acc : Z) (s : string) : Z :=
  match s with
  | EmptyString => acc
  | String c s => stoull (10 * acc + (Z.of_nat (Ascii.nat_of_ascii c) - 48)) s
  end.

(** The name of a chunk directory has five digits. *)
Definition TryGetChunkId (filename : string) : option Z :=
  if negb (Nat.eqb (String.length filename) 5) then None
  else if all_digits filename then Some (stoull 0 filename) else None.

Definition is_journal_tmp (filename : string) : bool :=
  String.eqb filename "rollback.journal.tmp"
  || (String.prefix "rollback.journal." filename
      && String.eqb (String.substring (String.length filename - 4) 4 filename) ".tmp").

(** * Chunk index entries *)

Record BlockChunkIndexEntry := { blockOffset : Z; blockSize : Z; stmtOffset : Z; stmtSize : Z }.

Definition sizeof_Entry : nat := 16.

Definition entry_bytes (e : BlockChunkIndexEntry) : list Z :=
  Write32 (blockOffset e) ++ Write32 (blockSize e) ++ Write32 (stmtOffset e) ++ Write32 (stmtSize e).

Definition bytes_entry (b : list Z) : BlockChunkIndexEntry := {|
  blockOffset := field 0 4 b;
  blockSize := field 4 4 b;
  stmtOffset := field 8 4 b;
  stmtSize := field 12 4 b;
|}.

(** The position of a height in its chunk. *)
Definition chunk_index (height : Z) : nat := Z.to_nat (height mod Files_Per_Directory).

Definition HasChunkIndexEntry (s : Directory) (height : Z) : option BlockChunkIndexEntry :=
  idx ← get_file s (GetBlocksIdxPath height);
  b ← slice (chunk_index height * sizeof_Entry) sizeof_Entry idx;
  let entry := bytes_entry b in
  if 0 <? blockSize entry then Some entry else None.

(** * Rollback journal *)

Record RollbackJournalHeader := {
  magic : Z;
  version : Z;
  targetHeight : Z;
  previousHeight : Z;
  targetBlockEnd : Z;
  targetStmtEnd : Z;
  targetIndex : Z;
  padding : Z;
}.

Definition Rollback_Journal_Magic : Z := 0x5349524A.
Definition Rollback_Journal_Version : Z := 1.
Definition sizeof_JournalHeader : nat := 48.

Definition journal_bytes (h : RollbackJournalHeader) : list Z :=
  Write32 (magic h) ++ Write32 (version h) ++ Write64 (targetHeight h) ++ Write64 (previousHeight h)
  ++ Write64 (targetBlockEnd h) ++ Write64 (targetStmtEnd h) ++ Write32 (targetIndex h) ++ Write32 (padding h).

Definition bytes_journal (b : list Z) : RollbackJournalHeader := {|
  magic := field 0 4 b;
  version := field 4 4 b;
  targetHeight := field 8 8 b;
  previousHeight := field 16 8 b;
  targetBlockEnd := field 24 8 b;
  targetStmtEnd := field 32 8 b;
  targetIndex := field 40 4 b;
  padding := field 44 4 b;
|}.

Definition throw_if (b : bool) (e : exn) : IO unit := if b then throw e else mret tt.

(** The end of the last statement at or below [height] in its chunk. *)
Fixpoint last_stmt_end (fuel : nat) (s : Directory) (chunkId height : Z) : Z :=
  match fuel with
  | O => 0
  | S fuel =>
      if negb ((0 <? height) && (height / Files_Per_Directory =? chunkId)) then 0
      else match HasChunkIndexEntry s height with
           | Some entry =>
               if 0 <? stmtSize entry then stmtOffset entry + stmtSize entry
               else last_stmt_end fuel s chunkId (height - 1)
           | None => last_stmt_end fuel s chunkId (height - 1)
           end
  end.

(** A chunk has no more heights than the index of [height] tells. *)
Definition find_stmt_end (s : Directory) (height : Z) : Z :=
  last_stmt_end (S (chunk_index height)) s (height / Files_Per_Directory) height.

Definition index_height : IO Z :=
  e ← index_exists index_dat;
  if (e : bool) then index_get index_dat else mret 0.

Definition file_size (s : Directory) (p : path) : Z := Z.of_nat (length (default [] (get_file s p))).

Definition ValidateRollbackJournal (header : RollbackJournalHeader) : IO unit :=
  throw_if (negb (magic header =? Rollback_Journal_Magic) || negb (version header =? Rollback_Journal_Version))
    file_io_error ≫= λ _,
  throw_if (previousHeight header <? targetHeight header) file_io_error ≫= λ _,
  let expectedTargetIndex :=
    if targetHeight header =? 0 then 0 else u32 (targetHeight header mod Files_Per_Directory + 1) in
  throw_if (negb (targetIndex header =? expectedTargetIndex)) file_io_error ≫= λ _,
  currentHeight ← index_height;
  throw_if (negb (currentHeight =? previousHeight header) && negb (currentHeight =? targetHeight header))
    file_io_error ≫= λ _,
  if targetHeight header =? 0 then
    throw_if (negb (targetBlockEnd header =? 0) || negb (targetStmtEnd header =? 0)) file_io_error
  else
    let height := targetHeight header in
    s ← disk_gets id;
    throw_if (negb (is_regular_file s (GetBlocksDatPath height))) file_io_error ≫= λ _,
    throw_if (negb (is_regular_file s (GetBlocksIdxPath height))) file_io_error ≫= λ _,
    match HasChunkIndexEntry s height with
    | None => throw file_io_error
    | Some retainedEntry =>
        if height mod Files_Per_Directory =? Files_Per_Directory - 1 then
          throw_if (negb (targetBlockEnd header =? 0) || negb (targetStmtEnd header =? 0)) file_io_error
        else
          throw_if (file_size s (GetBlocksDatPath height) <? targetBlockEnd header) file_io_error ≫= λ _,
          throw_if (negb (targetBlockEnd header =? blockOffset retainedEntry + blockSize retainedEntry))
            file_io_error ≫= λ _,
          throw_if (negb (targetStmtEnd header =? find_stmt_end s height)) file_io_error ≫= λ _,
          if 0 <? targetStmtEnd header then
            throw_if (negb (is_regular_file s (GetStatementsDatPath height))) file_io_error ≫= λ _,
            throw_if (file_size s (GetStatementsDatPath height) <? targetStmtEnd header) file_io_error
          else mret tt
    end.

(** [resize_file] of a file that is there, [SyncFile] with it. *)
Definition resize_if_present (p : path) (size : Z) : IO unit :=
  present ← disk_gets (λ s, is_regular_file s p);
  if (present : bool) then issue (OpResize p (Z.to_nat size)) else mret tt.

(** [resize_file] reports an error for a missing file. *)
Definition resize_file (p : path) (size : Z) : IO unit :=
  present ← disk_gets (λ s, is_regular_file s p);
  if (present : bool) then issue (OpResize p (Z.to_nat size)) else throw file_io_error.

(** Overwrites the entries behind the retained ones with zeros. *)
Definition zero_index (p : path) (targetOffset : nat) : IO unit :=
  idxFile ← open p Read_Append;
  if decide (targetOffset < m_fileSize idxFile)%nat then
    let n := (m_fileSize idxFile - targetOffset)%nat in
    idxFile ← rf_seek targetOffset idxFile;
    rf_write (replicate n 0) idxFile ≫= λ _, mret tt
  else mret tt.

(** Truncates the files of the retained chunk. *)
Definition truncate_chunk (header : RollbackJournalHeader) : IO unit :=
  let height := targetHeight header in
  if 0 =? height then
    resize_if_present (GetBlocksDatPath 0) 0 ≫= λ _,
    resize_if_present (GetStatementsDatPath 0) 0 ≫= λ _,
    resize_if_present (GetBlocksIdxPath 0) 0
  else if height mod Files_Per_Directory <? Files_Per_Directory - 1 then
    resize_file (GetBlocksDatPath height) (targetBlockEnd header) ≫= λ _,
    (if 0 <? targetStmtEnd header
     then resize_file (GetStatementsDatPath height) (targetStmtEnd header)
     else resize_if_present (GetStatementsDatPath height) 0) ≫= λ _,
    zero_index (GetBlocksIdxPath height) (Z.to_nat (targetIndex header) * sizeof_Entry)
  else mret tt.

(** What the operating system and the configuration add. *)
Record Environment := {
  (** the order in which a directory is iterated *)
  directory_order : list string → list string;
  (** another process holds rollback.lock *)
  lock_held : bool;
  (** the file system supports hard links *)
  hard_links : bool;
  (** the id of the process *)
  process_id : Z;
}.

Section storage.
Context (env : Environment).

(** Future chunk directories in the order of the iteration. *)
Definition future_chunks (retainedChunkId : Z) (s : Directory) : list string :=
  filter (λ name, match TryGetChunkId name with Some chunkId => retainedChunkId <? chunkId | None => false end = true)
    (directory_order env (map_to_list (chunk_directories s)).*1).

Definition ApplyRollbackOperations (header : RollbackJournalHeader) : IO unit :=
  ValidateRollbackJournal header ≫= λ _,
  let height := targetHeight header in
  let retainedChunkId := if 0 =? height then 0 else height / Files_Per_Directory in
  truncate_chunk header ≫= λ _,
  index_set index_dat height ≫= λ _,
  futureChunkPaths ← disk_gets (future_chunks retainedChunkId);
  for_each (remove_directory (directory_order env)) futureChunkPaths.

Definition journal_tmp_name (counter : Z) : string :=
  "rollback.journal." +:+ to_string (process_id env) +:+ "." +:+ to_string counter +:+ ".tmp".

(** [link] publishes the journal and fails when there is one; without hard links
    the journal is renamed. *)
Definition WriteRollbackJournal (counter : Z) (header : RollbackJournalHeader) : IO unit :=
  let tmp := journal_tmp_name counter in
  exists_ ← disk_gets (λ s, is_regular_file s rollback_journal);
  throw_if exists_ file_io_error ≫= λ _,
  f ← open (RootFile tmp) Read_Write;
  rf_write (journal_bytes header) f ≫= λ _,
  exists_ ← disk_gets (λ s, is_regular_file s rollback_journal);
  if (exists_ : bool) then issue (OpRemove (RootFile tmp)) ≫= λ _, throw file_io_error
  else if hard_links env then
    issue (OpLink tmp "rollback.journal") ≫= λ _, issue (OpRemove (RootFile tmp))
  else issue (OpRename tmp "rollback.journal").

(** [RollbackLockGuard]: creates the lock file and locks it. *)
Definition acquire_rollback_lock : IO unit :=
  present ← disk_gets (λ s, is_regular_file s rollback_lock);
  (if (present : bool) then mret tt else issue (OpCreate rollback_lock)) ≫= λ _,
  throw_if (lock_held env) file_io_error.

Definition remove_journal : IO unit :=
  present ← disk_gets (λ s, is_regular_file s rollback_journal);
  if (present : bool) then issue (OpRemove rollback_journal) else mret tt.

Definition read_journal : IO RollbackJournalHeader :=
  journalFile ← open rollback_journal Read_Only;
  if negb (Nat.eqb (m_fileSize journalFile) sizeof_JournalHeader) then throw file_io_error
  else r ← rf_read sizeof_JournalHeader journalFile; mret (bytes_journal (fst r)).

Definition journal_tmps (s : Directory) : list string :=
  filter (λ name, is_journal_tmp name = true) (directory_order env (map_to_list (root_files s)).*1).

Definition recoverUnfinishedRollback : IO unit :=
  hasJournal ← disk_gets (λ s, is_regular_file s rollback_journal);
  tmps ← disk_gets journal_tmps;
  if negb hasJournal && bool_decide (tmps = []) then mret tt
  else
    acquire_rollback_lock ≫= λ _,
    tmps ← disk_gets journal_tmps;
    for_each (λ name, issue (OpRemove (RootFile name))) tmps ≫= λ _,
    hasJournal ← disk_gets (λ s, is_regular_file s rollback_journal);
    if negb hasJournal then mret tt
    else
      header ← read_journal;
      ApplyRollbackOperations header ≫= λ _,
      remove_journal.

(** * Cached writers *)

Record HashFile := { hf_cachedDirectoryId : Z; hf_pCachedHashFile : option RawFile }.

Record ChunkWriter := {
  cw_cachedDirectoryId : Z;
  cw_pCachedBlocksFile : option RawFile;
  cw_pCachedStmtFile : option RawFile;
  cw_pCachedIdxFile : option RawFile;
}.

Inductive FileBlockStorageMode := Hash_Index | Mode_None.

#[global] Instance FileBlockStorageMode_eq_dec : EqDecision FileBlockStorageMode.
Proof. solve_decision. Defined.

Record Storage := {
  disk : Disk;
  m_mode : FileBlockStorageMode;
  m_hashFile : HashFile;
  m_chunkWriter : ChunkWriter;
  s_journalCounter : Z;
}.

Definition reset_HashFile : HashFile := {| hf_cachedDirectoryId := Unset_Directory_Id; hf_pCachedHashFile := None |}.

Definition reset_ChunkWriter : ChunkWriter := {|
  cw_cachedDirectoryId := Unset_Directory_Id;
  cw_pCachedBlocksFile := None;
  cw_pCachedStmtFile := None;
  cw_pCachedIdxFile := None;
|}.

Definition set_disk (d : Disk) (st : Storage) : Storage :=
  {| disk := d; m_mode := m_mode st; m_hashFile := m_hashFile st; m_chunkWriter := m_chunkWriter st;
     s_journalCounter := s_journalCounter st |}.
Definition set_hashFile (h : HashFile) (st : Storage) : Storage :=
  {| disk := disk st; m_mode := m_mode st; m_hashFile := h; m_chunkWriter := m_chunkWriter st;
     s_journalCounter := s_journalCounter st |}.
Definition set_chunkWriter (w : ChunkWriter) (st : Storage) : Storage :=
  {| disk := disk st; m_mode := m_mode st; m_hashFile := m_hashFile st; m_chunkWriter := w;
     s_journalCounter := s_journalCounter st |}.
Definition set_journalCounter (n : Z) (st : Storage) : Storage :=
  {| disk := disk st; m_mode := m_mode st; m_hashFile := m_hashFile st; m_chunkWriter := m_chunkWriter st;
     s_journalCounter := n |}.

(** Runs a program of the directory. *)
Definition on_disk {A} (m : IO A) : Exec Storage A :=
  λ st, let '(d, r) := m (disk st) in (set_disk d st, r).

(** The constructor. *)
Definition new_FileBlockStorage (s : Directory) (mode : FileBlockStorageMode) : Storage * result unit :=
  on_disk recoverUnfinishedRollback
    {| disk := {| content := s; log := [] |}; m_mode := mode;
       m_hashFile := reset_HashFile; m_chunkWriter := reset_ChunkWriter; s_journalCounter := 0 |}.

(** * Hash file *)

Definition OpenHashFile (height : Z) (openMode : OpenMode) : IO RawFile :=
  (if decide (openMode ≠ Read_Only) then
     present ← disk_gets (λ s, bool_decide (is_Some (chunk_directories s !! GetDirectoryPath height)));
     if (present : bool) then mret tt else issue (OpMakeDirectory (GetDirectoryPath height))
   else mret tt) ≫= λ _,
  pHashFile ← open (GetHashFilePath height) openMode;
  if (height <? Files_Per_Directory) && bool_decide (m_fileSize pHashFile < Hash256_Size * 2)%nat
  then throw runtime_error else mret pHashFile.

Definition SeekHashFile (f : RawFile) (height : Z) : IO RawFile := rf_seek (chunk_index height * Hash256_Size) f.

(** One chunk per step, at least one hash of it; [fuel] is the number of hashes. *)
Fixpoint HashFile_loadHashesFrom (fuel : nat) (height : Z) (numHashes : nat) : IO (list (list Z)) :=
  match fuel, numHashes with
  | _, O => mret []
  | O, _ => throw undefined_behaviour
  | S fuel, _ =>
      f ← OpenHashFile height Read_Only;
      f ← SeekHashFile f height;
      let count := Nat.min numHashes (Z.to_nat Files_Per_Directory - chunk_index height) in
      r ← rf_read (count * Hash256_Size) f;
      rest ← HashFile_loadHashesFrom fuel (add64 height (Z.of_nat count)) (numHashes - count);
      mret (split_hashes count (fst r) ++ rest)
  end.

Definition HashFile_save (height : Z) (hash : list Z) : Exec Storage unit :=
  let currentId := height / Files_Per_Directory in
  h ← gets m_hashFile;
  (if negb (hf_cachedDirectoryId h =? currentId) then
     f ← on_disk (OpenHashFile height Read_Append);
     modify (set_hashFile {| hf_cachedDirectoryId := currentId; hf_pCachedHashFile := Some f |})
   else mret tt) ≫= λ _,
  h ← gets m_hashFile;
  match hf_pCachedHashFile h with
  | None => throw undefined_behaviour
  | Some f =>
      f ← on_disk (SeekHashFile f height);
      f ← on_disk (rf_write hash f);
      modify (set_hashFile {| hf_cachedDirectoryId := hf_cachedDirectoryId h; hf_pCachedHashFile := Some f |})
  end.

(** * Chunk writer *)

Inductive CachedFile := BlocksFile | StmtFile | IdxFile.

Definition cw_get (k : CachedFile) (w : ChunkWriter) : option RawFile :=
  match k with
  | BlocksFile => cw_pCachedBlocksFile w
  | StmtFile => cw_pCachedStmtFile w
  | IdxFile => cw_pCachedIdxFile w
  end.

Definition cw_set (k : CachedFile) (f : RawFile) (w : ChunkWriter) : ChunkWriter :=
  match k with
  | BlocksFile => {| cw_cachedDirectoryId := cw_cachedDirectoryId w; cw_pCachedBlocksFile := Some f;
                     cw_pCachedStmtFile := cw_pCachedStmtFile w; cw_pCachedIdxFile := cw_pCachedIdxFile w |}
  | StmtFile => {| cw_cachedDirectoryId := cw_cachedDirectoryId w; cw_pCachedBlocksFile := cw_pCachedBlocksFile w;
                   cw_pCachedStmtFile := Some f; cw_pCachedIdxFile := cw_pCachedIdxFile w |}
  | IdxFile => {| cw_cachedDirectoryId := cw_cachedDirectoryId w; cw_pCachedBlocksFile := cw_pCachedBlocksFile w;
                  cw_pCachedStmtFile := cw_pCachedStmtFile w; cw_pCachedIdxFile := Some f |}
  end.

Definition cached_path (k : CachedFile) (height : Z) : path :=
  match k with
  | BlocksFile => GetBlocksDatPath height
  | StmtFile => GetStatementsDatPath height
  | IdxFile => GetBlocksIdxPath height
  end.

(** Calls a member of a cached file that changes the file object. *)
Definition on_cached (k : CachedFile) (m : RawFile → IO RawFile) : Exec Storage unit :=
  w ← gets m_chunkWriter;
  match cw_get k w with
  | None => throw undefined_behaviour
  | Some f => f ← on_disk (m f); modify (λ st, set_chunkWriter (cw_set k f (m_chunkWriter st)) st)
  end.

Definition cached_size (k : CachedFile) : Exec Storage nat :=
  w ← gets m_chunkWriter;
  match cw_get k w with None => throw undefined_behaviour | Some f => mret (m_fileSize f) end.

Definition open_cached (k : CachedFile) (height : Z) : Exec Storage unit :=
  f ← on_disk (open (cached_path k height) Read_Append);
  modify (λ st, set_chunkWriter (cw_set k f (m_chunkWriter st)) st).

Definition set_cachedDirectoryId (id : Z) (w : ChunkWriter) : ChunkWriter :=
  {| cw_cachedDirectoryId := id; cw_pCachedBlocksFile := cw_pCachedBlocksFile w;
     cw_pCachedStmtFile := cw_pCachedStmtFile w; cw_pCachedIdxFile := cw_pCachedIdxFile w |}.

(** Opens the files of the chunk of [height] unless they are cached. *)
Definition select_chunk (height : Z) : Exec Storage unit :=
  let currentId := height / Files_Per_Directory in
  w ← gets m_chunkWriter;
  if negb (cw_cachedDirectoryId w =? currentId) || bool_decide (cw_pCachedBlocksFile w = None) then
    modify (set_chunkWriter reset_ChunkWriter) ≫= λ _,
    present ← on_disk (disk_gets (λ s, bool_decide (is_Some (chunk_directories s !! GetDirectoryPath height))));
    (if (present : bool) then mret tt else on_disk (issue (OpMakeDirectory (GetDirectoryPath height)))) ≫= λ _,
    open_cached BlocksFile height ≫= λ _,
    open_cached StmtFile height ≫= λ _,
    open_cached IdxFile height ≫= λ _,
    modify (λ st, set_chunkWriter (set_cachedDirectoryId currentId (m_chunkWriter st)) st)
  else mret tt.

(** Writes what a serializer hands to its stream to a cached file. *)
Definition stream_to (k : CachedFile) (m : Writer unit) : Exec Storage unit :=
  let '(buffers, r) := m [] in
  for_each (λ b, on_cached k (rf_write b)) buffers ≫= λ _, lift_result r.

Definition Max32 : Z := 2 ^ 32 - 1.

(** Appends a payload and returns where it starts and how long it is. *)
Definition append_payload (k : CachedFile) (payload : option (Writer unit)) : Exec Storage (Z * Z) :=
  offset ← cached_size k;
  if Max32 <? Z.of_nat offset then throw runtime_error
  else match payload with
       | None => mret (Z.of_nat offset, 0)
       | Some m =>
           on_cached k (rf_seek offset) ≫= λ _,
           stream_to k m ≫= λ _,
           size ← cached_size k;
           if Max32 <? Z.of_nat size - Z.of_nat offset then throw runtime_error
           else mret (Z.of_nat offset, Z.of_nat size - Z.of_nat offset)
       end.

(** Writes the index entry, with zeros for the entries that are missing before it. *)
Definition write_index_entry (height : Z) (entry : BlockChunkIndexEntry) : Exec Storage unit :=
  let targetOffset := (chunk_index height * sizeof_Entry)%nat in
  size ← cached_size IdxFile;
  (if decide (size < targetOffset)%nat then
     on_cached IdxFile (rf_seek size) ≫= λ _,
     on_cached IdxFile (rf_write (replicate (targetOffset - size) 0))
   else mret tt) ≫= λ _,
  on_cached IdxFile (rf_seek targetOffset) ≫= λ _,
  on_cached IdxFile (rf_write (entry_bytes entry)).

Definition ChunkWriter_save (height : Z) (blockElement : BlockElement) : Exec Storage unit :=
  select_chunk height ≫= λ _,
  b ← append_payload BlocksFile (Some (WriteBlockElement blockElement));
  t ← append_payload StmtFile (WriteBlockStatement <$> be_OptionalStatement blockElement);
  write_index_entry height
    {| blockOffset := fst b; blockSize := snd b; stmtOffset := fst t; stmtSize := snd t |}.

(** * LightBlockStorage *)

Definition chainHeight : Exec Storage Z := on_disk index_height.

Definition loadHashesFrom (height : Z) (maxHashes : nat) : Exec Storage (list (list Z)) :=
  mode ← gets m_mode;
  if decide (Hash_Index ≠ mode) then throw invalid_argument
  else
    currentHeight ← chainHeight;
    if (0 =? height) || (currentHeight <? height) then mret []
    else
      let numHashes := Nat.min maxHashes (Z.to_nat (add64 (sub64 currentHeight height) 1)) in
      on_disk (HashFile_loadHashesFrom numHashes height numHashes).

Definition saveBlock (blockElement : BlockElement) : Exec Storage unit :=
  currentHeight ← chainHeight;
  let height := be_Height blockElement in
  if negb (height =? add64 currentHeight 1) then throw invalid_argument
  else
    ChunkWriter_save height blockElement ≫= λ _,
    mode ← gets m_mode;
    (if decide (Hash_Index = mode) then HashFile_save height (be_EntityHash blockElement) else mret tt) ≫= λ _,
    if currentHeight <? height then on_disk (index_set index_dat height) else mret tt.

(** The journal a rollback to [height] writes. *)
Definition make_journal (s : Directory) (height currentHeight : Z) : result RollbackJournalHeader :=
  let index := if 0 =? height then 0 else u32 (height mod Files_Per_Directory + 1) in
  let header blockEnd stmtEnd :=
    {| magic := Rollback_Journal_Magic; version := Rollback_Journal_Version;
       targetHeight := height; previousHeight := currentHeight;
       targetBlockEnd := blockEnd; targetStmtEnd := stmtEnd; targetIndex := index; padding := 0 |} in
  if negb (0 =? height) && (height mod Files_Per_Directory <? Files_Per_Directory - 1) then
    match HasChunkIndexEntry s height with
    | None => Throw invalid_argument
    | Some retainedEntry =>
        Ok (header (blockOffset retainedEntry + blockSize retainedEntry) (find_stmt_end s height))
    end
  else Ok (header 0 0).

Definition dropBlocksAfter (height : Z) : Exec Storage unit :=
  on_disk acquire_rollback_lock ≫= λ _,
  modify (set_hashFile reset_HashFile) ≫= λ _,
  modify (set_chunkWriter reset_ChunkWriter) ≫= λ _,
  hasJournal ← on_disk (disk_gets (λ s, is_regular_file s rollback_journal));
  on_disk (throw_if hasJournal file_io_error) ≫= λ _,
  currentHeight ← chainHeight;
  if (0 =? currentHeight) && negb (0 =? height) then on_disk (index_set index_dat height)
  else if (currentHeight <=? height) && negb (0 =? height) then mret tt
  else
    s ← on_disk (disk_gets id);
    header ← lift_result (make_journal s height currentHeight);
    modify (λ st, set_journalCounter (s_journalCounter st + 1) st) ≫= λ _,
    counter ← gets s_journalCounter;
    on_disk (WriteRollbackJournal counter header) ≫= λ _,
    on_disk (ApplyRollbackOperations header) ≫= λ _,
    on_disk remove_journal.

(** * BlockStorage *)

Definition requireHeight (height : Z) : IO unit :=
  chainHeight ← index_height;
  if height <=? chainHeight then mret tt else throw invalid_argument.

(** A block starts with its size. *)
Definition read_block_at (offset : nat) (f : RawFile) : IO (list Z) :=
  f ← rf_seek offset f;
  r ← rf_read 4 f;
  let size := le_value (fst r) in
  f ← rf_seek offset (snd r);
  if size <? sizeof_Block then throw invalid_argument
  else r ← rf_read (Z.to_nat size) f; mret (fst r).

Definition load_legacy_block (height : Z) : IO (list Z) :=
  present ← disk_gets (λ s, is_regular_file s (GetBlockPath height Block_File_Extension));
  if (present : bool) then
    f ← open (GetBlockPath height Block_File_Extension) Read_Only;
    read_block_at 0 f
  else throw runtime_error.

Definition loadBlock (height : Z) : IO (list Z) :=
  requireHeight height ≫= λ _,
  entry ← disk_gets (λ s, HasChunkIndexEntry s height);
  match entry with
  | Some entry =>
      blocksFile ← open (GetBlocksDatPath height) Read_Only;
      read_block_at (Z.to_nat (blockOffset entry)) blocksFile
  | None => load_legacy_block height
  end.

(** A part of a file. *)
Definition read_part (p : path) (offset size : Z) : IO (list Z) :=
  f ← open p Read_Only;
  f ← rf_seek (Z.to_nat offset) f;
  r ← rf_read (Z.to_nat size) f;
  mret (fst r).

(** Reads a value from a buffer that holds nothing else. *)
Definition read_all {A} (m : Reader A) (buffer : list Z) : IO A :=
  match m buffer with
  | (_, Throw e) => throw e
  | ([], Ok a) => mret a
  | (_, Ok _) => throw runtime_error
  end.

Definition load_legacy_element (height : Z) : IO BlockElement :=
  c ← disk_gets (λ s, get_file s (GetBlockPath height Block_File_Extension));
  match c with
  | Some c => read_all ReadBlockElement c
  | None => throw runtime_error
  end.

Definition loadBlockElement (height : Z) : IO BlockElement :=
  requireHeight height ≫= λ _,
  entry ← disk_gets (λ s, HasChunkIndexEntry s height);
  match entry with
  | Some entry =>
      blockBuffer ← read_part (GetBlocksDatPath height) (blockOffset entry) (blockSize entry);
      element ← read_all ReadBlockElement blockBuffer;
      if 0 <? stmtSize entry then
        stmtBuffer ← read_part (GetStatementsDatPath height) (stmtOffset entry) (stmtSize entry);
        statement ← read_all ReadBlockStatement stmtBuffer;
        mret (set_OptionalStatement (Some statement) element)
      else mret element
  | None => load_legacy_element height
  end.

Definition loadBlockStatementData (height : Z) : IO (option (list Z)) :=
  requireHeight height ≫= λ _,
  entry ← disk_gets (λ s, HasChunkIndexEntry s height);
  match entry with
  | Some entry =>
      if stmtSize entry =? 0 then mret None
      else data ← read_part (GetStatementsDatPath height) (stmtOffset entry) (stmtSize entry); mret (Some data)
  | None =>
      c ← disk_gets (λ s, get_file s (GetBlockStatementPath height));
      mret c
  end.

(** * PrunableBlockStorage *)

Definition purge : Exec Storage unit :=
  modify (set_hashFile reset_HashFile) ≫= λ _,
  modify (set_chunkWriter reset_ChunkWriter) ≫= λ _,
  on_disk (PurgeDirectory (directory_order env)).

End storage.

End FileBlockStorage.
