(* ===== verification/BlockStorageCrash.v ===== *)
(** Crash safety of the file based block storage (FileBlockStorage): what a
    directory stores as a chain of blocks, and that a rollback that is stopped
    at any point, any number of times, ends in the old chain or in the chain it
    was asked for. *)
From stdpp Require Import base tactics numbers option list gmap strings sets.
From S2P Require Import Prelude Streams BlockElements FileSystem FileBlockStorage.

Local Open Scope Z_scope.

Module BlockStorageCrash.
Import Stream Elements FileSystem FileBlockStorage.

#[local] Arguments get_file : simpl never.
#[local] Arguments alter_file : simpl never.
#[local] Arguments file_write : simpl never.
#[local] Arguments file_resize : simpl never.
#[local] Arguments slice : simpl never.

(** * Names of chunk directories *)

Lemma digit_value d : 0 ≤ d < 10 → Z.of_nat (Ascii.nat_of_ascii (digit d)) - 48 = d.
Proof. intros Hd. unfold digit. rewrite Ascii.nat_ascii_embedding by lia. lia. Qed.

Lemma stoull_decimal fuel n acc :
  0 ≤ n < 10 ^ Z.of_nat fuel → (0 < fuel)%nat → stoull 0 (decimal fuel n acc) = stoull n acc.
Proof.
  revert n acc. induction fuel as [|fuel IH]; intros n acc Hn Hf; [lia|]. simpl.
  pose proof (Z.mod_pos_bound n 10 eq_refl). pose proof (Z.div_mod n 10 ltac:(lia)) as Hdiv.
  assert (0 ≤ n / 10) by (apply Z.div_pos; lia).
  destruct (Z.eqb_spec (n / 10) 0) as [Hz|Hnz].
  - simpl. rewrite digit_value by lia. f_equal. lia.
  - rewrite IH.
    + simpl. rewrite digit_value by lia. f_equal. lia.
    + split; [done|]. apply Z.div_lt_upper_bound; [lia|].
      replace (Z.of_nat (S fuel)) with (Z.succ (Z.of_nat fuel)) in Hn by lia. rewrite Z.pow_succ_r in Hn; lia.
    + destruct fuel; [|lia]. exfalso. apply Hnz. rewrite Z.pow_1_r in Hn. apply Z.div_small. lia.
Qed.

Lemma stoull_zeros n s : stoull 0 (zeros n s) = stoull 0 s.
Proof. induction n as [|n IH]; [done|]. apply IH. Qed.

(** The name of a chunk tells its number. *)
Lemma stoull_sprintf n : in_range 64 n → stoull 0 (sprintf_05 n) = n.
Proof.
  intros [H0 Hn]. unfold sprintf_05, to_string. rewrite stoull_zeros, stoull_decimal; [done| |lia].
  split; [done|]. eapply Z.lt_trans; [exact Hn|]. done.
Qed.

Lemma sprintf_inj m n : in_range 64 m → in_range 64 n → sprintf_05 m = sprintf_05 n → m = n.
Proof. intros Hm Hn Heq. rewrite <-(stoull_sprintf m), <-(stoull_sprintf n) by done. by rewrite Heq. Qed.

Lemma TryGetChunkId_sprintf n m : in_range 64 n → TryGetChunkId (sprintf_05 n) = Some m → m = n.
Proof. intros Hn. unfold TryGetChunkId. repeat case_match; try done. intros [= <-]. by apply stoull_sprintf. Qed.

Definition chunk (height : Z) : Z := height / Files_Per_Directory.

Lemma chunk_range h : in_range 64 h → in_range 64 (chunk h).
Proof.
  unfold in_range, chunk, Files_Per_Directory. intros [H0 H1]. split; [apply Z.div_pos; lia|].
  apply Z.div_lt_upper_bound; lia.
Qed.

Lemma chunk_mono h h' : h ≤ h' → chunk h ≤ chunk h'.
Proof. intros. apply Z.div_le_mono; unfold Files_Per_Directory; lia. Qed.

Lemma chunk_index_bound h : Z.of_nat (chunk_index h) < Files_Per_Directory.
Proof.
  unfold chunk_index, Files_Per_Directory. pose proof (Z.mod_pos_bound h 65536 eq_refl). lia.
Qed.

(** In a chunk the index orders heights. *)
Lemma chunk_index_le h h' : chunk h = chunk h' → h' ≤ h → (chunk_index h' ≤ chunk_index h)%nat.
Proof.
  unfold chunk, chunk_index, Files_Per_Directory. intros Hc Hle.
  pose proof (Z.div_mod h 65536 ltac:(lia)). pose proof (Z.div_mod h' 65536 ltac:(lia)).
  pose proof (Z.mod_pos_bound h' 65536 eq_refl). lia.
Qed.

Section storage_mode.
Context (mode : FileBlockStorageMode).

(** * What a directory stores *)

Definition chain_height (s : Directory) : Z :=
  match get_file s index_dat with
  | Some c => if decide (8%nat = length c) then le_value c else 0
  | None => 0
  end.

(** A height was written to the index file, or less. *)
Definition index_ok (s : Directory) : Prop := (length (default [] (get_file s index_dat)) ≤ 8)%nat.

(** The bytes of an element and of its statement. *)
Definition block_bytes (e : BlockElement) : list Z := concat (fst (WriteBlockElement e [])).
Definition statement_bytes (s : BlockStatement) : list Z := concat (fst (WriteBlockStatement s [])).

Definition block_end (e : BlockChunkIndexEntry) : Z := blockOffset e + blockSize e.
Definition stmt_end (e : BlockChunkIndexEntry) : Z := stmtOffset e + stmtSize e.

(** The file [p] holds [data] at [offset]. *)
Definition holds (s : Directory) (p : path) (offset size : Z) (data : list Z) : Prop :=
  ∃ c, get_file s p = Some c ∧ slice (Z.to_nat offset) (Z.to_nat size) c = Some data.

(** The chunk files hold the element at its height. *)
Record stored (s : Directory) (h : Z) (e : BlockElement) (entry : BlockChunkIndexEntry) : Prop := {
  stored_entry : HasChunkIndexEntry s h = Some entry;
  stored_offsets : in_range 32 (blockOffset entry) ∧ in_range 32 (blockSize entry)
                   ∧ in_range 32 (stmtOffset entry) ∧ in_range 32 (stmtSize entry);
  stored_block : holds s (GetBlocksDatPath h) (blockOffset entry) (blockSize entry) (block_bytes e);
  stored_statement :
    match be_OptionalStatement e with
    | None => stmtSize entry = 0
    | Some st => 0 < stmtSize entry
                 ∧ holds s (GetStatementsDatPath h) (stmtOffset entry) (stmtSize entry) (statement_bytes st)
    end;
}.

(** The size field of an index entry; what is missing at the end of the file
    counts as zero. *)
Definition entry_size (s : Directory) (h : Z) : Z :=
  field (chunk_index h * sizeof_Entry + 4) 4 (default [] (get_file s (GetBlocksIdxPath h))).

(** The hash of a block in the hash file of its chunk. *)
Definition hashed (s : Directory) (h : Z) (e : BlockElement) : Prop :=
  ∃ c, get_file s (GetHashFilePath h) = Some c
       ∧ slice (chunk_index h * Hash256_Size) Hash256_Size c = Some (be_EntityHash e).

(** The directory stores the blocks [bs] at the heights behind [start]: for a
    storage that is not filled from the first block, as a staging storage,
    nothing is stored up to [start]. *)
Record repr (s : Directory) (start : Z) (bs : list BlockElement) : Prop := {
  repr_height : chain_height s = start + Z.of_nat (length bs);
  repr_range : 0 ≤ start ∧ start + Z.of_nat (length bs) < 2 ^ 64;
  repr_below : ∀ h, 0 < h ≤ start → entry_size s h ≤ 0;
  repr_blocks : ∀ i e, bs !! i = Some e → ∃ entry, stored s (start + 1 + Z.of_nat i) e entry;
  repr_order : ∀ h h' x x', start < h ≤ h' → h' ≤ start + Z.of_nat (length bs) → chunk h = chunk h' →
    HasChunkIndexEntry s h = Some x → HasChunkIndexEntry s h' = Some x' →
    block_end x ≤ block_end x' ∧ (0 < stmtSize x → 0 < stmtSize x' → stmt_end x ≤ stmt_end x');
  repr_no_journal : get_file s rollback_journal = None;
  repr_index : index_ok s;
  repr_hashes : mode = Hash_Index → ∀ i e, bs !! i = Some e → hashed s (start + 1 + Z.of_nat i) e;
}.

Lemma HasChunkIndexEntry_Some s h x :
  HasChunkIndexEntry s h = Some x ↔
  ∃ idx b, get_file s (GetBlocksIdxPath h) = Some idx
           ∧ slice (chunk_index h * sizeof_Entry) sizeof_Entry idx = Some b ∧ x = bytes_entry b ∧ 0 < blockSize x.
Proof.
  unfold HasChunkIndexEntry. destruct (get_file s (GetBlocksIdxPath h)) as [idx|]; cbn [mbind option_bind].
  2: { split; [done|]. by intros (? & ? & ? & ?). }
  destruct (slice _ _ _) as [b|] eqn:Hsl; cbn [mbind option_bind].
  2: { split; [done|]. intros (? & ? & [= <-] & ? & ?). congruence. }
  destruct (Z.ltb_spec 0 (blockSize (bytes_entry b))).
  - split; [intros [= <-]; eauto 10|]. intros (? & ? & [= <-] & ? & -> & ?). congruence.
  - split; [done|]. intros (? & ? & [= <-] & ? & -> & ?). simplify_eq. lia.
Qed.

Lemma field_prefix k off n c c' : take k c = take k c' → (off + n ≤ k)%nat → field off n c = field off n c'.
Proof.
  intros Heq Hle. unfold field. rewrite !take_drop_commute.
  replace (take (off + n) c) with (take (off + n) (take k c)) by (rewrite take_take; f_equal; lia).
  rewrite Heq, take_take. do 3 f_equal. lia.
Qed.

Lemma field_slice k m off n c b :
  slice k m c = Some b → (off + n ≤ m)%nat → field off n b = field (k + off) n c.
Proof.
  intros Hb Hle. unfold slice in Hb. case_decide; [|done]. injection Hb as <-. unfold field. f_equal.
  rewrite <-drop_drop. replace m with (off + (m - off))%nat by lia. rewrite <-take_drop_commute, take_take.
  f_equal. lia.
Qed.

Lemma entry_size_None s h : entry_size s h ≤ 0 → HasChunkIndexEntry s h = None.
Proof.
  intros Hz. destruct (HasChunkIndexEntry s h) as [x|] eqn:Hx; [|done].
  apply HasChunkIndexEntry_Some in Hx as (idx & b & Hidx & Hb & -> & Hpos). exfalso.
  unfold entry_size in Hz. rewrite Hidx in Hz. simpl default in Hz. cbn [bytes_entry blockSize] in Hpos.
  rewrite (field_slice _ _ _ _ _ _ Hb) in Hpos by (unfold sizeof_Entry; lia). lia.
Qed.

(** * Directories that store the same *)

(** Equal up to lock files and temporary journals. *)
Record store_eq (s s' : Directory) : Prop := {
  eq_chunks : ∀ directory name, get_file s (ChunkFile directory name) = get_file s' (ChunkFile directory name);
  eq_index : get_file s index_dat = get_file s' index_dat;
  eq_journal : get_file s rollback_journal = get_file s' rollback_journal;
}.

#[export] Instance store_eq_equiv : Equivalence store_eq.
Proof.
  split.
  - intros s. by constructor.
  - intros s s' [H1 H2 H3]. by constructor.
  - intros s1 s2 s3 [H1 H2 H3] [H1' H2' H3']. constructor; intros; etrans; eauto.
Qed.

Lemma HasChunkIndexEntry_store_eq s s' h : store_eq s s' → HasChunkIndexEntry s h = HasChunkIndexEntry s' h.
Proof. intros [H _ _]. unfold HasChunkIndexEntry, GetBlocksIdxPath. by rewrite H. Qed.

Lemma chain_height_store_eq s s' : store_eq s s' → chain_height s = chain_height s'.
Proof. intros [_ H _]. unfold chain_height. by rewrite H. Qed.

Lemma stored_store_eq s s' h e x : store_eq s s' → stored s h e x → stored s' h e x.
Proof.
  intros Heq [H1 H2 H3 H4]. rewrite (HasChunkIndexEntry_store_eq s s' h Heq) in H1. destruct Heq as [Hc _ _].
  unfold holds, GetBlocksDatPath, GetStatementsDatPath in *. constructor; [done..| |].
  - unfold holds, GetBlocksDatPath. by rewrite <-Hc.
  - unfold holds, GetStatementsDatPath. destruct (be_OptionalStatement e); [by rewrite <-Hc|done].
Qed.

(** What is stored depends on the chunk files, the height and the journal. *)
Lemma repr_ext s s' start bs :
  (∀ directory name, get_file s' (ChunkFile directory name) = get_file s (ChunkFile directory name)) →
  get_file s' rollback_journal = get_file s rollback_journal → chain_height s' = chain_height s → index_ok s' →
  repr s start bs → repr s' start bs.
Proof.
  intros Hc Hj Hh Hok [H1 H2 H3 H4 H5 H6 H7 H8].
  assert (∀ h, HasChunkIndexEntry s' h = HasChunkIndexEntry s h) as He
    by (intros; unfold HasChunkIndexEntry, GetBlocksIdxPath; by rewrite Hc).
  constructor.
  - by rewrite Hh.
  - done.
  - intros. unfold entry_size, GetBlocksIdxPath. rewrite Hc. by apply H3.
  - intros i e Hi. destruct (H4 i e Hi) as [x [E1 E2 E3 E4]]. exists x. unfold holds, GetBlocksDatPath, GetStatementsDatPath in *.
    constructor; [by rewrite He|done|unfold holds, GetBlocksDatPath; by rewrite Hc|].
    unfold holds, GetStatementsDatPath. destruct (be_OptionalStatement e); [by rewrite Hc|done].
  - intros h h' x x'. rewrite !He. apply H5.
  - by rewrite Hj.
  - done.
  - intros Hm i e Hi. unfold hashed, GetHashFilePath. rewrite Hc. by apply H8.
Qed.

#[export] Instance repr_proper : Proper (store_eq ==> eq ==> eq ==> iff) repr.
Proof.
  assert (∀ s s' start bs, store_eq s s' → repr s start bs → repr s' start bs) as Himpl.
  { intros s s' start bs Heq Hr. eapply repr_ext; [..|exact Hr].
    - intros. symmetry. apply Heq.
    - symmetry. apply Heq.
    - symmetry. by apply chain_height_store_eq.
    - unfold index_ok. rewrite <-(eq_index _ _ Heq). apply Hr. }
  intros s s' Heq start ? <- bs ? <-. split; apply Himpl; [done|by symmetry].
Qed.

(** Changing another file of the root changes nothing that is stored. *)
Lemma store_eq_root f name s :
  name ≠ "index.dat" → name ≠ "rollback.journal" → store_eq (alter_file f (RootFile name) s) s.
Proof.
  intros H1 H2. constructor; intros; apply get_file_alter_ne; unfold index_dat, rollback_journal; congruence.
Qed.

(** * What a rollback keeps *)

(** The first [n] bytes of a file are the same. *)
Definition agree (s0 s : Directory) (p : path) (n : nat) : Prop :=
  ∃ c0 c, get_file s0 p = Some c0 ∧ get_file s p = Some c
          ∧ (n ≤ length c0)%nat ∧ (n ≤ length c)%nat ∧ take n c0 = take n c.

(** [s] keeps what [s0] has up to the height [h]: the chunks before, and of its
    chunk the blocks up to [be], the statements up to [se] and the entries. *)
Record retains (s0 s : Directory) (h : Z) (be se : nat) : Prop := {
  retains_chunks : ∀ c name, 0 ≤ c < chunk h →
    get_file s (ChunkFile (sprintf_05 c) name) = get_file s0 (ChunkFile (sprintf_05 c) name);
  retains_blocks : agree s0 s (GetBlocksDatPath h) be;
  retains_stmts : se = 0%nat ∨ agree s0 s (GetStatementsDatPath h) se;
  retains_idx : agree s0 s (GetBlocksIdxPath h) (S (chunk_index h) * sizeof_Entry);
  retains_hashes : get_file s (GetHashFilePath h) = get_file s0 (GetHashFilePath h);
}.

(** The ends are behind everything that is stored up to [h]. *)
Definition covers (s0 : Directory) (start h : Z) (be se : nat) : Prop :=
  ∀ h' x, start < h' ≤ h → chunk h' = chunk h → HasChunkIndexEntry s0 h' = Some x →
    block_end x ≤ Z.of_nat be ∧ (0 < stmtSize x → stmt_end x ≤ Z.of_nat se).

Lemma agree_refl s p c n : get_file s p = Some c → (n ≤ length c)%nat → agree s s p n.
Proof. intros Hc Hn. by exists c, c. Qed.

Lemma agree_slice s0 s p n offset size c0 :
  agree s0 s p n → get_file s0 p = Some c0 → (offset + size ≤ n)%nat →
  ∃ c, get_file s p = Some c ∧ slice offset size c = slice offset size c0.
Proof.
  intros (c0' & c & H0 & H & Hn0 & Hn & Heq) Hc0 Hle. rewrite Hc0 in H0. injection H0 as <-. exists c. split; [done|].
  symmetry. by eapply slice_prefix.
Qed.

Lemma holds_agree s0 s p n offset size data :
  agree s0 s p n → 0 ≤ offset → 0 ≤ size → offset + size ≤ Z.of_nat n →
  holds s0 p offset size data → holds s p offset size data.
Proof.
  intros Ha Ho Hs Hle (c0 & Hc0 & Hsl).
  destruct (agree_slice _ _ _ _ (Z.to_nat offset) (Z.to_nat size) _ Ha Hc0) as (c & Hc & Heq); [lia|].
  exists c. by rewrite Heq.
Qed.

Lemma retains_entry s0 s h be se h' :
  retains s0 s h be se → 0 ≤ h' ≤ h → HasChunkIndexEntry s h' = HasChunkIndexEntry s0 h'.
Proof.
  intros Hr Hh. unfold HasChunkIndexEntry, GetBlocksIdxPath, GetDirectoryPath. fold (chunk h').
  destruct (decide (chunk h' = chunk h)) as [Hc|Hc].
  - destruct (retains_idx _ _ _ _ _ Hr) as (c0 & c & H0 & H & Hn0 & Hn & Heq).
    unfold GetBlocksIdxPath, GetDirectoryPath in H0, H. fold (chunk h) in H0, H. rewrite Hc, H0, H. simpl.
    rewrite (slice_prefix _ _ (S (chunk_index h) * sizeof_Entry) c c0); try done.
    pose proof (chunk_index_le h h' ltac:(done) ltac:(lia)). unfold sizeof_Entry. lia.
  - rewrite (retains_chunks _ _ _ _ _ Hr); [done|]. pose proof (chunk_mono h' h ltac:(lia)).
    split; [apply Z.div_pos; unfold Files_Per_Directory; lia|lia].
Qed.

Lemma retains_entry_size s0 s h be se h' :
  retains s0 s h be se → 0 ≤ h' ≤ h → entry_size s h' = entry_size s0 h'.
Proof.
  intros Hr Hh. unfold entry_size, GetBlocksIdxPath, GetDirectoryPath. fold (chunk h').
  destruct (decide (chunk h' = chunk h)) as [Hc|Hc].
  - destruct (retains_idx _ _ _ _ _ Hr) as (c0 & c & H0 & H & Hn0 & Hn & Heq).
    unfold GetBlocksIdxPath, GetDirectoryPath in H0, H. fold (chunk h) in H0, H. rewrite Hc, H0, H. simpl default.
    pose proof (chunk_index_le h h' ltac:(done) ltac:(lia)). apply (field_prefix (S (chunk_index h) * sizeof_Entry)); [done|].
    unfold sizeof_Entry. lia.
  - rewrite (retains_chunks _ _ _ _ _ Hr); [done|]. pose proof (chunk_mono h' h ltac:(lia)).
    split; [apply Z.div_pos; unfold Files_Per_Directory; lia|lia].
Qed.

Lemma retains_holds s0 s start h be se h' e x :
  retains s0 s h be se → covers s0 start h be se → 0 ≤ start → start < h' ≤ h → stored s0 h' e x → stored s h' e x.
Proof.
  intros Hr Hcov Hs Hh [H1 Hrange H3 H4]. pose proof Hrange as ((Ho & _) & (Hbs & _) & (Hso & _) & (Hss & _)).
  assert (HasChunkIndexEntry s h' = Some x) as Hx by (rewrite (retains_entry _ _ _ _ _ _ Hr); [done|lia]).
  destruct (decide (chunk h' = chunk h)) as [Hc|Hc].
  - destruct (Hcov h' x ltac:(lia) Hc H1) as [Hb Ht]. unfold block_end, stmt_end in *.
    assert (GetDirectoryPath h' = GetDirectoryPath h) as Hdir by (unfold GetDirectoryPath; f_equal; exact Hc).
    unfold GetBlocksDatPath, GetStatementsDatPath in *. rewrite Hdir in *. constructor; try done.
    + unfold GetBlocksDatPath. rewrite Hdir. eapply holds_agree; [apply Hr|..]; try done; lia.
    + destruct (be_OptionalStatement e) as [st|]; [|done]. destruct H4 as [Hpos H4]. split; [done|].
      unfold GetStatementsDatPath. rewrite Hdir. specialize (Ht Hpos).
      destruct (retains_stmts _ _ _ _ _ Hr) as [->|Hag]; [lia|]. eapply holds_agree; [exact Hag|..]; try done; lia.
  - assert (∀ name, get_file s (ChunkFile (GetDirectoryPath h') name) = get_file s0 (ChunkFile (GetDirectoryPath h') name)) as Heq.
    { intros name. apply (retains_chunks _ _ _ _ _ Hr). pose proof (chunk_mono h' h ltac:(lia)).
      split; [apply Z.div_pos; unfold Files_Per_Directory; lia|unfold chunk in *; lia]. }
    unfold holds, GetBlocksDatPath, GetStatementsDatPath in *. constructor; try done.
    + unfold holds, GetBlocksDatPath. by rewrite Heq.
    + unfold holds, GetStatementsDatPath. destruct (be_OptionalStatement e); [by rewrite Heq|done].
Qed.

Lemma retains_hash_file s0 s h be se h' :
  retains s0 s h be se → 0 ≤ h' ≤ h → get_file s (GetHashFilePath h') = get_file s0 (GetHashFilePath h').
Proof.
  intros Hr Hh. pose proof (chunk_mono h' h ltac:(lia)). destruct (decide (chunk h' = chunk h)) as [Hc|Hc].
  - replace (GetHashFilePath h') with (GetHashFilePath h); [apply (retains_hashes _ _ _ _ _ Hr)|].
    unfold GetHashFilePath, GetDirectoryPath. do 2 f_equal. by symmetry.
  - unfold GetHashFilePath, GetDirectoryPath. apply (retains_chunks _ _ _ _ _ Hr).
    split; [apply Z.div_pos; unfold Files_Per_Directory; lia|unfold chunk in *; lia].
Qed.

(** A directory that keeps everything up to [h] stores the chain up to [h]. *)
Lemma repr_retained s0 s start bs h be se :
  repr s0 start bs → start < h ≤ start + Z.of_nat (length bs) → covers s0 start h be se → retains s0 s h be se →
  chain_height s = h → get_file s rollback_journal = None → index_ok s →
  repr s start (take (Z.to_nat (h - start)) bs).
Proof.
  intros H0 Hh Hcov Hr Hheight Hj Hix. destruct (repr_range _ _ _ H0) as [Hs Hmax].
  assert (length (take (Z.to_nat (h - start)) bs) = Z.to_nat (h - start)) as Hlen by (rewrite length_take; lia).
  constructor.
  - rewrite Hlen, Hheight. lia.
  - rewrite Hlen. lia.
  - intros h' Hh'. rewrite (retains_entry_size _ _ _ _ _ _ Hr) by lia. by apply H0.
  - intros i e Hi. apply lookup_take_Some in Hi as [Hi Hlt]. destruct (repr_blocks _ _ _ H0 i e Hi) as [x Hx].
    exists x. eapply retains_holds; [done..| |done]. lia.
  - intros h1 h2 x1 x2 H1 H2 Hc. rewrite Hlen in H2. rewrite !(retains_entry _ _ _ _ _ _ Hr) by lia.
    apply H0; try done; lia.
  - done.
  - done.
  - intros Hm i e Hi. apply lookup_take_Some in Hi as [Hi Hlt]. unfold hashed.
    rewrite (retains_hash_file _ _ _ _ _ _ Hr) by lia. by apply (repr_hashes _ _ _ H0 Hm).
Qed.

(** * The statements of a chunk *)

Lemma last_stmt_end_ext fuel s s' c h :
  (∀ h', 0 ≤ h' ≤ h → HasChunkIndexEntry s h' = HasChunkIndexEntry s' h') →
  last_stmt_end fuel s c h = last_stmt_end fuel s' c h.
Proof.
  revert h. induction fuel as [|fuel IH]; intros h Heq; simpl; [done|].
  destruct (Z.ltb_spec 0 h); simpl; [|done]. destruct (h / Files_Per_Directory =? c); simpl; [|done].
  rewrite Heq by lia. rewrite IH by (intros; apply Heq; lia). done.
Qed.

(** The scan finds the last entry with a statement. *)
Lemma last_stmt_end_spec fuel s c h :
  h - c * Files_Per_Directory < Z.of_nat fuel → chunk h ≤ c →
  (last_stmt_end fuel s c h = 0
   ∧ ∀ h' x, 0 < h' ≤ h → chunk h' = c → HasChunkIndexEntry s h' = Some x → stmtSize x ≤ 0)
  ∨ ∃ h1 x1, 0 < h1 ≤ h ∧ chunk h1 = c ∧ HasChunkIndexEntry s h1 = Some x1 ∧ 0 < stmtSize x1
     ∧ last_stmt_end fuel s c h = stmt_end x1
     ∧ ∀ h' x, h1 < h' ≤ h → HasChunkIndexEntry s h' = Some x → stmtSize x ≤ 0.
Proof.
  assert (∀ h', chunk h' = c → c * Files_Per_Directory ≤ h') as Hlow.
  { intros h' <-. unfold chunk, Files_Per_Directory. pose proof (Z.mul_div_le h' 65536 eq_refl). lia. }
  revert h. induction fuel as [|fuel IH]; intros h Hfuel Hc; simpl.
  { left. split; [done|]. intros h' x Hh' Hc'. specialize (Hlow h' Hc'). lia. }
  destruct (Z.ltb_spec 0 h); simpl; [|left; split; [done|lia]].
  destruct (Z.eqb_spec (h / Files_Per_Directory) c) as [Hch|Hch]; simpl.
  2: { left. split; [done|]. intros h' x Hh' Hc'. pose proof (chunk_mono h' h ltac:(lia)). unfold chunk in *. lia. }
  assert (chunk (h - 1) ≤ c) as Hc1 by (pose proof (chunk_mono (h - 1) h ltac:(lia)); unfold chunk in *; lia).
  specialize (IH (h - 1) ltac:(lia) Hc1).
  destruct (HasChunkIndexEntry s h) as [x|] eqn:Hx; [destruct (Z.ltb_spec 0 (stmtSize x))|].
  1: { right. exists h, x. split_and!; try done; lia. }
  all: destruct IH as [[Hz Hall]|(h1 & x1 & Hh1 & Hch1 & Hx1 & Hpos & Hend & Hall)]; [left|right; exists h1, x1].
  all: split_and!; try done; try lia.
  - intros h' x' Hh' Hch' Hx'. destruct (decide (h' = h)) as [->|]; [simplify_eq; lia|]. apply (Hall h'); [lia|done..].
  - intros h' x' Hh' Hx'. destruct (decide (h' = h)) as [->|]; [simplify_eq; lia|]. apply (Hall h'); [lia|done].
  - intros h' x' Hh' Hch' Hx'. destruct (decide (h' = h)) as [->|]; [simplify_eq|]. apply (Hall h'); [lia|done..].
  - intros h' x' Hh' Hx'. destruct (decide (h' = h)) as [->|]; [simplify_eq|]. apply (Hall h'); [lia|done].
Qed.

Lemma find_stmt_end_spec s h :
  0 < h →
  (find_stmt_end s h = 0 ∧ ∀ h' x, 0 < h' ≤ h → chunk h' = chunk h → HasChunkIndexEntry s h' = Some x → stmtSize x ≤ 0)
  ∨ ∃ h1 x1, 0 < h1 ≤ h ∧ chunk h1 = chunk h ∧ HasChunkIndexEntry s h1 = Some x1 ∧ 0 < stmtSize x1
     ∧ find_stmt_end s h = stmt_end x1
     ∧ ∀ h' x, h1 < h' ≤ h → HasChunkIndexEntry s h' = Some x → stmtSize x ≤ 0.
Proof.
  intros Hh. apply last_stmt_end_spec; [|unfold chunk; lia].
  unfold chunk, chunk_index, Files_Per_Directory.
  pose proof (Z.div_mod h 65536 ltac:(lia)). pose proof (Z.mod_pos_bound h 65536 eq_refl). lia.
Qed.

(** The entry of a stored height, and the element it belongs to. *)
Lemma repr_stored s start bs h :
  repr s start bs → start < h ≤ start + Z.of_nat (length bs) →
  ∃ e x, bs !! Z.to_nat (h - start - 1) = Some e ∧ stored s h e x.
Proof.
  intros Hr Hh. destruct (lookup_lt_is_Some_2 bs (Z.to_nat (h - start - 1))) as [e He]; [lia|].
  destruct (repr_blocks _ _ _ Hr _ _ He) as [x Hx]. exists e, x. split; [done|].
  by replace (start + 1 + Z.of_nat (Z.to_nat (h - start - 1))) with h in Hx by lia.
Qed.

Lemma holds_inside s p offset size data c :
  holds s p offset size data → get_file s p = Some c → 0 ≤ offset → 0 ≤ size → offset + size ≤ Z.of_nat (length c).
Proof. intros (c' & Hc' & Hs) Hc Ho Hz. simplify_eq. apply slice_length in Hs as [_ Hs]. lia. Qed.

(** * Programs on the directory *)

Lemma index_height_run d : index_height d = (d, Ok (chain_height (content d))).
Proof.
  unfold index_height, index_exists, index_get, open, rf_read, disk_gets, chain_height, is_regular_file.
  exec_unfold. destruct (get_file (content d) index_dat) as [c|] eqn:Hc; simpl; [|done].
  rewrite Hc. simpl. case_decide as H8; [|done]. unfold slice. simpl. rewrite Hc. cbn [option_bind].
  rewrite decide_True by lia. by rewrite drop_0, take_ge by lia.
Qed.

Lemma wp_index_height Q C d :
  C (content d) → Q (Ok (chain_height (content d))) d → wp index_height Q C d.
Proof. intros HC HQ. apply wp_pure; rewrite ?index_height_run; done. Qed.

Lemma wp_throw_if b e Q C (d : Disk) :
  b = false → C (content d) → Q (Ok tt) d → wp (throw_if b e) Q C d.
Proof. intros -> HC HQ. by apply wp_ret. Qed.

(** Only the file [p] differs. *)
Definition changes_only (p : path) (s s' : Directory) : Prop := ∀ q, q ≠ p → get_file s' q = get_file s q.

Lemma changes_only_alter f p s : changes_only p s (alter_file f p s).
Proof. intros q Hq. by apply get_file_alter_ne. Qed.

Lemma Write64_height v : in_range 64 v → length (Write64 v) = 8%nat ∧ le_value (Write64 v) = v.
Proof. intros Hv. unfold Write64. rewrite le_bytes_length, le_value_bytes. split; [done|]. by apply wrap_small. Qed.

(** Setting the height: the index file is created empty, then written at once. *)
Lemma wp_index_set v Q C d :
  in_range 64 v → index_ok (content d) → C (content d) →
  (∀ s, changes_only index_dat (content d) s → index_ok s →
     chain_height s = chain_height (content d) ∨ chain_height s = v → C s) →
  (∀ s l, changes_only index_dat (content d) s → index_ok s → chain_height s = v → Q (Ok tt) {| content := s; log := l |}) →
  wp (index_set index_dat v) Q C d.
Proof.
  intros Hv Hok HC0 HC HQ. destruct (Write64_height v Hv) as [Hlen Hval].
  assert (∀ s c, changes_only index_dat (content d) s → get_file s index_dat = Some c → (length c ≤ 8)%nat →
    changes_only index_dat (content d) (apply_op (OpWrite index_dat 0 (Write64 v)) s)
    ∧ index_ok (apply_op (OpWrite index_dat 0 (Write64 v)) s)
    ∧ chain_height (apply_op (OpWrite index_dat 0 (Write64 v)) s) = v) as Hwrite.
  { intros s c Hs Hc Hc8.
    assert (get_file (apply_op (OpWrite index_dat 0 (Write64 v)) s) index_dat = Some (Write64 v)) as Hf.
    { unfold apply_op. rewrite get_file_alter, Hc by done. cbn [fmap option_fmap option_map].
      rewrite file_write_inside, take_0, drop_ge, app_nil_r by (rewrite ?Hlen; lia). done. }
    unfold index_ok, chain_height. rewrite Hf. simpl default. rewrite Hlen, decide_True by done. split_and!; [|lia|done].
    intros q Hq. unfold apply_op. rewrite get_file_alter_ne by done. by apply Hs. }
  assert (∀ s c (l : list FsOp), changes_only index_dat (content d) s → get_file s index_dat = Some c → (length c ≤ 8)%nat → C s →
    wp (rf_write (Write64 v) {| m_pathname := index_dat; m_fileSize := length c; m_position := 0 |} ≫= λ _, mret tt)
      Q C {| content := s; log := l |}) as Hlast.
  { intros s c l Hs Hc Hc8 Hcs. destruct (Hwrite s c Hs Hc Hc8) as (H1 & H2 & H3).
    assert (C (apply_op (OpWrite index_dat 0 (Write64 v)) s)) by (apply HC; auto).
    apply wp_bind. unfold rf_write. apply wp_bind, wp_issue_atomic; cbn [content the_disk Disk_HasDisk id m_pathname m_position]; try done.
    { simpl. unfold Atomic_Write_Size. lia. }
    apply wp_ret; [done|]. apply wp_ret; [done|]. by apply HQ. }
  assert (changes_only index_dat (content d) (content d)) as Hrefl by (by intros q ?).
  unfold index_set. apply wp_bind. unfold open. apply wp_bind, wp_disk_gets; [done|].
  apply wp_bind, wp_disk_gets; [done|]. unfold index_ok in Hok.
  destruct (get_file (content d) index_dat) as [c|] eqn:Hc; simpl in Hok |- *.
  - apply wp_ret; [done|]. apply wp_bind. unfold rf_seek. rewrite decide_False by (simpl; lia).
    apply wp_ret; [done|]. destruct d as [s l]. by apply Hlast.
  - set (s1 := apply_op (OpCreate index_dat) (content d)).
    assert (get_file s1 index_dat = Some []) as Hs1 by (unfold s1; simpl; by rewrite get_file_alter, Hc).
    assert (changes_only index_dat (content d) s1) as Hch by apply changes_only_alter.
    assert (chain_height s1 = chain_height (content d)) as Hht by (unfold chain_height; rewrite Hs1, Hc; done).
    assert (C s1) by (apply HC; [done| |by left]; unfold index_ok; rewrite Hs1; simpl; lia).
    apply wp_bind, wp_issue_atomic; try done. fold s1. apply wp_ret; [done|].
    apply wp_bind. unfold rf_seek. rewrite decide_False by (simpl; lia). apply wp_ret; [done|].
    apply (Hlast s1 []); [done|done|simpl; lia|done].
Qed.

(** Removing a directory file by file only touches that directory. *)
Definition changes_directory (directory : string) (s s' : Directory) : Prop :=
  ∀ p, (∀ name, p ≠ ChunkFile directory name) → get_file s' p = get_file s p.

Lemma wp_remove_directory order directory Q C d :
  (∀ s, changes_directory directory (content d) s → C s) →
  (∀ s l, changes_directory directory (content d) s → Q (Ok tt) {| content := s; log := l |}) →
  wp (remove_directory order directory) Q C d.
Proof.
  intros HC HQ. unfold remove_directory. apply wp_bind, wp_disk_gets; [by apply HC|]. apply wp_bind.
  apply (wp_for_each _ (λ _ d', changes_directory directory (content d) (content d'))); [| |done].
  - intros name l [s lg] HI. simpl in HI.
    assert (changes_directory directory (content d) (apply_op (OpRemove (ChunkFile directory name)) s)) as H1.
    { intros p Hp. simpl apply_op. rewrite get_file_alter_ne by (intros Heq; symmetry in Heq; by eapply Hp). by apply HI. }
    apply wp_issue_atomic; [done|by apply HC..|]. done.
  - intros [s lg] HI. simpl in HI. split; [by apply HC|].
    assert (changes_directory directory (content d) (apply_op (OpRemoveDirectory directory) s)) as H1.
    { intros p Hp. rewrite <-(HI p Hp). destruct p as [name|dir name]; [done|]. unfold get_file. simpl.
      destruct (decide (dir = directory)) as [->|]; [by destruct (Hp name)|]. by rewrite lookup_delete_ne. }
    apply wp_issue_atomic; [done|by apply HC..|]. by apply HQ.
Qed.

(** * Agreement after a change *)

Lemma agree_other s0 s f p q n : p ≠ q → agree s0 s p n → agree s0 (alter_file f q s) p n.
Proof.
  intros Hne (c0 & c & H0 & H & Hrest). exists c0, c. rewrite get_file_alter_ne by done. done.
Qed.

Lemma agree_alter s0 s f p n :
  agree s0 s p n →
  (∀ c, (n ≤ length c)%nat → (n ≤ length (f c))%nat ∧ take n (f c) = take n c) →
  agree s0 (alter_file (fmap f) p s) p n.
Proof.
  intros (c0 & c & H0 & H & Hn0 & Hn & Heq) Hf. destruct (Hf c Hn) as [Hl Ht]. exists c0, (f c).
  rewrite get_file_alter, H by (by eapply get_file_parent). rewrite Ht. done.
Qed.

Lemma agree_resize s0 s p n : agree s0 s p n → agree s0 (alter_file (fmap (file_resize n)) p s) p n.
Proof.
  intros Ha. apply agree_alter; [done|]. intros c Hc. rewrite file_resize_take by done.
  rewrite length_take, take_take. split; [lia|]. f_equal. lia.
Qed.

Lemma agree_write s0 s p n offset data :
  agree s0 s p n → (n ≤ offset)%nat → (∀ c, get_file s p = Some c → (offset ≤ length c)%nat) →
  agree s0 (alter_file (fmap (file_write offset data)) p s) p n.
Proof.
  intros (c0 & c & H0 & H & Hn0 & Hn & Heq) Hle Hin. exists c0, (file_write offset data c).
  rewrite get_file_alter, H by (by eapply get_file_parent). specialize (Hin c H).
  rewrite file_write_prefix, file_write_length by lia. split_and!; try done; lia.
Qed.

(** The three files of a chunk a rollback truncates. *)
Definition chunk_file (h : Z) (p : path) : Prop :=
  p = GetBlocksDatPath h ∨ p = GetStatementsDatPath h ∨ p = GetBlocksIdxPath h.

Lemma retains_alter s0 s f p h be se :
  retains s0 s h be se → in_range 64 h → chunk_file h p →
  (p = GetBlocksDatPath h → agree s0 (alter_file f p s) p be) →
  (p = GetStatementsDatPath h → se = 0%nat ∨ agree s0 (alter_file f p s) p se) →
  (p = GetBlocksIdxPath h → agree s0 (alter_file f p s) p (S (chunk_index h) * sizeof_Entry)) →
  retains s0 (alter_file f p s) h be se.
Proof.
  intros [Hc Hb Ht Hi Hhash] Hh Hp Hpb Hpt Hpi.
  assert (∀ c name, 0 ≤ c < chunk h → ChunkFile (sprintf_05 c) name ≠ p) as Hne.
  { pose proof (chunk_range h Hh) as Hr. unfold in_range in Hr.
    intros c name Hlt Heq. assert (sprintf_05 c = sprintf_05 (chunk h)) as Hs.
    { destruct Hp as [->|[->| ->]]; unfold GetBlocksDatPath, GetStatementsDatPath, GetBlocksIdxPath, GetDirectoryPath in Heq;
        by injection Heq. }
    apply sprintf_inj in Hs; unfold in_range; lia. }
  constructor.
  - intros c name Hlt. rewrite get_file_alter_ne by (intros Heq; symmetry in Heq; by eapply Hne). by apply Hc.
  - destruct (decide (p = GetBlocksDatPath h)) as [->|]; [by apply Hpb|]. by apply agree_other.
  - destruct (decide (p = GetStatementsDatPath h)) as [->|]; [by apply Hpt|].
    destruct Ht as [|Ht]; [by left|right]. by apply agree_other.
  - destruct (decide (p = GetBlocksIdxPath h)) as [->|]; [by apply Hpi|]. by apply agree_other.
  - rewrite get_file_alter_ne; [done|]. by destruct Hp as [->|[->| ->]].
Qed.

(** * Records as bytes *)

Lemma field_app_r a b off n : (length a ≤ off)%nat → field off n (a ++ b) = field (off - length a) n b.
Proof. intros Hle. unfold field. by rewrite drop_app_ge. Qed.

Lemma field_head n v b : in_range (8 * Z.of_nat n) v → field 0 n (le_bytes n v ++ b) = v.
Proof.
  intros Hv. unfold field. rewrite drop_0, take_app_le, take_ge by (rewrite le_bytes_length; lia).
  by rewrite le_value_bytes, wrap_small.
Qed.

(** Reads the fields of a record off its bytes. *)
Ltac read_fields :=
  unfold Write32, Write64;
  repeat match goal with
  | |- context [field ?o ?n (?a ++ ?b)] =>
      rewrite (field_app_r a b o n) by (rewrite le_bytes_length; lia); rewrite le_bytes_length; cbn [Nat.sub]
  end;
  repeat match goal with
  | |- context [field 0 ?n (le_bytes ?n ?v ++ ?b)] => rewrite (field_head n v b) by done
  | |- context [field 0 ?n (le_bytes ?n ?v)] => rewrite <-(app_nil_r (le_bytes n v)), (field_head n v []) by done
  end.

Lemma bytes_entry_bytes e :
  in_range 32 (blockOffset e) → in_range 32 (blockSize e) → in_range 32 (stmtOffset e) → in_range 32 (stmtSize e) →
  bytes_entry (entry_bytes e) = e.
Proof. intros H1 H2 H3 H4. unfold bytes_entry, entry_bytes. read_fields. by destruct e. Qed.

Record wf_header (h : RollbackJournalHeader) : Prop := {
  wf_magic : in_range 32 (magic h);
  wf_version : in_range 32 (version h);
  wf_targetHeight : in_range 64 (targetHeight h);
  wf_previousHeight : in_range 64 (previousHeight h);
  wf_targetBlockEnd : in_range 64 (targetBlockEnd h);
  wf_targetStmtEnd : in_range 64 (targetStmtEnd h);
  wf_targetIndex : in_range 32 (targetIndex h);
  wf_padding : in_range 32 (padding h);
}.

Lemma bytes_journal_bytes h : wf_header h → bytes_journal (journal_bytes h) = h.
Proof. intros []. unfold bytes_journal, journal_bytes. read_fields. by destruct h. Qed.

Lemma journal_bytes_length h : length (journal_bytes h) = sizeof_JournalHeader.
Proof. unfold journal_bytes, Write32, Write64. rewrite !length_app, !le_bytes_length. done. Qed.

Lemma entry_bytes_length e : length (entry_bytes e) = sizeof_Entry.
Proof. unfold entry_bytes, Write32. rewrite !length_app, !le_bytes_length. done. Qed.

(** * A rollback *)

Section rollback.
Context (env : Environment) (s0 : Directory) (start h : Z) (bs : list BlockElement) (hdr : RollbackJournalHeader).

Definition top : Z := start + Z.of_nat (length bs).

(** The rollback starts from a stored chain, to a height it stores or to zero. *)
Hypothesis Hrepr : repr s0 start bs.
Hypothesis Hh : h = 0 ∨ start < h ≤ top.
Hypothesis Hhdr : make_journal s0 h top = Ok hdr.

Definition at_boundary : bool := h mod Files_Per_Directory =? Files_Per_Directory - 1.

(** How much of the files of its chunk the rollback keeps: all of it when the
    height is the last one of its chunk. *)
Definition kept_blocks : nat :=
  if at_boundary then length (default [] (get_file s0 (GetBlocksDatPath h))) else Z.to_nat (targetBlockEnd hdr).
Definition kept_stmts : nat :=
  if at_boundary then length (default [] (get_file s0 (GetStatementsDatPath h))) else Z.to_nat (targetStmtEnd hdr).

(** The directory while the rollback is under way. *)
Record in_rollback (s : Directory) : Prop := {
  rb_journal : get_file s rollback_journal = Some (journal_bytes hdr);
  rb_height : chain_height s = top ∨ chain_height s = h;
  rb_index : index_ok s;
  rb_retains : h ≠ 0 → retains s0 s h kept_blocks kept_stmts;
}.

(** The chain the rollback leads to. *)
Definition target_start : Z := if 0 =? h then 0 else start.
Definition target_blocks : list BlockElement := if 0 =? h then [] else take (Z.to_nat (h - start)) bs.

Lemma h_range : in_range 64 h.
Proof. destruct (repr_range _ _ _ Hrepr). unfold in_range, top in *. destruct Hh as [->|]; lia. Qed.

Lemma top_range : in_range 64 top.
Proof. destruct (repr_range _ _ _ Hrepr). unfold in_range, top. lia. Qed.

Lemma retained_entry : h ≠ 0 → ∃ e x, stored s0 h e x.
Proof.
  intros Hnz. destruct Hh as [|Hh']; [done|].
  destruct (repr_stored _ _ _ h Hrepr) as (e & x & _ & Hx); [done|]. eauto.
Qed.

Lemma entry_stored h' x : start < h' ≤ top → HasChunkIndexEntry s0 h' = Some x → ∃ e, stored s0 h' e x.
Proof.
  intros Hh' Hx. destruct (repr_stored _ _ _ h' Hrepr) as (e & x' & _ & Hs); [done|].
  pose proof (stored_entry _ _ _ _ Hs) as Hx'. simplify_eq. eauto.
Qed.

(** An entry at or below [h] belongs to the chain. *)
Lemma entry_above_start h' x : 0 < h' → HasChunkIndexEntry s0 h' = Some x → start < h'.
Proof.
  intros Hpos Hx. destruct (decide (start < h')) as [|Hle]; [done|]. 
  rewrite (entry_size_None s0 h') in Hx; [done|]. by apply (repr_below _ _ _ Hrepr); lia.
Qed.

Lemma stmt_end_facts :
  h ≠ 0 →
  in_range 64 (find_stmt_end s0 h)
  ∧ (find_stmt_end s0 h = 0
     ∨ ∃ c, get_file s0 (GetStatementsDatPath h) = Some c ∧ find_stmt_end s0 h ≤ Z.of_nat (length c))
  ∧ ∀ h' x, start < h' ≤ h → chunk h' = chunk h → HasChunkIndexEntry s0 h' = Some x → 0 < stmtSize x →
      stmt_end x ≤ find_stmt_end s0 h.
Proof.
  intros Hnz. destruct Hh as [|Hh']; [done|]. destruct (repr_range _ _ _ Hrepr) as [Hs0 _].
  destruct (find_stmt_end_spec s0 h ltac:(lia)) as [[Hz Hall]|(h1 & x1 & Hh1 & Hc1 & Hx1 & Hpos & Hend & Hall)].
  - rewrite Hz. split_and!; [done|by left|]. intros h' x Hlt Hc Hx Hp.
    assert (stmtSize x ≤ 0) by (apply (Hall h'); [lia|done..]). lia.
  - pose proof (entry_above_start h1 x1 ltac:(lia) Hx1) as Hst.
    destruct (entry_stored h1 x1 ltac:(lia) Hx1) as [e1 [_ (Hr1 & Hr2 & Hr3 & Hr4) _ Hstmt]]. rewrite Hend. split_and!.
    + unfold in_range, stmt_end in *. change (2 ^ 32) with 4294967296 in *. lia.
    + right. destruct (be_OptionalStatement e1); [|lia]. destruct Hstmt as [_ (c & Hc & Hsl)].
      exists c. split.
      * unfold GetStatementsDatPath, GetDirectoryPath in *. unfold chunk in Hc1. by rewrite Hc1 in Hc.
      * apply slice_length in Hsl as [_ Hsl]. unfold in_range, stmt_end in *. lia.
    + intros h' x Hlt Hc Hx Hp. destruct (decide (h' ≤ h1)) as [Hle|Hgt].
      * eapply (repr_order _ _ _ Hrepr h' h1); try done; unfold top in *; try lia; congruence.
      * assert (stmtSize x ≤ 0) by (apply (Hall h'); [lia|done]). lia.
Qed.

(** What the journal says. *)
Record journal_facts : Prop := {
  jf_magic : magic hdr = Rollback_Journal_Magic ∧ version hdr = Rollback_Journal_Version;
  jf_heights : targetHeight hdr = h ∧ previousHeight hdr = top;
  jf_index : targetIndex hdr = if h =? 0 then 0 else u32 (h mod Files_Per_Directory + 1);
  jf_padding : padding hdr = 0;
  jf_whole : h = 0 ∨ at_boundary = true → targetBlockEnd hdr = 0 ∧ targetStmtEnd hdr = 0;
  jf_ends : h ≠ 0 → at_boundary = false → ∃ e x, stored s0 h e x ∧ targetBlockEnd hdr = block_end x
    ∧ targetStmtEnd hdr = find_stmt_end s0 h;
}.

Lemma not_boundary : at_boundary = false ↔ h mod Files_Per_Directory < Files_Per_Directory - 1.
Proof.
  unfold at_boundary. rewrite Z.eqb_neq. pose proof (Z.mod_pos_bound h Files_Per_Directory eq_refl). lia.
Qed.

Lemma make_journal_facts : journal_facts.
Proof.
  pose proof Hhdr as Hj. unfold make_journal in Hj. rewrite (Z.eqb_sym 0 h) in Hj.
  pose proof not_boundary as Hnb.
  destruct (Z.eqb_spec h 0) as [Hz|Hnz]; simpl in Hj.
  { injection Hj as Heq. constructor; rewrite <-?Heq; simpl; try done. by rewrite Hz. }
  destruct (Z.ltb_spec (h mod Files_Per_Directory) (Files_Per_Directory - 1)) as [Hlt|Hge].
  - destruct (retained_entry Hnz) as (e & x & Hx). rewrite (stored_entry _ _ _ _ Hx) in Hj. injection Hj as Heq.
    constructor; rewrite <-?Heq; simpl; try done.
    + by destruct (Z.eqb_spec h 0).
    + intros [|Hb]; [done|]. apply Hnb in Hlt. congruence.
    + intros _ _. eauto.
  - injection Hj as Heq. constructor; rewrite <-?Heq; simpl; try done.
    + by destruct (Z.eqb_spec h 0).
    + intros _ Hb. apply Hnb in Hb. lia.
Qed.

Lemma header_wf : wf_header hdr.
Proof.
  destruct make_journal_facts as [[Hm Hv] [Ht Hp] Hi Hpad Hw He]. pose proof h_range. pose proof top_range.
  assert (in_range 64 (targetBlockEnd hdr) ∧ in_range 64 (targetStmtEnd hdr)) as [Hb Hs].
  { destruct (decide (h = 0)) as [Hz|Hnz]; [destruct Hw as [-> ->]; [by left|done]|].
    destruct at_boundary; [destruct Hw as [-> ->]; [by right|done]|].
    destruct (He Hnz eq_refl) as (e & x & Hx & -> & ->). split; [|by apply stmt_end_facts].
    destruct (stored_offsets _ _ _ _ Hx) as (H1 & H2 & _). unfold in_range, block_end in *.
    change (2 ^ 32) with 4294967296 in *. lia. }
  constructor; try done; try congruence.
  - by rewrite Hm.
  - by rewrite Hv.
  - rewrite Hi. destruct (h =? 0); [done|]. by apply wrap_range.
  - by rewrite Hpad.
Qed.

Lemma kept_covers : h ≠ 0 → covers s0 start h kept_blocks kept_stmts.
Proof.
  intros Hnz h' x Hlt Hc Hx. destruct Hh as [|Hh']; [done|].
  destruct (entry_stored h' x ltac:(lia) Hx) as [e' Hs']. destruct Hs' as [_ (Hr1 & Hr2 & Hr3 & Hr4) Hblk Hstmt].
  assert (GetDirectoryPath h' = GetDirectoryPath h) as Hdir by (unfold GetDirectoryPath; f_equal; exact Hc).
  unfold kept_blocks, kept_stmts. destruct at_boundary eqn:Hb.
  - split.
    + destruct Hblk as (c & Hc' & Hsl). unfold GetBlocksDatPath in *. rewrite <-Hdir, Hc'. simpl.
      apply slice_length in Hsl as [_ Hsl]. unfold in_range, block_end in *. lia.
    + intros Hpos. destruct (be_OptionalStatement e'); [|lia]. destruct Hstmt as [_ (c & Hc' & Hsl)].
      unfold GetStatementsDatPath in *. rewrite <-Hdir, Hc'. simpl.
      apply slice_length in Hsl as [_ Hsl]. unfold in_range, stmt_end in *. lia.
  - destruct (jf_ends make_journal_facts Hnz Hb) as (e & y & Hy & -> & ->).
    destruct (repr_order _ _ _ Hrepr h' h x y ltac:(lia) ltac:(unfold top in *; lia) Hc Hx (stored_entry _ _ _ _ Hy)) as [Hb1 _].
    destruct (stmt_end_facts Hnz) as (Hsr & _ & Hse). split.
    + unfold block_end, in_range in *. lia.
    + intros Hpos. specialize (Hse h' x Hlt Hc Hx Hpos). unfold in_range in *. lia.
Qed.

(** The state before the first truncation keeps everything. *)
Lemma retains_refl : h ≠ 0 → retains s0 s0 h kept_blocks kept_stmts.
Proof.
  intros Hnz. destruct (retained_entry Hnz) as (e & x & Hx). pose proof Hx as [Hent (Hr1 & Hr2 & _) (c & Hc & Hsl) _].
  apply HasChunkIndexEntry_Some in Hent as (idx & b & Hidx & Hb & _ & _). apply slice_length in Hb as [_ Hb].
  constructor; [done|..].
  - apply (agree_refl _ _ c); [done|]. unfold kept_blocks. destruct at_boundary eqn:Hbd; [by rewrite Hc|].
    destruct (jf_ends make_journal_facts Hnz Hbd) as (e' & x' & Hx' & -> & _).
    pose proof (stored_entry _ _ _ _ Hx) as H1. rewrite (stored_entry _ _ _ _ Hx') in H1. injection H1 as ->.
    apply slice_length in Hsl as [_ Hsl]. unfold in_range, block_end in *. lia.
  - unfold kept_stmts. destruct at_boundary eqn:Hbd.
    + destruct (get_file s0 (GetStatementsDatPath h)) as [t|] eqn:Ht; [right|by left]. by apply (agree_refl _ _ t).
    + destruct (jf_ends make_journal_facts Hnz Hbd) as (e' & x' & Hx' & _ & ->).
      destruct (stmt_end_facts Hnz) as (_ & [->|(t & Ht & Hle)] & _); [by left|right].
      apply (agree_refl _ _ t); [done|lia].
  - apply (agree_refl _ _ idx); [done|]. lia.
  - done.
Qed.

(** Once the height is set, what is left is the target chain. *)
Lemma rollback_done s :
  in_rollback s → chain_height s = h → repr (alter_file (λ _, None) rollback_journal s) target_start target_blocks.
Proof.
  intros [Hj Hht Hix Hret] Heq. set (s' := alter_file _ _ s).
  assert (∀ p, p ≠ rollback_journal → get_file s' p = get_file s p) as Hsame by (intros; by apply get_file_alter_ne).
  assert (get_file s' rollback_journal = None) as Hnone by (unfold s'; by rewrite get_file_alter).
  assert (chain_height s' = h) as Hch by (unfold chain_height in *; by rewrite Hsame by done).
  assert (index_ok s') as Hix' by (unfold index_ok in *; by rewrite Hsame by done).
  unfold target_start, target_blocks. destruct (Z.eqb_spec 0 h) as [Hz|Hnz].
  - constructor; simpl; try done; try lia.
  - destruct Hh as [|Hh']; [congruence|].
    eapply (repr_retained s0 s'); try done; [by apply kept_covers|].
    destruct (Hret ltac:(congruence)) as [H1 H2 H3 H4 H5]. unfold s'. constructor.
    + intros. rewrite get_file_alter_ne by done. by apply H1.
    + by apply agree_other.
    + destruct H3; [by left|right]. by apply agree_other.
    + by apply agree_other.
    + by rewrite get_file_alter_ne.
Qed.

(** ** The steps of the rollback *)

Lemma in_rollback_change s s' d n :
  in_rollback s → changes_only (ChunkFile d n) s s' → (h ≠ 0 → retains s0 s' h kept_blocks kept_stmts) → in_rollback s'.
Proof.
  intros [Hj Hht Hix Hret] Hch Hr. constructor; unfold chain_height, index_ok in *; rewrite ?Hch by done; done.
Qed.

Lemma in_rollback_entry s : in_rollback s → h ≠ 0 → HasChunkIndexEntry s h = HasChunkIndexEntry s0 h.
Proof.
  intros Hr Hnz. pose proof h_range as [? _]. eapply retains_entry; [by apply Hr|]. lia.
Qed.

Lemma in_rollback_stmt_end s : in_rollback s → h ≠ 0 → find_stmt_end s h = find_stmt_end s0 h.
Proof.
  intros Hr Hnz. apply last_stmt_end_ext. intros h' Hh'. eapply retains_entry; [by apply Hr|done].
Qed.

(** The journal stays valid until the rollback is complete. *)
Lemma wp_validate d :
  in_rollback (content d) → wp (ValidateRollbackJournal hdr) (λ r d', r = Ok tt ∧ d' = d) in_rollback d.
Proof.
  intros Hr. destruct make_journal_facts as [[Hm Hv] [Ht Hp] Hi Hpad Hw He]. unfold ValidateRollbackJournal.
  apply wp_bind, wp_throw_if; [rewrite Hm, Hv; done|done|].
  apply wp_bind, wp_throw_if; [|done|].
  { rewrite Ht, Hp. apply Z.ltb_ge. destruct (repr_range _ _ _ Hrepr). unfold top in *. destruct Hh as [->|]; lia. }
  apply wp_bind, wp_throw_if; [rewrite Hi, Ht; apply negb_false_iff, Z.eqb_refl|done|].
  apply wp_bind, wp_index_height; [done|].
  apply wp_bind, wp_throw_if; [|done|].
  { rewrite Hp, Ht. destruct (rb_height _ Hr) as [->| ->]; rewrite Z.eqb_refl; [done|]. apply andb_false_r. }
  rewrite Ht. destruct (Z.eqb_spec h 0) as [Hz|Hnz].
  { destruct Hw as [-> ->]; [by left|]. by apply wp_throw_if. }
  apply wp_bind, wp_disk_gets; [done|]. simpl.
  destruct (retained_entry Hnz) as (e & x & Hx). pose proof (rb_retains _ Hr Hnz) as Hret.
  destruct (retains_blocks _ _ _ _ _ Hret) as (b0 & b & Hb0 & Hb & Hlb0 & Hlb & Heqb).
  destruct (retains_idx _ _ _ _ _ Hret) as (i0 & i & Hi0 & Hi' & _).
  apply wp_bind, wp_throw_if; [by erewrite is_regular_file_true|done|].
  apply wp_bind, wp_throw_if; [by erewrite is_regular_file_true|done|].
  rewrite in_rollback_entry, (stored_entry _ _ _ _ Hx) by done. fold at_boundary.
  destruct at_boundary eqn:Hbd.
  { destruct Hw as [-> ->]; [by right|]. by apply wp_throw_if. }
  destruct (He Hnz eq_refl) as (e' & x' & Hx' & HbE & HsE).
  pose proof (stored_entry _ _ _ _ Hx') as Hent. rewrite (stored_entry _ _ _ _ Hx) in Hent. injection Hent as <-.
  assert (0 ≤ targetBlockEnd hdr) as HbE0.
  { rewrite HbE. destruct (stored_offsets _ _ _ _ Hx) as (H1 & H2 & _). unfold in_range, block_end in *. lia. }
  assert (0 ≤ targetStmtEnd hdr) as HsE0 by (rewrite HsE; by apply stmt_end_facts).
  unfold kept_blocks in Hlb. rewrite Hbd in Hlb.
  apply wp_bind, wp_throw_if; [|done|].
  { apply Z.ltb_ge. unfold file_size. rewrite Hb. simpl. lia. }
  apply wp_bind, wp_throw_if; [|done|].
  { rewrite HbE. unfold block_end. by rewrite Z.eqb_refl. }
  apply wp_bind, wp_throw_if; [|done|].
  { rewrite in_rollback_stmt_end, HsE, Z.eqb_refl by done. done. }
  destruct (Z.ltb_spec 0 (targetStmtEnd hdr)); [|by apply wp_ret].
  pose proof (retains_stmts _ _ _ _ _ Hret) as Hst. unfold kept_stmts in Hst. rewrite Hbd in Hst.
  destruct Hst as [|(t0 & t & Ht0 & Ht' & Hlt0 & Hlt & _)]; [lia|].
  apply wp_bind, wp_throw_if; [by erewrite is_regular_file_true|done|].
  apply wp_throw_if; [|done|done]. apply Z.ltb_ge. unfold file_size. rewrite Ht'. simpl. lia.
Qed.

(** One truncation of a file of the retained chunk. *)
Lemma wp_resize_present p n d :
  in_rollback (content d) →
  in_rollback (alter_file (fmap (file_resize (Z.to_nat n))) p (content d)) →
  wp (resize_if_present p n) (λ r d', r = Ok tt ∧ in_rollback (content d')) in_rollback d.
Proof.
  intros Hr Hr'. unfold resize_if_present. apply wp_bind, wp_disk_gets; [done|].
  destruct (is_regular_file _ _); [by apply wp_issue_atomic|by apply wp_ret].
Qed.

Lemma wp_resize_file p n d c :
  in_rollback (content d) → get_file (content d) p = Some c →
  in_rollback (alter_file (fmap (file_resize (Z.to_nat n))) p (content d)) →
  wp (resize_file p n) (λ r d', r = Ok tt ∧ in_rollback (content d')) in_rollback d.
Proof.
  intros Hr Hc Hr'. unfold resize_file. apply wp_bind, wp_disk_gets; [done|].
  erewrite is_regular_file_true by done. by apply wp_issue_atomic.
Qed.

Lemma wp_zero_index d :
  h ≠ 0 → in_rollback (content d) →
  wp (zero_index (GetBlocksIdxPath h) (S (chunk_index h) * sizeof_Entry))
    (λ r d', r = Ok tt ∧ in_rollback (content d')) in_rollback d.
Proof.
  intros Hnz Hr. pose proof (rb_retains _ Hr Hnz) as Hret.
  destruct (retains_idx _ _ _ _ _ Hret) as (i0 & i & Hi0 & Hi & Hli0 & Hli & Heqi).
  set (n := (S (chunk_index h) * sizeof_Entry)%nat) in *.
  assert (∀ data, in_rollback (apply_op (OpWrite (GetBlocksIdxPath h) n data) (content d))) as Hwr.
  { intros data. eapply in_rollback_change; [exact Hr|apply changes_only_alter|]. intros _. unfold apply_op.
    apply retains_alter; [done|apply h_range|unfold chunk_file; tauto|done|done|].
    intros _. apply agree_write; [by apply Hret|done|]. intros c Hc. by simplify_eq. }
  unfold zero_index, open. apply wp_bind, wp_bind, wp_disk_gets; [done|]. apply wp_bind, wp_disk_gets; [done|].
  rewrite Hi. apply wp_ret; [done|]. simpl m_fileSize. case_decide; [|by apply wp_ret].
  apply wp_bind. unfold rf_seek. rewrite decide_False by (simpl; lia). apply wp_ret; [done|].
  apply wp_bind. unfold rf_write. apply wp_bind, wp_issue; simpl; [done|apply Hwr| |].
  { intros s Hs. inversion Hs; subst. apply Hwr. }
  apply wp_ret; [apply Hwr|]. apply wp_ret; [apply Hwr|]. split; [done|apply Hwr].
Qed.

Lemma wp_truncate d :
  in_rollback (content d) → wp (truncate_chunk hdr) (λ r d', r = Ok tt ∧ in_rollback (content d')) in_rollback d.
Proof.
  intros Hr. destruct make_journal_facts as [_ [Ht _] Hi _ _ _]. unfold truncate_chunk. rewrite Ht.
  destruct (Z.eqb_spec 0 h) as [Hz|Hnz].
  { assert (∀ p f s, chunk_file 0 p → in_rollback s → in_rollback (alter_file f p s)) as Hany.
    { intros p f s Hp Hs. destruct Hp as [->|[->| ->]]; (eapply in_rollback_change; [exact Hs|apply changes_only_alter|congruence]). }
    unfold chunk_file in Hany. apply wp_bind. eapply wp_mono; [apply wp_resize_present; auto 10| |done].
    intros r d1 [-> Hr1] _. apply wp_bind. eapply wp_mono; [apply wp_resize_present; auto 10| |done].
    intros r d2 [-> Hr2] _. apply wp_resize_present; auto 10. }
  destruct (Z.ltb_spec (h mod Files_Per_Directory) (Files_Per_Directory - 1)) as [Hlt|]; [|by apply wp_ret].
  assert (at_boundary = false) as Hbd by (by apply not_boundary).
  assert (∀ s, in_rollback s → retains s0 s h (Z.to_nat (targetBlockEnd hdr)) (Z.to_nat (targetStmtEnd hdr))) as Hret.
  { intros s Hs. pose proof (rb_retains _ Hs ltac:(congruence)) as H. unfold kept_blocks, kept_stmts in H. by rewrite Hbd in H. }
  assert (∀ s, in_rollback s → in_rollback (alter_file (fmap (file_resize (Z.to_nat (targetBlockEnd hdr)))) (GetBlocksDatPath h) s)) as Hb.
  { intros s Hs. eapply in_rollback_change; [exact Hs|apply changes_only_alter|]. intros _. unfold kept_blocks, kept_stmts.
    rewrite Hbd. apply retains_alter; [by apply Hret|apply h_range|unfold chunk_file; tauto| |done..].
    intros _. apply agree_resize. by apply Hret. }
  assert (∀ s, in_rollback s → in_rollback (alter_file (fmap (file_resize (Z.to_nat (targetStmtEnd hdr)))) (GetStatementsDatPath h) s)) as Hs'.
  { intros s Hs. eapply in_rollback_change; [exact Hs|apply changes_only_alter|]. intros _. unfold kept_blocks, kept_stmts.
    rewrite Hbd. apply retains_alter; [by apply Hret|apply h_range|unfold chunk_file; tauto|done| |done].
    intros _. destruct (retains_stmts _ _ _ _ _ (Hret s Hs)); [by left|right]. by apply agree_resize. }
  apply wp_bind. destruct (retains_blocks _ _ _ _ _ (Hret _ Hr)) as (b0 & b & _ & Hbf & _).
  eapply wp_mono; [eapply wp_resize_file; eauto| |done]. intros r d1 [-> Hr1] _. apply wp_bind.
  apply (wp_mono _ (λ r d', r = Ok tt ∧ in_rollback (content d')) _ in_rollback _).
  { destruct (Z.ltb_spec 0 (targetStmtEnd hdr)) as [Hpos|Hneg].
    - destruct (retains_stmts _ _ _ _ _ (Hret _ Hr1)) as [|(t0 & t & _ & Htf & _)]; [lia|]. eapply wp_resize_file; eauto.
    - apply wp_resize_present; [done|]. specialize (Hs' _ Hr1).
      by replace (Z.to_nat (targetStmtEnd hdr)) with (Z.to_nat 0) in Hs' by lia. }
  2: done. intros r d2 [-> Hr2] _.
  replace (Z.to_nat (targetIndex hdr)) with (S (chunk_index h)); [apply wp_zero_index; [congruence|done]|].
  rewrite Hi. destruct (Z.eqb_spec h 0); [congruence|]. pose proof (Z.mod_pos_bound h Files_Per_Directory eq_refl).
  unfold chunk_index, Files_Per_Directory in *. rewrite wrap_small by (unfold in_range; change (2 ^ 32) with 4294967296; lia). lia.
Qed.

(** The rollback has set the height. *)
Definition committed (s : Directory) : Prop := in_rollback s ∧ chain_height s = h.

Definition retained_chunk : Z := if 0 =? h then 0 else h / Files_Per_Directory.

Definition future (name : string) : Prop := ∃ chunkId, TryGetChunkId name = Some chunkId ∧ retained_chunk < chunkId.

(** Removing a future chunk touches nothing the rollback keeps. *)
Lemma committed_change name s s' : future name → committed s → changes_directory name s s' → committed s'.
Proof.
  intros (id & Hid & Hlt) [[Hj Hht Hix Hret] Heq] Hch.
  assert (∀ c file, 0 ≤ c ≤ chunk h → h ≠ 0 → get_file s' (ChunkFile (sprintf_05 c) file) = get_file s (ChunkFile (sprintf_05 c) file)) as Hkeep.
  { intros c file Hc Hnz. apply Hch. intros file' [= Hname _]. rewrite <-Hname in Hid.
    pose proof (chunk_range h h_range) as [_ Hmax]. apply TryGetChunkId_sprintf in Hid; [|unfold in_range; lia].
    unfold retained_chunk in Hlt. destruct (Z.eqb_spec 0 h); [congruence|]. unfold chunk in Hc. lia. }
  assert (∀ name, get_file s' (RootFile name) = get_file s (RootFile name)) as Hroot by (intros; by apply Hch).
  unfold committed, chain_height, index_ok in *. unfold index_dat, rollback_journal in *. rewrite !Hroot.
  split; [|done]. constructor; unfold chain_height, index_ok, index_dat, rollback_journal; rewrite ?Hroot; try done.
  intros Hnz. destruct (Hret Hnz) as [H1 H2 H3 H4 H5]. pose proof h_range as [H0 _].
  assert (0 ≤ chunk h) by (apply Z.div_pos; [done|unfold Files_Per_Directory; lia]).
  assert (∀ file, get_file s' (ChunkFile (GetDirectoryPath h) file) = get_file s (ChunkFile (GetDirectoryPath h) file)) as Hown
    by (intros; apply (Hkeep (chunk h)); [lia|done]).
  unfold agree, GetBlocksDatPath, GetStatementsDatPath, GetBlocksIdxPath, GetHashFilePath in *.
  constructor; unfold agree, GetBlocksDatPath, GetStatementsDatPath, GetBlocksIdxPath, GetHashFilePath; rewrite ?Hown; try done.
  intros c file Hc. rewrite Hkeep by (done || lia). by apply H1.
Qed.

Lemma wp_purge d l :
  Forall future l → committed (content d) →
  wp (for_each (remove_directory (directory_order env)) l) (λ r d', r = Ok tt ∧ committed (content d')) committed d.
Proof.
  intros Hl Hc. apply (wp_for_each _ (λ l d', Forall future l ∧ committed (content d'))); [| |done].
  - intros name l' d' [[Hname Hl']%Forall_cons Hd']. apply wp_remove_directory.
    + intros s' Hs'. by eapply committed_change.
    + intros s' lg Hs'. split_and!; [done..|]. by eapply committed_change.
  - intros d' [_ Hd']. done.
Qed.

(** The rollback runs to its end from wherever it was left. *)
Lemma wp_apply d :
  in_rollback (content d) →
  wp (ApplyRollbackOperations env hdr) (λ r d', r = Ok tt ∧ committed (content d')) in_rollback d.
Proof.
  intros Hr. destruct make_journal_facts as [_ [Ht _] _ _ _ _]. unfold ApplyRollbackOperations.
  apply wp_bind. eapply wp_mono; [by apply wp_validate| |done]. intros r ? [-> ->] _.
  apply wp_bind. eapply wp_mono; [by apply wp_truncate| |done]. intros r d1 [-> Hr1] _.
  assert (∀ s, changes_only index_dat (content d1) s → index_ok s → chain_height s = top ∨ chain_height s = h → in_rollback s) as Hset.
  { intros s Hch Hok Hht. destruct Hr1 as [Hj _ _ Hret]. constructor; [by rewrite Hch|done|done|].
    intros Hnz. destruct (Hret Hnz) as [H1 H2 H3 H4 H5]. unfold agree, GetBlocksDatPath, GetStatementsDatPath, GetBlocksIdxPath, GetHashFilePath in *.
    constructor; unfold agree, GetBlocksDatPath, GetStatementsDatPath, GetBlocksIdxPath, GetHashFilePath; rewrite ?Hch by done; try done.
    intros. rewrite Hch by done. by apply H1. }
  rewrite Ht. apply wp_bind, wp_index_set; [apply h_range|by apply Hr1|done| |].
  { intros s Hch Hok [Hs|Hs]; apply Hset; try done; [|by right]. rewrite Hs. apply (rb_height _ Hr1). }
  intros s lg Hch Hok Hs. assert (in_rollback s) by (apply Hset; auto).
  apply wp_bind, wp_disk_gets; [done|]. eapply wp_mono; [apply wp_purge| |by intros ? []]; [|done|done].
  apply Forall_forall. intros name Hname. unfold future_chunks in Hname. apply list_elem_of_filter in Hname as [Hname _].
  destruct (TryGetChunkId name) as [id|] eqn:Hid; [|done]. apply Z.ltb_lt in Hname. by exists id.
Qed.

Lemma wp_remove_journal d :
  committed (content d) →
  wp remove_journal (λ r d', r = Ok tt ∧ repr (content d') target_start target_blocks)
    (λ s, in_rollback s ∨ repr s target_start target_blocks) d.
Proof.
  intros [Hr Hht]. unfold remove_journal. apply wp_bind, wp_disk_gets; [by left|].
  erewrite is_regular_file_true by apply Hr. pose proof (rollback_done _ Hr Hht) as Hdone.
  apply wp_issue_atomic; [done|by left|by right|done].
Qed.

(** ** Recovery *)

Lemma in_rollback_store_eq s s' : store_eq s s' → in_rollback s → in_rollback s'.
Proof.
  intros Heq [H1 H2 H3 H4]. destruct Heq as [Ec Ei Ej]. constructor; unfold chain_height, index_ok in *; rewrite <-?Ei, <-?Ej; try done.
  intros Hnz. destruct (H4 Hnz) as [R1 R2 R3 R4 R5]. unfold agree, GetBlocksDatPath, GetStatementsDatPath, GetBlocksIdxPath, GetHashFilePath in *.
  constructor; unfold agree, GetBlocksDatPath, GetStatementsDatPath, GetBlocksIdxPath, GetHashFilePath; rewrite <-?Ec; try done.
  intros. rewrite <-Ec. by apply R1.
Qed.

End rollback.

(** Temporary journals are neither the index nor the journal. *)
Lemma tmp_name_other name : is_journal_tmp name = true → name ≠ "index.dat" ∧ name ≠ "rollback.journal".
Proof. intros Hn. split; intros ->; done. Qed.

(** Cleaning up before a recovery changes nothing that is stored. *)
Section cleanup.
Context (env : Environment) (P : Directory → Prop).
Hypothesis P_store_eq : ∀ s s', store_eq s s' → P s → P s'.

Lemma wp_acquire_lock d :
  lock_held env = false → P (content d) →
  wp (acquire_rollback_lock env) (λ r d', r = Ok tt ∧ P (content d')) P d.
Proof.
  intros Hl HP. unfold acquire_rollback_lock. apply wp_bind, wp_disk_gets; [done|]. apply wp_bind.
  assert (P (apply_op (OpCreate rollback_lock) (content d))) as HP'.
  { eapply P_store_eq; [|exact HP]. symmetry. by apply store_eq_root. }
  destruct (is_regular_file _ _).
  - apply wp_ret; [done|]. by apply wp_throw_if.
  - apply wp_issue_atomic; [done..|]. by apply wp_throw_if.
Qed.

Lemma wp_remove_tmps l d :
  Forall (λ name, is_journal_tmp name = true) l → P (content d) →
  wp (for_each (λ name, issue (OpRemove (RootFile name))) l) (λ r d', r = Ok tt ∧ P (content d')) P d.
Proof.
  intros Hl HP. apply (wp_for_each _ (λ l d', Forall (λ name, is_journal_tmp name = true) l ∧ P (content d'))); [| |done].
  - intros name l' d' [[Hname Hl']%Forall_cons Hd']. apply tmp_name_other in Hname as [H1 H2].
    assert (P (apply_op (OpRemove (RootFile name)) (content d'))) as HP'.
    { eapply P_store_eq; [|exact Hd']. symmetry. by apply store_eq_root. }
    by apply wp_issue_atomic.
  - intros d' [_ Hd']. done.
Qed.

End cleanup.

Lemma read_journal_run hdr d :
  wf_header hdr → get_file (content d) rollback_journal = Some (journal_bytes hdr) → read_journal d = (d, Ok hdr).
Proof.
  intros Hwf Hj. unfold read_journal, open, rf_read, disk_gets, mbind, exec_bind, gets, mret, exec_ret.
  cbn beta iota. rewrite Hj. cbn beta iota. cbn [m_fileSize m_pathname m_position]. rewrite journal_bytes_length.
  rewrite Nat.eqb_refl. cbn [negb]. rewrite Hj. cbn [option_bind]. unfold slice. rewrite journal_bytes_length, decide_True by lia.
  cbn [fst]. rewrite drop_0, take_ge by (rewrite journal_bytes_length; lia). by rewrite bytes_journal_bytes.
Qed.

(** The directory is somewhere in a rollback of the chain [bs] to [h]. *)
Definition rolling_back (start : Z) (bs : list BlockElement) (h : Z) (s : Directory) : Prop :=
  ∃ s0 hdr, repr s0 start bs ∧ (h = 0 ∨ start < h ≤ top start bs)
    ∧ make_journal s0 h (top start bs) = Ok hdr ∧ in_rollback s0 start h bs hdr s.

Definition rolled_back (start : Z) (bs : list BlockElement) (h : Z) (s : Directory) : Prop :=
  repr s (target_start start h) (target_blocks start h bs).

Lemma rolling_back_store_eq start bs h s s' : store_eq s s' → rolling_back start bs h s → rolling_back start bs h s'.
Proof. intros Heq (s0 & hdr & H1 & H2 & H3 & H4). exists s0, hdr. split_and!; try done. by eapply in_rollback_store_eq. Qed.

Lemma repr_store_eq start bs s s' : store_eq s s' → repr s start bs → repr s' start bs.
Proof. intros Heq. by rewrite Heq. Qed.

Lemma wp_apply_and_finish env start bs h s0 hdr d :
  repr s0 start bs → (h = 0 ∨ start < h ≤ top start bs) → make_journal s0 h (top start bs) = Ok hdr →
  in_rollback s0 start h bs hdr (content d) →
  wp (ApplyRollbackOperations env hdr ≫= λ _, remove_journal)
    (λ r d', r = Ok tt ∧ rolled_back start bs h (content d'))
    (λ s, rolling_back start bs h s ∨ rolled_back start bs h s) d.
Proof.
  intros H1 H2 H3 H4. assert (∀ s, in_rollback s0 start h bs hdr s → rolling_back start bs h s) as Hroll by (by exists s0, hdr).
  apply wp_bind. eapply wp_mono; [by eapply wp_apply| |intros; left; by apply Hroll]. intros r d1 [-> Hc] _.
  eapply wp_mono; [by eapply wp_remove_journal|done|]. intros s [Hs|Hs]; [left; by apply Hroll|by right].
Qed.

(** Recovery ends the rollback it finds. *)
Lemma wp_recover_rollback env start bs h d :
  lock_held env = false → rolling_back start bs h (content d) →
  wp (recoverUnfinishedRollback env) (λ r d', r = Ok tt ∧ rolled_back start bs h (content d'))
    (λ s, rolling_back start bs h s ∨ rolled_back start bs h s) d.
Proof.
  intros Hl Hr. unfold recoverUnfinishedRollback.
  assert (∀ s, rolling_back start bs h s → is_regular_file s rollback_journal = true) as Hj.
  { intros s (s0 & hdr & _ & _ & _ & Hs). eapply is_regular_file_true, Hs. }
  assert (∀ s, rolling_back start bs h s → rolling_back start bs h s ∨ rolled_back start bs h s) as Hleft by (by left).
  apply wp_bind, wp_disk_gets; [by left|]. apply wp_bind, wp_disk_gets; [by left|]. rewrite (Hj _ Hr). cbn [negb andb].
  apply wp_bind. eapply wp_mono; [by apply (wp_acquire_lock env (rolling_back start bs h)); [apply rolling_back_store_eq|..]| |done].
  intros r d1 [-> Hr1] _. apply wp_bind, wp_disk_gets; [by left|]. apply wp_bind.
  eapply wp_mono; [apply (wp_remove_tmps (rolling_back start bs h)); [apply rolling_back_store_eq| |done]| |done].
  { apply Forall_forall. intros name Hn. unfold journal_tmps in Hn. by apply list_elem_of_filter in Hn as [? _]. }
  intros r d2 [-> Hr2] _. apply wp_bind, wp_disk_gets; [by left|]. rewrite (Hj _ Hr2). cbn [negb].
  destruct Hr2 as (s0 & hdr & H1 & H2 & H3 & H4). pose proof (header_wf _ _ _ _ _ H1 H2 H3) as Hwf.
  apply wp_bind, wp_pure; rewrite ?(read_journal_run hdr) by (done || apply H4); [done| |].
  { left. by exists s0, hdr. }
  by eapply wp_apply_and_finish.
Qed.

(** Without a journal recovery only removes temporary files. *)
Lemma wp_recover_repr env start bs d :
  lock_held env = false → repr (content d) start bs →
  wp (recoverUnfinishedRollback env) (λ r d', r = Ok tt ∧ repr (content d') start bs) (λ s, repr s start bs) d.
Proof.
  intros Hl Hr. unfold recoverUnfinishedRollback.
  assert (∀ s, repr s start bs → is_regular_file s rollback_journal = false) as Hj.
  { intros s Hs. apply is_regular_file_false, Hs. }
  apply wp_bind, wp_disk_gets; [done|]. apply wp_bind, wp_disk_gets; [done|]. rewrite (Hj _ Hr). cbn [negb andb].
  case_bool_decide; [by apply wp_ret|]. apply wp_bind.
  eapply wp_mono; [by apply (wp_acquire_lock env (λ s, repr s start bs)); [intros ??; apply repr_store_eq|..]| |done].
  intros r d1 [-> Hr1] _. apply wp_bind, wp_disk_gets; [done|]. apply wp_bind.
  eapply wp_mono; [apply (wp_remove_tmps (λ s, repr s start bs)); [intros ??; apply repr_store_eq| |done]| |done].
  { apply Forall_forall. intros name Hn. unfold journal_tmps in Hn. by apply list_elem_of_filter in Hn as [? _]. }
  intros r d2 [-> Hr2] _. apply wp_bind, wp_disk_gets; [done|]. rewrite (Hj _ Hr2). by apply wp_ret.
Qed.

(** * Publishing the journal *)

Lemma substring_all s : String.substring 0 (String.length s) s = s.
Proof. induction s as [|c s IH]; simpl; [done|]. by rewrite IH. Qed.

Lemma substring_end a b : String.substring (String.length a) (String.length b) (a +:+ b) = b.
Proof. induction a as [|c a IH]; simpl; [apply substring_all|done]. Qed.

Lemma substring_start a b : String.substring 0 (String.length a) (a +:+ b) = a.
Proof. induction a as [|c a IH]; [by destruct b|]. change (String c a +:+ b)%string with (String c (a +:+ b)). simpl. by rewrite IH. Qed.

Lemma string_app_assoc a b c : (a +:+ (b +:+ c) = (a +:+ b) +:+ c)%string.
Proof. induction a as [|x a IH]; [done|]. change (String x (a +:+ (b +:+ c)) = String x ((a +:+ b) +:+ c))%string. by rewrite IH. Qed.

Lemma string_length_app a b : String.length (a +:+ b) = (String.length a + String.length b)%nat.
Proof. induction a as [|c a IH]; simpl; [done|]. by rewrite IH. Qed.

Lemma journal_tmp_is_tmp env counter : is_journal_tmp (journal_tmp_name env counter) = true.
Proof.
  unfold is_journal_tmp, journal_tmp_name. apply orb_true_iff. right. apply andb_true_iff.
  split; [apply String.prefix_correct, substring_start|].
  set (name := ("rollback.journal." +:+ _)%string).
  assert (∃ a, name = (a +:+ ".tmp")%string) as [a ->].
  { unfold name. exists ("rollback.journal." +:+ to_string (process_id env) +:+ "." +:+ to_string counter)%string.
    by rewrite !string_app_assoc. }
  rewrite string_length_app. change (String.length ".tmp") with 4%nat.
  replace (String.length a + 4 - 4)%nat with (String.length a) by lia.
  pose proof (substring_end a ".tmp") as Hend. change (String.length ".tmp") with 4%nat in Hend. by rewrite Hend.
Qed.

(** Opening a file of the root for writing leaves it empty. *)
Lemma wp_truncate_open name (P : Directory → Prop) d :
  (∀ f s, P s → P (alter_file f (RootFile name) s)) → P (content d) →
  wp (open (RootFile name) Read_Write)
    (λ r d', r = Ok {| m_pathname := RootFile name; m_fileSize := 0; m_position := 0 |}
             ∧ P (content d') ∧ get_file (content d') (RootFile name) = Some []) P d.
Proof.
  intros HP Hd. unfold open. apply wp_bind, wp_disk_gets; [done|]. apply wp_bind, wp_disk_gets; [done|]. simpl has_parent.
  destruct (get_file (content d) (RootFile name)) as [c|] eqn:Hc.
  - apply wp_bind, wp_issue_atomic; [done..|by apply HP|]. apply wp_ret; [by apply HP|]. split_and!; [done|by apply HP|].
    unfold apply_op. simpl content. rewrite get_file_alter, Hc by done. cbn. unfold file_resize. by rewrite take_0.
  - apply wp_bind, wp_issue_atomic; [done..|by apply HP|]. apply wp_ret; [by apply HP|]. split_and!; [done|by apply HP|].
    simpl content. unfold apply_op. by rewrite get_file_alter, Hc.
Qed.

(** Publishing under a name that is free. *)
Lemma get_file_link from to s c p :
  get_file s (RootFile from) = Some c → get_file s (RootFile to) = None →
  get_file (apply_op (OpLink from to) s) p = if decide (p = RootFile to) then Some c else get_file s p.
Proof.
  unfold get_file. simpl. intros -> ->. destruct p as [name|]; [|done]. simpl.
  destruct (decide (name = to)) as [->|Hne]; [by rewrite lookup_insert_eq, decide_True|].
  by rewrite lookup_insert_ne, decide_False by congruence.
Qed.

Lemma get_file_rename from to s c p :
  get_file s (RootFile from) = Some c →
  get_file (apply_op (OpRename from to) s) p =
    if decide (p = RootFile to) then Some c else if decide (p = RootFile from) then None else get_file s p.
Proof.
  unfold get_file. simpl. intros ->. destruct p as [name|]; [|done]. simpl.
  destruct (decide (name = to)) as [->|Hne]; [by rewrite lookup_insert_eq, decide_True|].
  rewrite lookup_insert_ne, decide_False by congruence.
  destruct (decide (name = from)) as [->|Hne']; [by rewrite lookup_delete_eq, decide_True|].
  by rewrite lookup_delete_ne, decide_False by congruence.
Qed.

(** [s0] with a journal. *)
Record published (s0 : Directory) (hdr : RollbackJournalHeader) (s : Directory) : Prop := {
  pub_chunks : ∀ directory name, get_file s (ChunkFile directory name) = get_file s0 (ChunkFile directory name);
  pub_index : get_file s index_dat = get_file s0 index_dat;
  pub_journal : get_file s rollback_journal = Some (journal_bytes hdr);
}.

Lemma published_store_eq s0 hdr s s' : store_eq s s' → published s0 hdr s → published s0 hdr s'.
Proof. intros [H1 H2 H3] [P1 P2 P3]. constructor; congruence. Qed.

(** A directory that gains a journal, and changes nothing else but the temporary file. *)
Lemma published_intro tmp s0 hdr s s' :
  tmp ≠ "index.dat" → store_eq s s0 →
  (∀ p, p ≠ rollback_journal → p ≠ RootFile tmp → get_file s' p = get_file s p) →
  get_file s' rollback_journal = Some (journal_bytes hdr) → published s0 hdr s'.
Proof.
  intros Hn [Hc Hi _] Hs Hsj. constructor; [|rewrite Hs; [exact Hi|done|unfold index_dat; congruence]|done].
  intros. rewrite Hs by done. apply Hc.
Qed.

(** The temporary file becomes the journal. *)
Lemma wp_publish_tmp env tmp s0 hdr d :
  is_journal_tmp tmp = true → store_eq (content d) s0 → get_file s0 rollback_journal = None →
  get_file (content d) (RootFile tmp) = Some (journal_bytes hdr) →
  wp (if hard_links env then issue (OpLink tmp "rollback.journal") ≫= λ _, issue (OpRemove (RootFile tmp))
      else issue (OpRename tmp "rollback.journal"))
    (λ r d', r = Ok tt ∧ published s0 hdr (content d'))
    (λ s, store_eq s s0 ∨ published s0 hdr s) d.
Proof.
  intros Htmp Hs Hj Hf. destruct (tmp_name_other tmp Htmp) as [Hn1 Hn2]. destruct (hard_links env).
  - set (s3 := apply_op (OpLink tmp "rollback.journal") (content d)).
    assert (∀ p, get_file s3 p = if decide (p = rollback_journal) then Some (journal_bytes hdr) else get_file (content d) p) as Hf3.
    { intros p. apply get_file_link; [done|]. fold rollback_journal. by rewrite (eq_journal _ _ Hs). }
    assert (published s0 hdr s3) as H3.
    { apply (published_intro tmp s0 hdr (content d)); [done|done| |by rewrite Hf3, decide_True].
      intros p Hp Hp'. by rewrite Hf3, decide_False. }
    assert (published s0 hdr (apply_op (OpRemove (RootFile tmp)) s3)) as H4.
    { eapply published_store_eq; [|exact H3]. symmetry. by apply store_eq_root. }
    apply wp_bind, wp_issue_atomic; fold s3; [done|by left|by right|]. by apply wp_issue_atomic; auto.
  - set (s3 := apply_op (OpRename tmp "rollback.journal") (content d)).
    assert (published s0 hdr s3) as H3.
    { apply (published_intro tmp s0 hdr (content d)); [done|done|..].
      - intros p Hp Hp'. unfold s3. by rewrite (get_file_rename _ _ _ _ _ Hf), !decide_False.
      - unfold s3. by rewrite (get_file_rename _ _ _ _ _ Hf), decide_True. }
    apply wp_issue_atomic; fold s3; [done|by left|by right|done].
Qed.

(** Until the journal is published nothing that is stored has changed. *)
Lemma wp_publish_journal env counter hdr d :
  get_file (content d) rollback_journal = None →
  wp (WriteRollbackJournal env counter hdr)
    (λ r d', r = Ok tt ∧ published (content d) hdr (content d'))
    (λ s, store_eq s (content d) ∨ published (content d) hdr s) d.
Proof.
  intros Hj. set (s0 := content d) in *. set (tmp := journal_tmp_name env counter).
  pose proof (journal_tmp_is_tmp env counter) as Htmp. fold tmp in Htmp. destruct (tmp_name_other tmp Htmp) as [Hn1 Hn2].
  assert (∀ f s, store_eq s s0 → store_eq (alter_file f (RootFile tmp) s) s0) as Halter.
  { intros f s Hs. etrans; [by apply store_eq_root|done]. }
  assert (∀ s, store_eq s s0 → is_regular_file s rollback_journal = false) as Hnoj.
  { intros s Hs. apply is_regular_file_false. by rewrite (eq_journal _ _ Hs). }
  unfold WriteRollbackJournal. fold tmp.
  apply wp_bind, wp_disk_gets; [by left|]. apply wp_bind, wp_throw_if; [by apply Hnoj|by left|].
  apply wp_bind. eapply wp_mono; [apply (wp_truncate_open tmp (λ s, store_eq s s0)); auto; done| |by left].
  intros r [s1 l1] (-> & Hs1 & Hf1) _. simpl in Hs1, Hf1.
  assert (∀ data, store_eq (apply_op (OpWrite (RootFile tmp) 0 data) s1) s0) as Hw by (intros; by apply Halter).
  apply wp_bind. unfold rf_write. apply wp_bind, wp_issue; simpl; [by left|left; apply Hw| |].
  { intros s Hs. inversion Hs; subst. left. apply Hw. }
  set (s2 := alter_file _ _ s1). specialize (Hw (journal_bytes hdr)). simpl in Hw. fold s2 in Hw.
  apply wp_ret; [by left|]. apply wp_bind, wp_disk_gets; [by left|]. simpl content. rewrite (Hnoj s2) by done.
  apply wp_publish_tmp; [done|done|done|]. simpl content.
  unfold s2. rewrite get_file_alter, Hf1 by done. cbn. by rewrite (file_write_end _ []).
Qed.

(** With the journal the rollback is under way. *)
Lemma published_in_rollback start bs h hdr s0 s :
  repr s0 start bs → (h = 0 ∨ start < h ≤ top start bs) → make_journal s0 h (top start bs) = Ok hdr →
  published s0 hdr s → in_rollback s0 start h bs hdr s.
Proof.
  intros Hr Hh Hj [Hc Hi Hjr]. constructor.
  - done.
  - left. unfold chain_height. rewrite Hi. apply (repr_height _ _ _ Hr).
  - unfold index_ok. rewrite Hi. apply Hr.
  - intros Hnz. destruct (retains_refl s0 start h bs hdr Hr Hh Hj Hnz) as [H1 H2 H3 H4 H5].
    assert (∀ d name n, agree s0 s0 (ChunkFile d name) n → agree s0 s (ChunkFile d name) n) as Hag.
    { intros d name n (c0 & c & Ha). exists c0, c. by rewrite Hc. }
    constructor; [intros; apply Hc|by apply Hag|destruct H3; [by left|right; by apply Hag]|by apply Hag|apply Hc].
Qed.

Lemma wp_WriteRollbackJournal env start bs h counter hdr d :
  repr (content d) start bs → (h = 0 ∨ start < h ≤ top start bs) → make_journal (content d) h (top start bs) = Ok hdr →
  wp (WriteRollbackJournal env counter hdr)
    (λ r d', r = Ok tt ∧ in_rollback (content d) start h bs hdr (content d'))
    (λ s, repr s start bs ∨ rolling_back start bs h s) d.
Proof.
  intros Hr Hh Hj. eapply wp_mono; [apply wp_publish_journal, Hr|..].
  - intros r d' [-> Hd] _. split; [done|]. by apply published_in_rollback.
  - intros s [Hs|Hs]; [left; by rewrite Hs|right]. exists (content d), hdr. split_and!; try done. by apply published_in_rollback.
Qed.

(** * Rollbacks of a storage *)

#[export] Instance Storage_HasDisk : HasDisk Storage := disk.

Definition stored_in (st : Storage) : Directory := content (disk st).

Lemma wp_on_disk {A} (m : IO A) Q C (st : Storage) :
  wp m (λ r d, Q r (set_disk d st)) C (disk st) → wp (on_disk m) Q C st.
Proof.
  intros (ops & Hlog & Hcontent & HQ & HC). exists ops. unfold on_disk, the_disk, Storage_HasDisk, Disk_HasDisk, id in *.
  destruct (m (disk st)) as [d r]. simpl in *. done.
Qed.

Lemma wp_modify (f : Storage → Storage) Q C (st : Storage) :
  disk (f st) = disk st → C (stored_in st) → Q (Ok tt) (f st) → wp (modify f) Q C st.
Proof. intros Hd HC HQ. by apply wp_pure. Qed.

(** The handles the writers keep are closed. *)
Definition no_handles (st : Storage) : Prop := m_hashFile st = reset_HashFile ∧ m_chunkWriter st = reset_ChunkWriter.

(** What precedes the decision: the lock, the handles, the journal that must not
    be there, the height. *)
Lemma wp_drop_prologue env start bs (k : Z → Exec Storage unit) Q (C : Directory → Prop) st :
  lock_held env = false → repr (stored_in st) start bs → (∀ s, repr s start bs → C s) →
  (∀ st', store_eq (stored_in st) (stored_in st') → no_handles st' → m_mode st' = m_mode st →
     wp (k (top start bs)) Q C st') →
  wp (on_disk (acquire_rollback_lock env) ≫= λ _,
      modify (set_hashFile reset_HashFile) ≫= λ _,
      modify (set_chunkWriter reset_ChunkWriter) ≫= λ _,
      hasJournal ← on_disk (disk_gets (λ s, is_regular_file s rollback_journal));
      on_disk (throw_if hasJournal file_io_error) ≫= λ _,
      currentHeight ← chainHeight; k currentHeight) Q C st.
Proof.
  intros Hl Hr HC Hk. apply wp_bind, wp_on_disk.
  assert (∀ s, store_eq (stored_in st) s → C s) as HCeq by (intros s Hs; apply HC; by rewrite <-Hs).
  eapply wp_mono; [apply (wp_acquire_lock env (store_eq (stored_in st))); [intros s s' ??; by trans s|done|done]| |done].
  intros r d1 [-> Hr1] _. set (st1 := set_disk d1 st).
  apply wp_bind, wp_modify; [done|by apply HCeq|]. apply wp_bind, wp_modify; [done|by apply HCeq|].
  set (st2 := set_chunkWriter _ _). assert (repr (stored_in st2) start bs) as Hr2 by (by eapply repr_store_eq).
  apply wp_bind, wp_on_disk, wp_disk_gets; [by apply HC|].
  apply wp_bind, wp_on_disk, wp_throw_if; [apply is_regular_file_false, Hr2|by apply HC|].
  apply wp_bind. unfold chainHeight. apply wp_on_disk, wp_index_height; [by apply HC|].
  change (content _) with (stored_in st2). rewrite (repr_height _ _ _ Hr2). by apply Hk.
Qed.

(** A rollback to a stored height or to zero: it succeeds, and wherever it is
    stopped the directory holds the old chain, a rollback under way or the new chain. *)
Lemma wp_dropBlocksAfter env start bs h st :
  lock_held env = false → repr (stored_in st) start bs → h = 0 ∨ start < h < top start bs →
  wp (dropBlocksAfter env h) (λ r st', r = Ok tt ∧ rolled_back start bs h (stored_in st') ∧ no_handles st' ∧ m_mode st' = m_mode st)
    (λ s, repr s start bs ∨ rolling_back start bs h s ∨ rolled_back start bs h s) st.
Proof.
  intros Hl Hr Hh. unfold dropBlocksAfter. eapply wp_drop_prologue; [done|done|by left|].
  intros st1 Heq1 Hn1 Hm1. assert (repr (stored_in st1) start bs) as Hr1 by (by rewrite <-Heq1). destruct (repr_range _ _ _ Hr) as [Hs0 _].
  assert (((0 =? top start bs) && negb (0 =? h)) = false) as ->.
  { destruct Hh as [->|Hh]; [apply andb_false_r|]. destruct (Z.eqb_spec 0 (top start bs)); [lia|done]. }
  assert (((top start bs <=? h) && negb (0 =? h)) = false) as ->.
  { destruct Hh as [->|Hh]; [apply andb_false_r|]. destruct (Z.leb_spec (top start bs) h); [lia|done]. }
  assert (h = 0 ∨ start < h ≤ top start bs) as Hh' by lia.
  apply wp_bind, wp_on_disk, wp_disk_gets; [by left|]. cbn [id].
  destruct (make_journal (stored_in st1) h (top start bs)) as [hdr|e] eqn:Hj.
  2: { exfalso. unfold make_journal in Hj. case_match; [|done]. destruct (HasChunkIndexEntry _ _) eqn:Hx; [done|].
       destruct (retained_entry (stored_in st1) start h bs Hr1 Hh') as (e' & x & Hx').
       - intros ->. done.
       - rewrite (stored_entry _ _ _ _ Hx') in Hx. done. }
  apply wp_bind, wp_pure; [done|by left|]. cbn [lift_result snd fst].
  fold (stored_in st1). rewrite Hj.
  apply wp_bind, wp_modify; [done|by left|]. apply wp_bind, wp_gets; [by left|].
  set (st2 := set_journalCounter _ _).
  apply wp_bind, wp_on_disk. eapply wp_mono; [by apply (wp_WriteRollbackJournal env start bs h)| |naive_solver].
  intros r d3 [-> Hr3] _. assert (∀ s, in_rollback (stored_in st1) start h bs hdr s → rolling_back start bs h s) as Hroll.
  { intros s Hs. by exists (stored_in st1), hdr. }
  apply wp_bind, wp_on_disk. eapply wp_mono; [by eapply (wp_apply env (stored_in st1) start h bs hdr)| |by eauto].
  intros r d4 [-> Hr4] _. apply wp_on_disk.
  eapply wp_mono; [by eapply (wp_remove_journal (stored_in st1) start h bs hdr)| |].
  - intros r d5 [-> Hr5] _. done.
  - intros s [Hs|Hs]; [right; left; by apply Hroll|by right; right].
Qed.

(** * Interrupted rollbacks *)

(** What is left of an operation that was stopped. *)
Definition interrupted {A} (m : Exec Storage A) (st : Storage) (s : Directory) : Prop :=
  ∃ ops, log (disk (fst (m st))) = log (disk st) ++ ops ∧ crashed (stored_in st) ops s.

Lemma wp_interrupted {A} (m : Exec Storage A) Q C st s : wp m Q C st → interrupted m st s → C s.
Proof.
  intros (ops & Hlog & _ & _ & HC) (ops' & Hlog' & Hs). apply HC.
  unfold the_disk, Storage_HasDisk in *. rewrite Hlog in Hlog'. apply app_inv_head in Hlog' as ->. done.
Qed.

(** A storage that is opened on a directory recovers first. *)
Definition opened (s : Directory) : Storage :=
  {| disk := {| content := s; log := [] |}; m_mode := mode;
     m_hashFile := reset_HashFile; m_chunkWriter := reset_ChunkWriter; s_journalCounter := 0 |}.

(** Any number of attempts to open the storage that are stopped on the way. *)
Inductive failed_starts (env : Environment) : Directory → Directory → Prop :=
| no_start s : failed_starts env s s
| one_more_start s1 s2 s3 :
    interrupted (on_disk (recoverUnfinishedRollback env)) (opened s1) s2 →
    failed_starts env s2 s3 → failed_starts env s1 s3.

Definition old_or_new (start : Z) (bs : list BlockElement) (h : Z) (s : Directory) : Prop :=
  repr s start bs ∨ rolling_back start bs h s ∨ rolled_back start bs h s.

(** Opening the storage takes each of these states to a stored chain. *)
Lemma wp_open env start bs h s :
  lock_held env = false → old_or_new start bs h s →
  wp (on_disk (recoverUnfinishedRollback env))
    (λ r st, r = Ok tt ∧ (repr (stored_in st) start bs ∨ rolled_back start bs h (stored_in st)))
    (old_or_new start bs h) (opened s).
Proof.
  intros Hl [Hs|[Hs|Hs]]; apply wp_on_disk.
  - eapply wp_mono; [by apply wp_recover_repr| |by left]. intros r d [-> Hd] _. split; [done|by left].
  - eapply wp_mono; [by apply wp_recover_rollback| |intros ? [|]; unfold old_or_new; tauto].
    intros r d [-> Hd] _. split; [done|by right].
  - eapply wp_mono; [by apply wp_recover_repr| |by right; right]. intros r d [-> Hd] _. split; [done|by right].
Qed.

Lemma failed_starts_invariant env start bs h s s' :
  lock_held env = false → failed_starts env s s' → old_or_new start bs h s → old_or_new start bs h s'.
Proof.
  intros Hl Hf. induction Hf as [s|s1 s2 s3 Hi Hf IH]; intros Hs; [done|]. apply IH.
  eapply wp_interrupted; [by apply wp_open|done].
Qed.

End storage_mode.

End BlockStorageCrash.
