(* ===== verification/BlockStorageRefinement.v ===== *)
(** Functional correctness of the file based block storage: saving a block
    appends it to the stored chain, at every point of the call the directory
    stores the old or the new chain, and loading gives back what was saved. *)
From stdpp Require Import base tactics numbers option list gmap strings sets.
From S2P Require Import Prelude Streams BlockElements FileSystem FileBlockStorage BlockStorageCrash.

Local Open Scope Z_scope.

Module BlockStorageRefinement.
Import Stream Elements FileSystem FileBlockStorage BlockStorageCrash.

#[local] Arguments get_file : simpl never.
#[local] Arguments alter_file : simpl never.
#[local] Arguments file_write : simpl never.
#[local] Arguments slice : simpl never.

Section storage_mode.
Context (mode : FileBlockStorageMode).
Abbreviation repr := (repr mode).

(** * A directory to which a block is being added *)

(** [s] stores what [s0] stores below the height [h]. *)
Record saving (s0 s : Directory) (h : Z) : Prop := {
  sv_entries : ∀ h' x, 0 < h' < h → HasChunkIndexEntry s0 h' = Some x → HasChunkIndexEntry s h' = Some x;
  sv_sizes : ∀ h', 0 < h' < h → entry_size s h' = entry_size s0 h';
  sv_blocks : ∀ h' c, get_file s0 (GetBlocksDatPath h') = Some c →
    ∃ d, get_file s (GetBlocksDatPath h') = Some (c ++ d);
  sv_stmts : ∀ h' c, get_file s0 (GetStatementsDatPath h') = Some c →
    ∃ d, get_file s (GetStatementsDatPath h') = Some (c ++ d);
  sv_hashes : ∀ h' e, 0 < h' < h → hashed s0 h' e → hashed s h' e;
  sv_index : get_file s index_dat = get_file s0 index_dat;
  sv_journal : get_file s rollback_journal = get_file s0 rollback_journal;
}.

Lemma saving_refl s h : saving s s h.
Proof. constructor; try done; intros h' c Hc; exists []; by rewrite app_nil_r. Qed.

Lemma saving_trans s1 s2 s3 h : saving s1 s2 h → saving s2 s3 h → saving s1 s3 h.
Proof.
  intros [A1 A2 A3 A4 A5 A6 A7] [B1 B2 B3 B4 B5 B6 B7]. constructor; eauto; try congruence.
  - intros h' Hh'. rewrite B2 by done. by apply A2.
  - intros h' c Hc. destruct (A3 h' c Hc) as [d Hd]. destruct (B3 h' _ Hd) as [d' Hd']. exists (d ++ d').
    by rewrite app_assoc.
  - intros h' c Hc. destruct (A4 h' c Hc) as [d Hd]. destruct (B4 h' _ Hd) as [d' Hd']. exists (d ++ d').
    by rewrite app_assoc.
Qed.

Lemma slice_app offset n c d b : slice offset n c = Some b → slice offset n (c ++ d) = Some b.
Proof.
  intros Hs. pose proof (slice_length _ _ _ _ Hs) as [_ Hl]. rewrite <-Hs. symmetry.
  apply (slice_prefix _ _ (length c)); [done|done|rewrite length_app; lia|].
  by rewrite take_app_length, take_ge.
Qed.

Lemma saving_holds s0 s p offset size data :
  (∀ c, get_file s0 p = Some c → ∃ d, get_file s p = Some (c ++ d)) →
  holds s0 p offset size data → holds s p offset size data.
Proof.
  intros Hp (c & Hc & Hsl). destruct (Hp c Hc) as [d Hd]. exists (c ++ d). split; [done|]. by apply slice_app.
Qed.

Lemma saving_stored s0 s h h' e x : saving s0 s h → 0 < h' < h → stored s0 h' e x → stored s h' e x.
Proof.
  intros Hs Hh [H1 H2 H3 H4]. constructor; [by apply (sv_entries _ _ _ Hs)|done|..].
  - eapply saving_holds; [|exact H3]. apply (sv_blocks _ _ _ Hs).
  - destruct (be_OptionalStatement e); [|done]. destruct H4 as [Hp H4]. split; [done|].
    eapply saving_holds; [|exact H4]. apply (sv_stmts _ _ _ Hs).
Qed.

(** The old chain is still there. *)
Lemma saving_repr s0 s start bs h :
  repr s0 start bs → h = top start bs + 1 → saving s0 s h → repr s start bs.
Proof.
  intros Hr -> Hs. destruct (repr_range _ _ _ _ Hr) as [H0 Hmax]. unfold top in *.
  assert (∀ h' x, start < h' ≤ start + Z.of_nat (length bs) → HasChunkIndexEntry s h' = Some x → HasChunkIndexEntry s0 h' = Some x) as Hback.
  { intros h' x Hh' Hx. destruct (repr_stored _ _ _ _ h' Hr Hh') as (e & y & _ & Hy).
    pose proof (stored_entry _ _ _ _ Hy) as Hy0. pose proof (sv_entries _ _ _ Hs h' y ltac:(lia) Hy0). congruence. }
  constructor.
  - unfold chain_height. rewrite (sv_index _ _ _ Hs). apply (repr_height _ _ _ _ Hr).
  - done.
  - intros h' Hh'. rewrite (sv_sizes _ _ _ Hs) by lia. by apply (repr_below _ _ _ _ Hr).
  - intros i e Hi. destruct (repr_blocks _ _ _ _ Hr i e Hi) as [x Hx]. exists x.
    apply lookup_lt_Some in Hi. eapply saving_stored; [done| |done]. lia.
  - intros h1 h2 x1 x2 H1 H2 Hc E1 E2. apply (repr_order _ _ _ _ Hr h1 h2); try done; apply Hback; try done; lia.
  - rewrite (sv_journal _ _ _ Hs). apply (repr_no_journal _ _ _ _ Hr).
  - unfold index_ok. rewrite (sv_index _ _ _ Hs). apply (repr_index _ _ _ _ Hr).
  - intros Hm i e Hi. pose proof (repr_hashes _ _ _ _ Hr Hm i e Hi). apply lookup_lt_Some in Hi.
    apply (sv_hashes _ _ _ Hs); [lia|done].
Qed.

(** The block is in the chunk files, behind everything that was there. *)
Record added (s0 s : Directory) (h : Z) (e : BlockElement) : Prop := {
  added_saving : saving s0 s h;
  added_entry : ∃ x, stored s h e x
    ∧ blockOffset x = Z.of_nat (length (default [] (get_file s0 (GetBlocksDatPath h))))
    ∧ stmtOffset x = Z.of_nat (length (default [] (get_file s0 (GetStatementsDatPath h))));
  added_hash : mode = Hash_Index → hashed s h e;
}.

(** The stored entries of a chunk end inside its files. *)
Lemma entry_inside s start bs h' x :
  repr s start bs → start < h' ≤ top start bs → HasChunkIndexEntry s h' = Some x →
  block_end x ≤ Z.of_nat (length (default [] (get_file s (GetBlocksDatPath h'))))
  ∧ (0 < stmtSize x → stmt_end x ≤ Z.of_nat (length (default [] (get_file s (GetStatementsDatPath h'))))).
Proof.
  intros Hr Hh Hx. destruct (entry_stored mode s start bs Hr h' x Hh Hx) as [e [_ (R1 & R2 & R3 & R4) (c & Hc & Hsl) Hst]].
  unfold in_range, block_end, stmt_end in *. split.
  - rewrite Hc. apply slice_length in Hsl as [_ Hsl]. simpl. lia.
  - intros Hpos. destruct (be_OptionalStatement e); [|lia]. destruct Hst as [_ (t & Ht & Hsl')].
    rewrite Ht. apply slice_length in Hsl' as [_ Hsl']. simpl. lia.
Qed.

(** Setting the height makes the block part of the chain. *)
Lemma added_repr s0 s1 s start bs h e :
  repr s0 start bs → h = top start bs + 1 → h < 2 ^ 64 → added s0 s1 h e →
  changes_only index_dat s1 s → index_ok s → chain_height s = h → repr s start (bs ++ [e]).
Proof.
  intros Hr -> Hmax [Hsv (x & Hx & Hbo & Hso) Hhash] Hch Hok Hht. destruct (repr_range _ _ _ _ Hr) as [H0 _].
  assert (∀ d n, get_file s (ChunkFile d n) = get_file s1 (ChunkFile d n)) as Hsame by (intros; by apply Hch).
  assert (repr s1 start bs) as Hr1 by (eapply saving_repr; [exact Hr|reflexivity|exact Hsv]).
  assert (∀ h', HasChunkIndexEntry s h' = HasChunkIndexEntry s1 h') as Hent
    by (intros; unfold HasChunkIndexEntry, GetBlocksIdxPath; by rewrite Hsame).
  assert (∀ h' e' x', stored s1 h' e' x' → stored s h' e' x') as Hst.
  { intros h' e' x' [E1 E2 E3 E4]. unfold holds, GetBlocksDatPath, GetStatementsDatPath in *.
    constructor; [by rewrite Hent|done|unfold holds, GetBlocksDatPath; by rewrite Hsame|].
    unfold holds, GetStatementsDatPath. destruct (be_OptionalStatement e'); [by rewrite Hsame|done]. }
  assert (Z.of_nat (length (bs ++ [e])) = Z.of_nat (length bs) + 1) as Hlen by (rewrite length_app; simpl; lia).
  unfold top in *. constructor.
  - rewrite Hht, Hlen. lia.
  - rewrite Hlen. lia.
  - intros h' Hh'. unfold entry_size, GetBlocksIdxPath. rewrite Hsame. by apply (repr_below _ _ _ _ Hr1).
  - intros i e' Hi. apply lookup_app_Some in Hi as [Hi|[Hge Hi]].
    + destruct (repr_blocks _ _ _ _ Hr1 i e' Hi) as [y Hy]. exists y. by apply Hst.
    + apply list_lookup_singleton_Some in Hi as [Hi <-]. exists x. apply Hst.
      by replace (start + 1 + Z.of_nat i) with (start + Z.of_nat (length bs) + 1) by lia.
  - intros h1 h2 x1 x2 H1 H2 Hc. rewrite !Hent, Hlen in *. intros E1 E2.
    destruct (decide (h2 = start + Z.of_nat (length bs) + 1)) as [->|Hne];
      [|apply (repr_order _ _ _ _ Hr1 h1 h2); try done; lia].
    pose proof (stored_entry _ _ _ _ Hx) as Hx0. simplify_eq.
    destruct (decide (h1 = start + Z.of_nat (length bs) + 1)) as [->|Hne]; [simplify_eq; split; [lia|intros; lia]|].
    destruct (repr_stored _ _ _ _ h1 Hr ltac:(lia)) as (e1 & y & _ & Hy). pose proof (stored_entry _ _ _ _ Hy) as Hy0.
    pose proof (sv_entries _ _ _ Hsv h1 y ltac:(lia) Hy0). simplify_eq.
    destruct (entry_inside s0 start bs h1 x1 Hr ltac:(unfold top; lia) Hy0) as [Hb Hs].
    unfold GetBlocksDatPath, GetStatementsDatPath, GetDirectoryPath in *. unfold chunk in Hc. rewrite <-Hc in Hbo, Hso.
    destruct (stored_offsets _ _ _ _ Hx) as (R1 & R2 & R3 & R4). unfold in_range, block_end, stmt_end in *.
    split; [lia|]. intros Hp _. specialize (Hs Hp). lia.
  - rewrite Hch by done. rewrite (sv_journal _ _ _ Hsv). apply (repr_no_journal _ _ _ _ Hr).
  - done.
  - intros Hm i e' Hi. unfold hashed, GetHashFilePath. rewrite Hsame. apply lookup_app_Some in Hi as [Hi|[Hge Hi]].
    + by apply (repr_hashes _ _ _ _ Hr1 Hm).
    + apply list_lookup_singleton_Some in Hi as [Hi <-].
      replace (start + 1 + Z.of_nat i) with (start + Z.of_nat (length bs) + 1) by lia. by apply Hhash.
Qed.

(** * Open handles *)

(** The writer holds an open handle on a file with the content [c]. *)
Definition handle (st : Storage) (k : CachedFile) (h : Z) (c : list Z) (pos : nat) : Prop :=
  cw_get k (m_chunkWriter st) = Some {| m_pathname := cached_path k h; m_fileSize := length c; m_position := pos |}
  ∧ get_file (stored_in st) (cached_path k h) = Some c.

(** What a call on the handle [k] leaves alone. *)
Record frame (k : CachedFile) (h : Z) (st st' : Storage) : Prop := {
  fr_handles : ∀ k', k' ≠ k → cw_get k' (m_chunkWriter st') = cw_get k' (m_chunkWriter st);
  fr_id : cw_cachedDirectoryId (m_chunkWriter st') = cw_cachedDirectoryId (m_chunkWriter st);
  fr_hash : m_hashFile st' = m_hashFile st;
  fr_mode : m_mode st' = m_mode st;
  fr_files : changes_only (cached_path k h) (stored_in st) (stored_in st');
}.

#[local] Instance CachedFile_eq_dec : EqDecision CachedFile.
Proof. solve_decision. Defined.

Lemma cached_path_ne k k' h h' : k ≠ k' → cached_path k h ≠ cached_path k' h'.
Proof. by destruct k, k'. Qed.

Lemma handle_frame k k' h st st' c pos : k' ≠ k → frame k h st st' → handle st k' h c pos → handle st' k' h c pos.
Proof.
  intros Hne Hf [H1 H2]. split; [by rewrite (fr_handles _ _ _ _ Hf)|].
  rewrite (fr_files _ _ _ _ Hf); [done|]. by apply cached_path_ne.
Qed.

Lemma frame_refl k h st : frame k h st st.
Proof. by constructor. Qed.

Lemma frame_trans k h st1 st2 st3 : frame k h st1 st2 → frame k h st2 st3 → frame k h st1 st3.
Proof.
  intros [A1 A2 A3 A4 A5] [B1 B2 B3 B4 B5]. constructor; try congruence.
  - intros k' Hk'. rewrite B1 by done. by apply A1.
  - intros q Hq. rewrite B5 by done. by apply A5.
Qed.

Lemma wp_on_cached k h c pos (m : RawFile → IO RawFile) Q C st :
  handle st k h c pos →
  wp (m {| m_pathname := cached_path k h; m_fileSize := length c; m_position := pos |})
    (λ r d, match r with
            | Ok f => C (content d) ∧ Q (Ok tt) (set_chunkWriter (cw_set k f (m_chunkWriter st)) (set_disk d st))
            | Throw e => Q (Throw e) (set_disk d st)
            end) C (disk st) →
  wp (on_cached k m) Q C st.
Proof.
  intros [Hh Hc] Hm. destruct (wp_end _ _ _ _ Hm) as [_ _].
  assert (C (stored_in st)) as HC0 by (destruct Hm as (ops & _ & _ & _ & HC); apply HC; constructor).
  unfold on_cached. apply wp_bind, wp_gets; [done|]. rewrite Hh. apply wp_bind, wp_on_disk.
  eapply wp_mono; [exact Hm| |done]. intros [f|e] d Hd _; [|done]. destruct Hd as [Hd1 Hd2]. by apply wp_modify.
Qed.

Lemma cw_get_set k k' f w : cw_get k' (cw_set k f w) = if decide (k' = k) then Some f else cw_get k' w.
Proof. by destruct k, k'. Qed.

Lemma frame_set k h f d st :
  changes_only (cached_path k h) (stored_in st) (content d) →
  frame k h st (set_chunkWriter (cw_set k f (m_chunkWriter st)) (set_disk d st)).
Proof.
  intros Hd. constructor; try done; simpl.
  - intros k' Hk'. by rewrite cw_get_set, decide_False.
  - by destruct k.
Qed.

Lemma wp_seek k h c pos n Q C st :
  handle st k h c pos → (n ≤ length c)%nat → C (stored_in st) →
  (∀ st', frame k h st st' → handle st' k h c n → Q (Ok tt) st') →
  wp (on_cached k (rf_seek n)) Q C st.
Proof.
  intros Hh Hn HC HQ. eapply wp_on_cached; [exact Hh|]. unfold rf_seek. rewrite decide_False by (simpl; lia).
  apply wp_ret; [done|]. split; [done|]. apply HQ; [by apply frame_set|].
  destruct Hh as [_ Hc]. split; [|done]. simpl. by rewrite cw_get_set, decide_True.
Qed.

Lemma wp_write k h c pos data Q C st :
  handle st k h c pos → (pos ≤ length c)%nat →
  (∀ n s, changes_only (cached_path k h) (stored_in st) s →
     get_file s (cached_path k h) = Some (file_write pos (take n data) c) → C s) →
  (∀ st', frame k h st st' → handle st' k h (file_write pos data c) (pos + length data) → Q (Ok tt) st') →
  wp (on_cached k (rf_write data)) Q C st.
Proof.
  intros Hh Hp HC HQ. pose proof Hh as [_ Hc].
  assert (∀ n, get_file (apply_op (OpWrite (cached_path k h) pos (take n data)) (stored_in st)) (cached_path k h)
               = Some (file_write pos (take n data) c)) as Hget.
  { intros n. unfold apply_op. rewrite get_file_alter, Hc by (by eapply get_file_parent). done. }
  assert (∀ n, C (apply_op (OpWrite (cached_path k h) pos (take n data)) (stored_in st))) as HCn.
  { intros n. apply (HC n); [apply changes_only_alter|apply Hget]. }
  assert (take (length data) data = data) as Hall by (by apply take_ge).
  eapply wp_on_cached; [exact Hh|]. unfold rf_write. cbn [m_pathname m_position m_fileSize].
  assert (C (stored_in st)) as HC0.
  { apply (HC 0%nat); [by intros q ?|]. rewrite Hc. unfold file_write. rewrite take_app_le by done. simpl.
    by rewrite Nat.add_0_r, take_drop. }
  assert (C (apply_op (OpWrite (cached_path k h) pos data) (stored_in st))) as HC1 by (rewrite <-Hall; apply HCn).
  apply wp_bind, wp_issue; [done|done| |].
  { intros s Hs. inversion Hs; subst. apply HCn. }
  apply wp_ret; [done|]. split; [done|]. apply HQ; [apply frame_set, changes_only_alter|]. split.
  - simpl. rewrite cw_get_set, decide_True by done. by rewrite file_write_length.
  - specialize (Hget (length data)). rewrite Hall in Hget. exact Hget.
Qed.

(** Appending buffers at the end of a file. *)
Lemma wp_append_buffers k h c buffers Q C st :
  handle st k h c (length c) →
  (∀ d s, changes_only (cached_path k h) (stored_in st) s → get_file s (cached_path k h) = Some (c ++ d) → C s) →
  (∀ st', frame k h st st' → handle st' k h (c ++ concat buffers) (length (c ++ concat buffers)) → Q (Ok tt) st') →
  wp (for_each (λ b, on_cached k (rf_write b)) buffers) Q C st.
Proof.
  revert c st. induction buffers as [|b buffers IH]; intros c st Hh HC HQ; simpl.
  - apply wp_ret.
    + apply (HC []); [by intros q ?|]. rewrite app_nil_r. apply Hh.
    + apply HQ; [apply frame_refl|]. by rewrite app_nil_r.
  - apply wp_bind. eapply wp_write; [exact Hh|done| |].
    + intros n s Hs Hg. rewrite file_write_end in Hg. by eapply HC.
    + intros st' Hf Hh'. rewrite file_write_end in Hh'. apply (IH (c ++ b)).
      * by rewrite length_app.
      * intros d s Hs Hg. apply (HC (b ++ d)); [|by rewrite app_assoc]. intros q Hq. rewrite Hs by done.
        by apply (fr_files _ _ _ _ Hf).
      * intros st'' Hf' Hh''. rewrite <-app_assoc in Hh''. apply HQ; [by eapply frame_trans|done].
Qed.

(** The space a payload needs. *)
Definition fits32 (n : nat) : Prop := Z.of_nat n ≤ Max32.

Lemma wp_append_payload k h c pos payload Q C st :
  handle st k h c pos → fits32 (length c) →
  (∀ d s, changes_only (cached_path k h) (stored_in st) s → get_file s (cached_path k h) = Some (c ++ d) → C s) →
  match payload with
  | None => Q (Ok (Z.of_nat (length c), 0)) st
  | Some m => ∃ buffers, writes m buffers ∧ fits32 (length (concat buffers))
      ∧ ∀ st', frame k h st st' → (∃ pos', handle st' k h (c ++ concat buffers) pos') →
          Q (Ok (Z.of_nat (length c), Z.of_nat (length (concat buffers)))) st'
  end →
  wp (append_payload k payload) Q C st.
Proof.
  intros Hh Hfit HC HQ. unfold fits32 in *.
  assert (C (stored_in st)) as HC0.
  { apply (HC []); [by intros q ?|]. rewrite app_nil_r. apply Hh. }
  assert (∀ Q' c' pos' st', handle st' k h c' pos' → C (stored_in st') → Q' (Ok (length c')) st' → wp (cached_size k) Q' C st') as Hsize.
  { intros Q' c' pos' st' [Hg _] HC' HQ'. unfold cached_size. apply wp_bind, wp_gets; [done|]. rewrite Hg. by apply wp_ret. }
  unfold append_payload. apply wp_bind. eapply Hsize; [exact Hh|done|].
  destruct (Z.ltb_spec Max32 (Z.of_nat (length c))); [lia|].
  destruct payload as [m|]; [|by apply wp_ret]. destruct HQ as (buffers & Hw & Hb & HQ).
  apply wp_bind. eapply wp_seek; [exact Hh|done|done|]. intros st1 Hf1 Hh1.
  assert (∀ d s, changes_only (cached_path k h) (stored_in st1) s → get_file s (cached_path k h) = Some (c ++ d) → C s) as HC1.
  { intros d s Hs. apply HC. intros q Hq. rewrite Hs by done. by apply (fr_files _ _ _ _ Hf1). }
  apply wp_bind. unfold stream_to. rewrite (Hw []). simpl app. apply wp_bind.
  eapply wp_append_buffers; [exact Hh1|exact HC1|]. intros st2 Hf2 Hh2.
  assert (C (stored_in st2)) as HC2.
  { apply (HC1 (concat buffers)); [apply (fr_files _ _ _ _ Hf2)|apply Hh2]. }
  apply wp_pure; [done|done|]. cbn [lift_result snd fst]. apply wp_bind. eapply Hsize; [exact Hh2|done|].
  rewrite length_app. replace (Z.of_nat (length c + length (concat buffers)) - Z.of_nat (length c)) with (Z.of_nat (length (concat buffers))) by lia.
  destruct (Z.ltb_spec Max32 (Z.of_nat (length (concat buffers)))); [lia|].
  apply wp_ret; [done|]. apply HQ; [by eapply frame_trans|eauto].
Qed.

(** * Steps of a save *)

Lemma GetDirectoryPath_inj h h' : in_range 64 h → in_range 64 h' → GetDirectoryPath h = GetDirectoryPath h' → chunk h = chunk h'.
Proof. intros Hh Hh' Heq. apply sprintf_inj; [by apply chunk_range..|exact Heq]. Qed.

(** Bytes appended to the blocks or the statements. *)
Lemma saving_append k h h0 s s' c d :
  k ≠ IdxFile → changes_only (cached_path k h) s s' → get_file s (cached_path k h) = Some c →
  get_file s' (cached_path k h) = Some (c ++ d) → saving s s' h0.
Proof.
  intros Hk Hch Hc Hd.
  assert (∀ h', get_file s' (GetBlocksIdxPath h') = get_file s (GetBlocksIdxPath h')) as Hidx
    by (intros h'; apply Hch; by destruct k).
  assert (∀ p c', (p = cached_path k h ∨ p ≠ cached_path k h) → get_file s p = Some c' → ∃ d', get_file s' p = Some (c' ++ d')) as Hfile.
  { intros p c' [->|Hne] Hp; [simplify_eq; eauto|]. exists []. rewrite app_nil_r, Hch by done. done. }
  constructor.
  - intros h' x _ Hx. unfold HasChunkIndexEntry in *. by rewrite Hidx.
  - intros h' _. unfold entry_size. by rewrite Hidx.
  - intros h' c'. apply Hfile. destruct (decide (GetBlocksDatPath h' = cached_path k h)); auto.
  - intros h' c'. apply Hfile. destruct (decide (GetStatementsDatPath h' = cached_path k h)); auto.
  - intros h' e _ (c' & Hc' & Hs). exists c'. split; [|done]. rewrite Hch by (by destruct k). done.
  - apply Hch. by destruct k.
  - apply Hch. by destruct k.
Qed.

Lemma chunk_index_lt h h' : chunk h' = chunk h → h' < h → (chunk_index h' < chunk_index h)%nat.
Proof.
  intros Hc Hlt. unfold chunk, chunk_index, Files_Per_Directory in *.
  pose proof (Z.div_mod h 65536 ltac:(lia)). pose proof (Z.div_mod h' 65536 ltac:(lia)).
  pose proof (Z.mod_pos_bound h 65536 eq_refl). pose proof (Z.mod_pos_bound h' 65536 eq_refl). lia.
Qed.

(** The first [n] entries of an index file, and what is missing of them. *)
Definition same_entries (n : nat) (x x' : list Z) : Prop :=
  ∀ i, (i < n)%nat →
    (∀ b, slice (i * sizeof_Entry) sizeof_Entry x = Some b → slice (i * sizeof_Entry) sizeof_Entry x' = Some b)
    ∧ field (i * sizeof_Entry + 4) 4 x' = field (i * sizeof_Entry + 4) 4 x.

Lemma le_value_zeros a n : le_value (a ++ replicate n 0) = le_value a.
Proof.
  induction a as [|b a IH]; simpl; [|by rewrite IH]. induction n as [|n IH]; simpl; [done|]. by rewrite IH.
Qed.

Lemma field_zeros off n c k : field off n (c ++ replicate k 0) = field off n c.
Proof.
  unfold field. destruct (decide (off ≤ length c)%nat).
  - rewrite drop_app_le by done. destruct (decide (n ≤ length (drop off c))%nat).
    + by rewrite take_app_le.
    + rewrite take_app_ge by lia. rewrite take_replicate, le_value_zeros. by rewrite take_ge by lia.
  - rewrite drop_app_ge by lia. rewrite drop_replicate, take_replicate, (drop_ge c) by lia.
    rewrite take_nil. apply (le_value_zeros []).
Qed.

Lemma same_entries_fill n x k : same_entries n x (x ++ replicate k 0).
Proof. intros i Hi. split; [intros b; by apply slice_app|]. apply field_zeros. Qed.

Lemma same_entries_write n x data :
  (n * sizeof_Entry ≤ length x)%nat → same_entries n x (file_write (n * sizeof_Entry) data x).
Proof.
  intros Hn i Hi. unfold sizeof_Entry in *. split.
  - intros b Hb. rewrite <-Hb. apply (slice_prefix _ _ (n * 16)); [lia|rewrite file_write_length; lia|lia|].
    by apply file_write_prefix.
  - apply (field_prefix (n * 16)); [by apply file_write_prefix|lia].
Qed.

Lemma same_entries_trans n x1 x2 x3 : same_entries n x1 x2 → same_entries n x2 x3 → same_entries n x1 x3.
Proof. intros H12 H23 i Hi. destruct (H12 i Hi), (H23 i Hi). split; [auto|congruence]. Qed.

Lemma saving_idx h s s' x x' :
  in_range 64 h → changes_only (GetBlocksIdxPath h) s s' → get_file s (GetBlocksIdxPath h) = Some x →
  get_file s' (GetBlocksIdxPath h) = Some x' → same_entries (chunk_index h) x x' → saving s s' h.
Proof.
  intros Hr Hch Hx Hx' Hsame.
  assert (∀ h', 0 < h' < h → (GetBlocksIdxPath h' = GetBlocksIdxPath h ∧ (chunk_index h' < chunk_index h)%nat)
                            ∨ get_file s' (GetBlocksIdxPath h') = get_file s (GetBlocksIdxPath h')) as Hcase.
  { intros h' Hh'. destruct (decide (GetBlocksIdxPath h' = GetBlocksIdxPath h)) as [Heq|Hne]; [left|right; by apply Hch].
    split; [done|]. assert (chunk h' = chunk h) as Hc.
    { apply GetDirectoryPath_inj; [unfold in_range in *; lia|done|]. by injection Heq. }
    apply chunk_index_lt; [done|lia]. }
  constructor.
  - intros h' y Hh' Hy. destruct (Hcase h' Hh') as [[Heq Hlt]|Heq].
    + apply HasChunkIndexEntry_Some in Hy as (idx & b & Hidx & Hb & -> & Hpos). rewrite Heq, Hx in Hidx. injection Hidx as <-.
      apply HasChunkIndexEntry_Some. rewrite Heq. exists x', b. split_and!; try done. by apply Hsame.
    + unfold HasChunkIndexEntry in *. by rewrite Heq.
  - intros h' Hh'. unfold entry_size. destruct (Hcase h' Hh') as [[Heq Hlt]|Heq].
    + rewrite Heq, Hx, Hx'. simpl default. by apply Hsame.
    + by rewrite Heq.
  - intros h' c Hc. exists []. rewrite app_nil_r, Hch by done. done.
  - intros h' c Hc. exists []. rewrite app_nil_r, Hch by done. done.
  - intros h' e _ (c & Hc & Hs). exists c. by rewrite Hch.
  - by apply Hch.
  - by apply Hch.
Qed.

Lemma wp_write_index_entry h x pos entry Q C st :
  handle st IdxFile h x pos →
  (∀ s x', changes_only (GetBlocksIdxPath h) (stored_in st) s → get_file s (GetBlocksIdxPath h) = Some x' →
     same_entries (chunk_index h) x x' → C s) →
  (∀ st' x', frame IdxFile h st st' → (∃ pos', handle st' IdxFile h x' pos') → same_entries (chunk_index h) x x' →
     slice (chunk_index h * sizeof_Entry) sizeof_Entry x' = Some (entry_bytes entry) → Q (Ok tt) st') →
  wp (write_index_entry h entry) Q C st.
Proof.
  intros Hh HC HQ. set (t := (chunk_index h * sizeof_Entry)%nat).
  assert (same_entries (chunk_index h) x x) as Hxx by (by intros i ?).
  assert (C (stored_in st)) as HC0 by (apply (HC _ x); [by intros q ?|apply Hh|done]).
  assert (∀ st1 x1 pos1, frame IdxFile h st st1 → handle st1 IdxFile h x1 pos1 → same_entries (chunk_index h) x x1 → (t ≤ length x1)%nat →
    wp (on_cached IdxFile (rf_seek t) ≫= λ _, on_cached IdxFile (rf_write (entry_bytes entry))) Q C st1) as Hlast.
  { intros st1 x1 pos1 Hf1 Hh1 Hs1 Ht1.
    apply wp_bind. eapply wp_seek; [exact Hh1|done|apply (HC _ x1); [apply (fr_files _ _ _ _ Hf1)|apply Hh1|done]|].
    intros st2 Hf2 Hh2. pose proof (frame_trans _ _ _ _ _ Hf1 Hf2) as Hf12. eapply wp_write; [exact Hh2|done| |].
    - intros n s Hs Hg. eapply HC; [|exact Hg|].
      + intros q Hq. rewrite Hs by done. by apply (fr_files _ _ _ _ Hf12).
      + eapply same_entries_trans; [exact Hs1|]. by apply same_entries_write.
    - intros st3 Hf3 Hh3. eapply HQ; [by eapply frame_trans|eauto| |].
      + eapply same_entries_trans; [exact Hs1|]. by apply same_entries_write.
      + rewrite file_write_inside by done.
        pose proof (slice_app_end (take t x1) (entry_bytes entry) (drop (t + length (entry_bytes entry)) x1)) as Hsl.
        rewrite length_take_le, entry_bytes_length in Hsl by done. by rewrite entry_bytes_length. }
  unfold write_index_entry. apply wp_bind. unfold cached_size. apply wp_bind, wp_gets; [done|].
  pose proof Hh as [-> _]. apply wp_ret; [done|]. cbn [m_fileSize]. fold t. apply wp_bind. case_decide as Hlt.
  2: { apply wp_ret; [done|]. eapply Hlast; [apply frame_refl|exact Hh|done|lia]. }
  apply wp_bind. eapply wp_seek; [exact Hh|done|done|]. intros st1 Hf1 Hh1.
  eapply wp_write; [exact Hh1|done| |].
  - intros n s Hs Hg. rewrite file_write_end, take_replicate in Hg. eapply HC; [|exact Hg|apply same_entries_fill].
    intros q Hq. rewrite Hs by done. by apply (fr_files _ _ _ _ Hf1).
  - intros st2 Hf2 Hh2. rewrite file_write_end in Hh2. eapply Hlast; [by eapply frame_trans|exact Hh2|apply same_entries_fill|].
    rewrite length_app, length_replicate. lia.
Qed.

(** Files are created empty, and nothing else changes. *)
Record opens (s s' : Directory) : Prop := {
  op_root : ∀ name, get_file s' (RootFile name) = get_file s (RootFile name);
  op_chunk : ∀ d n, get_file s' (ChunkFile d n) = get_file s (ChunkFile d n)
                    ∨ (get_file s (ChunkFile d n) = None ∧ get_file s' (ChunkFile d n) = Some []);
}.

Lemma opens_refl s : opens s s.
Proof. constructor; auto. Qed.

Lemma opens_trans s1 s2 s3 : opens s1 s2 → opens s2 s3 → opens s1 s3.
Proof.
  intros [A1 A2] [B1 B2]. constructor; [intros; by rewrite B1|]. intros d n.
  destruct (A2 d n) as [Ha|[Ha Ha']], (B2 d n) as [Hb|[Hb Hb']]; rewrite ?Hb, ?Ha in *; auto; congruence.
Qed.

Lemma opens_default s s' d n : opens s s' → default [] (get_file s' (ChunkFile d n)) = default [] (get_file s (ChunkFile d n)).
Proof. intros [_ H]. destruct (H d n) as [->|[-> ->]]; done. Qed.

Lemma opens_Some s s' d n c : opens s s' → get_file s (ChunkFile d n) = Some c → get_file s' (ChunkFile d n) = Some c.
Proof. intros [_ H] Hc. destruct (H d n) as [->|[Hn _]]; congruence. Qed.

Lemma opens_saving s s' h : opens s s' → saving s s' h.
Proof.
  intros Ho. constructor.
  - intros h' x _ (idx & b & Hidx & Hrest)%HasChunkIndexEntry_Some. apply HasChunkIndexEntry_Some. exists idx, b.
    split; [by eapply opens_Some|done].
  - intros h' _. unfold entry_size, GetBlocksIdxPath. by rewrite (opens_default _ _ _ _ Ho).
  - intros h' c Hc. exists []. rewrite app_nil_r. by eapply opens_Some.
  - intros h' c Hc. exists []. rewrite app_nil_r. by eapply opens_Some.
  - intros h' e _ (c & Hc & Hs). exists c. split; [by eapply opens_Some|done].
  - apply Ho.
  - apply Ho.
Qed.

Definition has_dir (s : Directory) (h : Z) : Prop := is_Some (chunk_directories s !! GetDirectoryPath h).

Lemma opens_create p s : (∃ d n, p = ChunkFile d n) → get_file s p = None → opens s (apply_op (OpCreate p) s).
Proof.
  intros (d & n & ->) Hn. unfold apply_op. constructor; [intros; by rewrite get_file_alter_ne|].
  intros d' n'. destruct (decide (ChunkFile d n = ChunkFile d' n')) as [Heq|Hne]; [|left; by rewrite get_file_alter_ne].
  rewrite <-Heq. destruct (has_parent s (ChunkFile d n)) eqn:Hp.
  - right. split; [done|]. by rewrite get_file_alter, Hn.
  - left. unfold get_file, alter_file. simpl in *. apply bool_decide_eq_false in Hp. rewrite lookup_alter_eq.
    by destruct (chunk_directories s !! d); [destruct Hp|].
Qed.

Lemma opens_mkdir d s : opens s (apply_op (OpMakeDirectory d) s).
Proof.
  constructor; [done|]. intros d' n. left. unfold get_file. simpl.
  destruct (decide (d = d')) as [->|Hne]; [|by rewrite lookup_partial_alter_ne].
  rewrite lookup_partial_alter_eq. simpl. by destruct (chunk_directories s !! d').
Qed.

(** Opening a chunk file for appending. *)
Lemma wp_open_append p Q C d :
  (∃ dir n, p = ChunkFile dir n) → has_parent (content d) p = true →
  (∀ s, opens (content d) s → C s) →
  (∀ d', opens (content d) (content d') → changes_only p (content d) (content d') →
     (∀ dir, is_Some (chunk_directories (content d) !! dir) → is_Some (chunk_directories (content d') !! dir)) →
     get_file (content d') p = Some (default [] (get_file (content d) p)) →
     Q (Ok {| m_pathname := p; m_fileSize := length (default [] (get_file (content d) p)); m_position := 0 |}) d') →
  wp (open p Read_Append) Q C d.
Proof.
  intros Hp Hpar HC HQ. assert (C (content d)) as HC0 by (apply HC, opens_refl).
  unfold open. apply wp_bind, wp_disk_gets; [done|]. apply wp_bind, wp_disk_gets; [done|]. rewrite Hpar.
  destruct (get_file (content d) p) as [c|] eqn:Hc.
  - apply wp_ret; [done|]. by apply HQ; [apply opens_refl|intros q ?|intros ?|rewrite Hc].
  - assert (opens (content d) (apply_op (OpCreate p) (content d))) as Ho by (by apply opens_create).
    apply wp_bind, wp_issue_atomic; [done|done|by apply HC|]. apply wp_ret; [by apply HC|].
    apply HQ; [done|apply changes_only_alter| |].
    + intros dir Hdir. simpl. by apply chunk_directories_alter.
    + simpl. by rewrite get_file_alter, Hc.
Qed.

Lemma has_dir_parent s h k : has_dir s h → has_parent s (cached_path k h) = true.
Proof. intros Hd. destruct k; by apply bool_decide_eq_true. Qed.

Lemma wp_open_cached k h Q C st :
  has_dir (stored_in st) h → (∀ s, opens (stored_in st) s → C s) →
  (∀ st', frame k h st st' → opens (stored_in st) (stored_in st') → has_dir (stored_in st') h →
     handle st' k h (default [] (get_file (stored_in st) (cached_path k h))) 0 → Q (Ok tt) st') →
  wp (open_cached k h) Q C st.
Proof.
  intros Hd HC HQ. unfold open_cached. apply wp_bind, wp_on_disk.
  apply wp_open_append; [destruct k; eauto|by apply has_dir_parent|done|].
  intros d' Ho Hch Hdirs Hg. apply wp_modify; [done|by apply HC|].
  apply HQ; [by apply (frame_set k h _ d' st)|done|by apply Hdirs|]. split; [|done]. simpl. by rewrite cw_get_set, decide_True.
Qed.

(** The handles the writer keeps are open on the files of their chunk. *)
Definition chunk_handles (st : Storage) : Prop :=
  ∀ h, in_range 64 h → cw_cachedDirectoryId (m_chunkWriter st) = chunk h → ∀ k, ∃ c pos, handle st k h c pos.

(** The three files are open, with what was in them. *)
Record selected (s0 : Directory) (h : Z) (st st' : Storage) : Prop := {
  sel_opens : opens s0 (stored_in st');
  sel_handles : ∀ k, ∃ pos, handle st' k h (default [] (get_file s0 (cached_path k h))) pos;
  sel_id : cw_cachedDirectoryId (m_chunkWriter st') = chunk h;
  sel_hash : m_hashFile st' = m_hashFile st;
  sel_mode : m_mode st' = m_mode st;
}.

Lemma wp_select_chunk h Q C st :
  in_range 64 h → chunk_handles st →
  (∀ s, opens (stored_in st) s → C s) →
  (∀ st', selected (stored_in st) h st st' → Q (Ok tt) st') →
  wp (select_chunk h) Q C st.
Proof.
  intros Hh Hch HC HQ. assert (C (stored_in st)) as HC0 by (apply HC, opens_refl).
  unfold select_chunk. apply wp_bind, wp_gets; [done|]. fold (chunk h).
  destruct (negb _ || _) eqn:Hcond.
  2: { apply orb_false_iff in Hcond as [Hid%negb_false_iff%Z.eqb_eq _]. apply wp_ret; [done|]. apply HQ.
       constructor; [apply opens_refl| |done..]. intros k. destruct (Hch h Hh Hid k) as (c & pos & Hc). exists pos.
       pose proof Hc as [_ ->]. done. }
  apply wp_bind, wp_modify; [done|done|]. set (st1 := set_chunkWriter _ st).
  apply wp_bind, wp_on_disk, wp_disk_gets; [done|].
  apply wp_bind. set (Q1 := λ (r : result unit) st', match r with Ok _ => _ | Throw _ => _ end).
  assert (∀ st2, opens (stored_in st) (stored_in st2) → has_dir (stored_in st2) h → m_chunkWriter st2 = reset_ChunkWriter →
    m_hashFile st2 = m_hashFile st → m_mode st2 = m_mode st → Q1 (Ok tt) st2) as Hopen.
  { intros st2 Ho2 Hd2 Hw2 Hhf2 Hm2. unfold Q1.
    apply wp_bind, wp_open_cached; [done|intros s Hs; apply HC; by eapply opens_trans|]. intros st3 Hf3 Ho3 Hd3 Hh3.
    apply wp_bind, wp_open_cached; [done|intros s Hs; apply HC; do 2 (eapply opens_trans; [done|]); done|].
    intros st4 Hf4 Ho4 Hd4 Hh4.
    apply wp_bind, wp_open_cached; [done|intros s Hs; apply HC; do 3 (eapply opens_trans; [done|]); done|].
    intros st5 Hf5 Ho5 Hd5 Hh5.
    assert (opens (stored_in st) (stored_in st5)) as Ho by (do 3 (eapply opens_trans; [done|]); done).
    apply wp_modify; [done|by apply HC|]. apply HQ. constructor; [done| |done|..].
    - assert (∀ s' k, opens (stored_in st) s' → default [] (get_file s' (cached_path k h)) = default [] (get_file (stored_in st) (cached_path k h))) as Hdef.
      { intros s' k Hs'. destruct k; by apply opens_default. }
      pose proof (opens_trans _ _ _ Ho2 Ho3) as Ho13. pose proof (opens_trans _ _ _ Ho13 Ho4) as Ho14.
      rewrite (Hdef _ _ Ho2) in Hh3. rewrite (Hdef _ _ Ho13) in Hh4. rewrite (Hdef _ _ Ho14) in Hh5.
      intros k. exists 0%nat. assert (handle st5 k h (default [] (get_file (stored_in st) (cached_path k h))) 0) as Hk.
      { destruct k; [|by eapply (handle_frame IdxFile StmtFile)|done].
        eapply (handle_frame IdxFile BlocksFile); [done|exact Hf5|]. by eapply (handle_frame StmtFile BlocksFile). }
      destruct Hk as [Hk1 Hk2]. split; [|done]. rewrite <-Hk1. by destruct k.
    - simpl. rewrite (fr_hash _ _ _ _ Hf5), (fr_hash _ _ _ _ Hf4), (fr_hash _ _ _ _ Hf3). done.
    - simpl. rewrite (fr_mode _ _ _ _ Hf5), (fr_mode _ _ _ _ Hf4), (fr_mode _ _ _ _ Hf3). done. }
  clear Hcond. case_bool_decide as Hpresent.
  - apply wp_ret; [done|]. by apply Hopen; [apply opens_refl|..].
  - assert (opens (stored_in st) (apply_op (OpMakeDirectory (GetDirectoryPath h)) (stored_in st))) as Ho by apply opens_mkdir.
    apply wp_on_disk, wp_issue_atomic; [done|done|by apply HC|]. apply Hopen; try done.
    unfold has_dir, stored_in. simpl. rewrite lookup_partial_alter_eq. eauto.
Qed.

(** * Saving a block *)

Definition writable (e : BlockElement) : Prop :=
  wf_BlockElement e ∧ match be_OptionalStatement e with Some s => wf_BlockStatement s | None => True end.

Lemma writable_block e :
  writable e → ∃ buffers, writes (WriteBlockElement e) buffers ∧ concat buffers = block_bytes e
    ∧ reads ReadBlockElement (block_bytes e) (persisted e) ∧ (0 < length (block_bytes e))%nat.
Proof.
  intros [He _]. destruct (BlockElement_roundtrips e He) as (buffers & Hw & Hr). exists buffers.
  assert (block_bytes e = concat buffers) as Heq by (unfold block_bytes; by rewrite (Hw [])).
  rewrite Heq. split_and!; try done. destruct (concat buffers) eqn:Hc; simpl; [|lia].
  exfalso. specialize (Hr []). done.
Qed.

Lemma writable_statement s :
  wf_BlockStatement s → ∃ buffers, writes (WriteBlockStatement s) buffers ∧ concat buffers = statement_bytes s
    ∧ reads ReadBlockStatement (statement_bytes s) s ∧ (0 < length (statement_bytes s))%nat.
Proof.
  intros Hs. destruct (BlockStatement_roundtrips s Hs) as (buffers & Hw & Hr). exists buffers.
  assert (statement_bytes s = concat buffers) as Heq by (unfold statement_bytes; by rewrite (Hw [])).
  rewrite Heq. split_and!; try done. destruct (concat buffers) eqn:Hc; simpl; [|lia].
  exfalso. specialize (Hr []). done.
Qed.

Definition optional_bytes (s : option BlockStatement) : list Z := match s with Some s => statement_bytes s | None => [] end.

(** Offsets and sizes of the block fit the index entry. *)
Definition has_space (s : Directory) (h : Z) (e : BlockElement) : Prop :=
  fits32 (length (default [] (get_file s (GetBlocksDatPath h)))) ∧ fits32 (length (block_bytes e))
  ∧ fits32 (length (default [] (get_file s (GetStatementsDatPath h)))) ∧ fits32 (length (optional_bytes (be_OptionalStatement e))).

(** The entry that is written for a block. *)
Definition entry_of (s : Directory) (h : Z) (e : BlockElement) : BlockChunkIndexEntry := {|
  blockOffset := Z.of_nat (length (default [] (get_file s (GetBlocksDatPath h))));
  blockSize := Z.of_nat (length (block_bytes e));
  stmtOffset := Z.of_nat (length (default [] (get_file s (GetStatementsDatPath h))));
  stmtSize := Z.of_nat (length (optional_bytes (be_OptionalStatement e)));
|}.

Lemma entry_of_wf s h e :
  has_space s h e → in_range 32 (blockOffset (entry_of s h e)) ∧ in_range 32 (blockSize (entry_of s h e))
    ∧ in_range 32 (stmtOffset (entry_of s h e)) ∧ in_range 32 (stmtSize (entry_of s h e)).
Proof. unfold has_space, fits32, Max32, in_range. simpl. lia. Qed.

(** The files of the chunk after the save. *)
Record chunk_written (s0 s : Directory) (h : Z) (e : BlockElement) : Prop := {
  cwr_blocks : get_file s (GetBlocksDatPath h) = Some (default [] (get_file s0 (GetBlocksDatPath h)) ++ block_bytes e);
  cwr_stmts : get_file s (GetStatementsDatPath h)
    = Some (default [] (get_file s0 (GetStatementsDatPath h)) ++ optional_bytes (be_OptionalStatement e));
  cwr_idx : ∃ x, get_file s (GetBlocksIdxPath h) = Some x
    ∧ slice (chunk_index h * sizeof_Entry) sizeof_Entry x = Some (entry_bytes (entry_of s0 h e));
}.

Lemma slice_suffix c data : slice (length c) (length data) (c ++ data) = Some data.
Proof. rewrite <-(app_nil_r data) at 2. apply slice_app_end. Qed.

Lemma chunk_written_stored s0 s h e : writable e → has_space s0 h e → chunk_written s0 s h e → stored s h e (entry_of s0 h e).
Proof.
  intros He Hsp [Hb Ht (x & Hx & Hsl)]. destruct (entry_of_wf s0 h e Hsp) as (R1 & R2 & R3 & R4).
  destruct (writable_block e He) as (_ & _ & _ & _ & Hpos). constructor.
  - apply HasChunkIndexEntry_Some. exists x, (entry_bytes (entry_of s0 h e)).
    rewrite bytes_entry_bytes by done. split_and!; try done. simpl. lia.
  - done.
  - eexists. split; [exact Hb|]. simpl. rewrite !Nat2Z.id. apply slice_suffix.
  - destruct He as [_ Hst]. simpl. destruct (be_OptionalStatement e) as [st|]; [|done]. simpl in *.
    destruct (writable_statement st Hst) as (_ & _ & _ & _ & Hpos'). split; [lia|].
    eexists. split; [exact Ht|]. rewrite !Nat2Z.id. apply slice_suffix.
Qed.

(** The hash files are those that were there; new ones are empty. *)
Definition hash_files_kept (s s' : Directory) : Prop :=
  ∀ h, get_file s' (GetHashFilePath h) = get_file s (GetHashFilePath h)
       ∨ (get_file s (GetHashFilePath h) = None ∧ get_file s' (GetHashFilePath h) = Some []).

Lemma hash_files_kept_opens s s' : opens s s' → hash_files_kept s s'.
Proof. intros Ho h. apply Ho. Qed.

Lemma hash_files_kept_frame s k h st st' :
  frame k h st st' → hash_files_kept s (stored_in st) → hash_files_kept s (stored_in st').
Proof. intros Hf Hs h'. rewrite (fr_files _ _ _ _ Hf) by (by destruct k). apply Hs. Qed.

(** The last step: the index entry. *)
Lemma wp_finish_save s0 h e st0 st entry :
  in_range 64 h → saving s0 (stored_in st) h → hash_files_kept s0 (stored_in st) →
  cw_cachedDirectoryId (m_chunkWriter st) = chunk h → m_hashFile st = m_hashFile st0 → m_mode st = m_mode st0 →
  (∃ pos, handle st BlocksFile h (default [] (get_file s0 (GetBlocksDatPath h)) ++ block_bytes e) pos) →
  (∃ pos, handle st StmtFile h (default [] (get_file s0 (GetStatementsDatPath h)) ++ optional_bytes (be_OptionalStatement e)) pos) →
  (∃ pos, handle st IdxFile h (default [] (get_file s0 (GetBlocksIdxPath h))) pos) →
  entry = entry_of s0 h e →
  wp (write_index_entry h entry)
    (λ r st', r = Ok tt ∧ saving s0 (stored_in st') h ∧ chunk_written s0 (stored_in st') h e
              ∧ chunk_handles st' ∧ m_hashFile st' = m_hashFile st0 ∧ m_mode st' = m_mode st0
              ∧ hash_files_kept s0 (stored_in st'))
    (λ s, saving s0 s h) st.
Proof.
  intros Hh Hs Hkept Hid Hhf Hm [p1 HB] [p2 HT] [p3 HX] ->. eapply wp_write_index_entry; [exact HX| |].
  - intros s x' Hch Hx' Hsame. eapply saving_trans; [exact Hs|]. by eapply saving_idx; [|done|apply HX|..].
  - intros st' x' Hf [p3' HX'] Hsame Hsl.
    assert (saving s0 (stored_in st') h) as Hs'.
    { eapply saving_trans; [exact Hs|]. by eapply saving_idx; [|apply Hf|apply HX|apply HX'|]. }
    pose proof (handle_frame IdxFile BlocksFile _ _ _ _ _ ltac:(done) Hf HB) as HB'.
    pose proof (handle_frame IdxFile StmtFile _ _ _ _ _ ltac:(done) Hf HT) as HT'.
    split_and!; try done.
    + constructor; [apply HB'|apply HT'|]. exists x'. split; [apply HX'|done].
    + intros h' Hh' Hid' k. rewrite (fr_id _ _ _ _ Hf), Hid in Hid'.
      assert (∀ k, cached_path k h' = cached_path k h) as Hpath.
      { intros k'. assert (GetDirectoryPath h' = GetDirectoryPath h) as Hd
          by (unfold GetDirectoryPath; fold (chunk h') (chunk h); by rewrite Hid').
        destruct k'; simpl; unfold GetBlocksDatPath, GetStatementsDatPath, GetBlocksIdxPath; by rewrite Hd. }
      unfold handle. rewrite Hpath. destruct k; [by eexists _, _; apply HB'|by eexists _, _; apply HT'|by eexists _, _; apply HX'].
    + by rewrite (fr_hash _ _ _ _ Hf).
    + by rewrite (fr_mode _ _ _ _ Hf).
    + by eapply hash_files_kept_frame.
Qed.

Lemma wp_ChunkWriter_save h e st :
  in_range 64 h → chunk_handles st → writable e → has_space (stored_in st) h e →
  wp (ChunkWriter_save h e)
    (λ r st', r = Ok tt ∧ saving (stored_in st) (stored_in st') h ∧ chunk_written (stored_in st) (stored_in st') h e
              ∧ chunk_handles st' ∧ m_hashFile st' = m_hashFile st ∧ m_mode st' = m_mode st
              ∧ hash_files_kept (stored_in st) (stored_in st'))
    (λ s, saving (stored_in st) s h) st.
Proof.
  intros Hh Hch He Hsp. set (s0 := stored_in st). pose proof Hsp as (F1 & F2 & F3 & F4).
  destruct (writable_block e He) as (bufs & Hw & Hcat & _ & _).
  unfold ChunkWriter_save. apply wp_bind, wp_select_chunk; [done|done|intros s Hs; by apply opens_saving|].
  intros st1 [Ho1 Hh1 Hid1 Hhf1 Hm1]. pose proof (opens_saving _ _ h Ho1) as Hs1.
  destruct (Hh1 BlocksFile) as [p1 HB1], (Hh1 StmtFile) as [p2 HT1], (Hh1 IdxFile) as [p3 HX1].
  apply wp_bind. eapply (wp_append_payload BlocksFile h); [exact HB1|done| |].
  { intros d s Hs Hg. eapply saving_trans; [exact Hs1|]. by eapply (saving_append BlocksFile h); [|done|apply HB1|]. }
  exists bufs. rewrite Hcat. split_and!; [done|done|]. intros st2 Hf2 [p1' HB2].
  assert (saving s0 (stored_in st2) h) as Hs2.
  { eapply saving_trans; [exact Hs1|]. by eapply (saving_append BlocksFile h); [|apply Hf2|apply HB1|apply HB2]. }
  pose proof (handle_frame BlocksFile StmtFile _ _ _ _ _ ltac:(done) Hf2 HT1) as HT2.
  pose proof (handle_frame BlocksFile IdxFile _ _ _ _ _ ltac:(done) Hf2 HX1) as HX2.
  assert (cw_cachedDirectoryId (m_chunkWriter st2) = chunk h) as Hid2 by (by rewrite (fr_id _ _ _ _ Hf2)).
  assert (m_hashFile st2 = m_hashFile st) as Hhf2 by (by rewrite (fr_hash _ _ _ _ Hf2)).
  assert (m_mode st2 = m_mode st) as Hm2 by (by rewrite (fr_mode _ _ _ _ Hf2)).
  pose proof (hash_files_kept_frame s0 _ _ _ _ Hf2 (hash_files_kept_opens _ _ Ho1)) as Hk2.
  apply wp_bind. eapply (wp_append_payload StmtFile h); [exact HT2|done| |].
  { intros d s Hs Hg. eapply saving_trans; [exact Hs2|]. by eapply (saving_append StmtFile h); [|done|apply HT2|]. }
  destruct He as [_ Hst]. destruct (be_OptionalStatement e) as [stm|] eqn:Hopt; simpl.
  - destruct (writable_statement stm Hst) as (sbufs & Hsw & Hscat & _ & _). exists sbufs. rewrite Hscat.
    split_and!; [done|done|]. intros st3 Hf3 [p2' HT3].
    apply (wp_finish_save s0 h e st st3); try done.
    + eapply saving_trans; [exact Hs2|]. by eapply (saving_append StmtFile h); [|apply Hf3|apply HT2|apply HT3].
    + by eapply hash_files_kept_frame.
    + by rewrite (fr_id _ _ _ _ Hf3).
    + by rewrite (fr_hash _ _ _ _ Hf3).
    + by rewrite (fr_mode _ _ _ _ Hf3).
    + exists p1'. by eapply (handle_frame StmtFile BlocksFile).
    + exists p2'. by rewrite Hopt.
    + exists p3. by eapply (handle_frame StmtFile IdxFile).
    + unfold entry_of. by rewrite Hopt.
  - apply (wp_finish_save s0 h e st st2); try done.
    + by exists p1'.
    + exists p2. rewrite Hopt. simpl. by rewrite app_nil_r.
    + by exists p3.
    + unfold entry_of. by rewrite Hopt.
Qed.

(** ** The hash file *)

Definition hash_file (s : Directory) (h : Z) : list Z := default [] (get_file s (GetHashFilePath h)).

(** The hash of the next block can be written: the hashes before it are there,
    and the first chunk has its first two. *)
Definition hash_ready (s : Directory) (h : Z) : Prop :=
  (chunk_index h * Hash256_Size ≤ length (hash_file s h))%nat
  ∧ (h < Files_Per_Directory → (Hash256_Size * 2 ≤ length (hash_file s h))%nat).

(** The cached handle is open on the hash file of its chunk. *)
Definition hash_handle (st : Storage) : Prop :=
  ∀ h, in_range 64 h → hf_cachedDirectoryId (m_hashFile st) = chunk h →
    ∃ c pos, hf_pCachedHashFile (m_hashFile st) = Some {| m_pathname := GetHashFilePath h; m_fileSize := length c; m_position := pos |}
             ∧ get_file (stored_in st) (GetHashFilePath h) = Some c.

Lemma saving_hash h s s' c data :
  in_range 64 h → changes_only (GetHashFilePath h) s s' → get_file s (GetHashFilePath h) = Some c →
  (chunk_index h * Hash256_Size ≤ length c)%nat →
  get_file s' (GetHashFilePath h) = Some (file_write (chunk_index h * Hash256_Size) data c) → saving s s' h.
Proof.
  intros Hr Hch Hc Hle Hc'. constructor.
  - intros h' x _ Hx. unfold HasChunkIndexEntry in *. by rewrite Hch.
  - intros h' _. unfold entry_size. by rewrite Hch.
  - intros h' c1 Hc1. exists []. rewrite app_nil_r, Hch; done.
  - intros h' c1 Hc1. exists []. rewrite app_nil_r, Hch; done.
  - intros h' e Hh' (c1 & Hc1 & Hs). unfold hashed.
    destruct (decide (GetHashFilePath h' = GetHashFilePath h)) as [Heq|Hne]; [|exists c1; by rewrite Hch].
    rewrite Heq in Hc1 |- *. rewrite Hc in Hc1. injection Hc1 as <-. eexists. split; [exact Hc'|]. rewrite <-Hs.
    assert (chunk h' = chunk h) as Hck by (apply GetDirectoryPath_inj; [unfold in_range in *; lia|done|unfold GetHashFilePath in Heq; congruence]).
    pose proof (chunk_index_lt h h' Hck ltac:(lia)).
    apply (slice_prefix _ _ (chunk_index h * Hash256_Size)); [unfold Hash256_Size; lia|rewrite file_write_length; lia|done|].
    by apply file_write_prefix.
  - by apply Hch.
  - by apply Hch.
Qed.

Lemma wp_OpenHashFile_append h Q C d :
  hash_ready (content d) h → (∀ s, opens (content d) s → C s) →
  (∀ d', opens (content d) (content d') → get_file (content d') (GetHashFilePath h) = Some (hash_file (content d) h) →
     Q (Ok {| m_pathname := GetHashFilePath h; m_fileSize := length (hash_file (content d) h); m_position := 0 |}) d') →
  wp (OpenHashFile h Read_Append) Q C d.
Proof.
  intros [_ H64] HC HQ. assert (C (content d)) by (apply HC, opens_refl).
  assert (∀ d1, opens (content d) (content d1) → has_dir (content d1) h →
    wp (pHashFile ← open (GetHashFilePath h) Read_Append;
        if (h <? Files_Per_Directory) && bool_decide (m_fileSize pHashFile < Hash256_Size * 2)%nat
        then throw runtime_error else mret pHashFile) Q C d1) as Hopen.
  { intros d1 Ho1 Hd1. apply wp_bind, wp_open_append; [by eexists _, _|by apply bool_decide_eq_true| |].
    - intros s Hs. apply HC. by eapply opens_trans.
    - intros d2 Ho2 _ _ Hg. unfold GetHashFilePath in *. rewrite (opens_default _ _ _ _ Ho1) in *. fold (GetHashFilePath h) in *.
      fold (hash_file (content d) h) in *. pose proof (opens_trans _ _ _ Ho1 Ho2) as Ho. simpl m_fileSize.
      assert ((h <? Files_Per_Directory) && bool_decide (length (hash_file (content d) h) < Hash256_Size * 2)%nat = false) as ->.
      { apply andb_false_iff. destruct (Z.ltb_spec h Files_Per_Directory); [right|by left].
        apply bool_decide_eq_false. specialize (H64 ltac:(done)). lia. }
      apply wp_ret; [by apply HC|]. by apply HQ. }
  unfold OpenHashFile. rewrite decide_True by done. apply wp_bind. apply wp_bind, wp_disk_gets; [done|].
  case_bool_decide as Hd.
  - apply wp_ret; [done|]. apply Hopen; [apply opens_refl|done].
  - pose proof (opens_mkdir (GetDirectoryPath h) (content d)) as Ho. apply wp_issue_atomic; [done|done|by apply HC|].
    apply Hopen; [done|]. unfold has_dir. simpl. rewrite lookup_partial_alter_eq. eauto.
Qed.

Lemma chunk_handles_other st st' :
  m_chunkWriter st' = m_chunkWriter st →
  (∀ k h c, get_file (stored_in st) (cached_path k h) = Some c → get_file (stored_in st') (cached_path k h) = Some c) →
  chunk_handles st → chunk_handles st'.
Proof.
  intros Hw Hf Hc h Hh Hid k. rewrite Hw in Hid. destruct (Hc h Hh Hid k) as (c & pos & H1 & H2). exists c, pos.
  split; [by rewrite Hw|]. by apply Hf.
Qed.

Lemma opens_cached s s' k h c : opens s s' → get_file s (cached_path k h) = Some c → get_file s' (cached_path k h) = Some c.
Proof. intros Ho. destruct k; by apply opens_Some. Qed.

Lemma GetHashFilePath_chunk h h' : chunk h = chunk h' → GetHashFilePath h = GetHashFilePath h'.
Proof. intros Hc. unfold GetHashFilePath, GetDirectoryPath. do 2 f_equal. exact Hc. Qed.

(** The write itself, on a handle that is open. *)
Lemma wp_hash_write h e c pos st0 st :
  in_range 64 h → is_hash (be_EntityHash e) → chunk_handles st →
  hf_cachedDirectoryId (m_hashFile st) = chunk h →
  get_file (stored_in st) (GetHashFilePath h) = Some c → (chunk_index h * Hash256_Size ≤ length c)%nat →
  saving (stored_in st0) (stored_in st) h → m_mode st = m_mode st0 →
  (∀ k h', get_file (stored_in st0) (cached_path k h') ≠ None → get_file (stored_in st) (cached_path k h') = get_file (stored_in st0) (cached_path k h')) →
  wp (f ← on_disk (SeekHashFile {| m_pathname := GetHashFilePath h; m_fileSize := length c; m_position := pos |} h);
      f ← on_disk (rf_write (be_EntityHash e) f);
      modify (set_hashFile {| hf_cachedDirectoryId := hf_cachedDirectoryId (m_hashFile st); hf_pCachedHashFile := Some f |}))
    (λ r st', r = Ok tt ∧ saving (stored_in st0) (stored_in st') h ∧ hashed (stored_in st') h e
              ∧ chunk_handles st' ∧ hash_handle st' ∧ m_mode st' = m_mode st0
              ∧ ∀ k h', get_file (stored_in st0) (cached_path k h') ≠ None →
                  get_file (stored_in st') (cached_path k h') = get_file (stored_in st0) (cached_path k h'))
    (λ s, saving (stored_in st0) s h) st.
Proof.
  intros Hh Hhash Hch Hid Hc Hle Hsv Hm Hsame. set (t := (chunk_index h * Hash256_Size)%nat) in *.
  assert (∀ data, get_file (apply_op (OpWrite (GetHashFilePath h) t data) (stored_in st)) (GetHashFilePath h) = Some (file_write t data c)) as Hget.
  { intros data. unfold apply_op. rewrite get_file_alter, Hc by (by eapply get_file_parent). done. }
  assert (∀ data, saving (stored_in st0) (apply_op (OpWrite (GetHashFilePath h) t data) (stored_in st)) h) as Hw.
  { intros data. eapply saving_trans; [exact Hsv|]. by eapply saving_hash; [|apply changes_only_alter|exact Hc|done|apply Hget]. }
  apply wp_bind, wp_on_disk. unfold SeekHashFile, rf_seek. fold t. rewrite decide_False by (simpl; lia). apply wp_ret; [done|].
  apply wp_bind, wp_on_disk. unfold rf_write. cbn [m_pathname m_position m_fileSize].
  apply wp_bind, wp_issue; [done|apply Hw| |].
  { intros s Hs. inversion Hs; subst. apply Hw. }
  apply wp_ret; [apply Hw|]. apply wp_modify; [done|apply Hw|].
  specialize (Hget (be_EntityHash e)). specialize (Hw (be_EntityHash e)).
  split_and!; [done|exact Hw| | | |done|].
  - exists (file_write t (be_EntityHash e) c). split; [exact Hget|]. rewrite file_write_inside by done.
    pose proof (slice_app_end (take t c) (be_EntityHash e) (drop (t + length (be_EntityHash e)) c)) as Hsl.
    rewrite length_take_le, Hhash in Hsl by done. by rewrite Hhash.
  - eapply chunk_handles_other; [|  |exact Hch]; [done|]. intros k h' c' Hc'. unfold stored_in. simpl.
    rewrite get_file_alter_ne; [done|by destruct k].
  - intros h' Hh' Hid'. simpl in Hid'. rewrite Hid in Hid'. rewrite <-(GetHashFilePath_chunk h h' Hid').
    exists (file_write t (be_EntityHash e) c). eexists. split; [|exact Hget]. simpl. by rewrite file_write_length.
  - intros k h' Hne. unfold stored_in. simpl. rewrite get_file_alter_ne by (by destruct k). by apply Hsame.
Qed.

Lemma wp_HashFile_save h e st :
  in_range 64 h → is_hash (be_EntityHash e) → chunk_handles st → hash_handle st → hash_ready (stored_in st) h →
  wp (HashFile_save h (be_EntityHash e))
    (λ r st', r = Ok tt ∧ saving (stored_in st) (stored_in st') h ∧ hashed (stored_in st') h e
              ∧ chunk_handles st' ∧ hash_handle st' ∧ m_mode st' = m_mode st
              ∧ ∀ k h', get_file (stored_in st) (cached_path k h') ≠ None →
                  get_file (stored_in st') (cached_path k h') = get_file (stored_in st) (cached_path k h'))
    (λ s, saving (stored_in st) s h) st.
Proof.
  intros Hh Hhash Hch Hhh Hready. unfold HashFile_save. fold (chunk h).
  apply wp_bind, wp_gets; [apply saving_refl|]. apply wp_bind.
  destruct (Z.eqb_spec (hf_cachedDirectoryId (m_hashFile st)) (chunk h)) as [Hid|Hid]; cbn [negb].
  - apply wp_ret; [apply saving_refl|]. apply wp_bind, wp_gets; [apply saving_refl|].
    destruct (Hhh h Hh Hid) as (c & pos & -> & Hc). destruct Hready as [Hle _]. unfold hash_file in Hle. rewrite Hc in Hle.
    eapply wp_hash_write; try done. apply saving_refl.
  - apply wp_bind, wp_on_disk, wp_OpenHashFile_append; [done|intros s Hs; by apply opens_saving|].
    intros d' Ho Hg. apply wp_modify; [done|by apply opens_saving|]. apply wp_bind, wp_gets; [by apply opens_saving|].
    cbn [m_hashFile set_hashFile hf_pCachedHashFile].
    set (st1 := set_hashFile _ _). apply (wp_hash_write h e (hash_file (stored_in st) h) 0 st st1); try done.
    + eapply chunk_handles_other; [|  |exact Hch]; [done|]. intros k h' c'. by apply opens_cached.
    + apply Hready.
    + by apply opens_saving.
    + intros k h' Hne. destruct (get_file (stored_in st) (cached_path k h')) as [c'|] eqn:Hc'; [|done].
      by eapply opens_cached.
Qed.

End storage_mode.

End BlockStorageRefinement.
