(* ===== verification/BlockStorageSpec.v ===== *)
(** What the file based block storage promises: it is a chain of blocks to
    which blocks are appended, from which they are dropped and read back, and
    which survives an interruption at any point. *)
From stdpp Require Import base tactics numbers option list gmap strings sets.
From S2P Require Import Prelude Streams BlockElements FileSystem FileBlockStorage BlockStorageCrash BlockStorageRefinement.

Local Open Scope Z_scope.

Module BlockStorageSpec.
Import Stream Elements FileSystem FileBlockStorage BlockStorageCrash BlockStorageRefinement.

#[local] Arguments get_file : simpl never.
#[local] Arguments alter_file : simpl never.
#[local] Arguments file_write : simpl never.
#[local] Arguments slice : simpl never.

Section storage_mode.
Context (mode : FileBlockStorageMode).
Abbreviation repr := (repr mode).

(** * Saving *)

(** The storage stores the blocks [bs] behind [start], and its handles are
    those of the files. *)
Record ready (st : Storage) (start : Z) (bs : list BlockElement) : Prop := {
  ready_repr : repr (stored_in st) start bs;
  ready_chunk : chunk_handles st;
  ready_hash : hash_handle st;
  ready_mode : m_mode st = mode;
  ready_hashes : mode = Hash_Index → hash_ready (stored_in st) (top start bs + 1);
}.

(** A block that can be appended. *)
Definition appendable (st : Storage) (start : Z) (bs : list BlockElement) (e : BlockElement) : Prop :=
  writable e ∧ be_Height e = top start bs + 1 ∧ top start bs + 1 < 2 ^ 64 ∧ has_space (stored_in st) (top start bs + 1) e.

Lemma top_snoc start bs e : top start (bs ++ [e]) = top start bs + 1.
Proof. unfold top. rewrite length_app. simpl. lia. Qed.

(** With the hash of a height the hash of the next one can be written. *)
Lemma hashed_ready s h e : 0 < h → hashed s h e → hash_ready s (h + 1).
Proof.
  intros H0 (c & Hc & Hsl). apply slice_length in Hsl as [_ Hl]. unfold hash_ready, hash_file.
  assert (chunk (h + 1) = chunk h ∧ chunk_index (h + 1) = S (chunk_index h)
          ∨ chunk_index (h + 1) = 0%nat ∧ chunk (h + 1) ≠ 0) as Hcase.
  { unfold chunk, chunk_index, Files_Per_Directory.
    pose proof (Z.div_mod h 65536 ltac:(lia)). pose proof (Z.mod_pos_bound h 65536 eq_refl).
    pose proof (Z.div_mod (h + 1) 65536 ltac:(lia)). pose proof (Z.mod_pos_bound (h + 1) 65536 eq_refl).
    destruct (decide (h mod 65536 = 65535)); [right|left].
    - assert ((h + 1) mod 65536 = 0) by (symmetry; apply (Z.mod_unique _ _ (h / 65536 + 1)); lia). lia.
    - assert ((h + 1) mod 65536 = h mod 65536 + 1) by (symmetry; apply (Z.mod_unique _ _ (h / 65536)); lia).
      assert ((h + 1) / 65536 = h / 65536) by lia. lia. }
  destruct Hcase as [[Hck Hci]|[Hci Hck]].
  - rewrite (GetHashFilePath_chunk (h + 1) h Hck), Hc, Hci. simpl default. split; [unfold Hash256_Size in *; lia|].
    intros Hlt. enough (0 < chunk_index h)%nat by (unfold Hash256_Size in *; lia). unfold chunk_index, Files_Per_Directory in *.
    rewrite Z.mod_small by lia. lia.
  - rewrite Hci. split; [simpl; lia|]. intros Hlt. exfalso. apply Hck. unfold chunk, Files_Per_Directory in *.
    apply Z.div_small. lia.
Qed.

Lemma hash_files_kept_ready s s' h : hash_files_kept s s' → hash_ready s h → hash_ready s' h.
Proof. unfold hash_ready, hash_file. intros Hk. destruct (Hk h) as [->|[-> ->]]; done. Qed.

Lemma hash_files_kept_handle st st' :
  hash_files_kept (stored_in st) (stored_in st') → m_hashFile st' = m_hashFile st → hash_handle st → hash_handle st'.
Proof.
  intros Hk Hm Hh h Hr Hid. rewrite Hm in *. destruct (Hh h Hr Hid) as (c & pos & Hf & Hc). exists c, pos. split; [done|].
  destruct (Hk h) as [->|[Hn _]]; congruence.
Qed.

Lemma writable_hash e : writable e → is_hash (be_EntityHash e).
Proof. intros [He _]. apply He. Qed.

Lemma ready_handles_disk st d :
  (∀ dir name, get_file (content d) (ChunkFile dir name) = get_file (stored_in st) (ChunkFile dir name)) →
  chunk_handles st → hash_handle st → chunk_handles (set_disk d st) ∧ hash_handle (set_disk d st).
Proof.
  intros Hd Hc Hh. split.
  - eapply chunk_handles_other; [|  |exact Hc]; [done|]. intros k h c Hg. change (stored_in (set_disk d st)) with (content d). rewrite <-Hg. by destruct k; apply Hd.
  - intros h Hr Hid. destruct (Hh h Hr Hid) as (c & pos & Hf & Hg). exists c, pos. split; [done|]. unfold stored_in. simpl.
    unfold GetHashFilePath in *. by rewrite Hd.
Qed.

Lemma saving_old s0 s start bs : repr s0 start bs → saving s0 s (top start bs + 1) → repr s start bs.
Proof. intros Hr Hs. by eapply saving_repr. Qed.

(** What is left to do once the files of the chunk are written: the height. *)
Lemma wp_publish start bs e st0 st :
  repr (stored_in st0) start bs → top start bs + 1 < 2 ^ 64 →
  added mode (stored_in st0) (stored_in st) (top start bs + 1) e → writable e →
  chunk_handles st → hash_handle st → m_mode st = mode →
  wp (if top start bs <? top start bs + 1 then on_disk (index_set index_dat (top start bs + 1)) else mret tt)
    (λ r st', r = Ok tt ∧ ready st' start (bs ++ [e]))
    (λ s, repr s start bs ∨ repr s start (bs ++ [e])) st.
Proof.
  intros Hr Hmax Ha He Hc Hh Hm. pose proof (added_saving _ _ _ _ _ Ha) as Hsv. destruct (repr_range _ _ _ _ Hr) as [H0 _].
  assert (repr (stored_in st) start bs) as Hr1 by (by eapply saving_old).
  rewrite (proj2 (Z.ltb_lt _ _)) by lia.
  assert (∀ s, changes_only index_dat (stored_in st) s → index_ok s → chain_height s = top start bs + 1 → repr s start (bs ++ [e])) as Hnew.
  { intros s Hs Hok Hht. eapply (added_repr mode (stored_in st0) (stored_in st) s start bs (top start bs + 1) e Hr eq_refl); assumption. }
  assert (∀ s, changes_only index_dat (stored_in st) s → index_ok s → chain_height s = chain_height (stored_in st) → repr s start bs) as Hold.
  { intros s Hs Hok Hht. by eapply repr_ext; [intros; by apply Hs|by apply Hs|..]. }
  apply wp_on_disk, wp_index_set; [unfold in_range, top in *; lia|apply (repr_index _ _ _ _ Hr1)|by left| |].
  - intros s Hs Hok [Hht|Hht]; [left; by apply Hold|right; by apply Hnew].
  - intros s l Hs Hok Hht. split; [done|].
    destruct (ready_handles_disk st {| content := s; log := l |}) as [Hc' Hh']; [intros; by apply Hs|done|done|].
    constructor; [by apply Hnew|done|done|done|]. intros Hmode. rewrite top_snoc.
    apply (hashed_ready _ _ e); [unfold top; lia|]. destruct (added_hash _ _ _ _ _ Ha Hmode) as (c & Hg & Hsl). exists c. split; [|done].
    unfold stored_in. simpl. by rewrite Hs.
Qed.

(** Saving the next block: it succeeds, and wherever it is stopped the old or
    the new chain is stored. *)
Lemma wp_saveBlock start bs e st :
  ready st start bs → appendable st start bs e →
  wp (saveBlock e) (λ r st', r = Ok tt ∧ ready st' start (bs ++ [e]))
    (λ s, repr s start bs ∨ repr s start (bs ++ [e])) st.
Proof.
  intros [Hr Hc Hh Hm Hhr] (He & Hht & Hmax & Hsp). destruct (repr_range _ _ _ _ Hr) as [H0 _].
  assert (in_range 64 (top start bs + 1)) as Hrange by (unfold in_range, top in *; lia).
  unfold saveBlock. apply wp_bind. unfold chainHeight. apply wp_on_disk, wp_index_height; [by left|].
  change (content (disk st)) with (stored_in st). rewrite (repr_height _ _ _ _ Hr). fold (top start bs). rewrite Hht.
  assert (add64 (top start bs) 1 = top start bs + 1) as -> by (by apply wrap_small). rewrite Z.eqb_refl. cbn [negb].
  set (st0 := set_disk _ st). assert (st0 = st) as -> by (by destruct st).
  apply wp_bind. eapply wp_mono; [by apply wp_ChunkWriter_save| |].
  2: { intros s Hs. left. by eapply saving_old, Hs. }
  intros r st1 (-> & Hsv & Hcw & Hc1 & Hhf & Hm1 & Hk) _.
  pose proof (chunk_written_stored _ _ _ _ He Hsp Hcw) as Hst.
  assert (repr (stored_in st1) start bs) as Hr1 by (by eapply saving_old).
  pose proof (hash_files_kept_handle _ _ Hk Hhf Hh) as Hh1.
  apply wp_bind, wp_gets; [by left|]. rewrite Hm1, Hm. apply wp_bind. case_decide as Hmode.
  - eapply wp_mono; [apply (wp_HashFile_save (top start bs + 1) e); try done; [by apply writable_hash|]| |].
    + apply (hash_files_kept_ready _ _ _ Hk). by apply Hhr.
    + intros r st2 (-> & Hsv2 & Hhash & Hc2 & Hh2 & Hm2 & Hsame) _.
      apply (wp_publish start bs e st st2); try done; [|congruence].
      constructor; [by eapply saving_trans| |done]. exists (entry_of (stored_in st) (top start bs + 1) e).
      split; [|done]. destruct Hcw as [B1 B2 (x & B3 & B4)]. eapply chunk_written_stored; try done.
      pose proof (Hsame BlocksFile (top start bs + 1)) as S1. pose proof (Hsame StmtFile (top start bs + 1)) as S2.
      pose proof (Hsame IdxFile (top start bs + 1)) as S3. simpl in S1, S2, S3. rewrite B1 in S1. rewrite B2 in S2. rewrite B3 in S3.
      constructor; [by apply S1|by apply S2|]. exists x. split; [by apply S3|done].
    + intros s Hs. left. by eapply saving_old, Hs.
  - apply wp_ret; [by left|]. apply (wp_publish start bs e st st1); try done; [|congruence].
    constructor; [done| |congruence]. by exists (entry_of (stored_in st) (top start bs + 1) e).
Qed.

(** * Loading *)

Lemma open_run p c d :
  get_file (content d) p = Some c → open p Read_Only d = (d, Ok {| m_pathname := p; m_fileSize := length c; m_position := 0 |}).
Proof. intros Hc. unfold open, disk_gets. erewrite run_bind by done. erewrite run_bind by done. by rewrite Hc. Qed.

Lemma seek_run n f d :
  (n ≤ m_fileSize f)%nat → rf_seek n f d = (d, Ok {| m_pathname := m_pathname f; m_fileSize := m_fileSize f; m_position := n |}).
Proof. intros Hn. unfold rf_seek. by rewrite decide_False by lia. Qed.

Lemma read_run n f d c b :
  get_file (content d) (m_pathname f) = Some c → slice (m_position f) n c = Some b →
  rf_read n f d = (d, Ok (b, {| m_pathname := m_pathname f; m_fileSize := m_fileSize f; m_position := m_position f + n |})).
Proof.
  intros Hc Hb. unfold rf_read, disk_gets. erewrite run_bind by done. cbv beta. rewrite Hc. cbn [mbind option_bind]. by rewrite Hb.
Qed.

Lemma requireHeight_run h d :
  requireHeight h d = (d, if h <=? chain_height (content d) then Ok tt else Throw invalid_argument).
Proof. unfold requireHeight. rewrite (run_bind _ _ _ _ _ (index_height_run d)). by destruct (_ <=? _). Qed.

Lemma read_part_run p offset size data d :
  holds (content d) p offset size data → read_part p offset size d = (d, Ok data).
Proof.
  intros (c & Hc & Hs). pose proof (slice_length _ _ _ _ Hs) as [_ Hl]. unfold read_part.
  rewrite (run_bind _ _ _ _ _ (open_run _ _ _ Hc)). erewrite run_bind by (apply seek_run; simpl; lia).
  by erewrite run_bind by (eapply read_run; [exact Hc|exact Hs]).
Qed.

Lemma read_all_run {A} (m : Reader A) bytes a d : reads m bytes a → read_all m bytes d = (d, Ok a).
Proof. intros Hr. specialize (Hr []). rewrite app_nil_r in Hr. unfold read_all. by rewrite Hr. Qed.

(** What is read back of an element. *)
Definition reloaded (e : BlockElement) : BlockElement := set_OptionalStatement (be_OptionalStatement e) (persisted e).

Lemma persisted_no_statement e : be_OptionalStatement e = None → reloaded e = persisted e.
Proof. intros He. unfold reloaded. rewrite He. done. Qed.

Section loads.
Context (d : Disk) (start : Z) (bs : list BlockElement) (Hrepr : repr (content d) start bs) (Hwf : Forall writable bs).
Context (h : Z) (Hh : start < h ≤ top start bs).

Lemma stored_at : ∃ e x, bs !! Z.to_nat (h - start - 1) = Some e ∧ stored (content d) h e x ∧ writable e.
Proof.
  destruct (repr_stored _ _ _ _ h Hrepr Hh) as (e & x & He & Hx). exists e, x. split_and!; [done|done|].
  by eapply Forall_lookup_1.
Qed.

Lemma height_ok : requireHeight h d = (d, Ok tt).
Proof. rewrite requireHeight_run, (repr_height _ _ _ _ Hrepr). by rewrite (proj2 (Z.leb_le _ _)) by apply Hh. Qed.

Lemma entry_run {B} (f : option BlockChunkIndexEntry → IO B) e x :
  stored (content d) h e x → (disk_gets (λ s, HasChunkIndexEntry s h) ≫= f) d = f (Some x) d.
Proof. intros Hx. unfold disk_gets. erewrite run_bind by done. cbv beta. by rewrite (stored_entry _ _ _ _ Hx). Qed.

Lemma loadBlockElement_stored :
  ∃ e, bs !! Z.to_nat (h - start - 1) = Some e ∧ loadBlockElement h d = (d, Ok (reloaded e)).
Proof.
  destruct stored_at as (e & x & He & Hx & Hw). exists e. split; [done|]. pose proof Hx as [_ (R1 & R2 & R3 & R4) Hb Hst].
  destruct (writable_block e Hw) as (_ & _ & _ & Hread & _). destruct Hw as [_ Hw].
  unfold loadBlockElement. rewrite (run_bind _ _ _ _ _ height_ok), (entry_run _ _ _ Hx).
  rewrite (run_bind _ _ _ _ _ (read_part_run _ _ _ _ _ Hb)), (run_bind _ _ _ _ _ (read_all_run _ _ _ _ Hread)).
  unfold reloaded. destruct (be_OptionalStatement e) as [stm|] eqn:Hopt.
  - destruct Hst as [Hpos Hst]. destruct (writable_statement stm Hw) as (_ & _ & _ & Hread' & _).
    rewrite (proj2 (Z.ltb_lt _ _)) by done.
    by rewrite (run_bind _ _ _ _ _ (read_part_run _ _ _ _ _ Hst)), (run_bind _ _ _ _ _ (read_all_run _ _ _ _ Hread')).
  - by rewrite Hst.
Qed.

Lemma loadBlockStatementData_stored :
  ∃ e, bs !! Z.to_nat (h - start - 1) = Some e
    ∧ loadBlockStatementData h d = (d, Ok (statement_bytes <$> be_OptionalStatement e)).
Proof.
  destruct stored_at as (e & x & He & Hx & Hw). exists e. split; [done|]. pose proof Hx as [_ (R1 & R2 & R3 & R4) Hb Hst].
  unfold loadBlockStatementData. rewrite (run_bind _ _ _ _ _ height_ok), (entry_run _ _ _ Hx).
  destruct (be_OptionalStatement e) as [stm|]; [|by rewrite Hst].
  destruct Hst as [Hpos Hst]. destruct (Z.eqb_spec (stmtSize x) 0); [lia|].
  by rewrite (run_bind _ _ _ _ _ (read_part_run _ _ _ _ _ Hst)).
Qed.

Lemma block_bytes_block e : wf_BlockElement e → ∃ rest, block_bytes e = be_Block e ++ rest.
Proof.
  intros He. destruct (WriteBlockElement_parts e He) as (b4 & b5 & Hw & _). unfold block_bytes. rewrite (Hw []). eauto.
Qed.

(** A block is the first part of its element, and starts with its size. *)
Lemma read_block_run p offset size e f :
  writable e → holds (content d) p offset size (block_bytes e) → m_pathname f = p →
  (∀ c, get_file (content d) p = Some c → m_fileSize f = length c) →
  read_block_at (Z.to_nat offset) f d = (d, Ok (be_Block e)).
Proof.
  intros [He _] (c & Hc & Hs) <- Hsize. specialize (Hsize c Hc). pose proof (slice_length _ _ _ _ Hs) as [Hlen Hl].
  destruct (block_bytes_block e He) as [rest Hrest]. pose proof (wf_block_size _ He) as Hmin.
  destruct (wf_block_sized _ He) as [_ Hsz]. change sizeof_Block with 302 in Hmin.
  assert (∀ n, (n ≤ length (be_Block e))%nat → slice (Z.to_nat offset) n c = Some (take n (be_Block e))) as Hpre.
  { intros n Hn. unfold slice in *. case_decide; [|done]. injection Hs as Hs.
    assert (length (block_bytes e) = Z.to_nat size) as Hbl by done. rewrite Hrest, length_app in Hbl.
    rewrite decide_True by lia. f_equal. rewrite <-(take_app_le (be_Block e) rest) by done. rewrite <-Hrest, <-Hs, take_take. f_equal. lia. }
  unfold read_block_at. erewrite run_bind by (apply seek_run; lia).
  erewrite run_bind by (eapply read_run; [exact Hc|apply Hpre; lia]). cbn [fst snd].
  erewrite run_bind by (apply seek_run; simpl; lia).
  assert (le_value (take 4 (be_Block e)) = Size (be_Block e)) as -> by (unfold Size, field; by rewrite drop_0).
  destruct (Z.ltb_spec (Size (be_Block e)) sizeof_Block) as [Hlt|_]; [change sizeof_Block with 302 in Hlt; lia|].
  erewrite run_bind by (eapply read_run; [exact Hc|apply Hpre; lia]). cbn [fst]. by rewrite take_ge by lia.
Qed.

Lemma loadBlock_stored : ∃ e, bs !! Z.to_nat (h - start - 1) = Some e ∧ loadBlock h d = (d, Ok (be_Block e)).
Proof.
  destruct stored_at as (e & x & He & Hx & Hw). exists e. split; [done|]. pose proof (stored_block _ _ _ _ Hx) as Hb.
  pose proof Hb as (c & Hc & _). unfold loadBlock. rewrite (run_bind _ _ _ _ _ height_ok), (entry_run _ _ _ Hx).
  rewrite (run_bind _ _ _ _ _ (open_run _ _ _ Hc)). eapply read_block_run; [done|exact Hb|done|].
  intros c' Hc'. simplify_eq. done.
Qed.

End loads.

(** Heights above the chain are refused. *)
Lemma load_above_height d h :
  chain_height (content d) < h →
  loadBlock h d = (d, Throw invalid_argument) ∧ loadBlockElement h d = (d, Throw invalid_argument)
  ∧ loadBlockStatementData h d = (d, Throw invalid_argument).
Proof.
  intros Hh. assert (requireHeight h d = (d, Throw invalid_argument)) as Hr.
  { rewrite requireHeight_run. by rewrite (proj2 (Z.leb_gt _ _)). }
  split_and!; by apply run_throw.
Qed.

(** ** Hashes *)

Lemma slice_join o n m c a b : slice o n c = Some a → slice (o + n) m c = Some b → slice o (n + m) c = Some (a ++ b).
Proof.
  unfold slice. case_decide; [|done]. case_decide; [|done]. intros [= <-] [= <-]. rewrite decide_True by lia. f_equal.
  rewrite <-drop_drop. by rewrite take_take_drop.
Qed.

Lemma slice_concat k a c hs :
  (∀ i x, hs !! i = Some x → slice ((a + i) * k) k c = Some x) → (a * k ≤ length c)%nat →
  slice (a * k) (length hs * k) c = Some (concat hs).
Proof.
  revert a. induction hs as [|x hs IH]; intros a Hhs Ha.
  - unfold slice. simpl. by rewrite decide_True by lia.
  - pose proof (Hhs 0%nat x eq_refl) as H0. rewrite Nat.add_0_r in H0. pose proof (slice_length _ _ _ _ H0) as [_ Hl].
    simpl. apply slice_join; [done|]. replace (a * k + k)%nat with (S a * k)%nat by lia. apply IH; [|lia].
    intros i y Hy. rewrite <-(Hhs (S i) y Hy). f_equal. lia.
Qed.

Lemma chunk_index_add h i :
  0 ≤ h → (Z.of_nat (chunk_index h + i) < Files_Per_Directory) →
  chunk (h + Z.of_nat i) = chunk h ∧ chunk_index (h + Z.of_nat i) = (chunk_index h + i)%nat.
Proof.
  unfold chunk, chunk_index, Files_Per_Directory. intros H0 Hlt.
  pose proof (Z.div_mod h 65536 ltac:(lia)). pose proof (Z.mod_pos_bound h 65536 eq_refl).
  assert ((h + Z.of_nat i) mod 65536 = h mod 65536 + Z.of_nat i) by (symmetry; apply (Z.mod_unique _ _ (h / 65536)); lia).
  pose proof (Z.div_mod (h + Z.of_nat i) 65536 ltac:(lia)). lia.
Qed.

Lemma loadHashes_step fuel h n :
  (0 < n)%nat →
  HashFile_loadHashesFrom (S fuel) h n
  = (f ← OpenHashFile h Read_Only;
     f ← SeekHashFile f h;
     let count := Nat.min n (Z.to_nat Files_Per_Directory - chunk_index h) in
     r ← rf_read (count * Hash256_Size) f;
     rest ← HashFile_loadHashesFrom fuel (add64 h (Z.of_nat count)) (n - count);
     mret (split_hashes count (fst r) ++ rest)).
Proof. destruct n; [lia|done]. Qed.

Lemma OpenHashFile_run d h c :
  0 < h → get_file (content d) (GetHashFilePath h) = Some c → (S (chunk_index h) * Hash256_Size ≤ length c)%nat →
  OpenHashFile h Read_Only d = (d, Ok {| m_pathname := GetHashFilePath h; m_fileSize := length c; m_position := 0 |}).
Proof.
  intros H0 Hc Hl. unfold OpenHashFile. erewrite run_bind by done. rewrite (run_bind _ _ _ _ _ (open_run _ _ _ Hc)). cbn [m_fileSize].
  replace ((h <? Files_Per_Directory) && _) with false; [done|]. symmetry. apply andb_false_iff.
  destruct (Z.ltb_spec h Files_Per_Directory) as [Hlt|]; [right|by left]. apply bool_decide_eq_false.
  assert (0 < chunk_index h)%nat by (unfold chunk_index; rewrite Z.mod_small by lia; lia). unfold Hash256_Size in *. lia.
Qed.

(** The hashes of the heights of one chunk are next to each other. *)
Lemma hashes_slice s h c (hs : list BlockElement) :
  0 ≤ h → get_file s (GetHashFilePath h) = Some c → (chunk_index h * Hash256_Size ≤ length c)%nat →
  Z.of_nat (chunk_index h + length hs) ≤ Files_Per_Directory →
  (∀ i e, hs !! i = Some e → hashed s (h + Z.of_nat i) e) →
  slice (chunk_index h * Hash256_Size) (length hs * Hash256_Size) c = Some (concat (be_EntityHash <$> hs)).
Proof.
  intros H0 Hc Hl Hlen Hall. rewrite <-(length_fmap be_EntityHash). apply slice_concat; [|done]. intros i x Hx.
  apply list_lookup_fmap_Some in Hx as (e & -> & Hi). destruct (Hall i e Hi) as (c' & Hc' & Hsl). apply lookup_lt_Some in Hi.
  destruct (chunk_index_add h i) as [Hck Hci]; [done|lia|]. rewrite Hci in Hsl.
  rewrite (GetHashFilePath_chunk _ _ Hck), Hc in Hc'. by injection Hc' as <-.
Qed.

(** The hashes of consecutive heights that are in the hash files. *)
Lemma HashFile_loadHashesFrom_run fuel d h (hs : list BlockElement) :
  0 < h → h + Z.of_nat (length hs) ≤ 2 ^ 64 → (length hs ≤ fuel)%nat → Forall (λ e, is_hash (be_EntityHash e)) hs →
  (∀ i e, hs !! i = Some e → hashed (content d) (h + Z.of_nat i) e) →
  HashFile_loadHashesFrom fuel h (length hs) d = (d, Ok (be_EntityHash <$> hs)).
Proof.
  revert h hs. induction fuel as [|fuel IH]; intros h hs H0 Hmax Hfuel Hwf Hall.
  { destruct hs; [done|simpl in Hfuel; lia]. }
  destruct (decide (hs = [])) as [->|Hne]; [done|].
  assert (0 < length hs)%nat as Hpos by (destruct hs; [done|simpl; lia]).
  destruct (lookup_lt_is_Some_2 hs 0) as [e0 He0]; [done|]. destruct (Hall 0%nat e0 He0) as (c & Hc & Hs0).
  rewrite Z.add_0_r in Hc, Hs0. apply slice_length in Hs0 as [_ Hl0]. pose proof (chunk_index_bound h) as Hb.
  rewrite loadHashes_step by done. set (count := Nat.min (length hs) (Z.to_nat Files_Per_Directory - chunk_index h)).
  assert (0 < count ≤ length hs)%nat as Hcount by (unfold count; lia).
  assert (length (take count hs) = count) as Htl by (rewrite length_take; lia).
  assert (slice (chunk_index h * Hash256_Size) (count * Hash256_Size) c = Some (concat (be_EntityHash <$> take count hs))) as Hslice.
  { rewrite <-Htl at 1. apply (hashes_slice (content d)); [lia|done|lia|rewrite Htl; unfold count; lia|].
    intros i e [Hi _]%lookup_take_Some. by apply Hall. }
  rewrite (run_bind _ _ _ _ _ (OpenHashFile_run d h c H0 Hc ltac:(lia))).
  erewrite run_bind by (apply seek_run; simpl; lia).
  erewrite run_bind by (eapply read_run; [exact Hc|exact Hslice]). cbn [fst].
  rewrite (run_bind _ _ _ d (be_EntityHash <$> drop count hs)).
  - rewrite <-(take_drop count hs) at 3. rewrite fmap_app. do 3 f_equal. rewrite <-Htl at 1. rewrite <-(length_fmap be_EntityHash).
    rewrite split_hashes_concat; [done|]. apply Forall_fmap. by apply Forall_take.
  - destruct (decide (count = length hs)) as [Heq|Hneq].
    + rewrite Heq, Nat.sub_diag, drop_ge by lia. by destruct fuel.
    + rewrite add64_small by (unfold in_range; lia). rewrite <-length_drop. apply IH; rewrite ?length_drop; try lia.
      * by apply Forall_drop.
      * intros i e Hi. rewrite lookup_drop in Hi. specialize (Hall _ _ Hi). by rewrite Nat2Z.inj_add, Z.add_assoc in Hall.
Qed.

Lemma loadHashesFrom_stored st start bs h maxHashes :
  mode = Hash_Index → ready st start bs → Forall writable bs → start < h ≤ top start bs →
  loadHashesFrom h maxHashes st = (st, Ok (be_EntityHash <$> take maxHashes (drop (Z.to_nat (h - start - 1)) bs))).
Proof.
  intros Hm Hst Hwf Hh. pose proof (ready_repr _ _ _ Hst) as Hr. destruct (repr_range _ _ _ _ Hr) as [H0 Hmax].
  unfold top in *. set (i := Z.to_nat (h - start - 1)). set (hs := take maxHashes (drop i bs)).
  assert (length hs = Nat.min maxHashes (length bs - i)) as Hlen by (unfold hs; by rewrite length_take, length_drop).
  unfold loadHashesFrom. erewrite run_bind by done. rewrite (ready_mode _ _ _ Hst), decide_False by (rewrite Hm; by intros []).
  assert (chainHeight st = (st, Ok (start + Z.of_nat (length bs)))) as Hch.
  { unfold chainHeight, on_disk. rewrite index_height_run, <-(repr_height _ _ _ _ Hr). by destruct st. }
  rewrite (run_bind _ _ _ _ _ Hch). rewrite (proj2 (Z.eqb_neq _ _)), (proj2 (Z.ltb_ge _ _)) by lia. cbn [orb].
  assert (sub64 (start + Z.of_nat (length bs)) h = start + Z.of_nat (length bs) - h) as -> by (apply wrap_small; unfold in_range; lia).
  rewrite add64_small by (unfold in_range; lia).
  replace (Nat.min maxHashes _) with (length hs) by (unfold i in *; lia).
  unfold on_disk. rewrite (HashFile_loadHashesFrom_run (length hs) (disk st) h hs); [by destruct st|lia|unfold i in *; lia|done|..].
  - apply Forall_take, Forall_drop. eapply Forall_impl; [exact Hwf|]. apply writable_hash.
  - intros j e [Hj Hlt]%lookup_take_Some. rewrite lookup_drop in Hj.
    pose proof (repr_hashes _ _ _ _ Hr Hm _ _ Hj) as Hhash. by replace (start + 1 + Z.of_nat (i + j)) with (h + Z.of_nat j) in Hhash by (unfold i; lia).
Qed.

(** * Dropping *)

Lemma no_handles_ok st : no_handles st → chunk_handles st ∧ hash_handle st.
Proof.
  intros [Hh Hc]. assert (∀ h, in_range 64 h → Unset_Directory_Id ≠ chunk h) as Hne.
  { intros h Hh'. unfold Unset_Directory_Id, chunk, Files_Per_Directory, in_range in *.
    assert (h / 65536 < 2 ^ 48) by (apply Z.div_lt_upper_bound; lia). lia. }
  split; intros h Hr Hid; exfalso.
  - rewrite Hc in Hid. by apply (Hne h).
  - rewrite Hh in Hid. by apply (Hne h).
Qed.

Lemma hash_ready_store_eq s s' h : store_eq s s' → hash_ready s h → hash_ready s' h.
Proof. intros [Hc _ _]. unfold hash_ready, hash_file, GetHashFilePath. by rewrite Hc. Qed.

(** A storage without open handles. *)
Lemma closed_ready st start bs :
  repr (stored_in st) start bs → no_handles st → m_mode st = mode →
  (mode = Hash_Index → hash_ready (stored_in st) (top start bs + 1)) → ready st start bs.
Proof. intros Hr Hn Hm Hh. destruct (no_handles_ok _ Hn). by constructor. Qed.

Section drop.
Context (env : Environment) (Hlock : lock_held env = false).

(** Nothing to drop. *)
Lemma wp_drop_nothing start bs h st :
  ready st start bs → top start bs ≠ 0 → top start bs ≤ h →
  wp (dropBlocksAfter env h) (λ r st', r = Ok tt ∧ ready st' start bs) (λ s, repr s start bs) st.
Proof.
  intros [Hr Hc Hh Hm Hhr] Hnz Hle. destruct (repr_range _ _ _ _ Hr) as [H0 _]. unfold dropBlocksAfter.
  eapply wp_drop_prologue; [done|done|done|]. intros st1 Heq Hn Hm1.
  assert (repr (stored_in st1) start bs) as Hr1 by (by eapply repr_store_eq).
  rewrite (proj2 (Z.eqb_neq 0 (top start bs))), (proj2 (Z.leb_le _ _)), (proj2 (Z.eqb_neq 0 h)) by (unfold top in *; lia). cbn [andb negb].
  apply wp_ret; [done|]. split; [done|]. apply closed_ready; [done|done|congruence|].
  intros Hmode. eapply hash_ready_store_eq; [done|by apply Hhr].
Qed.

(** An empty storage is told where it starts. *)
Lemma wp_drop_empty h st :
  ready st 0 [] → 0 < h < 2 ^ 64 → (∀ h', 0 < h' ≤ h → entry_size (stored_in st) h' ≤ 0) →
  (mode = Hash_Index → hash_ready (stored_in st) (h + 1)) →
  wp (dropBlocksAfter env h) (λ r st', r = Ok tt ∧ ready st' h []) (λ s, repr s 0 [] ∨ repr s h []) st.
Proof.
  intros [Hr Hc Hh Hm Hhr] Hrange Hno Hhash. unfold dropBlocksAfter.
  eapply wp_drop_prologue; [done|done|by left|]. intros st1 Heq Hn Hm1.
  assert (repr (stored_in st1) 0 []) as Hr1 by (by eapply repr_store_eq).
  change (top 0 []) with 0. rewrite (proj2 (Z.eqb_neq 0 h)) by lia. cbn [andb negb Z.eqb].
  assert (∀ s, changes_only index_dat (stored_in st1) s → index_ok s → chain_height s = h → repr s h []) as Hnew.
  { intros s Hs Hok Hht. constructor; try done; simpl.
    - lia.
    - lia.
    - intros h' Hh'. rewrite <-(Hno h' Hh'). unfold entry_size, GetBlocksIdxPath. rewrite Hs, (eq_chunks _ _ Heq) by done. done.
    - intros. lia.
    - rewrite Hs by done. apply (repr_no_journal _ _ _ _ Hr1). }
  apply wp_on_disk, wp_index_set; [unfold in_range; lia|apply (repr_index _ _ _ _ Hr1)|by left| |].
  - intros s Hs Hok [Hht|Hht]; [left|right; by apply Hnew]. by eapply repr_ext; [intros; by apply Hs|by apply Hs|..].
  - intros s l Hs Hok Hht. split; [done|]. apply closed_ready; [by apply Hnew|done|simpl; congruence|].
    intros Hmode. specialize (Hhash Hmode). unfold top. simpl length. rewrite Z.add_0_r.
    unfold hash_ready, hash_file, GetHashFilePath in *. unfold stored_in at 1 2. simpl. rewrite Hs, <-(eq_chunks _ _ Heq) by done. done.
Qed.

(** A rollback to a stored height or to nothing. *)
Lemma wp_drop_rollback start bs h st :
  ready st start bs → h = 0 ∧ mode = Mode_None ∨ start < h < top start bs →
  wp (dropBlocksAfter env h)
    (λ r st', r = Ok tt ∧ ready st' (target_start start h) (target_blocks start h bs))
    (old_or_new mode start bs h) st.
Proof.
  intros [Hr Hc Hh Hm Hhr] Hcase. eapply wp_mono; [apply (wp_dropBlocksAfter mode env start bs h); [done|done|tauto]| |done].
  intros r st' (-> & Hr' & Hn & Hm') _. split; [done|]. apply closed_ready; [done|done|congruence|]. intros Hmode.
  destruct Hcase as [[_ Hnone]|Hlt]; [congruence|]. destruct (repr_range _ _ _ _ Hr) as [H0 _].
  unfold rolled_back, target_start, target_blocks in *. rewrite (proj2 (Z.eqb_neq 0 h)) in * by lia.
  unfold top in *. set (n := Z.to_nat (h - start)) in *. assert (length (take n bs) = n) as Hn' by (rewrite length_take; lia).
  destruct (lookup_lt_is_Some_2 (take n bs) (n - 1)) as [e He]; [lia|].
  pose proof (repr_hashes _ _ _ _ Hr' Hmode _ _ He) as Hhash. rewrite Hn'.
  replace (start + Z.of_nat n) with (start + 1 + Z.of_nat (n - 1)) by lia. apply (hashed_ready _ _ e); [lia|done].
Qed.

Lemma no_entry_below s start bs h : repr s start bs → 0 < h ≤ start → HasChunkIndexEntry s h = None.
Proof. intros Hr Hh. apply entry_size_None. by apply (repr_below _ _ _ _ Hr). Qed.

(** A height at which nothing is stored is refused. *)
Lemma wp_drop_missing start bs h st :
  ready st start bs → 0 < h ≤ start → h < top start bs → at_boundary h = false →
  wp (dropBlocksAfter env h) (λ r st', r = Throw invalid_argument ∧ ready st' start bs) (λ s, repr s start bs) st.
Proof.
  intros [Hr Hc Hh Hm Hhr] Hlow Hlt Hb%not_boundary. unfold dropBlocksAfter.
  eapply wp_drop_prologue; [done|done|done|]. intros st1 Heq Hn Hm1.
  assert (repr (stored_in st1) start bs) as Hr1 by (by eapply repr_store_eq).
  rewrite (proj2 (Z.eqb_neq 0 (top start bs))), (proj2 (Z.leb_gt _ _)) by lia. cbn [andb negb].
  apply wp_bind, wp_on_disk, wp_disk_gets; [done|]. cbn [id].
  change (content (disk st1)) with (stored_in st1). apply wp_bind, wp_pure; [done|done|]. cbn [lift_result snd fst].
  unfold make_journal. rewrite (proj2 (Z.eqb_neq 0 h)), (proj2 (Z.ltb_lt _ _)) by lia. cbn [andb negb].
  rewrite (no_entry_below _ _ _ _ Hr1 Hlow). split; [done|]. apply closed_ready; [done|done|simpl; congruence|].
  intros Hmode. eapply hash_ready_store_eq; [done|by apply Hhr].
Qed.

(** ** A journal that cannot be applied *)

(** A journal for a height at which nothing is stored. *)
Definition stuck (s : Directory) : Prop :=
  ∃ hdr, wf_header hdr ∧ get_file s rollback_journal = Some (journal_bytes hdr)
         ∧ targetHeight hdr ≠ 0 ∧ HasChunkIndexEntry s (targetHeight hdr) = None.

Lemma stuck_store_eq s s' : store_eq s s' → stuck s → stuck s'.
Proof.
  intros Heq (hdr & Hwf & Hj & Hn & He). exists hdr. rewrite <-(eq_journal _ _ Heq), <-(HasChunkIndexEntry_store_eq _ _ _ Heq). done.
Qed.

Lemma validate_missing hdr d :
  targetHeight hdr ≠ 0 → HasChunkIndexEntry (content d) (targetHeight hdr) = None →
  ValidateRollbackJournal hdr d = (d, Throw file_io_error).
Proof.
  intros Hn He. unfold ValidateRollbackJournal.
  assert (∀ {B} b (m : IO B), m d = (d, Throw file_io_error) → (throw_if b file_io_error ≫= λ _, m) d = (d, Throw file_io_error)) as Hif.
  { intros B b m Hm. unfold throw_if, mbind, exec_bind. by destruct b. }
  do 3 apply Hif. rewrite (run_bind _ _ _ _ _ (index_height_run d)). apply Hif.
  rewrite (proj2 (Z.eqb_neq _ _)) by done. unfold disk_gets. erewrite run_bind by done. cbv beta. do 2 apply Hif.
  cbn [id]. by rewrite He.
Qed.

(** Opening the storage fails, and leaves the journal. *)
Lemma wp_open_stuck d :
  stuck (content d) →
  wp (recoverUnfinishedRollback env) (λ r d', r = Throw file_io_error ∧ stuck (content d')) stuck d.
Proof.
  intros Hs. unfold recoverUnfinishedRollback.
  assert (∀ s, stuck s → is_regular_file s rollback_journal = true) as Hj.
  { intros s (hdr & _ & Hj & _). by eapply is_regular_file_true. }
  apply wp_bind, wp_disk_gets; [done|]. apply wp_bind, wp_disk_gets; [done|]. rewrite (Hj _ Hs). cbn [negb andb].
  apply wp_bind. eapply wp_mono; [by apply (wp_acquire_lock env stuck); [apply stuck_store_eq|..]| |done].
  intros r d1 [-> Hs1] _. apply wp_bind, wp_disk_gets; [done|]. apply wp_bind.
  eapply wp_mono; [apply (wp_remove_tmps stuck); [apply stuck_store_eq| |done]| |done].
  { apply Forall_forall. intros name Hn. unfold journal_tmps in Hn. by apply list_elem_of_filter in Hn as [? _]. }
  intros r d2 [-> Hs2] _. apply wp_bind, wp_disk_gets; [done|]. rewrite (Hj _ Hs2). cbn [negb].
  pose proof Hs2 as (hdr & Hwf & Hg & Hn & He).
  apply wp_bind, wp_pure; rewrite ?(read_journal_run hdr) by done; [done|done|]. cbn [fst snd].
  apply wp_bind. unfold ApplyRollbackOperations. apply wp_bind, wp_pure; rewrite ?(validate_missing hdr) by done; done.
Qed.

(** At the end of a chunk a height at which nothing is stored is only found
    missing when its journal is there. *)
Lemma wp_drop_stuck start bs h st :
  ready st start bs → 0 < h ≤ start → h < top start bs → at_boundary h = true →
  wp (dropBlocksAfter env h) (λ r st', r = Throw file_io_error ∧ stuck (stored_in st')) (λ s, repr s start bs ∨ stuck s) st.
Proof.
  intros [Hr Hc Hh Hm Hhr] Hlow Hlt Hb. unfold dropBlocksAfter.
  eapply wp_drop_prologue; [done|done|by left|]. intros st1 Heq Hn Hm1.
  assert (repr (stored_in st1) start bs) as Hr1 by (by eapply repr_store_eq).
  rewrite (proj2 (Z.eqb_neq 0 (top start bs))), (proj2 (Z.leb_gt _ _)) by lia. cbn [andb negb].
  apply wp_bind, wp_on_disk, wp_disk_gets; [by left|]. cbn [id].
  change (content (disk st1)) with (stored_in st1). apply wp_bind, wp_pure; [done|by left|]. cbn [lift_result snd fst].
  destruct (repr_range _ _ _ _ Hr) as [H0 Hmax].
  assert ((h mod Files_Per_Directory <? Files_Per_Directory - 1) = false) as Hmod.
  { unfold at_boundary in Hb. apply Z.eqb_eq in Hb. apply Z.ltb_ge. lia. }
  unfold make_journal. rewrite Hmod, andb_false_r. set (hdr := {| magic := _ |}).
  apply wp_bind, wp_modify; [done|by left|]. apply wp_bind, wp_gets; [by left|].
  assert (∀ s, published (stored_in st1) hdr s → stuck s) as Hstuck.
  { intros s [P1 P2 P3]. exists hdr. split_and!; [|done|simpl; lia|].
    - constructor; simpl; unfold in_range, top in *; try done; try lia. rewrite (proj2 (Z.eqb_neq 0 h)) by lia. apply wrap_range. lia.
    - simpl. unfold HasChunkIndexEntry, GetBlocksIdxPath. rewrite P1. apply (no_entry_below _ _ _ _ Hr1 Hlow). }
  apply wp_bind, wp_on_disk. eapply wp_mono; [apply wp_publish_journal, (repr_no_journal _ _ _ _ Hr1)| |].
  - intros r d [-> Hd] _. apply wp_bind, wp_on_disk. unfold ApplyRollbackOperations.
    pose proof (Hstuck _ Hd) as Hst. apply wp_bind, wp_pure; rewrite ?(validate_missing hdr); try done; try (simpl; lia); try (by right).
    all: simpl; unfold HasChunkIndexEntry, GetBlocksIdxPath; rewrite (pub_chunks _ _ _ Hd); apply (no_entry_below _ _ _ _ Hr1 Hlow).
  - intros s [Hs|Hs]; [left; by rewrite Hs|right; by apply Hstuck].
Qed.

End drop.

End storage_mode.

End BlockStorageSpec.
