(* ===== verification/ChainStorage.v ===== *)
(** The contract of the file based block storage (FileBlockStorage): an
    abstract chain of blocks, the refinement of it by the operations of the
    storage, and what is found when the storage is opened after an
    interruption.  The lemmas are those of BlockStorageSpec. *)
From stdpp Require Import base tactics numbers option list gmap strings sets.
From S2P Require Import Prelude Streams BlockElements FileSystem FileBlockStorage BlockStorageCrash.
From S2P Require Import BlockStorageRefinement BlockStorageSpec.

Local Open Scope Z_scope.

Module ChainStorage.
Import Stream Elements FileSystem FileBlockStorage BlockStorageCrash BlockStorageRefinement BlockStorageSpec.

(** * The abstract storage *)

(** The blocks at the heights behind [chain_start]. *)
Record Chain := { chain_start : Z; chain_blocks : list BlockElement }.

Definition chain_top (c : Chain) : Z := top (chain_start c) (chain_blocks c).

Inductive StorageOp :=
| SaveBlock (blockElement : BlockElement)
| DropBlocksAfter (height : Z).

Definition chain_step (op : StorageOp) (c : Chain) : result Chain :=
  match op with
  | SaveBlock e =>
      if be_Height e =? chain_top c + 1
      then Ok {| chain_start := chain_start c; chain_blocks := chain_blocks c ++ [e] |}
      else Throw invalid_argument
  | DropBlocksAfter h =>
      if h =? 0 then Ok {| chain_start := 0; chain_blocks := [] |}
      else if chain_top c =? 0 then Ok {| chain_start := h; chain_blocks := [] |}
      else if chain_top c <=? h then Ok c
      else if chain_start c <? h
      then Ok {| chain_start := chain_start c; chain_blocks := take (Z.to_nat (h - chain_start c)) (chain_blocks c) |}
      else Throw (if at_boundary h then file_io_error else invalid_argument)
  end.

(** A drop to a height that ends a chunk and has no block: its journal is written
    before this is noticed. *)
Definition blocked (c : Chain) (op : StorageOp) : bool :=
  match op with
  | SaveBlock _ => false
  | DropBlocksAfter h => (0 <? h) && (h <=? chain_start c) && (h <? chain_top c) && at_boundary h
  end.

(** An operation that fails changes nothing. *)
Definition chain_next (op : StorageOp) (c : Chain) : Chain :=
  match chain_step op c with Ok c' => c' | Throw _ => c end.

Definition forget {A} (r : result A) : result unit := match r with Ok _ => Ok tt | Throw e => Throw e end.

Fixpoint run_chain (ops : list StorageOp) (c : Chain) : Chain * list (result unit) :=
  match ops with
  | [] => (c, [])
  | op :: ops => let '(c', rs) := run_chain ops (chain_next op c) in (c', forget (chain_step op c) :: rs)
  end.

(** The number of operations before the first that is blocked. *)
Fixpoint unblocked (ops : list StorageOp) (c : Chain) : nat :=
  match ops with
  | [] => 0
  | op :: ops => if blocked c op then 0 else S (unblocked ops (chain_next op c))
  end.

Section storage.
Context (env : Environment) (mode : FileBlockStorageMode).

Definition storage_step (op : StorageOp) : Exec Storage unit :=
  match op with
  | SaveBlock e => saveBlock e
  | DropBlocksAfter h => dropBlocksAfter env h
  end.

Fixpoint run_storage (ops : list StorageOp) (st : Storage) : Storage * list (result unit) :=
  match ops with
  | [] => (st, [])
  | op :: ops =>
      let '(st1, r) := storage_step op st in
      let '(st2, rs) := run_storage ops st1 in (st2, r :: rs)
  end.

(** What an operation needs: the block is well formed and its files have room for
    it, offsets being of 32 bits; all blocks are dropped only in a storage without
    the hash index; a storage without blocks has no index entries up to the height
    it is set to, and with the hash index has the hashes before the next block. *)
Definition permitted (st : Storage) (c : Chain) (op : StorageOp) : Prop :=
  match op with
  | SaveBlock e =>
      in_range 64 (be_Height e) ∧ chain_top c + 1 < 2 ^ 64
      ∧ (be_Height e = chain_top c + 1 → writable e ∧ has_space (stored_in st) (be_Height e) e)
  | DropBlocksAfter h =>
      in_range 64 h
      ∧ (h = 0 → mode = Mode_None)
      ∧ (0 < h → chain_top c = 0 → (∀ h', 0 < h' ≤ h → entry_size (stored_in st) h' ≤ 0)
           ∧ (mode = Hash_Index → hash_ready (stored_in st) (h + 1)))
  end.

Fixpoint permitted_all (ops : list StorageOp) (st : Storage) (c : Chain) : Prop :=
  match ops with
  | [] => True
  | op :: ops => permitted st c op ∧ permitted_all ops (fst (storage_step op st)) (chain_next op c)
  end.

(** The storage holds the chain. *)
Definition holds_chain (st : Storage) (c : Chain) : Prop :=
  ready mode st (chain_start c) (chain_blocks c) ∧ Forall writable (chain_blocks c).

(** What a client of the storage sees of the chain. *)
Definition serves (st : Storage) (c : Chain) : Prop :=
  chainHeight st = (st, Ok (chain_top c))
  ∧ (∀ h, chain_start c < h ≤ chain_top c →
       ∃ e, chain_blocks c !! Z.to_nat (h - chain_start c - 1) = Some e
         ∧ loadBlock h (disk st) = (disk st, Ok (be_Block e))
         ∧ loadBlockElement h (disk st) = (disk st, Ok (reloaded e))
         ∧ loadBlockStatementData h (disk st) = (disk st, Ok (statement_bytes <$> be_OptionalStatement e)))
  ∧ (∀ h, chain_top c < h → loadBlock h (disk st) = (disk st, Throw invalid_argument)
       ∧ loadBlockElement h (disk st) = (disk st, Throw invalid_argument)
       ∧ loadBlockStatementData h (disk st) = (disk st, Throw invalid_argument)).

Lemma repr_serves st start bs :
  repr mode (stored_in st) start bs → Forall writable bs → serves st {| chain_start := start; chain_blocks := bs |}.
Proof.
  intros Hr Hw. unfold serves, chain_top. cbn [chain_start chain_blocks]. split_and!.
  - unfold chainHeight, on_disk. rewrite index_height_run. change (content (disk st)) with (stored_in st).
    rewrite (repr_height _ _ _ _ Hr). by destruct st.
  - intros h Hh. destruct (loadBlock_stored _ (disk st) _ _ Hr Hw h Hh) as (e & He & H1).
    destruct (loadBlockElement_stored _ (disk st) _ _ Hr Hw h Hh) as (e2 & He2 & H2).
    destruct (loadBlockStatementData_stored _ (disk st) _ _ Hr Hw h Hh) as (e3 & He3 & H3). simplify_eq. by exists e.
  - intros h Hh. apply load_above_height. change (content (disk st)) with (stored_in st). by rewrite (repr_height _ _ _ _ Hr).
Qed.

Lemma holds_chain_serves st c : holds_chain st c → serves st c.
Proof. intros [Hr Hw]. destruct c. apply repr_serves; [apply Hr|done]. Qed.

Hypothesis Hlock : lock_held env = false.

(** A directory in which the change from [c] to [c'] was interrupted. *)
Definition recoverable (c c' : Chain) (s : Directory) : Prop :=
  repr mode s (chain_start c) (chain_blocks c)
  ∨ repr mode s (chain_start c') (chain_blocks c')
  ∨ ∃ h, chain_start c' = target_start (chain_start c) h ∧ chain_blocks c' = target_blocks (chain_start c) h (chain_blocks c)
         ∧ rolling_back mode (chain_start c) (chain_blocks c) h s.

Lemma wp_save_step e c st :
  holds_chain st c → permitted st c (SaveBlock e) →
  wp (storage_step (SaveBlock e))
    (λ r st', r = forget (chain_step (SaveBlock e) c) ∧ holds_chain st' (chain_next (SaveBlock e) c))
    (recoverable c (chain_next (SaveBlock e) c)) st.
Proof.
  intros [Hr Hw] (Hrange & Hmax & He). unfold chain_next. simpl. pose proof (ready_repr _ _ _ _ Hr) as Hrepr.
  destruct (repr_range _ _ _ _ Hrepr) as [H0 _]. destruct (Z.eqb_spec (be_Height e) (chain_top c + 1)) as [Hh|Hh].
  - destruct (He Hh) as [Hwe Hsp]. rewrite Hh in Hsp.
    eapply wp_mono; [by apply (wp_saveBlock mode (chain_start c) (chain_blocks c))| |unfold recoverable; naive_solver].
    intros r st' [-> Hr'] _. split; [done|]. split; [done|]. apply Forall_app. by split; [|constructor].
  - unfold saveBlock. apply wp_bind. unfold chainHeight. apply wp_on_disk, wp_index_height; [by left|].
    change (content (disk st)) with (stored_in st). rewrite (repr_height _ _ _ _ Hrepr).
    rewrite add64_small by (unfold in_range, chain_top, top in *; lia).
    rewrite (proj2 (Z.eqb_neq _ _)) by done. cbn [negb]. apply wp_throw; [by left|]. split; [done|]. by destruct st.
Qed.

Lemma wp_drop_step h c st :
  holds_chain st c → permitted st c (DropBlocksAfter h) → blocked c (DropBlocksAfter h) = false →
  wp (storage_step (DropBlocksAfter h))
    (λ r st', r = forget (chain_step (DropBlocksAfter h) c) ∧ holds_chain st' (chain_next (DropBlocksAfter h) c))
    (recoverable c (chain_next (DropBlocksAfter h) c)) st.
Proof.
  intros [Hr Hw] (Hrange & Hzero & Hempty) Hb. unfold chain_next. simpl in *. unfold chain_top in *.
  pose proof (ready_repr _ _ _ _ Hr) as Hrepr. destruct (repr_range _ _ _ _ Hrepr) as [H0 _].
  destruct c as [start bs]. cbn [chain_start chain_blocks] in *. unfold recoverable. cbn [chain_start chain_blocks].
  assert (0 ≤ h) as Hh0 by apply Hrange.
  destruct (Z.eqb_spec h 0) as [->|Hnz].
  { eapply wp_mono; [apply (wp_drop_rollback mode env Hlock start bs 0); auto| |].
    - intros r st' [-> Hr'] _. by split_and!.
    - intros s [Hs|[Hs|Hs]]; [by left|right; right; by exists 0|right; by left]. }
  destruct (Z.eqb_spec (top start bs) 0) as [Ht|Ht].
  { assert (start = 0 ∧ bs = []) as [-> ->].
    { unfold top in Ht. destruct bs; [|simpl in Ht; lia]. simpl in Ht. split; [lia|done]. }
    destruct (Hempty ltac:(lia) Ht) as [Hno Hhash].
    eapply wp_mono; [apply (wp_drop_empty mode env Hlock h); auto; unfold in_range in *; lia| |by naive_solver].
    intros r st' [-> Hr'] _. by split_and!. }
  destruct (Z.leb_spec (top start bs) h) as [Hle|Hlt].
  { eapply wp_mono; [by apply (wp_drop_nothing mode env Hlock)| |by left]. intros r st' [-> Hr'] _. by split_and!. }
  destruct (Z.ltb_spec start h) as [Hs|Hs].
  - eapply wp_mono; [apply (wp_drop_rollback mode env Hlock start bs h); auto| |].
    + intros r st' [-> Hr'] _. unfold target_start, target_blocks in Hr'. rewrite (proj2 (Z.eqb_neq 0 h)) in Hr' by lia.
      split; [done|]. split; [done|by apply Forall_take].
    + assert (target_start start h = start ∧ target_blocks start h bs = take (Z.to_nat (h - start)) bs) as [E1 E2].
      { unfold target_start, target_blocks. by rewrite (proj2 (Z.eqb_neq 0 h)) by lia. }
      intros s [Hs'|[Hs'|Hs']]; [by left|right; right; by exists h|right; left]. unfold rolled_back in Hs'. by rewrite E1, E2 in Hs'.
  - rewrite (proj2 (Z.ltb_lt 0 h)), (proj2 (Z.leb_le h start)), (proj2 (Z.ltb_lt h _)) in Hb by lia. cbn [andb] in Hb. rewrite Hb.
    eapply wp_mono; [apply (wp_drop_missing mode env Hlock start bs h); [done|lia|lia|done]| |by left].
    intros r st' [-> Hr'] _. by split_and!.
Qed.

(** One operation, with every state it may be stopped in. *)
Lemma wp_storage_step op c st :
  holds_chain st c → permitted st c op → blocked c op = false →
  wp (storage_step op)
    (λ r st', r = forget (chain_step op c) ∧ holds_chain st' (chain_next op c))
    (recoverable c (chain_next op c)) st.
Proof. intros Hc Hp Hb. destruct op; [by apply wp_save_step|by apply wp_drop_step]. Qed.

(** A blocked drop, whose journal can never be applied. *)
Lemma wp_blocked_step op c st :
  holds_chain st c → blocked c op = true →
  wp (storage_step op)
    (λ r st', r = forget (chain_step op c) ∧ r = Throw file_io_error ∧ stuck (stored_in st'))
    (λ s, repr mode s (chain_start c) (chain_blocks c) ∨ stuck s) st.
Proof.
  intros [Hr _] Hb. destruct op as [e|h]; [done|]. simpl in *. apply andb_true_iff in Hb as [[[H1%Z.ltb_lt H2%Z.leb_le]%andb_true_iff H3%Z.ltb_lt]%andb_true_iff Hb].
  eapply wp_mono; [by apply (wp_drop_stuck mode env Hlock (chain_start c) (chain_blocks c) h)| |done].
  intros r st' [-> Hst] _. rewrite (proj2 (Z.eqb_neq h 0)), (proj2 (Z.eqb_neq (chain_top c) 0)), (proj2 (Z.leb_gt _ _)), (proj2 (Z.ltb_ge _ _)), Hb by lia.
  done.
Qed.

(** Opening the storage ends the change or finds it undone. *)
Lemma wp_open_recoverable c c' s :
  recoverable c c' s →
  wp (on_disk (recoverUnfinishedRollback env))
    (λ r st, r = Ok tt ∧ (repr mode (stored_in st) (chain_start c) (chain_blocks c)
                          ∨ repr mode (stored_in st) (chain_start c') (chain_blocks c')))
    (recoverable c c') (opened mode s).
Proof.
  intros [Hs|[Hs|(h & E1 & E2 & Hs)]]; apply wp_on_disk.
  - eapply wp_mono; [by apply wp_recover_repr| |by left]. intros r d [-> Hd] _. split; [done|by left].
  - eapply wp_mono; [by apply wp_recover_repr| |by right; left]. intros r d [-> Hd] _. split; [done|by right].
  - eapply wp_mono; [by apply wp_recover_rollback| |].
    + intros r d [-> Hd] _. split; [done|right]. unfold stored_in. simpl. by rewrite E1, E2.
    + intros s' [Hs'|Hs']; [right; right; by exists h|right; left]. by rewrite E1, E2.
Qed.

Lemma failed_starts_recoverable c c' s s' : failed_starts mode env s s' → recoverable c c' s → recoverable c c' s'.
Proof.
  intros Hf. induction Hf as [s|s1 s2 s3 Hi Hf IH]; intros Hs; [done|]. apply IH.
  eapply wp_interrupted; [by apply wp_open_recoverable|done].
Qed.

Lemma failed_starts_stuck c s s' :
  failed_starts mode env s s' → repr mode s (chain_start c) (chain_blocks c) ∨ stuck s →
  repr mode s' (chain_start c) (chain_blocks c) ∨ stuck s'.
Proof.
  intros Hf. induction Hf as [s|s1 s2 s3 Hi Hf IH]; intros Hs; [done|]. apply IH.
  apply (wp_interrupted _ (λ _ _, True) (λ s, repr mode s (chain_start c) (chain_blocks c) ∨ stuck s) _ _) with (2 := Hi). destruct Hs as [Hs|Hs]; apply wp_on_disk.
  - eapply wp_mono; [by apply wp_recover_repr|done|by left].
  - eapply wp_mono; [by apply (wp_open_stuck env Hlock)|done|by right].
Qed.

(** C2.  The storage survives a crash.  Let a storage hold a chain, its rollback
    lock be free, and an operation that saves a block or drops blocks be stopped
    at any point (between two calls of the file system or inside a write of more
    than eight bytes), and let any number of attempts to open the storage be
    stopped likewise.  Opening the storage then succeeds, and it serves the chain
    before the operation or the chain after it, with every block, element and
    statement.  The one exception is a drop to a height that ends a chunk and has
    no block (a chain that starts at the first height has none of these): there
    opening succeeds with the old chain, or fails with [file_io_error] when the
    journal was published.  The operation is [permitted]: a saved block is well
    formed and fits in its chunk files, whose offsets have 32 bits; all blocks are
    dropped only without the hash index; an empty storage that is set to a height
    has no index entries up to it. *)
Theorem storage_survives_crash op c st s s' :
  holds_chain st c → permitted st c op →
  interrupted (storage_step op) st s → failed_starts mode env s s' →
  let '(st', r) := new_FileBlockStorage env s' mode in
  if blocked c op then r = Ok tt ∧ serves st' c ∨ r = Throw file_io_error
  else r = Ok tt ∧ (serves st' c ∨ serves st' (chain_next op c)).
Proof.
  intros Hc Hp Hi Hf. pose proof Hc as [_ Hw]. unfold new_FileBlockStorage. fold (opened mode s'). destruct (blocked c op) eqn:Hb.
  - pose proof (wp_interrupted _ _ _ _ _ (wp_blocked_step op c st Hc Hb) Hi) as Hs.
    apply (failed_starts_stuck c _ _ Hf) in Hs as [Hs|Hs].
    + pose proof (wp_open_recoverable c c s' (or_introl Hs)) as Hopen. apply wp_end in Hopen as [Hopen _].
      destruct (on_disk _ _) as [st' r]. destruct Hopen as [Hok Hst']. left. split; [done|]. destruct c. destruct Hst' as [?|?]; by apply repr_serves.
    + pose proof (wp_open_stuck env Hlock {| content := s'; log := [] |} Hs) as Hopen. apply wp_end in Hopen as [[Hr _] _].
      unfold on_disk. simpl. destruct (recoverUnfinishedRollback env _). by right.
  - pose proof (wp_storage_step op c st Hc Hp Hb) as Hstep.
    pose proof (wp_interrupted _ _ _ _ _ Hstep Hi) as Hs. apply wp_end in Hstep as [[_ [_ Hw']] _].
    pose proof (failed_starts_recoverable _ _ _ _ Hf Hs) as Hs'. pose proof (wp_open_recoverable _ _ _ Hs') as Hopen.
    apply wp_end in Hopen as [Hopen _]. destruct (on_disk _ _) as [st' r]. destruct Hopen as [Hok Hst']. split; [done|].
    destruct Hst' as [Hst'|Hst']; [left; destruct c|right; destruct (chain_next op c)]; by apply repr_serves.
Qed.

(** C4.  The storage refines the chain: a sequence of saves and drops, each of
    them [permitted], gives with a free rollback lock the results the abstract
    chain gives (errors included, which change nothing), and at its end every
    height of the abstract chain is read back: the block, the element with its
    statement, and the statement data.  [permitted] asks for well-formed blocks
    that fit in files with 32-bit offsets, for a storage without the hash index
    when all blocks are dropped, and that an empty storage has no index entries
    up to the height it is set to.  The agreement ends where a drop names a height
    that ends a chunk and has no block, which fails with [file_io_error] and
    blocks the storage; a chain that starts at the first height has no such height. *)
Theorem storage_refines_chain ops c st :
  holds_chain st c → permitted_all ops st c →
  take (S (unblocked ops c)) (snd (run_storage ops st)) = take (S (unblocked ops c)) (snd (run_chain ops c))
  ∧ (unblocked ops c = length ops → serves (fst (run_storage ops st)) (fst (run_chain ops c))).
Proof.
  revert c st. induction ops as [|op ops IH]; intros c st Hc Hp; cbn [unblocked run_storage run_chain].
  { split; [done|]. intros _. by apply holds_chain_serves. }
  destruct Hp as [Hp Hps]. destruct (blocked c op) eqn:Hb.
  - destruct (wp_end _ _ _ _ (wp_blocked_step op c st Hc Hb)) as [[Hr _] _]. destruct (storage_step op st) as [st1 r]. cbn [fst snd] in Hr. subst r.
    by destruct (run_storage ops st1), (run_chain ops (chain_next op c)).
  - destruct (wp_end _ _ _ _ (wp_storage_step op c st Hc Hp Hb)) as [[Hr Hc'] _]. specialize (IH _ _ Hc' Hps).
    destruct (storage_step op st) as [st1 r]. cbn [fst snd] in *. subst r.
    destruct (run_storage ops st1) as [st2 rs], (run_chain ops (chain_next op c)) as [c2 rs']. cbn [fst snd length] in *.
    destruct IH as [H1 H2]. split; [rewrite (firstn_cons (S _) _ rs), (firstn_cons (S _) _ rs'); by f_equal|]. intros Hn. apply H2. lia.
Qed.

End storage.

(** Hashes are found across chunks: with the hash index, asking a storage for
    at most [maxHashes] hashes from a height on gives the hashes of the stored
    blocks from that height on, in order; nothing for the height zero and above
    the chain. *)
Theorem loadHashesFrom_correct st c h maxHashes :
  holds_chain Hash_Index st c → (h = 0 ∨ chain_start c < h) →
  loadHashesFrom h maxHashes st
  = (st, Ok (if h =? 0 then [] else be_EntityHash <$> take maxHashes (drop (Z.to_nat (h - chain_start c - 1)) (chain_blocks c)))).
Proof.
  intros Hc Hh. destruct (holds_chain_serves _ _ _ Hc) as (Hht & _). destruct Hc as [Hr Hw].
  pose proof (ready_repr _ _ _ _ Hr) as Hrepr. destruct (repr_range _ _ _ _ Hrepr) as [H0 _]. unfold chain_top in Hht.
  destruct (decide (h ≠ 0 ∧ h ≤ top (chain_start c) (chain_blocks c))) as [[Hnz Hle]|Hout].
  { rewrite (proj2 (Z.eqb_neq _ _)) by done. apply (loadHashesFrom_stored Hash_Index); try done. lia. }
  unfold loadHashesFrom. erewrite run_bind by done. rewrite (ready_mode _ _ _ _ Hr), decide_False by (by intros []).
  rewrite (run_bind _ _ _ _ _ Hht). destruct (Z.eqb_spec h 0) as [->|Hnz]; [done|].
  rewrite (proj2 (Z.eqb_neq 0 h)), (proj2 (Z.ltb_lt _ _)) by (unfold top in *; lia). simpl.
  rewrite drop_ge by (unfold top in *; lia). by rewrite take_nil.
Qed.

(** * An example *)

Definition sample_env : Environment := {|
  directory_order := λ names, names;
  lock_held := false;
  hard_links := true;
  process_id := 7;
|}.

(** A block of version 3 without transactions, and its element with a statement
    that has a receipt of ten bytes. *)
Definition sample_block (height : Z) : list Z :=
  Write32 302 ++ replicate 96 0 ++ Write32 3 ++ replicate 2 0 ++ Write64 height ++ replicate 188 0.

Definition sample_statement : BlockStatement := {|
  TransactionStatements :=
    [({| PrimaryId := 1; SecondaryId := 0 |},
      {| statement_source := {| PrimaryId := 1; SecondaryId := 0 |};
         statement_receipts := [Write32 10 ++ Write32 1 ++ Write16 5] |})];
  AddressResolutionStatements := [];
  MosaicResolutionStatements := [];
  PublicKeyStatements := [];
|}.

Definition sample_element (height : Z) : BlockElement := {|
  be_Block := sample_block height;
  be_EntityHash := replicate 32 height;
  be_GenerationHash := replicate 32 9;
  be_SubCacheMerkleRoots := [];
  be_Transactions := [];
  be_OptionalStatement := Some sample_statement;
|}.

Lemma sample_writable height : in_range 64 height → writable (sample_element height).
Proof.
  intros Hh. split.
  - assert (Size (sample_block height) = 302 ∧ length (sample_block height) = 302%nat) as [Hs Hl].
    { split; [done|]. unfold sample_block, Write32, Write64. rewrite !length_app, !le_bytes_length, !length_replicate. done. }
    constructor; simpl; try done. split; [|by rewrite Hl, Hs]. unfold sample_block. rewrite !Forall_app.
    split_and!; try apply le_bytes_range; apply Forall_replicate; unfold in_range; lia.
  - simpl. constructor; simpl; [|by repeat constructor..].
    constructor; simpl; [by repeat constructor| |done]. constructor; [|done]. split; [done|].
    constructor; simpl; [done| |by repeat constructor|done].
    constructor; [|done]. split; [|done]. split; [|done]. repeat (constructor; [done|]). constructor.
Qed.

Definition sample_start : Storage := fst (new_FileBlockStorage sample_env empty_Directory Mode_None).

Lemma sample_start_chain : holds_chain Mode_None sample_start {| chain_start := 0; chain_blocks := [] |}.
Proof.
  split; [|done]. apply closed_ready; try done. constructor; try done; simpl; try (intros; lia).
  unfold index_ok. vm_compute. lia.
Qed.

Definition sample_chain : Chain := {| chain_start := 0; chain_blocks := [] |}.

(** Three blocks, a block of a wrong height, a rollback that drops two of them,
    and a block in their place. *)
Definition sample_ops : list StorageOp :=
  [SaveBlock (sample_element 1); SaveBlock (sample_element 2); SaveBlock (sample_element 3);
   SaveBlock (sample_element 7); DropBlocksAfter 1; SaveBlock (sample_element 2)].

Ltac permit_sample :=
  repeat match goal with
  | H : chain_top _ = 0 |- _ => exfalso; vm_compute in H; discriminate H
  | |- permitted _ _ _ _ => cbv [permitted]
  | |- permitted_all _ _ (_ :: _) _ _ => split
  | |- permitted_all _ _ [] _ _ => exact I
  | |- _ ∧ _ => split
  | |- _ → _ => intros ?
  | |- writable (sample_element _) => apply sample_writable
  | |- has_space _ _ _ => unfold has_space, fits32
  | |- (_ ≤ _)%Z => apply Z.leb_le; vm_compute; reflexivity
  | |- (_ < _)%Z => apply Z.ltb_lt; vm_compute; reflexivity
  | |- in_range _ _ => unfold in_range
  | |- at_boundary _ = false => vm_compute; reflexivity
  | H : ?x = ?y |- _ => exfalso; vm_compute in H; discriminate H
  end.

Lemma sample_permitted : permitted_all sample_env Mode_None sample_ops sample_start sample_chain.
Proof. unfold sample_ops. permit_sample. Qed.

(** The directory after [k] calls of the file system of an operation. *)
Definition stopped_after {A} (k : nat) (m : Exec Storage A) (st : Storage) : Directory :=
  replay (take k (drop (length (log (disk st))) (log (disk (fst (m st)))))) (stored_in st).

Lemma crashed_take s ops k : crashed s ops (replay (take k ops) s).
Proof.
  revert s k. induction ops as [|op ops IH]; intros s [|k]; simpl; try apply crashed_here. apply crashed_later, IH.
Qed.

Lemma stopped_interrupted {A} k (m : Exec Storage A) Q C st : wp m Q C st → interrupted m st (stopped_after k m st).
Proof.
  intros (ops & Hlog & _). exists ops. split; [done|]. unfold stopped_after.
  unfold the_disk, Storage_HasDisk in Hlog. rewrite Hlog, drop_app_length. apply crashed_take.
Qed.

Lemma holds_run env mode ops st c :
  lock_held env = false → holds_chain mode st c → permitted_all env mode ops st c → unblocked ops c = length ops →
  holds_chain mode (fst (run_storage env ops st)) (fst (run_chain ops c)).
Proof.
  intros Hl. revert c st. induction ops as [|op ops IH]; intros c st Hc Hp Hu; simpl in *; [done|]. destruct Hp as [Hp Hps].
  destruct (blocked c op) eqn:Hb; [done|].
  destruct (wp_end _ _ _ _ (wp_storage_step env mode Hl op c st Hc Hp Hb)) as [[Hr Hc'] _].
  specialize (IH _ _ Hc' Hps ltac:(lia)). destruct (storage_step env op st) as [st1 r]. simpl in *.
  by destruct (run_storage env ops st1), (run_chain ops (chain_next op c)).
Qed.

(** Three blocks are stored, and a rollback to the first of them is stopped after
    eight calls of the file system; so is the first attempt to open the storage. *)
Definition sample_three : Storage := fst (run_storage sample_env (take 3 sample_ops) sample_start).
Definition sample_crash : Directory := stopped_after 8 (dropBlocksAfter sample_env 1) sample_three.
Definition sample_restart : Directory :=
  stopped_after 4 (on_disk (recoverUnfinishedRollback sample_env)) (opened Mode_None sample_crash).

Lemma storage_survives_crash_witness :
  snd (new_FileBlockStorage sample_env sample_restart Mode_None) = Ok tt
  ∧ chain_height sample_crash = 3
  ∧ (serves (fst (new_FileBlockStorage sample_env sample_restart Mode_None))
       {| chain_start := 0; chain_blocks := sample_element <$> [1; 2; 3] |}
     ∨ serves (fst (new_FileBlockStorage sample_env sample_restart Mode_None))
         {| chain_start := 0; chain_blocks := [sample_element 1] |}).
Proof.
  assert (holds_chain Mode_None sample_three {| chain_start := 0; chain_blocks := sample_element <$> [1; 2; 3] |}) as Hc.
  { apply (holds_run sample_env Mode_None (take 3 sample_ops) sample_start sample_chain); [done|apply sample_start_chain| |reflexivity].
    unfold sample_ops. cbn [take]. permit_sample. }
  set (c := {| chain_start := 0; chain_blocks := sample_element <$> [1; 2; 3] |}) in *.
  assert (permitted Mode_None sample_three c (DropBlocksAfter 1)) as Hp by permit_sample.
  pose proof (wp_storage_step sample_env Mode_None eq_refl _ _ _ Hc Hp eq_refl) as Hwp.
  pose proof (stopped_interrupted 8 _ _ _ _ Hwp) as Hi. pose proof (wp_interrupted _ _ _ _ _ Hwp Hi) as Hs.
  pose proof (stopped_interrupted 4 _ _ _ _ (wp_open_recoverable sample_env Mode_None eq_refl _ _ _ Hs)) as Hi'.
  pose proof (storage_survives_crash sample_env Mode_None eq_refl (DropBlocksAfter 1) c sample_three sample_crash sample_restart
    Hc Hp Hi (one_more_start _ _ _ _ _ Hi' (no_start _ _ _))) as Hthm.
  destruct (new_FileBlockStorage sample_env sample_restart Mode_None) as [st' r]. destruct Hthm as [Hr Hserves].
  split; [exact Hr|]. split; [vm_compute; reflexivity|]. exact Hserves.
Defined.

(** The results of the operations, and the chain at their end. *)
Lemma storage_refines_chain_witness :
  snd (run_storage sample_env sample_ops sample_start) = [Ok tt; Ok tt; Ok tt; Throw invalid_argument; Ok tt; Ok tt]
  ∧ serves (fst (run_storage sample_env sample_ops sample_start))
      {| chain_start := 0; chain_blocks := [sample_element 1; sample_element 2] |}.
Proof.
  destruct (storage_refines_chain sample_env Mode_None eq_refl sample_ops sample_chain sample_start sample_start_chain sample_permitted)
    as [Hr Hs]. split; [|exact (Hs eq_refl)]. rewrite !take_ge in Hr; [exact Hr|vm_compute; lia|vm_compute; lia].
Defined.


Lemma serialized_elements_roundtrip_witness :
  ReadBlockElement (concat (fst (WriteBlockElement (sample_element 5) [])) ++ [1; 2]) = ([1; 2], Ok (persisted (sample_element 5)))
  ∧ ReadBlockStatement (concat (fst (WriteBlockStatement sample_statement [])) ++ [1; 2]) = ([1; 2], Ok sample_statement).
Proof.
  assert (in_range 64 5) as Hr by done. destruct (sample_writable 5 Hr) as [He Hs].
  exact (serialized_elements_roundtrip (sample_element 5) sample_statement [1; 2] He Hs).
Defined.

(** A storage with the hash index, whose first hash file is there. *)
Definition sample_seed : Directory :=
  {| root_files := ∅; chunk_directories := {[ "00000"%string := {[ "hashes.dat"%string := replicate 64 0 ]} ]} |}.
Definition sample_hash_start : Storage := fst (new_FileBlockStorage sample_env sample_seed Hash_Index).

Lemma sample_hash_start_chain : holds_chain Hash_Index sample_hash_start sample_chain.
Proof.
  split; [|done]. apply closed_ready; try done.
  - constructor; try done; simpl; try (intros; lia). unfold index_ok. vm_compute. lia.
  - intros _. split; [|intros _]; vm_compute; lia.
Qed.

Lemma loadHashesFrom_correct_witness :
  let st := fst (run_storage sample_env (take 3 sample_ops) sample_hash_start) in
  loadHashesFrom 2 10 st = (st, Ok [replicate 32 2; replicate 32 3]).
Proof.
  assert (holds_chain Hash_Index (fst (run_storage sample_env (take 3 sample_ops) sample_hash_start))
    {| chain_start := 0; chain_blocks := sample_element <$> [1; 2; 3] |}) as Hc.
  { apply (holds_run sample_env Hash_Index (take 3 sample_ops) sample_hash_start sample_chain); [done|apply sample_hash_start_chain| |reflexivity].
    unfold sample_ops. cbn [take]. permit_sample. }
  apply (loadHashesFrom_correct _ _ 2 10 Hc). right. reflexivity.
Defined.

End ChainStorage.
