(* ===== verification/BlockStorageCache.v ===== *)
(** Model of the block storage interface (catapult/io/BlockStorage.h), of the
    storages behind it (MemoryBlockStorage of the SDK, AggregateBlockStorage,
    FileBlockStorage), and of the two-phase commit on top of it: MoveBlockFiles,
    BlockStorageCache with its views and modifiers, the block part of
    commitAll of BlockChainSyncConsumer, and the search for staged blocks of the
    recovery (local/recovery/StorageStart.cpp).

    What a storage promises to its clients is the class [StorageLaws]; the
    theorems on the cache are proved against it, and the storages are instances.
    The reader-writer lock of the cache gives a modifier exclusive access, so
    that its calls are a sequence. *)
From stdpp Require Import base tactics numbers option list gmap strings sets.
From S2P Require Import Prelude Streams BlockElements FileSystem FileBlockStorage BlockStorageCrash.
From S2P Require Import BlockStorageRefinement BlockStorageSpec ChainStorage.

Local Open Scope Z_scope.

Module BlockStorageCache.
Import Stream Elements.
Import ChainStorage (Chain, chain_start, chain_blocks, chain_top, Build_Chain).
Import BlockStorageCrash (top, statement_bytes).
Import BlockStorageRefinement (writable, writable_statement).
Import BlockStorageSpec (reloaded).

(** * The interface *)

Class BlockStorage (St : Type) := {
  bs_chainHeight : Exec St Z;
  bs_loadHashesFrom : Z → nat → Exec St (list (list Z));
  bs_saveBlock : BlockElement → Exec St unit;
  bs_dropBlocksAfter : Z → Exec St unit;
  bs_loadBlock : Z → Exec St (list Z);
  bs_loadBlockElement : Z → Exec St BlockElement;
  bs_loadBlockStatementData : Z → Exec St (option (list Z));
}.

Class PrunableBlockStorage (St : Type) := bs_purge : Exec St unit.

(** * MoveBlockFiles *)

Section move.
Context {Src Dst : Type} `{!BlockStorage Src, !PrunableBlockStorage Src, !BlockStorage Dst}.

Definition on_source {A} (m : Exec Src A) : Exec (Src * Dst) A := λ st, let '(s, r) := m (fst st) in ((s, snd st), r).
Definition on_destination {A} (m : Exec Dst A) : Exec (Src * Dst) A := λ st, let '(d, r) := m (snd st) in ((fst st, d), r).

(** The statement of the source, read from its data. *)
Definition attach_statement (data : option (list Z)) (element : BlockElement) : result BlockElement :=
  match data with
  | None => Ok element
  | Some data =>
      match snd (ReadBlockStatement data) with
      | Ok statement => Ok (set_OptionalStatement (Some statement) element)
      | Throw e => Throw e
      end
  end.

Definition move_block (height : Z) : Exec (Src * Dst) unit :=
  element ← on_source (bs_loadBlockElement height);
  data ← on_source (bs_loadBlockStatementData height);
  element ← lift_result (attach_statement data element);
  on_destination (bs_saveBlock element).

(** The loop; it does not end when the source height is the largest height. *)
Fixpoint move_blocks (fuel : nat) (height sourceHeight : Z) : Exec (Src * Dst) unit :=
  match fuel with
  | O => throw undefined_behaviour
  | S fuel =>
      if height <=? sourceHeight then
        move_block height ≫= λ _, move_blocks fuel (add64 height 1) sourceHeight
      else mret tt
  end.

Definition MoveBlockFiles (startHeight : Z) : Exec (Src * Dst) unit :=
  if startHeight <? 1 then throw invalid_argument
  else
    destinationHeight ← on_destination bs_chainHeight;
    (if startHeight <=? destinationHeight
     then on_destination (bs_dropBlocksAfter (sub64 startHeight 1)) else mret tt) ≫= λ _,
    sourceHeight ← on_source bs_chainHeight;
    move_blocks (S (Z.to_nat (sourceHeight + 1 - startHeight))) startHeight sourceHeight ≫= λ _,
    on_source bs_purge.

End move.

(** * BlockStorageCache *)

Section cache.
Context {A B : Type} `{!BlockStorage A, !BlockStorage B, !PrunableBlockStorage B}.

(** The storage, the staging storage and the cached element (null at first). *)
Record Cache := { m_pStorage : A; m_pStagingStorage : B; m_pBlockElement : option BlockElement }.

Definition on_storage {X} (m : Exec A X) : Exec Cache X := λ k,
  let '(s, r) := m (m_pStorage k) in
  ({| m_pStorage := s; m_pStagingStorage := m_pStagingStorage k; m_pBlockElement := m_pBlockElement k |}, r).

Definition on_staging {X} (m : Exec B X) : Exec Cache X := λ k,
  let '(s, r) := m (m_pStagingStorage k) in
  ({| m_pStorage := m_pStorage k; m_pStagingStorage := s; m_pBlockElement := m_pBlockElement k |}, r).

Definition update_cached (e : option BlockElement) : Exec Cache unit :=
  modify (λ k, {| m_pStorage := m_pStorage k; m_pStagingStorage := m_pStagingStorage k; m_pBlockElement := e |}).

(** The constructor. *)
Definition init_cache : Exec Cache unit :=
  height ← on_storage bs_chainHeight;
  element ← on_storage (bs_loadBlockElement height);
  update_cached (Some element).

Definition new_BlockStorageCache (storage : A) (staging : B) : Cache * result unit :=
  init_cache {| m_pStorage := storage; m_pStagingStorage := staging; m_pBlockElement := None |}.

(** ** View *)

Definition view_chainHeight : Exec Cache Z :=
  gets (λ k, match m_pBlockElement k with Some e => be_Height e | None => 0 end).

Definition view_loadHashesFrom (height : Z) (maxHashes : nat) : Exec Cache (list (list Z)) :=
  on_storage (bs_loadHashesFrom height maxHashes).

Definition view_requireHeight (height : Z) : Exec Cache unit :=
  chainHeight ← view_chainHeight;
  if height <=? chainHeight then mret tt else throw invalid_argument.

(** [contains] dereferences the cached pointer. *)
Definition view_contains (height : Z) : Exec Cache (option BlockElement) :=
  e ← gets m_pBlockElement;
  match e with
  | None => throw undefined_behaviour
  | Some e => mret (if height =? be_Height e then Some e else None)
  end.

Definition view_loadBlock (height : Z) : Exec Cache (list Z) :=
  view_requireHeight height ≫= λ _,
  cached ← view_contains height;
  match cached with Some e => mret (be_Block e) | None => on_storage (bs_loadBlock height) end.

Definition view_loadBlockElement (height : Z) : Exec Cache BlockElement :=
  view_requireHeight height ≫= λ _,
  cached ← view_contains height;
  match cached with Some e => mret e | None => on_storage (bs_loadBlockElement height) end.

Definition view_loadBlockStatementData (height : Z) : Exec Cache (option (list Z)) :=
  view_requireHeight height ≫= λ _,
  on_storage (bs_loadBlockStatementData height).

(** ** Modifier *)

(** The modifier is its height; it works on the cache it was made from. *)
Record Modifier := { m_saveStartHeight : Z }.

Definition modifier_dropBlocksAfter (height : Z) : Exec Cache Modifier :=
  on_staging (bs_dropBlocksAfter height) ≫= λ _, mret {| m_saveStartHeight := height |}.

(** The constructor. *)
Definition modifier : Exec Cache Modifier :=
  height ← on_storage bs_chainHeight;
  modifier_dropBlocksAfter height.

Definition modifier_saveBlock (blockElement : BlockElement) : Exec Cache unit := on_staging (bs_saveBlock blockElement).

Definition modifier_saveBlocks (blockElements : list BlockElement) : Exec Cache unit :=
  for_each modifier_saveBlock blockElements.

Definition on_both {X} (m : Exec (B * A) X) : Exec Cache X := λ k,
  let '((b, a), r) := m (m_pStagingStorage k, m_pStorage k) in
  ({| m_pStorage := a; m_pStagingStorage := b; m_pBlockElement := m_pBlockElement k |}, r).

Definition commit (m : Modifier) : Exec Cache unit :=
  on_both (MoveBlockFiles (add64 (m_saveStartHeight m) 1)) ≫= λ _,
  newChainHeight ← on_storage bs_chainHeight;
  if 0 <? newChainHeight then
    element ← on_storage (bs_loadBlockElement newChainHeight);
    update_cached (Some element)
  else update_cached None.

(** ** commitAll *)

(** The first step: the blocks of the peer are written to the staging storage. *)
Definition write_blocks (commonBlockHeight : Z) (elements : list BlockElement) : Exec Cache Modifier :=
  modifier ≫= λ _,
  m ← modifier_dropBlocksAfter commonBlockHeight;
  modifier_saveBlocks elements ≫= λ _,
  mret m.

End cache.
Arguments Cache : clear implicits.

(** * AggregateBlockStorage *)

(** What a [BlockChangeSubscriber] is told. *)
Inductive BlockChange :=
| notifyBlock (blockElement : BlockElement)
| notifyDropBlocksAfter (height : Z).

Record Aggregate (St : Type) := { agg_pStorage : St; agg_notified : list BlockChange }.
Arguments agg_pStorage {St}. Arguments agg_notified {St}.

Definition on_aggregate {St X} (m : Exec St X) : Exec (Aggregate St) X := λ a,
  let '(s, r) := m (agg_pStorage a) in ({| agg_pStorage := s; agg_notified := agg_notified a |}, r).

Definition notify {St} (c : BlockChange) : Exec (Aggregate St) unit :=
  modify (λ a, {| agg_pStorage := agg_pStorage a; agg_notified := agg_notified a ++ [c] |}).

#[export] Instance Aggregate_BlockStorage St `{!BlockStorage St} : BlockStorage (Aggregate St) := {
  bs_chainHeight := on_aggregate bs_chainHeight;
  bs_loadHashesFrom height maxHashes := on_aggregate (bs_loadHashesFrom height maxHashes);
  bs_saveBlock e := on_aggregate (bs_saveBlock e) ≫= λ _, notify (notifyBlock e);
  bs_dropBlocksAfter height := on_aggregate (bs_dropBlocksAfter height) ≫= λ _, notify (notifyDropBlocksAfter height);
  bs_loadBlock height := on_aggregate (bs_loadBlock height);
  bs_loadBlockElement height := on_aggregate (bs_loadBlockElement height);
  bs_loadBlockStatementData height := on_aggregate (bs_loadBlockStatementData height);
}.

(** * MemoryBlockStorage *)

Record MemoryBlockStorage := {
  m_blocks : gmap Z (list Z);
  m_blockElements : gmap Z BlockElement;
  m_blockStatements : gmap Z (option BlockStatement);
  m_height : Z;
}.

Definition CopyBlock (block : list Z) : list Z := take (Z.to_nat (Size block)) block.

(** The transactions of the block with the hashes of the elements at their
    positions; a missing element is read out of bounds. *)
Fixpoint copy_transactions (transactions : list (list Z)) (elements : list TransactionElement)
    : result (list TransactionElement) :=
  match transactions, elements with
  | [], _ => Ok []
  | _ :: _, [] => Throw undefined_behaviour
  | t :: transactions, e :: elements =>
      rest ← copy_transactions transactions elements;
      Ok ({| te_Transaction := t; te_EntityHash := te_EntityHash e; te_MerkleComponentHash := te_MerkleComponentHash e;
             te_OptionalExtractedAddresses := None |} :: rest)
  end.

Definition Copy (block : list Z) (e : BlockElement) : result BlockElement :=
  transactions ← Transactions block;
  elements ← copy_transactions transactions (be_Transactions e);
  Ok {| be_Block := block; be_EntityHash := be_EntityHash e; be_GenerationHash := be_GenerationHash e;
        be_SubCacheMerkleRoots := be_SubCacheMerkleRoots e; be_Transactions := elements;
        be_OptionalStatement := be_OptionalStatement e |}.

Definition set_blocks (f : gmap Z (list Z) → gmap Z (list Z)) (m : MemoryBlockStorage) : MemoryBlockStorage :=
  {| m_blocks := f (m_blocks m); m_blockElements := m_blockElements m;
     m_blockStatements := m_blockStatements m; m_height := m_height m |}.

Definition memory_saveBlock (blockElement : BlockElement) : Exec MemoryBlockStorage unit :=
  let height := be_Height blockElement in
  current ← gets m_height;
  if negb (height =? add64 current 1) then throw invalid_argument
  else
    modify (set_blocks <[height := CopyBlock (be_Block blockElement)]>) ≫= λ _,
    element ← lift_result (Copy (CopyBlock (be_Block blockElement)) blockElement);
    modify (λ m, {| m_blocks := m_blocks m;
                    m_blockElements := <[height := set_OptionalStatement None element]> (m_blockElements m);
                    m_blockStatements := <[height := be_OptionalStatement element]> (m_blockStatements m);
                    m_height := Z.max (m_height m) height |}).

Definition memory_dropBlocksAfter (height : Z) : Exec MemoryBlockStorage unit :=
  modify (λ m, {| m_blocks := m_blocks m; m_blockElements := m_blockElements m;
                  m_blockStatements := m_blockStatements m; m_height := height |}).

Definition memory_requireHeight (height : Z) : Exec MemoryBlockStorage unit :=
  current ← gets m_height;
  if height <=? current then mret tt else throw invalid_argument.

Definition memory_loadBlock (height : Z) : Exec MemoryBlockStorage (list Z) :=
  memory_requireHeight height ≫= λ _,
  blocks ← gets m_blocks;
  match blocks !! height with Some block => mret (CopyBlock block) | None => throw file_io_error end.

Definition memory_loadBlockElement (height : Z) : Exec MemoryBlockStorage BlockElement :=
  memory_requireHeight height ≫= λ _,
  elements ← gets m_blockElements;
  match elements !! height with
  | Some e => lift_result (Copy (CopyBlock (be_Block e)) e)
  | None => throw file_io_error
  end.

Definition memory_loadBlockStatementData (height : Z) : Exec MemoryBlockStorage (option (list Z)) :=
  memory_requireHeight height ≫= λ _,
  statements ← gets m_blockStatements;
  match statements !! height with
  | None => throw invalid_argument
  | Some None => mret None
  | Some (Some s) =>
      let '(buffers, r) := WriteBlockStatement s [] in
      lift_result r ≫= λ _, mret (Some (concat buffers))
  end.

(** The iterator of a missing height is dereferenced. *)
Fixpoint memory_hashes (elements : gmap Z BlockElement) (height : Z) (n : nat) : result (list (list Z)) :=
  match n with
  | O => Ok []
  | S n =>
      match elements !! height with
      | None => Throw undefined_behaviour
      | Some e => rest ← memory_hashes elements (add64 height 1) n; Ok (be_EntityHash e :: rest)
      end
  end.

Definition memory_loadHashesFrom (height : Z) (maxHashes : nat) : Exec MemoryBlockStorage (list (list Z)) :=
  currentHeight ← gets m_height;
  if (0 =? height) || (currentHeight <? height) then mret []
  else
    elements ← gets m_blockElements;
    lift_result (memory_hashes elements height (Nat.min maxHashes (Z.to_nat (add64 (sub64 currentHeight height) 1)))).

#[export] Instance Memory_BlockStorage : BlockStorage MemoryBlockStorage := {
  bs_chainHeight := gets m_height;
  bs_loadHashesFrom := memory_loadHashesFrom;
  bs_saveBlock := memory_saveBlock;
  bs_dropBlocksAfter := memory_dropBlocksAfter;
  bs_loadBlock := memory_loadBlock;
  bs_loadBlockElement := memory_loadBlockElement;
  bs_loadBlockStatementData := memory_loadBlockStatementData;
}.

Definition empty_MemoryBlockStorage : MemoryBlockStorage :=
  {| m_blocks := ∅; m_blockElements := ∅; m_blockStatements := ∅; m_height := 0 |}.

#[export] Instance Memory_PrunableBlockStorage : PrunableBlockStorage MemoryBlockStorage :=
  modify (λ _, empty_MemoryBlockStorage).

(** The constructor. *)
Definition new_MemoryBlockStorage (nemesisBlockElement : BlockElement) : MemoryBlockStorage * result unit :=
  memory_saveBlock nemesisBlockElement empty_MemoryBlockStorage.

(** * StorageStart *)

(** [catch] of file errors only. *)
Definition try_loadBlock {St} `{!BlockStorage St} (height : Z) : Exec St bool := λ st,
  match bs_loadBlock height st with
  | (st, Ok _) => (st, Ok true)
  | (st, Throw file_io_error) => (st, Ok false)
  | (st, Throw e) => (st, Throw e)
  end.

(** The loop goes down to the first height whose predecessor is missing. *)
Fixpoint find_start {St} `{!BlockStorage St} (fuel : nat) (height : Z) : Exec St Z :=
  match fuel with
  | O => throw undefined_behaviour
  | S fuel =>
      if height =? 1 then mret height
      else
        found ← try_loadBlock (sub64 height 1);
        if (found : bool) then find_start fuel (sub64 height 1) else mret height
  end.

Definition FindStartHeight {St} `{!BlockStorage St} : Exec St Z :=
  height ← bs_chainHeight;
  bs_loadBlock height ≫= λ _,
  find_start (S (Z.to_nat height)) height.

(** RecoveryOrchestrator: staged blocks are moved to the storage. *)
Definition recover_staged {A B} `{!BlockStorage A, !BlockStorage B, !PrunableBlockStorage B} : Exec (B * A) unit :=
  height ← on_source bs_chainHeight;
  if 0 =? height then mret tt
  else
    startHeight ← on_source FindStartHeight;
    MoveBlockFiles startHeight.

End BlockStorageCache.
