(* ===== verification/StorageLaws.v ===== *)
(** What a block storage promises to its clients, as a class, with the
    instances for the storage in memory, the storage in files and the storage
    that notifies a subscriber; and the two-phase commit of BlockStorageCache
    proved against the class. *)
From stdpp Require Import base tactics numbers option list gmap strings sets.
From S2P Require Import Prelude Streams BlockElements FileSystem FileBlockStorage BlockStorageCrash.
From S2P Require Import BlockStorageRefinement BlockStorageSpec ChainStorage BlockStorageCache.

Local Open Scope Z_scope.

Module StorageLaws.
Import Stream Elements BlockStorageCache.
Import ChainStorage (Chain, chain_start, chain_blocks, chain_top, Build_Chain).
Import BlockStorageCrash (top, statement_bytes).
Import BlockStorageRefinement (writable, writable_statement).
Import BlockStorageSpec (reloaded).

(** * Elements as they are stored *)

(** An element without what storing it loses. *)
Definition canonical (e : BlockElement) : Prop := writable e ∧ reloaded e = e.

Lemma persisted_wf e : wf_BlockElement e → wf_BlockElement (persisted e).
Proof.
  intros [H1 H2 H3 H4 H5 H6 H7]. constructor; simpl; try done.
  - rewrite H5. f_equal. rewrite <-list_fmap_compose. done.
  - by apply Forall_fmap.
  - by rewrite length_fmap.
Qed.

Lemma reloaded_canonical e : writable e → canonical (reloaded e).
Proof.
  intros [He Hs]. split; [split; [|done]|].
  - destruct (persisted_wf e He) as [H1 H2 H3 H4 H5 H6 H7]. by constructor.
  - destruct e as [b h g r ts st]. unfold reloaded, persisted, set_OptionalStatement. simpl. f_equal.
    rewrite <-list_fmap_compose. done.
Qed.

Lemma reloaded_height e : be_Height (reloaded e) = be_Height e.
Proof. done. Qed.

Lemma canonical_persisted e : canonical e → persisted e = set_OptionalStatement None e.
Proof. intros [_ He]. unfold reloaded in He. rewrite <-He at 2. by destruct e. Qed.

(** * The laws *)

(** The chain without the blocks behind [h]; a height that is not one of the
    chain makes it start there. *)
Definition chain_drop (h : Z) (c : Chain) : Chain :=
  if (chain_start c <=? h) && (h <=? chain_top c)
  then {| chain_start := chain_start c; chain_blocks := take (Z.to_nat (h - chain_start c)) (chain_blocks c) |}
  else {| chain_start := h; chain_blocks := [] |}.

Definition chain_append (c : Chain) (es : list BlockElement) : Chain :=
  {| chain_start := chain_start c; chain_blocks := chain_blocks c ++ es |}.

Definition block_at (c : Chain) (h : Z) : option BlockElement :=
  if chain_start c <? h then chain_blocks c !! Z.to_nat (h - chain_start c - 1) else None.

Definition wf_Chain (c : Chain) : Prop :=
  0 ≤ chain_start c ∧ chain_top c < 2 ^ 64 ∧ Forall canonical (chain_blocks c)
  ∧ ∀ h e, block_at c h = Some e → be_Height e = h.

Class StorageLaws (St : Type) `{!BlockStorage St} := {
  (** the storage stores the chain *)
  represents : St → Chain → Prop;
  (** it has room for the element *)
  accepts : St → BlockElement → Prop;
  (** it can drop the blocks behind the height *)
  droppable : St → Chain → Z → Prop;
  law_wf : ∀ s c, represents s c → wf_Chain c;
  law_chainHeight : ∀ s c, represents s c → bs_chainHeight s = (s, Ok (chain_top c));
  law_loadBlock : ∀ s c h e, represents s c → block_at c h = Some e → bs_loadBlock h s = (s, Ok (be_Block e));
  law_loadBlockElement : ∀ s c h e, represents s c → block_at c h = Some e →
    ∃ e', bs_loadBlockElement h s = (s, Ok e') ∧ set_OptionalStatement (be_OptionalStatement e) e' = e
          ∧ (be_OptionalStatement e' = None ∨ be_OptionalStatement e' = be_OptionalStatement e);
  law_loadBlockStatementData : ∀ s c h e, represents s c → block_at c h = Some e →
    bs_loadBlockStatementData h s = (s, Ok (statement_bytes <$> be_OptionalStatement e));
  law_saveBlock : ∀ s c e, represents s c → writable e → be_Height e = chain_top c + 1 → chain_top c + 1 < 2 ^ 64 → accepts s e →
    ∃ s', bs_saveBlock e s = (s', Ok tt) ∧ represents s' (chain_append c [reloaded e]);
  law_saveBlock_height : ∀ s c e, represents s c → be_Height e ≠ chain_top c + 1 → chain_top c + 1 < 2 ^ 64 →
    bs_saveBlock e s = (s, Throw invalid_argument);
  law_dropBlocksAfter : ∀ s c h, represents s c → in_range 64 h → droppable s c h →
    ∃ s', bs_dropBlocksAfter h s = (s', Ok tt) ∧ represents s' (chain_drop h c);
  (** every height with a block can be dropped to *)
  law_droppable : ∀ s c h, represents s c → 0 < h → chain_start c < h ≤ chain_top c ∨ h = chain_top c → droppable s c h;
  (** a drop that returns has dropped *)
  law_dropped : ∀ s s' c h, represents s c → 0 < h ≤ chain_top c → bs_dropBlocksAfter h s = (s', Ok tt) →
    represents s' (chain_drop h c);
}.

Definition empty_Chain : Chain := {| chain_start := 0; chain_blocks := [] |}.

(** An empty storage that can be set to any height. *)
Definition settable {St} `{!BlockStorage St, !StorageLaws St} (s : St) : Prop := ∀ h, in_range 64 h → droppable s empty_Chain h.

Class PrunableLaws (St : Type) `{!BlockStorage St, !PrunableBlockStorage St, !StorageLaws St} := {
  law_purge : ∀ s c, represents s c →
    ∃ s', bs_purge s = (s', Ok tt) ∧ represents s' empty_Chain ∧ settable s';
}.

(** Room for elements that are saved one after the other. *)
Fixpoint room {St} `{!BlockStorage St, !StorageLaws St} (es : list BlockElement) (s : St) : Prop :=
  match es with
  | [] => True
  | e :: es => accepts s e ∧ room es (fst (bs_saveBlock e s))
  end.

(** Elements that extend a chain of the height [h]. *)
Fixpoint extends (h : Z) (es : list BlockElement) : Prop :=
  match es with
  | [] => True
  | e :: es => writable e ∧ be_Height e = h + 1 ∧ h + 1 < 2 ^ 64 ∧ extends (h + 1) es
  end.

Lemma chain_top_append c es : chain_top (chain_append c es) = chain_top c + Z.of_nat (length es).
Proof. unfold chain_top, top, chain_append. simpl. rewrite length_app. lia. Qed.

Lemma chain_append_app c es1 es2 : chain_append (chain_append c es1) es2 = chain_append c (es1 ++ es2).
Proof. unfold chain_append. simpl. by rewrite app_assoc. Qed.

Lemma block_at_range c h e : block_at c h = Some e → chain_start c < h ≤ chain_top c.
Proof. unfold block_at, chain_top, top. destruct (Z.ltb_spec (chain_start c) h); [|done]. intros ?%lookup_lt_Some. lia. Qed.

Lemma block_at_top c : chain_blocks c ≠ [] → ∃ e, block_at c (chain_top c) = Some e.
Proof.
  intros Hne. unfold block_at, chain_top, top. assert (0 < length (chain_blocks c))%nat by (destruct (chain_blocks c); simpl; [done|lia]).
  rewrite (proj2 (Z.ltb_lt _ _)) by lia. apply lookup_lt_is_Some_2. lia.
Qed.

Section saving.
Context {St : Type} `{!BlockStorage St, !StorageLaws St}.

Lemma save_all s c es :
  represents s c → extends (chain_top c) es → room es s →
  ∃ s', for_each bs_saveBlock es s = (s', Ok tt) ∧ represents s' (chain_append c (reloaded <$> es)).
Proof.
  revert s c. induction es as [|e es IH]; intros s c Hs He Hr; simpl.
  - exists s. split; [done|]. unfold chain_append. simpl. rewrite app_nil_r. by destruct c.
  - destruct He as (Hw & Hh & Hmax & He). destruct Hr as [Ha Hr].
    destruct (law_saveBlock s c e Hs Hw Hh Hmax Ha) as (s1 & H1 & Hs1). rewrite H1 in Hr.
    destruct (IH s1 _ Hs1) as (s2 & H2 & Hs2); [by rewrite chain_top_append|done|].
    exists s2. split; [by rewrite (run_bind _ _ _ _ _ H1)|]. by rewrite chain_append_app in Hs2.
Qed.

End saving.

(** * Moving blocks *)

Section moving.
Context {Src Dst : Type} `{!BlockStorage Src, !PrunableBlockStorage Src, !StorageLaws Src, !PrunableLaws Src}.
Context `{!BlockStorage Dst, !StorageLaws Dst}.

Lemma attach_statement_canonical e e' :
  canonical e → set_OptionalStatement (be_OptionalStatement e) e' = e →
  be_OptionalStatement e' = None ∨ be_OptionalStatement e' = be_OptionalStatement e →
  attach_statement (statement_bytes <$> be_OptionalStatement e) e' = Ok e.
Proof.
  intros [[_ Hw] _] He He'. destruct (be_OptionalStatement e) as [st|] eqn:Hst; simpl.
  - destruct (writable_statement st Hw) as (_ & _ & _ & Hr & _). specialize (Hr []). rewrite app_nil_r in Hr. rewrite Hr.
    simpl. by rewrite He.
  - rewrite <-He. assert (be_OptionalStatement e' = None) as Hn by tauto. destruct e'. simpl in *. by subst.
Qed.

Lemma move_block_run h (s : Src) (d : Dst) cs cd e :
  represents s cs → represents d cd → block_at cs h = Some e → h = chain_top cd + 1 → h < 2 ^ 64 → accepts d e →
  ∃ d', bs_saveBlock e d = (d', Ok tt) ∧ move_block h (s, d) = ((s, d'), Ok tt) ∧ represents d' (chain_append cd [e]).
Proof.
  intros Hs Hd He Hh Hmax Ha. destruct (law_wf s cs Hs) as (_ & _ & Hcan & Hheight).
  assert (canonical e) as Hce.
  { unfold block_at in He. case_match; [|done]. by eapply Forall_lookup_1. }
  destruct (law_loadBlockElement s cs h e Hs He) as (e' & Hload & Hset & Hopt).
  pose proof (law_loadBlockStatementData s cs h e Hs He) as Hdata.
  destruct (law_saveBlock d cd e Hd) as (d' & Hsave & Hd'); [apply Hce|by rewrite (Hheight h e He)|lia|done|].
  exists d'. split; [done|]. split; [|destruct Hce as [_ Hce]; by rewrite Hce in Hd'].
  unfold move_block. erewrite run_bind by (unfold on_source; simpl; by rewrite Hload). simpl.
  erewrite run_bind by (unfold on_source; simpl; by rewrite Hdata). simpl.
  rewrite (attach_statement_canonical e e' Hce Hset Hopt). erewrite run_bind by done.
  unfold on_destination. simpl. by rewrite Hsave.
Qed.

Lemma move_blocks_run fuel es h (s : Src) (d : Dst) cs cd :
  represents s cs → represents d cd → h = chain_top cd + 1 → chain_top cs = chain_top cd + Z.of_nat (length es) →
  chain_top cs + 1 < 2 ^ 64 → (length es < fuel)%nat →
  (∀ i e, es !! i = Some e → block_at cs (h + Z.of_nat i) = Some e) → room es d →
  ∃ d', move_blocks fuel h (chain_top cs) (s, d) = ((s, d'), Ok tt) ∧ represents d' (chain_append cd es).
Proof.
  intros Hs. revert fuel h d cd. induction es as [|e es IH]; intros [|fuel] h d cd Hd Hh Htop Hmax Hfuel Hes Hroom; try (simpl in *; lia).
  - exists d. simpl in *. rewrite (proj2 (Z.leb_gt _ _)) by lia. split; [done|]. unfold chain_append. rewrite app_nil_r. by destruct cd.
  - destruct Hroom as [Ha Hroom]. pose proof (Hes 0%nat e eq_refl) as He. rewrite Z.add_0_r in He. simpl in Htop.
    destruct (law_wf d cd Hd) as (H0 & _ & _). assert (0 ≤ chain_top cd) by (unfold chain_top, top; lia).
    destruct (move_block_run h s d cs cd e Hs Hd He Hh ltac:(lia) Ha) as (d1 & Hsave & Hmove & Hd1). rewrite Hsave in Hroom.
    destruct (IH fuel (h + 1) d1 _ Hd1) as (d2 & H2 & Hd2).
    + rewrite chain_top_append. simpl. lia.
    + rewrite chain_top_append. simpl. lia.
    + done.
    + simpl in Hfuel. lia.
    + intros i e' Hi. specialize (Hes (S i) e' Hi). by replace (h + 1 + Z.of_nat i) with (h + Z.of_nat (S i)) by lia.
    + done.
    + exists d2. split; [|by rewrite chain_append_app in Hd2].
      cbn [move_blocks]. rewrite (proj2 (Z.leb_le _ _)) by lia. rewrite (run_bind _ _ _ _ _ Hmove).
      by rewrite add64_small by (unfold in_range; lia).
Qed.

(** The destination, with the blocks that are replaced dropped. *)
Definition prepared (common : Z) (d : Dst) (cd : Chain) : Dst :=
  if common + 1 <=? chain_top cd then fst (bs_dropBlocksAfter common d) else d.

Lemma chain_drop_top c : wf_Chain c → chain_drop (chain_top c) c = c.
Proof.
  intros (H0 & _). unfold chain_drop, chain_top, top. rewrite (proj2 (Z.leb_le _ _)), (proj2 (Z.leb_le _ _)) by lia. simpl.
  rewrite take_ge by lia. by destruct c.
Qed.

Lemma chain_top_drop h c : chain_start c ≤ h ≤ chain_top c → chain_top (chain_drop h c) = h.
Proof.
  intros Hh. unfold chain_drop, chain_top, top in *. rewrite (proj2 (Z.leb_le _ _)), (proj2 (Z.leb_le _ _)) by lia. simpl.
  rewrite length_take. lia.
Qed.

Lemma MoveBlockFiles_run common es (s : Src) (d : Dst) cd :
  represents s {| chain_start := common; chain_blocks := es |} → represents d cd →
  chain_start cd < common ≤ chain_top cd → common + Z.of_nat (length es) + 1 < 2 ^ 64 → room es (prepared common d cd) →
  ∃ s' d', MoveBlockFiles (common + 1) (s, d) = ((s', d'), Ok tt)
    ∧ represents s' empty_Chain ∧ settable s' ∧ represents d' (chain_append (chain_drop common cd) es).
Proof.
  intros Hs Hd Hcommon Hmax Hroom. pose proof (law_wf d cd Hd) as Hwf. pose proof Hwf as (H0 & Htop & _).
  set (cs := {| chain_start := common; chain_blocks := es |}) in *.
  assert (∃ d1, represents d1 (chain_drop common cd) ∧ d1 = prepared common d cd
     ∧ (if common + 1 <=? chain_top cd then on_destination (bs_dropBlocksAfter (sub64 (common + 1) 1)) else mret tt) (s, d) = ((s, d1), Ok tt))
    as (d1 & Hd1 & Heq & Hprep).
  { unfold prepared. destruct (Z.leb_spec (common + 1) (chain_top cd)) as [Hle|Hgt].
    - destruct (law_dropBlocksAfter d cd common Hd) as (d1 & H1 & Hd1); [unfold in_range; lia|apply law_droppable; [done|lia|by left]|].
      exists d1. rewrite H1. split_and!; [done|done|]. unfold on_destination. simpl.
      replace (sub64 (common + 1) 1) with common by (unfold sub64; rewrite wrap_small by (unfold in_range; lia); lia). by rewrite H1.
    - exists d. assert (common = chain_top cd) as -> by lia. rewrite chain_drop_top by done. done. }
  rewrite <-Heq in Hroom.
  assert (chain_top cs = common + Z.of_nat (length es)) as Hcs by done.
  destruct (move_blocks_run (S (Z.to_nat (chain_top cs + 1 - (common + 1)))) es (common + 1) s d1 cs (chain_drop common cd) Hs Hd1)
    as (d2 & H2 & Hd2).
  { rewrite chain_top_drop; lia. }
  { rewrite chain_top_drop; lia. }
  { lia. }
  { lia. }
  { intros i e Hi. unfold block_at, cs. simpl. rewrite (proj2 (Z.ltb_lt _ _)) by lia. rewrite <-Hi. f_equal. lia. }
  { done. }
  destruct (law_purge s cs Hs) as (s' & Hp & Hs' & Hset). exists s', d2. split_and!; [|done|done|done].
  unfold MoveBlockFiles. rewrite (proj2 (Z.ltb_ge _ _)) by lia.
  erewrite run_bind by (unfold on_destination; simpl; by rewrite (law_chainHeight d cd Hd)). simpl snd. rewrite (run_bind _ _ _ _ _ Hprep).
  erewrite run_bind by (unfold on_source; simpl; by rewrite (law_chainHeight s cs Hs)). simpl snd.
  rewrite (run_bind _ _ _ _ _ H2). unfold on_source. simpl. by rewrite Hp.
Qed.

End moving.

(** * The cache *)

Section cache.
Context {A B : Type} `{!BlockStorage A, !StorageLaws A}.
Context `{!BlockStorage B, !PrunableBlockStorage B, !StorageLaws B, !PrunableLaws B}.
Implicit Types (k : Cache A B).

(** The cached element is the last one of the storage. *)
Definition coherent k (c : Chain) : Prop :=
  ∃ e, block_at c (chain_top c) = Some e ∧ ∃ e', m_pBlockElement k = Some e'
    ∧ bs_loadBlockElement (chain_top c) (m_pStorage k) = (m_pStorage k, Ok e')
    ∧ set_OptionalStatement (be_OptionalStatement e) e' = e.

(** The staging storage is empty, the storage stores the chain, and the cache
    knows its last element. *)
Record at_rest k (c : Chain) : Prop := {
  rest_storage : represents (m_pStorage k) c;
  rest_staging : represents (m_pStagingStorage k) empty_Chain;
  rest_coherent : coherent k c;
}.

Lemma on_storage_run {X} (m : Exec A X) k r : m (m_pStorage k) = (m_pStorage k, r) → on_storage m k = (k, r).
Proof. intros Hm. unfold on_storage. rewrite Hm. by destruct k. Qed.

Lemma coherent_height k c e' : wf_Chain c → coherent k c → m_pBlockElement k = Some e' → be_Height e' = chain_top c.
Proof.
  intros (_ & _ & _ & Hh) (e & He & e1 & H1 & _ & Hset) H2. simplify_eq. specialize (Hh _ _ He). rewrite <-Hset in Hh. exact Hh.
Qed.

Lemma view_agrees k c :
  represents (m_pStorage k) c → coherent k c →
  view_chainHeight k = (k, Ok (chain_top c))
  ∧ (∀ h, chain_start c < h ≤ chain_top c →
       view_loadBlock h k = on_storage (bs_loadBlock h) k
       ∧ view_loadBlockElement h k = on_storage (bs_loadBlockElement h) k
       ∧ view_loadBlockStatementData h k = on_storage (bs_loadBlockStatementData h) k)
  ∧ ∀ h, chain_top c < h →
       view_loadBlock h k = (k, Throw invalid_argument)
       ∧ view_loadBlockElement h k = (k, Throw invalid_argument)
       ∧ view_loadBlockStatementData h k = (k, Throw invalid_argument).
Proof.
  intros Hs Hc. pose proof (law_wf _ _ Hs) as Hwf. pose proof Hc as (e & He & e' & Hk & Hload & Hset).
  pose proof (coherent_height k c e' Hwf Hc Hk) as Hh'.
  assert (view_chainHeight k = (k, Ok (chain_top c))) as Hheight by (unfold view_chainHeight, gets; rewrite Hk; by rewrite Hh').
  assert (∀ h, view_requireHeight h k = (k, if h <=? chain_top c then Ok tt else Throw invalid_argument)) as Hreq.
  { intros h. unfold view_requireHeight. rewrite (run_bind _ _ _ _ _ Hheight). by destruct (h <=? chain_top c). }
  assert (∀ h, view_contains h k = (k, Ok (if h =? chain_top c then Some e' else None))) as Hcont.
  { intros h. unfold view_contains. erewrite run_bind by done. rewrite Hk. by rewrite Hh'. }
  split_and!; [done| |].
  - intros h Hh. specialize (Hreq h). rewrite (proj2 (Z.leb_le _ _)) in Hreq by lia.
    unfold view_loadBlock, view_loadBlockElement, view_loadBlockStatementData. rewrite !(run_bind _ _ _ _ _ Hreq).
    rewrite !(run_bind _ _ _ _ _ (Hcont h)). destruct (Z.eqb_spec h (chain_top c)) as [->|]; [|done].
    rewrite (on_storage_run _ _ _ (law_loadBlock _ _ _ _ Hs He)), (on_storage_run _ _ _ Hload). by rewrite <-Hset.
  - intros h Hh. specialize (Hreq h). rewrite (proj2 (Z.leb_gt _ _)) in Hreq by lia. split_and!; by apply run_throw.
Qed.

Lemma view_chainHeight_run k c : at_rest k c → view_chainHeight k = (k, Ok (chain_top c)).
Proof. intros [Hs _ Hc]. apply (view_agrees k c Hs Hc). Qed.

(** Loading an element from a cache at rest. *)
Lemma view_load_run k c h e :
  at_rest k c → block_at c h = Some e →
  ∃ e', view_loadBlockElement h k = (k, Ok e') ∧ set_OptionalStatement (be_OptionalStatement e) e' = e.
Proof.
  intros [Hs _ Hc] He. destruct (view_agrees k c Hs Hc) as (_ & Hin & _).
  destruct (Hin h (block_at_range _ _ _ He)) as (_ & -> & _). destruct (law_loadBlockElement _ _ _ _ Hs He) as (e' & Hload & Hset & _).
  exists e'. split; [|done]. by apply on_storage_run.
Qed.

(** The cache is transparent: with a storage that stores the chain, and the
    element of its last block cached, a view gives the height, the block, the
    element and the statement data of every height as the storage does, and
    refuses heights above the chain; so what is read never depends on what is
    cached. *)
Theorem view_agrees_with_storage k c :
  represents (m_pStorage k) c → coherent k c →
  view_chainHeight k = (k, Ok (chain_top c))
  ∧ (∀ h, chain_start c < h ≤ chain_top c →
       view_loadBlock h k = on_storage (bs_loadBlock h) k
       ∧ view_loadBlockElement h k = on_storage (bs_loadBlockElement h) k
       ∧ view_loadBlockStatementData h k = on_storage (bs_loadBlockStatementData h) k)
  ∧ ∀ h, chain_top c < h →
       view_loadBlock h k = (k, Throw invalid_argument)
       ∧ view_loadBlockElement h k = (k, Throw invalid_argument)
       ∧ view_loadBlockStatementData h k = (k, Throw invalid_argument).
Proof. apply view_agrees. Qed.

(** The staging storage after the two drops of an update. *)
Definition staged_at (common : Z) k (c : Chain) : B :=
  fst (bs_dropBlocksAfter common (fst (bs_dropBlocksAfter (chain_top c) (m_pStagingStorage k)))).

(** An update to the block at [common] followed by [es]: the elements are well
    formed and have the heights behind [common], and the files of both storages
    have room for them. *)
Record updatable k (c : Chain) (common : Z) (es : list BlockElement) : Prop := {
  upd_common : chain_start c < common ≤ chain_top c;
  upd_elements : extends common es;
  upd_max : common + Z.of_nat (length es) + 1 < 2 ^ 64;
  upd_room : room es (staged_at common k c) ∧ room (reloaded <$> es) (prepared common (m_pStorage k) c);
}.

Lemma chain_drop_empty h h' : chain_drop h' {| chain_start := h; chain_blocks := [] |} = {| chain_start := h'; chain_blocks := [] |}.
Proof.
  unfold chain_drop, chain_top, top. cbn [chain_start chain_blocks length Z.of_nat]. rewrite take_nil, Z.add_0_r.
  destruct (Z.leb_spec h h'), (Z.leb_spec h' h); simpl; try done. f_equal. lia.
Qed.

(** The cache with another staging storage. *)
Definition with_staging (b : B) k : Cache A B :=
  {| m_pStorage := m_pStorage k; m_pStagingStorage := b; m_pBlockElement := m_pBlockElement k |}.

Lemma with_staging_same k : with_staging (m_pStagingStorage k) k = k.
Proof. by destruct k. Qed.

Lemma drop_run h k b b' r :
  bs_dropBlocksAfter h b = (b', r) →
  modifier_dropBlocksAfter h (with_staging b k)
  = (with_staging b' k, match r with Ok _ => Ok {| m_saveStartHeight := h |} | Throw e => Throw e end).
Proof. intros E. unfold modifier_dropBlocksAfter, on_staging, mbind, exec_bind. simpl. rewrite E. by destruct r. Qed.

Lemma save_blocks_run es k b :
  modifier_saveBlocks es (with_staging b k)
  = (with_staging (fst (for_each bs_saveBlock es b)) k, snd (for_each bs_saveBlock es b)).
Proof.
  unfold modifier_saveBlocks. revert b. induction es as [|e es IH]; intros b; [done|]. cbn [for_each].
  unfold mbind, exec_bind. unfold modifier_saveBlock at 1, on_staging. simpl. destruct (bs_saveBlock e b) as [b' [[]|]]; [apply IH|done].
Qed.

(** What the first step of a commit does, in terms of the staging storage. *)
Lemma write_blocks_run k c common es :
  represents (m_pStorage k) c → represents (m_pStagingStorage k) empty_Chain → settable (m_pStagingStorage k) →
  ∃ b1, bs_dropBlocksAfter (chain_top c) (m_pStagingStorage k) = (b1, Ok tt) ∧ represents b1 {| chain_start := chain_top c; chain_blocks := [] |}
    ∧ write_blocks common es k
      = match bs_dropBlocksAfter common b1 with
        | (b2, Throw e) => (with_staging b2 k, Throw e)
        | (b2, Ok _) =>
            (with_staging (fst (for_each bs_saveBlock es b2)) k,
             match snd (for_each bs_saveBlock es b2) with Ok _ => Ok {| m_saveStartHeight := common |} | Throw e => Throw e end)
        end.
Proof.
  intros Hs Hst Hset. destruct (law_wf _ _ Hs) as (H0 & Htop & _).
  assert (in_range 64 (chain_top c)) as Hr by (unfold in_range, chain_top, top in *; lia).
  destruct (law_dropBlocksAfter _ _ _ Hst Hr (Hset _ Hr)) as (b1 & E1 & Hb1). unfold empty_Chain in Hb1. rewrite chain_drop_empty in Hb1.
  exists b1. split_and!; [done|done|].
  assert (modifier k = (with_staging b1 k, Ok {| m_saveStartHeight := chain_top c |})) as Hmod.
  { unfold modifier. erewrite run_bind by (apply on_storage_run; exact (law_chainHeight _ _ Hs)).
    rewrite <-(with_staging_same k) at 1. by rewrite (drop_run _ _ _ _ _ E1). }
  unfold write_blocks. rewrite (run_bind _ _ _ _ _ Hmod). destruct (bs_dropBlocksAfter common b1) as [b2 r2] eqn:E2.
  unfold mbind, exec_bind. rewrite (drop_run _ _ _ _ _ E2). destruct r2 as [[]|]; [|done]. rewrite save_blocks_run.
  by destruct (for_each bs_saveBlock es b2) as [b3 [[]|]].
Qed.

(** Once the staging storage is at the common block, the blocks can be written. *)
Lemma staged_run k c common es b1 b2 :
  represents (m_pStorage k) c → updatable k c common es → bs_dropBlocksAfter (chain_top c) (m_pStagingStorage k) = (b1, Ok tt) →
  represents b1 {| chain_start := chain_top c; chain_blocks := [] |} → bs_dropBlocksAfter common b1 = (b2, Ok tt) →
  ∃ b3, for_each bs_saveBlock es b2 = (b3, Ok tt) ∧ represents b3 {| chain_start := common; chain_blocks := reloaded <$> es |}.
Proof.
  intros Hs [Hcommon Hes Hmax [Hroom _]] E1 Hb1 E2. destruct (law_wf _ _ Hs) as (H0 & _).
  unfold staged_at in Hroom. rewrite E1 in Hroom. cbn [fst] in Hroom. rewrite E2 in Hroom. cbn [fst] in Hroom.
  assert (represents b2 {| chain_start := common; chain_blocks := [] |}) as Hb2.
  { eapply law_dropped in E2; [|done|unfold chain_top at 1, top; cbn [chain_start chain_blocks length]; lia]. by rewrite chain_drop_empty in E2. }
  apply (save_all b2 _ es Hb2); [unfold chain_top, top; simpl; by rewrite Z.add_0_r|done].
Qed.

Lemma write_blocks_ok k c common es k1 m :
  represents (m_pStorage k) c → represents (m_pStagingStorage k) empty_Chain → settable (m_pStagingStorage k) →
  updatable k c common es → write_blocks common es k = (k1, Ok m) →
  m = {| m_saveStartHeight := common |}
  ∧ ∃ b, k1 = with_staging b k ∧ represents b {| chain_start := common; chain_blocks := reloaded <$> es |}.
Proof.
  intros Hs Hst Hset Hu. destruct (write_blocks_run k c common es Hs Hst Hset) as (b1 & E1 & Hb1 & ->).
  destruct (bs_dropBlocksAfter common b1) as [b2 [[]|]] eqn:E2; [|done].
  destruct (staged_run k c common es b1 b2 Hs Hu E1 Hb1 E2) as (b3 & -> & Hb3). intros [= <- <-]. split; [done|]. by exists b3.
Qed.

Lemma commit_run k c common es :
  represents (m_pStorage k) c → represents (m_pStagingStorage k) {| chain_start := common; chain_blocks := es |} →
  chain_start c < common ≤ chain_top c → common + Z.of_nat (length es) + 1 < 2 ^ 64 → room es (prepared common (m_pStorage k) c) →
  ∃ k', commit {| m_saveStartHeight := common |} k = (k', Ok tt) ∧ at_rest k' (chain_append (chain_drop common c) es)
    ∧ settable (m_pStagingStorage k').
Proof.
  intros Hs Hst Hcommon Hmax Hroom. destruct (law_wf _ _ Hs) as (H0 & Htop & _).
  destruct (MoveBlockFiles_run common es _ _ c Hst Hs Hcommon Hmax Hroom) as (b & a & E & Hb & Hset' & Ha).
  set (c' := chain_append (chain_drop common c) es) in *.
  assert (chain_blocks c' ≠ []) as Hblocks.
  { unfold c', chain_append, chain_drop, chain_top, top in *. simpl.
    rewrite (proj2 (Z.leb_le _ _)), (proj2 (Z.leb_le _ _)) by lia. simpl. intros [Hnil ->]%app_nil.
    apply (f_equal length) in Hnil. rewrite length_take in Hnil. simpl in Hnil. lia. }
  destruct (block_at_top c' Hblocks) as [e He]. destruct (law_loadBlockElement _ _ _ _ Ha He) as (e' & Hload & Hset & _).
  destruct (law_wf _ _ Ha) as (H0' & _). pose proof (block_at_range _ _ _ He) as Hpos.
  exists {| m_pStorage := a; m_pStagingStorage := b; m_pBlockElement := Some e' |}. split.
  - unfold commit. cbn [m_saveStartHeight]. rewrite add64_small by (unfold in_range; lia).
    erewrite run_bind by (unfold on_both; by rewrite E). erewrite run_bind by (apply on_storage_run; exact (law_chainHeight _ _ Ha)).
    rewrite (proj2 (Z.ltb_lt _ _)) by lia. by erewrite run_bind by (apply on_storage_run, Hload).
  - split; [|done]. constructor; [done|done|]. exists e. split; [done|]. by exists e'.
Qed.

(** C8.  Two-phase commit.  Over any two storages that meet [StorageLaws], start
    from a cache at rest over the chain [c] whose staging storage can be set to
    any height, and write elements [es] with the heights behind a stored block
    at [common] to the staging storage, both storages having room for them in
    their files.  Whether this returns or throws, the storage and the cached
    element are what they were, so no view reads anything new.  When it returns,
    the commit succeeds: the storage holds the chain [c] up to [common] followed
    by [es], the staging storage is empty and can be set to any height, and the
    cache is at rest over the new chain.  It does return when [common] is the
    last block, or when the staging storage can be set back from the height of
    the chain to [common] (which a storage in files without blocks cannot). *)
Theorem two_phase_commit k c common es :
  at_rest k c → settable (m_pStagingStorage k) → updatable k c common es →
  (let '(k1, r) := write_blocks common es k in
   m_pStorage k1 = m_pStorage k ∧ m_pBlockElement k1 = m_pBlockElement k
   ∧ ∀ m, r = Ok m →
       ∃ k2, commit m k1 = (k2, Ok tt) ∧ at_rest k2 (chain_append (chain_drop common c) (reloaded <$> es)) ∧ settable (m_pStagingStorage k2))
  ∧ (common = chain_top c
     ∨ droppable (fst (bs_dropBlocksAfter (chain_top c) (m_pStagingStorage k))) {| chain_start := chain_top c; chain_blocks := [] |} common →
     ∃ m, snd (write_blocks common es k) = Ok m).
Proof.
  intros [Hs Hst Hcoh] Hset Hu. destruct (law_wf _ _ Hs) as (H0 & Htop & _).
  destruct (write_blocks_run k c common es Hs Hst Hset) as (b1 & E1 & Hb1 & Hw). split.
  - destruct (write_blocks common es k) as [k1 r] eqn:E.
    assert (∃ b, k1 = with_staging b k) as [b ->].
    { destruct (bs_dropBlocksAfter common b1) as [b2 [[]|]]; injection Hw as -> _; by eexists. }
    split_and!; [done|done|]. intros m ->. destruct (write_blocks_ok _ _ _ _ _ _ Hs Hst Hset Hu E) as (-> & b' & Hk & Hb').
    rewrite Hk. destruct Hu as [Hcommon Hes Hmax [_ Hroom]]. apply commit_run; try done. by rewrite length_fmap.
  - intros Hback. rewrite E1 in Hback. cbn [fst] in Hback. pose proof (upd_common _ _ _ _ Hu) as Hcommon.
    assert (droppable b1 {| chain_start := chain_top c; chain_blocks := [] |} common) as Hd.
    { destruct Hback as [->|]; [|done]. apply law_droppable; [done|lia|]. right. unfold chain_top, top. simpl. lia. }
    destruct (law_dropBlocksAfter _ _ common Hb1 ltac:(unfold in_range; lia) Hd) as (b2 & E2 & _). rewrite Hw, E2.
    destruct (staged_run k c common es b1 b2 Hs Hu E1 Hb1 E2) as (b3 & -> & _). by eexists.
Qed.

End cache.

(** * The first stored height *)

Lemma block_at_inside c h : chain_start c < h ≤ chain_top c → ∃ e, block_at c h = Some e.
Proof.
  intros Hh. unfold block_at, chain_top, top in *. rewrite (proj2 (Z.ltb_lt _ _)) by lia. apply lookup_lt_is_Some_2. lia.
Qed.

Section start.
Context {St : Type} `{!BlockStorage St} (s : St) (c : Chain).
Context (Hstart : 0 ≤ chain_start c) (Hmax : chain_top c < 2 ^ 64).
Context (Hheight : bs_chainHeight s = (s, Ok (chain_top c))).
Context (Hload : ∀ h, chain_start c < h ≤ chain_top c → ∃ b, bs_loadBlock h s = (s, Ok b)).

(** The loop passes the stored heights. *)
Lemma find_start_stored n fuel :
  chain_start c + 1 + Z.of_nat n ≤ chain_top c → (n < fuel)%nat →
  find_start fuel (chain_start c + 1 + Z.of_nat n) s = find_start (fuel - n) (chain_start c + 1) s.
Proof.
  revert fuel. induction n as [|n IH]; intros fuel Htop Hf.
  { by rewrite Z.add_0_r, Nat.sub_0_r. }
  destruct fuel as [|fuel]; [lia|]. destruct (Hload (chain_start c + 1 + Z.of_nat n)) as [b Hb]; [lia|].
  cbn [find_start]. rewrite (proj2 (Z.eqb_neq _ _)) by lia.
  replace (sub64 (chain_start c + 1 + Z.of_nat (S n)) 1) with (chain_start c + 1 + Z.of_nat n)
    by (unfold sub64; rewrite wrap_small by (unfold in_range; lia); lia).
  erewrite run_bind by (unfold try_loadBlock; by rewrite Hb). cbv beta iota. by rewrite IH by lia.
Qed.

(** What is found: the first stored height when that is the first of all or its
    predecessor is missing as a file is; any other error ends the search. *)
Lemma FindStartHeight_run :
  chain_blocks c ≠ [] →
  FindStartHeight s
  = if chain_start c =? 0 then (s, Ok 1)
    else match bs_loadBlock (chain_start c) s with
         | (s', Throw file_io_error) => (s', Ok (chain_start c + 1))
         | (s', Throw e) => (s', Throw e)
         | (s', Ok _) => find_start (S (Z.to_nat (chain_start c))) (chain_start c) s'
         end.
Proof.
  intros Hne. assert (0 < length (chain_blocks c))%nat by (destruct (chain_blocks c); simpl; [done|lia]).
  destruct (Hload (chain_top c)) as [b Hb]; [unfold chain_top, top in *; lia|].
  unfold FindStartHeight. rewrite (run_bind _ _ _ _ _ Hheight), (run_bind _ _ _ _ _ Hb).
  set (n := (length (chain_blocks c) - 1)%nat).
  assert (chain_top c = chain_start c + 1 + Z.of_nat n) as Ht by (unfold n, chain_top, top; lia).
  pose proof (find_start_stored n (S (Z.to_nat (chain_top c)))) as Hf. rewrite <-Ht in Hf. rewrite Hf by lia.
  replace (S (Z.to_nat (chain_top c)) - n)%nat with (S (S (Z.to_nat (chain_start c)))) by lia. cbn [find_start].
  destruct (Z.eqb_spec (chain_start c + 1) 1), (Z.eqb_spec (chain_start c) 0); try lia.
  { replace (chain_start c + 1) with 1 by lia. done. }
  replace (sub64 (chain_start c + 1) 1) with (chain_start c) by (unfold sub64; rewrite wrap_small by (unfold in_range; lia); lia).
  unfold mbind, exec_bind, try_loadBlock. destruct (bs_loadBlock (chain_start c) s) as [s' [b'|[]]]; done.
Qed.

End start.

(** * The storage in memory *)

Lemma copy_transactions_run l :
  copy_transactions (te_Transaction <$> l) l
  = Ok ((λ t, {| te_Transaction := te_Transaction t; te_EntityHash := te_EntityHash t;
                 te_MerkleComponentHash := te_MerkleComponentHash t; te_OptionalExtractedAddresses := None |}) <$> l).
Proof. induction l as [|t l IH]; [done|]. rewrite !fmap_cons. cbn [copy_transactions]. by rewrite IH. Qed.

Lemma Copy_run e : wf_BlockElement e → Copy (CopyBlock (be_Block e)) e = Ok (reloaded e).
Proof.
  intros He. unfold CopyBlock. rewrite take_sized by apply He. unfold Copy. rewrite (wf_block_transactions _ He).
  cbn [mbind result_bind]. by rewrite copy_transactions_run.
Qed.

(** The maps hold what belongs to the chain; other heights may hold anything. *)
Definition memory_represents (m : MemoryBlockStorage) (c : Chain) : Prop :=
  m_height m = chain_top c ∧ wf_Chain c
  ∧ ∀ h e, block_at c h = Some e →
      m_blocks m !! h = Some (be_Block e) ∧ m_blockElements m !! h = Some (set_OptionalStatement None e)
      ∧ m_blockStatements m !! h = Some (be_OptionalStatement e).

Lemma block_at_canonical c h e : wf_Chain c → block_at c h = Some e → canonical e.
Proof. intros (_ & _ & Hc & _) He. unfold block_at in He. case_match; [|done]. by eapply Forall_lookup_1. Qed.

Lemma block_at_append c e h e' :
  block_at (chain_append c [e]) h = Some e' → block_at c h = Some e' ∨ (h = chain_top c + 1 ∧ e' = e).
Proof.
  unfold block_at, chain_append, chain_top, top. simpl. destruct (Z.ltb_spec (chain_start c) h); [|done].
  intros [?|[Hge Hi]]%lookup_app_Some; [by left|]. apply list_lookup_singleton_Some in Hi as [Hi ->]. right. split; [lia|done].
Qed.

Lemma wf_Chain_append c e :
  wf_Chain c → writable e → be_Height e = chain_top c + 1 → chain_top c + 1 < 2 ^ 64 → wf_Chain (chain_append c [reloaded e]).
Proof.
  intros (H0 & H1 & H2 & H3) Hw Hh Hmax. split_and!; [done|by rewrite chain_top_append| |].
  - apply Forall_app. split; [done|]. constructor; [by apply reloaded_canonical|done].
  - intros h e' [He|[-> ->]]%block_at_append; [by apply H3|done].
Qed.

Lemma block_at_drop c h h' e : block_at (chain_drop h c) h' = Some e → block_at c h' = Some e ∧ h' ≤ h.
Proof.
  unfold block_at, chain_drop. destruct ((chain_start c <=? h) && (h <=? chain_top c)) eqn:Hc; simpl.
  - apply andb_true_iff in Hc as [?%Z.leb_le ?%Z.leb_le]. destruct (Z.ltb_spec (chain_start c) h'); [|done].
    intros [He Hlt]%lookup_take_Some. split; [done|lia].
  - by destruct (_ <? _).
Qed.

Lemma wf_Chain_drop c h : wf_Chain c → in_range 64 h → wf_Chain (chain_drop h c).
Proof.
  intros Hwf Hh. pose proof Hwf as (H0 & H1 & H2 & H3). unfold in_range in Hh. split_and!.
  - unfold chain_drop. destruct (_ && _); simpl; lia.
  - unfold chain_drop, chain_top, top in *. destruct (_ && _); simpl; rewrite ?length_take; lia.
  - unfold chain_drop. destruct (_ && _); simpl; [by apply Forall_take|done].
  - intros h' e [He _]%block_at_drop. by apply H3.
Qed.

Lemma memory_save m c e :
  memory_represents m c → writable e → be_Height e = chain_top c + 1 → chain_top c + 1 < 2 ^ 64 →
  ∃ m', memory_saveBlock e m = (m', Ok tt) ∧ memory_represents m' (chain_append c [reloaded e]).
Proof.
  intros (Hh & Hwf & Hall) Hw He Hmax. pose proof Hwf as (H0 & _). assert (0 ≤ chain_top c) by (unfold chain_top, top; lia).
  eexists. split.
  - unfold memory_saveBlock. erewrite run_bind by done. rewrite Hh, add64_small by (unfold in_range; lia).
    rewrite (proj2 (Z.eqb_eq _ _)) by done. cbn [negb]. erewrite run_bind by done.
    rewrite (Copy_run e) by apply Hw. by erewrite run_bind by done.
  - split_and!; simpl; [rewrite chain_top_append; simpl; lia|by apply wf_Chain_append|].
    intros h e' [Hb|[-> ->]]%block_at_append.
    + pose proof (block_at_range _ _ _ Hb). rewrite !lookup_insert_ne by lia. by apply Hall.
    + rewrite <-He, !lookup_insert_eq. split_and!; [|done|done]. f_equal. apply take_sized, Hw.
Qed.

Lemma memory_require m c h e : memory_represents m c → block_at c h = Some e → memory_requireHeight h m = (m, Ok tt).
Proof.
  intros (Hh & _) He. apply block_at_range in He. unfold memory_requireHeight. erewrite run_bind by done.
  by rewrite Hh, (proj2 (Z.leb_le _ _)) by lia.
Qed.

Lemma memory_drop m c h :
  memory_represents m c → in_range 64 h →
  ∃ m', memory_dropBlocksAfter h m = (m', Ok tt) ∧ memory_represents m' (chain_drop h c).
Proof.
  intros (Hh & Hwf & Hall) Hr. eexists. split; [done|]. pose proof Hwf as (H0 & H1 & _). split_and!; simpl; [|by apply wf_Chain_drop|].
  - unfold chain_drop. destruct ((chain_start c <=? h) && (h <=? chain_top c)) eqn:Hc; unfold chain_top, top in *; simpl; [|lia].
    apply andb_true_iff in Hc as [?%Z.leb_le ?%Z.leb_le]. rewrite length_take. lia.
  - intros h' e [He _]%block_at_drop. by apply Hall.
Qed.

#[export] Program Instance Memory_StorageLaws : StorageLaws MemoryBlockStorage := {
  represents := memory_represents;
  accepts _ _ := True;
  droppable _ _ _ := True;
}.
Next Obligation. by intros s c (_ & Hwf & _). Qed.
Next Obligation. intros s c (Hh & _). simpl. unfold gets. by rewrite Hh. Qed.
Next Obligation.
  intros s c h e Hs He. pose proof Hs as (_ & Hwf & Hall). destruct (Hall h e He) as (Hb & _). simpl.
  unfold memory_loadBlock. rewrite (run_bind _ _ _ _ _ (memory_require _ _ _ _ Hs He)). erewrite run_bind by done. rewrite Hb.
  destruct (block_at_canonical _ _ _ Hwf He) as [[Hw _] _]. unfold CopyBlock. by rewrite take_sized by apply Hw.
Qed.
Next Obligation.
  intros s c h e Hs He. pose proof Hs as (_ & Hwf & Hall). destruct (Hall h e He) as (_ & Hb & _). simpl.
  destruct (block_at_canonical _ _ _ Hwf He) as [[Hw _] Hr]. exists (set_OptionalStatement None e).
  split; [|split; [by destruct e|by left]]. unfold memory_loadBlockElement.
  rewrite (run_bind _ _ _ _ _ (memory_require _ _ _ _ Hs He)). erewrite run_bind by done. rewrite Hb.
  rewrite Copy_run by (destruct Hw; by constructor). unfold lift_result. do 2 f_equal.
  rewrite <-Hr at 2. by destruct e.
Qed.
Next Obligation.
  intros s c h e Hs He. pose proof Hs as (_ & Hwf & Hall). destruct (Hall h e He) as (_ & _ & Hb). simpl.
  destruct (block_at_canonical _ _ _ Hwf He) as [[_ Hw] _]. unfold memory_loadBlockStatementData.
  rewrite (run_bind _ _ _ _ _ (memory_require _ _ _ _ Hs He)). erewrite run_bind by done. rewrite Hb.
  destruct (be_OptionalStatement e) as [st|]; [|done]. simpl.
  destruct (writable_statement st Hw) as (buffers & Hwr & Hcat & _). rewrite (Hwr []). simpl. by rewrite Hcat.
Qed.
Next Obligation. intros s c e Hs Hw Hh Hmax _. by apply memory_save. Qed.
Next Obligation.
  intros s c e (Hh & Hwf & _) Hne Hmax. simpl. pose proof Hwf as (H0 & _). unfold memory_saveBlock. erewrite run_bind by done.
  rewrite Hh, add64_small by (unfold in_range, chain_top, top in *; lia). by rewrite (proj2 (Z.eqb_neq _ _)) by done.
Qed.
Next Obligation. intros s c h Hs Hr _. by apply memory_drop. Qed.
Next Obligation. done. Qed.
Next Obligation.
  intros s s' c h Hs Hh Hrun. destruct (memory_drop s c h Hs) as (s1 & E & Hs1).
  { destruct Hs as (_ & (_ & Hmax & _) & _). unfold in_range. lia. }
  simpl in Hrun. rewrite E in Hrun. by injection Hrun as <-.
Qed.

#[export] Instance Memory_PrunableLaws : PrunableLaws MemoryBlockStorage.
Proof.
  constructor. intros s c _. eexists. split; [done|]. split; [|done]. split_and!; [done| |].
  - split_and!; try done. intros h e He. unfold block_at in He. simpl in He. by destruct (_ <? _).
  - intros h e He. unfold block_at in He. simpl in He. by destruct (_ <? _).
Qed.

(** * The storage that notifies *)

(** What a subscriber makes of a notification. *)
Definition chain_change (c : Chain) (change : BlockChange) : Chain :=
  match change with
  | notifyBlock e => chain_append c [reloaded e]
  | notifyDropBlocksAfter h => chain_drop h c
  end.

Section aggregate.
Context {St : Type} `{!BlockStorage St, !StorageLaws St} (c0 : Chain).

Lemma on_aggregate_run {X} (m : Exec St X) a r : m (agg_pStorage a) = (agg_pStorage a, r) → on_aggregate m a = (a, r).
Proof. intros Hm. unfold on_aggregate. rewrite Hm. by destruct a. Qed.

(** The subscriber can follow the chain from [c0] on. *)
Definition aggregate_represents (a : Aggregate St) (c : Chain) : Prop :=
  represents (agg_pStorage a) c ∧ foldl chain_change c0 (agg_notified a) = c.

Lemma aggregate_change (m : Exec St unit) change a c s' :
  aggregate_represents a c → m (agg_pStorage a) = (s', Ok tt) → represents s' (chain_change c change) →
  ∃ a', (on_aggregate m ≫= λ _, notify change) a = (a', Ok tt) ∧ aggregate_represents a' (chain_change c change).
Proof.
  intros [Ha Hc] E Hs'. eexists. split; [by erewrite run_bind by (unfold on_aggregate; by rewrite E)|].
  split; [done|]. simpl. by rewrite foldl_app, Hc.
Qed.

#[local] Program Instance Aggregate_StorageLaws : StorageLaws (Aggregate St) := {
  represents := aggregate_represents;
  accepts a e := accepts (agg_pStorage a) e;
  droppable a c h := droppable (agg_pStorage a) c h;
}.
Next Obligation. intros a c [Ha _]. by eapply law_wf. Qed.
Next Obligation. intros a c [Ha _]. by apply on_aggregate_run, law_chainHeight. Qed.
Next Obligation. intros a c h e [Ha _] He. by apply on_aggregate_run, (law_loadBlock _ c). Qed.
Next Obligation.
  intros a c h e [Ha _] He. destruct (law_loadBlockElement _ c h e Ha He) as (e' & E & H). exists e'. split; [by apply on_aggregate_run|done].
Qed.
Next Obligation. intros a c h e [Ha _] He. by apply on_aggregate_run, (law_loadBlockStatementData _ c). Qed.
Next Obligation.
  intros a c e Ha Hw Hh Hmax Hacc. destruct (law_saveBlock _ c e (proj1 Ha) Hw Hh Hmax Hacc) as (s' & E & Hs').
  by apply (aggregate_change _ (notifyBlock e) a c s').
Qed.
Next Obligation.
  intros a c e [Ha _] Hne Hmax. apply run_throw, on_aggregate_run. by apply (law_saveBlock_height _ c).
Qed.
Next Obligation.
  intros a c h Ha Hr Hd. destruct (law_dropBlocksAfter _ c h (proj1 Ha) Hr Hd) as (s' & E & Hs').
  by apply (aggregate_change _ (notifyDropBlocksAfter h) a c s').
Qed.
Next Obligation. intros a c h [Ha _]. by apply law_droppable. Qed.
Next Obligation.
  intros a a' c h Ha Hh Hrun. simpl in Hrun. unfold mbind, exec_bind, on_aggregate in Hrun.
  destruct (bs_dropBlocksAfter h (agg_pStorage a)) as [s' [[]|]] eqn:E; [|done].
  pose proof (law_dropped _ _ _ _ (proj1 Ha) Hh E) as Hs'.
  destruct (aggregate_change _ (notifyDropBlocksAfter h) a c s' Ha E Hs') as (a1 & E1 & Ha1).
  unfold mbind, exec_bind, on_aggregate in E1. rewrite E in E1. rewrite E1 in Hrun. by injection Hrun as <-.
Qed.

End aggregate.

(** * The storage in files *)

Section file.
Import FileSystem FileBlockStorage BlockStorageCrash BlockStorageRefinement BlockStorageSpec ChainStorage.
Context (env : Environment) (mode : FileBlockStorageMode) (Hlock : lock_held env = false).

#[local] Instance File_BlockStorage : BlockStorage Storage := {
  bs_chainHeight := chainHeight;
  bs_loadHashesFrom := loadHashesFrom;
  bs_saveBlock := saveBlock;
  bs_dropBlocksAfter := dropBlocksAfter env;
  bs_loadBlock h := on_disk (loadBlock h);
  bs_loadBlockElement h := on_disk (loadBlockElement h);
  bs_loadBlockStatementData h := on_disk (loadBlockStatementData h);
}.

#[local] Instance File_PrunableBlockStorage : PrunableBlockStorage Storage := purge env.

Definition file_represents (st : Storage) (c : Chain) : Prop :=
  wf_Chain c ∧ ∃ bs, holds_chain mode st {| chain_start := chain_start c; chain_blocks := bs |} ∧ chain_blocks c = reloaded <$> bs.

(** The heights the storage can drop to: nothing, the height of its last block,
    the height of one of its blocks, or any height while it is empty. *)
Definition file_droppable (st : Storage) (c : Chain) (h : Z) : Prop :=
  permitted mode st c (DropBlocksAfter h)
  ∧ (h = 0 ∨ chain_top c = 0 ∨ chain_top c = h ∨ chain_start c < h < chain_top c).

Lemma file_serves st c :
  file_represents st c →
  chainHeight st = (st, Ok (chain_top c))
  ∧ ∀ h e, block_at c h = Some e → ∃ e0, reloaded e0 = e
      ∧ loadBlock h (disk st) = (disk st, Ok (be_Block e)) ∧ loadBlockElement h (disk st) = (disk st, Ok e)
      ∧ loadBlockStatementData h (disk st) = (disk st, Ok (statement_bytes <$> be_OptionalStatement e)).
Proof.
  intros (_ & bs & Hc & Hbs). destruct (holds_chain_serves _ _ _ Hc) as (H1 & H2 & _).
  assert (chain_top {| chain_start := chain_start c; chain_blocks := bs |} = chain_top c) as Htop.
  { unfold chain_top, top. cbn. by rewrite Hbs, length_fmap. }
  rewrite Htop in *. split; [done|]. intros h e He. pose proof (block_at_range _ _ _ He) as Hr.
  unfold block_at in He. rewrite (proj2 (Z.ltb_lt _ _)), Hbs in He by lia.
  apply list_lookup_fmap_Some in He as (e0 & -> & He). destruct (H2 h Hr) as (e1 & He1 & L1 & L2 & L3). simpl in He1.
  simplify_eq. by exists e0.
Qed.

Lemma on_disk_run {X} (m : IO X) st r : m (disk st) = (disk st, r) → on_disk m st = (st, r).
Proof. intros Hm. unfold on_disk. rewrite Hm. by destruct st. Qed.

Lemma fmap_snoc_reloaded bs e : reloaded <$> (bs ++ [e]) = (reloaded <$> bs) ++ [reloaded e].
Proof. by rewrite fmap_app. Qed.

Lemma file_save st c e :
  file_represents st c → writable e → be_Height e = chain_top c + 1 → chain_top c + 1 < 2 ^ 64 →
  has_space (stored_in st) (be_Height e) e →
  ∃ st', saveBlock e st = (st', Ok tt) ∧ file_represents st' (chain_append c [reloaded e]).
Proof.
  intros (Hwf & bs & Hc & Hbs) Hw Hh Hmax Hsp. pose proof Hwf as (H0 & _).
  set (cf := {| chain_start := chain_start c; chain_blocks := bs |}) in *.
  assert (chain_top cf = chain_top c) as Htop by (unfold chain_top, top; cbn; by rewrite Hbs, length_fmap).
  assert (permitted mode st cf (SaveBlock e)) as Hp.
  { split; [unfold in_range, chain_top, top in *; lia|]. by rewrite Htop. }
  destruct (wp_end _ _ _ _ (wp_save_step env mode e cf st Hc Hp)) as [[Hr Hc'] _].
  unfold chain_next in Hc'. simpl in Hr, Hc'. rewrite Htop, (proj2 (Z.eqb_eq _ _)) in Hr, Hc' by done.
  destruct (saveBlock e st) as [st' r] eqn:E. simpl in *. exists st'. split; [by rewrite Hr|].
  split; [by apply wf_Chain_append|]. exists (bs ++ [e]). split; [done|]. by rewrite fmap_snoc_reloaded, <-Hbs.
Qed.

Lemma file_drop st c h :
  file_represents st c → in_range 64 h → file_droppable st c h →
  ∃ st', dropBlocksAfter env h st = (st', Ok tt) ∧ file_represents st' (chain_drop h c).
Proof.
  intros (Hwf & bs & Hc & Hbs) Hrange [Hp Hcase]. pose proof Hwf as (H0 & _).
  set (cf := {| chain_start := chain_start c; chain_blocks := bs |}) in *.
  assert (chain_top cf = chain_top c) as Htop by (unfold chain_top, top; cbn; by rewrite Hbs, length_fmap).
  assert (permitted mode st cf (DropBlocksAfter h)) as Hp' by (unfold permitted in *; by rewrite Htop).
  assert (blocked cf (DropBlocksAfter h) = false) as Hfree.
  { simpl. rewrite Htop. unfold in_range in Hrange.
    destruct (Z.ltb_spec 0 h), (Z.leb_spec h (chain_start c)), (Z.ltb_spec h (chain_top c)); cbn [andb]; try done. lia. }
  destruct (wp_end _ _ _ _ (wp_drop_step env mode Hlock h cf st Hc Hp' Hfree)) as [[Hr Hc'] _].
  assert (∃ c', chain_step (DropBlocksAfter h) cf = Ok c' ∧ chain_start c' = chain_start (chain_drop h c)
    ∧ chain_blocks (chain_drop h c) = reloaded <$> chain_blocks c') as (c' & Hstep & Hs & Hb).
  { simpl. rewrite Htop. unfold in_range in Hrange. destruct (Z.eqb_spec h 0) as [->|Hnz].
    { eexists. split; [done|]. unfold chain_drop. destruct ((chain_start c <=? 0) && (0 <=? chain_top c)) eqn:Hb; simpl; [|done].
      apply andb_true_iff in Hb as [?%Z.leb_le ?%Z.leb_le]. replace (Z.to_nat (0 - chain_start c)) with 0%nat by lia.
      split; [lia|done]. }
    destruct (Z.eqb_spec (chain_top c) 0) as [Hz|Hz].
    { eexists. split; [done|]. unfold chain_drop. rewrite Hz. rewrite andb_comm, (proj2 (Z.leb_gt _ _)) by lia. done. }
    destruct (Z.leb_spec (chain_top c) h) as [Hle|Hlt].
    { assert (h = chain_top c) as -> by lia. eexists. split; [done|]. by rewrite chain_drop_top. }
    assert (chain_start c < h < chain_top c) as Hin by lia.
    rewrite (proj2 (Z.ltb_lt _ _)) by lia. eexists. split; [done|]. unfold chain_drop.
    rewrite (proj2 (Z.leb_le _ _)), (proj2 (Z.leb_le _ _)) by lia. simpl. split; [done|]. by rewrite Hbs, fmap_take. }
  unfold chain_next in Hc'. rewrite Hstep in Hr, Hc'. unfold storage_step in Hr, Hc'.
  destruct (dropBlocksAfter env h st) as [st' r]. cbn [fst snd forget] in Hr, Hc'. exists st'. split; [by rewrite Hr|].
  split; [by apply wf_Chain_drop|]. exists (chain_blocks c'). rewrite <-Hs. split; [by destruct c'|done].
Qed.

Lemma file_drop_inside st c h :
  file_represents st c → 0 < h → chain_start c < h ≤ chain_top c ∨ h = chain_top c → file_droppable st c h.
Proof.
  intros [(H0 & Hmax & _) _] Hh Hin. split; [|lia]. split_and!; [unfold in_range; lia|lia|lia].
Qed.

(** Below the first block a drop throws. *)
Lemma file_drop_below st c h :
  file_represents st c → 0 < h ≤ chain_start c → h < chain_top c → snd (dropBlocksAfter env h st) ≠ Ok tt.
Proof.
  intros (_ & bs & [Hr _] & Hbs) Hh Hlt.
  assert (top (chain_start c) bs = chain_top c) as Htop by (unfold chain_top; rewrite Hbs; unfold top; by rewrite length_fmap).
  destruct (at_boundary h) eqn:Hb.
  - destruct (wp_end _ _ _ _ (wp_drop_stuck mode env Hlock (chain_start c) bs h st Hr Hh ltac:(lia) Hb)) as [[Hres _] _]. by rewrite Hres.
  - destruct (wp_end _ _ _ _ (wp_drop_missing mode env Hlock (chain_start c) bs h st Hr Hh ltac:(lia) Hb)) as [[Hres _] _]. by rewrite Hres.
Qed.

#[local] Program Instance File_StorageLaws : StorageLaws Storage := {
  represents := file_represents;
  accepts st e := has_space (stored_in st) (be_Height e) e;
  droppable := file_droppable;
}.
Next Obligation. by intros s c [Hwf _]. Qed.
Next Obligation. intros s c Hs. apply (file_serves _ _ Hs). Qed.
Next Obligation. intros s c h e Hs He. destruct (file_serves _ _ Hs) as [_ H]. destruct (H h e He) as (e0 & _ & L & _). by apply on_disk_run. Qed.
Next Obligation.
  intros s c h e Hs He. destruct (file_serves _ _ Hs) as [_ H]. destruct (H h e He) as (e0 & _ & _ & L & _). exists e.
  split; [by apply on_disk_run|]. split; [by destruct e|by right].
Qed.
Next Obligation. intros s c h e Hs He. destruct (file_serves _ _ Hs) as [_ H]. destruct (H h e He) as (e0 & _ & _ & _ & L). by apply on_disk_run. Qed.
Next Obligation. intros s c e Hs Hw Hh Hmax Hsp. by apply file_save. Qed.
Next Obligation.
  intros s c e Hs Hne Hmax. pose proof Hs as [(H0 & _) _]. simpl. unfold saveBlock. destruct (file_serves _ _ Hs) as [Hh _].
  rewrite (run_bind _ _ _ _ _ Hh). rewrite add64_small by (unfold in_range, chain_top, top in *; lia).
  by rewrite (proj2 (Z.eqb_neq _ _)) by done.
Qed.
Next Obligation. intros s c h Hs Hr Hd. by apply file_drop. Qed.
Next Obligation. intros s c h Hs Hh Hin. by apply file_drop_inside. Qed.
Next Obligation.
  intros s s' c h Hs Hh Hrun. pose proof (proj1 Hs) as (H0 & Hmax & _).
  destruct (decide (chain_start c < h ∨ h = chain_top c)) as [Hin|Hout].
  - destruct (file_drop s c h Hs) as (s1 & E & Hs1); [unfold in_range; lia|apply file_drop_inside; [done|lia|lia]|].
    simpl in Hrun. rewrite E in Hrun. by injection Hrun as <-.
  - exfalso. apply (file_drop_below s c h Hs); [lia|lia|]. simpl in Hrun. by rewrite Hrun.
Qed.

End file.

End StorageLaws.
