(* ===== verification/StagingStorage.v ===== *)
(** The staging storage of the two-phase commit is a storage in files
    (CreateStagingBlockStorage of local/HostUtils.cpp): what purging it gives,
    which updates it supports, and what the recovery of staged blocks does. *)
From stdpp Require Import base tactics numbers option list gmap strings sets.
From S2P Require Import Prelude Streams BlockElements FileSystem FileBlockStorage BlockStorageCrash.
From S2P Require Import BlockStorageRefinement BlockStorageSpec ChainStorage BlockStorageCache StorageLaws.

Local Open Scope Z_scope.

Module StagingStorage.
Import Stream Elements FileSystem FileBlockStorage BlockStorageCrash BlockStorageRefinement BlockStorageSpec ChainStorage.
Import BlockStorageCache StorageLaws.

#[local] Arguments get_file : simpl never.
#[local] Arguments alter_file : simpl never.

(** * Purging *)

Section purge.
Context (env : Environment) (Horder : ∀ l, directory_order env l ≡ₚ l).

(** Every file is one of the entries that are left. *)
Definition files_in (l : list string) (s : Directory) : Prop :=
  (∀ name, get_file s (RootFile name) ≠ None → name ∈ l) ∧ (∀ d n, get_file s (ChunkFile d n) ≠ None → d ∈ l).

Lemma files_in_alter l p s : files_in l s → files_in l (alter_file (λ _, None) p s).
Proof.
  intros [H1 H2].
  assert (∀ q, get_file (alter_file (λ _, None) p s) q ≠ None → get_file s q ≠ None) as Hq.
  { intros q. destruct (decide (p = q)) as [->|Hne]; [|by rewrite get_file_alter_ne].
    destruct (has_parent s q) eqn:Hp; [by rewrite get_file_alter|]. intros Hn Hs. apply Hn.
    destruct q as [name|d n]; [done|]. unfold get_file, alter_file. simpl in *. apply bool_decide_eq_false in Hp.
    rewrite lookup_alter_eq. by destruct (chunk_directories s !! d); [destruct Hp|]. }
  split; intros; [apply H1|eapply H2]; by apply Hq.
Qed.

Lemma wp_remove_chunk dir l d :
  files_in (dir :: l) (content d) → (∀ name, get_file (content d) (RootFile name) ≠ None → name ∈ l) →
  wp (remove_directory (directory_order env) dir) (λ r d', r = Ok tt ∧ files_in l (content d')) (λ _, True) d.
Proof.
  intros Hl Hroot. unfold remove_directory. apply wp_bind, wp_disk_gets; [done|]. apply wp_bind.
  apply (wp_for_each _ (λ _ d', files_in (dir :: l) (content d') ∧ ∀ name, get_file (content d') (RootFile name) ≠ None → name ∈ l)); [| |done].
  - intros name l' d' [H1 H2]. apply wp_issue_atomic; [done..|]. split; [done|]. split; [by apply files_in_alter|].
    intros n. simpl. rewrite get_file_alter_ne by done. apply H2.
  - intros d' [[_ H1] H2]. split; [done|]. apply wp_issue_atomic; [done..|]. split; [done|]. split; [exact H2|].
    intros dd n Hn. unfold get_file in Hn. simpl in Hn. destruct (decide (dd = dir)) as [->|Hne].
    + by rewrite lookup_delete_eq in Hn.
    + rewrite lookup_delete_ne in Hn by done. specialize (H1 dd n Hn). set_solver.
Qed.

Lemma wp_remove_all name l d :
  files_in (name :: l) (content d) →
  wp (remove_all (directory_order env) name) (λ r d', r = Ok tt ∧ files_in l (content d')) (λ _, True) d.
Proof.
  intros Hl. unfold remove_all. apply wp_bind, wp_disk_gets; [done|]. apply wp_bind.
  set (Q := λ (r : result unit) (d' : Disk), match r with Ok _ => _ | Throw _ => _ end).
  assert (∀ d1, files_in (name :: l) (content d1) → get_file (content d1) (RootFile name) = None → Q (Ok tt) d1) as Hrest.
  { intros d1 Hl1 Hnone. unfold Q. apply wp_bind, wp_disk_gets; [done|].
    assert (∀ n, get_file (content d1) (RootFile n) ≠ None → n ∈ l) as Hroot.
    { intros n Hn. pose proof (proj1 Hl1 n Hn). assert (n ≠ name) by congruence. set_solver. }
    case_bool_decide as Hd; [by apply wp_remove_chunk|]. apply wp_ret; [done|]. split; [done|]. split; [done|].
    intros dd n Hn. pose proof (proj2 Hl1 dd n Hn). assert (dd ≠ name); [|set_solver]. intros ->. apply Hd.
    unfold get_file in Hn. by destruct (chunk_directories (content d1) !! name). }
  unfold is_regular_file. case_bool_decide as Hf.
  - apply wp_issue_atomic; [done..|]. apply Hrest; simpl; [by apply files_in_alter|by rewrite get_file_alter].
  - apply wp_ret; [done|]. apply Hrest; [done|]. by apply eq_None_not_Some.
Qed.

(** Nothing is left. *)
Lemma wp_PurgeDirectory d :
  wp (PurgeDirectory (directory_order env)) (λ r d', r = Ok tt ∧ ∀ p, get_file (content d') p = None) (λ _, True) d.
Proof.
  unfold PurgeDirectory. apply wp_bind, wp_disk_gets; [done|].
  apply (wp_for_each _ (λ l d', files_in l (content d'))).
  - intros name l d' Hl. by apply wp_remove_all.
  - intros d' [H1 H2]. split; [done|]. split; [done|]. intros p. destruct (get_file (content d') p) eqn:Hg; [exfalso|done].
    destruct p as [name|dir name]; [specialize (H1 name ltac:(congruence))|specialize (H2 dir name ltac:(congruence))]; set_solver.
  - split.
    + intros name Hn. rewrite Horder. apply elem_of_app. left. apply list_elem_of_fmap. unfold get_file in Hn.
      destruct (root_files (content d) !! name) as [c|] eqn:Hc; [|done]. exists (name, c). split; [done|]. by apply elem_of_map_to_list.
    + intros dir n Hn. rewrite Horder. apply elem_of_app. right. apply list_elem_of_fmap. unfold get_file in Hn.
      destruct (chunk_directories (content d) !! dir) as [c|] eqn:Hc; [|done]. exists (dir, c). split; [done|]. by apply elem_of_map_to_list.
Qed.

Lemma empty_repr mode s : (∀ p, get_file s p = None) → repr mode s 0 [].
Proof.
  intros Hs. constructor; try done; simpl; try (intros; lia).
  - unfold chain_height. by rewrite Hs.
  - unfold index_ok. rewrite Hs. simpl. lia.
Qed.

Lemma empty_entry_size s h : (∀ p, get_file s p = None) → entry_size s h = 0.
Proof. intros Hs. unfold entry_size. rewrite Hs. unfold field. simpl. by rewrite drop_nil. Qed.

(** A purged storage is empty, and can be set to any height. *)
Lemma purge_run st :
  m_mode st = Mode_None →
  ∃ st', purge env st = (st', Ok tt) ∧ holds_chain Mode_None st' {| chain_start := 0; chain_blocks := [] |}
    ∧ ∀ p, get_file (stored_in st') p = None.
Proof.
  intros Hm.
  assert (wp (purge env) (λ r st', r = Ok tt ∧ holds_chain Mode_None st' {| chain_start := 0; chain_blocks := [] |}
    ∧ ∀ p, get_file (stored_in st') p = None) (λ _, True) st) as Hwp.
  { unfold purge. apply wp_bind, wp_modify; [done|done|]. apply wp_bind, wp_modify; [done|done|]. apply wp_on_disk.
    eapply wp_mono; [apply wp_PurgeDirectory| |done]. intros r d [-> Hd] _. split_and!; [done| |done].
    split; [|done]. apply closed_ready; try done. by apply empty_repr. }
  apply wp_end in Hwp as [(Hr & Hc & Hp) _]. destruct (purge env st) as [st' r]. simpl in *. subst. by exists st'.
Qed.

End purge.

Lemma wf_Chain_empty h : 0 ≤ h < 2 ^ 64 → wf_Chain {| chain_start := h; chain_blocks := [] |}.
Proof.
  intros Hh. split_and!; [simpl; lia|unfold chain_top, top; simpl; lia|done|].
  intros h' e He. unfold block_at in He. simpl in He. by destruct (_ <? _).
Qed.

Section staging.
Context (env : Environment) (Hlock : lock_held env = false) (Horder : ∀ l, directory_order env l ≡ₚ l).

#[local] Instance Staging_BlockStorage : BlockStorage Storage := File_BlockStorage env.
#[local] Instance Staging_PrunableBlockStorage : PrunableBlockStorage Storage := File_PrunableBlockStorage env.
#[local] Instance Staging_Laws : StorageLaws Storage := File_StorageLaws env Mode_None Hlock.

(** A purged staging storage can be set to every height, and stays there. *)
Lemma empty_droppable st h :
  in_range 64 h → (∀ p, get_file (stored_in st) p = None) →
  file_droppable Mode_None st {| chain_start := 0; chain_blocks := [] |} h.
Proof.
  intros Hh Hs. split; [|by right; left]. split_and!; [done|done|].
  intros _ _. split; [|done]. intros h' _. by rewrite empty_entry_size.
Qed.

#[local] Instance Staging_PrunableLaws : PrunableLaws Storage.
Proof.
  constructor. intros st c (_ & bs & [Hr _] & _). destruct (purge_run env Horder st (ready_mode _ _ _ _ Hr)) as (st' & H1 & H2 & H3).
  exists st'. split_and!; [done| |intros h Hh; by apply empty_droppable]. split; [by apply wf_Chain_empty|]. by exists [].
Qed.

(** Of the heights below the one it was set to, none can be dropped to. *)
Lemma staged_drop_fails st c h :
  file_represents Mode_None st c → 0 < h ≤ chain_start c → h < chain_top c → at_boundary h = false →
  snd (dropBlocksAfter env h st) = Throw invalid_argument.
Proof.
  intros (_ & bs & [Hr _] & Hbs) Hh Hlt Hb.
  assert (top (chain_start c) bs = chain_top c) as Htop by (unfold chain_top; rewrite Hbs; unfold top; by rewrite length_fmap).
  destruct (wp_end _ _ _ _ (wp_drop_missing Mode_None env Hlock (chain_start c) bs h st Hr Hh ltac:(lia) Hb)) as [[Hres _] _]. done.
Qed.

(** ** Recovery of staged blocks *)

Lemma load_missing st start bs h :
  repr Mode_None (stored_in st) start bs → 0 < h ≤ start →
  get_file (stored_in st) (GetBlockPath h Block_File_Extension) = None →
  bs_loadBlock h st = (st, Throw runtime_error).
Proof.
  intros Hrepr Hh Hleg.
  assert (loadBlock h (disk st) = (disk st, Throw runtime_error)) as Hload; [|simpl; by apply on_disk_run].
  unfold loadBlock. pose proof (requireHeight_run h (disk st)) as Hreq. change (content (disk st)) with (stored_in st) in Hreq.
  rewrite (repr_height _ _ _ _ Hrepr), (proj2 (Z.leb_le _ _)) in Hreq by lia. rewrite (run_bind _ _ _ _ _ Hreq).
  unfold disk_gets. erewrite run_bind by done. cbv beta. change (content (disk st)) with (stored_in st).
  rewrite (no_entry_below _ _ _ _ _ Hrepr Hh). unfold load_legacy_block, disk_gets. erewrite run_bind by done. cbv beta.
  change (content (disk st)) with (stored_in st). by rewrite is_regular_file_false.
Qed.

(** Blocks that were staged before a crash are not recovered.  Let the
    directory of the staging storage hold the blocks of an update that follow a
    height greater than zero, as after the first step of commitAll.  The
    recovery looks for the first of them by loading blocks downwards until a
    file is missing; the storage reports the missing block as [runtime_error],
    which the search does not catch, so that the recovery fails with it, and
    moves nothing. *)
Theorem staged_recovery_fails {A} `{!BlockStorage A} st start bs (a : A) :
  repr Mode_None (stored_in st) start bs → Forall writable bs → bs ≠ [] → 0 < start →
  get_file (stored_in st) (GetBlockPath start Block_File_Extension) = None →
  recover_staged (st, a) = ((st, a), Throw runtime_error).
Proof.
  intros Hr Hw Hne Hstart Hleg. destruct (repr_range _ _ _ _ Hr) as [H0 Hmax].
  destruct (repr_serves _ _ _ _ Hr Hw) as (Hheight & Hload & _). set (c := {| chain_start := start; chain_blocks := bs |}) in *.
  assert (bs_chainHeight st = (st, Ok (chain_top c))) as Hht by exact Hheight.
  assert (FindStartHeight st = (st, Throw runtime_error)) as Hfind.
  { rewrite (FindStartHeight_run st c H0 Hmax Hht); [|  |done].
    - rewrite (proj2 (Z.eqb_neq _ _)) by (simpl; lia). change (chain_start c) with start.
      by rewrite (load_missing st start bs start Hr ltac:(lia) Hleg).
    - intros h Hh. destruct (Hload h Hh) as (e & _ & L & _). exists (be_Block e). by apply on_disk_run. }
  assert (chain_top c ≠ 0) by (unfold chain_top, top; simpl; lia).
  unfold recover_staged. erewrite run_bind by (unfold on_source; cbn [fst]; by rewrite Hht).
  cbv beta. rewrite (proj2 (Z.eqb_neq _ _)) by lia. apply run_throw. unfold on_source. cbn [fst]. by rewrite Hfind.
Qed.

(** A staging storage can be blocked for good.  When the height to drop to is
    the last of a chunk and no block of the storage is there, the journal is
    written before the missing block is noticed: the call fails with
    [file_io_error], and so does every later attempt to open the storage, however
    often it is interrupted. *)
Theorem staging_blocked_at_chunk_end st c h :
  file_represents Mode_None st c → 0 < h ≤ chain_start c → h < chain_top c → at_boundary h = true →
  snd (dropBlocksAfter env h st) = Throw file_io_error
  ∧ ∀ s, failed_starts Mode_None env (stored_in (fst (dropBlocksAfter env h st))) s →
      snd (new_FileBlockStorage env s Mode_None) = Throw file_io_error.
Proof.
  intros (_ & bs & [Hr _] & Hbs) Hh Hlt Hb.
  assert (top (chain_start c) bs = chain_top c) as Htop by (unfold chain_top; rewrite Hbs; unfold top; by rewrite length_fmap).
  destruct (wp_end _ _ _ _ (wp_drop_stuck Mode_None env Hlock (chain_start c) bs h st Hr Hh ltac:(lia) Hb)) as [[Hres Hst] _].
  split; [done|]. intros s Hf.
  assert (∀ s s', failed_starts Mode_None env s s' → stuck s → stuck s') as Hinv.
  { clear -Hlock. intros s s' Hf. induction Hf as [s|s1 s2 s3 Hi Hf IH]; intros Hs; [done|]. apply IH.
    eapply (wp_interrupted _ (λ _ _, True)); [|exact Hi]. apply wp_on_disk. by eapply wp_mono; [apply (wp_open_stuck env Hlock)|..]. }
  destruct (wp_end _ _ _ _ (wp_open_stuck env Hlock {| content := s; log := [] |} (Hinv _ _ Hf Hst))) as [[Hopen _] _].
  unfold new_FileBlockStorage, on_disk. simpl. destruct (recoverUnfinishedRollback env _) as [d r]. simpl in *. done.
Qed.

(** ** Updates of a cache *)

Section update.
Context {A : Type} `{!BlockStorage A, !StorageLaws A}.
Implicit Types (k : Cache A Storage).

Lemma modifier_run k c :
  represents (m_pStorage k) c → (∀ p, get_file (stored_in (m_pStagingStorage k)) p = None) →
  represents (m_pStagingStorage k) {| chain_start := 0; chain_blocks := [] |} →
  ∃ b, modifier k = ({| m_pStorage := m_pStorage k; m_pStagingStorage := b; m_pBlockElement := m_pBlockElement k |},
                     Ok {| m_saveStartHeight := chain_top c |})
    ∧ represents b {| chain_start := chain_top c; chain_blocks := [] |}.
Proof.
  intros Hs Hempty Hst. destruct (law_wf _ _ Hs) as (H0 & Htop & _).
  assert (in_range 64 (chain_top c)) as Hr by (unfold in_range, chain_top, top in *; lia).
  destruct (law_dropBlocksAfter _ _ _ Hst Hr (empty_droppable _ _ Hr Hempty)) as (b & E & Hb). exists b.
  rewrite chain_drop_empty in Hb. split; [|done]. unfold modifier.
  erewrite run_bind by (apply on_storage_run; exact (law_chainHeight _ _ Hs)). unfold modifier_dropBlocksAfter.
  by erewrite run_bind by (unfold on_staging; by rewrite E).
Qed.

(** C40.  A reorganisation cannot be staged.  The modifier of a cache whose staging
    storage is a storage in files sets the height of the (empty) staging
    storage to that of the chain; dropping the blocks behind a lower height,
    which every switch to another chain begins with, then fails with
    [invalid_argument], since the staging storage has no block there.  (Heights
    that end a chunk fail as well, see [staging_blocked_at_chunk_end].) *)
Theorem reorganisation_fails k c common es :
  represents (m_pStorage k) c → represents (m_pStagingStorage k) {| chain_start := 0; chain_blocks := [] |} →
  (∀ p, get_file (stored_in (m_pStagingStorage k)) p = None) →
  0 < common < chain_top c → at_boundary common = false →
  snd (write_blocks common es k) = Throw invalid_argument.
Proof.
  intros Hs Hst Hempty Hcommon Hb. destruct (modifier_run k c Hs Hempty Hst) as (b & E & Hb').
  unfold write_blocks. rewrite (run_bind _ _ _ _ _ E).
  assert (snd (modifier_dropBlocksAfter common {| m_pStorage := m_pStorage k; m_pStagingStorage := b; m_pBlockElement := m_pBlockElement k |})
          = Throw invalid_argument) as Hd.
  { unfold modifier_dropBlocksAfter, mbind, exec_bind, on_staging. simpl.
    pose proof (staged_drop_fails b {| chain_start := chain_top c; chain_blocks := [] |} common Hb') as Hf.
    specialize (Hf ltac:(simpl; lia) ltac:(unfold chain_top at 1, top; simpl; lia) Hb).
    destruct (dropBlocksAfter env common b) as [b' r]. simpl in *. by rewrite Hf. }
  unfold mbind, exec_bind. destruct (modifier_dropBlocksAfter common _) as [k' r]. simpl in *. by rewrite Hd.
Qed.

End update.

End staging.

(** * Examples *)

(** A chain of three blocks in memory, and an empty storage in files. *)
Definition sample_memory : MemoryBlockStorage :=
  fst (for_each memory_saveBlock (sample_element <$> [1; 2; 3]) empty_MemoryBlockStorage).

Definition sample_memory_chain : Chain := {| chain_start := 0; chain_blocks := reloaded <$> (sample_element <$> [1; 2; 3]) |}.

Lemma empty_memory_represents : represents empty_MemoryBlockStorage {| chain_start := 0; chain_blocks := [] |}.
Proof. split_and!; [done|by apply wf_Chain_empty|]. intros h e He. unfold block_at in He. simpl in He. by destruct (_ <? _). Qed.

Lemma sample_extends : extends 0 (sample_element <$> [1; 2; 3]).
Proof. repeat (split; [by apply sample_writable|]; split; [done|]; split; [done|]). exact I. Qed.

Lemma sample_memory_represents : represents sample_memory sample_memory_chain.
Proof.
  destruct (save_all empty_MemoryBlockStorage _ (sample_element <$> [1; 2; 3]) empty_memory_represents sample_extends) as (m & E & Hm).
  { by repeat (split; [exact I|]). }
  change (represents (fst (for_each bs_saveBlock (sample_element <$> [1; 2; 3]) empty_MemoryBlockStorage)) sample_memory_chain).
  rewrite E. exact Hm.
Qed.

Lemma sample_start_represents : file_represents Mode_None sample_start {| chain_start := 0; chain_blocks := [] |}.
Proof. split; [by apply wf_Chain_empty|]. exists []. split; [apply sample_start_chain|done]. Qed.

Lemma sample_start_empty p : get_file (stored_in sample_start) p = None.
Proof. by destruct p. Qed.

#[local] Instance sample_BlockStorage : BlockStorage Storage := File_BlockStorage sample_env.
#[local] Instance sample_PrunableBlockStorage : PrunableBlockStorage Storage := File_PrunableBlockStorage sample_env.

(** A switch from the block 1 of three to another block 2. *)
Definition sample_cache : Cache MemoryBlockStorage Storage :=
  {| m_pStorage := sample_memory; m_pStagingStorage := sample_start; m_pBlockElement := Some (sample_element 3) |}.

Lemma reorganisation_fails_witness :
  0 < 1 < chain_top sample_memory_chain
  ∧ snd (write_blocks 1 [sample_element 2] sample_cache) = Throw invalid_argument.
Proof.
  split; [split; reflexivity|].
  exact (reorganisation_fails sample_env eq_refl sample_cache sample_memory_chain 1 [sample_element 2]
    sample_memory_represents sample_start_represents sample_start_empty (conj eq_refl eq_refl) eq_refl).
Defined.

(** Staging storages set to a height of the chain. *)
Definition sample_staged (h : Z) : Storage := fst (dropBlocksAfter sample_env h sample_start).

Lemma sample_staged_represents h : in_range 64 h → file_represents Mode_None (sample_staged h) {| chain_start := h; chain_blocks := [] |}.
Proof.
  intros Hh. destruct (file_drop sample_env Mode_None eq_refl sample_start _ h sample_start_represents Hh) as (st & E & Hst).
  { apply empty_droppable; [done|apply sample_start_empty]. }
  unfold sample_staged. rewrite E. by rewrite chain_drop_empty in Hst.
Qed.

Lemma staging_blocked_at_chunk_end_witness :
  snd (dropBlocksAfter sample_env 65535 (sample_staged 65536)) = Throw file_io_error
  ∧ snd (new_FileBlockStorage sample_env (stored_in (fst (dropBlocksAfter sample_env 65535 (sample_staged 65536)))) Mode_None)
    = Throw file_io_error.
Proof.
  assert (file_represents Mode_None (sample_staged 65536) {| chain_start := 65536; chain_blocks := [] |}) as Hs.
  { apply sample_staged_represents. unfold in_range. lia. }
  destruct (staging_blocked_at_chunk_end sample_env eq_refl (sample_staged 65536) {| chain_start := 65536; chain_blocks := [] |} 65535 Hs)
    as [H1 H2]; [simpl; lia|done|done|]. split; [exact H1|]. apply H2, no_start.
Defined.

(** The block 2 is staged behind the block 1. *)
Definition sample_update : Storage := fst (saveBlock (sample_element 2) (sample_staged 1)).

Lemma sample_update_represents :
  file_represents Mode_None sample_update {| chain_start := 1; chain_blocks := [reloaded (sample_element 2)] |}.
Proof.
  destruct (file_save sample_env Mode_None (sample_staged 1) {| chain_start := 1; chain_blocks := [] |} (sample_element 2)) as (st & E & Hst).
  - apply sample_staged_represents. unfold in_range. lia.
  - by apply sample_writable.
  - done.
  - done.
  - unfold has_space, fits32. split_and!; apply Z.leb_le; vm_compute; reflexivity.
  - unfold sample_update. rewrite E. exact Hst.
Qed.

Lemma staged_recovery_fails_witness :
  recover_staged (sample_update, sample_memory) = ((sample_update, sample_memory), Throw runtime_error).
Proof.
  destruct sample_update_represents as (_ & bs & [Hr Hw] & Hbs).
  apply (staged_recovery_fails sample_env sample_update 1 bs sample_memory).
  - exact (ready_repr _ _ _ _ Hr).
  - exact Hw.
  - intros Hnil. rewrite Hnil in Hbs. discriminate Hbs.
  - reflexivity.
  - vm_compute. reflexivity.
Defined.

(** ** Two storages in memory *)

(** Three blocks are stored; the last two are replaced by three others. *)
Definition sample_memory_cache : Cache MemoryBlockStorage MemoryBlockStorage :=
  {| m_pStorage := sample_memory; m_pStagingStorage := empty_MemoryBlockStorage;
     m_pBlockElement := Some (set_OptionalStatement None (reloaded (sample_element 3))) |}.

Lemma sample_cache_at_rest : at_rest sample_memory_cache sample_memory_chain.
Proof.
  constructor; [exact sample_memory_represents|exact empty_memory_represents|].
  exists (reloaded (sample_element 3)). split; [done|]. eexists. split; [done|]. split; [vm_compute; reflexivity|done].
Qed.

Lemma view_agrees_with_storage_witness :
  view_chainHeight sample_memory_cache = (sample_memory_cache, Ok 3)
  ∧ view_loadBlock 3 sample_memory_cache = on_storage (bs_loadBlock 3) sample_memory_cache
  ∧ view_loadBlock 4 sample_memory_cache = (sample_memory_cache, Throw invalid_argument).
Proof.
  destruct (view_agrees_with_storage sample_memory_cache sample_memory_chain
    (rest_storage _ _ sample_cache_at_rest) (rest_coherent _ _ sample_cache_at_rest)) as (H1 & H2 & H3).
  split; [exact H1|]. split; [apply (H2 3); split; [reflexivity|discriminate]|apply (H3 4); reflexivity].
Defined.

(** A storage in memory with a staging storage in files; a block is added. *)
Definition sample_file_cache : Cache MemoryBlockStorage Storage :=
  {| m_pStorage := sample_memory; m_pStagingStorage := sample_start;
     m_pBlockElement := Some (set_OptionalStatement None (reloaded (sample_element 3))) |}.

Lemma sample_order l : directory_order sample_env l ≡ₚ l.
Proof. done. Qed.

Lemma two_phase_commit_witness :
  (∃ k1 m, write_blocks 1 (sample_element <$> [2; 3; 4]) sample_memory_cache = (k1, Ok m)
    ∧ ∃ k2, commit m k1 = (k2, Ok tt)
      ∧ at_rest k2 {| chain_start := 0; chain_blocks := reloaded <$> (sample_element <$> [1; 2; 3; 4]) |})
  ∧ ∃ k1 m, write_blocks 3 [sample_element 4] sample_file_cache = (k1, Ok m) ∧ m_pStorage k1 = sample_memory
      ∧ ∃ k2, commit m k1 = (k2, Ok tt) ∧ snd (memory_loadBlock 4 (m_pStorage k2)) = Ok (sample_block 4).
Proof.
  split.
  - assert (updatable sample_memory_cache sample_memory_chain 1 (sample_element <$> [2; 3; 4])) as Hu.
    { constructor.
      - split; vm_compute; congruence.
      - repeat (split; [by apply sample_writable|]; split; [done|]; split; [done|]). exact I.
      - reflexivity.
      - split; repeat (split; [exact I|]); exact I. }
    destruct (two_phase_commit sample_memory_cache sample_memory_chain 1 _ sample_cache_at_rest (λ _ _, I) Hu) as [H1 H2].
    destruct (H2 (or_intror I)) as [m Hm]. destruct (write_blocks 1 _ sample_memory_cache) as [k1 r]. cbn [snd] in Hm. subst r.
    destruct H1 as (_ & _ & H1). destruct (H1 m eq_refl) as (k2 & E2 & Hk2 & _).
    exists k1, m. split; [reflexivity|]. exists k2. split; [exact E2|exact Hk2].
  - assert (@at_rest MemoryBlockStorage Storage _ _ _ (File_StorageLaws sample_env Mode_None eq_refl) sample_file_cache sample_memory_chain) as Hrest.
    { constructor; [exact sample_memory_represents|exact sample_start_represents|].
      exists (reloaded (sample_element 3)). split; [done|]. eexists. split; [done|]. split; [vm_compute; reflexivity|done]. }
    assert (@updatable MemoryBlockStorage Storage _ _ _ (File_StorageLaws sample_env Mode_None eq_refl) sample_file_cache sample_memory_chain 3
      [sample_element 4]) as Hu.
    { constructor.
      - split; vm_compute; congruence.
      - repeat (split; [by apply sample_writable|]; split; [done|]; split; [done|]). exact I.
      - reflexivity.
      - split; [|split; exact I]. split; [|exact I]. unfold accepts, File_StorageLaws, has_space, fits32.
        split_and!; apply Z.leb_le; vm_compute; reflexivity. }
    destruct (@two_phase_commit MemoryBlockStorage Storage _ _ _ _ (File_StorageLaws sample_env Mode_None eq_refl)
      (Staging_PrunableLaws sample_env eq_refl sample_order) sample_file_cache sample_memory_chain 3 [sample_element 4] Hrest
      (λ h Hh, empty_droppable sample_start h Hh sample_start_empty) Hu) as [H1 H2].
    destruct (H2 (or_introl eq_refl)) as [m Hm]. destruct (write_blocks 3 _ sample_file_cache) as [k1 r]. cbn [snd] in Hm. subst r.
    destruct H1 as (Hst & _ & H1). destruct (H1 m eq_refl) as (k2 & E2 & Hk2 & _).
    exists k1, m. split; [reflexivity|]. split; [exact Hst|]. exists k2. split; [exact E2|].
    exact (f_equal snd (law_loadBlock (m_pStorage k2) _ 4 (reloaded (sample_element 4)) (rest_storage _ _ Hk2) eq_refl)).
Defined.

End StagingStorage.
