(* ===== verification/CatapultCache.v ===== *)
(** Model of the aggregation of sub caches: catapult/cache/CatapultCache.cpp,
    SynchronizedCache.h, SubCachePlugin.h and
    RelockableDetachedCatapultCache.cpp.

    The views and deltas of sub caches and the caches themselves are reached
    through the interfaces [SubCacheView] and [SubCache], as the code reaches
    them through virtual functions.  The file shows that a detached delta can be
    locked until the next commit and never after it, that committing installs
    the attached delta in every sub cache, and that the sub cache merkle roots a
    block was stored with can be put back. *)
From stdpp Require Import base tactics numbers option list.
From S2P Require Import Prelude.

Local Open Scope Z_scope.

Module CatapultCache.

(** * Interfaces *)

Class SubCacheView (V : Type) := {
  view_enabled : V → bool;
  view_setHeight : Z → V → V;
  view_supportsMerkleRoot : V → bool;
  view_tryGetMerkleRoot : V → option (list Z);
  view_setMerkleRoot : list Z → V → V;
  view_updateMerkleRoot : Z → V → V;
  view_backupChanges : bool → V → V;
  view_restoreChanges : V → V;
}.

Class SubCache (C V : Type) := {
  cache_createView : Z → C → V;
  cache_createDelta : Z → C → V;
  cache_createDetachedDelta : Z → C → V;
  cache_commit : V → C → C;
}.

(** [trySetMerkleRoot] of the adapter of a view. *)
Definition view_trySetMerkleRoot {V} `{!SubCacheView V} (merkleRoot : list Z) (view : V) : V :=
  if view_supportsMerkleRoot view then view_setMerkleRoot merkleRoot view else view.

(** * Views and deltas *)

Record StateHashInfo := { StateHash : list Z; SubCacheMerkleRoots : list (list Z) }.

Section delta.
Context {V : Type} `{!SubCacheView V}.
Context (Sha3_256 : list Z → list Z).

(** The slots of a cache; a slot without a sub cache is null. *)
Definition CatapultCacheDelta : Type := list (option V).

Definition map_enabled (f : V → V) (views : CatapultCacheDelta) : CatapultCacheDelta :=
  (λ o : option V, (λ view, if view_enabled view then f view else view) <$> o) <$> (views : list (option V)).

Fixpoint CollectSubCacheMerkleRoots (updateMerkleRoot : V → V) (views : CatapultCacheDelta)
    : CatapultCacheDelta * list (list Z) :=
  match views with
  | [] => ([], [])
  | None :: rest => let '(rest', roots) := CollectSubCacheMerkleRoots updateMerkleRoot rest in (None :: rest', roots)
  | Some view :: rest =>
      let '(rest', roots) := CollectSubCacheMerkleRoots updateMerkleRoot rest in
      if negb (view_enabled view) then (Some view :: rest', roots)
      else
        let view' := updateMerkleRoot view in
        (Some view' :: rest', match view_tryGetMerkleRoot view' with Some root => root :: roots | None => roots end)
  end.

Definition CalculateStateHash (subCacheMerkleRoots : list (list Z)) : list Z :=
  match subCacheMerkleRoots with [] => replicate 32 0 | _ => Sha3_256 (mjoin subCacheMerkleRoots) end.

Definition CalculateStateHashInfo (updateMerkleRoot : V → V) (views : CatapultCacheDelta) : CatapultCacheDelta * StateHashInfo :=
  let '(updated, roots) := CollectSubCacheMerkleRoots updateMerkleRoot views in
  (updated, {| StateHash := CalculateStateHash roots; SubCacheMerkleRoots := roots |}).

Definition view_calculateStateHash (views : CatapultCacheDelta) : StateHashInfo := snd (CalculateStateHashInfo id views).

Definition calculateStateHash (height : Z) (views : CatapultCacheDelta) : CatapultCacheDelta * StateHashInfo :=
  CalculateStateHashInfo (view_updateMerkleRoot height) views.

(** The loop; an exception leaves the roots that were set before it. *)
Fixpoint set_roots (views : CatapultCacheDelta) (merkleRoots : list (list Z)) : CatapultCacheDelta * result (list (list Z)) :=
  match views with
  | [] => ([], Ok merkleRoots)
  | None :: rest => let '(rest', r) := set_roots rest merkleRoots in (None :: rest', r)
  | Some view :: rest =>
      if negb (view_supportsMerkleRoot view) || negb (view_enabled view)
      then let '(rest', r) := set_roots rest merkleRoots in (Some view :: rest', r)
      else match merkleRoots with
           | [] => (views, Throw invalid_argument)
           | merkleRoot :: merkleRoots =>
               let '(rest', r) := set_roots rest merkleRoots in
               (Some (view_trySetMerkleRoot merkleRoot view) :: rest', r)
           end
  end.

Definition setSubCacheMerkleRoots (subCacheMerkleRoots : list (list Z)) : Exec CatapultCacheDelta unit := λ views,
  match set_roots views subCacheMerkleRoots with
  | (views', Ok []) => (views', Ok tt)
  | (views', Ok _) => (views', Throw invalid_argument)
  | (views', Throw e) => (views', Throw e)
  end.

Definition setHeight (height : Z) (views : CatapultCacheDelta) : CatapultCacheDelta :=
  (λ o : option V, view_setHeight height <$> o) <$> (views : list (option V)).

Definition backupChanges (replace : bool) : CatapultCacheDelta → CatapultCacheDelta := map_enabled (view_backupChanges replace).
Definition restoreChanges : CatapultCacheDelta → CatapultCacheDelta := map_enabled view_restoreChanges.

(** * Caches *)

Section cache.
Context {C : Type} `{!SubCache C V}.

(** [m_pWeakDeltaPair] is alive while the attached delta is. *)
Record SynchronizedCache := { m_cache : C; m_commitCounter : Z; m_hasDelta : bool }.

Definition new_SynchronizedCache (cache : C) : SynchronizedCache :=
  {| m_cache := cache; m_commitCounter := 0; m_hasDelta := false |}.

Definition sync_createDelta (height : Z) (c : SynchronizedCache) : result (SynchronizedCache * V) :=
  if m_hasDelta c then Throw runtime_error
  else Ok ({| m_cache := m_cache c; m_commitCounter := m_commitCounter c; m_hasDelta := true |},
           cache_createDelta height (m_cache c)).

(** [commit] reaches the attached delta through the weak pointer; here its
    contents are an argument. *)
Definition sync_commit (delta : V) (c : SynchronizedCache) : result SynchronizedCache :=
  if negb (m_hasDelta c) then Throw runtime_error
  else Ok {| m_cache := cache_commit delta (m_cache c); m_commitCounter := u64 (m_commitCounter c + 1);
             m_hasDelta := m_hasDelta c |}.

(** The end of the life of an attached delta. *)
Definition sync_release (c : SynchronizedCache) : SynchronizedCache :=
  {| m_cache := m_cache c; m_commitCounter := m_commitCounter c; m_hasDelta := false |}.

Record LockableCacheDelta := { m_cacheDelta : V; m_initialCommitCount : Z }.

Definition sync_createDetachedDelta (height : Z) (c : SynchronizedCache) : LockableCacheDelta :=
  {| m_cacheDelta := cache_createDetachedDelta height (m_cache c); m_initialCommitCount := m_commitCounter c |}.

Definition lockable_tryLock (c : SynchronizedCache) (d : LockableCacheDelta) : option V :=
  if negb (m_initialCommitCount d =? m_commitCounter c) then None else Some (m_cacheDelta d).

Record CatapultCache := {
  m_pConfigHeight : Z;
  m_pCacheHeight : Z;
  m_subCaches : list (option SynchronizedCache);
}.

(** When a sub cache throws, the deltas created before it are released. *)
Fixpoint create_deltas (height : Z) (caches : list (option SynchronizedCache))
    : result (list (option SynchronizedCache) * CatapultCacheDelta) :=
  match caches with
  | [] => Ok ([], [])
  | None :: rest => '(cs, ds) ← create_deltas height rest; Ok (None :: cs, None :: ds)
  | Some c :: rest =>
      '(c', d) ← sync_createDelta height c;
      '(cs, ds) ← create_deltas height rest;
      Ok (Some c' :: cs, Some d :: ds)
  end.

Definition createDelta (k : CatapultCache) : result (CatapultCache * CatapultCacheDelta) :=
  '(cs, ds) ← create_deltas (m_pCacheHeight k) (m_subCaches k);
  Ok ({| m_pConfigHeight := m_pConfigHeight k; m_pCacheHeight := m_pCacheHeight k; m_subCaches := cs |}, ds).

Definition releaseDelta (k : CatapultCache) : CatapultCache :=
  {| m_pConfigHeight := m_pConfigHeight k; m_pCacheHeight := m_pCacheHeight k;
     m_subCaches := (λ o : option SynchronizedCache, sync_release <$> o) <$> m_subCaches k |}.

(** The sub caches are committed one after the other; an exception leaves those
    before it committed.  The slots of a delta are those of its cache. *)
Fixpoint commit_all (delta : CatapultCacheDelta) (caches : list (option SynchronizedCache))
    : list (option SynchronizedCache) * result unit :=
  match caches, delta with
  | [], [] => ([], Ok tt)
  | None :: caches, None :: delta => let '(cs, r) := commit_all delta caches in (None :: cs, r)
  | Some c :: caches, Some d :: delta =>
      match sync_commit d c with
      | Throw e => (Some c :: caches, Throw e)
      | Ok c' => let '(cs, r) := commit_all delta caches in (Some c' :: cs, r)
      end
  | _, _ => (caches, Throw undefined_behaviour)
  end.

Definition commit (delta : CatapultCacheDelta) (height : Z) : Exec CatapultCache unit := λ k,
  let '(cs, r) := commit_all delta (m_subCaches k) in
  ({| m_pConfigHeight := height; m_pCacheHeight := match r with Ok _ => height | Throw _ => m_pCacheHeight k end;
      m_subCaches := cs |}, r).

(** ** Detached deltas *)

Record CatapultCacheDetachedDelta := { m_detachedSubViews : list (option LockableCacheDelta) }.

Definition createDetachableDelta (heightDelta : Z) (k : CatapultCache) : CatapultCacheDetachedDelta * Z :=
  ({| m_detachedSubViews := (λ o : option SynchronizedCache, sync_createDetachedDelta (add64 (m_pCacheHeight k) heightDelta) <$> o) <$> m_subCaches k |},
   add64 (m_pCacheHeight k) heightDelta).

Fixpoint tryLock_all (caches : list (option SynchronizedCache)) (views : list (option LockableCacheDelta))
    : option CatapultCacheDelta :=
  match views, caches with
  | [], _ => Some []
  | None :: views, _ :: caches => ds ← tryLock_all caches views; Some (None :: ds)
  | Some v :: views, Some c :: caches =>
      d ← lockable_tryLock c v; ds ← tryLock_all caches views; Some (Some d :: ds)
  | _, _ => None
  end.

Definition tryLock (k : CatapultCache) (d : CatapultCacheDetachedDelta) : option CatapultCacheDelta :=
  tryLock_all (m_subCaches k) (m_detachedSubViews d).

(** RelockableDetachedCatapultCache. *)
Record RelockableDetachedCatapultCache := {
  m_cacheHeight : Z;
  m_pLockableUnconfirmedCatapultCache : CatapultCacheDetachedDelta;
}.

Definition getAndTryLock (k : CatapultCache) (r : RelockableDetachedCatapultCache) : option CatapultCacheDelta :=
  tryLock k (m_pLockableUnconfirmedCatapultCache r).

Definition rebase (k : CatapultCache) : RelockableDetachedCatapultCache :=
  let '(d, height) := createDetachableDelta 0 k in
  {| m_cacheHeight := height; m_pLockableUnconfirmedCatapultCache := d |}.

Definition rebaseAndLock (k : CatapultCache) : RelockableDetachedCatapultCache * option CatapultCacheDelta :=
  (rebase k, getAndTryLock k (rebase k)).

End cache.
End delta.

Arguments CatapultCacheDelta : clear implicits.
Arguments SynchronizedCache : clear implicits.
Arguments LockableCacheDelta : clear implicits.
Arguments CatapultCache : clear implicits.
Arguments CatapultCacheDetachedDelta : clear implicits.
Arguments RelockableDetachedCatapultCache : clear implicits.

(** * Versions *)

Section versions.
Context {C V : Type} `{!SubCacheView V, !SubCache C V}.
Implicit Types (k : CatapultCache C).

Definition counters k : list (option Z) := (λ o : option (SynchronizedCache C), m_commitCounter <$> o) <$> m_subCaches k.

(** A life of the cache; the number counts commits. *)
Inductive life : nat → CatapultCache C → CatapultCache C → Prop :=
| life_start k : life 0 k k
| life_create n k k' k'' d : life n k k' → createDelta k' = Ok (k'', d) → life n k k''
| life_release n k k' : life n k k' → life n k (releaseDelta k')
| life_commit n k k' k'' d height : life n k k' → commit d height k' = (k'', Ok tt) → life (S n) k k''.

Lemma create_deltas_counters h cs cs' ds :
  create_deltas h cs = Ok (cs', ds) →
  (λ o : option (SynchronizedCache C), m_commitCounter <$> o) <$> cs' = (λ o : option (SynchronizedCache C), m_commitCounter <$> o) <$> cs.
Proof.
  revert cs' ds. induction cs as [|[c|] cs IH]; intros cs' ds; cbn [create_deltas].
  - by intros [= <- <-].
  - unfold sync_createDelta. destruct (m_hasDelta c); [done|]. cbn [mbind result_bind].
    destruct (create_deltas h cs) as [[cs1 ds1]|]; [|done]. intros [= <- <-]. rewrite !fmap_cons. f_equal. by eapply IH.
  - cbn [mbind result_bind]. destruct (create_deltas h cs) as [[cs1 ds1]|]; [|done]. intros [= <- <-].
    rewrite !fmap_cons. f_equal. by eapply IH.
Qed.

Lemma commit_all_counters cs d cs' :
  commit_all d cs = (cs', Ok tt) →
  (λ o : option (SynchronizedCache C), m_commitCounter <$> o) <$> cs'
  = (λ o : option Z, (λ x, u64 (x + 1)) <$> o) <$> ((λ o : option (SynchronizedCache C), m_commitCounter <$> o) <$> cs).
Proof.
  revert d cs'. induction cs as [|[c|] cs IH]; intros [|[x|] d] cs'; cbn [commit_all]; try done; try by intros [= <-].
  - unfold sync_commit. destruct (m_hasDelta c); [|done]. simpl. destruct (commit_all d cs) as [cs1 r] eqn:E. intros [= <- ->].
    rewrite !fmap_cons. f_equal. by eapply IH.
  - destruct (commit_all d cs) as [cs1 r] eqn:E. intros [= <- ->]. rewrite !fmap_cons. f_equal. by eapply IH.
Qed.

Definition counted (k : CatapultCache C) : Prop := Forall (λ o, ∀ x, o = Some x → in_range 64 x) (counters k).

Lemma life_counters n k k' :
  counted k → life n k k' → counters k' = (λ o : option Z, (λ x, u64 (x + Z.of_nat n)) <$> o) <$> counters k.
Proof.
  intros Hr. induction 1 as [k|n k k' k'' d Hl IH Hc|n k k' Hl IH|n k k' k'' d height Hl IH Hc].
  - symmetry. rewrite <-(list_fmap_id (counters k)) at 2. apply list_fmap_ext. intros i [x|] Hi; simpl; [|done]. f_equal.
    rewrite Z.add_0_r. apply wrap_small. eapply Forall_lookup_1 in Hr; [|done]. by apply Hr.
  - rewrite <-IH by done. unfold createDelta in Hc. destruct (create_deltas _ _) as [[cs ds]|] eqn:E; [|done].
    cbn [mbind result_bind] in Hc. injection Hc as <- <-. by eapply create_deltas_counters.
  - rewrite <-IH by done. unfold counters, releaseDelta. simpl. rewrite <-list_fmap_compose. apply list_fmap_ext. by intros i [c|].
  - unfold commit in Hc. destruct (commit_all d (m_subCaches k')) as [cs [[]|]] eqn:E; [|done]. injection Hc as <-.
    unfold counters at 1. simpl. rewrite (commit_all_counters _ _ _ E). change (_ <$> m_subCaches k') with (counters k').
    rewrite IH by done. rewrite <-list_fmap_compose. apply list_fmap_ext. intros i [x|] _; simpl; [|done]. f_equal.
    unfold wrap. rewrite Zplus_mod_idemp_l. f_equal. lia.
Qed.

Lemma counter_moved x n : in_range 64 x → 0 < n < 2 ^ 64 → x ≠ u64 (x + n).
Proof.
  unfold in_range, wrap. intros Hx Hn. destruct (decide (x + n < 2 ^ 64)); [rewrite Z.mod_small by lia; lia|].
  replace (x + n) with (x + n - 2 ^ 64 + 1 * 2 ^ 64) by lia. rewrite Z.mod_add, Z.mod_small by lia. lia.
Qed.

(** The contents of a detached delta. *)
Definition detached_contents (height : Z) k : CatapultCacheDelta V :=
  (λ o : option (SynchronizedCache C), (λ c, cache_createDetachedDelta height (m_cache c)) <$> o) <$> m_subCaches k.

Lemma tryLock_all_current cs cs' height :
  (λ o : option (SynchronizedCache C), m_commitCounter <$> o) <$> cs' = (λ o : option (SynchronizedCache C), m_commitCounter <$> o) <$> cs →
  tryLock_all cs' ((λ o : option (SynchronizedCache C), sync_createDetachedDelta height <$> o) <$> cs)
  = Some ((λ o : option (SynchronizedCache C), (λ c, cache_createDetachedDelta height (m_cache c)) <$> o) <$> cs).
Proof.
  revert cs'. induction cs as [|[c|] cs IH]; intros [|[c'|] cs'] Hc; try done; rewrite !fmap_cons in *; simpl in *; simplify_eq.
  - rewrite IH by done. unfold lockable_tryLock. simpl. match goal with H : @m_commitCounter _ _ = _ |- _ => rewrite H end.
    by rewrite Z.eqb_refl.
  - by rewrite IH.
Qed.

Lemma tryLock_all_stale (cs cs' : list (option (SynchronizedCache C))) height i c c' :
  cs !! i = Some (Some c) → cs' !! i = Some (Some c') → m_commitCounter c ≠ m_commitCounter c' →
  tryLock_all cs' ((λ o : option (SynchronizedCache C), sync_createDetachedDelta height <$> o) <$> cs) = None.
Proof.
  intros Hi Hi' Hne. revert cs' i Hi Hi'. induction cs as [|o cs IH]; intros [|o' cs'] [|i] Hi Hi'; simpl in Hi, Hi'; simplify_eq; simpl.
  - unfold lockable_tryLock. simpl. by rewrite (proj2 (Z.eqb_neq _ _)).
  - specialize (IH cs' i Hi Hi'). unfold fmap at 1 in IH. destruct o as [x|]; simpl; [|by rewrite IH].
    destruct o' as [x'|]; [|done]. destruct (lockable_tryLock _ _); simpl; [|done]. by rewrite IH.
Qed.

(** A detached delta can be locked until the next commit, and not after it.
    Whatever attached deltas are created and released in the meantime, locking
    gives the delta while no commit has happened since it was created; after
    one or more commits (fewer than 2^64) locking fails, so that unconfirmed
    state is never applied on top of a confirmed state it was not made from. *)
Theorem detached_delta_valid_until_commit k n k' heightDelta d height :
  counted k → (∃ c, Some c ∈ m_subCaches k) → life n k k' → Z.of_nat n < 2 ^ 64 →
  createDetachableDelta heightDelta k = (d, height) →
  tryLock k' d = if decide (n = 0%nat) then Some (detached_contents height k) else None.
Proof.
  intros Hr [c Hc] Hl Hn Hd. pose proof (life_counters n k k' Hr Hl) as Hk. unfold createDetachableDelta in Hd. injection Hd as <- <-.
  unfold tryLock. simpl. destruct (decide (n = 0%nat)) as [->|Hn0].
  - apply tryLock_all_current. fold (counters k') (counters k). rewrite Hk. symmetry. rewrite <-(list_fmap_id (counters k)) at 1.
    apply list_fmap_ext. intros i [x|] Hi; simpl; [|done]. f_equal. rewrite Z.add_0_r. symmetry. apply wrap_small.
    eapply Forall_lookup_1 in Hr; [|done]. by apply Hr.
  - apply list_elem_of_lookup in Hc as [i Hi]. assert (counters k !! i = Some (Some (m_commitCounter c))) as Hci.
    { unfold counters. by rewrite list_lookup_fmap, Hi. }
    assert (counters k' !! i = Some (Some (u64 (m_commitCounter c + Z.of_nat n)))) as Hci' by (by rewrite Hk, list_lookup_fmap, Hci).
    unfold counters in Hci'. rewrite list_lookup_fmap in Hci'. destruct (m_subCaches k' !! i) as [[c'|]|] eqn:Hi'; simplify_eq/=.
    eapply tryLock_all_stale; [done|done|]. match goal with H : @m_commitCounter _ c' = _ |- _ => rewrite H end.
    eapply Forall_lookup_1 in Hr; [|done]. apply counter_moved; [by apply Hr|lia].
Qed.

End versions.

(** * Merkle roots *)

(** What views promise about their merkle roots. *)
Class ViewLaws (V : Type) `{!SubCacheView V} := {
  law_supports v : is_Some (view_tryGetMerkleRoot v) ↔ view_supportsMerkleRoot v = true;
  law_get_set root v : view_supportsMerkleRoot v = true → view_tryGetMerkleRoot (view_setMerkleRoot root v) = Some root;
  law_enabled_set root v : view_enabled (view_setMerkleRoot root v) = view_enabled v;
  law_supports_update height v : view_supportsMerkleRoot (view_updateMerkleRoot height v) = view_supportsMerkleRoot v;
}.

Section roots.
Context {V : Type} `{!SubCacheView V, !ViewLaws V} (Sha3_256 : list Z → list Z).

(** The same slots are filled, enabled and have merkle roots. *)
Definition same_shape : CatapultCacheDelta V → CatapultCacheDelta V → Prop :=
  Forall2 (λ o1 o2, match o1, o2 with
                    | None, None => True
                    | Some v, Some w => view_enabled v = view_enabled w ∧ view_supportsMerkleRoot v = view_supportsMerkleRoot w
                    | _, _ => False
                    end).

Lemma set_collected vs ws height more :
  same_shape vs ws →
  ∃ vs', set_roots vs (snd (CollectSubCacheMerkleRoots (view_updateMerkleRoot height) ws) ++ more) = (vs', Ok more)
    ∧ snd (CollectSubCacheMerkleRoots id vs') = snd (CollectSubCacheMerkleRoots (view_updateMerkleRoot height) ws).
Proof.
  induction 1 as [|[v|] [w|] vs ws Hvw Hs IH]; try done; [by exists []| |].
  - destruct IH as (vs' & IH & IHc). destruct Hvw as [He Hsup]. cbn [CollectSubCacheMerkleRoots set_roots].
    destruct (CollectSubCacheMerkleRoots (view_updateMerkleRoot height) ws) as [ws' roots]. cbn [snd] in IH, IHc.
    rewrite Hsup, He. destruct (view_enabled w) eqn:Hw; cbn [negb orb snd].
    2: { rewrite orb_true_r, IH. exists (Some v :: vs'). split; [done|]. cbn [CollectSubCacheMerkleRoots].
         destruct (CollectSubCacheMerkleRoots id vs') as [vs'' roots']. by rewrite He. }
    rewrite orb_false_r. pose proof (law_supports (view_updateMerkleRoot height w)) as Hl. rewrite law_supports_update in Hl.
    destruct (view_tryGetMerkleRoot (view_updateMerkleRoot height w)) as [root|].
    + destruct Hl as [Hl _]. rewrite Hl by done. cbn [negb app]. rewrite IH. unfold view_trySetMerkleRoot. rewrite Hsup, Hl by done.
      eexists. split; [done|]. cbn [CollectSubCacheMerkleRoots]. destruct (CollectSubCacheMerkleRoots id vs') as [vs'' roots'].
      rewrite law_enabled_set, He. cbn [negb snd id]. rewrite law_get_set by (by rewrite Hsup, Hl). by f_equal.
    + destruct (view_supportsMerkleRoot w); [by destruct Hl as [_ [? ?]]|]. cbn [negb]. rewrite IH. exists (Some v :: vs'). split; [done|].
      cbn [CollectSubCacheMerkleRoots]. destruct (CollectSubCacheMerkleRoots id vs') as [vs'' roots']. rewrite He. cbn [negb snd id].
      pose proof (law_supports v) as Hlv. rewrite Hsup in Hlv. destruct (view_tryGetMerkleRoot v); [|done].
      by destruct Hlv as [Hlv _]; specialize (Hlv (mk_is_Some _ _ eq_refl)).
  - destruct IH as (vs' & IH & IHc). cbn [CollectSubCacheMerkleRoots set_roots].
    destruct (CollectSubCacheMerkleRoots (view_updateMerkleRoot height) ws) as [ws' roots]. cbn [snd] in *. rewrite IH.
    exists (None :: vs'). split; [done|]. cbn [CollectSubCacheMerkleRoots]. by destruct (CollectSubCacheMerkleRoots id vs').
Qed.

(** The merkle roots of a block can be put back.  The roots that
    [calculateStateHash] gives for one delta are accepted by any delta in which
    the same sub caches are enabled and have merkle roots, and give it the same
    state hash; a list that continues behind them is refused. *)
Theorem merkle_roots_put_back vs ws height ws' info :
  same_shape vs ws → calculateStateHash Sha3_256 height ws = (ws', info) →
  (∃ vs', setSubCacheMerkleRoots (SubCacheMerkleRoots info) vs = (vs', Ok tt) ∧ view_calculateStateHash Sha3_256 vs' = info)
  ∧ ∀ root more, snd (setSubCacheMerkleRoots (SubCacheMerkleRoots info ++ root :: more) vs) = Throw invalid_argument.
Proof.
  intros Hs Hinfo. unfold calculateStateHash, CalculateStateHashInfo in Hinfo.
  assert (SubCacheMerkleRoots info = snd (CollectSubCacheMerkleRoots (view_updateMerkleRoot height) ws)) as Hroots.
  { destruct (CollectSubCacheMerkleRoots _ ws). by injection Hinfo as _ <-. }
  split.
  - destruct (set_collected vs ws height [] Hs) as (vs' & Hset & Hc). rewrite app_nil_r, <-Hroots in Hset.
    exists vs'. unfold setSubCacheMerkleRoots. rewrite Hset. split; [done|].
    unfold view_calculateStateHash, CalculateStateHashInfo. destruct (CollectSubCacheMerkleRoots id vs') as [vs'' roots].
    cbn [snd] in *. subst roots. destruct (CollectSubCacheMerkleRoots _ ws). cbn [snd] in *. by injection Hinfo as _ <-.
  - intros root more. destruct (set_collected vs ws height (root :: more) Hs) as (vs' & Hset & _).
    unfold setSubCacheMerkleRoots. by rewrite Hroots, Hset.
Qed.

End roots.

(** * Deltas with the same contents *)

(** Views that differ in their merkle roots only, or in what else the plugins do
    not look at, are equivalent. *)
Class ViewEquiv (V : Type) `{!SubCacheView V, !Equiv V} := {
  view_equivalence :: Equivalence (≡@{V});
  view_setHeight_proper height :: Proper ((≡) ==> (≡)) (view_setHeight height);
  view_setHeight_again h h' v : view_setHeight h (view_setHeight h' v) ≡ view_setHeight h v;
  view_updateMerkleRoot_equiv height v : view_updateMerkleRoot height v ≡ v;
  view_setMerkleRoot_equiv root v : view_setMerkleRoot root v ≡ v;
}.

Section equivalence.
Context {V : Type} `{!SubCacheView V, !Equiv V, !ViewEquiv V} (Sha3_256 : list Z → list Z).
Implicit Types (d : CatapultCacheDelta V).

#[export] Instance CatapultCacheDelta_equiv : Equiv (CatapultCacheDelta V) := list_equiv.

#[export] Instance CatapultCacheDelta_equivalence : Equivalence (≡@{CatapultCacheDelta V}).
Proof. unfold CatapultCacheDelta. apply _. Qed.

#[export] Instance setHeight_proper height : Proper ((≡) ==> (≡@{CatapultCacheDelta V})) (setHeight height).
Proof.
  intros d1 d2 Hd. induction Hd as [|o1 o2 d1 d2 Ho Hd IH]; [done|]. constructor; [|done].
  destruct Ho as [v w Hv|]; constructor. by apply view_setHeight_proper.
Qed.

Lemma setHeight_again h h' d : setHeight h (setHeight h' d) ≡ setHeight h d.
Proof.
  induction d as [|o d IH]; [done|]. constructor; [|exact IH]. destruct o as [v|]; constructor. apply view_setHeight_again.
Qed.

Lemma calculateStateHash_equiv height d : fst (calculateStateHash Sha3_256 height d) ≡ d.
Proof.
  unfold calculateStateHash, CalculateStateHashInfo.
  assert (fst (CollectSubCacheMerkleRoots (view_updateMerkleRoot height) d) ≡ d) as Hd.
  { induction d as [|[v|] d IH]; cbn [CollectSubCacheMerkleRoots]; [done| |].
    - destruct (CollectSubCacheMerkleRoots _ d) as [d' roots]. destruct (view_enabled v); simpl; (constructor; [|exact IH]); [|done].
      constructor. apply view_updateMerkleRoot_equiv.
    - destruct (CollectSubCacheMerkleRoots _ d) as [d' roots]. constructor; [done|exact IH]. }
  by destruct (CollectSubCacheMerkleRoots _ d).
Qed.

Lemma setSubCacheMerkleRoots_equiv roots d : fst (setSubCacheMerkleRoots roots d) ≡ d.
Proof.
  assert (∀ roots, fst (set_roots d roots) ≡ d) as Hd.
  { induction d as [|[v|] d IH]; intros rs; cbn [set_roots]; [done| |].
    - destruct (negb (view_supportsMerkleRoot v) || negb (view_enabled v)).
      + specialize (IH rs). destruct (set_roots d rs). by constructor.
      + destruct rs as [|root rs]; [done|]. specialize (IH rs). destruct (set_roots d rs). constructor; [|exact IH].
        constructor. unfold view_trySetMerkleRoot. destruct (view_supportsMerkleRoot v); [|done]. apply view_setMerkleRoot_equiv.
    - specialize (IH rs). destruct (set_roots d rs). by constructor. }
  unfold setSubCacheMerkleRoots. specialize (Hd roots). by destruct (set_roots d roots) as [d' [[|]|]].
Qed.

End equivalence.

(** * Attached deltas *)

(** What a cache promises about commits: a delta made after one shows what was
    committed. *)
Class SubCacheLaws (C V : Type) `{!SubCacheView V, !SubCache C V, !Equiv V} :=
  law_commit_createDelta height (v : V) (c : C) : cache_createDelta height (cache_commit v c) ≡ view_setHeight height v.

Section attached.
Context {C V : Type} `{!SubCacheView V, !SubCache C V}.

(** No delta is attached. *)
Definition detached (k : CatapultCache C) : Prop := Forall (λ o, ∀ x, o = Some x → m_hasDelta x = false) (m_subCaches k).

(** What is in the caches. *)
Definition contents (k : CatapultCache C) : CatapultCacheDelta V :=
  (λ o : option (SynchronizedCache C), (λ x, cache_createDelta (m_pCacheHeight k) (m_cache x)) <$> o) <$> m_subCaches k.

Lemma create_deltas_run height caches :
  Forall (λ o, ∀ x : SynchronizedCache C, o = Some x → m_hasDelta x = false) caches →
  ∃ caches', create_deltas height caches
    = Ok (caches', (λ o : option (SynchronizedCache C), (λ x, cache_createDelta height (m_cache x)) <$> o) <$> caches)
    ∧ (λ o : option (SynchronizedCache C), sync_release <$> o) <$> caches' = caches
    ∧ ((λ o : option (SynchronizedCache C), m_cache <$> o) <$> caches') = ((λ o : option (SynchronizedCache C), m_cache <$> o) <$> caches).
Proof.
  induction 1 as [|o caches Ho Hall IH]; [by exists []|]. destruct IH as (caches' & IH & Hrel & Hc). destruct o as [c|]; cbn [create_deltas].
  - unfold sync_createDelta. rewrite (Ho c eq_refl). cbn [mbind result_bind]. rewrite IH. cbn [mbind result_bind]. eexists. split; [done|].
    rewrite !fmap_cons, Hrel, Hc. split; [|done]. f_equal. simpl. unfold sync_release. simpl. specialize (Ho c eq_refl). destruct c. simpl in *. by subst.
  - rewrite IH. cbn [mbind result_bind]. eexists. split; [done|]. rewrite !fmap_cons, Hrel, Hc. done.
Qed.

Lemma createDelta_run (k : CatapultCache C) :
  detached k → ∃ k' : CatapultCache C, createDelta k = Ok (k', contents k) ∧ releaseDelta k' = k ∧ m_pCacheHeight k' = m_pCacheHeight k.
Proof.
  intros Hd. destruct (create_deltas_run (m_pCacheHeight k) _ Hd) as (caches' & Hrun & Hrel & _).
  unfold createDelta. rewrite Hrun. cbn [mbind result_bind]. eexists. split_and!; [done| |done]. unfold releaseDelta. simpl. rewrite Hrel. by destruct k.
Qed.

Context `{!Equiv V, !ViewEquiv V, !SubCacheLaws C V}.

(** A commit installs the delta. *)
Lemma commit_installs d height (k k' : CatapultCache C) :
  commit d height k = (k', Ok tt) →
  detached (releaseDelta k') ∧ contents (releaseDelta k') ≡ setHeight height d ∧ m_pCacheHeight (releaseDelta k') = height.
Proof.
  unfold commit. destruct (commit_all d (m_subCaches k)) as [cs [[]|]] eqn:Hc; [|done]. intros [= <-]. split_and!; [| |done].
  - unfold detached, releaseDelta. simpl. apply Forall_forall. intros o [o' [-> _]]%list_elem_of_fmap x Hx.
    destruct o' as [y|]; simplify_eq/=. done.
  - unfold contents, releaseDelta. simpl. revert d cs Hc. induction (m_subCaches k) as [|[x|] caches IH]; intros [|[v|] d] cs Hc; cbn [commit_all] in Hc; try done.
    + by injection Hc as <-.
    + unfold sync_commit in Hc. destruct (m_hasDelta x); [|done]. simpl in Hc. destruct (commit_all d caches) as [cs1 r] eqn:E. injection Hc as <- ->.
      constructor; [|by apply IH]. constructor. apply law_commit_createDelta.
    + destruct (commit_all d caches) as [cs1 r] eqn:E. injection Hc as <- ->. constructor; [done|by apply IH].
Qed.

End attached.

(** * Examples *)

(** A cache of one number, with a merkle root if it is [hashed]. *)
Record sample_view := {
  sample_value : Z; sample_hashed : bool; sample_root : list Z; sample_height : Z; sample_backup : Z }.

Definition set_value (value : Z) (root : list Z) (v : sample_view) : sample_view :=
  {| sample_value := value; sample_hashed := sample_hashed v; sample_root := root; sample_height := sample_height v;
     sample_backup := sample_backup v |}.

#[local] Instance sample_SubCacheView : SubCacheView sample_view := {
  view_enabled v := 2 <=? sample_height v;
  view_setHeight height v := {| sample_value := sample_value v; sample_hashed := sample_hashed v; sample_root := sample_root v;
                                sample_height := height; sample_backup := sample_backup v |};
  view_supportsMerkleRoot := sample_hashed;
  view_tryGetMerkleRoot v := if sample_hashed v then Some (sample_root v) else None;
  view_setMerkleRoot root v := set_value (sample_value v) root v;
  view_updateMerkleRoot _ v := set_value (sample_value v) (replicate 32 (sample_value v mod 256)) v;
  view_backupChanges _ v := {| sample_value := sample_value v; sample_hashed := sample_hashed v; sample_root := sample_root v;
                               sample_height := sample_height v; sample_backup := sample_value v |};
  view_restoreChanges v := set_value (sample_backup v) (sample_root v) v;
}.

#[local] Instance sample_ViewLaws : ViewLaws sample_view.
Proof.
  split.
  - intros v. simpl. destruct (sample_hashed v); split; try done; by intros [? ?].
  - intros root v Hv. simpl in *. by rewrite Hv.
  - done.
  - done.
Qed.

(** The committed cache is the number and whether it has a root. *)
#[local] Instance sample_SubCache : SubCache (Z * bool) sample_view := {
  cache_createView h c := {| sample_value := fst c; sample_hashed := snd c; sample_root := []; sample_height := h; sample_backup := 0 |};
  cache_createDelta h c := {| sample_value := fst c; sample_hashed := snd c; sample_root := []; sample_height := h; sample_backup := 0 |};
  cache_createDetachedDelta h c :=
    {| sample_value := fst c; sample_hashed := snd c; sample_root := []; sample_height := h; sample_backup := 0 |};
  cache_commit v _ := (sample_value v, sample_hashed v);
}.

Definition sample_cache : CatapultCache (Z * bool) :=
  {| m_pConfigHeight := 7; m_pCacheHeight := 7;
     m_subCaches := [Some (new_SynchronizedCache (300, true)); None; Some (new_SynchronizedCache (5, false))] |}.

(** A delta in which the first sub cache is changed, and the cache with it committed. *)
Definition sample_delta : CatapultCacheDelta sample_view :=
  match createDelta sample_cache with Ok (_, Some v :: d) => Some (set_value 301 [] v) :: d | _ => [] end.

Definition sample_commit : CatapultCache (Z * bool) :=
  match createDelta sample_cache with Ok (k, _) => fst (commit sample_delta 8 k) | _ => sample_cache end.

Lemma sample_life : life 1 sample_cache sample_commit.
Proof. eapply (life_commit _ _ _ _ sample_delta 8); [eapply life_create; [apply life_start|reflexivity]|reflexivity]. Qed.

Lemma detached_delta_valid_until_commit_witness :
  tryLock sample_cache (fst (createDetachableDelta 1 sample_cache)) = Some (detached_contents 8 sample_cache)
  ∧ tryLock sample_commit (fst (createDetachableDelta 1 sample_cache)) = None.
Proof.
  assert (counted sample_cache) as Hc.
  { unfold counted, counters. simpl. repeat (apply Forall_cons; split); try done; intros x [= <-]; by unfold in_range. }
  split.
  - rewrite (detached_delta_valid_until_commit sample_cache 0 sample_cache 1 (fst (createDetachableDelta 1 sample_cache)) 8);
      [done|done| |constructor|done|done]. eexists. by left.
  - rewrite (detached_delta_valid_until_commit sample_cache 1 sample_commit 1 (fst (createDetachableDelta 1 sample_cache)) 8);
      [done|done| |exact sample_life|done|done]. eexists. by left.
Defined.

(** The roots of the delta at height 8 put back into a delta at height 9. *)
Lemma merkle_roots_put_back_witness :
  snd (setSubCacheMerkleRoots [replicate 32 44] (detached_contents 9 sample_cache)) = Ok tt
  ∧ snd (setSubCacheMerkleRoots [replicate 32 44; replicate 32 1] (detached_contents 9 sample_cache)) = Throw invalid_argument.
Proof.
  destruct (merkle_roots_put_back (λ b, b) (detached_contents 9 sample_cache) (detached_contents 8 sample_cache) 8
    (fst (calculateStateHash (λ b, b) 8 (detached_contents 8 sample_cache)))
    {| StateHash := replicate 32 44; SubCacheMerkleRoots := [replicate 32 44] |}) as [(vs' & Hset & _) Hmore].
  - repeat constructor.
  - reflexivity.
  - cbn [SubCacheMerkleRoots] in Hset, Hmore. rewrite Hset. split; [done|]. exact (Hmore (replicate 32 1) []).
Defined.

End CatapultCache.
