(* ===== verification/MerkleHashBuilder.v ===== *)
(** Model of catapult/crypto/MerkleHashBuilder.cpp, which builds the root and the
    nodes of the merkle tree over the hashes of the transactions of a block.

    The code works in place: every level overwrites the first half of the vector
    that holds the level below it.  The file shows that this computes the levels
    of the tree, each one padded with a copy of its last node when their number
    is odd, and what this padding means for the root. *)
From stdpp Require Import base tactics numbers option list.
From S2P Require Import Prelude.

Local Open Scope Z_scope.

Module MerkleHash.

Section builder.
(** A hash, the hash of two hashes that follow each other, and the zero hash. *)
Context {Hash : Type} (Sha3_256 : Hash → Hash → Hash) (zero : Hash).
Implicit Types (hashes tree : list Hash).

(** * The code *)

Definition update (hash : Hash) hashes : list Hash := hashes ++ [hash].

(** The inner loop.  The vector, the number of hashes that remain, and what the
    hash consumer was given; a read outside the vector has no meaning. *)
Fixpoint level_loop (fuel i numRemainingHashes : nat) hashes tree : result (list Hash * nat * list Hash) :=
  match fuel with
  | O => Throw undefined_behaviour
  | S fuel =>
      if (i <? numRemainingHashes)%nat then
        match hashes !! i with
        | None => Throw undefined_behaviour
        | Some a =>
            if (S i <? numRemainingHashes)%nat then
              match hashes !! S i with
              | None => Throw undefined_behaviour
              | Some b =>
                  let h := Sha3_256 a b in
                  level_loop fuel (i + 2) numRemainingHashes (<[(i / 2)%nat := h]> hashes) (tree ++ [h])
              end
            else
              let h := Sha3_256 a a in
              level_loop fuel (i + 2) (S numRemainingHashes) (<[(i / 2)%nat := h]> hashes) (tree ++ [h])
        end
      else Ok (hashes, numRemainingHashes, tree)
  end.

(** The outer loop. *)
Fixpoint tree_loop (fuel numRemainingHashes : nat) hashes tree : result (list Hash * list Hash) :=
  match fuel with
  | O => Throw undefined_behaviour
  | S fuel =>
      if (1 <? numRemainingHashes)%nat then
        tree ← (if (numRemainingHashes mod 2 =? 1)%nat then
                  match hashes !! (numRemainingHashes - 1)%nat with
                  | None => Throw undefined_behaviour
                  | Some h => Ok (tree ++ [h])
                  end
                else Ok tree);
        '(hashes, numRemainingHashes, tree) ← level_loop (S numRemainingHashes) 0 numRemainingHashes hashes tree;
        tree_loop fuel (numRemainingHashes / 2) hashes tree
      else Ok (hashes, tree)
  end.

Definition Final hashes : result (Hash * list Hash) :=
  match hashes with
  | [] => Ok (zero, [zero])
  | _ =>
      '(hashes', tree) ← tree_loop (S (length hashes)) (length hashes) hashes hashes;
      match hashes' with h :: _ => Ok (h, tree) | [] => Throw undefined_behaviour end
  end.

(** [final] for the root and for the tree. *)
Definition final_hash hashes : result Hash := '(h, _) ← Final hashes; Ok h.
Definition final_tree hashes : result (list Hash) := '(_, tree) ← Final hashes; Ok tree.

(** [TreeSize]; the counter at least halves, rounded up. *)
Fixpoint tree_size_loop (fuel i size : nat) : nat :=
  match fuel with
  | O => size
  | S fuel => if (1 <? i)%nat then tree_size_loop fuel ((i + 1) / 2) (size + i) else size
  end.

Definition TreeSize (leafCount : nat) : nat :=
  let adjustedLeafCount :=
    if (leafCount =? 1)%nat then 1%nat else if (leafCount mod 2 =? 0)%nat then leafCount else S leafCount in
  let size := tree_size_loop (S adjustedLeafCount) adjustedLeafCount 0 in
  if (2 <=? size)%nat then S size else 1%nat.

(** * The tree *)

(** The level above a level. *)
Fixpoint parents hashes : list Hash :=
  match hashes with
  | a :: b :: hashes => Sha3_256 a b :: parents hashes
  | [a] => [Sha3_256 a a]
  | [] => []
  end.

(** A level with its padding. *)
Definition padded hashes : list Hash :=
  if (length hashes mod 2 =? 1)%nat then hashes ++ (match last hashes with Some h => [h] | None => [] end) else hashes.

(** The levels up to the root. *)
Fixpoint root_of (fuel : nat) hashes : Hash :=
  match fuel, hashes with
  | _, [h] => h
  | S fuel, _ :: _ => root_of fuel (parents hashes)
  | _, _ => zero
  end.

Fixpoint nodes_of (fuel : nat) hashes : list Hash :=
  match fuel, hashes with
  | _, [h] => [h]
  | S fuel, _ :: _ => padded hashes ++ nodes_of fuel (parents hashes)
  | _, _ => [zero]
  end.

Definition merkle_root hashes : Hash := root_of (length hashes) hashes.
Definition merkle_nodes hashes : list Hash := nodes_of (length hashes) hashes.

(** ** A level *)

Lemma list_pair_ind {A} (P : list A → Prop) : P [] → (∀ a, P [a]) → (∀ a b l, P l → P (a :: b :: l)) → ∀ l, P l.
Proof.
  intros H0 H1 H2 l. enough (P l ∧ ∀ a, P (a :: l)) by tauto. induction l as [|x l [IH1 IH2]]; [auto|]. split; [apply IH2|]. auto.
Qed.

Lemma length_parents hashes : length (parents hashes) = ((length hashes + 1) / 2)%nat.
Proof.
  induction hashes as [|a|a b l IH] using list_pair_ind; [done|done|]. simpl parents. cbn [length]. rewrite IH.
  replace (S (S (length l)) + 1)%nat with (length l + 1 + 1 * 2)%nat by lia. rewrite Nat.div_add by lia. lia.
Qed.

Lemma half_even n : (2 * n / 2 = n)%nat.
Proof. rewrite Nat.mul_comm. apply Nat.div_mul. lia. Qed.

(** Replacing the first element behind a prefix. *)
Lemma insert_at_length {A} (l : list A) x y k : <[length l := x]> (l ++ y :: k) = l ++ x :: k.
Proof. by rewrite insert_app_r_alt, Nat.sub_diag by lia. Qed.

(** The vector is made of the nodes that were made, the ones they were made of
    and that were not overwritten, the rest of the level, and what lies behind. *)
Lemma level_loop_run rest made used behind tree fuel :
  length used = length made → (length rest < fuel)%nat →
  ∃ behind', level_loop fuel (2 * length made) (length (made ++ used ++ rest)) (made ++ used ++ rest ++ behind) tree
    = Ok (made ++ parents rest ++ behind', (length (made ++ used ++ rest) + length rest mod 2)%nat, tree ++ parents rest).
Proof.
  revert made used tree fuel. induction rest as [|a|a b rest IH] using list_pair_ind; intros made used tree [|fuel] Hlen Hfuel;
    try (simpl in Hfuel; lia); cbn [level_loop].
  - rewrite (proj2 (Nat.ltb_ge _ _)) by (rewrite !length_app; simpl; lia). exists (used ++ behind). simpl. by rewrite !app_nil_r, Nat.add_0_r.
  - rewrite (proj2 (Nat.ltb_lt _ _)) by (rewrite !length_app; simpl; lia).
    assert ((made ++ used ++ [a] ++ behind) !! (2 * length made)%nat = Some a) as ->.
    { rewrite app_assoc. apply list_lookup_middle. rewrite length_app. lia. }
    rewrite (proj2 (Nat.ltb_ge _ _)) by (rewrite !length_app; simpl; lia). rewrite half_even.
    destruct fuel as [|fuel]; [simpl in Hfuel; lia|]. cbn [level_loop].
    rewrite (proj2 (Nat.ltb_ge _ _)) by (rewrite !length_app; simpl; lia).
    destruct (used ++ [a] ++ behind) as [|y k] eqn:Hy; [by destruct used|]. exists k. rewrite insert_at_length. simpl.
    by rewrite Nat.add_1_r.
  - rewrite (proj2 (Nat.ltb_lt _ _)) by (rewrite !length_app; simpl; lia).
    assert ((made ++ used ++ (a :: b :: rest) ++ behind) !! (2 * length made)%nat = Some a) as ->.
    { rewrite app_assoc. apply list_lookup_middle. rewrite length_app. lia. }
    rewrite (proj2 (Nat.ltb_lt _ _)) by (rewrite !length_app; simpl; lia).
    assert ((made ++ used ++ (a :: b :: rest) ++ behind) !! S (2 * length made) = Some b) as ->.
    { rewrite app_assoc. change ((a :: b :: rest) ++ behind) with ([a] ++ b :: rest ++ behind). rewrite app_assoc.
      apply list_lookup_middle. rewrite !length_app. simpl. lia. }
    rewrite half_even. destruct (used ++ [a; b]) as [|y used'] eqn:Hy; [by destruct used|].
    assert (used ++ (a :: b :: rest) ++ behind = y :: used' ++ rest ++ behind) as Heq.
    { change ((a :: b :: rest) ++ behind) with ([a; b] ++ rest ++ behind). by rewrite app_assoc, Hy. }
    rewrite Heq, insert_at_length. apply (f_equal length) in Hy. rewrite length_app in Hy. simpl in Hy, Hfuel.
    destruct (IH (made ++ [Sha3_256 a b]) used' (tree ++ [Sha3_256 a b]) fuel) as [behind' Hrun]; [rewrite length_app; simpl; lia|lia|].
    exists behind'. rewrite <-!app_assoc in Hrun. simpl app in Hrun.
    replace (2 * length (made ++ [Sha3_256 a b]))%nat with (2 * length made + 2)%nat in Hrun by (rewrite length_app; simpl; lia).
    replace (length (made ++ Sha3_256 a b :: used' ++ rest)) with (length (made ++ used ++ a :: b :: rest)) in Hrun
      by (rewrite !length_app; simpl; rewrite !length_app; lia).
    rewrite Hrun. simpl parents. f_equal. f_equal. f_equal. f_equal. simpl length.
    replace (S (S (length rest))) with (length rest + 1 * 2)%nat by lia. by rewrite Nat.Div0.mod_add.
Qed.

(** ** All levels *)

Lemma parents_smaller hashes : (2 ≤ length hashes)%nat → (1 ≤ length (parents hashes) < length hashes)%nat.
Proof.
  rewrite length_parents. intros H. split.
  - apply Nat.div_le_lower_bound; lia.
  - apply Nat.Div0.div_lt_upper_bound. lia.
Qed.

Lemma half_padded n : ((n + n mod 2) / 2 = (n + 1) / 2)%nat.
Proof.
  pose proof (Nat.div_mod_eq n 2) as Hd. pose proof (Nat.mod_upper_bound n 2 ltac:(lia)) as Hm.
  destruct (n mod 2)%nat as [|[|k]]; [|done|lia]. rewrite Nat.add_0_r in *. rewrite Hd at 2.
  rewrite (Nat.add_comm (2 * _)), (Nat.mul_comm 2), Nat.div_add by lia. done.
Qed.

Lemma tree_loop_run k level behind above fuel :
  (1 ≤ length level ≤ k)%nat → (k < fuel)%nat →
  ∃ behind', tree_loop fuel (length level) (level ++ behind) (above ++ level)
    = Ok (root_of k level :: behind', above ++ nodes_of k level).
Proof.
  revert level behind above fuel. induction k as [|k IH]; intros level behind above [|fuel] Hlen Hfuel; try lia.
  destruct level as [|a [|b level1]] eqn:Hl; [simpl in Hlen; lia|by exists behind|]. rewrite <-Hl in *.
  assert (2 ≤ length level)%nat as H2 by (rewrite Hl; simpl; lia). pose proof (parents_smaller _ H2) as Hp.
  cbn [tree_loop]. rewrite (proj2 (Nat.ltb_lt _ _)) by lia.
  set (above' := above ++ padded level).
  assert ((if (length level mod 2 =? 1)%nat then
             match (level ++ behind) !! (length level - 1)%nat with Some h => Ok ((above ++ level) ++ [h]) | None => Throw undefined_behaviour end
           else Ok (above ++ level)) = Ok above') as ->.
  { unfold above', padded. destruct (length level mod 2 =? 1)%nat; [|done]. rewrite lookup_app_l by lia.
    rewrite last_lookup. replace (pred (length level)) with (length level - 1)%nat by lia.
    destruct (level !! _) eqn:Hlast; [by rewrite app_assoc|]. apply lookup_ge_None in Hlast. lia. }
  destruct (level_loop_run level [] [] behind above' (S (length level)) eq_refl ltac:(lia)) as [behind1 Hrun].
  cbn [length app Nat.mul Nat.add] in Hrun. cbn [mbind result_bind]. rewrite Hrun. cbn [mbind result_bind]. rewrite half_padded, <-length_parents.
  destruct (IH (parents level) behind1 above' fuel) as [behind2 Hloop]; [lia|lia|]. rewrite Hloop. exists behind2.
  rewrite Hl. cbn [root_of nodes_of]. rewrite <-Hl. by rewrite app_assoc.
Qed.

Lemma Final_run hashes : Final hashes = Ok (merkle_root hashes, merkle_nodes hashes).
Proof.
  unfold Final, merkle_root, merkle_nodes. destruct hashes as [|h rest] eqn:Hh; [done|]. rewrite <-Hh.
  destruct (tree_loop_run (length hashes) hashes [] [] (S (length hashes))) as [behind Hrun]; [rewrite Hh; simpl; lia|lia|].
  rewrite app_nil_r in Hrun. cbn [app] in Hrun. by rewrite Hrun.
Qed.

(** C28. The merkle tree is built in place.  For every list of hashes the builder
    ends and gives the root of the tree over them, and its nodes level by level
    from the leaves on, each level padded with a copy of its last node if it has
    an odd number of nodes; the root over no hashes is the zero hash. *)
Theorem Final_builds_tree hashes :
  final_hash hashes = Ok (merkle_root hashes) ∧ final_tree hashes = Ok (merkle_nodes hashes).
Proof. unfold final_hash, final_tree. by rewrite Final_run. Qed.

(** ** Padding *)

Lemma root_of_fuel k hashes : (length hashes ≤ k)%nat → root_of k hashes = merkle_root hashes.
Proof.
  unfold merkle_root. remember (length hashes) as n eqn:Hn. revert k hashes Hn.
  induction n as [n IH] using lt_wf_ind. intros k hashes Hn Hk.
  destruct hashes as [|a [|b hashes]]; simpl in Hn; [subst; by destruct k|subst; by destruct k|].
  destruct k as [|k]; [lia|]. destruct n as [|n]; [lia|]. cbn [root_of].
  pose proof (parents_smaller (a :: b :: hashes) ltac:(simpl; lia)) as Hp. cbn [length] in Hp.
  set (l := parents (a :: b :: hashes)) in *. by rewrite (IH (length l) ltac:(lia) k l eq_refl ltac:(lia)), (IH (length l) ltac:(lia) n l eq_refl ltac:(lia)).
Qed.

Lemma merkle_root_step hashes : (2 ≤ length hashes)%nat → merkle_root hashes = merkle_root (parents hashes).
Proof.
  intros H2. pose proof (parents_smaller _ H2). unfold merkle_root at 1.
  destruct hashes as [|a [|b hashes]]; simpl in H2; [lia|lia|]. cbn [length] in *.
  change (root_of (S (length hashes)) (parents (a :: b :: hashes)) = merkle_root (parents (a :: b :: hashes))). apply root_of_fuel. lia.
Qed.

Lemma parents_padded hashes : parents (padded hashes) = parents hashes.
Proof.
  unfold padded. induction hashes as [|a|a b l IH] using list_pair_ind; [done|done|].
  simpl length. replace (S (S (length l))) with (length l + 1 * 2)%nat by lia. rewrite Nat.Div0.mod_add.
  destruct (length l mod 2 =? 1)%nat eqn:Hodd; [|done].
  assert (l ≠ []) as Hl by (by intros ->). replace (last (a :: b :: l)) with (last l); [|destruct l; [done|by rewrite !last_cons_cons]].
  cbn [app parents]. by rewrite IH.
Qed.

(** A list of hashes and the list with its padding have the same root. *)
Lemma merkle_root_padded hashes : (2 ≤ length hashes)%nat → merkle_root (padded hashes) = merkle_root hashes.
Proof.
  intros H2. rewrite (merkle_root_step hashes), (merkle_root_step (padded hashes)); [by rewrite parents_padded| |done].
  unfold padded. destruct (_ =? _)%nat; [|done]. rewrite length_app. lia.
Qed.

End builder.

(** [TreeSize] counts the padding of the leaves only, so that it is less than the
    number of nodes when a level between the leaves and the root is padded. *)
Example TreeSize_five : TreeSize 5 = 12%nat ∧ length (merkle_nodes Z.add 0 [1; 2; 3; 4; 5]) = 13%nat.
Proof. done. Qed.

End MerkleHash.
