(* ===== verification/StatementBuilder.v ===== *)
(** Model of the builder of block statements: catapult/model/
    BlockStatementBuilder.cpp, the deep copies of BlockStatement.cpp, and the
    observers' access to it (catapult/observers/ObserverStatementBuilder.cpp).

    The file shows that popping a source takes back exactly the receipts and
    resolutions that were added since the source was set, which is what makes a
    refused transaction leave no trace in the receipts of a harvested block. *)
From stdpp Require Import base tactics numbers option list sorting.
From S2P Require Import Prelude Streams BlockElements.

Local Open Scope Z_scope.

Module StatementBuilder.
Import Elements.

(** * Maps *)

Section maps.
Context {K V : Type} (ltb : K → K → bool).

Definition key_eqb (a b : K) : bool := negb (ltb a b) && negb (ltb b a).

Fixpoint std_find (k : K) (m : list (K * V)) : option V :=
  match m with
  | [] => None
  | (k', v) :: m => if key_eqb k k' then Some v else std_find k m
  end.

(** [iter->second = v] for the iterator of the key. *)
Fixpoint std_assign (k : K) (v : V) (m : list (K * V)) : list (K * V) :=
  match m with
  | [] => []
  | (k', v') :: m => if key_eqb k k' then (k', v) :: m else (k', v') :: std_assign k v m
  end.

End maps.

(** * Deep copies *)

(** The receipts of one statement, added again one by one. *)
Fixpoint copy_receipts (receipts : list (list Z)) (statement : Statement) : result Statement :=
  match receipts with
  | [] => Ok statement
  | receipt :: receipts => statement ← addReceipt receipt statement; copy_receipts receipts statement
  end.

Fixpoint CopyStatements (destination source : list (ReceiptSource * Statement)) (maxSourcePrimaryId : Z)
    : result (list (ReceiptSource * Statement)) :=
  match source with
  | [] => Ok destination
  | (key, s) :: source =>
      if maxSourcePrimaryId <? PrimaryId key then CopyStatements destination source maxSourcePrimaryId
      else
        statement ← copy_receipts (statement_receipts s) {| statement_source := key; statement_receipts := [] |};
        CopyStatements (map_emplace ReceiptSource_ltb key statement destination) source maxSourcePrimaryId
  end.

Fixpoint copy_resolutions {K R} (entries : list (R * ReceiptSource)) (maxSourcePrimaryId : Z) (statement : ResolutionStatement K R)
    : ResolutionStatement K R :=
  match entries with
  | [] => statement
  | (resolved, source) :: entries =>
      copy_resolutions entries maxSourcePrimaryId
        (if maxSourcePrimaryId <? PrimaryId source then statement else addResolution resolved source statement)
  end.

Fixpoint CopyResolutionStatements {K R} (ltb : K → K → bool) (destination source : list (K * ResolutionStatement K R))
    (maxSourcePrimaryId : Z) : list (K * ResolutionStatement K R) :=
  match source with
  | [] => destination
  | (key, s) :: source =>
      let statement := copy_resolutions (resolution_entries s) maxSourcePrimaryId {| unresolved := key; resolution_entries := [] |} in
      CopyResolutionStatements ltb
        (if bool_decide (resolution_entries statement = []) then destination else map_emplace ltb key statement destination)
        source maxSourcePrimaryId
  end.

Definition DeepCopyTo (destination source : BlockStatement) (maxSourcePrimaryId : Z) : result BlockStatement :=
  transactions ← CopyStatements (TransactionStatements destination) (TransactionStatements source) maxSourcePrimaryId;
  publicKeys ← CopyStatements (PublicKeyStatements destination) (PublicKeyStatements source) maxSourcePrimaryId;
  Ok {| TransactionStatements := transactions;
        AddressResolutionStatements :=
          CopyResolutionStatements bytes_ltb (AddressResolutionStatements destination) (AddressResolutionStatements source)
            maxSourcePrimaryId;
        MosaicResolutionStatements :=
          CopyResolutionStatements Z.ltb (MosaicResolutionStatements destination) (MosaicResolutionStatements source)
            maxSourcePrimaryId;
        PublicKeyStatements := publicKeys |}.

(** * The builder *)

(** Building moves the statement out. *)
Record BlockStatementBuilder := { m_activeSource : ReceiptSource; m_pStatement : option BlockStatement }.

Definition new_BlockStatementBuilder : BlockStatementBuilder :=
  {| m_activeSource := {| PrimaryId := 0; SecondaryId := 0 |}; m_pStatement := Some empty_BlockStatement |}.

Definition setSource (source : ReceiptSource) (b : BlockStatementBuilder) : BlockStatementBuilder :=
  {| m_activeSource := source; m_pStatement := m_pStatement b |}.

Definition on_statement (f : ReceiptSource → BlockStatement → result BlockStatement) : Exec BlockStatementBuilder unit := λ b,
  match m_pStatement b with
  | None => (b, Throw undefined_behaviour)
  | Some s => match f (m_activeSource b) s with
              | Ok s' => ({| m_activeSource := m_activeSource b; m_pStatement := Some s' |}, Ok tt)
              | Throw e => (b, Throw e)
              end
  end.

Definition popSource : Exec BlockStatementBuilder unit := λ b,
  if 0 =? PrimaryId (m_activeSource b) then (b, Ok tt)
  else
    on_statement (λ source s, DeepCopyTo empty_BlockStatement s (PrimaryId source))
      (setSource {| PrimaryId := u32 (PrimaryId (m_activeSource b) - 1); SecondaryId := 0 |} b).

Definition add_receipt (activeSource : ReceiptSource) (receipt : list Z) (statements : list (ReceiptSource * Statement))
    : result (list (ReceiptSource * Statement)) :=
  match std_find ReceiptSource_ltb activeSource statements with
  | None =>
      statement ← addReceipt receipt {| statement_source := activeSource; statement_receipts := [] |};
      Ok (map_emplace ReceiptSource_ltb activeSource statement statements)
  | Some statement =>
      statement ← addReceipt receipt statement; Ok (std_assign ReceiptSource_ltb activeSource statement statements)
  end.

Definition addTransactionReceipt (receipt : list Z) : Exec BlockStatementBuilder unit :=
  on_statement (λ source s,
    statements ← add_receipt source receipt (TransactionStatements s);
    Ok {| TransactionStatements := statements; AddressResolutionStatements := AddressResolutionStatements s;
          MosaicResolutionStatements := MosaicResolutionStatements s; PublicKeyStatements := PublicKeyStatements s |}).

Definition addPublicKeyReceipt (receipt : list Z) : Exec BlockStatementBuilder unit :=
  on_statement (λ source s,
    statements ← add_receipt source receipt (PublicKeyStatements s);
    Ok {| TransactionStatements := TransactionStatements s; AddressResolutionStatements := AddressResolutionStatements s;
          MosaicResolutionStatements := MosaicResolutionStatements s; PublicKeyStatements := statements |}).

Definition AddResolution {K R} (ltb : K → K → bool) (source : ReceiptSource) (unresolved : K) (resolved : R)
    (statements : list (K * ResolutionStatement K R)) : list (K * ResolutionStatement K R) :=
  match std_find ltb unresolved statements with
  | None => map_emplace ltb unresolved (addResolution resolved source {| Elements.unresolved := unresolved; resolution_entries := [] |})
              statements
  | Some statement => std_assign ltb unresolved (addResolution resolved source statement) statements
  end.

Definition addAddressResolution (unresolved resolved : list Z) : Exec BlockStatementBuilder unit :=
  on_statement (λ source s,
    Ok {| TransactionStatements := TransactionStatements s;
          AddressResolutionStatements := AddResolution bytes_ltb source unresolved resolved (AddressResolutionStatements s);
          MosaicResolutionStatements := MosaicResolutionStatements s; PublicKeyStatements := PublicKeyStatements s |}).

Definition addMosaicResolution (unresolved resolved : Z) : Exec BlockStatementBuilder unit :=
  on_statement (λ source s,
    Ok {| TransactionStatements := TransactionStatements s; AddressResolutionStatements := AddressResolutionStatements s;
          MosaicResolutionStatements := AddResolution Z.ltb source unresolved resolved (MosaicResolutionStatements s);
          PublicKeyStatements := PublicKeyStatements s |}).

Definition build (b : BlockStatementBuilder) : BlockStatementBuilder * option BlockStatement :=
  ({| m_activeSource := m_activeSource b; m_pStatement := None |}, m_pStatement b).

(** * The observers' access *)

(** A builder that is not attached takes nothing and answers the zero source. *)
Definition observer_source (attached : bool) (b : BlockStatementBuilder) : ReceiptSource :=
  if attached then m_activeSource b else {| PrimaryId := 0; SecondaryId := 0 |}.

Definition observer_setSource (attached : bool) (source : ReceiptSource) (b : BlockStatementBuilder) : BlockStatementBuilder :=
  if negb attached then b else setSource source b.

Definition observer_addTransactionReceipt (attached : bool) (receipt : list Z) : Exec BlockStatementBuilder unit :=
  if negb attached then mret tt else addTransactionReceipt receipt.

Definition observer_addPublicKeyReceipt (attached : bool) (receipt : list Z) : Exec BlockStatementBuilder unit :=
  if negb attached then mret tt else addPublicKeyReceipt receipt.

(** [Bind]: resolutions that change the value are captured. *)
Definition resolve_mosaic (bound : bool) (resolve : Z → Z) (unresolved : Z) : Exec BlockStatementBuilder Z :=
  let resolved := resolve unresolved in
  if bound && negb (resolved =? unresolved)
  then addMosaicResolution unresolved resolved ≫= λ _, mret resolved else mret resolved.

Definition resolve_address (bound : bool) (resolve : list Z → list Z) (unresolved : list Z) : Exec BlockStatementBuilder (list Z) :=
  let resolved := resolve unresolved in
  if bound && negb (bool_decide (resolved = unresolved))
  then addAddressResolution unresolved resolved ≫= λ _, mret resolved else mret resolved.

(** * Taking back a source *)

(** ** Maps *)

Section map_lemmas.
Context {K V : Type} (ltb : K → K → bool).
Implicit Types (m : list (K * V)).

Lemma std_find_elem k m v : std_find ltb k m = Some v → ∃ k', key_eqb ltb k k' = true ∧ (k', v) ∈ m.
Proof.
  induction m as [|[k' v'] m IH]; simpl; [done|]. destruct (key_eqb ltb k k') eqn:Hk.
  - intros [= <-]. exists k'. split; [done|by left].
  - intros (k1 & H1 & H2)%IH. exists k1. split; [done|by right].
Qed.

Lemma std_assign_keys k v m : (std_assign ltb k v m).*1 = m.*1.
Proof. induction m as [|[k' v'] m IH]; csimpl; [done|]. destruct (key_eqb ltb k k'); csimpl; by f_equal. Qed.

(** What maps entries to [None] is not seen. *)
Lemma omap_emplace {W} (f : K * V → option W) k v m : f (k, v) = None → omap f (map_emplace ltb k v m) = omap f m.
Proof.
  intros Hf. induction m as [|[k' v'] m IH]; csimpl; [by rewrite Hf|].
  destruct (ltb k k'); [csimpl; by rewrite Hf|]. destruct (ltb k' k); csimpl; [|done]. by rewrite IH.
Qed.

Lemma omap_assign {W} (f : K * V → option W) k v v0 m :
  std_find ltb k m = Some v0 → (∀ k', key_eqb ltb k k' = true → f (k', v) = f (k', v0)) →
  omap f (std_assign ltb k v m) = omap f m.
Proof.
  intros Hfind Hf. induction m as [|[k' v'] m IH]; simpl in *; [done|]. destruct (key_eqb ltb k k') eqn:Hk.
  - injection Hfind as ->. csimpl. by rewrite (Hf k' Hk).
  - csimpl. by rewrite IH.
Qed.

Lemma Forall_assign (P : K * V → Prop) k v m :
  (∀ k', key_eqb ltb k k' = true → P (k', v)) → Forall P m → Forall P (std_assign ltb k v m).
Proof.
  intros Hv. induction 1 as [|[k' v'] m Hp Hm IH]; simpl; [done|].
  destruct (key_eqb ltb k k') eqn:Hk; constructor; auto.
Qed.

Lemma Forall_emplace (P : K * V → Prop) k v m : P (k, v) → Forall P m → Forall P (map_emplace ltb k v m).
Proof.
  intros Hv. induction 1 as [|[k' v'] m Hp Hm IH]; simpl; [by constructor|].
  destruct (ltb k k'); [by repeat constructor|]. destruct (ltb k' k); by repeat constructor.
Qed.

Lemma emplace_sorted k v m :
  (∀ a b c, ltb a b = true → ltb b c = true → ltb a c = true) →
  StronglySorted (λ a b, ltb a b = true) m.*1 → StronglySorted (λ a b, ltb a b = true) (map_emplace ltb k v m).*1.
Proof.
  intros Htrans. induction m as [|[k' v'] m IH]; simpl; intros Hs; [by repeat constructor|].
  apply StronglySorted_inv in Hs as [Hs Hk'].
  destruct (ltb k k') eqn:H1; simpl.
  - constructor; [by constructor|]. constructor; [done|]. eapply Forall_impl; [exact Hk'|]. intros x Hx. by eapply Htrans.
  - destruct (ltb k' k) eqn:H2; simpl; [|by constructor]. constructor; [by apply IH|].
    apply Forall_fmap. apply Forall_emplace; [done|]. by apply Forall_fmap in Hk'.
Qed.

End map_lemmas.

(** ** What remains below a source *)

Definition low_statement (p : Z) (e : ReceiptSource * Statement) : option (ReceiptSource * Statement) :=
  if p <? PrimaryId (fst e) then None else Some e.

Definition low_resolution {K R} (p : Z) (e : K * ResolutionStatement K R) : option (K * ResolutionStatement K R) :=
  let entries := filter (λ x : R * ReceiptSource, PrimaryId (snd x) ≤ p) (resolution_entries (snd e)) in
  match entries with [] => None | _ => Some (fst e, {| unresolved := fst e; resolution_entries := entries |}) end.

Definition below (p : Z) (s : BlockStatement) : BlockStatement := {|
  TransactionStatements := omap (low_statement p) (TransactionStatements s);
  AddressResolutionStatements := omap (low_resolution p) (AddressResolutionStatements s);
  MosaicResolutionStatements := omap (low_resolution p) (MosaicResolutionStatements s);
  PublicKeyStatements := omap (low_statement p) (PublicKeyStatements s);
|}.

(** Statements that were added by the builder. *)
Definition built_statements (m : list (ReceiptSource * Statement)) : Prop :=
  StronglySorted (λ a b, ReceiptSource_ltb a b = true) m.*1
  ∧ Forall (λ e, statement_source (snd e) = fst e
                 ∧ Forall (λ r, sizeof_Receipt ≤ Size r) (statement_receipts (snd e))
                 ∧ StronglySorted (λ a b, Receipt_Type a ≤ Receipt_Type b) (statement_receipts (snd e))) m.

Definition built_resolutions {K R} (ltb : K → K → bool) (m : list (K * ResolutionStatement K R)) : Prop :=
  StronglySorted (λ a b, ltb a b = true) m.*1 ∧ Forall (λ e, unresolved (snd e) = fst e) m.

Record built (s : BlockStatement) : Prop := {
  built_transactions : built_statements (TransactionStatements s);
  built_addresses : built_resolutions bytes_ltb (AddressResolutionStatements s);
  built_mosaics : built_resolutions Z.ltb (MosaicResolutionStatements s);
  built_publicKeys : built_statements (PublicKeyStatements s);
}.

Lemma ReceiptSource_ltb_trans a b c : ReceiptSource_ltb a b = true → ReceiptSource_ltb b c = true → ReceiptSource_ltb a c = true.
Proof.
  unfold ReceiptSource_ltb. rewrite !orb_true_iff, !andb_true_iff, !Z.ltb_lt, !Z.eqb_eq. lia.
Qed.

Lemma bytes_ltb_trans a b c : bytes_ltb a b = true → bytes_ltb b c = true → bytes_ltb a c = true.
Proof.
  revert b c. induction a as [|x a IH]; intros [|y b] [|z c]; simpl; try done.
  destruct (Z.ltb_spec x y), (Z.ltb_spec y z), (Z.ltb_spec x z); try lia; try done;
    destruct (Z.ltb_spec y x), (Z.ltb_spec z y), (Z.ltb_spec z x); try lia; try done. eauto.
Qed.

Lemma ReceiptSource_key_eqb a b : key_eqb ReceiptSource_ltb a b = true → PrimaryId a = PrimaryId b.
Proof.
  unfold key_eqb, ReceiptSource_ltb. rewrite andb_true_iff, !negb_true_iff, !orb_false_iff, !Z.ltb_ge. lia.
Qed.

Lemma insert_receipt_sorted r l :
  StronglySorted (λ a b, Receipt_Type a ≤ Receipt_Type b) l → StronglySorted (λ a b, Receipt_Type a ≤ Receipt_Type b) (insert_receipt r l).
Proof.
  assert (∀ P l, P r → Forall P l → Forall P (insert_receipt r l)) as Hall.
  { intros P l'. induction l' as [|x l' IH]; simpl; intros Hr Hl; [by constructor|]. apply Forall_cons in Hl as [Hx Hl].
    destruct (_ <? _); repeat constructor; auto. }
  induction l as [|x l IH]; simpl; intros Hs; [by repeat constructor|]. apply StronglySorted_inv in Hs as [Hs Hx].
  destruct (Z.ltb_spec (Receipt_Type r) (Receipt_Type x)).
  - constructor; [by constructor|]. constructor; [lia|]. eapply Forall_impl; [exact Hx|]. intros y Hy. simpl in *. lia.
  - constructor; [auto|]. apply Hall; [lia|done].
Qed.

Lemma addReceipt_ok receipt s s' :
  addReceipt receipt s = Ok s' →
  statement_source s' = statement_source s
  ∧ (Forall (λ r, sizeof_Receipt ≤ Size r) (statement_receipts s) → Forall (λ r, sizeof_Receipt ≤ Size r) (statement_receipts s'))
  ∧ (StronglySorted (λ a b, Receipt_Type a ≤ Receipt_Type b) (statement_receipts s) →
     StronglySorted (λ a b, Receipt_Type a ≤ Receipt_Type b) (statement_receipts s')).
Proof.
  unfold addReceipt. destruct (Z.ltb_spec (Size receipt) sizeof_Receipt); [done|]. intros [= <-]. simpl. split_and!; [done| |].
  - generalize (statement_receipts s). intros l Hl. induction Hl as [|x l Hx Hl IH]; simpl; [by repeat constructor|].
    destruct (_ <? _); by repeat constructor.
  - apply insert_receipt_sorted.
Qed.

Lemma add_receipt_low p source receipt m m' :
  p < PrimaryId source → built_statements m → add_receipt source receipt m = Ok m' →
  omap (low_statement p) m' = omap (low_statement p) m ∧ built_statements m'.
Proof.
  intros Hp [Hs Hall]. unfold add_receipt. destruct (std_find _ source m) as [st|] eqn:Hfind.
  - destruct (addReceipt receipt st) as [st'|] eqn:Hadd; [|done]. cbn [mbind result_bind]. intros [= <-].
    destruct (addReceipt_ok _ _ _ Hadd) as (Hsrc & Hsz & Hsort). split.
    + eapply omap_assign; [done|]. intros k Hk. apply ReceiptSource_key_eqb in Hk. unfold low_statement. simpl.
      by rewrite (proj2 (Z.ltb_lt _ _)) by lia.
    + split; [by rewrite std_assign_keys|]. apply std_find_elem in Hfind as (k' & Hk' & Hin).
      assert (∀ k, key_eqb ReceiptSource_ltb source k = true → k = k') as Hkey.
      { intros k Hk. clear -Hk Hk'. unfold key_eqb, ReceiptSource_ltb in *.
        rewrite andb_true_iff, !negb_true_iff, !orb_false_iff, !andb_false_iff, !Z.ltb_ge, !Z.eqb_neq in *.
        destruct k, k', source. simpl in *. f_equal; lia. }
      apply Forall_assign; [|done]. intros k Hk. rewrite (Hkey k Hk). rewrite Forall_forall in Hall.
      destruct (Hall _ Hin) as (H1 & H2 & H3). simpl in *. rewrite Hsrc. auto.
  - destruct (addReceipt receipt _) as [st'|] eqn:Hadd; [|done]. cbn [mbind result_bind]. intros [= <-].
    destruct (addReceipt_ok _ _ _ Hadd) as (Hsrc & Hsz & Hsort). split.
    + apply omap_emplace. unfold low_statement. simpl. by rewrite (proj2 (Z.ltb_lt _ _)) by lia.
    + split; [apply emplace_sorted; [exact ReceiptSource_ltb_trans|done]|]. apply Forall_emplace; [|done].
      split_and!; [done|apply Hsz; constructor|apply Hsort; constructor].
Qed.

Lemma AddResolution_low {K R} (ltb : K → K → bool) p source u (r : R) m :
  (∀ a b c, ltb a b = true → ltb b c = true → ltb a c = true) → p < PrimaryId source → built_resolutions ltb m →
  omap (low_resolution p) (AddResolution ltb source u r m) = omap (low_resolution p) m
  ∧ built_resolutions ltb (AddResolution ltb source u r m).
Proof.
  intros Htrans Hp [Hs Hall]. unfold AddResolution. destruct (std_find ltb u m) as [st|] eqn:Hfind.
  - split.
    + eapply omap_assign; [done|]. intros k Hk. unfold low_resolution. simpl. rewrite filter_app.
      rewrite (filter_cons_False _ (r, source) []) by (simpl; lia). simpl. by rewrite filter_nil, app_nil_r.
    + split; [by rewrite std_assign_keys|]. clear Hs. induction m as [|[k v] m IH]; simpl in *; [done|].
      apply Forall_cons in Hall as [Hv Hall]. destruct (key_eqb ltb u k).
      * injection Hfind as ->. by constructor.
      * constructor; auto.
  - split.
    + apply omap_emplace. unfold low_resolution. simpl. by rewrite filter_cons_False by (simpl; lia).
    + split; [by apply emplace_sorted|]. by apply Forall_emplace.
Qed.

(** ** Copies *)

Lemma sorted_before {A} (R : A → A → Prop) l1 x l2 : StronglySorted R (l1 ++ x :: l2) → Forall (λ y, R y x) l1.
Proof. intros Hs. apply Forall_forall. intros y Hy. apply (StronglySorted_app_1_elem_of R _ _ _ _ Hs Hy). constructor. Qed.

Lemma sorted_without {A} (R : A → A → Prop) l1 x l2 : StronglySorted R (l1 ++ x :: l2) → StronglySorted R (l1 ++ l2).
Proof.
  intros Hs. apply StronglySorted_app_2.
  - intros x1 x2 Hx1 Hx2. apply (StronglySorted_app_1_elem_of R _ _ _ _ Hs Hx1). by right.
  - by eapply StronglySorted_app_1_l.
  - apply StronglySorted_app_1_r in Hs. by apply StronglySorted_inv in Hs as [Hs _].
Qed.

Lemma copy_receipts_all source l acc :
  Forall (λ r, sizeof_Receipt ≤ Size r) l → StronglySorted (λ a b, Receipt_Type a ≤ Receipt_Type b) (acc ++ l) →
  copy_receipts l {| statement_source := source; statement_receipts := acc |}
  = Ok {| statement_source := source; statement_receipts := acc ++ l |}.
Proof.
  intros Hl. revert acc. induction Hl as [|r l Hr Hl IH]; intros acc Hs; simpl; [by rewrite app_nil_r|].
  unfold addReceipt. rewrite (proj2 (Z.ltb_ge _ _)) by lia. cbn [mbind result_bind statement_source statement_receipts].
  rewrite insert_receipt_last.
  - rewrite IH; [by rewrite <-app_assoc|by rewrite <-app_assoc].
  - exact (sorted_before (λ a b, Receipt_Type a ≤ Receipt_Type b) _ _ _ Hs).
Qed.

Lemma CopyStatements_low p source dest :
  StronglySorted (λ a b, ReceiptSource_ltb a b = true) (dest ++ source).*1 → built_statements source →
  CopyStatements dest source p = Ok (dest ++ omap (low_statement p) source).
Proof.
  revert dest. induction source as [|[k st] source IH]; intros dest Hs Hb; csimpl; [by rewrite app_nil_r|].
  destruct Hb as [Hsk Hall]. csimpl in Hsk. apply StronglySorted_inv in Hsk as [Hsk Hk]. apply Forall_cons in Hall as [(H1 & H2 & H3) Hall].
  simpl in H1, H2, H3. unfold low_statement at 1. csimpl. rewrite fmap_app in Hs. csimpl in Hs. destruct (Z.ltb_spec p (PrimaryId k)).
  - apply IH; [|by split]. rewrite fmap_app. by eapply sorted_without.
  - rewrite copy_receipts_all by done. cbn [mbind result_bind]. rewrite map_emplace_last; [|exact ReceiptSource_ltb_asym|].
    + rewrite IH; [|by rewrite <-app_assoc, fmap_app|by split]. rewrite <-app_assoc. simpl. destruct st. simpl in *. by subst.
    + exact (sorted_before _ _ _ _ Hs).
Qed.

Lemma copy_resolutions_low {K R} p l (s : ResolutionStatement K R) :
  copy_resolutions l p s
  = {| unresolved := unresolved s;
       resolution_entries := resolution_entries s ++ filter (λ x : R * ReceiptSource, PrimaryId (snd x) ≤ p) l |}.
Proof.
  revert s. induction l as [|[r source] l IH]; intros s; simpl; [rewrite filter_nil, app_nil_r; by destruct s|].
  rewrite IH. destruct (Z.ltb_spec p (PrimaryId source)).
  - rewrite filter_cons_False by (simpl; lia). done.
  - rewrite filter_cons_True by (simpl; lia). simpl. by rewrite <-app_assoc.
Qed.

Lemma CopyResolutionStatements_low {K R} (ltb : K → K → bool) p (source dest : list (K * ResolutionStatement K R)) :
  (∀ a b, ltb a b = true → ltb b a = false) →
  StronglySorted (λ a b, ltb a b = true) (dest ++ source).*1 →
  CopyResolutionStatements ltb dest source p = dest ++ omap (low_resolution p) source.
Proof.
  intros Hasym. revert dest. induction source as [|[k st] source IH]; intros dest Hs; csimpl; [by rewrite app_nil_r|].
  rewrite copy_resolutions_low. unfold low_resolution at 1. csimpl. rewrite fmap_app in Hs. csimpl in Hs.
  destruct (filter _ (resolution_entries st)) as [|x l] eqn:E.
  - rewrite bool_decide_true by done. apply IH. rewrite fmap_app. by eapply sorted_without.
  - rewrite bool_decide_false by done. rewrite map_emplace_last; [|done|].
    + rewrite IH; [by rewrite <-app_assoc|by rewrite <-app_assoc, fmap_app].
    + exact (sorted_before _ _ _ _ Hs).
Qed.

Lemma DeepCopyTo_below p s : built s → DeepCopyTo empty_BlockStatement s p = Ok (below p s).
Proof.
  intros [Ht [Ha _] [Hm _] Hp]. unfold DeepCopyTo, below. simpl.
  rewrite (CopyStatements_low p (TransactionStatements s)); [|apply Ht|done].
  rewrite (CopyStatements_low p (PublicKeyStatements s)); [|apply Hp|done]. cbn [mbind result_bind].
  rewrite !CopyResolutionStatements_low; [done|intros a b; rewrite Z.ltb_lt, Z.ltb_ge; lia|done|exact bytes_ltb_asym|done].
Qed.

(** ** Sources *)

(** What observers do to a builder between two changes of the primary source. *)
Inductive within (p : Z) : BlockStatementBuilder → BlockStatementBuilder → Prop :=
| within_nothing b : within p b b
| within_source b b' source : within p b b' → PrimaryId source = p → within p b (setSource source b')
| within_transaction b b' b'' receipt : within p b b' → addTransactionReceipt receipt b' = (b'', Ok tt) → within p b b''
| within_publicKey b b' b'' receipt : within p b b' → addPublicKeyReceipt receipt b' = (b'', Ok tt) → within p b b''
| within_address b b' b'' u r : within p b b' → addAddressResolution u r b' = (b'', Ok tt) → within p b b''
| within_mosaic b b' b'' u r : within p b b' → addMosaicResolution u r b' = (b'', Ok tt) → within p b b''.

(** The statement has the given part below [p], and was built. *)
Definition keeps_below (p : Z) (s : BlockStatement) (b : BlockStatementBuilder) : Prop :=
  PrimaryId (m_activeSource b) = p + 1 ∧ ∃ s', m_pStatement b = Some s' ∧ built s' ∧ below p s' = below p s.

Lemma on_statement_keeps p s f b b' :
  keeps_below p s b → on_statement f b = (b', Ok tt) →
  (∀ source s1 s2, p < PrimaryId source → built s1 → f source s1 = Ok s2 → built s2 ∧ below p s2 = below p s1) →
  keeps_below p s b'.
Proof.
  intros (Hp & s1 & Hs1 & Hb & Hlow) Hrun Hf. unfold on_statement in Hrun. rewrite Hs1 in Hrun.
  destruct (f (m_activeSource b) s1) as [s2|] eqn:Hf2; [|done]. injection Hrun as <-.
  destruct (Hf (m_activeSource b) s1 s2 ltac:(lia) Hb Hf2) as [Hb2 Hlow2]. split; [done|]. exists s2. split_and!; [done|done|congruence].
Qed.

Lemma within_keeps p s b b' : within (p + 1) b b' → keeps_below p s b → keeps_below p s b'.
Proof.
  induction 1 as [b|b b' source Hw IH Hp|b b' b'' r Hw IH Hrun|b b' b'' r Hw IH Hrun|b b' b'' u r Hw IH Hrun|b b' b'' u r Hw IH Hrun];
    intros Hk; [done| | | | |].
  - destruct (IH Hk) as (_ & s' & ?). split; [done|]. by exists s'.
  - eapply on_statement_keeps; [by apply IH|exact Hrun|]. intros source s1 s2 Hp [Ht Ha Hm Hpk].
    destruct (add_receipt _ _ _) as [m|] eqn:Hadd; [|done]. intros [= <-].
    destruct (add_receipt_low p _ _ _ _ Hp Ht Hadd) as [Hlow Hb]. unfold below. simpl. by rewrite Hlow.
  - eapply on_statement_keeps; [by apply IH|exact Hrun|]. intros source s1 s2 Hp [Ht Ha Hm Hpk].
    destruct (add_receipt _ _ _) as [m|] eqn:Hadd; [|done]. intros [= <-].
    destruct (add_receipt_low p _ _ _ _ Hp Hpk Hadd) as [Hlow Hb]. unfold below. simpl. by rewrite Hlow.
  - eapply on_statement_keeps; [by apply IH|exact Hrun|]. intros source s1 s2 Hp [Ht Ha Hm Hpk] [= <-].
    destruct (AddResolution_low bytes_ltb p source u r _ bytes_ltb_trans Hp Ha) as [Hlow Hb]. unfold below. simpl. by rewrite Hlow.
  - eapply on_statement_keeps; [by apply IH|exact Hrun|]. intros source s1 s2 Hp [Ht Ha Hm Hpk] [= <-].
    destruct (AddResolution_low Z.ltb p source u r _ ltac:(intros ???; rewrite !Z.ltb_lt; lia) Hp Hm) as [Hlow Hb].
    unfold below. simpl. by rewrite Hlow.
Qed.

(** Popping a source takes back what was added under it.  A builder whose
    statement holds nothing above the primary source [p] gets the source
    [p + 1] and any receipts and resolutions under it (secondary sources may
    change); [popSource] then leaves the statement it had, and the source [p]. *)
Theorem popSource_takes_back p s source b b' :
  0 ≤ p < 2 ^ 32 - 1 → built s → below p s = s → PrimaryId source = p + 1 → m_pStatement b = Some s →
  within (p + 1) (setSource source b) b' →
  popSource b' = ({| m_activeSource := {| PrimaryId := p; SecondaryId := 0 |}; m_pStatement := Some s |}, Ok tt).
Proof.
  intros Hp Hb Hlow Hsource Hs Hw. destruct (within_keeps p s _ _ Hw) as (Hp' & s' & Hs' & Hb' & Hlow').
  { split; [done|]. exists s. by split_and!. }
  unfold popSource. rewrite Hp', (proj2 (Z.eqb_neq _ _)) by lia.
  replace (u32 (p + 1 - 1)) with p by (rewrite wrap_small; unfold in_range; lia).
  unfold on_statement, setSource. simpl. rewrite Hs', DeepCopyTo_below by done. by rewrite Hlow', Hlow.
Qed.

(** ** Example *)

(** A receipt of ten bytes with the given type. *)
Definition sample_receipt (type : Z) : list Z := [10; 0; 0; 0; 1; 0; 0; 0; type; 0].

Definition sample_statement : BlockStatement := {|
  TransactionStatements := [({| PrimaryId := 1; SecondaryId := 0 |},
    {| statement_source := {| PrimaryId := 1; SecondaryId := 0 |}; statement_receipts := [sample_receipt 3] |})];
  AddressResolutionStatements := [];
  MosaicResolutionStatements := [(7, {| unresolved := 7; resolution_entries := [(9, {| PrimaryId := 1; SecondaryId := 0 |})] |})];
  PublicKeyStatements := [];
|}.

Definition sample_builder : BlockStatementBuilder :=
  {| m_activeSource := {| PrimaryId := 1; SecondaryId := 0 |}; m_pStatement := Some sample_statement |}.

(** Source 2 adds a receipt and resolves the alias that source 1 resolved. *)
Definition sample_source : ReceiptSource := {| PrimaryId := 2; SecondaryId := 0 |}.
Definition sample_used : BlockStatementBuilder :=
  fst ((addTransactionReceipt (sample_receipt 1) ≫= λ _, addMosaicResolution 7 9) (setSource sample_source sample_builder)).

Lemma popSource_takes_back_witness :
  m_pStatement sample_used ≠ Some sample_statement ∧ popSource sample_used = (sample_builder, Ok tt).
Proof.
  split; [by vm_compute|].
  apply (popSource_takes_back 1 sample_statement sample_source sample_builder sample_used); try done.
  - repeat constructor; simpl; unfold sizeof_Receipt; try done.
  - eapply (within_mosaic _ _ _ _ 7 9); [eapply (within_transaction _ _ _ _ (sample_receipt 1)); [apply within_nothing|reflexivity]|reflexivity].
Defined.

End StatementBuilder.
