(* ===== verification/BlockExecution.v ===== *)
(** Model of the execution of blocks: the entity infos of an element
    (catapult/model/Elements.cpp), BatchEntityProcessor.cpp, BlockExecutor.cpp
    (catapult/chain), UndoBlock.cpp and BlockChainProcessor.cpp
    (catapult/consumers).

    Publishers, validators and observers of the plugins, the hash functions and
    the block hit predicate are parameters.  The file shows that blocks that were
    processed can be executed again with the same effect and without validation,
    and that rolling a block back restores the state before it, so that the
    state of a node at any height is the one its blocks lead to. *)
From stdpp Require Import base tactics numbers option list.
From S2P Require Import Prelude Streams Notifications CatapultCache BlockDifficulty BlockElements StatementBuilder.

Local Open Scope Z_scope.

Module BlockExecution.
Import Stream Notifications CatapultCache Elements StatementBuilder.

(** * Fields of entities *)

Definition hash_at (offset : nat) (entity : list Z) : list Z := take Hash256_Size (drop offset entity).

Definition Signer (entity : list Z) : list Z := hash_at 68 entity.
Definition Block_Timestamp (block : list Z) : Z := field 114 8 block.
Definition Block_Difficulty (block : list Z) : Z := field 122 8 block.
Definition PreviousBlockHash (block : list Z) : list Z := hash_at 134 block.
Definition BlockReceiptsHash (block : list Z) : list Z := hash_at 198 block.
Definition Block_StateHash (block : list Z) : list Z := hash_at 230 block.

(** The part of a block the checks of chain parts read; hashes as numbers. *)
Definition chain_block (block : list Z) : Difficulty.Block :=
  {| Difficulty.Height := Block_Height block; Difficulty.Timestamp := Block_Timestamp block;
     Difficulty.Difficulty := Block_Difficulty block; Difficulty.PreviousBlockHash := le_value (PreviousBlockHash block) |}.

Definition IsChainLink (parent parentHash child : list Z) : bool :=
  Difficulty.IsChainLink (chain_block parent) (le_value parentHash) (chain_block child).

(** * Entity infos *)

Record EntityInfo := {
  ei_entity : list Z;
  ei_hash : list Z;
  ei_associatedBlockHeader : option (list Z);
  ei_associatedHeight : Z;
}.

Definition entity_info (entity hash blockHeader : list Z) : EntityInfo :=
  {| ei_entity := entity; ei_hash := hash; ei_associatedBlockHeader := Some blockHeader;
     ei_associatedHeight := Block_Height blockHeader |}.

(** The block comes behind its transactions. *)
Definition ExtractEntityInfos (element : BlockElement) : list EntityInfo :=
  ((λ t, entity_info (te_Transaction t) (te_EntityHash t) (be_Block element)) <$> be_Transactions element)
  ++ [entity_info (be_Block element) (be_EntityHash element) (be_Block element)].

(** A transaction and its metadata. *)
Record TransactionInfo := {
  ti_pEntity : list Z;
  ti_EntityHash : list Z;
  ti_AssociatedHeight : Z;
  ti_MerkleComponentHash : list Z;
  ti_OptionalExtractedAddresses : option (list (list Z));
}.

Definition MakeTransactionInfo (t : TransactionElement) (height : Z) : TransactionInfo :=
  {| ti_pEntity := te_Transaction t; ti_EntityHash := te_EntityHash t; ti_AssociatedHeight := height;
     ti_MerkleComponentHash := te_MerkleComponentHash t; ti_OptionalExtractedAddresses := te_OptionalExtractedAddresses t |}.

Definition ExtractTransactionInfos (transactionInfos : list TransactionInfo) (element : BlockElement) : list TransactionInfo :=
  transactionInfos ++ ((λ t, MakeTransactionInfo t (be_Height element)) <$> be_Transactions element).

(** * Elements that are filled in *)

Definition set_GenerationHash (hash : list Z) (e : BlockElement) : BlockElement :=
  {| be_Block := be_Block e; be_EntityHash := be_EntityHash e; be_GenerationHash := hash;
     be_SubCacheMerkleRoots := be_SubCacheMerkleRoots e; be_Transactions := be_Transactions e;
     be_OptionalStatement := be_OptionalStatement e |}.

Definition set_SubCacheMerkleRoots (roots : list (list Z)) (e : BlockElement) : BlockElement :=
  {| be_Block := be_Block e; be_EntityHash := be_EntityHash e; be_GenerationHash := be_GenerationHash e;
     be_SubCacheMerkleRoots := roots; be_Transactions := be_Transactions e; be_OptionalStatement := be_OptionalStatement e |}.

Inductive UndoBlockType := UndoBlockType_Rollback | UndoBlockType_Common.

Definition Failure_Chain_Unlinked : Z := MakeValidationResult Severity_Failure 0xFF 102 0.
Definition Failure_Chain_Block_Not_Hit : Z := MakeValidationResult Severity_Failure 0xFF 104 0.
Definition Failure_Chain_Block_Inconsistent_State_Hash : Z := MakeValidationResult Severity_Failure 0xFF 105 0.
Definition Failure_Chain_Block_Inconsistent_Receipts_Hash : Z := MakeValidationResult Severity_Failure 0xFF 106 0.

(** * Heights of elements *)

(** Heights that rise from element to element, above [h]. *)
Fixpoint ascending (h : Z) (es : list BlockElement) : Prop :=
  match es with [] => True | e :: es => h < be_Height e ∧ ascending (be_Height e) es end.

Definition last_height (h : Z) (es : list BlockElement) : Z := foldl (λ _ e, be_Height e) h es.

Lemma last_height_snoc h es e : last_height h (es ++ [e]) = be_Height e.
Proof. revert h. induction es as [|e' es IH]; intros h; [done|]. apply IH. Qed.

Lemma ascending_app h es1 es2 : ascending h (es1 ++ es2) ↔ ascending h es1 ∧ ascending (last_height h es1) es2.
Proof.
  revert h. induction es1 as [|e es1 IH]; intros h; cbn; [by split; [|intros [_ ?]]|]. rewrite IH. unfold last_height. cbn. tauto.
Qed.

Lemma ascending_last h es : ascending h es → h ≤ last_height h es.
Proof.
  revert h. induction es as [|e es IH]; intros h; cbn; [unfold last_height; cbn; lia|]. intros [H1 H2]. specialize (IH _ H2).
  unfold last_height in *. cbn. lia.
Qed.

Lemma ascending_same es es' h : Forall2 (λ e e', be_Height e = be_Height e') es es' → ascending h es → ascending h es'.
Proof. intros Hs. revert h. induction Hs as [|e e' es es' He _ IH]; intros h; cbn; [done|]. rewrite <-He. intros [? ?]. auto. Qed.

Section execution.
Context {Notification CatapultState Config V : Type} `{!SubCacheView V}.
Abbreviation CacheDelta := (CatapultCacheDelta V).
Abbreviation State := (ObserverState Notification CacheDelta CatapultState BlockStatementBuilder).
Abbreviation Context_ := (ObserverContext Config).
Context (NotificationType NotificationSize : Notification → Z).
Context (publish : EntityInfo → list Notification * result unit).
Context (validator : Validator Notification CacheDelta Config).
Context (observer : Observer Notification CacheDelta CatapultState BlockStatementBuilder Config).
Context (config_at : Z → Config) (EnableUndoBlock : Config → bool).
(** [commitRemovals] of the account state cache. *)
Context (commitRemovals : CacheDelta → CacheDelta).

Definition set_cache (cache : CacheDelta) (s : State) : State :=
  {| os_Cache := cache; os_State := os_State s; os_BlockStatementBuilder := os_BlockStatementBuilder s;
     os_Notifications := os_Notifications s |}.

Definition set_builder (b : BlockStatementBuilder) (s : State) : State :=
  {| os_Cache := os_Cache s; os_State := os_State s; os_BlockStatementBuilder := b; os_Notifications := os_Notifications s |}.

Definition on_cache (f : CacheDelta → CacheDelta) : Exec State unit := modify (λ s, set_cache (f (os_Cache s)) s).

(** * Batches *)

Fixpoint process_entities (v : ValidatorContext Config) (c : Context_) (entityInfos : list EntityInfo)
    : Exec (Processing Notification CacheDelta CatapultState BlockStatementBuilder) Z :=
  match entityInfos with
  | [] => mret Success
  | entityInfo :: rest =>
      let '(notifications, r) := publish entityInfo in
      for_each (sub_notify NotificationType NotificationSize validator v observer c) notifications ≫= λ _, ends r ≫= λ _,
      result ← gets (λ st, m_aggregateResult (fst st));
      if negb (IsValidationResultSuccess result) then mret result else process_entities v c rest
  end.

Definition BatchEntityProcessor (height timestamp : Z) (entityInfos : list EntityInfo) (hasBuilder : bool) : Exec State Z := λ s,
  match entityInfos with
  | [] => (s, Ok Neutral)
  | _ =>
      let config := config_at height in
      let v := {| vc_Config := config; vc_Height := height; vc_BlockTime := timestamp |} in
      let c := new_ObserverContext hasBuilder config height timestamp Commit false in
      let '((_, s'), r) := process_entities v c entityInfos (new_Subscriber, s) in (s', r)
  end.

(** * Blocks *)

(** The context in which the entities of a block are observed. *)
Definition CreateObserverContext (element : BlockElement) (mode : NotifyMode) (hasBuilder : bool) : Context_ :=
  new_ObserverContext hasBuilder (config_at (be_Height element)) (be_Height element) (Block_Timestamp (be_Block element)) mode false.

Definition ExecuteBlock (element : BlockElement) : Exec State unit :=
  on_cache (setHeight (be_Height element)) ≫= λ _,
  for_each (λ entityInfo, NotificationObserverAdapter NotificationType publish observer entityInfo
              (CreateObserverContext element Commit false)) (ExtractEntityInfos element).

(** The entity observer of an undo is the reverse adapter. *)
Definition RollbackBlock (element : BlockElement) : Exec State unit :=
  on_cache (setHeight (be_Height element)) ≫= λ _,
  for_each (λ entityInfo, ReverseNotificationObserverAdapter NotificationType publish observer entityInfo
              (CreateObserverContext element Rollback false)) (reverse (ExtractEntityInfos element)) ≫= λ _,
  on_cache commitRemovals.

Definition UndoBlock (config : Config) (element : BlockElement) (undoBlockType : UndoBlockType) : Exec State unit :=
  match undoBlockType with
  | UndoBlockType_Rollback =>
      if negb (EnableUndoBlock config) then throw runtime_error else RollbackBlock element
  | UndoBlockType_Common =>
      if negb (EnableUndoBlock config) then throw runtime_error
      else if bool_decide (be_SubCacheMerkleRoots element = []) then mret tt
      else λ s, let '(cache, r) := setSubCacheMerkleRoots (be_SubCacheMerkleRoots element) (os_Cache s) in (set_cache cache s, r)
  end.

(** * Chain parts *)

Section processor.
Context (Sha3_256 GenerationHash_Builder : list Z → list Z).
Context (CalculateMerkleHash : BlockStatement → list Z).
Context (blockHitPredicate : CacheDelta → list Z → list Z → list Z → bool).
Context (ShouldEnableVerifiableReceipts : bool).

Definition CalculateGenerationHash (previousGenerationHash publicKey : list Z) : list Z :=
  GenerationHash_Builder (previousGenerationHash ++ publicKey).

Definition calculate_state_hash (height : Z) : Exec State StateHashInfo := λ s,
  let '(cache, info) := calculateStateHash Sha3_256 height (os_Cache s) in (set_cache cache s, Ok info).

(** The element with its receipts, and their hash. *)
Definition receipts_of (element : BlockElement) : Exec State (BlockElement * list Z) := λ s,
  if ShouldEnableVerifiableReceipts then
    match build (os_BlockStatementBuilder s) with
    | (b, None) => (set_builder b s, Throw undefined_behaviour)
    | (b, Some statement) =>
        (set_builder b s, Ok (set_OptionalStatement (Some statement) element, CalculateMerkleHash statement))
    end
  else (s, Ok (element, replicate Hash256_Size 0)).

(** The body of the loop: a result ends it. *)
Definition process_element (parent parentGenerationHash : list Z) (element : BlockElement)
    : Exec State (option Z * BlockElement) :=
  let block := be_Block element in
  let element := set_GenerationHash (CalculateGenerationHash parentGenerationHash (Signer block)) element in
  hit ← gets (λ s : State, blockHitPredicate (os_Cache s) parent block (be_GenerationHash element));
  if negb hit then mret (Some Failure_Chain_Block_Not_Hit, element)
  else
    modify (set_builder new_BlockStatementBuilder) ≫= λ _,
    on_cache (setHeight (Block_Height block)) ≫= λ _,
    result ← BatchEntityProcessor (Block_Height block) (Block_Timestamp block) (ExtractEntityInfos element)
               ShouldEnableVerifiableReceipts;
    if negb (IsValidationResultSuccess result) then mret (Some result, element)
    else
      info ← calculate_state_hash (Block_Height block);
      if negb (bool_decide (Block_StateHash block = StateHash info))
      then mret (Some Failure_Chain_Block_Inconsistent_State_Hash, element)
      else
        let element := set_SubCacheMerkleRoots (SubCacheMerkleRoots info) element in
        '(element, receiptsHash) ← receipts_of element;
        if negb (bool_decide (BlockReceiptsHash block = receiptsHash))
        then mret (Some Failure_Chain_Block_Inconsistent_Receipts_Hash, element)
        else mret (None, element).

(** The elements are changed in place. *)
Fixpoint process_elements (parent parentGenerationHash : list Z) (elements : list BlockElement)
    : Exec State (Z * list BlockElement) :=
  match elements with
  | [] => mret (Success, [])
  | element :: rest =>
      '(r, element) ← process_element parent parentGenerationHash element;
      match r with
      | Some result => mret (result, element :: rest)
      | None =>
          '(result, rest) ← process_elements (be_Block element) (be_GenerationHash element) rest;
          mret (result, element :: rest)
      end
  end.

Definition BlockChainProcessor (parentBlockInfo : BlockElement) (elements : list BlockElement)
    : Exec State (Z * list BlockElement) :=
  match elements with
  | [] => mret (Neutral, elements)
  | first :: _ =>
      if negb (IsChainLink (be_Block parentBlockInfo) (be_EntityHash parentBlockInfo) (be_Block first))
      then mret (Failure_Chain_Unlinked, elements)
      else
        calculate_state_hash (be_Height parentBlockInfo) ≫= λ _,
        process_elements (be_Block parentBlockInfo) (be_GenerationHash parentBlockInfo) elements
  end.

End processor.
(** * What is needed of the plugins *)

Context `{!Equiv V, !ViewEquiv V}.
Implicit Types (s t : State) (e : BlockElement) (c : Context_).

Definition set_height (height : Z) s : State := set_cache (setHeight height (os_Cache s)) s.
Definition at_height (height : Z) s : Prop := set_height height s ≡ s.

(** Committing: observers look at caches up to equivalence and do not depend on
    the receipts; what the validators let through in a state with [inv] meets [P],
    and observing it keeps [inv]. *)
Class PluginLaws (P : Context_ → Notification → State → Prop) (inv : State → Prop) := {
  laws_proper :: ProperObserver observer;
  laws_admissible :: Admissible NotificationType validator observer P inv;
  (** recording receipts does not change what is done *)
  laws_recording c1 c2 n s : same_place c1 c2 → oc_Mode c1 = oc_Mode c2 → agree (observer c1 n s) (observer c2 n s);
  laws_P c1 c2 n s t : same_place c1 c2 → s ≡ t → P c1 n s → P c2 n t;
  laws_inv s t : s ≡ t → inv s → inv t;
  laws_inv_height height s : inv s → inv (set_height height s);
  (** observers leave the height of the caches *)
  laws_height c n s s' height :
    P c n s → oc_Mode c = Commit → observer c n s = (s', Ok tt) → at_height height s → at_height height s';
}.

(** Rolling back.  An observer may leave work for [commitRemovals], as the account
    observers queue removals that name the height of the block: [older h s] says
    that nothing in [s] stems from a block at height [h] or later and that no
    removal is queued, and [pending h t s] that the state [t] turns into [s] once
    the removals queued for the block at height [h] are committed. *)
Class RollbackLaws (P : Context_ → Notification → State → Prop) (older : Z → State → Prop) (pending : Z → State → State → Prop) := {
  rb_older_equiv h s t : s ≡ t → older h s → older h t;
  rb_older_height h k s : older h s → older h (set_height k s);
  rb_older_mono h k s : h ≤ k → older h s → older k s;
  rb_older_commit c n s s' :
    0 < oc_Height c → older (oc_Height c + 1) s → P c n s → oc_Mode c = Commit → observer c n s = (s', Ok tt) →
    older (oc_Height c + 1) s';
  rb_start h s t : older (h + 1) s → t ≡ s → pending h t s;
  rb_step c1 c2 n s s' t :
    0 < oc_Height c1 → older (oc_Height c1 + 1) s → P c1 n s → same_place c1 c2 → oc_Mode c1 = Commit → oc_Mode c2 = Rollback →
    observer c1 n s = (s', Ok tt) → pending (oc_Height c1) t s' →
    ∃ t', observer c2 n t = (t', Ok tt) ∧ pending (oc_Height c1) t' s;
  rb_commit h s t : 0 < h → older h s → pending h t s → set_cache (commitRemovals (os_Cache t)) t ≡ s;
}.

(** Plugins that queue nothing. *)
Lemma reversible_rollback P :
  ProperObserver observer → Reversible P observer → (∀ cache, commitRemovals cache ≡ cache) →
  RollbackLaws P (λ _ _, True) (λ _ t s, t ≡ s).
Proof.
  intros Hproper Hrev Hrem. split; try done.
  - intros c1 c2 n s s' t _ _ HP Hplace Hc Hr Hn Ht. destruct (Hrev c1 c2 n s s' HP Hplace Hc Hr Hn) as (u & Hu & Hus).
    destruct (Hproper c2 n t s' Ht) as [Ha1 Ha2]. rewrite Hu in Ha1, Ha2. destruct (observer c2 n t) as [t' r]. cbn in *. subst r.
    exists t'. split; [done|]. by transitivity u.
  - intros h s t _ _ Ht. transitivity t; [|done]. split; [apply Hrem|done].
Qed.

Lemma set_height_proper height s t : s ≡ t → set_height height s ≡ set_height height t.
Proof. intros [Hc Hs]. split; simpl; [by rewrite Hc|done]. Qed.

Lemma set_height_again h h' s : set_height h (set_height h' s) ≡ set_height h s.
Proof. split; [apply setHeight_again|done]. Qed.

Lemma at_set_height height s : at_height height (set_height height s).
Proof. apply set_height_again. Qed.

Lemma at_height_proper height s t : s ≡ t → at_height height s → at_height height t.
Proof.
  unfold at_height. intros Hst Hs. transitivity (set_height height s); [symmetry; by apply set_height_proper|].
  by transitivity s.
Qed.

Lemma set_cache_equiv cache s : cache ≡ os_Cache s → set_cache cache s ≡ s.
Proof. intros Hc. by split. Qed.

(** * Executed blocks *)

Definition published e : list Notification := concat ((λ i, fst (publish i)) <$> ExtractEntityInfos e).
Definition publishes e : Prop := Forall (λ i, snd (publish i) = Ok tt) (ExtractEntityInfos e).
Definition block_notifications e : list Notification := observed NotificationType (published e).

Section laws.
Context (P : Context_ → Notification → State → Prop) (inv : State → Prop) `{!PluginLaws P inv}.

Lemma committed_agree c1 c2 l s s' t :
  committed P observer c1 l s s' → same_place c1 c2 → oc_Mode c1 = oc_Mode c2 → s ≡ t →
  ∃ t', committed P observer c2 l t t' ∧ s' ≡ t'.
Proof.
  intros Hc Hp Hm. revert t. induction Hc as [s|n l s s1 s2 HP Hn Hl IH]; intros t Hst; [exists t; split; [constructor|done]|].
  pose proof (laws_recording c1 c2 n t Hp Hm) as [Ha1 Ha2]. pose proof (observer_proper c1 n s t Hst) as [Hb1 Hb2].
  rewrite Hn in Hb1, Hb2. destruct (observer c2 n t) as [t1 r] eqn:Ht. cbn [fst snd] in *.
  assert (s1 ≡ t1) as H1 by (by etransitivity). assert (r = Ok tt) as -> by congruence.
  destruct (IH t1 H1) as (t2 & Hc2 & H2). exists t2. split; [|done].
  eapply committed_cons; [by eapply (laws_P c1 c2)|done|done].
Qed.

Lemma laws_preserved c n s s' : inv s → P c n s → oc_Mode c = Commit → observer c n s = (s', Ok tt) → inv s'.
Proof. destruct laws_admissible as [_ Hp]. apply Hp. Qed.

Lemma committed_inv c l s s' : committed P observer c l s s' → oc_Mode c = Commit → inv s → inv s'.
Proof. induction 1 as [|n l s s1 s2 HP Hn Hl IH]; intros Hm Hi; [done|]. apply IH; [done|]. by eapply laws_preserved. Qed.

Lemma committed_height c l s s' height :
  committed P observer c l s s' → oc_Mode c = Commit → at_height height s → at_height height s'.
Proof. induction 1 as [|n l s s1 s2 HP Hn Hl IH]; intros Hm Hh; [done|]. apply IH; [done|]. by eapply laws_height. Qed.

(** The blocks were committed one after the other, the state being looked at
    up to equivalence. *)
Inductive executed : list BlockElement → State → State → Prop :=
| executed_nothing s s' : s ≡ s' → executed [] s s'
| executed_block es e s s1 s2 s' :
    executed es s s1 → publishes e →
    committed P observer (CreateObserverContext e Commit false) (block_notifications e) (set_height (be_Height e) s1) s2 →
    s2 ≡ s' → executed (es ++ [e]) s s'.

Lemma executed_equiv es s s' t' : executed es s s' → s' ≡ t' → executed es s t'.
Proof.
  intros [s1 s1' H|es1 e s1 s2 s3 s1' He Hp Hc H] Ht; [constructor|econstructor]; eauto; by etransitivity.
Qed.

Lemma executed_app es1 es2 s s1 s' : executed es1 s s1 → executed es2 s1 s' → executed (es1 ++ es2) s s'.
Proof.
  intros H1 H2. revert H1. induction H2 as [s1 s' Heq|es e s1 s2 s3 s' H2 IH Hp Hc Heq]; intros H1.
  - rewrite app_nil_r. by eapply executed_equiv.
  - rewrite app_assoc. eapply executed_block; eauto.
Qed.

(** What the last block was executed on. *)
Lemma executed_last es e s s' :
  executed (es ++ [e]) s s' → ∃ s1 s2, executed es s s1 ∧ publishes e
    ∧ committed P observer (CreateObserverContext e Commit false) (block_notifications e) (set_height (be_Height e) s1) s2 ∧ s2 ≡ s'.
Proof.
  remember (es ++ [e]) as l eqn:Hl. intros Hx. revert Hl. destruct Hx as [s1 s1' H|es1 e1 s1 s2 s3 s1' He Hp Hc H]; intros Hl.
  - by destruct es.
  - apply app_inj_tail in Hl as [-> ->]. by exists s2, s3.
Qed.

(** Only the block and the entity infos of an element matter. *)
Definition same_infos e1 e2 : Prop := be_Block e1 = be_Block e2 ∧ ExtractEntityInfos e1 = ExtractEntityInfos e2.

Lemma executed_same es es' s s' : Forall2 same_infos es es' → executed es s s' → executed es' s s'.
Proof.
  intros Hes Hex. revert es' Hes. induction Hex as [s s' Heq|es e s s1 s2 s' H IH Hp Hc Heq]; intros es' Hes.
  - apply Forall2_nil_inv_l in Hes as ->. by constructor.
  - apply Forall2_app_inv_l in Hes as (es1 & es2 & H1 & H2 & ->). apply Forall2_cons_inv_l in H2 as (e' & l & [Hb Hi] & Hl & ->).
    apply Forall2_nil_inv_l in Hl as ->. eapply executed_block; [by apply IH| | |exact Heq].
    + unfold publishes. by rewrite <-Hi.
    + unfold block_notifications, published, CreateObserverContext, be_Height. rewrite <-Hi, <-Hb. exact Hc.
Qed.

Lemma executed_height es e s s' : executed (es ++ [e]) s s' → at_height (be_Height e) s'.
Proof.
  intros (s1 & s2 & _ & _ & Hc & Heq)%executed_last. apply (at_height_proper _ s2); [done|].
  eapply committed_height; [done|done|]. apply at_set_height.
Qed.

Lemma executed_inv es s s' : executed es s s' → inv s → inv s'.
Proof.
  induction 1 as [s s' Heq|es e s s1 s2 s' H IH Hp Hc Heq]; intros Hi; [by eapply laws_inv|].
  eapply laws_inv; [done|]. eapply committed_inv; [done|done|]. apply laws_inv_height. auto.
Qed.

(** ** Adapters *)

Abbreviation published_by infos := (concat ((λ i, fst (publish i)) <$> infos)).

Lemma observed_app l1 l2 : observed NotificationType (l1 ++ l2) = observed NotificationType l1 ++ observed NotificationType l2.
Proof. apply filter_app. Qed.

Lemma for_each_observing c l s :
  for_each (ObservingSubscriber_notify NotificationType observer c) l s = for_each (observer c) (observed NotificationType l) s.
Proof.
  revert s. induction l as [|n l IH]; intros s; [done|]. unfold observed. rewrite filter_cons. cbn [for_each].
  assert (ObservingSubscriber_notify NotificationType observer c n s
          = if IsSet (NotificationType n) Channel_Observer then observer c n s else (s, Ok tt)) as Hn
    by (unfold ObservingSubscriber_notify; by destruct (IsSet _ _)).
  unfold mbind, exec_bind. rewrite Hn. destruct (IsSet (NotificationType n) Channel_Observer) eqn:Hset.
  - rewrite decide_True by done. cbn [for_each]. unfold mbind, exec_bind. destruct (observer c n s) as [s' [[]|]]; [apply IH|done].
  - rewrite decide_False by done. apply IH.
Qed.

Lemma observe_forward infos c s :
  Forall (λ i, snd (publish i) = Ok tt) infos →
  for_each (λ i, NotificationObserverAdapter NotificationType publish observer i c) infos s
  = for_each (observer c) (observed NotificationType (published_by infos)) s.
Proof.
  intros Hall. revert s. induction Hall as [|i infos Hi Hall IH]; intros s; [done|].
  cbn [for_each fmap list_fmap concat]. rewrite observed_app, for_each_app.
  assert (NotificationObserverAdapter NotificationType publish observer i c s
          = for_each (observer c) (observed NotificationType (fst (publish i))) s) as Ha.
  { unfold NotificationObserverAdapter. destruct (publish i) as [l r]. cbn [fst snd] in *. subst r. rewrite <-for_each_observing.
    unfold mbind, exec_bind, ends. by destruct (for_each _ l s) as [s' [[]|]]. }
  unfold mbind, exec_bind. rewrite Ha.
  destruct (for_each (observer c) (observed NotificationType (fst (publish i))) s) as [s' [[]|]]; [apply IH|done].
Qed.

Lemma observe_reverse infos c s :
  Forall (λ i, snd (publish i) = Ok tt) infos →
  for_each (λ i, ReverseNotificationObserverAdapter NotificationType publish observer i c) (reverse infos) s
  = for_each (observer c) (reverse (observed NotificationType (published_by infos))) s.
Proof.
  intros Hall. revert s. induction Hall as [|i infos Hi Hall IH]; intros s; [done|]. cbn [fmap list_fmap concat].
  rewrite observed_app, reverse_app, reverse_cons, !for_each_app. unfold mbind, exec_bind. rewrite IH.
  destruct (for_each (observer c) (reverse (observed NotificationType (published_by infos))) s) as [s' [[]|]]; [|done].
  cbn [for_each]. unfold ReverseNotificationObserverAdapter. destruct (publish i) as [l r]. cbn [fst snd] in *. subst r.
  unfold mbind, exec_bind, ends, observed. by destruct (for_each (observer c) _ s') as [s'' [[]|]].
Qed.

(** ** Processing *)

Lemma process_entities_run v c infos sub s sub' s' r :
  vc_Config v = oc_Config c → vc_Height v = oc_Height c → vc_BlockTime v = oc_Timestamp c → oc_Mode c = Commit →
  inv s → IsValidationResultSuccess (m_aggregateResult sub) = true → m_isUndoEnabled sub = false →
  process_entities v c infos (sub, s) = ((sub', s'), Ok r) → IsValidationResultSuccess r = true →
  committed P observer c (observed NotificationType (published_by infos)) s s' ∧ Forall (λ i, snd (publish i) = Ok tt) infos.
Proof.
  intros H1 H2 H3 H4. revert sub s. induction infos as [|i infos IH]; intros sub s Hi Hok Hundo Hrun Hr; cbn [process_entities] in Hrun.
  { injection Hrun as <- <- <-. split; constructor. }
  destruct (publish i) as [l rp] eqn:Hpub. unfold mbind, exec_bind, gets, ends in Hrun.
  destruct (for_each (sub_notify NotificationType NotificationSize validator v observer c) l (sub, s)) as [[sub1 s1] [[]|]] eqn:Hl; [|done].
  destruct rp as [[]|]; [|done]. destruct (for_each_notify_run _ _ _ _ _ _ P inv H1 H2 H3 H4 _ _ _ _ _ Hi Hl) as [lc [Hc Hi1 Hu Hk Hall]].
  cbn [fst] in Hrun. destruct (IsValidationResultSuccess (m_aggregateResult sub1)) eqn:Hok1; cbn [negb] in Hrun.
  2: { injection Hrun as <- <- <-. congruence. }
  destruct (Hall eq_refl) as [_ ->]. destruct (IH sub1 s1 Hi1 Hok1 ltac:(congruence) Hrun Hr) as [Hc' Hp].
  split; [|constructor; [by rewrite Hpub|done]]. rewrite fmap_cons. cbn [concat]. rewrite Hpub, observed_app. by eapply committed_app.
Qed.

Lemma BatchEntityProcessor_run height timestamp infos hasBuilder s s' r :
  inv s → infos ≠ [] → BatchEntityProcessor height timestamp infos hasBuilder s = (s', Ok r) → IsValidationResultSuccess r = true →
  committed P observer (new_ObserverContext hasBuilder (config_at height) height timestamp Commit false)
    (observed NotificationType (published_by infos)) s s' ∧ Forall (λ i, snd (publish i) = Ok tt) infos.
Proof.
  intros Hi Hne. destruct infos as [|i infos]; [done|]. cbn [BatchEntityProcessor].
  destruct (process_entities _ _ (i :: infos) (new_Subscriber, s)) as [[sub1 s1] r1] eqn:Hrun. intros [= <- ->] Hr.
  by eapply process_entities_run in Hrun; [|done..].
Qed.

(** What filling in an element leaves. *)
Definition same_entities e1 e2 : Prop :=
  be_Block e1 = be_Block e2 ∧ be_EntityHash e1 = be_EntityHash e2 ∧ be_Transactions e1 = be_Transactions e2.

Lemma same_entities_infos e1 e2 : same_entities e1 e2 → ExtractEntityInfos e1 = ExtractEntityInfos e2.
Proof. intros (H1 & H2 & H3). unfold ExtractEntityInfos. by rewrite H1, H2, H3. Qed.

Lemma ExtractEntityInfos_nonempty e : ExtractEntityInfos e ≠ [].
Proof. unfold ExtractEntityInfos. by intros [_ ?]%app_nil. Qed.

Section processing.
Context (Sha3_256 GenerationHash_Builder : list Z → list Z) (CalculateMerkleHash : BlockStatement → list Z).
Context (blockHitPredicate : CacheDelta → list Z → list Z → list Z → bool) (ShouldEnableVerifiableReceipts : bool).
Abbreviation proc_element := (process_element Sha3_256 GenerationHash_Builder CalculateMerkleHash blockHitPredicate
  ShouldEnableVerifiableReceipts).
Abbreviation proc_elements := (process_elements Sha3_256 GenerationHash_Builder CalculateMerkleHash blockHitPredicate
  ShouldEnableVerifiableReceipts).

Lemma calculate_state_hash_equiv height s s' info : calculate_state_hash Sha3_256 height s = (s', Ok info) → s' ≡ s.
Proof.
  unfold calculate_state_hash. pose proof (calculateStateHash_equiv Sha3_256 height (os_Cache s)) as Hc.
  destruct (calculateStateHash Sha3_256 height (os_Cache s)) as [cache i]. intros [= <- <-]. by apply set_cache_equiv.
Qed.

Lemma receipts_of_run e s s' e' h :
  receipts_of CalculateMerkleHash ShouldEnableVerifiableReceipts e s = (s', Ok (e', h)) → s' ≡ s ∧ same_entities e e'.
Proof.
  unfold receipts_of. destruct ShouldEnableVerifiableReceipts; [|by intros [= <- <- <-]].
  destruct (build (os_BlockStatementBuilder s)) as [b [st|]]; [|done]. by intros [= <- <- <-].
Qed.

(** The loop goes on only after the block was committed. *)
Lemma process_element_run parent parentHash e s s' e' :
  inv s → proc_element parent parentHash e s = (s', Ok (None, e')) → executed [e'] s s' ∧ same_entities e e'.
Proof.
  intros Hi. unfold process_element. set (e1 := set_GenerationHash _ e).
  unfold on_cache, mbind, exec_bind, gets, modify, mret, exec_ret. cbv beta iota zeta.
  destruct (blockHitPredicate _ _ _ _); cbn [negb]; cbv beta iota zeta; [|done].
  set (b0 := set_builder new_BlockStatementBuilder s). set (s0 := set_cache (setHeight (Block_Height (be_Block e)) (os_Cache b0)) b0).
  destruct (BatchEntityProcessor _ _ _ _ s0) as [s1 [r|]] eqn:Hbatch; cbv beta iota zeta; [|done].
  destruct (IsValidationResultSuccess r) eqn:Hr; cbn [negb]; cbv beta iota zeta; [|done].
  assert (s0 ≡ set_height (be_Height e) s) as Hs0 by done.
  assert (inv s0) as Hi0 by (eapply laws_inv; [symmetry; exact Hs0|by apply laws_inv_height]).
  destruct (BatchEntityProcessor_run _ _ _ _ _ _ _ Hi0 (ExtractEntityInfos_nonempty _) Hbatch Hr) as [Hc Hpub].
  destruct (committed_agree _ (CreateObserverContext e Commit false) _ _ _ _ Hc ltac:(done) eq_refl Hs0) as (s1' & Hc' & Hs1).
  destruct (calculate_state_hash Sha3_256 (Block_Height (be_Block e)) s1) as [s2 [info|]] eqn:Hhash; cbv beta iota zeta; [|done].
  apply calculate_state_hash_equiv in Hhash. destruct (bool_decide _); cbn [negb]; cbv beta iota zeta; [|done].
  destruct (receipts_of _ _ _ s2) as [s3 [[e2 h]|]] eqn:Hrec; cbv beta iota zeta; [|done]. apply receipts_of_run in Hrec as [Hs3 He2].
  destruct (bool_decide _); cbn [negb]; cbv beta iota zeta; [|done]. intros [= <- <-]. split; [|exact He2].
  assert (ExtractEntityInfos e2 = ExtractEntityInfos e) as Hinfos by (symmetry; by apply same_entities_infos).
  destruct He2 as [Hb _]. change (be_Block e = be_Block e2) in Hb.
  apply (executed_block [] e2 s s s1' s3); [by constructor| | |].
  - unfold publishes. by rewrite Hinfos.
  - unfold block_notifications, published, CreateObserverContext, be_Height. rewrite Hinfos, <-Hb. exact Hc'.
  - transitivity s1; [by symmetry|]. transitivity s2; by symmetry.
Qed.

Lemma process_element_stop parent parentHash e s s' r e' :
  proc_element parent parentHash e s = (s', Ok (Some r, e')) → IsValidationResultSuccess r = false.
Proof.
  unfold process_element, on_cache, mbind, exec_bind, gets, modify, mret, exec_ret. cbv beta iota zeta.
  destruct (blockHitPredicate _ _ _ _); cbn [negb]; cbv beta iota zeta; [|by intros [= _ <- _]].
  destruct (BatchEntityProcessor _ _ _ _ _) as [s1 [r1|]]; cbv beta iota zeta; [|done].
  destruct (IsValidationResultSuccess r1) eqn:Hr; cbn [negb]; cbv beta iota zeta; [|intros [= _ <- _]; done].
  destruct (calculate_state_hash _ _ s1) as [s2 [info|]]; cbv beta iota zeta; [|done]. destruct (bool_decide _); cbn [negb]; cbv beta iota zeta; [|by intros [= _ <- _]].
  destruct (receipts_of _ _ _ s2) as [s3 [[e2 h]|]]; cbv beta iota zeta; [|done]. destruct (bool_decide _); cbn [negb]; cbv beta iota zeta; [done|by intros [= _ <- _]].
Qed.

Lemma process_elements_run parent parentHash es s s' r es' :
  inv s → proc_elements parent parentHash es s = (s', Ok (r, es')) → IsValidationResultSuccess r = true →
  executed es' s s' ∧ Forall2 same_entities es es'.
Proof.
  intros Hi. revert parent parentHash s Hi es'. induction es as [|e es IH]; intros parent parentHash s Hi es' Hrun Hr;
    cbn [process_elements] in Hrun.
  { injection Hrun as <- _ <-. split; [by constructor|constructor]. }
  unfold mbind, exec_bind in Hrun. destruct (proc_element parent parentHash e s) as [s1 [[[r1|] e1]|]] eqn:He; [| |done].
  - apply process_element_stop in He. injection Hrun as _ <- _. congruence.
  - destruct (process_element_run _ _ _ _ _ _ Hi He) as [He1 Hsame].
    destruct (proc_elements (be_Block e1) (be_GenerationHash e1) es s1) as [s2 [[r2 es2]|]] eqn:Hes; [|done].
    injection Hrun as <- <- <-. assert (inv s1) as Hi1 by (by eapply executed_inv).
    destruct (IH _ _ _ Hi1 _ Hes Hr) as [Hex Hall]. split; [|by constructor]. exact (executed_app [e1] es2 s s1 s2 He1 Hex).
Qed.

Lemma BlockChainProcessor_run parent elements s s' r elements' :
  inv s →
  BlockChainProcessor Sha3_256 GenerationHash_Builder CalculateMerkleHash blockHitPredicate ShouldEnableVerifiableReceipts
    parent elements s = (s', Ok (r, elements')) →
  IsValidationResultSuccess r = true → executed elements' s s' ∧ Forall2 same_entities elements elements'.
Proof.
  intros Hi. unfold BlockChainProcessor. destruct elements as [|first rest] eqn:He; [by intros [= _ <- _]|]. rewrite <-He.
  destruct (IsChainLink _ _ _); cbn [negb]; [|by intros [= _ <- _]]. unfold mbind, exec_bind.
  destruct (calculate_state_hash _ _ s) as [s0 [info|]] eqn:Hhash; [|done]. apply calculate_state_hash_equiv in Hhash.
  intros Hrun Hr. assert (inv s0) as Hi0 by (eapply laws_inv; [symmetry; exact Hhash|done]).
  destruct (process_elements_run _ _ _ _ _ _ _ Hi0 Hrun Hr) as [Hex Hsame]. split; [|done].
  apply (executed_app [] elements' s s0 s'); [constructor; by symmetry|done].
Qed.

End processing.

(** ** Rolling back and executing again *)

Lemma on_cache_run (f : CacheDelta → CacheDelta) s : on_cache f s = (set_cache (f (os_Cache s)) s, Ok tt).
Proof. done. Qed.

Section rolling_back.
Context (older : Z → State → Prop) (pending : Z → State → State → Prop) `{!RollbackLaws P older pending}.

Lemma committed_older c l s s' :
  committed P observer c l s s' → 0 < oc_Height c → oc_Mode c = Commit → older (oc_Height c + 1) s → older (oc_Height c + 1) s'.
Proof. induction 1 as [|n l s s1 s2 HP Hn Hl IH]; intros Hh Hm Ho; [done|]. apply IH; [done|done|]. by eapply (rb_older_commit c n s). Qed.

(** The notifications of a block, from the last to the first. *)
Lemma committed_rolled_back c1 c2 l s s' t :
  committed P observer c1 l s s' → 0 < oc_Height c1 → older (oc_Height c1 + 1) s → same_place c1 c2 →
  oc_Mode c1 = Commit → oc_Mode c2 = Rollback → t ≡ s' →
  ∃ t', for_each (observer c2) (reverse l) t = (t', Ok tt) ∧ pending (oc_Height c1) t' s.
Proof.
  intros Hc Hh Ho Hplace H1 H2 Ht. induction Hc as [s|n l s s1 s2 HP Hn Hl IH].
  { exists t. split; [done|]. by apply rb_start. }
  destruct IH as (t1 & Hrun & Hp); [by eapply (rb_older_commit c1 n s)|done|].
  destruct (rb_step c1 c2 n s s1 t1 Hh Ho HP Hplace H1 H2 Hn Hp) as (t' & Hrun' & Hp').
  exists t'. split; [|done]. rewrite reverse_cons, for_each_app, (run_bind _ _ _ _ _ Hrun). cbn [for_each].
  by rewrite (run_bind _ _ _ _ _ Hrun').
Qed.

Lemma executed_older h es s s' :
  0 ≤ h → ascending h es → older (h + 1) s → executed es s s' → older (last_height h es + 1) s'.
Proof.
  intros Hh Hasc Ho Hex. induction Hex as [s s' Heq|es e s s1 s2 s' H IH Hp Hc Heq]; [by eapply rb_older_equiv|].
  rewrite last_height_snoc. apply ascending_app in Hasc as [H1 [H2 _]]. pose proof (ascending_last _ _ H1).
  eapply rb_older_equiv; [exact Heq|]. apply (committed_older _ _ _ _ Hc); cbn; [lia|done|]. apply rb_older_height.
  eapply rb_older_mono; [|by apply IH]. lia.
Qed.

(** Whatever height the caches were left at, as rolling back sets it. *)
Lemma RollbackBlock_run h es e s s' :
  0 ≤ h → ascending h (es ++ [e]) → older (h + 1) s → executed (es ++ [e]) s s' →
  ∃ s1, executed es s s1
    ∧ ∀ t, set_height (be_Height e) t ≡ s' → ∃ t', RollbackBlock e t = (t', Ok tt) ∧ t' ≡ set_height (be_Height e) s1.
Proof.
  intros Hh Hasc Ho (s1 & s2 & Hex & Hpub & Hc & Heq)%executed_last. exists s1. split; [done|]. intros t Ht.
  apply ascending_app in Hasc as [H1 [H2 _]]. pose proof (ascending_last _ _ H1).
  assert (older (be_Height e) (set_height (be_Height e) s1)) as Ho1.
  { apply rb_older_height. eapply rb_older_mono; [|by eapply executed_older]. lia. }
  assert (set_height (be_Height e) t ≡ s2) as Ht2 by (by transitivity s').
  destruct (committed_rolled_back _ (CreateObserverContext e Rollback false) _ _ _ _ Hc
    ltac:(cbn; lia) ltac:(eapply rb_older_mono; [|exact Ho1]; cbn; lia) ltac:(done) eq_refl eq_refl Ht2) as (t1 & Hrun & Ht1).
  exists (set_cache (commitRemovals (os_Cache t1)) t1). split.
  - unfold RollbackBlock. rewrite (run_bind _ _ _ _ _ (on_cache_run _ _)).
    unfold block_notifications, published in Hrun. rewrite <-observe_reverse in Hrun by done.
    by rewrite (run_bind _ _ _ _ _ Hrun).
  - apply (rb_commit (be_Height e)); [lia|done|exact Ht1].
Qed.

(** The same state, but for the height of the caches. *)
Definition same_but_height s t : Prop := ∀ h, set_height h s ≡ set_height h t.

Lemma equiv_same_but_height s t : s ≡ t → same_but_height s t.
Proof. intros Hst h. by apply set_height_proper. Qed.

Lemma set_height_same_but_height h s : same_but_height (set_height h s) s.
Proof. intros h'. apply set_height_again. Qed.

Lemma same_but_height_at h s t : same_but_height s t → at_height h t → set_height h s ≡ t.
Proof. intros Hst Ht. transitivity (set_height h t); [apply Hst|done]. Qed.

Lemma executed_nil s s' : executed [] s s' → s ≡ s'.
Proof.
  remember [] as l eqn:Hl. intros Hx. revert Hl. destruct Hx as [s1 s2 H|es e s1 s2 s3 s4 H Hp Hc Heq]; [done|]. by destruct es.
Qed.

(** Blocks are rolled back from the last to the first. *)
Lemma rollback_all h es s s' t :
  0 ≤ h → ascending h es → older (h + 1) s → executed es s s' → same_but_height t s' →
  ∃ t', for_each RollbackBlock (reverse es) t = (t', Ok tt) ∧ same_but_height t' s.
Proof.
  intros Hh Hasc Ho. revert Hasc s' t. induction es as [|e es IH] using rev_ind; intros Hasc s' t Hex Ht.
  - exists t. split; [done|]. apply executed_nil in Hex. intros h'. transitivity (set_height h' s'); [apply Ht|].
    apply set_height_proper. by symmetry.
  - pose proof (executed_height _ _ _ _ Hex) as Hat. 
    destruct (RollbackBlock_run h es e s s' Hh Hasc Ho Hex) as (s1 & Hex1 & Hroll). apply ascending_app in Hasc as [Hasc _].
    destruct (Hroll t (same_but_height_at _ _ _ Ht Hat)) as (t1 & Hrun & Ht1).
    destruct (IH Hasc s1 t1 Hex1) as (t' & Hrun' & Ht').
    { intros h'. transitivity (set_height h' (set_height (be_Height e) s1)); [by apply set_height_proper|apply set_height_again]. }
    exists t'. split; [|done]. rewrite reverse_snoc. cbn [for_each]. by rewrite (run_bind _ _ _ _ _ Hrun).
Qed.

Lemma for_each_UndoBlock config es s :
  EnableUndoBlock config = true →
  for_each (λ e, UndoBlock config e UndoBlockType_Rollback) es s = for_each RollbackBlock es s.
Proof.
  intros Hundo. revert s. induction es as [|e es IH]; intros s; [done|]. cbn [for_each UndoBlock]. rewrite Hundo. cbn [negb].
  unfold mbind, exec_bind. by destruct (RollbackBlock e s) as [s' [[]|]].
Qed.

(** C10. Blocks that were processed can be rolled back.  When a part of a chain
    whose heights rise was processed successfully, in a state that holds nothing
    of its heights, then undoing its blocks from the last to the first succeeds
    where the configuration enables it, and with the height put back gives caches
    and state equivalent to those before the part.  This needs of the plugins the
    laws [PluginLaws] and [RollbackLaws]: each notification that the validators
    admit is undone by its rollback together with the removals that rollbacks
    queue, which are committed only at the end of each block. *)
Theorem rollback_restores_state Sha3 GenHash MerkleHash hits verifiable config parent elements elements' height s s' r :
  0 ≤ height → inv s → older (height + 1) s → ascending height elements → at_height height s → EnableUndoBlock config = true →
  BlockChainProcessor Sha3 GenHash MerkleHash hits verifiable parent elements s = (s', Ok (r, elements')) →
  IsValidationResultSuccess r = true →
  ∃ t, for_each (λ e, UndoBlock config e UndoBlockType_Rollback) (reverse elements') s' = (t, Ok tt)
    ∧ set_height height t ≡ s.
Proof.
  intros Hh Hi Ho Hasc Hat Hundo Hrun Hr. destruct (BlockChainProcessor_run _ _ _ _ _ _ _ _ _ _ _ Hi Hrun Hr) as [Hex Hsame].
  assert (ascending height elements') as Hasc'.
  { eapply ascending_same; [|exact Hasc]. eapply Forall2_impl; [exact Hsame|]. intros e e' (He & _). unfold be_Height. by rewrite He. }
  rewrite for_each_UndoBlock by done. destruct (rollback_all height _ _ _ s' Hh Hasc' Ho Hex) as (t & Ht & Hts); [by intros h|].
  exists t. split; [done|]. by apply same_but_height_at.
Qed.

End rolling_back.

Lemma ExecuteBlock_run e s1 s2 t :
  publishes e →
  committed P observer (CreateObserverContext e Commit false) (block_notifications e) (set_height (be_Height e) s1) s2 → s1 ≡ t →
  ∃ t', ExecuteBlock e t = (t', Ok tt) ∧ s2 ≡ t'.
Proof.
  intros Hpub Hc Ht. pose proof (set_height_proper (be_Height e) s1 t Ht) as Hh.
  destruct (committed_agree _ (CreateObserverContext e Commit false) _ _ _ _ Hc ltac:(done) eq_refl Hh) as (t' & Hc' & Heq).
  exists t'. split; [|done]. unfold ExecuteBlock. rewrite (run_bind _ _ _ _ _ (on_cache_run _ _)), observe_forward by done.
  by apply (committed_run P).
Qed.

Lemma execute_all es s s' t :
  executed es s s' → s ≡ t → ∃ t', for_each ExecuteBlock es t = (t', Ok tt) ∧ s' ≡ t'.
Proof.
  intros Hex Ht. induction Hex as [s s' Heq|es e s s1 s2 s' H IH Hp Hc Heq].
  - exists t. split; [done|]. transitivity s; [by symmetry|done].
  - destruct (IH Ht) as (t1 & Hrun & Ht1). destruct (ExecuteBlock_run _ _ _ _ Hp Hc Ht1) as (t' & Hrun' & Ht').
    exists t'. split; [|transitivity s2; [by symmetry|done]]. rewrite for_each_app, (run_bind _ _ _ _ _ Hrun). cbn [for_each].
    by rewrite (run_bind _ _ _ _ _ Hrun').
Qed.

(** C22. Blocks that were processed can be executed again.  When a part of a
    chain was processed successfully, executing its blocks, which validates
    nothing and records no receipts, succeeds in any state equivalent to the one
    before it, and leads to one equivalent to the one after it: a node that
    rebuilds its state from stored blocks gets the state of the nodes that
    validated them.
    Assumed of the plugins is [PluginLaws], which is about committing only: an
    observer gives equivalent results on equivalent caches, whether or not
    receipts are recorded; what the validators let through in a state with the
    plugins' invariant [inv], the observer accepts, keeping [inv] and the height
    of the caches.  The account plugin of AccountPlugin.v satisfies it. *)
Theorem replay_agrees Sha3 GenHash MerkleHash hits verifiable parent elements elements' s s' r t :
  inv s → s ≡ t →
  BlockChainProcessor Sha3 GenHash MerkleHash hits verifiable parent elements s = (s', Ok (r, elements')) →
  IsValidationResultSuccess r = true →
  ∃ t', for_each ExecuteBlock elements' t = (t', Ok tt) ∧ s' ≡ t' ∧ Forall2 same_entities elements elements'.
Proof.
  intros Hi Ht Hrun Hr. destruct (BlockChainProcessor_run _ _ _ _ _ _ _ _ _ _ _ Hi Hrun Hr) as [Hex Hsame].
  destruct (execute_all _ _ _ _ Hex Ht) as (t' & H1 & H2). by exists t'.
Qed.

End laws.

End execution.

(** * Example *)

(** A plugin whose caches hold a number; a notification adds to it. *)
Module Sample.

#[export] Existing Instance sample_SubCacheView.
#[export] Existing Instance sample_SubCache.

(** Views that differ in their merkle roots and backups only. *)
#[export] Instance sample_equiv : Equiv sample_view := λ v w,
  sample_value v = sample_value w ∧ sample_hashed v = sample_hashed w ∧ sample_height v = sample_height w.

#[export] Instance sample_ViewEquiv : ViewEquiv sample_view.
Proof.
  split.
  - split; unfold equiv, sample_equiv; red; intros; intuition congruence.
  - intros h v w (H1 & H2 & H3). by split_and!.
  - done.
  - done.
  - done.
Qed.

#[export] Instance sample_SubCacheLaws : SubCacheLaws (Z * bool) sample_view.
Proof. intros h v c. by split_and!. Qed.

Definition type : Z := MakeNotificationType 3 0xFF 1.
Definition publish (info : EntityInfo) : list Z * result unit := ([field 4 1 (ei_entity info)], Ok tt).

(** Numbers above 100 are refused. *)
Definition validator : Validator Z (CatapultCacheDelta sample_view) bool := λ _ n _, Ok (if n <=? 100 then Success else Failure).

Definition add_value (x : Z) (d : CatapultCacheDelta sample_view) : CatapultCacheDelta sample_view :=
  match d with Some v :: d => Some (set_value (sample_value v + x) (sample_root v) v) :: d | _ => d end.

Abbreviation State := (ObserverState Z (CatapultCacheDelta sample_view) unit BlockStatementBuilder).

Definition observer : Observer Z (CatapultCacheDelta sample_view) unit BlockStatementBuilder bool := λ c n,
  on_cache (add_value (match oc_Mode c with Commit => n | Rollback => - n end)).

Lemma add_value_proper x d d' : d ≡ d' → add_value x d ≡ add_value x d'.
Proof.
  intros Hd. destruct Hd as [|o o' d d' Ho Hd]; [done|]. destruct Ho as [v w (H1 & H2 & H3)|]; [|by constructor].
  constructor; [|done]. constructor. split_and!; simpl; congruence.
Qed.

Lemma add_value_add x y d : add_value x (add_value y d) ≡ add_value (x + y) d.
Proof. destruct d as [|[v|] d]; [done| |done]. constructor; [|done]. constructor. split_and!; simpl; [lia|done..]. Qed.

Lemma add_value_0 d : add_value 0 d ≡ d.
Proof. destruct d as [|[v|] d]; [done| |done]. constructor; [|done]. constructor. split_and!; simpl; [lia|done..]. Qed.

#[export] Instance observer_is_proper : ProperObserver observer.
Proof. intros c n s t [H1 H2]. split; [|done]. split; [|done]. simpl. by apply add_value_proper. Qed.

#[export] Instance rollback_laws : RollbackLaws observer id (λ _ _ _, True) (λ _ _, True) (λ _ t s, t ≡ s).
Proof.
  apply reversible_rollback; [apply _|apply _| |done].
  intros c1 c2 n s s' _ _ Hc Hr. unfold observer. rewrite Hc, Hr. intros [= <-]. eexists. split; [done|]. split; [|done]. simpl.
    etransitivity; [apply add_value_add|]. replace (- n + n) with 0 by lia. apply add_value_0.
Qed.

#[export] Instance laws : PluginLaws (λ _, type) validator observer (λ _ _ _, True) (λ _, True).
Proof.
  split; try done.
  - apply _.
  - intros c1 c2 n s _ Hm. unfold observer. by rewrite Hm.
  - intros c n s s' h _ _ [= <-] [Hh _]. split; [|done]. simpl in *. destruct (os_Cache s) as [|[v|] d]; [done| |done].
    inversion_clear Hh as [|? ? ? ? Hv Hd]. constructor; [|done]. inversion_clear Hv as [? ? (H1 & H2 & H3)|].
    constructor. by split_and!.
Qed.

Definition Sha3 (buffer : list Z) : list Z := take 32 (buffer ++ replicate 32 0).
Definition process parent elements :=
  BlockChainProcessor (λ _, type) (λ _, 16) publish validator observer (λ _, true) Sha3 Sha3 (λ _, replicate 32 0)
    (λ _ _ _ _, true) false parent elements.

(** A block at [height] behind the block with hash [previous], which adds [n]
    and gives the state the merkle root [root]. *)
Definition block (n height : Z) (previous : list Z) (root : Z) : list Z :=
  Write32 322 ++ [n] ++ replicate 101 0 ++ Write64 height ++ Write64 height ++ Write64 1 ++ replicate 4 0 ++ previous
  ++ replicate 64 0 ++ replicate 32 root ++ replicate 60 0.

Definition element (n height : Z) (previous hash : list Z) (root : Z) : BlockElement :=
  {| be_Block := block n height previous root; be_EntityHash := hash; be_GenerationHash := replicate 32 height;
     be_SubCacheMerkleRoots := []; be_Transactions := []; be_OptionalStatement := None |}.

Definition parent : BlockElement := element 0 6 (replicate 32 5) (replicate 32 6) 0.
Definition elements : list BlockElement :=
  [element 3 7 (replicate 32 6) (replicate 32 7) 13; element 4 8 (replicate 32 7) (replicate 32 8) 17].

Definition state (value height : Z) : State :=
  {| os_Cache := [Some {| sample_value := value; sample_hashed := true; sample_root := []; sample_height := height; sample_backup := 0 |}];
     os_State := tt; os_BlockStatementBuilder := new_BlockStatementBuilder; os_Notifications := [] |}.

(** The state behind the two blocks, and the elements as they are filled in. *)
Definition after : State * list BlockElement :=
  match process parent elements (state 10 6) with (s, Ok (_, es)) => (s, es) | (s, _) => (s, []) end.

Lemma after_run : process parent elements (state 10 6) = (fst after, Ok (Success, snd after)).
Proof. vm_compute. reflexivity. Qed.

Lemma after_value : os_Cache (fst after) ≡ os_Cache (state 17 8).
Proof. vm_compute. constructor; [|constructor]. by constructor. Qed.

End Sample.

Section sample.
Import (hints) Sample.

Lemma replay_agrees_witness :
  ∃ t, for_each (ExecuteBlock (λ _, Sample.type) Sample.publish Sample.observer (λ _, true)) (snd Sample.after) (Sample.state 10 6)
       = (t, Ok tt) ∧ os_Cache t ≡ os_Cache (Sample.state 17 8).
Proof.
  destruct (replay_agrees (λ _, Sample.type) (λ _, 16) Sample.publish Sample.validator Sample.observer (λ _, true)
    (λ _ _ _, True) (λ _, True) Sample.Sha3 Sample.Sha3 (λ _, replicate 32 0) (λ _ _ _ _, true) false
    Sample.parent Sample.elements (snd Sample.after) (Sample.state 10 6) (fst Sample.after) Success (Sample.state 10 6))
    as (t & Ht & [Hc _] & _); [done|done|exact Sample.after_run|done|].
  exists t. split; [exact Ht|]. etransitivity; [symmetry; exact Hc|exact Sample.after_value].
Defined.

End sample.

End BlockExecution.
