(* ===== verification/AccountPlugin.v ===== *)
(** The account observers of the core plugin in the execution of blocks.

    The observers of AccountRegistration.v, over a catapult cache whose sub cache
    is the account state cache, meet the laws that BlockExecution.v asks of
    plugins.  A rollback of theirs changes no account: it queues a removal, and
    the removals are committed once all entities of the block were undone.  The
    relation [removals_pending] says what such a state stands for, and the example
    rolls back blocks whose signers were registered by them. *)
From stdpp Require Import base tactics numbers option list gmap.
From S2P Require Import Prelude Streams MosaicStore CompactMosaicMap AccountBalances Notifications AccountStates AccountRegistration.
From S2P Require Import CatapultCache BlockElements StatementBuilder BlockExecution.

Local Open Scope Z_scope.

Module AccountPlugin.
Import Stream Balances Notifications AccountStates AccountRegistration CatapultCache Elements StatementBuilder BlockExecution.

(** * Removals that are queued *)

Section pending.
Context {T : Type} `{MosaicStoreLaws T}.
Context (PublicKeyToAddress : Key → Address) (CurrencyMosaicId HarvestingMosaicId : Z) `{!Inj (=) (=) PublicKeyToAddress}.
Implicit Types (d t u : AccountStateCacheDelta T).

Abbreviation visit := (visit PublicKeyToAddress CurrencyMosaicId HarvestingMosaicId).
Abbreviation between := (between PublicKeyToAddress).

(** Accounts and keys are older than [height], and no removal is queued. *)
Record settled (height : Z) d : Prop := {
  st_keys : keys_wf PublicKeyToAddress d;
  st_older : older height d;
  st_addresses : m_queuedRemoveByAddress d = ∅;
  st_publicKeys : m_queuedRemoveByPublicKey d = ∅;
}.

(** What was registered since [d] in the block at [height] is queued in [t]. *)
Definition removals_pending (height : Z) t d : Prop :=
  ∃ ids u, between height ids d u ∧ m_queuedRemoveByAddress u = ∅ ∧ m_queuedRemoveByPublicKey u = ∅ ∧ queued height ids u t.

Lemma settled_mono h k d : h ≤ k → settled h d → settled k d.
Proof. intros Hk [S1 S2 S3 S4]. split; try done. intros x a Ha. specialize (S2 x a Ha). lia. Qed.

(** What two runs of registrations make of a cache. *)
Lemma between_compose height ids1 ids2 d0 d1 d2 :
  height ≠ 0 → between height ids1 d0 d1 → between height ids2 d1 d2 → between height (ids1 ++ ids2) d0 d2.
Proof.
  intros Hh B1 B2.
  assert (∀ k x, fresh_key ids1 d0 d1 k x → fresh_key (ids1 ++ ids2) d0 d2 k x) as F1.
  { intros k x (H1 & H2 & H3). split_and!; [apply elem_of_app; by left|done|by apply (bt_keys _ _ _ _ _ B2)]. }
  assert (∀ k x, fresh_key ids2 d1 d2 k x → fresh_key (ids1 ++ ids2) d0 d2 k x) as F2.
  { intros k x (H1 & H2 & H3). split_and!; [apply elem_of_app; by right| |done].
    destruct (m_keyToAddress d0 !! k) as [y|] eqn:Hk; [|done]. pose proof (bt_keys _ _ _ _ _ B1 k y Hk). congruence. }
  split.
  - intros x a Hx. destruct (bt_old _ _ _ _ _ B1 x a Hx) as [Ha|(Hz & k & Hk & Ha)].
    + destruct (bt_old _ _ _ _ _ B2 x a Ha) as [?|(? & k & ? & ?)]; [by left|]. right. split; [done|]. exists k. auto.
    + right. split; [done|]. exists k. destruct (bt_old _ _ _ _ _ B2 _ _ Ha) as [?|(? & _)]; [auto|done].
  - intros x a Hx Ha. destruct (m_stateByAddress d1 !! x) as [a1|] eqn:Hx1.
    + destruct (bt_new _ _ _ _ _ B1 x a1 Hx Hx1) as (N1 & N2 & N3). destruct (bt_old _ _ _ _ _ B2 x a1 Hx1) as [E|(Hz & k & Hk & E)].
      * assert (a = a1) as -> by congruence. split_and!; [done|done|]. rewrite elem_of_app.
        destruct N3 as [(? & ? & ?)|[? ?]]; [left; by auto|right; by auto].
      * assert (a = set_PublicKey k height a1) as -> by congruence. cbn. split_and!; [done|done|]. right. auto.
    + destruct (bt_new _ _ _ _ _ B2 x a Hx1 Ha) as (N1 & N2 & N3). split_and!; [done|done|]. rewrite elem_of_app.
      destruct N3 as [(? & ? & ?)|[? ?]]; [left; by auto|right; by auto].
  - intros k x Hk. by apply (bt_keys _ _ _ _ _ B2), (bt_keys _ _ _ _ _ B1).
  - intros k x Hk Hk2. rewrite elem_of_app. destruct (m_keyToAddress d1 !! k) as [y|] eqn:Hk1.
    + assert (y = x) as -> by (pose proof (bt_keys _ _ _ _ _ B2 k y Hk1); congruence).
      destruct (bt_newkey _ _ _ _ _ B1 k x Hk Hk1) as (N1 & N2 & a & N3 & N4 & N5). split_and!; [by left|done|]. exists a.
      destruct (bt_old _ _ _ _ _ B2 x a N3) as [?|[? _]]; [done|congruence].
    + destruct (bt_newkey _ _ _ _ _ B2 k x Hk1 Hk2) as (N1 & N2 & N3). split_and!; [by right|done|done].
Qed.

Lemma visit_commit height id d :
  height ≠ 0 → keys_wf PublicKeyToAddress d →
  ∃ d', visit Commit height id d = (d', Ok tt) ∧ between height [id] d d' ∧ same_queues d d'.
Proof.
  intros Hh Hk. pose proof (between_refl PublicKeyToAddress height [id] d) as Hr. destruct id as [x|k].
  - destruct (register_address PublicKeyToAddress CurrencyMosaicId HarvestingMosaicId height [ById_Address x] d d x Hr) as (d' & ? & ? & _ & _ & ?);
      [by left|by exists d'].
  - destruct (register_key PublicKeyToAddress CurrencyMosaicId HarvestingMosaicId height Hh [ById_Key k] d Hk) with (d := d) (k := k)
      as (d' & ? & ? & _ & _ & ?); [intros k1 k2 _ _; apply inj, _|done|by left|by exists d'].
Qed.

Lemma between_settled height ids d d' :
  0 < height → settled (height + 1) d → between height ids d d' → same_queues d d' → settled (height + 1) d'.
Proof.
  intros Hh [S1 S2 S3 S4] Hb [Q1 Q2]. split; [| |congruence|congruence].
  - split.
    + intros x a Ha. by destruct (between_account _ _ _ _ S1 d' x a Hb Ha).
    + intros x a Ha. by destruct (between_account _ _ _ _ S1 d' x a Hb Ha).
    + intros x a Ha Hz. destruct (m_stateByAddress d !! x) as [a0|] eqn:Hx.
      * destruct (bt_old _ _ _ _ _ Hb x a0 Hx) as [E|(_ & k & _ & E)]; rewrite E in Ha; injection Ha as <-; [by eapply (kwf_unknown _ _ S1)|].
        cbn in Hz. lia.
      * destruct (bt_new _ _ _ _ _ Hb x a Hx Ha) as (_ & _ & [(_ & ? & _)|[? _]]); [done|lia].
    + intros k x Hk. by destruct (between_known _ height ltac:(lia) _ _ S1 d' k x Hb Hk) as (_ & _ & ?).
    + intros k x Hk. by destruct (between_known _ height ltac:(lia) _ _ S1 d' k x Hb Hk) as (? & _).
  - intros x a Ha. destruct (m_stateByAddress d !! x) as [a0|] eqn:Hx.
    + specialize (S2 x a0 Hx). destruct (bt_old _ _ _ _ _ Hb x a0 Hx) as [E|(_ & k & _ & E)]; rewrite E in Ha; injection Ha as <-; cbn; lia.
    + destruct (bt_new _ _ _ _ _ Hb x a Hx Ha) as (_ & ? & [[? _]|[? _]]); lia.
Qed.

Lemma visit_settled height id d d' :
  0 < height → settled (height + 1) d → visit Commit height id d = (d', Ok tt) → settled (height + 1) d'.
Proof.
  intros Hh Hs Hv. destruct (visit_commit height id d ltac:(lia) (st_keys _ _ Hs)) as (d1 & E & Hb & Hq).
  assert (d1 = d') as -> by congruence. by eapply between_settled.
Qed.

Lemma pending_start height d : settled (height + 1) d → removals_pending height d d.
Proof.
  intros [_ _ S3 S4]. exists [], d. split_and!; [apply between_refl|done|done|]. unfold queued. set_solver.
Qed.

(** The rollback of a registration queues it beside those that came after it. *)
Lemma pending_step height id d d' t :
  0 < height → settled (height + 1) d → visit Commit height id d = (d', Ok tt) → removals_pending height t d' →
  ∃ t', visit Rollback height id t = (t', Ok tt) ∧ removals_pending height t' d.
Proof.
  intros Hh Hs Hv (ids & u & Hb & Q1 & Q2 & Hq). destruct (visit_commit height id d ltac:(lia) (st_keys _ _ Hs)) as (d1 & E & Hb1 & _).
  assert (d1 = d') as -> by congruence.
  destruct (rollback_queues PublicKeyToAddress CurrencyMosaicId HarvestingMosaicId height [id] t) as (t' & Hr & Hq').
  assert (visit Rollback height id t = (t', Ok tt)) as Hr'.
  { cbn [for_each] in Hr. unfold mbind, exec_bind in Hr. by destruct (visit Rollback height id t) as [t1 [[]|]]. }
  exists t'. split; [done|]. exists (id :: ids), u. split_and!; [|done|done|].
  - apply (between_compose height [id] ids d d' u); [lia|done|done].
  - destruct Hq as (A1 & A2 & A3 & A4), Hq' as (B1 & B2 & B3 & B4). split_and!; [congruence|congruence|..].
    + intros p. rewrite B3, A3, list_elem_of_singleton, elem_of_cons. tauto.
    + intros p. rewrite B4, A4, list_elem_of_singleton, elem_of_cons. tauto.
Qed.

Lemma pending_commit height d t :
  0 < height → settled height d → removals_pending height t d → commitRemovals t = d.
Proof.
  intros Hh [S1 S2 S3 S4] (ids & u & Hb & Q1 & Q2 & Hq).
  rewrite (commitRemovals_clears PublicKeyToAddress height ltac:(lia) ids d S1 S2) with (d := u) (ids' := ids); try done.
  - destruct d. cbn in *. by subst.
  - intros k1 k2 _ _. apply inj, _.
Qed.

End pending.

(** * The account state cache as a sub cache *)

Section plugin.
Context {T : Type} `{MosaicStoreLaws T}.
Context (PublicKeyToAddress : Key → Address) (CurrencyMosaicId HarvestingMosaicId : Z) `{!Inj (=) (=) PublicKeyToAddress}.
(** The root of the tree that holds the accounts. *)
Context (root_of : AccountStateCacheDelta T → list Z) {Config : Type} (NotificationType : AccountId → Z).

Record account_view := {
  av_delta : AccountStateCacheDelta T;
  av_height : Z;
  av_root : list Z;
  av_backup : AccountStateCacheDelta T;
}.

Definition set_delta (d : AccountStateCacheDelta T) (v : account_view) : account_view :=
  {| av_delta := d; av_height := av_height v; av_root := av_root v; av_backup := av_backup v |}.

#[local] Instance account_SubCacheView : SubCacheView account_view := {
  view_enabled _ := true;
  view_setHeight height v := {| av_delta := av_delta v; av_height := height; av_root := av_root v; av_backup := av_backup v |};
  view_supportsMerkleRoot _ := true;
  view_tryGetMerkleRoot v := Some (av_root v);
  view_setMerkleRoot root v := {| av_delta := av_delta v; av_height := av_height v; av_root := root; av_backup := av_backup v |};
  view_updateMerkleRoot _ v :=
    {| av_delta := av_delta v; av_height := av_height v; av_root := root_of (av_delta v); av_backup := av_backup v |};
  view_backupChanges _ v := {| av_delta := av_delta v; av_height := av_height v; av_root := av_root v; av_backup := av_delta v |};
  view_restoreChanges v := set_delta (av_backup v) v;
}.

(** Merkle root and backup aside. *)
#[local] Instance account_equiv : Equiv account_view := λ v w, av_delta v = av_delta w ∧ av_height v = av_height w.

#[local] Instance account_ViewEquiv : ViewEquiv account_view.
Proof.
  split.
  - split; unfold equiv, account_equiv; red; intros; intuition congruence.
  - intros h v w [H1 H2]. by split.
  - done.
  - done.
  - done.
Qed.

Abbreviation State := (ObserverState AccountId (CatapultCacheDelta account_view) unit BlockStatementBuilder).
Implicit Types (s t : State).

(** The observers reach the account state cache through the cache. *)
Definition AccountObserver : Observer AccountId (CatapultCacheDelta account_view) unit BlockStatementBuilder Config := λ c id s,
  match os_Cache s with
  | Some v :: rest =>
      let '(d, r) := visit PublicKeyToAddress CurrencyMosaicId HarvestingMosaicId (oc_Mode c) (oc_Height c) id (av_delta v) in
      (set_cache (Some (set_delta d v) :: rest) s, r)
  | _ => (s, Throw undefined_behaviour)
  end.

Definition account_commitRemovals (cache : CatapultCacheDelta account_view) : CatapultCacheDelta account_view :=
  match cache with Some v :: rest => Some (set_delta (commitRemovals (av_delta v)) v) :: rest | _ => cache end.

Definition accounts_older (height : Z) s : Prop :=
  match os_Cache s with Some v :: _ => settled PublicKeyToAddress height (av_delta v) | _ => False end.

Definition accounts_pending (height : Z) t s : Prop :=
  ∃ v w rest rest', os_Cache t = Some v :: rest ∧ os_Cache s = Some w :: rest' ∧ rest ≡ rest' ∧ av_height v = av_height w
    ∧ removals_pending PublicKeyToAddress height (av_delta v) (av_delta w).

(** States with an account state cache that are equivalent. *)
Lemma equiv_accounts s t v rest :
  s ≡ t → os_Cache s = Some v :: rest →
  ∃ w rest', os_Cache t = Some w :: rest' ∧ rest ≡ rest' ∧ av_delta v = av_delta w ∧ av_height v = av_height w.
Proof.
  intros [Hc _] Hs. rewrite Hs in Hc. inversion Hc as [|? o ? rest' Ho Hrest]; subst. inversion Ho as [? w [H1 H2]|]; subst.
  by exists w, rest'.
Qed.

Lemma AccountObserver_run c id s s' :
  AccountObserver c id s = (s', Ok tt) →
  ∃ v rest d, os_Cache s = Some v :: rest ∧ s' = set_cache (Some (set_delta d v) :: rest) s
    ∧ visit PublicKeyToAddress CurrencyMosaicId HarvestingMosaicId (oc_Mode c) (oc_Height c) id (av_delta v) = (d, Ok tt).
Proof.
  unfold AccountObserver. destruct (os_Cache s) as [|[v|] rest]; [done| |done]. destruct (visit _ _ _ _ _ _ _) as [d r] eqn:Hv.
  intros [= <- ->]. by exists v, rest, d.
Qed.

#[local] Instance AccountObserver_proper : ProperObserver AccountObserver.
Proof.
  intros c id s t Hst. unfold AccountObserver. pose proof Hst as [Hc Hs]. destruct Hc as [|o o' r r' Ho Hr]; [by split|].
  destruct Ho as [v w [H1 H2]|]; [|by split].
  rewrite <-H1. destruct (visit _ _ _ _ _ _ _) as [d res]. split; [|done]. split; [|done]. cbn. by repeat constructor.
Qed.

#[local] Instance account_laws : PluginLaws NotificationType (λ _ _ _, Ok Success) AccountObserver (λ _ _ _, True) (λ _, True).
Proof.
  split; try done.
  - apply _.
  - intros c1 c2 id s (_ & H2 & _) Hm. unfold AccountObserver. by rewrite Hm, H2.
  - intros c id s s' h _ _ (v & rest & d & Hs & -> & _)%AccountObserver_run Hh.
    destruct Hh as [Hc _]. unfold set_height in Hc. cbn in Hc. rewrite Hs in Hc. split; [|done]. cbn.
    inversion Hc as [|? ? ? ? Ho Hrest]; subst. constructor; [|exact Hrest]. constructor. inversion Ho as [? ? [_ Hv]|]; subst. by split.
Qed.

#[local] Instance account_rollback_laws :
  RollbackLaws AccountObserver account_commitRemovals (λ _ _ _, True) accounts_older accounts_pending.
Proof.
  split; unfold accounts_older, accounts_pending.
  - intros h s t Hst. destruct (os_Cache s) as [|[v|] rest] eqn:Hs; [done| |done].
    destruct (equiv_accounts s t v rest Hst Hs) as (w & rest' & -> & _ & -> & _). done.
  - intros h k s. cbn. by destruct (os_Cache s) as [|[v|] rest].
  - intros h k s Hk. destruct (os_Cache s) as [|[v|] rest]; [done| |done]. by apply settled_mono.
  - intros c id s s' Hh Ho _ Hm (v & rest & d & Hs & -> & Hv)%AccountObserver_run. rewrite Hs in Ho. rewrite Hm in Hv. cbn.
    by eapply visit_settled.
  - intros h s t Ho Ht. destruct (os_Cache s) as [|[w|] rest] eqn:Hs; [done| |done]. symmetry in Ht.
    destruct (equiv_accounts s t w rest Ht Hs) as (v & rest' & -> & Hr & Hd & Hv).
    exists v, w, rest', rest. split_and!; try done. rewrite <-Hd. by apply pending_start.
  - intros c1 c2 id s s' t Hh Ho _ (_ & Hplace & _) Hm1 Hm2 (w & rest & d & Hs & -> & Hv)%AccountObserver_run
      (v & w' & r & r' & Ht & [= <- <-] & Hr & Hav & Hp).
    rewrite Hs in Ho. rewrite Hm1 in Hv. cbn in Hp, Hav.
    destruct (pending_step PublicKeyToAddress CurrencyMosaicId HarvestingMosaicId _ _ _ _ _ Hh Ho Hv Hp) as (t' & Hrun & Hp').
    eexists. split; [unfold AccountObserver; rewrite Ht, Hm2, <-Hplace, Hrun; done|].
    exists (set_delta t' v), w, r, rest. by split_and!.
  - intros h s t Hh Ho (v & w & r & r' & Ht & Hs & Hr & Hav & Hp). rewrite Hs in Ho. split; [|cbn; by destruct (os_State t), (os_State s)].
    cbn. rewrite Ht, Hs. constructor; [|done]. constructor. split; [|done]. cbn. by eapply pending_commit.
Qed.

End plugin.

(** * Example *)

(** The signer of an entity is registered by its key. *)
Definition publish (info : EntityInfo) : list AccountId * result unit := ([ById_Key (Signer (ei_entity info))], Ok tt).

Definition sample_root (d : AccountStateCacheDelta MosaicMap.CompactMosaicMap) : list Z := [Z.of_nat (size (m_stateByAddress d))].

#[local] Existing Instance account_equiv.
#[local] Instance sample_accounts : SubCacheView (account_view (T := MosaicMap.CompactMosaicMap)) := account_SubCacheView sample_root.
#[local] Instance sample_accounts_equiv : ViewEquiv (account_view (T := MosaicMap.CompactMosaicMap)) := account_ViewEquiv sample_root.

Definition sample_observer : Observer AccountId (CatapultCacheDelta account_view) unit BlockStatementBuilder bool :=
  AccountObserver sample_address 7 8.

(** A block at [height] behind the block with hash [previous], signed with a key
    of bytes [signer], after which there are [accounts] accounts. *)
Definition block (signer height : Z) (previous : list Z) (accounts : Z) : list Z :=
  Write32 322 ++ replicate 64 0 ++ replicate 32 signer ++ replicate 6 0 ++ Write64 height ++ Write64 height ++ Write64 1
  ++ replicate 4 0 ++ previous ++ replicate 64 0 ++ take 32 (accounts :: replicate 32 0) ++ replicate 60 0.

Definition element (signer height : Z) (previous hash : list Z) (accounts : Z) : BlockElement :=
  {| be_Block := block signer height previous accounts; be_EntityHash := hash; be_GenerationHash := replicate 32 height;
     be_SubCacheMerkleRoots := []; be_Transactions := []; be_OptionalStatement := None |}.

Definition parent : BlockElement := element 0 6 (replicate 32 5) (replicate 32 6) 0.

(** The second and the third block have the same signer. *)
Definition sample_elements : list BlockElement :=
  [element 1 7 (replicate 32 6) (replicate 32 7) 2; element 2 8 (replicate 32 7) (replicate 32 8) 3;
   element 2 9 (replicate 32 8) (replicate 32 9) 3].

Definition before : ObserverState AccountId (CatapultCacheDelta account_view) unit BlockStatementBuilder :=
  {| os_Cache := [Some {| av_delta := known_by_address; av_height := 6; av_root := []; av_backup := known_by_address |}];
     os_State := tt; os_BlockStatementBuilder := new_BlockStatementBuilder; os_Notifications := [] |}.

Definition process parent elements :=
  BlockChainProcessor (λ _, Sample.type) (λ _, 16) publish (λ _ _ _, Ok Success) sample_observer (λ _, true) Sample.Sha3 Sample.Sha3
    (λ _, replicate 32 0) (λ _ _ _ _, true) false parent elements.

Definition after : ObserverState AccountId (CatapultCacheDelta account_view) unit BlockStatementBuilder * list BlockElement :=
  match process parent sample_elements before with (s, Ok (_, es)) => (s, es) | (s, _) => (s, []) end.

Lemma accounts_after_run : process parent sample_elements before = (fst after, Ok (Success, snd after)).
Proof. vm_compute. reflexivity. Qed.

Lemma known_by_address_settled : settled sample_address 7 known_by_address.
Proof.
  split; [|intros x a; cbn; intros [<- <-]%lookup_singleton_Some; cbn; lia|done|done].
  split; cbn; intros x a; try (by rewrite lookup_empty); by intros [<- <-]%lookup_singleton_Some.
Qed.

#[local] Instance sample_address_inj : Inj (=) (=) sample_address.
Proof. by intros k1 k2 [=]. Qed.

#[local] Instance sample_laws : PluginLaws (λ _, Sample.type) (λ _ _ _, Ok Success) sample_observer (λ _ _ _, True) (λ _, True) :=
  account_laws sample_address 7 8 sample_root (λ _, Sample.type).

#[local] Instance sample_rollback_laws : RollbackLaws sample_observer account_commitRemovals (λ _ _ _, True)
    (accounts_older sample_address) (accounts_pending sample_address) := account_rollback_laws sample_address 7 8 sample_root.

Lemma rollback_restores_state_witness :
  ∃ t, for_each (λ e, UndoBlock (λ _, Sample.type) publish sample_observer (λ _, true) id account_commitRemovals true e UndoBlockType_Rollback)
         (reverse (snd after)) (fst after) = (t, Ok tt) ∧ set_height 6 t ≡ before.
Proof.
  apply (rollback_restores_state (λ _, Sample.type) (λ _, 16) publish (λ _ _ _, Ok Success) sample_observer (λ _, true) id
    account_commitRemovals (λ _ _ _, True) (λ _, True) (accounts_older sample_address) (accounts_pending sample_address)
    Sample.Sha3 Sample.Sha3 (λ _, replicate 32 0) (λ _ _ _ _, true) false true parent sample_elements (snd after) 6 before (fst after) Success).
  - done.
  - done.
  - exact known_by_address_settled.
  - vm_compute. done.
  - done.
  - done.
  - exact accounts_after_run.
  - done.
Defined.

End AccountPlugin.
