(* ===== verification/Consumers.v ===== *)
(** Model of the consumers through which block and transaction inputs pass before
    blocks are synchronized (catapult/consumers): results and their conversion,
    InputUtils.cpp, ConsumerUtils.h, HashCalculatorConsumer.cpp with
    model/EntityHasher.cpp, HashCheckConsumer.cpp with RecentHashCache.cpp,
    BlockChainCheckConsumer.cpp, the transaction part of
    StatelessValidationConsumer.cpp, and NewTransactionsConsumer.cpp.

    Hash functions, transaction plugins, the clock and the stateless validators
    are parameters. *)
From stdpp Require Import base tactics numbers option list gmap sets.
From S2P Require Import Prelude Streams Notifications CatapultCache BlockDifficulty BlockElements.
From S2P Require Import StatementBuilder BlockExecution Disruptor ChainSync MerkleHashBuilder.

Local Open Scope Z_scope.

Module Consumers.
Import Stream Notifications Elements BlockExecution.
Import Dispatcher (CompletionStatus (..), ConsumerResult (..), Abort, Continue, Complete).

(** * Results *)

Definition Failure_Consumer (code : Z) : Z := MakeValidationResult Severity_Failure 0xFE code 0.
Definition Neutral_Consumer (code : Z) : Z := MakeValidationResult Severity_Neutral 0xFE code 1.

Definition Failure_Consumer_Empty_Input : Z := Failure_Consumer 0x0001.
Definition Failure_Consumer_Block_Transactions_Hash_Mismatch : Z := Failure_Consumer 0x1001.
Definition Neutral_Consumer_Hash_In_Recency_Cache : Z := Neutral_Consumer 0x1002.
Definition Failure_Consumer_Remote_Chain_Too_Many_Blocks : Z := Failure_Consumer 0x2001.
Definition Failure_Consumer_Remote_Chain_Improper_Link : Z := Failure_Consumer 0x2002.
Definition Failure_Consumer_Remote_Chain_Duplicate_Transactions : Z := Failure_Consumer 0x2003.
Definition Failure_Consumer_Remote_Chain_Unlinked : Z := Failure_Consumer 0x3001.
Definition Failure_Consumer_Remote_Chain_Mismatched_Difficulties : Z := Failure_Consumer 0x3002.
Definition Failure_Consumer_Remote_Chain_Score_Not_Better : Z := Failure_Consumer 0x3003.
Definition Failure_Consumer_Remote_Chain_Too_Far_Behind : Z := Failure_Consumer 0x3004.
Definition Failure_Consumer_Remote_Chain_Too_Far_In_Future : Z := Failure_Consumer 0x3005.
Definition Failure_Consumer_Remote_Network_Config_Malformed : Z := Failure_Consumer 0x3006.

Definition CompleteSuccess : ConsumerResult := Complete Success.
Definition CompleteNeutral : ConsumerResult := Complete Neutral.

(** The code of [ToNodeInteractionResult]. *)
Definition ToNodeInteractionResult (completionCode : Z) : ChainSync.NodeInteractionResultCode :=
  if GetSeverity completionCode =? Severity_Success then ChainSync.Success
  else if GetSeverity completionCode =? Severity_Neutral then ChainSync.Neutral
  else ChainSync.Failure.

(** * InputUtils *)

Definition ExtractBlocks (elements : list BlockElement) : list (list Z) := be_Block <$> elements.

(** A hash pointer set compares what it points to. *)
Definition transaction_hashes (element : BlockElement) : list (list Z) := te_EntityHash <$> be_Transactions element.

Definition ExtractTransactionHashes (elements : list BlockElement) : gset (list Z) :=
  foldl (λ hashes element, foldl (λ hashes hash, {[hash]} ∪ hashes) hashes (transaction_hashes element)) ∅ elements.

Definition CollectRevertedTransactionInfos (addedTransactionHashes : gset (list Z)) (removedTransactionInfos : list TransactionInfo)
    : list TransactionInfo :=
  filter (λ info, ti_EntityHash info ∉ addedTransactionHashes) removedTransactionInfos.

(** * ConsumerUtils *)

(** Entities of transactions; the types are those of the plugins. *)
Definition Entity_Type_Network_Config : Z := 0x4159.
Definition Entity_Type_Aggregate_Complete : Z := 0x4141.
Definition Entity_Type_Aggregate_Bonded : Z := 0x4241.

Definition Transaction_Type (transaction : list Z) : Z := field 104 2 transaction.
Definition sizeof_EmbeddedTransaction : Z := 4 + 32 + 4 + 2.
Definition Embedded_Type (transaction : list Z) : Z := field 40 2 transaction.
Definition sizeof_AggregateTransaction : Z := sizeof_Transaction + 4.
Definition Aggregate_PayloadSize (aggregate : list Z) : Z := field 122 4 aggregate.

(** The sub transactions of an aggregate, up to an error. *)
Definition Aggregate_Transactions (aggregate : list Z) : list (list Z) * result unit :=
  if Size aggregate <=? sizeof_AggregateTransaction then ([], Ok tt)
  else iterate_entities sizeof_EmbeddedTransaction (S (length aggregate))
         (drop (Z.to_nat sizeof_AggregateTransaction) aggregate) (Aggregate_PayloadSize aggregate).

(** A network config transaction whose header has [headerSize] bytes. *)
Definition ApplyHeightDelta (headerSize : nat) (transaction : list Z) : Z := field headerSize 8 transaction.
Definition BlockChainConfigSize (headerSize : nat) (transaction : list Z) : Z := field (headerSize + 8) 2 transaction.
Definition SupportedEntityVersionsSize (headerSize : nat) (transaction : list Z) : Z := field (headerSize + 10) 2 transaction.

(** The configuration; null when it is empty or the size of the transaction is
    not what its parts make. *)
Definition BlockChainConfigPtr (headerSize : nat) (transaction : list Z) : option (list Z) :=
  let configSize := BlockChainConfigSize headerSize transaction in
  if configSize =? 0 then None
  else if negb (Size transaction =? Z.of_nat headerSize + 12 + configSize + SupportedEntityVersionsSize headerSize transaction) then None
  else Some (take (Z.to_nat configSize) (drop (headerSize + 12) transaction)).

Section configs.
Context {Container NetworkConfiguration : Type}.
(** How a container takes a configuration at a height. *)
Context (add : Z → nat → list Z → Container → result Container).

Definition Transaction_Header_Size : nat := Z.to_nat sizeof_Transaction.
Definition Embedded_Header_Size : nat := Z.to_nat sizeof_EmbeddedTransaction.

Definition AddConfig (blockHeight : Z) (headerSize : nat) (transaction : list Z) : Exec Container unit := λ configs,
  match add blockHeight headerSize transaction configs with
  | Ok configs' => (configs', Ok tt)
  | Throw e => (configs, Throw e)
  end.

Definition extract_transaction (blockHeight : Z) (transaction : list Z) : Exec Container unit :=
  let type := Transaction_Type transaction in
  if Entity_Type_Network_Config =? type then AddConfig blockHeight Transaction_Header_Size transaction
  else if (Entity_Type_Aggregate_Complete =? type) || (Entity_Type_Aggregate_Bonded =? type) then
    let '(subTransactions, r) := Aggregate_Transactions transaction in
    for_each (λ subTransaction,
      if Entity_Type_Network_Config =? Embedded_Type subTransaction
      then AddConfig blockHeight Embedded_Header_Size subTransaction else mret tt) subTransactions ≫= λ _,
    ends r
  else mret tt.

(** An exception ends the extraction; it leaves what was added before. *)
Definition ExtractConfigs (elements : list BlockElement) (configs : Container) : Container * result bool :=
  match for_each (λ element, for_each (λ t, extract_transaction (be_Height element) (te_Transaction t)) (be_Transactions element))
          elements configs with
  | (configs, Ok _) => (configs, Ok true)
  | (configs, Throw undefined_behaviour) => (configs, Throw undefined_behaviour)
  | (configs, Throw _) => (configs, Ok false)
  end.

End configs.

(** The two containers: configurations and heights. *)
Definition add_config {C} (ParseConfig : list Z → result C) (blockHeight : Z) (headerSize : nat) (transaction : list Z)
    (configs : list (Z * C)) : result (list (Z * C)) :=
  config ← match BlockChainConfigPtr headerSize transaction with
           | Some bytes => ParseConfig bytes
           | None => if BlockChainConfigSize headerSize transaction =? 0 then ParseConfig [] else Throw undefined_behaviour
           end;
  let height := add64 blockHeight (ApplyHeightDelta headerSize transaction) in
  Ok (match map_find height configs with Some _ => configs | None => map_insert height config configs end).

Definition add_height (blockHeight : Z) (headerSize : nat) (transaction : list Z) (heights : gset Z) : result (gset Z) :=
  Ok ({[add64 blockHeight (ApplyHeightDelta headerSize transaction)]} ∪ heights).

(** * RecentHashCache *)

Record HashCheckOptions := { CacheDuration : Z; PruneInterval : Z; MaxCacheSize : Z }.
Record RecentHashCache := { m_lastPruneTime : Z; m_cache : gmap (list Z) Z }.

(** The time is the one the supplier gives at the call. *)
Definition new_RecentHashCache (time : Z) : RecentHashCache := {| m_lastPruneTime := time; m_cache := ∅ |}.

Section recent.
Context (options : HashCheckOptions).

Definition recent_size (c : RecentHashCache) : Z := Z.of_nat (size (m_cache c)).
Definition recent_contains (hash : list Z) (c : RecentHashCache) : bool := bool_decide (is_Some (m_cache c !! hash)).

Definition checkAndUpdateExisting (hash : list Z) (time : Z) (c : RecentHashCache) : RecentHashCache * bool :=
  match m_cache c !! hash with
  | Some _ => ({| m_lastPruneTime := m_lastPruneTime c; m_cache := <[hash := time]> (m_cache c) |}, true)
  | None => (c, false)
  end.

Definition pruneCache (time : Z) (c : RecentHashCache) : RecentHashCache :=
  if sub64 time (m_lastPruneTime c) <? PruneInterval options then c
  else {| m_lastPruneTime := time; m_cache := filter (λ e, ¬ add64 (snd e) (CacheDuration options) < time) (m_cache c) |}.

Definition tryAddToCache (hash : list Z) (time : Z) (c : RecentHashCache) : RecentHashCache :=
  if MaxCacheSize options <=? Z.of_nat (size (m_cache c)) then c
  else {| m_lastPruneTime := m_lastPruneTime c;
          m_cache := match m_cache c !! hash with Some _ => m_cache c | None => <[hash := time]> (m_cache c) end |}.

Definition recent_add (currentTime : Z) (hash : list Z) (c : RecentHashCache) : RecentHashCache * bool :=
  let '(c, isHashKnown) := checkAndUpdateExisting hash currentTime c in
  let c := pruneCache currentTime c in
  (if isHashKnown then c else tryAddToCache hash currentTime c, negb isHashKnown).

(** * Hash check consumers *)

Definition BlockHashCheckConsumer (currentTime : Z) (elements : list BlockElement) (c : RecentHashCache)
    : RecentHashCache * ConsumerResult :=
  match elements with
  | [] => (c, Abort Failure_Consumer_Empty_Input)
  | [element] =>
      let '(c, added) := recent_add currentTime (be_EntityHash element) c in
      (c, if added then Continue else Abort Neutral_Consumer_Hash_In_Recency_Cache)
  | _ => (c, Continue)
  end.

Inductive ResultSeverity_ := Severity_Neutral_ | Severity_Success_ | Severity_Failure_.

#[global] Instance ResultSeverity_eq_dec : EqDecision ResultSeverity_.
Proof. solve_decision. Defined.

Record FreeTransactionElement := { fte_element : TransactionElement; fte_ResultSeverity : ResultSeverity_ }.

Definition new_FreeTransactionElement (transaction : TransactionElement) : FreeTransactionElement :=
  {| fte_element := transaction; fte_ResultSeverity := Severity_Success_ |}.

Definition set_severity (severity : ResultSeverity_) (e : FreeTransactionElement) : FreeTransactionElement :=
  {| fte_element := fte_element e; fte_ResultSeverity := severity |}.

Definition Deadline (transaction : list Z) : Z := field 114 8 transaction.

Section transactions.
Context (knownHashPredicate : Z → list Z → bool).

(** The clock is read at every element. *)
Definition shouldSkip (currentTime : Z) (element : FreeTransactionElement) (c : RecentHashCache) : RecentHashCache * bool :=
  let t := fte_element element in
  let '(c, added) := recent_add currentTime (te_EntityHash t) c in
  if negb added then (c, true) else (c, knownHashPredicate (Deadline (te_Transaction t)) (te_EntityHash t)).

Fixpoint skip_all (times : nat → Z) (elements : list FreeTransactionElement) (c : RecentHashCache)
    : RecentHashCache * (list FreeTransactionElement * nat) :=
  match elements with
  | [] => (c, ([], 0%nat))
  | element :: rest =>
      let '(c, skip) := shouldSkip (times 0%nat) element c in
      let '(c, (rest, numSkipped)) := skip_all (λ i, times (S i)) rest c in
      (c, if (skip : bool) then (set_severity Severity_Neutral_ element :: rest, S numSkipped) else (element :: rest, numSkipped))
  end.

Definition TransactionHashCheckConsumer (times : nat → Z) (elements : list FreeTransactionElement) (c : RecentHashCache)
    : RecentHashCache * (list FreeTransactionElement * ConsumerResult) :=
  match elements with
  | [] => (c, ([], Abort Failure_Consumer_Empty_Input))
  | _ =>
      let '(c, (elements', numSkippedElements)) := skip_all times elements c in
      (c, (elements', if negb (length elements =? numSkippedElements)%nat then Continue
                      else Abort Neutral_Consumer_Hash_In_Recency_Cache))
  end.

End transactions.
End recent.

(** * BlockChainCheckConsumer *)

Section chain_check.
Context (maxChainSize : Z) (MaxBlockFutureTime : Z → Z).

(** [MaxBlockFutureTime] of the configuration at a height, in milliseconds. *)
Definition isChainTimestampAllowed (currentTime : Z) (block : list Z) : bool :=
  Block_Timestamp block <=? add64 currentTime (MaxBlockFutureTime (Block_Height block)).

Definition IsLink (previousElement : BlockElement) (currentBlock : list Z) : bool :=
  IsChainLink (be_Block previousElement) (be_EntityHash previousElement) currentBlock.

(** The hashes of one element; [None] when one is there already. *)
Fixpoint insert_hashes (new : list (list Z)) (hashes : gset (list Z)) : option (gset (list Z)) :=
  match new with
  | [] => Some hashes
  | hash :: new => if decide (hash ∈ hashes) then None else insert_hashes new ({[hash]} ∪ hashes)
  end.

Fixpoint check_elements (previousElement : option BlockElement) (hashes : gset (list Z)) (elements : list BlockElement)
    : ConsumerResult :=
  match elements with
  | [] => Continue
  | element :: rest =>
      if match previousElement with Some previous => negb (IsLink previous (be_Block element)) | None => false end
      then Abort Failure_Consumer_Remote_Chain_Improper_Link
      else match insert_hashes (transaction_hashes element) hashes with
           | None => Abort Failure_Consumer_Remote_Chain_Duplicate_Transactions
           | Some hashes => check_elements (Some element) hashes rest
           end
  end.

Definition BlockChainCheckConsumer (currentTime : Z) (elements : list BlockElement) : ConsumerResult :=
  match last elements with
  | None => Abort Failure_Consumer_Empty_Input
  | Some back =>
      if maxChainSize <? Z.of_nat (length elements) then Abort Failure_Consumer_Remote_Chain_Too_Many_Blocks
      else if negb (isChainTimestampAllowed currentTime (be_Block back))
      then Abort Failure_Consumer_Remote_Chain_Too_Far_In_Future
      else check_elements None ∅ elements
  end.

End chain_check.

(** * Hash calculation *)

(** What the hashes need of the plugin of a transaction type. *)
Record TransactionPlugin := { dataBuffer : list Z → list Z; merkleSupplementaryBuffers : list Z → list (list Z) }.

Definition BlockTransactionsHash (block : list Z) : list Z := hash_at 166 block.

Section hashes.
Context (Sha3_256 : list Z → list Z) (findPlugin : Z → option TransactionPlugin) (generationHash : list Z).

(** The R part of the signature, the signer, the generation hash if there is one,
    and the data. *)
Definition CalculateHash (entity buffer : list Z) (optionalGenerationHash : option (list Z)) : list Z :=
  Sha3_256 (take 32 (drop 4 entity) ++ Signer entity ++ default [] optionalGenerationHash ++ buffer).

Definition VerifiableEntity_Header_Size : nat := 4 + 64 + 32.

Definition CalculateHash_block (block : list Z) : list Z :=
  CalculateHash block (take (Z.to_nat sizeof_BlockHeader - VerifiableEntity_Header_Size) (drop VerifiableEntity_Header_Size block)) None.

Definition CalculateMerkleComponentHash (plugin : TransactionPlugin) (transaction transactionHash : list Z) : list Z :=
  match merkleSupplementaryBuffers plugin transaction with
  | [] => transactionHash
  | supplementaryBuffers => Sha3_256 (transactionHash ++ mjoin supplementaryBuffers)
  end.

(** A type without a plugin makes the code dereference null. *)
Definition UpdateHashes (e : TransactionElement) : result TransactionElement :=
  let transaction := te_Transaction e in
  match findPlugin (Transaction_Type transaction) with
  | None => Throw undefined_behaviour
  | Some plugin =>
      let entityHash := CalculateHash transaction (dataBuffer plugin transaction) (Some generationHash) in
      Ok {| te_Transaction := transaction; te_EntityHash := entityHash;
            te_MerkleComponentHash := CalculateMerkleComponentHash plugin transaction entityHash;
            te_OptionalExtractedAddresses := te_OptionalExtractedAddresses e |}
  end.

Definition new_TransactionElement (transaction : list Z) : TransactionElement :=
  {| te_Transaction := transaction; te_EntityHash := replicate Hash256_Size 0; te_MerkleComponentHash := replicate Hash256_Size 0;
     te_OptionalExtractedAddresses := None |}.

Definition update_all (transactions : list (list Z)) : result (list TransactionElement) :=
  foldr (λ t acc, e ← UpdateHashes (new_TransactionElement t); es ← acc; Ok (e :: es)) (Ok []) transactions.

Definition set_transactions (ts : list TransactionElement) (hash : list Z) (e : BlockElement) : BlockElement :=
  {| be_Block := be_Block e; be_EntityHash := hash; be_GenerationHash := be_GenerationHash e;
     be_SubCacheMerkleRoots := be_SubCacheMerkleRoots e; be_Transactions := be_Transactions e ++ ts;
     be_OptionalStatement := be_OptionalStatement e |}.

(** One block: whether its transactions hash matches, and the element. *)
Definition hash_element (element : BlockElement) : result (bool * BlockElement) :=
  transactions ← Transactions (be_Block element);
  ts ← update_all transactions;
  transactionsHash ← MerkleHash.final_hash (λ a b, Sha3_256 (a ++ b)) (replicate Hash256_Size 0) (te_MerkleComponentHash <$> ts);
  if bool_decide (BlockTransactionsHash (be_Block element) = transactionsHash)
  then Ok (true, set_transactions ts (CalculateHash_block (be_Block element)) element)
  else Ok (false, set_transactions ts (be_EntityHash element) element).

Fixpoint hash_elements (elements : list BlockElement) : result (list BlockElement * ConsumerResult) :=
  match elements with
  | [] => Ok ([], Continue)
  | element :: rest =>
      '(matches, element) ← hash_element element;
      if (matches : bool) then '(rest, r) ← hash_elements rest; Ok (element :: rest, r)
      else Ok (element :: rest, Abort Failure_Consumer_Block_Transactions_Hash_Mismatch)
  end.

Definition BlockHashCalculatorConsumer (elements : list BlockElement) : result (list BlockElement * ConsumerResult) :=
  match elements with
  | [] => Ok ([], Abort Failure_Consumer_Empty_Input)
  | _ => hash_elements elements
  end.

Definition TransactionHashCalculatorConsumer (elements : list FreeTransactionElement)
    : result (list FreeTransactionElement * ConsumerResult) :=
  match elements with
  | [] => Ok ([], Abort Failure_Consumer_Empty_Input)
  | _ =>
      elements ← foldr (λ e acc, t ← UpdateHashes (fte_element e); es ← acc;
                                 Ok ({| fte_element := t; fte_ResultSeverity := fte_ResultSeverity e |} :: es)) (Ok []) elements;
      Ok (elements, Continue)
  end.

End hashes.

(** * Stateless validation of transactions *)

Definition HEIGHT_OF_LATEST_CONFIG : Z := max64.

Definition free_info (element : FreeTransactionElement) : EntityInfo :=
  {| ei_entity := te_Transaction (fte_element element); ei_hash := te_EntityHash (fte_element element);
     ei_associatedBlockHeader := None; ei_associatedHeight := HEIGHT_OF_LATEST_CONFIG |}.

(** The infos of the elements that are not skipped, with their indexes. *)
Definition ExtractFreeEntityInfos (elements : list FreeTransactionElement) : list (EntityInfo * nat) :=
  omap (λ '(i, e), if decide (fte_ResultSeverity e = Severity_Success_) then Some (free_info e, i) else None)
    (imap (λ i e, (i, e)) elements).

Section stateless.
(** [validateAll] of the policy gives the result of every entity. *)
Context (validate : EntityInfo → Z).

(** The loop over the results: the elements, the number skipped, the aggregate
    result, and what the failed transaction sink was given. *)
Definition apply_result (acc : list FreeTransactionElement * nat * Z * list (EntityInfo * Z)) (info : EntityInfo * nat)
    : list FreeTransactionElement * nat * Z * list (EntityInfo * Z) :=
  let '(elements, numSkipped, aggregate, failed) := acc in
  let result := validate (fst info) in
  let aggregate := AggregateValidationResult aggregate result in
  if IsValidationResultSuccess result then (elements, numSkipped, aggregate, failed)
  else
    let elements := alter (set_severity Severity_Neutral_) (snd info) elements in
    if IsValidationResultFailure result
    then (alter (set_severity Severity_Failure_) (snd info) elements, S numSkipped, aggregate, failed ++ [(fst info, result)])
    else (elements, S numSkipped, aggregate, failed).

Definition TransactionStatelessValidationConsumer (elements : list FreeTransactionElement)
    : list FreeTransactionElement * list (EntityInfo * Z) * ConsumerResult :=
  match elements with
  | [] => ([], [], Abort Failure_Consumer_Empty_Input)
  | _ =>
      let entityInfos := ExtractFreeEntityInfos elements in
      let '(elements, numSkipped, aggregate, failed) := foldl apply_result (elements, 0%nat, Success, []) entityInfos in
      let result := if negb (length entityInfos =? numSkipped)%nat then Success else aggregate in
      (elements, failed, if IsValidationResultSuccess result then Continue else Abort result)
  end.

End stateless.

(** * New transactions *)

(** What the sink is given, and the result. *)
Definition NewTransactionsConsumer (elements : list FreeTransactionElement) : option (list TransactionInfo) * ConsumerResult :=
  match elements with
  | [] => (None, Abort Failure_Consumer_Empty_Input)
  | _ =>
      let successes := filter (λ e, fte_ResultSeverity e = Severity_Success_) elements in
      let failures := filter (λ e, fte_ResultSeverity e = Severity_Failure_) elements in
      let transactionInfos := (λ e, MakeTransactionInfo (fte_element e) HEIGHT_OF_LATEST_CONFIG) <$> successes in
      (if bool_decide (transactionInfos = []) then None else Some transactionInfos,
       if (0 <? length failures)%nat then Abort Failure
       else if (0 <? length successes)%nat then CompleteSuccess else CompleteNeutral)
  end.

(** * What the chain check decides *)

Lemma insert_hashes_spec new hashes :
  match insert_hashes new hashes with
  | Some hashes' => NoDup new ∧ (∀ h, h ∈ new → h ∉ hashes) ∧ hashes' = list_to_set new ∪ hashes
  | None => ¬ (NoDup new ∧ ∀ h, h ∈ new → h ∉ hashes)
  end.
Proof.
  revert hashes. induction new as [|x new IH]; intros hashes; cbn [insert_hashes].
  { split_and!; [constructor|set_solver|set_solver]. }
  destruct (decide (x ∈ hashes)) as [Hx|Hx]; [intros [_ H]; apply (H x); [by left|done]|].
  specialize (IH ({[x]} ∪ hashes)). destruct (insert_hashes new ({[x]} ∪ hashes)) as [hashes'|].
  - destruct IH as (H1 & H2 & ->). split_and!; [|set_solver|set_solver]. constructor; [|done]. intros Hin. specialize (H2 x Hin). set_solver.
  - intros [[H1 H2]%NoDup_cons H3]. apply IH. split; [done|]. intros h Hh. specialize (H3 h). set_solver.
Qed.

(** The elements are linked, the first one to [previous]. *)
Fixpoint linked (previous : option BlockElement) (elements : list BlockElement) : Prop :=
  match elements with
  | [] => True
  | element :: rest =>
      match previous with Some p => IsLink p (be_Block element) = true | None => True end ∧ linked (Some element) rest
  end.

Abbreviation all_hashes elements := (concat (transaction_hashes <$> elements)).

Lemma check_elements_spec previous hashes elements :
  check_elements previous hashes elements = Continue
  ↔ linked previous elements ∧ NoDup (all_hashes elements) ∧ ∀ h, h ∈ all_hashes elements → h ∉ hashes.
Proof.
  revert previous hashes. induction elements as [|e elements IH]; intros previous hashes; cbn [check_elements linked fmap list_fmap concat].
  { split; [|done]. intros _. split_and!; [done|constructor|set_solver]. }
  assert ((if match previous with Some p => negb (IsLink p (be_Block e)) | None => false end
           then Abort Failure_Consumer_Remote_Chain_Improper_Link
           else match insert_hashes (transaction_hashes e) hashes with
                | None => Abort Failure_Consumer_Remote_Chain_Duplicate_Transactions
                | Some hashes => check_elements (Some e) hashes elements
                end) = Continue
          ↔ match previous with Some p => IsLink p (be_Block e) = true | None => True end
            ∧ match insert_hashes (transaction_hashes e) hashes with
              | None => False
              | Some hashes => check_elements (Some e) hashes elements = Continue
              end) as ->.
  { destruct previous as [p|]; [destruct (IsLink p (be_Block e))|]; cbn [negb]; destruct (insert_hashes _ _); split; try done; try tauto;
      by intros [? _]. }
  pose proof (insert_hashes_spec (transaction_hashes e) hashes) as Hins. rewrite NoDup_app.
  destruct (insert_hashes (transaction_hashes e) hashes) as [hashes'|].
  - destruct Hins as (H1 & H2 & ->). rewrite IH. split; [intros (Hp & Hl & Hn & Hd)|intros ([Hp Hl] & (_ & Hx & Hn) & Hd)].
    + split_and!; try done.
      * intros h Hh Hin. specialize (Hd h Hin). set_solver.
      * intros h [Hh|Hh]%elem_of_app; [by apply H2|]. specialize (Hd h Hh). set_solver.
    + split_and!; try done. intros h Hh. specialize (Hd h). specialize (Hx h). set_solver.
  - split; [tauto|]. intros (_ & (Hn & _ & _) & Hd). exfalso. apply Hins. split; [done|]. intros h Hh. apply Hd. set_solver.
Qed.

(** What passing the chain check means for the transactions. *)
Lemma chain_check_run maxChainSize MaxBlockFutureTime currentTime elements :
  BlockChainCheckConsumer maxChainSize MaxBlockFutureTime currentTime elements = Continue →
  elements ≠ [] ∧ Z.of_nat (length elements) ≤ maxChainSize ∧ linked None elements ∧ NoDup (all_hashes elements).
Proof.
  unfold BlockChainCheckConsumer. destruct (last elements) as [back|] eqn:Hl; [|done].
  destruct (Z.ltb_spec maxChainSize (Z.of_nat (length elements))); [done|].
  destruct (isChainTimestampAllowed _ _ _); cbn [negb]; [|done]. intros (H1 & H2 & _)%check_elements_spec.
  split_and!; [by intros ->|lia|done|done].
Qed.

(** C27. The chain check.  A chain part passes exactly when it is not empty, has at
    most the configured number of blocks, ends with a timestamp not too far in
    the future, links every block to the one before it, and contains no
    transaction twice. *)
Theorem chain_check_decides maxChainSize MaxBlockFutureTime currentTime elements :
  BlockChainCheckConsumer maxChainSize MaxBlockFutureTime currentTime elements = Continue
  ↔ (∃ back, last elements = Some back ∧ isChainTimestampAllowed MaxBlockFutureTime currentTime (be_Block back) = true)
    ∧ Z.of_nat (length elements) ≤ maxChainSize
    ∧ (∀ i a b, elements !! i = Some a → elements !! S i = Some b → IsLink a (be_Block b) = true)
    ∧ NoDup (all_hashes elements).
Proof.
  assert (linked None elements ↔ ∀ i a b, elements !! i = Some a → elements !! S i = Some b → IsLink a (be_Block b) = true) as Hlinked.
  { assert (∀ e l, linked (Some e) l ↔ ∀ i a b, (e :: l) !! i = Some a → (e :: l) !! S i = Some b → IsLink a (be_Block b) = true) as Hgen.
    { intros e l. revert e. induction l as [|x l IH]; intros e; cbn [linked].
      - split; [|done]. intros _ [|i] a b _ H; done.
      - rewrite IH. split.
        + intros [H0 H] [|i] a b Ha Hb; [by simplify_eq/=|]. by apply (H i).
        + intros H. split; [by apply (H 0%nat)|]. intros i a b Ha Hb. by apply (H (S i)). }
    destruct elements as [|e l]; cbn [linked]; [split; [|done]; intros _ i a b Ha; done|]. rewrite Hgen. tauto. }
  rewrite <-Hlinked. unfold BlockChainCheckConsumer. destruct (last elements) as [back|].
  - destruct (Z.ltb_spec maxChainSize (Z.of_nat (length elements))); [split; [done|intros (_ & ? & _); lia]|].
    destruct (isChainTimestampAllowed _ _ _) eqn:Ht; cbn [negb].
    + rewrite check_elements_spec. split.
      * intros (H1 & H2 & _). split_and!; [by exists back|lia|done|done].
      * intros (_ & _ & H1 & H2). split_and!; [done|done|set_solver].
    + split; [done|]. intros ((back' & [= <-] & Ht') & _). congruence.
  - split; [done|]. by intros ((? & ? & _) & _).
Qed.

(** Two blocks whose transactions have the same merkle root.  The padding of
    the merkle tree gives a list of transactions of odd length (at least three)
    the same transactions hash as the list with its last transaction repeated,
    so that the hash check cannot tell them apart; the chain check refuses every
    chain part that contains the longer one. *)
Theorem repeated_transaction_refused Sha3_256 maxChainSize MaxBlockFutureTime currentTime elements element ts t :
  Nat.odd (length (ts ++ [t])) = true → ts ≠ [] →
  element ∈ elements → be_Transactions element = ts ++ [t; t] →
  MerkleHash.final_hash (λ a b, Sha3_256 (a ++ b)) (replicate Hash256_Size 0) (te_MerkleComponentHash <$> ts ++ [t; t])
  = MerkleHash.final_hash (λ a b, Sha3_256 (a ++ b)) (replicate Hash256_Size 0) (te_MerkleComponentHash <$> ts ++ [t])
  ∧ BlockChainCheckConsumer maxChainSize MaxBlockFutureTime currentTime elements ≠ Continue.
Proof.
  intros Hodd Hne Hin Ht. split.
  - unfold MerkleHash.final_hash. rewrite !MerkleHash.Final_run. cbn [mbind result_bind]. f_equal.
    set (l := te_MerkleComponentHash <$> ts ++ [t]).
    replace (te_MerkleComponentHash <$> ts ++ [t; t]) with (MerkleHash.padded l).
    + apply MerkleHash.merkle_root_padded. unfold l. rewrite length_fmap, length_app. destruct ts; simpl; [done|lia].
    + unfold MerkleHash.padded, l. rewrite length_fmap. apply Nat.odd_spec in Hodd as [k Hk].
      rewrite Hk. replace (2 * k + 1)%nat with (1 + k * 2)%nat by lia. rewrite Nat.Div0.mod_add. cbn [Nat.modulo Nat.divmod Nat.eqb snd Nat.sub].
      rewrite !fmap_app. cbn [fmap list_fmap]. rewrite last_snoc. by rewrite <-app_assoc.
  - intros (_ & _ & _ & Hnd)%chain_check_run. apply list_elem_of_split in Hin as (l1 & l2 & ->).
    rewrite fmap_app, concat_app in Hnd. apply NoDup_app in Hnd as (_ & _ & Hnd). cbn [fmap list_fmap concat] in Hnd.
    apply NoDup_app in Hnd as (Hnd & _). unfold transaction_hashes in Hnd. rewrite Ht, fmap_app in Hnd.
    apply NoDup_app in Hnd as (_ & _ & Hnd). cbn in Hnd. apply NoDup_cons in Hnd as [Hnd _]. apply Hnd. by left.
Qed.

(** * What becomes of new transactions *)

Section forwarding.
Context (validate : EntityInfo → Z).
Implicit Types (e : FreeTransactionElement) (elements rest : list FreeTransactionElement).

(** An element after its validation. *)
Definition marked e : FreeTransactionElement :=
  if decide (fte_ResultSeverity e = Severity_Success_) then
    if IsValidationResultSuccess (validate (free_info e)) then e
    else if IsValidationResultFailure (validate (free_info e)) then set_severity Severity_Failure_ e
    else set_severity Severity_Neutral_ e
  else e.

Definition infos_from (k : nat) elements : list (EntityInfo * nat) :=
  omap (λ '(i, e), if decide (fte_ResultSeverity e = Severity_Success_) then Some (free_info e, i) else None)
    (imap (λ i e, ((k + i)%nat, e)) elements).

Lemma infos_from_cons k e rest :
  infos_from k (e :: rest) = (if decide (fte_ResultSeverity e = Severity_Success_) then [(free_info e, k)] else []) ++ infos_from (S k) rest.
Proof.
  unfold infos_from. rewrite imap_cons. csimpl. rewrite Nat.add_0_r.
  rewrite (imap_ext _ (λ i e, ((S k + i)%nat, e))) by (intros; simpl; f_equal; lia). by destruct (decide _).
Qed.

(** The failures in the order of the elements. *)
Definition failures elements : list (EntityInfo * Z) :=
  (λ e, (free_info e, validate (free_info e))) <$>
  filter (λ e, fte_ResultSeverity e = Severity_Success_ ∧ IsValidationResultFailure (validate (free_info e)) = true) elements.

Lemma not_success_and_failure r : IsValidationResultSuccess r = true → IsValidationResultFailure r = false.
Proof. unfold IsValidationResultSuccess, IsValidationResultFailure. intros <-%Z.eqb_eq. done. Qed.

Lemma apply_results_run rest checked n aggregate failed :
  ∃ n' aggregate', foldl (apply_result validate) (checked ++ rest, n, aggregate, failed) (infos_from (length checked) rest)
    = (checked ++ (marked <$> rest), n', aggregate', failed ++ failures rest).
Proof.
  revert checked n aggregate failed. induction rest as [|e rest IH]; intros checked n aggregate failed.
  { exists n, aggregate. unfold failures. simpl. by rewrite !app_nil_r. }
  rewrite infos_from_cons. rewrite foldl_app. unfold failures. rewrite fmap_cons, filter_cons.
  assert (∀ f, alter f (length checked) (checked ++ e :: rest) = (checked ++ [f e]) ++ rest) as Halter.
  { intros f. induction checked as [|x l IHl]; [done|]. simpl. f_equal. apply IHl. }
  assert (∀ e', S (length checked) = length (checked ++ [e'])) as Hlen by (intros; rewrite length_app; simpl; lia).
  assert (∀ e' n aggregate failed, ∃ n' aggregate',
    foldl (apply_result validate) ((checked ++ [e']) ++ rest, n, aggregate, failed) (infos_from (S (length checked)) rest)
    = (checked ++ e' :: (marked <$> rest), n', aggregate', failed ++ failures rest)) as Hrest.
  { intros e' n1 a1 f1. rewrite (Hlen e'). destruct (IH (checked ++ [e']) n1 a1 f1) as (n' & a' & ->).
    exists n', a'. by rewrite <-app_assoc. }
  unfold marked at 1. destruct (decide (fte_ResultSeverity e = Severity_Success_)) as [Hsev|Hsev].
  - cbn [foldl apply_result fst snd]. destruct (IsValidationResultSuccess (validate (free_info e))) eqn:Hok.
    + rewrite decide_False by (intros [_ Hf]; by rewrite (not_success_and_failure _ Hok) in Hf).
      destruct (Hrest e n (AggregateValidationResult aggregate (validate (free_info e))) failed) as (n' & a' & Hr).
      rewrite <-app_assoc in Hr. simpl in Hr. rewrite Hr. by exists n', a'.
    + rewrite Halter. destruct (IsValidationResultFailure (validate (free_info e))) eqn:Hfail.
      * rewrite decide_True by done.
        assert (alter (set_severity Severity_Failure_) (length checked) ((checked ++ [set_severity Severity_Neutral_ e]) ++ rest)
                = (checked ++ [set_severity Severity_Failure_ e]) ++ rest) as ->.
        { clear. induction checked as [|x l IHl]; [done|]. simpl. f_equal. apply IHl. }
        destruct (Hrest (set_severity Severity_Failure_ e) (S n) (AggregateValidationResult aggregate (validate (free_info e)))
          (failed ++ [(free_info e, validate (free_info e))])) as (n' & a' & ->).
        exists n', a'. rewrite fmap_cons, <-app_assoc. done.
      * rewrite decide_False by (by intros [_ ?]). apply Hrest.
  - rewrite decide_False by tauto. cbn [foldl]. destruct (Hrest e n aggregate failed) as (n' & a' & Hr).
    rewrite <-app_assoc in Hr. simpl in Hr. rewrite Hr. by exists n', a'.
Qed.

Lemma filter_marked elements :
  filter (λ e, fte_ResultSeverity e = Severity_Success_) (marked <$> elements)
  = filter (λ e, fte_ResultSeverity e = Severity_Success_ ∧ IsValidationResultSuccess (validate (free_info e)) = true) elements.
Proof.
  induction elements as [|e elements IH]; [done|]. rewrite fmap_cons, !filter_cons, IH.
  assert (fte_ResultSeverity (marked e) = Severity_Success_
          ↔ fte_ResultSeverity e = Severity_Success_ ∧ IsValidationResultSuccess (validate (free_info e)) = true) as Hm.
  { unfold marked. destruct (decide _); [|tauto]. destruct (IsValidationResultSuccess _); [tauto|].
    destruct (IsValidationResultFailure _); simpl; split; try done; by intros [_ ?]. }
  destruct (decide (fte_ResultSeverity e = Severity_Success_ ∧ IsValidationResultSuccess (validate (free_info e)) = true)) as [Hd|Hd].
  - rewrite decide_True by tauto. f_equal. destruct Hd as [H1 H2]. unfold marked. by rewrite decide_True, H2.
  - by rewrite decide_False by tauto.
Qed.

(** New transactions are validated and forwarded.  Of the elements that come
    out of the hash check, the sink for new transactions is given exactly those
    that the hash check did not skip and that the stateless validators accept, in
    their order, and it is not called when there are none; the sink for failed
    transactions is given exactly those not skipped that the validators refuse,
    with their results. *)
Theorem new_transactions_forwarded elements elements' failed r :
  TransactionStatelessValidationConsumer validate elements = (elements', failed, r) → elements ≠ [] →
  failed = failures elements
  ∧ fst (NewTransactionsConsumer elements')
    = match filter (λ e, fte_ResultSeverity e = Severity_Success_ ∧ IsValidationResultSuccess (validate (free_info e)) = true) elements with
      | [] => None
      | accepted => Some ((λ e, MakeTransactionInfo (fte_element e) HEIGHT_OF_LATEST_CONFIG) <$> accepted)
      end.
Proof.
  intros Hrun Hne. unfold TransactionStatelessValidationConsumer in Hrun. destruct elements as [|e rest] eqn:He; [done|]. rewrite <-He in *.
  change (ExtractFreeEntityInfos elements) with (infos_from (length (@nil FreeTransactionElement)) elements) in Hrun.
  destruct (apply_results_run elements [] 0 Success []) as (n' & a' & Hfold). cbn [app] in Hfold. rewrite Hfold in Hrun.
  pose proof (f_equal (λ x, fst (fst x)) Hrun) as H1. pose proof (f_equal (λ x, snd (fst x)) Hrun) as H2.
  cbn [fst snd] in H1, H2. subst elements' failed. split; [done|]. unfold NewTransactionsConsumer. rewrite filter_marked.
  destruct (marked <$> elements) eqn:Hm; [by rewrite He in Hm|]. cbn [fst].
  by destruct (filter _ elements).
Qed.

End forwarding.

(** * What the hash check remembers *)

Section recent_spec.
Context (options : HashCheckOptions).
Implicit Types (c : RecentHashCache).

(** Hashes that are given one after the other, with the times. *)
Definition recent_run (inputs : list (Z * list Z)) c : RecentHashCache :=
  foldl (λ c '(time, hash), fst (recent_add options time hash c)) c inputs.

Lemma recent_add_bounded time hash c :
  Z.of_nat (size (m_cache c)) ≤ MaxCacheSize options →
  Z.of_nat (size (m_cache (fst (recent_add options time hash c)))) ≤ MaxCacheSize options.
Proof.
  intros Hc. unfold recent_add, checkAndUpdateExisting.
  assert (∀ c, Z.of_nat (size (m_cache c)) ≤ MaxCacheSize options →
    Z.of_nat (size (m_cache (pruneCache options time c))) ≤ MaxCacheSize options) as Hprune.
  { intros d Hd. unfold pruneCache. destruct (_ <? _); [done|]. simpl.
    match goal with |- Z.of_nat (size ?m) ≤ _ => assert (size m ≤ size (m_cache d))%nat; [|lia] end.
    rewrite <-!size_dom. apply subseteq_size, dom_filter_subseteq. }
  destruct (m_cache c !! hash) as [old|] eqn:Hh; cbn [fst].
  - apply Hprune. simpl. rewrite map_size_insert_Some by done. done.
  - specialize (Hprune c Hc). unfold tryAddToCache. destruct (Z.leb_spec (MaxCacheSize options) (Z.of_nat (size (m_cache (pruneCache options time c))))); [done|].
    simpl. destruct (m_cache (pruneCache options time c) !! hash) eqn:Hp; [done|]. rewrite map_size_insert_None by done. lia.
Qed.

(** Times in a window that the cache covers. *)
Definition in_window (start time : Z) : Prop := start ≤ time ≤ start + CacheDuration options.

(** A hash with a time that has not expired stays. *)
Lemma recent_add_keeps time x hash c start :
  0 ≤ start → start + 2 * CacheDuration options < 2 ^ 64 → in_window start time →
  (∃ t, m_cache c !! hash = Some t ∧ in_window start t) →
  ∃ t, m_cache (fst (recent_add options time x c)) !! hash = Some t ∧ in_window start t.
Proof.
  intros H0 Hmax Htime (t & Hh & Ht). unfold in_window in *. unfold recent_add, checkAndUpdateExisting.
  assert (∀ d t, m_cache d !! hash = Some t → in_window start t → m_cache (pruneCache options time d) !! hash = Some t) as Hprune.
  { intros d t1 Hd Ht1. unfold pruneCache, in_window in *. destruct (_ <? _); [done|]. simpl. rewrite map_lookup_filter, Hd. simpl.
    rewrite option_guard_True; [done|]. simpl. rewrite add64_small by (unfold in_range; lia). lia. }
  destruct (m_cache c !! x) as [old|] eqn:Hx; cbn [fst].
  - destruct (decide (x = hash)) as [->|Hne].
    + exists time. split; [|done]. apply Hprune; [|done]. simpl. apply lookup_insert_eq.
    + exists t. split; [|done]. apply Hprune; [|done]. simpl. by rewrite lookup_insert_ne.
  - exists t. split; [|done]. pose proof (Hprune c t Hh Ht) as Hp. unfold tryAddToCache. destruct (_ <=? _); [done|]. simpl.
    destruct (m_cache (pruneCache options time c) !! x) eqn:Hpx; [done|]. rewrite lookup_insert_ne; [done|]. by intros ->; congruence.
Qed.

(** The cache of recent hashes.  It never holds more than the configured number
    of hashes, whatever it is given.  A hash that it holds, or that is given to
    it when it is not full, is reported as known when it is given again within
    the cache duration, whatever is given in between, prunings included (times
    lie in that duration, and do not overflow). *)
Theorem recent_hash_is_known inputs start time hash c :
  0 ≤ start → 0 ≤ CacheDuration options → start + 2 * CacheDuration options < 2 ^ 64 →
  Z.of_nat (size (m_cache c)) < MaxCacheSize options →
  Forall (λ i, in_window start (fst i)) inputs → in_window start time →
  let c' := recent_run ((start, hash) :: inputs) c in
  Z.of_nat (size (m_cache c')) ≤ MaxCacheSize options ∧ snd (recent_add options time hash c') = false.
Proof.
  intros H0 Hd Hmax Hsize Hall Htime c'. split.
  - unfold c'. clear Hall. assert (Z.of_nat (size (m_cache c)) ≤ MaxCacheSize options) as Hle by lia. clear Hsize.
    remember ((start, hash) :: inputs) as l eqn:Hl. clear Hl c'. revert c Hle. induction l as [|[t x] l IH]; intros c Hle; [done|].
    cbn [recent_run foldl]. apply IH. by apply recent_add_bounded.
  - assert (∃ t, m_cache (fst (recent_add options start hash c)) !! hash = Some t ∧ in_window start t) as Hfirst.
    { unfold recent_add, checkAndUpdateExisting. destruct (m_cache c !! hash) as [old|] eqn:Hh; cbn [fst].
      - unfold pruneCache, in_window. exists start. split; [|lia]. destruct (_ <? _); simpl; [apply lookup_insert_eq|].
        rewrite map_lookup_filter, lookup_insert_eq. simpl. rewrite option_guard_True; [done|]. simpl.
        rewrite add64_small by (unfold in_range; lia). lia.
      - assert (m_cache (pruneCache options start c) !! hash = None ∧ size (m_cache (pruneCache options start c)) ≤ size (m_cache c))%nat as [Hn Hs].
        { unfold pruneCache. destruct (_ <? _); [by split|]. simpl. split; [by rewrite map_lookup_filter, Hh|].
          rewrite <-!size_dom. apply subseteq_size, dom_filter_subseteq. }
        unfold tryAddToCache. rewrite (proj2 (Z.leb_gt _ _)) by lia. rewrite Hn. simpl. exists start. split; [apply lookup_insert_eq|].
        unfold in_window. lia. }
    assert (∃ t, m_cache c' !! hash = Some t ∧ in_window start t) as (t & Ht & _).
    { unfold c'. cbn [recent_run foldl]. generalize dependent (fst (recent_add options start hash c)). clear -H0 Hmax Hall.
      induction Hall as [|[t x] l Hi Hall IH]; intros d Hd; [done|]. cbn [foldl]. apply IH. by apply recent_add_keeps. }
    unfold recent_add, checkAndUpdateExisting. by rewrite Ht.
Qed.

End recent_spec.

(** * Examples *)

(** The transaction with hash [n n ... n]. *)
Definition sample_transaction (n : Z) : TransactionElement :=
  {| te_Transaction := Write32 122 ++ replicate 118 n; te_EntityHash := replicate 32 n; te_MerkleComponentHash := replicate 32 n;
     te_OptionalExtractedAddresses := None |}.

Definition sample_repeated : BlockElement :=
  {| be_Block := Sample.block 1 7 [] 0; be_EntityHash := replicate 32 7; be_GenerationHash := []; be_SubCacheMerkleRoots := [];
     be_Transactions := [sample_transaction 1; sample_transaction 2; sample_transaction 3; sample_transaction 3];
     be_OptionalStatement := None |}.

Lemma repeated_transaction_refused_witness :
  BlockChainCheckConsumer 10 (λ _, 1000) 100 [sample_repeated] ≠ Continue.
Proof.
  exact (proj2 (repeated_transaction_refused (λ b, b) 10 (λ _, 1000) 100 [sample_repeated] sample_repeated
    [sample_transaction 1; sample_transaction 2] (sample_transaction 3) eq_refl ltac:(done) ltac:(by left) eq_refl)).
Defined.

Definition sample_elements : list FreeTransactionElement :=
  [new_FreeTransactionElement (sample_transaction 1); set_severity Severity_Neutral_ (new_FreeTransactionElement (sample_transaction 2));
   new_FreeTransactionElement (sample_transaction 3)].

(** The validator refuses the third transaction. *)
Definition sample_validate (info : EntityInfo) : Z := if field 4 1 (ei_entity info) =? 3 then Failure else Success.

Lemma new_transactions_forwarded_witness :
  let '(elements', failed, _) := TransactionStatelessValidationConsumer sample_validate sample_elements in
  length failed = 1%nat
  ∧ fst (NewTransactionsConsumer elements') = Some [MakeTransactionInfo (sample_transaction 1) HEIGHT_OF_LATEST_CONFIG].
Proof.
  destruct (TransactionStatelessValidationConsumer sample_validate sample_elements) as [[elements' failed] r] eqn:Hrun.
  destruct (new_transactions_forwarded sample_validate sample_elements elements' failed r Hrun ltac:(done)) as [-> ->].
  split; vm_compute; reflexivity.
Defined.

Definition sample_options : HashCheckOptions := {| CacheDuration := 100; PruneInterval := 10; MaxCacheSize := 3 |}.

Lemma recent_hash_is_known_witness :
  snd (recent_add sample_options 1090 [1] (recent_run sample_options [(1000, [1]); (1020, [2]); (1080, [3]); (1085, [4])] (new_RecentHashCache 990)))
  = false.
Proof.
  apply (recent_hash_is_known sample_options [(1020, [2]); (1080, [3]); (1085, [4])] 1000 1090 [1] (new_RecentHashCache 990)).
  - lia.
  - simpl. lia.
  - simpl. lia.
  - simpl. rewrite map_size_empty. lia.
  - repeat (apply Forall_cons; split); try (unfold in_window; simpl; lia). constructor.
  - unfold in_window. simpl. lia.
Defined.

End Consumers.
