(* ===== verification/BlockChainSync.v ===== *)
(** Model of the consumer that accepts chain parts: BlockChainSyncConsumer.cpp
    (catapult/consumers) with the handlers the sync extension gives it
    (extensions/sync/src/DispatcherService.cpp).

    A chain part is checked against the local chain, the local blocks it replaces
    are rolled back, it is processed on the state that is left, and blocks, state,
    caches and score are committed.  The caches, the block storage, the execution
    of blocks and the difficulty check are the models of CatapultCache.v,
    BlockStorageCache.v, BlockExecution.v and BlockDifficulty.v; what subscribers
    are told is recorded in a list of events. *)
From stdpp Require Import base tactics numbers option list gmap sets.
From S2P Require Import Prelude Streams Notifications CatapultCache BlockDifficulty BlockElements StatementBuilder BlockExecution.
From S2P Require Import FileSystem FileBlockStorage BlockStorageCrash BlockStorageRefinement BlockStorageSpec ChainStorage.
From S2P Require Import BlockStorageCache StorageLaws Disruptor MerkleHashBuilder Consumers.

Local Open Scope Z_scope.

Module BlockChainSync.
Import Stream Notifications Elements StatementBuilder BlockExecution Consumers.
Import CatapultCache.
Import BlockStorageCache (BlockStorage, PrunableBlockStorage, Cache, Modifier, view_chainHeight, view_loadBlockElement, write_blocks).
Import Dispatcher (CompletionStatus (..), ConsumerResult (..), consumer_Status, consumer_Code, Abort, Continue, Complete).

Inductive InputSource := Source_Unknown | Source_Local | Source_Remote_Pull | Source_Remote_Push.

#[global] Instance InputSource_eq_dec : EqDecision InputSource.
Proof. solve_decision. Defined.

Inductive CommitOperationStep := Blocks_Written | State_Written | All_Updated.

(** ChainScore has 128 bits and a sign. *)
Definition int128 (x : Z) : Z := Z.sgn x * (Z.abs x mod 2 ^ 128).

Section sync.
Context {Notification CatapultState Config V C A B : Type}.
Context `{!SubCacheView V, !SubCache C V, !BlockStorage A, !BlockStorage B, !PrunableBlockStorage B}.
Abbreviation CacheDelta := (CatapultCacheDelta V).
Abbreviation State := (ObserverState Notification CacheDelta CatapultState BlockStatementBuilder).
Abbreviation Storage := (Cache A B).

(** The plugins. *)
Context (NotificationType NotificationSize : Notification → Z).
Context (publish : EntityInfo → list Notification * result unit).
Context (validator : Validator Notification CacheDelta Config).
Context (observer : Observer Notification CacheDelta CatapultState BlockStatementBuilder Config).
Context (config_at : Z → Config) (EnableUndoBlock : Config → bool) (MaxRollbackBlocks : Config → Z).
Context (commitRemovals : CacheDelta → CacheDelta).
(** Hashes, the hit predicate, receipts. *)
Context (Sha3_256 GenerationHash_Builder : list Z → list Z) (CalculateMerkleHash : BlockStatement → list Z).
Context (blockHitPredicate : CacheDelta → list Z → list Z → list Z → bool) (ShouldEnableVerifiableReceipts : bool).
(** Difficulties: the sub cache, the configuration, and the conversion of 256 bit numbers. *)
Context (sub_BlockDifficultyCache : CatapultCache C → Difficulty.DifficultySet).
Context (difficulty_config : Config → Difficulty.NetworkConfiguration) (convert_to_uint64 : Z → Z).
Context (ParseConfig : list Z → result Config).

Abbreviation undo_block := (UndoBlock NotificationType publish observer config_at EnableUndoBlock commitRemovals).
Abbreviation processor := (BlockChainProcessor NotificationType NotificationSize publish validator observer config_at
  Sha3_256 GenerationHash_Builder CalculateMerkleHash blockHitPredicate ShouldEnableVerifiableReceipts).
Abbreviation score_of := (Difficulty.CalculateScore convert_to_uint64).

(** * The node *)

(** What the handlers and subscribers are told. *)
Inductive Event :=
| CommitStep (step : CommitOperationStep)
| ScoreChange (score : Z)
| StateChange (changes : CacheDelta) (scoreDelta height : Z)
| PreStateWritten (cache : CacheDelta) (state : CatapultState) (height : Z)
| TransactionsChange (addedTransactionHashes : gset (list Z)) (revertedTransactionInfos : list TransactionInfo)
| PostBlockCommitNotifications (back : BlockElement) (notifications : list Notification)
| PostBlockCommit (elements : list BlockElement).

Record Node := {
  n_cache : CatapultCache C;
  n_state : CatapultState;
  n_storage : Storage;
  n_score : Z;
  n_events : list Event;
}.

Definition set_n_cache (k : CatapultCache C) (n : Node) : Node :=
  {| n_cache := k; n_state := n_state n; n_storage := n_storage n; n_score := n_score n; n_events := n_events n |}.
Definition set_n_state (s : CatapultState) (n : Node) : Node :=
  {| n_cache := n_cache n; n_state := s; n_storage := n_storage n; n_score := n_score n; n_events := n_events n |}.
Definition set_n_score (score : Z) (n : Node) : Node :=
  {| n_cache := n_cache n; n_state := n_state n; n_storage := n_storage n; n_score := score; n_events := n_events n |}.

Definition set_n_storage (k : Storage) (n : Node) : Node :=
  {| n_cache := n_cache n; n_state := n_state n; n_storage := k; n_score := n_score n; n_events := n_events n |}.

Definition on_storage {X} (m : Exec Storage X) : Exec Node X := λ n,
  let '(k, r) := m (n_storage n) in (set_n_storage k n, r).

Definition emit (e : Event) : Exec Node unit := modify (λ n,
  {| n_cache := n_cache n; n_state := n_state n; n_storage := n_storage n; n_score := n_score n; n_events := n_events n ++ [e] |}).

(** * Checks *)

Definition IsLinked (peerStartHeight localChainHeight : Z) (source : InputSource) : bool :=
  (2 <=? peerStartHeight) && (peerStartHeight <=? add64 localChainHeight 1)
  && (bool_decide (Source_Remote_Pull = source) || (localChainHeight <=? peerStartHeight)).

Definition DifficultyChecker (blocks : list (list Z)) (cache : CatapultCache C) (remoteConfigs : list (Z * Config)) : result bool :=
  match blocks with
  | [] => Ok true
  | _ =>
      n ← Difficulty.CheckDifficulties convert_to_uint64 (λ height, difficulty_config (config_at height))
            (sub_BlockDifficultyCache cache) (chain_block <$> blocks) (prod_map id difficulty_config <$> remoteConfigs);
      Ok (Z.of_nat (length blocks) =? n)
  end.

(** The first three steps of [preprocess]: an abort, or the configurations. *)
Definition preprocess_checks (first : BlockElement) (elements : list BlockElement) (source : InputSource)
    : Exec Node (ConsumerResult + Z * list (Z * Config)) :=
  let peerStartHeight := be_Height first in
  localChainHeight ← on_storage view_chainHeight;
  if negb (IsLinked peerStartHeight localChainHeight source) then mret (inl (Abort Failure_Consumer_Remote_Chain_Unlinked))
  else
    let heightDifference := Difficulty.to_int64 (sub64 localChainHeight peerStartHeight) in
    if MaxRollbackBlocks (config_at localChainHeight) <? heightDifference
    then mret (inl (Abort Failure_Consumer_Remote_Chain_Too_Far_Behind))
    else
      let '(remoteConfigs, r) := ExtractConfigs (add_config ParseConfig) elements [] in
      extracted ← lift_result r;
      if negb extracted then mret (inl (Abort Failure_Consumer_Remote_Network_Config_Malformed))
      else
        cache ← gets n_cache;
        checked ← lift_result (DifficultyChecker (ExtractBlocks elements) cache remoteConfigs);
        if negb checked then mret (inl (Abort Failure_Consumer_Remote_Chain_Mismatched_Difficulties))
        else mret (inr (localChainHeight, remoteConfigs)).

(** * Unwinding *)

Record UnwindResult := { ur_Score : Z; ur_TransactionInfos : list TransactionInfo; ur_ConfigHeights : gset Z }.

Definition new_UnwindResult : UnwindResult := {| ur_Score := 0; ur_TransactionInfos := []; ur_ConfigHeights := ∅ |}.

(** The storage is read, the observer state is changed. *)
Definition on_blocks {X} (m : Exec Storage X) : Exec (Storage * State) X := λ st, let '(k, r) := m (fst st) in ((k, snd st), r).
Definition on_state {X} (m : Exec State X) : Exec (Storage * State) X := λ st, let '(s, r) := m (snd st) in ((fst st, s), r).

Definition add_child (parent : BlockElement) (child : option BlockElement) (result_ : UnwindResult) : result UnwindResult :=
  match child with
  | None => Ok result_
  | Some child =>
      score ← score_of (chain_block (be_Block parent)) (chain_block (be_Block child));
      Ok {| ur_Score := int128 (ur_Score result_ + score);
            ur_TransactionInfos := ExtractTransactionInfos (ur_TransactionInfos result_) child;
            ur_ConfigHeights := ur_ConfigHeights result_ |}
  end.

(** What is done at the common block. *)
Definition unwind_common (height : Z) (parent : BlockElement) : Exec State unit :=
  on_cache (setHeight height) ≫= λ _, undo_block (config_at height) parent UndoBlockType_Common.

(** The loop; one step for every height. *)
Fixpoint unwind (fuel : nat) (height commonBlockHeight : Z) (child : option BlockElement) (result_ : UnwindResult)
    : Exec (Storage * State) UnwindResult :=
  match fuel with
  | O => throw undefined_behaviour
  | S fuel =>
      parent ← on_blocks (view_loadBlockElement height);
      let '(heights, r) := ExtractConfigs add_height [parent] (ur_ConfigHeights result_) in
      lift_result r ≫= λ _,
      result_ ← lift_result (add_child parent child
        {| ur_Score := ur_Score result_; ur_TransactionInfos := ur_TransactionInfos result_; ur_ConfigHeights := heights |});
      if height =? commonBlockHeight then on_state (unwind_common height parent) ≫= λ _, mret result_
      else
        on_state (undo_block (config_at height) parent UndoBlockType_Rollback) ≫= λ _,
        unwind fuel (sub64 height 1) commonBlockHeight (Some parent) result_
  end.

Definition unwindLocalChain (localChainHeight commonBlockHeight : Z) : Exec (Storage * State) UnwindResult :=
  if localChainHeight =? commonBlockHeight then mret new_UnwindResult
  else unwind (S (Z.to_nat (localChainHeight - commonBlockHeight))) localChainHeight commonBlockHeight None new_UnwindResult.

(** * Truncation *)

(** [blocks[i]]; an index outside the vector has no meaning. *)
Definition block_index (blocks : list (list Z)) (i : Z) : result (list Z) :=
  if i <? Z.of_nat (length blocks)
  then match blocks !! Z.to_nat i with Some b => Ok b | None => Throw undefined_behaviour end
  else Throw undefined_behaviour.

(** The loop over the blocks behind a change of configuration; the index is
    unsigned. *)
Fixpoint truncate (fuel : nat) (i newSize : Z) (blocks : list (list Z)) (elements : list BlockElement) (peerScore : Z)
    : result (list BlockElement * Z) :=
  match fuel with
  | O => Throw undefined_behaviour
  | S fuel =>
      if newSize <=? i then
        parent ← block_index blocks (sub64 i 1);
        block ← block_index blocks i;
        score ← score_of (chain_block parent) (chain_block block);
        truncate fuel (sub64 i 1) newSize blocks (removelast elements) (int128 (peerScore - score))
      else Ok (elements, peerScore)
  end.

Fixpoint truncate_at_configs (remoteConfigs : list (Z * Config)) (configHeights : gset Z) (peerStartHeight : Z)
    (elements : list BlockElement) (peerScore : Z) : result (list BlockElement * Z) :=
  match remoteConfigs with
  | [] => Ok (elements, peerScore)
  | (height, _) :: remoteConfigs =>
      let newSize := sub64 height peerStartHeight in
      let size := Z.of_nat (length elements) in
      if bool_decide (height ∉ configHeights) && (newSize <? size)
      then truncate (S (length elements)) (size - 1) newSize (ExtractBlocks elements) elements peerScore
      else truncate_at_configs remoteConfigs configHeights peerStartHeight elements peerScore
  end.

(** * Sync state *)

Record SyncState := {
  ss_CacheDelta : CacheDelta;
  ss_stateCopy : CatapultState;
  ss_CommonBlockElement : BlockElement;
  ss_scoreDelta : Z;
  ss_removedTransactionInfos : list TransactionInfo;
  ss_postBlockCommitNotifications : list Notification;
}.

Definition observer_state (cache : CacheDelta) (state : CatapultState) (notifications : list Notification) : State :=
  {| os_Cache := cache; os_State := state; os_BlockStatementBuilder := new_BlockStatementBuilder; os_Notifications := notifications |}.

(** The last steps of [preprocess], on the attached delta. *)
Definition preprocess_unwind (delta : CacheDelta) (first : BlockElement) (elements : list BlockElement) (localChainHeight : Z)
    (remoteConfigs : list (Z * Config)) : Exec Node (ConsumerResult + SyncState * list BlockElement) := λ n,
  let peerStartHeight := be_Height first in
  let commonBlockHeight := sub64 peerStartHeight 1 in
  match unwindLocalChain localChainHeight commonBlockHeight (n_storage n, observer_state delta (n_state n) []) with
  | ((k, _), Throw e) => (set_n_storage k n, Throw e)
  | ((k, s), Ok unwindResult) =>
      (common ← on_storage (view_loadBlockElement commonBlockHeight);
       peerScore ← lift_result (Difficulty.CalculatePartialChainScore convert_to_uint64 (chain_block (be_Block common))
                                  (chain_block <$> ExtractBlocks elements));
       if peerScore <=? ur_Score unwindResult then mret (inl (Abort Failure_Consumer_Remote_Chain_Score_Not_Better))
       else
         '(elements, peerScore) ← lift_result (truncate_at_configs remoteConfigs (ur_ConfigHeights unwindResult) peerStartHeight
                                                 elements peerScore);
         mret (inr ({| ss_CacheDelta := os_Cache s; ss_stateCopy := os_State s; ss_CommonBlockElement := common;
                       ss_scoreDelta := int128 (peerScore - ur_Score unwindResult);
                       ss_removedTransactionInfos := ur_TransactionInfos unwindResult;
                       ss_postBlockCommitNotifications := os_Notifications s |}, elements))) (set_n_storage k n)
  end.

(** * Processing and committing *)

Definition process (elements : list BlockElement) (ss : SyncState)
    : result ((ConsumerResult + SyncState) * list BlockElement) :=
  match processor (ss_CommonBlockElement ss) elements
          (observer_state (ss_CacheDelta ss) (ss_stateCopy ss) (ss_postBlockCommitNotifications ss)) with
  | (_, Throw e) => Throw e
  | (s, Ok (processResult, elements)) =>
      Ok (if negb (IsValidationResultSuccess processResult) then inl (Abort processResult)
          else inr {| ss_CacheDelta := os_Cache s; ss_stateCopy := os_State s; ss_CommonBlockElement := ss_CommonBlockElement ss;
                      ss_scoreDelta := ss_scoreDelta ss; ss_removedTransactionInfos := ss_removedTransactionInfos ss;
                      ss_postBlockCommitNotifications := os_Notifications s |}, elements)
  end.

Definition commit_cache (delta : CacheDelta) (height : Z) : Exec Node unit := λ n,
  let '(k, r) := commit delta height (n_cache n) in (set_n_cache k n, r).

Definition release : Exec Node unit := modify (λ n, set_n_cache (releaseDelta (n_cache n)) n).

(** The [StateChange] handler. *)
Definition handle_state_change (changes : CacheDelta) (scoreDelta height : Z) : Exec Node unit :=
  modify (λ n, set_n_score (int128 (n_score n + scoreDelta)) n) ≫= λ _,
  score ← gets n_score;
  emit (ScoreChange score) ≫= λ _, emit (StateChange changes scoreDelta height).

(** [SyncState::commit] *)
Definition sync_commit_state (ss : SyncState) (height : Z) : Exec Node unit :=
  commit_cache (ss_CacheDelta ss) height ≫= λ _,
  release ≫= λ _,
  modify (set_n_state (ss_stateCopy ss)).

Definition commitAll (elements : list BlockElement) (ss : SyncState) : Exec Node unit :=
  m ← on_storage (write_blocks (be_Height (ss_CommonBlockElement ss)) elements);
  emit (CommitStep Blocks_Written) ≫= λ _,
  match last elements with
  | None => throw undefined_behaviour
  | Some back =>
      let newHeight := be_Height back in
      handle_state_change (ss_CacheDelta ss) (ss_scoreDelta ss) newHeight ≫= λ _,
      emit (PreStateWritten (ss_CacheDelta ss) (ss_stateCopy ss) newHeight) ≫= λ _,
      emit (CommitStep State_Written) ≫= λ _,
      sync_commit_state ss newHeight ≫= λ _,
      on_storage (BlockStorageCache.commit m) ≫= λ _,
      emit (CommitStep All_Updated) ≫= λ _,
      let peerTransactionHashes := ExtractTransactionHashes elements in
      emit (TransactionsChange peerTransactionHashes
              (CollectRevertedTransactionInfos peerTransactionHashes (ss_removedTransactionInfos ss))) ≫= λ _,
      emit (PostBlockCommitNotifications back (ss_postBlockCommitNotifications ss)) ≫= λ _,
      emit (PostBlockCommit elements)
  end.

(** The attached delta lives until the consumer returns or throws. *)
Definition with_delta {X} (body : CacheDelta → Exec Node X) : Exec Node X := λ n,
  match createDelta (n_cache n) with
  | Throw e => (n, Throw e)
  | Ok (k, delta) => let '(n', r) := body delta (set_n_cache k n) in (fst (release n'), r)
  end.

(** [first] is the first of the elements. *)
Definition sync_from (first : BlockElement) (elements : list BlockElement) (source : InputSource)
    : Exec Node (ConsumerResult * list BlockElement) :=
  checked ← preprocess_checks first elements source;
  match checked with
  | inl r => mret (r, elements)
  | inr (localChainHeight, remoteConfigs) =>
      with_delta (λ delta,
        prepared ← preprocess_unwind delta first elements localChainHeight remoteConfigs;
        match prepared with
        | inl r => mret (r, elements)
        | inr (ss, elements) =>
            '(processed, elements) ← lift_result (process elements ss);
            match processed with
            | inl r => mret (r, elements)
            | inr ss => commitAll elements ss ≫= λ _, mret (Continue, elements)
            end
        end)
  end.

Definition BlockChainSyncConsumer (elements : list BlockElement) (source : InputSource)
    : Exec Node (ConsumerResult * list BlockElement) :=
  match elements with
  | [] => mret (Abort Failure_Consumer_Empty_Input, [])
  | first :: _ => sync_from first elements source
  end.

(** * An input that is refused *)

Context `{laws_A : !StorageLaws.StorageLaws A, laws_B : !StorageLaws.StorageLaws B, laws_P : !StorageLaws.PrunableLaws B}.
Import ChainStorage (Chain, chain_start, chain_blocks, chain_top).
Import StorageLaws (at_rest, settable, block_at, chain_drop, chain_append).
Implicit Types (n : Node) (k : Storage) (s t : State).

Lemma set_n_storage_same n : set_n_storage (n_storage n) n = n.
Proof. by destruct n. Qed.

Lemma preprocess_checks_run first elements source n n' r c :
  at_rest (n_storage n) c → preprocess_checks first elements source n = (n', r) →
  n' = n ∧ ∀ local configs, r = Ok (inr (local, configs)) → local = chain_top c ∧ IsLinked (be_Height first) (chain_top c) source = true.
Proof.
  intros Hrest. unfold preprocess_checks.
  assert (on_storage view_chainHeight n = (n, Ok (chain_top c))) as Hh.
  { unfold on_storage. rewrite (StorageLaws.view_chainHeight_run _ _ Hrest). by rewrite set_n_storage_same. }
  rewrite (run_bind _ _ _ _ _ Hh). destruct (IsLinked _ _ _); cbn [negb]; [|by intros [= <- <-]].
  destruct (_ <? _); [by intros [= <- <-]|]. destruct (ExtractConfigs _ _ _) as [configs [b|]].
  2: { intros Hrun. by injection Hrun as <- <-. }
  unfold mbind, exec_bind, lift_result, gets. destruct b; cbn [negb]; [|by intros [= <- <-]].
  destruct (DifficultyChecker _ _ _) as [[]|]; cbn [negb]; intros [= <- <-]; (split; [done|]); [|done..].
  by intros ? ? [= <- <-].
Qed.

(** Unwinding reads the storage only. *)
Lemma unwind_reads fuel height common child result_ k c s k' s' r :
  at_rest k c → chain_start c < common ≤ height → height ≤ chain_top c →
  unwind fuel height common child result_ (k, s) = ((k', s'), r) → k' = k.
Proof.
  intros Hrest. revert height child result_ s. induction fuel as [|fuel IH]; intros height child result_ s Hcommon Htop; [by intros [= <- _ _]|].
  cbn [unwind]. destruct (StorageLaws.block_at_inside c height) as [e He]; [lia|].
  destruct (StorageLaws.view_load_run k c height e Hrest He) as (e' & Hload & _).
  assert (on_blocks (view_loadBlockElement height) (k, s) = ((k, s), Ok e')) as Hl by (unfold on_blocks; cbn [fst snd]; by rewrite Hload).
  rewrite (run_bind _ _ _ _ _ Hl). destruct (ExtractConfigs _ _ _) as [heights rc]. unfold mbind, exec_bind, lift_result.
  destruct rc as [b|]; [|by intros [= <- _ _]]. destruct (add_child _ _ _) as [result1|]; [|by intros [= <- _ _]].
  destruct (Z.eqb_spec height common) as [->|Hne].
  - unfold on_state. cbn [fst snd]. destruct (unwind_common _ _ s) as [s1 [[]|]]; by intros [= <- _ _].
  - unfold on_state at 1. cbn [fst snd]. destruct (UndoBlock _ _ _ _ _ _ _ _ _ s) as [s1 [[]|]]; [|by intros [= <- _ _]].
    destruct (StorageLaws.law_wf _ _ (StorageLaws.rest_storage _ _ Hrest)) as (H0 & Hmax & _).
    replace (sub64 height 1) with (height - 1) by (unfold sub64; rewrite wrap_small by (unfold in_range; lia); lia).
    apply IH; lia.
Qed.

Lemma IsLinked_common peerStartHeight localChainHeight source :
  IsLinked peerStartHeight localChainHeight source = true → in_range 64 localChainHeight →
  sub64 peerStartHeight 1 = peerStartHeight - 1 ∧ 1 ≤ peerStartHeight - 1 ≤ localChainHeight.
Proof.
  unfold IsLinked, in_range, add64, sub64. intros [[H2 Hle]%andb_true_iff _]%andb_true_iff Hr. apply Z.leb_le in H2, Hle.
  assert (peerStartHeight ≤ localChainHeight + 1) as Hp.
  { etrans; [exact Hle|]. apply Z.mod_le; lia. }
  split; [|lia]. apply wrap_small. unfold in_range.
  destruct (decide (localChainHeight + 1 < 2 ^ 64)); [lia|]. assert (localChainHeight + 1 = 2 ^ 64) as Heq by lia.
  rewrite Heq in Hle. unfold wrap in Hle. rewrite Z_mod_same_full in Hle. lia.
Qed.

Lemma rest_range k c : at_rest k c → 0 ≤ chain_start c ∧ in_range 64 (chain_top c).
Proof.
  intros Hr. destruct (StorageLaws.law_wf _ _ (StorageLaws.rest_storage _ _ Hr)) as (H0 & Hmax & _).
  split; [done|]. unfold in_range, chain_top, BlockStorageCrash.top in *. lia.
Qed.

Lemma on_storage_load n c h :
  at_rest (n_storage n) c → chain_start c < h ≤ chain_top c →
  ∃ e e', block_at c h = Some e ∧ on_storage (view_loadBlockElement h) n = (n, Ok e')
    ∧ set_OptionalStatement (be_OptionalStatement e) e' = e.
Proof.
  intros Hrest Hh. destruct (StorageLaws.block_at_inside c h Hh) as [e He].
  destruct (StorageLaws.view_load_run _ _ _ _ Hrest He) as (e' & Hload & Hset). exists e, e'. split_and!; [done| |done].
  unfold on_storage. rewrite Hload. by rewrite set_n_storage_same.
Qed.

Lemma unwindLocalChain_reads common k c s k' s' r :
  at_rest k c → chain_start c < common ≤ chain_top c →
  unwindLocalChain (chain_top c) common (k, s) = ((k', s'), r) → k' = k.
Proof.
  intros Hrest Hcommon. unfold unwindLocalChain. destruct (Z.eqb_spec (chain_top c) common); [by intros [= <- _ _]|].
  apply unwind_reads with (c := c); [done|lia|lia].
Qed.

Lemma preprocess_unwind_reads delta first elements configs n n' r c :
  at_rest (n_storage n) c → chain_start c < sub64 (be_Height first) 1 ≤ chain_top c →
  preprocess_unwind delta first elements (chain_top c) configs n = (n', r) → n' = n.
Proof.
  intros Hrest Hcommon. unfold preprocess_unwind.
  destruct (unwindLocalChain _ _ _) as [[k s] r1] eqn:Hun. apply (unwindLocalChain_reads _ _ c) in Hun; [|done|done]. subst k.
  rewrite set_n_storage_same. destruct r1 as [unwindResult|]; [|by intros [= <- _]].
  destruct (on_storage_load n c _ Hrest Hcommon) as (e & e' & _ & Hload & _). rewrite (run_bind _ _ _ _ _ Hload).
  unfold mbind, exec_bind, lift_result. destruct (Difficulty.CalculatePartialChainScore _ _ _) as [peerScore|]; [|by intros [= <- _]].
  destruct (_ <=? _); [by intros [= <- _]|]. destruct (truncate_at_configs _ _ _ _ _) as [[elements' score]|]; by intros [= <- _].
Qed.

(** C7. An input that is refused leaves the node as it was.  When the consumer
    aborts, whatever the reason (no link to the local chain, too deep a rollback,
    a malformed configuration, wrong difficulties, a score that is not better, a
    failed validation), the node, its caches, state, stored blocks and score are
    exactly what they were, although blocks may have been rolled back and
    executed in between, and no subscriber was told anything. *)
Theorem refused_input_changes_nothing elements elements' source n n' r c :
  at_rest (n_storage n) c → chain_start c = 0 → detached (n_cache n) →
  BlockChainSyncConsumer elements source n = (n', Ok (r, elements')) → consumer_Status r = Aborted → n' = n.
Proof.
  intros Hrest Hstart Hdet Hrun Hr. unfold BlockChainSyncConsumer in Hrun. destruct elements as [|first rest]; [by injection Hrun as <- _ _|].
  set (elements := first :: rest) in *. unfold sync_from, mbind, exec_bind in Hrun.
  destruct (preprocess_checks first elements source n) as [n1 r1] eqn:Hc.
  destruct (preprocess_checks_run _ _ _ _ _ _ _ Hrest Hc) as [-> Hchecked]. destruct r1 as [[r1|[local configs]]|]; [by injection Hrun as <- _ _| |done].
  destruct (Hchecked _ _ eq_refl) as [-> Hlinked]. destruct (rest_range _ _ Hrest) as [H0 Hrange].
  destruct (IsLinked_common _ _ _ Hlinked Hrange) as [Hcommon Hin].
  unfold with_delta in Hrun. destruct (createDelta_run _ Hdet) as (k' & Hcreate & Hrel & _). rewrite Hcreate in Hrun.
  destruct (preprocess_unwind _ first elements _ configs (set_n_cache k' n)) as [n2 r2] eqn:Hun.
  apply (preprocess_unwind_reads _ _ _ _ _ _ _ c) in Hun; [|done|rewrite Hcommon; lia]. subst n2.
  assert (fst (release (set_n_cache k' n)) = n) as Hn by (unfold release, modify, set_n_cache; simpl; rewrite Hrel; by destruct n).
  destruct r2 as [[r2|[ss elements1]]|]; [injection Hrun as Hrun _ _; rewrite <-Hrun; exact Hn| |done].
  unfold lift_result in Hrun. destruct (process elements1 ss) as [[[r3|ss3] elements2]|]; [injection Hrun as Hrun _ _; rewrite <-Hrun; exact Hn| |done].
  destruct (commitAll elements2 ss3 (set_n_cache k' n)) as [n3 [[]|]]; [|done]. injection Hrun as _ <- _. done.
Qed.

(** * Scores *)

Definition block_score (parent child : BlockElement) : result Z :=
  score_of (chain_block (be_Block parent)) (chain_block (be_Block child)).

(** The scores of blocks that follow [parent], without a bound. *)
Fixpoint sum_scores (parent : BlockElement) (elements : list BlockElement) : result Z :=
  match elements with
  | [] => Ok 0
  | e :: elements => a ← block_score parent e; b ← sum_scores e elements; Ok (a + b)
  end.

Lemma int128_small x : - 2 ^ 128 < x < 2 ^ 128 → int128 x = x.
Proof. intros Hx. unfold int128. rewrite Z.mod_small by lia. by destruct x. Qed.

Lemma sum_scores_cons p e es x :
  sum_scores p (e :: es) = Ok x ↔ ∃ a b, block_score p e = Ok a ∧ sum_scores e es = Ok b ∧ x = a + b.
Proof.
  cbn [sum_scores]. destruct (block_score p e) as [a|]; cbn [mbind result_bind]; [|split; [done|by intros (? & ? & ? & _)]].
  destruct (sum_scores e es) as [b|]; cbn [mbind result_bind]; [|split; [done|by intros (? & ? & _ & ? & _)]].
  split; [intros [= <-]; by exists a, b|]. by intros (? & ? & [= <-] & [= <-] & ->).
Qed.

Lemma sum_scores_app p es e es' x :
  sum_scores p (es ++ e :: es') = Ok x
  ↔ ∃ a b, sum_scores p (es ++ [e]) = Ok a ∧ sum_scores e es' = Ok b ∧ x = a + b.
Proof.
  revert p x. induction es as [|e0 es IH]; intros p x.
  - cbn [app]. rewrite sum_scores_cons. split.
    + intros (a & b & Ha & Hb & ->). exists a, b. split_and!; [|done|done]. apply sum_scores_cons. exists a, 0. split_and!; [done|done|lia].
    + intros (a & b & (a1 & b1 & Ha & [= <-] & ->)%sum_scores_cons & Hb & ->). exists a1, b. split_and!; [done|done|lia].
  - change ((e0 :: es) ++ e :: es') with (e0 :: (es ++ e :: es')). change ((e0 :: es) ++ [e]) with (e0 :: (es ++ [e])).
    rewrite sum_scores_cons. split.
    + intros (a & b & Ha & (a1 & b1 & Ha1 & Hb1 & ->)%IH & ->). exists (a + a1), b1. split_and!; [|done|lia].
      apply sum_scores_cons. by exists a, a1.
    + intros (a & b & (a1 & b1 & Ha1 & Hb1 & ->)%sum_scores_cons & Hb & ->). exists a1, (b1 + b). split_and!; [done| |lia].
      apply IH. by exists b1, b.
Qed.

Section scores.
Context (convert_range : ∀ x, in_range 64 (convert_to_uint64 x)).

Lemma block_score_range p e x : block_score p e = Ok x → 0 ≤ x < 2 ^ 64.
Proof.
  unfold block_score, Difficulty.CalculateScore. destruct (_ <=? _); [intros [= <-]; lia|]. destruct (decide _); [done|]. intros [= <-].
  apply convert_range.
Qed.

Lemma sum_scores_range p es x : sum_scores p es = Ok x → 0 ≤ x ≤ Z.of_nat (length es) * 2 ^ 64.
Proof.
  revert p x. induction es as [|e es IH]; intros p x; [intros [= <-]; simpl; lia|].
  intros (a & b & Ha%block_score_range & Hb%IH & ->)%sum_scores_cons. cbn [length]. lia.
Qed.

Lemma partial_score p es :
  Z.of_nat (length es) < 2 ^ 63 →
  Difficulty.CalculatePartialChainScore convert_to_uint64 (chain_block (be_Block p)) (chain_block <$> ExtractBlocks es) = sum_scores p es.
Proof.
  revert p. induction es as [|e es IH]; intros p Hlen; [done|]. cbn [length] in Hlen.
  cbn [ExtractBlocks fmap list_fmap Difficulty.CalculatePartialChainScore sum_scores].
  change (score_of (chain_block (be_Block p)) (chain_block (be_Block e))) with (block_score p e).
  destruct (block_score p e) as [a|] eqn:Ha; cbn [mbind result_bind]; [|done].
  change (list_fmap _ _ chain_block (list_fmap _ _ be_Block es)) with (chain_block <$> ExtractBlocks es).
  rewrite IH by lia. destruct (sum_scores e es) as [b|] eqn:Hb; cbn [mbind result_bind]; [|done]. f_equal.
  apply block_score_range in Ha. apply sum_scores_range in Hb. apply wrap_small. unfold in_range. nia.
Qed.

Lemma sum_scores_bound p es x : sum_scores p es = Ok x → Z.of_nat (length es) < 2 ^ 63 → 0 ≤ x < 2 ^ 127.
Proof. intros H%sum_scores_range Hlen. nia. Qed.

(** * Truncation *)

Lemma block_index_run es i e : es !! i = Some e → block_index (ExtractBlocks es) (Z.of_nat i) = Ok (be_Block e).
Proof.
  intros Hi. pose proof (lookup_lt_Some _ _ _ Hi). unfold block_index, ExtractBlocks. rewrite length_fmap, (proj2 (Z.ltb_lt _ _)) by lia.
  by rewrite Nat2Z.id, list_lookup_fmap, Hi.
Qed.

Lemma take_last_split {X} (l : list X) j e : l !! j = Some e → take (S j) l = take j l ++ [e].
Proof. intros. by apply take_S_r. Qed.

(** The step of the loop at the index [j], which is not the first. *)
Lemma truncate_step fuel es j m p x :
  (S j < length es)%nat → Z.of_nat m ≤ Z.of_nat (S j) → Z.of_nat (length es) < 2 ^ 63 → sum_scores p (take (S (S j)) es) = Ok x →
  ∃ y, sum_scores p (take (S j) es) = Ok y
    ∧ truncate (S fuel) (Z.of_nat (S j)) (Z.of_nat m) (ExtractBlocks es) (take (S (S j)) es) x
      = truncate fuel (Z.of_nat j) (Z.of_nat m) (ExtractBlocks es) (take (S j) es) y.
Proof.
  intros Hj Hm Hlen Hx. destruct (lookup_lt_is_Some_2 es j) as [e1 He1]; [lia|]. destruct (lookup_lt_is_Some_2 es (S j)) as [e2 He2]; [lia|].
  rewrite (take_last_split es (S j) e2 He2) in Hx |- *. pose proof (take_last_split es j e1 He1) as Htake. rewrite Htake in Hx.
  rewrite <-app_assoc in Hx. cbn [app] in Hx. apply sum_scores_app in Hx as (y & b & Hy & Hb & ->).
  apply sum_scores_cons in Hb as (s & z & Hs & [= <-] & ->). rewrite Z.add_0_r. exists y. split; [by rewrite Htake|].
  cbn [truncate]. rewrite (proj2 (Z.leb_le _ _)) by lia.
  replace (sub64 (Z.of_nat (S j)) 1) with (Z.of_nat j) by (unfold sub64; rewrite wrap_small by (unfold in_range; lia); lia).
  rewrite (block_index_run _ _ _ He1), (block_index_run _ _ _ He2). cbn [mbind result_bind].
  change (score_of (chain_block (be_Block e1)) (chain_block (be_Block e2))) with (block_score e1 e2). rewrite Hs. cbn [mbind result_bind].
  rewrite removelast_last. f_equal.
  apply sum_scores_bound in Hy; [|rewrite length_app, length_take; simpl; lia]. rewrite int128_small; lia.
Qed.

Lemma truncate_down fuel es j m p x :
  (m ≤ S j)%nat → (0 < m)%nat → (j < length es)%nat → (S j - m < fuel)%nat → Z.of_nat (length es) < 2 ^ 63 →
  sum_scores p (take (S j) es) = Ok x →
  ∃ y, sum_scores p (take m es) = Ok y
    ∧ truncate fuel (Z.of_nat j) (Z.of_nat m) (ExtractBlocks es) (take (S j) es) x = Ok (take m es, y).
Proof.
  revert j x. induction fuel as [|fuel IH]; intros j x Hm H0 Hj Hfuel Hlen Hx; [lia|].
  destruct (decide (m = S j)) as [->|Hne].
  - exists x. split; [done|]. cbn [truncate]. by rewrite (proj2 (Z.leb_gt _ _)) by lia.
  - destruct j as [|j]; [lia|]. destruct (truncate_step fuel es j m p x) as (y & Hy & ->); [lia|lia|done|done|]. apply IH; try lia. done.
Qed.

Lemma truncate_to_nothing fuel es j p x :
  (j < length es)%nat → (S j < fuel)%nat → Z.of_nat (length es) < 2 ^ 63 → sum_scores p (take (S j) es) = Ok x →
  truncate fuel (Z.of_nat j) 0 (ExtractBlocks es) (take (S j) es) x = Throw undefined_behaviour.
Proof.
  revert j x. induction fuel as [|fuel IH]; intros j x Hj Hfuel Hlen Hx; [done|]. destruct j as [|j].
  - cbn [truncate]. change (Z.of_nat 0) with 0. change (0 <=? 0) with true. cbv iota. change (sub64 0 1) with (2 ^ 64 - 1).
    assert (block_index (ExtractBlocks es) (2 ^ 64 - 1) = Throw undefined_behaviour) as ->; [|done].
    unfold block_index, ExtractBlocks. by rewrite length_fmap, (proj2 (Z.ltb_ge _ _)) by lia.
  - destruct (truncate_step fuel es j 0 p x) as (y & Hy & Hstep); [lia|lia|done|done|]. rewrite (Hstep : truncate _ _ 0 _ _ _ = _). by apply IH; try lia.
Qed.

(** C39. Truncation.  A chain part that changes the configuration is cut at the
    height at which the change applies.  When at least one block is left, the
    loop ends with the first [newSize] blocks and with exactly their score.  When
    none is left, that is when the change applies at the height of the first
    block of the part, the loop does not stop at the first block: its index wraps
    around and the program reads outside of its vector. *)
Theorem truncation_at_configuration es newSize p x :
  es ≠ [] → 0 ≤ newSize < Z.of_nat (length es) → Z.of_nat (length es) < 2 ^ 63 → sum_scores p es = Ok x →
  let run := truncate (S (length es)) (Z.of_nat (length es) - 1) newSize (ExtractBlocks es) es x in
  if newSize =? 0 then run = Throw undefined_behaviour
  else ∃ y, sum_scores p (take (Z.to_nat newSize) es) = Ok y ∧ run = Ok (take (Z.to_nat newSize) es, y).
Proof.
  intros Hne Hn Hlen Hx. cbv zeta.
  assert (take (S (length es - 1)) es = es) as Hfull by (replace (S (length es - 1)) with (length es) by lia; apply firstn_all).
  replace (Z.of_nat (length es) - 1) with (Z.of_nat (length es - 1)) by lia. rewrite <-Hfull in Hx.
  destruct (Z.eqb_spec newSize 0) as [->|Hz].
  - pose proof (truncate_to_nothing (S (length es)) es (length es - 1) p x ltac:(lia) ltac:(lia) Hlen Hx) as Hthrow.
    by rewrite Hfull in Hthrow.
  - destruct (truncate_down (S (length es)) es (length es - 1) (Z.to_nat newSize) p x) as (y & Hy & Hdown); [lia|lia|lia|lia|done|done|].
    rewrite Hfull, Z2Nat.id in Hdown by lia. by exists y.
Qed.

(** * Unwinding the local chain *)

Context `{!Equiv V, !ViewEquiv V}.
Context (P : ObserverContext Config → Notification → State → Prop) (inv : State → Prop).
Context `{!PluginLaws NotificationType validator observer P inv}.
Context (older : Z → State → Prop) (pending : Z → State → State → Prop) `{!RollbackLaws observer commitRemovals P older pending}.
Abbreviation executed := (executed NotificationType publish observer config_at P).

(** The transactions of blocks that are removed, from the last block to the first. *)
Definition infos_of (elements : list BlockElement) : list TransactionInfo :=
  concat (ExtractTransactionInfos [] <$> reverse elements).

Lemma infos_of_cons e elements : infos_of (e :: elements) = ExtractTransactionInfos (infos_of elements) e.
Proof. unfold infos_of. rewrite reverse_cons, fmap_app, concat_app. simpl. by rewrite app_nil_r. Qed.

(** The configuration heights of a stored block can be read. *)
Definition readable (e : BlockElement) : Prop :=
  ∀ heights, ∃ heights' b, ExtractConfigs add_height [e] heights = (heights', Ok b).

(** A loaded element is the stored one but for its statement. *)
Definition loaded_as (e e' : BlockElement) : Prop := set_OptionalStatement (be_OptionalStatement e) e' = e.

Lemma add_child_run parent parent' child' q result_ x y :
  loaded_as parent parent' →
  match q with [] => child' = None | e :: _ => ∃ c', child' = Some c' ∧ loaded_as e c' end →
  match q with [] => x = 0 | e :: q' => sum_scores e q' = Ok x end → Z.of_nat (length q) < 2 ^ 63 →
  ur_Score result_ = x → ur_TransactionInfos result_ = infos_of (tail q) → sum_scores parent q = Ok y →
  ∃ result1, add_child parent' child' result_ = Ok result1 ∧ ur_Score result1 = y ∧ ur_TransactionInfos result1 = infos_of q.
Proof.
  intros Hp Hc Hx Hlen Hs Hi Hy. destruct q as [|e q].
  - subst child'. injection Hy as <-. exists result_. split_and!; [done|congruence|done].
  - destruct Hc as (c' & -> & Hc). apply sum_scores_cons in Hy as (a & b & Ha & Hb & ->). cbn [tail] in *.
    assert (x = b) as Hxb by congruence. unfold add_child.
    assert (score_of (chain_block (be_Block parent')) (chain_block (be_Block c')) = Ok a) as ->.
    { rewrite <-Ha. unfold block_score. by rewrite <-Hp, <-Hc. }
    cbn [mbind result_bind]. eexists. split_and!; [done| |].
    + cbn [ur_Score]. rewrite Hs, Hxb. apply block_score_range in Ha. apply sum_scores_range in Hb. cbn [length] in Hlen.
      rewrite int128_small; nia.
    + cbn [ur_TransactionInfos]. rewrite Hi, infos_of_cons, <-Hc. done.
Qed.

(** The blocks of a chain have the heights behind its start. *)
Lemma chain_ascending c : StorageLaws.wf_Chain c → ascending (chain_start c) (chain_blocks c).
Proof.
  intros (_ & _ & _ & Hh). assert (∀ i e, chain_blocks c !! i = Some e → be_Height e = chain_start c + 1 + Z.of_nat i) as Hi.
  { intros i e He. rewrite (Hh (chain_start c + 1 + Z.of_nat i) e); [done|]. unfold block_at. rewrite (proj2 (Z.ltb_lt _ _)) by lia.
    rewrite <-He. f_equal. lia. }
  clear Hh. revert Hi. generalize (chain_start c). induction (chain_blocks c) as [|e es IH]; intros h Hi; [done|].
  pose proof (Hi 0%nat e eq_refl) as He. split; [lia|]. apply IH. intros i e' Hi'. rewrite (Hi (S i) e' Hi'). lia.
Qed.

Section unwind.
Context (c : Chain) (k : Storage) (g : State) (pre : list BlockElement) (ec : BlockElement).
Context (Hrest : at_rest k c) (Hmax : chain_top c < 2 ^ 63) (Hread : Forall readable (chain_blocks c)).
Abbreviation common := (chain_start c + Z.of_nat (length (pre ++ [ec]))).
Context (Hundo : ∀ h, common ≤ h ≤ chain_top c → EnableUndoBlock (config_at h) = true) (Holder : older (chain_start c + 1) g).

Lemma load_stored (l : list BlockElement) e q :
  chain_blocks c = l ++ e :: q →
  let h := chain_start c + Z.of_nat (length (l ++ [e])) in
  be_Height e = h ∧ h ≤ chain_top c ∧ readable e ∧ ∀ s, ∃ e', loaded_as e e' ∧ on_blocks (view_loadBlockElement h) (k, s) = ((k, s), Ok e').
Proof.
  intros Hc h. assert (block_at c h = Some e) as He.
  { unfold block_at, h. rewrite length_app. simpl. rewrite (proj2 (Z.ltb_lt _ _)) by lia. rewrite Hc.
    apply list_lookup_middle. lia. }
  destruct (StorageLaws.law_wf _ _ (StorageLaws.rest_storage _ _ Hrest)) as (_ & _ & _ & Hh).
  destruct (StorageLaws.view_load_run k c h e Hrest He) as (e' & Hload & Hset). split_and!.
  - by apply Hh.
  - apply StorageLaws.block_at_range in He. lia.
  - rewrite Hc, Forall_app, Forall_cons in Hread. apply Hread.
  - intros s. exists e'. split; [done|]. unfold on_blocks. cbn [fst snd]. by rewrite Hload.
Qed.

Lemma unwind_run p q sp t fuel child' result_ x total :
  chain_blocks c = (pre ++ [ec]) ++ p ++ q → executed ((pre ++ [ec]) ++ p) g sp → same_but_height t sp →
  match q with [] => child' = None | e :: _ => ∃ c', child' = Some c' ∧ loaded_as e c' end →
  match q with [] => x = 0 | e :: q' => sum_scores e q' = Ok x end →
  ur_Score result_ = x → ur_TransactionInfos result_ = infos_of (tail q) → sum_scores ec (p ++ q) = Ok total → (length p < fuel)%nat →
  ∃ t' result' s1, executed (pre ++ [ec]) g s1 ∧ same_but_height t' s1 ∧ ur_Score result' = total
    ∧ ur_TransactionInfos result' = infos_of (p ++ q)
    ∧ unwind fuel (common + Z.of_nat (length p)) common child' result_ (k, t)
      = let '(t'', r) := unwind_common common ec t' in ((k, t''), match r with Ok _ => Ok result' | Throw e => Throw e end).
Proof.
  revert q sp t fuel child' result_ x. induction p as [|e p IH] using rev_ind;
    intros q sp t [|fuel] child' result_ x Hc Hex Ht Hchild Hx Hscore Hinfos Htotal Hfuel; try lia.
  - rewrite app_nil_r in Hex. cbn [app] in Hc, Htotal. rewrite Z.add_0_r. rewrite <-app_assoc in Hc. cbn [app] in Hc.
    destruct (load_stored pre ec q Hc) as (Hheight & Htop & Hr & Hload). destruct (Hload t) as (e' & He' & Hl).
    cbn [unwind]. rewrite (run_bind _ _ _ _ _ Hl). destruct (Hr (ur_ConfigHeights result_)) as (heights & b & Hextract).
    assert (ExtractConfigs add_height [e'] (ur_ConfigHeights result_) = (heights, Ok b)) as -> by (rewrite <-Hextract, <-He'; done).
    unfold mbind, exec_bind, lift_result.
    destruct (add_child_run ec e' child' q {| ur_Score := ur_Score result_; ur_TransactionInfos := ur_TransactionInfos result_;
      ur_ConfigHeights := heights |} x total He' Hchild Hx) as (result1 & -> & Hs1 & Hi1); [|done|done|done|].
    { apply (f_equal length) in Hc. rewrite length_app in Hc. simpl in Hc. unfold chain_top, BlockStorageCrash.top in Hmax.
      destruct (rest_range _ _ Hrest) as [H0 _]. lia. }
    rewrite Z.eqb_refl. exists t, result1, sp. split_and!; [done|done|done|done|]. unfold on_state. cbn [fst snd].
    assert (unwind_common common e' t = unwind_common common ec t) as -> by (rewrite <-He'; done).
    by destruct (unwind_common common ec t) as [t'' [[]|]].
  - rewrite <-(app_assoc p) in Hc, Htotal. cbn [app] in Hc, Htotal. rewrite (app_assoc (pre ++ [ec])) in Hc. rewrite length_app in Hfuel. simpl in Hfuel.
    destruct (load_stored _ e q Hc) as (Hheight & Htop & Hr & Hload). destruct (Hload t) as (e' & He' & Hl).
    replace (chain_start c + Z.of_nat (length (((pre ++ [ec]) ++ p) ++ [e]))) with (common + Z.of_nat (length (p ++ [e]))) in *
      by (rewrite !length_app; lia).
    cbn [unwind]. rewrite (run_bind _ _ _ _ _ Hl). destruct (Hr (ur_ConfigHeights result_)) as (heights & b & Hextract).
    assert (ExtractConfigs add_height [e'] (ur_ConfigHeights result_) = (heights, Ok b)) as -> by (rewrite <-Hextract, <-He'; done).
    unfold mbind at 1, exec_bind at 1, lift_result at 1. pose proof Htotal as (y0 & y & _ & Hy & _)%sum_scores_app.
    destruct (add_child_run e e' child' q {| ur_Score := ur_Score result_; ur_TransactionInfos := ur_TransactionInfos result_;
      ur_ConfigHeights := heights |} x y He' Hchild Hx) as (result1 & Hadd & Hs1 & Hi1); [|done|done|done|].
    { apply (f_equal length) in Hc. rewrite length_app in Hc. simpl in Hc. unfold chain_top, BlockStorageCrash.top in Hmax.
      destruct (rest_range _ _ Hrest) as [H0 _]. lia. }
    rewrite Hadd. unfold mbind at 1, exec_bind at 1, lift_result at 1.
    set (h := common + Z.of_nat (length (p ++ [e]))) in *.
    assert (common < h) as Hlt by (unfold h; rewrite (length_app p); simpl; lia). rewrite (proj2 (Z.eqb_neq _ _)) by lia.
    rewrite app_assoc in Hex. 
    assert (ascending (chain_start c) (((pre ++ [ec]) ++ p) ++ [e])) as Hasc.
    { pose proof (chain_ascending c (StorageLaws.law_wf _ _ (StorageLaws.rest_storage _ _ Hrest))) as Ha.
      rewrite Hc, (app_assoc _ [e] q : _ ++ e :: q = _) in Ha. by apply ascending_app in Ha as [Ha _]. }
    destruct (RollbackBlock_run _ _ _ _ commitRemovals P older pending _ _ _ _ _ (proj1 (rest_range _ _ Hrest)) Hasc Holder Hex) as (s1 & Hex1 & Hroll).
    pose proof (executed_height _ _ validator _ _ P inv _ _ _ _ Hex) as Hat.
    destruct (Hroll t (same_but_height_at _ _ _ Ht Hat)) as (t1 & Hrun & Ht1).
    assert (on_state (undo_block (config_at h) e' UndoBlockType_Rollback) (k, t) = ((k, t1), Ok tt)) as Hundo1.
    { unfold on_state, UndoBlock. rewrite Hundo by lia. cbn [negb fst snd]. rewrite <-He' in Hrun.
      change (RollbackBlock NotificationType publish observer config_at commitRemovals (set_OptionalStatement (be_OptionalStatement e) e') t)
        with (RollbackBlock NotificationType publish observer config_at commitRemovals e' t) in Hrun. by rewrite Hrun. }
    rewrite (run_bind _ _ _ _ _ Hundo1).
    destruct (rest_range _ _ Hrest) as [H0 Hrange]. unfold in_range in Hrange.
    replace (sub64 h 1) with (common + Z.of_nat (length p))
      by (unfold sub64; rewrite wrap_small by (unfold in_range; lia); unfold h; rewrite (length_app p); simpl; lia).
    destruct (IH (e :: q) s1 t1 fuel (Some e') result1 y) as (t' & result' & s2 & R1 & R2 & R3 & R4 & R5); try done; [| | |lia|].
    + by rewrite (app_assoc (pre ++ [ec])).
    + intros h'. transitivity (set_height h' (set_height (be_Height e) s1)); [by apply set_height_proper|apply set_height_again].
    + by exists e'.
    + exists t', result', s2. rewrite <-app_assoc. done.
Qed.

End unwind.

Lemma unwind_common_equiv h e t : fst (unwind_common h e t) ≡ set_height h t.
Proof.
  unfold unwind_common. rewrite (run_bind _ _ _ _ _ (on_cache_run _ _)). fold (set_height h t).
  unfold UndoBlock. destruct (negb _); [done|]. destruct (bool_decide _); [done|].
  pose proof (setSubCacheMerkleRoots_equiv (be_SubCacheMerkleRoots e) (os_Cache (set_height h t))) as Hr.
  destruct (setSubCacheMerkleRoots _ _) as [cache r]. apply set_cache_equiv. exact Hr.
Qed.

(** The merkle roots of a block can be set in caches like those of [s]. *)
Definition roots_fit (e : BlockElement) s : Prop :=
  ∀ d, d ≡ os_Cache s → be_SubCacheMerkleRoots e = [] ∨ snd (setSubCacheMerkleRoots (be_SubCacheMerkleRoots e) d) = Ok tt.

Lemma unwind_common_fits h e t s :
  EnableUndoBlock (config_at h) = true → set_height h t ≡ s → roots_fit e s → snd (unwind_common h e t) = Ok tt.
Proof.
  intros Hundo [Hc _] Hfit. unfold unwind_common. rewrite (run_bind _ _ _ _ _ (on_cache_run _ _)). fold (set_height h t).
  unfold UndoBlock. rewrite Hundo. cbn [negb]. case_bool_decide as Hnil; [done|].
  destruct (Hfit (os_Cache (set_height h t)) Hc) as [|Hr]; [done|]. by destruct (setSubCacheMerkleRoots _ _).
Qed.

(** Unwinding to the common block gives the state of the chain up to it. *)
Lemma unwindLocalChain_run c k g pre ec post s t total :
  at_rest k c → chain_top c < 2 ^ 63 → Forall readable (chain_blocks c) → chain_blocks c = (pre ++ [ec]) ++ post →
  (be_Height ec < chain_top c → ∀ h, be_Height ec ≤ h ≤ chain_top c → EnableUndoBlock (config_at h) = true) →
  older (chain_start c + 1) g → executed (chain_blocks c) g s → t ≡ s → sum_scores ec post = Ok total →
  ∃ s1, executed (pre ++ [ec]) g s1 ∧ ∃ t' r, unwindLocalChain (chain_top c) (be_Height ec) (k, t) = ((k, t'), r) ∧ t' ≡ s1
    ∧ (∀ result', r = Ok result' → ur_Score result' = total ∧ ur_TransactionInfos result' = infos_of post)
    ∧ (roots_fit ec s1 → ∃ result', r = Ok result').
Proof.
  intros Hrest Hmax Hread Hc Hundo Holder Hex Ht Htotal.
  assert (chain_blocks c = pre ++ ec :: post) as Hc' by (by rewrite Hc, <-app_assoc).
  destruct (load_stored c k Hrest Hread pre ec post Hc') as (Hheight & Htop & _). rewrite Hheight in *.
  assert (chain_top c = chain_start c + Z.of_nat (length (pre ++ [ec])) + Z.of_nat (length post)) as Hct.
  { unfold chain_top, BlockStorageCrash.top. rewrite Hc, length_app. lia. }
  unfold unwindLocalChain. destruct (Z.eqb_spec (chain_top c) (chain_start c + Z.of_nat (length (pre ++ [ec])))) as [Heq|Hne].
  - assert (post = []) as -> by (apply nil_length_inv; lia). rewrite app_nil_r in Hc. rewrite Hc in Hex. injection Htotal as <-.
    exists s. split; [done|]. exists t, (Ok new_UnwindResult). split_and!; [done|done| |by eexists]. by intros ? [= <-].
  - rewrite Hc in Hex. specialize (Hundo ltac:(lia)).
    destruct (unwind_run c k g pre ec Hrest Hmax Hread Hundo Holder post [] s t (S (Z.to_nat (chain_top c - (chain_start c + Z.of_nat (length (pre ++ [ec]))))))
      None new_UnwindResult 0 total) as (t' & result' & s1 & Hex1 & Ht' & Hscore & Hinfos & Hrun); try done.
    + by rewrite app_nil_r.
    + by apply equiv_same_but_height.
    + by rewrite app_nil_r.
    + lia.
    + rewrite <-Hct in Hrun. rewrite app_nil_r in Hinfos. exists s1. split; [done|].
      pose proof (executed_height _ _ validator _ _ P inv _ _ _ _ Hex1) as Hat. rewrite Hheight in Hat.
      pose proof (same_but_height_at _ _ _ Ht' Hat) as Hs1.
      pose proof (unwind_common_equiv (chain_start c + Z.of_nat (length (pre ++ [ec]))) ec t') as Heq.
      pose proof (unwind_common_fits (chain_start c + Z.of_nat (length (pre ++ [ec]))) ec t' s1 ltac:(apply Hundo; lia) Hs1) as Hfits.
      destruct (unwind_common _ ec t') as [t'' r]. cbn [fst snd] in *. eexists t'', _. split_and!; [exact Hrun|by etransitivity| |].
      * intros result1. destruct r; [|done]. by intros [= <-].
      * intros Hf. rewrite (Hfits Hf). by eexists.
Qed.

(** Where unwinding ends without an exception, blocks may be undone. *)
Lemma unwind_enabled fuel height common child result_ x x' result' :
  in_range 64 height → 0 ≤ common ≤ height → unwind fuel height common child result_ x = (x', Ok result') →
  ∀ h, common ≤ h ≤ height → EnableUndoBlock (config_at h) = true.
Proof.
  revert height child result_ x. induction fuel as [|fuel IH]; intros height child result_ x Hr Hle; [done|]. cbn [unwind].
  unfold mbind, exec_bind, lift_result. destruct (on_blocks _ x) as [x1 [parent|]]; [|done].
  destruct (ExtractConfigs _ _ _) as [heights [b|]]; [|done]. destruct (add_child _ _ _) as [result1|]; [|done].
  unfold on_state. destruct (Z.eqb_spec height common) as [->|Hne].
  - intros Hrun h Hh. assert (h = common) as -> by lia. unfold unwind_common, mbind, exec_bind, on_cache, modify, UndoBlock in Hrun.
    by destruct (EnableUndoBlock (config_at common)).
  - intros Hrun h Hh. assert (EnableUndoBlock (config_at height) = true) as He.
    { unfold UndoBlock in Hrun. by destruct (EnableUndoBlock (config_at height)). }
    destruct (decide (h = height)) as [->|Hneh]; [done|]. destruct (UndoBlock _ _ _ _ _ _ _ _ _ _) as [s1 [[]|]]; [|done].
    assert (sub64 height 1 = height - 1) as Hsub by (unfold sub64; unfold in_range in *; rewrite wrap_small by (unfold in_range; lia); lia).
    rewrite Hsub in Hrun. unfold in_range in Hr. eapply (IH (height - 1)); [unfold in_range; lia|lia|exact Hrun|lia].
Qed.

Lemma unwindLocalChain_enabled height common x x' result' :
  in_range 64 height → 0 ≤ common < height → unwindLocalChain height common x = (x', Ok result') →
  ∀ h, common ≤ h ≤ height → EnableUndoBlock (config_at h) = true.
Proof.
  intros Hr Hlt. unfold unwindLocalChain. rewrite (proj2 (Z.eqb_neq _ _)) by lia. apply unwind_enabled; [done|lia].
Qed.

(** C20. Unwinding.  A node that stores a chain and has the state its blocks lead
    to, from a state that holds nothing of their heights, can be unwound to any
    of its blocks: every stored block behind it is loaded and undone, and this
    ends without an exception when the configuration at each of these heights
    enables it, the configuration heights in the blocks can be read, and the
    merkle roots of the common block fit its caches.  The storage is only read;
    the observer state is then equivalent to the one of the chain up to the
    common block, the score is the sum of the scores of the blocks behind it, and
    their transactions are collected from the last block to the first.  The
    plugins meet [PluginLaws] and [RollbackLaws], as the account observers do
    with the removals they queue. *)
Theorem unwinding_reaches_common_block c k g pre ec post s t total :
  at_rest k c → chain_top c < 2 ^ 63 → Forall readable (chain_blocks c) → chain_blocks c = (pre ++ [ec]) ++ post →
  (∀ h, be_Height ec ≤ h ≤ chain_top c → EnableUndoBlock (config_at h) = true) → older (chain_start c + 1) g →
  executed (chain_blocks c) g s → t ≡ s → sum_scores ec post = Ok total → (∀ s1, executed (pre ++ [ec]) g s1 → roots_fit ec s1) →
  ∃ s1 t' result', executed (pre ++ [ec]) g s1 ∧ t' ≡ s1
    ∧ unwindLocalChain (chain_top c) (be_Height ec) (k, t) = ((k, t'), Ok result')
    ∧ ur_Score result' = total ∧ ur_TransactionInfos result' = infos_of post.
Proof.
  intros Hrest Hmax Hread Hc Hundo Holder Hex Ht Htotal Hfit.
  destruct (unwindLocalChain_run c k g pre ec post s t total Hrest Hmax Hread Hc (λ _, Hundo) Holder Hex Ht Htotal)
    as (s1 & Hex1 & t' & r & Hrun & Ht' & Hok & Hfits).
  destruct (Hfits (Hfit s1 Hex1)) as [result' ->]. destruct (Hok _ eq_refl) as [H1 H2]. by exists s1, t', result'.
Qed.

(** * Configurations in blocks *)

(** The configuration heights of the transactions can be read. *)
Definition extractable (e : BlockElement) : Prop :=
  ∀ tx, tx ∈ be_Transactions e → ∀ heights : gset Z,
    ∃ heights', extract_transaction add_height (be_Height e) (te_Transaction tx) heights = (heights', Ok tt).

Lemma extractable_readable e : extractable e → readable e.
Proof.
  intros He heights. unfold ExtractConfigs.
  destruct (for_each_total _ _ He heights) as [heights' Hrun]. exists heights', true. cbn [for_each]. by rewrite (run_bind _ _ _ _ _ Hrun).
Qed.

Lemma extract_transaction_total {K} (add : Z → nat → list Z → K → result K) h tx st st' :
  extract_transaction add h tx st = (st', Ok tt) →
  ∀ heights : gset Z, ∃ heights', extract_transaction add_height h tx heights = (heights', Ok tt).
Proof.
  unfold extract_transaction. destruct (_ =? Transaction_Type tx); [by intros; eexists|]. destruct (_ || _); [|by intros; eexists].
  destruct (Aggregate_Transactions tx) as [subs r]. unfold mbind, exec_bind, ends.
  intros Hrun heights. destruct (for_each _ subs st) as [st1 [[]|]]; [|done]. injection Hrun as _ ->.
  match goal with |- context [for_each ?f subs heights] => destruct (for_each_total f subs) with (st := heights) as [heights' ->] end; [|by eexists].
  intros sub _ hs. destruct (_ =? _); by eexists.
Qed.

Lemma extracted_extractable elements configs :
  ExtractConfigs (add_config ParseConfig) elements [] = (configs, Ok true) → Forall extractable elements.
Proof.
  unfold ExtractConfigs. destruct (for_each _ elements []) as [st [[]|[]]] eqn:Hrun; intros [= _]; try done.
  apply Forall_forall. intros e He t Ht. destruct (for_each_elem _ _ _ _ Hrun e He) as (st1 & st2 & Hr1).
  destruct (for_each_elem _ _ _ _ Hr1 t Ht) as (st3 & st4 & Hr2). by eapply extract_transaction_total.
Qed.

Lemma extractable_reloaded e e' : same_entities e e' → extractable e → extractable (BlockStorageSpec.reloaded e').
Proof.
  intros (Hb & _ & Ht) He t' Hin. unfold BlockStorageSpec.reloaded, persisted in Hin. cbn [be_Transactions set_OptionalStatement] in Hin.
  apply list_elem_of_fmap in Hin as (t & -> & Hin). rewrite <-Ht in Hin.
  change (be_Height (BlockStorageSpec.reloaded e')) with (Block_Height (be_Block e')). rewrite <-Hb. exact (He t Hin).
Qed.

Lemma reloaded_infos e e' : same_entities e e' → same_infos e (BlockStorageSpec.reloaded e').
Proof.
  intros (Hb & Hh & Ht). split; [exact Hb|]. unfold ExtractEntityInfos, BlockStorageSpec.reloaded. simpl. rewrite Hb, Hh, Ht.
  f_equal. by rewrite <-list_fmap_compose.
Qed.

Lemma sum_scores_ext p p' es es' :
  be_Block p = be_Block p' → Forall2 (λ e e', be_Block e = be_Block e') es es' → sum_scores p es = sum_scores p' es'.
Proof.
  intros Hp Hes. revert p p' Hp. induction Hes as [|e e' es es' He Hes IH]; intros p p' Hp; [done|].
  cbn [sum_scores]. unfold block_score. rewrite Hp, He. by rewrite (IH e e' He).
Qed.

(** * An input that is accepted *)

Lemma truncate_at_configs_run configs heights start es p x es1 y :
  sum_scores p es = Ok x → Z.of_nat (length es) < 2 ^ 63 → es ≠ [] → truncate_at_configs configs heights start es x = Ok (es1, y) →
  ∃ m, (0 < m ≤ length es)%nat ∧ es1 = take m es ∧ sum_scores p es1 = Ok y.
Proof.
  intros Hx Hlen Hne. assert (0 < length es)%nat as H0 by (destruct es; simpl; [done|lia]).
  induction configs as [|[height config] configs IH]; cbn [truncate_at_configs].
  { intros [= <- <-]. exists (length es). split_and!; [lia|lia|by rewrite firstn_all|done]. }
  destruct (bool_decide _ && _) eqn:Hcond; [|exact IH]. apply andb_true_iff in Hcond as [_ Hlt%Z.ltb_lt].
  assert (0 ≤ sub64 height start) as Hnn by (unfold sub64, wrap; apply Z.mod_pos_bound; lia).
  replace (Z.of_nat (length es) - 1) with (Z.of_nat (length es - 1)) by lia.
  assert (take (S (length es - 1)) es = es) as Hfull by (replace (S (length es - 1)) with (length es) by lia; apply firstn_all).
  rewrite <-Hfull in Hx. set (m := Z.to_nat (sub64 height start)). replace (sub64 height start) with (Z.of_nat m) by lia. intros Hrun.
  destruct (decide (m = 0%nat)) as [Hm|Hm].
  - pose proof (truncate_to_nothing (S (length es)) es (length es - 1) p x ltac:(lia) ltac:(lia) Hlen Hx) as Hthrow.
    rewrite Hfull in Hthrow. rewrite Hm, (Hthrow : truncate _ _ (Z.of_nat 0) _ _ _ = _) in Hrun. done.
  - destruct (truncate_down (S (length es)) es (length es - 1) m p x) as (z & Hz & Hdown); [lia|lia|lia|lia|done|done|].
    rewrite Hfull in Hdown. rewrite Hdown in Hrun. injection Hrun as <- <-. exists m. split_and!; [lia|lia|done|done].
Qed.

(** What the subscribers are told about a commit. *)
Definition commit_events (elements : list BlockElement) (ss : SyncState) (back : BlockElement) (score : Z) : list Event :=
  let newHeight := be_Height back in
  let hashes := ExtractTransactionHashes elements in
  [CommitStep Blocks_Written; ScoreChange score; StateChange (ss_CacheDelta ss) (ss_scoreDelta ss) newHeight;
   PreStateWritten (ss_CacheDelta ss) (ss_stateCopy ss) newHeight; CommitStep State_Written; CommitStep All_Updated;
   TransactionsChange hashes (CollectRevertedTransactionInfos hashes (ss_removedTransactionInfos ss));
   PostBlockCommitNotifications back (ss_postBlockCommitNotifications ss); PostBlockCommit elements].

Lemma commitAll_run elements ss n n' c :
  at_rest (n_storage n) c → settable (BlockStorageCache.m_pStagingStorage (n_storage n)) →
  StorageLaws.updatable (n_storage n) c (be_Height (ss_CommonBlockElement ss)) elements → elements ≠ [] →
  commitAll elements ss n = (n', Ok tt) →
  ∃ back (k1 : CatapultCache C), last elements = Some back ∧ commit (ss_CacheDelta ss) (be_Height back) (n_cache n) = (k1, Ok tt)
    ∧ n_cache n' = releaseDelta k1 ∧ n_state n' = ss_stateCopy ss ∧ n_score n' = int128 (n_score n + ss_scoreDelta ss)
    ∧ at_rest (n_storage n') (chain_append (chain_drop (be_Height (ss_CommonBlockElement ss)) c) (BlockStorageSpec.reloaded <$> elements))
    ∧ settable (BlockStorageCache.m_pStagingStorage (n_storage n'))
    ∧ n_events n' = n_events n ++ commit_events elements ss back (n_score n').
Proof.
  intros [Hs Hst Hcoh] Hset Hu Hne Hrun. set (common := be_Height (ss_CommonBlockElement ss)) in *.
  unfold commitAll in Hrun. fold common in Hrun.
  unfold mbind at 1, exec_bind at 1 in Hrun. unfold on_storage at 1 in Hrun.
  destruct (write_blocks common elements (n_storage n)) as [k0 [m|]] eqn:Hw; [|done].
  destruct (StorageLaws.write_blocks_ok _ _ _ _ _ _ Hs Hst Hset Hu Hw) as (-> & b & -> & Hb).
  erewrite run_bind in Hrun by reflexivity. destruct (last elements) as [back|] eqn:Hlast; [|by apply last_None in Hlast].
  exists back. cbv zeta in Hrun. erewrite run_bind in Hrun by reflexivity. erewrite run_bind in Hrun by reflexivity.
  erewrite run_bind in Hrun by reflexivity. unfold mbind at 1, exec_bind at 1 in Hrun. unfold sync_commit_state, commit_cache in Hrun.
  unfold mbind at 1, exec_bind at 1 in Hrun. cbn [n_cache set_n_cache set_n_storage set_n_score] in Hrun.
  destruct (commit (ss_CacheDelta ss) (be_Height back) (n_cache n)) as [k1 [[]|]]; [|done].
  unfold mbind at 1, exec_bind at 1 in Hrun. cbn [release modify] in Hrun. unfold release, modify in Hrun.
  destruct Hu as [Hcommon Hes Hmax [_ Hroom]].
  destruct (StorageLaws.commit_run (StorageLaws.with_staging b (n_storage n)) c common (BlockStorageSpec.reloaded <$> elements))
    as (k2 & Hcommit & Hrest2 & Hset2); try done.
  { by rewrite length_fmap. }
  exists k1. unfold mbind, exec_bind in Hrun. unfold on_storage in Hrun. cbn [n_storage set_n_cache set_n_storage set_n_score set_n_state] in Hrun.
  rewrite Hcommit in Hrun. injection Hrun as <-. split_and!; [done|done|done|done|done|exact Hrest2|exact Hset2|].
  simpl. by rewrite <-!app_assoc.
Qed.

(** ** A node that is consistent *)

Context `{!SubCacheLaws C V}.

Definition node_state n : State := observer_state (contents (n_cache n)) (n_state n) [].

(** The caches and the state are those that the blocks of the stored chain lead
    to from the state [g], and the score is that of its blocks. *)
Record consistent (g : State) n (c : Chain) : Prop := {
  con_storage : at_rest (n_storage n) c;
  con_staging : settable (BlockStorageCache.m_pStagingStorage (n_storage n));
  con_start : chain_start c = 0;
  con_extractable : Forall extractable (chain_blocks c);
  con_detached : detached (n_cache n);
  con_height : m_pCacheHeight (n_cache n) = chain_top c;
  con_executed : executed (chain_blocks c) g (node_state n);
  con_score : ∃ b bs, chain_blocks c = b :: bs ∧ sum_scores b bs = Ok (n_score n);
}.

(** The score of a chain is split at a block. *)
Lemma split_score b bs pre ec post x :
  b :: bs = (pre ++ [ec]) ++ post → sum_scores b bs = Ok x →
  ∃ below total, sum_scores ec post = Ok total ∧ x = below + total
    ∧ ∀ es y, sum_scores ec es = Ok y → ∃ bs', (pre ++ [ec]) ++ es = b :: bs' ∧ sum_scores b bs' = Ok (below + y).
Proof.
  intros Heq Hx. rewrite <-app_assoc in Heq. cbn [app] in Heq. destruct pre as [|p pre]; cbn [app] in Heq; injection Heq as -> ->.
  - exists 0, x. split_and!; [done|lia|]. intros es y Hy. by exists es.
  - apply sum_scores_app in Hx as (below & total & Hbelow & Htotal & ->). exists below, total. split_and!; [done|done|].
    intros es y Hy. exists (pre ++ ec :: es). rewrite <-app_assoc. split; [done|]. apply sum_scores_app. by exists below, y.
Qed.

(** The chain up to the common block. *)
Lemma chain_split c common :
  chain_start c < common ≤ chain_top c →
  ∃ pre ec post, chain_blocks c = (pre ++ [ec]) ++ post ∧ block_at c common = Some ec
    ∧ common = chain_start c + Z.of_nat (length (pre ++ [ec]))
    ∧ ∀ es, chain_append (chain_drop common c) es
            = {| ChainStorage.chain_start := chain_start c; ChainStorage.chain_blocks := (pre ++ [ec]) ++ es |}.
Proof.
  intros Hh. destruct (StorageLaws.block_at_inside c common Hh) as [ec He]. unfold block_at in He.
  rewrite (proj2 (Z.ltb_lt _ _)) in He by lia. pose proof (take_drop_middle _ _ _ He) as Hsplit.
  set (i := Z.to_nat (common - chain_start c - 1)) in *. pose proof (lookup_lt_Some _ _ _ He) as Hi.
  exists (take i (chain_blocks c)), ec, (drop (S i) (chain_blocks c)). split_and!.
  - rewrite <-app_assoc. cbn [app]. by rewrite Hsplit.
  - unfold block_at. by rewrite (proj2 (Z.ltb_lt _ _)) by lia.
  - rewrite length_app, length_take. simpl. lia.
  - intros es. unfold chain_append, chain_drop. rewrite (proj2 (Z.leb_le _ _)), (proj2 (Z.leb_le _ _)) by lia. cbn [andb chain_start chain_blocks].
    f_equal. f_equal. rewrite <-(take_S_r _ _ _ He). f_equal. lia.
Qed.

(** What unwinding leaves when the consumer goes on: the chain is split behind the
    common block [ec], the observer state is that of the first part, [es] are the
    elements to process, and [total] and [y] are the scores of what is dropped
    and of what is to be added. *)
Record unwound (g : State) n (c : Chain) (common : Z) (elements es : list BlockElement) (ss : SyncState)
    (pre : list BlockElement) (ec : BlockElement) (post : list BlockElement) (below total y : Z) : Prop := {
  un_split : chain_blocks c = (pre ++ [ec]) ++ post;
  un_height : be_Height ec = common;
  un_chain l : chain_append (chain_drop common c) l
               = {| ChainStorage.chain_start := chain_start c; ChainStorage.chain_blocks := (pre ++ [ec]) ++ l |};
  un_common : loaded_as ec (ss_CommonBlockElement ss);
  un_executed : executed (pre ++ [ec]) g (observer_state (ss_CacheDelta ss) (ss_stateCopy ss) (ss_postBlockCommitNotifications ss));
  un_elements : ∃ m, (0 < m ≤ length elements)%nat ∧ es = take m elements;
  un_peer : sum_scores ec es = Ok y;
  un_scores : n_score n = below + total ∧ 0 ≤ below ∧ 0 ≤ total ∧ below + total < 2 ^ 127;
  un_delta : ss_scoreDelta ss = int128 (y - total);
  un_better : length es = length elements → total < y;
  un_removed : ss_removedTransactionInfos ss = infos_of post;
  un_new l z : sum_scores ec l = Ok z → ∃ b bs, (pre ++ [ec]) ++ l = b :: bs ∧ sum_scores b bs = Ok (below + z);
}.

Lemma preprocess_unwind_run g n c first elements configs n1 ss es delta :
  at_rest (n_storage n) c → Forall extractable (chain_blocks c) → chain_top c < 2 ^ 63 → Z.of_nat (length elements) < 2 ^ 63 → elements ≠ [] →
  executed (chain_blocks c) g (observer_state delta (n_state n) []) →
  (∃ b bs, chain_blocks c = b :: bs ∧ sum_scores b bs = Ok (n_score n)) →
  sub64 (be_Height first) 1 = be_Height first - 1 → chain_start c < be_Height first - 1 ≤ chain_top c → older (chain_start c + 1) g →
  preprocess_unwind delta first elements (chain_top c) configs n = (n1, Ok (inr (ss, es))) →
  n1 = n ∧ ∃ pre ec post below total y, unwound g n c (be_Height first - 1) elements es ss pre ec post below total y.
Proof.
  intros Hrest Hext Hmax Hlen Hne Hex (b & bs & Hblocks & Hscore) Hsub Hin Holder Hrun.
  destruct (chain_split c (be_Height first - 1) Hin) as (pre & ec & post & Hc & Hec & Hcommon & Happ).
  destruct (split_score b bs pre ec post (n_score n) ltac:(congruence) Hscore) as (below & total & Htotal & Hsplit & Hnew).
  destruct (StorageLaws.law_wf _ _ (StorageLaws.rest_storage _ _ Hrest)) as (H0 & _ & _ & Hheights).
  pose proof (Hheights _ _ Hec) as Hheight.
  destruct (unwindLocalChain_run c (n_storage n) g pre ec post (observer_state delta (n_state n) []) (observer_state delta (n_state n) []) total Hrest Hmax) as
    (s1 & Hex1 & t' & r & Hun & Ht' & Hok & _); try done.
  { eapply Forall_impl; [exact Hext|]. apply extractable_readable. }
  { rewrite Hheight. intros Hlt. unfold preprocess_unwind in Hrun. rewrite Hsub in Hrun.
    destruct (unwindLocalChain _ _ _) as [x' [ur|]] eqn:Hur; [|by destruct x'].
    apply (unwindLocalChain_enabled (chain_top c) (be_Height first - 1) _ _ _ (proj2 (rest_range _ _ Hrest)) ltac:(lia) Hur). }
  unfold preprocess_unwind in Hrun. rewrite Hsub in Hrun. rewrite Hheight in Hun. rewrite Hun in Hrun.
  destruct r as [unwindResult|]; [|done]. destruct (Hok _ eq_refl) as [Hus Hui]. rewrite set_n_storage_same in Hrun.
  destruct (StorageLaws.view_load_run _ _ _ _ Hrest Hec) as (ec' & Hload & Hset).
  assert (on_storage (view_loadBlockElement (be_Height first - 1)) n = (n, Ok ec')) as Hl
    by (unfold on_storage; rewrite Hload; by rewrite set_n_storage_same).
  rewrite (run_bind _ _ _ _ _ Hl) in Hrun. rewrite partial_score in Hrun by done.
  unfold mbind at 1, exec_bind at 1, lift_result at 1 in Hrun.
  assert (sum_scores ec' elements = sum_scores ec elements) as Hecs.
  { apply sum_scores_ext; [by rewrite <-Hset|]. apply Forall_Forall2_diag, Forall_forall. done. }
  rewrite Hecs in Hrun. destruct (sum_scores ec elements) as [peer|] eqn:Hpeer; [|done]. rewrite Hus in Hrun.
  destruct (Z.leb_spec peer total) as [Hle|Hlt]; [done|].
  unfold mbind at 1, exec_bind at 1, lift_result at 1 in Hrun.
  destruct (truncate_at_configs _ _ _ _ _) as [[es2 y]|] eqn:Htrunc; [|done]. injection Hrun as <- <- <-.
  destruct (truncate_at_configs_run _ _ _ _ ec _ _ _ Hpeer Hlen Hne Htrunc) as (m & Hm & -> & Hy).
  assert (Z.of_nat (length post) < 2 ^ 63 ∧ Z.of_nat (length bs) < 2 ^ 63) as [Hlp Hlb].
  { unfold chain_top, BlockStorageCrash.top in Hmax. pose proof (f_equal length Hc) as Hl1. rewrite length_app in Hl1.
    pose proof (f_equal length Hblocks) as Hl2. simpl in Hl2. lia. }
  pose proof (sum_scores_bound _ _ _ Htotal Hlp) as Ht2. pose proof (sum_scores_bound _ _ _ Hscore Hlb) as Hs2.
  assert (0 ≤ below) as Hb0.
  { destruct (Hnew [] 0 eq_refl) as (bs' & _ & Hb). apply sum_scores_range in Hb. lia. }
  split; [done|]. exists pre, ec, post, below, total, y. constructor; try done; try lia.
  - refine (executed_equiv _ _ _ _ P _ _ _ _ Hex1 _). destruct Ht' as [H1 H2]. split; [by symmetry|done].
  - by exists m.
  - rewrite length_take. intros Hfull. rewrite take_ge in Hy by lia. assert (peer = y) by congruence. lia.
  - intros l z Hz. destruct (Hnew l z Hz) as (bs' & H1 & H2). by exists b, bs'.
Qed.

Lemma process_run elements ss elements' ss' :
  inv (observer_state (ss_CacheDelta ss) (ss_stateCopy ss) (ss_postBlockCommitNotifications ss)) →
  process elements ss = Ok (inr ss', elements') →
  executed elements' (observer_state (ss_CacheDelta ss) (ss_stateCopy ss) (ss_postBlockCommitNotifications ss))
    (observer_state (ss_CacheDelta ss') (ss_stateCopy ss') (ss_postBlockCommitNotifications ss'))
  ∧ Forall2 same_entities elements elements' ∧ ss_CommonBlockElement ss' = ss_CommonBlockElement ss
  ∧ ss_scoreDelta ss' = ss_scoreDelta ss ∧ ss_removedTransactionInfos ss' = ss_removedTransactionInfos ss.
Proof.
  intros Hi Hrun. unfold process in Hrun. destruct (processor _ _ _) as [s' [[r es]|]] eqn:Hproc; [|done].
  destruct (IsValidationResultSuccess r) eqn:Hr; cbn [negb] in Hrun; [|done]. injection Hrun as <- <-.
  destruct (BlockChainProcessor_run _ _ _ _ _ _ P inv _ _ _ _ _ _ _ _ _ _ _ Hi Hproc Hr) as [Hex Hsame].
  split_and!; try done. by refine (executed_equiv _ _ _ _ P _ _ _ _ Hex _).
Qed.

Lemma extends_last h es back : StorageLaws.extends h es → last es = Some back → be_Height back = h + Z.of_nat (length es).
Proof.
  revert h. induction es as [|e es IH]; intros h He Hlast; [done|]. destruct He as (_ & Hh & _ & He).
  destruct es as [|e' es]; [injection Hlast as <-; simpl; lia|]. rewrite last_cons_cons in Hlast. rewrite (IH _ He Hlast). simpl length. lia.
Qed.

(** Committing what was processed makes the node consistent with the new chain. *)
Lemma commit_consistent g n n' c common elements es es' ss ss' pre ec post below total y :
  chain_start c = 0 → Forall extractable (chain_blocks c) → Forall extractable elements → Z.of_nat (length elements) < 2 ^ 62 →
  inv g → unwound g n c common elements es ss pre ec post below total y → at_rest (n_storage n) c →
  settable (BlockStorageCache.m_pStagingStorage (n_storage n)) →
  process es ss = Ok (inr ss', es') → StorageLaws.updatable (n_storage n) c common es' →
  commitAll es' ss' n = (n', Ok tt) →
  consistent g n' (chain_append (chain_drop common c) (BlockStorageSpec.reloaded <$> es'))
  ∧ (length es' = length elements → n_score n < n_score n')
  ∧ ∃ back, last es' = Some back ∧ n_events n' = n_events n ++ commit_events es' ss' back (n_score n')
    ∧ ss_removedTransactionInfos ss' = infos_of post.
Proof.
  intros Hstart Hext Hexte Hlen Hi Hu Hrest Hset Hproc Hupd Hcommit. destruct Hu as [Hsplit Hheight Hchain Hload Hex (m & Hm & Hes) Hpeer Hscores Hdelta Hbetter Hrem Hnew].
  assert (inv (observer_state (ss_CacheDelta ss) (ss_stateCopy ss) (ss_postBlockCommitNotifications ss))) as Hi1
    by (exact (executed_inv _ _ validator _ _ P inv _ _ _ Hex Hi)).
  destruct (process_run _ _ _ _ Hi1 Hproc) as (Hex' & Hsame & Hcb & Hsd & Hri).
  assert (be_Height (ss_CommonBlockElement ss') = common) as Hcommon by (rewrite Hcb, <-Hheight, <-Hload; done).
  assert (es' ≠ []) as Hne.
  { intros ->. apply Forall2_nil_inv_r in Hsame. subst es. apply (f_equal length) in Hsame. rewrite length_take in Hsame. simpl in Hsame. lia. }
  destruct (commitAll_run es' ss' n n' c Hrest) as (back & k1 & Hlast & Hck & Hcache & Hstate & Hscore & Hrest' & Hset' & Hevents);
    [done|by rewrite Hcommon|done|done|].
  rewrite Hcommon in Hrest'. destruct (commit_installs _ _ _ _ Hck) as (Hdet & Hcont & Hkh). rewrite <-Hcache in Hdet, Hcont, Hkh.
  pose proof (extends_last _ _ _ (StorageLaws.upd_elements _ _ _ _ Hupd) Hlast) as Hback.
  assert (Z.of_nat (length es) < 2 ^ 62) as Hle by (rewrite Hes, length_take; lia).
  assert (Forall2 same_infos es' (BlockStorageSpec.reloaded <$> es')) as Hinfos.
  { apply Forall2_fmap_r, Forall_Forall2_diag, Forall_forall. intros e _. by apply reloaded_infos. }
  assert (sum_scores ec (BlockStorageSpec.reloaded <$> es') = Ok y) as Hy.
  { rewrite <-Hpeer. apply sum_scores_ext; [done|]. apply Forall2_fmap_l. apply Forall2_flip. eapply Forall2_impl; [exact Hsame|]. by intros e e' (Hb & _). }
  pose proof (sum_scores_bound _ _ _ Hpeer ltac:(lia)) as Hyb.
  assert (n_score n' = below + y) as Hns.
  { rewrite Hscore, Hsd, Hdelta. destruct Hscores as (-> & ? & ? & ?). rewrite (int128_small (y - total)) by lia.
    rewrite int128_small; [lia|]. lia. }
  split_and!.
  - constructor; try done.
    + by rewrite Hchain.
    + rewrite Hchain. cbn [chain_blocks]. apply Forall_app. split; [rewrite Hsplit in Hext; apply Forall_app in Hext; tauto|].
      apply Forall_fmap. assert (Forall extractable es) as He1 by (rewrite Hes; by apply Forall_take).
      apply Forall_forall. intros e' [i Hi']%list_elem_of_lookup. destruct (Forall2_lookup_r _ _ _ _ _ Hsame Hi') as (e & He & Hse).
      eapply extractable_reloaded; [exact Hse|]. by eapply Forall_lookup_1.
    + rewrite Hkh, Hback, Hchain. unfold chain_top, BlockStorageCrash.top. cbn [chain_start chain_blocks]. rewrite length_app, length_fmap.
      pose proof (Hchain []) as H0. apply (f_equal chain_top) in H0. rewrite app_nil_r in H0.
      unfold chain_append in H0. rewrite app_nil_r in H0.
      assert (chain_top (chain_drop common c) = common) as Htop by (pose proof (StorageLaws.upd_common _ _ _ _ Hupd); apply StorageLaws.chain_top_drop; lia).
      unfold chain_top, BlockStorageCrash.top in H0, Htop. cbn [chain_start chain_blocks] in H0. lia.
    + rewrite Hchain. cbn [chain_blocks].
      assert (executed ((pre ++ [ec]) ++ (BlockStorageSpec.reloaded <$> es')) g
        (observer_state (ss_CacheDelta ss') (ss_stateCopy ss') (ss_postBlockCommitNotifications ss'))) as Hall.
      { refine (executed_app _ _ _ _ P _ _ _ _ _ Hex _). by refine (executed_same _ _ _ _ P _ _ _ _ Hinfos _). }
      refine (executed_equiv _ _ _ _ P _ _ _ _ Hall _). unfold node_state, observer_state. rewrite Hstate. split; [|done]. cbn [os_Cache].
      symmetry. etransitivity; [exact Hcont|]. apply last_Some in Hlast as [l Hl]. rewrite Hl in Hex'.
      exact (proj1 (executed_height _ _ validator _ _ P inv _ _ _ _ Hex')).
    + rewrite Hchain. cbn [chain_blocks]. rewrite Hns. by apply Hnew.
  - intros Hfull. assert (length es = length elements) as Hfull' by (rewrite <-Hfull; by apply Forall2_length in Hsame).
    specialize (Hbetter Hfull'). destruct Hscores as (-> & ? & ? & ?). lia.
  - exists back. split_and!; [done|exact Hevents|congruence].
Qed.

Lemma release_detached n : detached (n_cache n) → fst (release n) = n.
Proof.
  intros Hd. unfold release, modify. cbn [fst]. assert (releaseDelta (n_cache n) = n_cache n) as ->; [|by destruct n].
  unfold detached in Hd. destruct (n_cache n) as [h1 h2 caches]. unfold releaseDelta. simpl in *. f_equal.
  induction Hd as [|o caches Ho Hd IH]; [done|]. rewrite fmap_cons, IH. f_equal. destruct o as [x|]; [|done]. simpl. f_equal.
  specialize (Ho x eq_refl). destruct x. simpl in *. by subst.
Qed.

Lemma checks_extractable first elements source n n' local configs :
  preprocess_checks first elements source n = (n', Ok (inr (local, configs))) → Forall extractable elements.
Proof.
  unfold preprocess_checks, mbind, exec_bind, lift_result, gets. destruct (on_storage view_chainHeight n) as [n1 [h|]]; [|done].
  destruct (negb (IsLinked _ _ _)); [done|]. destruct (_ <? _); [done|].
  destruct (ExtractConfigs _ _ _) as [remote [b|]] eqn:Hx; [|done]. destruct b; cbn [negb]; [|done]. intros _. by eapply extracted_extractable.
Qed.

(** The steps of an input that is accepted. *)
Lemma sync_run g n n' c first rest elements' source :
  consistent g n c → inv g → older 1 g → chain_top c < 2 ^ 63 → Z.of_nat (length (first :: rest)) < 2 ^ 62 →
  BlockChainSyncConsumer (first :: rest) source n = (n', Ok (Continue, elements')) →
  StorageLaws.updatable (n_storage n) c (be_Height first - 1) elements' →
  ∃ es ss' post, Forall2 same_entities es elements' ∧ (∃ m, es = take m (first :: rest))
    ∧ post = drop (Z.to_nat (be_Height first - 1)) (chain_blocks c)
    ∧ consistent g n' (chain_append (chain_drop (be_Height first - 1) c) (BlockStorageSpec.reloaded <$> elements'))
    ∧ (length elements' = length (first :: rest) → n_score n < n_score n')
    ∧ ∃ back, last elements' = Some back ∧ n_events n' = n_events n ++ commit_events elements' ss' back (n_score n')
      ∧ ss_removedTransactionInfos ss' = infos_of post.
Proof.
  intros [Hrest Hset Hstart Hext Hdet Hkh Hex Hscore] Hi Holder Hmax Hlen Hrun Hupd. unfold BlockChainSyncConsumer in Hrun.
  set (elements := first :: rest) in *. unfold sync_from, mbind, exec_bind in Hrun.
  destruct (preprocess_checks first elements source n) as [n1 r1] eqn:Hc.
  destruct (preprocess_checks_run _ _ _ _ _ _ _ Hrest Hc) as [-> Hchecked]. destruct r1 as [[r1|[local configs]]|]; [|  |done].
  { exfalso. injection Hrun as _ -> _. revert Hc. unfold preprocess_checks, mbind, exec_bind, lift_result, gets, mret, exec_ret.
    destruct (on_storage view_chainHeight n) as [n2 [h|]]; [|done]. destruct (negb (IsLinked _ _ _)); [done|]. destruct (_ <? _); [done|].
    destruct (ExtractConfigs _ _ _) as [remote [[]|]]; cbn [negb]; [|done|done]. by destruct (DifficultyChecker _ _ _) as [[]|]. }
  pose proof (checks_extractable _ _ _ _ _ _ _ Hc) as Hexte. destruct (Hchecked _ _ eq_refl) as [-> Hlinked].
  destruct (rest_range _ _ Hrest) as [H0 Hrange]. destruct (IsLinked_common _ _ _ Hlinked Hrange) as [Hcommon Hin].
  unfold with_delta in Hrun. destruct (createDelta_run _ Hdet) as (k' & Hcreate & Hrel & _). rewrite Hcreate in Hrun.
  set (nd := set_n_cache k' n) in *.
  destruct (preprocess_unwind _ first elements _ configs nd) as [n2 r2] eqn:Hun. destruct r2 as [[r2|[ss es]]|]; [| |done].
  { exfalso. injection Hrun as _ -> _. revert Hun. unfold preprocess_unwind. destruct (unwindLocalChain _ _ _) as [[k s] [ur|]]; [|done].
    unfold mbind, exec_bind, lift_result, mret, exec_ret. destruct (on_storage _ _) as [n3 [ec'|]]; [|done].
    destruct (Difficulty.CalculatePartialChainScore _ _ _); [|done]. destruct (_ <=? _); [done|]. by destruct (truncate_at_configs _ _ _ _ _) as [[]|]. }
  destruct (preprocess_unwind_run g nd c first elements configs n2 ss es (contents (n_cache n)) Hrest Hext Hmax ltac:(lia) ltac:(done)
    Hex Hscore Hcommon ltac:(lia) ltac:(by rewrite Hstart) Hun) as (-> & pre & ec & post & below & total & y & Hu).
  unfold lift_result in Hrun. destruct (process es ss) as [[[r3|ss'] es']|] eqn:Hproc; [| |done].
  { exfalso. injection Hrun as _ -> _. unfold process in Hproc. destruct (processor _ _ _) as [s' [[r es1]|]]; [|done]. by destruct (negb _). }
  destruct (commitAll es' ss' nd) as [n3 [[]|]] eqn:Hcommit; [|done]. injection Hrun as <- <-.
  destruct (commit_consistent g nd n3 c _ elements es es' ss ss' pre ec post below total y Hstart Hext Hexte Hlen Hi Hu Hrest Hset Hproc Hupd Hcommit)
    as (Hcons & Hbetter & Hevents).
  destruct Hu as [Hsplit _ Hchain _ Hexu (m & Hm & Hes) _ _ _ _ _ _].
  pose proof (executed_inv _ _ validator _ _ P inv _ _ _ Hexu Hi) as Hi1. destruct (process_run _ _ _ _ Hi1 Hproc) as (_ & Hsame & _).
  pose proof (release_detached n3 (con_detached _ _ _ Hcons)) as Hn3.
  unfold release, modify in Hn3. cbn [fst] in Hn3. exists es, ss', post. rewrite Hn3. split_and!; [done|by exists m| |done|done|exact Hevents].
  pose proof (f_equal (λ l, length (chain_blocks l)) (Hchain [])) as Hl. unfold chain_append, chain_drop in Hl.
  rewrite (proj2 (Z.leb_le _ _)), (proj2 (Z.leb_le _ _)) in Hl by lia. cbn [andb chain_blocks] in Hl. rewrite !app_nil_r, length_take in Hl.
  rewrite Hsplit, drop_app. replace (Z.to_nat (be_Height first - 1) - length (pre ++ [ec]))%nat with 0%nat.
  - rewrite drop_ge; [done|]. unfold chain_top, BlockStorageCrash.top in Hin. lia.
  - unfold chain_top, BlockStorageCrash.top in Hin. lia.
Qed.

(** C1. An input that is accepted leaves a consistent node.  A node is consistent
    with a stored chain when its caches and state are those that the blocks of
    the chain lead to, and its score is theirs.  When the consumer accepts a chain
    part, the node is consistent with the local chain up to the common block
    followed by the processed elements, which are a first part of the input:
    rolled back and new blocks, state, caches, score and storage never get out of
    step.  If the part was not cut, the new score is greater than the old one.
    Assumed are storages with [StorageLaws], plugins with [PluginLaws] and
    [RollbackLaws] (rollbacks may queue removals that are committed at the end of
    a block, as those of the account observers), a state before the first block
    that holds nothing of later heights, and that the processed elements are well
    formed, have consecutive heights and fit in the files of the storages
    ([updatable]).  With a staging storage in files an input that reorganises the
    chain is never accepted (see [reorganisation_fails]): for such a node the
    theorem is about inputs that extend the chain. *)
Theorem accepted_input_keeps_consistency g n n' c first rest elements' source :
  consistent g n c → inv g → older 1 g → chain_top c < 2 ^ 63 → Z.of_nat (length (first :: rest)) < 2 ^ 62 →
  BlockChainSyncConsumer (first :: rest) source n = (n', Ok (Continue, elements')) →
  StorageLaws.updatable (n_storage n) c (be_Height first - 1) elements' →
  consistent g n' (chain_append (chain_drop (be_Height first - 1) c) (BlockStorageSpec.reloaded <$> elements'))
  ∧ (∃ m, Forall2 same_entities (take m (first :: rest)) elements')
  ∧ (length elements' = length (first :: rest) → n_score n < n_score n').
Proof.
  intros Hc Hi Holder Hmax Hlen Hrun Hupd.
  destruct (sync_run g n n' c first rest elements' source Hc Hi Holder Hmax Hlen Hrun Hupd) as (es & ss' & post & H1 & (m & ->) & _ & H2 & H3 & _).
  split_and!; [done|by exists m|done].
Qed.

Lemma ExtractTransactionHashes_spec elements h : h ∈ ExtractTransactionHashes elements ↔ h ∈ concat (transaction_hashes <$> elements).
Proof.
  unfold ExtractTransactionHashes.
  assert (∀ l (acc : gset (list Z)), h ∈ foldl (λ hashes hash, {[hash]} ∪ hashes) acc l ↔ h ∈ l ∨ h ∈ acc) as Hin.
  { induction l as [|x l IH]; intros acc; simpl; [set_solver|]. rewrite IH. set_solver. }
  enough (∀ acc : gset (list Z), h ∈ foldl (λ hashes element, foldl (λ hashes hash, {[hash]} ∪ hashes) hashes (transaction_hashes element)) acc elements
    ↔ h ∈ concat (transaction_hashes <$> elements) ∨ h ∈ acc) as -> by set_solver.
  induction elements as [|e elements IH]; intros acc; cbn [foldl fmap list_fmap concat]; [set_solver|]. rewrite IH, Hin. set_solver.
Qed.

Lemma elem_of_infos_of info elements :
  info ∈ infos_of elements ↔ ∃ e tx, e ∈ elements ∧ tx ∈ be_Transactions e ∧ info = MakeTransactionInfo tx (be_Height e).
Proof.
  induction elements as [|e elements IH].
  - split; [by intros ?%elem_of_nil|]. intros (e & _ & ?%elem_of_nil & _). done.
  - rewrite infos_of_cons. unfold ExtractTransactionInfos. rewrite elem_of_app, IH, list_elem_of_fmap. split.
    + intros [(e' & tx & H1 & H2 & H3)|(tx & H1 & H2)]; [exists e', tx; set_solver|]. exists e, tx. set_solver.
    + intros (e' & tx & [->|H1]%elem_of_cons & H2 & H3); [right; by exists tx|]. left. by exists e', tx.
Qed.

(** C21. No transaction is lost.  When the consumer accepts a chain part, it tells the
    handler of the unconfirmed transactions exactly which transactions are now
    confirmed, those of the processed elements, and which are not confirmed any
    more: the transactions of the blocks that were dropped, with the height they
    had, except those that the new blocks contain as well.  The assumptions are
    those of the theorem on accepted inputs: [StorageLaws], [PluginLaws],
    [RollbackLaws], an initial state without anything of later heights, and
    [updatable] for the processed elements.  Inputs that drop blocks are accepted
    only where the staging storage can be set to a lower height, as the one in
    memory can and the one in files cannot. *)
Theorem reverted_transactions_are_reported g n n' c first rest elements' source :
  consistent g n c → inv g → older 1 g → chain_top c < 2 ^ 63 → Z.of_nat (length (first :: rest)) < 2 ^ 62 →
  BlockChainSyncConsumer (first :: rest) source n = (n', Ok (Continue, elements')) →
  StorageLaws.updatable (n_storage n) c (be_Height first - 1) elements' →
  ∃ added reverted, TransactionsChange added reverted ∈ drop (length (n_events n)) (n_events n')
    ∧ (∀ h, h ∈ added ↔ h ∈ concat (transaction_hashes <$> elements'))
    ∧ ∀ info, info ∈ reverted ↔ ti_EntityHash info ∉ concat (transaction_hashes <$> elements')
        ∧ ∃ e tx, e ∈ drop (Z.to_nat (be_Height first - 1)) (chain_blocks c) ∧ tx ∈ be_Transactions e ∧ info = MakeTransactionInfo tx (be_Height e).
Proof.
  intros Hc Hi Holder Hmax Hlen Hrun Hupd.
  destruct (sync_run g n n' c first rest elements' source Hc Hi Holder Hmax Hlen Hrun Hupd) as
    (es & ss' & post & _ & _ & -> & _ & _ & back & _ & Hevents & Hrem).
  eexists _, _. split_and!.
  - rewrite Hevents, drop_app_length. unfold commit_events. do 6 right. by left.
  - apply ExtractTransactionHashes_spec.
  - intros info. unfold CollectRevertedTransactionInfos. rewrite list_elem_of_filter, Hrem, elem_of_infos_of, ExtractTransactionHashes_spec. done.
Qed.

End scores.

End sync.

(** * An example *)

Module SyncSample.
Export (hints) Sample BlockStorageCache StorageLaws.
Import ChainStorage (Chain, chain_start, chain_blocks, chain_top).
Import BlockStorageCache (MemoryBlockStorage).

(** A transaction that adds [n], and an element at [height] that adds [n] and has
    the transactions. *)
Definition transaction (n : Z) : list Z := Write32 122 ++ [n] ++ replicate 117 0.
Definition transaction_element (n : Z) : TransactionElement :=
  {| te_Transaction := transaction n; te_EntityHash := replicate 32 n; te_MerkleComponentHash := replicate 32 n;
     te_OptionalExtractedAddresses := None |}.

Definition block (n height : Z) (transactions : list Z) (previous : list Z) (root : Z) : list Z :=
  Write32 (302 + 122 * Z.of_nat (length transactions)) ++ [n] ++ replicate 95 0 ++ Write32 3 ++ replicate 2 0 ++ Write64 height
  ++ Write64 (15000 * height) ++ Write64 1000000 ++ replicate 4 0 ++ previous ++ replicate 64 0 ++ replicate 32 root ++ replicate 40 0
  ++ concat (transaction <$> transactions).

Definition element (n height : Z) (transactions : list Z) (previous hash root : Z) : BlockElement :=
  {| be_Block := block n height transactions (replicate 32 previous) root; be_EntityHash := replicate 32 hash;
     be_GenerationHash := replicate 32 height; be_SubCacheMerkleRoots := []; be_Transactions := transaction_element <$> transactions;
     be_OptionalStatement := None |}.

(** The local chain; the third block is in conflict with the two blocks of a peer,
    and one of its two transactions is in the blocks of the peer as well. *)
Definition nemesis : BlockElement := element 0 0 [] 0 10 0.
Definition first : BlockElement := element 5 1 [] 10 11 0.
Definition second : BlockElement := element 3 2 [20] 11 12 28.
Definition third : BlockElement := element 4 3 [30; 31] 12 13 93.
Definition chain : Chain := {| chain_start := 0; chain_blocks := [first; second; third] |}.
Definition peer : list BlockElement := [element 6 3 [31] 12 23 65; element 7 4 [] 23 24 72].

Definition memory (blocks : list BlockElement) : MemoryBlockStorage := {|
  BlockStorageCache.m_blocks := list_to_map ((λ e, (be_Height e, be_Block e)) <$> blocks);
  BlockStorageCache.m_blockElements := list_to_map ((λ e, (be_Height e, e)) <$> blocks);
  BlockStorageCache.m_blockStatements := list_to_map ((λ e, (be_Height e, None)) <$> blocks);
  BlockStorageCache.m_height := Z.of_nat (length blocks);
|}.

Abbreviation SampleNode := (@Node Z unit sample_view (Z * bool) MemoryBlockStorage MemoryBlockStorage).

Definition node : SampleNode := {|
  n_cache := {| m_pConfigHeight := 3; m_pCacheHeight := 3; m_subCaches := [Some (new_SynchronizedCache (93, true))] |};
  n_state := tt;
  n_storage := {| BlockStorageCache.m_pStorage := memory [first; second; third]; BlockStorageCache.m_pStagingStorage := memory [];
                  BlockStorageCache.m_pBlockElement := Some third |};
  n_score := 2 * (2 ^ 64 / 1000000);
  n_events := [];
|}.

Definition difficulty_config : Difficulty.NetworkConfiguration :=
  {| Difficulty.BlockGenerationTargetTime := 15000; Difficulty.BlockTimeSmoothingFactor := 3000; Difficulty.MaxRollbackBlocks := 100;
     Difficulty.MaxDifficultyBlocks := 1 |}.

Definition difficulties (cache : CatapultCache (Z * bool)) : Difficulty.DifficultySet :=
  Difficulty.keyed ((λ h, {| Difficulty.BlockHeight := h; Difficulty.BlockTimestamp := 15000 * h; Difficulty.BlockDifficulty := 1000000 |})
    <$> [1; 2; 3]).

Definition consumer (elements : list BlockElement) (source : InputSource) (n : SampleNode) :=
  BlockChainSyncConsumer (λ _, Sample.type) (λ _, 16) Sample.publish Sample.validator Sample.observer (λ _, true) (λ _, true) (λ _, 100) id
    Sample.Sha3 Sample.Sha3 (λ _, replicate 32 0) (λ _ _ _ _, true) false difficulties (λ _, difficulty_config) u64 (λ _, Ok true)
    elements source n.

(** The elements of the peer as they are filled in. *)
Definition fill (generation : Z) (root : Z) (e : BlockElement) : BlockElement :=
  {| be_Block := be_Block e; be_EntityHash := be_EntityHash e; be_GenerationHash := replicate 32 generation;
     be_SubCacheMerkleRoots := [replicate 32 root]; be_Transactions := be_Transactions e; be_OptionalStatement := None |}.
Definition processed : list BlockElement :=
  [fill 2 65 (element 6 3 [31] 12 23 65); fill 2 72 (element 7 4 [] 23 24 72)].

Definition node' : SampleNode := fst (consumer peer Source_Remote_Pull node).

Lemma accepted : consumer peer Source_Remote_Pull node = (node', Ok (Continue, processed)).
Proof. vm_compute. reflexivity. Qed.

(** Bytes and hashes are checked by evaluation. *)
Definition is_byte (b : Z) : bool := (0 <=? b) && (b <? 2 ^ 8).

Lemma check_bytes l : forallb is_byte l = true → bytes l.
Proof.
  intros H. apply Forall_forall. intros b Hb. rewrite forallb_forall in H. specialize (H b (proj1 (list_elem_of_In _ _) Hb)).
  apply andb_true_iff in H as [?%Z.leb_le ?%Z.ltb_lt]. by split.
Qed.

Ltac check_writable :=
  split; [constructor; [split; [apply check_bytes; vm_compute; reflexivity|vm_compute; reflexivity]
    |vm_compute; discriminate|split; reflexivity|split; [repeat constructor|vm_compute; reflexivity]
    |vm_compute; reflexivity|repeat constructor|vm_compute; reflexivity]|exact I].

Lemma chain_canonical : Forall StorageLaws.canonical (chain_blocks chain).
Proof. repeat apply Forall_cons_2; try apply Forall_nil_2; (split; [check_writable|reflexivity]). Qed.

Lemma processed_writable : Forall BlockStorageRefinement.writable processed.
Proof. repeat apply Forall_cons_2; try apply Forall_nil_2; check_writable. Qed.

Lemma chain_at h e :
  StorageLaws.block_at chain h = Some e → (h = 1 ∧ e = first) ∨ (h = 2 ∧ e = second) ∨ (h = 3 ∧ e = third).
Proof.
  intros He. pose proof (StorageLaws.block_at_range _ _ _ He) as Hr. change (0 < h ≤ 3) in Hr.
  assert (h = 1 ∨ h = 2 ∨ h = 3) as [-> | [-> | ->]] by lia; injection He as <-; [by left|by right; left|by right; right].
Qed.

Lemma node_at_rest : StorageLaws.at_rest (n_storage node) chain.
Proof.
  assert (StorageLaws.wf_Chain chain) as Hwf.
  { split_and!; [done|done|exact chain_canonical|]. by intros h e [[-> ->] | [[-> ->] | [-> ->]]]%chain_at. }
  split.
  - split_and!; [done|done|]. by intros h e [[-> ->] | [[-> ->] | [-> ->]]]%chain_at.
  - split_and!; [done| |].
    + split_and!; [done|done|done|]. intros h e He. pose proof (StorageLaws.block_at_range _ _ _ He) as Hr. change (0 < h ≤ 0) in Hr. lia.
    + intros h e He. pose proof (StorageLaws.block_at_range _ _ _ He) as Hr. change (0 < h ≤ 0) in Hr. lia.
  - exists third. split; [done|]. exists third. split_and!; [done|vm_compute; reflexivity|done].
Qed.

Abbreviation sample_executed := (executed (λ _ : Z, Sample.type) Sample.publish Sample.observer (λ _, true) (λ _ _ _, True)).

(** The elements of the chain as they are filled in when it is processed. *)
Definition chain_processed : list BlockElement :=
  [{| be_Block := be_Block first; be_EntityHash := be_EntityHash first; be_GenerationHash := replicate 32 0; be_SubCacheMerkleRoots := [];
      be_Transactions := []; be_OptionalStatement := None |}; fill 0 28 second; fill 0 93 third].

Lemma chain_run :
  BlockChainProcessor (λ _, Sample.type) (λ _, 16) Sample.publish Sample.validator Sample.observer (λ _, true) Sample.Sha3 Sample.Sha3
    (λ _, replicate 32 0) (λ _ _ _ _, true) false nemesis (chain_blocks chain) (Sample.state 0 0)
  = (set_cache [Some {| sample_value := 93; sample_hashed := true; sample_root := replicate 32 93; sample_height := 3; sample_backup := 0 |}]
       (Sample.state 0 0), Ok (Success, chain_processed)).
Proof. vm_compute. reflexivity. Qed.

Lemma chain_same : Forall2 (λ e e', be_Block e = be_Block e' ∧ ExtractEntityInfos e = ExtractEntityInfos e') chain_processed (chain_blocks chain).
Proof. repeat (constructor; [split; vm_compute; reflexivity|]). constructor. Qed.

Lemma chain_state :
  set_cache [Some {| sample_value := 93; sample_hashed := true; sample_root := replicate 32 93; sample_height := 3; sample_backup := 0 |}]
    (Sample.state 0 0) ≡ node_state node.
Proof. split; [|done]. constructor; [|constructor]. constructor. by split_and!. Qed.

Lemma chain_executed : sample_executed (chain_blocks chain) (Sample.state 0 0) (node_state node).
Proof.
  destruct (BlockChainProcessor_run (λ _, Sample.type) (λ _, 16) Sample.publish Sample.validator Sample.observer (λ _, true) (λ _ _ _, True)
    (λ _, True) Sample.Sha3 Sample.Sha3 (λ _, replicate 32 0) (λ _ _ _ _, true) false nemesis (chain_blocks chain) (Sample.state 0 0)
    _ Success chain_processed I chain_run eq_refl) as [Hex _].
  exact (executed_equiv _ _ _ _ _ _ _ _ _ (executed_same _ _ _ _ _ _ _ _ _ chain_same Hex) chain_state).
Qed.

Lemma chain_extractable : Forall extractable (chain_blocks chain).
Proof.
  assert (∀ l height hash prev root n, Forall (λ m, Transaction_Type (transaction m) = 0) l → extractable (element n height l prev hash root)) as H.
  { intros l height hash prev root n Hl tx Htx heights. cbn [be_Transactions element] in Htx. apply list_elem_of_fmap in Htx as (m & -> & Hm).
    rewrite Forall_forall in Hl. exists heights. unfold extract_transaction. cbn [te_Transaction transaction_element]. by rewrite (Hl m Hm). }
  repeat apply Forall_cons_2; try apply Forall_nil_2; apply H; repeat constructor.
Qed.

Lemma u64_range x : in_range 64 (u64 x).
Proof. apply Z.mod_pos_bound. lia. Qed.

Abbreviation sample_consistent :=
  (consistent (λ _, Sample.type) Sample.publish Sample.observer (λ _, true) u64 (λ _ _ _, True) (Sample.state 0 0)).

Lemma node_consistent : sample_consistent node chain.
Proof.
  split; [exact node_at_rest|done|done|exact chain_extractable| |done|exact chain_executed|].
  - repeat constructor. by intros x [= <-].
  - exists first, [second; third]. split; [done|]. vm_compute. reflexivity.
Qed.

Lemma processed_fits : StorageLaws.updatable (n_storage node) chain 2 processed.
Proof.
  pose proof processed_writable as Hw. apply Forall_cons in Hw as [Hw1 Hw2]. apply Forall_cons in Hw2 as [Hw2 _].
  by split.
Qed.

(** A part that links, but whose first block has another state hash: the local
    block is rolled back and the new one executed before this is known. *)
Definition wrong : list BlockElement := [element 6 3 [31] 12 23 66; element 7 4 [] 23 24 72].

Lemma refused_input_changes_nothing_witness :
  ∃ es, consumer wrong Source_Remote_Pull node = (node, Ok (Abort Failure_Chain_Block_Inconsistent_State_Hash, es)).
Proof.
  assert (∃ es, consumer wrong Source_Remote_Pull node
    = (fst (consumer wrong Source_Remote_Pull node), Ok (Abort Failure_Chain_Block_Inconsistent_State_Hash, es))) as [es Hrun].
  { eexists. vm_compute. reflexivity. }
  assert (fst (consumer wrong Source_Remote_Pull node) = node) as Hn.
  { apply (refused_input_changes_nothing (λ _, Sample.type) (λ _, 16) Sample.publish Sample.validator Sample.observer (λ _, true) (λ _, true)
      (λ _, 100) id Sample.Sha3 Sample.Sha3 (λ _, replicate 32 0) (λ _ _ _ _, true) false difficulties (λ _, difficulty_config) u64 (λ _, Ok true)
      wrong es Source_Remote_Pull node _ (Abort Failure_Chain_Block_Inconsistent_State_Hash) chain); [exact node_at_rest|done| |exact Hrun|done].
    exact (con_detached _ _ _ _ _ _ _ _ _ node_consistent). }
  exists es. rewrite Hrun at 1. by rewrite Hn.
Defined.

(** The local chain is unwound to its second block. *)
Lemma unwinding_reaches_common_block_witness :
  ∃ t result, unwindLocalChain (λ _ : Z, Sample.type) Sample.publish Sample.observer (λ _, true) (λ _, true) id u64 3 2
      (n_storage node, node_state node) = ((n_storage node, t), Ok result)
    ∧ ur_Score result = 2 ^ 64 / 1000000
    ∧ ur_TransactionInfos result = (λ n, MakeTransactionInfo (transaction_element n) 3) <$> [30; 31].
Proof.
  destruct (unwinding_reaches_common_block (λ _ : Z, Sample.type) Sample.publish Sample.validator Sample.observer (λ _, true) (λ _, true) id u64
    u64_range (λ _ _ _, True) (λ _, True) (λ _ _, True) (λ _ t s, t ≡ s) chain (n_storage node) (Sample.state 0 0) [first] second [third] (node_state node) (node_state node)
    (2 ^ 64 / 1000000)) as (s1 & t & result & _ & _ & Hrun & Hs & Hi).
  - exact node_at_rest.
  - done.
  - eapply Forall_impl; [exact chain_extractable|]. apply extractable_readable.
  - done.
  - done.
  - done.
  - exact chain_executed.
  - done.
  - vm_compute. reflexivity.
  - intros s1 _ d _. by left.
  - exists t, result. split_and!; [exact Hrun|exact Hs|exact Hi].
Defined.

(** The part of the peer cut to its first block, and to nothing. *)
Lemma truncation_at_configuration_witness :
  truncate u64 3 1 1 (ExtractBlocks peer) peer (2 * (2 ^ 64 / 1000000)) = Ok (take 1 peer, 2 ^ 64 / 1000000)
  ∧ truncate u64 3 1 0 (ExtractBlocks peer) peer (2 * (2 ^ 64 / 1000000)) = Throw undefined_behaviour.
Proof.
  assert (sum_scores u64 second peer = Ok (2 * (2 ^ 64 / 1000000))) as Hx by (vm_compute; reflexivity).
  assert (peer ≠ []) as Hne by discriminate. assert (Z.of_nat (length peer) = 2) as Hl by reflexivity.
  split.
  - pose proof (truncation_at_configuration u64 u64_range peer 1 second _ Hne ltac:(lia) ltac:(lia) Hx) as Hcut.
    cbv zeta in Hcut. change (1 =? 0) with false in Hcut. cbv iota in Hcut. destruct Hcut as (y & Hy & Hrun).
    assert (sum_scores u64 second (take 1 peer) = Ok (2 ^ 64 / 1000000)) as Hy' by (vm_compute; reflexivity).
    change (Z.to_nat 1) with 1%nat in Hy, Hrun. rewrite Hy' in Hy. injection Hy as Hy. rewrite <-Hy in Hrun. exact Hrun.
  - exact (truncation_at_configuration u64 u64_range peer 0 second _ Hne ltac:(lia) ltac:(lia) Hx).
Defined.

Lemma accepted_input_keeps_consistency_witness :
  sample_consistent node' {| ChainStorage.chain_start := 0; ChainStorage.chain_blocks := [first; second] ++ processed |}
  ∧ n_score node < n_score node'.
Proof.
  destruct (accepted_input_keeps_consistency (λ _ : Z, Sample.type) (λ _, 16) Sample.publish Sample.validator Sample.observer (λ _, true) (λ _, true)
    (λ _, 100) id Sample.Sha3 Sample.Sha3 (λ _, replicate 32 0) (λ _ _ _ _, true) false difficulties (λ _, difficulty_config) u64 (λ _, Ok true)
    u64_range (λ _ _ _, True) (λ _, True) (λ _ _, True) (λ _ t s, t ≡ s) (Sample.state 0 0) node node' chain (element 6 3 [31] 12 23 65) [element 7 4 [] 23 24 72] processed
    Source_Remote_Pull node_consistent I I) as (Hc & _ & Hs); [done|done|exact accepted|exact processed_fits|].
  split; [exact Hc|by apply Hs].
Defined.

(** One of the two transactions of the block that was dropped is reported. *)
Lemma reverted_transactions_are_reported_witness :
  ∃ added reverted, TransactionsChange added reverted ∈ n_events node'
    ∧ MakeTransactionInfo (transaction_element 30) 3 ∈ reverted ∧ MakeTransactionInfo (transaction_element 31) 3 ∉ reverted.
Proof.
  destruct (reverted_transactions_are_reported (λ _ : Z, Sample.type) (λ _, 16) Sample.publish Sample.validator Sample.observer (λ _, true) (λ _, true)
    (λ _, 100) id Sample.Sha3 Sample.Sha3 (λ _, replicate 32 0) (λ _ _ _ _, true) false difficulties (λ _, difficulty_config) u64 (λ _, Ok true)
    u64_range (λ _ _ _, True) (λ _, True) (λ _ _, True) (λ _ t s, t ≡ s) (Sample.state 0 0) node node' chain (element 6 3 [31] 12 23 65) [element 7 4 [] 23 24 72] processed
    Source_Remote_Pull node_consistent I I) as (added & reverted & Hin & Hadded & Hreverted); [done|done|exact accepted|exact processed_fits|].
  exists added, reverted. split_and!; [exact Hin| |].
  - apply Hreverted. split; [by apply (bool_decide_unpack _); vm_compute|]. exists third, (transaction_element 30).
    split_and!; [by left|by left|done].
  - intros [Hno _]%Hreverted. apply Hno. by left.
Defined.

End SyncSample.

End BlockChainSync.
