(* ===== verification/UtCache.v ===== *)
(** Model of the cache of unconfirmed transactions (catapult/cache_tx):
    AccountCounters.cpp, MemoryUtCache.cpp, MemoryUtCacheUtils.cpp,
    AggregateUtCache.cpp with BasicAggregateTransactionsCache.h, the tracker of
    net changes (model/TransactionChangeTracker.h), and the fee calculator
    (model/TransactionFeeCalculator.cpp).

    Clients reach a cache through the interface [UtModifier], as the code does;
    what it promises is [UtModifierLaws]: the cache is a queue of bounded length
    without repeated hashes.  The file shows that the cache in memory keeps this
    promise, that the aggregate cache keeps it too and tells its subscriber the
    net changes, and what the readers of the cache get. *)
From stdpp Require Import base tactics numbers option list sorting gmap.
From S2P Require Import Prelude Streams BlockElements BlockExecution Consumers.

Local Open Scope Z_scope.

Module UtCache.
Import Stream Elements BlockExecution Consumers.

(** * Account counters *)

Record AccountCounters := { m_accountCounters : gmap (list Z) Z; m_totalUseCount : Z }.

Definition new_AccountCounters : AccountCounters := {| m_accountCounters := ∅; m_totalUseCount := 0 |}.

Definition counters_size (c : AccountCounters) : Z := Z.of_nat (size (m_accountCounters c)).
Definition counters_deepSize (c : AccountCounters) : Z := m_totalUseCount c.
Definition counters_count (key : list Z) (c : AccountCounters) : Z := default 0 (m_accountCounters c !! key).

Definition increment (key : list Z) (c : AccountCounters) : AccountCounters :=
  {| m_accountCounters := <[key := u64 (counters_count key c + 1)]> (m_accountCounters c);
     m_totalUseCount := u64 (m_totalUseCount c + 1) |}.

(** [operator[]] leaves an entry of zero behind when the count is zero. *)
Definition decrement (key : list Z) : Exec AccountCounters unit := λ c,
  let useCount := counters_count key c in
  if useCount =? 0
  then ({| m_accountCounters := <[key := useCount]> (m_accountCounters c); m_totalUseCount := m_totalUseCount c |},
        Throw runtime_error)
  else
    ({| m_accountCounters := if useCount - 1 =? 0 then delete key (m_accountCounters c)
                             else <[key := useCount - 1]> (m_accountCounters c);
        m_totalUseCount := u64 (m_totalUseCount c - 1) |}, Ok tt).

Definition counters_reset (c : AccountCounters) : AccountCounters := new_AccountCounters.

(** * Fees *)

Definition MaxFee (transaction : list Z) : Z := field 106 8 transaction.

Record TransactionFeeCalculator := {
  m_limitedFeeTransactions : gmap Z (gset Z);
  m_transactionSizeSuppliers : gmap Z (list Z → Z → Z);
}.

Definition addLimitedFeeTransaction (entityType version : Z) (c : TransactionFeeCalculator) : TransactionFeeCalculator :=
  {| m_limitedFeeTransactions :=
       <[entityType := {[ version ]} ∪ default ∅ (m_limitedFeeTransactions c !! entityType)]> (m_limitedFeeTransactions c);
     m_transactionSizeSuppliers := m_transactionSizeSuppliers c |}.

Definition addTransactionSizeSupplier (entityType : Z) (supplier : list Z → Z → Z) (c : TransactionFeeCalculator)
    : TransactionFeeCalculator :=
  {| m_limitedFeeTransactions := m_limitedFeeTransactions c;
     m_transactionSizeSuppliers :=
       match m_transactionSizeSuppliers c !! entityType with
       | Some _ => m_transactionSizeSuppliers c
       | None => <[entityType := supplier]> (m_transactionSizeSuppliers c)
       end |}.

Definition isTransactionFeeLimited (entityType version : Z) (c : TransactionFeeCalculator) : bool :=
  match m_limitedFeeTransactions c !! entityType with
  | None => false
  | Some versions => bool_decide (version ∈ versions)
  end.

Definition transaction_size (c : TransactionFeeCalculator) (transaction : list Z) (height : Z) : Z :=
  match m_transactionSizeSuppliers c !! Transaction_Type transaction with
  | None => Size transaction
  | Some supplier => supplier transaction height
  end.

(** The factors have 32 bits, and so has their product. *)
Definition calculateTransactionFee (c : TransactionFeeCalculator) (feeMultiplier : Z) (transaction : list Z)
    (feeInterest feeInterestDenominator height : Z) : result Z :=
  if feeInterestDenominator =? 0 then Throw undefined_behaviour
  else
    let size := transaction_size c transaction height in
    let fee := u32 (u32 (feeMultiplier * size) * feeInterest) / feeInterestDenominator in
    if isTransactionFeeLimited (Transaction_Type transaction) (EntityVersion transaction) c
    then Ok (Z.min (MaxFee transaction) fee) else Ok fee.

(** * The cache in memory *)

Record MemoryCacheOptions := { MaxResponseSize : Z; MaxCacheSize : Z }.

(** The container is ordered by id; [Impl] is folded into the record. *)
Record MemoryUtCache := {
  m_options : MemoryCacheOptions;
  m_idSequence : Z;
  TransactionDataContainer : list (Z * TransactionInfo);
  IdLookup : gmap (list Z) Z;
  Counters : AccountCounters;
}.

Definition new_MemoryUtCache (options : MemoryCacheOptions) : MemoryUtCache :=
  {| m_options := options; m_idSequence := 0; TransactionDataContainer := []; IdLookup := ∅; Counters := new_AccountCounters |}.

Definition ut_size (c : MemoryUtCache) : Z := Z.of_nat (length (TransactionDataContainer c)).
Definition ut_count (key : list Z) (c : MemoryUtCache) : Z := counters_count key (Counters c).

Definition ut_add (info : TransactionInfo) : Exec MemoryUtCache bool := λ c,
  if MaxCacheSize (m_options c) <=? ut_size c then (c, Ok false)
  else match IdLookup c !! ti_EntityHash info with
       | Some _ => (c, Ok false)
       | None =>
           let id := u64 (m_idSequence c + 1) in
           ({| m_options := m_options c; m_idSequence := id;
               TransactionDataContainer := map_insert id info (TransactionDataContainer c);
               IdLookup := <[ti_EntityHash info := id]> (IdLookup c);
               Counters := increment (Signer (ti_pEntity info)) (Counters c) |}, Ok true)
       end.

Definition set_counters (counters : AccountCounters) (c : MemoryUtCache) : MemoryUtCache :=
  {| m_options := m_options c; m_idSequence := m_idSequence c; TransactionDataContainer := TransactionDataContainer c;
     IdLookup := IdLookup c; Counters := counters |}.

(** An info without an entity stands for a transaction that is not there. *)
Definition ut_remove (hash : list Z) : Exec MemoryUtCache (option TransactionInfo) := λ c,
  match IdLookup c !! hash with
  | None => (c, Ok None)
  | Some id =>
      match map_find id (TransactionDataContainer c) with
      | None => (c, Throw undefined_behaviour)
      | Some data =>
          match decrement (Signer (ti_pEntity data)) (Counters c) with
          | (counters, Throw e) => (set_counters counters c, Throw e)
          | (counters, Ok _) =>
              ({| m_options := m_options c; m_idSequence := m_idSequence c;
                  TransactionDataContainer := map_erase id (TransactionDataContainer c);
                  IdLookup := delete hash (IdLookup c); Counters := counters |}, Ok (Some data))
          end
      end
  end.

(** The ids go on. *)
Definition ut_removeAll (c : MemoryUtCache) : MemoryUtCache * list TransactionInfo :=
  ({| m_options := m_options c; m_idSequence := m_idSequence c; TransactionDataContainer := []; IdLookup := ∅;
      Counters := counters_reset (Counters c) |}, (TransactionDataContainer c).*2).

(** ** Views *)

Definition ut_contains (hash : list Z) (c : MemoryUtCache) : bool := bool_decide (is_Some (IdLookup c !! hash)).

(** A consumer has a state of its own and tells whether to go on. *)
Fixpoint for_each_data {S} (consumer : TransactionInfo → S → S * bool) (data : list (Z * TransactionInfo)) (s : S) : S :=
  match data with
  | [] => s
  | (_, info) :: data => let '(s, goOn) := consumer info s in if goOn then for_each_data consumer data s else s
  end.

Definition forEach {S} (consumer : TransactionInfo → S → S * bool) (c : MemoryUtCache) : S → S :=
  for_each_data consumer (TransactionDataContainer c).

Definition ToShortHash (hash : list Z) : Z := le_value (take 4 hash).

Definition shortHashes (c : MemoryUtCache) : list Z := (λ data, ToShortHash (ti_EntityHash (snd data))) <$> TransactionDataContainer c.

Section unknown.
Context (calculator : TransactionFeeCalculator) (minFeeMultiplier : Z) (knownShortHashes : gset Z).
Context (feeInterest feeInterestDenominator : Z).

Fixpoint collect_unknown (maxResponseSize totalSize : Z) (data : list (Z * TransactionInfo)) : result (list (list Z)) :=
  match data with
  | [] => Ok []
  | (_, info) :: data =>
      fee ← calculateTransactionFee calculator minFeeMultiplier (ti_pEntity info) feeInterest feeInterestDenominator max64;
      if MaxFee (ti_pEntity info) <? fee then collect_unknown maxResponseSize totalSize data
      else if bool_decide (ToShortHash (ti_EntityHash info) ∈ knownShortHashes)
      then collect_unknown maxResponseSize totalSize data
      else
        let totalSize := u64 (totalSize + Size (ti_pEntity info)) in
        if maxResponseSize <? totalSize then Ok []
        else transactions ← collect_unknown maxResponseSize totalSize data; Ok (ti_pEntity info :: transactions)
  end.

Definition unknownTransactions (c : MemoryUtCache) : result (list (list Z)) :=
  collect_unknown (MaxResponseSize (m_options c)) 0 (TransactionDataContainer c).

End unknown.

(** ** Selections *)

Section selection.
Context {S : Type} (stopCallback : S → S * bool) (count : Z).

(** The state of a consumer is what it collected and the state of the callback. *)
Definition collects (filter_ : TransactionInfo → bool) (info : TransactionInfo) (st : list TransactionInfo * S)
    : (list TransactionInfo * S) * bool :=
  let '(pointers, s) := st in
  let pointers := if filter_ info then pointers ++ [info] else pointers in
  if Z.of_nat (length pointers) =? count then ((pointers, s), false)
  else let '(s, stop) := stopCallback s in ((pointers, s), negb stop).

Definition GetFirstTransactionInfoPointers_filter (filter_ : TransactionInfo → bool) (c : MemoryUtCache) (s : S)
    : list TransactionInfo * S :=
  if negb (0 =? count) then forEach (collects filter_) c ([], s) else ([], s).

Definition GetFirstTransactionInfoPointers (c : MemoryUtCache) (s : S) : list TransactionInfo * S :=
  if negb (0 =? count) then forEach (collects (λ _, true)) c ([], s) else ([], s).

Fixpoint select_candidates (filter_ : TransactionInfo → bool) (infos candidates : list TransactionInfo) (s : S)
    : list TransactionInfo * S :=
  match infos with
  | [] => (candidates, s)
  | info :: infos =>
      if count =? Z.of_nat (length candidates) then (candidates, s)
      else
        let '(s, stop) := stopCallback s in
        if stop then (candidates, s)
        else select_candidates filter_ infos (if filter_ info then candidates ++ [info] else candidates) s
  end.

Definition load_all (info : TransactionInfo) (st : list TransactionInfo * S) : (list TransactionInfo * S) * bool :=
  let '(pointers, s) := st in let '(s, stop) := stopCallback s in ((pointers ++ [info], s), negb stop).

(** [sort] is [std::sort] with the comparer. *)
Definition GetFirstTransactionInfoPointers_sorted (sort : list TransactionInfo → list TransactionInfo)
    (filter_ : TransactionInfo → bool) (c : MemoryUtCache) (s : S) : list TransactionInfo * S :=
  let '(all, s) := forEach load_all c ([], s) in select_candidates filter_ (sort all) [] s.

End selection.

(** * The interface of modifiers *)

Class UtModifier (M : Type) := {
  mod_size : M → Z;
  mod_add : TransactionInfo → Exec M bool;
  mod_remove : list Z → Exec M (option TransactionInfo);
  mod_count : list Z → M → Z;
  mod_removeAll : M → M * list TransactionInfo;
}.

#[export] Instance MemoryUtCacheModifier : UtModifier MemoryUtCache := {|
  mod_size := ut_size; mod_add := ut_add; mod_remove := ut_remove; mod_count := ut_count; mod_removeAll := ut_removeAll |}.

(** * Net changes *)

(** Infos are compared by their hashes. *)
Record TransactionChangeTracker := {
  m_addedTransactionInfos : gmap (list Z) TransactionInfo;
  m_removedTransactionInfos : gmap (list Z) TransactionInfo;
}.

Definition new_TransactionChangeTracker : TransactionChangeTracker :=
  {| m_addedTransactionInfos := ∅; m_removedTransactionInfos := ∅ |}.

Definition emplace (info : TransactionInfo) (m : gmap (list Z) TransactionInfo) : gmap (list Z) TransactionInfo :=
  match m !! ti_EntityHash info with Some _ => m | None => <[ti_EntityHash info := info]> m end.

Definition tracker_add (info : TransactionInfo) (t : TransactionChangeTracker) : TransactionChangeTracker :=
  match m_removedTransactionInfos t !! ti_EntityHash info with
  | Some _ => {| m_addedTransactionInfos := m_addedTransactionInfos t;
                 m_removedTransactionInfos := delete (ti_EntityHash info) (m_removedTransactionInfos t) |}
  | None => {| m_addedTransactionInfos := emplace info (m_addedTransactionInfos t);
               m_removedTransactionInfos := m_removedTransactionInfos t |}
  end.

Definition tracker_remove (info : TransactionInfo) (t : TransactionChangeTracker) : TransactionChangeTracker :=
  match m_addedTransactionInfos t !! ti_EntityHash info with
  | Some _ => {| m_addedTransactionInfos := delete (ti_EntityHash info) (m_addedTransactionInfos t);
                 m_removedTransactionInfos := m_removedTransactionInfos t |}
  | None => {| m_addedTransactionInfos := m_addedTransactionInfos t;
               m_removedTransactionInfos := emplace info (m_removedTransactionInfos t) |}
  end.

Definition tracker_reset (t : TransactionChangeTracker) : TransactionChangeTracker := new_TransactionChangeTracker.

(** What a subscriber is told. *)
Inductive UtEvent :=
| NotifyAdds (transactionInfos : gmap (list Z) TransactionInfo)
| NotifyRemoves (transactionInfos : gmap (list Z) TransactionInfo)
| Flush.

Section aggregate.
Context {M : Type} `{!UtModifier M}.

Record AggregateUtCacheModifier := {
  m_modifier : M;
  m_transactionChangeTracker : TransactionChangeTracker;
  m_subscriber : list UtEvent;
}.

Definition new_AggregateUtCacheModifier (modifier : M) (subscriber : list UtEvent) : AggregateUtCacheModifier :=
  {| m_modifier := modifier; m_transactionChangeTracker := new_TransactionChangeTracker; m_subscriber := subscriber |}.

Definition track (f : TransactionChangeTracker → TransactionChangeTracker) (a : AggregateUtCacheModifier) : AggregateUtCacheModifier :=
  {| m_modifier := m_modifier a; m_transactionChangeTracker := f (m_transactionChangeTracker a); m_subscriber := m_subscriber a |}.

Definition set_modifier (m : M) (a : AggregateUtCacheModifier) : AggregateUtCacheModifier :=
  {| m_modifier := m; m_transactionChangeTracker := m_transactionChangeTracker a; m_subscriber := m_subscriber a |}.

Definition agg_add (info : TransactionInfo) : Exec AggregateUtCacheModifier bool := λ a,
  match mod_add info (m_modifier a) with
  | (m, Throw e) => (set_modifier m a, Throw e)
  | (m, Ok false) => (set_modifier m a, Ok false)
  | (m, Ok true) => (track (tracker_add info) (set_modifier m a), Ok true)
  end.

Definition agg_remove (hash : list Z) : Exec AggregateUtCacheModifier (option TransactionInfo) := λ a,
  match mod_remove hash (m_modifier a) with
  | (m, Throw e) => (set_modifier m a, Throw e)
  | (m, Ok None) => (set_modifier m a, Ok None)
  | (m, Ok (Some info)) => (track (tracker_remove info) (set_modifier m a), Ok (Some info))
  end.

Definition agg_removeAll (a : AggregateUtCacheModifier) : AggregateUtCacheModifier * list TransactionInfo :=
  let '(m, infos) := mod_removeAll (m_modifier a) in
  (foldl (λ a info, track (tracker_remove info) a) (set_modifier m a) infos, infos).

#[export] Instance AggregateUtCacheModifier_modifier : UtModifier AggregateUtCacheModifier := {|
  mod_size a := mod_size (m_modifier a); mod_add := agg_add; mod_remove := agg_remove;
  mod_count key a := mod_count key (m_modifier a); mod_removeAll := agg_removeAll |}.

(** The destructor. *)
Definition agg_flush (a : AggregateUtCacheModifier) : AggregateUtCacheModifier :=
  let t := m_transactionChangeTracker a in
  {| m_modifier := m_modifier a; m_transactionChangeTracker := tracker_reset t;
     m_subscriber := m_subscriber a
       ++ (if bool_decide (m_removedTransactionInfos t = ∅) then [] else [NotifyRemoves (m_removedTransactionInfos t)])
       ++ (if bool_decide (m_addedTransactionInfos t = ∅) then [] else [NotifyAdds (m_addedTransactionInfos t)])
       ++ [Flush] |}.

End aggregate.
Arguments AggregateUtCacheModifier : clear implicits.

(** * What a modifier promises *)

(** The abstract cache is a queue. *)
Definition hashes (q : list TransactionInfo) : list (list Z) := ti_EntityHash <$> q.

Definition queue_add (max : Z) (info : TransactionInfo) (q : list TransactionInfo) : list TransactionInfo * bool :=
  if (max <=? Z.of_nat (length q)) || bool_decide (ti_EntityHash info ∈ hashes q) then (q, false) else (q ++ [info], true).

Definition queue_remove (hash : list Z) (q : list TransactionInfo) : list TransactionInfo * option TransactionInfo :=
  (filter (λ info, ti_EntityHash info ≠ hash) q, head (filter (λ info, ti_EntityHash info = hash) q)).

Definition queue_count (key : list Z) (q : list TransactionInfo) : Z :=
  Z.of_nat (length (filter (λ info, Signer (ti_pEntity info) = key) q)).

(** [mod_repr n m q]: [m] holds [q], and [n] more transactions can be added
    before the ids run out. *)
Class UtModifierLaws (M : Type) `{!UtModifier M} (max : Z) (mod_repr : nat → M → list TransactionInfo → Prop) := {
  repr_unique n m q : mod_repr n m q → NoDup (hashes q);
  repr_weaken n n' m q : (n' ≤ n)%nat → mod_repr n m q → mod_repr n' m q;
  repr_size n m q : mod_repr n m q → mod_size m = Z.of_nat (length q);
  repr_count n m q key : mod_repr n m q → mod_count key m = queue_count key q;
  repr_add n m q info : mod_repr (S n) m q →
    ∃ m', mod_add info m = (m', Ok (snd (queue_add max info q))) ∧ mod_repr n m' (fst (queue_add max info q));
  repr_remove n m q hash : mod_repr n m q →
    ∃ m', mod_remove hash m = (m', Ok (snd (queue_remove hash q))) ∧ mod_repr n m' (fst (queue_remove hash q));
  repr_removeAll n m q : mod_repr n m q → ∃ m', mod_removeAll m = (m', q) ∧ mod_repr n m' [];
}.

(** ** Queues *)

Lemma queue_remove_absent hash q : hash ∉ hashes q → queue_remove hash q = (q, None).
Proof.
  unfold hashes. intros Hh. unfold queue_remove. rewrite filter_all, filter_none; [done| |].
  - intros info Hi <-. apply Hh. by apply list_elem_of_fmap_2.
  - intros info Hi <-. apply Hh. by apply list_elem_of_fmap_2.
Qed.

Lemma hashes_app q1 q2 : hashes (q1 ++ q2) = hashes q1 ++ hashes q2.
Proof. apply fmap_app. Qed.

Lemma queue_remove_split q1 info q2 :
  NoDup (hashes (q1 ++ info :: q2)) → queue_remove (ti_EntityHash info) (q1 ++ info :: q2) = (q1 ++ q2, Some info).
Proof.
  rewrite hashes_app. cbn. intros (_ & Hd & Hn)%NoDup_app. apply NoDup_cons in Hn as [Hn _].
  assert (ti_EntityHash info ∉ hashes q1) as H1 by (intros H; apply (Hd _ H); left).
  pose proof (queue_remove_absent _ _ H1) as E1. pose proof (queue_remove_absent _ _ Hn) as E2.
  unfold queue_remove in *. injection E1 as E1 _. injection E2 as E2 _.
  rewrite !filter_app, !filter_cons, decide_False, decide_True by naive_solver. rewrite E1, E2. f_equal.
  rewrite filter_none; [done|]. intros x Hx Heq. apply H1. rewrite <-Heq. by apply list_elem_of_fmap_2.
Qed.

(** A known hash splits the queue. *)
Lemma hashes_split hash q : hash ∈ hashes q → ∃ q1 info q2, q = q1 ++ info :: q2 ∧ ti_EntityHash info = hash.
Proof. intros (info & -> & Hi)%list_elem_of_fmap. apply list_elem_of_split in Hi as (q1 & q2 & ->). by eexists _, _, _. Qed.

Lemma queue_remove_hashes hash q x : x ∈ hashes (fst (queue_remove hash q)) ↔ x ≠ hash ∧ x ∈ hashes q.
Proof.
  unfold queue_remove, hashes. cbn [fst]. rewrite !list_elem_of_fmap. setoid_rewrite list_elem_of_filter. naive_solver.
Qed.

Lemma queue_remove_unique hash q : NoDup (hashes q) → NoDup (hashes (fst (queue_remove hash q))).
Proof. intros Hq. eapply sublist_NoDup; [exact Hq|]. apply fmap_sublist. apply sublist_filter. Qed.

Lemma queue_add_unique max info q : NoDup (hashes q) → NoDup (hashes (fst (queue_add max info q))).
Proof.
  intros Hq. unfold queue_add. destruct (_ || _) eqn:E; [done|]. apply orb_false_iff in E as [_ E%bool_decide_eq_false].
  cbn [fst]. rewrite hashes_app. apply NoDup_app. split_and!; [done| |apply NoDup_singleton].
  intros x Hx ->%list_elem_of_singleton. done.
Qed.

Lemma queue_count_app key q1 q2 : queue_count key (q1 ++ q2) = queue_count key q1 + queue_count key q2.
Proof. unfold queue_count. rewrite filter_app, length_app. lia. Qed.

Lemma queue_count_cons key info q :
  queue_count key (info :: q) = (if decide (Signer (ti_pEntity info) = key) then 1 else 0) + queue_count key q.
Proof. unfold queue_count. rewrite filter_cons. case_decide; cbn [length]; lia. Qed.

Lemma queue_count_range key q : 0 ≤ queue_count key q ≤ Z.of_nat (length q).
Proof. unfold queue_count. pose proof (length_filter (λ info, Signer (ti_pEntity info) = key) q). lia. Qed.

(** ** Counters *)

(** The counters of a queue: accounts that are not used have no entry. *)
Record counts (c : AccountCounters) (q : list TransactionInfo) : Prop := {
  counts_each key : m_accountCounters c !! key = if decide (queue_count key q = 0) then None else Some (queue_count key q);
  counts_total : m_totalUseCount c = Z.of_nat (length q);
}.

Lemma counts_count c q key : counts c q → counters_count key c = queue_count key q.
Proof. intros [Hc _]. unfold counters_count. rewrite Hc. by case_decide. Qed.

Lemma counts_increment c q info :
  counts c q → Z.of_nat (length q) + 1 < 2 ^ 64 → counts (increment (Signer (ti_pEntity info)) c) (q ++ [info]).
Proof.
  intros Hc Hl. split.
  - intros key. unfold increment. cbn [m_accountCounters]. rewrite (counts_count _ _ _ Hc), lookup_insert, (counts_each _ _ Hc).
    rewrite queue_count_app, queue_count_cons. change (queue_count key []) with 0.
    pose proof (queue_count_range key q). destruct (decide (Signer (ti_pEntity info) = key)) as [->|].
    + rewrite decide_False by lia. f_equal. rewrite wrap_small by (unfold in_range; lia). lia.
    + by rewrite Z.add_0_r.
  - unfold increment. cbn [m_totalUseCount]. rewrite (counts_total _ _ Hc), wrap_small by (unfold in_range; lia).
    rewrite length_app. cbn [length]. lia.
Qed.

Lemma counts_decrement c q1 info q2 :
  counts c (q1 ++ info :: q2) → Z.of_nat (length (q1 ++ info :: q2)) < 2 ^ 64 →
  ∃ c', decrement (Signer (ti_pEntity info)) c = (c', Ok tt) ∧ counts c' (q1 ++ q2).
Proof.
  intros Hc Hl. unfold decrement. rewrite (counts_count _ _ _ Hc).
  assert (∀ key, queue_count key (q1 ++ info :: q2) = (if decide (Signer (ti_pEntity info) = key) then 1 else 0) + queue_count key (q1 ++ q2)) as Hq.
  { intros key. rewrite !queue_count_app, queue_count_cons. lia. }
  rewrite Hq, decide_True by done. pose proof (queue_count_range (Signer (ti_pEntity info)) (q1 ++ q2)).
  rewrite (proj2 (Z.eqb_neq _ _)) by lia. replace (1 + _ - 1) with (queue_count (Signer (ti_pEntity info)) (q1 ++ q2)) by lia.
  eexists. split; [done|]. split.
  - intros key. cbn [m_accountCounters]. specialize (Hq key). destruct Hc as [Hc _]. specialize (Hc key). rewrite Hq in Hc.
    destruct (decide (Signer (ti_pEntity info) = key)) as [->|Hk].
    + destruct (queue_count key (q1 ++ q2) =? 0) eqn:E; zbool.
      * by rewrite E, lookup_delete_eq, decide_True.
      * by rewrite lookup_insert_eq, decide_False.
    + destruct (_ =? 0); rewrite ?lookup_delete_ne, ?lookup_insert_ne by done; exact Hc.
  - cbn [m_totalUseCount]. rewrite (counts_total _ _ Hc). rewrite length_app in *. cbn [length] in *. rewrite length_app.
    rewrite wrap_small by (unfold in_range; lia). lia.
Qed.

(** ** The cache in memory keeps the promise *)

Record ut_repr (max : Z) (n : nat) (c : MemoryUtCache) (q : list TransactionInfo) : Prop := {
  ut_queue : (TransactionDataContainer c).*2 = q;
  ut_sorted : NoDup (TransactionDataContainer c).*1;
  ut_ids : Forall (λ id, id ≤ m_idSequence c) (TransactionDataContainer c).*1;
  ut_lookup : ∀ hash id, IdLookup c !! hash = Some id ↔ ∃ info, (id, info) ∈ TransactionDataContainer c ∧ ti_EntityHash info = hash;
  ut_unique : NoDup (hashes q);
  ut_counts : counts (Counters c) q;
  ut_length : Z.of_nat (length q) ≤ m_idSequence c;
  ut_room : m_idSequence c + Z.of_nat n < 2 ^ 64;
  ut_max : MaxCacheSize (m_options c) = max;
}.

Lemma ut_repr_known max n c q hash : ut_repr max n c q → is_Some (IdLookup c !! hash) ↔ hash ∈ hashes q.
Proof.
  intros Hr. split.
  - intros [id (info & Hi & <-)%(ut_lookup _ _ _ _ Hr)]. apply list_elem_of_fmap_2. rewrite <-(ut_queue _ _ _ _ Hr).
    by apply (list_elem_of_fmap_2 snd _ (id, info)).
  - intros (info & -> & Hi)%list_elem_of_fmap. rewrite <-(ut_queue _ _ _ _ Hr) in Hi. apply list_elem_of_fmap in Hi as ([id info'] & -> & Hi).
    exists id. apply (ut_lookup _ _ _ _ Hr). by exists info'.
Qed.

Lemma ut_add_repr max n c q info :
  ut_repr max (S n) c q →
  ∃ c', ut_add info c = (c', Ok (snd (queue_add max info q))) ∧ ut_repr max n c' (fst (queue_add max info q)).
Proof.
  intros Hr. pose proof Hr as [Hq Hs Hi Hl Hu Hc Hlen Hroom Hmax]. unfold ut_add, queue_add, ut_size.
  assert (length (TransactionDataContainer c) = length q) as -> by (by rewrite <-Hq, length_fmap). rewrite Hmax.
  assert (ut_repr max n c q) as Hr' by (split; try done; lia).
  destruct (max <=? Z.of_nat (length q)) eqn:Hfull; [by exists c|]. cbn [orb].
  pose proof (ut_repr_known _ _ _ _ (ti_EntityHash info) Hr) as Hk.
  destruct (IdLookup c !! ti_EntityHash info) as [x|] eqn:Hx.
  { rewrite bool_decide_true by (by apply Hk). by exists c. }
  assert (ti_EntityHash info ∉ hashes q) as Hn by (intros [? ?]%Hk; done). rewrite bool_decide_false by done. eexists. split; [done|].
  assert (u64 (m_idSequence c + 1) = m_idSequence c + 1) as Hid by (apply wrap_small; unfold in_range; lia). rewrite Hid.
  assert (Forall (λ x, x < m_idSequence c + 1) (TransactionDataContainer c).*1) as Hlt.
  { eapply Forall_impl; [exact Hi|]. simpl. lia. }
  constructor; cbn [TransactionDataContainer m_idSequence IdLookup Counters m_options fst]; rewrite ?(map_insert_last _ _ _ Hlt), ?fmap_app; cbn.
  - by rewrite Hq.
  - apply NoDup_app. split_and!; [done| |apply NoDup_singleton]. intros x Hx' ->%list_elem_of_singleton.
    eapply Forall_forall in Hlt; [|exact Hx']. simpl in Hlt. lia.
  - apply Forall_app. split; [|by repeat constructor]. eapply Forall_impl; [exact Hi|]. simpl. lia.
  - intros hash id. setoid_rewrite elem_of_app. setoid_rewrite list_elem_of_singleton. rewrite lookup_insert_Some, Hl. split.
    + intros [[<- <-]|[Hne (i & Hi' & <-)]]; eauto.
    + intros (i & [Hi'|[= -> ->]] & <-); [|by left]. right. split; [|by exists i]. intros Heq. apply Hn. rewrite Heq, <-Hq.
      apply list_elem_of_fmap_2. by apply (list_elem_of_fmap_2 snd _ (id, i)).
  - pose proof (queue_add_unique max info q Hu) as Hun. unfold queue_add in Hun. by rewrite Hfull, bool_decide_false in Hun.
  - apply counts_increment; [done|lia].
  - rewrite length_app. cbn [length]. lia.
  - lia.
  - done.
Qed.

Lemma ut_remove_repr max n c q hash :
  ut_repr max n c q →
  ∃ c', ut_remove hash c = (c', Ok (snd (queue_remove hash q))) ∧ ut_repr max n c' (fst (queue_remove hash q)).
Proof.
  intros Hr. pose proof Hr as [Hq Hs Hi Hl Hu Hc Hlen Hroom Hmax]. unfold ut_remove.
  pose proof (ut_repr_known _ _ _ _ hash Hr) as Hk. destruct (IdLookup c !! hash) as [id|] eqn:Hid.
  2: { rewrite queue_remove_absent by (intros [? ?]%Hk; done). by exists c. }
  pose proof Hid as (info & Hin & <-)%Hl. apply list_elem_of_split in Hin as (l1 & l2 & Hd). rewrite Hd in *.
  rewrite fmap_app in Hs. cbn in Hs. pose proof Hs as (Hs1 & Hs2 & Hs3)%NoDup_app.
  assert (id ∉ l1.*1) as H1 by (intros H; apply (Hs2 _ H); left). rewrite map_find_split, map_erase_split by done.
  rewrite fmap_app in Hq. cbn in Hq. subst q. rewrite queue_remove_split by done.
  destruct (counts_decrement _ _ _ _ Hc ltac:(lia)) as (counters & -> & Hc'). eexists. split; [done|].
  constructor; cbn [TransactionDataContainer m_idSequence IdLookup Counters m_options fst].
  - by rewrite fmap_app.
  - rewrite fmap_app. apply NoDup_app. split_and!; [done| |by apply NoDup_cons in Hs3 as [_ ?]].
    intros x Hx Hx2. apply (Hs2 _ Hx). by right.
  - rewrite fmap_app in *. cbn in Hi. apply Forall_app in Hi as [? Hi]. apply Forall_cons in Hi as [? Hi]. by apply Forall_app.
  - intros h x. rewrite lookup_delete_Some, Hl. setoid_rewrite elem_of_app. setoid_rewrite elem_of_cons.
    rewrite hashes_app in Hu. cbn in Hu. apply NoDup_app in Hu as (_ & Hu2 & Hu3). apply NoDup_cons in Hu3 as [Hu3 _].
    assert (∀ i x', (x', i) ∈ l1 ∨ (x', i) ∈ l2 → ti_EntityHash i ≠ ti_EntityHash info) as Hne.
    { intros i x' [Hx|Hx] Heq.
      - apply (Hu2 (ti_EntityHash i)); [|rewrite Heq; left]. apply list_elem_of_fmap_2. by apply (list_elem_of_fmap_2 snd _ (x', i)).
      - apply Hu3. rewrite <-Heq. apply list_elem_of_fmap_2. by apply (list_elem_of_fmap_2 snd _ (x', i)). }
    split; [|naive_solver]. intros [Hh (i & [Hx|[[= -> ->]|Hx]] & <-)]; [|done|]; exists i; auto.
  - eapply sublist_NoDup; [exact Hu|]. rewrite !hashes_app. apply sublist_app; [done|]. by apply sublist_cons.
  - done.
  - rewrite length_app in *. cbn [length] in *. lia.
  - done.
  - done.
Qed.

#[export] Instance MemoryUtCache_laws max : UtModifierLaws MemoryUtCache max (ut_repr max).
Proof.
  constructor.
  - intros n m q Hr. apply Hr.
  - intros n n' m q Hn [Hq Hs Hi Hl Hu Hc Hlen Hroom Hmax]. split; try done. lia.
  - intros n m q Hr. simpl. unfold ut_size. by rewrite <-(ut_queue _ _ _ _ Hr), length_fmap.
  - intros n m q key Hr. simpl. unfold ut_count. apply counts_count, Hr.
  - intros n m q info. apply ut_add_repr.
  - intros n m q hash. apply ut_remove_repr.
  - intros n m q [Hq Hs Hi Hl Hu Hc Hlen Hroom Hmax]. simpl. unfold ut_removeAll. eexists. rewrite Hq. split; [done|].
    constructor; simpl; try done.
    + constructor.
    + intros hash id. rewrite lookup_empty. split; [done|]. by intros (? & []%not_elem_of_nil & _).
    + constructor.
    + lia.
Qed.

Lemma new_MemoryUtCache_repr options n :
  Z.of_nat n < 2 ^ 64 → ut_repr (MaxCacheSize options) n (new_MemoryUtCache options) [].
Proof.
  intros Hn. constructor; cbn [new_MemoryUtCache TransactionDataContainer m_idSequence IdLookup Counters m_options]; try done.
  - constructor.
  - intros hash id. rewrite lookup_empty. split; [done|]. by intros (? & []%not_elem_of_nil & _).
  - constructor.
Qed.

(** * Sequences of calls *)

Inductive UtOp :=
| OpAdd (info : TransactionInfo)
| OpRemove (hash : list Z)
| OpRemoveAll
| OpSize
| OpCount (key : list Z).

Inductive UtResponse :=
| R_Added (r : result bool)
| R_Removed (r : result (option TransactionInfo))
| R_All (infos : list TransactionInfo)
| R_Number (n : Z).

Definition mod_step {M} `{!UtModifier M} (m : M) (op : UtOp) : M * UtResponse :=
  match op with
  | OpAdd info => let '(m, r) := mod_add info m in (m, R_Added r)
  | OpRemove hash => let '(m, r) := mod_remove hash m in (m, R_Removed r)
  | OpRemoveAll => let '(m, infos) := mod_removeAll m in (m, R_All infos)
  | OpSize => (m, R_Number (mod_size m))
  | OpCount key => (m, R_Number (mod_count key m))
  end.

Definition queue_step (max : Z) (q : list TransactionInfo) (op : UtOp) : list TransactionInfo * UtResponse :=
  match op with
  | OpAdd info => let '(q, b) := queue_add max info q in (q, R_Added (Ok b))
  | OpRemove hash => let '(q, o) := queue_remove hash q in (q, R_Removed (Ok o))
  | OpRemoveAll => ([], R_All q)
  | OpSize => (q, R_Number (Z.of_nat (length q)))
  | OpCount key => (q, R_Number (queue_count key q))
  end.

Section lawful.
Context {M : Type} `{!UtModifier M} (max : Z) (R : nat → M → list TransactionInfo → Prop) `{!UtModifierLaws M max R}.

Lemma step_repr n m q op :
  R (S n) m q → R n (fst (mod_step m op)) (fst (queue_step max q op)) ∧ snd (mod_step m op) = snd (queue_step max q op).
Proof.
  intros Hr. assert (R n m q) as Hr' by (eapply repr_weaken; [|exact Hr]; lia). destruct op as [info|hash| | |key]; cbn [mod_step queue_step].
  - destruct (repr_add n m q info Hr) as (m' & -> & Hm). by destruct (queue_add max info q).
  - destruct (repr_remove n m q hash Hr') as (m' & -> & Hm). by destruct (queue_remove hash q).
  - by destruct (repr_removeAll n m q Hr') as (m' & -> & Hm).
  - by rewrite (repr_size _ _ _ Hr).
  - by rewrite (repr_count _ _ _ key Hr).
Qed.

(** A lawful modifier answers as the queue does. *)
Lemma trace_repr ops n m q :
  R (length ops + n) m q →
  R n (fst (trace mod_step m ops)) (fst (trace (queue_step max) q ops))
  ∧ snd (trace mod_step m ops) = snd (trace (queue_step max) q ops).
Proof.
  revert m q. induction ops as [|op ops IH]; intros m q Hr; [done|]. simpl. destruct (step_repr _ m q op Hr) as [Hm Hs].
  destruct (mod_step m op) as [m' r], (queue_step max q op) as [q' r']. cbn [fst snd] in *. destruct (IH m' q' Hm) as [Hm' Hs'].
  destruct (trace mod_step m' ops), (trace (queue_step max) q' ops). cbn [fst snd] in *. by subst.
Qed.

End lawful.

(** ** The aggregate cache keeps the promise too *)

Section aggregate_laws.
Context {M : Type} `{!UtModifier M} (max : Z) (R : nat → M → list TransactionInfo → Prop) `{!UtModifierLaws M max R}.

Lemma track_all_modifier infos (a : AggregateUtCacheModifier M) :
  m_modifier (foldl (λ a info, track (tracker_remove info) a) a infos) = m_modifier a.
Proof. revert a. induction infos as [|i infos IH]; intros a; [done|]. simpl. by rewrite IH. Qed.

Lemma track_all_subscriber infos (a : AggregateUtCacheModifier M) :
  m_subscriber (foldl (λ a info, track (tracker_remove info) a) a infos) = m_subscriber a.
Proof. revert a. induction infos as [|i infos IH]; intros a; [done|]. simpl. by rewrite IH. Qed.

#[export] Instance AggregateUtCache_laws :
  UtModifierLaws (AggregateUtCacheModifier M) max (λ n a q, R n (m_modifier a) q).
Proof.
  constructor.
  - intros n a q Hr. exact (repr_unique n (m_modifier a) q Hr).
  - intros n n' a q Hn Hr. exact (repr_weaken n n' (m_modifier a) q Hn Hr).
  - intros n a q Hr. exact (repr_size n (m_modifier a) q Hr).
  - intros n a q key Hr. exact (repr_count n (m_modifier a) q key Hr).
  - intros n a q info Hr. simpl. unfold agg_add. destruct (repr_add n _ _ info Hr) as (m' & -> & Hm).
    destruct (snd (queue_add max info q)); by eexists.
  - intros n a q hash Hr. change (mod_remove (M:=AggregateUtCacheModifier M)) with (agg_remove (M:=M)). unfold agg_remove. destruct (repr_remove n _ _ hash Hr) as (m' & -> & Hm).
    destruct (snd (queue_remove hash q)); by eexists.
  - intros n a q Hr. simpl. unfold agg_removeAll. destruct (repr_removeAll n _ _ Hr) as (m' & -> & Hm). eexists. split; [done|].
    by rewrite track_all_modifier.
Qed.

Lemma aggregate_step_repr n (a : AggregateUtCacheModifier M) q op :
  R (S n) (m_modifier a) q → R n (m_modifier (fst (mod_step a op))) (fst (queue_step max q op)).
Proof. exact (λ Hr, proj1 (step_repr max (λ n (a : AggregateUtCacheModifier M) q, R n (m_modifier a) q) n a q op Hr)). Qed.

(** ** Net changes *)

(** The tracker holds the difference of the queues. *)
Record net_change (q0 q : list TransactionInfo) (t : TransactionChangeTracker) : Prop := {
  net_added hash : is_Some (m_addedTransactionInfos t !! hash) ↔ hash ∈ hashes q ∧ hash ∉ hashes q0;
  net_removed hash : is_Some (m_removedTransactionInfos t !! hash) ↔ hash ∈ hashes q0 ∧ hash ∉ hashes q;
  net_infos hash info : m_addedTransactionInfos t !! hash = Some info → info ∈ q ∧ ti_EntityHash info = hash;
}.

Lemma net_add q0 q t info :
  net_change q0 q t → ti_EntityHash info ∉ hashes q → net_change q0 (q ++ [info]) (tracker_add info t).
Proof.
  intros Hn Hh. pose proof (λ h, net_added _ _ _ Hn h) as Ha. pose proof (λ h, net_removed _ _ _ Hn h) as Hr.
  assert (∀ x, x ∈ hashes (q ++ [info]) ↔ x ∈ hashes q ∨ x = ti_EntityHash info) as Hx.
  { intros x. rewrite hashes_app, elem_of_app. cbn. by rewrite list_elem_of_singleton. }
  assert (m_addedTransactionInfos t !! ti_EntityHash info = None) as Hnone.
  { apply eq_None_not_Some. rewrite Ha. tauto. }
  unfold tracker_add. destruct (m_removedTransactionInfos t !! ti_EntityHash info) as [i|] eqn:Hi.
  - assert (ti_EntityHash info ∈ hashes q0) as H0 by (by apply (Hr (ti_EntityHash info)); rewrite Hi).
    constructor; cbn [m_addedTransactionInfos m_removedTransactionInfos].
    + intros h. rewrite Ha, Hx. split; [naive_solver|]. intros [[?| ->] ?]; [done|done].
    + intros h. rewrite lookup_delete_is_Some, Hr, Hx. naive_solver.
    + intros h i' [Hi' <-]%(net_infos _ _ _ Hn). split; [|done]. apply elem_of_app. by left.
  - assert (ti_EntityHash info ∉ hashes q0) as H0.
    { intros H. by destruct (proj2 (Hr (ti_EntityHash info)) (conj H Hh)) as [? ?%(eq_trans (eq_sym Hi))]. }
    unfold emplace. rewrite Hnone. constructor; cbn [m_addedTransactionInfos m_removedTransactionInfos].
    + intros h. rewrite lookup_insert_is_Some', Ha, Hx. naive_solver.
    + intros h. rewrite Hr, Hx. split; [|naive_solver]. intros [? ?]. split; [done|]. intros [?| ->]; done.
    + intros h i' [[<- <-]|[_ [Hi' <-]%(net_infos _ _ _ Hn)]]%lookup_insert_Some; (split; [|done]); apply elem_of_app; [right; left|by left].
Qed.

Lemma net_remove q0 q1 info q2 t :
  NoDup (hashes (q1 ++ info :: q2)) → net_change q0 (q1 ++ info :: q2) t → net_change q0 (q1 ++ q2) (tracker_remove info t).
Proof.
  intros Hu Hn. pose proof (λ h, net_added _ _ _ Hn h) as Ha. pose proof (λ h, net_removed _ _ _ Hn h) as Hr.
  assert (∀ x, x ∈ hashes (q1 ++ q2) ↔ x ≠ ti_EntityHash info ∧ x ∈ hashes (q1 ++ info :: q2)) as Hx.
  { intros x. pose proof (queue_remove_hashes (ti_EntityHash info) (q1 ++ info :: q2) x) as Hq. by rewrite queue_remove_split in Hq. }
  assert (ti_EntityHash info ∈ hashes (q1 ++ info :: q2)) as Hin.
  { apply list_elem_of_fmap_2, elem_of_app. right. left. }
  unfold tracker_remove. destruct (m_addedTransactionInfos t !! ti_EntityHash info) as [i|] eqn:Hi.
  - assert (ti_EntityHash info ∉ hashes q0) as H0 by (by apply (Ha (ti_EntityHash info)); rewrite Hi).
    constructor; cbn [m_addedTransactionInfos m_removedTransactionInfos].
    + intros h. rewrite lookup_delete_is_Some, Ha, Hx. naive_solver.
    + intros h. rewrite Hr, Hx. split; [naive_solver|]. intros [? ?]. split; [done|]. intros ?. destruct (decide (h = ti_EntityHash info)); naive_solver.
    + intros h i' [Hne [Hi' <-]%(net_infos _ _ _ Hn)]%lookup_delete_Some. split; [|done]. rewrite elem_of_app, elem_of_cons in *. naive_solver.
  - assert (ti_EntityHash info ∈ hashes q0) as H0.
    { destruct (decide (ti_EntityHash info ∈ hashes q0)) as [|H]; [done|].
      by destruct (proj2 (Ha (ti_EntityHash info)) (conj Hin H)) as [? ?%(eq_trans (eq_sym Hi))]. }
    assert (m_removedTransactionInfos t !! ti_EntityHash info = None) as Hnone by (apply eq_None_not_Some; rewrite Hr; tauto).
    unfold emplace. rewrite Hnone. constructor; cbn [m_addedTransactionInfos m_removedTransactionInfos].
    + intros h. rewrite Ha, Hx. split; [|naive_solver]. intros [? ?]. split_and!; [by intros ->|done|done].
    + intros h. rewrite lookup_insert_is_Some', Hr, Hx. split; [naive_solver|]. intros [? ?]. destruct (decide (h = ti_EntityHash info)); naive_solver.
    + intros h i' Hi'. pose proof Hi' as [Hin' <-]%(net_infos _ _ _ Hn). split; [|done]. rewrite elem_of_app, elem_of_cons in *.
      destruct Hin' as [?|[->|?]]; [by left| |by right]. congruence.
Qed.

Lemma net_remove_all q0 q (a : AggregateUtCacheModifier M) :
  NoDup (hashes q) → net_change q0 q (m_transactionChangeTracker a) →
  net_change q0 [] (m_transactionChangeTracker (foldl (λ a info, track (tracker_remove info) a) a q)).
Proof.
  revert a. induction q as [|info q IH]; intros a Hu Hn; [done|]. simpl. apply IH; [by apply NoDup_cons in Hu as [_ ?]|].
  exact (net_remove q0 [] info q _ Hu Hn).
Qed.

Lemma net_step n q0 q (a : AggregateUtCacheModifier M) op :
  R (S n) (m_modifier a) q → net_change q0 q (m_transactionChangeTracker a) →
  net_change q0 (fst (queue_step max q op)) (m_transactionChangeTracker (fst (mod_step a op)))
  ∧ m_subscriber (fst (mod_step a op)) = m_subscriber a.
Proof.
  intros Hr Hn. assert (R n (m_modifier a) q) as Hr' by (eapply repr_weaken; [|exact Hr]; lia). pose proof (repr_unique _ _ _ Hr) as Hu.
  destruct op as [info|hash| | |key]; cbn [mod_step queue_step]; [| | |done|done].
  - simpl. unfold agg_add. destruct (repr_add n _ _ info Hr) as (m' & -> & Hm). unfold queue_add in *.
    destruct (_ || _) eqn:E; cbn [fst snd] in *; [done|]. split; [|done].
    apply orb_false_iff in E as [_ E%bool_decide_eq_false]. by apply net_add.
  - change (mod_remove (M:=AggregateUtCacheModifier M)) with (agg_remove (M:=M)). unfold agg_remove. destruct (repr_remove n _ _ hash Hr') as (m' & -> & Hm).
    destruct (decide (hash ∈ hashes q)) as [Hh|Hh]; [|by rewrite queue_remove_absent].
    destruct (hashes_split _ _ Hh) as (q1 & info & q2 & -> & <-). rewrite queue_remove_split by done. cbn [fst snd].
    split; [|done]. by apply net_remove.
  - simpl. unfold agg_removeAll. destruct (repr_removeAll n _ _ Hr') as (m' & -> & Hm). cbn [fst]. split; [by apply net_remove_all|].
    by rewrite track_all_subscriber.
Qed.

Lemma net_trace ops n q0 q (a : AggregateUtCacheModifier M) :
  R (length ops + n) (m_modifier a) q → net_change q0 q (m_transactionChangeTracker a) →
  net_change q0 (fst (trace (queue_step max) q ops)) (m_transactionChangeTracker (fst (trace mod_step a ops)))
  ∧ m_subscriber (fst (trace mod_step a ops)) = m_subscriber a.
Proof.
  revert a q. induction ops as [|op ops IH]; intros a q Hr Hn; [done|]. simpl.
  destruct (net_step (length ops + n) q0 q a op Hr Hn) as [Hn' Hs].
  pose proof (aggregate_step_repr (length ops + n) a q op Hr) as Hr'.
  destruct (mod_step a op) as [a' r], (queue_step max q op) as [q' r']. cbn [fst snd] in *.
  destruct (IH a' q' Hr' Hn') as [Hn2 Hs2]. destruct (trace mod_step a' ops), (trace (queue_step max) q' ops). cbn [fst] in *.
  split; [done|congruence].
Qed.

(** The aggregate cache tells its subscriber the net changes of a session.
    A session runs any calls through a modifier of the aggregate cache and ends
    when the modifier is destroyed.  The subscriber is then told the removed
    transactions, if any, then the added ones, if any, and to flush: removed are
    the hashes that were in the cache before and are not after the session, and
    added those that are there after and were not before; transactions that
    came and went in between are not mentioned. *)
Theorem aggregate_reports_net_changes (m : M) (q0 : list TransactionInfo) (events : list UtEvent) (ops : list UtOp) :
  R (length ops) m q0 →
  ∃ (added removed : gmap (list Z) TransactionInfo),
    m_subscriber (agg_flush (fst (trace mod_step (new_AggregateUtCacheModifier m events) ops)))
    = events ++ (if bool_decide (removed = ∅) then [] else [NotifyRemoves removed])
        ++ (if bool_decide (added = ∅) then [] else [NotifyAdds added]) ++ [Flush]
    ∧ (let q := fst (trace (queue_step max) q0 ops) in
       (∀ hash, is_Some (removed !! hash) ↔ hash ∈ hashes q0 ∧ hash ∉ hashes q)
       ∧ (∀ hash, is_Some (added !! hash) ↔ hash ∈ hashes q ∧ hash ∉ hashes q0)
       ∧ (∀ hash info, added !! hash = Some info → info ∈ q ∧ ti_EntityHash info = hash)).
Proof.
  intros Hr. rewrite <-(Nat.add_0_r (length ops)) in Hr.
  destruct (net_trace ops 0 q0 q0 (new_AggregateUtCacheModifier m events) Hr) as [[Ha Hrm Hi] Hs].
  { constructor; cbn; setoid_rewrite lookup_empty; [| |done]; intros h; (split; [by intros []|tauto]). }
  destruct (trace mod_step (new_AggregateUtCacheModifier m events) ops) as [a rs]. cbn [fst] in *.
  exists (m_addedTransactionInfos (m_transactionChangeTracker a)), (m_removedTransactionInfos (m_transactionChangeTracker a)).
  unfold agg_flush. cbn [m_subscriber]. by rewrite Hs.
Qed.

End aggregate_laws.

(** * Readers *)

Fixpoint for_each_queue {S} (consumer : TransactionInfo → S → S * bool) (q : list TransactionInfo) (s : S) : S :=
  match q with
  | [] => s
  | info :: q => let '(s, goOn) := consumer info s in if goOn then for_each_queue consumer q s else s
  end.

Lemma for_each_data_queue {S} (consumer : TransactionInfo → S → S * bool) data s :
  for_each_data consumer data s = for_each_queue consumer data.*2 s.
Proof. revert s. induction data as [|[id info] data IH]; intros s; [done|]. simpl. destruct (consumer info s) as [s' []]; [apply IH|done]. Qed.

Lemma queue_step_length max q op : 0 ≤ max → Z.of_nat (length q) ≤ max → Z.of_nat (length (fst (queue_step max q op))) ≤ max.
Proof.
  intros Hmax Hq. destruct op as [info|hash| | |key]; cbn [queue_step fst]; try done.
  - unfold queue_add. destruct (_ || _) eqn:E; [done|]. apply orb_false_iff in E as [E _]. zbool. cbn [fst]. rewrite length_app. cbn [length]. lia.
  - unfold queue_remove. cbn [fst]. pose proof (length_filter (λ info, ti_EntityHash info ≠ hash) q). lia.
Qed.

Lemma queue_trace_length max q ops :
  0 ≤ max → Z.of_nat (length q) ≤ max → Z.of_nat (length (fst (trace (queue_step max) q ops))) ≤ max.
Proof.
  intros Hmax. revert q. induction ops as [|op ops IH]; intros q Hq; [done|]. simpl. pose proof (queue_step_length max q op Hmax Hq) as Hs.
  destruct (queue_step max q op) as [q' r]. specialize (IH q' Hs). by destruct (trace (queue_step max) q' ops).
Qed.

(** C16. The cache of unconfirmed transactions is a bounded queue without
    repetitions.  On every sequence of fewer than 2^64 calls the cache in memory,
    with its ids, its lookup table and its counters, answers as a list does to
    which transactions are appended unless it is full or their hash is known,
    and from which they are removed by hash: no call throws, the counters give
    the number of transactions of an account, and the views show the list in the
    order of insertion. *)
Theorem MemoryUtCache_refines_queue options ops :
  0 ≤ MaxCacheSize options → Z.of_nat (length ops) < 2 ^ 64 →
  let '(c, responses) := trace mod_step (new_MemoryUtCache options) ops in
  let '(q, expected) := trace (queue_step (MaxCacheSize options)) [] ops in
  responses = expected ∧ NoDup (hashes q) ∧ Z.of_nat (length q) ≤ MaxCacheSize options
  ∧ ut_size c = Z.of_nat (length q) ∧ (∀ hash, ut_contains hash c = bool_decide (hash ∈ hashes q))
  ∧ shortHashes c = (λ info, ToShortHash (ti_EntityHash info)) <$> q
  ∧ ∀ (S : Type) (consumer : TransactionInfo → S → S * bool) s, forEach consumer c s = for_each_queue consumer q s.
Proof.
  intros Hmax Hops. pose proof (new_MemoryUtCache_repr options (length ops) Hops) as Hr. rewrite <-(Nat.add_0_r (length ops)) in Hr.
  destruct (trace_repr _ (ut_repr (MaxCacheSize options)) ops 0 _ _ Hr) as [Hf Hs].
  pose proof (queue_trace_length (MaxCacheSize options) [] ops Hmax Hmax) as Hl.
  destruct (trace mod_step _ ops) as [c rs], (trace (queue_step _) [] ops) as [q expected]. cbn [fst snd] in *.
  split_and!; [done|apply Hf|done|exact (repr_size _ _ _ Hf)| | |].
  - intros hash. unfold ut_contains. apply bool_decide_ext. by eapply ut_repr_known.
  - unfold shortHashes. rewrite <-(ut_queue _ _ _ _ Hf). by rewrite <-list_fmap_compose.
  - intros S consumer s. unfold forEach. by rewrite for_each_data_queue, (ut_queue _ _ _ _ Hf).
Qed.

(** ** Fees *)

(** The minimum fee of a transaction has 32 bits.  The product of fee
    multiplier, size and fee interest is computed with 32 bits: the fee of a
    transaction whose type is not limited is the exact quotient while the
    product is below 2^32, and it never exceeds 2^32 - 1 divided by the
    denominator, so that greater fees are not asked for. *)
Theorem calculateTransactionFee_width calculator feeMultiplier transaction feeInterest feeInterestDenominator height :
  0 < feeInterestDenominator → 0 ≤ feeMultiplier → 0 ≤ feeInterest → 0 ≤ transaction_size calculator transaction height →
  isTransactionFeeLimited (Transaction_Type transaction) (EntityVersion transaction) calculator = false →
  ∃ fee, calculateTransactionFee calculator feeMultiplier transaction feeInterest feeInterestDenominator height = Ok fee
    ∧ 0 ≤ fee ≤ (2 ^ 32 - 1) / feeInterestDenominator
    ∧ (feeMultiplier * transaction_size calculator transaction height * feeInterest < 2 ^ 32 → 0 < feeInterest →
       fee = feeMultiplier * transaction_size calculator transaction height * feeInterest / feeInterestDenominator).
Proof.
  intros Hd Hm Hi Hsz Hlim. unfold calculateTransactionFee. rewrite (proj2 (Z.eqb_neq _ _)) by lia. rewrite Hlim.
  set (size := transaction_size _ _ _) in *. eexists. split; [done|]. split.
  - pose proof (wrap_range 32 (u32 (feeMultiplier * size) * feeInterest) ltac:(lia)) as [H0 H1]. split; [by apply Z.div_pos|].
    apply Z.div_le_mono; lia.
  - intros Hlt Hpos. rewrite (wrap_small 32 (feeMultiplier * size)), wrap_small; [done| |]; unfold in_range; nia.
Qed.

(** ** Transactions for peers *)

Definition total_size (transactions : list (list Z)) : Z := foldr Z.add 0 (Size <$> transactions).

Section unknown_spec.
Context (calculator : TransactionFeeCalculator) (minFeeMultiplier : Z) (knownShortHashes : gset Z).
Context (feeInterest feeInterestDenominator : Z).

(** A transaction a peer does not know and that pays enough. *)
Definition wanted (info : TransactionInfo) : Prop :=
  ToShortHash (ti_EntityHash info) ∉ knownShortHashes
  ∧ ∃ fee, calculateTransactionFee calculator minFeeMultiplier (ti_pEntity info) feeInterest feeInterestDenominator max64 = Ok fee
           ∧ fee ≤ MaxFee (ti_pEntity info).

#[export] Instance wanted_dec info : Decision (wanted info).
Proof.
  unfold wanted. apply and_dec; [apply _|].
  destruct (calculateTransactionFee _ _ _ _ _ _) as [fee|e]; [|right; by intros (? & ? & _)].
  destruct (decide (fee ≤ MaxFee (ti_pEntity info))); [left; eauto|right; naive_solver].
Qed.

Lemma collect_unknown_prefix max total data :
  feeInterestDenominator ≠ 0 → max < 2 ^ 64 - 2 ^ 32 → 0 ≤ total ≤ max → Forall (λ p, in_range 32 (Size (ti_pEntity (snd p)))) data →
  ∃ transactions rest,
    collect_unknown calculator minFeeMultiplier knownShortHashes feeInterest feeInterestDenominator max total data = Ok transactions
    ∧ ti_pEntity <$> filter wanted data.*2 = transactions ++ rest
    ∧ total + total_size transactions ≤ max
    ∧ (∀ t rest', rest = t :: rest' → max < total + total_size transactions + Size t).
Proof.
  intros Hd Hmax. revert total. induction data as [|[id info] data IH]; intros total Ht Hsz.
  { exists [], []. split_and!; [done|done|cbn; lia|done]. }
  apply Forall_cons in Hsz as [Hsz Hall]. unfold in_range in Hsz. cbn [snd] in Hsz. cbn [collect_unknown fmap list_fmap snd]. rewrite filter_cons.
  destruct (calculateTransactionFee _ _ _ _ _ _) as [fee|e] eqn:Hfee.
  2: { unfold calculateTransactionFee in Hfee. rewrite (proj2 (Z.eqb_neq _ _)) in Hfee by done. by destruct (isTransactionFeeLimited _ _ _). }
  cbn [mbind result_bind]. destruct (MaxFee (ti_pEntity info) <? fee) eqn:Hlow; zbool.
  { rewrite decide_False; [by apply IH|]. intros (_ & f & Hf & Hle). rewrite Hfee in Hf. injection Hf as <-. lia. }
  case_bool_decide as Hknown. { rewrite decide_False; [by apply IH|]. by intros [? _]. }
  rewrite decide_True by (split; eauto). rewrite wrap_small by (unfold in_range; lia).
  destruct (max <? total + Size (ti_pEntity info)) eqn:Hbig; zbool.
  - exists [], (ti_pEntity info :: (ti_pEntity <$> filter wanted data.*2)). split_and!; [done|done|cbn; lia|].
    intros t rest' [= <- _]. cbn. lia.
  - destruct (IH (total + Size (ti_pEntity info)) ltac:(lia) Hall) as (ts & rest & -> & Heq & Hle & Hnext).
    exists (ti_pEntity info :: ts), rest. cbn [mbind result_bind]. split_and!; [done|by cbn; rewrite Heq| |].
    + unfold total_size in *. cbn. lia.
    + intros t rest' Hr. specialize (Hnext t rest' Hr). unfold total_size in *. cbn. lia.
Qed.

(** A peer gets the wanted transactions in the order of the cache, as many as
    the response has room for. *)
Theorem unknownTransactions_longest_prefix max n c q :
  ut_repr max n c q → feeInterestDenominator ≠ 0 → 0 ≤ MaxResponseSize (m_options c) < 2 ^ 64 - 2 ^ 32 →
  Forall (λ info, in_range 32 (Size (ti_pEntity info))) q →
  ∃ transactions rest,
    unknownTransactions calculator minFeeMultiplier knownShortHashes feeInterest feeInterestDenominator c = Ok transactions
    ∧ ti_pEntity <$> filter wanted q = transactions ++ rest
    ∧ total_size transactions ≤ MaxResponseSize (m_options c)
    ∧ (∀ t rest', rest = t :: rest' → MaxResponseSize (m_options c) < total_size transactions + Size t).
Proof.
  intros Hr Hd Hmax Hall. unfold unknownTransactions. rewrite <-(ut_queue _ _ _ _ Hr) in Hall |- *. rewrite Forall_fmap in Hall.
  apply collect_unknown_prefix; [done|lia|lia|done].
Qed.

End unknown_spec.

(** ** Selections *)

Lemma collects_run {S} (s : S) count filter_ q acc :
  Z.of_nat (length acc) < count →
  for_each_queue (collects (λ s, (s, false)) count filter_) q (acc, s)
  = (acc ++ take (Z.to_nat count - length acc) (filter (λ info, filter_ info = true) q), s).
Proof.
  revert acc. induction q as [|info q IH]; intros acc Hacc; [by rewrite filter_nil, take_nil, app_nil_r|]. cbn [for_each_queue collects]. rewrite filter_cons.
  destruct (filter_ info) eqn:Hf; [rewrite decide_True by done|rewrite decide_False by done].
  - rewrite length_app. cbn [length]. destruct (_ =? count) eqn:E; zbool.
    + replace (Z.to_nat count - length acc)%nat with 1%nat by lia. done.
    + cbn [negb]. rewrite IH by (rewrite length_app; cbn [length]; lia). rewrite length_app, <-app_assoc. cbn [length].
      replace (Z.to_nat count - length acc)%nat with (Datatypes.S (Z.to_nat count - (length acc + 1))) by lia. done.
  - rewrite (proj2 (Z.eqb_neq _ _)) by lia. cbn [negb]. by apply IH.
Qed.

(** Without a stop, the first [count] transactions that pass the filter. *)
Theorem first_transactions_selected {S} (s : S) max n c q count filter_ :
  ut_repr max n c q → 0 ≤ count →
  GetFirstTransactionInfoPointers_filter (λ s, (s, false)) count filter_ c s
  = (take (Z.to_nat count) (filter (λ info, filter_ info = true) q), s).
Proof.
  intros Hr Hc. unfold GetFirstTransactionInfoPointers_filter, forEach. rewrite for_each_data_queue, (ut_queue _ _ _ _ Hr).
  destruct (0 =? count) eqn:E; zbool; cbn [negb]; [by rewrite <-E|]. rewrite collects_run by (cbn [length]; lia). cbn [length app]. by rewrite Nat.sub_0_r.
Qed.

(** * Samples *)

(** A transaction of [size] bytes signed by [signer], with a maximum fee. *)
Definition sample_entity (size signer fee : Z) : list Z :=
  le_bytes 4 size ++ replicate 64 0 ++ replicate 32 signer ++ replicate 6 0 ++ le_bytes 8 fee ++ le_bytes 8 1000.

Definition sample_info (n signer : Z) : TransactionInfo :=
  {| ti_pEntity := sample_entity 1000 signer 5000; ti_EntityHash := replicate 32 n; ti_AssociatedHeight := 0;
     ti_MerkleComponentHash := replicate 32 n; ti_OptionalExtractedAddresses := None |}.

Definition sample_options : MemoryCacheOptions := {| MaxResponseSize := 2500; MaxCacheSize := 3 |}.
Definition sample_calculator : TransactionFeeCalculator := {| m_limitedFeeTransactions := ∅; m_transactionSizeSuppliers := ∅ |}.

(** A full cache refuses, a known hash is refused, a removed one can come back
    behind the others. *)
Definition sample_ops : list UtOp :=
  [OpAdd (sample_info 1 7); OpAdd (sample_info 2 8); OpAdd (sample_info 1 9); OpAdd (sample_info 3 7); OpAdd (sample_info 4 7);
   OpCount (replicate 32 7); OpRemove (replicate 32 1); OpCount (replicate 32 7); OpAdd (sample_info 1 7); OpRemove (replicate 32 5)].

Lemma MemoryUtCache_refines_queue_witness :
  snd (trace mod_step (new_MemoryUtCache sample_options) sample_ops)
  = [R_Added (Ok true); R_Added (Ok true); R_Added (Ok false); R_Added (Ok true); R_Added (Ok false); R_Number 2;
     R_Removed (Ok (Some (sample_info 1 7))); R_Number 1; R_Added (Ok true); R_Removed (Ok None)]
  ∧ shortHashes (fst (trace mod_step (new_MemoryUtCache sample_options) sample_ops)) = [33686018; 50529027; 16843009].
Proof.
  pose proof (MemoryUtCache_refines_queue sample_options sample_ops ltac:(by vm_compute) ltac:(by vm_compute)) as H.
  destruct (trace mod_step _ sample_ops) as [c rs], (trace (queue_step _) [] sample_ops) as [q expected] eqn:Hq.
  destruct H as (-> & _ & _ & _ & _ & Hs & _). cbn [fst snd]. rewrite Hs. clear Hs. revert Hq. vm_compute. by intros [= <- <-].
Defined.

(** One transaction leaves, one comes and stays, one comes and goes. *)
Lemma aggregate_reports_net_changes_witness :
  ∃ added removed : gmap (list Z) TransactionInfo,
    m_subscriber (agg_flush (fst (trace mod_step
      (new_AggregateUtCacheModifier (fst (ut_add (sample_info 1 7) (new_MemoryUtCache sample_options))) [])
      [OpAdd (sample_info 2 7); OpRemove (replicate 32 1); OpAdd (sample_info 3 8); OpRemove (replicate 32 3)])))
    = [NotifyRemoves removed; NotifyAdds added; Flush]
    ∧ is_Some (removed !! replicate 32 1) ∧ is_Some (added !! replicate 32 2) ∧ added !! replicate 32 3 = None.
Proof.
  destruct (ut_add_repr 3 4 (new_MemoryUtCache sample_options) [] (sample_info 1 7)) as (m & Hm & Hr).
  { apply (new_MemoryUtCache_repr sample_options 5). by vm_compute. }
  destruct (aggregate_reports_net_changes 3 (ut_repr 3) m [sample_info 1 7] []
    [OpAdd (sample_info 2 7); OpRemove (replicate 32 1); OpAdd (sample_info 3 8); OpRemove (replicate 32 3)] Hr)
    as (added & removed & Hsub & Hrem & Hadd & _).
  exists added, removed. rewrite Hm. cbn [fst].
  assert (is_Some (removed !! replicate 32 1)) as H1 by (apply Hrem, (bool_decide_unpack _); by vm_compute).
  assert (is_Some (added !! replicate 32 2)) as H2 by (apply Hadd, (bool_decide_unpack _); by vm_compute).
  assert (added !! replicate 32 3 = None) as H3 by (apply eq_None_not_Some; rewrite Hadd; apply (bool_decide_unpack _); by vm_compute).
  rewrite Hsub, !bool_decide_false; [done| |].
  - intros ->. by destruct H2.
  - intros ->. by destruct H1.
Defined.

(** 4294968 * 1000 is 704 more than 2^32: a transaction that has to pay more than
    four billion units is asked for 704. *)
Lemma calculateTransactionFee_width_witness :
  calculateTransactionFee sample_calculator 3 (sample_entity 1000 7 5000) 1 1 max64 = Ok 3000
  ∧ calculateTransactionFee sample_calculator 4294968 (sample_entity 1000 7 5000) 1 1 max64 = Ok 704.
Proof.
  split; [|by vm_compute].
  destruct (calculateTransactionFee_width sample_calculator 3 (sample_entity 1000 7 5000) 1 1 max64) as (fee & -> & _ & Hfee);
    [lia|lia|lia|by vm_compute|by vm_compute|].
  f_equal. apply Hfee; [by vm_compute|lia].
Defined.

End UtCache.
