(* ===== verification/UtUpdater.v ===== *)
(** Model of the updater of unconfirmed transactions (catapult/chain/
    UtUpdater.cpp), of its throttles (extensions/sync/src/PredicateUtils.cpp,
    TransactionSpamThrottle.cpp) and of the choice of the transactions to
    broadcast (DispatcherService.cpp).

    The updater keeps a detached delta of the caches in which the transactions
    of the unconfirmed cache are executed.  New transactions are executed on top
    of it; when blocks have been committed, the delta is made anew and reverted
    and remaining transactions are executed on it.  The caches, the subscriber
    that processes notifications and the unconfirmed cache are the models of
    CatapultCache.v, Notifications.v and UtCache.v; the plugins are parameters.
    The file shows that the delta, whenever it can be locked, is what executing
    exactly the cached transactions makes of the confirmed state. *)
From stdpp Require Import base tactics numbers option list gmap.
From S2P Require Import Prelude Streams Notifications CatapultCache BlockElements StatementBuilder BlockExecution Consumers UtCache.

Local Open Scope Z_scope.

Module UtUpdater.
Import Stream Notifications CatapultCache Elements StatementBuilder BlockExecution Consumers UtCache.

Inductive UpdateType := Update_New | Update_Invalid | Update_Neutral.

#[global] Instance UpdateType_eq_dec : EqDecision UpdateType.
Proof. solve_decision. Defined.

Inductive TransactionSource := Source_New | Source_Reverted | Source_Existing.

#[global] Instance TransactionSource_eq_dec : EqDecision TransactionSource.
Proof. solve_decision. Defined.

Definition Failure_Chain_Unconfirmed_Cache_Too_Full : Z := MakeValidationResult Severity_Failure 0xFF 201 0.
Definition Failure_Chain_Transaction_Expired : Z := MakeValidationResult Severity_Failure 0xFF 202 0.

Record FailureInfo := { fi_Transaction : list Z; fi_Hash : list Z; fi_EffectiveHeight : Z; fi_Result : Z }.

(** A cache gives out a modifier, and takes its effects when it is destroyed. *)
Class UtCacheAccess (K M : Type) := { open_modifier : K → M; close_modifier : M → K }.

#[export] Instance MemoryUtCache_access : UtCacheAccess MemoryUtCache MemoryUtCache := {| open_modifier := id; close_modifier := id |}.

(** The aggregate cache is the cache it delegates to and its subscriber. *)
#[export] Instance AggregateUtCache_access {M} : UtCacheAccess (M * list UtEvent) (AggregateUtCacheModifier M) := {|
  open_modifier k := new_AggregateUtCacheModifier (fst k) (snd k);
  close_modifier a := let a := agg_flush a in (m_modifier a, m_subscriber a) |}.

(** Locking gives out the delta itself: what is done to it stays. *)
Definition keep_delta {V} (delta : CatapultCacheDelta V) (d : CatapultCacheDetachedDelta V) : CatapultCacheDetachedDelta V :=
  {| m_detachedSubViews := zip_with (λ (o : option (LockableCacheDelta V)) (v : option V),
       match o, v with
       | Some l, Some v => Some {| m_cacheDelta := v; m_initialCommitCount := m_initialCommitCount l |}
       | o, _ => o
       end) (m_detachedSubViews d) delta |}.

(** * Throttles *)

Section throttles.
Context {M : Type} `{!UtModifier M}.

Definition CreateDefaultUtUpdaterThrottle (maxCacheSize : Z) (m : M) : bool := maxCacheSize <=? mod_size m.

Record SpamThrottleConfiguration := { MaxBoostFee : Z; TotalImportance : Z; Throttle_MaxCacheSize : Z; MaxBlockSize : Z }.

Definition GetEffectiveImportance (fee importance : Z) (config : SpamThrottleConfiguration) : result Z :=
  let maxImportanceBoost := TotalImportance config / 100 in
  let maxFee := Z.min (MaxBoostFee config) fee in
  if MaxBoostFee config =? 0 then Throw undefined_behaviour
  else
    let attemptedImportanceBoost := u64 (maxImportanceBoost * maxFee) / MaxBoostFee config in
    Ok (add64 importance attemptedImportanceBoost).

(** The number of transactions an account may have is a floating point formula,
    [GetMaxTransactions]; the importance of an account is that of the importance view. *)
Definition TransactionSpamThrottle {Cache} (GetMaxTransactions : Z → Z → Z → Z → Z)
    (getAccountImportanceOrDefault : Cache → list Z → Z → Z) (isBonded : list Z → bool) (configAt : Z → SpamThrottleConfiguration)
    (info : TransactionInfo) (source : TransactionSource) (cacheHeight : Z) (cache : Cache) (m : M) : result bool :=
  let cacheSize := mod_size m in
  let throttleConfig := configAt cacheHeight in
  if Throttle_MaxCacheSize throttleConfig <=? cacheSize then Ok true
  else if cacheSize <? MaxBlockSize throttleConfig then Ok false
  else if isBonded (ti_pEntity info) || bool_decide (Source_Reverted = source) then Ok false
  else
    let signer := Signer (ti_pEntity info) in
    let importance := getAccountImportanceOrDefault cache signer cacheHeight in
    effectiveImportance ← GetEffectiveImportance (MaxFee (ti_pEntity info)) importance throttleConfig;
    let maxTransactions := GetMaxTransactions cacheSize (Throttle_MaxCacheSize throttleConfig) effectiveImportance
                             (TotalImportance throttleConfig) in
    Ok (maxTransactions <=? mod_count signer m).

End throttles.

(** [MakeEntityType(Transaction, Aggregate, 2)]: bonded aggregate transactions. *)
Definition IsBondedTransaction (transaction : list Z) : bool := Transaction_Type transaction =? 0x4241.

(** * The updater *)

Section updater.
Context {Notification CatapultState Config C V K M : Type}.
Context `{!SubCacheView V, !SubCache C V, !UtModifier M, !UtCacheAccess K M}.
Abbreviation CacheDelta := (CatapultCacheDelta V).
Abbreviation State := (ObserverState Notification CacheDelta CatapultState BlockStatementBuilder).
Context (NotificationType NotificationSize : Notification → Z).
Context (publish : EntityInfo → list Notification * result unit).
Context (validator : Validator Notification CacheDelta Config).
Context (observer : Observer Notification CacheDelta CatapultState BlockStatementBuilder Config).
Context (config_at : Z → Config) (MinFeeMultiplier FeeInterest FeeInterestDenominator : Config → Z).
Context (feeCalculator : TransactionFeeCalculator).
(** The state of the chain is not looked at: a new one stands in for it. *)
Context (dummyState : CatapultState).
Context (throttle : TransactionInfo → TransactionSource → Z → CacheDelta → M → result bool).

(** The failures, the modifier and the observer state, with the delta in it. *)
Record ApplyState := {
  as_Modifier : M;
  as_State : State;
  as_FailureTransactions : list FailureInfo;
}.

Definition set_Modifier (m : M) (a : ApplyState) : ApplyState :=
  {| as_Modifier := m; as_State := as_State a; as_FailureTransactions := as_FailureTransactions a |}.
Definition set_State (s : State) (a : ApplyState) : ApplyState :=
  {| as_Modifier := as_Modifier a; as_State := s; as_FailureTransactions := as_FailureTransactions a |}.
Definition add_failure (f : FailureInfo) (a : ApplyState) : ApplyState :=
  {| as_Modifier := as_Modifier a; as_State := as_State a; as_FailureTransactions := as_FailureTransactions a ++ [f] |}.

Definition on_modifier {A} (f : Exec M A) : Exec ApplyState A := λ a,
  let '(m, r) := f (as_Modifier a) in (set_Modifier m a, r).
Definition on_state {A} (f : Exec State A) : Exec ApplyState A := λ a,
  let '(s, r) := f (as_State a) in (set_State s a, r).

(** Publishes the entity to a new subscriber and gives its result. *)
Definition process_entity (v : ValidatorContext Config) (c : ObserverContext Config) (entityInfo : EntityInfo) : Exec State Z := λ s,
  let '(notifications, r) := publish entityInfo in
  match (for_each (sub_notify NotificationType NotificationSize validator v observer c) notifications ≫= λ _, ends r) (new_Subscriber, s) with
  | ((sub, s'), Ok _) => (s', Ok (m_aggregateResult sub))
  | ((_, s'), Throw e) => (s', Throw e)
  end.

Definition failed (info : TransactionInfo) (effectiveHeight result : Z) : FailureInfo :=
  {| fi_Transaction := ti_pEntity info; fi_Hash := ti_EntityHash info; fi_EffectiveHeight := effectiveHeight; fi_Result := result |}.

(** The body of the loop. *)
Definition apply_one (cacheHeight currentTime : Z) (source : TransactionSource) (filter_ : TransactionInfo → bool)
    (info : TransactionInfo) : Exec ApplyState unit :=
  let effectiveHeight := add64 cacheHeight 1 in
  let config := config_at effectiveHeight in
  let v := {| vc_Config := config; vc_Height := effectiveHeight; vc_BlockTime := currentTime |} in
  let c := new_ObserverContext false config effectiveHeight currentTime Commit false in
  let entity := ti_pEntity info in
  if Deadline entity <=? currentTime
  then modify (add_failure (failed info effectiveHeight Failure_Chain_Transaction_Expired))
  else if negb (filter_ info) then mret tt
  else
    minTransactionFee ← (λ a, (a, calculateTransactionFee feeCalculator (MinFeeMultiplier config) entity (FeeInterest config)
                                    (FeeInterestDenominator config) max64));
    if MaxFee entity <? minTransactionFee then mret tt
    else
      throttled ← (λ a, (a, throttle info source cacheHeight (os_Cache (as_State a)) (as_Modifier a)));
      if (throttled : bool)
      then modify (add_failure (failed info effectiveHeight Failure_Chain_Unconfirmed_Cache_Too_Full))
      else
        added ← on_modifier (mod_add info);
        if negb added then mret tt
        else
          on_state (on_cache (backupChanges true)) ≫= λ _,
          result ← on_state (process_entity v c
            {| ei_entity := entity; ei_hash := ti_EntityHash info; ei_associatedBlockHeader := None;
               ei_associatedHeight := effectiveHeight |});
          if IsValidationResultSuccess result then mret tt
          else
            (if IsValidationResultFailure result then modify (add_failure (failed info effectiveHeight result)) else mret tt) ≫= λ _,
            on_state (on_cache restoreChanges) ≫= λ _,
            on_modifier (mod_remove (ti_EntityHash info)) ≫= λ _, mret tt.

(** Each call has a state of its own besides the delta. *)
Definition apply (cacheHeight currentTime : Z) (utInfos : list TransactionInfo) (source : TransactionSource)
    (filter_ : TransactionInfo → bool) (m : M) (delta : CacheDelta) (failures : list FailureInfo) : ApplyState * result unit :=
  for_each (apply_one cacheHeight currentTime source filter_) utInfos
    {| as_Modifier := m;
       as_State := {| os_Cache := delta; os_State := dummyState; os_BlockStatementBuilder := new_BlockStatementBuilder;
                      os_Notifications := [] |};
       as_FailureTransactions := failures |}.

(** The updater: the unconfirmed cache, the detached delta, and what the failed
    transaction sink was told. *)
Record UtUpdater := {
  m_transactionsCache : K;
  m_detachedCatapultCache : RelockableDetachedCatapultCache V;
  m_failedTransactionSink : list FailureInfo;
}.

Definition new_UtUpdater (transactionsCache : K) (confirmedCatapultCache : CatapultCache C) : UtUpdater :=
  {| m_transactionsCache := transactionsCache; m_detachedCatapultCache := rebase confirmedCatapultCache; m_failedTransactionSink := [] |}.

Fixpoint addAll (utInfos : list TransactionInfo) (currentTime : Z) : Exec M unit :=
  match utInfos with
  | [] => mret tt
  | info :: utInfos =>
      if Deadline (ti_pEntity info) <=? currentTime then addAll utInfos currentTime
      else mod_add info ≫= λ _, addAll utInfos currentTime
  end.

(** Matches failures with infos; both are in the same order. *)
Fixpoint mark_failures (utInfos : list TransactionInfo) (failures : list FailureInfo) : list UpdateType :=
  match utInfos with
  | [] => []
  | info :: utInfos =>
      match failures with
      | f :: failures' =>
          if bool_decide (ti_EntityHash info = fi_Hash f) then Update_Invalid :: mark_failures utInfos failures'
          else Update_New :: mark_failures utInfos failures
      | [] => Update_New :: mark_failures utInfos []
      end
  end.

Definition with_delta (height : Z) (delta : CacheDelta) (d : CatapultCacheDetachedDelta V) : RelockableDetachedCatapultCache V :=
  {| m_cacheHeight := height; m_pLockableUnconfirmedCatapultCache := keep_delta delta d |}.

(** The first overload, with the confirmed cache as it is when the lock is tried. *)
Definition update (k : CatapultCache C) (currentTime : Z) (utInfos : list TransactionInfo) : Exec UtUpdater (list UpdateType) := λ u,
  let detached := m_detachedCatapultCache u in
  let modifier := open_modifier (m_transactionsCache u) in
  match getAndTryLock k detached with
  | None =>
      let '(modifier, r) := addAll utInfos currentTime modifier in
      ({| m_transactionsCache := close_modifier modifier; m_detachedCatapultCache := detached;
          m_failedTransactionSink := m_failedTransactionSink u |},
       match r with Ok _ => Ok ((λ _, Update_Neutral) <$> utInfos) | Throw e => Throw e end)
  | Some delta =>
      let '(a, r) := apply (m_cacheHeight detached) currentTime utInfos Source_New (λ _, true) modifier delta [] in
      let d := with_delta (m_cacheHeight detached) (os_Cache (as_State a)) (m_pLockableUnconfirmedCatapultCache detached) in
      match r with
      | Throw e =>
          ({| m_transactionsCache := close_modifier (as_Modifier a); m_detachedCatapultCache := d;
              m_failedTransactionSink := m_failedTransactionSink u |}, Throw e)
      | Ok _ =>
          ({| m_transactionsCache := close_modifier (as_Modifier a); m_detachedCatapultCache := d;
              m_failedTransactionSink := m_failedTransactionSink u ++ as_FailureTransactions a |},
           Ok (mark_failures utInfos (as_FailureTransactions a)))
      end
  end.

(** The second overload; [time1] and [time2] are the times of the two passes. *)
Definition update_confirmed (k : CatapultCache C) (time1 time2 : Z) (confirmedTransactionHashes : gset (list Z))
    (utInfos : list TransactionInfo) : Exec UtUpdater unit := λ u,
  let '(modifier, originalTransactionInfos) := mod_removeAll (open_modifier (m_transactionsCache u)) in
  let '(detached, lock) := rebaseAndLock k in
  let height := m_cacheHeight detached in
  let finish (a : ApplyState) (failures : list FailureInfo) :=
    {| m_transactionsCache := close_modifier (as_Modifier a);
       m_detachedCatapultCache := with_delta height (os_Cache (as_State a)) (m_pLockableUnconfirmedCatapultCache detached);
       m_failedTransactionSink := m_failedTransactionSink u ++ failures |} in
  match lock with
  | None => ({| m_transactionsCache := close_modifier modifier; m_detachedCatapultCache := detached;
                m_failedTransactionSink := m_failedTransactionSink u |}, Throw undefined_behaviour)
  | Some delta =>
      match apply height time1 utInfos Source_Reverted (λ _, true) modifier delta [] with
      | (a, Throw e) => (finish a [], Throw e)
      | (a, Ok _) =>
          match apply height time2 originalTransactionInfos Source_Existing
                  (λ info, negb (bool_decide (ti_EntityHash info ∈ confirmedTransactionHashes)))
                  (as_Modifier a) (os_Cache (as_State a)) (as_FailureTransactions a) with
          | (a, Throw e) => (finish a [], Throw e)
          | (a, Ok _) => (finish a (as_FailureTransactions a), Ok tt)
          end
      end
  end.

(** The transactions that are broadcast. *)
Fixpoint SelectValid (transactionInfos : list TransactionInfo) (updateResults : list UpdateType) : list TransactionInfo :=
  match transactionInfos, updateResults with
  | info :: infos, r :: results =>
      match r with
      | Update_Invalid | Update_Neutral => SelectValid infos results
      | Update_New => info :: SelectValid infos results
      end
  | _, _ => []
  end.

(** * What is needed of caches and plugins *)

Context `{!Equiv V, !ViewEquiv V}.

(** Restoring gives back what was backed up: backups are copies, and observers
    change the elements and not the backups.  It holds for caches whose elements
    are in one delta set (DeltaSetCaches.v), and not for the namespace cache
    (NamespaceBackup.v). *)
Class BackupLaws := {
  backup_equiv (d : CacheDelta) : backupChanges true d ≡ d;
  restore_backup (d : CacheDelta) : restoreChanges (backupChanges true d) ≡ d;
  observer_keeps_backup c n (s s' : State) r : observer c n s = (s', r) → restoreChanges (os_Cache s') ≡ restoreChanges (os_Cache s);
}.

Context `{Hbackup : !BackupLaws}.
Context (max : Z) (R : nat → M → list TransactionInfo → Prop) `{!UtModifierLaws M max R}.

Lemma sub_notify_keeps_backup v c n sub (s : State) st r :
  sub_notify NotificationType NotificationSize validator v observer c n (sub, s) = (st, r) →
  restoreChanges (os_Cache (snd st)) ≡ restoreChanges (os_Cache s).
Proof.
  unfold sub_notify, gets, mbind, exec_bind. destruct (_ <? _); [by intros [= <- _]|]. cbn [fst].
  destruct (IsValidationResultSuccess _); cbn [negb]; [|by intros [= <- _]].
  destruct (sub_validate _ _ _ _ (sub, s)) as [[sub1 s1] r1] eqn:Hv.
  assert (s1 = s) as ->. { unfold sub_validate in Hv. destruct (negb _); [by simplify_eq|]. destruct (validator _ _ _); by simplify_eq. }
  destruct r1 as [[]|]; [|by intros [= <- _]]. cbn [fst]. destruct (IsValidationResultSuccess _); cbn [negb]; [|by intros [= <- _]].
  unfold sub_observe. destruct (negb _); [by intros [= <- _]|]. destruct (observer c n s) as [s2 r2] eqn:Ho. pose proof (observer_keeps_backup _ _ _ _ _ Ho).
  destruct r2; [|by intros [= <- _]]. destruct (negb _); [by intros [= <- _]|]. unfold undo_notify. destruct (_ <? _); [by intros [= <- _]|].
  destruct (negb _); by intros [= <- _].
Qed.

Lemma process_entity_keeps_backup v c info s s' r :
  process_entity v c info s = (s', r) → restoreChanges (os_Cache s') ≡ restoreChanges (os_Cache s).
Proof.
  unfold process_entity. destruct (publish info) as [ns rp].
  assert (∀ ns sub s st r, for_each (sub_notify NotificationType NotificationSize validator v observer c) ns (sub, s) = (st, r) →
    restoreChanges (os_Cache (snd st)) ≡ restoreChanges (os_Cache s)) as Hall.
  { clear s r s' ns rp. induction ns as [|n ns IH]; intros sub s st r; cbn [for_each]; [by intros [= <- _]|]. unfold mbind, exec_bind.
    destruct (sub_notify _ _ _ _ _ _ _ (sub, s)) as [[sub1 s1] r1] eqn:Hn. pose proof (sub_notify_keeps_backup _ _ _ _ _ _ _ Hn) as H1.
    cbn [snd] in H1. destruct r1 as [[]|]; [|by intros [= <- _]]. intros H2%IH. by etransitivity. }
  unfold mbind, exec_bind. destruct (for_each (sub_notify NotificationType NotificationSize validator v observer c) ns (new_Subscriber, s)) as [[sub1 s1] r1] eqn:Hf. pose proof (Hall _ _ _ _ _ Hf) as H1. cbn [snd] in H1.
  destruct r1 as [[]|]; [|by intros [= <- _]]. unfold ends. destruct rp; by intros [= <- _].
Qed.

(** ** Executed transactions *)

Definition validator_context (height time : Z) : ValidatorContext Config :=
  {| vc_Config := config_at height; vc_Height := height; vc_BlockTime := time |}.
Definition observer_context (height time : Z) : ObserverContext Config :=
  new_ObserverContext false (config_at height) height time Commit false.
Definition entity_of (height : Z) (info : TransactionInfo) : EntityInfo :=
  {| ei_entity := ti_pEntity info; ei_hash := ti_EntityHash info; ei_associatedBlockHeader := None; ei_associatedHeight := height |}.

(** The transaction was executed at a time before its deadline, and validated. *)
Definition executes (height : Z) (info : TransactionInfo) (d d' : CacheDelta) : Prop :=
  ∃ time (s s' : State) r, time < Deadline (ti_pEntity info) ∧ os_Cache s = d ∧ os_Cache s' = d'
    ∧ process_entity (validator_context height time) (observer_context height time) (entity_of height info) s = (s', Ok r)
    ∧ IsValidationResultSuccess r = true.

(** One after the other; deltas are looked at up to equivalence. *)
Inductive executed_all (height : Z) : list TransactionInfo → CacheDelta → CacheDelta → Prop :=
| executed_none d d' : d ≡ d' → executed_all height [] d d'
| executed_one q info d d1 d1' d2 d' :
    executed_all height q d d1 → d1 ≡ d1' → executes height info d1' d2 → d2 ≡ d' → executed_all height (q ++ [info]) d d'.

Lemma executed_all_equiv height q d d1 d2 : executed_all height q d d1 → d1 ≡ d2 → executed_all height q d d2.
Proof.
  intros [d' d1' H1|q' info d' e1 e1' e2 d1' H1 He Hx Hd] Heq; [apply executed_none; by etransitivity|].
  eapply executed_one; [done|done|done|by etransitivity].
Qed.

(** ** The loop *)

(** What becomes of the transactions: they are kept, fail, or are dropped. *)
Inductive sorted_out (time : Z) (filter_ : TransactionInfo → bool) : list TransactionInfo → list TransactionInfo → list FailureInfo → Prop :=
| sorted_none : sorted_out time filter_ [] [] []
| sorted_kept info l kept fs :
    time < Deadline (ti_pEntity info) → filter_ info = true → sorted_out time filter_ l kept fs →
    sorted_out time filter_ (info :: l) (info :: kept) fs
| sorted_failed info f l kept fs :
    fi_Hash f = ti_EntityHash info → fi_Transaction f = ti_pEntity info → IsValidationResultFailure (fi_Result f) = true →
    sorted_out time filter_ l kept fs → sorted_out time filter_ (info :: l) kept (f :: fs)
| sorted_dropped info l kept fs :
    time < Deadline (ti_pEntity info) → sorted_out time filter_ l kept fs → sorted_out time filter_ (info :: l) kept fs.

(** One transaction: the queue grows by it or stays. *)
Inductive one_sorted (time : Z) (filter_ : TransactionInfo → bool) (info : TransactionInfo) : list TransactionInfo → list FailureInfo → Prop :=
| one_kept : time < Deadline (ti_pEntity info) → filter_ info = true → one_sorted time filter_ info [info] []
| one_failed f : fi_Hash f = ti_EntityHash info → fi_Transaction f = ti_pEntity info → IsValidationResultFailure (fi_Result f) = true →
    one_sorted time filter_ info [] [f]
| one_dropped : time < Deadline (ti_pEntity info) → one_sorted time filter_ info [] [].

(** What the updater makes of one transaction, when the cache holds the queue
    [q] (in the modifier [m]) and the delta is in [s]: the transactions it keeps
    and the failures it reports, or what a plugin throws.
    - A transaction past its deadline fails with [Failure_Chain_Transaction_Expired].
    - One that is filtered out, or pays less than the minimum fee, is dropped.
    - One that is throttled fails with [Failure_Chain_Unconfirmed_Cache_Too_Full].
    - One that the queue refuses (full, or the hash is there) is dropped.
    - Any other is executed on the delta: with success it is kept, with a failure
      it fails with that result, with a neutral result it is dropped. *)
Definition verdict (h time : Z) (source : TransactionSource) (filter_ : TransactionInfo → bool) (q : list TransactionInfo)
    (m : M) (s : State) (info : TransactionInfo) : result (list TransactionInfo * list FailureInfo) :=
  let height := add64 h 1 in
  let config := config_at height in
  let entity := ti_pEntity info in
  if Deadline entity <=? time then Ok ([], [failed info height Failure_Chain_Transaction_Expired])
  else if negb (filter_ info) then Ok ([], [])
  else
    minTransactionFee ← calculateTransactionFee feeCalculator (MinFeeMultiplier config) entity (FeeInterest config)
                          (FeeInterestDenominator config) max64;
    if MaxFee entity <? minTransactionFee then Ok ([], [])
    else
      throttled ← throttle info source h (os_Cache s) m;
      if (throttled : bool) then Ok ([], [failed info height Failure_Chain_Unconfirmed_Cache_Too_Full])
      else if negb (snd (queue_add max info q)) then Ok ([], [])
      else
        r ← snd (process_entity (validator_context height time) (observer_context height time) (entity_of height info)
                   (set_cache (backupChanges true (os_Cache s)) s));
        Ok (if IsValidationResultSuccess r then ([info], [])
            else if IsValidationResultFailure r then ([], [failed info height r]) else ([], [])).

(** One transaction after the other: each gets its verdict in a state in which
    the cache holds [q] and the transactions kept so far, and the delta is the
    execution of these on [base]. *)
Inductive verdicts (h time : Z) (source : TransactionSource) (filter_ : TransactionInfo → bool) (base : CacheDelta) :
    list TransactionInfo → list TransactionInfo → list TransactionInfo → list FailureInfo → Prop :=
| verdicts_none q : verdicts h time source filter_ base q [] [] []
| verdicts_one q info infos m s kept1 fs1 kept fs :
    R 0 m q → executed_all (add64 h 1) q base (os_Cache s) → verdict h time source filter_ q m s info = Ok (kept1, fs1) →
    verdicts h time source filter_ base (q ++ kept1) infos kept fs →
    verdicts h time source filter_ base q (info :: infos) (kept1 ++ kept) (fs1 ++ fs).

Lemma verdict_sorted h time source filter_ q m s info kept fs :
  verdict h time source filter_ q m s info = Ok (kept, fs) → one_sorted time filter_ info kept fs.
Proof.
  unfold verdict. destruct (_ <=? time) eqn:Hd; zbool; [intros [= <- <-]; by constructor|].
  destruct (filter_ info) eqn:Hf; cbn [negb]; [|intros [= <- <-]; by constructor].
  unfold mbind, result_bind. destruct (calculateTransactionFee _ _ _ _ _ _); [|done].
  destruct (_ <? _); [intros [= <- <-]; by constructor|]. destruct (throttle _ _ _ _ _) as [[]|]; [|  |done].
  { intros [= <- <-]. by constructor. }
  destruct (negb _); [intros [= <- <-]; by constructor|]. destruct (snd _) as [r|]; [|done].
  destruct (IsValidationResultSuccess r); [intros [= <- <-]; by constructor|].
  destruct (IsValidationResultFailure r) eqn:E; intros [= <- <-]; by constructor.
Qed.

Lemma sorted_out_cons time filter_ info l kept1 fs1 kept fs :
  one_sorted time filter_ info kept1 fs1 → sorted_out time filter_ l kept fs → sorted_out time filter_ (info :: l) (kept1 ++ kept) (fs1 ++ fs).
Proof. intros []; by constructor. Qed.

Lemma verdicts_sorted h time source filter_ base q infos kept fs :
  verdicts h time source filter_ base q infos kept fs → sorted_out time filter_ infos kept fs.
Proof. induction 1; [constructor|]. eapply sorted_out_cons; [by eapply verdict_sorted|done]. Qed.

(** Adding and removing a transaction gives the queue back. *)
Lemma queue_remove_added info q q' :
  queue_add max info q = (q', true) → NoDup (hashes q') → q' = q ++ [info] ∧ queue_remove (ti_EntityHash info) q' = (q, Some info).
Proof.
  unfold queue_add. destruct (_ || _); [done|]. intros [= <-] Hu. split; [done|]. pose proof (queue_remove_split q info [] Hu) as H.
  by rewrite app_nil_r in H.
Qed.

Lemma apply_one_spec n h time source filter_ info a a' q base :
  R (S n) (as_Modifier a) q → executed_all (add64 h 1) q base (os_Cache (as_State a)) →
  apply_one h time source filter_ info a = (a', Ok tt) →
  ∃ kept fs, R n (as_Modifier a') (q ++ kept) ∧ executed_all (add64 h 1) (q ++ kept) base (os_Cache (as_State a'))
    ∧ as_FailureTransactions a' = as_FailureTransactions a ++ fs
    ∧ verdict h time source filter_ q (as_Modifier a) (as_State a) info = Ok (kept, fs).
Proof.
  intros Hr Hex. assert (R n (as_Modifier a) q) as Hr' by (eapply repr_weaken; [|exact Hr]; lia). unfold apply_one, verdict.
  destruct (Deadline (ti_pEntity info) <=? time) eqn:Hd; zbool.
  { intros [= <-]. exists [], [failed info (add64 h 1) Failure_Chain_Transaction_Expired]. by rewrite app_nil_r. }
  destruct (filter_ info) eqn:Hf; cbn [negb].
  2: { intros [= <-]. exists [], []. by rewrite !app_nil_r. }
  unfold mbind, exec_bind, result_bind. destruct (calculateTransactionFee _ _ _ _ _ _) as [fee|]; [|done].
  destruct (MaxFee (ti_pEntity info) <? fee).
  { intros [= <-]. exists [], []. by rewrite !app_nil_r. }
  destruct (throttle _ _ _ _ _) as [[]|]; [| |done].
  { intros [= <-]. exists [], [failed info (add64 h 1) Failure_Chain_Unconfirmed_Cache_Too_Full]. by rewrite app_nil_r. }
  unfold on_modifier at 1. destruct (repr_add n _ _ info Hr) as (m1 & -> & Hm1).
  destruct (queue_add max info q) as [q1 added] eqn:Hadd. cbn [fst snd] in *. destruct added; cbn [negb].
  2: { assert (q1 = q) as ->. { unfold queue_add in Hadd. destruct (_ || _); by simplify_eq. }
       intros [= <-]. exists [], []. by rewrite !app_nil_r. }
  destruct (queue_remove_added _ _ _ Hadd (repr_unique _ _ _ Hm1)) as [-> Hrm].
  unfold on_state at 1, on_cache at 1, modify at 1. unfold on_state at 1. cbn [as_State set_State set_Modifier].
  set (s0 := set_cache _ (as_State a)). fold (validator_context (add64 h 1) time) (observer_context (add64 h 1) time) (entity_of (add64 h 1) info).
  destruct (process_entity _ _ _ s0) as [s1 [r|]] eqn:Hp; [|done]. cbn [snd].
  destruct (IsValidationResultSuccess r) eqn:Hsucc.
  - intros [= <-]. exists [info], []. rewrite app_nil_r. split_and!; [exact Hm1| |done|done]. cbn [as_State].
    eapply executed_one; [exact Hex|symmetry; apply backup_equiv| |reflexivity]. exists time, s0, s1, r. by split_and!.
  - pose proof (process_entity_keeps_backup _ _ _ _ _ _ Hp) as Hb. cbn [os_Cache s0 set_cache] in Hb. rewrite restore_backup in Hb.
    assert (executed_all (add64 h 1) q base (restoreChanges (os_Cache s1))) as Hex' by (eapply executed_all_equiv; [exact Hex|by symmetry]).
    destruct (repr_remove n _ _ (ti_EntityHash info) Hm1) as (m2 & Hm2 & Hr2). rewrite Hrm in Hm2, Hr2. cbn [fst snd] in Hm2, Hr2.
    unfold on_state, on_cache, on_modifier. destruct (IsValidationResultFailure r) eqn:Hfail; unfold modify; cbn [as_State as_Modifier set_State add_failure set_Modifier mret exec_ret].
    + rewrite Hm2. intros [= <-]. exists [], [failed info (add64 h 1) r]. by rewrite app_nil_r.
    + rewrite Hm2. intros [= <-]. exists [], []. by rewrite !app_nil_r.
Qed.

Lemma apply_spec infos n h time source filter_ a a' q base :
  R (length infos + n) (as_Modifier a) q → executed_all (add64 h 1) q base (os_Cache (as_State a)) →
  for_each (apply_one h time source filter_) infos a = (a', Ok tt) →
  ∃ kept fs, R n (as_Modifier a') (q ++ kept) ∧ executed_all (add64 h 1) (q ++ kept) base (os_Cache (as_State a'))
    ∧ as_FailureTransactions a' = as_FailureTransactions a ++ fs ∧ verdicts h time source filter_ base q infos kept fs.
Proof.
  revert a q. induction infos as [|info infos IH]; intros a q Hr Hex.
  { intros [= <-]. exists [], []. rewrite !app_nil_r. split_and!; [done..|constructor]. }
  cbn [for_each]. unfold mbind, exec_bind. destruct (apply_one h time source filter_ info a) as [a1 [[]|]] eqn:H1; [|done].
  destruct (apply_one_spec (length infos + n) _ _ _ _ _ _ _ _ _ Hr Hex H1) as (k1 & f1 & Hr1 & Hex1 & Hf1 & Hs1).
  intros H2. destruct (IH a1 (q ++ k1) Hr1 Hex1 H2) as (k2 & f2 & Hr2 & Hex2 & Hf2 & Hs2).
  exists (k1 ++ k2), (f1 ++ f2). rewrite !app_assoc. split_and!; [done|done|by rewrite Hf2, Hf1|].
  eapply verdicts_one; [|exact Hex|exact Hs1|exact Hs2]. eapply repr_weaken; [|exact Hr]. lia.
Qed.

Lemma apply_run infos n h time source filter_ m d fs0 a' q base :
  R (length infos + n) m q → executed_all (add64 h 1) q base d → apply h time infos source filter_ m d fs0 = (a', Ok tt) →
  ∃ kept fs, R n (as_Modifier a') (q ++ kept) ∧ executed_all (add64 h 1) (q ++ kept) base (os_Cache (as_State a'))
    ∧ as_FailureTransactions a' = fs0 ++ fs ∧ verdicts h time source filter_ base q infos kept fs.
Proof. intros Hr Hq Ha. unfold apply in Ha. by eapply apply_spec in Ha. Qed.

(** ** Locks *)

Definition slots (d : CacheDelta) : list bool := (λ o : option V, bool_decide (is_Some o)) <$> (d : list (option V)).
Definition deltas_of (d : CatapultCacheDetachedDelta V) : CacheDelta :=
  (λ o : option (LockableCacheDelta V), m_cacheDelta <$> o) <$> m_detachedSubViews d.
Definition stamps (d : CatapultCacheDetachedDelta V) : list (option Z) :=
  (λ o : option (LockableCacheDelta V), m_initialCommitCount <$> o) <$> m_detachedSubViews d.

Lemma slots_equiv (d d' : CacheDelta) : d ≡ d' → slots d = slots d'.
Proof.
  intros Hd. unfold slots. induction Hd as [|o o' d d' Ho Hd IH]; [done|]. rewrite !fmap_cons, IH. f_equal.
  destruct Ho; [|done]. by rewrite !bool_decide_true by done.
Qed.

Lemma slots_restore (d : CacheDelta) : slots (restoreChanges d) = slots d.
Proof.
  unfold slots, restoreChanges, map_enabled. rewrite <-list_fmap_compose. apply list_fmap_ext. by intros i [v|] _.
Qed.

Lemma executed_all_slots height q d d' : executed_all height q d d' → slots d = slots d'.
Proof.
  induction 1 as [d d' Hd|q info d d1 d1' d2 d' _ IH Hd (time & s & s' & r & _ & <- & <- & Hp & _) Hd']; [by apply slots_equiv|].
  apply process_entity_keeps_backup in Hp. apply slots_equiv in Hp, Hd, Hd'. rewrite !slots_restore in Hp. congruence.
Qed.

Lemma keep_delta_deltas (d : CacheDelta) x : slots d = slots (deltas_of x) → deltas_of (keep_delta d x) = d ∧ stamps (keep_delta d x) = stamps x.
Proof.
  destruct x as [views]. unfold slots, deltas_of, stamps, keep_delta. cbn [m_detachedSubViews]. revert d.
  induction views as [|o views IH]; intros [|v d]; rewrite ?fmap_cons; intros Hs; try done.
  injection Hs as Hv Hs. destruct (IH d Hs) as [H1 H2]. cbn [zip_with]. rewrite !fmap_cons.
  destruct o as [l|], v as [v|]; cbn in Hv |- *; try done; (split; f_equal; [exact H1|exact H2]).
Qed.

Lemma tryLock_current (k : CatapultCache C) d : stamps d = counters k → tryLock k d = Some (deltas_of d).
Proof.
  destruct d as [views]. unfold stamps, counters, tryLock, deltas_of. cbn [m_detachedSubViews]. generalize (m_subCaches k).
  induction views as [|o views IH]; intros [|c cs]; rewrite ?fmap_cons; intros Hs; try done. injection Hs as Ho Hs. specialize (IH cs Hs).
  destruct o as [l|], c as [c|]; try done; cbn [tryLock_all].
  - unfold lockable_tryLock. injection Ho as Ho. by rewrite Ho, Z.eqb_refl, IH.
  - by rewrite IH.
Qed.

Lemma tryLock_outdated (k : CatapultCache C) d i x y :
  stamps d !! i = Some (Some x) → counters k !! i = Some (Some y) → x ≠ y → tryLock k d = None.
Proof.
  destruct d as [views]. unfold stamps, counters, tryLock. cbn [m_detachedSubViews]. generalize (m_subCaches k).
  revert i. induction views as [|o views IH]; intros i [|c cs]; rewrite ?fmap_cons; try done. intros Hx Hy Hne. destruct i as [|i].
  - injection Hx as Hx. injection Hy as Hy. destruct o as [l|], c as [c|]; try done. cbn [tryLock_all]. unfold lockable_tryLock.
    injection Hx as ->. injection Hy as ->. by rewrite (proj2 (Z.eqb_neq _ _)).
  - specialize (IH i cs Hx Hy Hne). destruct o as [l|], c as [c|]; cbn [tryLock_all]; [|done|by rewrite IH..].
    destruct (lockable_tryLock c l); [|done]. cbn. by rewrite IH.
Qed.

(** The delta of a lockable cache can be locked until the next commit. *)
Lemma lock_life n (k0 k : CatapultCache C) d :
  counted k0 → (∃ c, Some c ∈ m_subCaches k0) → life n k0 k → Z.of_nat n < 2 ^ 64 → stamps d = counters k0 →
  tryLock k d = if decide (n = 0%nat) then Some (deltas_of d) else None.
Proof.
  intros Hr [c Hc] Hl Hn Hs. pose proof (life_counters n k0 k Hr Hl) as Hk. destruct (decide (n = 0%nat)) as [->|Hn0].
  - apply tryLock_current. rewrite Hs, Hk. rewrite <-(list_fmap_id (counters k0)) at 1. apply list_fmap_ext. intros i [x|] Hi; [|done].
    cbn. f_equal. rewrite Z.add_0_r. symmetry. apply wrap_small. eapply Forall_lookup_1 in Hr; [|exact Hi]. by apply Hr.
  - apply list_elem_of_lookup in Hc as [i Hi]. assert (counters k0 !! i = Some (Some (m_commitCounter c))) as Hci.
    { unfold counters. by rewrite list_lookup_fmap, Hi. }
    assert (counters k !! i = Some (Some (u64 (m_commitCounter c + Z.of_nat n)))) as Hci' by (by rewrite Hk, list_lookup_fmap, Hci).
    eapply tryLock_outdated; [by rewrite Hs|done|]. eapply Forall_lookup_1 in Hr; [|done].
    apply counter_moved; [by apply Hr|lia].
Qed.

Lemma life_app n1 n2 (k1 k2 k3 : CatapultCache C) : life n1 k1 k2 → life n2 k2 k3 → life (n2 + n1) k1 k3.
Proof.
  intros H1 H2. revert H1. induction H2 as [k|n k k' k'' d Hl IH Hc|n k k' Hl IH|n k k' k'' d h Hl IH Hc]; intros H1; [done| | |].
  - eapply life_create; [by apply IH|done].
  - apply life_release. by apply IH.
  - eapply life_commit; [by apply IH|done].
Qed.

Lemma life_counted n (k0 k : CatapultCache C) : counted k0 → life n k0 k → counted k.
Proof.
  intros Hc Hl. unfold counted. rewrite (life_counters n k0 k Hc Hl). apply Forall_fmap, Forall_true.
  intros [x|] y; [|done]. intros [= <-]. by apply wrap_range.
Qed.

Lemma life_has n (k0 k : CatapultCache C) : counted k0 → life n k0 k → (∃ c, Some c ∈ m_subCaches k0) → ∃ c, Some c ∈ m_subCaches k.
Proof.
  intros Hc Hl [c [i Hi]%list_elem_of_lookup]. pose proof (life_counters n k0 k Hc Hl) as Hk.
  apply (f_equal (λ l : list (option Z), l !! i)) in Hk. unfold counters in Hk. rewrite !list_lookup_fmap, Hi in Hk. cbn in Hk.
  destruct (m_subCaches k !! i) as [[c'|]|] eqn:Hi'; try done. exists c'. by eapply list_elem_of_lookup_2.
Qed.

(** Without a commit, the caches stay what they are. *)
Lemma life_0_contents (k0 k : CatapultCache C) height :
  life 0 k0 k → detached_contents (V:=V) height k = detached_contents height k0 ∧ m_pCacheHeight k = m_pCacheHeight k0.
Proof.
  remember 0%nat as n eqn:Hn. induction 1 as [k|n k k' k'' d Hl IH Hc|n k k' Hl IH|n k k' k'' d h Hl IH Hc]; [done| | |done].
  - destruct (IH Hn) as [<- <-]. unfold createDelta in Hc. destruct (create_deltas _ _) as [[cs ds]|] eqn:E; [|done].
    cbn [mbind result_bind] in Hc. injection Hc as <- _. split; [|done]. unfold detached_contents. cbn [m_subCaches].
    clear Hl IH. revert cs ds E. induction (m_subCaches k') as [|[c|] l IHl]; intros cs ds; cbn [create_deltas]; [by intros [= <- _]| |].
    + unfold sync_createDelta. destruct (m_hasDelta c); [done|]. cbn [mbind result_bind]. destruct (create_deltas _ l) as [[cs1 ds1]|]; [|done].
      intros [= <- _]. rewrite !fmap_cons. f_equal. by eapply IHl.
    + destruct (create_deltas _ l) as [[cs1 ds1]|]; [|done]. intros [= <- _]. rewrite !fmap_cons. f_equal. by eapply IHl.
  - destruct (IH Hn) as [<- <-]. split; [|done]. unfold detached_contents, releaseDelta. cbn [m_subCaches]. rewrite <-list_fmap_compose.
    apply list_fmap_ext. by intros i [c|].
Qed.

Lemma rebase_stamps (k : CatapultCache C) :
  stamps (m_pLockableUnconfirmedCatapultCache (rebase (V:=V) k)) = counters k
  ∧ deltas_of (m_pLockableUnconfirmedCatapultCache (rebase k)) = detached_contents (m_cacheHeight (rebase (V:=V) k)) k
  ∧ m_cacheHeight (rebase (V:=V) k) = add64 (m_pCacheHeight k) 0.
Proof.
  unfold rebase, createDetachableDelta, stamps, deltas_of, counters, detached_contents. cbn [m_pLockableUnconfirmedCatapultCache m_cacheHeight m_detachedSubViews].
  rewrite <-!list_fmap_compose. split_and!; [| |done]; apply list_fmap_ext; by intros i [c|].
Qed.

(** ** Updates *)

(** Destroying a modifier keeps what it did. *)
Class UtCacheAccessLaws := access_repr n m q : R n m q → R n (open_modifier (close_modifier m)) q.
Context `{!UtCacheAccessLaws}.

(** The delta of an updater is that of the confirmed caches as they were [n]
    commits ago; without a commit since then it is the execution of the queue. *)
Record updater_inv (room : nat) (n : nat) (k : CatapultCache C) (u : UtUpdater) (q : list TransactionInfo) : Prop := {
  ui_repr : R room (open_modifier (m_transactionsCache u)) q;
  ui_since : ∃ k1, counted k1 ∧ (∃ c, Some c ∈ m_subCaches k1) ∧ life n k1 k
    ∧ stamps (m_pLockableUnconfirmedCatapultCache (m_detachedCatapultCache u)) = counters k1;
  ui_executed : n = 0%nat →
    m_cacheHeight (m_detachedCatapultCache u) = add64 (m_pCacheHeight k) 0
    ∧ executed_all (add64 (m_cacheHeight (m_detachedCatapultCache u)) 1) q
        (detached_contents (m_cacheHeight (m_detachedCatapultCache u)) k)
        (deltas_of (m_pLockableUnconfirmedCatapultCache (m_detachedCatapultCache u)));
}.

Lemma updater_lock room n k u q :
  updater_inv room n k u q → Z.of_nat n < 2 ^ 64 →
  getAndTryLock k (m_detachedCatapultCache u)
  = if decide (n = 0%nat) then Some (deltas_of (m_pLockableUnconfirmedCatapultCache (m_detachedCatapultCache u))) else None.
Proof. intros [_ (k1 & Hc & Hs & Hl & Hst) _] Hn. exact (lock_life n k1 k _ Hc Hs Hl Hn Hst). Qed.

Lemma addAll_repr infos n time m q :
  R (length infos + n) m q → ∃ m' q', addAll infos time m = (m', Ok tt) ∧ R n m' q'.
Proof.
  revert m q. induction infos as [|info infos IH]; intros m q Hr; [by exists m, q|]. cbn [addAll length] in *.
  destruct (_ <=? time); [apply (IH m q); eapply repr_weaken; [|exact Hr]; lia|]. unfold mbind, exec_bind.
  destruct (repr_add _ _ _ info Hr) as (m1 & -> & H1). exact (IH m1 _ H1).
Qed.

Lemma with_delta_inv room n k u q q' d m sink :
  updater_inv room n k u q → R room m q' → n = 0%nat →
  executed_all (add64 (m_cacheHeight (m_detachedCatapultCache u)) 1) q' (detached_contents (m_cacheHeight (m_detachedCatapultCache u)) k) d →
  updater_inv room n k
    {| m_transactionsCache := close_modifier m;
       m_detachedCatapultCache := with_delta (m_cacheHeight (m_detachedCatapultCache u)) d
         (m_pLockableUnconfirmedCatapultCache (m_detachedCatapultCache u));
       m_failedTransactionSink := sink |} q'.
Proof.
  intros [Hr (k1 & Hc & Hs & Hl & Hst) Hex] Hm Hn Hd. destruct (Hex Hn) as [Hh Hq].
  destruct (keep_delta_deltas d (m_pLockableUnconfirmedCatapultCache (m_detachedCatapultCache u))) as [H1 H2].
  { by rewrite <-(executed_all_slots _ _ _ _ Hd), <-(executed_all_slots _ _ _ _ Hq). }
  constructor; cbn [m_transactionsCache m_detachedCatapultCache with_delta m_pLockableUnconfirmedCatapultCache m_cacheHeight].
  - by apply access_repr.
  - exists k1. by rewrite H2.
  - intros _. by rewrite H1.
Qed.

Lemma update_inv room n k u q time infos u' rs :
  updater_inv (length infos + room) n k u q → Z.of_nat n < 2 ^ 64 → update k time infos u = (u', Ok rs) →
  ∃ q', updater_inv room n k u' q'.
Proof.
  intros Hi Hn. unfold update. rewrite (updater_lock _ _ _ _ _ Hi Hn). pose proof Hi as [Hr Hs Hex]. case_decide as Hn0.
  - destruct (apply _ _ _ _ _ _ _ _) as [a [[]|]] eqn:Ha; [|done]. intros [= <- _]. destruct (Hex Hn0) as [Hh Hq].
    destruct (apply_run infos room _ _ _ _ _ _ _ _ q _ Hr Hq Ha) as (kept & fs & Hr' & Hq' & _).
    exists (q ++ kept). eapply with_delta_inv; [|exact Hr'|done|exact Hq']. constructor; [|exact Hs|exact Hex].
    eapply repr_weaken; [|exact Hr]. lia.
  - destruct (addAll_repr infos room time _ _ Hr) as (m' & q' & -> & Hr'). intros [= <- _]. exists q'. constructor; [by apply access_repr|exact Hs|done].
Qed.

(** A rebased updater with its cache emptied. *)
Lemma rebase_inv room (k : CatapultCache C) m sink :
  counted k → (∃ c, Some c ∈ m_subCaches k) → R room m [] →
  updater_inv room 0 k {| m_transactionsCache := close_modifier m; m_detachedCatapultCache := rebase k; m_failedTransactionSink := sink |} [].
Proof.
  intros Hc Hs Hr. destruct (rebase_stamps k) as (H1 & H2 & H3). constructor; cbn [m_transactionsCache m_detachedCatapultCache].
  - by apply access_repr.
  - exists k. split_and!; [done|done|constructor|done].
  - intros _. split; [done|]. rewrite H2. by constructor.
Qed.

Lemma new_UtUpdater_inv room (k : CatapultCache C) c0 :
  counted k → (∃ c, Some c ∈ m_subCaches k) → R room (open_modifier c0) [] → updater_inv room 0 k (new_UtUpdater c0 k) [].
Proof.
  intros Hc Hs Hr. destruct (rebase_stamps k) as (H1 & H2 & H3). constructor; cbn [new_UtUpdater m_transactionsCache m_detachedCatapultCache]; [done| |].
  - exists k. split_and!; [done|done|constructor|done].
  - intros _. split; [done|]. rewrite H2. by constructor.
Qed.

(** What an update with confirmed transactions does. *)
Lemma update_confirmed_spec room k u q time1 time2 confirmed infos u' :
  counted k → (∃ c, Some c ∈ m_subCaches k) → R (length infos + (length q + room)) (open_modifier (m_transactionsCache u)) q →
  update_confirmed k time1 time2 confirmed infos u = (u', Ok tt) →
  ∃ kept1 kept2 fs1 fs2, updater_inv room 0 k u' (kept1 ++ kept2)
    ∧ (let h := add64 (m_pCacheHeight k) 0 in let base := detached_contents h k in
       verdicts h time1 Source_Reverted (λ _, true) base [] infos kept1 fs1
       ∧ verdicts h time2 Source_Existing (λ info, negb (bool_decide (ti_EntityHash info ∈ confirmed))) base kept1 q kept2 fs2)
    ∧ m_failedTransactionSink u' = m_failedTransactionSink u ++ fs1 ++ fs2.
Proof.
  intros Hc Hs Hr. unfold update_confirmed. destruct (repr_removeAll _ _ _ Hr) as (m1 & -> & Hr1). unfold rebaseAndLock.
  destruct (rebase_stamps k) as (H1 & H2 & H3). unfold getAndTryLock. rewrite (tryLock_current k _ H1), H2.
  set (h := m_cacheHeight (rebase k)) in *. set (base := detached_contents h k) in *.
  destruct (apply h time1 infos Source_Reverted _ m1 base []) as [a1 [[]|]] eqn:Ha1; [|done].
  destruct (apply_run infos (length q + room) h _ _ _ _ _ _ _ [] base Hr1 ltac:(by constructor) Ha1) as (kept1 & fs1 & Hr2 & Hq1 & Hf1 & Hs1).
  destruct (apply h time2 q Source_Existing _ (as_Modifier a1) (os_Cache (as_State a1)) (as_FailureTransactions a1)) as [a2 [[]|]] eqn:Ha2; [|done].
  destruct (apply_run q room h _ _ _ _ _ _ _ ([] ++ kept1) base Hr2 Hq1 Ha2) as (kept2 & fs2 & Hr3 & Hq2 & Hf2 & Hs2).
  assert (R room m1 []) as Hr1' by (eapply repr_weaken; [|exact Hr1]; lia).
  intros [= <-]. exists kept1, kept2, fs1, fs2. split_and!; [|by rewrite <-H3|by rewrite <-H3|by rewrite Hf2, Hf1].
  exact (with_delta_inv room 0 k _ [] (kept1 ++ kept2) (os_Cache (as_State a2)) (as_Modifier a2) _
    (rebase_inv room k m1 [] Hc Hs Hr1') Hr3 eq_refl Hq2).
Qed.

(** ** Interleavings *)

(** The updater beside the confirmed caches: they are changed by blocks
    ([life]), and the updater is called at any time.  The numbers count commits
    and calls of [add]. *)
Inductive reachable (k0 : CatapultCache C) (c0 : K) : nat → nat → CatapultCache C → UtUpdater → Prop :=
| reach_start : reachable k0 c0 0 0 k0 (new_UtUpdater c0 k0)
| reach_blocks commits adds n k k' u : reachable k0 c0 commits adds k u → life n k k' → reachable k0 c0 (n + commits) adds k' u
| reach_new commits adds k u u' time infos rs :
    reachable k0 c0 commits adds k u → update k time infos u = (u', Ok rs) →
    reachable k0 c0 commits (length infos + adds) k u'
| reach_confirmed commits adds k u u' time1 time2 confirmed infos :
    reachable k0 c0 commits adds k u → update_confirmed k time1 time2 confirmed infos u = (u', Ok tt) →
    reachable k0 c0 commits (length infos + (Z.to_nat (mod_size (open_modifier (m_transactionsCache u))) + adds)) k u'.

Lemma updater_reachable_inv k0 c0 total commits adds k u :
  counted k0 → (∃ c, Some c ∈ m_subCaches k0) → R total (open_modifier c0) [] → reachable k0 c0 commits adds k u →
  Z.of_nat commits < 2 ^ 64 → (adds ≤ total)%nat →
  counted k ∧ (∃ c, Some c ∈ m_subCaches k) ∧ ∃ q n, (n ≤ commits)%nat ∧ updater_inv (total - adds) n k u q.
Proof.
  intros Hc0 Hs0 Hr0. induction 1 as [|commits adds n k k' u Hre IH Hl|commits adds k u u' time infos rs Hre IH Hup
    |commits adds k u u' t1 t2 confirmed infos Hre IH Hup]; intros Hcm Hadd.
  - split_and!; [done|done|]. exists [], 0%nat. rewrite Nat.sub_0_r. split; [done|]. by apply new_UtUpdater_inv.
  - destruct IH as (Hc & Hs & q & m & Hm & Hi); [lia|done|]. split_and!; [by eapply life_counted|by eapply life_has|].
    exists q, (n + m)%nat. split; [lia|]. destruct Hi as [Hr (k1 & Hc1 & Hs1 & Hl1 & Hst) Hex]. constructor; [done| |].
    + exists k1. split_and!; [done|done|by eapply life_app|done].
    + intros Hz. assert (n = 0%nat) as -> by lia. assert (m = 0%nat) as -> by lia. destruct (Hex eq_refl) as [Hh Hq].
      destruct (life_0_contents k k' (m_cacheHeight (m_detachedCatapultCache u)) Hl) as [Hd Hk]. by rewrite Hd, Hk.
  - destruct IH as (Hc & Hs & q & n & Hn & Hi); [lia|lia|]. split_and!; [done|done|].
    replace (total - adds)%nat with (length infos + (total - (length infos + adds)))%nat in Hi by lia.
    destruct (update_inv _ n k u q time infos u' rs Hi ltac:(lia) Hup) as [q' Hi']. by exists q', n.
  - destruct IH as (Hc & Hs & q & n & Hn & Hi); [lia|lia|]. split_and!; [done|done|].
    pose proof (repr_size _ _ _ (ui_repr _ _ _ _ _ Hi)) as Hsz. rewrite Hsz, Nat2Z.id in *.
    destruct (update_confirmed_spec (total - (length infos + (length q + adds))) k u q t1 t2 confirmed infos u' Hc Hs) as (k1 & k2 & _ & _ & Hi' & _); [|done|].
    { eapply repr_weaken; [|exact (ui_repr _ _ _ _ _ Hi)]. lia. }
    exists (k1 ++ k2), 0%nat. split; [lia|done].
Qed.

(** C11. The unconfirmed state is what the cached transactions make of the
    confirmed state.  However calls of the updater and commits of blocks are
    interleaved (fewer than 2^64 commits and additions), whenever the detached
    delta can be locked it is, up to equivalence, the result of executing exactly
    the transactions in the unconfirmed cache, in the order of the cache, each
    validated and before its deadline, on the present contents of the confirmed
    caches; transactions that were refused on the way have left no trace.
    Assumed of the caches and observers is [BackupLaws]: [restoreChanges] gives
    back what [backupChanges] saw, whatever the observers did in between.  That
    holds for caches that keep their elements in one delta set
    (DeltaSetCaches.v); the namespace cache does not satisfy it, and with it a
    refused registration does leave a trace (NamespaceBackup.v). *)
Theorem unconfirmed_state_matches_cache k0 c0 total commits adds k u d :
  counted k0 → (∃ c, Some c ∈ m_subCaches k0) → R total (open_modifier c0) [] → reachable k0 c0 commits adds k u →
  Z.of_nat commits < 2 ^ 64 → (adds ≤ total)%nat → getAndTryLock k (m_detachedCatapultCache u) = Some d →
  ∃ q, R (total - adds) (open_modifier (m_transactionsCache u)) q
    ∧ executed_all (add64 (m_pCacheHeight k) 1) q (detached_contents (add64 (m_pCacheHeight k) 0) k) d.
Proof.
  intros Hc Hs Hr Hre Hcm Hadd Hd. destruct (updater_reachable_inv _ _ _ _ _ _ _ Hc Hs Hr Hre Hcm Hadd) as (_ & _ & q & n & Hn & Hi).
  rewrite (updater_lock _ _ _ _ _ Hi ltac:(lia)) in Hd. case_decide as Hn0; [|done]. injection Hd as <-. exists q. split; [apply Hi|].
  destruct (ui_executed _ _ _ _ _ Hi Hn0) as [Hh Hq]. rewrite Hh in Hq.
  replace (add64 (add64 (m_pCacheHeight k) 0) 1) with (add64 (m_pCacheHeight k) 1) in Hq; [exact Hq|].
  unfold add64, wrap. rewrite Zplus_mod_idemp_l. f_equal. lia.
Qed.

(** ** Results *)

Definition failed_hashes (fs : list FailureInfo) : list (list Z) := fi_Hash <$> fs.

Lemma sorted_out_parts time filter_ infos kept fs :
  sorted_out time filter_ infos kept fs →
  kept `sublist_of` filter (λ info, filter_ info = true) infos
  ∧ Forall (λ info, time < Deadline (ti_pEntity info)) kept ∧ failed_hashes fs `sublist_of` hashes infos.
Proof.
  induction 1 as [|info l kept fs Hd Hf _ (H1 & H2 & H3)|info f l kept fs Hh _ _ _ (H1 & H2 & H3)|info l kept fs Hd _ (H1 & H2 & H3)].
  - done.
  - rewrite filter_cons, decide_True by done. split_and!; [by apply sublist_skip|by constructor|by apply sublist_cons].
  - split_and!; [rewrite filter_cons; case_decide; [by apply sublist_cons|done]|done|]. unfold failed_hashes, hashes in *. cbn. rewrite Hh. by apply sublist_skip.
  - split_and!; [rewrite filter_cons; case_decide; [by apply sublist_cons|done]|done|by apply sublist_cons].
Qed.

(** With distinct hashes, the results mark exactly the failures. *)
Lemma mark_failures_spec time filter_ infos kept fs :
  NoDup (hashes infos) → sorted_out time filter_ infos kept fs →
  mark_failures infos fs = (λ info, if decide (ti_EntityHash info ∈ failed_hashes fs) then Update_Invalid else Update_New) <$> infos
  ∧ (∀ info, info ∈ kept → ti_EntityHash info ∉ failed_hashes fs).
Proof.
  assert (∀ info l kept' fs', ti_EntityHash info ∉ hashes l → sorted_out time filter_ l kept' fs' →
    ti_EntityHash info ∉ failed_hashes fs'
    ∧ mark_failures (info :: l) fs' = Update_New :: mark_failures l fs') as Hnew.
  { intros info l kept' fs' Hn (_ & _ & Hsub)%sorted_out_parts. assert (ti_EntityHash info ∉ failed_hashes fs') as Hf.
    { intros Hin. apply Hn. by eapply elem_of_sublist. }
    split; [done|]. cbn [mark_failures]. destruct fs' as [|f fs']; [done|]. rewrite bool_decide_false; [done|]. intros Heq. apply Hf. rewrite Heq. left. }
  intros Hu Hso. induction Hso as [|info l kept fs Hd Hf Hso IH|info f l kept fs Hh Ht Hv Hso IH|info l kept fs Hd Hso IH]; [by split; [|intros ? ?%elem_of_nil]|..];
    cbn in Hu; apply NoDup_cons in Hu as [Hn Hu]; destruct (IH Hu) as [IH1 IH2].
  - destruct (Hnew _ _ _ _ Hn Hso) as [Hnf ->]. rewrite fmap_cons, decide_False, IH1 by done. split; [done|].
    intros i [->|Hi]%elem_of_cons; [done|by apply IH2].
  - assert (∀ i, i ∈ l → ti_EntityHash i ∈ failed_hashes (f :: fs) ↔ ti_EntityHash i ∈ failed_hashes fs) as Hiff.
    { intros i Hi. unfold failed_hashes. rewrite fmap_cons, elem_of_cons. split; [|by right]. intros [Heq|]; [|done]. destruct Hn. rewrite <-Hh, <-Heq.
      by apply list_elem_of_fmap_2. }
    split.
    + cbn [mark_failures]. rewrite bool_decide_true by done. rewrite fmap_cons, decide_True by (unfold failed_hashes; rewrite fmap_cons, Hh; left).
      f_equal. rewrite IH1. apply list_fmap_ext. intros j i Hj%list_elem_of_lookup_2. apply Hiff in Hj. by rewrite (decide_ext _ _ _ _ Hj).
    + intros i Hi. rewrite Hiff; [by apply IH2|]. destruct (sorted_out_parts _ _ _ _ _ Hso) as (Hsub & _).
      eapply elem_of_sublist in Hsub; [|exact Hi]. by apply list_elem_of_filter in Hsub as [_ ?].
  - destruct (Hnew _ _ _ _ Hn Hso) as [Hnf ->]. by rewrite fmap_cons, decide_False, IH1.
Qed.

Lemma SelectValid_marks (P : TransactionInfo → Prop) `{!∀ info, Decision (P info)} infos :
  SelectValid infos ((λ info, if decide (P info) then Update_Invalid else Update_New) <$> infos) = filter (λ info, ¬ P info) infos.
Proof.
  induction infos as [|info infos IH]; [done|]. rewrite fmap_cons, filter_cons. cbn [SelectValid].
  destruct (decide (P info)); [rewrite decide_False by naive_solver|rewrite decide_True by done]; [done|]. by rewrite IH.
Qed.

(** ** Returning *)

(** The plugins throw nothing: publishers finish, validators answer, observers
    accept what was validated.  A validator that dereferences what it does not
    find is excluded, as that of root namespaces after an incomplete restore
    (NamespaceBackup.v). *)
Class QuietPlugins := {
  quiet_publish e : snd (publish e) = Ok tt;
  quiet_size n : sizeof_Notification ≤ NotificationSize n;
  quiet_validator v n d : ∃ r, validator v n d = Ok r;
  quiet_observer v c n s :
    vc_Config v = oc_Config c → vc_Height v = oc_Height c →
    (IsSet (NotificationType n) Channel_Validator = true → ∃ r, validator v n (os_Cache s) = Ok r ∧ GetSeverity r ≤ Severity_Success) →
    snd (observer c n s) = Ok tt;
  quiet_throttle info source h d m : ∃ b, throttle info source h d m = Ok b;
  quiet_fee config : FeeInterestDenominator config ≠ 0;
}.

Section returning.
Context `{!QuietPlugins}.

Lemma sub_notify_returns v c n sub (s : State) :
  vc_Config v = oc_Config c → vc_Height v = oc_Height c →
  ∃ st, sub_notify NotificationType NotificationSize validator v observer c n (sub, s) = (st, Ok tt).
Proof.
  intros Hcfg Hh. unfold sub_notify, gets, mbind, exec_bind. pose proof (quiet_size n) as Hsz. rewrite (proj2 (Z.ltb_ge _ _)) by done. cbn [fst].
  destruct (IsValidationResultSuccess (m_aggregateResult sub)) eqn:Hsub; cbn [negb]; [|by eexists].
  destruct (sub_validate _ _ _ n (sub, s)) as [[sub1 s1] r1] eqn:Hv.
  assert (s1 = s ∧ r1 = Ok tt ∧ (IsValidationResultSuccess (m_aggregateResult sub1) = true → IsSet (NotificationType n) Channel_Validator = true →
    ∃ r, validator v n (os_Cache s) = Ok r ∧ GetSeverity r ≤ Severity_Success)) as (-> & -> & Hval).
  { unfold sub_validate in Hv. destruct (IsSet (NotificationType n) Channel_Validator); cbn [negb] in Hv; [|by simplify_eq].
    destruct (quiet_validator v n (os_Cache s)) as [r Hr]. rewrite Hr in Hv. injection Hv as <- <- <-. split_and!; [done|done|].
    cbn [m_aggregateResult]. unfold AggregateValidationResult, IsValidationResultSuccess in *. intros Hs _. exists r. split; [done|].
    apply Z.eqb_eq in Hsub. destruct (_ <=? _) eqn:E; zbool; [rewrite <-Hsub in E; exact E|apply Z.eqb_eq in Hs; lia]. }
  cbn [fst]. destruct (IsValidationResultSuccess (m_aggregateResult sub1)) eqn:Hs1; cbn [negb]; [|by eexists].
  unfold sub_observe. destruct (negb (IsSet _ Channel_Observer)) eqn:Hobs; [by eexists|].
  pose proof (quiet_observer v c n s Hcfg Hh (Hval eq_refl)) as Ho. destruct (observer c n s) as [s2 r2]. cbn [snd] in Ho. subst r2.
  destruct (negb (m_isUndoEnabled sub1)); [by eexists|]. unfold undo_notify. rewrite (proj2 (Z.ltb_ge _ _)) by done. rewrite Hobs. by eexists.
Qed.

Lemma process_entity_returns height time info s :
  ∃ s' r, process_entity (validator_context height time) (observer_context height time) info s = (s', Ok r).
Proof.
  unfold process_entity. destruct (publish info) as [ns rp] eqn:Hp. pose proof (quiet_publish info) as Hq. rewrite Hp in Hq. cbn [snd] in Hq. subst rp.
  assert (∃ st, for_each (sub_notify NotificationType NotificationSize validator (validator_context height time) observer (observer_context height time)) ns
    (new_Subscriber, s) = (st, Ok tt)) as [[sub s'] Hrun].
  { apply for_each_total. intros n _ [sub t]. by apply sub_notify_returns. }
  rewrite (run_bind _ _ _ _ _ Hrun). by eexists _, _.
Qed.

Lemma apply_one_returns n h time source filter_ info a q :
  R (S n) (as_Modifier a) q → ∃ a', apply_one h time source filter_ info a = (a', Ok tt).
Proof.
  intros Hr. unfold apply_one. destruct (_ <=? time); [by eexists|]. destruct (filter_ info); cbn [negb]; [|by eexists].
  unfold mbind, exec_bind, calculateTransactionFee. rewrite (proj2 (Z.eqb_neq _ _)) by apply quiet_fee.
  destruct (if isTransactionFeeLimited _ _ _ then _ else _) as [fee|] eqn:Hfee; [|by destruct (isTransactionFeeLimited _ _ _)].
  destruct (MaxFee _ <? fee); [by eexists|].
  destruct (quiet_throttle info source h (os_Cache (as_State a)) (as_Modifier a)) as [b ->]. destruct b; [by eexists|].
  unfold on_modifier at 1. destruct (repr_add n _ _ info Hr) as (m1 & -> & Hm1). destruct (snd (queue_add max info q)) eqn:Hadd; cbn [negb]; [|by eexists].
  unfold on_state at 1, on_cache at 1, modify at 1. unfold on_state at 1. cbn [as_State set_State set_Modifier].
  fold (validator_context (add64 h 1) time) (observer_context (add64 h 1) time) (entity_of (add64 h 1) info).
  edestruct process_entity_returns as (s1 & r & ->). destruct (IsValidationResultSuccess r); [by eexists|].
  destruct (repr_remove n _ _ (ti_EntityHash info) Hm1) as (m2 & Hm2 & _). unfold on_state, on_cache, on_modifier.
  destruct (IsValidationResultFailure r); unfold modify; cbn [as_State as_Modifier set_State add_failure set_Modifier mret exec_ret]; rewrite Hm2; by eexists.
Qed.

Lemma apply_returns infos n h time source filter_ m d fs q base :
  R (length infos + n) m q → executed_all (add64 h 1) q base d → ∃ a', apply h time infos source filter_ m d fs = (a', Ok tt).
Proof.
  unfold apply. set (a0 := {| as_Modifier := m |}). intros Hr Hq. change m with (as_Modifier a0) in Hr. change d with (os_Cache (as_State a0)) in Hq.
  clearbody a0. revert a0 q Hr Hq. induction infos as [|info infos IH]; intros a q Hr Hq; [by eexists|]. cbn [for_each length] in *.
  destruct (apply_one_returns _ h time source filter_ info a q Hr) as [a1 H1]. rewrite (run_bind _ _ _ _ _ H1).
  destruct (apply_one_spec _ _ _ _ _ _ _ _ _ _ Hr Hq H1) as (k1 & f1 & Hr1 & Hq1 & _). exact (IH a1 _ Hr1 Hq1).
Qed.

(** C32. Results of an update with new transactions, while the unconfirmed state
    can be locked and the transactions have distinct hashes.  The update returns.
    Each transaction gets the verdict of the reference function [verdict] in a
    state that is the execution of the cache and of the transactions kept before
    it: expired, dropped by the minimum fee, throttled, refused by the queue, or
    executed and then kept, failed or dropped by its result.  The cache has the
    kept ones appended in order, and the delta is their execution; the sink is
    told the failures; the result of a transaction is Invalid if it failed and New
    otherwise, also for a transaction that was dropped; and what is broadcast is
    what did not fail.
    Assumed are [BackupLaws] (not satisfied by the namespace cache, see
    NamespaceBackup.v) and [QuietPlugins]: publishers, validators, observers and
    the throttle throw nothing. *)
Theorem update_results_classified room k u q time infos :
  updater_inv (length infos + room) 0 k u q → NoDup (hashes infos) →
  ∃ u' kept fs,
    update k time infos u
    = (u', Ok ((λ info, if decide (ti_EntityHash info ∈ failed_hashes fs) then Update_Invalid else Update_New) <$> infos))
    ∧ (let h := m_cacheHeight (m_detachedCatapultCache u) in
       verdicts h time Source_New (λ _, true) (detached_contents h k) q infos kept fs)
    ∧ updater_inv room 0 k u' (q ++ kept)
    ∧ m_failedTransactionSink u' = m_failedTransactionSink u ++ fs
    ∧ kept `sublist_of` infos ∧ Forall (λ info, time < Deadline (ti_pEntity info)) kept
    ∧ failed_hashes fs `sublist_of` hashes infos
    ∧ (∀ info, info ∈ kept → ti_EntityHash info ∉ failed_hashes fs)
    ∧ SelectValid infos (mark_failures infos fs) = filter (λ info, ti_EntityHash info ∉ failed_hashes fs) infos.
Proof.
  intros Hi Hu. pose proof Hi as [Hr Hs Hex]. destruct (Hex eq_refl) as [Hh Hq].
  edestruct (apply_returns infos room _ time Source_New (λ _, true) _ _ [] q _ Hr Hq) as [a Ha].
  destruct (apply_run infos room _ _ _ _ _ _ _ _ q _ Hr Hq Ha) as (kept & fs & Hr' & Hq' & Hf & Hve). cbn [app] in Hf.
  pose proof (verdicts_sorted _ _ _ _ _ _ _ _ _ Hve) as Hso.
  destruct (mark_failures_spec _ _ _ _ _ Hu Hso) as [Hmark Hdis]. destruct (sorted_out_parts _ _ _ _ _ Hso) as (Hk1 & Hk2 & Hk3).
  unfold update. rewrite (updater_lock _ _ _ _ _ Hi ltac:(done)). rewrite decide_True by done. rewrite Ha, Hf, Hmark.
  eexists _, kept, fs. split; [done|]. split; [exact Hve|].
  split_and!; [|done| |done|done|done|rewrite Hmark; apply (SelectValid_marks (λ info, ti_EntityHash info ∈ failed_hashes fs))].
  - eapply with_delta_inv; [|exact Hr'|done|exact Hq']. constructor; [|exact Hs|exact Hex]. eapply repr_weaken; [|exact Hr]. lia.
  - etransitivity; [exact Hk1|apply sublist_filter].
Qed.

Lemma update_confirmed_returns room (k : CatapultCache C) u q time1 time2 confirmed infos :
  R (length infos + (length q + room)) (open_modifier (m_transactionsCache u)) q →
  ∃ u', update_confirmed k time1 time2 confirmed infos u = (u', Ok tt).
Proof.
  intros Hr. unfold update_confirmed. destruct (repr_removeAll _ _ _ Hr) as (m1 & -> & Hr1). unfold rebaseAndLock.
  destruct (rebase_stamps k) as (H1 & H2 & H3). unfold getAndTryLock. rewrite (tryLock_current k _ H1), H2.
  set (h := m_cacheHeight (rebase k)) in *. set (base := detached_contents h k) in *.
  destruct (apply_returns infos (length q + room) h time1 Source_Reverted (λ _, true) m1 base [] [] base Hr1 ltac:(by constructor)) as [a1 Ha1].
  rewrite Ha1. destruct (apply_run infos (length q + room) h _ _ _ _ _ _ _ [] base Hr1 ltac:(by constructor) Ha1) as (kept1 & fs1 & Hr2 & Hq1 & _).
  edestruct (apply_returns q room h time2 Source_Existing) as [a2 ->]; [exact Hr2|exact Hq1|]. by eexists.
Qed.

(** C17. An update after blocks rebuilds the unconfirmed state.  It returns, and
    then the delta can be locked and is the execution of the cached
    transactions on the confirmed state.  Every reverted transaction, and after
    these every transaction that was in the cache, gets the verdict of the
    reference function [verdict] in a state that is the execution of those kept
    before it, with the confirmed ones filtered out: so the cache holds exactly
    the reverted transactions that are in time, pay, are not throttled, fit and
    validate, in their order, and behind them those of the old cache that are not
    confirmed and do the same; the sink is told the failures of both.
    Assumed are [BackupLaws] (not satisfied by the namespace cache, see
    NamespaceBackup.v) and [QuietPlugins]: publishers, validators, observers and
    the throttle throw nothing. *)
Theorem update_confirmed_rebuilds_cache room k u q time1 time2 confirmed infos :
  counted k → (∃ c, Some c ∈ m_subCaches k) → R (length infos + (length q + room)) (open_modifier (m_transactionsCache u)) q →
  ∃ u' kept1 kept2 fs1 fs2,
    update_confirmed k time1 time2 confirmed infos u = (u', Ok tt)
    ∧ R room (open_modifier (m_transactionsCache u')) (kept1 ++ kept2)
    ∧ (∃ d, getAndTryLock k (m_detachedCatapultCache u') = Some d
         ∧ executed_all (add64 (m_cacheHeight (m_detachedCatapultCache u')) 1) (kept1 ++ kept2)
             (detached_contents (m_cacheHeight (m_detachedCatapultCache u')) k) d)
    ∧ (let h := add64 (m_pCacheHeight k) 0 in let base := detached_contents h k in
       verdicts h time1 Source_Reverted (λ _, true) base [] infos kept1 fs1
       ∧ verdicts h time2 Source_Existing (λ info, negb (bool_decide (ti_EntityHash info ∈ confirmed))) base kept1 q kept2 fs2)
    ∧ kept1 `sublist_of` infos ∧ kept2 `sublist_of` filter (λ info, ti_EntityHash info ∉ confirmed) q
    ∧ Forall (λ info, time1 < Deadline (ti_pEntity info)) kept1 ∧ Forall (λ info, time2 < Deadline (ti_pEntity info)) kept2
    ∧ m_failedTransactionSink u' = m_failedTransactionSink u ++ fs1 ++ fs2
    ∧ failed_hashes fs1 `sublist_of` hashes infos ∧ failed_hashes fs2 `sublist_of` hashes q.
Proof.
  intros Hc Hs Hr. destruct (update_confirmed_returns room k u q time1 time2 confirmed infos Hr) as [u' Hup].
  destruct (update_confirmed_spec room k u q time1 time2 confirmed infos u' Hc Hs Hr Hup) as (kept1 & kept2 & fs1 & fs2 & Hi & [Hv1 Hv2] & Hf).
  destruct (sorted_out_parts _ _ _ _ _ (verdicts_sorted _ _ _ _ _ _ _ _ _ Hv1)) as (H1 & H2 & H3),
    (sorted_out_parts _ _ _ _ _ (verdicts_sorted _ _ _ _ _ _ _ _ _ Hv2)) as (H4 & H5 & H6).
  exists u', kept1, kept2, fs1, fs2. split_and!; [done|apply Hi| |by split| | |done|done|done|done|done].
  - destruct (ui_executed _ _ _ _ _ Hi eq_refl) as [_ Hq]. eexists. split; [|exact Hq]. by rewrite (updater_lock _ _ _ _ _ Hi ltac:(done)).
  - etransitivity; [exact H1|apply sublist_filter].
  - erewrite list_filter_iff; [exact H4|]. intros info. by rewrite negb_true_iff, bool_decide_eq_false.
Qed.

End returning.
End updater.

#[export] Instance MemoryUtCache_access_laws max : UtCacheAccessLaws (K:=MemoryUtCache) (ut_repr max).
Proof. by intros n m q. Qed.

#[export] Instance AggregateUtCache_access_laws {M} (R : nat → M → list TransactionInfo → Prop) :
  UtCacheAccessLaws (K:=M * list UtEvent) (λ n a q, R n (m_modifier a) q).
Proof. by intros n m q. Qed.

(** * Example *)

(** A transaction adds a number to the caches; numbers above 100 are refused. *)
Module UtSample.
Import (hints) Sample.

Abbreviation Delta := (CatapultCacheDelta sample_view).
Abbreviation State := (ObserverState Z Delta unit BlockStatementBuilder).

Definition publish (info : EntityInfo) : list Z * result unit := ([field 4 1 (ei_entity info)], Ok tt).
Definition validator : Validator Z Delta unit := λ _ n _, Ok (if n <=? 100 then Success else Failure).
Definition add_value (x : Z) : Delta → Delta := map_enabled (λ v, set_value (sample_value v + x) (sample_root v) v).
Definition observer : Observer Z Delta unit BlockStatementBuilder unit := λ c n,
  on_cache (add_value (match oc_Mode c with Commit => n | Rollback => - n end)).
Definition throttle (info : TransactionInfo) (source : TransactionSource) (height : Z) (d : Delta)
    (m : AggregateUtCacheModifier MemoryUtCache) : result bool := Ok (CreateDefaultUtUpdaterThrottle 3 m).

(** Transaction [n] with hash [n], which adds [n]; the minimum fee is 3000. *)
Definition transaction (n fee : Z) : TransactionInfo :=
  {| ti_pEntity := le_bytes 4 1000 ++ [n] ++ replicate 63 0 ++ replicate 32 7 ++ replicate 6 0 ++ le_bytes 8 fee ++ le_bytes 8 1000;
     ti_EntityHash := replicate 32 n; ti_AssociatedHeight := max64; ti_MerkleComponentHash := replicate 32 n;
     ti_OptionalExtractedAddresses := None |}.

Abbreviation Updater := (UtUpdater (V:=sample_view) (K:=MemoryUtCache * list UtEvent)).
Definition new_updater (k : CatapultCache (Z * bool)) : Updater := new_UtUpdater (new_MemoryUtCache sample_options, []) k.
Definition update_ (k : CatapultCache (Z * bool)) (time : Z) (infos : list TransactionInfo) : Exec Updater (list UpdateType) :=
  update (λ _, Sample.type) (λ _, 16) publish validator observer (λ _, tt) (λ _, 3) (λ _, 1) (λ _, 1) sample_calculator tt throttle k time infos.
Definition update_confirmed_ (k : CatapultCache (Z * bool)) (time1 time2 : Z) (confirmed : gset (list Z)) (infos : list TransactionInfo)
    : Exec Updater unit :=
  update_confirmed (λ _, Sample.type) (λ _, 16) publish validator observer (λ _, tt) (λ _, 3) (λ _, 1) (λ _, 1) sample_calculator tt throttle
    k time1 time2 confirmed infos.

#[export] Instance backup_laws : BackupLaws (CatapultState:=unit) observer.
Proof.
  split.
  - intros d. unfold backupChanges, map_enabled. induction d as [|[v|] d IH]; [done| |]; rewrite fmap_cons; constructor; try done.
    cbn. destruct (2 <=? sample_height v); by constructor.
  - intros d. unfold restoreChanges, backupChanges, map_enabled. induction d as [|[v|] d IH]; [done| |]; rewrite !fmap_cons; constructor; try done.
    cbn. destruct (2 <=? sample_height v) eqn:E; cbn; rewrite ?E; by constructor.
  - intros c n s s' r [= <- <-]. cbn [os_Cache set_cache]. unfold restoreChanges, add_value, map_enabled.
    induction (os_Cache s) as [|[v|] d IH]; [done| |]; rewrite !fmap_cons; constructor; try done.
    cbn. destruct (2 <=? sample_height v) eqn:E; cbn; rewrite ?E; by constructor.
Qed.

#[export] Instance quiet : QuietPlugins (λ _ : Z, Sample.type) (λ _, 16) publish validator observer (λ _ : unit, 1) throttle.
Proof. split; try done; intros; by eexists. Qed.

Abbreviation repr := (λ n (a : AggregateUtCacheModifier MemoryUtCache) q, ut_repr 3 n (m_modifier a) q).

Lemma start_repr n : Z.of_nat n < 2 ^ 64 → repr n (open_modifier (new_MemoryUtCache sample_options, [])) [].
Proof. exact (new_MemoryUtCache_repr sample_options n). Qed.

Lemma counted_sample : counted sample_cache.
Proof. unfold counted, counters. simpl. repeat (apply Forall_cons; split); try done; intros x [= <-]; by unfold in_range. Qed.

(** The second transaction is refused, the third pays too little. *)
Definition infos : list TransactionInfo := [transaction 10 5000; transaction 200 5000; transaction 20 100; transaction 30 5000].
Definition updated : Updater := fst (update_ sample_cache 500 infos (new_updater sample_cache)).

Lemma updated_run : update_ sample_cache 500 infos (new_updater sample_cache) = (updated, Ok [Update_New; Update_Invalid; Update_New; Update_New]).
Proof. vm_compute. reflexivity. Qed.

(** The first sub cache holds 300, and 340 with the two transactions that are cached. *)
Lemma unconfirmed_state_matches_cache_witness :
  ∃ d q, getAndTryLock sample_cache (m_detachedCatapultCache updated) = Some d
    ∧ (λ v, sample_value v) <$> (head d ≫= id) = Some 340 ∧ q = [transaction 10 5000; transaction 30 5000]
    ∧ executed_all (λ _, Sample.type) (λ _, 16) publish validator observer (λ _, tt) 8 q (detached_contents 7 sample_cache) d.
Proof.
  destruct (getAndTryLock sample_cache (m_detachedCatapultCache updated)) as [d|] eqn:Hd; [|vm_compute in Hd; done].
  edestruct (unconfirmed_state_matches_cache (λ _ : Z, Sample.type) (λ _, 16) publish validator observer (λ _, tt) (λ _, 3) (λ _, 1) (λ _, 1)
    sample_calculator tt throttle 3 repr sample_cache (new_MemoryUtCache sample_options, []) 10 0 4 sample_cache updated d) as (q & Hr & Hq).
  - exact counted_sample.
  - eexists. left.
  - by apply start_repr.
  - change 4%nat with (length infos + 0)%nat. eapply reach_new; [apply reach_start|exact updated_run].
  - done.
  - lia.
  - exact Hd.
  - exists d, q. split_and!; [done| | |exact Hq].
    + revert Hd. vm_compute. by intros [= <-].
    + rewrite <-(ut_queue _ _ _ _ Hr). vm_compute. reflexivity.
Defined.

Lemma start_inv n : Z.of_nat n < 2 ^ 64 →
  updater_inv (λ _, Sample.type) (λ _, 16) publish validator observer (λ _, tt) repr n 0 sample_cache (new_updater sample_cache) [].
Proof. intros Hn. apply new_UtUpdater_inv; [apply _|exact counted_sample|eexists; left|exact (start_repr n Hn)]. Qed.

(** The transaction that pays too little is not in the cache, and is broadcast. *)
Lemma update_results_classified_witness :
  (∃ u' kept fs, update_ sample_cache 500 infos (new_updater sample_cache)
     = (u', Ok ((λ info, if decide (ti_EntityHash info ∈ failed_hashes fs) then Update_Invalid else Update_New) <$> infos))
     ∧ m_failedTransactionSink u' = fs ∧ kept `sublist_of` infos)
  ∧ SelectValid infos [Update_New; Update_Invalid; Update_New; Update_New] = [transaction 10 5000; transaction 20 100; transaction 30 5000]
  ∧ (TransactionDataContainer (fst (m_transactionsCache updated))).*2 = [transaction 10 5000; transaction 30 5000].
Proof.
  split_and!; [|by vm_compute|by vm_compute].
  destruct (update_results_classified (λ _, Sample.type) (λ _, 16) publish validator observer (λ _, tt) (λ _, 3) (λ _, 1) (λ _, 1)
    sample_calculator tt throttle 3 repr 5 sample_cache (new_updater sample_cache) [] 500 infos) as (u' & kept & fs & Hrun & _ & _ & Hf & Hk & _).
  - by apply (start_inv 9).
  - apply (bool_decide_unpack _). by vm_compute.
  - exists u', kept, fs. split; [exact Hrun|]. split; [exact Hf|exact Hk].
Defined.

(** A block confirms transaction 10 and makes the number 301, and 5 is reverted. *)
Definition rebuilt : Updater := fst (update_confirmed_ sample_commit 500 600 {[ replicate 32 10 ]} [transaction 5 5000] updated).

Lemma updated_repr : repr 8%nat (open_modifier (m_transactionsCache updated)) [transaction 10 5000; transaction 30 5000].
Proof.
  destruct (update_inv (λ _, Sample.type) (λ _, 16) publish validator observer (λ _, tt) (λ _, 3) (λ _, 1) (λ _, 1)
    sample_calculator tt throttle 3 repr 8 0 sample_cache (new_updater sample_cache) [] 500 infos updated
    [Update_New; Update_Invalid; Update_New; Update_New] (start_inv 12 eq_refl) eq_refl updated_run) as [q Hi].
  pose proof (ui_repr _ _ _ _ _ _ _ _ _ _ _ _ Hi) as Hr. pose proof (ut_queue _ _ _ _ Hr) as Hq.
  assert ((TransactionDataContainer (m_modifier (open_modifier (m_transactionsCache updated)))).*2 = [transaction 10 5000; transaction 30 5000]) as Hc by (by vm_compute).
  rewrite Hc in Hq. by subst q.
Qed.

Lemma update_confirmed_rebuilds_cache_witness :
  ∃ u' d, update_confirmed_ sample_commit 500 600 {[ replicate 32 10 ]} [transaction 5 5000] updated = (u', Ok tt)
    ∧ (TransactionDataContainer (fst (m_transactionsCache u'))).*2 = [transaction 5 5000; transaction 30 5000]
    ∧ getAndTryLock sample_commit (m_detachedCatapultCache u') = Some d ∧ (λ v, sample_value v) <$> (head d ≫= id) = Some 336.
Proof.
  destruct (update_confirmed_rebuilds_cache (λ _, Sample.type) (λ _, 16) publish validator observer (λ _, tt) (λ _, 3) (λ _, 1) (λ _, 1)
    sample_calculator tt throttle 3 repr 5 sample_commit updated [transaction 10 5000; transaction 30 5000] 500 600 {[ replicate 32 10 ]}
    [transaction 5 5000]) as (u' & kept1 & kept2 & fs1 & fs2 & Hrun & _ & (d & Hd & _) & _).
  - unfold counted, counters. simpl. repeat (apply Forall_cons; split); try done; intros x [= <-]; by unfold in_range.
  - eexists. left.
  - exact updated_repr.
  - exists u', d. split; [exact Hrun|]. assert (u' = rebuilt) as -> by (unfold rebuilt, update_confirmed_; by rewrite Hrun).
    split; [by vm_compute|]. split; [exact Hd|]. revert Hd. vm_compute. by intros [= <-].
Defined.

End UtSample.
End UtUpdater.
