(* ===== verification/DeltaSetCaches.v ===== *)
(** Caches that keep their elements in one delta set, as sub caches of the
    catapult cache: their adapter (catapult/cache/SubCachePluginAdapter.h) backs
    up and restores the delta through [DeltaElementsMixin]
    (catapult/deltaset/DeltaElementsMixin.h).

    The file discharges [BackupLaws], the interface against which the updater of
    unconfirmed transactions is proved, for all plugins whose observers change
    such caches by operations of the delta set: restoring undoes whatever they
    did.  The namespace cache keeps three sets and backs up one of them, which is
    the case NamespaceBackup.v is about. *)
From stdpp Require Import base tactics numbers option list gmap relations.
From S2P Require Import Prelude Notifications StatementBuilder CatapultCache BaseSetDelta BlockExecution UtCache UtUpdater.

Local Open Scope Z_scope.

Module DeltaSetCaches.
Import Notifications StatementBuilder CatapultCache BlockExecution UtUpdater.

Section caches.
Context {Key E : Type} `{Countable Key} (ToKey : E → Key) (tag : DeltaSet.MutabilityTag).

(** A delta of such a cache: the height it was given, the committed elements
    and the delta over them. *)
Record SetCacheDelta := {
  sc_height : Z;
  sc_original : gmap Key E;
  sc_delta : DeltaSet.BaseSetDelta Key E;
}.

Definition on_set (f : DeltaSet.BaseSetDelta Key E → DeltaSet.BaseSetDelta Key E) (v : SetCacheDelta) : SetCacheDelta :=
  {| sc_height := sc_height v; sc_original := sc_original v; sc_delta := f (sc_delta v) |}.

(** A cache without merkle root. *)
#[export] Instance SetCacheDelta_view : SubCacheView SetCacheDelta := {
  view_enabled _ := true;
  view_setHeight height v := {| sc_height := height; sc_original := sc_original v; sc_delta := sc_delta v |};
  view_supportsMerkleRoot _ := false;
  view_tryGetMerkleRoot _ := None;
  view_setMerkleRoot _ v := v;
  view_updateMerkleRoot _ v := v;
  view_backupChanges replace := on_set (DeltaSet.backupChanges replace);
  view_restoreChanges := on_set DeltaSet.restoreChanges;
}.

(** Deltas are the same when they give the same elements. *)
Definition elements (v : SetCacheDelta) : gmap Key E := DeltaSet.view (sc_original v) (sc_delta v).

#[export] Instance SetCacheDelta_equiv : Equiv SetCacheDelta := λ v v',
  sc_height v = sc_height v' ∧ sc_original v = sc_original v' ∧ elements v = elements v'.

#[export] Instance SetCacheDelta_ViewEquiv : ViewEquiv SetCacheDelta.
Proof.
  split; try done.
  - split.
    + by intros v.
    + by intros v v' (? & ? & ?).
    + intros v1 v2 v3 (H1 & H2 & H3) (H4 & H5 & H6). split_and!; by etransitivity.
  - intros height v v' (H1 & H2 & H3). by split_and!.
Qed.

(** The operations observers have: the others are called by the caches only. *)
Definition is_change (op : DeltaSet.SetOp (K := Key) (V := E)) : bool :=
  match op with
  | DeltaSet.OpFind _ | DeltaSet.OpContains _ | DeltaSet.OpModify _ | DeltaSet.OpInsert _ | DeltaSet.OpRemove _
  | DeltaSet.OpSize | DeltaSet.OpNextGeneration => true
  | _ => false
  end.

Definition changed (v v' : SetCacheDelta) : Prop :=
  ∃ ops, Forall (λ op, is_change op = true) ops
    ∧ v' = on_set (λ s, foldl (λ s op, fst (DeltaSet.delta_op ToKey tag (sc_original v) op s)) s ops) v.

Definition backup_vectors (s : DeltaSet.BaseSetDelta Key E) :=
  (DeltaSet.m_addedElementsBackup s, DeltaSet.m_removedElementsBackup s, DeltaSet.m_copiedElementsBackup s,
   DeltaSet.m_keyGenerationIdMapBackup s).

Lemma op_keeps_backups op o s :
  is_change op = true → backup_vectors (fst (DeltaSet.delta_op ToKey tag o op s)) = backup_vectors s.
Proof.
  assert (∀ k, backup_vectors (fst (DeltaSet.find ToKey tag o s k)) = backup_vectors s) as Hfind.
  { intros k. unfold DeltaSet.find, DeltaSet.find_tagged, DeltaSet.find_original, DeltaSet.find_added. by destruct tag; case_all. }
  destruct op; try done; intros _; cbn [DeltaSet.delta_op].
  - unfold DeltaSet.modify_found. specialize (Hfind (ToKey v)). destruct (DeltaSet.find _ _ _ _ _) as [s' it]. rewrite <-Hfind.
    destruct tag, it as [[]|]; done.
  - unfold DeltaSet.insert, DeltaSet.insert_mutable, DeltaSet.insert_immutable. by destruct tag; case_all.
  - unfold DeltaSet.remove, DeltaSet.remove_mutable, DeltaSet.remove_immutable. by destruct tag; case_all.
Qed.

Lemma changed_keeps_backups v v' :
  changed v v' → sc_height v' = sc_height v ∧ sc_original v' = sc_original v ∧ backup_vectors (sc_delta v') = backup_vectors (sc_delta v).
Proof.
  intros (ops & Hops & ->). split_and!; [done..|]. cbn [sc_delta on_set]. generalize (sc_delta v).
  induction Hops as [|op ops Hop _ IH]; intros s; [done|]. cbn [foldl]. by rewrite IH, op_keeps_backups.
Qed.

(** Restoring looks at the backups only. *)
Lemma restored_elements v v' : changed v v' → view_restoreChanges v' ≡ view_restoreChanges v.
Proof.
  intros (Hh & Ho & Hb)%changed_keeps_backups. split_and!; [done..|]. unfold elements. cbn [view_restoreChanges SetCacheDelta_view on_set sc_original sc_delta].
  rewrite Ho. unfold backup_vectors in Hb. injection Hb as H1 H2 H3 H4. unfold DeltaSet.view, DeltaSet.restoreChanges.
  cbn [DeltaSet.m_copiedElements DeltaSet.m_addedElements DeltaSet.m_removedElements]. by rewrite H1, H2, H3.
Qed.

(** Observers that change the caches by operations of their sets. *)
Context {Notification CatapultState Config : Type}.
Context (observer : Observer Notification (CatapultCacheDelta SetCacheDelta) CatapultState BlockStatementBuilder Config).

Definition changes_sets : Prop :=
  ∀ c n s s' r, observer c n s = (s', r) → Forall2 (option_Forall2 changed) (os_Cache s) (os_Cache s').

(** With such observers, the caches can be restored. *)
Theorem set_caches_restorable : changes_sets → BackupLaws observer.
Proof.
  intros Hobs. split.
  - intros d. unfold backupChanges, map_enabled. induction d as [|[v|] d IH]; [done| |]; rewrite fmap_cons; by repeat constructor.
  - intros d. unfold restoreChanges, backupChanges, map_enabled.
    induction d as [|[v|] d IH]; [done| |]; rewrite !fmap_cons; by repeat constructor.
  - intros c n s s' r Ho. specialize (Hobs c n s s' r Ho). unfold restoreChanges, map_enabled.
    induction Hobs as [|o o' d d' Hc _ IH]; [done|]. rewrite !fmap_cons. constructor; [|done].
    destruct Hc as [v v' Hc|]; constructor. by apply restored_elements.
Qed.

End caches.

(** An observer that inserts the element a notification carries, and removes it
    again when a block is rolled back. *)
Definition sample_observer : Observer (Z * Z) (CatapultCacheDelta (SetCacheDelta (Key := Z) (E := Z * Z))) unit BlockStatementBuilder unit := λ c n,
  on_cache (map_enabled (λ v, on_set (λ s, fst (DeltaSet.delta_op fst DeltaSet.MutableTypeTag (sc_original v)
    (match oc_Mode c with Commit => DeltaSet.OpInsert n | Rollback => DeltaSet.OpRemove (fst n) end) s)) v)).

Lemma set_caches_restorable_witness : BackupLaws sample_observer.
Proof.
  apply (set_caches_restorable fst DeltaSet.MutableTypeTag). intros c n s s' r [= <- _]. cbn [os_Cache set_cache].
  unfold map_enabled. induction (os_Cache s) as [|[v|] d IH]; [constructor| |]; rewrite fmap_cons; constructor; try done; constructor.
  exists [match oc_Mode c with Commit => DeltaSet.OpInsert n | Rollback => DeltaSet.OpRemove (fst n) end].
  split; [|done]. apply Forall_singleton. by destruct (oc_Mode c).
Defined.

End DeltaSetCaches.
